(* ===== verification/_CoqProject ===== *)
-Q . S2P
Prelude.v
Text.v
Bytes.v
Float.v
Policy.v
Circuit.v
Sentence.v
SentenceSpec.v
BrokerTypes.v
BrokerCore.v
Broker.v
BrokerSim.v
BrokerInv.v
BrokerLedger.v
BrokerSpec.v
BrokerAdmission.v
BrokerLifecycle.v
PcmWire.v
PcmInput.v
Response.v
Clause.v
Delivery.v
ResponseStream.v
ResponseSpec.v
Sse.v
VoiceRoute.v
Prog.v
Turn.v
Lanes.v
LaneSpec.v
SpeechSpec.v
TurnSpec.v
Supervisor.v
SupervisorSpec.v
TurnExample.v
Measurement.v
Governor.v
GovernorSpec.v
Scheduler.v
SchedulerSpec.v
GovernorExample.v
Vdf.v
ProtoEvents.v
ProtoEnvelope.v
ProtoSpec.v
Identity.v
Tracker.v
TrackerFacts.v
TrackerSpec.v
Resolver.v
ResolverSpec.v
Qualified.v
QualifiedSpec.v
IdentityExample.v
HostedTypes.v
HostedRequest.v
HostedParser.v
HostedStream.v
HostedSpec.v
HostedTheorems.v
HostedExample.v
ProfileValidation.v
ProfileSpec.v
ProfileMigration.v
ProfileExample.v
MemoryTypes.v
MemoryStore.v
MemoryFacts.v
MemoryItems.v
MemorySpec.v
MemoryItemsSpec.v
MemoryExample.v
CharacterDb.v
CharacterSpec.v
EncounterSpec.v
CharacterExample.v
Archive.v
PackManifest.v
PackManager.v
PackSpec.v
