(* ===== verification/Prelude.v ===== *)
(** * Interactive LLM Powered NPCs 2.0: the verified runtime core

    The program is a desktop companion that lets a player talk with the characters of a
    game: it hears the player, recognises who is on screen, asks a language model for an
    answer in a fixed envelope, speaks and subtitles the sentences as they arrive, and
    keeps its own use of the GPU out of the game's way. The repository is a Rust
    workspace; this library models the crates that carry its core logic as pure
    functions and step relations, and proves what they promise.

    ** The parts and where they are

    - [Prelude], [Text], [Bytes], [Float]: fallible code ([result]), panics and fuel
      ([outcome]), machine integers, stable sorting, [BTreeMap] and [HashMap] iteration,
      cancellation tokens; Rust text with its byte offsets; UTF-8 and little-endian
      integers; IEEE 754 numbers.
    - Shared runtime types, policy, circuit breaker, cancellation generations
      ([crates/runtime-core/src/{types,policy,circuit_breaker,cancellation}.rs]): [Policy]
      and [Circuit], two components each.
    - The sentence segmenter ([runtime-core/src/sentence.rs]): [Sentence], with its
      proofs in [SentenceSpec].
    - The resource broker ([runtime-core/src/resource_broker.rs]), which admits the jobs
      of local and hosted models next to the game: data in [BrokerTypes], the helper
      functions in [BrokerCore], the public methods in [Broker]. [BrokerSim] reduces
      every operation to steps of a scheduling core; [BrokerInv] and
      [BrokerLedger] prove the core's invariants, [BrokerLifecycle] those of the books
      around it; the theorems are in [BrokerSpec], [BrokerAdmission], [BrokerLifecycle].
    - The audio input of the runtime host
      ([apps/runtime-host/src/audio_input/broker.rs]): [PcmWire] (the decoders) and
      [PcmInput] (the source of one capture).
    - A turn of dialogue. The structured response of the language model
      ([runtime-core/src/structured_response.rs]): [Response], [Delivery],
      [ResponseStream], [ResponseSpec]. Hosted speech and streams
      ([crates/providers-tts/src/{clause,fallback}.rs], [providers-llm/src/sse.rs]):
      [Clause], [VoiceRoute], [Sse]. The supervisor ([runtime-core/src/supervisor.rs]):
      [Prog] (programs over an environment and the calculus for them), [Turn], [Lanes]
      (the lanes, and one turn from start to end), [Supervisor], with the theorems in [LaneSpec], [SpeechSpec],
      [TurnSpec], [SupervisorSpec].
    - The resource governor of the model manager
      ([crates/model-manager/src/resource_governor.rs]): [Measurement] (signed
      measurements), [Governor] (admission of a loadout, idle models), [Scheduler] (the work
      queue), with [GovernorSpec] and [SchedulerSpec].
    - The model packs of the model manager
      ([crates/model-manager/src/{archive,manifest,catalog,selection,attestation,lifecycle,optional_lifecycle}.rs]):
      [Archive] (what an archive may contain), [PackManifest] (manifests, signed catalogs,
      selections, challenges), [PackManager] (downloads, verification, self-test,
      activation, removal, rollback and repair over a storage), with [PackSpec].
    - The identity engine ([crates/identity-engine/src]): who is on screen.
      [Identity] (boxes, embeddings, the gallery), [Tracker] (continuity of actors from
      frame to frame), [Resolver] (the identity of one track and the engine that joins
      the two), [Qualified] (imported references and trusted capture frames), with
      [TrackerSpec], [ResolverSpec], [QualifiedSpec].
    - Launcher library files ([crates/game-discovery/src/vdf.rs]): [Vdf].
    - The transport protocol between the processes ([crates/protocol/src]): [ProtoEvents],
      [ProtoEnvelope], [ProtoSpec].
    - Hosted language models
      ([crates/providers-llm/src/{types,error,adapter,parser,runtime_bridge}.rs]):
      [HostedTypes] (endpoints, descriptors, errors and their checks), [HostedRequest]
      (the bodies of the protocols and schema translation), [HostedParser] (the
      parsers of the stream protocols, a monad of state, events and errors),
      [HostedStream] (the generation stream, lists of models, the bridge to the
      runtime). [HostedSpec] is the grammar of a well-formed stream with a program
      logic for the parsers' monad, [HostedTheorems] what the streams promise.

    - Authored game profiles ([crates/game-profile/src/{model,validation,migration}.rs]):
      [ProfileValidation] (the data and every check of a document, of text and of paths), [ProfileMigration] (documents of version 1), with [ProfileSpec] (what a
      well-formed profile is).
    - Conversation memory ([crates/memory/src/{domain,store,schema,retrieval}.rs]):
      [MemoryTypes] (the data and its checks), [MemoryStore] (the tables, the batch of a
      turn, the context of a prompt, erasure), [MemoryItems] (free-form items, embeddings,
      the outbox and search). [MemoryFacts] describes the statements, [MemorySpec] and
      [MemoryItemsSpec] the operations.
    - Characters
      ([crates/character-db/src/{database,selection,turn,prompt,encounter}.rs]):
      [CharacterDb] (the index over a profile, who is spoken to, summaries, the lanes of a
      prompt, unnamed characters), with [CharacterSpec] and [EncounterSpec].

    A file ending in [Example], or the end of a file in [Spec], holds concrete instances of the abstract parts and the
    theorems applied to them.

    ** How the parts interact

    [Supervisor.start_turn] plans a turn with [Policy.evaluate], admits it with the
    broker's operations of [Broker], takes a generation of [Circuit.next] and
    runs the task of [Lanes]; the task calls providers through the permits of [Circuit], cuts
    the stream with [Sentence] and reports outcomes built from [Response]. The adapter of
    [ResponseStream] uses the same segmenter. The tracker's observations are the
    resolver's input ([Resolver.process_frame]), and the adapter of [Qualified] is the
    only source of its frames. [HostedStream] feeds the frames of [Sse] to a parser of
    [HostedParser]; its bridge turns the events into the provider stream that the
    language-model lane of [Lanes] reads. A profile that [ProfileValidation] accepts is
    the input of [CharacterDb.database_new]; [CharacterDb.build_prompt_context] joins its knowledge with the
    context [MemoryStore.retrieve_context] reads; what a turn delivered comes back through
    [MemoryStore.commit_batch]. What [Governor] admits is what
    [PackManifest.measured_local_authorize] needs to let a pack be activated, and the paths
    of a manifest are those [Archive] accepts.

    ** How code becomes definitions

    A structure is a [Record], an enumeration an [Inductive]; a method that takes
    [&mut self] is a function from the state to the state and its result, kept also on
    the error branches. A method that runs under one mutex is one atomic step. Unsigned
    integers are integers of [Z] with the operations the source uses: saturating,
    checked, or wrapping where it writes a plain [+] in release builds. Text is a list of
    scalar values with UTF-8 byte offsets; a slice at a bad offset, an index out of range
    and an [unwrap] are panics ([None], or [Panic] of [outcome]). Floating-point numbers
    follow [SpecFloat].

    Loops that are not structural take fuel. The fuel is the byte or character length of
    what the loop consumes plus one, and for each of them a theorem shows it is enough:
    [Sse.sse_returns], [SentenceSpec.segmenter_spans_exact] and
    [Clause.clause_stream_speaks_everything] conclude that a result is produced. The
    translation of a JSON schema takes twice the depth of the schema plus one, and
    [HostedTheorems.adapter_stream_returns] shows that a hosted stream always returns.

    The tables of the SQL store are finite maps from their primary keys, and a statement is
    a function on them that also runs the constraints the schema declares: [CHECK]s, unique
    indexes, foreign keys and triggers are errors with SQLite's codes. [MemoryStore.tx] is
    the error monad of the statements of one transaction, and
    [MemoryStore.run_transaction] keeps the old tables when one of them fails. What the
    code draws, an identifier or the time, is an argument. [ProfileValidation.security_walk]
    takes the depth of the document plus one as its fuel, which [ProfileSpec] shows to be
    enough.

    The asynchronous lanes of a turn are programs ([Prog.prog]) over the operations of
    their environment. [runs] quantifies over every answer the environment can give, so
    a theorem on all runs covers every provider, clock and cancellation. The three lanes
    run concurrently in the code and share only the environment and the channel of
    sentences; the model runs them one after the other, so the order of the actions of
    different lanes has no meaning. A provider's stream is a finite list of answers, read
    item by item against cancellation. The collector of timing spans is written to and
    never read, so only its spans are modelled.

    ** What is a parameter

    Code that is not in the repository is an interface with the documented behaviour the
    code relies on: cancellation tokens ([Prelude.CancelApi]), the iteration order of
    hash maps ([Prelude.HashIter]), the JSON reader ([ResponseStream.JsonApi],
    [ProtoEnvelope.ParameterJson]), telemetry ([BrokerTypes.BudgetTelemetry]), signatures
    and digests ([Measurement.CatalogApi]), the bytes of a pack's structures
    ([PackManifest.PackApi]), the storage of packs ([PackManager.PackStorage]), the
    protobuf codec ([ProtoEnvelope.ProstApi]),
    the planner of the host, SHA-256 ([Bytes.DigestApi]), the tables of Unicode
    ([Text.UnicodeApi]), the sign of a NaN the processor makes ([Float.NanApi]), the
    platform's [hypot] ([Tracker.TrackerApi]), JSON values, URLs and header values of
    hosted services ([HostedTypes.JsonValueApi], [HostedTypes.UrlApi],
    [HostedRequest.HeaderApi]), the decoders, the JSON Schema and the regular expressions
    of profiles ([ProfileValidation.ProfileApi], [ProfileMigration.MigrationApi],
    [CharacterDb.PromptApi]), the full-text index ([MemoryItems.FtsApi]) and named
    identifiers ([CharacterDb.UuidApi]).
    Each has an instance in an [Example] file.

    The exact ledger of the broker is stated for hosts that follow the calling discipline
    the broker's documentation asks for ([strict = true]) and for sums that do not
    saturate; the two ways an undisciplined host breaks it are theorems of [BrokerSpec].

    ** The theorems

    - Safety of the player's machine and data: what the broker and the governor admit fits
      the measured memory, one exclusive job owns the GPU, no job runs where its privacy
      level forbids, a turn calls only authorised providers and stops when cancelled.
    - Exactness of streams: sentences, clauses, events, spans and captured audio are
      exactly what arrived, in order, without loss or repetition, however it was cut.
    - Lifecycle: reachable states keep their invariants, every permit, lease and session
      is given back, a turn ends with one report that says how it ended, measurements never
      roll back.
    - Identity: an actor keeps one track, a track one identity at a time, every name comes
      from the gallery or from the player, and imports are all or nothing.
    - Hosted services: whatever bytes a service sends and however the network cuts them,
      the events form a well-formed stream, the bridge hands on exactly its text, and a
      credential travels only over TLS or to the machine itself.
    - Authored data: a profile is loaded exactly when every check passes, spelled out, and
      an old document migrates exactly under the conditions listed, to the same content,
      field by field.
    - Memory: a batch stores what was delivered, whole or not at all and once; erasure
      removes one scope exactly and counts it truly; context and search stay inside what
      was asked for, the best first; a job has one worker; the constraints of the tables,
      column by column, hold in every reachable store.
    - Model packs: an archive, a manifest and an artifact are accepted exactly when they are
      what they claim, catalogs never roll back, and every activation was earned by a
      self-test of the very content that was staged, whatever the storage answers.
    - Characters: a selection has a reason that holds, a prompt tells only what this
      character may tell in this scope, and an encounter lives once.
    - Codecs: decoders accept exactly the encodings, and round trips hold.

    ** Not modelled

    Network adapters of hosted speech and transcription, the connections and timeouts of
    the language-model adapter (its reads are a list of answers), the HTTP transport of
    downloads, the extraction and the file system of model packs (the manager sees a
    storage through its interface), the second format of manifests, the desktop control application, the simulation of the runtime
    host, credentials, telemetry and benchmarks: operating-system, network or database
    effects around third-party crates, with little logic of their own that a pure model
    could state. Of the memory store, backup, recovery, integrity reports, the migration of
    the schema and the queue of the writer thread, which runs one command at a time, are
    left out for the same reason; the tables' text is what SQLite stores, so JSON columns
    are kept as the values they encode. Of the characters, the import of files in other
    formats and embedding metadata, and of the games, discovery beyond its file format, are
    not modelled; nor is the layout of subtitles, although it is logic of the same kind as
    the modelled parts. *)

From Stdlib Require Export ZArith Lia Ascii.
From stdpp Require Export base tactics sorting strings numbers gmap list.

#[local] Open Scope Z_scope.
#[global] Set Default Goal Selector "!".

(** ** Fallible code: Rust's [Result<A, E>] *)

Inductive result (E A : Type) : Type :=
| Ok (a : A)
| Err (e : E).
Arguments Ok {E A} a.
Arguments Err {E A} e.

#[export] Instance result_ret {E} : MRet (result E) := λ A a, Ok a.
#[export] Instance result_bind {E} : MBind (result E) := λ A B f r,
  match r with Ok a => f a | Err e => Err e end.
#[export] Instance result_eq_dec {E A} `{EqDecision E, EqDecision A} :
  EqDecision (result E A).
Proof. solve_decision. Defined.

(** [ensure b e] is the guard [if !b { return Err(e) }]. *)
Definition ensure {E} (b : bool) (e : E) : result E unit :=
  if b then Ok tt else Err e.

(** [ok_or o e] is [Option::ok_or]. *)
Definition ok_or {E A} (o : option A) (e : E) : result E A :=
  match o with Some a => Ok a | None => Err e end.

(** [o.or_else(|| ...)]. *)
Definition or_else {A} (o p : option A) : option A :=
  match o with Some a => Some a | None => p end.

(** [Result::map_err], and what [?] does to a transparent error. *)
Definition map_err {E F A} (f : E → F) (r : result E A) : result F A :=
  match r with Ok a => Ok a | Err e => Err (f e) end.

Definition is_ok {E A} (r : result E A) : bool :=
  match r with Ok _ => true | Err _ => false end.

(** A loop that stops at the first error: [for x in l { check(x)?; }]. *)
Fixpoint check_all {E A} (check : A → result E unit) (l : list A) : result E unit :=
  match l with
  | [] => Ok tt
  | x :: l => _ ← check x; check_all check l
  end.

Lemma bind_Ok {E A B} (r : result E A) (f : A → result E B) b :
  r ≫= f = Ok b ↔ ∃ a, r = Ok a ∧ f a = Ok b.
Proof. destruct r as [a|e]; cbn; [|naive_solver]. split; [by exists a|]. by intros (?&[= <-]&?). Qed.

Lemma bind_unit_Ok {E B} (r : result E unit) (f : unit → result E B) b :
  r ≫= f = Ok b ↔ r = Ok tt ∧ f tt = Ok b.
Proof. rewrite bind_Ok. split; [by intros ([]&?&?)|]. intros [? ?]. by exists tt. Qed.

Lemma ok_or_Ok {E A} (o : option A) (e : E) a : ok_or o e = Ok a ↔ o = Some a.
Proof. destruct o; cbn; naive_solver. Qed.

Lemma bind_ok_or {E A B} (o : option A) (e : E) (f : A → result E B) b :
  ok_or o e ≫= f = Ok b ↔ ∃ a, o = Some a ∧ f a = Ok b.
Proof. destruct o; cbn; naive_solver. Qed.

Lemma map_err_Ok {E F A} (f : E → F) (r : result E A) a : map_err f r = Ok a ↔ r = Ok a.
Proof. destruct r; cbn; naive_solver. Qed.

Lemma ensure_Ok {E} (b : bool) (e : E) : ensure b e = Ok tt ↔ b = true.
Proof. by destruct b. Qed.

(** The guard [if b { return Err(e) } ...]. *)
Lemma if_err_Ok {E A} (b : bool) (e : E) (r : result E A) a :
  (if b then Err e else r) = Ok a ↔ b = false ∧ r = Ok a.
Proof. destruct b; naive_solver. Qed.

Lemma not_ne_iff `{EqDecision A} (x y : A) : ¬ x ≠ y ↔ x = y.
Proof. destruct (decide (x = y)); naive_solver. Qed.

(** The lemmas that read a cascade of checks which succeeded, and the tactic that uses
    them. *)
Create HintDb checks.
#[export] Hint Rewrite @bind_unit_Ok @bind_ok_or @ensure_Ok @if_err_Ok @map_err_Ok
  orb_false_iff negb_false_iff negb_true_iff andb_true_iff
  @bool_decide_eq_false @bool_decide_eq_true @not_ne_iff
  Z.eqb_eq Z.eqb_neq Z.leb_le Z.leb_gt Z.ltb_lt Z.ltb_ge : checks.
Ltac read_checks H := autorewrite with checks in H.

Lemma omap_none {A B} (f : A → option B) l : Forall (λ x, f x = None) l → omap f l = [].
Proof. induction 1 as [|x l Hx _ IH]; [done|]. cbn. by rewrite Hx. Qed.

Lemma check_all_Ok {E A} (check : A → result E unit) l :
  check_all check l = Ok tt ↔ Forall (λ x, check x = Ok tt) l.
Proof.
  induction l as [|x l IH]; cbn; [by split; [constructor|]|].
  by rewrite bind_unit_Ok, IH, Forall_cons.
Qed.

(** ** Code that can panic, run with fuel *)

Inductive outcome (A : Type) : Type :=
| Done (a : A)
| Panic
| OutOfFuel.
Arguments Done {A} a.
Arguments Panic {A}.
Arguments OutOfFuel {A}.

#[export] Instance outcome_ret : MRet outcome := λ A a, Done a.
#[export] Instance outcome_bind : MBind outcome := λ A B f r,
  match r with Done a => f a | Panic => Panic | OutOfFuel => OutOfFuel end.

(** [None] is a panic. *)
Definition of_panic {A} (o : option A) : outcome A :=
  match o with Some a => Done a | None => Panic end.

(** ** Machine integers

    Unsigned integers are integers of [Z]; the width shows in the operations.
    [saturating_add]/[saturating_sub] clamp, a plain [+] of the release
    profile wraps. *)

Definition u8_max : Z := 255.
Definition u16_max : Z := 65535.
Definition u32_max : Z := 4294967295.
Definition u64_max : Z := 18446744073709551615.

Definition in_u32 (x : Z) : Prop := 0 ≤ x ≤ u32_max.
Definition in_u64 (x : Z) : Prop := 0 ≤ x ≤ u64_max.

Definition sat_add64 (a b : Z) : Z := Z.min (a + b) u64_max.
Definition sat_add32 (a b : Z) : Z := Z.min (a + b) u32_max.
Definition sat_sub (a b : Z) : Z := Z.max (a - b) 0.
Definition sat_mul64 (a b : Z) : Z := Z.min (a * b) u64_max.
Definition wrap_add32 (a b : Z) : Z := (a + b) `mod` 4294967296.
Definition wrap_add64 (a b : Z) : Z := (a + b) `mod` 18446744073709551616.

(** ** Options *)

(** [Option::is_some_and] and [Option::is_none_or]. *)
Definition is_some_and {A} (o : option A) (p : A → bool) : bool :=
  match o with Some a => p a | None => false end.
Definition is_none_or {A} (o : option A) (p : A → bool) : bool :=
  match o with Some a => p a | None => true end.
Definition is_some {A} (o : option A) : bool :=
  match o with Some _ => true | None => false end.
Definition is_none {A} (o : option A) : bool := negb (is_some o).

(** ** Stable sorting: [slice::sort_by] *)

Section sort_by.
Context {A : Type} (cmp : A → A → comparison).

(** [x] goes before the first element that is strictly greater, so equal
    elements keep their order. *)
Fixpoint sort_insert (x : A) (l : list A) : list A :=
  match l with
  | [] => [x]
  | y :: l' =>
      match cmp x y with
      | Gt => y :: sort_insert x l'
      | _ => x :: l
      end
  end.

Fixpoint sort_by (l : list A) : list A :=
  match l with
  | [] => []
  | x :: l' => sort_insert x (sort_by l')
  end.

Lemma sort_insert_perm x l : sort_insert x l ≡ₚ x :: l.
Proof.
  induction l as [|y l IH]; [done|]. cbn. case_match; [done..|].
  rewrite IH. apply Permutation_swap.
Qed.

Lemma sort_by_perm l : sort_by l ≡ₚ l.
Proof. induction l as [|x l IH]; [done|]. cbn. by rewrite sort_insert_perm, IH. Qed.

(** The result is sorted when the comparison is a total preorder. *)
Definition cmp_le (x y : A) : Prop := cmp x y ≠ Gt.

Lemma sort_by_sorted l :
  (∀ x y, cmp x y = Gt → cmp_le y x) → Sorted cmp_le (sort_by l).
Proof.
  intros Htot. induction l as [|x l IH]; [constructor|]. cbn.
  induction IH as [|y l' Hs IH' Hd]; cbn; [by repeat constructor|].
  case_match eqn:E.
  1,2: constructor; [by constructor|]; constructor; unfold cmp_le; by rewrite E.
  constructor; [done|]. apply Htot in E.
  destruct l' as [|z l']; cbn; [by constructor|]. inversion_clear Hd.
  by case_match; constructor.
Qed.
End sort_by.

(** [Ordering::then_with]. *)
Definition then_with (c d : comparison) : comparison :=
  match c with Eq => d | _ => c end.

(** A comparison function of a total preorder. *)
Definition cmp_preorder {A} (cmp : A → A → comparison) : Prop :=
  (∀ x y, cmp y x = CompOpp (cmp x y)) ∧
  (∀ x y z, cmp_le cmp x y → cmp_le cmp y z → cmp_le cmp x z).

Lemma cmp_preorder_flip {A} (cmp : A → A → comparison) :
  cmp_preorder cmp → cmp_preorder (λ x y, cmp y x).
Proof. intros [Hopp Htr]. split; [by intros x y; apply Hopp|]. intros x y z ??. by apply (Htr z y x). Qed.

Lemma cmp_preorder_map {A B} (key : A → B) (cmp : B → B → comparison) :
  cmp_preorder cmp → cmp_preorder (λ x y, cmp (key x) (key y)).
Proof. intros [Hopp Htr]. split; [intros x y; apply Hopp|]. intros x y z. apply Htr. Qed.

Lemma cmp_preorder_then {A} (c d : A → A → comparison) :
  cmp_preorder c → cmp_preorder d → cmp_preorder (λ x y, then_with (c x y) (d x y)).
Proof.
  intros [Hc Hct] [Hd Hdt]. split.
  - intros x y. rewrite (Hc x y), (Hd x y). by destruct (c x y).
  - intros x y z. unfold cmp_le. specialize (Hct x y z) as Ht. specialize (Hct y z x) as Ht'.
    specialize (Hct z x y) as Ht''. specialize (Hdt x y z). unfold cmp_le in *.
    rewrite (Hc x z), (Hc x y), (Hc y z) in *.
    destruct (c x y), (c y z), (c x z); cbn in *; naive_solver.
Qed.

Lemma sort_by_strongly_sorted {A} (cmp : A → A → comparison) l :
  cmp_preorder cmp → StronglySorted (cmp_le cmp) (sort_by cmp l).
Proof.
  intros [Hopp Htr]. apply Sorted_StronglySorted; [exact Htr|]. apply sort_by_sorted.
  intros x y Hgt. unfold cmp_le. by rewrite Hopp, Hgt.
Qed.

(** ** Ordered maps: [BTreeMap]

    A [BTreeMap] is a finite map; its iteration goes through the keys in the order of
    [Ord]. *)

Class Ordered (K : Type) := {
  ocmp : K → K → comparison;
  ocmp_Eq : ∀ x y, ocmp x y = Eq ↔ x = y;
  ocmp_opp : ∀ x y, ocmp y x = CompOpp (ocmp x y);
  ocmp_trans : ∀ x y z, ocmp x y = Lt → ocmp y z = Lt → ocmp x z = Lt
}.

(** A derived [Ord] of an enumeration: declaration order. *)
Definition ordered_by {K} (rank : K → Z) (Hinj : Inj (=) (=) rank) : Ordered K.
Proof.
  refine {| ocmp x y := Z.compare (rank x) (rank y) |}.
  - intros x y. rewrite Z.compare_eq_iff. split; [apply Hinj|by intros ->].
  - intros x y. apply Z.compare_antisym.
  - intros x y z. rewrite !Z.compare_lt_iff. apply Z.lt_trans.
Defined.

#[export] Instance ordered_Z : Ordered Z := ordered_by (λ x, x) _.

(** A derived [Ord] of a structure of two fields. *)
#[export] Instance ordered_pair {K L} `{Ordered K, Ordered L} : Ordered (K * L).
Proof.
  refine {| ocmp x y := then_with (ocmp x.1 y.1) (ocmp x.2 y.2) |}.
  - intros [a b] [c d]. cbn. destruct (ocmp a c) eqn:E; cbn.
    + apply ocmp_Eq in E as ->. rewrite ocmp_Eq. naive_solver.
    + split; [done|]. intros [= -> _]. by rewrite (proj2 (ocmp_Eq _ _) eq_refl) in E.
    + split; [done|]. intros [= -> _]. by rewrite (proj2 (ocmp_Eq _ _) eq_refl) in E.
  - intros [a b] [c d]. cbn. rewrite (ocmp_opp a c), (ocmp_opp b d). by destruct (ocmp a c).
  - intros [a b] [c d] [e f]. cbn. destruct (ocmp a c) eqn:E1, (ocmp c e) eqn:E2; cbn;
      try done; rewrite ?ocmp_Eq in *; subst.
    + rewrite (proj2 (ocmp_Eq _ _) eq_refl). apply ocmp_trans.
    + by rewrite E2.
    + by rewrite E1.
    + by rewrite (ocmp_trans _ _ _ E1 E2).
Defined.

Section ordered.
Context `{Ordered K}.
Implicit Types x y z : K.

Lemma ocmp_refl x : ocmp x x = Eq.
Proof. by apply ocmp_Eq. Qed.

Lemma ocmp_le_total x y : ocmp x y ≠ Gt ∨ ocmp y x ≠ Gt.
Proof. rewrite (ocmp_opp x y). destruct (ocmp x y); [by left..|by right]. Qed.

Lemma ocmp_le_antisym x y : ocmp x y ≠ Gt → ocmp y x ≠ Gt → x = y.
Proof. rewrite (ocmp_opp x y). destruct (ocmp x y) eqn:E; [|done..]. by apply ocmp_Eq in E. Qed.

Lemma ocmp_le_trans x y z : ocmp x y ≠ Gt → ocmp y z ≠ Gt → ocmp x z ≠ Gt.
Proof.
  destruct (ocmp x y) eqn:E1; [apply ocmp_Eq in E1 as ->; done| |done].
  destruct (ocmp y z) eqn:E2; [apply ocmp_Eq in E2 as ->; by rewrite E1| |done].
  by rewrite (ocmp_trans _ _ _ E1 E2).
Qed.
End ordered.

Lemma cmp_preorder_ocmp `{Ordered K} : cmp_preorder (ocmp (K := K)).
Proof. split; [intros; apply ocmp_opp|]. intros x y z. apply ocmp_le_trans. Qed.

Section btree.
Context `{Ordered K, Countable K} {A : Type}.
Implicit Types m : gmap K A.

Definition btree_iter m : list (K * A) := sort_by (λ x y, ocmp x.1 y.1) (map_to_list m).

Definition btree_keys m : list K := (btree_iter m).*1.

Lemma btree_iter_perm m : btree_iter m ≡ₚ map_to_list m.
Proof. apply sort_by_perm. Qed.

Lemma btree_iter_elem m k a : (k, a) ∈ btree_iter m ↔ m !! k = Some a.
Proof. by rewrite btree_iter_perm, elem_of_map_to_list. Qed.

Lemma btree_keys_NoDup m : NoDup (btree_keys m).
Proof. unfold btree_keys. rewrite btree_iter_perm. apply NoDup_fst_map_to_list. Qed.

Lemma btree_keys_elem m k : k ∈ btree_keys m ↔ is_Some (m !! k).
Proof.
  unfold btree_keys. rewrite list_elem_of_fmap. split.
  - intros ([k' a]&->&Ha%btree_iter_elem). by exists a.
  - intros [a Ha]. exists (k, a). split; [done|]. by apply btree_iter_elem.
Qed.

(** The keys come in strictly increasing order. *)
Lemma btree_keys_sorted m : StronglySorted (λ x y, ocmp x y = Lt) (btree_keys m).
Proof.
  pose proof (btree_keys_NoDup m) as Hnd. unfold btree_keys in *.
  assert (StronglySorted (cmp_le (λ x y : K * A, ocmp x.1 y.1)) (btree_iter m)) as Hs.
  { apply Sorted_StronglySorted.
    - intros [x ?] [y ?] [z ?]. unfold cmp_le. cbn. intros Hxy Hyz Hxz.
      rewrite ocmp_opp in Hxz. destruct (ocmp z x) eqn:Ezx; try done.
      destruct (ocmp y z) eqn:Eyz; [apply ocmp_Eq in Eyz as ->|..|done].
      + by rewrite ocmp_opp, Ezx in Hxy.
      + by rewrite ocmp_opp, (ocmp_trans _ _ _ Eyz Ezx) in Hxy.
    - apply sort_by_sorted. intros [x ?] [y ?]. unfold cmp_le. cbn. intros Hxy.
      by rewrite ocmp_opp, Hxy. }
  induction Hs as [|[k a] l Hs IH Hall]; cbn in *; [constructor|].
  apply NoDup_cons in Hnd as [Hk Hnd]. constructor; [by apply IH|].
  apply Forall_fmap, Forall_forall. intros [k' a'] Hin. cbn.
  rewrite Forall_forall in Hall. specialize (Hall _ Hin). unfold cmp_le in Hall. cbn in Hall.
  destruct (ocmp k k') eqn:E; [|done..]. apply ocmp_Eq in E as <-. exfalso. apply Hk.
  apply list_elem_of_fmap. by exists (k, a').
Qed.
End btree.

(** ** Standard hash maps

    A [HashMap] iterates in an order the standard library leaves unspecified:
    the development is proved for every iteration order. *)

Class HashIter := {
  hm_iter : ∀ {K} `{Countable K} {A}, gmap K A → list (K * A);
  hm_iter_perm : ∀ K `{Countable K} A (m : gmap K A),
    hm_iter m ≡ₚ map_to_list m
}.

Definition hm_values `{HashIter} {K} `{Countable K} {A} (m : gmap K A) : list A :=
  (hm_iter m).*2.

(** One iteration order, for concrete runs. *)
Definition hash_iter_list : HashIter := {|
  hm_iter := λ K _ _ A m, map_to_list m;
  hm_iter_perm := λ K _ _ A m, Permutation_refl (map_to_list m)
|}.

(** ** Cancellation tokens (an external crate)

    What the code relies on: a new token is live and different from the ones
    handed out, [cancel] is seen by every clone of the token and by no other
    token. [cstore] stands for the shared cells behind the tokens. *)

Class CancelApi := {
  ctoken : Type;
  cstore : Type;
  ct_empty : cstore;
  ct_new : cstore → ctoken * cstore;
  ct_cancel : ctoken → cstore → cstore;
  ct_is_cancelled : cstore → ctoken → bool;
  ct_issued : cstore → ctoken → Prop;
  ct_new_live : ∀ s, ct_is_cancelled (ct_new s).2 (ct_new s).1 = false;
  ct_new_issued : ∀ s, ct_issued (ct_new s).2 (ct_new s).1;
  ct_new_fresh : ∀ s, ¬ ct_issued s (ct_new s).1;
  ct_new_keeps : ∀ s t, ct_issued s t →
    ct_issued (ct_new s).2 t ∧
    ct_is_cancelled (ct_new s).2 t = ct_is_cancelled s t;
  ct_cancel_self : ∀ s t, ct_issued s t → ct_is_cancelled (ct_cancel t s) t = true;
  ct_cancel_other : ∀ s t t', t ≠ t' →
    ct_is_cancelled (ct_cancel t s) t' = ct_is_cancelled s t';
  ct_cancel_issued : ∀ s t t', ct_issued (ct_cancel t s) t' ↔ ct_issued s t'
}.

(** Numbered cells: an implementation, for concrete runs. *)
Definition cells_api : CancelApi.
Proof.
  refine {| ctoken := nat; cstore := list bool;
    ct_empty := [];
    ct_new s := (length s, s ++ [false]);
    ct_cancel t s := <[t := true]> s;
    ct_is_cancelled s t := default false (s !! t);
    ct_issued s t := (t < length s)%nat |}.
  - intros s. simpl. by rewrite lookup_app_r, Nat.sub_diag by lia.
  - intros s. simpl. rewrite length_app. simpl. lia.
  - intros s. simpl. lia.
  - intros s t Ht. simpl. rewrite length_app. simpl. split; [lia|].
    by rewrite lookup_app_l by lia.
  - intros s t Ht. simpl. by rewrite list_lookup_insert_eq.
  - intros s t t' Hne. simpl. by rewrite list_lookup_insert_ne.
  - intros s t t'. simpl. by rewrite length_insert.
Defined.

(** ** Sums over finite maps *)

Section msum.
Context `{Countable K} {A : Type}.
Implicit Types (f g : A → Z) (m : gmap K A).

Definition msum f m : Z := map_fold (λ _ a total, f a + total) 0 m.

Lemma msum_empty f : msum f ∅ = 0.
Proof. apply map_fold_empty. Qed.

Lemma msum_insert f m k a : m !! k = None → msum f (<[k := a]> m) = f a + msum f m.
Proof.
  intros Hk. unfold msum. rewrite map_fold_insert_L; [done| |done].
  intros; lia.
Qed.

Lemma msum_delete f m k a : m !! k = Some a → msum f (delete k m) = msum f m - f a.
Proof.
  intros Hk. rewrite <-(insert_delete_id m k a Hk) at 2.
  rewrite msum_insert by apply lookup_delete_eq. lia.
Qed.

Lemma msum_ind f (P : Z → gmap K A → Prop) :
  P 0 ∅ →
  (∀ k a m, m !! k = None → P (msum f m) m → P (f a + msum f m) (<[k := a]> m)) →
  ∀ m, P (msum f m) m.
Proof.
  intros H0 Hi m. induction m as [|k a m Hk IH] using map_ind.
  - by rewrite msum_empty.
  - rewrite msum_insert by done. by apply Hi.
Qed.

Lemma msum_nonneg f m : map_Forall (λ _ a, 0 ≤ f a) m → 0 ≤ msum f m.
Proof.
  induction m as [|k a m Hk IH] using map_ind; [by rewrite msum_empty|].
  rewrite map_Forall_insert by done. intros [Ha Hm].
  rewrite msum_insert by done. specialize (IH Hm). lia.
Qed.

Lemma msum_ext f g m : map_Forall (λ _ a, f a = g a) m → msum f m = msum g m.
Proof.
  induction m as [|k a m Hk IH] using map_ind; [done|].
  rewrite map_Forall_insert by done. intros [Ha Hm].
  rewrite !msum_insert by done. by rewrite Ha, IH.
Qed.

Lemma msum_le f g m : map_Forall (λ _ a, f a ≤ g a) m → msum f m ≤ msum g m.
Proof.
  induction m as [|k a m Hk IH] using map_ind; [by rewrite !msum_empty|].
  rewrite map_Forall_insert by done. intros [Ha Hm].
  rewrite !msum_insert by done. specialize (IH Hm). lia.
Qed.

(** One element is at most the sum of the non-negative values. *)
Lemma msum_lookup_le f m k a :
  map_Forall (λ _ a, 0 ≤ f a) m → m !! k = Some a → f a ≤ msum f m.
Proof.
  intros Hm Hk. rewrite <-(insert_delete_id m k a Hk).
  rewrite msum_insert by apply lookup_delete_eq.
  assert (0 ≤ msum f (delete k m)); [|lia].
  by apply msum_nonneg, map_Forall_delete.
Qed.

Lemma msum_two_le f m k k' a a' :
  map_Forall (λ _ a, 0 ≤ f a) m → m !! k = Some a → m !! k' = Some a' → k ≠ k' →
  f a + f a' ≤ msum f m.
Proof.
  intros Hm Hk Hk' Hne.
  assert (f a' ≤ msum f (delete k m)) as Hle.
  { apply msum_lookup_le with k'; [by apply map_Forall_delete|].
    by rewrite lookup_delete_ne. }
  rewrite (msum_delete f m k a) in Hle by done. lia.
Qed.

Lemma msum_subseteq f m m' :
  map_Forall (λ _ a, 0 ≤ f a) m' → m ⊆ m' → msum f m ≤ msum f m'.
Proof.
  intros Hm' Hsub. rewrite <-(map_difference_union m m') by done.
  assert (map_Forall (λ _ a, 0 ≤ f a) (m' ∖ m)) as Hd.
  { intros k a [Hk _]%lookup_difference_Some. by apply (Hm' k). }
  assert (m ##ₘ m' ∖ m) as Hdisj by (by apply map_disjoint_difference_r1).
  revert Hd Hdisj. generalize (m' ∖ m). clear.
  intros d. induction d as [|k a d Hk IH] using map_ind; intros Hd Hdisj.
  { rewrite (right_id_L ∅ (∪)). lia. }
  rewrite map_Forall_insert in Hd by done. destruct Hd as [Ha Hd].
  apply map_disjoint_insert_r in Hdisj as [Hmk Hdisj].
  rewrite <-insert_union_r by done.
  rewrite msum_insert by by apply lookup_union_None.
  specialize (IH Hd Hdisj). lia.
Qed.
End msum.

Lemma msum_fmap `{Countable K} {A B} (g : A → B) (f : B → Z) (m : gmap K A) :
  msum f (g <$> m) = msum (f ∘ g) m.
Proof.
  induction m as [|k a m Hk IH] using map_ind; [by rewrite fmap_empty, !msum_empty|].
  rewrite fmap_insert, !msum_insert; [by rewrite IH|done|].
  by rewrite lookup_fmap, Hk.
Qed.

(** ** [get_mut] on a map *)

Lemma alter_Some `{Countable K} {A} (f : A → A) (m : gmap K A) k a :
  m !! k = Some a → alter f k m = <[k := f a]> m.
Proof.
  intros Hk. apply map_eq. intros j. destruct (decide (j = k)) as [->|Hne].
  - by rewrite lookup_alter_eq, lookup_insert_eq, Hk.
  - by rewrite lookup_alter_ne, lookup_insert_ne.
Qed.

Lemma alter_None `{Countable K} {A} (f : A → A) (m : gmap K A) k :
  m !! k = None → alter f k m = m.
Proof.
  intros Hk. apply map_eq. intros j. destruct (decide (j = k)) as [->|Hne].
  - by rewrite lookup_alter_eq, Hk.
  - by rewrite lookup_alter_ne.
Qed.

(** * Sorting with an order that tells elements apart

    [slice::sort_by] depends on nothing but the elements when the comparison says [Equal]
    of equal elements only. *)

#[local] Open Scope Z_scope.

Section unique.
Context {A : Type} (cmp : A → A → comparison).

(** Two elements of [l] that compare as equal are equal. *)
Definition separates (l : list A) : Prop :=
  ∀ x y, x ∈ l → y ∈ l → cmp x y = Eq → x = y.

Lemma separates_perm l l' : l ≡ₚ l' → separates l → separates l'.
Proof. intros Hp Hs x y. rewrite <-Hp. apply Hs. Qed.

Hypothesis Hcmp : cmp_preorder cmp.

Lemma cmp_le_antisym x y : cmp_le cmp x y → cmp_le cmp y x → cmp x y = Eq.
Proof.
  unfold cmp_le. destruct Hcmp as [Hopp _]. rewrite (Hopp x y). by destruct (cmp x y).
Qed.

Lemma cmp_le_refl x : cmp_le cmp x x.
Proof.
  unfold cmp_le. destruct Hcmp as [Hopp _]. intros E. specialize (Hopp x x). by rewrite E in Hopp.
Qed.

Lemma sorted_perm_unique l l' :
  StronglySorted (cmp_le cmp) l → StronglySorted (cmp_le cmp) l' → separates l → l ≡ₚ l' → l = l'.
Proof.
  intros Hl. revert l'. induction Hl as [|x l Hl IH Hx]; intros l' Hl' Hs Hp.
  { symmetry. by apply Permutation_nil. }
  destruct Hl' as [|y l' Hl' Hy]; [by apply Permutation_sym, Permutation_nil in Hp|].
  rewrite Forall_forall in Hx, Hy.
  assert (x = y) as <-.
  { assert (x ∈ y :: l') as Hxin by (rewrite <-Hp; by left).
    assert (y ∈ x :: l) as Hyin by (rewrite Hp; by left).
    apply Hs; [by left|done|]. apply cmp_le_antisym.
    - apply elem_of_cons in Hyin as [->|Hyin]; [apply cmp_le_refl|by apply Hx].
    - apply elem_of_cons in Hxin as [->|Hxin]; [apply cmp_le_refl|by apply Hy]. }
  f_equal. apply IH; [done| |by apply Permutation_cons_inv in Hp].
  intros a b Ha Hb. apply Hs; by right.
Qed.

Lemma sort_by_perm_eq l l' : separates l → l ≡ₚ l' → sort_by cmp l = sort_by cmp l'.
Proof.
  intros Hs Hp. apply sorted_perm_unique.
  1,2: by apply sort_by_strongly_sorted.
  - eapply separates_perm; [symmetry; apply sort_by_perm|done].
  - by rewrite !sort_by_perm.
Qed.

Lemma sort_by_already l l' :
  StronglySorted (cmp_le cmp) l → separates l → l' ≡ₚ l → sort_by cmp l' = l.
Proof.
  intros Hl Hs Hp. symmetry. apply sorted_perm_unique; [done|by apply sort_by_strongly_sorted|done|].
  by rewrite sort_by_perm.
Qed.
End unique.

(** Comparisons by keys. *)
Lemma cmp_preorder_Z : cmp_preorder Z.compare.
Proof.
  split; [intros x y; apply Z.compare_antisym|]. unfold cmp_le. intros x y z.
  rewrite !Z.compare_le_iff. lia.
Qed.

(** The elements of a list with a common property. *)
Lemma filter_elem {A} (p : A → bool) (l : list A) x : x ∈ List.filter p l ↔ p x = true ∧ x ∈ l.
Proof. rewrite !list_elem_of_In, filter_In. tauto. Qed.

Lemma filter_perm {A} (p : A → bool) (l l' : list A) : l ≡ₚ l' → List.filter p l ≡ₚ List.filter p l'.
Proof.
  induction 1 as [|x l l' _ IH|x y l|l1 l2 l3 _ IH1 _ IH2]; cbn; [done| | |by etransitivity].
  - destruct (p x); [by constructor|done].
  - destruct (p x), (p y); try done. constructor.
Qed.

Lemma filter_NoDup {A} (p : A → bool) (l : list A) : NoDup l → NoDup (List.filter p l).
Proof.
  induction 1 as [|x l Hx _ IH]; cbn; [constructor|]. destruct (p x); [|done].
  constructor; [|done]. rewrite filter_elem. naive_solver.
Qed.

(** The first elements of a sorted list come before the others. *)
Lemma sorted_take_drop {A} (R : A → A → Prop) (l : list A) n x y :
  StronglySorted R l → x ∈ take n l → y ∈ drop n l → R x y.
Proof.
  intros Hl. revert n. induction Hl as [|z l Hl IH Hz]; intros n Hx Hy.
  { rewrite take_nil in Hx. by apply not_elem_of_nil in Hx. }
  destruct n as [|n]; [by apply not_elem_of_nil in Hx|]. cbn in Hx, Hy.
  apply elem_of_cons in Hx as [->|Hx]; [|by apply (IH n)].
  rewrite Forall_forall in Hz. apply Hz. rewrite <-(take_drop n l). apply elem_of_app. by right.
Qed.

Lemma take_elem {A} n (l : list A) x : x ∈ take n l → x ∈ l.
Proof. intros Hx. rewrite <-(take_drop n l). apply elem_of_app. by left. Qed.

Lemma drop_elem {A} n (l : list A) x : x ∈ drop n l → x ∈ l.
Proof. intros Hx. rewrite <-(take_drop n l). apply elem_of_app. by right. Qed.

(** Sortedness of parts and of the reverse. *)
Lemma sorted_app {A} (R : A → A → Prop) (l k : list A) :
  StronglySorted R (l ++ k) ↔
  StronglySorted R l ∧ StronglySorted R k ∧ (∀ x y, x ∈ l → y ∈ k → R x y).
Proof.
  induction l as [|a l IH]; cbn.
  { split; [|tauto]. intros Hk. split; [constructor|]. split; [done|]. by intros x y ?%not_elem_of_nil. }
  split.
  - intros Hs. inversion_clear Hs as [|? ? Hlk Ha]. apply IH in Hlk as (Hl&Hk&Hc).
    apply Forall_app in Ha as [Hal Hak]. split; [by constructor|]. split; [done|].
    intros x y [->|Hx]%elem_of_cons Hy; [|by apply Hc]. rewrite Forall_forall in Hak. by apply Hak.
  - intros (Hl&Hk&Hc). inversion_clear Hl as [|? ? Hl' Ha]. constructor.
    + apply IH. split; [done|]. split; [done|]. intros x y Hx. apply Hc. by right.
    + apply Forall_app. split; [done|]. apply Forall_forall. intros y. apply Hc. by left.
Qed.

Lemma sorted_drop {A} (R : A → A → Prop) n (l : list A) : StronglySorted R l → StronglySorted R (drop n l).
Proof. rewrite <-(take_drop n l) at 1. rewrite sorted_app. tauto. Qed.

Lemma sorted_take {A} (R : A → A → Prop) n (l : list A) : StronglySorted R l → StronglySorted R (take n l).
Proof. rewrite <-(take_drop n l) at 1. rewrite sorted_app. tauto. Qed.

Lemma sorted_rev {A} (R : A → A → Prop) (l : list A) :
  StronglySorted R l → StronglySorted (λ x y, R y x) (rev l).
Proof.
  induction 1 as [|x l Hl IH Hx]; cbn; [constructor|]. apply sorted_app. split; [done|].
  split; [by repeat constructor|]. intros a b Ha Hb. apply list_elem_of_singleton in Hb as ->.
  rewrite Forall_forall in Hx. apply Hx. rewrite list_elem_of_In in Ha |- *. by apply in_rev.
Qed.

Lemma sorted_fmap {A B} (f : A → B) (R : A → A → Prop) (S : B → B → Prop) l :
  (∀ x y, R x y → S (f x) (f y)) → StronglySorted R l → StronglySorted S (f <$> l).
Proof.
  intros HRS. induction 1 as [|x l _ IH Hall]; rewrite ?fmap_cons; constructor; [done|].
  apply Forall_fmap. eapply Forall_impl; [exact Hall|]. intros y. apply HRS.
Qed.

Lemma strongly_sorted_filter {A} (R : A → A → Prop) (p : A → bool) (l : list A) :
  StronglySorted R l → StronglySorted R (List.filter p l).
Proof.
  induction 1 as [|x l Hl IH Hx]; cbn; [constructor|]. destruct (p x); [|done].
  constructor; [done|]. rewrite Forall_forall in Hx |- *. intros y [_ Hy]%filter_elem. by apply Hx.
Qed.

Lemma sorted_impl {A} (R S : A → A → Prop) (l : list A) :
  (∀ x y, x ∈ l → y ∈ l → R x y → S x y) → StronglySorted R l → StronglySorted S l.
Proof.
  intros HRS Hl. induction Hl as [|x l Hl IH Hx]; constructor.
  - apply IH. intros y z Hy Hz. apply HRS; by right.
  - rewrite Forall_forall in Hx |- *. intros y Hy. apply HRS; [by left|by right|by apply Hx].
Qed.

(** Comparisons that agree on a list sort it alike. *)
Lemma sort_by_ext {A} (c c' : A → A → comparison) (l : list A) :
  (∀ x y, x ∈ l → y ∈ l → c x y = c' x y) → sort_by c l = sort_by c' l.
Proof.
  induction l as [|x l IH]; intros Hl; [done|]. cbn. rewrite <-IH.
  2:{ intros y z Hy Hz. apply Hl; by right. }
  assert (∀ y, y ∈ sort_by c l → c x y = c' x y) as Hx.
  { intros y. rewrite sort_by_perm. intros Hy. apply Hl; [by left|by right]. }
  clear IH. revert Hx. generalize (sort_by c l). intros k. induction k as [|y k IHk]; intros Hx; cbn; [done|].
  rewrite <-(Hx y) by (by left). rewrite <-IHk; [done|]. intros z Hz. apply Hx. by right.
Qed.
