(* ===== verification/Text.v ===== *)
(** * Text: Rust strings, characters and UTF-8 byte offsets

    A Rust [char] is its scalar value; a [str] is the list of its characters.
    The byte length and the byte offsets of the source are computed from the
    UTF-8 width of each character, and slicing at an offset that is not a
    character boundary is the panic the standard library raises ([None]). *)

From S2P Require Import Prelude.
From stdpp Require Import pretty.

#[local] Open Scope Z_scope.

Abbreviation char := Z (only parsing).
Abbreviation str := (list Z) (only parsing).

(** A string literal of the source (ASCII). *)
Fixpoint lit (s : string) : str :=
  match s with
  | EmptyString => []
  | String a s' => Z.of_N (N_of_ascii a) :: lit s'
  end.

#[global] Arguments lit : simpl never.

(** [Display] of an unsigned integer. *)
Definition dec (n : Z) : str := lit (pretty n).

(** [char::len_utf8]. *)
Definition len_utf8 (c : char) : Z :=
  if c <? 128 then 1 else if c <? 2048 then 2 else if c <? 65536 then 3 else 4.

(** [str::len]: the length in bytes. *)
Fixpoint str_len (s : str) : Z :=
  match s with
  | [] => 0
  | c :: s' => len_utf8 c + str_len s'
  end.

(** [char::is_whitespace]: the Unicode property White_Space. *)
Definition is_whitespace (c : char) : bool :=
  ((9 <=? c) && (c <=? 13)) || (c =? 32) || (c =? 133) || (c =? 160)
  || (c =? 5760) || ((8192 <=? c) && (c <=? 8202)) || (c =? 8232)
  || (c =? 8233) || (c =? 8239) || (c =? 8287) || (c =? 12288).

(** [char::is_control]: the general category Cc. *)
Definition is_control (c : char) : bool :=
  ((0 <=? c) && (c <=? 31)) || ((127 <=? c) && (c <=? 159)).

Definition is_ascii_digit (c : char) : bool := (48 <=? c) && (c <=? 57).
Definition is_ascii_alphabetic (c : char) : bool :=
  ((65 <=? c) && (c <=? 90)) || ((97 <=? c) && (c <=? 122)).
Definition to_ascii_lowercase (c : char) : char :=
  if (65 <=? c) && (c <=? 90) then c + 32 else c.

(** ** Trimming *)

(** [trim_start_matches]/[trim_end_matches]/[trim_matches] with a predicate. *)
Fixpoint trim_start_by (p : char → bool) (s : str) : str :=
  match s with
  | c :: s' => if p c then trim_start_by p s' else s
  | [] => []
  end.
Definition trim_end_by (p : char → bool) (s : str) : str :=
  rev (trim_start_by p (rev s)).
Definition trim_by (p : char → bool) (s : str) : str :=
  trim_end_by p (trim_start_by p s).

Definition trim_start : str → str := trim_start_by is_whitespace.
Definition trim_end : str → str := trim_end_by is_whitespace.
Definition trim : str → str := trim_by is_whitespace.

Definition str_is_empty (s : str) : bool :=
  match s with [] => true | _ => false end.
(** [s.trim().is_empty()]. *)
Definition is_blank (s : str) : bool := str_is_empty (trim s).

Definition str_eqb (a b : str) : bool := bool_decide (a = b).

(** ** Byte offsets *)

(** [s.split_at(n)] with [n] in bytes. *)
Fixpoint split_at_byte (n : Z) (s : str) : option (str * str) :=
  if n =? 0 then Some ([], s) else
  match s with
  | [] => None
  | c :: s' =>
      if n <? len_utf8 c then None else
      match split_at_byte (n - len_utf8 c) s' with
      | Some (a, b) => Some (c :: a, b)
      | None => None
      end
  end.

(** [&s[..n]] and [&s[n..]]. *)
Definition slice_to (n : Z) (s : str) : option str := fst <$> split_at_byte n s.
Definition slice_from (n : Z) (s : str) : option str := snd <$> split_at_byte n s.
(** [&s[a..b]]. *)
Definition slice (a b : Z) (s : str) : option str :=
  if b <? a then None else t ← slice_to b s; slice_from a t.

(** [str::char_indices] of a suffix that starts at byte [at_]. *)
Fixpoint char_indices_from (at_ : Z) (s : str) : list (Z * char) :=
  match s with
  | [] => []
  | c :: s' => (at_, c) :: char_indices_from (at_ + len_utf8 c) s'
  end.
Definition char_indices (s : str) : list (Z * char) := char_indices_from 0 s.

(** The tail after the last white-space character ([rsplit_once]), or the
    whole string when there is none. *)
Fixpoint after_last_whitespace (s : str) : str :=
  match s with
  | [] => []
  | c :: s' =>
      if existsb is_whitespace s' then after_last_whitespace s'
      else if is_whitespace c then s' else s
  end.

(** [str::ends_with] for one character. *)
Definition ends_with (c : char) (s : str) : bool :=
  match last s with Some d => c =? d | None => false end.

#[global] Arguments is_whitespace : simpl never.
#[global] Arguments len_utf8 : simpl never.
#[global] Arguments is_ascii_digit : simpl never.
#[global] Arguments is_ascii_alphabetic : simpl never.
#[global] Arguments to_ascii_lowercase : simpl never.

(** * Lemmas *)

Lemma len_utf8_pos c : 0 < len_utf8 c.
Proof. unfold len_utf8. repeat case_match; lia. Qed.

Lemma str_len_nonneg s : 0 ≤ str_len s.
Proof. induction s as [|c s IH]; simpl; [lia|]. pose proof (len_utf8_pos c). lia. Qed.

Lemma str_len_app a b : str_len (a ++ b) = str_len a + str_len b.
Proof. induction a; simpl; lia. Qed.

Lemma str_len_zero s : str_len s = 0 ↔ s = [].
Proof.
  split; [|by intros ->]. destruct s as [|c s]; [done|]. simpl.
  pose proof (len_utf8_pos c). pose proof (str_len_nonneg s). lia.
Qed.

Lemma split_at_byte_app a b : split_at_byte (str_len a) (a ++ b) = Some (a, b).
Proof.
  induction a as [|c a IH]; simpl.
  - destruct b; done.
  - pose proof (len_utf8_pos c). pose proof (str_len_nonneg a).
    destruct (Z.eqb_spec (len_utf8 c + str_len a) 0); [lia|].
    destruct (Z.ltb_spec (len_utf8 c + str_len a) (len_utf8 c)); [lia|].
    replace (len_utf8 c + str_len a - len_utf8 c) with (str_len a) by lia.
    by rewrite IH.
Qed.

Lemma split_at_byte_Some n s a b :
  split_at_byte n s = Some (a, b) → s = a ++ b ∧ n = str_len a.
Proof.
  revert n a b. induction s as [|c s IH]; intros n a b; simpl.
  - destruct (Z.eqb_spec n 0); naive_solver.
  - destruct (Z.eqb_spec n 0); [naive_solver|].
    case_match; [done|].
    destruct (split_at_byte _ s) as [[a' b']|] eqn:E; [|done].
    intros [= <- <-]. apply IH in E as [-> E]. simpl. split; [done|lia].
Qed.

Lemma slice_to_app a b : slice_to (str_len a) (a ++ b) = Some a.
Proof. unfold slice_to. by rewrite split_at_byte_app. Qed.
Lemma slice_from_app a b : slice_from (str_len a) (a ++ b) = Some b.
Proof. unfold slice_from. by rewrite split_at_byte_app. Qed.

Lemma slice_app a b c :
  slice (str_len a) (str_len a + str_len b) (a ++ b ++ c) = Some b.
Proof.
  unfold slice. pose proof (str_len_nonneg b).
  destruct (Z.ltb_spec (str_len a + str_len b) (str_len a)); [lia|].
  rewrite <-str_len_app, app_assoc, slice_to_app. simpl. apply slice_from_app.
Qed.

(** ** Trimming lemmas *)

Lemma trim_start_by_app p s :
  ∃ w, s = w ++ trim_start_by p s ∧ forallb p w = true.
Proof.
  induction s as [|c s IH]; simpl; [by exists []|].
  destruct (p c) eqn:Hp.
  - destruct IH as (w & Hs & Hw). exists (c :: w). split.
    + simpl. by rewrite <-Hs.
    + simpl. by rewrite Hp.
  - by exists [].
Qed.

Lemma forallb_rev {A} (p : A → bool) l : forallb p (rev l) = forallb p l.
Proof.
  induction l as [|x l IH]; simpl; [done|].
  rewrite forallb_app, IH. simpl. by rewrite andb_true_r, andb_comm.
Qed.

Lemma trim_end_by_app p s :
  ∃ w, s = trim_end_by p s ++ w ∧ forallb p w = true.
Proof.
  destruct (trim_start_by_app p (rev s)) as (w & Hs & Hw).
  exists (rev w). unfold trim_end_by. split; [|by rewrite forallb_rev].
  by rewrite <-rev_app_distr, <-Hs, rev_involutive.
Qed.

Lemma trim_by_app p s :
  ∃ w1 w2, s = w1 ++ trim_by p s ++ w2 ∧ forallb p w1 = true ∧ forallb p w2 = true.
Proof.
  destruct (trim_start_by_app p s) as (w1 & H1 & Hw1).
  destruct (trim_end_by_app p (trim_start_by p s)) as (w2 & H2 & Hw2).
  exists w1, w2. split; [|done]. unfold trim_by. by rewrite <-H2.
Qed.

Lemma trim_start_by_all p s : forallb p s = true → trim_start_by p s = [].
Proof. induction s as [|c s IH]; simpl; [done|]. by intros [-> ?]%andb_prop; auto. Qed.

Lemma is_blank_spec s : is_blank s = true ↔ forallb is_whitespace s = true.
Proof.
  unfold is_blank, str_is_empty, trim. split.
  - destruct (trim_by_app is_whitespace s) as (w1 & w2 & Hs & H1 & H2).
    destruct (trim_by is_whitespace s); [|done]. intros _.
    rewrite Hs. simpl. by rewrite forallb_app, H1, H2.
  - intros H. unfold trim_by. by rewrite trim_start_by_all.
Qed.

(** ** ASCII and searching *)

Definition is_ascii_lowercase (c : char) : bool := (97 <=? c) && (c <=? 122).
Definition is_ascii_alphanumeric (c : char) : bool :=
  is_ascii_alphabetic c || is_ascii_digit c.
Definition ascii_lowercase (s : str) : str := to_ascii_lowercase <$> s.

Definition one_of (alphabet : str) (c : char) : bool := existsb (Z.eqb c) alphabet.

(** [str::strip_prefix] and [str::starts_with]. *)
Fixpoint strip_prefix (p s : str) : option str :=
  match p, s with
  | [], _ => Some s
  | c :: p, d :: s => if c =? d then strip_prefix p s else None
  | _ :: _, [] => None
  end.
Definition text_starts_with (p s : str) : bool := is_some (strip_prefix p s).

(** [str::contains]. *)
Fixpoint str_contains (p s : str) : bool :=
  text_starts_with p s || match s with [] => false | _ :: s => str_contains p s end.

Lemma strip_prefix_Some p s rest : strip_prefix p s = Some rest ↔ s = p ++ rest.
Proof.
  revert s. induction p as [|c p IH]; intros s; cbn; [naive_solver|]. destruct s as [|d s]; [done|].
  destruct (Z.eqb_spec c d) as [->|Hne]; [|naive_solver]. rewrite IH. naive_solver.
Qed.

Lemma str_contains_spec p s : str_contains p s = true ↔ ∃ a b, s = a ++ p ++ b.
Proof.
  induction s as [|c s IH]; cbn; unfold text_starts_with; rewrite orb_true_iff.
  - split.
    + intros [Hp|?]; [|done]. destruct (strip_prefix p []) as [rest|] eqn:E; [|done].
      apply strip_prefix_Some in E. by exists [], rest.
    + intros (a&b&Hs). symmetry in Hs. apply app_nil in Hs as [-> Hs]. left.
      by rewrite (proj2 (strip_prefix_Some p [] b) (eq_sym Hs)).
  - rewrite IH. split.
    + intros [Hp|(a&b&->)]; [|by exists (c :: a), b].
      destruct (strip_prefix p (c :: s)) as [rest|] eqn:E; [|done]. apply strip_prefix_Some in E.
      by exists [], rest.
    + intros ([|d a]&b&Hs); [left; by rewrite (proj2 (strip_prefix_Some p _ b) Hs)|].
      injection Hs as -> ->. right. by exists a, b.
Qed.

(** [str::ends_with]. *)
Definition text_ends_with (p s : str) : bool := text_starts_with (rev p) (rev s).

(** [str::split(c)]: the pieces between the occurrences of a character, empty ones
    included. *)
Fixpoint split_char (c : char) (s : str) : list str :=
  match s with
  | [] => [[]]
  | d :: s =>
      if c =? d then [] :: split_char c s
      else match split_char c s with w :: ws => (d :: w) :: ws | [] => [[d]] end
  end.

(** [str::split_whitespace]. *)
Fixpoint split_whitespace_from (word s : str) : list str :=
  let flush := if str_is_empty word then [] else [rev word] in
  match s with
  | [] => flush
  | c :: s => if is_whitespace c then flush ++ split_whitespace_from [] s
              else split_whitespace_from (c :: word) s
  end.
Definition split_whitespace (s : str) : list str := split_whitespace_from [] s.

(** [join]. *)
Fixpoint join_with (sep : str) (l : list str) : str :=
  match l with
  | [] => []
  | [s] => s
  | s :: l => s ++ sep ++ join_with sep l
  end.

(** [str::to_lowercase]: the tables of Unicode. *)
Class UnicodeApi := { to_lowercase : str → str }.

(** ** Ordering

    [str::cmp] compares bytes; for UTF-8 that is the order of the scalar
    values. *)
Fixpoint str_cmp (s t : str) : comparison :=
  match s, t with
  | [], [] => Eq
  | [], _ :: _ => Lt
  | _ :: _, [] => Gt
  | c :: s, d :: t => then_with (Z.compare c d) (str_cmp s t)
  end.

#[export] Instance ordered_str : Ordered str.
Proof.
  refine {| ocmp := str_cmp |}.
  - induction x as [|c x IH]; intros [|d y]; cbn; try done.
    destruct (Z.compare_spec c d) as [->|Hlt|Hgt]; cbn; [rewrite IH; naive_solver|..];
      (split; [done|]); intros [= -> _]; lia.
  - induction x as [|c x IH]; intros [|d y]; cbn; try done.
    rewrite (Z.compare_antisym c d), (IH y). by destruct (Z.compare c d).
  - induction x as [|c x IH]; intros [|d y] [|e z]; cbn; try done.
    destruct (Z.compare_spec c d) as [->|Hcd|Hcd], (Z.compare_spec d e) as [->|Hde|Hde]; cbn;
      try done; intros H1 H2.
    + by apply (IH y).
    + by rewrite (proj2 (Z.compare_lt_iff _ _) Hcd).
    + by rewrite (proj2 (Z.compare_lt_iff _ _) (Z.lt_trans _ _ _ Hcd Hde)).
Defined.
