(* ===== verification/Bytes.v ===== *)
(** * Bytes: UTF-8 and little-endian integers

    What the byte-level decoders use of the standard library:
    [std::str::from_utf8] and [uN::from_le_bytes], with their inverses. A byte is
    an integer of [Z] in 0..255. *)

From S2P Require Import Prelude Text.

#[local] Open Scope Z_scope.

#[local] Ltac Zify.zify_post_hook ::= Z.to_euclidean_division_equations.

Definition is_byte (b : Z) : Prop := 0 ≤ b ≤ 255.

(** ** UTF-8 *)

(** A Unicode scalar value. *)
Definition is_scalar (c : char) : Prop := 0 ≤ c ≤ 55295 ∨ 57344 ≤ c ≤ 1114111.

Definition is_scalar_b (c : char) : bool :=
  ((0 <=? c) && (c <=? 55295)) || ((57344 <=? c) && (c <=? 1114111)).

Definition encode_char (c : char) : list Z :=
  if c <? 128 then [c] else
  if c <? 2048 then [192 + c / 64; 128 + c `mod` 64] else
  if c <? 65536 then [224 + c / 4096; 128 + (c / 64) `mod` 64; 128 + c `mod` 64] else
  [240 + c / 262144; 128 + (c / 4096) `mod` 64; 128 + (c / 64) `mod` 64; 128 + c `mod` 64].

Definition utf8_encode (s : str) : list Z := concat (encode_char <$> s).

Definition is_cont (b : Z) : bool := (128 <=? b) && (b <? 192).

(** [from_utf8]: the shortest form of a scalar value at each step. *)
Fixpoint utf8_decode (bs : list Z) : option str :=
  match bs with
  | [] => Some []
  | b0 :: rest =>
      if (0 <=? b0) && (b0 <? 128) then cons b0 <$> utf8_decode rest else
      if (192 <=? b0) && (b0 <? 224) then
        match rest with
        | b1 :: rest =>
            let c := (b0 - 192) * 64 + (b1 - 128) in
            if is_cont b1 && (128 <=? c) then cons c <$> utf8_decode rest else None
        | [] => None
        end else
      if (224 <=? b0) && (b0 <? 240) then
        match rest with
        | b1 :: b2 :: rest =>
            let c := (b0 - 224) * 4096 + (b1 - 128) * 64 + (b2 - 128) in
            if is_cont b1 && is_cont b2 && (2048 <=? c) && is_scalar_b c
            then cons c <$> utf8_decode rest else None
        | _ => None
        end else
      if (240 <=? b0) && (b0 <? 248) then
        match rest with
        | b1 :: b2 :: b3 :: rest =>
            let c := (b0 - 240) * 262144 + (b1 - 128) * 4096 + (b2 - 128) * 64 + (b3 - 128) in
            if is_cont b1 && is_cont b2 && is_cont b3 && (65536 <=? c) && is_scalar_b c
            then cons c <$> utf8_decode rest else None
        | _ => None
        end else
      None
  end.

Lemma is_scalar_b_true c : is_scalar_b c = true ↔ is_scalar c.
Proof. unfold is_scalar_b, is_scalar. lia. Qed.

Lemma encode_char_cases c : is_scalar c →
  (c < 128 ∧ encode_char c = [c]) ∨
  (128 ≤ c < 2048 ∧ encode_char c = [192 + c / 64; 128 + c `mod` 64]) ∨
  (2048 ≤ c < 65536 ∧
   encode_char c = [224 + c / 4096; 128 + (c / 64) `mod` 64; 128 + c `mod` 64]) ∨
  (65536 ≤ c ∧ encode_char c =
    [240 + c / 262144; 128 + (c / 4096) `mod` 64; 128 + (c / 64) `mod` 64; 128 + c `mod` 64]).
Proof. intros. unfold encode_char. repeat case_match; lia || naive_solver lia. Qed.

Lemma utf8_decode_char c rest :
  is_scalar c → utf8_decode (encode_char c ++ rest) = cons c <$> utf8_decode rest.
Proof.
  intros Hc. pose proof (proj2 (is_scalar_b_true c) Hc) as Hb.
  destruct (encode_char_cases c Hc) as [[Hr ->]|[[Hr ->]|[[Hr ->]|[Hr ->]]]]; cbn [app utf8_decode].
  - destruct Hc; by rewrite (proj2 (andb_true_iff _ _)) by lia.
  - assert (is_scalar c) by done. clear Hb.
    replace ((0 <=? 192 + c / 64) && (192 + c / 64 <? 128)) with false by lia.
    replace ((192 <=? 192 + c / 64) && (192 + c / 64 <? 224)) with true by lia.
    replace ((192 + c / 64 - 192) * 64 + (128 + c `mod` 64 - 128)) with c by lia.
    unfold is_cont. by replace (_ && _) with true by lia.
  - replace ((0 <=? 224 + c / 4096) && (224 + c / 4096 <? 128)) with false by lia.
    replace ((192 <=? 224 + c / 4096) && (224 + c / 4096 <? 224)) with false by lia.
    replace ((224 <=? 224 + c / 4096) && (224 + c / 4096 <? 240)) with true by lia.
    replace ((224 + c / 4096 - 224) * 4096 + (128 + (c / 64) `mod` 64 - 128) * 64
             + (128 + c `mod` 64 - 128)) with c by lia.
    rewrite Hb. unfold is_cont. by replace (_ && true) with true by lia.
  - assert (c ≤ 1114111) by (unfold is_scalar in Hc; lia).
    replace ((0 <=? 240 + c / 262144) && (240 + c / 262144 <? 128)) with false by lia.
    replace ((192 <=? 240 + c / 262144) && (240 + c / 262144 <? 224)) with false by lia.
    replace ((224 <=? 240 + c / 262144) && (240 + c / 262144 <? 240)) with false by lia.
    replace ((240 <=? 240 + c / 262144) && (240 + c / 262144 <? 248)) with true by lia.
    replace ((240 + c / 262144 - 240) * 262144 + (128 + (c / 4096) `mod` 64 - 128) * 4096
             + (128 + (c / 64) `mod` 64 - 128) * 64 + (128 + c `mod` 64 - 128)) with c by lia.
    rewrite Hb. unfold is_cont. by replace (_ && true) with true by lia.
Qed.

Lemma utf8_decode_encode s : Forall is_scalar s → utf8_decode (utf8_encode s) = Some s.
Proof.
  induction 1 as [|c s Hc _ IH]; [done|].
  change (utf8_encode (c :: s)) with (encode_char c ++ utf8_encode s).
  rewrite utf8_decode_char by done. by rewrite IH.
Qed.

Lemma decode_step (bs : list Z) s :
  utf8_decode bs = Some s → bs = [] ∧ s = [] ∨
  ∃ c rest s', bs = encode_char c ++ rest ∧ s = c :: s' ∧ is_scalar c ∧
    utf8_decode rest = Some s' ∧ (length rest < length bs)%nat.
Proof.
  destruct bs as [|b0 rest]; cbn [utf8_decode]; [naive_solver|]. intros Hd. right.
  assert (∀ c rest' bs, is_scalar c → bs = encode_char c ++ rest' → cons c <$> utf8_decode rest' = Some s →
    (length rest' < length bs)%nat → ∃ c rest s', bs = encode_char c ++ rest ∧ s = c :: s' ∧
      is_scalar c ∧ utf8_decode rest = Some s' ∧ (length rest < length bs)%nat) as Hok.
  { intros c rest' bs Hc Hbs (s'&Hs&->)%fmap_Some Hl. by exists c, rest', s'. }
  destruct (_ && _) eqn:E0 in Hd.
  { apply (Hok b0 rest); [unfold is_scalar; lia| |done|cbn; lia].
    unfold encode_char. by replace (b0 <? 128) with true by lia. }
  destruct (_ && _) eqn:E1 in Hd.
  { destruct rest as [|b1 rest]; [done|]. destruct (_ && _) eqn:E in Hd; [|done].
    unfold is_cont in E. set (c := (b0 - 192) * 64 + (b1 - 128)) in *.
    assert (is_scalar c) as Hc by (unfold is_scalar, c in *; lia).
    apply (Hok c rest); [done| |done|cbn; lia].
    destruct (encode_char_cases c Hc) as [[Hr ->]|[[Hr ->]|[[Hr ->]|[Hr ->]]]]; unfold c in *;
      try lia. cbn. repeat f_equal; lia. }
  destruct (_ && _) eqn:E2 in Hd.
  { destruct rest as [|b1 [|b2 rest]]; [done..|]. destruct (_ && _ && _ && _) eqn:E in Hd; [|done].
    unfold is_cont in E. set (c := (b0 - 224) * 4096 + _ + _) in *.
    apply andb_true_iff in E as [E Hc%is_scalar_b_true].
    apply (Hok c rest); [done| |done|cbn; lia].
    destruct (encode_char_cases c Hc) as [[Hr ->]|[[Hr ->]|[[Hr ->]|[Hr ->]]]]; unfold c in *;
      try lia. cbn. repeat f_equal; lia. }
  destruct (_ && _) eqn:E3 in Hd; [|done].
  destruct rest as [|b1 [|b2 [|b3 rest]]]; [done..|].
  destruct (_ && _ && _ && _ && _) eqn:E in Hd; [|done].
  unfold is_cont in E. set (c := (b0 - 240) * 262144 + _ + _ + _) in *.
  apply andb_true_iff in E as [E Hc%is_scalar_b_true].
  apply (Hok c rest); [done| |done|cbn; lia].
  destruct (encode_char_cases c Hc) as [[Hr ->]|[[Hr ->]|[[Hr ->]|[Hr ->]]]]; unfold c in *;
    try lia. cbn. repeat f_equal; lia.
Qed.

(** The bytes of an accepted string are its encoding: nothing else decodes to it. *)
Lemma utf8_decode_inv bs s : utf8_decode bs = Some s → bs = utf8_encode s ∧ Forall is_scalar s.
Proof.
  revert s. induction bs as [bs IH] using (well_founded_induction (well_founded_ltof _ length)).
  intros s [[-> ->]|(c&rest&s'&->&->&Hc&Hd&Hl)]%decode_step; [by repeat constructor|].
  destruct (IH rest Hl s' Hd) as [-> Hs]. by split; [|constructor].
Qed.

(** ** Little-endian integers *)

Fixpoint le_bytes (n : nat) (x : Z) : list Z :=
  match n with O => [] | S n => x `mod` 256 :: le_bytes n (x / 256) end.

(** [uN::from_le_bytes]. *)
Fixpoint le_value (bs : list Z) : Z :=
  match bs with [] => 0 | b :: bs => b + 256 * le_value bs end.

Lemma le_bytes_length n x : length (le_bytes n x) = n.
Proof. revert x. induction n as [|n IH]; intros x; [done|]. cbn. by rewrite IH. Qed.

Lemma le_value_bytes n x : 0 ≤ x < 256 ^ Z.of_nat n → le_value (le_bytes n x) = x.
Proof.
  revert x. induction n as [|n IH]; intros x Hx; cbn [le_bytes le_value]; [cbn in Hx; lia|].
  rewrite IH; [lia|]. rewrite Nat2Z.inj_succ, Z.pow_succ_r in Hx by lia. lia.
Qed.

Lemma le_bytes_value bs : Forall is_byte bs → le_bytes (length bs) (le_value bs) = bs.
Proof.
  induction 1 as [|b bs Hb _ IH]; [done|]. cbn. unfold is_byte in Hb.
  replace ((b + 256 * le_value bs) `mod` 256) with b by lia.
  replace ((b + 256 * le_value bs) / 256) with (le_value bs) by lia. by rewrite IH.
Qed.

Lemma le_value_range bs :
  Forall is_byte bs → 0 ≤ le_value bs < 256 ^ Z.of_nat (length bs).
Proof.
  induction 1 as [|b bs Hb _ IH]; [done|]. cbn [le_value length].
  rewrite Nat2Z.inj_succ, Z.pow_succ_r by lia. unfold is_byte in Hb. lia.
Qed.

(** ** Checks by computation *)

Lemma is_byte_all bs : forallb (λ b, (0 <=? b) && (b <=? 255)) bs = true → Forall is_byte bs.
Proof. rewrite forallb_forall, Forall_forall. intros H b Hb%list_elem_of_In%H. unfold is_byte. lia. Qed.

Lemma is_scalar_all s : forallb is_scalar_b s = true → Forall is_scalar s.
Proof.
  rewrite forallb_forall, Forall_forall. intros H c Hc%list_elem_of_In%H. by apply is_scalar_b_true.
Qed.

(** ** Digests *)

(** SHA-256, of an external crate, and the hexadecimal form of a digest. *)
Class DigestApi := { sha256 : list Z → list Z }.

Definition hex_digit (d : Z) : char := if d <? 10 then 48 + d else 87 + d.
Definition hex_bytes (bytes : list Z) : str :=
  bytes ≫= λ byte, [hex_digit (byte / 16); hex_digit (byte `mod` 16)].
