(* ===== verification/Float.v ===== *)
(** * IEEE 754 binary32 and binary64

    [f32] and [f64] values are the standard library's executable
    specification of floating-point arithmetic ([SpecFloat]: round to nearest,
    ties to even), with the widths of the two formats. *)

From S2P Require Import Prelude.
From Stdlib Require Import SpecFloat.

#[local] Open Scope Z_scope.

Abbreviation f32 := spec_float (only parsing).
Abbreviation f64 := spec_float (only parsing).

(** [x as f64] for an unsigned integer [x]. *)
Definition f64_of_u64 (x : Z) : f64 := binary_normalize 53 1024 x 0 false.

(** [x as f64] for an [f32] (exact). *)
Definition f64_of_f32 (x : f32) : f64 :=
  match x with
  | S754_finite s m e => binary_round 53 1024 s m e
  | _ => x
  end.

Definition f64_div (x y : f64) : f64 := SFdiv 53 1024 x y.

(** A literal [num/den], correctly rounded. *)
Definition f64_lit (num den : Z) : f64 := f64_div (f64_of_u64 num) (f64_of_u64 den).
Definition f32_lit (num den : Z) : f32 :=
  SFdiv 24 128 (binary_normalize 24 128 num 0 false) (binary_normalize 24 128 den 0 false).

Definition is_nan (x : spec_float) : bool :=
  match x with S754_nan => true | _ => false end.

(** [is_finite]. *)
Definition is_finite (x : spec_float) : bool :=
  match x with S754_nan | S754_infinity _ => false | _ => true end.

(** The comparisons [<=] and [>=]: false on NaN. *)
Definition f_le (x y : spec_float) : bool := SFleb x y.
Definition f_ge (x y : spec_float) : bool := SFleb y x.
Definition f_lt (x y : spec_float) : bool := SFltb x y.

(** [f64::max]: the other argument when one is NaN. *)
Definition f64_max (x y : f64) : f64 :=
  if is_nan x then y else if is_nan y then x else if f_lt x y then y else x.

(** [(lo..=hi).contains(&x)]. *)
Definition range_contains (lo hi x : spec_float) : bool := f_le lo x && f_le x hi.

Definition f_zero : spec_float := S754_zero false.
Definition f32_one : f32 := Eval vm_compute in f32_lit 1 1.
Definition f32_minus_one : f32 := Eval vm_compute in SFopp f32_one.
Definition f32_half : f32 := Eval vm_compute in f32_lit 1 2.
Definition f32_two : f32 := Eval vm_compute in f32_lit 2 1.
Definition f32_twelve : f32 := Eval vm_compute in f32_lit 12 1.
Definition f32_minus_twelve : f32 := Eval vm_compute in SFopp f32_twelve.

(** The operations of [f32]. *)
Definition f32_of_u64 (x : Z) : f32 := binary_normalize 24 128 x 0 false.
Definition f32_add (x y : f32) : f32 := SFadd 24 128 x y.
Definition f32_sub (x y : f32) : f32 := SFsub 24 128 x y.
Definition f32_mul (x y : f32) : f32 := SFmul 24 128 x y.
Definition f32_div (x y : f32) : f32 := SFdiv 24 128 x y.
Definition f32_sqrt (x : f32) : f32 := SFsqrt 24 128 x.
Definition f32_abs (x : f32) : f32 := SFabs x.
Definition f32_epsilon : f32 := Eval vm_compute in f32_lit 1 8388608.
Definition f32_neg_infinity : f32 := S754_infinity true.

(** [f32::max] and [f32::min]: the other argument when one is NaN. *)
Definition f32_max (x y : f32) : f32 := f64_max x y.
Definition f32_min (x y : f32) : f32 :=
  if is_nan x then y else if is_nan y then x else if f_lt y x then y else x.

(** [clamp]: a NaN stays one. *)
Definition f32_clamp (lo hi x : f32) : f32 :=
  let x := if f_lt x lo then lo else x in if f_lt hi x then hi else x.

(** [Iterator::sum], which starts from the negative zero. *)
Definition f32_sum (xs : list f32) : f32 := fold_left f32_add xs (S754_zero true).

(** [f32::from_bits]. *)
Definition f32_from_bits (bits : Z) : f32 :=
  let s := Z.testbit bits 31 in
  let e := Z.land (Z.shiftr bits 23) 255 in
  let m := Z.land bits 8388607 in
  if e =? 255 then (if m =? 0 then S754_infinity s else S754_nan) else
  match (if e =? 0 then m else m + 8388608) with
  | Z.pos p => S754_finite s p (Z.max e 1 - 150)
  | _ => S754_zero s
  end.

(** [total_cmp]: the order of the bit patterns. The sign of a NaN the program computed
    is not specified by the language: [NanApi]. *)
Class NanApi := { nan_negative : bool }.

Definition f_total_key (nan_negative : bool) (x : spec_float) : Z * (Z * Z) :=
  match x with
  | S754_nan => (if nan_negative then -4 else 4, (0, 0))
  | S754_infinity s => (if s then -3 else 3, (0, 0))
  | S754_zero s => (if s then -1 else 1, (0, 0))
  | S754_finite true m e => (-2, (- e, Z.neg m))
  | S754_finite false m e => (2, (e, Z.pos m))
  end.

Definition f_total_cmp (nan_negative : bool) (x y : spec_float) : comparison :=
  ocmp (f_total_key nan_negative x) (f_total_key nan_negative y).

(** It agrees with [<] where [<] says something. *)
Lemma f_total_cmp_lt b x y : f_lt x y = true → f_total_cmp b x y = Lt.
Proof.
  unfold f_lt, SFltb, SFcompare, f_total_cmp.
  destruct x as [[]|[]| |[] m e], y as [[]|[]| |[] m' e']; try done; cbn -[Z.compare];
    try (by destruct b).
  - change (Z.neg m ?= Z.neg m') with (CompOpp (m ?= m')%positive).
    rewrite Z.compare_opp, (Z.compare_antisym e e').
    destruct (e ?= e'); [|done..]. change (PosDef.Pos.compare_cont Eq m m') with (m ?= m')%positive; cbn; by destruct (m ?= m')%positive.
  - destruct (e ?= e'); [|done..]. change (PosDef.Pos.compare_cont Eq m m') with (m ?= m')%positive; cbn; by destruct (m ?= m')%positive.
Qed.

Lemma is_finite_not_nan x : is_finite x = true → is_nan x = false.
Proof. by destruct x. Qed.

Lemma f_le_not_nan x y : f_le x y = true → is_nan x = false ∧ is_nan y = false.
Proof. by destruct x, y. Qed.
