(* ===== verification/Policy.v ===== *)
(** * Shared runtime types ([crates/runtime-core/src/types.rs])

    The identities, the policy enumerations, the provider descriptors and the
    request that every other component of the runtime core works on.

    Then the privacy and fallback policy over them ([policy.rs]). *)

From S2P Require Import Prelude Text.

#[local] Open Scope Z_scope.

(** Stable identity attached to every event of one foreground turn. *)
Record TurnIdentity := {
  ti_session_id : str;
  ti_turn_id : str;
  ti_cancellation_generation : Z
}.
#[export] Instance TurnIdentity_eq_dec : EqDecision TurnIdentity.
Proof. solve_decision. Defined.

Inductive ExecutionMode := Cloud | Hybrid | FullyLocal.
#[export] Instance ExecutionMode_eq_dec : EqDecision ExecutionMode.
Proof. solve_decision. Defined.

Inductive NetworkPolicy := Online | Offline.
#[export] Instance NetworkPolicy_eq_dec : EqDecision NetworkPolicy.
Proof. solve_decision. Defined.

Inductive ProviderModality := Recognition | LanguageModel | Effects | Speech.
#[export] Instance ProviderModality_eq_dec : EqDecision ProviderModality.
Proof. solve_decision. Defined.

Inductive ProviderLocation :=
| Local
| CloudService (service : str)
| ExternalLocalServer.
#[export] Instance ProviderLocation_eq_dec : EqDecision ProviderLocation.
Proof. solve_decision. Defined.

Definition is_networked (l : ProviderLocation) : bool :=
  match l with CloudService _ => true | _ => false end.
Definition is_local (l : ProviderLocation) : bool := negb (is_networked l).

Inductive DataClass := Transcript | PromptContext | Audio | EffectsSchema.
#[export] Instance DataClass_eq_dec : EqDecision DataClass.
Proof. solve_decision. Defined.

Record ProviderDescriptor := {
  pd_id : str;
  pd_display_name : str;
  pd_modality : ProviderModality;
  pd_location : ProviderLocation;
  pd_may_retain_data : bool;
  pd_transmitted_data : list DataClass;
  pd_capabilities : gmap str str
}.
#[export] Instance ProviderDescriptor_eq_dec : EqDecision ProviderDescriptor.
Proof. solve_decision. Defined.

Inductive TurnLifecycle :=
| Accepted | Listening | Transcribing | Identifying | Remembering | Responding
| Voicing | Animating | Committing | Completed | Cancelled | Failed.
#[export] Instance TurnLifecycle_eq_dec : EqDecision TurnLifecycle.
Proof. solve_decision. Defined.

Definition is_terminal (s : TurnLifecycle) : bool :=
  match s with Completed | Cancelled | Failed => true | _ => false end.

Record TurnRequest := {
  tr_session_id : str;
  tr_turn_id : str;
  tr_transcript : str;
  tr_character_hint : option str;
  tr_game_id : str;
  tr_locale : str;
  tr_execution_mode : ExecutionMode;
  tr_network_policy : NetworkPolicy;
  tr_authorized_cloud_providers : list str;
  tr_allow_provider_fallback : bool;
  tr_allow_local_to_cloud_fallback : bool;
  tr_allow_retaining_providers : bool;
  tr_metadata : gmap str str
}.

Inductive ValidationError := Missing (field : str).

(** [TurnRequest::validate]. *)
Definition request_validate (r : TurnRequest) : result ValidationError unit :=
  if is_blank (tr_session_id r) then Err (Missing (lit "session_id")) else
  if is_blank (tr_turn_id r) then Err (Missing (lit "turn_id")) else
  if is_blank (tr_transcript r) then Err (Missing (lit "transcript")) else
  if is_blank (tr_game_id r) then Err (Missing (lit "game_id")) else
  if is_blank (tr_locale r) then Err (Missing (lit "locale")) else
  Ok tt.

(** * Privacy and fallback policy ([crates/runtime-core/src/policy.rs])

    Which providers a turn may use, and which transitions between providers
    are silent. *)

#[local] Open Scope Z_scope.

Inductive PrivacyDecision :=
| Allowed
| BlockedOffline
| BlockedFullyLocal
| CloudProviderNotAuthorized
| RetentionNotAuthorized.
#[export] Instance PrivacyDecision_eq_dec : EqDecision PrivacyDecision.
Proof. solve_decision. Defined.

Record PrivacyPolicy := {
  pp_execution_mode : ExecutionMode;
  pp_network_policy : NetworkPolicy;
  pp_authorized_cloud_providers : gset str;
  pp_allow_retaining_providers : bool
}.

Definition privacy_from_request (r : TurnRequest) : PrivacyPolicy := {|
  pp_execution_mode := tr_execution_mode r;
  pp_network_policy := tr_network_policy r;
  pp_authorized_cloud_providers := list_to_set (tr_authorized_cloud_providers r);
  pp_allow_retaining_providers := tr_allow_retaining_providers r
|}.

(** [PrivacyPolicy::evaluate]. *)
Definition evaluate (p : PrivacyPolicy) (d : ProviderDescriptor) : PrivacyDecision :=
  if is_networked (pd_location d) && bool_decide (pp_network_policy p = Offline)
  then BlockedOffline else
  if is_networked (pd_location d) && bool_decide (pp_execution_mode p = FullyLocal)
  then BlockedFullyLocal else
  if is_networked (pd_location d)
     && negb (bool_decide (pd_id d ∈ pp_authorized_cloud_providers p))
  then CloudProviderNotAuthorized else
  if pd_may_retain_data d && negb (pp_allow_retaining_providers p)
  then RetentionNotAuthorized else
  Allowed.

Record FallbackPolicy := {
  fp_allow_provider_fallback : bool;
  fp_allow_local_to_cloud_fallback : bool
}.

Definition fallback_from_request (r : TurnRequest) : FallbackPolicy := {|
  fp_allow_provider_fallback := tr_allow_provider_fallback r;
  fp_allow_local_to_cloud_fallback := tr_allow_local_to_cloud_fallback r
|}.

(** [FallbackPolicy::allows_transition]. *)
Definition allows_transition (f : FallbackPolicy) (from to : ProviderDescriptor) : bool :=
  if str_eqb (pd_id from) (pd_id to) then true else
  if negb (fp_allow_provider_fallback f) then false else
  if is_local (pd_location from)
     && match pd_location to with CloudService _ => true | _ => false end
     && negb (fp_allow_local_to_cloud_fallback f)
  then false else
  true.

Record RoutingPlan := {
  rp_privacy : PrivacyPolicy;
  rp_fallback : FallbackPolicy
}.

Definition plan_from_request (r : TurnRequest) : RoutingPlan := {|
  rp_privacy := privacy_from_request r;
  rp_fallback := fallback_from_request r
|}.

Section candidates.
Context {T : Type} (descriptor : T → ProviderDescriptor).

Definition provider_allowed (plan : RoutingPlan) (p : T) : bool :=
  bool_decide (evaluate (rp_privacy plan) (descriptor p) = Allowed).

(** [RoutingPlan::candidates]. *)
Definition candidates (plan : RoutingPlan) (providers : list T) : list T :=
  match List.find (provider_allowed plan) providers with
  | None => []
  | Some primary =>
      List.filter
        (λ candidate, provider_allowed plan candidate
           && allows_transition (rp_fallback plan) (descriptor primary)
                (descriptor candidate))
        providers
  end.
End candidates.

(** * Lemmas *)

Lemma evaluate_allowed p d :
  evaluate p d = Allowed ↔
    (is_networked (pd_location d) = true →
       pp_network_policy p = Online ∧ pp_execution_mode p ≠ FullyLocal ∧
       pd_id d ∈ pp_authorized_cloud_providers p) ∧
    (pd_may_retain_data d = true → pp_allow_retaining_providers p = true).
Proof.
  unfold evaluate.
  destruct (is_networked (pd_location d)), (pp_network_policy p),
    (pp_execution_mode p), (pd_may_retain_data d), (pp_allow_retaining_providers p);
    simpl; repeat case_bool_decide; simpl; naive_solver.
Qed.

Lemma networked_not_local l : is_networked l = true ↔ is_local l = false.
Proof. unfold is_local. by destruct (is_networked l). Qed.

Section candidates_facts.
Context {T : Type} (descriptor : T → ProviderDescriptor) (plan : RoutingPlan).

Lemma provider_allowed_spec p :
  provider_allowed descriptor plan p = true ↔
  evaluate (rp_privacy plan) (descriptor p) = Allowed.
Proof. apply bool_decide_eq_true. Qed.

Lemma find_split {A} (f : A → bool) l x :
  List.find f l = Some x →
  ∃ l1 l2, l = l1 ++ x :: l2 ∧ f x = true ∧ Forall (λ y, f y = false) l1.
Proof.
  induction l as [|y l IH]; simpl; [done|].
  destruct (f y) eqn:Hy.
  - intros [= ->]. by exists [], l.
  - intros (l1 & l2 & -> & ? & ?)%IH. exists (y :: l1), l2. auto.
Qed.

Lemma filter_none {A} (f : A → bool) l :
  Forall (λ y, f y = false) l → List.filter f l = [].
Proof. by induction 1 as [|x l Hx _ IH]; simpl; [|rewrite Hx]. Qed.

Lemma allows_transition_refl f d : allows_transition f d d = true.
Proof. unfold allows_transition, str_eqb. by rewrite bool_decide_true. Qed.

(** The candidates are the first allowed provider followed by the later
    allowed ones that may follow it. *)
Lemma candidates_primary providers l1 primary l2 :
  providers = l1 ++ primary :: l2 →
  Forall (λ y, provider_allowed descriptor plan y = false) l1 →
  provider_allowed descriptor plan primary = true →
  candidates descriptor plan providers =
    primary :: List.filter (λ c, provider_allowed descriptor plan c
      && allows_transition (rp_fallback plan) (descriptor primary) (descriptor c)) l2.
Proof.
  intros -> Hl1 Hp. unfold candidates.
  assert (List.find (provider_allowed descriptor plan) (l1 ++ primary :: l2) = Some primary)
    as ->.
  { induction Hl1 as [|y l1 Hy _ IH]; simpl; [by rewrite Hp|by rewrite Hy]. }
  rewrite List.filter_app, filter_none; simpl.
  - by rewrite Hp, allows_transition_refl.
  - apply (Forall_impl _ _ _ Hl1). by intros y ->.
Qed.

Lemma candidates_elem providers c :
  c ∈ candidates descriptor plan providers →
  ∃ l1 primary l2, providers = l1 ++ primary :: l2 ∧
    Forall (λ y, provider_allowed descriptor plan y = false) l1 ∧
    provider_allowed descriptor plan primary = true ∧
    c ∈ primary :: l2 ∧
    provider_allowed descriptor plan c = true ∧
    allows_transition (rp_fallback plan) (descriptor primary) (descriptor c) = true.
Proof.
  intros Hc. unfold candidates in Hc.
  destruct (List.find _ providers) as [primary|] eqn:Hfind; [|by apply not_elem_of_nil in Hc].
  apply list_elem_of_In, filter_In in Hc as [Hin [Hok Htr]%andb_prop].
  apply find_split in Hfind as (l1 & l2 & -> & Hp & Hl1).
  exists l1, primary, l2. repeat split; try done.
  apply in_app_or in Hin as [Hin|Hin].
  - rewrite Forall_forall in Hl1. apply list_elem_of_In, Hl1 in Hin. congruence.
  - by apply list_elem_of_In.
Qed.
End candidates_facts.

(** * Properties *)

(** the routing plan keeps the declared preference order.  Either no
    provider is privacy-safe and there is no candidate, or the candidates are
    the first privacy-safe provider followed, in declared order, by exactly the
    later providers that are privacy-safe and that the fallback policy lets
    follow it. *)
Theorem candidates_preference_order {T} (descriptor : T → ProviderDescriptor)
    (plan : RoutingPlan) (providers : list T) :
  (candidates descriptor plan providers = [] ∧
     Forall (λ p, evaluate (rp_privacy plan) (descriptor p) ≠ Allowed) providers) ∨
  (∃ skipped primary later,
     providers = skipped ++ primary :: later ∧
     Forall (λ p, evaluate (rp_privacy plan) (descriptor p) ≠ Allowed) skipped ∧
     evaluate (rp_privacy plan) (descriptor primary) = Allowed ∧
     candidates descriptor plan providers =
       primary :: filter (λ c, evaluate (rp_privacy plan) (descriptor c) = Allowed ∧
         allows_transition (rp_fallback plan) (descriptor primary) (descriptor c) = true)
         later).
Proof.
  assert (Hfalse : ∀ l, Forall (λ y, provider_allowed descriptor plan y = false) l →
    Forall (λ p, evaluate (rp_privacy plan) (descriptor p) ≠ Allowed) l).
  { intros l Hl. apply (Forall_impl _ _ _ Hl). intros p Hp.
    rewrite <-provider_allowed_spec. by rewrite Hp. }
  destruct (List.find (provider_allowed descriptor plan) providers) as [primary|] eqn:Hfind.
  - right. pose proof Hfind as (l1 & l2 & Hl & Hp & Hl1)%find_split.
    exists l1, primary, l2. repeat split; try done; [auto|by apply provider_allowed_spec|].
    erewrite candidates_primary by done. f_equal.
    clear. induction l2 as [|c l2 IH]; [done|]. rewrite filter_cons. simpl.
    case_decide as H.
    + destruct H as [H1%provider_allowed_spec H2]. by rewrite H1, H2, IH.
    + destruct (provider_allowed descriptor plan c) eqn:H1; [|exact IH].
      destruct (allows_transition _ _ _) eqn:H2; [|exact IH].
      destruct H. by apply provider_allowed_spec in H1.
  - left. unfold candidates. rewrite Hfind. split; [done|]. apply Hfalse.
    apply Forall_forall. intros p Hin.
    by apply (find_none _ _ Hfind), list_elem_of_In.
Qed.

(** C3: a turn sends nothing to a networked provider the request did not
    authorise.  Every candidate of the plan built from a request is local, or
    the request is online, not fully local, and lists the provider; and a
    candidate that may retain data needs the request's consent. *)
Theorem candidates_egress_authorized {T} (descriptor : T → ProviderDescriptor)
    (request : TurnRequest) (providers : list T) (c : T) :
  c ∈ candidates descriptor (plan_from_request request) providers →
  (is_networked (pd_location (descriptor c)) = true →
     tr_network_policy request = Online ∧
     tr_execution_mode request ≠ FullyLocal ∧
     pd_id (descriptor c) ∈ tr_authorized_cloud_providers request) ∧
  (pd_may_retain_data (descriptor c) = true → tr_allow_retaining_providers request = true).
Proof.
  intros (l1 & p & l2 & _ & _ & _ & _ & Hc & _)%candidates_elem.
  apply provider_allowed_spec, evaluate_allowed in Hc. simpl in Hc.
  by rewrite elem_of_list_to_set in Hc.
Qed.

(** no silent move from a local to a cloud provider.  When the request does
    not allow local-to-cloud fallback and the provider the turn would use first
    is local, every candidate with another identity is local too. *)
Theorem candidates_no_silent_cloud {T} (descriptor : T → ProviderDescriptor)
    (request : TurnRequest) (providers : list T) (primary c : T) :
  tr_allow_local_to_cloud_fallback request = false →
  head (candidates descriptor (plan_from_request request) providers) = Some primary →
  is_local (pd_location (descriptor primary)) = true →
  c ∈ candidates descriptor (plan_from_request request) providers →
  pd_id (descriptor c) = pd_id (descriptor primary) ∨
  is_local (pd_location (descriptor c)) = true.
Proof.
  intros Hno Hhead Hlocal Hc.
  apply candidates_elem in Hc as (l1 & p & l2 & Hl & Hl1 & Hp & _ & _ & Htr).
  rewrite (candidates_primary _ _ _ _ _ _ Hl Hl1 Hp) in Hhead.
  injection Hhead as ->. unfold allows_transition, str_eqb in Htr. simpl in Htr.
  case_bool_decide as Hid; [by left|]. right.
  destruct (tr_allow_provider_fallback request); [|done]. simpl in Htr.
  rewrite Hlocal, Hno in Htr. simpl in Htr.
  unfold is_local. by destruct (pd_location (descriptor c)).
Qed.

(** * Witnesses *)

Definition witness_provider (id : string) (l : ProviderLocation) : ProviderDescriptor := {|
  pd_id := lit id; pd_display_name := lit id; pd_modality := LanguageModel;
  pd_location := l; pd_may_retain_data := false; pd_transmitted_data := [Transcript];
  pd_capabilities := ∅ |}.

Definition witness_request : TurnRequest := {|
  tr_session_id := lit "s"; tr_turn_id := lit "t"; tr_transcript := lit "hello";
  tr_character_hint := None; tr_game_id := lit "generic"; tr_locale := lit "en-US";
  tr_execution_mode := Hybrid; tr_network_policy := Online;
  tr_authorized_cloud_providers := [lit "cloud"];
  tr_allow_provider_fallback := true; tr_allow_local_to_cloud_fallback := false;
  tr_allow_retaining_providers := false; tr_metadata := ∅ |}.

Definition witness_providers : list ProviderDescriptor :=
  [witness_provider "local" Local; witness_provider "cloud" (CloudService (lit "x"));
   witness_provider "server" ExternalLocalServer].

Lemma candidates_egress_authorized_witness :
  is_networked (pd_location (witness_provider "cloud" (CloudService (lit "x")))) = true ∧
  tr_network_policy witness_request = Online.
Proof.
  split; [reflexivity|].
  refine (proj1 (proj1 (candidates_egress_authorized id witness_request
    [witness_provider "cloud" (CloudService (lit "x"))]
    (witness_provider "cloud" (CloudService (lit "x"))) _) _)); [|reflexivity].
  vm_compute. left.
Defined.

Lemma candidates_no_silent_cloud_witness :
  candidates id (plan_from_request witness_request) witness_providers =
    [witness_provider "local" Local; witness_provider "server" ExternalLocalServer] ∧
  is_local (pd_location (witness_provider "server" ExternalLocalServer)) = true.
Proof.
  split; [vm_compute; reflexivity|].
  destruct (candidates_no_silent_cloud id witness_request witness_providers
    (witness_provider "local" Local) (witness_provider "server" ExternalLocalServer))
    as [H|H]; [reflexivity|vm_compute; reflexivity|reflexivity| |discriminate H|exact H].
  vm_compute. right; left.
Defined.
