(* ===== verification/Circuit.v ===== *)
(** * Provider circuit breaker ([crates/runtime-core/src/circuit_breaker.rs])

    A breaker guards the calls to one provider.  Instants are nanoseconds of
    the monotonic clock, durations are non-negative nanoseconds.  Clones of a
    breaker share one state behind a mutex, so a breaker is its state and every
    method is one atomic transition; the registry hands out the same state for
    the same provider id.

    At the end, the cancellation generations of [cancellation.rs]. *)

From S2P Require Import Prelude Text.

#[local] Open Scope Z_scope.

Record CircuitBreakerConfig := {
  failure_threshold : Z;
  recovery_success_threshold : Z;
  open_duration : Z;
  half_open_max_in_flight : Z
}.

(** [CircuitBreakerConfig::default]. *)
Definition circuit_default : CircuitBreakerConfig := {|
  failure_threshold := 3;
  recovery_success_threshold := 2;
  open_duration := 30 * 1000000000;
  half_open_max_in_flight := 1
|}.

Inductive CircuitStateSnapshot :=
| SnapClosed (consecutive_failures : Z)
| SnapOpen (retry_after : Z)
| SnapHalfOpen (in_flight successes : Z).

Record CircuitOpen := { retry_after : Z }.

Inductive CircuitState :=
| Closed (consecutive_failures : Z)
| Open_ (opened_at : Z)
| HalfOpen (in_flight successes : Z).
#[export] Instance CircuitState_eq_dec : EqDecision CircuitState.
Proof. solve_decision. Defined.

(** The assertions of [CircuitBreaker::new]; [None] is the panic. *)
Definition circuit_new (cfg : CircuitBreakerConfig) : option CircuitState :=
  if 0 <? failure_threshold cfg then
    if 0 <? recovery_success_threshold cfg then
      if 0 <? half_open_max_in_flight cfg then Some (Closed 0) else None
    else None
  else None.

(** [Instant::saturating_duration_since]. *)
Definition saturating_duration_since (now earlier : Z) : Z := Z.max (now - earlier) 0.

(** [try_acquire_at]: [Ok tt] is a permit. *)
Definition try_acquire_at (cfg : CircuitBreakerConfig) (now : Z) (st : CircuitState)
    : CircuitState * result CircuitOpen unit :=
  let elapsed_gate :=
    match st with
    | Open_ opened_at =>
        let elapsed := saturating_duration_since now opened_at in
        if open_duration cfg <=? elapsed then inl (HalfOpen 0 0)
        else inr {| retry_after := open_duration cfg - elapsed |}
    | _ => inl st
    end in
  match elapsed_gate with
  | inr rejected => (st, Err rejected)
  | inl st =>
      match st with
      | HalfOpen in_flight successes =>
          if half_open_max_in_flight cfg <=? in_flight
          then (st, Err {| retry_after := open_duration cfg |})
          else (HalfOpen (wrap_add32 in_flight 1) successes, Ok tt)
      | _ => (st, Ok tt)
      end
  end.

(** [snapshot], with the clock read inside. *)
Definition circuit_snapshot (cfg : CircuitBreakerConfig) (now : Z) (st : CircuitState)
    : CircuitStateSnapshot :=
  match st with
  | Closed n => SnapClosed n
  | Open_ opened_at => SnapOpen (sat_sub (open_duration cfg) (saturating_duration_since now opened_at))
  | HalfOpen in_flight successes => SnapHalfOpen in_flight successes
  end.

Definition record_success (cfg : CircuitBreakerConfig) (st : CircuitState) : CircuitState :=
  match st with
  | Closed _ => Closed 0
  | HalfOpen in_flight successes =>
      let in_flight := sat_sub in_flight 1 in
      let successes := wrap_add32 successes 1 in
      if recovery_success_threshold cfg <=? successes then Closed 0
      else HalfOpen in_flight successes
  | Open_ _ => st
  end.

Definition record_failure (cfg : CircuitBreakerConfig) (now : Z) (st : CircuitState)
    : CircuitState :=
  match st with
  | Closed consecutive_failures =>
      let consecutive_failures := wrap_add32 consecutive_failures 1 in
      if failure_threshold cfg <=? consecutive_failures then Open_ now
      else Closed consecutive_failures
  | HalfOpen _ _ => Open_ now
  | Open_ _ => st
  end.

(** How the owner of a permit ends it: [success], [failure], or a drop. *)
Inductive PermitEnd := PermitSuccess | PermitFailure | PermitDrop.

(** [CircuitPermit::success]/[failure], which set [finished], and the [Drop]
    of an unfinished permit. *)
Definition permit_finish (cfg : CircuitBreakerConfig) (now : Z) (how : PermitEnd)
    (st : CircuitState) : CircuitState :=
  match how with
  | PermitSuccess => record_success cfg st
  | PermitFailure => record_failure cfg now st
  | PermitDrop =>
      match st with
      | HalfOpen in_flight successes => HalfOpen (sat_sub in_flight 1) successes
      | _ => st
      end
  end.

(** [CircuitRegistry::for_provider]: the handle is the provider id, the shared
    state is created closed on first use. *)
Definition for_provider (cfg : CircuitBreakerConfig) (provider_id : str)
    (entries : gmap str CircuitState) : option (gmap str CircuitState) :=
  match entries !! provider_id with
  | Some _ => Some entries
  | None => st ← circuit_new cfg; Some (<[provider_id := st]> entries)
  end.

(** ** The breaker with its outstanding permits

    [true] marks a permit that took a half-open slot. *)

Record circuit_sys := { cs_state : CircuitState; cs_permits : list bool }.

Inductive circuit_event :=
| EvAcquire (now : Z)
| EvFinish (permit : nat) (how : PermitEnd) (now : Z).

Definition is_half_open (st : CircuitState) : bool :=
  match st with HalfOpen _ _ => true | _ => false end.

Definition circuit_step (cfg : CircuitBreakerConfig) (s : circuit_sys) (e : circuit_event)
    : circuit_sys :=
  match e with
  | EvAcquire now =>
      match try_acquire_at cfg now (cs_state s) with
      | (st, Ok _) => {| cs_state := st; cs_permits := cs_permits s ++ [is_half_open st] |}
      | (st, Err _) => {| cs_state := st; cs_permits := cs_permits s |}
      end
  | EvFinish i how now =>
      match cs_permits s !! i with
      | Some _ => {| cs_state := permit_finish cfg now how (cs_state s);
                     cs_permits := delete i (cs_permits s) |}
      | None => s
      end
  end.

Inductive circuit_reachable (cfg : CircuitBreakerConfig) : circuit_sys → Prop :=
| circuit_init st :
    circuit_new cfg = Some st → circuit_reachable cfg {| cs_state := st; cs_permits := [] |}
| circuit_next s e :
    circuit_reachable cfg s → circuit_reachable cfg (circuit_step cfg s e).

(** Configurations whose thresholds are [u32] values accepted by [new]. *)
Definition circuit_config_ok (cfg : CircuitBreakerConfig) : Prop :=
  0 < failure_threshold cfg ≤ u32_max ∧
  0 < recovery_success_threshold cfg ≤ u32_max ∧
  0 < half_open_max_in_flight cfg ≤ u32_max ∧
  0 ≤ open_duration cfg.

Definition circuit_ok (cfg : CircuitBreakerConfig) (st : CircuitState) : Prop :=
  match st with
  | Closed n => 0 ≤ n < failure_threshold cfg
  | Open_ _ => True
  | HalfOpen i s => 0 ≤ i ≤ half_open_max_in_flight cfg
                    ∧ 0 ≤ s < recovery_success_threshold cfg
  end.

(** * Lemmas *)

Lemma wrap_add32_small a : 0 ≤ a < u32_max → wrap_add32 a 1 = a + 1.
Proof. unfold wrap_add32, u32_max. intros. apply Z.mod_small. lia. Qed.

Ltac circuit_cases :=
  unfold try_acquire_at, permit_finish, record_success, record_failure, sat_sub in *;
  repeat case_match; simplify_eq/=;
  repeat match goal with
  | H : (_ <=? _) = true |- _ => apply Z.leb_le in H
  | H : (_ <=? _) = false |- _ => apply Z.leb_gt in H
  end.

Section circuit_facts.
Context (cfg : CircuitBreakerConfig) (Hcfg : circuit_config_ok cfg).

Lemma circuit_new_ok st : circuit_new cfg = Some st → circuit_ok cfg st.
Proof using Hcfg.
  unfold circuit_new. destruct Hcfg as (? & ? & ? & ?).
  repeat case_match; intros [= <-]. simpl. lia.
Qed.

Lemma try_acquire_ok now st :
  circuit_ok cfg st → circuit_ok cfg (try_acquire_at cfg now st).1.
Proof using Hcfg.
  intros Hok. destruct Hcfg as (? & ? & ? & ?).
  destruct st; circuit_cases; simpl in *; try rewrite wrap_add32_small; lia.
Qed.

Lemma permit_finish_ok now how st :
  circuit_ok cfg st → circuit_ok cfg (permit_finish cfg now how st).
Proof using Hcfg.
  intros Hok. destruct Hcfg as (? & ? & ? & ?).
  destruct how, st as [n|t|i s]; circuit_cases; simpl in *;
    try (rewrite wrap_add32_small in * by lia); try lia; done.
Qed.

Lemma circuit_step_ok s e :
  circuit_ok cfg (cs_state s) → circuit_ok cfg (cs_state (circuit_step cfg s e)).
Proof using Hcfg.
  intros Hok. destruct e as [now|i how now]; simpl.
  - pose proof (try_acquire_ok now _ Hok) as H.
    destruct (try_acquire_at cfg now (cs_state s)) as [st [[]|]]; done.
  - case_match; [|done]. by apply permit_finish_ok.
Qed.
End circuit_facts.

(** [n] failed calls in a row, at the times [ts]. *)
Definition failures (cfg : CircuitBreakerConfig) (ts : list Z) (st : CircuitState)
    : CircuitState :=
  foldl (λ st now, record_failure cfg now st) st ts.

Lemma failures_open cfg ts t : failures cfg ts (Open_ t) = Open_ t.
Proof. induction ts as [|u ts IH]; [done|]. exact IH. Qed.

Lemma failures_closed cfg ts n :
  circuit_config_ok cfg → 0 ≤ n < failure_threshold cfg →
  failures cfg ts (Closed n) =
    match ts !! Z.to_nat (failure_threshold cfg - n - 1) with
    | Some t => Open_ t
    | None => Closed (n + Z.of_nat (length ts))
    end.
Proof.
  intros Hcfg. revert n. destruct Hcfg as ([? ?] & _).
  induction ts as [|t ts IH]; intros n Hn; simpl; [by rewrite Z.add_0_r|].
  unfold failures in *. simpl. rewrite wrap_add32_small by lia.
  destruct (Z.leb_spec (failure_threshold cfg) (n + 1)).
  - replace (Z.to_nat _) with 0%nat by lia. apply failures_open.
  - rewrite IH by lia.
    replace (Z.to_nat (failure_threshold cfg - n - 1))
      with (S (Z.to_nat (failure_threshold cfg - (n + 1) - 1))) by lia.
    simpl. case_match; [done|]. f_equal. lia.
Qed.

(** Within one half-open episode that starts with no outstanding permit. *)
Inductive half_open_episode (cfg : CircuitBreakerConfig) : circuit_sys → Prop :=
| episode_start now opened_at :
    open_duration cfg ≤ now - opened_at →
    half_open_episode cfg
      (circuit_step cfg {| cs_state := Open_ opened_at; cs_permits := [] |} (EvAcquire now))
| episode_next s e :
    half_open_episode cfg s →
    is_half_open (cs_state (circuit_step cfg s e)) = true →
    half_open_episode cfg (circuit_step cfg s e).

Definition slots_exact (cfg : CircuitBreakerConfig) (s : circuit_sys) : Prop :=
  match cs_state s with
  | HalfOpen i _ => i = Z.of_nat (length (cs_permits s))
                    ∧ i ≤ half_open_max_in_flight cfg
  | _ => False
  end.

Lemma slots_exact_step cfg s e :
  circuit_config_ok cfg → slots_exact cfg s →
  is_half_open (cs_state (circuit_step cfg s e)) = true →
  slots_exact cfg (circuit_step cfg s e).
Proof.
  intros (? & ? & ? & ?). unfold slots_exact.
  destruct s as [[n|t|i su] ps]; simpl; try done. intros [-> Hle].
  destruct e as [now|k how now]; simpl.
  - unfold try_acquire_at. destruct (Z.leb_spec (half_open_max_in_flight cfg) (Z.of_nat (length ps)));
      simpl; intros _; [done|].
    rewrite length_app, wrap_add32_small by lia. simpl. lia.
  - destruct (ps !! k) eqn:Hk; [|by simpl].
    pose proof (lookup_lt_Some _ _ _ Hk).
    destruct how; circuit_cases; simpl; intros Hho; simplify_eq;
      rewrite length_delete by eauto; lia.
Qed.

(** * Properties *)

(** the breaker's counters stay inside their bounds in every reachable
    state, whatever the interleaving of acquisitions and of successes,
    failures and drops of permits: fewer consecutive failures than the
    threshold while closed, at most the configured number of half-open slots
    and fewer recovery successes than the threshold while half open. *)
Theorem circuit_counters_bounded (cfg : CircuitBreakerConfig) (s : circuit_sys) :
  circuit_config_ok cfg → circuit_reachable cfg s → circuit_ok cfg (cs_state s).
Proof.
  intros Hcfg. induction 1 as [st Hst|s e _ IH].
  - by apply circuit_new_ok.
  - by apply circuit_step_ok.
Qed.

(** consecutive failures open the circuit exactly at the threshold.  From
    a fresh closed breaker, fewer failures than the threshold only count; from
    the threshold on, the circuit is open since the threshold-th failure. *)
Theorem circuit_opens_at_threshold (cfg : CircuitBreakerConfig) (ts : list Z) :
  circuit_config_ok cfg →
  failures cfg ts (Closed 0) =
    match ts !! Z.to_nat (failure_threshold cfg - 1) with
    | Some t => Open_ t
    | None => Closed (Z.of_nat (length ts))
    end.
Proof.
  intros Hcfg. rewrite failures_closed; [|done|destruct Hcfg; lia].
  by rewrite Z.sub_0_r.
Qed.

(** an open circuit rejects until its open duration has elapsed, reporting
    the exact remaining time and changing nothing; the first call after that is
    admitted and leaves the breaker half open with that one probe in flight. *)
Theorem circuit_open_window (cfg : CircuitBreakerConfig) (now opened_at : Z) :
  circuit_config_ok cfg →
  opened_at ≤ now →
  try_acquire_at cfg now (Open_ opened_at) =
    if now - opened_at <? open_duration cfg
    then (Open_ opened_at, Err {| retry_after := opened_at + open_duration cfg - now |})
    else (HalfOpen 1 0, Ok tt).
Proof.
  intros (? & ? & ? & ?) ?. unfold try_acquire_at, saturating_duration_since.
  rewrite Z.max_l by lia.
  destruct (Z.ltb_spec (now - opened_at) (open_duration cfg)),
    (Z.leb_spec (open_duration cfg) (now - opened_at)); try lia.
  - do 2 f_equal. f_equal. lia.
  - destruct (Z.leb_spec (half_open_max_in_flight cfg) 0); [lia|done].
Qed.

(** in a half-open episode that starts with no outstanding permit, the
    in-flight counter is the number of outstanding probes, and never more than
    the configured maximum. *)
Theorem half_open_slots_exact (cfg : CircuitBreakerConfig) (s : circuit_sys) :
  circuit_config_ok cfg → half_open_episode cfg s → slots_exact cfg s.
Proof.
  intros Hcfg. induction 1 as [now t Hopen|s e _ IH Hho]; [|by apply slots_exact_step].
  destruct Hcfg as (? & ? & ? & ?). unfold slots_exact. simpl.
  unfold try_acquire_at, saturating_duration_since. rewrite Z.max_l by lia.
  destruct (Z.leb_spec (open_duration cfg) (now - t)); [|lia].
  destruct (Z.leb_spec (half_open_max_in_flight cfg) 0); [lia|].
  change (wrap_add32 0 1) with 1. simpl. lia.
Qed.

Definition stale_config : CircuitBreakerConfig := {|
  failure_threshold := 2; recovery_success_threshold := 2;
  open_duration := 10; half_open_max_in_flight := 1 |}.

(** Three calls start while the circuit is closed; two fail and open it; a
    probe starts after the open window; the first call ends; a second probe
    starts. *)
Definition stale_trace : list circuit_event :=
  [EvAcquire 0; EvAcquire 0; EvAcquire 0; EvFinish 1 PermitFailure 1;
   EvFinish 1 PermitFailure 1; EvAcquire 11; EvFinish 0 PermitDrop 12; EvAcquire 13].

(** the half-open limit does not hold across an episode boundary.  A permit
    granted while the circuit was closed and dropped while it is half open
    gives back a slot it never took, so a breaker limited to one probe has two
    probes outstanding. *)
Theorem half_open_limit_exceeded :
  circuit_config_ok stale_config ∧
  ∃ s, circuit_reachable stale_config s ∧
    cs_state s = HalfOpen 1 0 ∧
    half_open_max_in_flight stale_config = 1 ∧
    length (filter (λ b, b = true) (cs_permits s)) = 2%nat.
Proof.
  split; [unfold circuit_config_ok, u32_max; simpl; lia|].
  exists (foldl (circuit_step stale_config) {| cs_state := Closed 0; cs_permits := [] |}
    stale_trace).
  split; [|vm_compute; done].
  repeat apply circuit_next. by apply circuit_init.
Qed.

(** * Witnesses *)

Lemma circuit_default_ok : circuit_config_ok circuit_default.
Proof. unfold circuit_config_ok, u32_max. simpl. lia. Qed.

Lemma circuit_counters_bounded_witness :
  circuit_ok circuit_default (Closed 1).
Proof.
  apply (circuit_counters_bounded circuit_default
    (circuit_step circuit_default
      (circuit_step circuit_default {| cs_state := Closed 0; cs_permits := [] |} (EvAcquire 0))
      (EvFinish 0 PermitFailure 1))).
  - apply circuit_default_ok.
  - do 2 apply circuit_next. apply circuit_init. reflexivity.
Defined.

Lemma circuit_opens_at_threshold_witness :
  failures circuit_default [5; 6; 7; 8] (Closed 0) = Open_ 7.
Proof.
  exact (circuit_opens_at_threshold circuit_default [5; 6; 7; 8] circuit_default_ok).
Defined.

Lemma circuit_open_window_witness :
  try_acquire_at circuit_default 12 (Open_ 10) =
    (Open_ 10, Err {| retry_after := 29999999998 |}).
Proof.
  refine (circuit_open_window circuit_default 12 10 circuit_default_ok _). lia.
Defined.

Lemma half_open_slots_exact_witness :
  slots_exact circuit_default {| cs_state := HalfOpen 1 0; cs_permits := [true] |}.
Proof.
  refine (half_open_slots_exact circuit_default _ circuit_default_ok
    (episode_start circuit_default 40000000000 10 _)). simpl. lia.
Defined.

(** * Cancellation generations ([crates/runtime-core/src/cancellation.rs])

    A process-local counter that only moves forward: output that belongs to an
    older generation is rejected even when the adapter that produces it ignores
    its cancellation token.  The tokens themselves are those of the interface
    [CancelApi]. *)

#[local] Open Scope Z_scope.

Section generations.
Context `{CancelApi}.

(** The shared [Arc<AtomicU64>] with the cells behind the tokens. *)
Record CancellationGeneration := {
  cg_current : Z;
  cg_cells : cstore
}.

Record GenerationToken := {
  gt_generation : Z;
  gt_cancellation : ctoken
}.

Definition generation_default : CancellationGeneration := {|
  cg_current := 0; cg_cells := ct_empty |}.

(** [CancellationGeneration::next]: [fetch_add] wraps. *)
Definition next (g : CancellationGeneration) : GenerationToken * CancellationGeneration :=
  let generation := wrap_add64 (cg_current g) 1 in
  let '(token, cells) := ct_new (cg_cells g) in
  ({| gt_generation := generation; gt_cancellation := token |},
   {| cg_current := generation; cg_cells := cells |}).

Definition is_current (g : CancellationGeneration) (t : GenerationToken) : bool :=
  cg_current g =? gt_generation t.

(** [GenerationToken::is_cancelled]. *)
Definition generation_is_cancelled (g : CancellationGeneration) (t : GenerationToken) : bool :=
  ct_is_cancelled (cg_cells g) (gt_cancellation t) || negb (is_current g t).

(** [GenerationToken::cancel]. *)
Definition generation_cancel (g : CancellationGeneration) (t : GenerationToken)
    : CancellationGeneration := {|
  cg_current := cg_current g;
  cg_cells := ct_cancel (gt_cancellation t) (cg_cells g)
|}.

(** ** Runs: the tokens handed out, oldest first *)

Record generation_run := {
  gr_source : CancellationGeneration;
  gr_tokens : list GenerationToken
}.

Inductive generation_step : generation_run → generation_run → Prop :=
| step_next r :
    generation_step r {|
      gr_source := (next (gr_source r)).2;
      gr_tokens := gr_tokens r ++ [(next (gr_source r)).1] |}
| step_cancel r i t :
    gr_tokens r !! i = Some t →
    generation_step r {|
      gr_source := generation_cancel (gr_source r) t; gr_tokens := gr_tokens r |}.

Definition generation_init : generation_run := {|
  gr_source := generation_default; gr_tokens := [] |}.

Definition generations_numbered (r : generation_run) : Prop :=
  cg_current (gr_source r) = Z.of_nat (length (gr_tokens r)) ∧
  ∀ i t, gr_tokens r !! i = Some t → gt_generation t = Z.of_nat i + 1.

Lemma generation_step_grows r r' :
  generation_step r r' → (length (gr_tokens r) ≤ length (gr_tokens r'))%nat.
Proof. destruct 1; simpl; [rewrite length_app; simpl|]; lia. Qed.

Lemma generation_steps_grow r r' :
  rtc generation_step r r' → (length (gr_tokens r) ≤ length (gr_tokens r'))%nat.
Proof. induction 1 as [|? ? ? ?%generation_step_grows]; lia. Qed.

Lemma generation_step_numbered r r' :
  Z.of_nat (length (gr_tokens r')) ≤ u64_max →
  generations_numbered r → generation_step r r' → generations_numbered r'.
Proof.
  intros Hmax [Hcur Hgen]. destruct 1 as [r|r i t Ht]; [|done].
  unfold next in *. destruct (ct_new _) as [tok cells]. simpl in *.
  rewrite length_app in Hmax. simpl in Hmax. unfold u64_max in Hmax.
  assert (Hw : wrap_add64 (cg_current (gr_source r)) 1 = Z.of_nat (length (gr_tokens r)) + 1).
  { rewrite Hcur. unfold wrap_add64. rewrite Z.mod_small; lia. }
  split; simpl; [rewrite length_app; simpl; lia|].
  intros i t [Hi|[Hi Ht]]%lookup_app_Some; [by eauto|].
  apply list_lookup_singleton_Some in Ht as [Hi' <-]. simpl. lia.
Qed.

Lemma generation_run_numbered r :
  rtc generation_step generation_init r →
  Z.of_nat (length (gr_tokens r)) ≤ u64_max → generations_numbered r.
Proof.
  apply (rtc_ind_r (λ r, Z.of_nat (length (gr_tokens r)) ≤ u64_max → generations_numbered r)).
  - intros _. split; [done|]. intros i t Hi. simpl in Hi. by rewrite lookup_nil in Hi.
  - intros r1 r2 _ Hstep IH Hmax. eapply generation_step_numbered; [done| |done].
    apply IH. apply generation_step_grows in Hstep. lia.
Qed.

End generations.

(** advancing the generation makes every older token stale for good.
    After any run of at most 2^64 - 1 turns, in which any tokens were cancelled
    at any time, the newest token is the only current one and every other token
    reports cancelled. *)
Theorem only_newest_generation_current `{CancelApi} (r : generation_run) (i : nat)
    (t : GenerationToken) :
  rtc generation_step generation_init r →
  Z.of_nat (length (gr_tokens r)) ≤ u64_max →
  gr_tokens r !! i = Some t →
  (is_current (gr_source r) t = true ↔ S i = length (gr_tokens r)) ∧
  ((S i < length (gr_tokens r))%nat → generation_is_cancelled (gr_source r) t = true).
Proof.
  intros Hrun Hmax Ht.
  destruct (generation_run_numbered r Hrun Hmax) as [Hcur Hgen].
  apply Hgen in Ht as Hnum. unfold generation_is_cancelled, is_current.
  rewrite Hcur, Hnum. split.
  - rewrite Z.eqb_eq. lia.
  - intros Hi. destruct (Z.eqb_spec (Z.of_nat (length (gr_tokens r))) (Z.of_nat i + 1)); [lia|].
    apply orb_true_r.
Qed.

(** * Witness *)

Lemma only_newest_generation_current_witness :
  let r := {| gr_source := (@next cells_api (@next cells_api generation_default).2).2;
              gr_tokens := [(@next cells_api generation_default).1;
                (@next cells_api (@next cells_api generation_default).2).1] |} in
  @generation_is_cancelled cells_api (gr_source r)
    (@next cells_api generation_default).1 = true.
Proof.
  intros r.
  refine (proj2 (@only_newest_generation_current cells_api r 0
    (@next cells_api generation_default).1 _ _ _) _).
  - eapply rtc_l; [apply step_next|]. eapply rtc_l; [apply step_next|]. apply rtc_refl.
  - vm_compute. discriminate.
  - reflexivity.
  - simpl. lia.
Defined.
