(* ===== verification/Sentence.v ===== *)
(** * Streaming sentence segmentation ([crates/runtime-core/src/sentence.rs])

    The segmenter buffers the text of a provider stream and emits sentences
    with their exact byte ranges in that stream.  A method that slices the
    buffer returns an option: [None] is the panic of a slice that is out of
    range, reversed or inside a character. *)

From S2P Require Import Prelude Text.

#[local] Open Scope Z_scope.

Record SentenceSegmenterConfig := {
  min_sentence_chars : Z;
  soft_boundary_chars : Z;
  hard_limit_chars : Z;
  abbreviations : gset str
}.

(** [SentenceSegmenterConfig::default]. *)
Definition sentence_config_default : SentenceSegmenterConfig := {|
  min_sentence_chars := 18;
  soft_boundary_chars := 96;
  hard_limit_chars := 220;
  abbreviations := list_to_set (lit <$>
    ["mr."; "mrs."; "ms."; "dr."; "prof."; "sr."; "jr."; "st."; "vs."; "e.g."; "i.e.";
     "etc."; "u.s."]%string)
|}.

Record SentenceSegmenter := {
  sg_config : SentenceSegmenterConfig;
  sg_buffer : str;
  sg_buffer_source_start : Z;
  sg_next_sentence_id : Z
}.

Record SentenceSpan := {
  sentence_id : Z;
  text_start_bytes : Z;
  text_end_bytes : Z;
  span_text : str
}.

(** The assertions of [SentenceSegmenter::new]; [None] is the panic. *)
Definition segmenter_new (config : SentenceSegmenterConfig) : option SentenceSegmenter :=
  if (0 <? min_sentence_chars config)
     && (min_sentence_chars config <=? soft_boundary_chars config)
     && (soft_boundary_chars config <=? hard_limit_chars config)
  then Some {| sg_config := config; sg_buffer := []; sg_buffer_source_start := 0;
               sg_next_sentence_id := 1 |}
  else None.

(** ** Boundary search *)

(** Character literals of the source. *)
Definition newline : char := 10.
Definition is_one_of (cs : list char) (c : char) : bool := existsb (Z.eqb c) cs.
(** [','], [';'], [':'], [U+2014]. *)
Definition soft_marks : list char := [44; 59; 58; 8212].
(** ['!'], ['?'], newline. *)
Definition strong_marks : list char := [33; 63; newline].
(** The double quote, [U+0027], [')'], [']'], ['}']. *)
Definition closing_marks : list char := [34; 39; 41; 93; 125].
(** The double quote, [U+0027], ['('], ['[']. *)
Definition token_quotes : list char := [34; 39; 40; 91].
Definition period : char := 46.
#[global] Arguments is_one_of : simpl never.

(** The loop of [consume_whitespace] over [buffer[end..]]. *)
Fixpoint skip_whitespace (rest : str) (end_ : Z) : Z :=
  match rest with
  | ch :: rest => if is_whitespace ch then skip_whitespace rest (end_ + len_utf8 ch) else end_
  | [] => end_
  end.

Definition consume_whitespace (buffer : str) (end_ : Z) : option Z :=
  rest ← slice_from end_ buffer; Some (skip_whitespace rest end_).

(** The loop of [terminal_boundary] over [buffer[end..]]. *)
Fixpoint terminal_loop (buffer rest : str) (end_ : Z) : option (option Z) :=
  match rest with
  | [] => Some None
  | ch :: rest =>
      if is_one_of closing_marks ch then terminal_loop buffer rest (end_ + len_utf8 ch)
      else if is_whitespace ch then Some <$> consume_whitespace buffer end_
      else Some None
  end.

Definition terminal_boundary (buffer : str) (end_ : Z) : option (option Z) :=
  rest ← slice_from end_ buffer; terminal_loop buffer rest end_.

Definition best_word_boundary (buffer : str) (end_ : Z) : option Z :=
  prefix ← slice_to end_ buffer;
  Some match List.find (λ '(_, ch), is_whitespace ch) (rev (char_indices prefix)) with
       | Some (byte, ch) => byte + len_utf8 ch
       | None => end_
       end.

Definition is_decimal (buffer : str) (period_byte : Z) (previous : option char) : option bool :=
  if is_some_and previous is_ascii_digit then
    rest ← slice_from (period_byte + 1) buffer; Some (is_some_and (head rest) is_ascii_digit)
  else Some false.

Definition is_abbreviation (config : SentenceSegmenterConfig) (buffer : str) (end_ : Z)
    : option bool :=
  prefix ← slice_to end_ buffer;
  let token := to_ascii_lowercase <$> trim_by (is_one_of token_quotes)
                 (after_last_whitespace prefix) in
  if bool_decide (token ∈ abbreviations config) then Some true
  else if (str_len token <=? 3) && ends_with period token then
    stem ← slice_to (str_len token - 1) token; Some (forallb is_ascii_alphabetic stem)
  else Some false.

(** The [for] loop of [find_boundary]; the early returns are [Some (Some _)]. *)
Fixpoint find_boundary_loop (config : SentenceSegmenterConfig) (buffer : str)
    (chars : list (Z * char)) (last_soft : option Z) (previous : option char)
    : option (option Z) :=
  match chars with
  | [] => Some None
  | (byte, ch) :: chars =>
      let end_ := byte + len_utf8 ch in
      prefix ← slice_to end_ buffer;
      let char_count := Z.of_nat (length prefix) in
      let last_soft := if is_one_of soft_marks ch then Some end_ else last_soft in
      strong ← (if is_one_of strong_marks ch && (min_sentence_chars config <=? char_count)
                then if ch =? newline then Some <$> consume_whitespace buffer end_
                     else terminal_boundary buffer end_
                else Some None);
      if is_some strong then Some strong else
      full_stop ← (if (ch =? period) && (min_sentence_chars config <=? char_count) then
                     decimal ← is_decimal buffer byte previous;
                     if decimal : bool then Some None else
                     abbreviation ← is_abbreviation config buffer end_;
                     if abbreviation : bool then Some None else
                     terminal_boundary buffer end_
                   else Some None);
      if is_some full_stop then Some full_stop else
      match (if soft_boundary_chars config <=? char_count then last_soft else None) with
      | Some soft => Some <$> consume_whitespace buffer soft
      | None =>
          if hard_limit_chars config <=? char_count
          then Some <$> best_word_boundary buffer end_
          else find_boundary_loop config buffer chars last_soft (Some ch)
      end
  end.

Definition find_boundary (sg : SentenceSegmenter) (flush : bool) : option (option Z) :=
  if flush then
    Some (if negb (is_blank (sg_buffer sg)) then Some (str_len (sg_buffer sg)) else None)
  else find_boundary_loop (sg_config sg) (sg_buffer sg) (char_indices (sg_buffer sg)) None None.

(** ** Extraction *)

(** One turn of the loop of [extract] at [boundary]: the new state, the emitted
    span if any, and whether the loop breaks. *)
Definition extract_one (sg : SentenceSegmenter) (boundary : Z)
    : option (SentenceSegmenter * list SentenceSpan * bool) :=
  '(raw_sentence, remainder) ← split_at_byte boundary (sg_buffer sg);
  let leading := str_len raw_sentence - str_len (trim_start raw_sentence) in
  let trimmed_end := str_len (trim_end raw_sentence) in
  sentence ← slice leading trimmed_end raw_sentence;
  let emitted :=
    if str_is_empty sentence then [] else
    [{| sentence_id := sg_next_sentence_id sg;
        text_start_bytes := sg_buffer_source_start sg + leading;
        text_end_bytes := sg_buffer_source_start sg + trimmed_end;
        span_text := sentence |}] in
  let next_id :=
    if str_is_empty sentence then sg_next_sentence_id sg
    else wrap_add64 (sg_next_sentence_id sg) 1 in
  let source_start := sg_buffer_source_start sg + boundary in
  if is_blank remainder then
    Some ({| sg_config := sg_config sg; sg_buffer := [];
             sg_buffer_source_start := source_start + str_len remainder;
             sg_next_sentence_id := next_id |}, emitted, true)
  else
    Some ({| sg_config := sg_config sg; sg_buffer := remainder;
             sg_buffer_source_start := source_start;
             sg_next_sentence_id := next_id |}, emitted, false).

Fixpoint extract_loop (fuel : nat) (sg : SentenceSegmenter) (flush : bool)
    : outcome (SentenceSegmenter * list SentenceSpan) :=
  match fuel with
  | O => OutOfFuel
  | S fuel =>
      boundary ← of_panic (find_boundary sg flush);
      match boundary with
      | None => Done (sg, [])
      | Some boundary =>
          '(sg', emitted, stop) ← of_panic (extract_one sg boundary);
          if stop : bool then Done (sg', emitted) else
          '(sg'', later) ← extract_loop fuel sg' flush;
          Done (sg'', emitted ++ later)
      end
  end.

(** Every turn of the loop shortens the buffer, so one more than its length is
    enough fuel. *)
Definition extract (sg : SentenceSegmenter) (flush : bool)
    : outcome (SentenceSegmenter * list SentenceSpan) :=
  extract_loop (S (length (sg_buffer sg))) sg flush.

Definition push_spans (sg : SentenceSegmenter) (delta : str)
    : outcome (SentenceSegmenter * list SentenceSpan) :=
  extract {| sg_config := sg_config sg; sg_buffer := sg_buffer sg ++ delta;
             sg_buffer_source_start := sg_buffer_source_start sg;
             sg_next_sentence_id := sg_next_sentence_id sg |} false.

Definition push (sg : SentenceSegmenter) (delta : str) : outcome (SentenceSegmenter * list str) :=
  '(sg', spans) ← push_spans sg delta; Done (sg', List.map span_text spans).

Definition finish_spans (sg : SentenceSegmenter)
    : outcome (SentenceSegmenter * list SentenceSpan) := extract sg true.

Definition finish (sg : SentenceSegmenter) : outcome (SentenceSegmenter * list str) :=
  '(sg', spans) ← finish_spans sg; Done (sg', List.map span_text spans).

Definition pending_text (sg : SentenceSegmenter) : str := sg_buffer sg.

(** A whole stream: the deltas in order, then [finish]. *)
Fixpoint push_all (sg : SentenceSegmenter) (deltas : list str)
    : outcome (SentenceSegmenter * list SentenceSpan) :=
  match deltas with
  | [] => Done (sg, [])
  | delta :: deltas =>
      '(sg', spans) ← push_spans sg delta;
      '(sg'', later) ← push_all sg' deltas;
      Done (sg'', spans ++ later)
  end.

Definition segment_stream (sg : SentenceSegmenter) (deltas : list str)
    : outcome (SentenceSegmenter * list SentenceSpan) :=
  '(sg', spans) ← push_all sg deltas;
  '(sg'', later) ← finish_spans sg';
  Done (sg'', spans ++ later).
