(* ===== verification/SentenceSpec.v ===== *)
(** * The sentence segmenter: boundaries, exactness and panics *)

From S2P Require Import Prelude Text Sentence.

#[local] Open Scope Z_scope.

(** ** Cuts: boundaries that lie on a character and make progress *)

Definition cut (buffer : str) (b : Z) : Prop :=
  ∃ p s, buffer = p ++ s ∧ p ≠ [] ∧ b = str_len p.

(** A cut whose remainder does not start with white space. *)
Definition clean_cut (buffer : str) (b : Z) : Prop :=
  ∃ p s, buffer = p ++ s ∧ p ≠ [] ∧ b = str_len p ∧
    is_some_and (head s) is_whitespace = false.

Lemma clean_cut_cut buffer b : clean_cut buffer b → cut buffer b.
Proof. intros (p & s & ? & ? & ? & _). by exists p, s. Qed.

Lemma cut_here pre c suf : cut (pre ++ c :: suf) (str_len pre + len_utf8 c).
Proof.
  exists (pre ++ [c]), suf. split; [by rewrite <-app_assoc|].
  split; [by destruct pre|]. rewrite str_len_app. simpl. lia.
Qed.

Lemma skip_whitespace_spec rest e :
  ∃ w s, rest = w ++ s ∧ is_some_and (head s) is_whitespace = false ∧
    skip_whitespace rest e = e + str_len w.
Proof.
  revert e. induction rest as [|c rest IH]; intros e; simpl.
  - exists [], []. simpl. split_and!; [done..|lia].
  - destruct (is_whitespace c) eqn:Hc.
    + destruct (IH (e + len_utf8 c)) as (w & s & -> & ? & ->).
      exists (c :: w), s. simpl. split_and!; [done..|lia].
    + exists [], (c :: rest). simpl. split_and!; [done..|lia].
Qed.

Lemma consume_whitespace_spec buffer e :
  cut buffer e → ∃ e', consume_whitespace buffer e = Some e' ∧ clean_cut buffer e'.
Proof.
  intros (p & s & -> & Hp & ->). unfold consume_whitespace.
  rewrite slice_from_app. simpl.
  destruct (skip_whitespace_spec s (str_len p)) as (w & s' & -> & Hs & ->).
  eexists; split; [done|]. exists (p ++ w), s'.
  rewrite str_len_app, app_assoc. split_and!; [done| |done..].
  by destruct p.
Qed.

Lemma terminal_loop_spec buffer p rest :
  buffer = p ++ rest → p ≠ [] →
  ∃ r, terminal_loop buffer rest (str_len p) = Some r ∧
    ∀ b, r = Some b → clean_cut buffer b.
Proof.
  revert p. induction rest as [|c rest IH]; intros p Hb Hp; simpl; [by eexists|].
  destruct (is_one_of closing_marks c).
  - replace (str_len p + len_utf8 c) with (str_len (p ++ [c]))
      by (rewrite str_len_app; simpl; lia).
    apply IH; [by rewrite <-app_assoc|by destruct p].
  - destruct (is_whitespace c); [|by eexists].
    destruct (consume_whitespace_spec buffer (str_len p)) as (e & -> & He);
      [by exists p, (c :: rest)|].
    exists (Some e). split; [done|]. by intros b [= <-].
Qed.

Lemma terminal_boundary_spec buffer e :
  cut buffer e →
  ∃ r, terminal_boundary buffer e = Some r ∧ ∀ b, r = Some b → clean_cut buffer b.
Proof.
  intros (p & s & -> & Hp & ->). unfold terminal_boundary. rewrite slice_from_app. simpl.
  by apply terminal_loop_spec.
Qed.

Lemma char_indices_elem at_ s byte ch :
  (byte, ch) ∈ char_indices_from at_ s →
  ∃ p q, s = p ++ ch :: q ∧ byte = at_ + str_len p.
Proof.
  revert at_. induction s as [|c s IH]; intros at_; simpl; [by intros ?%not_elem_of_nil|].
  intros [[= -> ->]|(p & q & -> & ->)%IH]%elem_of_cons.
  - exists [], s. simpl. split; [done|lia].
  - exists (c :: p), q. simpl. split; [done|lia].
Qed.

Lemma best_word_boundary_spec buffer e :
  cut buffer e → ∃ e', best_word_boundary buffer e = Some e' ∧ cut buffer e'.
Proof.
  intros (p & s & -> & Hp & ->). unfold best_word_boundary. rewrite slice_to_app. simpl.
  destruct (List.find _ _) as [[byte ch]|] eqn:Hfind; eexists; (split; [done|]);
    [|by exists p, s].
  apply List.find_some in Hfind as [Hin%in_rev%list_elem_of_In _].
  apply char_indices_elem in Hin as (q & r & -> & ->).
  rewrite <-app_assoc. simpl. apply cut_here.
Qed.

Lemma is_decimal_total pre suf previous :
  ∃ b, is_decimal (pre ++ period :: suf) (str_len pre) previous = Some b.
Proof.
  unfold is_decimal. destruct (is_some_and _ _); [|by eexists].
  replace (str_len pre + 1) with (str_len (pre ++ [period]))
    by (rewrite str_len_app; simpl; vm_compute (len_utf8 period); lia).
  replace (pre ++ period :: suf) with ((pre ++ [period]) ++ suf)
    by by rewrite <-app_assoc.
  rewrite slice_from_app. simpl. by eexists.
Qed.

Lemma ends_with_split c s : ends_with c s = true → ∃ t, s = t ++ [c].
Proof.
  unfold ends_with. destruct (last s) as [d|] eqn:Hl; [|done].
  intros ->%Z.eqb_eq. apply last_Some in Hl as [t ->]. by exists t.
Qed.

Lemma is_abbreviation_total config buffer e :
  cut buffer e → ∃ b, is_abbreviation config buffer e = Some b.
Proof.
  intros (p & s & -> & Hp & ->). unfold is_abbreviation. rewrite slice_to_app. simpl.
  case_bool_decide; [by eexists|]. set (token := fmap _ _).
  destruct (_ && _) eqn:Hand; [|by eexists].
  apply andb_prop in Hand as [_ [t Ht]%ends_with_split].
  replace (str_len token - 1) with (str_len t)
    by (rewrite Ht, str_len_app; simpl; vm_compute (len_utf8 period); lia).
  rewrite Ht, slice_to_app. simpl. by eexists.
Qed.

(** ** The boundary search never panics *)

Section find_boundary.
Context (config : SentenceSegmenterConfig) (buffer : str).

Definition boundary_ok (r : option Z) : Prop :=
  ∀ b, r = Some b → cut buffer b ∧
    (Z.of_nat (length buffer) < hard_limit_chars config → clean_cut buffer b).

Lemma boundary_ok_clean r : (∀ b, r = Some b → clean_cut buffer b) → boundary_ok r.
Proof. intros H b Hb. split; [apply clean_cut_cut|intros _]; by apply H. Qed.

Lemma strong_step ch e count :
  cut buffer e →
  ∃ r, (if is_one_of strong_marks ch && (min_sentence_chars config <=? count)
        then if ch =? newline then Some <$> consume_whitespace buffer e
             else terminal_boundary buffer e
        else Some None) = Some r ∧ boundary_ok r.
Proof.
  intros Hcut. destruct (_ && _); [|by exists None].
  destruct (ch =? newline).
  - destruct (consume_whitespace_spec buffer e Hcut) as (e' & -> & He').
    exists (Some e'). split; [done|]. apply boundary_ok_clean. by intros b [= <-].
  - destruct (terminal_boundary_spec buffer e Hcut) as (r & -> & Hr).
    exists r. split; [done|]. by apply boundary_ok_clean.
Qed.

Lemma full_stop_step pre ch suf count previous :
  buffer = pre ++ ch :: suf →
  ∃ r, (if (ch =? period) && (min_sentence_chars config <=? count) then
          decimal ← is_decimal buffer (str_len pre) previous;
          if decimal : bool then Some None else
          abbreviation ← is_abbreviation config buffer (str_len pre + len_utf8 ch);
          if abbreviation : bool then Some None else
          terminal_boundary buffer (str_len pre + len_utf8 ch)
        else Some None) = Some r ∧ boundary_ok r.
Proof.
  intros Hb. destruct (ch =? period) eqn:Hch; [|by exists None].
  destruct (_ <=? _); [|by exists None]. simpl. apply Z.eqb_eq in Hch as ->.
  assert (Hcut : cut buffer (str_len pre + len_utf8 period)) by (rewrite Hb; apply cut_here).
  assert (Hdec : ∃ b, is_decimal buffer (str_len pre) previous = Some b)
    by (rewrite Hb; apply is_decimal_total).
  destruct Hdec as [[] ->]; simpl; [by exists None|].
  destruct (is_abbreviation_total config buffer _ Hcut) as [[] ->]; simpl; [by exists None|].
  destruct (terminal_boundary_spec buffer _ Hcut) as (r & -> & Hr).
  exists r. split; [done|]. by apply boundary_ok_clean.
Qed.

Lemma find_boundary_loop_spec suf pre last_soft previous :
  buffer = pre ++ suf →
  (∀ b, last_soft = Some b → cut buffer b) →
  ∃ r, find_boundary_loop config buffer (char_indices_from (str_len pre) suf)
         last_soft previous = Some r ∧ boundary_ok r.
Proof.
  revert pre last_soft previous.
  induction suf as [|ch suf IH]; intros pre last_soft previous Hb Hsoft;
    cbn [char_indices_from find_boundary_loop]; [by exists None|].
  pose proof (cut_here pre ch suf) as Hcut. rewrite <-Hb in Hcut.
  assert (Hpre : buffer = (pre ++ [ch]) ++ suf) by (by rewrite <-app_assoc).
  assert (Hlen : str_len pre + len_utf8 ch = str_len (pre ++ [ch]))
    by (rewrite str_len_app; simpl; lia).
  assert (Hslice : slice_to (str_len pre + len_utf8 ch) buffer = Some (pre ++ [ch]))
    by (rewrite Hlen, Hpre; apply slice_to_app).
  rewrite Hslice. cbn [mbind option_bind].
  set (soft' := if is_one_of soft_marks ch then _ else last_soft).
  assert (Hsoft' : ∀ b, soft' = Some b → cut buffer b).
  { unfold soft'. destruct (is_one_of _ _); [by intros b [= <-]|done]. }
  destruct (strong_step ch _ (Z.of_nat (length (pre ++ [ch]))) Hcut) as (r1 & -> & Hr1).
  cbn [mbind option_bind]. destruct r1 as [b1|]; [by exists (Some b1)|]. cbn [is_some].
  destruct (full_stop_step pre ch suf (Z.of_nat (length (pre ++ [ch]))) previous Hb)
    as (r2 & -> & Hr2).
  cbn [mbind option_bind]. destruct r2 as [b2|]; [by exists (Some b2)|]. cbn [is_some].
  destruct (if _ <=? _ then soft' else None) as [soft|] eqn:Hs.
  - destruct (_ <=? _); [|done].
    destruct (consume_whitespace_spec buffer soft) as (e & -> & He); [by apply Hsoft'|].
    exists (Some e). split; [done|]. apply boundary_ok_clean. by intros b [= <-].
  - destruct (Z.leb_spec (hard_limit_chars config) (Z.of_nat (length (pre ++ [ch])))).
    + destruct (best_word_boundary_spec buffer _ Hcut) as (e & -> & He).
      exists (Some e). split; [done|]. intros b [= <-]. split; [done|].
      intros Hshort. rewrite Hpre, length_app in Hshort. lia.
    + rewrite Hlen. by apply IH.
Qed.
End find_boundary.

Lemma find_boundary_spec sg flush :
  ∃ r, find_boundary sg flush = Some r ∧ boundary_ok (sg_config sg) (sg_buffer sg) r ∧
    (flush = true → r = None → forallb is_whitespace (sg_buffer sg) = true) ∧
    (flush = true → ∀ b, r = Some b →
       b = str_len (sg_buffer sg) ∧ forallb is_whitespace (sg_buffer sg) = false).
Proof.
  unfold find_boundary. destruct flush.
  - eexists; split; [done|].
    destruct (is_blank (sg_buffer sg)) eqn:Hblank; simpl.
    + apply is_blank_spec in Hblank. split_and!; [done..|by intros _ b].
    + assert (Hnb : forallb is_whitespace (sg_buffer sg) = false).
      { apply not_true_iff_false. intros H%is_blank_spec. congruence. }
      split_and!; [|done|by intros _ b [= <-]].
      apply boundary_ok_clean. intros b [= <-]. exists (sg_buffer sg), [].
      rewrite app_nil_r. split_and!; [done| |done..]. intros He. by rewrite He in Hnb.
  - destruct (find_boundary_loop_spec (sg_config sg) (sg_buffer sg) (sg_buffer sg) []
      None None) as (r & Hr & Hok); [done..|].
    exists r. split_and!; done.
Qed.

(** ** One extraction step *)

Lemma trim_start_by_head p s c s' : trim_start_by p s = c :: s' → p c = false.
Proof.
  induction s as [|d s IH]; simpl; [done|]. destruct (p d) eqn:Hd; [done|]. by intros [= <- _].
Qed.

(** A piece that is not all white space: its white space on both sides, and
    what the source computes from it. *)
Lemma trim_piece p :
  forallb is_whitespace p = false →
  ∃ w t w', p = w ++ t ++ w' ∧ t ≠ [] ∧
    forallb is_whitespace w = true ∧ forallb is_whitespace w' = true ∧
    trim_start p = t ++ w' ∧ trim_end p = w ++ t.
Proof.
  intros Hp.
  destruct (trim_start_by_app is_whitespace p) as (w & Hs & Hw).
  destruct (trim_end_by_app is_whitespace p) as (w' & He & Hw').
  fold trim_start in Hs. fold trim_end in He.
  assert (Hts : forallb is_whitespace (trim_start p) = false).
  { apply not_true_iff_false. intros H. by rewrite Hs, forallb_app, Hw, H in Hp. }
  pose proof Hs as Heq. rewrite He in Heq at 1.
  apply app_eq_inv in Heq as [(k & Hk1 & Hk2)|(k & Hk1 & Hk2)].
  - exists w, k, w'. rewrite Hk1 in He. rewrite <-app_assoc in He.
    split_and!; try done. intros ->. simpl in Hk2. by rewrite Hk2, Hw' in Hts.
  - (* [trim_start p] would be white space *)
    rewrite Hk2, forallb_app in Hw'. apply andb_prop in Hw' as [_ Hw']. congruence.
Qed.

Definition ink (s : str) : str := List.filter (λ c, negb (is_whitespace c)) s.

Lemma ink_app a b : ink (a ++ b) = ink a ++ ink b.
Proof. apply List.filter_app. Qed.

Lemma ink_whitespace s : forallb is_whitespace s = true → ink s = [].
Proof.
  induction s as [|c s IH]; simpl; [done|]. intros [-> Hs]%andb_prop. simpl. auto.
Qed.

Definition spans_ink (spans : list SentenceSpan) : str := concat (ink ∘ span_text <$> spans).

Lemma spans_ink_app a b : spans_ink (a ++ b) = spans_ink a ++ spans_ink b.
Proof. unfold spans_ink. by rewrite fmap_app, concat_app. Qed.

(** The byte ranges of [spans] follow one another inside [lo..hi]. *)
Fixpoint spans_tile (lo : Z) (spans : list SentenceSpan) (hi : Z) : Prop :=
  match spans with
  | [] => lo ≤ hi
  | sp :: spans => lo ≤ text_start_bytes sp ∧ text_start_bytes sp < text_end_bytes sp ∧
                   spans_tile (text_end_bytes sp) spans hi
  end.

Lemma spans_tile_le lo spans hi : spans_tile lo spans hi → lo ≤ hi.
Proof. revert lo. induction spans as [|sp spans IH]; intros lo; simpl; [done|].
  intros (? & ? & ?%IH). lia. Qed.

Lemma spans_tile_app lo a mid b hi :
  spans_tile lo a mid → spans_tile mid b hi → spans_tile lo (a ++ b) hi.
Proof.
  revert lo. induction a as [|sp a IH]; intros lo; simpl.
  - intros Hle Hb. destruct b as [|sp b]; simpl in *; [lia|].
    destruct Hb as (? & ? & ?). split_and!; [lia|done..].
  - intros (? & ? & ?) ?. split_and!; [done..|]. by apply IH.
Qed.

(** [sp] is a range of [stream] with the text that stands there. *)
Definition span_exact (stream : str) (sp : SentenceSpan) : Prop :=
  ∃ a c, stream = a ++ span_text sp ++ c ∧ text_start_bytes sp = str_len a ∧
    text_end_bytes sp = str_len a + str_len (span_text sp).

Lemma span_exact_extend stream tail sp : span_exact stream sp → span_exact (stream ++ tail) sp.
Proof.
  intros (a & c & -> & ? & ?). exists a, (c ++ tail). by rewrite <-!app_assoc.
Qed.

Lemma span_exact_slice stream sp :
  span_exact stream sp →
  slice (text_start_bytes sp) (text_end_bytes sp) stream = Some (span_text sp).
Proof. intros (a & c & -> & -> & ->). apply slice_app. Qed.

(** What one call of the extraction loop does to a segmenter whose buffer
    starts at the byte offset of [consumed]: it moves [piece] out of the
    buffer. *)
Record extraction (consumed : str) (sg sg' : SentenceSegmenter) (spans : list SentenceSpan)
    (piece : str) : Prop := {
  ex_config : sg_config sg' = sg_config sg;
  ex_buffer : sg_buffer sg = piece ++ sg_buffer sg';
  ex_start : sg_buffer_source_start sg' = str_len (consumed ++ piece);
  ex_ink : ink piece = spans_ink spans;
  ex_tile : spans_tile (str_len consumed) spans (str_len (consumed ++ piece));
  ex_exact : Forall (span_exact (consumed ++ piece)) spans
}.

Lemma extraction_refl consumed sg :
  sg_buffer_source_start sg = str_len consumed → extraction consumed sg sg [] [].
Proof. intros H. by split; rewrite ?app_nil_r; simpl. Qed.

Lemma extraction_trans consumed sg sg' sg'' spans spans' piece piece' :
  extraction consumed sg sg' spans piece →
  extraction (consumed ++ piece) sg' sg'' spans' piece' →
  extraction consumed sg sg'' (spans ++ spans') (piece ++ piece').
Proof.
  intros [H1 H2 H3 H4 H5 H6] [G1 G2 G3 G4 G5 G6]. rewrite <-app_assoc in *. split.
  - congruence.
  - by rewrite H2, G2, app_assoc.
  - done.
  - by rewrite ink_app, spans_ink_app, H4, G4.
  - by eapply spans_tile_app.
  - apply Forall_app. split; [|done]. rewrite app_assoc.
    apply (Forall_impl _ _ _ H6). intros sp. apply span_exact_extend.
Qed.

(** The slice of a step is in range as soon as the piece is not blank. *)
Lemma extract_one_total sg p s :
  sg_buffer sg = p ++ s → forallb is_whitespace p = false →
  ∃ sg' spans stop, extract_one sg (str_len p) = Some (sg', spans, stop) ∧
    (stop = false → sg_buffer sg' = s ∧ sg_config sg' = sg_config sg).
Proof.
  intros Hb Hp. destruct (trim_piece p Hp) as (w & t & w' & -> & Ht & _ & _ & Hts & Hte).
  unfold extract_one. rewrite Hb, split_at_byte_app. cbn [mbind option_bind].
  rewrite Hts, Hte, !str_len_app.
  replace (str_len w + (str_len t + str_len w') - (str_len t + str_len w')) with (str_len w) by lia.
  rewrite slice_app. cbn [mbind option_bind].
  destruct (is_blank s); do 3 eexists; (split; [done|]); done.
Qed.

Lemma extract_one_spec sg p s consumed :
  sg_buffer sg = p ++ s →
  sg_buffer_source_start sg = str_len consumed →
  forallb is_whitespace p = false →
  ∃ sg' spans stop piece,
    extract_one sg (str_len p) = Some (sg', spans, stop) ∧
    extraction consumed sg sg' spans piece ∧
    (stop = true → sg_buffer sg' = []) ∧ (stop = false → sg_buffer sg' = s) ∧
    (forallb is_whitespace s = true → stop = true).
Proof.
  intros Hb Hstart Hp. destruct (trim_piece p Hp) as (w & t & w' & -> & Ht & Hw & Hw' & Hts & Hte).
  unfold extract_one. rewrite Hb, split_at_byte_app. cbn [mbind option_bind].
  rewrite Hts, Hte. rewrite !str_len_app.
  replace (str_len w + (str_len t + str_len w') - (str_len t + str_len w')) with (str_len w) by lia.
  rewrite slice_app. cbn [mbind option_bind].
  destruct t as [|c t]; [done|]. cbn [str_is_empty].
  set (sp := {| sentence_id := _ |}).
  assert (Hlt : 0 < str_len (c :: t))
    by (simpl; pose proof (len_utf8_pos c); pose proof (str_len_nonneg t); lia).
  pose proof (str_len_nonneg w). pose proof (str_len_nonneg w'). pose proof (str_len_nonneg s).
  assert (Hex : ∀ rest, span_exact (consumed ++ (w ++ (c :: t) ++ w') ++ rest) sp).
  { intros rest. exists (consumed ++ w), (w' ++ rest). subst sp. cbn [span_text text_start_bytes text_end_bytes].
    rewrite <-!app_assoc, str_len_app, Hstart. split_and!; [done..|lia]. }
  assert (Hink : ∀ rest, forallb is_whitespace rest = true →
    ink ((w ++ (c :: t) ++ w') ++ rest) = spans_ink [sp]).
  { intros rest Hrest. rewrite !ink_app, (ink_whitespace w), (ink_whitespace w'),
      (ink_whitespace rest) by done. unfold spans_ink. simpl. by rewrite !app_nil_r. }
  destruct (is_blank s) eqn:Hs.
  - apply is_blank_spec in Hs as Hs'.
    eexists _, [sp], true, ((w ++ (c :: t) ++ w') ++ s). split; [done|].
    split_and!; try done. split; cbn [sg_config sg_buffer sg_buffer_source_start]; try done.
    + by rewrite Hb, app_nil_r.
    + rewrite !str_len_app. lia.
    + by apply Hink.
    + rewrite !str_len_app. subst sp. cbn [spans_tile text_start_bytes text_end_bytes]. lia.
    + by constructor.
  - eexists _, [sp], false, (w ++ (c :: t) ++ w'). split; [done|].
    split_and!; try done; [|intros H'; apply is_blank_spec in H'; congruence].
    split; cbn [sg_config sg_buffer sg_buffer_source_start]; try done.
    + rewrite !str_len_app. lia.
    + rewrite <-(app_nil_r (w ++ _)). by apply Hink.
    + rewrite !str_len_app. subst sp. cbn [spans_tile text_start_bytes text_end_bytes]. lia.
    + constructor; [|done]. rewrite <-(app_nil_r (w ++ _)). apply Hex.
Qed.

(** A piece of white space alone makes the step panic: the trimmed range is
    reversed. *)
Lemma extract_one_blank sg p s :
  sg_buffer sg = p ++ s → p ≠ [] → forallb is_whitespace p = true →
  extract_one sg (str_len p) = None.
Proof.
  intros Hb Hp Hw. unfold extract_one. rewrite Hb, split_at_byte_app. cbn [mbind option_bind].
  unfold trim_start, trim_end, trim_end_by.
  rewrite !trim_start_by_all by (rewrite ?forallb_rev; done). simpl.
  unfold slice. assert (str_len p ≠ 0) by (by rewrite str_len_zero).
  pose proof (str_len_nonneg p). destruct (Z.ltb_spec 0 (str_len p - 0)); [done|lia].
Qed.

(** * What the sentence segmenter promises

    The spans of a stream are exact byte ranges of it, in order, and together
    they hold every character of the stream that is not white space; the loop
    terminates; it can only panic on a piece made of white space alone, and it
    does. *)

#[local] Open Scope Z_scope.

(** ** The extraction loop *)

Lemma extract_loop_done fuel sg flush sg' spans consumed :
  sg_buffer_source_start sg = str_len consumed →
  extract_loop fuel sg flush = Done (sg', spans) →
  ∃ piece, extraction consumed sg sg' spans piece ∧
    (flush = true → ink (sg_buffer sg') = []).
Proof.
  revert sg sg' spans consumed. induction fuel as [|fuel IH]; intros sg sg' spans consumed Hstart;
    [done|]. cbn [extract_loop].
  destruct (find_boundary_spec sg flush) as (r & -> & Hok & Hnone & _).
  cbn [of_panic mbind outcome_bind]. destruct r as [b|].
  - destruct (Hok b eq_refl) as [(p & s & Hb & Hp & ->) _].
    destruct (forallb is_whitespace p) eqn:Hblank; [by rewrite (extract_one_blank _ p s)|].
    destruct (extract_one_spec sg p s consumed Hb Hstart Hblank)
      as (sg1 & spans1 & stop & piece & -> & Hex & Hstop & Hgo & _).
    cbn [of_panic mbind outcome_bind]. destruct stop.
    + intros [= <- <-]. exists piece. split; [done|]. intros _. by rewrite Hstop.
    + destruct (extract_loop fuel sg1 flush) as [[sg2 later]| |] eqn:Hloop; [|done..].
      intros [= <- <-].
      destruct (IH _ _ _ (consumed ++ piece) (ex_start _ _ _ _ _ Hex) Hloop) as (piece' & Hex' & ?).
      exists (piece ++ piece'). split; [by eapply extraction_trans|done].
  - intros [= <- <-]. exists []. split; [by apply extraction_refl|].
    intros Hf. apply ink_whitespace. by apply Hnone.
Qed.

(** The loop shortens the buffer, so it ends; a panic has a piece of white
    space that a boundary cut off. *)
Lemma extract_loop_outcome fuel sg flush :
  (length (sg_buffer sg) < fuel)%nat →
  (∃ r, extract_loop fuel sg flush = Done r) ∨
  (extract_loop fuel sg flush = Panic ∧ flush = false ∧
   ∃ p x s, sg_buffer sg = p ++ x ++ s ∧ x ≠ [] ∧ forallb is_whitespace x = true).
Proof.
  revert sg. induction fuel as [|fuel IH]; intros sg Hlen; [lia|]. cbn [extract_loop].
  destruct (find_boundary_spec sg flush) as (r & -> & Hok & _ & Hflush).
  cbn [of_panic mbind outcome_bind]. destruct r as [b|]; [|by left; eexists].
  destruct (Hok b eq_refl) as [(p & s & Hb & Hp & ->) _].
  destruct (forallb is_whitespace p) eqn:Hblank.
  - rewrite (extract_one_blank _ p s) by done. right. split; [done|].
    split; [|by exists [], p, s]. destruct flush; [|done].
    destruct (Hflush eq_refl _ eq_refl) as [Hlen' Hnb].
    rewrite Hb, str_len_app in Hlen'. assert (s = []) as -> by (apply str_len_zero; lia).
    by rewrite Hb, app_nil_r, Hblank in Hnb.
  - destruct (extract_one_total sg p s Hb Hblank) as (sg1 & spans1 & stop & -> & Hgo).
    cbn [of_panic mbind outcome_bind]. destruct stop; [by left; eexists|].
    destruct (Hgo eq_refl) as [Hs1 _].
    rewrite Hb, length_app in Hlen. assert (0 < length p)%nat by (destruct p; [done|simpl; lia]).
    destruct (IH sg1) as [[[sg2 later] ->]|(-> & -> & p' & x & s' & Hs & Hx & Hwx)].
    + rewrite Hs1. lia.
    + left. by eexists.
    + right. split_and!; [done..|]. exists (p ++ p'), x, s'.
      by rewrite Hb, <-Hs1, Hs, app_assoc.
Qed.

Definition starts_with_ink (s : str) : Prop := is_some_and (head s) is_whitespace = false.

Lemma nonblank_prefix p s :
  p ≠ [] → starts_with_ink (p ++ s) → forallb is_whitespace p = false.
Proof. unfold starts_with_ink. destruct p as [|c p]; [done|]. simpl. by intros _ ->. Qed.

(** Below the hard limit every boundary leaves a remainder that does not start
    with white space, so no piece is blank. *)
Lemma extract_loop_short fuel sg :
  (length (sg_buffer sg) < fuel)%nat →
  Z.of_nat (length (sg_buffer sg)) < hard_limit_chars (sg_config sg) →
  starts_with_ink (sg_buffer sg) →
  ∃ r, extract_loop fuel sg false = Done r.
Proof.
  revert sg. induction fuel as [|fuel IH]; intros sg Hlen Hhard Hink; [lia|].
  cbn [extract_loop]. destruct (find_boundary_spec sg false) as (r & -> & Hok & _).
  cbn [of_panic mbind outcome_bind]. destruct r as [b|]; [|by eexists].
  destruct (Hok b eq_refl) as [_ (p & s & Hb & Hp & -> & Hs)]; [done|].
  assert (Hblank : forallb is_whitespace p = false)
    by (apply (nonblank_prefix p s); [done|by rewrite <-Hb]).
  destruct (extract_one_total sg p s Hb Hblank) as (sg1 & spans1 & stop & -> & Hgo).
  cbn [of_panic mbind outcome_bind]. destruct stop; [by eexists|].
  destruct (Hgo eq_refl) as [Hs1 Hc1].
  rewrite Hb, length_app in *. assert (0 < length p)%nat by (destruct p; [done|simpl; lia]).
  destruct (IH sg1) as [[sg2 later] ->]; [rewrite Hs1; lia|rewrite Hs1, Hc1; lia| |by eexists].
  by rewrite Hs1.
Qed.

(** ** Streams *)

Lemma push_spans_done sg delta sg' spans consumed :
  sg_buffer_source_start sg = str_len consumed →
  push_spans sg delta = Done (sg', spans) →
  ∃ piece, sg_buffer sg ++ delta = piece ++ sg_buffer sg' ∧
    sg_buffer_source_start sg' = str_len (consumed ++ piece) ∧
    ink piece = spans_ink spans ∧
    spans_tile (str_len consumed) spans (str_len (consumed ++ piece)) ∧
    Forall (span_exact (consumed ++ piece)) spans.
Proof.
  intros Hstart. unfold push_spans, extract. intros Hloop.
  apply (extract_loop_done _ _ _ _ _ consumed) in Hloop as (piece & [] & _); [|done].
  exists piece. done.
Qed.

Lemma push_all_done deltas sg sg' spans consumed :
  sg_buffer_source_start sg = str_len consumed →
  push_all sg deltas = Done (sg', spans) →
  ∃ piece, sg_buffer sg ++ concat deltas = piece ++ sg_buffer sg' ∧
    sg_buffer_source_start sg' = str_len (consumed ++ piece) ∧
    ink piece = spans_ink spans ∧
    spans_tile (str_len consumed) spans (str_len (consumed ++ piece)) ∧
    Forall (span_exact (consumed ++ piece)) spans.
Proof.
  revert sg spans consumed. induction deltas as [|delta deltas IH]; intros sg spans consumed Hstart.
  - intros [= <- <-]. exists []. rewrite !app_nil_r. split_and!; try done. simpl. lia.
  - cbn [push_all]. destruct (push_spans sg delta) as [[sg1 spans1]| |] eqn:Hpush; [|done..].
    cbn [mbind outcome_bind].
    destruct (push_all sg1 deltas) as [[sg2 spans2]| |] eqn:Hall; [|done..].
    intros [= <- <-].
    destruct (push_spans_done _ _ _ _ _ Hstart Hpush) as (p1 & H1 & H2 & H3 & H4 & H5).
    destruct (IH _ _ _ H2 Hall) as (p2 & G1 & G2 & G3 & G4 & G5).
    exists (p1 ++ p2). simpl. rewrite (app_assoc consumed). split_and!.
    + by rewrite app_assoc, H1, <-!app_assoc, G1.
    + done.
    + by rewrite ink_app, spans_ink_app, H3, G3.
    + by eapply spans_tile_app.
    + apply Forall_app. split; [|done]. apply (Forall_impl _ _ _ H5).
      intros sp. apply span_exact_extend.
Qed.

Lemma segmenter_new_empty config sg :
  segmenter_new config = Some sg →
  sg_config sg = config ∧ sg_buffer sg = [] ∧ sg_buffer_source_start sg = 0.
Proof. unfold segmenter_new. by case_match; intros [= <-]. Qed.

(** [spans] are exact slices of [text], in order, that hold every visible
    character of it. *)
Definition segments (text : str) (spans : list SentenceSpan) : Prop :=
  Forall (λ sp, slice (text_start_bytes sp) (text_end_bytes sp) text = Some (span_text sp)) spans ∧
  spans_tile 0 spans (str_len text) ∧
  spans_ink spans = ink text.

(** [spans] are exact slices of [text], in order, that need not cover it. *)
Definition spans_within (text : str) (spans : list SentenceSpan) : Prop :=
  Forall (λ sp, slice (text_start_bytes sp) (text_end_bytes sp) text = Some (span_text sp)) spans ∧
  spans_tile 0 spans (str_len text).

Lemma segments_within text spans : segments text spans → spans_within text spans.
Proof. by intros (?&?&_). Qed.

Lemma spans_tile_weaken lo spans mid hi : spans_tile lo spans mid → mid ≤ hi → spans_tile lo spans hi.
Proof.
  revert lo. induction spans as [|sp spans IH]; intros lo; simpl; [lia|].
  intros (?&?&?) ?. split_and!; [done..|]. by apply IH.
Qed.

(** What has been emitted so far lies within the text received so far. *)
Lemma push_all_within config sg sg' deltas spans :
  segmenter_new config = Some sg → push_all sg deltas = Done (sg', spans) →
  spans_within (concat deltas) spans.
Proof.
  intros (_ & Hbuf & Hstart)%segmenter_new_empty Hall.
  destruct (push_all_done _ _ _ _ [] Hstart Hall) as (p1 & H1 & _ & _ & H4 & H5).
  rewrite Hbuf in H1. simpl in *. rewrite H1. split.
  - apply (Forall_impl _ _ _ H5). intros sp Hsp. by apply span_exact_slice, span_exact_extend.
  - eapply spans_tile_weaken; [exact H4|]. rewrite str_len_app.
    pose proof (str_len_nonneg (sg_buffer sg')). lia.
Qed.

Lemma segment_stream_segments config sg sg' deltas spans :
  segmenter_new config = Some sg →
  segment_stream sg deltas = Done (sg', spans) →
  segments (concat deltas) spans.
Proof.
  intros (_ & Hbuf & Hstart)%segmenter_new_empty. unfold segment_stream, finish_spans, extract.
  destruct (push_all sg deltas) as [[sg1 spans1]| |] eqn:Hall; [|done..].
  cbn [mbind outcome_bind].
  destruct (extract_loop _ sg1 true) as [[sg2 spans2]| |] eqn:Hfin; [|done..].
  intros [= <- <-].
  destruct (push_all_done _ _ _ _ [] Hstart Hall) as (p1 & H1 & H2 & H3 & H4 & H5).
  destruct (extract_loop_done _ _ _ _ _ ([] ++ p1) H2 Hfin) as (p2 & [_ G1 G2 G3 G4 G5] & G6).
  rewrite Hbuf in H1. simpl in *. rewrite H1, G1.
  assert (Hexact : Forall (span_exact (p1 ++ p2)) (spans1 ++ spans2)).
  { apply Forall_app. split; [|done]. apply (Forall_impl _ _ _ H5).
    intros sp. apply span_exact_extend. }
  unfold segments. split_and!.
  - rewrite app_assoc. apply (Forall_impl _ _ _ Hexact). intros sp Hsp.
    by apply span_exact_slice, span_exact_extend.
  - rewrite app_assoc, str_len_app. pose proof (str_len_nonneg (sg_buffer sg2)).
    eapply spans_tile_app; [apply H4|]. clear -G4 H. revert G4 H. generalize (str_len p1).
    induction spans2 as [|sp spans2 IH]; simpl; [lia|].
    intros z (? & ? & ?) ?. split_and!; [done..|]. by apply IH.
  - by rewrite !ink_app, spans_ink_app, H3, G3, G6, app_nil_r.
Qed.

(** * Properties *)

(** C4: the spans of a stream are exact and lose nothing.  However the provider
    cuts its text into deltas, when the segmenter returns, every span's byte
    range cut out of the whole stream is the span's text, the ranges follow one
    another without overlap inside the stream, and the texts of the spans hold,
    in order, every character of the stream that is not white space. *)
Theorem segmenter_spans_exact (config : SentenceSegmenterConfig) (sg sg' : SentenceSegmenter)
    (deltas : list str) (spans : list SentenceSpan) :
  segmenter_new config = Some sg →
  segment_stream sg deltas = Done (sg', spans) →
  Forall (λ sp, slice (text_start_bytes sp) (text_end_bytes sp) (concat deltas)
                = Some (span_text sp)) spans ∧
  spans_tile 0 spans (str_len (concat deltas)) ∧
  spans_ink spans = ink (concat deltas).
Proof. apply segment_stream_segments. Qed.

(** extraction terminates and slices only on character boundaries.  From
    any buffer it returns, or it panics; it can only panic while streaming, on
    a piece of the buffer made of white space alone. *)
Theorem extract_terminates (sg : SentenceSegmenter) (flush : bool) :
  (∃ r, extract sg flush = Done r) ∨
  (extract sg flush = Panic ∧ flush = false ∧
   ∃ p x s, sg_buffer sg = p ++ x ++ s ∧ x ≠ [] ∧ forallb is_whitespace x = true).
Proof. apply extract_loop_outcome. lia. Qed.

(** no panic on ordinary text.  A push that leaves fewer characters than
    the hard limit in a buffer that does not start with white space returns. *)
Theorem push_returns_below_hard_limit (sg : SentenceSegmenter) (delta : str) :
  starts_with_ink (sg_buffer sg ++ delta) →
  Z.of_nat (length (sg_buffer sg ++ delta)) < hard_limit_chars (sg_config sg) →
  ∃ r, push_spans sg delta = Done r.
Proof. intros Hink Hhard. by apply extract_loop_short; [lia|..]. Qed.

(** blank pieces panic.  With the default configuration, a stream that
    starts with eighteen line feeds, or with a space and 219 characters without
    white space or punctuation (here a CJK ideograph), makes the first push
    panic. *)
Theorem blank_piece_panics :
  ∃ sg, segmenter_new sentence_config_default = Some sg ∧
    push_spans sg (replicate 18 newline) = Panic ∧
    push_spans sg (32 :: replicate 219 30028) = Panic.
Proof.
  eexists. split; [reflexivity|]. split; vm_compute; reflexivity.
Qed.

(** * Witnesses *)

Definition witness_segmenter : SentenceSegmenter := {|
  sg_config := sentence_config_default; sg_buffer := []; sg_buffer_source_start := 0;
  sg_next_sentence_id := 1 |}.

Definition witness_deltas : list str :=
  [lit "Dr. V paid 3.14 cred"; lit "its. That was surprisingly precise."].

Lemma segmenter_spans_exact_witness :
  ∃ sg' spans,
    segment_stream witness_segmenter witness_deltas = Done (sg', spans) ∧
    length spans = 2%nat ∧ spans_ink spans = ink (concat witness_deltas).
Proof.
  eexists _, _. split; [vm_compute; reflexivity|]. split; [reflexivity|].
  refine (proj2 (proj2 (segmenter_spans_exact sentence_config_default witness_segmenter _
    witness_deltas _ _ _))); [reflexivity|vm_compute; reflexivity].
Defined.

Lemma push_returns_below_hard_limit_witness :
  ∃ r, push_spans witness_segmenter (lit "Hello there") = Done r.
Proof.
  refine (push_returns_below_hard_limit witness_segmenter (lit "Hello there") _ _);
    vm_compute; reflexivity.
Defined.
