(* ===== verification/BrokerTypes.v ===== *)
(** * Resource broker: data ([crates/runtime-core/src/resource_broker.rs])

    Jobs, targets, telemetry, model residency, configuration, diagnostics and
    the broker's own state. *)

From S2P Require Import Prelude Text Float Policy.

#[local] Open Scope Z_scope.

Definition MIB : Z := 1024 * 1024.

Inductive JobPriority := Opportunistic | Background | Interactive | Critical.
#[export] Instance JobPriority_eq_dec : EqDecision JobPriority.
Proof. solve_decision. Defined.

(** The derived order: declaration order. *)
Definition priority_rank (p : JobPriority) : Z :=
  match p with Opportunistic => 0 | Background => 1 | Interactive => 2 | Critical => 3 end.

Inductive ResourceJobKind :=
| InteractiveTurn (utterance : str)
| ForegroundLlm (utterance : str)
| SpeechSynthesis (utterance : str) (sentence : Z)
| Embedding
| ContinuousVision (frame_sequence captured_at_ms : Z)
| ScreenSpaceLipSync (frame_sequence captured_at_ms : Z)
| NativeRigAnimation (utterance : str)
| ModelLoad
| Maintenance.
#[export] Instance ResourceJobKind_eq_dec : EqDecision ResourceJobKind.
Proof. solve_decision. Defined.

Definition holds_foreground_turn_slot (k : ResourceJobKind) : bool :=
  match k with InteractiveTurn _ | ForegroundLlm _ => true | _ => false end.

Definition utterance_id (k : ResourceJobKind) : option str :=
  match k with
  | InteractiveTurn u | ForegroundLlm u | SpeechSynthesis u _ | NativeRigAnimation u => Some u
  | _ => None
  end.

Definition captured_at_ms (k : ResourceJobKind) : option Z :=
  match k with
  | ContinuousVision _ t | ScreenSpaceLipSync _ t => Some t
  | _ => None
  end.

Definition is_visual_burst (k : ResourceJobKind) : bool :=
  match k with ContinuousVision _ _ | ScreenSpaceLipSync _ _ => true | _ => false end.

Record ResourceEstimate := {
  re_ram_bytes : Z;
  re_vram_resident_bytes : Z;
  re_vram_transient_bytes : Z;
  re_transient_duration_ms : Z;
  re_gpu_time_ms : Z
}.
#[export] Instance ResourceEstimate_eq_dec : EqDecision ResourceEstimate.
Proof. solve_decision. Defined.

Definition total_vram (e : ResourceEstimate) : Z :=
  sat_add64 (re_vram_resident_bytes e) (re_vram_transient_bytes e).

Inductive GpuResidency := GpuNone | GpuShared | GpuExclusive.
#[export] Instance GpuResidency_eq_dec : EqDecision GpuResidency.
Proof. solve_decision. Defined.

Record ComputeTarget := {
  ct_target_id : str;
  ct_model_id : option str;
  ct_provider : ProviderDescriptor;
  ct_estimate : ResourceEstimate;
  ct_gpu_residency : GpuResidency
}.
#[export] Instance ComputeTarget_eq_dec : EqDecision ComputeTarget.
Proof. solve_decision. Defined.

Inductive DropPolicy :=
| Never
| DropIfLate
| DropIfStale (maximum_age_ms : Z)
| DropUnderPressure
| Supersede (key : str).
#[export] Instance DropPolicy_eq_dec : EqDecision DropPolicy.
Proof. solve_decision. Defined.

Record BrokerPrivacyContext := {
  bp_execution_mode : ExecutionMode;
  bp_network_policy : NetworkPolicy;
  bp_authorized_cloud_providers : gset str;
  bp_allow_retaining_providers : bool;
  bp_allow_local_to_cloud_fallback : bool
}.
#[export] Instance BrokerPrivacyContext_eq_dec : EqDecision BrokerPrivacyContext.
Proof. solve_decision. Defined.

Definition fully_local : BrokerPrivacyContext := {|
  bp_execution_mode := FullyLocal;
  bp_network_policy := Offline;
  bp_authorized_cloud_providers := ∅;
  bp_allow_retaining_providers := false;
  bp_allow_local_to_cloud_fallback := false
|}.

(** [BrokerPrivacyContext::allows]. *)
Definition allows (p : BrokerPrivacyContext) (provider : ProviderDescriptor) : bool :=
  if pd_may_retain_data provider && negb (bp_allow_retaining_providers p) then false else
  if negb (is_networked (pd_location provider)) then true else
  bool_decide (bp_network_policy p = Online)
  && negb (bool_decide (bp_execution_mode p = FullyLocal))
  && bool_decide (pd_id provider ∈ bp_authorized_cloud_providers p).

Definition allows_fallback (p : BrokerPrivacyContext) (primary fallback : ProviderDescriptor)
    : bool :=
  allows p fallback
  && (negb (is_local (pd_location primary)) || is_local (pd_location fallback)
      || bp_allow_local_to_cloud_fallback p).

Record ResourceJob := {
  rj_job_id : str;
  rj_kind : ResourceJobKind;
  rj_priority : JobPriority;
  rj_deadline_ms : option Z;
  rj_primary : ComputeTarget;
  rj_fallbacks : list ComputeTarget;
  rj_drop_policy : DropPolicy;
  rj_privacy : BrokerPrivacyContext
}.
#[export] Instance ResourceJob_eq_dec : EqDecision ResourceJob.
Proof. solve_decision. Defined.

(** ** Errors *)

Inductive ModelResidencyState := Cold | Warming | Loaded | InFlight | Evicting | Quarantined.
#[export] Instance ModelResidencyState_eq_dec : EqDecision ModelResidencyState.
Proof. solve_decision. Defined.

Inductive BrokerError :=
| InvalidTelemetry (reason : str)
| InvalidJob (reason : str)
| InvalidResidency (reason : str)
| UnknownModel (model_id : str)
| InvalidResidencyTransition (model_id : str) (from to : ModelResidencyState)
| ResidencyCapacityExceeded (model_id : str).
#[export] Instance BrokerError_eq_dec : EqDecision BrokerError.
Proof. solve_decision. Defined.

(** ** Telemetry *)

Record BudgetSnapshot := {
  bs_monotonic_ms : Z;
  bs_system_ram_budget_bytes : Z;
  bs_system_ram_used_bytes : Z;
  bs_additional_game_ram_reserve_bytes : Z;
  bs_gpu_vram_budget_bytes : Z;
  bs_gpu_vram_used_bytes : Z;
  bs_additional_game_vram_reserve_bytes : Z;
  bs_gpu_utilization : f32
}.

(** [BudgetSnapshot::validate]. *)
Definition snapshot_validate (s : BudgetSnapshot) : result BrokerError BudgetSnapshot :=
  if (bs_system_ram_budget_bytes s =? 0) || (bs_gpu_vram_budget_bytes s =? 0)
  then Err (InvalidTelemetry (lit "RAM and VRAM budgets must be non-zero")) else
  if negb (is_finite (bs_gpu_utilization s))
     || negb (range_contains f_zero f32_one (bs_gpu_utilization s))
  then Err (InvalidTelemetry (lit "GPU utilization must be finite and within 0..=1")) else
  Ok s.

Record BrokerAccountedGpuUsage := {
  ag_resident_bytes : Z;
  ag_transient_bytes : Z
}.

Definition accounted_default : BrokerAccountedGpuUsage := {|
  ag_resident_bytes := 0; ag_transient_bytes := 0 |}.

(** The trait [BudgetTelemetry]: what its two methods return during one broker
    call. *)
Class BudgetTelemetry (T : Type) := {
  telemetry_snapshot : T → result BrokerError BudgetSnapshot;
  telemetry_accounted : T → result BrokerError BrokerAccountedGpuUsage
}.

(** [ReportedBudgetTelemetry]: the host-fed implementation. *)
Record ReportedBudgetTelemetry := {
  rt_snapshot : BudgetSnapshot;
  rt_accounted : BrokerAccountedGpuUsage
}.

Definition reported_new (snapshot : BudgetSnapshot)
    : result BrokerError ReportedBudgetTelemetry :=
  snapshot ← snapshot_validate snapshot;
  Ok {| rt_snapshot := snapshot; rt_accounted := accounted_default |}.

Definition reported_update (snapshot : BudgetSnapshot) (t : ReportedBudgetTelemetry)
    : ReportedBudgetTelemetry * result BrokerError unit :=
  match snapshot_validate snapshot with
  | Err e => (t, Err e)
  | Ok snapshot =>
      if bs_monotonic_ms snapshot <? bs_monotonic_ms (rt_snapshot t)
      then (t, Err (InvalidTelemetry (lit "telemetry time moved backwards")))
      else ({| rt_snapshot := snapshot; rt_accounted := rt_accounted t |}, Ok tt)
  end.

Definition update_broker_accounted_gpu_usage (usage : BrokerAccountedGpuUsage)
    (t : ReportedBudgetTelemetry) : ReportedBudgetTelemetry :=
  {| rt_snapshot := rt_snapshot t; rt_accounted := usage |}.

#[export] Instance reported_telemetry : BudgetTelemetry ReportedBudgetTelemetry := {|
  telemetry_snapshot t := Ok (rt_snapshot t);
  telemetry_accounted t := Ok (rt_accounted t)
|}.

(** ** Model residency *)

Record MeasuredGpuEnvelope := {
  me_resident_bytes : Z;
  me_p99_transient_bytes : Z;
  me_sample_count : Z
}.
#[export] Instance MeasuredGpuEnvelope_eq_dec : EqDecision MeasuredGpuEnvelope.
Proof. solve_decision. Defined.

(** [MeasuredGpuEnvelope::validate]. *)
Definition envelope_validate (e : MeasuredGpuEnvelope) : result BrokerError MeasuredGpuEnvelope :=
  if me_resident_bytes e =? 0
  then Err (InvalidResidency (lit "measured resident_bytes must be non-zero")) else
  if me_sample_count e =? 0
  then Err (InvalidResidency
    (lit "measured GPU envelope must contain at least one sample")) else
  Ok e.

Record ModelResidencySpec := {
  ms_model_id : str;
  ms_target_id : str;
  ms_provider : ProviderDescriptor;
  ms_gpu_residency : GpuResidency;
  ms_envelope : MeasuredGpuEnvelope
}.

Record ModelResidencyStatus := {
  mst_model_id : str;
  mst_target_id : str;
  mst_state : ModelResidencyState;
  mst_envelope : MeasuredGpuEnvelope;
  mst_active_jobs : Z;
  mst_quarantine_until_ms : option Z
}.

Record ResidencyLedgerSnapshot := {
  rl_models : list ModelResidencyStatus;
  rl_reserved_resident_bytes : Z;
  rl_reserved_p99_transient_bytes : Z;
  rl_telemetry_accounted : BrokerAccountedGpuUsage;
  rl_unreported_resident_bytes : Z;
  rl_unreported_transient_bytes : Z
}.

(** ** Configuration *)

Record ResourceBrokerConfig := {
  vram_ceiling_bytes : Z;
  transient_vram_allowance_bytes : Z;
  transient_vram_grace_ms : Z;
  amber_enter_ratio : f64;
  green_reenter_ratio : f64;
  red_enter_ratio : f64;
  amber_reenter_ratio : f64;
  recovery_green_samples : Z;
  default_vision_stale_ms : Z;
  oom_failures_before_quarantine : Z;
  quarantine_ms : Z;
  diagnostic_capacity : Z
}.

(** [ResourceBrokerConfig::default]. *)
Definition broker_config_default : ResourceBrokerConfig := {|
  vram_ceiling_bytes := 10 * 1024 * MIB;
  transient_vram_allowance_bytes := 256 * MIB;
  transient_vram_grace_ms := 2000;
  amber_enter_ratio := f64_lit 75 100;
  green_reenter_ratio := f64_lit 65 100;
  red_enter_ratio := f64_lit 90 100;
  amber_reenter_ratio := f64_lit 82 100;
  recovery_green_samples := 3;
  default_vision_stale_ms := 100;
  oom_failures_before_quarantine := 2;
  quarantine_ms := 60000;
  diagnostic_capacity := 2048
|}.

(** The assertions of [ResourceBrokerConfig::validate]: [false] is the panic. *)
Definition broker_config_validate (c : ResourceBrokerConfig) : bool :=
  (0 <? vram_ceiling_bytes c)
  && (0 <? transient_vram_grace_ms c)
  && f_lt (green_reenter_ratio c) (amber_enter_ratio c)
  && f_lt (amber_enter_ratio c) (amber_reenter_ratio c)
  && f_lt (amber_reenter_ratio c) (red_enter_ratio c)
  && f_le (red_enter_ratio c) (f64_of_u64 1)
  && (0 <? recovery_green_samples c)
  && (0 <? oom_failures_before_quarantine c)
  && (0 <? diagnostic_capacity c).

(** ** Pressure, degradation and diagnostics *)

Inductive PressureLevel := Green | Amber | Red.
#[export] Instance PressureLevel_eq_dec : EqDecision PressureLevel.
Proof. solve_decision. Defined.

Inductive BrokerDegradation :=
| ReduceContinuousVision
| DisableScreenSpaceLipSync
| NeutralizeOptionalEffects
| DisableVectorRetrieval
| AudioAndSubtitlesOnly
| TypedInputOrSubtitles
| RetryableLlmFailure.
#[export] Instance BrokerDegradation_eq_dec : EqDecision BrokerDegradation.
Proof. solve_decision. Defined.

Definition DEGRADATION_ORDER : list BrokerDegradation :=
  [ReduceContinuousVision; DisableScreenSpaceLipSync; NeutralizeOptionalEffects;
   DisableVectorRetrieval; AudioAndSubtitlesOnly; TypedInputOrSubtitles;
   RetryableLlmFailure].

Inductive AdmissionOutcome :=
| AdmittedPrimary
| AdmittedFallback
| Queued
| DroppedStale
| DroppedLate
| DroppedPressure
| RejectedPrivacy
| RejectedQuarantined
| RejectedNoCapacity
| RejectedDuplicate
| RejectedUtteranceBinding
| AdmissionCancelled.
#[export] Instance AdmissionOutcome_eq_dec : EqDecision AdmissionOutcome.
Proof. solve_decision. Defined.

Record ResourceProjection := {
  pr_ram_bytes : Z;
  pr_vram_bytes : Z;
  pr_vram_ceiling_bytes : Z;
  pr_transient_overshoot_bytes : Z
}.

Record AdmissionDiagnostic := {
  ad_monotonic_ms : Z;
  ad_job_id : str;
  ad_kind : ResourceJobKind;
  ad_priority : JobPriority;
  ad_outcome : AdmissionOutcome;
  ad_selected_target_id : option str;
  ad_pressure : PressureLevel;
  ad_active_degradations : list BrokerDegradation;
  ad_projection : ResourceProjection;
  ad_reason : str
}.

Inductive CompletionStatus :=
| StatusCompleted | StatusFailed | StatusCancelled | StatusOutOfMemory | StatusDeadlineMissed.
#[export] Instance CompletionStatus_eq_dec : EqDecision CompletionStatus.
Proof. solve_decision. Defined.

Record ActualUsage := {
  au_peak_ram_bytes : Z;
  au_peak_vram_bytes : Z;
  au_gpu_time_ms : Z
}.

Definition actual_usage_default : ActualUsage := {|
  au_peak_ram_bytes := 0; au_peak_vram_bytes := 0; au_gpu_time_ms := 0 |}.

Record ActualDiagnostic := {
  acd_monotonic_ms : Z;
  acd_job_id : str;
  acd_target_id : str;
  acd_estimated : ResourceEstimate;
  acd_actual : ActualUsage;
  acd_actual_usage_measured : bool;
  acd_status : CompletionStatus;
  acd_deadline_missed : bool;
  acd_cancelled_by_broker : bool
}.

Inductive BrokerDiagnostic :=
| PressureChanged (monotonic_ms : Z) (from to : PressureLevel) (utilization_ratio : f64)
| DegradationChanged (monotonic_ms : Z) (active : list BrokerDegradation) (reason : str)
| Admission (diagnostic : AdmissionDiagnostic)
| Actual (diagnostic : ActualDiagnostic)
| TargetQuarantined (monotonic_ms : Z) (target_id : str) (until_ms oom_failures : Z)
| CancellationRequested (monotonic_ms : Z) (job_id reason : str).

Inductive RecoveryDirective :=
| RetrySameTargetAfterEviction (target_id : str)
| RetryFallback (target_id : str)
| AbortUtteranceNoModelSwap
| QuarantinedNoSafeFallback
| JobNotActive.
#[export] Instance RecoveryDirective_eq_dec : EqDecision RecoveryDirective.
Proof. solve_decision. Defined.

(** ** Broker state *)

Record Reservations := {
  rs_ram_bytes : Z;
  rs_vram_resident_bytes : Z;
  rs_vram_transient_bytes : Z;
  rs_gpu_leases : Z;
  rs_exclusive_gpu_job : option str;
  rs_foreground_turn_job : option str
}.

Definition reservations_default : Reservations := {|
  rs_ram_bytes := 0; rs_vram_resident_bytes := 0; rs_vram_transient_bytes := 0;
  rs_gpu_leases := 0; rs_exclusive_gpu_job := None; rs_foreground_turn_job := None |}.

Record TargetHealth := {
  th_oom_failures : Z;
  th_quarantine_until_ms : Z
}.

Definition target_health_default : TargetHealth := {|
  th_oom_failures := 0; th_quarantine_until_ms := 0 |}.

Record ModelResidencyRecord := {
  mr_spec : ModelResidencySpec;
  mr_state : ModelResidencyState;
  mr_active_jobs : Z;
  mr_quarantine_until_ms : option Z
}.

(** [ModelResidencyRecord::status]. *)
Definition record_status (r : ModelResidencyRecord) : ModelResidencyStatus := {|
  mst_model_id := ms_model_id (mr_spec r);
  mst_target_id := ms_target_id (mr_spec r);
  mst_state := mr_state r;
  mst_envelope := ms_envelope (mr_spec r);
  mst_active_jobs := mr_active_jobs r;
  mst_quarantine_until_ms := mr_quarantine_until_ms r
|}.

Definition holds_resident_memory (r : ModelResidencyRecord) : bool :=
  match mr_state r with
  | Warming | Loaded | InFlight | Evicting => true
  | _ => false
  end
  || (bool_decide (mr_state r = Quarantined) && (0 <? mr_active_jobs r)).

Record QueuedRecord := {
  qr_sequence : Z;
  qr_job : ResourceJob
}.

Section state.
Context `{CancelApi}.

Record ActiveRecord := {
  ar_job : ResourceJob;
  ar_target : ComputeTarget;
  ar_cancellation : ctoken;
  ar_output_started : bool;
  ar_cancelled_by_broker : bool;
  ar_transient_deadline_ms : option Z
}.

(** The mutex-protected state, with the cells behind the cancellation tokens
    it hands out. *)
Record BrokerState := {
  st_pressure : PressureLevel;
  st_green_samples : Z;
  st_degradation_count : Z;
  st_sequence : Z;
  st_reservations : Reservations;
  st_active : gmap str ActiveRecord;
  st_queued : list QueuedRecord;
  st_target_health : gmap str TargetHealth;
  st_residency : gmap str ModelResidencyRecord;
  st_utterance_bindings : gmap str str;
  st_diagnostics : list BrokerDiagnostic;
  st_telemetry_accounted : BrokerAccountedGpuUsage;
  st_cells : cstore
}.

(** [BrokerState::default]. *)
Definition broker_state_default : BrokerState := {|
  st_pressure := Green;
  st_green_samples := 0;
  st_degradation_count := 0;
  st_sequence := 0;
  st_reservations := reservations_default;
  st_active := ∅;
  st_queued := [];
  st_target_health := ∅;
  st_residency := ∅;
  st_utterance_bindings := ∅;
  st_diagnostics := [];
  st_telemetry_accounted := accounted_default;
  st_cells := ct_empty
|}.

(** A lease: the owner's handle on one active record. *)
Record ResourceLease := {
  le_job_id : str;
  le_target_id : str;
  le_cancellation : ctoken;
  le_completed : bool
}.

Record Submission := {
  su_diagnostic : AdmissionDiagnostic;
  su_lease : option ResourceLease
}.
End state.
