(* ===== verification/BrokerCore.v ===== *)
(** * Resource broker: accounting helpers ([crates/runtime-core/src/resource_broker.rs])

    The free functions of the broker: job validation, the queue order, what a
    target costs, what is already reserved, and the two ledger operations
    [reserve] and [release]. *)

From S2P Require Import Prelude Text Float Policy BrokerTypes.

#[local] Open Scope Z_scope.

(** ** Field updates *)

Section setters.
Context `{CancelApi}.

Definition set_pressure (v : PressureLevel) (s : BrokerState) : BrokerState :=
  {| st_pressure := v;
     st_green_samples := st_green_samples s;
     st_degradation_count := st_degradation_count s;
     st_sequence := st_sequence s;
     st_reservations := st_reservations s;
     st_active := st_active s;
     st_queued := st_queued s;
     st_target_health := st_target_health s;
     st_residency := st_residency s;
     st_utterance_bindings := st_utterance_bindings s;
     st_diagnostics := st_diagnostics s;
     st_telemetry_accounted := st_telemetry_accounted s;
     st_cells := st_cells s |}.
Definition set_green_samples (v : Z) (s : BrokerState) : BrokerState :=
  {| st_pressure := st_pressure s;
     st_green_samples := v;
     st_degradation_count := st_degradation_count s;
     st_sequence := st_sequence s;
     st_reservations := st_reservations s;
     st_active := st_active s;
     st_queued := st_queued s;
     st_target_health := st_target_health s;
     st_residency := st_residency s;
     st_utterance_bindings := st_utterance_bindings s;
     st_diagnostics := st_diagnostics s;
     st_telemetry_accounted := st_telemetry_accounted s;
     st_cells := st_cells s |}.
Definition set_degradation_count (v : Z) (s : BrokerState) : BrokerState :=
  {| st_pressure := st_pressure s;
     st_green_samples := st_green_samples s;
     st_degradation_count := v;
     st_sequence := st_sequence s;
     st_reservations := st_reservations s;
     st_active := st_active s;
     st_queued := st_queued s;
     st_target_health := st_target_health s;
     st_residency := st_residency s;
     st_utterance_bindings := st_utterance_bindings s;
     st_diagnostics := st_diagnostics s;
     st_telemetry_accounted := st_telemetry_accounted s;
     st_cells := st_cells s |}.
Definition set_sequence (v : Z) (s : BrokerState) : BrokerState :=
  {| st_pressure := st_pressure s;
     st_green_samples := st_green_samples s;
     st_degradation_count := st_degradation_count s;
     st_sequence := v;
     st_reservations := st_reservations s;
     st_active := st_active s;
     st_queued := st_queued s;
     st_target_health := st_target_health s;
     st_residency := st_residency s;
     st_utterance_bindings := st_utterance_bindings s;
     st_diagnostics := st_diagnostics s;
     st_telemetry_accounted := st_telemetry_accounted s;
     st_cells := st_cells s |}.
Definition set_reservations (v : Reservations) (s : BrokerState) : BrokerState :=
  {| st_pressure := st_pressure s;
     st_green_samples := st_green_samples s;
     st_degradation_count := st_degradation_count s;
     st_sequence := st_sequence s;
     st_reservations := v;
     st_active := st_active s;
     st_queued := st_queued s;
     st_target_health := st_target_health s;
     st_residency := st_residency s;
     st_utterance_bindings := st_utterance_bindings s;
     st_diagnostics := st_diagnostics s;
     st_telemetry_accounted := st_telemetry_accounted s;
     st_cells := st_cells s |}.
Definition set_active (v : gmap str ActiveRecord) (s : BrokerState) : BrokerState :=
  {| st_pressure := st_pressure s;
     st_green_samples := st_green_samples s;
     st_degradation_count := st_degradation_count s;
     st_sequence := st_sequence s;
     st_reservations := st_reservations s;
     st_active := v;
     st_queued := st_queued s;
     st_target_health := st_target_health s;
     st_residency := st_residency s;
     st_utterance_bindings := st_utterance_bindings s;
     st_diagnostics := st_diagnostics s;
     st_telemetry_accounted := st_telemetry_accounted s;
     st_cells := st_cells s |}.
Definition set_queued (v : list QueuedRecord) (s : BrokerState) : BrokerState :=
  {| st_pressure := st_pressure s;
     st_green_samples := st_green_samples s;
     st_degradation_count := st_degradation_count s;
     st_sequence := st_sequence s;
     st_reservations := st_reservations s;
     st_active := st_active s;
     st_queued := v;
     st_target_health := st_target_health s;
     st_residency := st_residency s;
     st_utterance_bindings := st_utterance_bindings s;
     st_diagnostics := st_diagnostics s;
     st_telemetry_accounted := st_telemetry_accounted s;
     st_cells := st_cells s |}.
Definition set_target_health (v : gmap str TargetHealth) (s : BrokerState) : BrokerState :=
  {| st_pressure := st_pressure s;
     st_green_samples := st_green_samples s;
     st_degradation_count := st_degradation_count s;
     st_sequence := st_sequence s;
     st_reservations := st_reservations s;
     st_active := st_active s;
     st_queued := st_queued s;
     st_target_health := v;
     st_residency := st_residency s;
     st_utterance_bindings := st_utterance_bindings s;
     st_diagnostics := st_diagnostics s;
     st_telemetry_accounted := st_telemetry_accounted s;
     st_cells := st_cells s |}.
Definition set_residency (v : gmap str ModelResidencyRecord) (s : BrokerState) : BrokerState :=
  {| st_pressure := st_pressure s;
     st_green_samples := st_green_samples s;
     st_degradation_count := st_degradation_count s;
     st_sequence := st_sequence s;
     st_reservations := st_reservations s;
     st_active := st_active s;
     st_queued := st_queued s;
     st_target_health := st_target_health s;
     st_residency := v;
     st_utterance_bindings := st_utterance_bindings s;
     st_diagnostics := st_diagnostics s;
     st_telemetry_accounted := st_telemetry_accounted s;
     st_cells := st_cells s |}.
Definition set_utterance_bindings (v : gmap str str) (s : BrokerState) : BrokerState :=
  {| st_pressure := st_pressure s;
     st_green_samples := st_green_samples s;
     st_degradation_count := st_degradation_count s;
     st_sequence := st_sequence s;
     st_reservations := st_reservations s;
     st_active := st_active s;
     st_queued := st_queued s;
     st_target_health := st_target_health s;
     st_residency := st_residency s;
     st_utterance_bindings := v;
     st_diagnostics := st_diagnostics s;
     st_telemetry_accounted := st_telemetry_accounted s;
     st_cells := st_cells s |}.
Definition set_diagnostics (v : list BrokerDiagnostic) (s : BrokerState) : BrokerState :=
  {| st_pressure := st_pressure s;
     st_green_samples := st_green_samples s;
     st_degradation_count := st_degradation_count s;
     st_sequence := st_sequence s;
     st_reservations := st_reservations s;
     st_active := st_active s;
     st_queued := st_queued s;
     st_target_health := st_target_health s;
     st_residency := st_residency s;
     st_utterance_bindings := st_utterance_bindings s;
     st_diagnostics := v;
     st_telemetry_accounted := st_telemetry_accounted s;
     st_cells := st_cells s |}.
Definition set_telemetry_accounted (v : BrokerAccountedGpuUsage) (s : BrokerState) : BrokerState :=
  {| st_pressure := st_pressure s;
     st_green_samples := st_green_samples s;
     st_degradation_count := st_degradation_count s;
     st_sequence := st_sequence s;
     st_reservations := st_reservations s;
     st_active := st_active s;
     st_queued := st_queued s;
     st_target_health := st_target_health s;
     st_residency := st_residency s;
     st_utterance_bindings := st_utterance_bindings s;
     st_diagnostics := st_diagnostics s;
     st_telemetry_accounted := v;
     st_cells := st_cells s |}.
Definition set_cells (v : cstore) (s : BrokerState) : BrokerState :=
  {| st_pressure := st_pressure s;
     st_green_samples := st_green_samples s;
     st_degradation_count := st_degradation_count s;
     st_sequence := st_sequence s;
     st_reservations := st_reservations s;
     st_active := st_active s;
     st_queued := st_queued s;
     st_target_health := st_target_health s;
     st_residency := st_residency s;
     st_utterance_bindings := st_utterance_bindings s;
     st_diagnostics := st_diagnostics s;
     st_telemetry_accounted := st_telemetry_accounted s;
     st_cells := v |}.
End setters.

Definition set_record_state (v : ModelResidencyState) (r : ModelResidencyRecord)
    : ModelResidencyRecord := {|
  mr_spec := mr_spec r; mr_state := v; mr_active_jobs := mr_active_jobs r;
  mr_quarantine_until_ms := mr_quarantine_until_ms r |}.

Definition set_record_quarantine (v : option Z) (r : ModelResidencyRecord)
    : ModelResidencyRecord := {|
  mr_spec := mr_spec r; mr_state := mr_state r; mr_active_jobs := mr_active_jobs r;
  mr_quarantine_until_ms := v |}.

(** ** Jobs *)

Definition targets_of (job : ResourceJob) : list ComputeTarget :=
  rj_primary job :: rj_fallbacks job.

(** The loop of [HashSet::insert] over the target ids: [true] when some insert
    meets an id already present. *)
Fixpoint any_duplicate (seen : gset str) (ids : list str) : bool :=
  match ids with
  | [] => false
  | i :: ids => bool_decide (i ∈ seen) || any_duplicate ({[i]} ∪ seen) ids
  end.

Definition validate_job (job : ResourceJob) : result BrokerError unit :=
  let primary := rj_primary job in
  if is_blank (rj_job_id job) then Err (InvalidJob (lit "job_id is empty")) else
  if is_blank (ct_target_id primary)
  then Err (InvalidJob (lit "primary target_id is empty")) else
  if negb (bool_decide (pd_modality (ct_provider primary) =
             match head (rj_fallbacks job) with
             | Some target => pd_modality (ct_provider target)
             | None => pd_modality (ct_provider primary)
             end))
     || existsb (λ target, negb (bool_decide
          (pd_modality (ct_provider target) = pd_modality (ct_provider primary))))
          (rj_fallbacks job)
  then Err (InvalidJob (lit "fallback modality differs from primary")) else
  if any_duplicate {[ct_target_id primary]} (ct_target_id <$> rj_fallbacks job)
  then Err (InvalidJob (lit "target IDs must be unique within a job")) else
  Ok tt.

Definition is_late (job : ResourceJob) (now_ms : Z) : bool :=
  is_some_and (rj_deadline_ms job) (λ deadline, deadline <? now_ms).

Definition queue_order (left right : QueuedRecord) : comparison :=
  then_with
    (then_with
       (Z.compare (priority_rank (rj_priority (qr_job right)))
                  (priority_rank (rj_priority (qr_job left))))
       (Z.compare (default u64_max (rj_deadline_ms (qr_job left)))
                  (default u64_max (rj_deadline_ms (qr_job right)))))
    (Z.compare (qr_sequence left) (qr_sequence right)).

Definition invalid_residency_transition (model_id : str) (from to : ModelResidencyState)
    : BrokerError := InvalidResidencyTransition model_id from to.

(** ** What is used and reserved *)

Definition protected_system_ram_used (s : BudgetSnapshot) : Z :=
  sat_add64 (bs_system_ram_used_bytes s) (bs_additional_game_ram_reserve_bytes s).

Definition protected_gpu_vram_used (s : BudgetSnapshot) : Z :=
  sat_add64 (bs_gpu_vram_used_bytes s) (bs_additional_game_vram_reserve_bytes s).

Definition unreported_gpu_usage (reserved accounted : BrokerAccountedGpuUsage)
    : BrokerAccountedGpuUsage := {|
  ag_resident_bytes := sat_sub (ag_resident_bytes reserved)
    (Z.min (ag_resident_bytes accounted) (ag_resident_bytes reserved));
  ag_transient_bytes := sat_sub (ag_transient_bytes reserved)
    (Z.min (ag_transient_bytes accounted) (ag_transient_bytes reserved))
|}.

Section accounting.
Context `{CancelApi, HashIter}.

Definition registered_model_for_target (state : BrokerState) (target : ComputeTarget)
    : option ModelResidencyRecord :=
  model_id ← ct_model_id target;
  record ← st_residency state !! model_id;
  if bool_decide (ms_target_id (mr_spec record) = ct_target_id target)
     && bool_decide (ms_gpu_residency (mr_spec record) = ct_gpu_residency target)
  then Some record else None.

(** The estimate of a job on a loaded registered model: its resident memory is
    already in the ledger, its transient memory is at least the measured one. *)
Definition registered_estimate (target : ComputeTarget) (record : ModelResidencyRecord)
    : ResourceEstimate := {|
  re_ram_bytes := re_ram_bytes (ct_estimate target);
  re_vram_resident_bytes := 0;
  re_vram_transient_bytes := Z.max (re_vram_transient_bytes (ct_estimate target))
    (me_p99_transient_bytes (ms_envelope (mr_spec record)));
  re_transient_duration_ms := re_transient_duration_ms (ct_estimate target);
  re_gpu_time_ms := re_gpu_time_ms (ct_estimate target)
|}.

Definition is_loaded_or_in_flight (s : ModelResidencyState) : bool :=
  match s with Loaded | InFlight => true | _ => false end.

Definition effective_job_estimate (state : BrokerState) (target : ComputeTarget)
    : option ResourceEstimate :=
  match ct_model_id target with
  | None => Some (ct_estimate target)
  | Some model_id =>
      match st_residency state !! model_id with
      | None => Some (ct_estimate target)
      | Some record =>
          if negb (bool_decide (ms_target_id (mr_spec record) = ct_target_id target))
             || negb (bool_decide (ms_gpu_residency (mr_spec record) = ct_gpu_residency target))
             || negb (is_loaded_or_in_flight (mr_state record))
          then None
          else Some (registered_estimate target record)
      end
  end.

Definition broker_reserved_gpu_usage (state : BrokerState) : BrokerAccountedGpuUsage :=
  let ledger_resident :=
    foldl (λ total record, sat_add64 total (me_resident_bytes (ms_envelope (mr_spec record))))
      0 (List.filter holds_resident_memory (hm_values (st_residency state))) in
  {| ag_resident_bytes := sat_add64 (rs_vram_resident_bytes (st_reservations state)) ledger_resident;
     ag_transient_bytes := rs_vram_transient_bytes (st_reservations state) |}.

(** ** Reservation and release *)

Definition reserve (state : BrokerState) (job : ResourceJob) (target : ComputeTarget)
    : BrokerState :=
  let estimate := default (ct_estimate target) (effective_job_estimate state target) in
  let registered_model_id :=
    (λ record, ms_model_id (mr_spec record)) <$> registered_model_for_target state target in
  let r := st_reservations state in
  let state := set_reservations {|
    rs_ram_bytes := sat_add64 (rs_ram_bytes r) (re_ram_bytes estimate);
    rs_vram_resident_bytes :=
      sat_add64 (rs_vram_resident_bytes r) (re_vram_resident_bytes estimate);
    rs_vram_transient_bytes :=
      sat_add64 (rs_vram_transient_bytes r) (re_vram_transient_bytes estimate);
    rs_gpu_leases :=
      if bool_decide (ct_gpu_residency target ≠ GpuNone)
      then wrap_add32 (rs_gpu_leases r) 1 else rs_gpu_leases r;
    rs_exclusive_gpu_job :=
      if bool_decide (ct_gpu_residency target = GpuExclusive)
      then Some (rj_job_id job) else rs_exclusive_gpu_job r;
    rs_foreground_turn_job :=
      if holds_foreground_turn_slot (rj_kind job)
      then Some (rj_job_id job) else rs_foreground_turn_job r |} state in
  match registered_model_id with
  | None => state
  | Some model_id =>
      set_residency (alter (λ record, {|
        mr_spec := mr_spec record;
        mr_state := InFlight;
        mr_active_jobs := sat_add32 (mr_active_jobs record) 1;
        mr_quarantine_until_ms := mr_quarantine_until_ms record |})
        model_id (st_residency state)) state
  end.

(** The estimate [release] gives back: computed from the registry as it is at
    the time of the release. *)
Definition release_estimate (state : BrokerState) (target : ComputeTarget) : ResourceEstimate :=
  match registered_model_for_target state target with
  | Some record => registered_estimate target record
  | None => ct_estimate target
  end.

Definition release (state : BrokerState) (job : ResourceJob) (target : ComputeTarget)
    : BrokerState :=
  let estimate := release_estimate state target in
  let registered_model_id :=
    (λ record, ms_model_id (mr_spec record)) <$> registered_model_for_target state target in
  let r := st_reservations state in
  let state := set_reservations {|
    rs_ram_bytes := sat_sub (rs_ram_bytes r) (re_ram_bytes estimate);
    rs_vram_resident_bytes :=
      sat_sub (rs_vram_resident_bytes r) (re_vram_resident_bytes estimate);
    rs_vram_transient_bytes :=
      sat_sub (rs_vram_transient_bytes r) (re_vram_transient_bytes estimate);
    rs_gpu_leases :=
      if bool_decide (ct_gpu_residency target ≠ GpuNone)
      then sat_sub (rs_gpu_leases r) 1 else rs_gpu_leases r;
    rs_exclusive_gpu_job :=
      if bool_decide (rs_exclusive_gpu_job r = Some (rj_job_id job))
      then None else rs_exclusive_gpu_job r;
    rs_foreground_turn_job :=
      if bool_decide (rs_foreground_turn_job r = Some (rj_job_id job))
      then None else rs_foreground_turn_job r |} state in
  match registered_model_id with
  | None => state
  | Some model_id =>
      set_residency (alter (λ record,
        let active_jobs := sat_sub (mr_active_jobs record) 1 in
        {| mr_spec := mr_spec record;
           mr_state := if (active_jobs =? 0) && bool_decide (mr_state record = InFlight)
                       then Loaded else mr_state record;
           mr_active_jobs := active_jobs;
           mr_quarantine_until_ms := mr_quarantine_until_ms record |})
        model_id (st_residency state)) state
  end.

(** ** Projections and diagnostics *)

Definition vram_ceiling (config : ResourceBrokerConfig) (snapshot : BudgetSnapshot) : Z :=
  Z.min (vram_ceiling_bytes config) (bs_gpu_vram_budget_bytes snapshot).

Definition projection (config : ResourceBrokerConfig) (snapshot : BudgetSnapshot)
    (state : BrokerState) (estimate : ResourceEstimate) : ResourceProjection :=
  let ceiling := vram_ceiling config snapshot in
  let ram := sat_add64 (sat_add64 (protected_system_ram_used snapshot)
               (rs_ram_bytes (st_reservations state))) (re_ram_bytes estimate) in
  let unreported :=
    unreported_gpu_usage (broker_reserved_gpu_usage state) (st_telemetry_accounted state) in
  let vram := sat_add64 (sat_add64 (sat_add64 (protected_gpu_vram_used snapshot)
                (ag_resident_bytes unreported)) (ag_transient_bytes unreported))
                (total_vram estimate) in
  {| pr_ram_bytes := ram;
     pr_vram_bytes := vram;
     pr_vram_ceiling_bytes := ceiling;
     pr_transient_overshoot_bytes := sat_sub vram ceiling |}.

Definition active_order (state : BrokerState) : list BrokerDegradation :=
  take (Z.to_nat (st_degradation_count state)) DEGRADATION_ORDER.

Definition admission_diagnostic (config : ResourceBrokerConfig) (snapshot : BudgetSnapshot)
    (state : BrokerState) (job : ResourceJob) (outcome : AdmissionOutcome)
    (selected_target_id : option str) (reason : str) : AdmissionDiagnostic :=
  let selected_target :=
    default (rj_primary job)
      (id ← selected_target_id;
       List.find (λ target, str_eqb (ct_target_id target) id) (targets_of job)) in
  let estimate :=
    default (ct_estimate selected_target) (effective_job_estimate state selected_target) in
  {| ad_monotonic_ms := bs_monotonic_ms snapshot;
     ad_job_id := rj_job_id job;
     ad_kind := rj_kind job;
     ad_priority := rj_priority job;
     ad_outcome := outcome;
     ad_selected_target_id := selected_target_id;
     ad_pressure := st_pressure state;
     ad_active_degradations := active_order state;
     ad_projection := projection config snapshot state estimate;
     ad_reason := reason |}.
End accounting.
