(* ===== verification/Broker.v ===== *)
(** * Resource broker: operations ([crates/runtime-core/src/resource_broker.rs])

    The methods of [ResourceBroker] and [ResourceLease]. Each public method
    reads its telemetry first and then runs under the broker's mutex to the
    end, so it is one atomic function from the state to the state and the
    returned value. [config] is the broker's immutable configuration. *)

From S2P Require Import Prelude Text Float Policy BrokerTypes BrokerCore.

#[local] Open Scope Z_scope.

Section broker.
Context `{CancelApi, HashIter}.
Context (config : ResourceBrokerConfig).

(** ** Telemetry reading: the first two lines of most methods *)

Definition readings {T} `{BudgetTelemetry T} (telemetry : T)
    : result BrokerError (BudgetSnapshot * BrokerAccountedGpuUsage) :=
  snapshot ← telemetry_snapshot telemetry;
  snapshot ← snapshot_validate snapshot;
  accounted ← telemetry_accounted telemetry;
  Ok (snapshot, accounted).

(** ** Diagnostics *)

Definition push_diagnostic (diagnostic : BrokerDiagnostic) (state : BrokerState) : BrokerState :=
  let kept :=
    if Z.of_nat (length (st_diagnostics state)) =? diagnostic_capacity config
    then tail (st_diagnostics state) else st_diagnostics state in
  set_diagnostics (kept ++ [diagnostic]) state.

Definition push_admission (diagnostic : AdmissionDiagnostic) (state : BrokerState) : BrokerState :=
  push_diagnostic (Admission diagnostic) state.

Definition emit_degradation_locked (now_ms : Z) (reason : str) (state : BrokerState)
    : BrokerState :=
  push_diagnostic (DegradationChanged now_ms (active_order state) reason) state.

Definition escalate_degradation_locked (now_ms : Z) (reason : str) (state : BrokerState)
    : BrokerState :=
  if st_degradation_count state <? Z.of_nat (length DEGRADATION_ORDER)
  then emit_degradation_locked now_ms reason
         (set_degradation_count (st_degradation_count state + 1) state)
  else state.

(** ** Transient overages and pressure *)

Definition transient_expired (now_ms : Z) (active : ActiveRecord) : bool :=
  is_some_and (ar_transient_deadline_ms active) (λ deadline, deadline <? now_ms)
  && negb (ar_cancelled_by_broker active).

Definition set_cancelled_by_broker (active : ActiveRecord) : ActiveRecord := {|
  ar_job := ar_job active;
  ar_target := ar_target active;
  ar_cancellation := ar_cancellation active;
  ar_output_started := ar_output_started active;
  ar_cancelled_by_broker := true;
  ar_transient_deadline_ms := ar_transient_deadline_ms active
|}.

(** The body of the [filter_map] over the active jobs. *)
Definition expire_entry (now_ms : Z) (acc : BrokerState * list str)
    (entry : str * ActiveRecord) : BrokerState * list str :=
  let '(state, expired) := acc in
  let '(job_id, active) := entry in
  if transient_expired now_ms active
  then (set_cells (ct_cancel (ar_cancellation active) (st_cells state))
          (set_active (<[job_id := set_cancelled_by_broker active]> (st_active state)) state),
        expired ++ [job_id])
  else (state, expired).

Definition expire_transient_overages_locked (now_ms : Z) (state : BrokerState) : BrokerState :=
  let '(state, expired) :=
    foldl (expire_entry now_ms) (state, []) (hm_iter (st_active state)) in
  foldl (λ state job_id, push_diagnostic (CancellationRequested now_ms job_id
           (lit "transient VRAM ceiling grace expired")) state) state expired.

Definition utilization_ratio_of (snapshot : BudgetSnapshot) (state : BrokerState) : f64 :=
  let ceiling := vram_ceiling config snapshot in
  let unreported :=
    unreported_gpu_usage (broker_reserved_gpu_usage state) (st_telemetry_accounted state) in
  let vram := f64_div
    (f64_of_u64 (sat_add64 (sat_add64 (protected_gpu_vram_used snapshot)
       (ag_resident_bytes unreported)) (ag_transient_bytes unreported)))
    (f64_of_u64 ceiling) in
  let ram := f64_div
    (f64_of_u64 (sat_add64 (protected_system_ram_used snapshot)
       (rs_ram_bytes (st_reservations state))))
    (f64_of_u64 (bs_system_ram_budget_bytes snapshot)) in
  f64_max (f64_max vram ram) (f64_of_f32 (bs_gpu_utilization snapshot)).

(** The [match] on the current level. *)
Definition next_pressure (pressure : PressureLevel) (utilization : f64) : PressureLevel :=
  match pressure with
  | Green =>
      if f_ge utilization (red_enter_ratio config) then Red else
      if f_ge utilization (amber_enter_ratio config) then Amber else Green
  | Amber =>
      if f_ge utilization (red_enter_ratio config) then Red else
      if f_le utilization (green_reenter_ratio config) then Green else Amber
  | Red => if f_le utilization (amber_reenter_ratio config) then Amber else Red
  end.

Definition pressure_floor (pressure : PressureLevel) : Z :=
  match pressure with Green => 0 | Amber => 1 | Red => 2 end.

Definition raise_to_pressure_floor (now_ms : Z) (state : BrokerState) : BrokerState :=
  if st_degradation_count state <? pressure_floor (st_pressure state)
  then emit_degradation_locked now_ms (lit "pressure floor increased")
         (set_degradation_count (pressure_floor (st_pressure state)) state)
  else state.

Definition recover_when_green (now_ms : Z) (state : BrokerState) : BrokerState :=
  if bool_decide (st_pressure state = Green) then
    let state := set_green_samples (wrap_add32 (st_green_samples state) 1) state in
    if (recovery_green_samples config <=? st_green_samples state)
       && (0 <? st_degradation_count state)
    then emit_degradation_locked now_ms (lit "sustained green pressure recovery")
           (set_green_samples 0 (set_degradation_count (st_degradation_count state - 1) state))
    else state
  else set_green_samples 0 state.

Definition update_pressure_locked (snapshot : BudgetSnapshot) (state : BrokerState)
    : BrokerState :=
  let utilization := utilization_ratio_of snapshot state in
  let previous := st_pressure state in
  let state := set_pressure (next_pressure previous utilization) state in
  let state :=
    if negb (bool_decide (st_pressure state = previous))
    then push_diagnostic (PressureChanged (bs_monotonic_ms snapshot) previous
           (st_pressure state) utilization) state
    else state in
  let state := raise_to_pressure_floor (bs_monotonic_ms snapshot) state in
  recover_when_green (bs_monotonic_ms snapshot) state.

(** What every method that schedules work does before it looks at the queue. *)
Definition refresh (snapshot : BudgetSnapshot) (accounted : BrokerAccountedGpuUsage)
    (state : BrokerState) : BrokerState :=
  let state := set_telemetry_accounted accounted state in
  let state := expire_transient_overages_locked (bs_monotonic_ms snapshot) state in
  update_pressure_locked snapshot state.

(** ** Target selection *)

Definition is_stale (job : ResourceJob) (now_ms : Z) : bool :=
  match captured_at_ms (rj_kind job) with
  | None => false
  | Some captured =>
      match rj_drop_policy job with
      | DropIfStale maximum_age_ms => maximum_age_ms <? sat_sub now_ms captured
      | _ =>
          if is_visual_burst (rj_kind job)
          then default_vision_stale_ms config <? sat_sub now_ms captured
          else false
      end
  end.

Definition is_target_quarantined (state : BrokerState) (target_id : str) (now_ms : Z) : bool :=
  is_some_and (st_target_health state !! target_id)
    (λ health, now_ms <? th_quarantine_until_ms health)
  || existsb (λ record,
       bool_decide (ms_target_id (mr_spec record) = target_id)
       && bool_decide (mr_state record = Quarantined)
       && is_none_or (mr_quarantine_until_ms record) (λ until, now_ms <? until))
       (hm_values (st_residency state)).

Definition target_fits (state : BrokerState) (snapshot : BudgetSnapshot)
    (target : ComputeTarget) : bool :=
  match effective_job_estimate state target with
  | None => false
  | Some estimate =>
      let projected_ram := sat_add64 (sat_add64 (protected_system_ram_used snapshot)
        (rs_ram_bytes (st_reservations state))) (re_ram_bytes estimate) in
      if bs_system_ram_budget_bytes snapshot <? projected_ram then false else
      let ceiling := vram_ceiling config snapshot in
      let unreported :=
        unreported_gpu_usage (broker_reserved_gpu_usage state) (st_telemetry_accounted state) in
      let projected_resident := sat_add64 (sat_add64 (sat_add64
        (protected_gpu_vram_used snapshot) (ag_resident_bytes unreported))
        (ag_transient_bytes unreported)) (re_vram_resident_bytes estimate) in
      let projected_total :=
        sat_add64 projected_resident (re_vram_transient_bytes estimate) in
      if ceiling <? projected_resident then false else
      if projected_total <=? ceiling then true else
      let overshoot := projected_total - ceiling in
      (overshoot <=? transient_vram_allowance_bytes config)
      && (0 <? re_transient_duration_ms estimate)
      && (re_transient_duration_ms estimate <=? transient_vram_grace_ms config)
  end.

Definition residency_available (state : BrokerState) (job : ResourceJob)
    (target : ComputeTarget) : bool :=
  if holds_foreground_turn_slot (rj_kind job)
     && is_some (rs_foreground_turn_job (st_reservations state)) then false else
  if is_some_and (model_id ← ct_model_id target; st_residency state !! model_id)
       (λ record,
          negb (bool_decide (ms_target_id (mr_spec record) = ct_target_id target))
          || negb (bool_decide (ms_gpu_residency (mr_spec record) = ct_gpu_residency target))
          || negb (is_loaded_or_in_flight (mr_state record))) then false else
  match ct_gpu_residency target with
  | GpuNone => true
  | GpuShared => is_none (rs_exclusive_gpu_job (st_reservations state))
  | GpuExclusive => rs_gpu_leases (st_reservations state) =? 0
  end.

(** [job.kind.utterance_id().and_then(|u| state.utterance_bindings.get(u))]. *)
Definition bound_target_of (state : BrokerState) (job : ResourceJob) : option str :=
  utterance ← utterance_id (rj_kind job); st_utterance_bindings state !! utterance.

(** The [chain] of the primary target and the fallbacks. *)
Definition selection_candidates (job : ResourceJob)
    : list (ComputeTarget * AdmissionOutcome) :=
  (rj_primary job, AdmittedPrimary) :: ((λ t, (t, AdmittedFallback)) <$> rj_fallbacks job).

(** The conditions of the [find_map]. *)
Definition candidate_selectable (state : BrokerState) (snapshot : BudgetSnapshot)
    (job : ResourceJob) (allow_fallback : bool) (candidate : ComputeTarget * AdmissionOutcome)
    : bool :=
  let '(target, outcome) := candidate in
  if bool_decide (outcome = AdmittedFallback) && negb allow_fallback then false else
  if is_some_and (bound_target_of state job)
       (λ bound, negb (bool_decide (bound = ct_target_id target))) then false else
  let privacy_allowed :=
    if bool_decide (outcome = AdmittedPrimary)
    then allows (rj_privacy job) (ct_provider target)
    else allows_fallback (rj_privacy job) (ct_provider (rj_primary job)) (ct_provider target) in
  negb (negb privacy_allowed
        || is_target_quarantined state (ct_target_id target) (bs_monotonic_ms snapshot)
        || negb (target_fits state snapshot target)
        || negb (residency_available state job target)).

Definition select_target_locked (state : BrokerState) (snapshot : BudgetSnapshot)
    (job : ResourceJob) (allow_fallback : bool) : option (ComputeTarget * AdmissionOutcome) :=
  List.find (candidate_selectable state snapshot job allow_fallback) (selection_candidates job).

Definition terminal_rejection (state : BrokerState) (snapshot : BudgetSnapshot)
    (job : ResourceJob) : option (AdmissionOutcome * str) :=
  let privacy_allowed := List.filter (λ target,
    if bool_decide (ct_target_id target = ct_target_id (rj_primary job))
    then allows (rj_privacy job) (ct_provider target)
    else allows_fallback (rj_privacy job) (ct_provider (rj_primary job)) (ct_provider target))
    (targets_of job) in
  if bool_decide (privacy_allowed = [])
  then Some (RejectedPrivacy, lit "no target is authorized by the job privacy policy") else
  if is_some_and (bound_target_of state job) (λ bound,
       forallb (λ target, negb (bool_decide (ct_target_id target = bound))) privacy_allowed)
  then Some (RejectedUtteranceBinding,
             lit "no authorized target matches the utterance model binding") else
  if forallb (λ target, is_target_quarantined state (ct_target_id target)
                          (bs_monotonic_ms snapshot)) privacy_allowed
  then Some (RejectedQuarantined, lit "all privacy-authorized targets are quarantined") else
  None.

(** ** Admission *)

Definition admit_locked (snapshot : BudgetSnapshot) (job : ResourceJob)
    (target : ComputeTarget) (outcome : AdmissionOutcome) (state : BrokerState)
    : BrokerState * Submission :=
  let '(cancellation, cells) := ct_new (st_cells state) in
  let state := set_cells cells state in
  let diagnostic := admission_diagnostic config snapshot state job outcome
    (Some (ct_target_id target))
    (if bool_decide (outcome = AdmittedFallback)
     then lit "primary target unavailable; authorized fallback admitted"
     else lit "resource lease admitted") in
  let state := reserve state job target in
  let state := set_active (<[rj_job_id job := {|
    ar_job := job;
    ar_target := target;
    ar_cancellation := cancellation;
    ar_output_started := false;
    ar_cancelled_by_broker := false;
    ar_transient_deadline_ms :=
      if 0 <? pr_transient_overshoot_bytes (ad_projection diagnostic)
      then Some (sat_add64 (bs_monotonic_ms snapshot) (transient_vram_grace_ms config))
      else None |}]> (st_active state)) state in
  let state := push_admission diagnostic state in
  (state, {| su_diagnostic := diagnostic;
             su_lease := Some {|
               le_job_id := rj_job_id job;
               le_target_id := ct_target_id target;
               le_cancellation := cancellation;
               le_completed := false |} |}).

Definition rejected_submission (snapshot : BudgetSnapshot) (job : ResourceJob)
    (outcome : AdmissionOutcome) (reason : str) (state : BrokerState)
    : BrokerState * Submission :=
  let diagnostic := admission_diagnostic config snapshot state job outcome None reason in
  (push_admission diagnostic state, {| su_diagnostic := diagnostic; su_lease := None |}).

Definition drop_before_admission (snapshot : BudgetSnapshot) (job : ResourceJob)
    (state : BrokerState) : option (BrokerState * Submission) :=
  if is_late job (bs_monotonic_ms snapshot) && bool_decide (rj_drop_policy job = DropIfLate)
  then Some (rejected_submission snapshot job DroppedLate
               (lit "job arrived after its deadline") state) else
  if is_stale job (bs_monotonic_ms snapshot)
  then Some (rejected_submission snapshot job DroppedStale
               (lit "vision frame is stale") state) else
  if is_visual_burst (rj_kind job) && negb (bool_decide (st_pressure state = Green))
     && bool_decide (rj_drop_policy job = DropUnderPressure)
  then Some (rejected_submission snapshot job DroppedPressure
               (lit "visual burst dropped under memory pressure") state) else
  None.

Definition superseded_by (key : str) (queued : QueuedRecord) : bool :=
  bool_decide (rj_drop_policy (qr_job queued) = Supersede key).

(** The [Supersede] block: [retain], then one diagnostic per removed job. *)
Definition supersede_queued (snapshot : BudgetSnapshot) (job : ResourceJob)
    (state : BrokerState) : BrokerState :=
  match rj_drop_policy job with
  | Supersede key =>
      let removed := List.filter (superseded_by key) (st_queued state) in
      let state := set_queued
        (List.filter (λ queued, negb (superseded_by key queued)) (st_queued state)) state in
      foldl (λ state old,
        push_admission (admission_diagnostic config snapshot state (qr_job old) DroppedStale
          None (lit "superseded by a newer coalesced job")) state) state removed
  | _ => state
  end.

Definition enqueue (snapshot : BudgetSnapshot) (job : ResourceJob) (state : BrokerState)
    : BrokerState * Submission :=
  let state := escalate_degradation_locked (bs_monotonic_ms snapshot)
    (lit "admission could not fit current budget") state in
  let state := set_sequence (wrap_add64 (st_sequence state) 1) state in
  let state := set_queued
    (st_queued state ++ [{| qr_sequence := st_sequence state; qr_job := job |}]) state in
  let diagnostic := admission_diagnostic config snapshot state job Queued None
    (lit "waiting for resource, foreground, or residency lease") in
  (push_admission diagnostic state, {| su_diagnostic := diagnostic; su_lease := None |}).

Definition id_in_use (state : BrokerState) (job_id : str) : bool :=
  is_some (st_active state !! job_id)
  || existsb (λ queued, bool_decide (rj_job_id (qr_job queued) = job_id)) (st_queued state).

(** The body of [submit] under the lock, once telemetry is read. *)
Definition submit_locked (snapshot : BudgetSnapshot) (accounted : BrokerAccountedGpuUsage)
    (job : ResourceJob) (state : BrokerState) : BrokerState * Submission :=
  let state := refresh snapshot accounted state in
  if id_in_use state (rj_job_id job)
  then rejected_submission snapshot job RejectedDuplicate
         (lit "job ID is already active or queued") state else
  match drop_before_admission snapshot job state with
  | Some dropped => dropped
  | None =>
      let state := supersede_queued snapshot job state in
      match select_target_locked state snapshot job true with
      | Some (target, outcome) => admit_locked snapshot job target outcome state
      | None =>
          match terminal_rejection state snapshot job with
          | Some (outcome, reason) => rejected_submission snapshot job outcome reason state
          | None =>
              match rj_drop_policy job with
              | DropUnderPressure =>
                  rejected_submission snapshot job DroppedPressure
                    (lit "job cannot fit the current pressure and residency constraints") state
              | DropIfLate =>
                  if is_late job (bs_monotonic_ms snapshot)
                  then rejected_submission snapshot job DroppedLate
                         (lit "job deadline has elapsed") state
                  else enqueue snapshot job state
              | _ => enqueue snapshot job state
              end
          end
      end
  end.

Definition submit {T} `{BudgetTelemetry T} (telemetry : T) (job : ResourceJob)
    (state : BrokerState) : BrokerState * result BrokerError Submission :=
  match (_ ← validate_job job; readings telemetry) with
  | Err e => (state, Err e)
  | Ok (snapshot, accounted) =>
      let '(state, submission) := submit_locked snapshot accounted job state in
      (state, Ok submission)
  end.

(** ** Polling the queue *)

(** One iteration of the loop of [poll_ready]. *)
Definition poll_one (snapshot : BudgetSnapshot) (acc : BrokerState * list ResourceLease)
    (queued : QueuedRecord) : BrokerState * list ResourceLease :=
  let '(state, leases) := acc in
  let job := qr_job queued in
  if is_late job (bs_monotonic_ms snapshot) && bool_decide (rj_drop_policy job = DropIfLate)
  then (push_admission (admission_diagnostic config snapshot state job DroppedLate None
          (lit "queued job deadline elapsed")) state, leases) else
  if is_stale job (bs_monotonic_ms snapshot)
  then (push_admission (admission_diagnostic config snapshot state job DroppedStale None
          (lit "queued vision frame became stale")) state, leases) else
  match select_target_locked state snapshot job true with
  | Some (target, outcome) =>
      let '(state, submission) := admit_locked snapshot job target outcome state in
      (state, leases ++ option_list (su_lease submission))
  | None => (set_queued (st_queued state ++ [queued]) state, leases)
  end.

Definition poll_locked (snapshot : BudgetSnapshot) (accounted : BrokerAccountedGpuUsage)
    (state : BrokerState) : BrokerState * list ResourceLease :=
  let state := refresh snapshot accounted state in
  let queued := sort_by queue_order (st_queued state) in
  foldl (poll_one snapshot) (set_queued [] state, []) queued.

Definition poll_ready {T} `{BudgetTelemetry T} (telemetry : T) (state : BrokerState)
    : BrokerState * result BrokerError (list ResourceLease) :=
  match readings telemetry with
  | Err e => (state, Err e)
  | Ok (snapshot, accounted) =>
      let '(state, leases) := poll_locked snapshot accounted state in
      (state, Ok leases)
  end.

Definition refresh_pressure {T} `{BudgetTelemetry T} (telemetry : T) (state : BrokerState)
    : BrokerState * result BrokerError PressureLevel :=
  match readings telemetry with
  | Err e => (state, Err e)
  | Ok (snapshot, accounted) =>
      let state := refresh snapshot accounted state in
      (state, Ok (st_pressure state))
  end.

Definition pressure (state : BrokerState) : PressureLevel := st_pressure state.

Definition active_degradations (state : BrokerState) : list BrokerDegradation :=
  active_order state.

(** ** Model residency *)

Definition register_model_residency (spec : ModelResidencySpec) (state : BrokerState)
    : BrokerState * result BrokerError unit :=
  if is_blank (ms_model_id spec) || is_blank (ms_target_id spec)
  then (state, Err (InvalidResidency (lit "model_id and target_id must be non-empty"))) else
  if is_networked (pd_location (ms_provider spec))
     || bool_decide (ms_gpu_residency spec = GpuNone)
  then (state, Err (InvalidResidency
    (lit "API-only and CPU-only targets have no GPU model residency context"))) else
  match envelope_validate (ms_envelope spec) with
  | Err e => (state, Err e)
  | Ok _ =>
      if is_some (st_residency state !! ms_model_id spec)
         || existsb (λ record, bool_decide (ms_target_id (mr_spec record) = ms_target_id spec))
              (hm_values (st_residency state))
      then (state, Err (InvalidResidency
        (lit "model_id and target_id must be unique in the residency ledger"))) else
      (set_residency (<[ms_model_id spec := {|
         mr_spec := spec; mr_state := Cold; mr_active_jobs := 0;
         mr_quarantine_until_ms := None |}]> (st_residency state)) state, Ok tt)
  end.

(** [get_mut(model_id)] and an assignment through it. *)
Definition update_record (model_id : str) (f : ModelResidencyRecord → ModelResidencyRecord)
    (state : BrokerState) : BrokerState :=
  set_residency (alter f model_id (st_residency state)) state.

Definition warming_projection (snapshot : BudgetSnapshot) (accounted : BrokerAccountedGpuUsage)
    (record : ModelResidencyRecord) (state : BrokerState) : Z :=
  let unreported := unreported_gpu_usage (broker_reserved_gpu_usage state) accounted in
  sat_add64 (sat_add64 (sat_add64 (protected_gpu_vram_used snapshot)
    (ag_resident_bytes unreported)) (ag_transient_bytes unreported))
    (me_resident_bytes (ms_envelope (mr_spec record))).

Definition begin_model_warming {T} `{BudgetTelemetry T} (telemetry : T) (model_id : str)
    (state : BrokerState) : BrokerState * result BrokerError unit :=
  match readings telemetry with
  | Err e => (state, Err e)
  | Ok (snapshot, accounted) =>
      match st_residency state !! model_id with
      | None => (state, Err (UnknownModel model_id))
      | Some record =>
          if negb (bool_decide (mr_state record = Cold))
          then (state, Err (invalid_residency_transition model_id (mr_state record) Warming)) else
          if vram_ceiling config snapshot <? warming_projection snapshot accounted record state
          then (state, Err (ResidencyCapacityExceeded model_id)) else
          (update_record model_id (set_record_state Warming) state, Ok tt)
      end
  end.

Definition loaded_projection (snapshot : BudgetSnapshot) (accounted : BrokerAccountedGpuUsage)
    (measured : MeasuredGpuEnvelope) (record : ModelResidencyRecord) (state : BrokerState) : Z :=
  let reserved := broker_reserved_gpu_usage state in
  let future_reserved := {|
    ag_resident_bytes := sat_add64 (sat_sub (ag_resident_bytes reserved)
      (me_resident_bytes (ms_envelope (mr_spec record)))) (me_resident_bytes measured);
    ag_transient_bytes := ag_transient_bytes reserved |} in
  let unreported := unreported_gpu_usage future_reserved accounted in
  sat_add64 (sat_add64 (protected_gpu_vram_used snapshot) (ag_resident_bytes unreported))
    (ag_transient_bytes unreported).

Definition set_record_loaded (measured : MeasuredGpuEnvelope) (record : ModelResidencyRecord)
    : ModelResidencyRecord := {|
  mr_spec := {|
    ms_model_id := ms_model_id (mr_spec record);
    ms_target_id := ms_target_id (mr_spec record);
    ms_provider := ms_provider (mr_spec record);
    ms_gpu_residency := ms_gpu_residency (mr_spec record);
    ms_envelope := measured |};
  mr_state := Loaded;
  mr_active_jobs := mr_active_jobs record;
  mr_quarantine_until_ms := mr_quarantine_until_ms record
|}.

Definition mark_model_loaded {T} `{BudgetTelemetry T} (telemetry : T) (model_id : str)
    (measured : MeasuredGpuEnvelope) (state : BrokerState)
    : BrokerState * result BrokerError unit :=
  match (measured ← envelope_validate measured;
         '(snapshot, accounted) ← readings telemetry;
         Ok (measured, snapshot, accounted)) with
  | Err e => (state, Err e)
  | Ok (measured, snapshot, accounted) =>
      let state := set_telemetry_accounted accounted state in
      match st_residency state !! model_id with
      | None => (state, Err (UnknownModel model_id))
      | Some record =>
          if negb (bool_decide (mr_state record = Warming))
          then (state, Err (invalid_residency_transition model_id (mr_state record) Loaded)) else
          if vram_ceiling config snapshot
             <? loaded_projection snapshot accounted measured record state
          then (state, Err (ResidencyCapacityExceeded model_id)) else
          (update_record model_id (set_record_loaded measured) state, Ok tt)
      end
  end.

Definition transition_idle_model (model_id : str) (from to : ModelResidencyState)
    (state : BrokerState) : BrokerState * result BrokerError unit :=
  match st_residency state !! model_id with
  | None => (state, Err (UnknownModel model_id))
  | Some record =>
      if negb (bool_decide (mr_state record = from)) || negb (mr_active_jobs record =? 0)
      then (state, Err (invalid_residency_transition model_id (mr_state record) to))
      else (update_record model_id (set_record_state to) state, Ok tt)
  end.

Definition begin_model_eviction (model_id : str) (state : BrokerState)
    : BrokerState * result BrokerError unit :=
  transition_idle_model model_id Loaded Evicting state.

Definition mark_model_cold (model_id : str) (state : BrokerState)
    : BrokerState * result BrokerError unit :=
  transition_idle_model model_id Evicting Cold state.

(** A record quarantined until [until]. *)
Definition set_record_quarantined (until : Z) (record : ModelResidencyRecord)
    : ModelResidencyRecord :=
  set_record_quarantine (Some until) (set_record_state Quarantined record).

Definition quarantine_model_residency (model_id : str) (until_ms : Z) (state : BrokerState)
    : BrokerState * result BrokerError unit :=
  match st_residency state !! model_id with
  | None => (state, Err (UnknownModel model_id))
  | Some _ => (update_record model_id (set_record_quarantined until_ms) state, Ok tt)
  end.

Definition clear_model_quarantine {T} `{BudgetTelemetry T} (telemetry : T) (model_id : str)
    (state : BrokerState) : BrokerState * result BrokerError unit :=
  match (snapshot ← telemetry_snapshot telemetry; snapshot_validate snapshot) with
  | Err e => (state, Err e)
  | Ok snapshot =>
      match st_residency state !! model_id with
      | None => (state, Err (UnknownModel model_id))
      | Some record =>
          if negb (bool_decide (mr_state record = Quarantined))
             || is_some_and (mr_quarantine_until_ms record)
                  (λ until, bs_monotonic_ms snapshot <? until)
          then (state, Err (invalid_residency_transition model_id (mr_state record) Cold))
          else (update_record model_id
                  (λ record, set_record_quarantine None (set_record_state Cold record)) state,
                Ok tt)
      end
  end.

Definition residency_ledger_snapshot {T} `{BudgetTelemetry T} (telemetry : T)
    (state : BrokerState) : result BrokerError ResidencyLedgerSnapshot :=
  accounted ← telemetry_accounted telemetry;
  let reserved := broker_reserved_gpu_usage state in
  let unreported := unreported_gpu_usage reserved accounted in
  Ok {|
    rl_models := sort_by (λ left right, str_cmp (mst_model_id left) (mst_model_id right))
      (record_status <$> hm_values (st_residency state));
    rl_reserved_resident_bytes := ag_resident_bytes reserved;
    rl_reserved_p99_transient_bytes := ag_transient_bytes reserved;
    rl_telemetry_accounted := accounted;
    rl_unreported_resident_bytes := ag_resident_bytes unreported;
    rl_unreported_transient_bytes := ag_transient_bytes unreported |}.

(** ** Active jobs *)

(** [position] and [remove] at that index. *)
Fixpoint remove_queued (job_id : str) (queued : list QueuedRecord)
    : option (QueuedRecord * list QueuedRecord) :=
  match queued with
  | [] => None
  | q :: rest =>
      if bool_decide (rj_job_id (qr_job q) = job_id) then Some (q, rest) else
      '(found, rest) ← remove_queued job_id rest;
      Some (found, q :: rest)
  end.

Definition cancel {T} `{BudgetTelemetry T} (telemetry : T) (job_id reason : str)
    (state : BrokerState) : BrokerState * bool :=
  match telemetry_snapshot telemetry with
  | Err _ => (state, false)
  | Ok snapshot =>
      match remove_queued job_id (st_queued state) with
      | Some (queued, rest) =>
          let state := set_queued rest state in
          (push_admission (admission_diagnostic config snapshot state (qr_job queued)
             AdmissionCancelled None (lit "queued job cancelled")) state, true)
      | None =>
          match st_active state !! job_id with
          | Some active =>
              let state := set_active
                (<[job_id := set_cancelled_by_broker active]> (st_active state)) state in
              let state :=
                set_cells (ct_cancel (ar_cancellation active) (st_cells state)) state in
              (push_diagnostic
                 (CancellationRequested (bs_monotonic_ms snapshot) job_id reason) state, true)
          | None => (state, false)
          end
      end
  end.

Definition set_output_started (active : ActiveRecord) : ActiveRecord := {|
  ar_job := ar_job active;
  ar_target := ar_target active;
  ar_cancellation := ar_cancellation active;
  ar_output_started := true;
  ar_cancelled_by_broker := ar_cancelled_by_broker active;
  ar_transient_deadline_ms := ar_transient_deadline_ms active
|}.

Definition mark_output_started (job_id : str) (state : BrokerState) : BrokerState * bool :=
  match st_active state !! job_id with
  | None => (state, false)
  | Some active =>
      let state := set_active (<[job_id := set_output_started active]> (st_active state)) state in
      (match utterance_id (rj_kind (ar_job active)) with
       | Some utterance =>
           set_utterance_bindings
             (<[utterance := ct_target_id (ar_target active)]> (st_utterance_bindings state)) state
       | None => state
       end, true)
  end.

Definition finish_utterance (utterance : str) (state : BrokerState) : BrokerState :=
  set_utterance_bindings (delete utterance (st_utterance_bindings state)) state.

Definition set_health (target_id : str) (health : TargetHealth) (state : BrokerState)
    : BrokerState :=
  set_target_health (<[target_id := health]> (st_target_health state)) state.

Definition fallback_usable (state : BrokerState) (snapshot : BudgetSnapshot)
    (active : ActiveRecord) (fallback : ComputeTarget) : bool :=
  allows_fallback (rj_privacy (ar_job active)) (ct_provider (rj_primary (ar_job active)))
    (ct_provider fallback)
  && negb (is_target_quarantined state (ct_target_id fallback) (bs_monotonic_ms snapshot))
  && target_fits state snapshot fallback.

(** [report_oom] once its quarantine threshold is reached. *)
Definition quarantine_after_oom (snapshot : BudgetSnapshot) (active : ActiveRecord)
    (oom_failures : Z) (state : BrokerState) : BrokerState :=
  let until_ms := sat_add64 (bs_monotonic_ms snapshot) (quarantine_ms config) in
  let target_id := ct_target_id (ar_target active) in
  let state := set_health target_id
    {| th_oom_failures := oom_failures; th_quarantine_until_ms := until_ms |} state in
  let state :=
    match ct_model_id (ar_target active) with
    | Some model_id => update_record model_id (set_record_quarantined until_ms) state
    | None => state
    end in
  push_diagnostic
    (TargetQuarantined (bs_monotonic_ms snapshot) target_id until_ms oom_failures) state.

Definition report_oom_locked (snapshot : BudgetSnapshot) (accounted : BrokerAccountedGpuUsage)
    (job_id : str) (state : BrokerState) : BrokerState * RecoveryDirective :=
  let state := set_telemetry_accounted accounted state in
  match st_active state !! job_id with
  | None => (state, JobNotActive)
  | Some active =>
      let target_id := ct_target_id (ar_target active) in
      let health := default target_health_default (st_target_health state !! target_id) in
      let oom_failures := wrap_add32 (th_oom_failures health) 1 in
      if oom_failures <? oom_failures_before_quarantine config
      then (set_health target_id {| th_oom_failures := oom_failures;
              th_quarantine_until_ms := th_quarantine_until_ms health |} state,
            RetrySameTargetAfterEviction target_id) else
      let state := quarantine_after_oom snapshot active oom_failures state in
      (state,
       if ar_output_started active || holds_foreground_turn_slot (rj_kind (ar_job active))
       then AbortUtteranceNoModelSwap
       else match List.find (fallback_usable state snapshot active)
                    (rj_fallbacks (ar_job active)) with
            | Some fallback => RetryFallback (ct_target_id fallback)
            | None => QuarantinedNoSafeFallback
            end)
  end.

Definition report_oom {T} `{BudgetTelemetry T} (telemetry : T) (job_id : str)
    (state : BrokerState) : BrokerState * result BrokerError RecoveryDirective :=
  match readings telemetry with
  | Err e => (state, Err e)
  | Ok (snapshot, accounted) =>
      let '(state, directive) := report_oom_locked snapshot accounted job_id state in
      (state, Ok directive)
  end.

Definition diagnostics (state : BrokerState) : list BrokerDiagnostic := st_diagnostics state.

Definition drain_diagnostics (state : BrokerState) : BrokerState * list BrokerDiagnostic :=
  (set_diagnostics [] state, st_diagnostics state).

(** ** Leases *)

Definition finish_lease {T} `{BudgetTelemetry T} (telemetry : T) (job_id : str)
    (actual : ActualUsage) (actual_usage_measured : bool) (status : CompletionStatus)
    (state : BrokerState) : BrokerState :=
  match st_active state !! job_id with
  | None => state
  | Some active =>
      let state := set_active (delete job_id (st_active state)) state in
      let state := release state (ar_job active) (ar_target active) in
      let state :=
        if bool_decide (status = StatusCompleted)
        then set_target_health
               (delete (ct_target_id (ar_target active)) (st_target_health state)) state
        else state in
      let now_ms :=
        match telemetry_snapshot telemetry with
        | Ok value => bs_monotonic_ms value | Err _ => 0 end in
      push_diagnostic (Actual {|
        acd_monotonic_ms := now_ms;
        acd_job_id := job_id;
        acd_target_id := ct_target_id (ar_target active);
        acd_estimated := ct_estimate (ar_target active);
        acd_actual := actual;
        acd_actual_usage_measured := actual_usage_measured;
        acd_status := status;
        acd_deadline_missed := is_late (ar_job active) now_ms;
        acd_cancelled_by_broker := ar_cancelled_by_broker active |}) state
  end.

(** [ResourceLease::drop], which also runs at the end of [complete] and
    [complete_unmeasured]. *)
Definition lease_drop {T} `{BudgetTelemetry T} (telemetry : T) (lease : ResourceLease)
    (state : BrokerState) : BrokerState :=
  if le_completed lease then state
  else finish_lease telemetry (le_job_id lease) actual_usage_default false StatusCancelled state.

Definition lease_set_completed (lease : ResourceLease) : ResourceLease := {|
  le_job_id := le_job_id lease; le_target_id := le_target_id lease;
  le_cancellation := le_cancellation lease; le_completed := true |}.

Definition lease_complete {T} `{BudgetTelemetry T} (telemetry : T) (actual : ActualUsage)
    (status : CompletionStatus) (lease : ResourceLease) (state : BrokerState) : BrokerState :=
  lease_drop telemetry (lease_set_completed lease)
    (finish_lease telemetry (le_job_id lease) actual true status state).

Definition lease_complete_unmeasured {T} `{BudgetTelemetry T} (telemetry : T)
    (status : CompletionStatus) (lease : ResourceLease) (state : BrokerState) : BrokerState :=
  lease_drop telemetry (lease_set_completed lease)
    (finish_lease telemetry (le_job_id lease) actual_usage_default false status state).

Definition lease_is_cancelled (lease : ResourceLease) (state : BrokerState) : bool :=
  ct_is_cancelled (st_cells state) (le_cancellation lease).
End broker.

(** Unfolded by name only. *)
#[global] Arguments poll_one : simpl never.
#[global] Arguments candidate_selectable : simpl never.
#[global] Arguments select_target_locked : simpl never.
#[global] Arguments admission_diagnostic : simpl never.
