(* ===== verification/BrokerSim.v ===== *)
(** * Resource broker: from the operations to a scheduling core

    Most of a broker operation is bookkeeping (diagnostics, pressure, flags).
    What decides safety is its core: which jobs are active on which targets, the
    reservations, the model registry and the queue. This file defines the core
    equivalence [core_eq], an abstract machine [prim] whose steps are the only
    ways the core can change, and proves that every broker operation is a
    sequence of [prim] steps ([broker_do_prims]). The invariants of the other
    files are then proved once per [prim] step. *)

From S2P Require Import Prelude Text Float Policy BrokerTypes BrokerCore Broker.

#[local] Open Scope Z_scope.

(** ** The operations as one labelled transition function *)

Inductive broker_event {T : Type} :=
| ESubmit (t : T) (job : ResourceJob)
| EPoll (t : T)
| ERefresh (t : T)
| ERegister (spec : ModelResidencySpec)
| EWarm (t : T) (model_id : str)
| ELoaded (t : T) (model_id : str) (measured : MeasuredGpuEnvelope)
| EEvict (model_id : str)
| ECold (model_id : str)
| EQuarantine (model_id : str) (until_ms : Z)
| EClear (t : T) (model_id : str)
| ECancel (t : T) (job_id reason : str)
| EOutput (job_id : str)
| EFinishUtterance (utterance : str)
| EOom (t : T) (job_id : str)
| EDrain
| EFinish (t : T) (job_id : str) (actual : ActualUsage) (measured : bool)
    (status : CompletionStatus).
Arguments broker_event T : clear implicits.

Section sim.
Context `{CancelApi, HashIter, BudgetTelemetry T}.
Context (config : ResourceBrokerConfig).

Definition broker_do (e : broker_event T) (s : BrokerState) : BrokerState :=
  match e with
  | ESubmit t job => (submit config t job s).1
  | EPoll t => (poll_ready config t s).1
  | ERefresh t => (refresh_pressure config t s).1
  | ERegister spec => (register_model_residency spec s).1
  | EWarm t m => (begin_model_warming config t m s).1
  | ELoaded t m measured => (mark_model_loaded config t m measured s).1
  | EEvict m => (begin_model_eviction m s).1
  | ECold m => (mark_model_cold m s).1
  | EQuarantine m until => (quarantine_model_residency m until s).1
  | EClear t m => (clear_model_quarantine t m s).1
  | ECancel t id reason => (cancel config t id reason s).1
  | EOutput id => (mark_output_started id s).1
  | EFinishUtterance u => finish_utterance u s
  | EOom t id => (report_oom config t id s).1
  | EDrain => (drain_diagnostics s).1
  | EFinish t id actual measured status => finish_lease config t id actual measured status s
  end.

(** ** The core of a state *)

Definition jobs (s : BrokerState) : gmap str (ResourceJob * ComputeTarget) :=
  (λ a, (ar_job a, ar_target a)) <$> st_active s.

Definition core_eq (s s' : BrokerState) : Prop :=
  jobs s = jobs s' ∧ st_reservations s = st_reservations s' ∧
  st_residency s = st_residency s' ∧ st_queued s = st_queued s'.

#[export] Instance core_eq_equiv : Equivalence core_eq.
Proof.
  split.
  - done.
  - intros s s' (?&?&?&?). by repeat split.
  - intros s1 s2 s3 (?&?&?&?) (?&?&?&?). repeat split; by etransitivity.
Qed.

#[export] Instance jobs_proper : Proper (core_eq ==> eq) jobs.
Proof. by intros s s' (?&_). Qed.
#[export] Instance st_reservations_proper : Proper (core_eq ==> eq) st_reservations.
Proof. by intros s s' (_&?&_). Qed.
#[export] Instance st_residency_proper : Proper (core_eq ==> eq) st_residency.
Proof. by intros s s' (_&_&?&_). Qed.
#[export] Instance st_queued_proper : Proper (core_eq ==> eq) st_queued.
Proof. by intros s s' (_&_&_&?). Qed.

Definition record_id (r : QueuedRecord) : str := rj_job_id (qr_job r).

Definition queue_ids (s : BrokerState) : list str := record_id <$> st_queued s.

(** No active or queued job has this id. *)
Definition id_fresh (s : BrokerState) (id : str) : Prop :=
  jobs s !! id = None ∧ id ∉ queue_ids s.

(** ** The steps of the core *)

(** The host discipline: a model is registered before any active job names it,
    and its quarantine is cleared only when no job still runs on it. The broker
    itself does not check either ([strict = false] is the machine without the
    two conditions). *)
Context (strict : bool).

(** What the operations do to one residency record. *)
Inductive model_move : ModelResidencyRecord → ModelResidencyRecord → Prop :=
| move_warm r : mr_state r = Cold → model_move r (set_record_state Warming r)
| move_loaded measured r : mr_state r = Warming → model_move r (set_record_loaded measured r)
| move_evict r : mr_state r = Loaded → mr_active_jobs r = 0 →
    model_move r (set_record_state Evicting r)
| move_cold r : mr_state r = Evicting → mr_active_jobs r = 0 →
    model_move r (set_record_state Cold r)
| move_quarantine until r : model_move r (set_record_quarantined until r)
| move_clear r : mr_state r = Quarantined → (strict = true → mr_active_jobs r = 0) →
    model_move r (set_record_quarantine None (set_record_state Cold r)).

Definition model_unused (s : BrokerState) (model_id : str) : Prop :=
  map_Forall (λ _ jt, ct_model_id jt.2 ≠ Some model_id) (jobs s).

Definition disciplined (s : BrokerState) (e : broker_event T) : Prop :=
  match e with
  | ERegister spec => model_unused s (ms_model_id spec)
  | EClear _ m => ∀ r, st_residency s !! m = Some r → mr_active_jobs r = 0
  | _ => True
  end.

(** The byte counts of a target, unsigned in the source. *)
Definition target_wf (t : ComputeTarget) : Prop :=
  0 ≤ re_ram_bytes (ct_estimate t) ∧ 0 ≤ re_vram_resident_bytes (ct_estimate t) ∧
  0 ≤ re_vram_transient_bytes (ct_estimate t).

Definition job_wf (job : ResourceJob) : Prop := Forall target_wf (targets_of job).

Definition event_wf (e : broker_event T) : Prop :=
  match e with ESubmit _ job => job_wf job | _ => True end.

(** The job's privacy context permits running it on [t]. *)
Definition authorized (job : ResourceJob) (t : ComputeTarget) : Prop :=
  (t = rj_primary job ∧ allows (rj_privacy job) (ct_provider t) = true) ∨
  (t ∈ rj_fallbacks job ∧
   allows_fallback (rj_privacy job) (ct_provider (rj_primary job)) (ct_provider t) = true).

(** The steps that keep every active job. *)
Inductive prim : BrokerState → BrokerState → Prop :=
| prim_drop s s' q : q ⊆+ st_queued s → core_eq (set_queued q s) s' → prim s s'
| prim_enqueue s s' r : id_fresh s (record_id r) → job_wf (qr_job r) →
    core_eq (set_queued (st_queued s ++ [r]) s) s' → prim s s'
| prim_admit s s' a : id_fresh s (rj_job_id (ar_job a)) →
    authorized (ar_job a) (ar_target a) → target_wf (ar_target a) →
    residency_available s (ar_job a) (ar_target a) = true →
    core_eq (set_active (<[rj_job_id (ar_job a) := a]> (st_active s))
               (reserve s (ar_job a) (ar_target a))) s' → prim s s'
| prim_register s s' spec : st_residency s !! ms_model_id spec = None →
    (strict = true → model_unused s (ms_model_id spec)) →
    core_eq (set_residency (<[ms_model_id spec := {| mr_spec := spec; mr_state := Cold;
      mr_active_jobs := 0; mr_quarantine_until_ms := None |}]> (st_residency s)) s) s' →
    prim s s'
| prim_model s s' m r r' : st_residency s !! m = Some r → model_move r r' →
    core_eq (set_residency (<[m := r']> (st_residency s)) s) s' → prim s s'.

(** The step that ends one. *)
Inductive done_step : BrokerState → BrokerState → Prop :=
| done_finish s s' id a : st_active s !! id = Some a →
    core_eq (release (set_active (delete id (st_active s)) s) (ar_job a) (ar_target a)) s' →
    done_step s s'.

Notation prims := (rtc prim).

Lemma prim_frame s s' : core_eq s s' → prim s s'.
Proof.
  intros (?&?&?&?). apply (prim_drop _ _ (st_queued s)); [done|]. by repeat split.
Qed.

Lemma prims_frame s s' : core_eq s s' → prims s s'.
Proof. intros. by apply rtc_once, prim_frame. Qed.

(** A step may be taken from a state with the same core. *)
Lemma prims_after s s' s'' : core_eq s s' → prims s' s'' → prims s s''.
Proof. intros Hc Hp. eapply rtc_l; [by apply prim_frame|done]. Qed.

Lemma prims_before s s' s'' : prims s s' → core_eq s' s'' → prims s s''.
Proof. intros Hp Hc. eapply rtc_r; [done|by apply prim_frame]. Qed.

(** ** Bookkeeping leaves the core alone *)

Lemma push_diagnostic_core d s : core_eq s (push_diagnostic config d s).
Proof. done. Qed.

Lemma emit_core now reason s : core_eq s (emit_degradation_locked config now reason s).
Proof. done. Qed.

Lemma escalate_core now reason s : core_eq s (escalate_degradation_locked config now reason s).
Proof. unfold escalate_degradation_locked. by case_match. Qed.

Lemma update_pressure_core snapshot s : core_eq s (update_pressure_locked config snapshot s).
Proof.
  unfold update_pressure_locked, recover_when_green, raise_to_pressure_floor.
  repeat case_match; done.
Qed.

Lemma jobs_insert s id a :
  jobs (set_active (<[id := a]> (st_active s)) s) = <[id := (ar_job a, ar_target a)]> (jobs s).
Proof. unfold jobs. cbn. by rewrite fmap_insert. Qed.

Lemma jobs_lookup s id a :
  st_active s !! id = Some a → jobs s !! id = Some (ar_job a, ar_target a).
Proof. intros Ha. unfold jobs. by rewrite lookup_fmap, Ha. Qed.

Lemma jobs_lookup_inv s id jt :
  jobs s !! id = Some jt → ∃ a, st_active s !! id = Some a ∧ jt = (ar_job a, ar_target a).
Proof. unfold jobs. rewrite lookup_fmap, fmap_Some. done. Qed.

(** Replacing an active record by one for the same job on the same target. *)
Lemma set_active_core s id a a' :
  jobs s !! id = Some (ar_job a, ar_target a) → ar_job a' = ar_job a →
  ar_target a' = ar_target a →
  core_eq s (set_active (<[id := a']> (st_active s)) s).
Proof.
  intros Ha Hj Ht. split; [|done]. rewrite jobs_insert, Hj, Ht. by rewrite insert_id.
Qed.

Lemma expire_entries_core now entries s expired :
  Forall (λ e, jobs s !! e.1 = Some (ar_job e.2, ar_target e.2)) entries →
  core_eq s (foldl (expire_entry now) (s, expired) entries).1.
Proof.
  revert s expired. induction entries as [|[id a] entries IH]; [done|].
  intros s expired [Ha Hall]%Forall_cons. cbn in Ha |- *. case_match eqn:E; [|by apply IH].
  assert (core_eq s (set_active (<[id := set_cancelled_by_broker a]> (st_active s)) s)) as Hc
    by by apply (set_active_core s id a).
  transitivity (set_cells (ct_cancel (ar_cancellation a) (st_cells s))
      (set_active (<[id := set_cancelled_by_broker a]> (st_active s)) s)); [exact Hc|].
  apply IH. destruct Hc as [Hj _]. unfold jobs in Hj |- *. cbn in Hj |- *. by rewrite <-Hj.
Qed.

Lemma hm_iter_lookup {A} (m : gmap str A) k a : (k, a) ∈ hm_iter m ↔ m !! k = Some a.
Proof. by rewrite hm_iter_perm, elem_of_map_to_list. Qed.

Lemma foldl_push_core {B} (f : BrokerState → B → BrokerDiagnostic) l s :
  core_eq s (foldl (λ s x, push_diagnostic config (f s x) s) s l).
Proof.
  revert s. induction l as [|x l IH]; intros s; [done|].
  etransitivity; [apply (push_diagnostic_core (f s x))|]. apply IH.
Qed.

Lemma expire_core now s : core_eq s (expire_transient_overages_locked config now s).
Proof.
  unfold expire_transient_overages_locked.
  pose proof (expire_entries_core now (hm_iter (st_active s)) s []) as Hc.
  destruct (foldl _ _ _) as [s' expired]. cbn in Hc. etransitivity; [apply Hc|].
  - apply Forall_forall. intros [id a] Hin. apply jobs_lookup. by apply hm_iter_lookup.
  - apply (foldl_push_core (λ _ id, CancellationRequested _ id _)).
Qed.

Lemma refresh_core snapshot accounted s : core_eq s (refresh config snapshot accounted s).
Proof.
  unfold refresh. etransitivity; [|apply update_pressure_core].
  etransitivity; [|apply expire_core]. done.
Qed.

(** [reserve] and [release] only move the reservations and the registry. *)
Lemma reserve_active s job t : st_active (reserve s job t) = st_active s.
Proof. unfold reserve. by case_match. Qed.
Lemma reserve_queued s job t : st_queued (reserve s job t) = st_queued s.
Proof. unfold reserve. by case_match. Qed.
Lemma release_active s job t : st_active (release s job t) = st_active s.
Proof. unfold release. by case_match. Qed.
Lemma release_queued s job t : st_queued (release s job t) = st_queued s.
Proof. unfold release. by case_match. Qed.

Lemma is_none_iff {A} (o : option A) : is_none o = true ↔ o = None.
Proof. by destruct o. Qed.

#[export] Instance residency_available_proper :
  Proper (core_eq ==> eq ==> eq ==> eq) residency_available.
Proof.
  intros s s' (_&Hr&Hm&_) ? job -> ? t ->. unfold residency_available. by rewrite Hr, Hm.
Qed.

#[export] Instance id_fresh_proper : Proper (core_eq ==> eq ==> iff) id_fresh.
Proof. intros s s' (Hj&_&_&Hq) ? id ->. unfold id_fresh, queue_ids. by rewrite Hj, Hq. Qed.

Lemma jobs_none s id : jobs s !! id = None ↔ st_active s !! id = None.
Proof. unfold jobs. by rewrite lookup_fmap, fmap_None. Qed.

(** ** Admission *)

Lemma select_target_Some s snapshot job fb t o :
  select_target_locked config s snapshot job fb = Some (t, o) →
  (t, o) ∈ selection_candidates job ∧
  candidate_selectable config s snapshot job fb (t, o) = true.
Proof. intros [Hin Hs]%List.find_some. by rewrite list_elem_of_In. Qed.

(** The conditions one by one. *)
Lemma candidate_selectable_inv s snapshot job t o :
  candidate_selectable config s snapshot job true (t, o) = true →
  (∀ bound, bound_target_of s job = Some bound → bound = ct_target_id t) ∧
  (if bool_decide (o = AdmittedPrimary) then allows (rj_privacy job) (ct_provider t)
   else allows_fallback (rj_privacy job) (ct_provider (rj_primary job)) (ct_provider t)) = true ∧
  is_target_quarantined s (ct_target_id t) (bs_monotonic_ms snapshot) = false ∧
  target_fits config s snapshot t = true ∧ residency_available s job t = true.
Proof.
  unfold candidate_selectable. rewrite andb_false_r.
  destruct (is_some_and _ _) eqn:Eb; [done|].
  rewrite negb_true_iff, !orb_false_iff, !negb_false_iff. intros [[[-> ->] ->] ->].
  split; [|done]. intros bound Hb. rewrite Hb in Eb. cbn in Eb.
  by apply negb_false_iff, bool_decide_eq_true in Eb.
Qed.

Lemma select_target_available s snapshot job t o :
  select_target_locked config s snapshot job true = Some (t, o) →
  residency_available s job t = true.
Proof. by intros [_ (_&_&_&_&?)%candidate_selectable_inv]%select_target_Some. Qed.

Lemma reserve_cells cells s job t :
  reserve (set_cells cells s) job t = set_cells cells (reserve s job t).
Proof.
  unfold reserve.
  change (registered_model_for_target (set_cells cells s) t)
    with (registered_model_for_target s t).
  by destruct (registered_model_for_target s t).
Qed.

Lemma select_target_authorized s snapshot job t o :
  select_target_locked config s snapshot job true = Some (t, o) → authorized job t.
Proof.
  intros [Hin (_&Hp&_)%candidate_selectable_inv]%select_target_Some.
  unfold selection_candidates in Hin. apply elem_of_cons in Hin as [?|Hin].
  - simplify_eq. left. by rewrite bool_decide_true in Hp.
  - apply list_elem_of_fmap in Hin as (t'&?&Hin). simplify_eq. right.
    by rewrite bool_decide_false in Hp.
Qed.

Lemma authorized_target job t : authorized job t → t ∈ targets_of job.
Proof. intros [[-> _]|[Hin _]]; [by left|by right]. Qed.

Lemma select_target_wf s snapshot job t o :
  job_wf job → select_target_locked config s snapshot job true = Some (t, o) → target_wf t.
Proof.
  intros Hw Ht%select_target_authorized%authorized_target.
  by apply (Forall_forall target_wf (targets_of job)).
Qed.

(** The record that an admission inserts. *)
Lemma admit_locked_core snapshot job t o s : ∃ a,
  ar_job a = job ∧ ar_target a = t ∧
  core_eq (set_active (<[rj_job_id job := a]> (st_active s)) (reserve s job t))
          (admit_locked config snapshot job t o s).1.
Proof.
  unfold admit_locked. destruct (ct_new (st_cells s)) as [c cells]. cbn [fst].
  eexists. split; [|split]; [..|etransitivity; [|apply push_diagnostic_core]].
  3: { rewrite reserve_cells. split; [|done].
       unfold jobs. cbn. rewrite reserve_active. reflexivity. }
  all: done.
Qed.

Lemma admit_locked_prim snapshot job t o s :
  id_fresh s (rj_job_id job) → authorized job t → target_wf t → residency_available s job t = true →
  prim s (admit_locked config snapshot job t o s).1.
Proof.
  intros Hf Hau Hw Hr. destruct (admit_locked_core snapshot job t o s) as (a&<-&<-&Hc).
  by apply prim_admit with a.
Qed.

Lemma core_eq_jobs s s' : core_eq s s' → jobs s' = jobs s.
Proof. by intros (->&_). Qed.
Lemma core_eq_queue_ids s s' : core_eq s s' → queue_ids s' = queue_ids s.
Proof. intros (_&_&_&Hq). unfold queue_ids. by rewrite Hq. Qed.

Lemma jobs_set_active_reserve s id a job t :
  jobs (set_active (<[id := a]> (st_active s)) (reserve s job t)) =
  <[id := (ar_job a, ar_target a)]> (jobs s).
Proof. unfold jobs. cbn. by rewrite fmap_insert. Qed.

Lemma admit_locked_jobs snapshot job t o s :
  jobs (admit_locked config snapshot job t o s).1 = <[rj_job_id job := (job, t)]> (jobs s) ∧
  st_queued (admit_locked config snapshot job t o s).1 = st_queued s.
Proof.
  destruct (admit_locked_core snapshot job t o s) as (a&Hj&Ht&(Hc&_&_&Hq)).
  rewrite <-Hc, <-Hq, jobs_set_active_reserve, Hj, Ht. split; [done|].
  cbn. apply reserve_queued.
Qed.

(** ** Submission *)

Lemma superseded_sublist key s :
  List.filter (λ queued, negb (superseded_by key queued)) (st_queued s) ⊆+ st_queued s.
Proof.
  apply sublist_submseteq. induction (st_queued s) as [|r l IH]; [constructor|]. cbn.
  case_match; by constructor.
Qed.

Lemma supersede_prims snapshot job s :
  prims s (supersede_queued config snapshot job s) ∧
  jobs (supersede_queued config snapshot job s) = jobs s ∧
  st_queued (supersede_queued config snapshot job s) ⊆+ st_queued s.
Proof.
  unfold supersede_queued. destruct (rj_drop_policy job) as [| | | |key]; try done.
  set (q := List.filter (λ queued, negb (superseded_by key queued)) (st_queued s)).
  pose proof (superseded_sublist key s) as Hq. fold q in Hq.
  pose proof (foldl_push_core
    (λ state old, Admission (admission_diagnostic config snapshot state (qr_job old)
       DroppedStale None (lit "superseded by a newer coalesced job")))
    (List.filter (superseded_by key) (st_queued s)) (set_queued q s)) as Hc.
  unfold push_admission. split.
  - by apply rtc_once, (prim_drop _ _ q).
  - destruct Hc as (<-&_&_&<-). done.
Qed.

Lemma rejected_core snapshot job o reason s :
  core_eq s (rejected_submission config snapshot job o reason s).1.
Proof. done. Qed.

Lemma drop_before_core snapshot job s r :
  drop_before_admission config snapshot job s = Some r → core_eq s r.1.
Proof. unfold drop_before_admission. intros. repeat case_match; simplify_eq; done. Qed.

Lemma enqueue_prims snapshot job s :
  id_fresh s (rj_job_id job) → job_wf job → prims s (enqueue config snapshot job s).1.
Proof.
  intros Hf Hw. unfold enqueue. set (s1 := escalate_degradation_locked _ _ _ _).
  assert (core_eq s s1) as Hc by apply escalate_core.
  eapply prims_after; [exact Hc|]. apply rtc_once.
  eapply (prim_enqueue s1 _ {| qr_job := job |}); [by rewrite <-Hc|done..].
Qed.

Lemma id_in_use_fresh s id : id_in_use s id = false → id_fresh s id.
Proof.
  unfold id_in_use. intros [Ha Hq]%orb_false_iff. split.
  - apply jobs_none. by destruct (st_active s !! id).
  - unfold queue_ids. intros (r&->&Hin)%list_elem_of_fmap.
    apply not_true_iff_false in Hq. apply Hq, existsb_exists. exists r.
    rewrite <-list_elem_of_In. split; [done|]. by apply bool_decide_eq_true.
Qed.

Lemma id_fresh_submseteq s s' id :
  jobs s' = jobs s → st_queued s' ⊆+ st_queued s → id_fresh s id → id_fresh s' id.
Proof.
  intros Hj Hq [Hf1 Hf2]. split; [by rewrite Hj|]. intros Hin. apply Hf2.
  unfold queue_ids in *. eapply elem_of_submseteq; [done|]. by apply fmap_submseteq.
Qed.

Lemma submit_locked_prims snapshot accounted job s :
  job_wf job → prims s (submit_locked config snapshot accounted job s).1.
Proof.
  intros Hw. unfold submit_locked. set (s1 := refresh _ _ _ _).
  eapply prims_after; [apply (refresh_core snapshot accounted)|]. fold s1.
  destruct (id_in_use s1 _) eqn:Hf; [apply prims_frame, rejected_core|].
  apply id_in_use_fresh in Hf.
  destruct (drop_before_admission _ _ _ _) eqn:Ed.
  { by eapply prims_frame, drop_before_core. }
  destruct (supersede_prims snapshot job s1) as (Hp&Hj&Hq).
  set (s2 := supersede_queued _ _ _ _) in *.
  assert (id_fresh s2 (rj_job_id job)) as Hf2 by by apply (id_fresh_submseteq s1).
  etransitivity; [exact Hp|].
  destruct (select_target_locked _ _ _ _ _) as [[t o]|] eqn:Es.
  { apply rtc_once, admit_locked_prim; [done|by eapply select_target_authorized|by eapply select_target_wf|].
    by eapply select_target_available. }
  destruct (terminal_rejection _ _ _) as [[o reason]|]; [apply prims_frame, rejected_core|].
  destruct (rj_drop_policy job); try by apply enqueue_prims.
  - case_match; [apply prims_frame, rejected_core|]. by apply enqueue_prims.
  - apply prims_frame, rejected_core.
Qed.

(** ** Polling *)

(** The ids of the queue, and of [pending] jobs taken out of it, are distinct
    and none of them is active. *)
Definition pending_ok (s : BrokerState) (pending : list str) : Prop :=
  NoDup (pending ++ queue_ids s) ∧ Forall (λ id, jobs s !! id = None) (pending ++ queue_ids s).

Definition queue_ok (s : BrokerState) : Prop :=
  pending_ok s [] ∧ Forall (λ r, job_wf (qr_job r)) (st_queued s).

#[export] Instance pending_ok_proper : Proper (core_eq ==> eq ==> iff) pending_ok.
Proof.
  intros s s' Hc ? l ->. unfold pending_ok.
  by rewrite (core_eq_jobs s s'), (core_eq_queue_ids s s').
Qed.

Lemma pending_ok_head s id l : pending_ok s (id :: l) → id_fresh s id ∧ pending_ok s l.
Proof.
  intros [[Hid Hnd]%NoDup_cons [Hj Hall]%Forall_cons].
  rewrite elem_of_app in Hid. by split; split; auto.
Qed.

Lemma poll_one_prims snapshot s leases r pending :
  pending_ok s (record_id r :: pending) → job_wf (qr_job r) →
  prims s (poll_one config snapshot (s, leases) r).1 ∧
  pending_ok (poll_one config snapshot (s, leases) r).1 pending.
Proof.
  intros Hok Hw. pose proof (pending_ok_head _ _ _ Hok) as [Hf Hok'].
  unfold poll_one. do 2 (case_match; [split; [by apply prims_frame|exact Hok']|]).
  destruct (select_target_locked _ _ _ _ _) as [[t o]|] eqn:Es.
  - pose proof (admit_locked_prim snapshot (qr_job r) t o s Hf
      (select_target_authorized _ _ _ _ _ Es) (select_target_wf _ _ _ _ _ Hw Es) (select_target_available _ _ _ _ _ Es)) as Hp.
    pose proof (admit_locked_jobs snapshot (qr_job r) t o s) as [Hj Hq].
    destruct (admit_locked _ _ _ _ _ _) as [s' sub]. cbn in Hp, Hj, Hq |- *. split.
    + by apply rtc_once.
    + destruct Hok as [[Hid Hnd]%NoDup_cons _], Hok' as [_ Hall].
      unfold pending_ok, queue_ids in *. rewrite Hq, Hj. split; [done|].
      apply Forall_forall. intros id Hin.
      rewrite lookup_insert_ne by (intros <-; done).
      by apply (Forall_forall (λ id, jobs s !! id = None) _) in Hin.
  - split; [by apply rtc_once, prim_enqueue with r|].
    destruct Hok as [Hnd Hall]. unfold pending_ok, queue_ids in *. cbn in *.
    assert (pending ++ ((record_id <$> st_queued s) ++ [record_id r])
            ≡ₚ record_id r :: pending ++ (record_id <$> st_queued s)) as Hp
      by (rewrite app_assoc; symmetry; apply Permutation_cons_append).
    change (st_queued (set_queued (st_queued s ++ [r]) s)) with (st_queued s ++ [r]).
    rewrite fmap_app. change (record_id <$> [r]) with [record_id r]. rewrite Hp. by split.
Qed.

Lemma poll_fold_prims snapshot l s leases :
  pending_ok s (record_id <$> l) → Forall (λ r, job_wf (qr_job r)) l →
  prims s (foldl (poll_one config snapshot) (s, leases) l).1.
Proof.
  revert s leases. induction l as [|r l IH]; intros s leases Hok Hw; [done|].
  apply Forall_cons in Hw as [Hr Hw].
  destruct (poll_one_prims snapshot s leases r _ Hok Hr) as [Hp Hok'].
  cbn [foldl]. destruct (poll_one _ _ _ _) as [s' leases'].
  etransitivity; [exact Hp|]. by apply IH.
Qed.

(** Taking the queue out makes all of it pending. *)
Lemma pending_ok_take s q :
  q ≡ₚ st_queued s → pending_ok s [] → pending_ok (set_queued [] s) (record_id <$> q).
Proof.
  unfold pending_ok, queue_ids. cbn. intros ->. by rewrite (right_id_L [] (++)).
Qed.

Lemma poll_locked_prims snapshot accounted s :
  queue_ok s → prims s (poll_locked config snapshot accounted s).1.
Proof.
  intros [Hok Hw]. unfold poll_locked. set (s1 := refresh _ _ _ _).
  pose proof (refresh_core snapshot accounted s) as Hc. fold s1 in Hc.
  eapply prims_after; [exact Hc|].
  etransitivity; [|apply poll_fold_prims; [apply pending_ok_take|]].
  - apply rtc_once, prim_drop with []; [apply submseteq_nil_l|done].
  - apply sort_by_perm.
  - by rewrite <-Hc.
  - rewrite sort_by_perm. by destruct Hc as (_&_&_&<-).
Qed.

(** ** Model residency *)

Lemma update_record_prim s m r f :
  st_residency s !! m = Some r → model_move r (f r) → prim s (update_record m f s).
Proof.
  intros Hr Hm. eapply prim_model; [done..|]. unfold update_record.
  by erewrite alter_Some by done.
Qed.

Lemma register_prims spec s :
  (strict = true → model_unused s (ms_model_id spec)) →
  prims s (register_model_residency spec s).1.
Proof.
  intros Hd.
  unfold register_model_residency. repeat (case_match; [done|]).
  case_match; [|done]. case_match eqn:E; [done|].
  apply orb_false_iff in E as [E _]. cbn. apply rtc_once, prim_register with spec; [|done..].
  by destruct (st_residency s !! ms_model_id spec).
Qed.

Lemma warm_prims t m s : prims s (begin_model_warming config t m s).1.
Proof.
  unfold begin_model_warming. destruct (readings t) as [[sn acc]|]; [|done].
  destruct (st_residency s !! m) as [r|] eqn:Hr; [|done].
  case_bool_decide; [|done]. cbn. case_match; [done|]. cbn.
  eapply rtc_once, update_record_prim; [done|]. by constructor.
Qed.

Lemma loaded_prims t m measured s : prims s (mark_model_loaded config t m measured s).1.
Proof.
  unfold mark_model_loaded. destruct (_ ≫= _) as [[[me sn] acc]|]; [|done].
  set (s1 := set_telemetry_accounted acc s). apply (prims_after s s1); [done|]. cbn.
  destruct (st_residency s !! m) as [r|] eqn:Hr; [|done].
  case_bool_decide; [|done]. cbn. case_match; [done|]. cbn.
  eapply rtc_once, update_record_prim; [exact Hr|]. by constructor.
Qed.

Lemma idle_prims m from to s :
  (∀ r, mr_state r = from → mr_active_jobs r = 0 → model_move r (set_record_state to r)) →
  prims s (transition_idle_model m from to s).1.
Proof.
  intros Hm. unfold transition_idle_model. destruct (st_residency s !! m) as [r|] eqn:Hr; [|done].
  case_bool_decide; [|done]. destruct (mr_active_jobs r =? 0) eqn:Ha; [|done]. cbn.
  eapply rtc_once, update_record_prim; [done|]. apply Hm; [done|lia].
Qed.

Lemma clear_prims t m s :
  (strict = true → disciplined s (EClear t m)) → prims s (clear_model_quarantine t m s).1.
Proof.
  intros Hd. unfold clear_model_quarantine. destruct (_ ≫= _) as [sn|]; [|done].
  destruct (st_residency s !! m) as [r|] eqn:Hr; [|done].
  case_bool_decide; [|done]. cbn. case_match; [done|]. cbn.
  eapply rtc_once, update_record_prim; [done|]. constructor; [done|].
  intros Hs. by apply (Hd Hs).
Qed.

Lemma quarantine_prims m until s : prims s (update_record m (set_record_quarantined until) s).
Proof.
  destruct (st_residency s !! m) as [r|] eqn:Hr.
  - eapply rtc_once, update_record_prim; [done|]. constructor.
  - unfold update_record. unfold update_record. rewrite alter_None by done. by apply prims_frame.
Qed.

(** ** Active jobs *)

Lemma remove_queued_perm id l q rest :
  remove_queued id l = Some (q, rest) → l ≡ₚ q :: rest ∧ record_id q = id.
Proof.
  revert q rest. induction l as [|r l IH]; intros q rest; cbn; [done|].
  case_bool_decide as Hr; [intros; by simplify_eq|].
  destruct (remove_queued id l) as [[q' rest']|] eqn:E; cbn; [|done].
  intros; simplify_eq. destruct (IH _ _ eq_refl) as [-> <-]. split; [|done].
  apply Permutation_swap.
Qed.

Lemma cancel_prims t id reason s : prims s (cancel config t id reason s).1.
Proof.
  unfold cancel. destruct (telemetry_snapshot t) as [sn|]; [|done].
  destruct (remove_queued id _) as [[q rest]|] eqn:Eq.
  - apply remove_queued_perm in Eq as [Hp _]. cbn. apply rtc_once, prim_drop with rest; [|done].
    rewrite Hp. by apply submseteq_cons.
  - destruct (st_active s !! id) as [a|] eqn:Ha; [|done]. cbn. apply prims_frame.
    apply (set_active_core s id a); [by apply jobs_lookup|done..].
Qed.

Lemma output_prims id s : prims s (mark_output_started id s).1.
Proof.
  unfold mark_output_started. destruct (st_active s !! id) as [a|] eqn:Ha; [|done].
  assert (core_eq s (set_active (<[id := set_output_started a]> (st_active s)) s))
    by (apply (set_active_core s id a); [by apply jobs_lookup|done..]).
  by case_match; apply prims_frame.
Qed.

Lemma oom_prims sn acc id s : prims s (report_oom_locked config sn acc id s).1.
Proof.
  unfold report_oom_locked. cbn [st_active set_telemetry_accounted].
  destruct (st_active s !! id) as [a|] eqn:Ha; [|by apply prims_frame].
  case_match; [by apply prims_frame|]. cbn [fst]. unfold quarantine_after_oom.
  eapply prims_before; [|apply push_diagnostic_core].
  destruct (ct_model_id (ar_target a)) as [m|]; [|by apply prims_frame].
  eapply prims_after; [|apply quarantine_prims]. done.
Qed.

Lemma finish_done t id actual measured status s :
  finish_lease config t id actual measured status s = s ∨
  done_step s (finish_lease config t id actual measured status s).
Proof.
  unfold finish_lease. destruct (st_active s !! id) as [a|] eqn:Ha; [right|by left].
  apply done_finish with id a; [done|].
  etransitivity; [|apply push_diagnostic_core]. by case_match.
Qed.

(** Every operation is a sequence of steps of the core. *)
Lemma broker_do_prims e s :
  queue_ok s → event_wf e → (strict = true → disciplined s e) →
  prims s (broker_do e s) ∨ done_step s (broker_do e s).
Proof.
  intros Hok Hw Hd. destruct e; cbn.
  16: { destruct (finish_done t job_id actual measured status s) as [->|]; [by left|by right]. }
  all: left.
  - unfold submit. destruct (_ ≫= _) as [[sn acc]|]; [|done].
    pose proof (submit_locked_prims sn acc job s Hw) as Hp.
    by destruct (submit_locked _ _ _ _ _).
  - unfold poll_ready. destruct (readings t) as [[sn acc]|]; [|done].
    pose proof (poll_locked_prims sn acc s Hok). by destruct (poll_locked _ _ _ _).
  - unfold refresh_pressure. destruct (readings t) as [[sn acc]|]; [|done].
    apply prims_frame, refresh_core.
  - by apply register_prims, Hd.
  - apply warm_prims.
  - apply loaded_prims.
  - apply idle_prims. by constructor.
  - apply idle_prims. by constructor.
  - unfold quarantine_model_residency. case_match; [|done]. apply quarantine_prims.
  - by apply clear_prims.
  - apply cancel_prims.
  - apply output_prims.
  - by apply prims_frame.
  - unfold report_oom. destruct (readings t) as [[sn acc]|]; [|done].
    pose proof (oom_prims sn acc job_id s). by destruct (report_oom_locked _ _ _ _ _).
  - by apply prims_frame.
Qed.
End sim.

Notation prims strict := (rtc (prim strict)).
