(* ===== verification/BrokerInv.v ===== *)
(** * Resource broker: invariants of the scheduling core

    The invariants of the core, proved once per step of [prim] and [done_step]
    and carried to every reachable state of the broker:
    - [queue_ok]: job ids are unique across the queue and the active jobs;
    - [locks_ok]: the GPU counters and slots say exactly who holds what;
    - [ledger_ok]: the reservations are the sum of what the active jobs hold and
      each model record counts its jobs (for a disciplined host).

    The counters and slots of [Reservations] are a readers-writer lock on the GPU and a
    mutex on the foreground turn, which the second half shows. *)

From S2P Require Import Prelude Text Float Policy BrokerTypes BrokerCore Broker BrokerSim.

#[local] Open Scope Z_scope.

Section inv.
Context `{CancelApi, HashIter, BudgetTelemetry T}.
Context (config : ResourceBrokerConfig) (strict : bool).

Notation prim := (prim strict).
Notation prims := (rtc prim).

(** ** Reachable states *)

(** A counter at the top of its type may have lost an addition: the invariants
    that count are stated for runs whose counters stay below it. *)
Definition unsaturated (s : BrokerState) : Prop :=
  Z.of_nat (size (st_active s)) ≤ u32_max ∧
  rs_ram_bytes (st_reservations s) < u64_max ∧
  rs_vram_resident_bytes (st_reservations s) < u64_max ∧
  rs_vram_transient_bytes (st_reservations s) < u64_max.

Inductive reachable : BrokerState → Prop :=
| reach_init : reachable broker_state_default
| reach_step s e : reachable s → event_wf e → (strict = true → disciplined s e) →
    unsaturated (broker_do config e s) → reachable (broker_do config e s).

(** ** Steps keep the active jobs *)

Lemma core_eq_sub s s' : core_eq s s' → jobs s' = jobs s ∧ queue_ids s' = queue_ids s.
Proof. intros Hc. split; [by apply core_eq_jobs|by apply core_eq_queue_ids]. Qed.

Lemma prim_grows s s' : prim s s' → jobs s ⊆ jobs s'.
Proof.
  destruct 1 as [?? q _ [<- _]|??? _ _ [<- _]|??? [Hf _] _ _ _ [<- _]|??? _ _ [<- _]
                |????? _ _ [<- _]]; try done.
  rewrite jobs_set_active_reserve. by apply insert_subseteq.
Qed.

Lemma prims_grow s s' : prims s s' → jobs s ⊆ jobs s'.
Proof. induction 1 as [|??? Hp _ IH]; [done|]. etransitivity; [by apply prim_grows|done]. Qed.

Lemma size_jobs s : size (jobs s) = size (st_active s).
Proof. unfold jobs. apply map_size_fmap. Qed.

(** ** Queue *)

Lemma pending_ok_submseteq s s' l :
  jobs s' = jobs s → st_queued s' ⊆+ st_queued s → pending_ok s l → pending_ok s' l.
Proof.
  intros Hj Hq [Hnd Hall].
  assert (l ++ queue_ids s' ⊆+ l ++ queue_ids s) as Hsub.
  { apply submseteq_app; [done|]. by apply fmap_submseteq. }
  apply submseteq_Permutation in Hsub as [k Hk]. unfold pending_ok.
  rewrite Hk in Hnd, Hall. apply NoDup_app in Hnd as [Hnd _].
  apply Forall_app in Hall as [Hall _]. by rewrite Hj.
Qed.

#[export] Instance queue_ok_proper : Proper (core_eq ==> iff) queue_ok.
Proof.
  intros s s' Hc. unfold queue_ok. by rewrite Hc.
Qed.

Lemma queue_ok_prim s s' : prim s s' → queue_ok s → queue_ok s'.
Proof.
  intros Hp [Hok Hw]. destruct Hp as [s s' q Hq Hc|s s' r [Hj Hf] Hr Hc|s s' a [Hj Hf] Hau Ht Ha Hc
    |s s' spec Hn Hd Hc|s s' m r r' Hr Hm Hc].
  - rewrite <-Hc. split.
    + by apply (pending_ok_submseteq s).
    + apply Forall_forall. intros r Hin. rewrite Forall_forall in Hw.
      apply Hw. by eapply elem_of_submseteq.
  - rewrite <-Hc. split.
    + destruct Hok as [Hnd Hall]. unfold pending_ok, queue_ids in *.
      change (st_queued (set_queued (st_queued s ++ [r]) s)) with (st_queued s ++ [r]).
      assert ([] ++ (record_id <$> st_queued s ++ [r]) ≡ₚ record_id r :: (record_id <$> st_queued s))
        as -> by (rewrite fmap_app; symmetry; apply Permutation_cons_append).
      split; by constructor.
    + cbn. apply Forall_app. split; [done|]. by apply Forall_singleton.
  - rewrite <-Hc. unfold queue_ok.
    assert (st_queued (set_active (<[rj_job_id (ar_job a):=a]> (st_active s))
       (reserve s (ar_job a) (ar_target a))) = st_queued s) as Hq by apply reserve_queued.
    rewrite Hq. split; [|done]. destruct Hok as [Hnd Hall].
    unfold pending_ok, queue_ids. rewrite Hq, jobs_set_active_reserve. split; [done|].
    apply Forall_forall. intros id Hin. rewrite Forall_forall in Hall.
    rewrite lookup_insert_ne; [by apply Hall|]. by intros <-.
  - by rewrite <-Hc.
  - by rewrite <-Hc.
Qed.

Lemma jobs_release s id job t :
  jobs (release (set_active (delete id (st_active s)) s) job t) = delete id (jobs s).
Proof. unfold jobs. rewrite release_active. cbn. by rewrite fmap_delete. Qed.

Lemma queue_ok_done s s' : done_step s s' → queue_ok s → queue_ok s'.
Proof.
  intros Hd [Hok Hw]. destruct Hd as [s s' id a Ha Hc].
  rewrite <-Hc. unfold queue_ok. rewrite release_queued. cbn.
  split; [|done]. destruct Hok as [Hnd Hall].
  unfold pending_ok, queue_ids. rewrite release_queued, jobs_release. split; [done|].
  eapply Forall_impl; [exact Hall|]. intros i Hi. cbn in Hi. by apply lookup_delete_None; right.
Qed.

Lemma queue_ok_init : queue_ok broker_state_default.
Proof. repeat split; constructor. Qed.

(** ** The rule of the invariants *)

Lemma queue_ok_step e s :
  queue_ok s → event_wf e → (strict = true → disciplined s e) → queue_ok (broker_do config e s).
Proof.
  intros Hq Hw Hd. destruct (broker_do_prims config strict e s Hq Hw Hd) as [Hp|Hf].
  - clear Hw Hd. induction Hp as [|??? Hp _ IH]; [done|]. by eapply IH, queue_ok_prim.
  - by eapply queue_ok_done.
Qed.

Lemma reachable_queue_ok s : reachable s → queue_ok s.
Proof. induction 1; [apply queue_ok_init|by apply queue_ok_step]. Qed.

(** [reserve] on a state whose counters do not saturate. *)
Lemma reserve_reservations_le s job t :
  target_wf t →
  rs_ram_bytes (st_reservations (reserve s job t)) < u64_max →
  rs_vram_resident_bytes (st_reservations (reserve s job t)) < u64_max →
  rs_vram_transient_bytes (st_reservations (reserve s job t)) < u64_max →
  rs_ram_bytes (st_reservations s) < u64_max ∧
  rs_vram_resident_bytes (st_reservations s) < u64_max ∧
  rs_vram_transient_bytes (st_reservations s) < u64_max.
Proof.
  intros (?&?&?).
  assert (∀ f, f = reserve s job t →
    let e := default (ct_estimate t) (effective_job_estimate s t) in
    rs_ram_bytes (st_reservations f) = sat_add64 (rs_ram_bytes (st_reservations s)) (re_ram_bytes e) ∧
    rs_vram_resident_bytes (st_reservations f) =
      sat_add64 (rs_vram_resident_bytes (st_reservations s)) (re_vram_resident_bytes e) ∧
    rs_vram_transient_bytes (st_reservations f) =
      sat_add64 (rs_vram_transient_bytes (st_reservations s)) (re_vram_transient_bytes e)) as Hf.
  { intros f ->. unfold reserve. by case_match. }
  destruct (Hf _ eq_refl) as (->&->&->).
  assert (0 ≤ re_ram_bytes (default (ct_estimate t) (effective_job_estimate s t)) ∧
    0 ≤ re_vram_resident_bytes (default (ct_estimate t) (effective_job_estimate s t)) ∧
    0 ≤ re_vram_transient_bytes (default (ct_estimate t) (effective_job_estimate s t))).
  { unfold effective_job_estimate. repeat case_match; cbn; lia. }
  unfold sat_add64. lia.
Qed.

Lemma unsaturated_back s s' : prim s s' → unsaturated s' → unsaturated s.
Proof.
  intros Hp (Hs&Hr). apply prim_grows in Hp as Hsub.
  assert (size (jobs s) ≤ size (jobs s'))%nat as Hle by by apply map_subseteq_size.
  rewrite !size_jobs in Hle. split; [lia|]. clear Hs Hle Hsub.
  destruct Hp as [??? _ (_&Eq&_)|??? _ _ (_&Eq&_)|??? _ _ Ht _ (_&Eq&_)|??? _ _ (_&Eq&_)
                 |????? _ _ (_&Eq&_)]; rewrite <-Eq in Hr; try done.
  cbn in Hr. destruct Hr as (?&?&?). by eapply reserve_reservations_le.
Qed.

Lemma prims_unsaturated s s' : prims s s' → unsaturated s' → unsaturated s.
Proof. induction 1; [done|]. intros. eapply unsaturated_back; eauto. Qed.

Lemma reachable_unsaturated s : reachable s → unsaturated s.
Proof. destruct 1; [done|done]. Qed.

Lemma prims_invariant (I : BrokerState → Prop) s s' :
  (∀ s s', prim s s' → unsaturated s' → queue_ok s → I s → I s') →
  prims s s' → unsaturated s' → queue_ok s → I s → I s'.
Proof.
  intros Hstep. induction 1 as [|s1 s2 s3 Hp Hps IH]; [done|].
  intros Hu Hq HI. pose proof (prims_unsaturated _ _ Hps Hu).
  apply IH; [done|by eapply queue_ok_prim|by eapply Hstep].
Qed.

Lemma reachable_invariant (I : BrokerState → Prop) :
  I broker_state_default →
  (∀ s s', prim s s' → unsaturated s' → queue_ok s → I s → I s') →
  (∀ s s', done_step s s' → unsaturated s → queue_ok s → I s → I s') →
  ∀ s, reachable s → I s.
Proof.
  intros Hi Hp Hd. induction 1 as [|s e Hr IH Hw He Hu]; [done|].
  pose proof (reachable_queue_ok s Hr) as Hq.
  destruct (broker_do_prims config strict e s Hq Hw He) as [Hs|Hs].
  - by eapply prims_invariant.
  - eapply Hd; eauto using reachable_unsaturated.
Qed.
End inv.

(** * Resource broker: the GPU lock and the foreground slot

    The counters and slots of [Reservations] implement a readers-writer lock on
    the GPU and a mutex on the foreground turn. [locks_ok] says that they always
    describe the active jobs exactly. *)

#[local] Open Scope Z_scope.

Section locks.
Context `{CancelApi, HashIter, BudgetTelemetry T}.
Context (config : ResourceBrokerConfig) (strict : bool).

Notation prim := (prim strict).
Notation grant := (ResourceJob * ComputeTarget)%type.

Definition gpu_unit (g : grant) : Z :=
  if bool_decide (ct_gpu_residency g.2 ≠ GpuNone) then 1 else 0.

Definition is_exclusive (g : grant) : Prop := ct_gpu_residency g.2 = GpuExclusive.
Definition is_foreground (g : grant) : Prop := holds_foreground_turn_slot (rj_kind g.1) = true.

Record locks_ok (s : BrokerState) : Prop := {
  lk_ids : map_Forall (λ id g, rj_job_id g.1 = id) (jobs s);
  lk_leases : rs_gpu_leases (st_reservations s) = msum gpu_unit (jobs s);
  lk_exclusive : ∀ id, rs_exclusive_gpu_job (st_reservations s) = Some id ↔
    ∃ g, jobs s !! id = Some g ∧ is_exclusive g;
  lk_alone : ∀ id, rs_exclusive_gpu_job (st_reservations s) = Some id →
    rs_gpu_leases (st_reservations s) = 1;
  lk_foreground : ∀ id, rs_foreground_turn_job (st_reservations s) = Some id ↔
    ∃ g, jobs s !! id = Some g ∧ is_foreground g
}.

#[export] Instance locks_ok_proper : Proper (core_eq ==> iff) locks_ok.
Proof.
  assert (∀ s s', core_eq s s' → locks_ok s → locks_ok s') as Himp.
  { intros s s' (Hj&Hr&_) []. by constructor; rewrite <-?Hj, <-?Hr. }
  intros s s' Hc. split; apply Himp; [done|by symmetry].
Qed.

Lemma gpu_unit_pair job t :
  gpu_unit (job, t) = if bool_decide (ct_gpu_residency t ≠ GpuNone) then 1 else 0.
Proof. done. Qed.

Lemma gpu_unit_nonneg (m : gmap str grant) : map_Forall (λ _ g, 0 ≤ gpu_unit g) m.
Proof. intros ? g _. unfold gpu_unit. by case_bool_decide. Qed.

Lemma gpu_unit_le_size (m : gmap str grant) : msum gpu_unit m ≤ Z.of_nat (size m).
Proof.
  induction m as [|k g m Hk IH] using map_ind; [done|].
  rewrite msum_insert, map_size_insert_None by done.
  unfold gpu_unit at 1. case_bool_decide; lia.
Qed.

Lemma locks_ok_init : locks_ok broker_state_default.
Proof.
  assert (jobs broker_state_default = ∅) as Hj by apply fmap_empty.
  constructor; rewrite ?Hj; try done.
  all: intros id; split; [done|]; intros (?&Hg&_); by rewrite lookup_empty in Hg.
Qed.

(** The reservations after [reserve], slot by slot. *)
Lemma reserve_locks s job t :
  rs_gpu_leases (st_reservations (reserve s job t)) =
    (if bool_decide (ct_gpu_residency t ≠ GpuNone)
     then wrap_add32 (rs_gpu_leases (st_reservations s)) 1
     else rs_gpu_leases (st_reservations s)) ∧
  rs_exclusive_gpu_job (st_reservations (reserve s job t)) =
    (if bool_decide (ct_gpu_residency t = GpuExclusive)
     then Some (rj_job_id job) else rs_exclusive_gpu_job (st_reservations s)) ∧
  rs_foreground_turn_job (st_reservations (reserve s job t)) =
    (if holds_foreground_turn_slot (rj_kind job)
     then Some (rj_job_id job) else rs_foreground_turn_job (st_reservations s)).
Proof. unfold reserve. by case_match. Qed.

Lemma release_locks s job t :
  rs_gpu_leases (st_reservations (release s job t)) =
    (if bool_decide (ct_gpu_residency t ≠ GpuNone)
     then sat_sub (rs_gpu_leases (st_reservations s)) 1
     else rs_gpu_leases (st_reservations s)) ∧
  rs_exclusive_gpu_job (st_reservations (release s job t)) =
    (if bool_decide (rs_exclusive_gpu_job (st_reservations s) = Some (rj_job_id job))
     then None else rs_exclusive_gpu_job (st_reservations s)) ∧
  rs_foreground_turn_job (st_reservations (release s job t)) =
    (if bool_decide (rs_foreground_turn_job (st_reservations s) = Some (rj_job_id job))
     then None else rs_foreground_turn_job (st_reservations s)).
Proof. unfold release. by case_match. Qed.

(** What [residency_available] guards. *)
Lemma residency_available_inv s job t :
  residency_available s job t = true →
  (holds_foreground_turn_slot (rj_kind job) = true →
   rs_foreground_turn_job (st_reservations s) = None) ∧
  (ct_gpu_residency t = GpuShared → rs_exclusive_gpu_job (st_reservations s) = None) ∧
  (ct_gpu_residency t = GpuExclusive → rs_gpu_leases (st_reservations s) = 0) ∧
  (∀ m r, ct_model_id t = Some m → st_residency s !! m = Some r →
   ms_target_id (mr_spec r) = ct_target_id t ∧
   ms_gpu_residency (mr_spec r) = ct_gpu_residency t ∧
   is_loaded_or_in_flight (mr_state r) = true).
Proof.
  unfold residency_available. destruct (_ && is_some _) eqn:Ef; [done|].
  destruct (is_some_and _ _) eqn:Em; [done|]. intros Hg. split; [|split; [|split]].
  - intros Hh. rewrite Hh in Ef. by destruct (rs_foreground_turn_job _).
  - intros Hs. rewrite Hs in Hg. by apply is_none_iff.
  - intros Hs. rewrite Hs in Hg. lia.
  - intros m r Hm Hr. rewrite Hm in Em. cbn in Em. rewrite Hr in Em. cbn in Em.
    rewrite !orb_false_iff, !negb_false_iff, !bool_decide_eq_true in Em. tauto.
Qed.

(** A slot indexed by job id, after the insertion of a fresh job. *)
Lemma slot_insert (P : grant → Prop) (slot : option str) (m : gmap str grant) id g (b : bool) :
  m !! id = None → (b = true ↔ P g) → (b = true → slot = None) →
  (∀ i, slot = Some i ↔ ∃ g, m !! i = Some g ∧ P g) →
  ∀ i, (if b then Some id else slot) = Some i ↔ ∃ g', <[id := g]> m !! i = Some g' ∧ P g'.
Proof.
  intros Hid Hb Hfree Hslot i. destruct (decide (i = id)) as [->|Hne].
  - rewrite lookup_insert_eq. destruct b.
    + split; [intros _; exists g; by rewrite <-Hb|done].
    + split; [|intros (?&?&HP); simplify_eq; by apply Hb in HP].
      intros Hs%Hslot. destruct Hs as (?&?&?). congruence.
  - rewrite lookup_insert_ne by done. rewrite <-Hslot. destruct b; [|done].
    rewrite (Hfree eq_refl). split; [|done]. by intros [= ->].
Qed.

Lemma slot_delete (P : grant → Prop) (slot : option str) (m : gmap str grant) id :
  (∀ i, slot = Some i ↔ ∃ g, m !! i = Some g ∧ P g) →
  ∀ i, (if bool_decide (slot = Some id) then None else slot) = Some i ↔
       ∃ g', delete id m !! i = Some g' ∧ P g'.
Proof.
  intros Hslot i. destruct (decide (i = id)) as [->|Hne].
  - rewrite lookup_delete_eq. case_bool_decide; [|split]; naive_solver.
  - rewrite lookup_delete_ne by done. rewrite <-Hslot.
    case_bool_decide as Hs; [|done]. rewrite Hs. split; [done|]. by intros [= ->].
Qed.

Lemma locks_ok_admit s a :
  Z.of_nat (size (jobs s)) < u32_max →
  id_fresh s (rj_job_id (ar_job a)) → residency_available s (ar_job a) (ar_target a) = true →
  locks_ok s →
  locks_ok (set_active (<[rj_job_id (ar_job a) := a]> (st_active s))
              (reserve s (ar_job a) (ar_target a))).
Proof.
  intros Hsz [Hf _] Ha Hl.
  apply residency_available_inv in Ha as (Hfg&Hsh&Hex&_).
  destruct (reserve_locks s (ar_job a) (ar_target a)) as (Hrl&Hre&Hrf).
  pose proof (gpu_unit_le_size (jobs s)) as Hle.
  pose proof (msum_nonneg gpu_unit (jobs s) (gpu_unit_nonneg _)) as Hnn.
  destruct Hl as [Hids Hlease Hexcl Halone Hfore].
  assert (is_exclusive (ar_job a, ar_target a) → rs_exclusive_gpu_job (st_reservations s) = None)
    as Hnone.
  { intros He. apply Hex in He. destruct (rs_exclusive_gpu_job _) as [i|] eqn:E; [|done].
    specialize (Halone i eq_refl). lia. }
  assert (rs_gpu_leases (st_reservations (reserve s (ar_job a) (ar_target a))) =
          gpu_unit (ar_job a, ar_target a) + msum gpu_unit (jobs s)) as Hrl'.
  { clear Hre Hrf. rewrite Hrl, Hlease. rewrite gpu_unit_pair. case_bool_decide; [|lia].
    unfold wrap_add32. rewrite Z.mod_small; [lia|]. unfold u32_max in *. lia. }
  constructor; rewrite ?jobs_set_active_reserve.
  - by apply map_Forall_insert.
  - cbn. by rewrite msum_insert.
  - cbn. rewrite Hre. intros i. erewrite <-(slot_insert is_exclusive _ (jobs s) _ _
      (bool_decide (ct_gpu_residency (ar_target a) = GpuExclusive))); [|done|..].
    + by case_bool_decide.
    + by rewrite bool_decide_eq_true.
    + intros He%bool_decide_eq_true. by apply Hnone.
    + done.
  - cbn. intros i. rewrite Hre, Hrl', gpu_unit_pair.
    case_bool_decide as He; intros Hi.
    + rewrite bool_decide_true by congruence. apply Hex in He. lia.
    + destruct (decide (ct_gpu_residency (ar_target a) = GpuNone)) as [Hg|Hg].
      * rewrite bool_decide_false by tauto. apply Halone in Hi. lia.
      * destruct (ct_gpu_residency (ar_target a)) eqn:E; try done.
        by rewrite Hsh in Hi.
  - cbn. rewrite Hrf. by apply (slot_insert is_foreground).
Qed.

Lemma locks_ok_finish s id a :
  st_active s !! id = Some a → locks_ok s →
  locks_ok (release (set_active (delete id (st_active s)) s) (ar_job a) (ar_target a)).
Proof.
  intros Ha [Hids Hlease Hexcl Halone Hfore].
  pose proof (jobs_lookup s id a Ha) as Hj.
  pose proof (Hids id _ Hj) as Hid. cbn in Hid. subst id.
  destruct (release_locks (set_active (delete (rj_job_id (ar_job a)) (st_active s)) s)
    (ar_job a) (ar_target a)) as (Hrl&Hre&Hrf). cbn in Hrl, Hre, Hrf.
  pose proof (msum_delete gpu_unit _ _ _ Hj) as Hd.
  pose proof (msum_nonneg gpu_unit _ (gpu_unit_nonneg (delete (rj_job_id (ar_job a)) (jobs s)))).
  rewrite gpu_unit_pair in Hd.
  constructor; rewrite ?jobs_release.
  - by apply map_Forall_delete.
  - rewrite Hrl, Hlease. unfold sat_sub. case_bool_decide; lia.
  - rewrite Hre. by apply slot_delete.
  - intros i. rewrite Hre. clear Hre Hrf.
    destruct (decide (rs_exclusive_gpu_job (st_reservations s) = Some (rj_job_id (ar_job a))))
      as [He|He]; [by rewrite bool_decide_true|rewrite bool_decide_false by done]. intros Hi.
    pose proof (Halone i Hi) as H1'. apply Hexcl in Hi as (g&Hg&Hge).
    assert (i ≠ rj_job_id (ar_job a)) as Hne.
    { intros ->. apply He. apply Hexcl. eauto. }
    rewrite Hrl. case_bool_decide as Hn; [|done]. exfalso.
    pose proof (msum_two_le gpu_unit (jobs s) _ _ _ _ (gpu_unit_nonneg _) Hg Hj Hne) as Htwo.
    destruct g as [j t]. unfold is_exclusive in Hge. cbn in Hge.
    rewrite !gpu_unit_pair, !bool_decide_true in Htwo by congruence. lia.
  - rewrite Hrf. by apply slot_delete.
Qed.

Lemma locks_ok_prim s s' : prim s s' → unsaturated s' → locks_ok s → locks_ok s'.
Proof.
  intros Hp [Hsz _]. rewrite <-size_jobs in Hsz.
  destruct Hp as [s s' q Hq Hc|s s' r [Hj Hf] Hr Hc|s s' a Hf Hau Ht Ha Hc
    |s s' spec Hn Hd Hc|s s' m r r' Hr Hm Hc]; rewrite <-Hc.
  3: { apply locks_ok_admit; [|done..].
       rewrite <-Hc, jobs_set_active_reserve, map_size_insert_None in Hsz; [lia|].
       apply Hf. }
  all: intros []; by constructor.
Qed.

Lemma locks_ok_done s s' : done_step s s' → locks_ok s → locks_ok s'.
Proof. destruct 1 as [s s' id a Ha Hc]. rewrite <-Hc. by apply locks_ok_finish. Qed.

Lemma reachable_locks_ok s : reachable config strict s → locks_ok s.
Proof.
  apply reachable_invariant; [apply locks_ok_init|..]; eauto using locks_ok_prim, locks_ok_done.
Qed.
End locks.
