(* ===== verification/BrokerLedger.v ===== *)
(** * Resource broker: the reservation ledger

    For a disciplined host ([strict = true]) the byte counters of [Reservations]
    are exactly the sums of what the active jobs hold, each model record counts
    exactly the active jobs that name it, and its state agrees with the count. *)

From S2P Require Import Prelude Text Float Policy BrokerTypes BrokerCore Broker BrokerSim BrokerInv.

#[local] Open Scope Z_scope.

Section ledger.
Context `{CancelApi, HashIter, BudgetTelemetry T}.
Context (config : ResourceBrokerConfig).

Notation grant := (ResourceJob * ComputeTarget)%type.
Notation prim := (prim true).

(** What an active job holds, given the registry. *)
Definition held (s : BrokerState) (g : grant) : ResourceEstimate := release_estimate s g.2.

Definition uses (m : str) (g : grant) : Z :=
  if bool_decide (ct_model_id g.2 = Some m) then 1 else 0.

(** A record agrees with the [n] active jobs that name its model. *)
Definition record_ok (m : str) (n : Z) (r : ModelResidencyRecord) : Prop :=
  ms_model_id (mr_spec r) = m ∧ mr_active_jobs r = n ∧
  (mr_state r = InFlight → 0 < n) ∧ (0 < n → mr_state r = InFlight ∨ mr_state r = Quarantined).

(** A job that names a registered model runs on that model's target. *)
Definition target_registered (residency : gmap str ModelResidencyRecord) (t : ComputeTarget)
    : Prop :=
  ∀ m r, ct_model_id t = Some m → residency !! m = Some r →
    ms_target_id (mr_spec r) = ct_target_id t ∧
    ms_gpu_residency (mr_spec r) = ct_gpu_residency t.

Record ledger_ok (s : BrokerState) : Prop := {
  lg_ram : rs_ram_bytes (st_reservations s) = msum (λ g, re_ram_bytes (held s g)) (jobs s);
  lg_resident : rs_vram_resident_bytes (st_reservations s) =
    msum (λ g, re_vram_resident_bytes (held s g)) (jobs s);
  lg_transient : rs_vram_transient_bytes (st_reservations s) =
    msum (λ g, re_vram_transient_bytes (held s g)) (jobs s);
  lg_records : map_Forall (λ m r, record_ok m (msum (uses m) (jobs s)) r) (st_residency s);
  lg_targets : map_Forall (λ _ g, target_registered (st_residency s) g.2 ∧ target_wf g.2) (jobs s)
}.

#[export] Instance ledger_ok_proper : Proper (core_eq ==> iff) ledger_ok.
Proof.
  assert (∀ s s', core_eq s s' → ledger_ok s → ledger_ok s') as Himp.
  { intros s s' (Hj&Hr&Hm&_) [L1 L2 L3 L4 L5].
    assert (∀ t, release_estimate s' t = release_estimate s t) as He.
    { intros t. unfold release_estimate, registered_model_for_target. by rewrite Hm. }
    constructor; rewrite <-?Hj, <-?Hr, <-?Hm; try done.
    - rewrite L1. apply msum_ext. intros ???. unfold held. by rewrite He.
    - rewrite L2. apply msum_ext. intros ???. unfold held. by rewrite He.
    - rewrite L3. apply msum_ext. intros ???. unfold held. by rewrite He. }
  intros s s' Hc. split; apply Himp; [done|by symmetry].
Qed.

Lemma jobs_init : jobs broker_state_default = ∅.
Proof. apply fmap_empty. Qed.

Lemma ledger_ok_init : ledger_ok broker_state_default.
Proof. constructor; rewrite ?jobs_init; done. Qed.

(** ** What a target costs depends on the specifications only *)

Definition same_envelope (r r' : ModelResidencyRecord) : Prop := mr_spec r = mr_spec r'.

Lemma release_estimate_ext s s' t :
  (∀ m, ct_model_id t = Some m → mr_spec <$> st_residency s !! m = mr_spec <$> st_residency s' !! m) →
  release_estimate s t = release_estimate s' t.
Proof.
  intros Hm. unfold release_estimate, registered_model_for_target.
  destruct (ct_model_id t) as [m|]; [|done]. cbn. specialize (Hm m eq_refl).
  destruct (st_residency s !! m) as [r|], (st_residency s' !! m) as [r'|];
    cbn in Hm |- *; try done.
  injection Hm as Hm. rewrite Hm. destruct (bool_decide _ && bool_decide _); [|done].
  unfold registered_estimate. by rewrite Hm.
Qed.

Lemma registered_iff s t :
  target_registered (st_residency s) t →
  registered_model_for_target s t = (m ← ct_model_id t; st_residency s !! m).
Proof.
  intros Ht. unfold registered_model_for_target. destruct (ct_model_id t) as [m|] eqn:Em; [|done].
  cbn. destruct (st_residency s !! m) as [r|] eqn:Er; [|done]. cbn.
  destruct (Ht m r Em Er) as [-> ->]. by rewrite !bool_decide_true.
Qed.

(** On admission the estimate that is reserved is the one given back. *)
Lemma effective_is_release s job t :
  residency_available s job t = true →
  effective_job_estimate s t = Some (release_estimate s t) ∧ target_registered (st_residency s) t.
Proof.
  intros (_&_&_&Hm)%residency_available_inv. split;
    [|intros m r ??; by destruct (Hm m r) as (?&?&_)].
  unfold effective_job_estimate, release_estimate, registered_model_for_target.
  destruct (ct_model_id t) as [m|] eqn:Em; [|done]. cbn.
  destruct (st_residency s !! m) as [r|] eqn:Er; [|done]. cbn.
  destruct (Hm m r eq_refl Er) as (->&->&->). by rewrite !bool_decide_true.
Qed.

Lemma held_wf s t :
  target_wf t →
  0 ≤ re_ram_bytes (release_estimate s t) ∧ 0 ≤ re_vram_resident_bytes (release_estimate s t) ∧
  0 ≤ re_vram_transient_bytes (release_estimate s t).
Proof. intros (?&?&?). unfold release_estimate. case_match; cbn; lia. Qed.

Lemma uses_nonneg (m : str) (js : gmap str grant) : map_Forall (λ _ g, 0 ≤ uses m g) js.
Proof. intros ? g _. unfold uses. by case_bool_decide. Qed.

Lemma uses_le_size (m : str) (js : gmap str grant) : msum (uses m) js ≤ Z.of_nat (size js).
Proof.
  induction js as [|k g js Hk IH] using map_ind; [done|].
  rewrite msum_insert, map_size_insert_None by done.
  unfold uses at 1. case_bool_decide; lia.
Qed.

(** ** The registry after [reserve] and [release] *)

Lemma reserve_ledger s job t :
  residency_available s job t = true →
  let e := release_estimate s t in
  let r := st_reservations s in
  rs_ram_bytes (st_reservations (reserve s job t)) = sat_add64 (rs_ram_bytes r) (re_ram_bytes e) ∧
  rs_vram_resident_bytes (st_reservations (reserve s job t)) =
    sat_add64 (rs_vram_resident_bytes r) (re_vram_resident_bytes e) ∧
  rs_vram_transient_bytes (st_reservations (reserve s job t)) =
    sat_add64 (rs_vram_transient_bytes r) (re_vram_transient_bytes e).
Proof.
  intros [He _]%effective_is_release. unfold reserve. rewrite He. by case_match.
Qed.

Definition add_job (r : ModelResidencyRecord) : ModelResidencyRecord := {|
  mr_spec := mr_spec r; mr_state := InFlight; mr_active_jobs := sat_add32 (mr_active_jobs r) 1;
  mr_quarantine_until_ms := mr_quarantine_until_ms r |}.

Definition end_job (r : ModelResidencyRecord) : ModelResidencyRecord :=
  let active_jobs := sat_sub (mr_active_jobs r) 1 in
  {| mr_spec := mr_spec r;
     mr_state := if (active_jobs =? 0) && bool_decide (mr_state r = InFlight)
                 then Loaded else mr_state r;
     mr_active_jobs := active_jobs;
     mr_quarantine_until_ms := mr_quarantine_until_ms r |}.

(** [f] at the model the target names, where it is registered. *)
Definition at_model (f : ModelResidencyRecord → ModelResidencyRecord) (t : ComputeTarget)
    (residency : gmap str ModelResidencyRecord) : gmap str ModelResidencyRecord :=
  match ct_model_id t with Some m => alter f m residency | None => residency end.

Definition keys_ok (residency : gmap str ModelResidencyRecord) : Prop :=
  map_Forall (λ m r, ms_model_id (mr_spec r) = m) residency.

Lemma reserve_residency s job t :
  keys_ok (st_residency s) → target_registered (st_residency s) t →
  st_residency (reserve s job t) = at_model add_job t (st_residency s).
Proof.
  intros Hk Ht. unfold reserve. rewrite registered_iff by done. unfold at_model.
  destruct (ct_model_id t) as [m|]; [|done]. cbn.
  destruct (st_residency s !! m) as [r|] eqn:Er; cbn.
  - by rewrite (Hk m r Er).
  - by rewrite alter_None.
Qed.

Lemma release_residency s job t :
  keys_ok (st_residency s) → target_registered (st_residency s) t →
  st_residency (release s job t) = at_model end_job t (st_residency s).
Proof.
  intros Hk Ht. unfold release. rewrite registered_iff by done. unfold at_model.
  destruct (ct_model_id t) as [m|]; [|done]. cbn.
  destruct (st_residency s !! m) as [r|] eqn:Er; cbn.
  - by rewrite (Hk m r Er).
  - by rewrite alter_None.
Qed.

Lemma at_model_spec f t residency m :
  (∀ r, mr_spec (f r) = mr_spec r) →
  mr_spec <$> at_model f t residency !! m = mr_spec <$> residency !! m.
Proof.
  intros Hf. unfold at_model. destruct (ct_model_id t) as [m'|]; [|done].
  destruct (decide (m = m')) as [->|Hne].
  - rewrite lookup_alter_eq. destruct (residency !! m'); [|done]. cbn. by rewrite Hf.
  - by rewrite lookup_alter_ne.
Qed.

Lemma at_model_lookup f t residency m r :
  at_model f t residency !! m = Some r →
  ∃ r0, residency !! m = Some r0 ∧
        r = (if bool_decide (ct_model_id t = Some m) then f r0 else r0).
Proof.
  unfold at_model. destruct (ct_model_id t) as [m'|].
  - destruct (decide (m = m')) as [->|Hne].
    + rewrite lookup_alter_eq, fmap_Some, bool_decide_true by done. done.
    + rewrite lookup_alter_ne by done. rewrite bool_decide_false by congruence. eauto.
  - rewrite bool_decide_false by done. eauto.
Qed.

Lemma target_registered_ext residency residency' t :
  (∀ m, mr_spec <$> residency !! m = mr_spec <$> residency' !! m) →
  target_registered residency t → target_registered residency' t.
Proof.
  intros Hs Ht m r' Hm Hr'. specialize (Hs m). rewrite Hr' in Hs. cbn in Hs.
  destruct (residency !! m) as [r|] eqn:Er; [|done]. cbn in Hs. injection Hs as Hs.
  rewrite <-Hs. by apply (Ht m).
Qed.

Lemma ledger_keys s : ledger_ok s → keys_ok (st_residency s).
Proof. intros L m r Hr. by destruct (lg_records s L m r Hr). Qed.

(** ** Preservation *)

Lemma held_sums s s' (f : ResourceEstimate → Z) :
  map_Forall (λ _ g, held s' g = held s g) (jobs s) →
  msum (λ g, f (held s' g)) (jobs s) = msum (λ g, f (held s g)) (jobs s).
Proof. intros Hh. apply msum_ext. intros id g Hg. by rewrite (Hh id g Hg). Qed.

Lemma record_ok_add m n r :
  0 ≤ n < u32_max → record_ok m n r → record_ok m (1 + n) (add_job r).
Proof.
  intros Hn (?&Ha&?&?). split; [done|]. cbn. split; [|split; [lia|by left]].
  unfold sat_add32. rewrite Ha. lia.
Qed.

Lemma record_ok_end m n r : 0 < n → record_ok m n r → record_ok m (n - 1) (end_job r).
Proof.
  intros Hn (?&Ha&Hi&Hs). split; [done|]. cbn. unfold sat_sub. rewrite Ha.
  split; [lia|]. destruct (Z.max (n - 1) 0 =? 0) eqn:E; cbn.
  - case_bool_decide; split; try done; lia.
  - split; [lia|]. intros _. by apply Hs.
Qed.

Lemma ledger_ok_admit s a :
  unsaturated (set_active (<[rj_job_id (ar_job a) := a]> (st_active s))
                 (reserve s (ar_job a) (ar_target a))) →
  id_fresh s (rj_job_id (ar_job a)) → target_wf (ar_target a) →
  residency_available s (ar_job a) (ar_target a) = true →
  ledger_ok s →
  ledger_ok (set_active (<[rj_job_id (ar_job a) := a]> (st_active s))
               (reserve s (ar_job a) (ar_target a))).
Proof.
  intros (Hsz&Hu1&Hu2&Hu3) [Hf _] Hw Ha L. cbn in Hu1, Hu2, Hu3.
  set (s1 := set_active _ _) in *.
  pose proof (effective_is_release _ _ _ Ha) as [_ Ht].
  destruct (reserve_ledger _ _ _ Ha) as (E1&E2&E3).
  rewrite E1 in Hu1. rewrite E2 in Hu2. rewrite E3 in Hu3. unfold sat_add64 in *.
  pose proof (reserve_residency s (ar_job a) _ (ledger_keys s L) Ht) as Hres.
  assert (st_residency s1 = at_model add_job (ar_target a) (st_residency s)) as Hres1 by done.
  assert (∀ m, mr_spec <$> st_residency s !! m = mr_spec <$> st_residency s1 !! m) as Hspec.
  { intros m. by rewrite Hres1, at_model_spec. }
  assert (∀ g, held s1 g = held s g) as Hh.
  { intros g. apply release_estimate_ext. intros m _. by rewrite Hspec. }
  assert (jobs s1 = <[rj_job_id (ar_job a) := (ar_job a, ar_target a)]> (jobs s)) as Hj
    by apply jobs_set_active_reserve.
  rewrite <-size_jobs, Hj, map_size_insert_None in Hsz by done.
  assert (∀ f : ResourceEstimate → Z, msum (λ g, f (held s1 g)) (jobs s1) =
    f (release_estimate s (ar_target a)) + msum (λ g, f (held s g)) (jobs s)) as Hsum.
  { intros f. rewrite Hj, msum_insert by done. rewrite Hh.
    by rewrite (held_sums s s1) by (by intros ???). }
  constructor.
  - rewrite (Hsum re_ram_bytes), <-(lg_ram s L). etransitivity; [apply E1|]. lia.
  - rewrite (Hsum re_vram_resident_bytes), <-(lg_resident s L).
    etransitivity; [apply E2|]. lia.
  - rewrite (Hsum re_vram_transient_bytes), <-(lg_transient s L).
    etransitivity; [apply E3|]. lia.
  - intros m r. rewrite Hres1. intros (r0&Hr0&->)%at_model_lookup.
    rewrite Hj, msum_insert by done. pose proof (lg_records s L m r0 Hr0) as Hr.
    pose proof (uses_le_size m (jobs s)). unfold uses at 1. cbn. case_bool_decide; [|done].
    apply record_ok_add; [|done]. split; [apply msum_nonneg, uses_nonneg|lia].
  - rewrite Hj. apply map_Forall_insert; [done|]. split; [split; [|done]|].
    + by eapply target_registered_ext.
    + intros id g Hg. destruct (lg_targets s L id g Hg). split; [|done].
      by eapply target_registered_ext.
Qed.

Lemma release_ledger s job t :
  let e := release_estimate s t in
  let r := st_reservations s in
  rs_ram_bytes (st_reservations (release s job t)) = sat_sub (rs_ram_bytes r) (re_ram_bytes e) ∧
  rs_vram_resident_bytes (st_reservations (release s job t)) =
    sat_sub (rs_vram_resident_bytes r) (re_vram_resident_bytes e) ∧
  rs_vram_transient_bytes (st_reservations (release s job t)) =
    sat_sub (rs_vram_transient_bytes r) (re_vram_transient_bytes e).
Proof. unfold release. by case_match. Qed.

Lemma ledger_ok_finish s id a :
  st_active s !! id = Some a → ledger_ok s →
  ledger_ok (release (set_active (delete id (st_active s)) s) (ar_job a) (ar_target a)).
Proof.
  intros Ha L. pose proof (jobs_lookup s id a Ha) as Hj.
  destruct (lg_targets s L id _ Hj) as [Ht Hw]. cbn in Ht, Hw.
  set (s0 := set_active (delete id (st_active s)) s).
  destruct (release_ledger s0 (ar_job a) (ar_target a)) as (E1&E2&E3).
  change (release_estimate s0 (ar_target a)) with (held s (ar_job a, ar_target a)) in *.
  change (st_reservations s0) with (st_reservations s) in *.
  pose proof (release_residency s0 (ar_job a) _ (ledger_keys s L) Ht) as Hres.
  change (st_residency s0) with (st_residency s) in Hres.
  set (s1 := release s0 (ar_job a) (ar_target a)) in *.
  assert (∀ m, mr_spec <$> st_residency s !! m = mr_spec <$> st_residency s1 !! m) as Hspec.
  { intros m. by rewrite Hres, at_model_spec. }
  assert (∀ g, held s1 g = held s g) as Hh.
  { intros g. apply release_estimate_ext. intros m _. by rewrite Hspec. }
  assert (jobs s1 = delete id (jobs s)) as Hj1 by apply jobs_release.
  assert (∀ f : ResourceEstimate → Z, (∀ t, target_wf t → 0 ≤ f (release_estimate s t)) →
    sat_sub (msum (λ g, f (held s g)) (jobs s)) (f (held s (ar_job a, ar_target a))) =
    msum (λ g, f (held s1 g)) (jobs s1)) as Hsum.
  { intros f Hf. rewrite Hj1, (msum_ext (λ g, f (held s1 g)) (λ g, f (held s g)))
      by (intros ???; by rewrite Hh).
    rewrite (msum_delete _ _ _ _ Hj). unfold sat_sub.
    pose proof (msum_lookup_le (λ g, f (held s g)) (jobs s) _ _ ltac:(
      intros i g Hg; destruct (lg_targets s L i g Hg); by apply Hf) Hj). cbn in *. lia. }
  constructor.
  - rewrite E1, (lg_ram s L). apply (Hsum re_ram_bytes). intros t ?. by apply held_wf.
  - rewrite E2, (lg_resident s L). apply (Hsum re_vram_resident_bytes).
    intros t ?. by apply held_wf.
  - rewrite E3, (lg_transient s L). apply (Hsum re_vram_transient_bytes).
    intros t ?. by apply held_wf.
  - intros m r. rewrite Hres. intros (r0&Hr0&->)%at_model_lookup.
    rewrite Hj1, (msum_delete _ _ _ _ Hj). pose proof (lg_records s L m r0 Hr0) as Hr.
    pose proof (msum_lookup_le (uses m) _ _ _ (uses_nonneg m _) Hj) as Hle.
    unfold uses at 1 in Hle. unfold uses at 2. cbn in Hle |- *.
    case_bool_decide; [|by rewrite Z.sub_0_r]. apply record_ok_end; [lia|done].
  - rewrite Hj1. intros i g [_ Hg]%lookup_delete_Some. destruct (lg_targets s L i g Hg).
    split; [|done]. by eapply target_registered_ext.
Qed.

(** A change of the registry that no active job can notice. *)
Lemma ledger_ok_residency s residency :
  map_Forall (λ m r, record_ok m (msum (uses m) (jobs s)) r) residency →
  map_Forall (λ _ g, ∀ m, ct_model_id g.2 = Some m →
    mr_spec <$> st_residency s !! m = mr_spec <$> residency !! m) (jobs s) →
  ledger_ok s → ledger_ok (set_residency residency s).
Proof.
  intros Hrec Hspec L. set (s1 := set_residency residency s).
  assert (map_Forall (λ _ g, held s1 g = held s g) (jobs s)) as Hh.
  { intros id g Hg. symmetry. apply release_estimate_ext. by apply (Hspec id). }
  constructor; change (jobs s1) with (jobs s);
    change (st_reservations s1) with (st_reservations s); [..|done|].
  - by rewrite (held_sums s s1), (lg_ram s L).
  - by rewrite (held_sums s s1), (lg_resident s L).
  - by rewrite (held_sums s s1), (lg_transient s L).
  - intros id g Hg. destruct (lg_targets s L id g Hg) as [Ht Hw]. split; [|done].
    intros m r Hm Hr. change (residency !! m = Some r) in Hr.
    specialize (Hspec id g Hg m Hm). rewrite Hr in Hspec.
    destruct (st_residency s !! m) as [r0|] eqn:Er; [|done].
    injection Hspec as <-. by apply (Ht m).
Qed.

Lemma msum_uses_zero (m : str) (js : gmap str grant) :
  map_Forall (λ _ g, ct_model_id g.2 ≠ Some m) js → msum (uses m) js = 0.
Proof.
  intros Hn. rewrite (msum_ext _ (λ _, 0)); [|].
  - clear. induction js as [|k g js Hk IH] using map_ind; [done|]. by rewrite msum_insert.
  - intros id g Hg. unfold uses. rewrite bool_decide_false; [done|]. by apply (Hn id).
Qed.

Lemma uses_zero_unused (m : str) (js : gmap str grant) id g :
  msum (uses m) js ≤ 0 → js !! id = Some g → ct_model_id g.2 ≠ Some m.
Proof.
  intros Hz Hg Hm. pose proof (msum_lookup_le (uses m) js id g (uses_nonneg m js) Hg) as Hle.
  unfold uses at 1 in Hle. rewrite bool_decide_true in Hle by done. lia.
Qed.

Lemma ledger_ok_register s spec :
  st_residency s !! ms_model_id spec = None → model_unused s (ms_model_id spec) →
  ledger_ok s →
  ledger_ok (set_residency (<[ms_model_id spec := {| mr_spec := spec; mr_state := Cold;
    mr_active_jobs := 0; mr_quarantine_until_ms := None |}]> (st_residency s)) s).
Proof.
  intros Hn Hu L. apply ledger_ok_residency; [|..|done].
  - apply map_Forall_insert; [done|]. split; [|apply (lg_records s L)].
    rewrite msum_uses_zero by done. by repeat split.
  - intros id g Hg m Hm. rewrite lookup_insert_ne; [done|].
    intros <-. by apply (Hu id g Hg).
Qed.

(** The moves of a record keep it consistent, and change its envelope only when
    no job uses it. *)
Lemma model_move_ok m n r r' :
  0 ≤ n → model_move true r r' → record_ok m n r →
  record_ok m n r' ∧ (mr_spec r = mr_spec r' ∨ n ≤ 0).
Proof.
  intros Hn0 Hm (Hid&Ha&Hi&Hs).
  assert (mr_state r ≠ InFlight → mr_state r ≠ Quarantined → n ≤ 0) as Hidle.
  { intros ??. destruct (decide (0 < n)) as [Hn|]; [|lia]. by destruct (Hs Hn). }
  assert (∀ st, st ≠ InFlight → n ≤ 0 → record_ok m n (set_record_state st r)) as Hset.
  { intros st ??. repeat split; cbn; try done; lia. }
  destruct Hm as [r He|measured r He|r He Hz|r He Hz|until r|r He Hz].
  - split; [|by left]. apply Hset; [done|]. apply Hidle; congruence.
  - assert (n ≤ 0) by (apply Hidle; congruence). split; [|by right].
    repeat split; cbn; try done; lia.
  - split; [|by left]. apply Hset; [done|lia].
  - split; [|by left]. apply Hset; [done|lia].
  - split; [|by left]. repeat split; cbn; try done. intros _. by right.
  - specialize (Hz eq_refl). split; [|by left]. repeat split; cbn; try done; lia.
Qed.

Lemma ledger_ok_model s m r r' :
  st_residency s !! m = Some r → model_move true r r' → ledger_ok s →
  ledger_ok (set_residency (<[m := r']> (st_residency s)) s).
Proof.
  intros Hr Hm L.
  pose proof (msum_nonneg (uses m) (jobs s) (uses_nonneg m _)) as Hn.
  destruct (model_move_ok m _ r r' Hn Hm (lg_records s L m r Hr)) as [Hok Hspec].
  apply ledger_ok_residency; [|..|done].
  - by apply map_Forall_insert_2, (lg_records s L).
  - intros id g Hg m' Hm'. destruct (decide (m' = m)) as [->|Hne].
    + rewrite lookup_insert_eq, Hr. cbn. destruct Hspec as [->|Hz]; [done|].
      by destruct (uses_zero_unused m _ id g Hz Hg).
    + by rewrite lookup_insert_ne.
Qed.

Lemma ledger_ok_prim s s' : prim s s' → unsaturated s' → ledger_ok s → ledger_ok s'.
Proof.
  intros Hp Hu. destruct Hp as [s s' q Hq Hc|s s' r [Hj Hf] Hr Hc|s s' a Hf Hau Ht Ha Hc
    |s s' spec Hn Hd Hc|s s' m r r' Hr Hm Hc]; rewrite <-Hc.
  - intros []; by constructor.
  - intros []; by constructor.
  - apply ledger_ok_admit; [|done..]. destruct Hu as [Hsz Hu]. split; [|by rewrite Hc].
    rewrite <-size_jobs in *. by rewrite Hc.
  - apply ledger_ok_register; [done|]. by apply Hd.
  - by apply ledger_ok_model with r.
Qed.

Lemma ledger_ok_done s s' : done_step s s' → ledger_ok s → ledger_ok s'.
Proof. destruct 1 as [s s' id a Ha Hc]. rewrite <-Hc. by apply ledger_ok_finish. Qed.

Lemma reachable_ledger_ok s : reachable config true s → ledger_ok s.
Proof.
  apply reachable_invariant; [apply ledger_ok_init|..];
    eauto using ledger_ok_prim, ledger_ok_done.
Qed.
End ledger.
