(* ===== verification/BrokerSpec.v ===== *)
(** * Resource broker: a concrete broker

    One choice of the abstract parts (numbered cancellation cells, one hash
    iteration order, the host-fed telemetry) and a few jobs, models and runs on
    it, for evaluating the operations on concrete inputs.

    With it, what every reachable state of the broker guarantees: mutual exclusion, the
    ledger, the queue and the privacy of the running jobs. *)

From S2P Require Import Prelude Text Float Policy BrokerTypes BrokerCore Broker BrokerSim BrokerInv BrokerLedger.

#[local] Open Scope Z_scope.

#[export] Existing Instances cells_api hash_iter_list.

Definition example_snapshot (now used : Z) : BudgetSnapshot := {|
  bs_monotonic_ms := now;
  bs_system_ram_budget_bytes := 16000 * MIB;
  bs_system_ram_used_bytes := 1000 * MIB;
  bs_additional_game_ram_reserve_bytes := 0;
  bs_gpu_vram_budget_bytes := 12000 * MIB;
  bs_gpu_vram_used_bytes := used * MIB;
  bs_additional_game_vram_reserve_bytes := 0;
  bs_gpu_utilization := f32_lit 1 10
|}.

Definition telemetry_at (now used : Z) : ReportedBudgetTelemetry := {|
  rt_snapshot := example_snapshot now used;
  rt_accounted := accounted_default
|}.

Definition provider (id : str) (location : ProviderLocation) : ProviderDescriptor := {|
  pd_id := id; pd_display_name := id; pd_modality := LanguageModel;
  pd_location := location; pd_may_retain_data := false;
  pd_transmitted_data := []; pd_capabilities := ∅ |}.

Definition estimate (resident transient : Z) : ResourceEstimate := {|
  re_ram_bytes := 100 * MIB; re_vram_resident_bytes := resident * MIB;
  re_vram_transient_bytes := transient * MIB; re_transient_duration_ms := 500;
  re_gpu_time_ms := 10 |}.

Definition gpu_target (id : str) (model : option str) (mode : GpuResidency)
    (resident transient : Z) : ComputeTarget := {|
  ct_target_id := id; ct_model_id := model; ct_provider := provider id Local;
  ct_estimate := estimate resident transient; ct_gpu_residency := mode |}.

Definition gpu_job (id : str) (kind : ResourceJobKind) (target : ComputeTarget)
    (drop : DropPolicy) : ResourceJob := {|
  rj_job_id := id; rj_kind := kind; rj_priority := Interactive; rj_deadline_ms := None;
  rj_primary := target; rj_fallbacks := []; rj_drop_policy := drop;
  rj_privacy := fully_local |}.

Definition broker_run (events : list (broker_event ReportedBudgetTelemetry)) : BrokerState :=
  foldl (λ s e, broker_do broker_config_default e s) broker_state_default events.

Lemma reachable_run strict events :
  Forall event_wf events →
  (∀ n e, events !! n = Some e → strict = true → disciplined (broker_run (take n events)) e) →
  (∀ n, (n ≤ length events)%nat → unsaturated (broker_run (take n events))) →
  reachable broker_config_default strict (broker_run events).
Proof.
  induction events as [|e events IH] using rev_ind; [constructor|].
  intros Hw Hd Hu. apply Forall_app in Hw as [Hw [He _]%Forall_cons].
  unfold broker_run. rewrite foldl_app. cbn.
  change (foldl _ broker_state_default events) with (broker_run events).
  assert (∀ n, (n ≤ length events)%nat → take n (events ++ [e]) = take n events) as Ht.
  { intros. by rewrite take_app_le. }
  assert (take (length events) (events ++ [e]) = events) as Hlast by by rewrite take_app_length.
  constructor; [|done|..].
  - apply IH; [done|..].
    + intros n e' Hn Hs. pose proof (lookup_lt_Some _ _ _ Hn). rewrite <-(Ht n) by lia.
      apply Hd; [|done]. by apply lookup_app_l_Some.
    + intros n Hn. rewrite <-(Ht n) by done. apply Hu. rewrite length_app. lia.
  - intros Hs. specialize (Hd (length events) e). rewrite Hlast in Hd. apply Hd; [|done].
    by rewrite lookup_app_r, Nat.sub_diag.
  - specialize (Hu (length (events ++ [e])) (le_n _)). rewrite firstn_all in Hu.
    unfold broker_run in Hu. by rewrite foldl_app in Hu.
Qed.

(** A local language model on [model] with 2 GiB resident and 100 MiB transient. *)
Definition llm_spec : ModelResidencySpec := {|
  ms_model_id := lit "model"; ms_target_id := lit "llm"; ms_provider := provider (lit "llm") Local;
  ms_gpu_residency := GpuShared;
  ms_envelope := {| me_resident_bytes := 2048 * MIB; me_p99_transient_bytes := 100 * MIB;
                    me_sample_count := 5 |} |}.

Definition llm_target : ComputeTarget :=
  gpu_target (lit "llm") (Some (lit "model")) GpuShared 2048 50.

Definition llm_job (id : str) : ResourceJob := gpu_job id Embedding llm_target Never.

(** Load the model, run a job on it, and queue a job that needs the GPU alone. *)
Definition example_events : list (broker_event ReportedBudgetTelemetry) :=
  [ERegister llm_spec; EWarm (telemetry_at 0 1000) (lit "model");
   ELoaded (telemetry_at 1 1000) (lit "model") (ms_envelope llm_spec);
   ESubmit (telemetry_at 2 1000) (llm_job (lit "a"));
   ESubmit (telemetry_at 3 1000)
     (gpu_job (lit "b") (ForegroundLlm (lit "u")) (gpu_target (lit "other") None GpuShared 512 0)
        Never);
   ESubmit (telemetry_at 4 1000)
     (gpu_job (lit "c") Maintenance (gpu_target (lit "solo") None GpuExclusive 512 0)
        (Supersede (lit "k")))].

Definition example_state : BrokerState := broker_run example_events.

Example example_jobs :
  (dom (st_active example_state), record_id <$> st_queued example_state) =
  ({[lit "a"; lit "b"]}, [lit "c"]).
Proof. vm_compute. reflexivity. Qed.

Lemma unsaturated_check s :
  (Z.of_nat (size (st_active s)) <=? u32_max) && (rs_ram_bytes (st_reservations s) <? u64_max)
  && (rs_vram_resident_bytes (st_reservations s) <? u64_max)
  && (rs_vram_transient_bytes (st_reservations s) <? u64_max) = true → unsaturated s.
Proof. unfold unsaturated. rewrite !andb_true_iff. lia. Qed.

Lemma example_reachable strict : reachable broker_config_default strict example_state.
Proof.
  apply reachable_run.
  - repeat constructor; by vm_compute.
  - intros n e Hn _. destruct n as [|[|[|[|[|[|n]]]]]]; cbn in Hn; simplify_eq; try exact I.
    intros id g Hg.
    assert (jobs (broker_run (take 0 example_events)) = ∅) as Hj by apply fmap_empty.
    by rewrite Hj, lookup_empty in Hg.
  - intros n _. apply unsaturated_check.
    do 6 (destruct n as [|n]; [by vm_compute|]). destruct n; by vm_compute.
Qed.

(** The same model and job, after the job has ended. *)
Definition finished_events : list (broker_event ReportedBudgetTelemetry) :=
  take 4 example_events ++
  [EFinish (telemetry_at 9 1000) (lit "a") actual_usage_default false StatusCompleted].

Lemma finished_reachable strict :
  reachable broker_config_default strict (broker_run finished_events).
Proof.
  apply reachable_run.
  - repeat constructor; by vm_compute.
  - intros n e Hn _. destruct n as [|[|[|[|[|n]]]]]; cbn in Hn; simplify_eq; try exact I.
    intros id g Hg.
    assert (jobs (broker_run (take 0 finished_events)) = ∅) as Hj by apply fmap_empty.
    by rewrite Hj, lookup_empty in Hg.
  - intros n _. apply unsaturated_check.
    do 5 (destruct n as [|n]; [by vm_compute|]). destruct n; by vm_compute.
Qed.

(** A job still runs on the model when the host clears its quarantine. *)
Definition cleared_events : list (broker_event ReportedBudgetTelemetry) :=
  take 4 example_events ++
  [EQuarantine (lit "model") 5; EClear (telemetry_at 6 1000) (lit "model")].

(** A job that names a model runs before the model is registered. *)
Definition late_events : list (broker_event ReportedBudgetTelemetry) :=
  [ESubmit (telemetry_at 0 1000) (llm_job (lit "a")); ERegister llm_spec;
   EFinish (telemetry_at 1 1000) (lit "a") actual_usage_default false StatusCompleted].

Lemma cleared_reachable : reachable broker_config_default false (broker_run cleared_events).
Proof.
  apply reachable_run; [repeat constructor; by vm_compute|done|].
  intros n _. apply unsaturated_check.
  do 6 (destruct n as [|n]; [by vm_compute|]). destruct n; by vm_compute.
Qed.

Lemma late_reachable : reachable broker_config_default false (broker_run late_events).
Proof.
  apply reachable_run; [repeat constructor; by vm_compute|done|].
  intros n _. apply unsaturated_check.
  do 3 (destruct n as [|n]; [by vm_compute|]). destruct n; by vm_compute.
Qed.

(** 150 MiB of transient memory above the ceiling of 10 GiB. *)
Definition burst_job : ResourceJob :=
  gpu_job (lit "burst") Embedding (gpu_target (lit "t") None GpuShared 1000 400) Never.

Definition burst_state : BrokerState := broker_run [ESubmit (telemetry_at 7 8990) burst_job].

Lemma burst_reachable : reachable broker_config_default false burst_state.
Proof.
  apply reachable_run; [repeat constructor; by vm_compute|done|].
  intros n _. apply unsaturated_check. do 1 (destruct n as [|n]; [by vm_compute|]).
  destruct n; by vm_compute.
Qed.

(** * Resource broker: what the reachable states guarantee

    The theorems on every reachable state of the broker, whatever the telemetry,
    the hash iteration order and the sequence of calls: mutual exclusion, the
    ledger, the queue, privacy of the running jobs, and the two situations in
    which an undisciplined host breaks the ledger. *)

#[local] Open Scope Z_scope.

Section spec.
Context `{CancelApi, HashIter, BudgetTelemetry T}.
Context (config : ResourceBrokerConfig).

(** The number of active GPU jobs. *)
Definition active_gpu_jobs (s : BrokerState) : Z :=
  msum (λ a, if bool_decide (ct_gpu_residency (ar_target a) ≠ GpuNone) then 1 else 0)
    (st_active s).

Lemma active_gpu_jobs_eq s : msum gpu_unit (jobs s) = active_gpu_jobs s.
Proof. unfold jobs. by rewrite msum_fmap. Qed.

(** C1: in every reachable state the lease counter is the number of active GPU
    jobs, an exclusive GPU job runs beside no other GPU job, and at most one
    active job holds the foreground turn. *)
Theorem gpu_and_foreground_exclusion s :
  reachable config false s →
  rs_gpu_leases (st_reservations s) = active_gpu_jobs s ∧
  (∀ id1 id2 a1 a2,
     st_active s !! id1 = Some a1 → st_active s !! id2 = Some a2 → id1 ≠ id2 →
     (ct_gpu_residency (ar_target a1) = GpuExclusive →
      ct_gpu_residency (ar_target a2) = GpuNone) ∧
     (holds_foreground_turn_slot (rj_kind (ar_job a1)) = true →
      holds_foreground_turn_slot (rj_kind (ar_job a2)) = false)).
Proof.
  intros [Hids Hl Hex Hal Hfg]%reachable_locks_ok. split; [by rewrite Hl, active_gpu_jobs_eq|].
  intros id1 id2 a1 a2 H1'%jobs_lookup H2%jobs_lookup Hne. split.
  - intros He. destruct (decide (ct_gpu_residency (ar_target a2) = GpuNone)) as [|Hn]; [done|].
    exfalso. assert (rs_exclusive_gpu_job (st_reservations s) = Some id1) as Hs
      by (apply Hex; eauto).
    apply Hal in Hs.
    pose proof (msum_two_le gpu_unit (jobs s) _ _ _ _ (gpu_unit_nonneg _) H1' H2 Hne) as Htwo.
    rewrite !gpu_unit_pair, !bool_decide_true in Htwo by congruence. lia.
  - intros Hf1. apply not_true_iff_false. intros Hf2. apply Hne.
    assert (rs_foreground_turn_job (st_reservations s) = Some id1) as Hs1 by (apply Hfg; eauto).
    assert (rs_foreground_turn_job (st_reservations s) = Some id2) as Hs2 by (apply Hfg; eauto).
    congruence.
Qed.

(** job ids are unique: the queue has no id twice, no queued job is active,
    and each active record is stored under its own job's id. *)
Theorem job_ids_unique s :
  reachable config false s →
  NoDup (record_id <$> st_queued s) ∧
  (∀ r, r ∈ st_queued s → st_active s !! record_id r = None) ∧
  (∀ id a, st_active s !! id = Some a → rj_job_id (ar_job a) = id).
Proof.
  intros Hr. pose proof (reachable_queue_ok _ _ _ Hr) as [[Hnd Hall] _].
  split; [done|]. split.
  - intros r Hin. rewrite Forall_forall in Hall. apply jobs_none, Hall.
    by apply list_elem_of_fmap_2.
  - intros id a Ha%jobs_lookup. pose proof (reachable_locks_ok _ _ _ Hr) as [Hids _ _ _ _].
    by apply (Hids id) in Ha.
Qed.

(** C2: under a disciplined host the three byte counters are exactly what the
    active jobs hold, and a model record counts exactly the active jobs that
    name it; a model in any state but in flight or quarantined has none. *)
Theorem ledger_exact s :
  reachable config true s →
  rs_ram_bytes (st_reservations s) =
    msum (λ a, re_ram_bytes (release_estimate s (ar_target a))) (st_active s) ∧
  rs_vram_resident_bytes (st_reservations s) =
    msum (λ a, re_vram_resident_bytes (release_estimate s (ar_target a))) (st_active s) ∧
  rs_vram_transient_bytes (st_reservations s) =
    msum (λ a, re_vram_transient_bytes (release_estimate s (ar_target a))) (st_active s) ∧
  (∀ m r, st_residency s !! m = Some r →
     mr_active_jobs r =
       msum (λ a, if bool_decide (ct_model_id (ar_target a) = Some m) then 1 else 0)
         (st_active s) ∧
     (mr_active_jobs r ≠ 0 → mr_state r = InFlight ∨ mr_state r = Quarantined) ∧
     (mr_state r = InFlight → mr_active_jobs r ≠ 0)).
Proof.
  intros [L1 L2 L3 L4 _]%reachable_ledger_ok. unfold jobs in *.
  rewrite msum_fmap in L1, L2, L3. split; [done|]. split; [done|]. split; [done|].
  intros m r Hr. pose proof (msum_nonneg (uses m) _ (uses_nonneg m (jobs s))) as Hn.
  destruct (L4 m r Hr) as (_&Ha&Hi&Hs). unfold jobs in *. rewrite msum_fmap in Ha, Hi, Hs, Hn.
  rewrite Ha. split; [done|]. split; [intros; apply Hs; lia|]. intros. specialize (Hi H2). lia.
Qed.

(** under a disciplined host nothing leaks: when no job is active, every
    reservation is zero and every slot is free. *)
Theorem idle_broker_holds_nothing s :
  reachable config true s → st_active s = ∅ → st_reservations s = reservations_default.
Proof.
  intros Hr Ha. pose proof (reachable_ledger_ok _ _ Hr) as [L1 L2 L3 _ _].
  pose proof (reachable_locks_ok _ _ _ Hr) as [_ K1 K2 _ K3].
  assert (jobs s = ∅) as Hj by (unfold jobs; by rewrite Ha, fmap_empty).
  rewrite Hj in *. rewrite msum_empty in *.
  destruct (st_reservations s) as [a b c d e f]; cbn in *. subst.
  destruct e as [e|]; [destruct (proj1 (K2 e) eq_refl) as (?&?&_); by simplify_map_eq|].
  destruct f as [f|]; [destruct (proj1 (K3 f) eq_refl) as (?&?&_); by simplify_map_eq|].
  done.
Qed.

(** ** Privacy of the running jobs *)

Lemma authorized_prim strict s s' :
  prim strict s s' → map_Forall (λ _ g, authorized g.1 g.2) (jobs s) →
  map_Forall (λ _ g, authorized g.1 g.2) (jobs s').
Proof.
  destruct 1 as [s s' q Hq Hc|s s' r [Hj Hf] Hr Hc|s s' a Hf Hau Ht Ha Hc
    |s s' spec Hn Hd Hc|s s' m r r' Hr Hm Hc]; rewrite <-Hc; try done.
  rewrite jobs_set_active_reserve. by apply map_Forall_insert_2.
Qed.

Lemma reachable_authorized strict s :
  reachable config strict s → map_Forall (λ _ g, authorized g.1 g.2) (jobs s).
Proof.
  apply (reachable_invariant config strict (λ s, map_Forall (λ _ g, authorized g.1 g.2) (jobs s))).
  - by rewrite jobs_init.
  - intros. by eapply authorized_prim.
  - intros s1 s2 [? ? id a Ha Hc] _ _ Hs. rewrite <-Hc, jobs_release.
    by apply map_Forall_delete.
Qed.

(** every active job runs on a target of its own plan that its privacy
    context allows: a networked target needs an online, not fully local context
    that lists the provider, a retaining provider needs consent, and a cloud
    fallback of a local primary needs the fallback consent. *)
Theorem active_jobs_private s id a :
  reachable config false s → st_active s !! id = Some a →
  let p := rj_privacy (ar_job a) in
  let d := ct_provider (ar_target a) in
  ar_target a ∈ targets_of (ar_job a) ∧
  (is_networked (pd_location d) = true →
     bp_network_policy p = Online ∧ bp_execution_mode p ≠ FullyLocal ∧
     pd_id d ∈ bp_authorized_cloud_providers p) ∧
  (pd_may_retain_data d = true → bp_allow_retaining_providers p = true) ∧
  (ar_target a ≠ rj_primary (ar_job a) →
     is_local (pd_location (ct_provider (rj_primary (ar_job a)))) = true →
     is_networked (pd_location d) = true → bp_allow_local_to_cloud_fallback p = true).
Proof.
  intros Hr Ha%jobs_lookup. pose proof (reachable_authorized _ _ Hr id _ Ha) as Hau.
  cbn in Hau |- *. split; [by apply authorized_target|].
  assert (allows (rj_privacy (ar_job a)) (ct_provider (ar_target a)) = true) as Hall.
  { destruct Hau as [[_ ?]|[_ Hf]]; [done|]. by apply andb_true_iff in Hf as [? _]. }
  unfold allows in Hall. split; [|split].
  - intros Hn. rewrite Hn in Hall. cbn in Hall. case_match; [done|].
    rewrite !andb_true_iff, negb_true_iff, !bool_decide_eq_true, bool_decide_eq_false in Hall.
    tauto.
  - intros Hm. rewrite Hm in Hall. cbn in Hall. by destruct (bp_allow_retaining_providers _).
  - intros Hp Hl Hn. destruct Hau as [[? _]|[_ Hf]]; [done|].
    apply andb_true_iff in Hf as [_ Hf]. unfold is_local in Hf, Hl. rewrite Hl, Hn in Hf. done.
Qed.
End spec.

(** ** The theorems at concrete states *)

Definition example_active (id : str) : option ActiveRecord := st_active example_state !! id.

Lemma gpu_and_foreground_exclusion_witness :
  rs_gpu_leases (st_reservations example_state) = active_gpu_jobs example_state ∧
  active_gpu_jobs example_state = 2.
Proof.
  split; [|by vm_compute].
  exact (proj1
    (gpu_and_foreground_exclusion broker_config_default example_state (example_reachable _))).
Defined.

Lemma job_ids_unique_witness :
  st_active example_state !! lit "c" = None ∧ (record_id <$> st_queued example_state) = [lit "c"].
Proof.
  split; [|by vm_compute].
  destruct (job_ids_unique broker_config_default example_state (example_reachable _))
    as (_&Hq&_).
  destruct (st_queued example_state) as [|r l] eqn:E; [by vm_compute in E|].
  assert (record_id r = lit "c") as <- by (vm_compute in E; by injection E as <- <-).
  apply Hq. by left.
Defined.

Lemma ledger_exact_witness :
  rs_vram_transient_bytes (st_reservations example_state) =
    msum (λ a, re_vram_transient_bytes (release_estimate example_state (ar_target a)))
      (st_active example_state) ∧
  rs_vram_transient_bytes (st_reservations example_state) = 100 * MIB.
Proof.
  split; [|by vm_compute].
  destruct (ledger_exact broker_config_default example_state (example_reachable _))
    as (_&_&Ht&_). exact Ht.
Defined.

Lemma idle_broker_holds_nothing_witness :
  st_reservations (broker_run finished_events) = reservations_default.
Proof.
  apply (idle_broker_holds_nothing broker_config_default _ (finished_reachable _)).
  by vm_compute.
Defined.

Lemma active_jobs_private_witness :
  ∃ a, st_active example_state !! lit "a" = Some a ∧ ar_target a ∈ targets_of (ar_job a).
Proof.
  destruct (st_active example_state !! lit "a") as [a|] eqn:Ha; [|by vm_compute in Ha].
  exists a. split; [done|].
  exact (proj1
    (active_jobs_private broker_config_default example_state _ a (example_reachable _) Ha)).
Defined.

(** ** Without the host discipline the ledger breaks *)

(** [clear_model_quarantine] does not look at the jobs that still run on the
    model: the record goes back to [Cold] with one active job, so the memory
    the job still uses leaves the ledger. *)
Theorem cleared_quarantine_drops_memory : ∃ s r a,
  reachable broker_config_default false s ∧
  st_residency s !! lit "model" = Some r ∧ st_active s !! lit "a" = Some a ∧
  ct_model_id (ar_target a) = Some (lit "model") ∧
  mr_state r = Cold ∧ mr_active_jobs r = 1 ∧ holds_resident_memory r = false ∧
  broker_reserved_gpu_usage s = {| ag_resident_bytes := 0; ag_transient_bytes := 100 * MIB |}.
Proof.
  destruct (st_residency (broker_run cleared_events) !! lit "model") as [r|] eqn:Hr;
    [|by vm_compute in Hr].
  destruct (st_active (broker_run cleared_events) !! lit "a") as [a|] eqn:Ha;
    [|by vm_compute in Ha].
  exists (broker_run cleared_events), r, a. split; [apply cleared_reachable|].
  split; [done|]. split; [done|].
  vm_compute in Hr. injection Hr as <-. vm_compute in Ha. injection Ha as <-.
  repeat split.
Qed.

(** A model registered while a job that names it already runs: the release of
    that job gives back no resident memory, and 2 GiB stay reserved with no
    active job. *)
Theorem late_registration_leaks : ∃ s,
  reachable broker_config_default false s ∧ st_active s = ∅ ∧
  rs_vram_resident_bytes (st_reservations s) = 2048 * MIB.
Proof.
  exists (broker_run late_events). split; [apply late_reachable|]. split; by vm_compute.
Qed.
