(* ===== verification/BrokerAdmission.v ===== *)
(** * Resource broker: admission

    What [submit] and [poll_ready] return: the outcome of a submission on every
    branch, the memory bound of an admission, the utterance binding, and the
    order and conservation of the polled queue. *)

From S2P Require Import Prelude Text Float Policy BrokerTypes BrokerCore Broker BrokerSim BrokerInv BrokerLedger BrokerSpec.

#[local] Open Scope Z_scope.

(** ** The queue order is a total preorder *)

Lemma then_with_opp c d : CompOpp (then_with c d) = then_with (CompOpp c) (CompOpp d).
Proof. by destruct c. Qed.

Lemma queue_order_opp x y : queue_order y x = CompOpp (queue_order x y).
Proof.
  unfold queue_order. rewrite !then_with_opp.
  by rewrite <-!Z.compare_antisym.
Qed.

Definition queue_le : QueuedRecord → QueuedRecord → Prop := cmp_le queue_order.

Lemma queue_sorted l : Sorted queue_le (sort_by queue_order l).
Proof.
  apply sort_by_sorted. intros x y Hxy. unfold cmp_le. rewrite queue_order_opp, Hxy. done.
Qed.

(** ** Target ids are unique in a validated job *)

Lemma any_duplicate_false seen ids :
  any_duplicate seen ids = false → NoDup ids ∧ Forall (λ i, i ∉ seen) ids.
Proof.
  revert seen. induction ids as [|i ids IH]; intros seen; cbn; [by repeat constructor|].
  intros [Hi [Hnd Hall]%IH]%orb_false_iff. apply bool_decide_eq_false in Hi.
  rewrite Forall_forall in Hall. split.
  - constructor; [|done]. intros Hin. apply (Hall i Hin). set_solver.
  - constructor; [done|]. apply Forall_forall. intros j Hj. specialize (Hall j Hj). set_solver.
Qed.

Lemma validate_job_unique job :
  validate_job job = Ok tt → NoDup (ct_target_id <$> targets_of job).
Proof.
  unfold validate_job. do 2 (destruct (is_blank _); [done|]).
  destruct (_ || _); [done|]. destruct (any_duplicate _ _) eqn:Hd; [done|]. intros _.
  apply any_duplicate_false in Hd as [Hnd Hall]. cbn. constructor; [|done].
  intros Hin. rewrite Forall_forall in Hall. apply (Hall _ Hin). set_solver.
Qed.

Lemma str_eqb_true a b : str_eqb a b = true ↔ a = b.
Proof. unfold str_eqb. apply bool_decide_eq_true. Qed.

Lemma find_by_target_id targets t :
  NoDup (ct_target_id <$> targets) → t ∈ targets →
  List.find (λ t', str_eqb (ct_target_id t') (ct_target_id t)) targets = Some t.
Proof.
  induction targets as [|t' targets IH]; [by intros _ ?%elem_of_nil|].
  intros [Hn Hnd]%NoDup_cons [->|Hin]%elem_of_cons; cbn.
  - by rewrite (proj2 (str_eqb_true _ _) eq_refl).
  - destruct (str_eqb (ct_target_id t') (ct_target_id t)) eqn:E; [|by apply IH].
    apply str_eqb_true in E. destruct Hn. rewrite E. by apply list_elem_of_fmap_2.
Qed.

(** ** The branches of [submit] *)

Section admission.
Context `{CancelApi, HashIter, BudgetTelemetry T}.
Context (config : ResourceBrokerConfig).

(** The state in which the admission decision is taken. *)
Definition decision_state (snapshot : BudgetSnapshot) (accounted : BrokerAccountedGpuUsage)
    (job : ResourceJob) (s : BrokerState) : BrokerState :=
  supersede_queued config snapshot job (refresh config snapshot accounted s).

Lemma push_bindings d s :
  st_utterance_bindings (push_diagnostic config d s) = st_utterance_bindings s.
Proof. done. Qed.

Lemma foldl_push_bindings {B} (f : BrokerState → B → BrokerDiagnostic) l s :
  st_utterance_bindings (foldl (λ s x, push_diagnostic config (f s x) s) s l) =
  st_utterance_bindings s.
Proof. revert s. induction l as [|x l IH]; intros s; [done|]. cbn. by rewrite IH. Qed.

Lemma foldl_expire_bindings now entries s expired :
  st_utterance_bindings (foldl (expire_entry now) (s, expired) entries).1 =
  st_utterance_bindings s.
Proof.
  revert s expired. induction entries as [|[id a] entries IH]; intros s expired; [done|].
  cbn. case_match; by rewrite IH.
Qed.

Lemma refresh_bindings snapshot accounted s :
  st_utterance_bindings (refresh config snapshot accounted s) = st_utterance_bindings s.
Proof.
  unfold refresh.
  assert (∀ s, st_utterance_bindings (update_pressure_locked config snapshot s) =
               st_utterance_bindings s) as ->.
  { intros s'. unfold update_pressure_locked, recover_when_green, raise_to_pressure_floor.
    repeat case_match; done. }
  unfold expire_transient_overages_locked. set (s1 := set_telemetry_accounted _ _).
  pose proof (foldl_expire_bindings (bs_monotonic_ms snapshot) (hm_iter (st_active s1)) s1 [])
    as He.
  destruct (foldl _ _ _) as [s' expired]. cbn in He.
  rewrite (foldl_push_bindings (λ _ id, CancellationRequested _ id _)). by rewrite He.
Qed.

Lemma supersede_bindings snapshot job s :
  st_utterance_bindings (supersede_queued config snapshot job s) = st_utterance_bindings s.
Proof.
  unfold supersede_queued. case_match; try done. unfold push_admission.
  by rewrite (foldl_push_bindings (λ state old, Admission (admission_diagnostic config snapshot
    state (qr_job old) DroppedStale None _))).
Qed.

(** A submission that returns a lease took the admission branch. *)
Lemma submit_locked_lease snapshot accounted job s lease :
  su_lease (submit_locked config snapshot accounted job s).2 = Some lease →
  ∃ t o, let s1 := decision_state snapshot accounted job s in
    select_target_locked config s1 snapshot job true = Some (t, o) ∧
    submit_locked config snapshot accounted job s = admit_locked config snapshot job t o s1.
Proof.
  unfold submit_locked, decision_state. set (s1 := refresh _ _ _ _).
  destruct (id_in_use _ _); [done|].
  destruct (drop_before_admission _ _ _ _) as [r|] eqn:Ed.
  { intros Hl. unfold drop_before_admission in Ed. repeat case_match; simplify_eq. }
  destruct (select_target_locked _ _ _ _ _) as [[t o]|] eqn:Es; [by eauto|].
  destruct (terminal_rejection _ _ _) as [[o reason]|]; [done|].
  by repeat case_match.
Qed.

Lemma admit_locked_lease snapshot job t o s :
  su_lease (admit_locked config snapshot job t o s).2 = Some {|
    le_job_id := rj_job_id job; le_target_id := ct_target_id t;
    le_cancellation := (ct_new (st_cells s)).1; le_completed := false |}.
Proof. unfold admit_locked. by destruct (ct_new (st_cells s)). Qed.

Lemma submit_inv (t : T) job s s' sub :
  submit config t job s = (s', Ok sub) →
  ∃ snapshot accounted, validate_job job = Ok tt ∧ readings t = Ok (snapshot, accounted) ∧
    submit_locked config snapshot accounted job s = (s', sub).
Proof.
  unfold submit. destruct (validate_job job) as [[]|] eqn:Hv; [|done].
  cbn [mbind result_bind]. destruct (readings t) as [[sn acc]|] eqn:Hr; [|done].
  destruct (submit_locked _ _ _ _ _) as [s1 sub1] eqn:Hs. intros; simplify_eq. eauto.
Qed.

(** A bound utterance is only ever admitted on the target it is bound to. *)
Lemma bound_utterance_keeps_target_gen (t : T) job s s' sub lease u target :
  submit config t job s = (s', Ok sub) → su_lease sub = Some lease →
  utterance_id (rj_kind job) = Some u → st_utterance_bindings s !! u = Some target →
  le_target_id lease = target.
Proof.
  intros (sn&acc&_&_&Hs)%submit_inv Hl Hu Hb.
  pose proof (submit_locked_lease sn acc job s lease) as Ha. rewrite Hs in Ha.
  destruct (Ha Hl) as (tgt&o&Hsel&Heq). apply select_target_Some in Hsel as [_ Hc].
  apply candidate_selectable_inv in Hc as (Hbound&_).
  pose proof (admit_locked_lease sn job tgt o (decision_state sn acc job s)) as Hlease.
  rewrite <-Heq in Hlease. cbn in Hlease. rewrite Hl in Hlease. injection Hlease as ->. cbn.
  symmetry. apply Hbound. unfold bound_target_of, decision_state. rewrite Hu. cbn.
  by rewrite supersede_bindings, refresh_bindings.
Qed.

(** ** Memory *)

Definition snapshot_wf (snapshot : BudgetSnapshot) : Prop :=
  0 ≤ bs_gpu_vram_used_bytes snapshot ∧ 0 ≤ bs_additional_game_vram_reserve_bytes snapshot.

Lemma sat_add64_total x r t :
  0 ≤ x → 0 ≤ r → 0 ≤ t →
  sat_add64 (sat_add64 x r) t = sat_add64 x (sat_add64 r t).
Proof. unfold sat_add64, u64_max. lia. Qed.

Lemma sat_add64_nonneg a b : 0 ≤ a → 0 ≤ b → 0 ≤ sat_add64 a b.
Proof. unfold sat_add64, u64_max. lia. Qed.

Lemma sat_sub_nonneg a b : 0 ≤ sat_sub a b.
Proof. unfold sat_sub. lia. Qed.

(** What [target_fits] accepts, in terms of the projection that is reported. *)
Lemma target_fits_projection s snapshot t :
  snapshot_wf snapshot → target_wf t → target_fits config s snapshot t = true →
  ∃ e, effective_job_estimate s t = Some e ∧
  let p := projection config snapshot s e in
  pr_ram_bytes p ≤ bs_system_ram_budget_bytes snapshot ∧
  (pr_vram_bytes p ≤ vram_ceiling config snapshot ∨
   pr_vram_bytes p ≤ vram_ceiling config snapshot + transient_vram_allowance_bytes config ∧
   0 < re_transient_duration_ms e ≤ transient_vram_grace_ms config).
Proof.
  intros [Hs1 Hs2] Hw. unfold target_fits.
  destruct (effective_job_estimate s t) as [e|] eqn:He; [|done].
  assert (0 ≤ re_vram_resident_bytes e ∧ 0 ≤ re_vram_transient_bytes e) as [Hr Ht].
  { destruct Hw as (?&?&?). unfold effective_job_estimate in He.
    repeat case_match; simplify_eq; cbn; lia. }
  intros Hf. exists e. split; [done|].
  unfold projection, total_vram. cbn [pr_vram_bytes pr_ram_bytes].
  set (u := unreported_gpu_usage _ _) in *.
  assert (0 ≤ sat_add64 (sat_add64 (protected_gpu_vram_used snapshot) (ag_resident_bytes u))
            (ag_transient_bytes u)) as Hx.
  { unfold protected_gpu_vram_used, u, unreported_gpu_usage. cbn.
    repeat apply sat_add64_nonneg; try apply sat_sub_nonneg; done. }
  rewrite <-(sat_add64_total _ (re_vram_resident_bytes e) (re_vram_transient_bytes e)) by done.
  destruct (bs_system_ram_budget_bytes snapshot <? _) eqn:E1; [done|].
  destruct (vram_ceiling config snapshot <? _) eqn:E2; [done|].
  split; [lia|]. destruct (_ <=? vram_ceiling config snapshot) eqn:E3; [left; lia|right].
  lia.
Qed.

Lemma admission_diagnostic_projection s snapshot job o t reason e :
  NoDup (ct_target_id <$> targets_of job) → t ∈ targets_of job →
  effective_job_estimate s t = Some e →
  ad_projection (admission_diagnostic config snapshot s job o (Some (ct_target_id t)) reason) =
  projection config snapshot s e.
Proof.
  intros Hnd Hin He. unfold admission_diagnostic. cbn [mbind option_bind ad_projection].
  rewrite (find_by_target_id _ t) by done. cbn. by rewrite He.
Qed.

(** The parts of an admission that its caller sees. *)
Lemma admit_locked_parts snapshot job t o s e :
  NoDup (ct_target_id <$> targets_of job) → t ∈ targets_of job →
  effective_job_estimate s t = Some e →
  let r := admit_locked config snapshot job t o s in
  let p := projection config snapshot s e in
  ad_projection (su_diagnostic r.2) = p ∧
  ad_outcome (su_diagnostic r.2) = o ∧
  st_active r.1 = <[rj_job_id job := {|
    ar_job := job; ar_target := t; ar_cancellation := (ct_new (st_cells s)).1;
    ar_output_started := false; ar_cancelled_by_broker := false;
    ar_transient_deadline_ms :=
      if 0 <? pr_transient_overshoot_bytes p
      then Some (sat_add64 (bs_monotonic_ms snapshot) (transient_vram_grace_ms config))
      else None |}]> (st_active s) ∧
  st_cells r.1 = (ct_new (st_cells s)).2.
Proof.
  intros Hnd Hin He. cbn zeta. unfold admit_locked. destruct (ct_new (st_cells s)) as [c cells].
  cbn [fst snd su_diagnostic].
  pose proof (admission_diagnostic_projection (set_cells cells s) snapshot job o t
    (if bool_decide (o = AdmittedFallback)
     then lit "primary target unavailable; authorized fallback admitted"
     else lit "resource lease admitted") e Hnd Hin He) as Hp.
  set (d := admission_diagnostic _ _ _ _ _ _ _) in *.
  split; [exact Hp|]. split; [done|]. rewrite reserve_cells. cbn. split.
  - rewrite reserve_active. by rewrite Hp.
  - done.
Qed.

(** ** Polling *)

Inductive poll_fate := FateAdmitted | FateDropped | FateKept.
#[export] Instance poll_fate_eq_dec : EqDecision poll_fate.
Proof. solve_decision. Defined.

Definition with_fate (f : poll_fate) (l : list (QueuedRecord * poll_fate)) : list QueuedRecord :=
  (List.filter (λ p, bool_decide (p.2 = f)) l).*1.

#[local] Arguments with_fate : simpl never.

Lemma with_fate_cons f r g l :
  with_fate f ((r, g) :: l) = if bool_decide (g = f) then r :: with_fate f l else with_fate f l.
Proof. unfold with_fate. cbn. by destruct (bool_decide (g = f)). Qed.

(** A queued job is dropped for its age only. *)
Definition expired_in_queue (now_ms : Z) (r : QueuedRecord) : bool :=
  is_late (qr_job r) now_ms && bool_decide (rj_drop_policy (qr_job r) = DropIfLate)
  || is_stale config (qr_job r) now_ms.

Lemma poll_one_fate snapshot s leases r : ∃ f,
  le_job_id <$> (poll_one config snapshot (s, leases) r).2 =
    (le_job_id <$> leases) ++ (record_id <$> with_fate FateAdmitted [(r, f)]) ∧
  st_queued (poll_one config snapshot (s, leases) r).1 =
    st_queued s ++ with_fate FateKept [(r, f)] ∧
  (f = FateDropped ↔ expired_in_queue (bs_monotonic_ms snapshot) r = true).
Proof.
  unfold poll_one, expired_in_queue.
  destruct (is_late _ _ && _) eqn:El.
  { exists FateDropped. by rewrite !app_nil_r. }
  destruct (is_stale _ _ _) eqn:Es.
  { exists FateDropped. by rewrite !app_nil_r. }
  destruct (select_target_locked _ _ _ _ _) as [[t o]|].
  - exists FateAdmitted. pose proof (admit_locked_lease snapshot (qr_job r) t o s) as Hl.
    pose proof (admit_locked_jobs config snapshot (qr_job r) t o s) as [_ Hq].
    destruct (admit_locked _ _ _ _ _ _) as [s' sub]. cbn in Hl, Hq |- *. rewrite Hl, Hq.
    by rewrite fmap_app, app_nil_r.
  - exists FateKept. by rewrite app_nil_r.
Qed.

Lemma poll_fold_fates snapshot q s leases : ∃ l,
  l.*1 = q ∧
  le_job_id <$> (foldl (poll_one config snapshot) (s, leases) q).2 =
    (le_job_id <$> leases) ++ (record_id <$> with_fate FateAdmitted l) ∧
  st_queued (foldl (poll_one config snapshot) (s, leases) q).1 =
    st_queued s ++ with_fate FateKept l ∧
  Forall (λ p, p.2 = FateDropped ↔ expired_in_queue (bs_monotonic_ms snapshot) p.1 = true) l.
Proof.
  revert s leases. induction q as [|r q IH]; intros s leases.
  { exists []. by rewrite !app_nil_r. }
  destruct (poll_one_fate snapshot s leases r) as (f&Hl&Hq&Hf). cbn [foldl].
  destruct (poll_one config snapshot (s, leases) r) as [s1 leases1]. cbn in Hl, Hq.
  destruct (IH s1 leases1) as (l&Hl1&Hl2&Hl3&Hl4). exists ((r, f) :: l).
  split; [cbn; by rewrite Hl1|]. rewrite Hl2, Hl3, Hl, Hq, <-!app_assoc.
  split; [|split; [|by constructor]].
  - f_equal. rewrite !with_fate_cons. by case_bool_decide.
  - f_equal. rewrite !with_fate_cons. by case_bool_decide.
Qed.

(** [poll_ready] treats the queue in the order of priority (highest first),
    then deadline (earliest first), then submission; it drops exactly the jobs
    that are too late or stale, leases some of the others in that order, and
    keeps the rest queued in that order: no job is lost or duplicated. *)
Theorem poll_ready_order (t : T) s s' leases snapshot accounted :
  readings t = Ok (snapshot, accounted) → poll_ready config t s = (s', Ok leases) →
  ∃ l : list (QueuedRecord * poll_fate),
    l.*1 ≡ₚ st_queued s ∧ Sorted queue_le l.*1 ∧
    le_job_id <$> leases = record_id <$> with_fate FateAdmitted l ∧
    st_queued s' = with_fate FateKept l ∧
    Forall (λ p, p.2 = FateDropped ↔
                 expired_in_queue (bs_monotonic_ms snapshot) p.1 = true) l.
Proof.
  intros Hr. unfold poll_ready. rewrite Hr. unfold poll_locked.
  set (s1 := refresh _ _ _ _).
  destruct (poll_fold_fates snapshot (sort_by queue_order (st_queued s1)) (set_queued [] s1) [])
    as (l&Hl1&Hl2&Hl3&Hl4).
  destruct (foldl _ _ _) as [s2 leases2]. cbn in Hl2, Hl3. intros; simplify_eq.
  exists l. rewrite Hl1. split; [|by split; [apply queue_sorted|]].
  rewrite sort_by_perm. unfold s1. by rewrite <-(refresh_core config snapshot accounted s).
Qed.

(** an admission fits: its projected memory is within the RAM budget and
    within the VRAM ceiling, or above the ceiling by at most the transient
    allowance for a job whose burst is short enough; in that case, and only
    then, the active job carries the deadline at which it is cancelled. *)
Theorem admission_fits_memory (t : T) job s s' sub lease snapshot accounted :
  readings t = Ok (snapshot, accounted) → snapshot_wf snapshot → job_wf job →
  submit config t job s = (s', Ok sub) → su_lease sub = Some lease →
  let p := ad_projection (su_diagnostic sub) in
  let ceiling := vram_ceiling config snapshot in
  pr_ram_bytes p ≤ bs_system_ram_budget_bytes snapshot ∧
  ∃ a, st_active s' !! rj_job_id job = Some a ∧ ar_job a = job ∧
    (pr_vram_bytes p ≤ ceiling ∧ ar_transient_deadline_ms a = None ∨
     ceiling < pr_vram_bytes p ≤ ceiling + transient_vram_allowance_bytes config ∧
     0 < re_transient_duration_ms (ct_estimate (ar_target a)) ≤ transient_vram_grace_ms config ∧
     ar_transient_deadline_ms a =
       Some (sat_add64 (bs_monotonic_ms snapshot) (transient_vram_grace_ms config))).
Proof.
  intros Hr Hs Hw (sn&acc&Hv&Hr'&Heq)%submit_inv Hl. rewrite Hr in Hr'. simplify_eq.
  pose proof (submit_locked_lease sn acc job s lease) as Ha. rewrite Heq in Ha.
  destruct (Ha Hl) as (tgt&o&Hsel&Heq'). clear Ha.
  pose proof (select_target_authorized _ _ _ _ _ _ Hsel) as Hau%authorized_target.
  pose proof (select_target_wf _ _ _ _ _ _ Hw Hsel) as Hwt.
  apply select_target_Some in Hsel as [_ (_&_&_&Hfit&_)%candidate_selectable_inv].
  destruct (target_fits_projection _ _ _ Hs Hwt Hfit) as (e&He&Hram&Hvram).
  destruct (admit_locked_parts sn job tgt o _ e (validate_job_unique _ Hv) Hau He)
    as (Hp&_&Hact&_).
  rewrite <-Heq' in Hp, Hact. cbn [fst snd] in Hp, Hact. cbn zeta. rewrite Hp, Hact.
  split; [done|]. eexists. split; [apply lookup_insert_eq|]. split; [done|].
  cbn [ar_transient_deadline_ms ar_target].
  assert (re_transient_duration_ms e = re_transient_duration_ms (ct_estimate tgt)) as Hdur.
  { unfold effective_job_estimate in He. by repeat case_match; simplify_eq. }
  assert (∀ p, p = projection config sn (decision_state sn acc job s) e →
    pr_transient_overshoot_bytes p = sat_sub (pr_vram_bytes p) (vram_ceiling config sn)) as Hov
    by by intros ? ->.
  rewrite Hdur in Hvram. clear Hact.
  destruct (0 <? pr_transient_overshoot_bytes _) eqn:E; rewrite (Hov _ eq_refl) in E;
    unfold sat_sub in E; [right|left]; (split; [lia|]); [split; [lia|done]|done].
Qed.

(** once the output of an utterance has begun on a target, every job of
    that utterance that is leased runs on the same target. *)
Theorem bound_utterance_keeps_target (t : T) job s s' sub lease u target :
  submit config t job s = (s', Ok sub) → su_lease sub = Some lease →
  utterance_id (rj_kind job) = Some u → st_utterance_bindings s !! u = Some target →
  le_target_id lease = target.
Proof. apply bound_utterance_keeps_target_gen. Qed.

(** ** Outcomes *)

Lemma select_target_outcome s snapshot job t o :
  select_target_locked config s snapshot job true = Some (t, o) →
  t ∈ targets_of job ∧ (o = AdmittedPrimary ∨ o = AdmittedFallback).
Proof.
  intros Hs. split; [by eapply authorized_target, select_target_authorized|].
  apply select_target_Some in Hs as [Hin _]. unfold selection_candidates in Hin.
  apply elem_of_cons in Hin as [?|(t'&?&_)%list_elem_of_fmap]; simplify_eq; auto.
Qed.

(** What each outcome of a submission says about the state it leaves. *)
Definition outcome_sound (job : ResourceJob) (s s' : BrokerState) (sub : Submission) : Prop :=
  match ad_outcome (su_diagnostic sub) with
  | AdmittedPrimary | AdmittedFallback =>
      ∃ lease a, su_lease sub = Some lease ∧ le_job_id lease = rj_job_id job ∧
        st_active s' !! rj_job_id job = Some a ∧ ar_job a = job ∧
        le_target_id lease = ct_target_id (ar_target a) ∧
        le_cancellation lease = ar_cancellation a ∧ lease_is_cancelled lease s' = false
  | Queued =>
      su_lease sub = None ∧ st_active s' !! rj_job_id job = None ∧
      ∃ q r, st_queued s' = q ++ [r] ∧ qr_job r = job
  | RejectedDuplicate =>
      su_lease sub = None ∧ jobs s' = jobs s ∧ st_queued s' = st_queued s ∧
      id_in_use s (rj_job_id job) = true
  | _ => su_lease sub = None ∧ id_fresh s' (rj_job_id job)
  end.

Lemma rejected_sound snapshot job o reason s0 s :
  (o ∈ [DroppedStale; DroppedLate; DroppedPressure; RejectedPrivacy; RejectedQuarantined;
        RejectedUtteranceBinding]) →
  id_fresh s (rj_job_id job) →
  outcome_sound job s0 (rejected_submission config snapshot job o reason s).1
    (rejected_submission config snapshot job o reason s).2.
Proof.
  intros Ho Hf. unfold outcome_sound. cbn [rejected_submission fst snd su_diagnostic su_lease].
  change (ad_outcome (admission_diagnostic config snapshot s job o None reason)) with o.
  repeat (apply elem_of_cons in Ho as [->|Ho]; [by split|]). by apply elem_of_nil in Ho.
Qed.

Lemma drop_before_sound snapshot job s0 s r :
  drop_before_admission config snapshot job s = Some r → id_fresh s (rj_job_id job) →
  outcome_sound job s0 r.1 r.2.
Proof.
  unfold drop_before_admission. intros Hd Hf.
  repeat case_match; simplify_eq; apply rejected_sound; done || set_solver.
Qed.

Lemma terminal_rejection_outcome s snapshot job o reason :
  terminal_rejection s snapshot job = Some (o, reason) →
  o ∈ [RejectedPrivacy; RejectedQuarantined; RejectedUtteranceBinding].
Proof.
  unfold terminal_rejection. cbn zeta. set (l := List.filter _ _).
  destruct (bool_decide (l = [])); [intros; simplify_eq; set_solver|].
  destruct (is_some_and _ _); [intros; simplify_eq; set_solver|].
  destruct (forallb _ _); [intros; simplify_eq; set_solver|done].
Qed.

Lemma enqueue_sound snapshot job s0 s :
  id_fresh s (rj_job_id job) →
  outcome_sound job s0 (enqueue config snapshot job s).1 (enqueue config snapshot job s).2.
Proof.
  intros [Hf _]. unfold outcome_sound.
  change (ad_outcome (su_diagnostic (enqueue config snapshot job s).2)) with Queued. cbv beta iota.
  split; [done|]. split; [|by eexists _, _].
  apply jobs_none. unfold enqueue.
  pose proof (escalate_core config (bs_monotonic_ms snapshot)
    (lit "admission could not fit current budget") s) as Hc.
  rewrite Hc in Hf. exact Hf.
Qed.

Lemma admit_sound snapshot job t o s0 s :
  t ∈ targets_of job → (o = AdmittedPrimary ∨ o = AdmittedFallback) →
  outcome_sound job s0 (admit_locked config snapshot job t o s).1
    (admit_locked config snapshot job t o s).2.
Proof.
  intros Hin Ho. unfold outcome_sound, admit_locked.
  pose proof (ct_new_live (st_cells s)) as Hlive.
  destruct (ct_new (st_cells s)) as [c cells]. cbn in Hlive. cbn [fst snd su_diagnostic].
  rewrite reserve_cells.
  assert (∀ st reason, ad_outcome (admission_diagnostic config snapshot st job o
    (Some (ct_target_id t)) reason) = o) as Hout by done.
  rewrite Hout. destruct Ho as [-> | ->].
  all: eexists _, _; split; [done|]; split; [done|]; split; [apply lookup_insert_eq|].
  all: repeat (split; [done|]); unfold lease_is_cancelled; exact Hlive.
Qed.

Lemma submit_locked_sound snapshot accounted job s :
  outcome_sound job s (submit_locked config snapshot accounted job s).1
    (submit_locked config snapshot accounted job s).2.
Proof.
  unfold submit_locked. set (s1 := refresh _ _ _ _).
  assert (core_eq s s1) as Hc by apply refresh_core.
  destruct (id_in_use s1 _) eqn:Hf.
  { unfold outcome_sound.
    change (ad_outcome (su_diagnostic (rejected_submission config snapshot job RejectedDuplicate
      (lit "job ID is already active or queued") s1).2)) with RejectedDuplicate.
    split; [done|]. destruct Hc as (Hj&_&_&Hq). split; [by rewrite Hj|].
    split; [by rewrite Hq|]. apply not_false_iff_true. intros Hn%id_in_use_fresh.
    unfold id_in_use in Hf. apply orb_true_iff in Hf as [Hf|Hf].
    - destruct Hn as [Hn _]. rewrite Hj in Hn. apply jobs_none in Hn. by rewrite Hn in Hf.
    - destruct Hn as [_ Hn]. apply Hn. unfold queue_ids. rewrite Hq.
      apply existsb_exists in Hf as (r&Hin&Hr). apply bool_decide_eq_true in Hr. rewrite <-Hr.
      apply list_elem_of_In in Hin. by apply (list_elem_of_fmap_2 record_id). }
  apply id_in_use_fresh in Hf.
  destruct (drop_before_admission _ _ _ _) as [r|] eqn:Ed; [by apply (drop_before_sound _ _ _ _ _ Ed)|].
  destruct (supersede_prims config false snapshot job s1) as (_&Hj&Hq).
  set (s2 := supersede_queued _ _ _ _) in *.
  assert (id_fresh s2 (rj_job_id job)) as Hf2 by by apply (id_fresh_submseteq s1).
  destruct (select_target_locked _ _ _ _ _) as [[t o]|] eqn:Es.
  { apply select_target_outcome in Es as [??]. by apply admit_sound. }
  destruct (terminal_rejection _ _ _) as [[o reason]|] eqn:Et.
  { apply rejected_sound; [|done]. apply terminal_rejection_outcome in Et. set_solver. }
  destruct (rj_drop_policy job); try by apply enqueue_sound.
  - case_match; [|by apply enqueue_sound]. apply rejected_sound; [set_solver|done].
  - apply rejected_sound; [set_solver|done].
Qed.

(** the outcome of a submission is sound on every branch: an error changes
    nothing; an admission leases exactly the submitted job with a live token; a
    queued job is at the end of the queue; a duplicate changes neither the jobs
    nor the queue; every other outcome leaves the job neither active nor queued. *)
Theorem submit_outcome_sound (t : T) job s :
  match submit config t job s with
  | (s', Err _) => s' = s
  | (s', Ok sub) => outcome_sound job s s' sub
  end.
Proof.
  unfold submit. destruct (_ ≫= _) as [[sn acc]|]; [|done].
  pose proof (submit_locked_sound sn acc job s). by destruct (submit_locked _ _ _ _ _).
Qed.
End admission.

(** ** One privacy rule in two places *)

(** The routing policy with the same settings. *)
Definition policy_of (p : BrokerPrivacyContext) : PrivacyPolicy := {|
  pp_execution_mode := bp_execution_mode p;
  pp_network_policy := bp_network_policy p;
  pp_authorized_cloud_providers := bp_authorized_cloud_providers p;
  pp_allow_retaining_providers := bp_allow_retaining_providers p
|}.

(** the broker's privacy check accepts a provider exactly when the routing
    policy with the same settings evaluates it to [Allowed]. *)
Theorem allows_iff_policy_allowed p d :
  allows p d = true ↔ evaluate (policy_of p) d = Allowed.
Proof.
  unfold allows, evaluate. cbn.
  destruct (is_networked (pd_location d)), (pd_may_retain_data d),
    (bp_allow_retaining_providers p), (bp_network_policy p), (bp_execution_mode p); cbn;
    repeat (case_bool_decide; cbn); split; congruence.
Qed.

(** ** The theorems at concrete inputs *)

(** Two high-priority jobs and one late job wait behind a full GPU. *)
Definition waiting_job (id : str) (p : JobPriority) (deadline : option Z) : ResourceJob := {|
  rj_job_id := id; rj_kind := Embedding; rj_priority := p; rj_deadline_ms := deadline;
  rj_primary := gpu_target id None GpuShared 9000 0; rj_fallbacks := [];
  rj_drop_policy := DropIfLate; rj_privacy := fully_local |}.

Definition waiting_state : BrokerState :=
  broker_run (ESubmit (telemetry_at 0 9000) <$>
    [waiting_job (lit "low") Background None; waiting_job (lit "high") Critical None;
     waiting_job (lit "late") Critical (Some 4)]).

Lemma poll_ready_order_witness : ∃ s' leases,
  poll_ready broker_config_default (telemetry_at 9 0) waiting_state = (s', Ok leases) ∧
  le_job_id <$> leases = [lit "high"] ∧ record_id <$> st_queued s' = [lit "low"] ∧
  ∃ l : list (QueuedRecord * poll_fate), l.*1 ≡ₚ st_queued waiting_state ∧ Sorted queue_le l.*1.
Proof.
  destruct (poll_ready broker_config_default (telemetry_at 9 0) waiting_state) as [s' r] eqn:E.
  destruct r as [leases|]; [|vm_compute in E; discriminate E].
  exists s', leases. split; [reflexivity|].
  assert (readings (telemetry_at 9 0) = Ok (example_snapshot 9 0, accounted_default)) as Hr
    by (vm_compute; reflexivity).
  destruct (poll_ready_order broker_config_default (telemetry_at 9 0) waiting_state s' leases
    (example_snapshot 9 0) accounted_default Hr E) as (l&Hl1&Hl2&_).
  split; [|split; [|exists l; exact (conj Hl1 Hl2)]].
  - assert (match (poll_ready broker_config_default (telemetry_at 9 0) waiting_state).2 with
      | Ok ls => le_job_id <$> ls | Err _ => [] end = [lit "high"]) as Hc by (vm_compute; reflexivity).
    by rewrite E in Hc.
  - assert (record_id <$> st_queued
      (poll_ready broker_config_default (telemetry_at 9 0) waiting_state).1 = [lit "low"])
      as Hc by (vm_compute; reflexivity).
    by rewrite E in Hc.
Defined.

Lemma admission_fits_memory_witness : ∃ s' sub,
  submit broker_config_default (telemetry_at 7 8990) burst_job broker_state_default
    = (s', Ok sub) ∧
  pr_vram_bytes (ad_projection (su_diagnostic sub)) = (10 * 1024 + 150) * MIB ∧
  ∃ a, st_active s' !! lit "burst" = Some a ∧ ar_transient_deadline_ms a = Some 2007.
Proof.
  destruct (submit broker_config_default (telemetry_at 7 8990) burst_job broker_state_default)
    as [s' r] eqn:E.
  destruct r as [sub|]; [|vm_compute in E; discriminate E]. exists s', sub. split; [reflexivity|].
  assert (match (submit broker_config_default (telemetry_at 7 8990) burst_job
      broker_state_default).2 with
    | Ok sub => (is_some (su_lease sub), pr_vram_bytes (ad_projection (su_diagnostic sub)))
    | Err _ => (false, 0) end = (true, (10 * 1024 + 150) * MIB)) as Hc by (vm_compute; reflexivity).
  rewrite E in Hc. injection Hc as Hl Hv. split; [exact Hv|].
  destruct (su_lease sub) as [lease|] eqn:El; [|discriminate Hl].
  destruct (admission_fits_memory broker_config_default (telemetry_at 7 8990) burst_job
    broker_state_default s' sub lease (example_snapshot 7 8990) accounted_default)
    as (_&a&Ha&_&Hd).
  - vm_compute. reflexivity.
  - split; vm_compute; discriminate.
  - repeat constructor; vm_compute; discriminate.
  - exact E.
  - exact El.
  - exists a. split; [exact Ha|].
    destruct Hd as [[Hle _]|(_&_&Hd)].
    + rewrite Hv in Hle. exfalso. apply Hle. vm_compute. reflexivity.
    + rewrite Hd. vm_compute. reflexivity.
Defined.

(** An utterance bound to [x] by its first job. *)
Definition bound_state : BrokerState :=
  broker_run [ESubmit (telemetry_at 0 0)
      (gpu_job (lit "a") (SpeechSynthesis (lit "u") 0) (gpu_target (lit "x") None GpuNone 0 0) Never);
    EOutput (lit "a")].

Definition second_sentence : ResourceJob := {|
  rj_job_id := lit "b"; rj_kind := SpeechSynthesis (lit "u") 1; rj_priority := Interactive;
  rj_deadline_ms := None; rj_primary := gpu_target (lit "y") None GpuNone 0 0;
  rj_fallbacks := [gpu_target (lit "x") None GpuNone 0 0]; rj_drop_policy := Never;
  rj_privacy := fully_local |}.

Lemma bound_utterance_keeps_target_witness : ∃ s' sub lease,
  submit broker_config_default (telemetry_at 1 0) second_sentence bound_state = (s', Ok sub) ∧
  su_lease sub = Some lease ∧ le_target_id lease = lit "x".
Proof.
  destruct (submit broker_config_default (telemetry_at 1 0) second_sentence bound_state)
    as [s' r] eqn:E.
  destruct r as [sub|]; [|vm_compute in E; discriminate E].
  assert (match (submit broker_config_default (telemetry_at 1 0) second_sentence bound_state).2 with
    | Ok sub => is_some (su_lease sub) | Err _ => false end = true) as Hc by (vm_compute; reflexivity).
  rewrite E in Hc. cbn [snd] in Hc. destruct (su_lease sub) as [lease|] eqn:El; [|discriminate Hc].
  exists s', sub, lease. split; [reflexivity|]. split; [exact El|].
  apply (bound_utterance_keeps_target broker_config_default (telemetry_at 1 0) second_sentence
    bound_state s' sub lease (lit "u") (lit "x") E El); vm_compute; reflexivity.
Defined.

(** The binding itself is not protected: a second job of the utterance that was
    leased on another target before any output began replaces the binding when
    it begins its own output. *)
Theorem binding_replaced_mid_utterance :
  let job id target := gpu_job id (SpeechSynthesis (lit "u") 0)
    (gpu_target target None GpuNone 0 0) Never in
  let s := broker_run [ESubmit (telemetry_at 0 0) (job (lit "a") (lit "x"));
    ESubmit (telemetry_at 0 0) (job (lit "b") (lit "y")); EOutput (lit "a")] in
  st_utterance_bindings s !! lit "u" = Some (lit "x") ∧
  st_utterance_bindings (mark_output_started (lit "b") s).1 !! lit "u" = Some (lit "y").
Proof. split; vm_compute; reflexivity. Qed.
