(* ===== verification/BrokerLifecycle.v ===== *)
(** * Resource broker: bookkeeping around the core

    Invariants of the state that the scheduling core does not see: the pressure
    level, the degradation count, the diagnostics ring and the cancellation
    tokens. [broker_do_closed] is the shared rule: a predicate kept by each
    elementary update is kept by every operation. The second half is the end of jobs,
    failures and the eviction of models. *)

From S2P Require Import Prelude Text Float Policy BrokerTypes BrokerCore Broker BrokerSim BrokerInv BrokerLedger BrokerSpec BrokerAdmission.

#[local] Open Scope Z_scope.

Section closed.
Context `{CancelApi, HashIter, BudgetTelemetry T}.
Context (config : ResourceBrokerConfig).

(** ** The rule *)

Section rule.
Context (I : BrokerState → Prop).

Record closed : Prop := {
  cl_push d s : I s → I (push_diagnostic config d s);
  cl_drain s : I s → I (set_diagnostics [] s);
  cl_pressure sn s : I s → I (update_pressure_locked config sn s);
  cl_escalate now reason s : I s → I (escalate_degradation_locked config now reason s);
  cl_queued q s : I s → I (set_queued q s);
  cl_sequence n s : I s → I (set_sequence n s);
  cl_residency r s : I s → I (set_residency r s);
  cl_health h s : I s → I (set_target_health h s);
  cl_bindings b s : I s → I (set_utterance_bindings b s);
  cl_accounted a s : I s → I (set_telemetry_accounted a s);
  cl_cancel id a s : I s → st_active s !! id = Some a →
    I (set_cells (ct_cancel (ar_cancellation a) (st_cells s))
         (set_active (<[id := set_cancelled_by_broker a]> (st_active s)) s));
  cl_output id a s : I s → st_active s !! id = Some a →
    I (set_active (<[id := set_output_started a]> (st_active s)) s);
  cl_admit sn job t o s : I s → I (admit_locked config sn job t o s).1;
  cl_release id a s : I s → st_active s !! id = Some a →
    I (release (set_active (delete id (st_active s)) s) (ar_job a) (ar_target a))
}.

Context (Hc : closed).

Lemma closed_foldl_push {B} (f : BrokerState → B → BrokerDiagnostic) l s :
  I s → I (foldl (λ s x, push_diagnostic config (f s x) s) s l).
Proof using Hc. revert s. induction l; intros s Hs; [done|]. cbn. by apply IHl, cl_push. Qed.

Lemma closed_expire_entries now entries s expired :
  NoDup entries.*1 → Forall (λ e, st_active s !! e.1 = Some e.2) entries → I s →
  I (foldl (expire_entry now) (s, expired) entries).1.
Proof using Hc.
  revert s expired. induction entries as [|[id a] entries IH]; [done|].
  intros s expired [Hid Hnd]%NoDup_cons [Ha Hall]%Forall_cons Hs. cbn in Ha |- *.
  case_match; [|by apply IH]. apply IH; [done| |by apply cl_cancel].
  apply Forall_forall. intros [k b] Hin. rewrite Forall_forall in Hall.
  pose proof (Hall _ Hin) as Hk. cbn in Hk |- *. rewrite lookup_insert_ne; [done|].
  intros ->. apply Hid. by apply (list_elem_of_fmap_2 fst _ (k, b)).
Qed.

Lemma hm_iter_keys {A} (m : gmap str A) : NoDup (hm_iter m).*1.
Proof using. rewrite hm_iter_perm. apply NoDup_fst_map_to_list. Qed.

Lemma hm_iter_entries {A} (m : gmap str A) : Forall (λ e, m !! e.1 = Some e.2) (hm_iter m).
Proof using. apply Forall_forall. intros [k a] Hin. by apply hm_iter_lookup. Qed.

Lemma closed_expire now s : I s → I (expire_transient_overages_locked config now s).
Proof using Hc.
  intros Hs. unfold expire_transient_overages_locked.
  pose proof (closed_expire_entries now (hm_iter (st_active s)) s [] (hm_iter_keys _)
    (hm_iter_entries _) Hs) as He.
  destruct (foldl _ _ _) as [s' expired]. cbn in He.
  by apply (closed_foldl_push (λ _ id, CancellationRequested _ id _)).
Qed.

Lemma closed_refresh sn acc s : I s → I (refresh config sn acc s).
Proof using Hc.
  intros. unfold refresh. by apply cl_pressure, closed_expire, cl_accounted.
Qed.

Lemma closed_rejected sn job o reason s :
  I s → I (rejected_submission config sn job o reason s).1.
Proof using Hc. intros. by apply cl_push. Qed.

Lemma closed_enqueue sn job s : I s → I (enqueue config sn job s).1.
Proof using Hc.
  intros. unfold enqueue. cbn. apply cl_push; [done|]. apply cl_queued; [done|].
  apply cl_sequence; [done|]. by apply cl_escalate.
Qed.

Lemma closed_supersede sn job s : I s → I (supersede_queued config sn job s).
Proof using Hc.
  intros. unfold supersede_queued, push_admission. case_match; try done.
  apply (closed_foldl_push (λ st old, Admission (admission_diagnostic config sn st
    (qr_job old) DroppedStale None _))). by apply cl_queued.
Qed.

Lemma closed_submit_locked sn acc job s : I s → I (submit_locked config sn acc job s).1.
Proof using Hc.
  intros Hs. unfold submit_locked. set (s1 := refresh _ _ _ _).
  assert (I s1) as H1' by by apply closed_refresh.
  destruct (id_in_use _ _); [by apply closed_rejected|].
  destruct (drop_before_admission _ _ _ _) as [r|] eqn:Ed.
  { unfold drop_before_admission in Ed. repeat case_match; simplify_eq; by apply closed_rejected. }
  set (s2 := supersede_queued _ _ _ _).
  assert (I s2) as H2' by by apply closed_supersede.
  destruct (select_target_locked _ _ _ _ _) as [[t o]|]; [by apply cl_admit|].
  destruct (terminal_rejection _ _ _) as [[o reason]|]; [by apply closed_rejected|].
  destruct (rj_drop_policy job); try by apply closed_enqueue.
  - destruct (is_late _ _); [by apply closed_rejected|by apply closed_enqueue].
  - by apply closed_rejected.
Qed.

Lemma closed_poll_fold sn q s leases :
  I s → I (foldl (poll_one config sn) (s, leases) q).1.
Proof using Hc.
  revert s leases. induction q as [|r q IH]; intros s leases Hs; [done|]. cbn [foldl].
  assert (I (poll_one config sn (s, leases) r).1) as Hone.
  { unfold poll_one. destruct (_ && _); [by apply cl_push|].
    destruct (is_stale _ _ _); [by apply cl_push|].
    destruct (select_target_locked _ _ _ _ _) as [[t o]|]; [|by apply cl_queued].
    pose proof (cl_admit Hc sn (qr_job r) t o s Hs). by destruct (admit_locked _ _ _ _ _ _). }
  destruct (poll_one _ _ _ _) as [s' leases']. by apply IH.
Qed.

Lemma closed_report_oom sn acc id s : I s → I (report_oom_locked config sn acc id s).1.
Proof using Hc.
  intros Hs. unfold report_oom_locked. set (s1 := set_telemetry_accounted _ _).
  assert (I s1) as H1' by by apply cl_accounted.
  destruct (st_active s1 !! id) as [a|]; [|done]. case_match; [by apply cl_health|].
  cbn [fst]. unfold quarantine_after_oom. apply cl_push; [done|].
  case_match; [apply cl_residency; [done|]|]; by apply cl_health.
Qed.

Lemma broker_do_closed e s : I s → I (broker_do config e s).
Proof using Hc.
  intros Hs. destruct e; cbn.
  - unfold submit. destruct (_ ≫= _) as [[sn acc]|]; [|done].
    pose proof (closed_submit_locked sn acc job s Hs). by destruct (submit_locked _ _ _ _ _).
  - unfold poll_ready. destruct (readings t) as [[sn acc]|]; [|done]. unfold poll_locked.
    set (s1 := refresh _ _ _ _).
    pose proof (closed_poll_fold sn (sort_by queue_order (st_queued s1)) (set_queued [] s1) []
      (cl_queued Hc [] s1 (closed_refresh sn acc s Hs))). by destruct (foldl _ _ _).
  - unfold refresh_pressure. destruct (readings t) as [[sn acc]|]; [|done].
    by apply closed_refresh.
  - unfold register_model_residency. repeat case_match; try done. by apply cl_residency.
  - unfold begin_model_warming. repeat case_match; try done. by apply cl_residency.
  - unfold mark_model_loaded. repeat case_match; try done.
    all: try apply cl_residency; try done; by apply cl_accounted.
  - unfold begin_model_eviction, transition_idle_model. repeat case_match; try done.
    by apply cl_residency.
  - unfold mark_model_cold, transition_idle_model. repeat case_match; try done.
    by apply cl_residency.
  - unfold quarantine_model_residency. repeat case_match; try done. by apply cl_residency.
  - unfold clear_model_quarantine. repeat case_match; try done. by apply cl_residency.
  - unfold cancel. destruct (telemetry_snapshot t) as [sn|]; [|done].
    destruct (remove_queued job_id _) as [[q rest]|].
    { apply cl_push; [done|]. by apply cl_queued. }
    destruct (st_active s !! job_id) as [a|] eqn:Ha; [|done].
    apply cl_push; [done|]. exact (cl_cancel Hc job_id a s Hs Ha).
  - unfold mark_output_started. destruct (st_active s !! job_id) as [a|] eqn:Ha; [|done].
    case_match; cbn; [apply cl_bindings; [done|]|]; by apply cl_output.
  - by apply cl_bindings.
  - unfold report_oom. destruct (readings t) as [[sn acc]|]; [|done].
    pose proof (closed_report_oom sn acc job_id s Hs). by destruct (report_oom_locked _ _ _ _ _).
  - by apply cl_drain.
  - unfold finish_lease. destruct (st_active s !! job_id) as [a|] eqn:Ha; [|done].
    apply cl_push; [done|]. case_match; [apply cl_health; [done|]|]; by apply cl_release.
Qed.

Lemma reachable_closed strict s :
  I broker_state_default → reachable config strict s → I s.
Proof using Hc. intros Hi. induction 1; [done|]. by apply broker_do_closed. Qed.
End rule.
End closed.

(** ** Pressure, degradation and diagnostics *)

Section books.
Context `{CancelApi, HashIter, BudgetTelemetry T}.
Context (config : ResourceBrokerConfig).

Record books_ok (s : BrokerState) : Prop := {
  bk_floor : pressure_floor (st_pressure s) ≤ st_degradation_count s;
  bk_count : 0 ≤ st_degradation_count s ≤ Z.of_nat (length DEGRADATION_ORDER);
  bk_ring : Z.of_nat (length (st_diagnostics s)) ≤ diagnostic_capacity config
}.

(** The same with the floor still to be raised. *)
Definition ring_ok (s : BrokerState) : Prop :=
  0 ≤ st_degradation_count s ≤ Z.of_nat (length DEGRADATION_ORDER) ∧
  Z.of_nat (length (st_diagnostics s)) ≤ diagnostic_capacity config.

Context (Hcap : 0 < diagnostic_capacity config).

Lemma degradation_len : Z.of_nat (length DEGRADATION_ORDER) = 7.
Proof using. done. Qed.

Lemma push_ring d s :
  Z.of_nat (length (st_diagnostics s)) ≤ diagnostic_capacity config →
  Z.of_nat (length (st_diagnostics (push_diagnostic config d s))) ≤ diagnostic_capacity config.
Proof using Hcap.
  intros Hl. cbn. rewrite length_app. cbn.
  destruct (Z.of_nat (length (st_diagnostics s)) =? diagnostic_capacity config) eqn:E; [|lia].
  destruct (st_diagnostics s); cbn in *; lia.
Qed.

Lemma push_books d s : books_ok s → books_ok (push_diagnostic config d s).
Proof using Hcap. intros [? ? ?]. constructor; [done..|]. by apply push_ring. Qed.

Lemma floor_range p : 0 ≤ pressure_floor p ≤ 2.
Proof. by destruct p. Qed.

Lemma raise_books now s :
  ring_ok s → books_ok (raise_to_pressure_floor config now s).
Proof using Hcap.
  intros [Hc Hr]. pose proof (floor_range (st_pressure s)). unfold raise_to_pressure_floor.
  rewrite degradation_len in *. case_match eqn:E.
  - apply push_books. constructor; rewrite ?degradation_len; cbn -[DEGRADATION_ORDER]; lia || done.
  - constructor; rewrite ?degradation_len; lia || done.
Qed.

Lemma recover_books now s : books_ok s → books_ok (recover_when_green config now s).
Proof using Hcap.
  intros [Hf Hc Hr]. unfold recover_when_green.
  case_bool_decide as Hg; [|by constructor]. case_match eqn:E; [|by constructor].
  apply push_books. constructor; cbn in *; [|lia|done]. rewrite Hg. cbn. lia.
Qed.

Lemma update_pressure_books sn s : books_ok s → books_ok (update_pressure_locked config sn s).
Proof using Hcap.
  intros [Hf Hc Hr]. unfold update_pressure_locked. apply recover_books, raise_books.
  set (s1 := set_pressure _ s). assert (ring_ok s1) as [? ?] by done.
  destruct (negb _); [|done]. split; [done|]. by apply push_ring.
Qed.

Lemma escalate_books now reason s :
  books_ok s → books_ok (escalate_degradation_locked config now reason s).
Proof using Hcap.
  intros [Hf Hc Hr]. unfold escalate_degradation_locked. case_match eqn:E; [|done].
  rewrite degradation_len in *. apply push_books.
  constructor; rewrite ?degradation_len; cbn -[DEGRADATION_ORDER]; [lia..|done].
Qed.

Lemma admit_books sn job t o s :
  books_ok s → books_ok (admit_locked config sn job t o s).1.
Proof using Hcap.
  intros [Hf Hc Hr]. unfold admit_locked. destruct (ct_new (st_cells s)) as [c cells].
  rewrite reserve_cells. cbn [fst]. apply push_books.
  unfold reserve. constructor; cbn; destruct (registered_model_for_target s t); done.
Qed.

Lemma release_books s id a :
  books_ok s → books_ok (release (set_active (delete id (st_active s)) s) (ar_job a) (ar_target a)).
Proof using.
  intros [Hf Hc Hr]. unfold release. set (s0 := set_active _ s).
  constructor; destruct (registered_model_for_target s0 (ar_target a)); done.
Qed.

Lemma books_closed : closed config books_ok.
Proof using Hcap.
  constructor; intros; try done.
  - by apply push_books.
  - destruct H2. constructor; [done..|]. cbn. lia.
  - by apply update_pressure_books.
  - by apply escalate_books.
  - by destruct H2.
  - by destruct H2.
  - by destruct H2.
  - by destruct H2.
  - by destruct H2.
  - by destruct H2.
  - by destruct H2.
  - by destruct H2.
  - by apply admit_books.
  - by apply release_books.
Qed.

(** in every reachable state the degradation count is within the list of
    degradations (so the slice of active degradations never panics) and at least
    the floor of the current pressure level, and the diagnostics ring never
    exceeds its capacity. *)
Theorem degradation_and_diagnostics_bounded strict s :
  reachable config strict s →
  pressure_floor (st_pressure s) ≤ st_degradation_count s
    ≤ Z.of_nat (length DEGRADATION_ORDER) ∧
  Z.of_nat (length (active_degradations s)) = st_degradation_count s ∧
  Z.of_nat (length (st_diagnostics s)) ≤ diagnostic_capacity config.
Proof using Hcap.
  intros Hr. destruct (reachable_closed config books_ok books_closed strict s) as [Hf Hc Hd].
  - constructor; cbn; lia.
  - done.
  - split; [lia|]. split; [|done]. unfold active_degradations, active_order.
    rewrite length_take. rewrite degradation_len in Hc.
    assert (length DEGRADATION_ORDER = 7)%nat as -> by done. lia.
Qed.
End books.

(** ** Hysteresis *)

(** Above a threshold is not below a smaller one. *)
Lemma threshold_gap a b u : f_lt a b = true → f_ge u b = true → f_le u a = false.
Proof.
  unfold f_lt, f_ge, f_le, SpecFloat.SFltb, SpecFloat.SFleb, SpecFloat.SFcompare.
  destruct a as [[]|[]| |[] ma ea], b as [[]|[]| |[] mb eb], u as [[]|[]| |[] mu eu];
    try done; change (Pos.compare_cont Eq) with Pos.compare.
  all: repeat match goal with
    | |- context [(?x ?= ?y)%Z] => destruct (Z.compare_spec x y); subst
    | |- context [(?x ?= ?y)%positive] => destruct (Pos.compare_spec x y); subst
    end; cbn; try done; try lia.
Qed.

Lemma f_ge_le_trans a b u : f_lt a b = true → f_ge u b = true → f_ge u a = true.
Proof.
  unfold f_lt, f_ge, SpecFloat.SFltb, SpecFloat.SFleb, SpecFloat.SFcompare.
  destruct a as [[]|[]| |[] ma ea], b as [[]|[]| |[] mb eb], u as [[]|[]| |[] mu eu];
    try done; change (Pos.compare_cont Eq) with Pos.compare.
  all: repeat match goal with
    | |- context [(?x ?= ?y)%Z] => destruct (Z.compare_spec x y); subst
    | |- context [(?x ?= ?y)%positive] => destruct (Pos.compare_spec x y); subst
    end; cbn; try done; try lia.
Qed.

(** with the thresholds that [validate] asserts, the pressure level settles:
    after two readings of the same utilization it no longer changes, so it never
    flaps between two levels. *)
Theorem pressure_settles config p u :
  broker_config_validate config = true →
  let next p := next_pressure config p u in
  next (next (next p)) = next (next p) ∧ (next p ≠ p → next (next p) ≠ p).
Proof.
  unfold broker_config_validate. rewrite !andb_true_iff. intros H.
  destruct H as [[[[[[[_ Hga] Haa] Hrr] _] _] _] _].
  pose proof (threshold_gap _ _ u Hga) as G1. pose proof (threshold_gap _ _ u Hrr) as G2.
  cbn zeta. unfold next_pressure.
  destruct (f_ge u (red_enter_ratio config)), (f_ge u (amber_enter_ratio config));
    rewrite ?G1, ?G2 by done; destruct p; cbn;
    repeat (destruct (f_le u _); cbn; try done).
Qed.

Lemma pressure_settles_witness :
  next_pressure broker_config_default Red (f64_lit 60 100) = Amber ∧
  next_pressure broker_config_default
    (next_pressure broker_config_default
       (next_pressure broker_config_default Red (f64_lit 60 100)) (f64_lit 60 100))
    (f64_lit 60 100) =
  next_pressure broker_config_default
    (next_pressure broker_config_default Red (f64_lit 60 100)) (f64_lit 60 100).
Proof.
  split; [vm_compute; reflexivity|].
  refine (proj1 (pressure_settles broker_config_default Red (f64_lit 60 100) _)).
  vm_compute. reflexivity.
Defined.

Lemma degradation_and_diagnostics_bounded_witness :
  st_degradation_count example_state = 1 ∧
  Z.of_nat (length (active_degradations example_state)) = st_degradation_count example_state.
Proof.
  split; [vm_compute; reflexivity|].
  refine (proj1 (proj2 (degradation_and_diagnostics_bounded broker_config_default _ true
    example_state (example_reachable _)))).
  vm_compute. reflexivity.
Defined.

(** ** Cancellation *)

Section tokens.
Context `{CancelApi, HashIter, BudgetTelemetry T}.
Context (config : ResourceBrokerConfig).

(** Every active job has a token that was handed out, and it is cancelled once
    the broker says so. *)
Definition token_ok (cells : cstore) (a : ActiveRecord) : Prop :=
  ct_issued cells (ar_cancellation a) ∧
  (ar_cancelled_by_broker a = true → ct_is_cancelled cells (ar_cancellation a) = true).

Definition tokens_ok (s : BrokerState) : Prop :=
  map_Forall (λ _ a, token_ok (st_cells s) a) (st_active s).

Lemma token_ok_cancel cells t a : token_ok cells a → token_ok (ct_cancel t cells) a.
Proof.
  intros [Hi Hc]. split; [by apply ct_cancel_issued|]. intros Hb.
  destruct (ct_is_cancelled (ct_cancel t cells) (ar_cancellation a)) eqn:E; [done|].
  rewrite <-E, ct_cancel_other; [by apply Hc|].
  intros ->. by rewrite ct_cancel_self in E.
Qed.

Lemma token_ok_new cells a : token_ok cells a → token_ok (ct_new cells).2 a.
Proof.
  intros [Hi Hc]. destruct (ct_new_keeps cells _ Hi) as [Hi' Heq]. split; [done|].
  rewrite Heq. apply Hc.
Qed.

Lemma admit_active_cells sn job t o s : ∃ a,
  ar_job a = job ∧ ar_target a = t ∧ ar_cancelled_by_broker a = false ∧
  ar_cancellation a = (ct_new (st_cells s)).1 ∧
  st_active (admit_locked config sn job t o s).1 = <[rj_job_id job := a]> (st_active s) ∧
  st_cells (admit_locked config sn job t o s).1 = (ct_new (st_cells s)).2.
Proof.
  unfold admit_locked. destruct (ct_new (st_cells s)) as [c cells]. cbn [fst snd].
  rewrite reserve_cells. eexists. split; [|split; [|split; [|split; [|split]]]].
  5: { cbn. rewrite reserve_active. reflexivity. }
  all: done.
Qed.

Lemma tokens_closed : closed config tokens_ok.
Proof.
  unfold tokens_ok. constructor; intros; try done.
  - unfold update_pressure_locked, recover_when_green, raise_to_pressure_floor.
    repeat case_match; done.
  - unfold escalate_degradation_locked. by case_match.
  - cbn. apply map_Forall_insert_2.
    + destruct (H2 _ _ H3) as [Hi _]. split; cbn; [by apply ct_cancel_issued|].
      intros _. by apply ct_cancel_self.
    + intros k b Hb. by apply token_ok_cancel, (H2 k).
  - apply map_Forall_insert_2; [|done]. apply (H2 _ _ H3).
  - destruct (admit_active_cells sn job t o s) as (a&_&_&Hf&Ht&->&->).
    apply map_Forall_insert_2.
    + split; [rewrite Ht; apply ct_new_issued|]. by rewrite Hf.
    + intros k b Hb. by apply token_ok_new, (H2 k).
  - rewrite release_active. cbn.
    assert (st_cells (release (set_active (delete id (st_active s)) s) (ar_job a) (ar_target a))
            = st_cells s) as -> by (unfold release; by case_match).
    by apply map_Forall_delete.
Qed.

Lemma reachable_tokens strict s : reachable config strict s → tokens_ok s.
Proof. apply (reachable_closed config tokens_ok tokens_closed). by apply map_Forall_empty. Qed.

(** The effect of the expiry on the active jobs. *)
Lemma expire_entries_active now entries s expired :
  NoDup entries.*1 → Forall (λ e, st_active s !! e.1 = Some e.2) entries →
  ∀ k, st_active (foldl (expire_entry now) (s, expired) entries).1 !! k =
    if decide (k ∈ entries.*1)
    then (λ a, if transient_expired now a then set_cancelled_by_broker a else a)
           <$> st_active s !! k
    else st_active s !! k.
Proof.
  revert s expired. induction entries as [|[id a] entries IH]; [done|].
  intros s expired [Hid Hnd]%NoDup_cons [Ha Hall]%Forall_cons k. cbn in Ha.
  cbn [foldl expire_entry]. set (s1 := if transient_expired now a then _ else _).
  assert (∃ s' ex, s1 = (s', ex) ∧ ∀ j, st_active s' !! j =
    if decide (j = id) then Some (if transient_expired now a then set_cancelled_by_broker a else a)
    else st_active s !! j) as (s'&ex&->&Hs').
  { subst s1. destruct (transient_expired now a); eexists _, _; (split; [reflexivity|]); intros j.
    - cbn. destruct (decide (j = id)) as [->|]; [apply lookup_insert_eq|].
      by apply lookup_insert_ne.
    - by destruct (decide (j = id)) as [->|]. }
  rewrite IH; [|done|].
  - rewrite !Hs'. cbn. destruct (decide (k = id)) as [->|Hne].
    + rewrite decide_False by done. rewrite decide_True by by left. by rewrite Ha.
    + destruct (decide (k ∈ entries.*1)) as [Hk|Hk].
      * by rewrite decide_True by by right.
      * rewrite decide_False; [done|]. by intros [|]%elem_of_cons.
  - apply Forall_forall. intros [j b] Hin. rewrite Forall_forall in Hall.
    rewrite Hs', decide_False; [by apply Hall|]. cbn. intros ->. apply Hid.
    by apply (list_elem_of_fmap_2 fst _ (id, b)).
Qed.

Lemma foldl_push_active {B} (f : BrokerState → B → BrokerDiagnostic) l s :
  st_active (foldl (λ s x, push_diagnostic config (f s x) s) s l) = st_active s.
Proof. revert s. induction l as [|x l IH]; intros s; [done|]. cbn. by rewrite IH. Qed.

Lemma expire_active now s :
  st_active (expire_transient_overages_locked config now s) =
  (λ a, if transient_expired now a then set_cancelled_by_broker a else a) <$> st_active s.
Proof.
  unfold expire_transient_overages_locked.
  pose proof (expire_entries_active now (hm_iter (st_active s)) s [] (hm_iter_keys _)
    (hm_iter_entries _)) as He.
  destruct (foldl _ _ _) as [s' expired]. cbn in He.
  rewrite (foldl_push_active (λ _ id, CancellationRequested _ id _)).
  apply map_eq. intros k. rewrite He, lookup_fmap.
  destruct (decide (k ∈ (hm_iter (st_active s)).*1)) as [|Hk]; [done|].
  destruct (st_active s !! k) as [a|] eqn:Ek; [|done]. destruct Hk.
  apply hm_iter_lookup in Ek. by apply (list_elem_of_fmap_2 fst _ (k, a)).
Qed.

Lemma refresh_active sn acc s :
  st_active (refresh config sn acc s) =
  (λ a, if transient_expired (bs_monotonic_ms sn) a then set_cancelled_by_broker a else a)
    <$> st_active s.
Proof.
  unfold refresh.
  assert (∀ s, st_active (update_pressure_locked config sn s) = st_active s) as ->.
  { intros s'. unfold update_pressure_locked, recover_when_green, raise_to_pressure_floor.
    repeat case_match; done. }
  by rewrite expire_active.
Qed.

(** a job that exceeds the VRAM ceiling beyond its grace deadline is
    cancelled: after any telemetry refresh past the deadline its token is
    cancelled; and in every reachable state a job the broker has marked as
    cancelled has a cancelled token. *)
Theorem overdue_jobs_are_cancelled strict s (t : T) sn acc id a deadline :
  reachable config strict s → readings t = Ok (sn, acc) →
  let s' := (refresh_pressure config t s).1 in
  st_active s' !! id = Some a → ar_transient_deadline_ms a = Some deadline →
  deadline < bs_monotonic_ms sn →
  ar_cancelled_by_broker a = true ∧ ct_is_cancelled (st_cells s') (ar_cancellation a) = true.
Proof.
  intros Hr Ht. cbn zeta. unfold refresh_pressure. rewrite Ht. cbn [fst]. intros Ha Hd Hlt.
  pose proof (closed_refresh config tokens_ok tokens_closed sn acc s (reachable_tokens _ _ Hr))
    as Htok.
  destruct (Htok id a Ha) as [_ Hc]. rewrite refresh_active, lookup_fmap in Ha.
  destruct (st_active s !! id) as [a0|]; [|done]. cbn in Ha.
  assert (ar_cancelled_by_broker a = true) as Hb; [|by split; [|apply Hc]].
  destruct (transient_expired (bs_monotonic_ms sn) a0) eqn:E; simplify_eq; [done|].
  unfold transient_expired in E. rewrite Hd in E. cbn in E.
  apply andb_false_iff in E as [E|E]; [lia|]. by apply negb_false_iff in E.
Qed.
End tokens.

Lemma overdue_jobs_are_cancelled_witness : ∃ a,
  st_active (refresh_pressure broker_config_default (telemetry_at 2008 8990) burst_state).1
    !! lit "burst" = Some a ∧
  ar_cancelled_by_broker a = true.
Proof.
  destruct (st_active (refresh_pressure broker_config_default (telemetry_at 2008 8990)
    burst_state).1 !! lit "burst") as [a|] eqn:Ha; [|vm_compute in Ha; discriminate Ha].
  exists a. split; [reflexivity|].
  assert (readings (telemetry_at 2008 8990) = Ok (example_snapshot 2008 8990, accounted_default))
    as Hr by (vm_compute; reflexivity).
  refine (proj1 (overdue_jobs_are_cancelled broker_config_default false burst_state
    (telemetry_at 2008 8990) _ _ (lit "burst") a 2007 burst_reachable Hr Ha _ _)).
  - vm_compute in Ha. injection Ha as <-. reflexivity.
  - vm_compute. reflexivity.
Defined.

(** * Resource broker: the end of jobs, failures and model eviction

    A lease is released once, an out-of-memory target is not used again before
    its quarantine ends, a model is evicted only when no job uses it, and a
    coalesced job replaces its queued predecessors. *)

#[local] Open Scope Z_scope.

Section lifecycle.
Context `{CancelApi, HashIter, BudgetTelemetry T}.
Context (config : ResourceBrokerConfig).

(** ** Leases *)

(** completing a lease ends exactly its job, once: the job is no longer
    active, every other job and the queue are as they were, the last diagnostic
    reports this job with the given usage and status, and finishing it again
    (which is what the drop of the lease would do) changes nothing. *)
Theorem lease_released_once (t t' : T) lease actual actual' measured status status' s a :
  st_active s !! le_job_id lease = Some a →
  let s' := lease_complete config t actual status lease s in
  st_active s' = delete (le_job_id lease) (st_active s) ∧ st_queued s' = st_queued s ∧
  (∃ d, last (st_diagnostics s') = Some (Actual d) ∧ acd_job_id d = le_job_id lease ∧
        acd_actual d = actual ∧ acd_status d = status ∧
        acd_target_id d = ct_target_id (ar_target a)) ∧
  finish_lease config t' (le_job_id lease) actual' measured status' s' = s' ∧
  lease_drop config t' lease s' = s'.
Proof.
  intros Ha. cbn zeta. unfold lease_complete, lease_drop at 1 3 4. cbn [lease_set_completed le_completed].
  set (s' := finish_lease config t (le_job_id lease) actual true status s).
  assert (st_active s' = delete (le_job_id lease) (st_active s) ∧ st_queued s' = st_queued s ∧
    ∃ d, last (st_diagnostics s') = Some (Actual d) ∧ acd_job_id d = le_job_id lease ∧
        acd_actual d = actual ∧ acd_status d = status ∧
        acd_target_id d = ct_target_id (ar_target a)) as (Hact&Hq&Hd).
  { unfold s', finish_lease. rewrite Ha. split; [|split].
    - case_bool_decide; cbn -[release]; by rewrite release_active.
    - case_bool_decide; cbn -[release]; by rewrite release_queued.
    - eexists. split; [apply last_snoc|]. done. }
  assert (∀ t' id' act' m' st', id' = le_job_id lease →
    finish_lease config t' id' act' m' st' s' = s') as Hagain.
  { intros ????? ->. unfold finish_lease. by rewrite Hact, lookup_delete_eq. }
  split; [done|]. split; [done|]. split; [done|]. split; [by apply Hagain|].
  unfold lease_drop. case_match; [done|]. by apply Hagain.
Qed.

(** ** Out of memory *)

Lemma quarantined_after_oom sn a n s now :
  now < sat_add64 (bs_monotonic_ms sn) (quarantine_ms config) →
  is_target_quarantined (quarantine_after_oom config sn a n s) (ct_target_id (ar_target a)) now
    = true.
Proof.
  intros Hnow. unfold is_target_quarantined. apply orb_true_iff. left.
  unfold quarantine_after_oom.
  assert (st_target_health (push_diagnostic config (TargetQuarantined (bs_monotonic_ms sn)
      (ct_target_id (ar_target a)) (sat_add64 (bs_monotonic_ms sn) (quarantine_ms config)) n)
    match ct_model_id (ar_target a) with
    | Some model_id => update_record model_id (set_record_quarantined
        (sat_add64 (bs_monotonic_ms sn) (quarantine_ms config)))
        (set_health (ct_target_id (ar_target a))
          {| th_oom_failures := n; th_quarantine_until_ms :=
               sat_add64 (bs_monotonic_ms sn) (quarantine_ms config) |} s)
    | None => set_health (ct_target_id (ar_target a))
          {| th_oom_failures := n; th_quarantine_until_ms :=
               sat_add64 (bs_monotonic_ms sn) (quarantine_ms config) |} s
    end) !! ct_target_id (ar_target a) = Some {| th_oom_failures := n; th_quarantine_until_ms :=
               sat_add64 (bs_monotonic_ms sn) (quarantine_ms config) |}) as ->.
  { case_match; cbn; apply lookup_insert_eq. }
  cbn. lia.
Qed.

(** once the out-of-memory failures of a target reach the threshold, no job
    is admitted on that target before the quarantine time has passed, the
    running utterance never swaps its model, and a suggested fallback is a
    declared, authorized target other than the failing one. *)
Theorem oom_quarantines_target sn acc id s a s' d :
  st_active s !! id = Some a →
  report_oom_locked config sn acc id s = (s', d) →
  d ≠ RetrySameTargetAfterEviction (ct_target_id (ar_target a)) →
  0 < quarantine_ms config → bs_monotonic_ms sn < u64_max →
  (∀ sn' job t o,
     bs_monotonic_ms sn' < sat_add64 (bs_monotonic_ms sn) (quarantine_ms config) →
     select_target_locked config s' sn' job true = Some (t, o) →
     ct_target_id t ≠ ct_target_id (ar_target a)) ∧
  (ar_output_started a = true ∨ holds_foreground_turn_slot (rj_kind (ar_job a)) = true →
     d = AbortUtteranceNoModelSwap) ∧
  (∀ target_id, d = RetryFallback target_id →
     target_id ≠ ct_target_id (ar_target a) ∧
     ∃ t, t ∈ rj_fallbacks (ar_job a) ∧ ct_target_id t = target_id ∧
       allows_fallback (rj_privacy (ar_job a)) (ct_provider (rj_primary (ar_job a)))
         (ct_provider t) = true).
Proof.
  intros Ha Hrep Hd Hq Hnow. unfold report_oom_locked in Hrep. cbn in Hrep. rewrite Ha in Hrep.
  case_match; simplify_eq.
  set (s1 := quarantine_after_oom config sn a _ _) in *.
  split; [|split].
  - intros sn' job t o Hlt [_ (_&_&Hnq&_)%candidate_selectable_inv]%select_target_Some Heq.
    rewrite Heq in Hnq. unfold s1 in Hnq. by rewrite quarantined_after_oom in Hnq.
  - intros [-> | ->]; [done|]. by rewrite orb_true_r.
  - intros target_id Hf. case_match; [done|].
    destruct (List.find _ _) as [t|] eqn:Ef; [|done]. injection Hf as <-.
    apply List.find_some in Ef as [Hin Hu]. unfold fallback_usable in Hu.
    rewrite !andb_true_iff, negb_true_iff in Hu. destruct Hu as [[Hall Hnq] _]. split.
    + intros Heq. rewrite Heq in Hnq. unfold s1 in Hnq.
      rewrite quarantined_after_oom in Hnq; [done|]. unfold sat_add64. lia.
    + exists t. by rewrite list_elem_of_In.
Qed.

(** ** Eviction *)

(** under a disciplined host [begin_model_eviction] succeeds only for a
    loaded model that no active job names, and then makes it [Evicting]; in
    every other case it changes nothing. *)
Theorem eviction_only_when_unused s s' m r :
  reachable config true s → begin_model_eviction m s = (s', r) →
  match r with
  | Ok _ => model_unused s m ∧ ∃ rec, st_residency s !! m = Some rec ∧ mr_state rec = Loaded ∧
      st_residency s' !! m = Some (set_record_state Evicting rec)
  | Err _ => s' = s
  end.
Proof.
  intros Hr%reachable_ledger_ok. unfold begin_model_eviction, transition_idle_model.
  destruct (st_residency s !! m) as [rec|] eqn:Hrec; [|intros; by simplify_eq].
  destruct (negb _ || negb _) eqn:E; intros; simplify_eq; [done|].
  apply orb_false_iff in E as [E1 E2]. apply negb_false_iff, bool_decide_eq_true in E1.
  apply negb_false_iff in E2.
  destruct (lg_records _ Hr m rec Hrec) as (_&Hn&_). split.
  - intros id g Hg. apply (uses_zero_unused m (jobs s) id g); [lia|done].
  - exists rec. split; [done|]. split; [done|].
    unfold update_record. cbn. by rewrite lookup_alter_eq, Hrec.
Qed.

(** ** Coalescing *)

Lemma filter_not_superseded key l :
  Forall (λ r, superseded_by key r = false)
    (List.filter (λ queued, negb (superseded_by key queued)) l).
Proof.
  apply Forall_forall. intros r Hin%list_elem_of_In%List.filter_In.
  destruct Hin as [_ Hn]. by apply negb_true_iff.
Qed.

Lemma supersede_queue sn job s key :
  rj_drop_policy job = Supersede key →
  Forall (λ r, superseded_by key r = false) (st_queued (supersede_queued config sn job s)).
Proof.
  intros Hk. unfold supersede_queued. rewrite Hk. unfold push_admission.
  match goal with |- context [foldl _ ?s0 ?l] =>
    pose proof (foldl_push_core config (λ state old, Admission (admission_diagnostic config sn
      state (qr_job old) DroppedStale None (lit "superseded by a newer coalesced job"))) l s0)
      as (_&_&_&Hq) end.
  rewrite <-Hq. apply filter_not_superseded.
Qed.

Lemma drop_before_outcome sn job s r :
  drop_before_admission config sn job s = Some r →
  ad_outcome (su_diagnostic r.2) ∈ [DroppedLate; DroppedStale; DroppedPressure].
Proof.
  unfold drop_before_admission. intros Hd.
  destruct (_ && _); [injection Hd as <-; cbn; set_solver|].
  destruct (is_stale _ _ _); [injection Hd as <-; cbn; set_solver|].
  destruct (_ && _ && _); [injection Hd as <-; cbn; set_solver|done].
Qed.

(** a job that is admitted or queued under a coalescing key leaves no older
    job of that key in the queue. *)
Theorem supersede_leaves_only_newest (t : T) job s s' sub key :
  rj_drop_policy job = Supersede key → submit config t job s = (s', Ok sub) →
  ad_outcome (su_diagnostic sub) = AdmittedPrimary ∨
  ad_outcome (su_diagnostic sub) = AdmittedFallback ∨ ad_outcome (su_diagnostic sub) = Queued →
  ∀ r, r ∈ st_queued s' → rj_drop_policy (qr_job r) = Supersede key → qr_job r = job.
Proof.
  intros Hk (sn&acc&_&_&Hs)%submit_inv Ho r Hin Hr.
  assert (∀ q, Forall (λ r, superseded_by key r = false) q → r ∉ q) as Hnot.
  { intros q Hq Hin'. rewrite Forall_forall in Hq. specialize (Hq r Hin').
    unfold superseded_by in Hq. by rewrite bool_decide_true in Hq. }
  unfold submit_locked in Hs. set (s1 := refresh _ _ _ _) in Hs.
  destruct (id_in_use _ _); [injection Hs as <- <-; by destruct Ho as [Ho|[Ho|Ho]]|].
  destruct (drop_before_admission _ _ _ _) as [dr|] eqn:Ed.
  { apply drop_before_outcome in Ed. rewrite Hs in Ed. cbn in Ed.
    destruct Ho as [Ho|[Ho|Ho]]; rewrite Ho in Ed; by apply (bool_decide_pack _) in Ed. }
  pose proof (supersede_queue sn job s1 key Hk) as Hsup.
  set (s2 := supersede_queued _ _ _ _) in *. specialize (Hnot _ Hsup).
  destruct (select_target_locked _ _ _ _ _) as [[tgt o]|].
  { pose proof (admit_locked_jobs config sn job tgt o s2) as [_ Hq]. rewrite Hs in Hq.
    cbn in Hq. by rewrite Hq in Hin. }
  destruct (terminal_rejection _ _ _) as [[o reason]|] eqn:Et.
  { injection Hs as <- <-. apply terminal_rejection_outcome in Et.
    cbn in Ho. change (ad_outcome _) with o in Ho.
    destruct Ho as [Ho|[Ho|Ho]]; rewrite Ho in Et; by apply (bool_decide_pack _) in Et. }
  rewrite Hk in Hs. unfold enqueue in Hs. injection Hs as <- _.
  assert (st_queued (escalate_degradation_locked config (bs_monotonic_ms sn)
    (lit "admission could not fit current budget") s2) = st_queued s2) as He.
  { pose proof (escalate_core config (bs_monotonic_ms sn)
      (lit "admission could not fit current budget") s2) as (_&_&_&Hq). done. }
  cbn in Hin. rewrite He in Hin. apply elem_of_app in Hin as [Hin|Hin]; [done|].
  apply list_elem_of_singleton in Hin. by subst.
Qed.
End lifecycle.

(** ** The theorems at concrete states *)

Definition lease_of (id : str) : ResourceLease := {|
  le_job_id := id; le_target_id := lit "llm"; le_cancellation := 0%nat; le_completed := false |}.

Lemma lease_released_once_witness :
  let s' := lease_complete broker_config_default (telemetry_at 9 1000) actual_usage_default
    StatusCompleted (lease_of (lit "a")) example_state in
  st_queued s' = st_queued example_state ∧
  lease_drop broker_config_default (telemetry_at 9 1000) (lease_of (lit "a")) s' = s'.
Proof.
  cbn zeta. destruct (st_active example_state !! lit "a") as [a|] eqn:Ha;
    [|vm_compute in Ha; discriminate Ha].
  destruct (lease_released_once broker_config_default (telemetry_at 9 1000) (telemetry_at 9 1000)
    (lease_of (lit "a")) actual_usage_default actual_usage_default false StatusCompleted
    StatusCompleted example_state a Ha) as (_&Hq&_&_&Hd).
  exact (conj Hq Hd).
Defined.

(** The job [a] has run out of memory once. *)
Definition oom_state : BrokerState :=
  broker_run (take 4 example_events ++ [EOom (telemetry_at 5 1000) (lit "a")]).

Lemma oom_quarantines_target_witness : ∃ s' d a,
  report_oom_locked broker_config_default (example_snapshot 6 1000) accounted_default (lit "a")
    oom_state = (s', d) ∧ st_active oom_state !! lit "a" = Some a ∧
  ∀ sn' job t o, bs_monotonic_ms sn' < 60006 →
    select_target_locked broker_config_default s' sn' job true = Some (t, o) →
    ct_target_id t ≠ ct_target_id (ar_target a).
Proof.
  destruct (report_oom_locked broker_config_default (example_snapshot 6 1000) accounted_default
    (lit "a") oom_state) as [s' d] eqn:E.
  destruct (st_active oom_state !! lit "a") as [a|] eqn:Ha; [|vm_compute in Ha; discriminate Ha].
  exists s', d, a. split; [reflexivity|]. split; [reflexivity|].
  assert (d = QuarantinedNoSafeFallback) as Hd.
  { assert ((report_oom_locked broker_config_default (example_snapshot 6 1000)
      accounted_default (lit "a") oom_state).2 = QuarantinedNoSafeFallback) as Hc
      by (vm_compute; reflexivity). rewrite E in Hc. exact Hc. }
  assert (d ≠ RetrySameTargetAfterEviction (ct_target_id (ar_target a))) as Hne
    by (rewrite Hd; discriminate).
  refine (proj1 (oom_quarantines_target broker_config_default (example_snapshot 6 1000)
    accounted_default (lit "a") oom_state a s' d Ha E Hne _ _)); vm_compute; reflexivity.
Defined.

Lemma eviction_only_when_unused_witness :
  model_unused (broker_run finished_events) (lit "model").
Proof.
  destruct (begin_model_eviction (lit "model") (broker_run finished_events)) as [s' r] eqn:E.
  pose proof (eviction_only_when_unused broker_config_default (broker_run finished_events) s'
    (lit "model") r (finished_reachable true) E) as Hr.
  assert (r = Ok tt) as Hok.
  { assert ((begin_model_eviction (lit "model") (broker_run finished_events)).2 = Ok tt) as Hc
      by (vm_compute; reflexivity). rewrite E in Hc. exact Hc. }
  rewrite Hok in Hr. exact (proj1 Hr).
Defined.

(** A newer job of the key of the queued job [c]. *)
Definition newer_job : ResourceJob :=
  gpu_job (lit "d") Maintenance (gpu_target (lit "solo") None GpuExclusive 512 0)
    (Supersede (lit "k")).

Lemma supersede_leaves_only_newest_witness : ∃ s' sub,
  submit broker_config_default (telemetry_at 5 1000) newer_job example_state = (s', Ok sub) ∧
  ∀ r, r ∈ st_queued s' → rj_drop_policy (qr_job r) = Supersede (lit "k") → qr_job r = newer_job.
Proof.
  destruct (submit broker_config_default (telemetry_at 5 1000) newer_job example_state)
    as [s' r] eqn:E.
  assert (match (submit broker_config_default (telemetry_at 5 1000) newer_job example_state).2
    with Ok sub => ad_outcome (su_diagnostic sub) | Err _ => DroppedStale end = Queued) as Hc
    by (vm_compute; reflexivity).
  rewrite E in Hc. cbn [snd] in Hc. destruct r as [sub|]; [|discriminate Hc].
  exists s', sub. split; [reflexivity|].
  refine (supersede_leaves_only_newest broker_config_default (telemetry_at 5 1000) newer_job
    example_state s' sub (lit "k") eq_refl E _).
  right. right. exact Hc.
Defined.
