(* ===== verification/PcmWire.v ===== *)
(** * The PCM input wire format
    ([apps/runtime-host/src/audio_input/broker.rs], and the PCM structures of
    [apps/runtime-host/src/stt_bridge.rs])

    The lease of one push-to-talk capture, the cursor over a message body and
    the three decoders. The bytes of a body are integers of [Z]. *)

From S2P Require Import Prelude Text Bytes.

#[local] Open Scope Z_scope.

(** ** Constants and errors *)

Definition SCHEMA_VERSION : Z := 2.
Definition ENDPOINT_PREFIX : str := lit "\\.\pipe\npc-media-input-".
Definition MAX_CHUNK_BYTES : Z := 64 * 1024.
Definition MAX_WIRE_BODY_BYTES : Z := MAX_CHUNK_BYTES + 40.

Inductive BrokerPcmInputTransportError :=
| InvalidLease | Connection | Timeout | Protocol | Closed | PipeCancelled | UnsupportedPlatform.

(** ** The lease *)

Definition is_ascii_hexdigit (b : Z) : bool :=
  ((48 <=? b) && (b <=? 57)) || ((65 <=? b) && (b <=? 70)) || ((97 <=? b) && (b <=? 102)).

Definition hex (value : Z) : option Z :=
  if (48 <=? value) && (value <=? 57) then Some (value - 48) else
  if (97 <=? value) && (value <=? 102) then Some (value - 97 + 10) else
  if (65 <=? value) && (value <=? 70) then Some (value - 65 + 10) else
  None.

(** The loop over [chunks_exact(2)]. *)
Fixpoint hex_pairs (bytes : list Z) : option (list Z) :=
  match bytes with
  | h :: l :: bytes =>
      high ← hex h; low ← hex l; rest ← hex_pairs bytes;
      Some (Z.lor (Z.shiftl high 4) low :: rest)
  | _ => Some []
  end.

(** [InputLeaseToken::deserialize], from the decoded string. *)
Definition token_deserialize (encoded : str) : option (list Z) :=
  if negb (str_len encoded =? 64) || negb (forallb is_ascii_hexdigit (utf8_encode encoded))
  then None else hex_pairs (utf8_encode encoded).

Inductive BrokerInputSelectionMode := SystemDefault | EndpointId.
Inductive BrokerInputActivationSource := ExplicitRehearsal | PushToTalk.
#[export] Instance BrokerInputActivationSource_eq_dec : EqDecision BrokerInputActivationSource.
Proof. solve_decision. Defined.

Record BrokerAudioInputLease := {
  la_schema_version : Z;
  la_stream_id : str;
  la_producer_endpoint : str;
  la_one_time_token : list Z;
  la_session_id : str;
  la_turn_id : str;
  la_generation : Z;
  la_duration_ms : Z;
  la_sample_rate : Z;
  la_channels : Z;
  la_max_frames : Z;
  la_max_chunk_bytes : Z;
  la_expires_qpc : Z;
  la_qpc_frequency : Z;
  la_input_selection_mode : BrokerInputSelectionMode;
  la_input_endpoint_id : str;
  la_input_endpoint_generation : Z;
  la_activation_source : BrokerInputActivationSource;
  la_ptt_virtual_key : Z;
  la_ptt_press_transition_sequence : Z;
  la_ptt_pressed_qpc : Z
}.

Definition contains_nul (s : str) : bool := existsb (λ c, c =? 0) s.

Definition starts_with (prefix s : list Z) : bool :=
  bool_decide (take (length prefix) s = prefix).

Definition bounded (value : str) (maximum : Z) : bool :=
  negb (str_is_empty value) && (str_len value <=? maximum)
  && negb (contains_nul value) && negb (existsb is_control value).

Definition lease_validate (l : BrokerAudioInputLease) : result BrokerPcmInputTransportError unit :=
  if negb (la_schema_version l =? SCHEMA_VERSION)
     || negb (bounded (la_stream_id l) 128)
     || negb (starts_with ENDPOINT_PREFIX (la_producer_endpoint l))
     || (256 <? str_len (la_producer_endpoint l))
     || contains_nul (la_producer_endpoint l)
     || negb (bounded (la_session_id l) 128)
     || negb (bounded (la_turn_id l) 128)
     || (la_generation l =? 0)
     || negb ((250 <=? la_duration_ms l) && (la_duration_ms l <=? 10000))
     || negb (la_sample_rate l =? 16000)
     || negb (la_channels l =? 1)
     || (la_max_frames l =? 0)
     || (la_sample_rate l * la_duration_ms l / 1000 <? la_max_frames l)
     || negb (la_max_chunk_bytes l =? MAX_CHUNK_BYTES)
     || (la_expires_qpc l =? 0)
     || (la_qpc_frequency l =? 0)
     || negb (bounded (la_input_endpoint_id l) 1024)
     || (la_input_endpoint_generation l =? 0)
     || negb (bool_decide (la_activation_source l = PushToTalk))
     || (la_ptt_virtual_key l =? 0)
     || (255 <? la_ptt_virtual_key l)
     || (la_ptt_press_transition_sequence l =? 0)
     || (la_ptt_pressed_qpc l =? 0)
  then Err InvalidLease else Ok tt.

(** ** The PCM structures *)

Record NativePcmIdentity := {
  pi_session_id : str;
  pi_turn_id : str;
  pi_generation : Z;
  pi_input_endpoint_id : str;
  pi_input_endpoint_generation : Z
}.
#[export] Instance NativePcmIdentity_eq_dec : EqDecision NativePcmIdentity.
Proof. solve_decision. Defined.

Record NativePcmChunk := {
  pc_identity : NativePcmIdentity;
  pc_sequence : Z;
  pc_first_frame_qpc : Z;
  pc_first_frame_index : Z;
  pc_frame_count : Z;
  pc_pcm_s16le : list Z
}.

Record NativePcmActivation := {
  pa_ptt_virtual_key : Z;
  pa_ptt_press_transition_sequence : Z;
  pa_ptt_pressed_qpc : Z
}.
#[export] Instance NativePcmActivation_eq_dec : EqDecision NativePcmActivation.
Proof. solve_decision. Defined.

Inductive NativePcmAck := AckContinue | AckStop | AckCancel.

Record NativePcmReceipt := {
  pr_identity : NativePcmIdentity;
  pr_activation : NativePcmActivation;
  pr_captured_frames : Z;
  pr_source_capture_complete : bool;
  pr_cancelled : bool;
  pr_device_lost : bool;
  pr_ptt_release_transition_sequence : Z;
  pr_ptt_released_qpc : Z
}.

Definition lease_identity (l : BrokerAudioInputLease) : NativePcmIdentity := {|
  pi_session_id := la_session_id l;
  pi_turn_id := la_turn_id l;
  pi_generation := la_generation l;
  pi_input_endpoint_id := la_input_endpoint_id l;
  pi_input_endpoint_generation := la_input_endpoint_generation l |}.

Definition lease_activation (l : BrokerAudioInputLease) : NativePcmActivation := {|
  pa_ptt_virtual_key := la_ptt_virtual_key l;
  pa_ptt_press_transition_sequence := la_ptt_press_transition_sequence l;
  pa_ptt_pressed_qpc := la_ptt_pressed_qpc l |}.

(** ** The cursor *)

Record Cursor := {
  cu_bytes : list Z;
  cu_position : Z
}.

(** A read threads the cursor; a failed read ends the decoding. *)
Abbreviation read A := (result BrokerPcmInputTransportError (A * Cursor)) (only parsing).

Definition cursor_new (bytes magic : list Z) : result BrokerPcmInputTransportError Cursor :=
  if negb (starts_with magic bytes) then Err Protocol else
  Ok {| cu_bytes := bytes; cu_position := 4 |}.

Definition cu_take (count : Z) (c : Cursor) : read (list Z) :=
  let end_ := cu_position c + count in
  if u64_max <? end_ then Err Protocol else
  if (end_ <? cu_position c) || (Z.of_nat (length (cu_bytes c)) <? end_) then Err Protocol else
  Ok (take (Z.to_nat count) (drop (Z.to_nat (cu_position c)) (cu_bytes c)),
      {| cu_bytes := cu_bytes c; cu_position := end_ |}).

Definition cu_u8 (c : Cursor) : read Z := '(v, c) ← cu_take 1 c; Ok (nth 0 v 0, c).
Definition cu_u16 (c : Cursor) : read Z := '(v, c) ← cu_take 2 c; Ok (le_value v, c).
Definition cu_u32 (c : Cursor) : read Z := '(v, c) ← cu_take 4 c; Ok (le_value v, c).
Definition cu_u64 (c : Cursor) : read Z := '(v, c) ← cu_take 8 c; Ok (le_value v, c).

Definition cu_string (maximum : Z) (c : Cursor) : read str :=
  '(length_, c) ← cu_u16 c;
  if (length_ =? 0) || (maximum <? length_) then Err Protocol else
  '(bytes, c) ← cu_take length_ c;
  value ← ok_or (utf8_decode bytes) Protocol;
  if contains_nul value then Err Protocol else
  Ok (value, c).

Definition cu_flag (c : Cursor) : read bool :=
  '(v, c) ← cu_u8 c;
  if v =? 0 then Ok (false, c) else if v =? 1 then Ok (true, c) else Err Protocol.

Definition cu_remaining (c : Cursor) : list Z * Cursor :=
  (drop (Z.to_nat (cu_position c)) (cu_bytes c),
   {| cu_bytes := cu_bytes c; cu_position := Z.of_nat (length (cu_bytes c)) |}).

Definition cu_done (c : Cursor) : bool := cu_position c =? Z.of_nat (length (cu_bytes c)).

(** ** The decoders *)

(** The fields of the hello, after its magic number. *)
Definition hello_fields (l : BrokerAudioInputLease) (c : Cursor)
    : result BrokerPcmInputTransportError unit :=
  '(v, c) ← cu_u32 c; _ ← ensure (v =? SCHEMA_VERSION) Protocol;
  '(s, c) ← cu_string 128 c; _ ← ensure (str_eqb s (la_stream_id l)) Protocol;
  '(s, c) ← cu_string 128 c; _ ← ensure (str_eqb s (la_session_id l)) Protocol;
  '(s, c) ← cu_string 128 c; _ ← ensure (str_eqb s (la_turn_id l)) Protocol;
  '(v, c) ← cu_u64 c; _ ← ensure (v =? la_generation l) Protocol;
  '(v, c) ← cu_u32 c; _ ← ensure (v =? la_sample_rate l) Protocol;
  '(v, c) ← cu_u16 c; _ ← ensure (v =? la_channels l) Protocol;
  '(v, c) ← cu_u64 c; _ ← ensure (v =? la_max_frames l) Protocol;
  '(v, c) ← cu_u32 c; _ ← ensure (v =? la_max_chunk_bytes l) Protocol;
  '(v, c) ← cu_u64 c; _ ← ensure (v =? la_qpc_frequency l) Protocol;
  '(v, c) ← cu_u8 c; _ ← ensure (v =? 2) Protocol;
  '(v, c) ← cu_u32 c; _ ← ensure (v =? la_ptt_virtual_key l) Protocol;
  '(v, c) ← cu_u64 c; _ ← ensure (v =? la_ptt_press_transition_sequence l) Protocol;
  '(v, c) ← cu_u64 c; _ ← ensure (v =? la_ptt_pressed_qpc l) Protocol;
  ensure (cu_done c) Protocol.

Definition decode_hello (body : list Z) (l : BrokerAudioInputLease)
    : result BrokerPcmInputTransportError unit :=
  c ← cursor_new body (lit "NPIH"); hello_fields l c.

(** * Lemmas *)

(** ** Reads *)

(** What is left to read, and a cursor that has read [bs] more. *)
Definition cu_rest (c : Cursor) : list Z := drop (Z.to_nat (cu_position c)) (cu_bytes c).

Definition advance (bs : list Z) (c : Cursor) : Cursor :=
  {| cu_bytes := cu_bytes c; cu_position := cu_position c + Z.of_nat (length bs) |}.

Definition cursor_wf (c : Cursor) : Prop :=
  0 ≤ cu_position c ≤ Z.of_nat (length (cu_bytes c)) ∧
  Z.of_nat (length (cu_bytes c)) ≤ u64_max ∧ Forall is_byte (cu_bytes c).

(** [c'] is [c] after the read of [bs]. *)
Definition reads (c : Cursor) (bs : list Z) (c' : Cursor) : Prop :=
  cu_rest c = bs ++ cu_rest c' ∧ c' = advance bs c ∧ cursor_wf c'.

Lemma advance_rest bs more c :
  cursor_wf c → cu_rest c = bs ++ more → cu_rest (advance bs c) = more ∧ cursor_wf (advance bs c).
Proof.
  intros (Hp&Hl&Hb) Hr. unfold cu_rest, advance in *. cbn. split.
  - replace (Z.to_nat _) with (Z.to_nat (cu_position c) + length bs)%nat by lia.
    rewrite <-drop_drop, Hr. apply drop_app_length.
  - assert (length (bs ++ more) = length (cu_bytes c) - Z.to_nat (cu_position c))%nat as Hlen.
    { rewrite <-Hr. apply length_drop. }
    rewrite length_app in Hlen. unfold cursor_wf. cbn. split; [lia|done].
Qed.

Lemma reads_intro bs more c :
  cursor_wf c → cu_rest c = bs ++ more → reads c bs (advance bs c) ∧ cu_rest (advance bs c) = more.
Proof.
  intros Hc Hr. destruct (advance_rest bs more c Hc Hr) as [Hm Hw].
  split; [|done]. split; [by rewrite Hm|done].
Qed.

Lemma cu_take_ok n bs c :
  cursor_wf c → 0 ≤ n → take (Z.to_nat n) (cu_rest c) = bs → length bs = Z.to_nat n →
  cu_take n c = Ok (bs, advance bs c).
Proof.
  intros (Hp&Hl&_) Hn Hbs Hlen. unfold cu_take. fold (cu_rest c).
  assert (Z.to_nat n ≤ length (cu_bytes c) - Z.to_nat (cu_position c))%nat.
  { rewrite <-Hlen, <-Hbs, length_take. unfold cu_rest. rewrite length_drop. lia. }
  destruct (Z.ltb_spec u64_max (cu_position c + n)); [lia|].
  destruct (Z.ltb_spec (cu_position c + n) (cu_position c)); [lia|].
  destruct (Z.ltb_spec (Z.of_nat (length (cu_bytes c))) (cu_position c + n)); [lia|].
  cbn. rewrite Hbs. unfold advance. by rewrite Hlen, Z2Nat.id by lia.
Qed.

Lemma cu_take_inv n bs c c' :
  cursor_wf c → 0 ≤ n → cu_take n c = Ok (bs, c') →
  reads c bs c' ∧ length bs = Z.to_nat n ∧ Forall is_byte bs.
Proof.
  intros Hc Hn H. pose proof Hc as (Hp&Hl&Hb). unfold cu_take in H.
  destruct (Z.ltb_spec u64_max (cu_position c + n)); [done|].
  destruct (Z.ltb_spec (cu_position c + n) (cu_position c)); [done|].
  destruct (Z.ltb_spec (Z.of_nat (length (cu_bytes c))) (cu_position c + n)); [done|].
  cbn in H. fold (cu_rest c) in H. injection H as <- <-.
  assert (length (take (Z.to_nat n) (cu_rest c)) = Z.to_nat n) as Hlen.
  { rewrite length_take. unfold cu_rest. rewrite length_drop. lia. }
  replace {| cu_bytes := cu_bytes c; cu_position := cu_position c + n |}
    with (advance (take (Z.to_nat n) (cu_rest c)) c)
    by (unfold advance; by rewrite Hlen, Z2Nat.id by lia).
  split; [|split; [done|]].
  - apply (reads_intro _ (drop (Z.to_nat n) (cu_rest c)) c Hc). by rewrite take_drop.
  - apply Forall_take, Forall_drop, Hb.
Qed.

(** ** Integers *)

Lemma le_read_ok n x more c (k : Z) :
  cursor_wf c → 0 ≤ x < 256 ^ Z.of_nat n → k = Z.of_nat n → cu_rest c = le_bytes n x ++ more →
  cu_take k c = Ok (le_bytes n x, advance (le_bytes n x) c) ∧ le_value (le_bytes n x) = x.
Proof.
  intros Hc Hx -> Hr. split; [|by apply le_value_bytes].
  apply cu_take_ok; [done|lia| |rewrite le_bytes_length; lia].
  rewrite Hr, take_app_le by (rewrite le_bytes_length; lia).
  apply take_ge. rewrite le_bytes_length. lia.
Qed.

(** Both directions of a fixed-width read. *)
Definition int_reader (f : Cursor → read Z) (n : nat) : Prop :=
  (∀ c x more, cursor_wf c → 0 ≤ x < 256 ^ Z.of_nat n → cu_rest c = le_bytes n x ++ more →
    f c = Ok (x, advance (le_bytes n x) c)) ∧
  (∀ c c' x, cursor_wf c → f c = Ok (x, c') → reads c (le_bytes n x) c' ∧ 0 ≤ x < 256 ^ Z.of_nat n).

Lemma le_reader (n : nat) (k : Z) :
  k = Z.of_nat n → int_reader (λ c, '(v, c) ← cu_take k c; Ok (le_value v, c)) n.
Proof.
  intros Hk. split.
  - intros c x more Hc Hx Hr. destruct (le_read_ok n x more c k) as [-> Hv]; [done..|].
    cbn. by rewrite Hv.
  - intros c c' x Hc H. destruct (cu_take k c) as [[v c1]|] eqn:E; [|done]. cbn in H.
    injection H as <- <-. apply cu_take_inv in E as (Hr&Hl&Hb); [|done|lia].
    assert (length v = n) as Hvn by lia.
    split; [|rewrite <-Hvn; by apply le_value_range].
    rewrite <-Hvn, le_bytes_value by done. exact Hr.
Qed.

Lemma cu_u16_reader : int_reader cu_u16 2. Proof. by apply le_reader. Qed.
Lemma cu_u32_reader : int_reader cu_u32 4. Proof. by apply le_reader. Qed.
Lemma cu_u64_reader : int_reader cu_u64 8. Proof. by apply le_reader. Qed.
Lemma cu_u8_reader : int_reader cu_u8 1.
Proof.
  destruct (le_reader 1 1 eq_refl) as [H1 H2]. split.
  - intros c x more Hc Hx Hr. destruct (le_read_ok 1 x more c 1) as [Ht Hv]; [done..|].
    unfold cu_u8. rewrite Ht. cbn [mbind result_bind]. do 2 f_equal.
    cbn [le_bytes nth]. rewrite Z.mod_small; [done|]. lia.
  - intros c c' x Hc H. apply H2; [done|]. unfold cu_u8 in H.
    destruct (cu_take 1 c) as [[v c1]|] eqn:E; [|done]. cbn in H |- *.
    apply cu_take_inv in E as (_&Hl&_); [|done|lia].
    destruct v as [|b [|]]; cbn in Hl, H |- *; [lia| |lia].
    rewrite <-H. do 2 f_equal. lia.
Qed.

(** ** Strings *)

Lemma utf8_encode_length s : Z.of_nat (length (utf8_encode s)) = str_len s.
Proof.
  induction s as [|c s IH]; [done|]. unfold utf8_encode in *. cbn.
  rewrite length_app, Nat2Z.inj_add, IH. f_equal.
  unfold encode_char, len_utf8. by repeat case_match.
Qed.

Lemma utf8_encode_bytes s : Forall is_scalar s → Forall is_byte (utf8_encode s).
Proof.
  induction 1 as [|c s Hc _ IH]; [by constructor|]. unfold utf8_encode in *. cbn.
  apply Forall_app. split; [|done]. unfold is_byte, is_scalar in *.
  destruct (encode_char_cases c Hc) as [[? ->]|[[? ->]|[[? ->]|[? ->]]]];
    repeat constructor; Z.to_euclidean_division_equations; lia.
Qed.

(** What a string field of at most [maximum] bytes holds. *)
Definition field_ok (maximum : Z) (s : str) : Prop :=
  Forall is_scalar s ∧ 0 < str_len s ≤ maximum ∧ contains_nul s = false.

Definition string_bytes (s : str) : list Z := le_bytes 2 (str_len s) ++ utf8_encode s.

Lemma cu_string_ok maximum s more c :
  cursor_wf c → maximum < 65536 → field_ok maximum s → cu_rest c = string_bytes s ++ more →
  cu_string maximum c = Ok (s, advance (string_bytes s) c).
Proof.
  intros Hc Hm (Hs&Hl&Hn) Hr. unfold string_bytes in Hr. rewrite <-app_assoc in Hr.
  unfold cu_string. rewrite (proj1 cu_u16_reader c (str_len s) (utf8_encode s ++ more));
    [|done|cbn; lia|done].
  cbn [mbind result_bind]. destruct (advance_rest _ _ c Hc Hr) as [Hr' Hc'].
  destruct (Z.eqb_spec (str_len s) 0); [lia|]. destruct (Z.ltb_spec maximum (str_len s)); [lia|].
  cbn [orb]. rewrite (cu_take_ok (str_len s) (utf8_encode s)).
  - cbn [mbind result_bind]. rewrite utf8_decode_encode by done. cbn. rewrite Hn. do 2 f_equal.
    unfold string_bytes, advance. cbn.
    cbn [length app le_bytes]. f_equal. lia.
  - done.
  - lia.
  - rewrite Hr'. rewrite <-utf8_encode_length, Nat2Z.id. apply take_app_length.
  - rewrite <-utf8_encode_length. lia.
Qed.

Lemma reads_trans c a c' b c'' : reads c a c' → reads c' b c'' → reads c (a ++ b) c''.
Proof.
  intros (H1&->&_) (H2&->&Hw). unfold reads. rewrite <-app_assoc, <-H2. split; [done|]. split; [|done].
  unfold advance. cbn. rewrite length_app. f_equal. lia.
Qed.

Lemma cu_string_inv maximum s c c' :
  cursor_wf c → cu_string maximum c = Ok (s, c') →
  reads c (string_bytes s) c' ∧ field_ok maximum s.
Proof.
  intros Hc H. unfold cu_string in H. destruct (cu_u16 c) as [[n c1]|] eqn:E1; [|done].
  apply (proj2 cu_u16_reader) in E1 as [Hr1 Hn]; [|done]. cbn [mbind result_bind] in H.
  destruct (Z.eqb_spec n 0); [done|]. destruct (Z.ltb_spec maximum n); [done|]. cbn [orb] in H.
  destruct (cu_take n c1) as [[bs c2]|] eqn:E2; [|done]. cbn [mbind result_bind] in H.
  apply cu_take_inv in E2 as (Hr2&Hl&_); [|apply Hr1|lia].
  destruct (utf8_decode bs) as [v|] eqn:E3; [|done]. cbn in H.
  destruct (contains_nul v) eqn:E4; [done|]. injection H as -> <-.
  apply utf8_decode_inv in E3 as [-> Hs].
  assert (str_len s = n) as Hsn by (rewrite <-utf8_encode_length; lia).
  split; [|unfold field_ok; rewrite Hsn; split; [done|]; split; [lia|done]].
  unfold string_bytes. rewrite Hsn. by eapply reads_trans.
Qed.

(** ** Messages *)

Lemma cursor_new_ok magic body :
  length magic = 4%nat → Forall is_byte body → Z.of_nat (length body) ≤ u64_max →
  cursor_new body magic =
    (if bool_decide (take 4 body = magic) then Ok {| cu_bytes := body; cu_position := 4 |}
     else Err Protocol) ∧
  (take 4 body = magic → cursor_wf {| cu_bytes := body; cu_position := 4 |}).
Proof.
  intros Hm Hb Hl. unfold cursor_new, starts_with. rewrite Hm. split; [by case_bool_decide|].
  intros Ht. split; [|done]. cbn. assert (length (take 4 body) = 4%nat) by congruence.
  rewrite length_take in *. lia.
Qed.

Lemma cu_done_ok c : cursor_wf c → cu_done c = bool_decide (cu_rest c = []).
Proof.
  intros (Hp&_&_). unfold cu_done, cu_rest.
  destruct (Z.eqb_spec (cu_position c) (Z.of_nat (length (cu_bytes c)))) as [->|Hne].
  - rewrite Nat2Z.id, drop_all. by rewrite bool_decide_true.
  - rewrite bool_decide_false; [done|]. intros Hd%(f_equal length).
    rewrite length_drop in Hd. cbn in Hd. lia.
Qed.

(** ** The hello message *)

(** [k] accepts what is left of a body exactly when it is [bs]. *)
Definition parses (k : Cursor → result BrokerPcmInputTransportError unit) (bs : list Z) : Prop :=
  ∀ c, cursor_wf c → k c = Ok tt ↔ cu_rest c = bs.

Lemma parses_int f n x k bs :
  int_reader f n → 0 ≤ x < 256 ^ Z.of_nat n → parses k bs →
  parses (λ c, '(v, c) ← f c; _ ← ensure (v =? x) Protocol; k c) (le_bytes n x ++ bs).
Proof.
  intros [Hok Hinv] Hx Hk c Hc. split.
  - destruct (f c) as [[v c1]|] eqn:E; [|done]. cbn.
    destruct (Z.eqb_spec v x) as [->|]; [|done]. cbn.
    apply Hinv in E as [(Hr&_&Hc1) _]; [|done]. intros H%Hk; [|done]. by rewrite Hr, H.
  - intros Hr. rewrite (Hok c x bs) by done. cbn. rewrite Z.eqb_refl. cbn.
    destruct (advance_rest _ _ c Hc Hr) as [Hr' Hc']. by apply Hk.
Qed.

Lemma parses_string maximum s k bs :
  maximum < 65536 → field_ok maximum s → parses k bs →
  parses (λ c, '(v, c) ← cu_string maximum c; _ ← ensure (str_eqb v s) Protocol; k c)
    (string_bytes s ++ bs).
Proof.
  intros Hm Hs Hk c Hc. split.
  - destruct (cu_string maximum c) as [[v c1]|] eqn:E; [|done]. cbn. unfold str_eqb.
    case_bool_decide as Hv; [|done]. subst v. cbn.
    apply cu_string_inv in E as [(Hr&_&Hc1) _]; [|done]. intros H%Hk; [|done]. by rewrite Hr, H.
  - intros Hr. rewrite (cu_string_ok maximum s bs) by done. cbn. unfold str_eqb.
    rewrite bool_decide_true by done. cbn.
    destruct (advance_rest _ _ c Hc Hr) as [Hr' Hc']. by apply Hk.
Qed.

Lemma parses_done : parses (λ c, ensure (cu_done c) Protocol) [].
Proof. intros c Hc. rewrite cu_done_ok by done. by case_bool_decide. Qed.

(** The hello of the media broker for a lease. *)
Definition hello_fields_bytes (l : BrokerAudioInputLease) : list Z :=
  le_bytes 4 SCHEMA_VERSION ++
  string_bytes (la_stream_id l) ++ string_bytes (la_session_id l) ++ string_bytes (la_turn_id l) ++
  le_bytes 8 (la_generation l) ++ le_bytes 4 (la_sample_rate l) ++ le_bytes 2 (la_channels l) ++
  le_bytes 8 (la_max_frames l) ++ le_bytes 4 (la_max_chunk_bytes l) ++
  le_bytes 8 (la_qpc_frequency l) ++ le_bytes 1 2 ++ le_bytes 4 (la_ptt_virtual_key l) ++
  le_bytes 8 (la_ptt_press_transition_sequence l) ++ le_bytes 8 (la_ptt_pressed_qpc l) ++ [].

Definition hello_bytes (l : BrokerAudioInputLease) : list Z :=
  lit "NPIH" ++ hello_fields_bytes l.

(** The values the types of the source allow. *)
Definition lease_typed (l : BrokerAudioInputLease) : Prop :=
  Forall is_scalar (la_stream_id l) ∧ Forall is_scalar (la_session_id l) ∧
  Forall is_scalar (la_turn_id l) ∧ Forall is_scalar (la_input_endpoint_id l) ∧
  in_u64 (la_generation l) ∧ in_u64 (la_max_frames l) ∧ in_u64 (la_qpc_frequency l) ∧
  in_u32 (la_ptt_virtual_key l) ∧ in_u64 (la_ptt_press_transition_sequence l) ∧
  in_u64 (la_ptt_pressed_qpc l).

Lemma bounded_field maximum s :
  Forall is_scalar s → bounded s maximum = true → field_ok maximum s.
Proof.
  unfold bounded, field_ok. intros Hs [[[H1 H2]%andb_prop H3]%andb_prop _]%andb_prop.
  split; [done|]. split; [|by apply negb_true_iff].
  destruct s as [|c s]; [done|]. cbn in *. pose proof (len_utf8_pos c).
  pose proof (str_len_nonneg s). lia.
Qed.

(** What a validated lease promises. *)
Lemma lease_validate_ok l :
  lease_validate l = Ok tt →
  bounded (la_stream_id l) 128 = true ∧ bounded (la_session_id l) 128 = true ∧
  bounded (la_turn_id l) 128 = true ∧ bounded (la_input_endpoint_id l) 1024 = true ∧
  la_generation l ≠ 0 ∧ la_duration_ms l ≤ 10000 ∧ la_sample_rate l = 16000 ∧ la_channels l = 1 ∧
  la_max_frames l ≤ la_sample_rate l * la_duration_ms l / 1000 ∧
  la_max_chunk_bytes l = MAX_CHUNK_BYTES.
Proof.
  unfold lease_validate. destruct (_ || _) eqn:E; [done|]. intros _.
  repeat (apply orb_false_iff in E as [E ?]).
  repeat match goal with H : negb _ = false |- _ => apply negb_false_iff in H end.
  do 4 (split; [assumption|]). unfold MAX_CHUNK_BYTES in *. lia.
Qed.

Lemma hello_fields_exact l :
  lease_validate l = Ok tt → lease_typed l → parses (hello_fields l) (hello_fields_bytes l).
Proof.
  intros (H1&H2&H3&_&_&_&Hsr&Hch&_&Hmc)%lease_validate_ok (T1&T2&T3&_&T5&T6&T7&T8&T9&T10).
  unfold in_u64, in_u32, u64_max, u32_max, MAX_CHUNK_BYTES in *.
  unfold hello_fields, hello_fields_bytes.
  repeat first [apply parses_done | apply parses_string | apply parses_int];
    first [by apply bounded_field | apply cu_u8_reader | apply cu_u16_reader
          | apply cu_u32_reader | apply cu_u64_reader
          | cbn -[Z.mul]; unfold SCHEMA_VERSION; lia].
Qed.

(** the handshake of a PCM connection is exact: with a validated lease,
    [decode_hello] accepts one body and no other, the encoding of the lease's own
    stream, session, turn, generation, format, bounds and push-to-talk press. *)
Theorem hello_accepts_only_the_lease l body :
  lease_validate l = Ok tt → lease_typed l →
  Forall is_byte body → Z.of_nat (length body) ≤ u64_max →
  decode_hello body l = Ok tt ↔ body = hello_bytes l.
Proof.
  intros Hv Ht Hb Hl. destruct (cursor_new_ok (lit "NPIH") body) as [Hn Hw]; [done..|].
  unfold decode_hello. rewrite Hn. case_bool_decide as Hm; cbn [mbind result_bind].
  2: { split; [done|]. intros ->. by destruct Hm. }
  rewrite (hello_fields_exact l Hv Ht _ (Hw Hm)). unfold cu_rest, hello_bytes.
  cbn [cu_position cu_bytes]. change (Z.to_nat 4) with 4%nat. split.
  - intros Hd. by rewrite <-(take_drop 4 body), Hm, Hd.
  - by intros ->.
Qed.

(** ** The theorem at a concrete input: the lease of the source's own tests *)

Definition fixture_lease : BrokerAudioInputLease := {|
  la_schema_version := 2; la_stream_id := lit "mic-fixture";
  la_producer_endpoint := lit "\\.\pipe\npc-media-input-fixture";
  la_one_time_token := default [] (token_deserialize
    (lit "0102030405060708090a0b0c0d0e0f101112131415161718191a1b1c1d1e1f20"));
  la_session_id := lit "session-1"; la_turn_id := lit "turn-1"; la_generation := 4;
  la_duration_ms := 500; la_sample_rate := 16000; la_channels := 1; la_max_frames := 8000;
  la_max_chunk_bytes := 65536; la_expires_qpc := 99; la_qpc_frequency := 10000000;
  la_input_selection_mode := SystemDefault; la_input_endpoint_id := lit "endpoint-fixture";
  la_input_endpoint_generation := 3; la_activation_source := PushToTalk;
  la_ptt_virtual_key := 88; la_ptt_press_transition_sequence := 8; la_ptt_pressed_qpc := 10 |}.

Example fixture_token : la_one_time_token fixture_lease = seqZ 1 32.
Proof. vm_compute. reflexivity. Qed.

Lemma hello_accepts_only_the_lease_witness :
  decode_hello (hello_bytes fixture_lease) fixture_lease = Ok tt ∧
  decode_hello (hello_bytes fixture_lease ++ [0]) fixture_lease ≠ Ok tt.
Proof.
  assert (lease_validate fixture_lease = Ok tt) as Hv by (vm_compute; reflexivity).
  assert (lease_typed fixture_lease) as Ht.
  { unfold lease_typed, in_u64, in_u32. do 4 (split; [apply is_scalar_all; vm_compute; reflexivity|]).
    vm_compute. repeat split; discriminate. }
  split.
  - apply (hello_accepts_only_the_lease fixture_lease (hello_bytes fixture_lease) Hv Ht);
      [apply is_byte_all; vm_compute; reflexivity|vm_compute; discriminate|reflexivity].
  - intros H. apply (hello_accepts_only_the_lease fixture_lease _ Hv Ht) in H;
      [discriminate H|apply is_byte_all; vm_compute; reflexivity|vm_compute; discriminate].
Defined.
