(* ===== verification/PcmInput.v ===== *)
(** * The PCM input source ([apps/runtime-host/src/audio_input/broker.rs])

    The consumer of one push-to-talk capture: its state after the handshake and
    every operation of the [PcmInputSource] interface, on Windows. The pipe is
    the bytes that have arrived, whether the peer still holds it open, and the
    acknowledgements written so far; when bytes are missing a read ends with a
    time-out (peer open) or a connection error. *)

From S2P Require Import Prelude Text Bytes PcmWire.

#[local] Open Scope Z_scope.

(** ** State *)

Record Pipe := {
  pp_incoming : list Z;
  pp_peer_open : bool;
  pp_outgoing : list (list Z)
}.

Record BrokerPcmInputSource := {
  ps_identity : NativePcmIdentity;
  ps_activation : NativePcmActivation;
  ps_stream_id : str;
  ps_sample_rate : Z;
  ps_channels : Z;
  ps_max_frames : Z;
  ps_max_chunk_bytes : Z;
  ps_input_selection_mode : BrokerInputSelectionMode;
  ps_next_sequence : Z;
  ps_last_sequence : option Z;
  ps_captured_frames : Z;
  ps_receipt : option NativePcmReceipt;
  ps_pipe : option Pipe
}.

Definition ps_set_pipe (p : option Pipe) (s : BrokerPcmInputSource) : BrokerPcmInputSource := {|
  ps_identity := ps_identity s; ps_activation := ps_activation s; ps_stream_id := ps_stream_id s;
  ps_sample_rate := ps_sample_rate s; ps_channels := ps_channels s;
  ps_max_frames := ps_max_frames s; ps_max_chunk_bytes := ps_max_chunk_bytes s;
  ps_input_selection_mode := ps_input_selection_mode s; ps_next_sequence := ps_next_sequence s;
  ps_last_sequence := ps_last_sequence s; ps_captured_frames := ps_captured_frames s;
  ps_receipt := ps_receipt s; ps_pipe := p |}.

Definition ps_set_receipt (r : NativePcmReceipt) (s : BrokerPcmInputSource)
    : BrokerPcmInputSource := {|
  ps_identity := ps_identity s; ps_activation := ps_activation s; ps_stream_id := ps_stream_id s;
  ps_sample_rate := ps_sample_rate s; ps_channels := ps_channels s;
  ps_max_frames := ps_max_frames s; ps_max_chunk_bytes := ps_max_chunk_bytes s;
  ps_input_selection_mode := ps_input_selection_mode s; ps_next_sequence := ps_next_sequence s;
  ps_last_sequence := ps_last_sequence s; ps_captured_frames := ps_captured_frames s;
  ps_receipt := Some r; ps_pipe := ps_pipe s |}.

Definition ps_count_chunk (chunk : NativePcmChunk) (s : BrokerPcmInputSource)
    : BrokerPcmInputSource := {|
  ps_identity := ps_identity s; ps_activation := ps_activation s; ps_stream_id := ps_stream_id s;
  ps_sample_rate := ps_sample_rate s; ps_channels := ps_channels s;
  ps_max_frames := ps_max_frames s; ps_max_chunk_bytes := ps_max_chunk_bytes s;
  ps_input_selection_mode := ps_input_selection_mode s;
  ps_next_sequence := sat_add64 (ps_next_sequence s) 1;
  ps_last_sequence := Some (pc_sequence chunk);
  ps_captured_frames := sat_add64 (ps_captured_frames s) (pc_frame_count chunk);
  ps_receipt := ps_receipt s; ps_pipe := ps_pipe s |}.

(** [connect_platform], from the handshake on: [hello] is the body the pipe
    delivered after the token was written, and [now], [frequency] the performance
    counter. *)
Definition connect (l : BrokerAudioInputLease) (now frequency : Z) (hello : list Z) (pipe : Pipe)
    : result BrokerPcmInputTransportError BrokerPcmInputSource :=
  _ ← lease_validate l;
  if negb (frequency =? la_qpc_frequency l) || (la_expires_qpc l <? now) then Err InvalidLease else
  if negb ((48 <=? Z.of_nat (length hello)) && (Z.of_nat (length hello) <=? 1024))
  then Err Protocol else
  _ ← decode_hello hello l;
  Ok {| ps_identity := lease_identity l; ps_activation := lease_activation l;
        ps_stream_id := la_stream_id l; ps_sample_rate := la_sample_rate l;
        ps_channels := la_channels l; ps_max_frames := la_max_frames l;
        ps_max_chunk_bytes := la_max_chunk_bytes l;
        ps_input_selection_mode := la_input_selection_mode l;
        ps_next_sequence := 1; ps_last_sequence := None; ps_captured_frames := 0;
        ps_receipt := None; ps_pipe := Some pipe |}.

(** ** Reading bodies *)

(** [read_exact] under the time-out: what did arrive is consumed either way. *)
Definition read_exact (n : Z) (p : Pipe) : Pipe * result BrokerPcmInputTransportError (list Z) :=
  let got := take (Z.to_nat n) (pp_incoming p) in
  ({| pp_incoming := drop (Z.to_nat n) (pp_incoming p); pp_peer_open := pp_peer_open p;
      pp_outgoing := pp_outgoing p |},
   if Z.of_nat (length got) =? n then Ok got
   else Err (if pp_peer_open p then Timeout else Connection)).

Definition read_body (p : Pipe) : Pipe * result BrokerPcmInputTransportError (list Z) :=
  let '(p, prefix) := read_exact 4 p in
  match prefix with
  | Err e => (p, Err e)
  | Ok prefix =>
      let size_ := le_value prefix in
      if (size_ =? 0) || (MAX_WIRE_BODY_BYTES <? size_) then (p, Err Protocol) else
      read_exact size_ p
  end.

Definition read_next_body (s : BrokerPcmInputSource)
    : BrokerPcmInputSource * result BrokerPcmInputTransportError (list Z) :=
  match ps_pipe s with
  | None => (s, Err Closed)
  | Some p => let '(p, r) := read_body p in (ps_set_pipe (Some p) s, r)
  end.

(** ** The decoders *)

Definition decode_chunk (body : list Z) (s : BrokerPcmInputSource)
    : result BrokerPcmInputTransportError NativePcmChunk :=
  c ← cursor_new body (lit "NPIC");
  '(version, c) ← cu_u32 c;
  '(sequence, c) ← cu_u64 c;
  '(first_frame_qpc, c) ← cu_u64 c;
  '(first_frame_index, c) ← cu_u64 c;
  '(frame_count, c) ← cu_u32 c;
  '(pcm_bytes, c) ← cu_u32 c;
  let pcm := (cu_remaining c).1 in
  if negb (version =? SCHEMA_VERSION)
     || negb (sequence =? ps_next_sequence s)
     || (first_frame_qpc =? 0)
     || negb (first_frame_index =? ps_captured_frames s)
     || (frame_count =? 0)
     || negb (pcm_bytes =? Z.of_nat (length pcm))
     || (ps_max_chunk_bytes s <? pcm_bytes)
     || negb (pcm_bytes =? frame_count * ps_channels s * 2)
     || (ps_max_frames s <? sat_add64 (ps_captured_frames s) frame_count)
  then Err Protocol else
  Ok {| pc_identity := ps_identity s; pc_sequence := sequence;
        pc_first_frame_qpc := first_frame_qpc; pc_first_frame_index := first_frame_index;
        pc_frame_count := frame_count; pc_pcm_s16le := pcm |}.

(** [as i32]. *)
Definition as_i32 (x : Z) : Z := if x <? 2147483648 then x else x - 4294967296.

Definition expected_mode (s : BrokerPcmInputSource) : Z :=
  match ps_input_selection_mode s with SystemDefault => 1 | EndpointId => 2 end.

Definition decode_receipt (body : list Z) (s : BrokerPcmInputSource)
    : result BrokerPcmInputTransportError NativePcmReceipt :=
  c ← cursor_new body (lit "NPIR");
  '(version, c) ← cu_u32 c;
  '(_, c) ← cu_string 128 c;
  '(stream_id, c) ← cu_string 128 c;
  '(session_id, c) ← cu_string 128 c;
  '(turn_id, c) ← cu_string 128 c;
  '(generation, c) ← cu_u64 c;
  '(mode, c) ← cu_u8 c;
  '(endpoint_id, c) ← cu_string 1024 c;
  '(endpoint_generation, c) ← cu_u64 c;
  '(rate, c) ← cu_u32 c;
  '(channels, c) ← cu_u16 c;
  '(frames, c) ← cu_u64 c;
  '(_, c) ← cu_u64 c;
  '(peak, c) ← cu_u32 c;
  '(rms, c) ← cu_u32 c;
  '(clipped_samples, c) ← cu_u64 c;
  '(silent_frames, c) ← cu_u64 c;
  '(source_complete, c) ← cu_flag c;
  '(_, c) ← cu_flag c;
  '(_, c) ← cu_flag c;
  '(cancelled, c) ← cu_flag c;
  '(device_lost, c) ← cu_flag c;
  '(activation_source, c) ← cu_u8 c;
  '(virtual_key, c) ← cu_u32 c;
  '(press_sequence, c) ← cu_u64 c;
  '(pressed_qpc, c) ← cu_u64 c;
  '(release_sequence, c) ← cu_u64 c;
  '(released_qpc, c) ← cu_u64 c;
  let peak_milli_dbfs := as_i32 peak in
  let rms_milli_dbfs := as_i32 rms in
  if negb (version =? SCHEMA_VERSION)
     || negb (str_eqb stream_id (ps_stream_id s))
     || negb (str_eqb session_id (pi_session_id (ps_identity s)))
     || negb (str_eqb turn_id (pi_turn_id (ps_identity s)))
     || negb (generation =? pi_generation (ps_identity s))
     || negb (mode =? expected_mode s)
     || negb (str_eqb endpoint_id (pi_input_endpoint_id (ps_identity s)))
     || negb (endpoint_generation =? pi_input_endpoint_generation (ps_identity s))
     || negb (rate =? ps_sample_rate s)
     || negb (channels =? ps_channels s)
     || negb (frames =? ps_captured_frames s)
     || (ps_max_frames s <? frames)
     || negb ((-120000 <=? peak_milli_dbfs) && (peak_milli_dbfs <=? 0))
     || negb ((-120000 <=? rms_milli_dbfs) && (rms_milli_dbfs <=? 0))
     || (sat_mul64 frames channels <? clipped_samples)
     || (frames <? silent_frames)
     || negb (activation_source =? 2)
     || negb (virtual_key =? pa_ptt_virtual_key (ps_activation s))
     || negb (press_sequence =? pa_ptt_press_transition_sequence (ps_activation s))
     || negb (pressed_qpc =? pa_ptt_pressed_qpc (ps_activation s))
     || negb (Bool.eqb (release_sequence =? 0) (released_qpc =? 0))
     || (negb (release_sequence =? 0)
         && ((release_sequence <=? press_sequence) || (released_qpc <? pressed_qpc)))
     || (source_complete && (release_sequence =? 0))
     || negb (cu_done c)
     || (source_complete && (cancelled || device_lost))
  then Err Protocol else
  Ok {| pr_identity := ps_identity s; pr_activation := ps_activation s;
        pr_captured_frames := frames; pr_source_capture_complete := source_complete;
        pr_cancelled := cancelled; pr_device_lost := device_lost;
        pr_ptt_release_transition_sequence := release_sequence;
        pr_ptt_released_qpc := released_qpc |}.

(** ** The operations *)

Definition accept_receipt (body : list Z) (s : BrokerPcmInputSource)
    : BrokerPcmInputSource * result BrokerPcmInputTransportError unit :=
  match decode_receipt body s with
  | Ok receipt => (ps_set_receipt receipt s, Ok tt)
  | Err e => (s, Err e)
  end.

(** The interface's error carries no detail. *)
Definition opaque {A} (r : result BrokerPcmInputTransportError A) : result unit A :=
  match r with Ok a => Ok a | Err _ => Err tt end.

Definition next_chunk (s : BrokerPcmInputSource)
    : BrokerPcmInputSource * result unit (option NativePcmChunk) :=
  if is_some (ps_receipt s) then (s, Ok None) else
  let '(s, body) := read_next_body s in
  match body with
  | Err _ => (s, Err tt)
  | Ok body =>
      if starts_with (lit "NPIR") body then
        let '(s, r) := accept_receipt body s in
        (s, _ ← opaque r; Ok None)
      else
        match decode_chunk body s with
        | Err _ => (s, Err tt)
        | Ok chunk => (ps_count_chunk chunk s, Ok (Some chunk))
        end
  end.

Definition ack_code (action : NativePcmAck) : Z :=
  match action with AckContinue => 0 | AckStop => 1 | AckCancel => 2 end.

Definition ack_body (sequence : Z) (action : NativePcmAck) : list Z :=
  lit "NPIA" ++ le_bytes 4 SCHEMA_VERSION ++ le_bytes 8 sequence ++ [ack_code action].

(** [io] is the outcome of writing the length-prefixed body. *)
Definition write_ack (sequence : Z) (action : NativePcmAck)
    (io : result BrokerPcmInputTransportError unit) (s : BrokerPcmInputSource)
    : BrokerPcmInputSource * result BrokerPcmInputTransportError unit :=
  if (sequence =? 0) || negb (bool_decide (ps_last_sequence s = Some sequence))
  then (s, Err Protocol) else
  match ps_pipe s with
  | None => (s, Err Closed)
  | Some p =>
      match io with
      | Err e => (s, Err e)
      | Ok _ =>
          let body := ack_body sequence action in
          (ps_set_pipe (Some {| pp_incoming := pp_incoming p; pp_peer_open := pp_peer_open p;
             pp_outgoing := pp_outgoing p ++ [le_bytes 4 (Z.of_nat (length body)) ++ body] |}) s,
           Ok tt)
      end
  end.

Definition acknowledge (sequence : Z) (action : NativePcmAck)
    (io : result BrokerPcmInputTransportError unit) (s : BrokerPcmInputSource)
    : BrokerPcmInputSource * result unit unit :=
  let '(s, r) := write_ack sequence action io s in (s, opaque r).

Definition pcm_finish (s : BrokerPcmInputSource)
    : BrokerPcmInputSource * result unit NativePcmReceipt :=
  if is_some (ps_receipt s) then (s, ok_or (ps_receipt s) tt) else
  let '(s, body) := read_next_body s in
  match body with
  | Err _ => (s, Err tt)
  | Ok body =>
      let '(s, r) := accept_receipt body s in
      match r with
      | Err _ => (s, Err tt)
      | Ok _ => (s, ok_or (ps_receipt s) tt)
      end
  end.

Definition pcm_cancel (io : result BrokerPcmInputTransportError unit) (s : BrokerPcmInputSource)
    : BrokerPcmInputSource * result unit unit :=
  let s := match ps_last_sequence s with
           | Some sequence => (write_ack sequence AckCancel io s).1
           | None => s
           end in
  (ps_set_pipe None s, Ok tt).

(** ** What the speech bridge checks again ([stt_bridge.rs]) *)

Definition MAX_PCM_CHUNK_BYTES : Z := 64 * 1024.

Inductive SelectedSttError :=
| UnsupportedRoute | CredentialReferenceMismatch | CredentialUnavailable | InvalidNativeInput
| NativeInputUnavailable | ManualRetryNotAuthorized | InvalidRequest | ProviderUnavailable
| ProviderProtocol | SttCancelled.

(** [checked_mul] of a [usize]. *)
Definition checked_mul64 (a b : Z) : option Z :=
  if a * b <=? u64_max then Some (a * b) else None.

Definition validate_chunk (chunk : NativePcmChunk) (identity : NativePcmIdentity) (sequence : Z)
    : result SelectedSttError unit :=
  let len := Z.of_nat (length (pc_pcm_s16le chunk)) in
  if negb (bool_decide (pc_identity chunk = identity))
     || negb (pc_sequence chunk =? sequence)
     || (pc_first_frame_qpc chunk =? 0)
     || (len =? 0)
     || (MAX_PCM_CHUNK_BYTES <? len)
     || negb (len `mod` 2 =? 0)
     || negb (bool_decide (checked_mul64 (pc_frame_count chunk) 2 = Some len))
  then Err InvalidNativeInput else Ok tt.

(** ** Runs *)

(** What happens to a source: bytes arrive, the peer closes its end, or the host
    calls an operation. *)
Inductive pcm_event :=
| PcmArrive (bytes : list Z)
| PcmPeerCloses
| PcmNextChunk
| PcmAcknowledge (sequence : Z) (action : NativePcmAck)
    (io : result BrokerPcmInputTransportError unit)
| PcmFinish
| PcmCancel (io : result BrokerPcmInputTransportError unit).

(** What the host gets back. *)
Inductive pcm_observation :=
| GotChunk (chunk : NativePcmChunk)
| GotReceipt (receipt : NativePcmReceipt)
| Acknowledged (sequence : Z) (action : NativePcmAck)
| GotNothing.

Definition on_pipe (f : Pipe → Pipe) (s : BrokerPcmInputSource) : BrokerPcmInputSource :=
  ps_set_pipe (f <$> ps_pipe s) s.

Definition pcm_step (s : BrokerPcmInputSource) (e : pcm_event)
    : BrokerPcmInputSource * pcm_observation :=
  match e with
  | PcmArrive bytes =>
      (on_pipe (λ p, {| pp_incoming := pp_incoming p ++ bytes; pp_peer_open := pp_peer_open p;
                        pp_outgoing := pp_outgoing p |}) s, GotNothing)
  | PcmPeerCloses =>
      (on_pipe (λ p, {| pp_incoming := pp_incoming p; pp_peer_open := false;
                        pp_outgoing := pp_outgoing p |}) s, GotNothing)
  | PcmNextChunk =>
      let '(s, r) := next_chunk s in
      (s, match r with Ok (Some chunk) => GotChunk chunk | _ => GotNothing end)
  | PcmAcknowledge sequence action io =>
      let '(s, r) := acknowledge sequence action io s in
      (s, match r with Ok _ => Acknowledged sequence action | Err _ => GotNothing end)
  | PcmFinish =>
      let '(s, r) := pcm_finish s in
      (s, match r with Ok receipt => GotReceipt receipt | Err _ => GotNothing end)
  | PcmCancel io => ((pcm_cancel io s).1, GotNothing)
  end.

Fixpoint pcm_run (s : BrokerPcmInputSource) (events : list pcm_event)
    : BrokerPcmInputSource * list pcm_observation :=
  match events with
  | [] => (s, [])
  | e :: events =>
      let '(s, o) := pcm_step s e in
      let '(s, os) := pcm_run s events in
      (s, o :: os)
  end.

Definition chunk_of (o : pcm_observation) : option NativePcmChunk :=
  match o with GotChunk chunk => Some chunk | _ => None end.

(** The chunks delivered so far and their frames. *)
Definition chunks_of (os : list pcm_observation) : list NativePcmChunk := omap chunk_of os.
Definition frames_of (chunks : list NativePcmChunk) : Z :=
  foldr (λ chunk n, pc_frame_count chunk + n) 0 chunks.

(** A receipt of the capture under [l], after [frames] frames. *)
Definition receipt_ok (l : BrokerAudioInputLease) (frames : Z) (r : NativePcmReceipt) : Prop :=
  pr_identity r = lease_identity l ∧ pr_activation r = lease_activation l ∧
  pr_captured_frames r = frames ∧
  (pr_source_capture_complete r = true →
   pr_cancelled r = false ∧ pr_device_lost r = false ∧
   la_ptt_press_transition_sequence l < pr_ptt_release_transition_sequence r ∧
   la_ptt_pressed_qpc l ≤ pr_ptt_released_qpc r).

(** What one observation promises after the observations [before] of a capture
    under [l]: the host may rely on nothing else. *)
Definition observation_ok (l : BrokerAudioInputLease) (before : list pcm_observation)
    (o : pcm_observation) : Prop :=
  let chunks := chunks_of before in
  match o with
  | GotChunk chunk =>
      pc_first_frame_index chunk = frames_of chunks ∧
      frames_of chunks + pc_frame_count chunk ≤ la_max_frames l ∧
      validate_chunk chunk (lease_identity l) (Z.of_nat (length chunks) + 1) = Ok tt ∧
      (∀ r, GotReceipt r ∉ before)
  | GotReceipt r => receipt_ok l (frames_of chunks) r
  | Acknowledged sequence _ => 0 < sequence ∧ sequence = Z.of_nat (length chunks)
  | GotNothing => True
  end.

(** Each observation, after the ones before it. *)
Fixpoint all_ok (l : BrokerAudioInputLease) (before os : list pcm_observation) : Prop :=
  match os with
  | [] => True
  | o :: os => observation_ok l before o ∧ all_ok l (before ++ [o]) os
  end.

(** * Lemmas *)

(** ** Reads keep the state *)

(** [s'] is [s] up to its pipe. *)
Definition same_but_pipe (s s' : BrokerPcmInputSource) : Prop := s' = ps_set_pipe (ps_pipe s') s.

Lemma same_but_pipe_set p s : same_but_pipe s (ps_set_pipe p s).
Proof. done. Qed.

Lemma same_but_pipe_refl s : same_but_pipe s s.
Proof. by destruct s. Qed.

Lemma read_next_body_same s : same_but_pipe s (read_next_body s).1.
Proof.
  unfold read_next_body. destruct (ps_pipe s); [|apply same_but_pipe_refl].
  by destruct (read_body _).
Qed.

Lemma write_ack_same sequence action io s : same_but_pipe s (write_ack sequence action io s).1.
Proof.
  unfold write_ack. destruct (_ || _); [apply same_but_pipe_refl|].
  destruct (ps_pipe s); [|apply same_but_pipe_refl].
  destruct io; [done|apply same_but_pipe_refl].
Qed.

(** ** The decoders *)

#[local] Ltac read_fields H :=
  repeat match type of H with
  | mbind _ ?r = Ok _ => destruct r as [[? ?]|]; [cbn [mbind result_bind] in H|discriminate H]
  end.

(** A guard that passed: each of its conditions. *)
#[local] Ltac guards E :=
  repeat (apply orb_false_iff in E as [E ?]);
  repeat match goal with H : negb _ = false |- _ => apply negb_false_iff in H end.

Lemma decode_chunk_ok body s chunk :
  decode_chunk body s = Ok chunk → ps_channels s = 1 →
  let len := Z.of_nat (length (pc_pcm_s16le chunk)) in
  pc_identity chunk = ps_identity s ∧ pc_sequence chunk = ps_next_sequence s ∧
  pc_first_frame_qpc chunk ≠ 0 ∧ pc_first_frame_index chunk = ps_captured_frames s ∧
  0 < pc_frame_count chunk ∧ len = pc_frame_count chunk * 2 ∧ len ≤ ps_max_chunk_bytes s ∧
  sat_add64 (ps_captured_frames s) (pc_frame_count chunk) ≤ ps_max_frames s.
Proof.
  unfold decode_chunk. intros H Hch. destruct (cursor_new _ _) as [c0|]; [|discriminate H].
  cbn [mbind result_bind] in H. read_fields H.
  destruct (_ || _) eqn:E in H; [discriminate H|]. injection H as <-. guards E.
  unfold cu_remaining in *. cbn in *. rewrite Hch in *. split; [done|]. lia.
Qed.

Lemma decode_receipt_ok l body s r :
  ps_identity s = lease_identity l → ps_activation s = lease_activation l →
  decode_receipt body s = Ok r → receipt_ok l (ps_captured_frames s) r.
Proof.
  unfold decode_receipt. intros Hi Ha H. destruct (cursor_new _ _) as [c0|]; [|discriminate H].
  cbn [mbind result_bind] in H. read_fields H.
  destruct (_ || _) eqn:E in H; [discriminate H|]. injection H as <-. guards E.
  unfold receipt_ok. cbn. split; [done|]. split; [done|]. split; [lia|]. intros ->.
  cbn [andb] in *. rewrite Ha in *. cbn in *.
  match goal with H : orb _ _ = false |- _ => apply orb_false_elim in H; destruct H; subst end.
  split; [done|]. split; [done|]. lia.
Qed.

(** ** The invariant of a capture *)

(** The source after the observations [os] of a capture under [l]. *)
Record pcm_inv (l : BrokerAudioInputLease) (os : list pcm_observation)
    (s : BrokerPcmInputSource) : Prop := {
  inv_identity : ps_identity s = lease_identity l;
  inv_activation : ps_activation s = lease_activation l;
  inv_channels : ps_channels s = 1;
  inv_max_frames : ps_max_frames s = la_max_frames l;
  inv_max_chunk : ps_max_chunk_bytes s = MAX_CHUNK_BYTES;
  inv_next : ps_next_sequence s = Z.of_nat (length (chunks_of os)) + 1;
  inv_last : ps_last_sequence s =
    if bool_decide (chunks_of os = []) then None else Some (Z.of_nat (length (chunks_of os)));
  inv_frames : ps_captured_frames s = frames_of (chunks_of os);
  inv_count : Z.of_nat (length (chunks_of os)) ≤ frames_of (chunks_of os);
  inv_bound : frames_of (chunks_of os) ≤ 160000;
  inv_receipt : match ps_receipt s with
                | None => ∀ r, GotReceipt r ∉ os
                | Some r => receipt_ok l (frames_of (chunks_of os)) r
                end
}.

Lemma chunks_of_snoc os o : chunks_of (os ++ [o]) = chunks_of os ++ option_list (chunk_of o).
Proof. unfold chunks_of. rewrite omap_app. cbn. by destruct (chunk_of o). Qed.

Lemma frames_of_app a b : frames_of (a ++ b) = frames_of a + frames_of b.
Proof. unfold frames_of. induction a as [|c a IH]; cbn; lia. Qed.

Lemma pcm_inv_same l os s s' : same_but_pipe s s' → pcm_inv l os s → pcm_inv l os s'.
Proof. intros -> []. by constructor. Qed.

(** An observation that is no chunk leaves the invariant, a receipt only when it
    is recorded. *)
Lemma pcm_inv_quiet l os o s :
  chunk_of o = None → (∀ r, o = GotReceipt r → ps_receipt s ≠ None) →
  pcm_inv l os s → pcm_inv l (os ++ [o]) s.
Proof.
  intros Ho Hr H.
  assert (chunks_of (os ++ [o]) = chunks_of os) as Hc
    by (by rewrite chunks_of_snoc, Ho, app_nil_r).
  destruct H; constructor; rewrite ?Hc; try done.
  destruct (ps_receipt s) as [r|]; [done|]. intros r [Hin|Heq]%elem_of_app.
  - by apply (inv_receipt0 r).
  - apply list_elem_of_singleton in Heq. by apply (Hr r).
Qed.

Lemma accept_receipt_inv l os body s s' :
  accept_receipt body s = (s', Ok tt) → pcm_inv l os s → pcm_inv l os s'.
Proof.
  unfold accept_receipt. destruct (decode_receipt body s) as [r|] eqn:E; [|done].
  intros [= <-] H. apply (decode_receipt_ok l) in E; [|apply H|apply H].
  rewrite (inv_frames _ _ _ H) in E. destruct H; by constructor.
Qed.

Lemma accept_receipt_err body s s' e : accept_receipt body s = (s', Err e) → s' = s.
Proof. unfold accept_receipt. destruct (decode_receipt _ _); by intros [=]. Qed.

Lemma validate_chunk_ok chunk identity sequence :
  pc_identity chunk = identity → pc_sequence chunk = sequence → pc_first_frame_qpc chunk ≠ 0 →
  0 < pc_frame_count chunk →
  Z.of_nat (length (pc_pcm_s16le chunk)) = pc_frame_count chunk * 2 →
  Z.of_nat (length (pc_pcm_s16le chunk)) ≤ MAX_PCM_CHUNK_BYTES →
  validate_chunk chunk identity sequence = Ok tt.
Proof.
  intros Hi Hs H1 H2 H3 H4. unfold validate_chunk, checked_mul64. rewrite Hi, Hs, H3 in *.
  unfold MAX_PCM_CHUNK_BYTES in *.
  destruct (Z.leb_spec (pc_frame_count chunk * 2) u64_max); [|unfold u64_max in *; lia].
  rewrite !bool_decide_true by reflexivity. rewrite Z_mod_mult, !Z.eqb_refl. cbn [negb orb].
  destruct (Z.eqb_spec (pc_first_frame_qpc chunk) 0); [lia|].
  destruct (Z.eqb_spec (pc_frame_count chunk * 2) 0); [lia|].
  destruct (Z.ltb_spec (64 * 1024) (pc_frame_count chunk * 2)); [lia|]. reflexivity.
Qed.

Section capture.
Context (l : BrokerAudioInputLease) (Hl : lease_validate l = Ok tt).

Lemma lease_frames : la_max_frames l ≤ 160000.
Proof using Hl.
  destruct (lease_validate_ok l Hl) as (_&_&_&_&_&Hd&Hs&_&Hm&_). rewrite Hs in Hm.
  Z.to_euclidean_division_equations. lia.
Qed.

Lemma count_chunk_inv os body s chunk :
  pcm_inv l os s → ps_receipt s = None → decode_chunk body s = Ok chunk →
  observation_ok l os (GotChunk chunk) ∧ pcm_inv l (os ++ [GotChunk chunk]) (ps_count_chunk chunk s).
Proof using Hl.
  intros H Hr Hd. pose proof lease_frames as Hmax. pose proof H as [].
  apply decode_chunk_ok in Hd as (D1&D2&D3&D4&D5&D6&D7&D8); [|done].
  rewrite Hr in inv_receipt0. rewrite inv_frames0, inv_max_frames0 in *. rewrite inv_max_chunk0 in D7.
  assert (frames_of (chunks_of os) + pc_frame_count chunk ≤ la_max_frames l) as Hfit.
  { unfold sat_add64 in D8. destruct (Z.min_spec (frames_of (chunks_of os) + pc_frame_count chunk)
      u64_max) as [[_ Hmin]|[_ Hmin]]; rewrite Hmin in D8; [exact D8|].
    unfold u64_max in D8. lia. }
  split.
  - cbn. split; [done|]. split; [done|]. split; [|done].
    apply validate_chunk_ok; [congruence|congruence|exact D3|exact D5|exact D6|exact D7].
  - constructor; cbn; rewrite ?chunks_of_snoc, ?length_app, ?frames_of_app; cbn; try done.
    + rewrite inv_next0. unfold sat_add64, u64_max. lia.
    + rewrite bool_decide_false by (by intros []%app_nil). rewrite D2, inv_next0. f_equal. lia.
    + rewrite inv_frames0. unfold sat_add64, u64_max. lia.
    + lia.
    + lia.
    + rewrite Hr. intros r [Hin|Heq%list_elem_of_singleton]%elem_of_app; [by apply (inv_receipt0 r)|done].
Qed.

Lemma next_chunk_inv os s s' r :
  next_chunk s = (s', r) → pcm_inv l os s →
  match r with
  | Ok (Some chunk) =>
      observation_ok l os (GotChunk chunk) ∧ pcm_inv l (os ++ [GotChunk chunk]) s'
  | _ => pcm_inv l os s'
  end.
Proof using Hl.
  unfold next_chunk. intros E H. destruct (ps_receipt s) as [r0|] eqn:Er; cbn in E; [by simplify_eq|].
  pose proof (read_next_body_same s) as Hsame.
  destruct (read_next_body s) as [s1 [body|]]; cbn in Hsame.
  2: { simplify_eq. by eapply pcm_inv_same. }
  assert (ps_receipt s1 = None) as Er1 by (rewrite Hsame; exact Er).
  apply (pcm_inv_same _ _ _ _ Hsame) in H. clear Hsame Er.
  destruct (starts_with _ body).
  - destruct (accept_receipt body s1) as [s2 [[]|e]] eqn:Ea; cbn in E; simplify_eq.
    + by eapply accept_receipt_inv.
    + by apply accept_receipt_err in Ea as ->.
  - destruct (decode_chunk body s1) as [chunk|] eqn:Ed; simplify_eq; [|done].
    by eapply count_chunk_inv.
Qed.

Lemma pcm_finish_inv os s s' r :
  pcm_finish s = (s', r) → pcm_inv l os s →
  match r with
  | Ok receipt =>
      receipt_ok l (frames_of (chunks_of os)) receipt ∧ pcm_inv l (os ++ [GotReceipt receipt]) s'
  | Err _ => pcm_inv l os s'
  end.
Proof using Hl.
  intros E H.
  assert (∀ s2 receipt, pcm_inv l os s2 → ps_receipt s2 = Some receipt →
    receipt_ok l (frames_of (chunks_of os)) receipt ∧
    pcm_inv l (os ++ [GotReceipt receipt]) s2) as Hgot.
  { intros s2 receipt H2 Hr. split; [by pose proof (inv_receipt _ _ _ H2) as Hok; rewrite Hr in Hok|].
    apply pcm_inv_quiet; [done| |done]. intros _ _. by rewrite Hr. }
  unfold pcm_finish in E. destruct (ps_receipt s) as [r0|] eqn:Er; cbn in E.
  { simplify_eq. by apply Hgot. }
  pose proof (read_next_body_same s) as Hsame.
  destruct (read_next_body s) as [s1 [body|]]; cbn in Hsame;
    apply (pcm_inv_same _ _ _ _ Hsame) in H; [|by simplify_eq].
  destruct (accept_receipt body s1) as [s2 [[]|e]] eqn:Ea; simplify_eq.
  - apply (accept_receipt_inv l os) in Ea; [|done].
    destruct (ps_receipt s') as [receipt|] eqn:Er2; cbn; [by apply Hgot|done].
  - by apply accept_receipt_err in Ea as ->.
Qed.

Lemma acknowledge_inv os sequence action io s s' r :
  acknowledge sequence action io s = (s', r) → pcm_inv l os s →
  pcm_inv l os s' ∧ (r = Ok tt → observation_ok l os (Acknowledged sequence action)).
Proof using.
  unfold acknowledge. intros E H. pose proof (write_ack_same sequence action io s) as Hsame.
  destruct (write_ack sequence action io s) as [s1 r1] eqn:Ew. cbn in Hsame.
  injection E as <- <-. split; [by eapply pcm_inv_same|]. unfold write_ack in Ew.
  destruct (Z.eqb_spec sequence 0); [by injection Ew as <- <-|]. cbn [orb] in Ew.
  destruct (decide (ps_last_sequence s = Some sequence)) as [Hlast|Hlast].
  2: { rewrite bool_decide_false in Ew by done. by injection Ew as <- <-. }
  intros _. cbn. clear Ew. rewrite (inv_last _ _ _ H) in Hlast.
  destruct (bool_decide _); [done|]. injection Hlast as <-. split; [|reflexivity]. lia.
Qed.

Lemma pcm_step_inv os s e s' o :
  pcm_step s e = (s', o) → pcm_inv l os s →
  observation_ok l os o ∧ pcm_inv l (os ++ [o]) s'.
Proof using Hl.
  assert (∀ s, pcm_inv l os s → observation_ok l os GotNothing ∧ pcm_inv l (os ++ [GotNothing]) s)
    as Hquiet by (intros s1 H1; split; [done|]; by apply pcm_inv_quiet).
  intros E H. destruct e as [bytes| | |sequence action io| |io]; cbn in E.
  - injection E as <- <-. apply Hquiet. by apply (pcm_inv_same _ _ s).
  - injection E as <- <-. apply Hquiet. by apply (pcm_inv_same _ _ s).
  - destruct (next_chunk s) as [s1 r] eqn:En. apply (next_chunk_inv os) in En; [|done].
    destruct r as [[chunk|]|]; injection E as <- <-; [done|by apply Hquiet..].
  - destruct (acknowledge _ _ _ _) as [s1 r] eqn:En. apply (acknowledge_inv os) in En as [H1 Hr]; [|done].
    destruct r as [[]|]; injection E as <- <-; [|by apply Hquiet].
    split; [by apply Hr|]. by apply pcm_inv_quiet.
  - destruct (pcm_finish s) as [s1 r] eqn:En. apply (pcm_finish_inv os) in En; [|done].
    destruct r; injection E as <- <-; [done|by apply Hquiet].
  - injection E as <- <-. apply Hquiet. unfold pcm_cancel. cbn.
    destruct (ps_last_sequence s) as [q|]; [|by apply (pcm_inv_same _ _ s)].
    apply (pcm_inv_same _ _ (write_ack q AckCancel io s).1); [done|].
    by apply (pcm_inv_same _ _ s), H; apply write_ack_same.
Qed.

Lemma pcm_run_ok events os s :
  pcm_inv l os s → all_ok l os (pcm_run s events).2.
Proof using Hl.
  revert os s. induction events as [|e events IH]; intros os s H; [done|]. cbn.
  destruct (pcm_step s e) as [s1 o] eqn:E1. apply (pcm_step_inv os) in E1 as [Ho H1]; [|done].
  specialize (IH _ _ H1). destruct (pcm_run s1 events) as [s2 os']. by split.
Qed.
End capture.

Lemma connect_inv l now frequency hello pipe s :
  connect l now frequency hello pipe = Ok s → lease_validate l = Ok tt ∧ pcm_inv l [] s.
Proof.
  unfold connect. destruct (lease_validate l) as [[]|] eqn:Hv; [|done]. cbn [mbind result_bind].
  destruct (_ || _); [done|]. destruct (negb _); [done|].
  destruct (decode_hello hello l); [|done]. cbn. intros [= <-]. split; [done|].
  destruct (lease_validate_ok l Hv) as (_&_&_&_&_&_&_&Hch&_&Hmc).
  constructor; cbn; try done. intros r []%not_elem_of_nil.
Qed.

(** whatever bytes the pipe delivers and in whatever order the host calls the
    operations, a connected source hands out only a contiguous capture: chunks are
    numbered 1, 2, 3, ..., start where the previous one ended, pass the speech
    bridge's own validation and stay within the lease's frames; a receipt is the
    lease's and counts exactly the delivered frames, no chunk follows it, and a
    complete one proves that the key was released after the press; only the latest
    delivered chunk can be acknowledged. *)
Theorem pcm_capture_contiguous l now frequency hello pipe s events :
  connect l now frequency hello pipe = Ok s →
  all_ok l [] (pcm_run s events).2.
Proof. intros [Hv H]%connect_inv. by apply pcm_run_ok. Qed.

(** ** The theorem at a concrete input: the messages of the source's own tests *)

Definition with_prefix (body : list Z) : list Z := le_bytes 4 (Z.of_nat (length body)) ++ body.

Definition fixture_chunk : list Z :=
  lit "NPIC" ++ le_bytes 4 2 ++ le_bytes 8 1 ++ le_bytes 8 50 ++ le_bytes 8 0 ++ le_bytes 4 2
  ++ le_bytes 4 4 ++ [1; 0; 2; 0].

Definition fixture_receipt : list Z :=
  lit "NPIR" ++ le_bytes 4 2 ++ string_bytes (lit "mic-receipt-fixture")
  ++ string_bytes (lit "mic-fixture") ++ string_bytes (lit "session-1")
  ++ string_bytes (lit "turn-1") ++ le_bytes 8 4 ++ [1] ++ string_bytes (lit "endpoint-fixture")
  ++ le_bytes 8 3 ++ le_bytes 4 16000 ++ le_bytes 2 1 ++ le_bytes 8 2 ++ le_bytes 8 125
  ++ le_bytes 4 (4294967296 - 1000) ++ le_bytes 4 (4294967296 - 3000) ++ le_bytes 8 0
  ++ le_bytes 8 0 ++ [1; 0; 0; 0; 0] ++ [2] ++ le_bytes 4 88 ++ le_bytes 8 8 ++ le_bytes 8 10
  ++ le_bytes 8 9 ++ le_bytes 8 20.

Definition fixture_pipe : Pipe := {|
  pp_incoming := with_prefix fixture_chunk; pp_peer_open := true; pp_outgoing := [] |}.

Definition fixture_events : list pcm_event :=
  [PcmNextChunk; PcmAcknowledge 2 AckContinue (Ok tt); PcmAcknowledge 1 AckStop (Ok tt);
   PcmArrive (with_prefix fixture_receipt); PcmNextChunk; PcmFinish; PcmNextChunk].

Lemma pcm_capture_contiguous_witness : ∃ s,
  connect fixture_lease 98 10000000 (hello_bytes fixture_lease) fixture_pipe = Ok s ∧
  (match (pcm_run s fixture_events).2 with
   | [GotChunk c; GotNothing; Acknowledged 1 AckStop; GotNothing; GotNothing; GotReceipt r;
      GotNothing] => (pc_frame_count c, pr_captured_frames r)
   | _ => (0, 0)
   end = (2, 2)) ∧
  all_ok fixture_lease [] (pcm_run s fixture_events).2.
Proof.
  destruct (connect fixture_lease 98 10000000 (hello_bytes fixture_lease) fixture_pipe)
    as [s|e] eqn:E; [|vm_compute in E; discriminate E].
  exists s. split; [reflexivity|].
  split; [vm_compute in E; injection E as <-; vm_compute; reflexivity|].
  exact (pcm_capture_contiguous _ _ _ _ _ s fixture_events E).
Defined.
