(* ===== verification/Response.v ===== *)
(** * The effects of a turn ([crates/runtime-core/src/types.rs])

    The structured effects a provider derives beside the spoken response, with
    the validation that filters them, and the delivery and outcome structures of a
    turn. A [Duration] is its number of nanoseconds.

    Then the envelope of a structured response and its validation
    ([structured_response.rs]). *)

From S2P Require Import Prelude Text Float Policy.

#[local] Open Scope Z_scope.

(** ** Proposals *)

Record MemoryProposal := {
  mp_content : str;
  mp_confidence : f32
}.

Record RelationshipProposal := {
  rp_dimension : str;
  rp_delta : f32;
  rp_reason : str
}.

Record ActionProposal := {
  ap_action : str;
  ap_arguments : gmap str str
}.

Record NpcEffectsV1 := {
  ef_emotion : option str;
  ef_valence : option f32;
  ef_arousal : option f32;
  ef_intensity : option f32;
  ef_voice_style : option str;
  ef_animation_cues : list str;
  ef_interruption_policy : option str;
  ef_memory_proposals : list MemoryProposal;
  ef_relationship_proposals : list RelationshipProposal;
  ef_action_proposals : list ActionProposal
}.

Definition effects_neutral : NpcEffectsV1 := {|
  ef_emotion := None; ef_valence := None; ef_arousal := None; ef_intensity := None;
  ef_voice_style := None; ef_animation_cues := []; ef_interruption_policy := None;
  ef_memory_proposals := []; ef_relationship_proposals := []; ef_action_proposals := [] |}.

Inductive EffectsValidationError :=
| EffectsOutOfRange (name : str)
| EffectsInvalidProposal (kind : str).

Definition validate_optional_range (name : str) (value : option f32) (minimum maximum : f32)
    : result EffectsValidationError unit :=
  if is_some_and value (λ v, negb (is_finite v) || negb (range_contains minimum maximum v))
  then Err (EffectsOutOfRange name) else Ok tt.

Definition memory_proposal_invalid (p : MemoryProposal) : bool :=
  is_blank (mp_content p) || (2000 <? str_len (mp_content p))
  || negb (is_finite (mp_confidence p)) || negb (range_contains f_zero f32_one (mp_confidence p)).

Definition relationship_proposal_invalid (p : RelationshipProposal) : bool :=
  is_blank (rp_dimension p) || (64 <? str_len (rp_dimension p))
  || (500 <? str_len (rp_reason p)) || negb (is_finite (rp_delta p))
  || negb (range_contains f32_minus_one f32_one (rp_delta p)).

Definition cue_retained (cue : str) : bool := negb (is_blank cue) && (str_len cue <=? 64).

Definition action_retained (allowed_actions : list str) (p : ActionProposal) : bool :=
  existsb (λ value, str_eqb value (ap_action p)) allowed_actions
  && (Z.of_nat (size (ap_arguments p)) <=? 16)
  && forallb (λ kv, (str_len kv.1 <=? 64) && (str_len kv.2 <=? 1000)) (btree_iter (ap_arguments p)).

(** [NpcEffectsV1::validate]. *)
Definition effects_validate (e : NpcEffectsV1) (allowed_actions : list str)
    : result EffectsValidationError NpcEffectsV1 :=
  _ ← validate_optional_range (lit "valence") (ef_valence e) f32_minus_one f32_one;
  _ ← validate_optional_range (lit "arousal") (ef_arousal e) f_zero f32_one;
  _ ← validate_optional_range (lit "intensity") (ef_intensity e) f_zero f32_one;
  if existsb memory_proposal_invalid (ef_memory_proposals e)
  then Err (EffectsInvalidProposal (lit "memory")) else
  if existsb relationship_proposal_invalid (ef_relationship_proposals e)
  then Err (EffectsInvalidProposal (lit "relationship")) else
  Ok {| ef_emotion := ef_emotion e; ef_valence := ef_valence e; ef_arousal := ef_arousal e;
        ef_intensity := ef_intensity e; ef_voice_style := ef_voice_style e;
        ef_animation_cues := List.filter cue_retained (ef_animation_cues e);
        ef_interruption_policy := ef_interruption_policy e;
        ef_memory_proposals := ef_memory_proposals e;
        ef_relationship_proposals := ef_relationship_proposals e;
        ef_action_proposals :=
          List.filter (action_retained allowed_actions) (ef_action_proposals e) |}.

(** ** Deliveries and outcomes *)

Inductive DeliveryMode := DeliverAudio | DeliverSubtitle.
#[export] Instance DeliveryMode_eq_dec : EqDecision DeliveryMode.
Proof. solve_decision. Defined.

Record DeliveredSentence := {
  ds_sentence_id : Z;
  ds_text_start_bytes : Z;
  ds_text_end_bytes : Z;
  ds_text : str;
  ds_delivery : DeliveryMode;
  ds_audible_frames : Z;
  ds_duration : Z
}.

Record PlaybackReceipt := {
  pbr_audible_frames : Z;
  pbr_duration : Z;
  pbr_completed : bool
}.

Inductive Degradation :=
| IdentityToExplicitSelection
| MemoryWithoutVectorRetrieval
| NeutralEffects
| VisualsDisabled
| AudioToSubtitles
| MemoryCommitDeferred
| ProviderFallback (from to : str).
#[export] Instance Degradation_eq_dec : EqDecision Degradation.
Proof. solve_decision. Defined.

Record TurnFailure := {
  tf_code : str;
  tf_message : str;
  tf_retryable : bool
}.

#[global] Arguments memory_proposal_invalid : simpl never.
#[global] Arguments relationship_proposal_invalid : simpl never.
#[global] Arguments cue_retained : simpl never.
#[global] Arguments action_retained : simpl never.

(** * Lemmas *)

Lemma filter_all {A} (f : A → bool) l : Forall (λ x, f x = true) l → List.filter f l = l.
Proof. induction 1 as [|x l Hx _ IH]; [done|]. cbn. by rewrite Hx, IH. Qed.

Lemma existsb_none {A} (f : A → bool) l : Forall (λ x, f x = false) l → existsb f l = false.
Proof. induction 1 as [|x l Hx _ IH]; [done|]. cbn. by rewrite Hx. Qed.

Lemma existsb_false_Forall {A} (f : A → bool) l :
  existsb f l = false → Forall (λ x, f x = false) l.
Proof.
  induction l as [|x l IH]; cbn; [by constructor|]. intros [??]%orb_false_iff. by constructor; auto.
Qed.

Lemma validate_range_ok name value lo hi :
  validate_optional_range name value lo hi = Ok tt ↔
  ∀ v, value = Some v → is_finite v = true ∧ range_contains lo hi v = true.
Proof.
  unfold validate_optional_range. destruct value as [v|]; cbn; [|by split].
  destruct (is_finite v) eqn:Hf, (range_contains lo hi v) eqn:Hr; cbn;
    (split; [intros H; try discriminate H; by intros ? [= <-]|]);
    intros H; destruct (H v eq_refl); congruence.
Qed.

(** What accepted effects satisfy, as a predicate on the effects alone. *)
Record effects_ok (allowed : list str) (e : NpcEffectsV1) : Prop := {
  eo_valence : ∀ v, ef_valence e = Some v →
    is_finite v = true ∧ range_contains f32_minus_one f32_one v = true;
  eo_arousal : ∀ v, ef_arousal e = Some v →
    is_finite v = true ∧ range_contains f_zero f32_one v = true;
  eo_intensity : ∀ v, ef_intensity e = Some v →
    is_finite v = true ∧ range_contains f_zero f32_one v = true;
  eo_memory : Forall (λ p, memory_proposal_invalid p = false) (ef_memory_proposals e);
  eo_relationship :
    Forall (λ p, relationship_proposal_invalid p = false) (ef_relationship_proposals e);
  eo_cues : Forall (λ c, cue_retained c = true) (ef_animation_cues e);
  eo_actions : Forall (λ p, action_retained allowed p = true) (ef_action_proposals e)
}.

(** Valid effects come back unchanged. *)
Lemma effects_validate_id allowed e : effects_ok allowed e → effects_validate e allowed = Ok e.
Proof.
  intros [Hv Ha Hi Hm Hr Hc Hp]. unfold effects_validate.
  rewrite (proj2 (validate_range_ok _ _ _ _) Hv). cbn [mbind result_bind].
  rewrite (proj2 (validate_range_ok _ _ _ _) Ha). cbn [mbind result_bind].
  rewrite (proj2 (validate_range_ok _ _ _ _) Hi). cbn [mbind result_bind].
  rewrite !existsb_none, !filter_all by done. by destruct e.
Qed.

Lemma Forall_filter_true {A} (f : A → bool) l : Forall (λ x, f x = true) (List.filter f l).
Proof. apply Forall_forall. intros x Hx. rewrite list_elem_of_In, filter_In in Hx. apply Hx. Qed.

Lemma effects_validate_inv allowed e e' :
  effects_validate e allowed = Ok e' → effects_ok allowed e' ∧
  ef_animation_cues e' = List.filter cue_retained (ef_animation_cues e) ∧
  ef_action_proposals e' = List.filter (action_retained allowed) (ef_action_proposals e).
Proof.
  unfold effects_validate.
  destruct (validate_optional_range _ (ef_valence e) _ _) as [[]|] eqn:Hv; [|done].
  destruct (validate_optional_range _ (ef_arousal e) _ _) as [[]|] eqn:Ha; [|done].
  destruct (validate_optional_range _ (ef_intensity e) _ _) as [[]|] eqn:Hi; [|done].
  cbn [mbind result_bind]. destruct (existsb memory_proposal_invalid _) eqn:Hm; [done|].
  destruct (existsb relationship_proposal_invalid _) eqn:Hr; [done|]. intros [= <-].
  split; [|done]. rewrite validate_range_ok in Hv, Ha, Hi.
  constructor; cbn; try done; [by apply existsb_false_Forall..| |]; apply Forall_filter_true.
Qed.

Lemma action_retained_spec allowed p :
  action_retained allowed p = true →
  ap_action p ∈ allowed ∧ Z.of_nat (size (ap_arguments p)) ≤ 16 ∧
  map_Forall (λ k v, str_len k ≤ 64 ∧ str_len v ≤ 1000) (ap_arguments p).
Proof.
  unfold action_retained. intros [[(a&Ha&Heq)%existsb_exists Hs]%andb_prop Hf]%andb_prop.
  split; [|split; [lia|]].
  - apply bool_decide_eq_true in Heq as <-. by apply list_elem_of_In.
  - intros k v Hkv%btree_iter_elem. rewrite forallb_forall in Hf.
    specialize (Hf (k, v) (proj1 (list_elem_of_In _ _) Hkv)). cbn in Hf. lia.
Qed.

(** validated effects are safe to hand on: numbers are finite and in range,
    every kept action is on the allow list with bounded arguments, nothing is added
    or reordered (cues and actions are only filtered), and validating again changes
    nothing. *)
Theorem effects_validate_sound e allowed e' :
  effects_validate e allowed = Ok e' →
  effects_ok allowed e' ∧ effects_validate e' allowed = Ok e' ∧
  ef_animation_cues e' = List.filter cue_retained (ef_animation_cues e) ∧
  ef_action_proposals e' = List.filter (action_retained allowed) (ef_action_proposals e) ∧
  Forall (λ p, ap_action p ∈ allowed ∧ Z.of_nat (size (ap_arguments p)) ≤ 16 ∧
    map_Forall (λ k v, str_len k ≤ 64 ∧ str_len v ≤ 1000) (ap_arguments p)) (ef_action_proposals e').
Proof.
  intros (Hok&Hc&Hp)%effects_validate_inv. split; [done|].
  split; [by apply effects_validate_id|]. split; [done|]. split; [done|].
  eapply Forall_impl; [exact (eo_actions _ _ Hok)|]. apply action_retained_spec.
Qed.

Definition demo_effects : NpcEffectsV1 := {|
  ef_emotion := Some (lit "joy"); ef_valence := Some f32_one; ef_arousal := None;
  ef_intensity := Some f_zero; ef_voice_style := None; ef_animation_cues := [lit "nod"; lit " "];
  ef_interruption_policy := None;
  ef_memory_proposals := [{| mp_content := lit "met"; mp_confidence := f32_one |}];
  ef_relationship_proposals := [];
  ef_action_proposals := [{| ap_action := lit "unsafe"; ap_arguments := ∅ |};
                          {| ap_action := lit "wave"; ap_arguments := ∅ |}] |}.

Lemma effects_validate_sound_witness : ∃ e',
  effects_validate demo_effects [lit "wave"] = Ok e' ∧
  ap_action <$> ef_action_proposals e' = [lit "wave"] ∧ ef_animation_cues e' = [lit "nod"] ∧
  effects_validate e' [lit "wave"] = Ok e'.
Proof.
  eexists. split; [reflexivity|]. split; [vm_compute; reflexivity|]. split; [vm_compute; reflexivity|].
  exact (proj1 (proj2 (effects_validate_sound demo_effects [lit "wave"] _ eq_refl))).
Defined.

(** * The NPC response envelope
    ([crates/runtime-core/src/structured_response.rs])

    The versioned response a language model returns, its validation against a
    policy and its translation to the effects of [Response]. Parsing a JSON text is
    the work of an external crate: see [ResponseStream]. *)

#[local] Open Scope Z_scope.

Definition MAX_PROVIDER_RESPONSE_BYTES : Z := 65536.
Definition MAX_SPOKEN_RESPONSE_BYTES : Z := 16384.

Definition TOP_LEVEL_FIELDS : list str :=
  lit <$> ["schema_version"; "spoken_response"; "emotion"; "voice_style"; "animation_cues";
           "memory_proposals"; "interruption_behavior"; "actions"]%string.

(** ** The envelope *)

Inductive NpcResponseSchemaVersion := V1.
#[export] Instance NpcResponseSchemaVersion_eq_dec : EqDecision NpcResponseSchemaVersion.
Proof. solve_decision. Defined.

Record SpokenResponseV1 := { sp_text : str }.

Inductive EmotionKindV1 :=
| EmotionNeutral | Joy | Sadness | Anger | Fear | Surprise | Disgust | Contempt | Concern
| Amusement.

Definition emotion_as_str (k : EmotionKindV1) : str :=
  match k with
  | EmotionNeutral => lit "neutral" | Joy => lit "joy" | Sadness => lit "sadness"
  | Anger => lit "anger" | Fear => lit "fear" | Surprise => lit "surprise"
  | Disgust => lit "disgust" | Contempt => lit "contempt" | Concern => lit "concern"
  | Amusement => lit "amusement"
  end.

Record EmotionStateV1 := {
  em_kind : EmotionKindV1;
  em_valence : f32;
  em_arousal : f32;
  em_intensity : f32
}.

Inductive VoiceStyleKindV1 := StyleNeutral | Warm | Tense | Somber | Excited | Whisper | Shout.

Definition voice_style_as_str (k : VoiceStyleKindV1) : str :=
  match k with
  | StyleNeutral => lit "neutral" | Warm => lit "warm" | Tense => lit "tense"
  | Somber => lit "somber" | Excited => lit "excited" | Whisper => lit "whisper"
  | Shout => lit "shout"
  end.

Record VoiceStyleV1 := {
  vs_kind : VoiceStyleKindV1;
  vs_speaking_rate : f32;
  vs_pitch_semitones : f32;
  vs_energy : f32
}.

Definition voice_style_default : VoiceStyleV1 := {|
  vs_kind := StyleNeutral; vs_speaking_rate := f32_one; vs_pitch_semitones := f_zero;
  vs_energy := f32_one |}.

Inductive AnimationCueKindV1 :=
| Nod | ShakeHead | LookAtPlayer | LookAway | GestureOpen | GesturePoint | IdleShift
| VisemeStream.
#[export] Instance AnimationCueKindV1_eq_dec : EqDecision AnimationCueKindV1.
Proof. solve_decision. Defined.
#[export] Instance AnimationCueKindV1_countable : Countable AnimationCueKindV1.
Proof.
  refine (inj_countable'
    (λ k, match k with Nod => 0 | ShakeHead => 1 | LookAtPlayer => 2 | LookAway => 3
          | GestureOpen => 4 | GesturePoint => 5 | IdleShift => 6 | VisemeStream => 7 end)
    (λ n, match n with 0 => Nod | 1 => ShakeHead | 2 => LookAtPlayer | 3 => LookAway
          | 4 => GestureOpen | 5 => GesturePoint | 6 => IdleShift | _ => VisemeStream end) _).
  by intros [].
Defined.

Definition cue_as_str (k : AnimationCueKindV1) : str :=
  match k with
  | Nod => lit "nod" | ShakeHead => lit "shake_head" | LookAtPlayer => lit "look_at_player"
  | LookAway => lit "look_away" | GestureOpen => lit "gesture_open"
  | GesturePoint => lit "gesture_point" | IdleShift => lit "idle_shift"
  | VisemeStream => lit "viseme_stream"
  end.

Record AnimationCueV1 := {
  ac_kind : AnimationCueKindV1;
  ac_start_offset_ms : Z;
  ac_duration_ms : Z;
  ac_intensity : f32
}.

Inductive MemoryProposalKindV1 := Episodic | Fact | Preference | QuestState.

Record MemoryProposalV1 := {
  mv_kind : MemoryProposalKindV1;
  mv_content : str;
  mv_importance : f32;
  mv_evidence_turn_ids : list str;
  mv_expires_after_ms : option Z
}.

Inductive InterruptionBehaviorV1 := BargeInAllowed | FinishClause | Uninterruptible.
#[export] Instance InterruptionBehaviorV1_eq_dec : EqDecision InterruptionBehaviorV1.
Proof. solve_decision. Defined.

Definition interruption_as_str (b : InterruptionBehaviorV1) : str :=
  match b with
  | BargeInAllowed => lit "barge_in_allowed"
  | FinishClause => lit "finish_clause"
  | Uninterruptible => lit "uninterruptible"
  end.

Record OptionalActionV1 := {
  oa_action_id : str;
  oa_arguments : gmap str str;
  oa_rationale : str;
  oa_requires_confirmation : bool
}.

Record NpcResponseEnvelopeV1 := {
  en_schema_version : NpcResponseSchemaVersion;
  en_spoken_response : SpokenResponseV1;
  en_emotion : option EmotionStateV1;
  en_voice_style : VoiceStyleV1;
  en_animation_cues : list AnimationCueV1;
  en_memory_proposals : list MemoryProposalV1;
  en_interruption_behavior : InterruptionBehaviorV1;
  en_actions : list OptionalActionV1
}.

(** [NpcResponseEnvelopeV1::plain_text]. *)
Definition plain_text (text : str) : NpcResponseEnvelopeV1 := {|
  en_schema_version := V1; en_spoken_response := {| sp_text := text |};
  en_emotion := None; en_voice_style := voice_style_default; en_animation_cues := [];
  en_memory_proposals := []; en_interruption_behavior := BargeInAllowed; en_actions := [] |}.

(** ** The policy and its errors *)

Record ResponseValidationPolicy := {
  max_spoken_response_bytes : Z;
  max_animation_cues : Z;
  max_animation_duration_ms : Z;
  max_memory_proposals : Z;
  max_memory_text_bytes : Z;
  max_evidence_turn_ids : Z;
  max_actions : Z;
  max_action_arguments : Z;
  max_action_value_bytes : Z;
  max_action_rationale_bytes : Z;
  allow_uninterruptible : bool;
  allowed_animation_cues : gset AnimationCueKindV1;
  allowed_action_ids : gset str
}.

Definition response_policy_default : ResponseValidationPolicy := {|
  max_spoken_response_bytes := MAX_SPOKEN_RESPONSE_BYTES;
  max_animation_cues := 32; max_animation_duration_ms := 60000; max_memory_proposals := 16;
  max_memory_text_bytes := 2000; max_evidence_turn_ids := 32; max_actions := 8;
  max_action_arguments := 16; max_action_value_bytes := 1000; max_action_rationale_bytes := 1000;
  allow_uninterruptible := false;
  allowed_animation_cues := list_to_set [Nod; ShakeHead; LookAtPlayer; LookAway; GestureOpen;
                                         GesturePoint; IdleShift; VisemeStream];
  allowed_action_ids := ∅ |}.

Inductive ResponseValidationError :=
| ProviderOutputTooLarge (maximum : Z)
| ExpectedObject
| MalformedProviderOutput (message : str)
| UnsupportedField (field : str)
| EmptyText (field : str)
| TextTooLarge (field : str)
| InvalidText (field : str)
| OutOfRange (field : str)
| TooMany (field : str)
| UnsupportedAnimation (kind : AnimationCueKindV1)
| UnsupportedAction (action_id : str)
| UninterruptibleDisabled.

(** The derived [Debug] of a cue kind. *)
Definition cue_debug (k : AnimationCueKindV1) : str :=
  match k with
  | Nod => lit "Nod" | ShakeHead => lit "ShakeHead" | LookAtPlayer => lit "LookAtPlayer"
  | LookAway => lit "LookAway" | GestureOpen => lit "GestureOpen"
  | GesturePoint => lit "GesturePoint" | IdleShift => lit "IdleShift"
  | VisemeStream => lit "VisemeStream"
  end.

(** The [Display] of a validation error. *)
Definition response_error_text (error : ResponseValidationError) : str :=
  match error with
  | ProviderOutputTooLarge maximum => lit "provider response exceeds " ++ dec maximum ++ lit " bytes"
  | ExpectedObject => lit "provider response must be a JSON object"
  | MalformedProviderOutput message => lit "provider response is malformed: " ++ message
  | UnsupportedField field => lit "unsupported response field: " ++ field
  | EmptyText field => lit "required text is empty: " ++ field
  | TextTooLarge field => lit "text exceeds its byte limit: " ++ field
  | InvalidText field => lit "text contains a disallowed control character: " ++ field
  | OutOfRange field => lit "numeric field is outside its accepted finite range: " ++ field
  | TooMany field => lit "too many entries: " ++ field
  | UnsupportedAnimation kind => lit "animation cue is not allowed: " ++ cue_debug kind
  | UnsupportedAction action_id => lit "action is not allowlisted: " ++ action_id
  | UninterruptibleDisabled => lit "uninterruptible speech is disabled by policy"
  end.

Abbreviation validation := (result ResponseValidationError unit) (only parsing).

(** ** Validation *)

(** A control character other than a line feed, a carriage return or a tab. *)
Definition disallowed_control (ch : char) : bool :=
  is_control ch && negb ((ch =? 10) || (ch =? 13) || (ch =? 9)).

Definition validate_text (text : str) (maximum_bytes : Z) (field : str) : validation :=
  if is_blank text then Err (EmptyText field) else
  if maximum_bytes <? str_len text then Err (TextTooLarge field) else
  if existsb disallowed_control text then Err (InvalidText field) else
  Ok tt.

Definition finite_range (value minimum maximum : f32) (field : str) : validation :=
  if is_finite value && range_contains minimum maximum value then Ok tt
  else Err (OutOfRange field).

Definition bounded_count (actual maximum : Z) (field : str) : validation :=
  if actual <=? maximum then Ok tt else Err (TooMany field).

Definition validate_spoken (spoken : SpokenResponseV1) (policy : ResponseValidationPolicy)
    : validation :=
  validate_text (sp_text spoken) (max_spoken_response_bytes policy) (lit "spoken response").

Definition validate_emotion (emotion : EmotionStateV1) : validation :=
  _ ← finite_range (em_valence emotion) f32_minus_one f32_one (lit "emotion valence");
  _ ← finite_range (em_arousal emotion) f_zero f32_one (lit "emotion arousal");
  finite_range (em_intensity emotion) f_zero f32_one (lit "emotion intensity").

Definition validate_voice_style (style : VoiceStyleV1) : validation :=
  _ ← finite_range (vs_speaking_rate style) f32_half f32_two (lit "voice speaking rate");
  _ ← finite_range (vs_pitch_semitones style) f32_minus_twelve f32_twelve
        (lit "voice pitch semitones");
  finite_range (vs_energy style) f_zero f32_two (lit "voice energy").

Definition validate_cue (policy : ResponseValidationPolicy) (cue : AnimationCueV1) : validation :=
  if negb (bool_decide (ac_kind cue ∈ allowed_animation_cues policy))
  then Err (UnsupportedAnimation (ac_kind cue)) else
  if (ac_duration_ms cue =? 0) || (max_animation_duration_ms policy <? ac_duration_ms cue)
  then Err (OutOfRange (lit "animation duration")) else
  finite_range (ac_intensity cue) f_zero f32_one (lit "animation intensity").

Definition validate_animation (cues : list AnimationCueV1) (policy : ResponseValidationPolicy)
    : validation :=
  _ ← bounded_count (Z.of_nat (length cues)) (max_animation_cues policy) (lit "animation cues");
  check_all (validate_cue policy) cues.

Definition validate_proposal (policy : ResponseValidationPolicy) (proposal : MemoryProposalV1)
    : validation :=
  _ ← validate_text (mv_content proposal) (max_memory_text_bytes policy) (lit "memory content");
  _ ← finite_range (mv_importance proposal) f_zero f32_one (lit "memory importance");
  _ ← bounded_count (Z.of_nat (length (mv_evidence_turn_ids proposal)))
        (max_evidence_turn_ids policy) (lit "memory evidence turn IDs");
  check_all (λ id, validate_text id 64 (lit "memory evidence turn ID"))
    (mv_evidence_turn_ids proposal).

Definition validate_memory (proposals : list MemoryProposalV1) (policy : ResponseValidationPolicy)
    : validation :=
  _ ← bounded_count (Z.of_nat (length proposals)) (max_memory_proposals policy)
        (lit "memory proposals");
  check_all (validate_proposal policy) proposals.

Definition validate_interruption (behavior : InterruptionBehaviorV1)
    (policy : ResponseValidationPolicy) : validation :=
  if bool_decide (behavior = Uninterruptible) && negb (allow_uninterruptible policy)
  then Err UninterruptibleDisabled else Ok tt.

Definition validate_action (policy : ResponseValidationPolicy) (action : OptionalActionV1)
    : validation :=
  _ ← validate_text (oa_action_id action) 128 (lit "action ID");
  if negb (bool_decide (oa_action_id action ∈ allowed_action_ids policy))
  then Err (UnsupportedAction (oa_action_id action)) else
  _ ← bounded_count (Z.of_nat (size (oa_arguments action))) (max_action_arguments policy)
        (lit "action arguments");
  _ ← check_all (λ kv,
        _ ← validate_text kv.1 64 (lit "action argument key");
        validate_text kv.2 (max_action_value_bytes policy) (lit "action argument value"))
        (btree_iter (oa_arguments action));
  validate_text (oa_rationale action) (max_action_rationale_bytes policy) (lit "action rationale").

Definition validate_actions (actions : list OptionalActionV1) (policy : ResponseValidationPolicy)
    : validation :=
  _ ← bounded_count (Z.of_nat (length actions)) (max_actions policy) (lit "actions");
  check_all (validate_action policy) actions.

(** [NpcResponseEnvelopeV1::validate]. *)
Definition envelope_validate_response (e : NpcResponseEnvelopeV1)
    (policy : ResponseValidationPolicy) : validation :=
  _ ← validate_spoken (en_spoken_response e) policy;
  _ ← match en_emotion e with Some emotion => validate_emotion emotion | None => Ok tt end;
  _ ← validate_voice_style (en_voice_style e);
  _ ← validate_animation (en_animation_cues e) policy;
  _ ← validate_memory (en_memory_proposals e) policy;
  _ ← validate_interruption (en_interruption_behavior e) policy;
  validate_actions (en_actions e) policy.

(** ** Legacy effects *)

Definition to_legacy_effects (e : NpcResponseEnvelopeV1) : NpcEffectsV1 := {|
  ef_emotion := (λ v, emotion_as_str (em_kind v)) <$> en_emotion e;
  ef_valence := em_valence <$> en_emotion e;
  ef_arousal := em_arousal <$> en_emotion e;
  ef_intensity := em_intensity <$> en_emotion e;
  ef_voice_style := Some (voice_style_as_str (vs_kind (en_voice_style e)));
  ef_animation_cues := (λ cue, cue_as_str (ac_kind cue)) <$> en_animation_cues e;
  ef_interruption_policy := Some (interruption_as_str (en_interruption_behavior e));
  ef_memory_proposals := (λ p, {| mp_content := mv_content p; mp_confidence := mv_importance p |})
    <$> en_memory_proposals e;
  ef_relationship_proposals := [];
  ef_action_proposals := (λ a, {| ap_action := oa_action_id a; ap_arguments := oa_arguments a |})
    <$> en_actions e |}.

#[global] Arguments validate_text : simpl never.
#[global] Arguments finite_range : simpl never.
#[global] Arguments bounded_count : simpl never.
#[global] Arguments validate_voice_style : simpl never.
#[global] Arguments validate_emotion : simpl never.
#[global] Arguments validate_animation : simpl never.
#[global] Arguments validate_memory : simpl never.
#[global] Arguments validate_actions : simpl never.

(** * Lemmas *)

Lemma validate_text_Ok text maximum field :
  validate_text text maximum field = Ok tt ↔
  is_blank text = false ∧ str_len text ≤ maximum ∧ existsb disallowed_control text = false.
Proof.
  unfold validate_text. destruct (is_blank text); [naive_solver|].
  destruct (Z.ltb_spec maximum (str_len text)); [split; [done|lia]|].
  by destruct (existsb _ _); split; [intros|intros (_&_&?)| |].
Qed.

Lemma finite_range_Ok value lo hi field :
  finite_range value lo hi field = Ok tt ↔ is_finite value = true ∧ range_contains lo hi value = true.
Proof. unfold finite_range. by rewrite <-andb_true_iff; destruct (_ && _). Qed.

Lemma bounded_count_Ok actual maximum field :
  bounded_count actual maximum field = Ok tt ↔ actual ≤ maximum.
Proof. unfold bounded_count. destruct (Z.leb_spec actual maximum); split; done || lia. Qed.

(** An accepted envelope, field by field. *)
Record envelope_ok (policy : ResponseValidationPolicy) (e : NpcResponseEnvelopeV1) : Prop := {
  ok_spoken : validate_spoken (en_spoken_response e) policy = Ok tt;
  ok_emotion : ∀ emotion, en_emotion e = Some emotion → validate_emotion emotion = Ok tt;
  ok_voice_style : validate_voice_style (en_voice_style e) = Ok tt;
  ok_animation : validate_animation (en_animation_cues e) policy = Ok tt;
  ok_memory : validate_memory (en_memory_proposals e) policy = Ok tt;
  ok_interruption : validate_interruption (en_interruption_behavior e) policy = Ok tt;
  ok_actions : validate_actions (en_actions e) policy = Ok tt
}.

Lemma envelope_validate_Ok e policy :
  envelope_validate_response e policy = Ok tt ↔ envelope_ok policy e.
Proof.
  unfold envelope_validate_response. rewrite !bind_unit_Ok.
  split.
  - intros (?&He&?&?&?&?&?). constructor; try done. intros emotion Heq. by rewrite Heq in He.
  - intros [? He ?]. split; [done|]. split; [destruct (en_emotion e); [by apply He|done]|]. done.
Qed.

Lemma validate_actions_Ok actions policy :
  validate_actions actions policy = Ok tt ↔
  Z.of_nat (length actions) ≤ max_actions policy ∧
  Forall (λ a, validate_action policy a = Ok tt) actions.
Proof. unfold validate_actions. by rewrite bind_unit_Ok, bounded_count_Ok, check_all_Ok. Qed.

Lemma validate_action_Ok a policy :
  validate_action policy a = Ok tt →
  oa_action_id a ∈ allowed_action_ids policy ∧
  Z.of_nat (size (oa_arguments a)) ≤ max_action_arguments policy ∧
  map_Forall (λ k v, str_len k ≤ 64 ∧ str_len v ≤ max_action_value_bytes policy) (oa_arguments a).
Proof.
  unfold validate_action. rewrite bind_unit_Ok. intros [_ H].
  case_bool_decide as Hin; [|done]. cbn [negb] in H. rewrite !bind_unit_Ok in H.
  destruct H as (Hc%bounded_count_Ok&Hargs&_). split; [done|]. split; [done|].
  rewrite check_all_Ok, Forall_forall in Hargs. intros k v Hkv%btree_iter_elem%Hargs.
  rewrite bind_unit_Ok, !validate_text_Ok in Hkv. cbn in Hkv. lia.
Qed.

Lemma validate_memory_Ok proposals policy :
  validate_memory proposals policy = Ok tt →
  Forall (λ p, is_blank (mv_content p) = false ∧ str_len (mv_content p) ≤ max_memory_text_bytes policy ∧
    is_finite (mv_importance p) = true ∧ range_contains f_zero f32_one (mv_importance p) = true)
    proposals.
Proof.
  unfold validate_memory. rewrite bind_unit_Ok, check_all_Ok. intros [_ H].
  eapply Forall_impl; [exact H|]. intros p. unfold validate_proposal.
  rewrite !bind_unit_Ok, validate_text_Ok, finite_range_Ok. naive_solver.
Qed.

Lemma cue_as_str_retained k : cue_retained (cue_as_str k) = true.
Proof. by destruct k; vm_compute. Qed.

(** The bounds of a policy that are no looser than those of the legacy effects. *)
Definition legacy_policy (policy : ResponseValidationPolicy) (allowed : list str) : Prop :=
  max_memory_text_bytes policy ≤ 2000 ∧ max_action_arguments policy ≤ 16 ∧
  max_action_value_bytes policy ≤ 1000 ∧ ∀ a, a ∈ allowed_action_ids policy → a ∈ allowed.

Lemma legacy_memory_ok policy p :
  max_memory_text_bytes policy ≤ 2000 →
  is_blank (mv_content p) = false ∧ str_len (mv_content p) ≤ max_memory_text_bytes policy ∧
    is_finite (mv_importance p) = true ∧ range_contains f_zero f32_one (mv_importance p) = true →
  memory_proposal_invalid {| mp_content := mv_content p; mp_confidence := mv_importance p |} = false.
Proof.
  intros Hm (Hb&Hl&Hf&Hr). unfold memory_proposal_invalid. cbn. rewrite Hb, Hf, Hr.
  destruct (Z.ltb_spec 2000 (str_len (mv_content p))); [lia|done].
Qed.

Lemma legacy_action_ok policy allowed a :
  legacy_policy policy allowed → validate_action policy a = Ok tt →
  action_retained allowed {| ap_action := oa_action_id a; ap_arguments := oa_arguments a |} = true.
Proof.
  intros (_&Hn&Hv&Hin) (Hid&Hs&Hargs)%validate_action_Ok. unfold action_retained. cbn.
  rewrite !andb_true_iff, existsb_exists, forallb_forall. split_and!.
  - exists (oa_action_id a). split; [by apply list_elem_of_In, Hin|]. by apply bool_decide_eq_true.
  - lia.
  - intros [k v] Hkv%list_elem_of_In%btree_iter_elem%Hargs. cbn. lia.
Qed.

(** the translation to legacy effects is lossless for accepted envelopes: the
    effects of an envelope that passed its policy pass the effects validation
    unchanged, no cue, proposal or action dropped, whenever the policy's bounds are no
    looser than the legacy ones (as the default policy's are). *)
Theorem legacy_effects_lossless e policy allowed :
  envelope_validate_response e policy = Ok tt → legacy_policy policy allowed →
  effects_validate (to_legacy_effects e) allowed = Ok (to_legacy_effects e).
Proof.
  intros [_ He _ _ Hm%validate_memory_Ok _ Ha%validate_actions_Ok]%envelope_validate_Ok Hpol.
  apply effects_validate_id. unfold validate_emotion in He.
  constructor; cbn; [| | |..|by constructor| |]; rewrite ?Forall_fmap.
  1-3: destruct (en_emotion e) as [em|]; [|done]; intros v [= <-];
    specialize (He em eq_refl); rewrite !bind_unit_Ok, !finite_range_Ok in He; tauto.
  - eapply Forall_impl; [exact Hm|]. intros p. apply legacy_memory_ok, Hpol.
  - apply Forall_true. intros c. apply cue_as_str_retained.
  - eapply Forall_impl; [exact (proj2 Ha)|]. intros a. by apply legacy_action_ok.
Qed.

(** ** The theorem at a concrete input *)

Definition demo_policy : ResponseValidationPolicy := {|
  max_spoken_response_bytes := MAX_SPOKEN_RESPONSE_BYTES;
  max_animation_cues := 32; max_animation_duration_ms := 60000; max_memory_proposals := 16;
  max_memory_text_bytes := 2000; max_evidence_turn_ids := 32; max_actions := 8;
  max_action_arguments := 16; max_action_value_bytes := 1000; max_action_rationale_bytes := 1000;
  allow_uninterruptible := false; allowed_animation_cues := list_to_set [Nod];
  allowed_action_ids := {[lit "wave"]} |}.

Definition demo_envelope : NpcResponseEnvelopeV1 := {|
  en_schema_version := V1; en_spoken_response := {| sp_text := lit "Stay close." |};
  en_emotion := Some {| em_kind := Concern; em_valence := f_zero; em_arousal := f32_half;
                        em_intensity := f32_one |};
  en_voice_style := voice_style_default;
  en_animation_cues := [{| ac_kind := Nod; ac_start_offset_ms := 0; ac_duration_ms := 400;
                           ac_intensity := f32_half |}];
  en_memory_proposals := [{| mv_kind := Fact; mv_content := lit "The gate is shut.";
    mv_importance := f32_half; mv_evidence_turn_ids := [lit "t1"]; mv_expires_after_ms := None |}];
  en_interruption_behavior := FinishClause;
  en_actions := [{| oa_action_id := lit "wave"; oa_arguments := ∅; oa_rationale := lit "greeting";
                    oa_requires_confirmation := false |}] |}.

Lemma legacy_effects_lossless_witness :
  envelope_validate_response demo_envelope demo_policy = Ok tt ∧
  effects_validate (to_legacy_effects demo_envelope) [lit "wave"] =
    Ok (to_legacy_effects demo_envelope).
Proof.
  assert (envelope_validate_response demo_envelope demo_policy = Ok tt) as H
    by (vm_compute; reflexivity).
  split; [exact H|]. apply (legacy_effects_lossless demo_envelope demo_policy [lit "wave"] H).
  split; [reflexivity|]. split; [reflexivity|]. split; [reflexivity|].
  intros a Ha. change (a ∈ ({[lit "wave"]} : gset str)) in Ha.
  rewrite elem_of_singleton in Ha. rewrite Ha. by left.
Defined.
