(* ===== verification/Clause.v ===== *)
(** * The clause buffer of hosted speech ([crates/providers-tts/src/clause.rs])

    Splits the text of a speech session into clauses. Offsets are byte offsets and
    [None] is the panic of a slice off a character boundary, as in the sentence
    segmenter, whose lemmas on cuts are used here. *)

From S2P Require Import Prelude Text Sentence SentenceSpec.

#[local] Open Scope Z_scope.

Record SemanticClausePolicy := {
  minimum_chars : Z;
  preferred_chars : Z;
  maximum_chars : Z
}.

Definition clause_policy_default : SemanticClausePolicy := {|
  minimum_chars := 18; preferred_chars := 96; maximum_chars := 220 |}.

Definition clause_policy_validate (p : SemanticClausePolicy) : result str unit :=
  if (minimum_chars p =? 0) || (preferred_chars p <? minimum_chars p)
     || (maximum_chars p <? preferred_chars p) || (2000 <? maximum_chars p)
  then Err (lit "invalid_clause_policy") else Ok tt.

Record SemanticClauseBuffer := {
  cb_policy : SemanticClausePolicy;
  cb_pending : str
}.

Definition clause_new (policy : SemanticClausePolicy) : SemanticClauseBuffer :=
  {| cb_policy := policy; cb_pending := [] |}.

Definition clause_set_pending (pending : str) (b : SemanticClauseBuffer) : SemanticClauseBuffer :=
  {| cb_policy := cb_policy b; cb_pending := pending |}.

Definition pending_chars (b : SemanticClauseBuffer) : Z := Z.of_nat (length (cb_pending b)).

(** ** Boundaries *)

Definition clause_consume_whitespace (pending : str) (end_ : Z) : option Z :=
  rest ← slice_from end_ pending; Some (skip_whitespace rest end_).

Definition word_boundary_at_or_before (pending : str) (end_ : Z) : option Z :=
  prefix ← slice_to end_ pending;
  Some match List.find (λ '(_, ch), is_whitespace ch) (rev (char_indices prefix)) with
       | Some (byte, ch) => byte + len_utf8 ch
       | None => end_
       end.

Definition looks_like_decimal (pending : str) (period_byte : Z) : option bool :=
  before ← slice_to period_byte pending;
  after ← slice_from (period_byte + 1) pending;
  Some (is_some_and (last before) is_ascii_digit && is_some_and (head after) is_ascii_digit).

Definition clause_abbreviations : list str :=
  lit <$> ["mr."; "mrs."; "ms."; "dr."; "prof."; "sr."; "jr."; "vs."; "e.g."; "i.e."]%string.

(** [split_whitespace().next_back().unwrap_or_default()] *)
Definition last_token (s : str) : str := after_last_whitespace (trim_end s).

Definition looks_like_abbreviation (pending : str) (end_ : Z) : option bool :=
  prefix ← slice_to end_ pending;
  let token := to_ascii_lowercase <$> trim_by (is_one_of token_quotes) (last_token prefix) in
  if bool_decide (token ∈ clause_abbreviations) then Some true
  else if (str_len token <=? 3) && ends_with period token then
    stem ← slice_to (str_len token - 1) token; Some (forallb is_ascii_alphabetic stem)
  else Some false.

(** ['.'], ['!'], ['?'] and the line feed; [','], [';'], [':'] and the em dash. *)
Definition clause_ends : list char := [46; 33; 63; 10].
Definition clause_pauses : list char := [44; 59; 58; 8212].

(** The [for] loop of [next_boundary]; its early returns are [Some (Some _)]. *)
Fixpoint next_boundary_loop (policy : SemanticClausePolicy) (pending : str)
    (chars : list (Z * char)) (character_count : Z) (preferred_boundary : option Z)
    : option (option Z) :=
  match chars with
  | [] => Some None
  | (byte, character) :: chars =>
      let character_count := character_count + 1 in
      let end_ := byte + len_utf8 character in
      rest ← slice_from end_ pending;
      let token_boundary := is_none_or (head rest) is_whitespace in
      ends ← (if (minimum_chars policy <=? character_count) && token_boundary
                 && is_one_of clause_ends character then
                abbreviation ← looks_like_abbreviation pending end_;
                if abbreviation : bool then Some false else
                decimal ← looks_like_decimal pending byte;
                Some (negb decimal)
              else Some false);
      if ends : bool then Some <$> clause_consume_whitespace pending end_ else
      let preferred_boundary :=
        if (minimum_chars policy <=? character_count) && token_boundary
           && is_one_of clause_pauses character
        then Some end_ else preferred_boundary in
      match (if preferred_chars policy <=? character_count then preferred_boundary else None) with
      | Some boundary => Some <$> clause_consume_whitespace pending boundary
      | None =>
          if maximum_chars policy <=? character_count
          then Some <$> word_boundary_at_or_before pending end_
          else next_boundary_loop policy pending chars character_count preferred_boundary
      end
  end.

Definition next_boundary (b : SemanticClauseBuffer) (flush : bool) : option (option Z) :=
  if flush then
    Some (if negb (is_blank (cb_pending b)) then Some (str_len (cb_pending b)) else None)
  else next_boundary_loop (cb_policy b) (cb_pending b) (char_indices (cb_pending b)) 0 None.

(** ** Extraction *)

(** The loop of [extract]. *)
Fixpoint clause_extract_loop (fuel : nat) (b : SemanticClauseBuffer) (flush : bool)
    : outcome (SemanticClauseBuffer * list str) :=
  match fuel with
  | O => OutOfFuel
  | S fuel =>
      boundary ← of_panic (next_boundary b flush);
      match boundary with
      | None => Done (b, [])
      | Some boundary =>
          '(clause, remainder) ← of_panic (split_at_byte boundary (cb_pending b));
          let clause := trim clause in
          let emitted := if str_is_empty clause then [] else [clause] in
          if is_blank remainder then Done (clause_set_pending [] b, emitted) else
          '(b', later) ← clause_extract_loop fuel (clause_set_pending remainder b) flush;
          Done (b', emitted ++ later)
      end
  end.

(** Every turn shortens the pending text, so one more than its length is enough
    fuel. *)
Definition clause_extract (b : SemanticClauseBuffer) (flush : bool)
    : outcome (SemanticClauseBuffer * list str) :=
  clause_extract_loop (S (length (cb_pending b))) b flush.

Definition clause_push (b : SemanticClauseBuffer) (text : str)
    : outcome (SemanticClauseBuffer * list str) :=
  clause_extract (clause_set_pending (cb_pending b ++ text) b) false.

Definition clause_finish (b : SemanticClauseBuffer) : outcome (SemanticClauseBuffer * list str) :=
  clause_extract b true.

(** A session: the texts in order, then [finish]. *)
Fixpoint clause_push_all (b : SemanticClauseBuffer) (texts : list str)
    : outcome (SemanticClauseBuffer * list str) :=
  match texts with
  | [] => Done (b, [])
  | text :: texts =>
      '(b', clauses) ← clause_push b text;
      '(b'', later) ← clause_push_all b' texts;
      Done (b'', clauses ++ later)
  end.

Definition clause_stream (b : SemanticClauseBuffer) (texts : list str)
    : outcome (SemanticClauseBuffer * list str) :=
  '(b', clauses) ← clause_push_all b texts;
  '(b'', later) ← clause_finish b';
  Done (b'', clauses ++ later).

#[global] Arguments looks_like_abbreviation : simpl never.
#[global] Arguments looks_like_decimal : simpl never.
#[global] Arguments clause_consume_whitespace : simpl never.
#[global] Arguments word_boundary_at_or_before : simpl never.

Definition clause_text (o : outcome (SemanticClauseBuffer * list str)) : list str :=
  match o with Done (_, clauses) => clauses | _ => [] end.

(** The source's own tests. *)
Example emits_complete_clauses :
  clause_text (clause_stream (clause_new clause_policy_default)
    [lit "The reactor is sta"; lit "ble, captain. We can safely move now! Another line"]) =
  [lit "The reactor is stable, captain."; lit "We can safely move now!"; lit "Another line"].
Proof. vm_compute. reflexivity. Qed.

Example does_not_split_abbreviations :
  head (clause_text (clause_push
    (clause_new {| minimum_chars := 4; preferred_chars := 10; maximum_chars := 14 |})
    (lit "Dr. V paid 3.14 credits."))) = Some (lit "Dr. V paid").
Proof. vm_compute. reflexivity. Qed.

Example splits_at_the_end_of_a_delta :
  clause_text (clause_stream (clause_new clause_policy_default)
    [lit "The bill came to 3."; lit "14 credits"]) =
  [lit "The bill came to 3."; lit "14 credits"].
Proof. vm_compute. reflexivity. Qed.

(** * Lemmas *)

(** ** Boundaries *)

(** A boundary after at most [n] characters and then white space. *)
Definition cut_within (n : Z) (pending : str) (b : Z) : Prop :=
  ∃ p w s, pending = (p ++ w) ++ s ∧ p ≠ [] ∧ Z.of_nat (length p) ≤ n ∧
    forallb is_whitespace w = true ∧ b = str_len (p ++ w).

(** The same without the white space. *)
Definition prefix_within (n : Z) (pending : str) (b : Z) : Prop :=
  ∃ p s, pending = p ++ s ∧ p ≠ [] ∧ Z.of_nat (length p) ≤ n ∧ b = str_len p.

Lemma prefix_within_cut n pending b : prefix_within n pending b → cut_within n pending b.
Proof.
  intros (p&s&->&Hp&Hn&->). exists p, [], s. rewrite app_nil_r. by repeat split.
Qed.

Lemma prefix_within_le n m pending b : n ≤ m → prefix_within n pending b → prefix_within m pending b.
Proof. intros Hle (p&s&?&?&?&?). exists p, s. repeat split; try done. lia. Qed.

Lemma clause_consume_within n pending e :
  prefix_within n pending e →
  ∃ e', clause_consume_whitespace pending e = Some e' ∧ cut_within n pending e'.
Proof.
  intros (p&s&->&Hp&Hn&->). unfold clause_consume_whitespace. rewrite slice_from_app. cbn.
  assert (∀ r e, ∃ w s', r = w ++ s' ∧ forallb is_whitespace w = true ∧
    skip_whitespace r e = e + str_len w) as Hskip.
  { intros r. induction r as [|c r IH]; intros e; cbn; [exists [], []; split_and!; [done..|cbn; lia]|].
    destruct (is_whitespace c) eqn:Hc; [|exists [], (c :: r); split_and!; [done..|cbn; lia]].
    destruct (IH (e + len_utf8 c)) as (w&s'&->&Hw&->). exists (c :: w), s'. cbn. rewrite Hc.
    split_and!; [done..|lia]. }
  destruct (Hskip s (str_len p)) as (w&s'&->&Hw&->). eexists. split; [done|].
  exists p, w, s'. rewrite str_len_app, <-app_assoc. by repeat split.
Qed.

Lemma word_boundary_within n pending e :
  prefix_within n pending e →
  ∃ e', word_boundary_at_or_before pending e = Some e' ∧ prefix_within n pending e'.
Proof.
  intros (p&s&->&Hp&Hn&->). unfold word_boundary_at_or_before. rewrite slice_to_app. cbn.
  destruct (List.find _ _) as [[byte ch]|] eqn:Hfind; eexists; (split; [done|]); [|by exists p, s].
  apply List.find_some in Hfind as [Hin%in_rev%list_elem_of_In _].
  apply char_indices_elem in Hin as (q&r&->&->).
  exists (q ++ [ch]), (r ++ s). rewrite <-!app_assoc, str_len_app. cbn.
  rewrite length_app in *. cbn in *. repeat split; [by destruct q|lia..].
Qed.

Lemma looks_like_abbreviation_total pre s :
  ∃ b, looks_like_abbreviation (pre ++ s) (str_len pre) = Some b.
Proof.
  unfold looks_like_abbreviation. rewrite slice_to_app. cbn.
  case_bool_decide; [by eexists|]. set (token := fmap _ _).
  destruct (_ && _) eqn:Hand; [|by eexists].
  apply andb_prop in Hand as [_ [t Ht]%ends_with_split].
  replace (str_len token - 1) with (str_len t)
    by (rewrite Ht, str_len_app; cbn; vm_compute (len_utf8 period); lia).
  rewrite Ht, slice_to_app. cbn. by eexists.
Qed.

Lemma clause_end_width c : is_one_of clause_ends c = true → len_utf8 c = 1.
Proof.
  unfold is_one_of, clause_ends. cbn.
  rewrite orb_false_r, !orb_true_iff, !Z.eqb_eq. by intros [->|[->|[->| ->]]].
Qed.

Lemma looks_like_decimal_total pre c s :
  is_one_of clause_ends c = true →
  ∃ b, looks_like_decimal (pre ++ c :: s) (str_len pre) = Some b.
Proof.
  intros Hc%clause_end_width. unfold looks_like_decimal. rewrite slice_to_app. cbn.
  replace (str_len pre + 1) with (str_len (pre ++ [c])) by (rewrite str_len_app; cbn; lia).
  replace (pre ++ c :: s) with ((pre ++ [c]) ++ s) by by rewrite <-app_assoc.
  rewrite slice_from_app. cbn. by eexists.
Qed.

Section boundary.
Context (policy : SemanticClausePolicy) (pending : str).
#[local] Abbreviation limit := (Z.max 1 (maximum_chars policy)).

(** The loop after [pre]: it never panics, each boundary it returns is within the
    limit, and without a boundary the pending text is. *)
Lemma next_boundary_loop_spec suf pre preferred :
  pending = pre ++ suf →
  (Z.of_nat (length pre) < limit) →
  (∀ e, preferred = Some e → prefix_within (Z.of_nat (length pre)) pending e) →
  ∃ r, next_boundary_loop policy pending (char_indices_from (str_len pre) suf)
         (Z.of_nat (length pre)) preferred = Some r ∧
    match r with
    | Some b => cut_within limit pending b
    | None => Z.of_nat (length pending) < limit
    end.
Proof.
  revert pre preferred. induction suf as [|c suf IH]; intros pre preferred Hp Hlt Hpref; cbn.
  { exists None. split; [done|]. by rewrite Hp, app_nil_r. }
  assert (pending = (pre ++ [c]) ++ suf) as Hp' by (by rewrite Hp, <-app_assoc).
  assert (str_len pre + len_utf8 c = str_len (pre ++ [c])) as Hend by (rewrite str_len_app; cbn; lia).
  assert (Z.of_nat (length pre) + 1 = Z.of_nat (length (pre ++ [c]))) as Hcount
    by (rewrite length_app; cbn; lia).
  assert (prefix_within (Z.of_nat (length (pre ++ [c]))) pending (str_len (pre ++ [c]))) as Hhere.
  { exists (pre ++ [c]), suf. split_and!; [done|by destruct pre|done|done]. }
  assert (slice_from (str_len (pre ++ [c])) pending = Some suf) as Hrest
    by (rewrite Hp'; apply slice_from_app).
  rewrite Hend, Hcount, Hrest. cbn [mbind option_bind].
  set (token_boundary := is_none_or _ _).
  assert (∀ e, prefix_within (Z.of_nat (length (pre ++ [c]))) pending e →
    ∃ r, Some <$> clause_consume_whitespace pending e = Some r ∧
      match r with Some b => cut_within limit pending b | None => Z.of_nat (length pending) < limit end)
    as Hconsume.
  { intros e He. apply (prefix_within_le _ limit) in He; [|lia].
    apply clause_consume_within in He as (e'&->&He'). by eexists. }
  match goal with |- ∃ r, mbind _ ?x = _ ∧ _ => assert (∃ b, x = Some b) as [ends ->] end.
  { destruct (_ && _) eqn:Hand; [|by eexists]. apply andb_prop in Hand as [_ Hc].
    destruct (looks_like_abbreviation_total (pre ++ [c]) suf) as [a Ha].
    rewrite <-Hp' in Ha. rewrite Ha. cbn. destruct a; [by eexists|].
    destruct (looks_like_decimal_total pre c suf Hc) as [d Hd].
    rewrite <-Hp in Hd. rewrite Hd. by eexists. }
  cbn [mbind option_bind]. destruct ends; [by apply Hconsume|].
  set (preferred' := if _ && _ then Some _ else preferred).
  assert (∀ e, preferred' = Some e → prefix_within (Z.of_nat (length (pre ++ [c]))) pending e) as Hpref'.
  { intros e. unfold preferred'. destruct (_ && _); [by intros [= <-]|].
    intros He%Hpref. eapply prefix_within_le; [|exact He]. lia. }
  destruct (if preferred_chars policy <=? _ then preferred' else None) as [e|] eqn:Hsoft.
  { apply Hconsume, Hpref'. by destruct (_ <=? _) in Hsoft. }
  destruct (Z.leb_spec (maximum_chars policy) (Z.of_nat (length (pre ++ [c])))).
  - apply (prefix_within_le _ limit) in Hhere; [|lia].
    apply word_boundary_within in Hhere as (e'&->&He'). eexists. split; [done|].
    by apply prefix_within_cut.
  - apply IH; [done|lia|done].
Qed.
End boundary.

(** ** Extraction *)

Definition clause_limit (b : SemanticClauseBuffer) : Z := Z.max 1 (maximum_chars (cb_policy b)).

(** The visible characters of clauses. *)
Definition clauses_ink (clauses : list str) : str := concat (ink <$> clauses).

Lemma clauses_ink_app a b : clauses_ink (a ++ b) = clauses_ink a ++ clauses_ink b.
Proof. unfold clauses_ink. by rewrite fmap_app, concat_app. Qed.

Lemma ink_trim s : ink (trim s) = ink s.
Proof.
  destruct (trim_by_app is_whitespace s) as (w1&w2&Hs&H1&H2). rewrite Hs at 2.
  rewrite !ink_app, (ink_whitespace w1), (ink_whitespace w2) by done. by rewrite app_nil_r.
Qed.

Lemma ink_blank s : is_blank s = true → ink s = [].
Proof. intros Hs. by apply ink_whitespace, is_blank_spec. Qed.

(** [trim] removes at least the white space at the end. *)
Lemma trim_end_whitespace p w : forallb is_whitespace w = true → trim_end (p ++ w) = trim_end p.
Proof.
  intros Hw. unfold trim_end, trim_end_by. f_equal. rewrite rev_app_distr, <-forallb_rev in *.
  induction (rev w) as [|c r IH]; cbn in *; [done|]. apply andb_prop in Hw as [-> ?]. by apply IH.
Qed.

Lemma trim_start_by_length p s : (length (trim_start_by p s) ≤ length s)%nat.
Proof. induction s as [|c s IH]; cbn; [lia|]. case_match; cbn; lia. Qed.

Lemma trim_length p w : forallb is_whitespace w = true → (length (trim (p ++ w)) ≤ length p)%nat.
Proof.
  intros Hw. destruct (trim_start_by_app is_whitespace (p ++ w)) as (a&Ha&Hta).
  unfold trim, trim_by. change (trim_end_by is_whitespace) with trim_end.
  assert (trim_start_by is_whitespace (p ++ w) = trim_start_by is_whitespace p ++ w ∨
          forallb is_whitespace (trim_start_by is_whitespace (p ++ w)) = true) as [->|Hall].
  { clear a Ha Hta. induction p as [|c p IH]; cbn.
    - right. by rewrite trim_start_by_all.
    - destruct (is_whitespace c); [done|by left]. }
  - rewrite trim_end_whitespace by done. unfold trim_end, trim_end_by.
    rewrite length_rev. etransitivity; [apply trim_start_by_length|].
    rewrite length_rev. apply trim_start_by_length.
  - unfold trim_end, trim_end_by. rewrite trim_start_by_all; [cbn; lia|]. by rewrite forallb_rev.
Qed.

(** [clauses] have come out of [b], each of at most [n] characters, and [b'] is left. *)
Definition extracts (n : Z) (b b' : SemanticClauseBuffer) (clauses : list str) : Prop :=
  cb_policy b' = cb_policy b ∧
  clauses_ink clauses ++ ink (cb_pending b') = ink (cb_pending b) ∧
  Forall (λ clause, clause ≠ [] ∧ Z.of_nat (length clause) ≤ n) clauses.

Lemma next_boundary_spec b (flush : bool) :
  let n := if flush then Z.of_nat (length (cb_pending b)) else clause_limit b in
  ∃ r, next_boundary b flush = Some r ∧
    match r with
    | Some e => cut_within n (cb_pending b) e
    | None => if flush then is_blank (cb_pending b) = true
              else Z.of_nat (length (cb_pending b)) < clause_limit b
    end.
Proof.
  unfold next_boundary. destruct flush; cbn.
  - eexists. split; [done|]. destruct (is_blank (cb_pending b)) eqn:Hb; cbn; [done|].
    exists (cb_pending b), [], []. rewrite !app_nil_r. repeat split; [|lia].
    intros Hp. rewrite Hp in Hb. discriminate Hb.
  - apply (next_boundary_loop_spec (cb_policy b) (cb_pending b) (cb_pending b) []); [done| |done].
    cbn. lia.
Qed.

Lemma clause_extract_loop_spec fuel b (flush : bool) :
  (length (cb_pending b) < fuel)%nat →
  let n := if flush then Z.of_nat (length (cb_pending b)) else clause_limit b in
  ∃ b' clauses, clause_extract_loop fuel b flush = Done (b', clauses) ∧ extracts n b b' clauses ∧
    if flush then is_blank (cb_pending b') = true
    else Z.of_nat (length (cb_pending b')) < clause_limit b.
Proof.
  revert b. induction fuel as [|fuel IH]; intros b Hf; [lia|]. cbn [clause_extract_loop].
  destruct (next_boundary_spec b flush) as ([e|]&->&He); cbn [of_panic mbind outcome_bind].
  2: { exists b, []. split; [done|]. split; [|by destruct flush]. by split. }
  destruct He as (p&w&s&Hb&Hp&Hn&Hw&->).
  set (n := if flush then _ else _) in *.
  rewrite Hb, split_at_byte_app. cbn [of_panic mbind outcome_bind].
  set (emitted := if str_is_empty _ then _ else _).
  assert (Forall (λ clause, clause ≠ [] ∧ Z.of_nat (length clause) ≤ n) emitted ∧
          clauses_ink emitted = ink (p ++ w)) as [Hem Hink].
  { pose proof (trim_length p w Hw) as Hlen. rewrite <-ink_trim. unfold emitted.
    destruct (trim (p ++ w)); cbn; [by split|].
    split; [|by unfold clauses_ink; cbn; rewrite app_nil_r].
    apply Forall_singleton. split; [done|]. cbn in Hlen. cbn. lia. }
  destruct (is_blank s) eqn:Hs.
  - exists (clause_set_pending [] b), emitted. split; [done|]. split.
    + split; [done|]. split; [|done]. cbn. rewrite Hink, Hb, (ink_app (p ++ w)).
      by rewrite (ink_blank s Hs).
    + destruct flush; [done|]. cbn. unfold clause_limit. lia.
  - destruct (IH (clause_set_pending s b)) as (b'&later&->&(Hpol&Hi&Hl)&Hend); cbn.
    { rewrite Hb, !length_app in Hf. destruct p; cbn in *; [done|lia]. }
    exists b', (emitted ++ later). split; [done|]. split; [|done]. split; [done|]. split.
    + rewrite clauses_ink_app, <-app_assoc, Hi, Hink. cbn. by rewrite Hb, (ink_app (p ++ w)).
    + apply Forall_app. split; [done|]. eapply Forall_impl; [exact Hl|]. intros c [? Hc].
      split; [done|]. unfold n. destruct flush; [|done].
      etransitivity; [exact Hc|]. cbn. rewrite Hb, !length_app. lia.
Qed.

Lemma clause_push_spec b text :
  ∃ b' clauses, clause_push b text = Done (b', clauses) ∧
    extracts (clause_limit b) (clause_set_pending (cb_pending b ++ text) b) b' clauses ∧
    Z.of_nat (length (cb_pending b')) < clause_limit b.
Proof.
  unfold clause_push, clause_extract.
  apply (clause_extract_loop_spec _ (clause_set_pending (cb_pending b ++ text) b) false). lia.
Qed.

Lemma clause_push_all_spec b texts :
  Z.of_nat (length (cb_pending b)) < clause_limit b →
  ∃ b' clauses, clause_push_all b texts = Done (b', clauses) ∧
    extracts (clause_limit b) (clause_set_pending (cb_pending b ++ concat texts) b) b' clauses ∧
    Z.of_nat (length (cb_pending b')) < clause_limit b.
Proof.
  revert b. induction texts as [|text texts IH]; intros b Hb; cbn [clause_push_all concat].
  { exists b, []. rewrite app_nil_r. by repeat split. }
  destruct (clause_push_spec b text) as (b1&clauses&->&(Hp1&Hi1&Hf1)&Hl1). cbn in Hp1.
  assert (clause_limit b1 = clause_limit b) as Hlim by (unfold clause_limit; by rewrite Hp1).
  destruct (IH b1) as (b2&later&Heq&(Hp2&Hi2&Hf2)&Hl2); [by rewrite Hlim|].
  cbn [mbind outcome_bind]. rewrite Heq. cbn [mbind outcome_bind].
  rewrite Hlim in *. exists b2, (clauses ++ later). split; [done|].
  split; [|done]. cbn in *. split; [cbn; congruence|]. split; [|by apply Forall_app].
  cbn. rewrite clauses_ink_app, <-app_assoc, Hi2, !ink_app, app_assoc, Hi1, !ink_app.
  by rewrite <-!app_assoc.
Qed.

(** a speech session always returns, whatever the texts and the policy, never
    panics, and its clauses, in order, carry every visible character of the texts
    exactly once; each clause is non-empty and has at most the policy's maximum of
    characters, and so does the text kept pending between two pushes. *)
Theorem clause_stream_speaks_everything policy texts :
  ∃ b clauses, clause_stream (clause_new policy) texts = Done (b, clauses) ∧
    clauses_ink clauses = ink (concat texts) ∧
    Forall (λ clause, clause ≠ [] ∧ Z.of_nat (length clause) ≤ Z.max 1 (maximum_chars policy))
      clauses ∧
    ∃ b' pushed, clause_push_all (clause_new policy) texts = Done (b', pushed) ∧
      pending_chars b' < Z.max 1 (maximum_chars policy).
Proof.
  destruct (clause_push_all_spec (clause_new policy) texts) as (b1&pushed&Heq&(Hp1&Hi1&Hf1)&Hl1).
  { cbn. unfold clause_limit. cbn. lia. }
  destruct (clause_extract_loop_spec (S (length (cb_pending b1))) b1 true)
    as (b2&later&Heq2&(Hp2&Hi2&Hf2)&Hblank); [lia|].
  unfold clause_stream. rewrite Heq. cbn [mbind outcome_bind].
  unfold clause_finish, clause_extract. rewrite Heq2. cbn [mbind outcome_bind].
  exists b2, (pushed ++ later). split; [done|].
  rewrite (ink_blank _ Hblank), app_nil_r in Hi2. split; [|split].
  - rewrite clauses_ink_app, Hi2. exact Hi1.
  - apply Forall_app. split; [done|]. eapply Forall_impl; [exact Hf2|]. intros c [? Hc].
    split; [done|]. unfold clause_limit in Hl1. cbn in *. lia.
  - exists b1, pushed. by split.
Qed.
