(* ===== verification/Delivery.v ===== *)
(** * Delivered spans ([crates/runtime-core/src/structured_response.rs])

    The tracker that decides what part of a spoken response becomes durable
    dialogue: exact byte ranges acknowledged by a surface, of one cancellation
    generation, in source order. [None] is the panic of a slice. *)

From S2P Require Import Prelude Text Response.

#[local] Open Scope Z_scope.

(** ** Data *)

Inductive DeliveredSurfaceV1 := SurfaceAudio | SurfaceSubtitle.
#[export] Instance DeliveredSurfaceV1_eq_dec : EqDecision DeliveredSurfaceV1.
Proof. solve_decision. Defined.

Record DeliveryEvidenceV1 := {
  de_cancellation_generation : Z;
  de_sentence_id : Z;
  de_text_start_bytes : Z;
  de_text_end_bytes : Z;
  de_surface : DeliveredSurfaceV1;
  de_audible_frames : Z;
  de_duration : Z
}.

Record CommittedSpanV1 := {
  cp_sentence_id : Z;
  cp_text_start_bytes : Z;
  cp_text_end_bytes : Z;
  cp_text : str;
  cp_surface : DeliveredSurfaceV1;
  cp_audible_frames : Z;
  cp_duration : Z
}.

Record DeliveredSpanCommitV1 := {
  dc_schema_version : NpcResponseSchemaVersion;
  dc_cancellation_generation : Z;
  dc_cancelled : bool;
  dc_spans : list CommittedSpanV1
}.

Definition commit_is_empty (c : DeliveredSpanCommitV1) : bool :=
  match dc_spans c with [] => true | _ => false end.
Definition fragments (c : DeliveredSpanCommitV1) : list str := cp_text <$> dc_spans c.

Inductive DeliveryTrackerState := TrackerActive | TrackerCancelled | TrackerFinalized.
#[export] Instance DeliveryTrackerState_eq_dec : EqDecision DeliveryTrackerState.
Proof. solve_decision. Defined.

Inductive DeliveryRecordOutcome := Recorded | DuplicateIgnored.

Inductive DeliveryCommitError :=
| CommitStaleGeneration (expected received : Z)
| CommitClosed
| InvalidRange
| InvalidUtf8Boundary
| InvalidSemanticBoundary
| EmptyAudioEvidence
| OverlappingOrOutOfOrder.

Record DeliveredSpanTracker := {
  dt_cancellation_generation : Z;
  dt_spoken_response : str;
  dt_state : DeliveryTrackerState;
  dt_spans : list CommittedSpanV1
}.

(** ** Boundaries *)

(** [char::is_ascii_punctuation]. *)
Definition is_ascii_punctuation (c : char) : bool :=
  ((33 <=? c) && (c <=? 47)) || ((58 <=? c) && (c <=? 64)) || ((91 <=? c) && (c <=? 96))
  || ((123 <=? c) && (c <=? 126)).

(** White space, ASCII punctuation, the en dash, the em dash and the ellipsis. *)
Definition is_word_boundary_char (ch : char) : bool :=
  is_whitespace ch || is_ascii_punctuation ch || (ch =? 8211) || (ch =? 8212) || (ch =? 8230).

Definition is_semantic_boundary (text : str) (offset : Z) : option bool :=
  if (offset =? 0) || (offset =? str_len text) then Some true else
  before ← slice_to offset text;
  after ← slice_from offset text;
  Some (is_some_and (last before) is_word_boundary_char
        || is_some_and (head after) is_word_boundary_char).

(** [str::is_char_boundary]. *)
Definition is_char_boundary (text : str) (offset : Z) : bool :=
  is_some (split_at_byte offset text).

(** ** Operations *)

Definition tracker_new (generation : Z) (spoken : str)
    : result ResponseValidationError DeliveredSpanTracker :=
  _ ← validate_text spoken MAX_SPOKEN_RESPONSE_BYTES (lit "spoken response");
  Ok {| dt_cancellation_generation := generation; dt_spoken_response := spoken;
        dt_state := TrackerActive; dt_spans := [] |}.

Definition tracker_require_generation (t : DeliveredSpanTracker) (received : Z)
    : result DeliveryCommitError unit :=
  ensure (received =? dt_cancellation_generation t)
    (CommitStaleGeneration (dt_cancellation_generation t) received).

(** [None] is the panic of a slice. *)
Definition validate_range (t : DeliveredSpanTracker) (start_ end_ : Z)
    : option (result DeliveryCommitError unit) :=
  let text := dt_spoken_response t in
  if (end_ <=? start_) || (str_len text <? end_) then Some (Err InvalidRange) else
  if negb (is_char_boundary text start_) || negb (is_char_boundary text end_)
  then Some (Err InvalidUtf8Boundary) else
  at_start ← is_semantic_boundary text start_;
  if negb at_start then Some (Err InvalidSemanticBoundary) else
  at_end ← is_semantic_boundary text end_;
  if negb at_end then Some (Err InvalidSemanticBoundary) else
  Some (Ok tt).

Definition same_range (e : DeliveryEvidenceV1) (s : CommittedSpanV1) : bool :=
  (cp_text_start_bytes s =? de_text_start_bytes e) && (cp_text_end_bytes s =? de_text_end_bytes e)
  && bool_decide (cp_surface s = de_surface e).

Definition same_receipt (e : DeliveryEvidenceV1) (s : CommittedSpanV1) : bool :=
  (cp_audible_frames s =? de_audible_frames e) && (cp_duration s =? de_duration e)
  && (cp_sentence_id s =? de_sentence_id e).

(** The span an evidence commits. *)
Definition committed (e : DeliveryEvidenceV1) (text : str) : CommittedSpanV1 := {|
  cp_sentence_id := de_sentence_id e; cp_text_start_bytes := de_text_start_bytes e;
  cp_text_end_bytes := de_text_end_bytes e; cp_text := text; cp_surface := de_surface e;
  cp_audible_frames := de_audible_frames e; cp_duration := de_duration e |}.

Definition push_span (s : CommittedSpanV1) (t : DeliveredSpanTracker) : DeliveredSpanTracker := {|
  dt_cancellation_generation := dt_cancellation_generation t;
  dt_spoken_response := dt_spoken_response t; dt_state := dt_state t;
  dt_spans := dt_spans t ++ [s] |}.

Definition record (e : DeliveryEvidenceV1) (t : DeliveredSpanTracker)
    : option (DeliveredSpanTracker * result DeliveryCommitError DeliveryRecordOutcome) :=
  match tracker_require_generation t (de_cancellation_generation e) with
  | Err err => Some (t, Err err)
  | Ok _ =>
      if negb (bool_decide (dt_state t = TrackerActive)) then Some (t, Err CommitClosed) else
      valid ← validate_range t (de_text_start_bytes e) (de_text_end_bytes e);
      match valid with
      | Err err => Some (t, Err err)
      | Ok _ =>
          if bool_decide (de_surface e = SurfaceAudio)
             && ((de_audible_frames e =? 0) || (de_duration e =? 0))
          then Some (t, Err EmptyAudioEvidence) else
          match List.find (same_range e) (dt_spans t) with
          | Some existing =>
              Some (t, if same_receipt e existing then Ok DuplicateIgnored
                       else Err OverlappingOrOutOfOrder)
          | None =>
              if is_some_and (last (dt_spans t)) (λ last_,
                   (de_text_start_bytes e <? cp_text_end_bytes last_)
                   || (de_text_end_bytes e <=? cp_text_end_bytes last_))
              then Some (t, Err OverlappingOrOutOfOrder) else
              text ← slice (de_text_start_bytes e) (de_text_end_bytes e) (dt_spoken_response t);
              Some (push_span (committed e text) t, Ok Recorded)
          end
      end
  end.

Definition tracker_close (state : DeliveryTrackerState) (t : DeliveredSpanTracker)
    : DeliveredSpanTracker := {|
  dt_cancellation_generation := dt_cancellation_generation t;
  dt_spoken_response := dt_spoken_response t;
  dt_state := if bool_decide (dt_state t = TrackerActive) then state else dt_state t;
  dt_spans := dt_spans t |}.

Definition tracker_cancel (observed : Z) (t : DeliveredSpanTracker)
    : DeliveredSpanTracker * result DeliveryCommitError unit :=
  match tracker_require_generation t observed with
  | Err err => (t, Err err)
  | Ok _ => (tracker_close TrackerCancelled t, Ok tt)
  end.

Definition finalize (observed : Z) (t : DeliveredSpanTracker)
    : DeliveredSpanTracker * result DeliveryCommitError unit :=
  match tracker_require_generation t observed with
  | Err err => (t, Err err)
  | Ok _ => (tracker_close TrackerFinalized t, Ok tt)
  end.

Definition commit (t : DeliveredSpanTracker) : DeliveredSpanCommitV1 := {|
  dc_schema_version := V1; dc_cancellation_generation := dt_cancellation_generation t;
  dc_cancelled := bool_decide (dt_state t = TrackerCancelled); dc_spans := dt_spans t |}.

#[global] Arguments is_word_boundary_char : simpl never.
#[global] Arguments is_semantic_boundary : simpl never.

(** ** Runs *)

Inductive delivery_event :=
| DeliveryRecord (e : DeliveryEvidenceV1)
| DeliveryCancel (observed : Z)
| DeliveryFinalize (observed : Z).

(** The tracker after an event, and the evidence the event committed. *)
Definition delivery_step (ev : delivery_event) (t : DeliveredSpanTracker)
    : option (DeliveredSpanTracker * list DeliveryEvidenceV1) :=
  match ev with
  | DeliveryRecord e =>
      '(t, r) ← record e t;
      Some (t, match r with Ok Recorded => [e] | _ => [] end)
  | DeliveryCancel observed => Some ((tracker_cancel observed t).1, [])
  | DeliveryFinalize observed => Some ((finalize observed t).1, [])
  end.

Fixpoint delivery_run (events : list delivery_event) (t : DeliveredSpanTracker)
    : option (DeliveredSpanTracker * list DeliveryEvidenceV1) :=
  match events with
  | [] => Some (t, [])
  | ev :: events =>
      '(t, es) ← delivery_step ev t;
      '(t, es') ← delivery_run events t;
      Some (t, es ++ es')
  end.

(** * Lemmas *)

Lemma is_semantic_boundary_total a b :
  ∃ r, is_semantic_boundary (a ++ b) (str_len a) = Some r.
Proof.
  unfold is_semantic_boundary. destruct (_ || _); [by eexists|].
  rewrite slice_to_app, slice_from_app. by eexists.
Qed.

Lemma is_char_boundary_split text n :
  is_char_boundary text n = true → ∃ a b, text = a ++ b ∧ n = str_len a.
Proof.
  unfold is_char_boundary. destruct (split_at_byte n text) as [[a b]|] eqn:E; [|done].
  intros _. apply split_at_byte_Some in E as [-> ->]. by exists a, b.
Qed.

(** Two boundaries of a text, in order, cut a middle piece. *)
Lemma two_boundaries text a b a' b' :
  text = a ++ b → text = a' ++ b' → str_len a < str_len a' → ∃ m, a' = a ++ m ∧ m ≠ [].
Proof.
  intros -> Heq Hlt. apply app_eq_app in Heq as (m&[[-> _]|[-> _]]).
  - rewrite str_len_app in Hlt. pose proof (str_len_nonneg m). lia.
  - exists m. split; [done|]. intros ->. rewrite app_nil_r in Hlt. lia.
Qed.

(** A committed span: an exact, non-empty slice between semantic boundaries, with
    audible evidence when it was heard. *)
Definition span_committed_ok (text : str) (s : CommittedSpanV1) : Prop :=
  (∃ a c, text = a ++ cp_text s ++ c ∧ cp_text s ≠ [] ∧ cp_text_start_bytes s = str_len a ∧
    cp_text_end_bytes s = str_len a + str_len (cp_text s)) ∧
  is_semantic_boundary text (cp_text_start_bytes s) = Some true ∧
  is_semantic_boundary text (cp_text_end_bytes s) = Some true ∧
  (cp_surface s = SurfaceAudio → cp_audible_frames s ≠ 0 ∧ cp_duration s ≠ 0).

Lemma validate_range_total t lo hi :
  ∃ r, validate_range t lo hi = Some r ∧
    (r = Ok tt → ∃ a m c, dt_spoken_response t = a ++ m ++ c ∧ m ≠ [] ∧ lo = str_len a ∧
      hi = str_len a + str_len m ∧
      is_semantic_boundary (dt_spoken_response t) lo = Some true ∧
      is_semantic_boundary (dt_spoken_response t) hi = Some true).
Proof.
  unfold validate_range. set (text := dt_spoken_response t).
  destruct (Z.leb_spec hi lo); cbn [orb]; [by eexists|].
  destruct (Z.ltb_spec (str_len text) hi); [by eexists|].
  destruct (is_char_boundary text lo) eqn:Hlo; cbn [negb orb]; [|by eexists].
  destruct (is_char_boundary text hi) eqn:Hhi; cbn [negb]; [|by eexists].
  apply is_char_boundary_split in Hlo as (a&b&Ha&->), Hhi as (a'&c&Ha'&->).
  destruct (two_boundaries text a b a' c) as (m&->&Hm); [done..|].
  destruct (is_semantic_boundary_total a b) as [r1 Hr1]. rewrite <-Ha in Hr1. rewrite Hr1.
  cbn [mbind option_bind]. destruct r1; cbn [negb]; [|by eexists].
  destruct (is_semantic_boundary_total (a ++ m) c) as [r2 Hr2]. rewrite <-Ha' in Hr2. rewrite Hr2.
  cbn [mbind option_bind]. destruct r2; cbn [negb]; [|by eexists].
  exists (Ok tt). split; [done|]. intros _. exists a, m, c.
  rewrite str_len_app. split; [by rewrite Ha', <-app_assoc|]. by split_and!.
Qed.

(** The committed spans follow one another. *)
Abbreviation spans_in_order :=
  (StronglySorted (λ s s', cp_text_end_bytes s ≤ cp_text_start_bytes s')).

Lemma in_order_snoc text spans s :
  Forall (span_committed_ok text) spans → spans_in_order spans →
  is_some_and (last spans) (λ l, (cp_text_start_bytes s <? cp_text_end_bytes l)
    || (cp_text_end_bytes s <=? cp_text_end_bytes l)) = false →
  spans_in_order (spans ++ [s]).
Proof.
  intros Hok Hs Hlast. destruct (last spans) as [l|] eqn:El.
  2: { apply last_None in El as ->. by repeat constructor. }
  apply last_Some in El as [spans' ->]. cbn in Hlast.
  apply Forall_app in Hok as [_ [Hl _]%Forall_cons]. destruct Hl as [(a&c&_&Hne&H1&H2) _].
  assert (cp_text_start_bytes l ≤ cp_text_end_bytes l) by (pose proof (str_len_nonneg (cp_text l)); lia).
  clear a c Hne H1 H2. induction spans' as [|x spans' IH]; cbn in *.
  - repeat constructor. lia.
  - apply StronglySorted_inv in Hs as [Hs Hx]. constructor; [by apply IH|].
    apply Forall_app. split; [done|]. apply Forall_app in Hx as [_ [Hxl _]%Forall_cons].
    repeat constructor. lia.
Qed.

(** ** The invariant of a tracker *)

(** [t] tracks [text] for [generation] and has committed the evidence [es]. *)
Record tracker_inv (generation : Z) (text : str) (es : list DeliveryEvidenceV1)
    (t : DeliveredSpanTracker) : Prop := {
  ti_generation : dt_cancellation_generation t = generation;
  ti_text : dt_spoken_response t = text;
  ti_evidence : Forall2 (λ e s, s = committed e (cp_text s)) es (dt_spans t);
  ti_current : Forall (λ e, de_cancellation_generation e = generation) es;
  ti_spans : Forall (span_committed_ok text) (dt_spans t);
  ti_order : spans_in_order (dt_spans t)
}.

#[local] Ltac rejected Hkeep :=
  eexists _, _; split; [reflexivity|];
  split; [exact Hkeep|];
  split; [reflexivity|]; intros Hn; first [done | by split].

Lemma record_inv generation text es t e :
  tracker_inv generation text es t →
  ∃ t' r, record e t = Some (t', r) ∧
    tracker_inv generation text (es ++ match r with Ok Recorded => [e] | _ => [] end) t' ∧
    dt_state t' = dt_state t ∧ (dt_state t ≠ TrackerActive → t' = t ∧ is_ok r = false).
Proof.
  intros H. unfold record, tracker_require_generation.
  assert (Hkeep : tracker_inv generation text (es ++ []) t) by by rewrite app_nil_r.
  destruct (Z.eqb_spec (de_cancellation_generation e) (dt_cancellation_generation t)) as [Hg|];
    cbn [ensure]; [|rejected Hkeep].
  case_bool_decide as Hst; cbn [negb]; [|rejected Hkeep].
  destruct (validate_range_total t (de_text_start_bytes e) (de_text_end_bytes e)) as (r&->&Hr).
  cbn [mbind option_bind]. destruct r as [[]|]; [|rejected Hkeep].
  destruct (Hr eq_refl) as (a&m&c&Htext&Hm&Hlo&Hhi&Hb1&Hb2).
  destruct (_ && _) eqn:Haudio; [rejected Hkeep|].
  destruct (List.find _ _) as [s|]; [destruct (same_receipt e s); rejected Hkeep|].
  destruct (is_some_and _ _) eqn:Hlast; [rejected Hkeep|].
  assert (slice (de_text_start_bytes e) (de_text_end_bytes e) (dt_spoken_response t) = Some m) as ->
    by (rewrite Hlo, Hhi, Htext; apply slice_app).
  cbn [mbind option_bind]. eexists _, _. split; [reflexivity|]. split; [|done].
  assert (span_committed_ok (dt_spoken_response t) (committed e m)) as Hok.
  { split; [by exists a, c|]. split; [done|]. split; [done|]. cbn. intros Hs.
    rewrite bool_decide_true in Haudio by done. lia. }
  destruct H as [Hgen Htx Hev Hcur Hsp Hord]. constructor; cbn; [done|done|..].
  - apply Forall2_app; [done|]. by repeat constructor.
  - apply Forall_app. split; [done|]. repeat constructor. congruence.
  - apply Forall_app. split; [done|]. apply Forall_singleton. by rewrite <-Htx.
  - by apply (in_order_snoc text).
Qed.

Lemma tracker_close_inv generation text es t state :
  tracker_inv generation text es t → tracker_inv generation text es (tracker_close state t).
Proof. by intros []. Qed.

Lemma delivery_step_inv generation text es t ev :
  tracker_inv generation text es t →
  ∃ t' new, delivery_step ev t = Some (t', new) ∧ tracker_inv generation text (es ++ new) t' ∧
    (new = [] ∨ ∃ e, ev = DeliveryRecord e ∧ new = [e] ∧ dt_state t = TrackerActive) ∧
    (dt_state t ≠ TrackerActive → dt_state t' ≠ TrackerActive ∧ dt_spans t' = dt_spans t).
Proof.
  intros H. assert (∀ observed state t' r,
    match tracker_require_generation t observed with
    | Err err => (t, Err err) | Ok _ => (tracker_close state t, Ok tt) end = (t', r) →
    state ≠ TrackerActive →
    tracker_inv generation text (es ++ []) t' ∧
    (dt_state t ≠ TrackerActive → dt_state t' ≠ TrackerActive ∧ dt_spans t' = dt_spans t))
    as Hclose.
  { intros observed state t' r E Hs. rewrite app_nil_r.
    destruct (tracker_require_generation t observed); injection E as <- _; [|done].
    split; [by apply tracker_close_inv|]. cbn. intros ?. by rewrite bool_decide_false by done. }
  destruct ev as [e|observed|observed]; cbn [delivery_step].
  - destruct (record_inv _ _ _ _ e H) as (t'&r&->&Hinv&Hst&Hclosed). cbn [mbind option_bind].
    eexists _, _. split; [done|]. split; [done|].
    split; [|intros Hn; destruct (Hclosed Hn) as [-> _]; by split].
    destruct r as [[]|]; [|by left..]. right. exists e. split; [done|]. split; [done|].
    destruct (decide (dt_state t = TrackerActive)) as [|Hn]; [done|].
    by destruct (Hclosed Hn) as [_ [=]].
  - destruct (tracker_cancel observed t) as [t' r] eqn:E. apply Hclose in E as [? ?]; [|done].
    eexists _, _. split; [done|]. split; [done|]. split; [by left|done].
  - destruct (finalize observed t) as [t' r] eqn:E. apply Hclose in E as [? ?]; [|done].
    eexists _, _. split; [done|]. split; [done|]. split; [by left|done].
Qed.

(** The evidence of the events, in order. *)
Definition evidence_of (ev : delivery_event) : option DeliveryEvidenceV1 :=
  match ev with DeliveryRecord e => Some e | _ => None end.

Lemma delivery_run_inv generation text events es t :
  tracker_inv generation text es t →
  ∃ t' new, delivery_run events t = Some (t', new) ∧ tracker_inv generation text (es ++ new) t' ∧
    new `sublist_of` omap evidence_of events ∧
    (dt_state t ≠ TrackerActive → new = [] ∧ dt_spans t' = dt_spans t).
Proof.
  revert es t. induction events as [|ev events IH]; intros es t H; cbn.
  { exists t, []. rewrite app_nil_r. split; [done|]. split; [done|]. by split; [constructor|]. }
  destruct (delivery_step_inv _ _ _ _ ev H) as (t1&new1&->&H1&Hnew&Hst). cbn [mbind option_bind].
  destruct (IH _ _ H1) as (t2&new2&->&H2&Hsub&Hcl). cbn [mbind option_bind].
  exists t2, (new1 ++ new2). split; [done|]. split; [by rewrite app_assoc|]. split.
  - destruct Hnew as [->|(e&->&->&_)]; cbn; [|by apply sublist_skip].
    destruct (evidence_of ev); [by apply sublist_cons|done].
  - intros Hn. destruct (Hst Hn) as [Hn1 Hs1]. destruct (Hcl Hn1) as [-> Hs2].
    rewrite Hs2, Hs1. by destruct Hnew as [->|(e&_&_&?)].
Qed.

(** C5: durable dialogue is exact. For every sequence of evidence, cancellations and
    finalizations the tracker never panics, and what it commits is exactly the
    accepted evidence, in order and all of the tracker's own generation; each
    committed span is a non-empty exact slice of the spoken response between
    semantic boundaries, with audible frames when it was heard; spans never overlap
    or go backwards; and once the tracker is cancelled or finalized nothing more is
    committed. *)
Theorem delivery_commit_exact generation spoken t events :
  tracker_new generation spoken = Ok t →
  ∃ t' es, delivery_run events t = Some (t', es) ∧ es `sublist_of` omap evidence_of events ∧
    Forall (λ e, de_cancellation_generation e = generation) es ∧
    Forall2 (λ e s, s = committed e (cp_text s)) es (dc_spans (commit t')) ∧
    Forall (span_committed_ok spoken) (dc_spans (commit t')) ∧
    spans_in_order (dc_spans (commit t')) ∧
    (dt_state t' ≠ TrackerActive → ∀ more, ∃ t'', delivery_run more t' = Some (t'', []) ∧
      dc_spans (commit t'') = dc_spans (commit t')).
Proof.
  unfold tracker_new. destruct (validate_text _ _ _); [|done]. cbn. intros [= <-].
  destruct (delivery_run_inv generation spoken events []
    {| dt_cancellation_generation := generation; dt_spoken_response := spoken;
       dt_state := TrackerActive; dt_spans := [] |}) as (t'&es&Hrun&H&Hsub&_).
  { by repeat constructor. }
  exists t', es. pose proof H as [_ _ Hev Hcur Hsp Hord]. do 6 (split; [done|]).
  intros Hst more. destruct (delivery_run_inv _ _ more _ _ H) as (t''&new&Hmore&_&_&Hnew).
  destruct (Hnew Hst) as [-> Hs]. by exists t''.
Qed.

(** ** The theorem at a concrete input *)

Definition demo_evidence (lo hi frames : Z) : DeliveryEvidenceV1 := {|
  de_cancellation_generation := 7; de_sentence_id := 1; de_text_start_bytes := lo;
  de_text_end_bytes := hi; de_surface := SurfaceAudio; de_audible_frames := frames;
  de_duration := 1000 |}.

Definition demo_delivery : list delivery_event :=
  [DeliveryRecord (demo_evidence 0 11 480); DeliveryRecord (demo_evidence 0 11 480);
   DeliveryRecord (demo_evidence 12 14 480); DeliveryCancel 7;
   DeliveryRecord (demo_evidence 12 20 480)].

Lemma delivery_commit_exact_witness : ∃ t t' es,
  tracker_new 7 (lit "Stay close. Run now!") = Ok t ∧
  delivery_run demo_delivery t = Some (t', es) ∧
  fragments (commit t') = [lit "Stay close."] ∧
  Forall (span_committed_ok (lit "Stay close. Run now!")) (dc_spans (commit t')).
Proof.
  destruct (tracker_new 7 (lit "Stay close. Run now!")) as [t|e] eqn:E;
    [|vm_compute in E; discriminate E].
  destruct (delivery_commit_exact 7 _ t demo_delivery E) as (t'&es&Hrun&_&_&_&Hok&_).
  exists t, t', es. split; [reflexivity|]. split; [exact Hrun|]. split; [|exact Hok].
  vm_compute in E. injection E as <-. vm_compute in Hrun. injection Hrun as <- _.
  vm_compute. reflexivity.
Defined.
