(* ===== verification/ResponseStream.v ===== *)
(** * Decoding provider responses
    ([crates/runtime-core/src/structured_response.rs])

    The strict parser, the parser that isolates malformed proposals, and the
    adapter that releases sentences of a streamed response. The JSON parser is an
    external crate: the class [JsonApi] lists what the code uses of it. *)

From S2P Require Import Prelude Text Float Policy Sentence SentenceSpec Response.

#[local] Open Scope Z_scope.

(** ** The JSON parser (an external crate) *)

(** The first item of a stream deserializer: a value with the byte offset after it,
    an error, an error that is an unexpected end, or nothing but white space. *)
Inductive stream_item (A : Type) :=
| ItemValue (value : A) (byte_offset : Z)
| ItemError (message : str)
| ItemEof
| ItemNone.
Arguments ItemValue {A}.
Arguments ItemError {A}.
Arguments ItemEof {A}.
Arguments ItemNone {A}.

(** What the code relies on: a value read from a stream ends, after at least one
    byte, on a character boundary of the text. *)
Class JsonApi := {
  json : Type;
  json_from_str : str → result str json;
  json_as_object : json → option (gmap str json);
  json_is_null : json → bool;
  schema_from_str : str → result str NpcResponseSchemaVersion;
  spoken_from_str : str → result str SpokenResponseV1;
  schema_from_value : json → result str NpcResponseSchemaVersion;
  spoken_from_value : json → result str SpokenResponseV1;
  emotion_from_value : json → result str EmotionStateV1;
  style_from_value : json → result str VoiceStyleV1;
  cues_from_value : json → result str (list AnimationCueV1);
  memory_from_value : json → result str (list MemoryProposalV1);
  interruption_from_value : json → result str InterruptionBehaviorV1;
  actions_from_value : json → result str (list OptionalActionV1);
  envelope_from_value : json → result str NpcResponseEnvelopeV1;
  first_string : str → stream_item str;
  first_value : str → stream_item json;
  first_string_offset : ∀ s v n, first_string s = ItemValue v n →
    ∃ a b, s = a ++ b ∧ a ≠ [] ∧ n = str_len a;
  first_value_offset : ∀ s v n, first_value s = ItemValue v n →
    ∃ a b, s = a ++ b ∧ a ≠ [] ∧ n = str_len a
}.

Section response.
Context `{JsonApi}.

Abbreviation checked A := (result ResponseValidationError A) (only parsing).

(** [map_err(|error| MalformedProviderOutput(error.to_string()))]. *)
Definition malformed {A} (r : result str A) : checked A :=
  match r with Ok a => Ok a | Err message => Err (MalformedProviderOutput message) end.

(** ** Whole responses *)

Definition validate_provider_size (raw : str) : checked unit :=
  if MAX_PROVIDER_RESPONSE_BYTES <? str_len raw
  then Err (ProviderOutputTooLarge MAX_PROVIDER_RESPONSE_BYTES) else Ok tt.

Definition unsupported_top_level_fields (object : gmap str json) : list str :=
  List.filter (λ field, negb (bool_decide (field ∈ TOP_LEVEL_FIELDS))) (btree_iter object).*1.

(** [NpcResponseEnvelopeV1::from_json_strict]. *)
Definition from_json_strict (raw : str) (policy : ResponseValidationPolicy)
    : checked NpcResponseEnvelopeV1 :=
  _ ← validate_provider_size raw;
  value ← malformed (json_from_str raw);
  object ← ok_or (json_as_object value) ExpectedObject;
  match unsupported_top_level_fields object with
  | field :: _ => Err (UnsupportedField field)
  | [] =>
      response ← malformed (envelope_from_value value);
      _ ← envelope_validate_response response policy;
      Ok response
  end.

Inductive ProviderResponseFormat := FormatStructuredV1 | PlainTextCompatibility.

Inductive ProviderResponseIssue :=
| UnsupportedTopLevelField (field : str)
| OptionalSubsystemNeutralized (subsystem reason : str).

Record DecodedNpcResponse := {
  dn_response : NpcResponseEnvelopeV1;
  dn_format : ProviderResponseFormat;
  dn_issues : list ProviderResponseIssue
}.

Definition decode_required {A} (from_value : json → result str A) (object : gmap str json)
    (field : str) : checked A :=
  value ← ok_or (object !! field)
    (MalformedProviderOutput (lit "missing field `" ++ field ++ lit "`"));
  match from_value value with
  | Ok a => Ok a
  | Err error => Err (MalformedProviderOutput (field ++ lit ": " ++ error))
  end.

Definition optional_issue (subsystem reason : str) : ProviderResponseIssue :=
  OptionalSubsystemNeutralized subsystem reason.

Definition decode_isolated_optional {A} (from_value : json → result str A)
    (object : gmap str json) (field subsystem : str) (issues : list ProviderResponseIssue)
    (validate : A → checked unit) : option A * list ProviderResponseIssue :=
  match object !! field with
  | None => (None, issues)
  | Some value =>
      if json_is_null value then (None, issues) else
      match from_value value with
      | Ok decoded =>
          match validate decoded with
          | Ok _ => (Some decoded, issues)
          | Err error => (None, issues ++ [optional_issue subsystem (response_error_text error)])
          end
      | Err error => (None, issues ++ [optional_issue subsystem error])
      end
  end.

Definition decode_isolated_default {A} (from_value : json → result str A)
    (object : gmap str json) (field subsystem : str) (issues : list ProviderResponseIssue)
    (neutral : A) (validate : A → checked unit) : A * list ProviderResponseIssue :=
  match object !! field with
  | None => (neutral, issues)
  | Some value =>
      match from_value value with
      | Ok decoded =>
          match validate decoded with
          | Ok _ => (decoded, issues)
          | Err error => (neutral, issues ++ [optional_issue subsystem (response_error_text error)])
          end
      | Err error => (neutral, issues ++ [optional_issue subsystem error])
      end
  end.

Definition decode_structured_with_isolation (policy : ResponseValidationPolicy) (raw : str)
    : checked DecodedNpcResponse :=
  value ← malformed (json_from_str raw);
  object ← ok_or (json_as_object value) ExpectedObject;
  schema ← decode_required schema_from_value object (lit "schema_version");
  spoken ← decode_required spoken_from_value object (lit "spoken_response");
  _ ← validate_spoken spoken policy;
  let issues := UnsupportedTopLevelField <$> unsupported_top_level_fields object in
  let '(emotion, issues) := decode_isolated_optional emotion_from_value object (lit "emotion")
    (lit "emotion") issues validate_emotion in
  let '(style, issues) := decode_isolated_default style_from_value object (lit "voice_style")
    (lit "voice_style") issues voice_style_default validate_voice_style in
  let '(cues, issues) := decode_isolated_default cues_from_value object (lit "animation_cues")
    (lit "animation") issues [] (λ value, validate_animation value policy) in
  let '(memory, issues) := decode_isolated_default memory_from_value object
    (lit "memory_proposals") (lit "memory") issues [] (λ value, validate_memory value policy) in
  let '(interruption, issues) := decode_isolated_default interruption_from_value object
    (lit "interruption_behavior") (lit "interruption") issues BargeInAllowed
    (λ value, validate_interruption value policy) in
  let '(actions, issues) := decode_isolated_default actions_from_value object (lit "actions")
    (lit "actions") issues [] (λ value, validate_actions value policy) in
  let response := {|
    en_schema_version := schema; en_spoken_response := spoken; en_emotion := emotion;
    en_voice_style := style; en_animation_cues := cues; en_memory_proposals := memory;
    en_interruption_behavior := interruption; en_actions := actions |} in
  _ ← envelope_validate_response response policy;
  Ok {| dn_response := response; dn_format := FormatStructuredV1; dn_issues := issues |}.

(** [ProviderResponseAdapter::decode]. *)
Definition decode (policy : ResponseValidationPolicy) (raw : str) : checked DecodedNpcResponse :=
  _ ← validate_provider_size raw;
  let trimmed := trim raw in
  if str_is_empty trimmed then Err (EmptyText (lit "provider response")) else
  if is_some_and (head trimmed) (λ c, (c =? 123) || (c =? 91))
  then decode_structured_with_isolation policy trimmed else
  let response := plain_text trimmed in
  _ ← envelope_validate_response response policy;
  Ok {| dn_response := response; dn_format := PlainTextCompatibility; dn_issues := [] |}.

(** ** The speech-first scan

    A position in the buffer is the text from there on. *)

Record SpeechFirstEnvelopeScan := {
  sc_spoken_response : option SpokenResponseV1;
  sc_complete : bool
}.

Definition speech_first_scan_progress (schema_version_validated : bool)
    (spoken : option SpokenResponseV1) : SpeechFirstEnvelopeScan := {|
  sc_spoken_response := if schema_version_validated then spoken else None;
  sc_complete := false |}.

(** [' '], line feed, carriage return and tab. *)
Definition is_json_whitespace (c : char) : bool := (c =? 32) || (c =? 10) || (c =? 13) || (c =? 9).

Definition skip_json_whitespace (rest : str) : str := trim_start_by is_json_whitespace rest.

(** [parse_complete_json_value]: the value, its raw text and what follows. *)
Definition parse_complete_json_value {A} (first : str → stream_item A) (rest : str)
    : outcome (checked (option (A * str * str))) :=
  match rest with
  | [] => Done (Ok None)
  | _ =>
      match first rest with
      | ItemValue value n =>
          '(raw, after) ← of_panic (split_at_byte n rest); Done (Ok (Some (value, raw, after)))
      | ItemError message => Done (Err (MalformedProviderOutput message))
      | ItemEof | ItemNone => Done (Ok None)
      end
  end.

Definition scan_err {A} (message : string) : outcome (checked A) :=
  Done (Err (MalformedProviderOutput (lit message))).

(** The two fields the scan reads; the others stay opaque. *)
Definition scan_field (field value_raw : str) (schema : bool) (spoken : option SpokenResponseV1)
    : checked (bool * option SpokenResponseV1) :=
  if bool_decide (field = lit "schema_version") then
    version ← malformed (schema_from_str value_raw);
    if bool_decide (version = V1) then Ok (true, spoken)
    else Err (MalformedProviderOutput (lit "unsupported speech-first schema version"))
  else if bool_decide (field = lit "spoken_response") then
    spoken ← malformed (spoken_from_str value_raw); Ok (schema, Some spoken)
  else Ok (schema, spoken).

Fixpoint scan_loop (fuel : nat) (rest : str) (fields : gset str) (schema : bool)
    (spoken : option SpokenResponseV1) : outcome (checked SpeechFirstEnvelopeScan) :=
  match fuel with
  | O => OutOfFuel
  | S fuel =>
      let progress := Done (Ok (speech_first_scan_progress schema spoken)) in
      match skip_json_whitespace rest with
      | [] => progress
      | (next :: after_next) as rest =>
          if next =? 125 then
            if negb (str_is_empty (skip_json_whitespace after_next))
            then scan_err "speech-first response has trailing provider output" else
            if negb schema || is_none spoken
            then scan_err "speech-first response omitted a required field" else
            Done (Ok {| sc_spoken_response := spoken; sc_complete := true |})
          else
          name ← parse_complete_json_value first_string rest;
          match name with
          | Err e => Done (Err e)
          | Ok None => progress
          | Ok (Some (field, _, rest)) =>
              match skip_json_whitespace rest with
              | [] => progress
              | colon :: rest =>
                  if negb (colon =? 58)
                  then scan_err "speech-first response field is missing its colon" else
                  if bool_decide (field ∈ fields)
                  then Done (Err (MalformedProviderOutput (lit "duplicate response field: " ++ field)))
                  else
                  let fields := {[field]} ∪ fields in
                  if negb (bool_decide (field ∈ TOP_LEVEL_FIELDS))
                  then Done (Err (UnsupportedField field)) else
                  value ← parse_complete_json_value first_value (skip_json_whitespace rest);
                  match value with
                  | Err e => Done (Err e)
                  | Ok None => progress
                  | Ok (Some (_, value_raw, rest)) =>
                      match scan_field field value_raw schema spoken with
                      | Err e => Done (Err e)
                      | Ok (schema, spoken) =>
                          match skip_json_whitespace rest with
                          | [] => Done (Ok {| sc_spoken_response := None; sc_complete := false |})
                          | (delimiter :: after) as rest =>
                              if delimiter =? 44 then scan_loop fuel after fields schema spoken
                              else if delimiter =? 125
                              then scan_loop fuel rest fields schema spoken
                              else scan_err
                                "speech-first response fields require a comma or object terminator"
                          end
                      end
                  end
              end
          end
      end
  end.

(** Each turn of the loop consumes a field name, so one more than the length of
    the buffer is enough fuel. *)
Definition scan_speech_first_envelope (raw : str) : outcome (checked SpeechFirstEnvelopeScan) :=
  match skip_json_whitespace raw with
  | [] => Done (Ok {| sc_spoken_response := None; sc_complete := false |})
  | c :: rest =>
      if c =? 123 then scan_loop (S (length raw)) rest ∅ false None
      else scan_err "speech-first response must start with a JSON object"
  end.

(** ** The adapter *)

Inductive StreamingResponseFormatV1 := StructuredV1 | StructuredSpeechFirstV1 | LegacyPlainText.
#[local] Instance StreamingResponseFormatV1_eq_dec : EqDecision StreamingResponseFormatV1.
Proof using. solve_decision. Defined.

Inductive StreamingAdapterState := AdapterActive | AdapterCancelled | AdapterFinalized.
#[local] Instance StreamingAdapterState_eq_dec : EqDecision StreamingAdapterState.
Proof using. solve_decision. Defined.

Inductive StreamingResponseError :=
| StaleGeneration (expected received : Z)
| AdapterClosed
| NonMonotonicSequence (previous received : Z)
| UnsupportedRouteFormat (value : str)
| InvalidResponse (error : ResponseValidationError).

(** The [Display] of a streaming error. *)
Definition streaming_error_text (error : StreamingResponseError) : str :=
  match error with
  | StaleGeneration expected received =>
      lit "stale cancellation generation: expected " ++ dec expected ++ lit ", received " ++ dec received
  | AdapterClosed => lit "response adapter is no longer accepting provider output"
  | NonMonotonicSequence previous received =>
      lit "provider delta sequence did not advance beyond " ++ dec previous ++ lit ": " ++ dec received
  | UnsupportedRouteFormat value => lit "unsupported response route format: " ++ value
  | InvalidResponse error => response_error_text error
  end.

Abbreviation streamed A := (result StreamingResponseError A) (only parsing).

(** [StreamingResponseFormatV1::from_route_metadata]. *)
Definition from_route_metadata (metadata : gmap str str)
    : streamed (option StreamingResponseFormatV1) :=
  match metadata !! lit "npc_response_format" with
  | Some value =>
      if str_eqb value (lit "structured_v1") then Ok (Some StructuredV1) else
      if str_eqb value (lit "structured_speech_first_v1") then Ok (Some StructuredSpeechFirstV1) else
      if str_eqb value (lit "legacy_plain_text") then Ok (Some LegacyPlainText) else
      Err (UnsupportedRouteFormat value)
  | None => Ok None
  end.

Record FinalizedStreamingResponseV1 := {
  fs_response : NpcResponseEnvelopeV1;
  fs_format : StreamingResponseFormatV1;
  fs_ready_sentences : list SentenceSpan;
  fs_all_sentences : list SentenceSpan
}.

Record StreamingResponseAdapterV1 := {
  sa_format : StreamingResponseFormatV1;
  sa_policy : ResponseValidationPolicy;
  sa_sentence_config : SentenceSegmenterConfig;
  sa_sentence_segmenter : option SentenceSegmenter;
  sa_cancellation_generation : Z;
  sa_state : StreamingAdapterState;
  sa_last_sequence : option Z;
  sa_provider_buffer : str;
  sa_released_sentences : list SentenceSpan;
  sa_speech_first_spoken_text : option str
}.

(** [None] is the panic of the segmenter's constructor. *)
Definition adapter_new (format : StreamingResponseFormatV1) (policy : ResponseValidationPolicy)
    (sentence_config : SentenceSegmenterConfig) (generation : Z)
    : option StreamingResponseAdapterV1 :=
  segmenter ← (if bool_decide (format = LegacyPlainText)
               then Some <$> segmenter_new sentence_config else Some None);
  Some {| sa_format := format; sa_policy := policy; sa_sentence_config := sentence_config;
          sa_sentence_segmenter := segmenter; sa_cancellation_generation := generation;
          sa_state := AdapterActive; sa_last_sequence := None; sa_provider_buffer := [];
          sa_released_sentences := []; sa_speech_first_spoken_text := None |}.

Definition released_spoken_text (a : StreamingResponseAdapterV1) : option str :=
  sa_speech_first_spoken_text a.

Definition sa_append (sequence : Z) (delta : str) (a : StreamingResponseAdapterV1)
    : StreamingResponseAdapterV1 := {|
  sa_format := sa_format a; sa_policy := sa_policy a; sa_sentence_config := sa_sentence_config a;
  sa_sentence_segmenter := sa_sentence_segmenter a;
  sa_cancellation_generation := sa_cancellation_generation a; sa_state := sa_state a;
  sa_last_sequence := Some sequence; sa_provider_buffer := sa_provider_buffer a ++ delta;
  sa_released_sentences := sa_released_sentences a;
  sa_speech_first_spoken_text := sa_speech_first_spoken_text a |}.

(** New sentences, with the segmenter and the spoken text that go with them. *)
Definition sa_release (segmenter : option SentenceSegmenter) (spoken : option str)
    (sentences : list SentenceSpan) (a : StreamingResponseAdapterV1)
    : StreamingResponseAdapterV1 := {|
  sa_format := sa_format a; sa_policy := sa_policy a; sa_sentence_config := sa_sentence_config a;
  sa_sentence_segmenter := segmenter;
  sa_cancellation_generation := sa_cancellation_generation a; sa_state := sa_state a;
  sa_last_sequence := sa_last_sequence a; sa_provider_buffer := sa_provider_buffer a;
  sa_released_sentences := sa_released_sentences a ++ sentences;
  sa_speech_first_spoken_text := spoken |}.

Definition sa_set_state (state : StreamingAdapterState) (a : StreamingResponseAdapterV1)
    : StreamingResponseAdapterV1 := {|
  sa_format := sa_format a; sa_policy := sa_policy a; sa_sentence_config := sa_sentence_config a;
  sa_sentence_segmenter := sa_sentence_segmenter a;
  sa_cancellation_generation := sa_cancellation_generation a; sa_state := state;
  sa_last_sequence := sa_last_sequence a; sa_provider_buffer := sa_provider_buffer a;
  sa_released_sentences := sa_released_sentences a;
  sa_speech_first_spoken_text := sa_speech_first_spoken_text a |}.

Definition require_generation (a : StreamingResponseAdapterV1) (observed : Z) : streamed unit :=
  ensure (observed =? sa_cancellation_generation a)
    (StaleGeneration (sa_cancellation_generation a) observed).

Definition require_active_generation (a : StreamingResponseAdapterV1) (observed : Z)
    : streamed unit :=
  _ ← require_generation a observed;
  ensure (bool_decide (sa_state a = AdapterActive)) AdapterClosed.

Definition provider_maximum (a : StreamingResponseAdapterV1) : Z :=
  match sa_format a with
  | LegacyPlainText => Z.min (max_spoken_response_bytes (sa_policy a)) MAX_SPOKEN_RESPONSE_BYTES
  | _ => MAX_PROVIDER_RESPONSE_BYTES
  end.

(** Everything [push_delta] checks before it changes the adapter. *)
Definition push_guard (a : StreamingResponseAdapterV1) (observed sequence : Z) (delta : str)
    : streamed unit :=
  _ ← require_active_generation a observed;
  _ ← match sa_last_sequence a with
      | Some previous => ensure (previous <? sequence) (NonMonotonicSequence previous sequence)
      | None => Ok tt
      end;
  let next_size := str_len (sa_provider_buffer a) + str_len delta in
  _ ← ensure ((next_size <=? u64_max) && (next_size <=? provider_maximum a))
        (InvalidResponse (ProviderOutputTooLarge (provider_maximum a)));
  ensure (negb (bool_decide (sa_format a = LegacyPlainText) && existsb disallowed_control delta))
    (InvalidResponse (InvalidText (lit "spoken response"))).

Abbreviation pushed := (StreamingResponseAdapterV1 * streamed (list SentenceSpan))%type
  (only parsing).

Definition changed_after_release : StreamingResponseError :=
  InvalidResponse (MalformedProviderOutput
    (lit "speech-first spoken response changed after release")).

(** All the sentences of one text. *)
Definition segment_text (config : SentenceSegmenterConfig) (text : str)
    : outcome (list SentenceSpan) :=
  segmenter ← of_panic (segmenter_new config);
  '(_, spans) ← segment_stream segmenter [text];
  Done spans.

(** The speech-first arm of [push_delta]. *)
Definition push_speech_first (a : StreamingResponseAdapterV1) : outcome pushed :=
  scan ← scan_speech_first_envelope (sa_provider_buffer a);
  match scan with
  | Err e => Done (a, Err (InvalidResponse e))
  | Ok scan =>
      match sc_spoken_response scan with
      | None => Done (a, Ok [])
      | Some spoken =>
          match validate_spoken spoken (sa_policy a) with
          | Err e => Done (a, Err (InvalidResponse e))
          | Ok _ =>
              match sa_speech_first_spoken_text a with
              | Some released =>
                  if negb (str_eqb released (sp_text spoken))
                  then Done (a, Err changed_after_release) else Done (a, Ok [])
              | None =>
                  sentences ← segment_text (sa_sentence_config a) (sp_text spoken);
                  Done (sa_release (sa_sentence_segmenter a) (Some (sp_text spoken)) sentences a,
                        Ok sentences)
              end
          end
      end
  end.

Definition push_delta (observed sequence : Z) (delta : str) (a : StreamingResponseAdapterV1)
    : outcome pushed :=
  match push_guard a observed sequence delta with
  | Err e => Done (a, Err e)
  | Ok _ =>
      let a := sa_append sequence delta a in
      match sa_format a with
      | StructuredV1 => Done (a, Ok [])
      | StructuredSpeechFirstV1 => push_speech_first a
      | LegacyPlainText =>
          segmenter ← of_panic (sa_sentence_segmenter a);
          '(segmenter, sentences) ← push_spans segmenter delta;
          Done (sa_release (Some segmenter) (sa_speech_first_spoken_text a) sentences a,
                Ok sentences)
      end
  end.

Abbreviation finalizing :=
  (StreamingResponseAdapterV1 * streamed FinalizedStreamingResponseV1)%type (only parsing).

Definition finalized (a : StreamingResponseAdapterV1) (response : NpcResponseEnvelopeV1)
    (ready all : list SentenceSpan) : finalizing :=
  (sa_set_state AdapterFinalized a,
   Ok {| fs_response := response; fs_format := sa_format a; fs_ready_sentences := ready;
         fs_all_sentences := all |}).

Definition finish_speech_first (a : StreamingResponseAdapterV1) : outcome finalizing :=
  scan ← scan_speech_first_envelope (sa_provider_buffer a);
  match scan with
  | Err e => Done (a, Err (InvalidResponse e))
  | Ok scan =>
      if negb (sc_complete scan)
      then Done (a, Err (InvalidResponse (MalformedProviderOutput
        (lit "speech-first response ended before the top-level object closed")))) else
      match sa_speech_first_spoken_text a with
      | None => Done (a, Err (InvalidResponse (MalformedProviderOutput
          (lit "speech-first response omitted its required validated fields"))))
      | Some released =>
          match from_json_strict (sa_provider_buffer a) (sa_policy a) with
          | Err e => Done (a, Err (InvalidResponse e))
          | Ok response =>
              if negb (str_eqb released (sp_text (en_spoken_response response)))
              then Done (a, Err changed_after_release)
              else Done (finalized a response [] (sa_released_sentences a))
          end
      end
  end.

Definition adapter_finish (observed : Z) (a : StreamingResponseAdapterV1) : outcome finalizing :=
  match require_active_generation a observed with
  | Err e => Done (a, Err e)
  | Ok _ =>
      match sa_format a with
      | StructuredV1 =>
          match from_json_strict (sa_provider_buffer a) (sa_policy a) with
          | Err e => Done (a, Err (InvalidResponse e))
          | Ok response =>
              sentences ← segment_text (sa_sentence_config a)
                (sp_text (en_spoken_response response));
              Done (finalized a response sentences sentences)
          end
      | StructuredSpeechFirstV1 => finish_speech_first a
      | LegacyPlainText =>
          let response := plain_text (sa_provider_buffer a) in
          match envelope_validate_response response (sa_policy a) with
          | Err e => Done (a, Err (InvalidResponse e))
          | Ok _ =>
              segmenter ← of_panic (sa_sentence_segmenter a);
              '(segmenter, ready) ← finish_spans segmenter;
              let a := sa_release (Some segmenter) (sa_speech_first_spoken_text a) ready a in
              Done (finalized a response ready (sa_released_sentences a))
          end
      end
  end.

Definition adapter_cancel (observed : Z) (a : StreamingResponseAdapterV1)
    : StreamingResponseAdapterV1 * streamed unit :=
  match require_generation a observed with
  | Err e => (a, Err e)
  | Ok _ =>
      match sa_state a with
      | AdapterActive =>
          ({| sa_format := sa_format a; sa_policy := sa_policy a;
              sa_sentence_config := sa_sentence_config a; sa_sentence_segmenter := None;
              sa_cancellation_generation := sa_cancellation_generation a;
              sa_state := AdapterCancelled; sa_last_sequence := sa_last_sequence a;
              sa_provider_buffer := []; sa_released_sentences := sa_released_sentences a;
              sa_speech_first_spoken_text := sa_speech_first_spoken_text a |}, Ok tt)
      | AdapterCancelled => (a, Ok tt)
      | AdapterFinalized => (a, Err AdapterClosed)
      end
  end.
End response.

#[export] Existing Instance StreamingResponseFormatV1_eq_dec.
#[export] Existing Instance StreamingAdapterState_eq_dec.
