(* ===== verification/ResponseSpec.v ===== *)
(** * What the response decoders promise

    The isolating decoder keeps valid speech whatever the other fields hold; the
    speech-first scan always returns; and the streaming adapter releases only exact
    sentences of the response it finally accepts.

    At the end, the theorems on concrete responses. *)

From S2P Require Import Prelude Text Float Policy Sentence SentenceSpec Response ResponseStream.

#[local] Open Scope Z_scope.

#[local] Arguments push_spans : simpl never.
#[local] Arguments finish_spans : simpl never.
#[local] Arguments segment_text : simpl never.

Section response.
Context `{JsonApi}.

(** ** Isolation *)

(** What a proposal field decodes to, and what is reported of it: an absent field is
    neutral, a field that decodes to a valid value is kept, and of any other the neutral
    value is taken and the subsystem reported with the reason. *)
Inductive isolated_field {A} (from_value : json → result str A) (object : gmap str json)
    (field subsystem : str) (neutral : A) (validate : A → result ResponseValidationError unit)
    : A → list ProviderResponseIssue → Prop :=
| field_absent :
    object !! field = None →
    isolated_field from_value object field subsystem neutral validate neutral []
| field_kept value decoded :
    object !! field = Some value → from_value value = Ok decoded → validate decoded = Ok tt →
    isolated_field from_value object field subsystem neutral validate decoded []
| field_invalid value decoded error :
    object !! field = Some value → from_value value = Ok decoded → validate decoded = Err error →
    isolated_field from_value object field subsystem neutral validate neutral
      [OptionalSubsystemNeutralized subsystem (response_error_text error)]
| field_malformed value error :
    object !! field = Some value → from_value value = Err error →
    isolated_field from_value object field subsystem neutral validate neutral
      [OptionalSubsystemNeutralized subsystem error].

Lemma decode_isolated_default_spec {A} (from_value : json → result str A) object field subsystem
    issues neutral validate a issues' :
  decode_isolated_default from_value object field subsystem issues neutral validate = (a, issues') →
  ∃ report, issues' = issues ++ report ∧
    isolated_field from_value object field subsystem neutral validate a report.
Proof using.
  unfold decode_isolated_default. intros E.
  destruct (object !! field) as [value|] eqn:Ho.
  2: { simplify_eq. exists []. by rewrite app_nil_r; split; [|constructor]. }
  destruct (from_value value) as [decoded|error] eqn:Hd.
  2: { simplify_eq. eexists. split; [done|]. by eapply field_malformed. }
  destruct (validate decoded) as [[]|error] eqn:Hv; simplify_eq.
  - exists []. rewrite app_nil_r. split; [done|]. by eapply field_kept.
  - eexists. split; [done|]. by eapply field_invalid.
Qed.

Lemma isolated_field_valid {A} (from_value : json → result str A) object field subsystem neutral
    validate a report :
  isolated_field from_value object field subsystem neutral validate a report →
  validate neutral = Ok tt → validate a = Ok tt.
Proof using. by destruct 1. Qed.

(** The emotion is optional: [null] is an absent one. *)
Inductive isolated_emotion (object : gmap str json)
    : option EmotionStateV1 → list ProviderResponseIssue → Prop :=
| emotion_absent :
    object !! lit "emotion" = None → isolated_emotion object None []
| emotion_null value :
    object !! lit "emotion" = Some value → json_is_null value = true →
    isolated_emotion object None []
| emotion_kept value emotion :
    object !! lit "emotion" = Some value → json_is_null value = false →
    emotion_from_value value = Ok emotion → validate_emotion emotion = Ok tt →
    isolated_emotion object (Some emotion) []
| emotion_invalid value emotion error :
    object !! lit "emotion" = Some value → json_is_null value = false →
    emotion_from_value value = Ok emotion → validate_emotion emotion = Err error →
    isolated_emotion object None
      [OptionalSubsystemNeutralized (lit "emotion") (response_error_text error)]
| emotion_malformed value error :
    object !! lit "emotion" = Some value → json_is_null value = false →
    emotion_from_value value = Err error →
    isolated_emotion object None [OptionalSubsystemNeutralized (lit "emotion") error].

Lemma decode_isolated_emotion_spec object issues a issues' :
  decode_isolated_optional emotion_from_value object (lit "emotion") (lit "emotion") issues
    validate_emotion = (a, issues') →
  ∃ report, issues' = issues ++ report ∧ isolated_emotion object a report.
Proof using.
  unfold decode_isolated_optional. intros E.
  destruct (object !! lit "emotion") as [value|] eqn:Ho.
  2: { simplify_eq. exists []. by rewrite app_nil_r; split; [|constructor]. }
  destruct (json_is_null value) eqn:Hnull.
  { simplify_eq. exists []. rewrite app_nil_r. split; [done|]. by eapply emotion_null. }
  destruct (emotion_from_value value) as [decoded|error] eqn:Hd.
  2: { simplify_eq. eexists. split; [done|]. by eapply emotion_malformed. }
  destruct (validate_emotion decoded) as [[]|error] eqn:Hv; simplify_eq.
  - exists []. rewrite app_nil_r. split; [done|]. by eapply emotion_kept.
  - eexists. split; [done|]. by eapply emotion_invalid.
Qed.

(** The fields of the object that no response has, in the order of the object. *)
Definition unknown_fields (object : gmap str json) (unknown : list str) : Prop :=
  StronglySorted (λ x y, ocmp x y = Lt) unknown ∧
  ∀ field, field ∈ unknown ↔ is_Some (object !! field) ∧ field ∉ TOP_LEVEL_FIELDS.

Lemma unsupported_unknown object : unknown_fields object (unsupported_top_level_fields object).
Proof using.
  unfold unknown_fields, unsupported_top_level_fields. fold (btree_keys object). split.
  - apply strongly_sorted_filter, btree_keys_sorted.
  - intros field. rewrite filter_elem, btree_keys_elem, negb_true_iff, bool_decide_eq_false.
    tauto.
Qed.

(** The bounds of a policy are unsigned. *)
Definition policy_typed (policy : ResponseValidationPolicy) : Prop :=
  0 ≤ max_animation_cues policy ∧ 0 ≤ max_memory_proposals policy ∧ 0 ≤ max_actions policy.

Lemma neutral_valid policy :
  policy_typed policy →
  validate_voice_style voice_style_default = Ok tt ∧ validate_animation [] policy = Ok tt ∧
  validate_memory [] policy = Ok tt ∧ validate_interruption BargeInAllowed policy = Ok tt ∧
  validate_actions [] policy = Ok tt.
Proof using.
  intros (H1&H2&H3). unfold validate_animation, validate_memory, validate_actions.
  rewrite !bind_unit_Ok, !bounded_count_Ok. split; [by vm_compute|]. by split_and!.
Qed.

(** C6: one malformed proposal never costs the speech. Whatever the other fields of a
    structured response hold, if the schema and the spoken response decode and the
    speech is valid, decoding succeeds with exactly that speech; each proposal field
    is its decoded value when that is valid and otherwise neutral, and the whole
    result satisfies the policy. What was wrong is reported, and nothing else: first the
    unknown fields of the object, then one issue for each field that was neutralized,
    with the reason, in the order of the fields. *)
Theorem decode_isolates_speech policy raw value object schema spoken :
  policy_typed policy →
  json_from_str raw = Ok value → json_as_object value = Some object →
  decode_required schema_from_value object (lit "schema_version") = Ok schema →
  decode_required spoken_from_value object (lit "spoken_response") = Ok spoken →
  validate_spoken spoken policy = Ok tt →
  ∃ d unknown emotion style animation memory interruption actions,
    decode_structured_with_isolation policy raw = Ok d ∧
    let r := dn_response d in
    en_spoken_response r = spoken ∧ en_schema_version r = schema ∧
    envelope_validate_response r policy = Ok tt ∧
    dn_issues d = (UnsupportedTopLevelField <$> unknown) ++
      emotion ++ style ++ animation ++ memory ++ interruption ++ actions ∧
    unknown_fields object unknown ∧
    isolated_emotion object (en_emotion r) emotion ∧
    isolated_field style_from_value object (lit "voice_style") (lit "voice_style")
      voice_style_default validate_voice_style (en_voice_style r) style ∧
    isolated_field cues_from_value object (lit "animation_cues") (lit "animation") []
      (λ v, validate_animation v policy) (en_animation_cues r) animation ∧
    isolated_field memory_from_value object (lit "memory_proposals") (lit "memory") []
      (λ v, validate_memory v policy) (en_memory_proposals r) memory ∧
    isolated_field interruption_from_value object (lit "interruption_behavior")
      (lit "interruption") BargeInAllowed
      (λ v, validate_interruption v policy) (en_interruption_behavior r) interruption ∧
    isolated_field actions_from_value object (lit "actions") (lit "actions") []
      (λ v, validate_actions v policy) (en_actions r) actions.
Proof using.
  intros (N1&N2&N3&N4&N5)%neutral_valid Hj Ho Hschema Hspoken Hv.
  unfold decode_structured_with_isolation. rewrite Hj. cbn [malformed mbind result_bind].
  rewrite Ho. cbn [ok_or mbind result_bind]. rewrite Hschema. cbn [mbind result_bind].
  rewrite Hspoken. cbn [mbind result_bind]. rewrite Hv. cbn [mbind result_bind].
  destruct (decode_isolated_optional _ _ _ _ _ _) as [emotion i1] eqn:E1.
  destruct (decode_isolated_default style_from_value _ _ _ _ _ _) as [style i2] eqn:E2.
  destruct (decode_isolated_default cues_from_value _ _ _ _ _ _) as [cues i3] eqn:E3.
  destruct (decode_isolated_default memory_from_value _ _ _ _ _ _) as [memory i4] eqn:E4.
  destruct (decode_isolated_default interruption_from_value _ _ _ _ _ _) as [interruption i5] eqn:E5.
  destruct (decode_isolated_default actions_from_value _ _ _ _ _ _) as [actions i6] eqn:E6.
  apply decode_isolated_emotion_spec in E1 as (r1&->&I1).
  apply decode_isolated_default_spec in E2 as (r2&->&I2), E3 as (r3&->&I3), E4 as (r4&->&I4),
    E5 as (r5&->&I5), E6 as (r6&->&I6).
  match goal with |- context [envelope_validate_response ?r policy] =>
    assert (envelope_validate_response r policy = Ok tt) as Hall end.
  { apply envelope_validate_Ok. constructor; cbn; try done.
    - intros em ->. by inversion I1.
    - by apply isolated_field_valid in I2.
    - by apply isolated_field_valid in I3.
    - by apply isolated_field_valid in I4.
    - by apply isolated_field_valid in I5.
    - by apply isolated_field_valid in I6. }
  rewrite Hall. eexists _, (unsupported_top_level_fields object), r1, r2, r3, r4, r5, r6.
  split; [reflexivity|]. cbn. split_and!; try done; [by rewrite <-!app_assoc|apply unsupported_unknown].
Qed.

(** ** The scan returns *)

Lemma trim_start_by_le p (s : str) : (length (trim_start_by p s) ≤ length s)%nat.
Proof using. induction s as [|c s IH]; cbn; [lia|]. case_match; cbn; lia. Qed.

(** A stream parser that respects the offset law. *)
Definition offsets_ok {A} (first : str → stream_item A) : Prop :=
  ∀ s v n, first s = ItemValue v n → ∃ a b, s = a ++ b ∧ a ≠ [] ∧ n = str_len a.

Lemma parse_complete_total {A} (first : str → stream_item A) rest :
  offsets_ok first →
  ∃ r, parse_complete_json_value first rest = Done r ∧
    ∀ v raw after, r = Ok (Some (v, raw, after)) →
      rest = raw ++ after ∧ (length after < length rest)%nat.
Proof using.
  intros Hoff. unfold parse_complete_json_value. destruct rest as [|c rest]; [by eexists|].
  destruct (first (c :: rest)) as [v n|message| |] eqn:E; [|by eexists..].
  apply Hoff in E as (a&b&Heq&Hne&->). rewrite Heq, split_at_byte_app. cbn.
  eexists. split; [done|]. intros ? ? ? [= <- <- <-]. split; [done|].
  rewrite length_app. destruct a; cbn; [done|lia].
Qed.

Lemma scan_loop_total fuel rest fields schema spoken :
  (length rest < fuel)%nat → ∃ r, scan_loop fuel rest fields schema spoken = Done r.
Proof using.
  revert rest fields schema spoken. induction fuel as [|fuel IH]; intros rest fields schema spoken Hf;
    [lia|]. cbn [scan_loop]. pose proof (trim_start_by_le is_json_whitespace rest) as Hws.
  fold (skip_json_whitespace rest) in Hws.
  destruct (skip_json_whitespace rest) as [|next after_next]; [by eexists|].
  destruct (next =? 125); [destruct (negb _); [by eexists|]; destruct (_ || _); by eexists|].
  destruct (parse_complete_total first_string (next :: after_next) first_string_offset)
    as (name&->&Hname). cbn [mbind outcome_bind].
  destruct name as [[[[field raw] rest1]|]|]; [|by eexists..].
  destruct (Hname _ _ _ eq_refl) as [_ Hlt1]. cbn in Hws, Hlt1.
  pose proof (trim_start_by_le is_json_whitespace rest1) as Hws1.
  fold (skip_json_whitespace rest1) in Hws1.
  destruct (skip_json_whitespace rest1) as [|colon rest2]; [by eexists|]. cbn in Hws1.
  destruct (negb (colon =? 58)); [by eexists|]. case_bool_decide; [by eexists|].
  destruct (negb _); [by eexists|].
  destruct (parse_complete_total first_value (skip_json_whitespace rest2) first_value_offset)
    as (value&->&Hvalue). cbn [mbind outcome_bind].
  destruct value as [[[[v value_raw] rest3]|]|]; [|by eexists..].
  destruct (Hvalue _ _ _ eq_refl) as [_ Hlt2].
  pose proof (trim_start_by_le is_json_whitespace rest2) as Hws2.
  fold (skip_json_whitespace rest2) in Hws2.
  destruct (scan_field _ _ _ _) as [[schema' spoken']|]; [|by eexists].
  pose proof (trim_start_by_le is_json_whitespace rest3) as Hws3.
  fold (skip_json_whitespace rest3) in Hws3.
  destruct (skip_json_whitespace rest3) as [|delimiter after]; [by eexists|]. cbn in Hws3.
  destruct (delimiter =? 44); [apply IH; lia|].
  destruct (delimiter =? 125); [apply IH; cbn; lia|by eexists].
Qed.

Lemma scan_total raw : ∃ r, scan_speech_first_envelope raw = Done r.
Proof using.
  unfold scan_speech_first_envelope. pose proof (trim_start_by_le is_json_whitespace raw) as Hws.
  fold (skip_json_whitespace raw) in Hws.
  destruct (skip_json_whitespace raw) as [|c rest]; [by eexists|]. cbn in Hws.
  destruct (c =? 123); [|by eexists]. apply scan_loop_total. lia.
Qed.
End response.

(** ** The adapter *)

Section adapter.
Context `{JsonApi}.

Inductive adapter_event :=
| AdapterPush (observed sequence : Z) (delta : str)
| AdapterCancel (observed : Z).

(** The adapter after an event and the sentences the event released. *)
Definition adapter_step (ev : adapter_event) (a : StreamingResponseAdapterV1)
    : outcome (StreamingResponseAdapterV1 * list SentenceSpan) :=
  match ev with
  | AdapterPush observed sequence delta =>
      '(a, r) ← push_delta observed sequence delta a;
      Done (a, match r with Ok sentences => sentences | Err _ => [] end)
  | AdapterCancel observed => Done ((adapter_cancel observed a).1, [])
  end.

Fixpoint adapter_run (events : list adapter_event) (a : StreamingResponseAdapterV1)
    : outcome (StreamingResponseAdapterV1 * list SentenceSpan) :=
  match events with
  | [] => Done (a, [])
  | ev :: events =>
      '(a, out) ← adapter_step ev a;
      '(a, later) ← adapter_run events a;
      Done (a, out ++ later)
  end.

(** What has been released, by format: nothing from a whole envelope, all sentences
    of one text or none speech-first, and the segmenter's stream otherwise. *)
Definition released_ok (a : StreamingResponseAdapterV1) (out : list SentenceSpan) : Prop :=
  match sa_format a with
  | StructuredV1 => out = []
  | StructuredSpeechFirstV1 =>
      match sa_speech_first_spoken_text a with
      | None => out = []
      | Some text => segments text out
      end
  | LegacyPlainText =>
      sa_state a ≠ AdapterCancelled →
      ∃ sg0 sg deltas, segmenter_new (sa_sentence_config a) = Some sg0 ∧
        push_all sg0 deltas = Done (sg, out) ∧ sa_sentence_segmenter a = Some sg ∧
        sa_provider_buffer a = concat deltas
  end.

Record adapter_inv (format : StreamingResponseFormatV1) (policy : ResponseValidationPolicy)
    (generation : Z) (out : list SentenceSpan) (a : StreamingResponseAdapterV1) : Prop := {
  ai_format : sa_format a = format;
  ai_policy : sa_policy a = policy;
  ai_generation : sa_cancellation_generation a = generation;
  ai_released : sa_released_sentences a = out;
  ai_ok : released_ok a out
}.

Lemma push_all_snoc sg deltas delta sg' out sg'' spans :
  push_all sg deltas = Done (sg', out) → push_spans sg' delta = Done (sg'', spans) →
  push_all sg (deltas ++ [delta]) = Done (sg'', out ++ spans).
Proof using.
  revert sg out. induction deltas as [|d deltas IH]; intros sg out; cbn [push_all app].
  - intros [= <- <-] ->. cbn. by rewrite app_nil_r.
  - destruct (push_spans sg d) as [[sg1 s1]| |]; [|done..]. cbn [mbind outcome_bind].
    destruct (push_all sg1 deltas) as [[sg2 s2]| |] eqn:E; [|done..]. cbn [mbind outcome_bind].
    intros [= <- <-] Hp. rewrite (IH _ _ E Hp). cbn. by rewrite app_assoc.
Qed.

Lemma segment_text_segments config text spans :
  segment_text config text = Done spans → segments text spans.
Proof using.
  unfold segment_text. destruct (segmenter_new config) as [sg|] eqn:Hn; [|done].
  cbn [of_panic mbind outcome_bind].
  destruct (segment_stream sg [text]) as [[sg' spans']| |] eqn:Hs; [|done..].
  cbn. intros [= <-]. apply (segment_stream_segments _ _ _ _ _ Hn) in Hs.
  cbn in Hs. by rewrite app_nil_r in Hs.
Qed.

Lemma adapter_new_inv format policy config generation a :
  adapter_new format policy config generation = Some a →
  adapter_inv format policy generation [] a ∧ sa_state a = AdapterActive.
Proof using.
  unfold adapter_new. intros E.
  destruct (if bool_decide _ then _ else _) as [segmenter|] eqn:Hs; [|done].
  cbn in E. injection E as <-. split; [|done]. constructor; try done. unfold released_ok. cbn.
  destruct format; [done..|]. intros _. rewrite bool_decide_true in Hs by done.
  destruct (segmenter_new config) as [sg|] eqn:Hn; [|done]. cbn in Hs. injection Hs as <-.
  by exists sg, sg, [].
Qed.

(** A push that passes its guard finds the adapter active. *)
Lemma push_guard_active a observed sequence delta :
  push_guard a observed sequence delta = Ok tt →
  observed = sa_cancellation_generation a ∧ sa_state a = AdapterActive.
Proof using.
  unfold push_guard, require_active_generation, require_generation.
  rewrite !bind_unit_Ok, !ensure_Ok. intros ((Hg&Hs)&_). split; [lia|].
  by apply bool_decide_eq_true in Hs.
Qed.

Lemma push_speech_first_inv policy generation out a a' r :
  push_speech_first a = Done (a', r) → adapter_inv StructuredSpeechFirstV1 policy generation out a →
  adapter_inv StructuredSpeechFirstV1 policy generation
    (out ++ match r with Ok sentences => sentences | Err _ => [] end) a'.
Proof using.
  intros E Hinv. pose proof Hinv as [Hf Hp Hg Hr Hok]. unfold released_ok in Hok. rewrite Hf in Hok.
  unfold push_speech_first in E.
  destruct (scan_speech_first_envelope _) as [scan| |]; [|done..]. cbn [mbind outcome_bind] in E.
  assert (∀ e, Done (a, Err e) = Done (a', r) → adapter_inv StructuredSpeechFirstV1 policy generation
    (out ++ match r with Ok sentences => sentences | Err _ => [] end) a') as Herr.
  { intros e [= <- <-]. by rewrite app_nil_r. }
  destruct scan as [scan|]; [|by eapply Herr].
  destruct (sc_spoken_response scan) as [spoken|]; [|injection E as <- <-; by rewrite app_nil_r].
  destruct (validate_spoken spoken _) as [[]|]; [|by eapply Herr].
  destruct (sa_speech_first_spoken_text a) as [released|].
  - destruct (negb _); [by eapply Herr|]. injection E as <- <-. by rewrite app_nil_r.
  - destruct (segment_text _ _) as [sentences| |] eqn:Hs; [|done..]. cbn in E. injection E as <- <-.
    apply segment_text_segments in Hs. rewrite Hok in Hr |- *. cbn [app].
    constructor; cbn; [done..|by rewrite Hr|]. unfold released_ok. cbn. by rewrite Hf.
Qed.

Lemma push_delta_inv format policy generation out a observed sequence delta a' r :
  push_delta observed sequence delta a = Done (a', r) → adapter_inv format policy generation out a →
  adapter_inv format policy generation
    (out ++ match r with Ok sentences => sentences | Err _ => [] end) a'.
Proof using.
  intros E H1. unfold push_delta in E.
  destruct (push_guard a observed sequence delta) as [[]|] eqn:Hg.
  2: { injection E as <- <-. by rewrite app_nil_r. }
  apply push_guard_active in Hg as [_ Hst]. destruct H1 as [Hf Hp Hgen Hr Hok].
  unfold released_ok in Hok. rewrite Hf in Hok. change (sa_format (sa_append _ _ a)) with (sa_format a) in E.
  rewrite Hf in E. destruct format.
  - injection E as <- <-. rewrite app_nil_r. constructor; try done. unfold released_ok. cbn. by rewrite Hf.
  - apply (push_speech_first_inv policy generation out) in E; [done|].
    constructor; try done. unfold released_ok. cbn. by rewrite Hf.
  - destruct Hok as (sg0&sg&deltas&Hnew&Hall&Hseg&Hbuf); [by rewrite Hst|].
    cbn in E. rewrite Hseg in E. cbn [of_panic mbind outcome_bind] in E.
    destruct (push_spans sg delta) as [[sg' spans]| |] eqn:Hpush; [|done..]. cbn in E.
    injection E as <- <-. constructor; cbn; [done..|by rewrite Hr|]. unfold released_ok. cbn.
    rewrite Hf. intros _. exists sg0, sg', (deltas ++ [delta]). split; [done|].
    split; [by eapply push_all_snoc|]. split; [done|]. rewrite Hbuf, concat_app. cbn. by rewrite app_nil_r.
Qed.

Lemma adapter_cancel_inv format policy generation out a observed :
  adapter_inv format policy generation out a →
  adapter_inv format policy generation out (adapter_cancel observed a).1.
Proof using.
  intros H1. unfold adapter_cancel. destruct (require_generation a observed); [|done].
  destruct (sa_state a); [|done..]. destruct H1 as [Hf Hp Hgen Hr Hok]. unfold released_ok in Hok.
  constructor; cbn; try done. unfold released_ok. cbn. by destruct (sa_format a).
Qed.

Lemma adapter_run_inv format policy generation events out a a' later :
  adapter_run events a = Done (a', later) → adapter_inv format policy generation out a →
  adapter_inv format policy generation (out ++ later) a'.
Proof using.
  revert out a later. induction events as [|ev events IH]; intros out a later; cbn [adapter_run].
  { intros [= <- <-]. by rewrite app_nil_r. }
  intros E H1. destruct (adapter_step ev a) as [[a1 o1]| |] eqn:E1; [|done..].
  cbn [mbind outcome_bind] in E. destruct (adapter_run events a1) as [[a2 o2]| |] eqn:E2; [|done..].
  cbn in E. injection E as <- <-. rewrite app_assoc. apply (IH _ _ _ E2).
  destruct ev as [observed sequence delta|observed]; cbn [adapter_step] in E1.
  - destruct (push_delta observed sequence delta a) as [[a3 r]| |] eqn:E3; [|done..].
    cbn in E1. injection E1 as <- <-. by eapply push_delta_inv.
  - injection E1 as <- <-. rewrite app_nil_r. by apply adapter_cancel_inv.
Qed.

Lemma from_json_strict_ok raw policy r :
  from_json_strict raw policy = Ok r → envelope_validate_response r policy = Ok tt.
Proof using.
  unfold from_json_strict. rewrite bind_unit_Ok. intros [_ E].
  apply bind_Ok in E as (value&_&E). apply bind_Ok in E as (object&_&E).
  destruct (unsupported_top_level_fields object); [|done].
  apply bind_Ok in E as (r'&_&E). apply bind_unit_Ok in E as [Hv E]. by injection E as <-.
Qed.

(** What a finished adapter hands over. *)
Lemma adapter_finish_ok format policy generation out a a' observed f :
  adapter_finish observed a = Done (a', Ok f) → adapter_inv format policy generation out a →
  fs_format f = format ∧ out ++ fs_ready_sentences f = fs_all_sentences f ∧
  segments (sp_text (en_spoken_response (fs_response f))) (fs_all_sentences f) ∧
  envelope_validate_response (fs_response f) policy = Ok tt ∧
  sa_state a' = AdapterFinalized ∧ sa_cancellation_generation a' = generation.
Proof using.
  intros E [Hf Hp Hgen Hr Hok]. unfold adapter_finish in E.
  destruct (require_active_generation a observed) as [[]|] eqn:Hact; [|done].
  unfold require_active_generation in Hact. rewrite bind_unit_Ok, ensure_Ok in Hact.
  destruct Hact as [_ Hst]. apply bool_decide_eq_true in Hst.
  unfold released_ok in Hok. rewrite Hf in E, Hok. destruct format.
  - destruct (from_json_strict _ _) as [response|] eqn:Hj; [|done].
    destruct (segment_text _ _) as [sentences| |] eqn:Hs; [|done..]. cbn in E.
    injection E as <- <-. cbn. rewrite Hok. apply segment_text_segments in Hs.
    apply from_json_strict_ok in Hj. rewrite Hp in Hj. by rewrite Hf.
  - unfold finish_speech_first in E. destruct (scan_speech_first_envelope _) as [[scan|]| |]; [|done..].
    cbn [mbind outcome_bind] in E. destruct (negb (sc_complete scan)); [done|].
    destruct (sa_speech_first_spoken_text a) as [released|]; [|done].
    destruct (from_json_strict _ _) as [response|] eqn:Hj; [|done].
    unfold str_eqb in E. case_bool_decide as Heq; [|done]. cbn in E. injection E as <- <-. cbn.
    apply from_json_strict_ok in Hj. rewrite Hp in Hj. rewrite Hr, app_nil_r, <-Heq. by rewrite Hf.
  - destruct (envelope_validate_response _ _) as [[]|] eqn:Hv; [|done].
    destruct Hok as (sg0&sg&deltas&Hnew&Hall&Hseg&Hbuf); [by rewrite Hst|].
    rewrite Hseg in E. cbn [of_panic mbind outcome_bind] in E.
    destruct (finish_spans sg) as [[sg' ready]| |] eqn:Hfin; [|done..]. cbn in E.
    injection E as <- <-. cbn. rewrite Hf, Hr, Hp in *. split; [done|]. split; [done|].
    split; [|done]. rewrite Hbuf. apply (segment_stream_segments _ _ sg' _ _ Hnew).
    unfold segment_stream. rewrite Hall. cbn [mbind outcome_bind]. rewrite Hfin. done.
Qed.

(** The text the sentences released so far are spans of. *)
Definition partial_text (a : StreamingResponseAdapterV1) : str :=
  match sa_format a with
  | LegacyPlainText => sa_provider_buffer a
  | StructuredSpeechFirstV1 => default [] (released_spoken_text a)
  | StructuredV1 => []
  end.

Lemma released_within format policy generation out a :
  adapter_inv format policy generation out a → sa_state a = AdapterActive →
  spans_within (partial_text a) out.
Proof using.
  intros [Hf Hp Hgen Hr Hok] Hst. unfold released_ok in Hok. unfold partial_text.
  assert (spans_within [] []) as Hnil by (split; [constructor|by cbn]).
  destruct (sa_format a); [by rewrite Hok|..].
  - unfold released_spoken_text. destruct (sa_speech_first_spoken_text a); [|by rewrite Hok].
    by apply segments_within.
  - destruct Hok as (sg0&sg&deltas&Hnew&Hall&_&->); [by rewrite Hst|].
    by eapply push_all_within.
Qed.

(** What a push leaves as it is, and the text it adds. *)
Lemma push_delta_shape observed sequence delta a a' r :
  push_delta observed sequence delta a = Done (a', r) →
  sa_state a' = sa_state a ∧
  (sa_format a = LegacyPlainText →
   sa_provider_buffer a' = sa_provider_buffer a ++ if is_ok r then delta else []).
Proof using.
  unfold push_delta. destruct (push_guard a observed sequence delta) as [[]|].
  2: { intros [= <- <-]. split; [done|]. intros _. by rewrite app_nil_r. }
  change (sa_format (sa_append sequence delta a)) with (sa_format a).
  destruct (sa_format a).
  - by intros [= <- <-].
  - intros E. split; [|done]. unfold push_speech_first in E.
    destruct (scan_speech_first_envelope _) as [scan| |]; [|done..]. cbn [mbind outcome_bind] in E.
    destruct scan as [scan|]; [|by simplify_eq].
    destruct (sc_spoken_response scan) as [spoken|]; [|by simplify_eq].
    destruct (validate_spoken spoken _); [|by simplify_eq].
    change (sa_speech_first_spoken_text (sa_append sequence delta a))
      with (sa_speech_first_spoken_text a) in E.
    destruct (sa_speech_first_spoken_text a); [destruct (negb _); by simplify_eq|].
    destruct (segment_text _ _); [|done..]. cbn in E. by simplify_eq.
  - intros E. change (sa_sentence_segmenter (sa_append sequence delta a))
      with (sa_sentence_segmenter a) in E.
    destruct (sa_sentence_segmenter a); [|done]. cbn [of_panic mbind outcome_bind] in E.
    destruct (push_spans _ delta) as [[sg spans]| |]; [|done..]. cbn in E. by injection E as <- <-.
Qed.

Lemma adapter_finish_shape observed a a' r :
  adapter_finish observed a = Done (a', r) →
  match r with
  | Ok f => sa_format a = LegacyPlainText →
      sp_text (en_spoken_response (fs_response f)) = sa_provider_buffer a
  | Err _ => a' = a
  end.
Proof using.
  unfold adapter_finish. destruct (require_active_generation a observed); [|by intros [= <- <-]].
  destruct (sa_format a) eqn:Hf.
  - destruct (from_json_strict _ _); [|by intros [= <- <-]].
    destruct (segment_text _ _); [|done..]. by intros [= <- <-].
  - unfold finish_speech_first. destruct (scan_speech_first_envelope _) as [[scan|]| |];
      cbn [mbind outcome_bind]; [|by intros [= <- <-]|done..].
    destruct (negb _); [by intros [= <- <-]|].
    destruct (sa_speech_first_spoken_text a); [|by intros [= <- <-]].
    destruct (from_json_strict _ _); [|by intros [= <- <-]].
    destruct (negb _); by intros [= <- <-].
  - destruct (envelope_validate_response _ _); [|by intros [= <- <-]].
    destruct (sa_sentence_segmenter a); [|done]. cbn [of_panic mbind outcome_bind].
    destruct (finish_spans _) as [[sg spans]| |]; [|done..]. by intros [= <- <-].
Qed.

(** the sentences a streamed response releases are exact. For every format and
    every sequence of deltas and cancellations: a whole-envelope route releases
    nothing before the end; a speech-first route releases nothing, or all sentences
    of one text; and when the stream is finished, the sentences released so far
    followed by the new ones are all the sentences of the accepted response, each an
    exact slice of its spoken text, in order, with every visible character of it;
    that response satisfies the policy, and nothing is accepted afterwards. *)
Theorem released_sentences_exact format policy config generation a events a' out :
  adapter_new format policy config generation = Some a →
  adapter_run events a = Done (a', out) →
  (format = StructuredV1 → out = []) ∧
  (format = StructuredSpeechFirstV1 → match released_spoken_text a' with
     | None => out = [] | Some text => segments text out end) ∧
  ∀ observed a'' f, adapter_finish observed a' = Done (a'', Ok f) →
    fs_format f = format ∧ out ++ fs_ready_sentences f = fs_all_sentences f ∧
    segments (sp_text (en_spoken_response (fs_response f))) (fs_all_sentences f) ∧
    envelope_validate_response (fs_response f) policy = Ok tt ∧
    ∀ sequence delta, push_delta generation sequence delta a'' = Done (a'', Err AdapterClosed).
Proof using.
  intros [Hinv _]%adapter_new_inv Hrun. apply (adapter_run_inv _ _ _ _ _ _ _ _ Hrun) in Hinv.
  cbn [app] in Hinv. pose proof Hinv as [Hf Hp Hg Hr Hok]. unfold released_ok in Hok.
  split; [intros ->; by rewrite Hf in Hok|]. split; [intros ->; by rewrite Hf in Hok|].
  intros observed a'' f E.
  destruct (adapter_finish_ok _ _ _ _ _ _ _ _ E Hinv) as (?&?&?&?&Hst&Hg''). do 4 (split; [done|]).
  intros sequence delta. unfold push_delta, push_guard, require_active_generation, require_generation.
  rewrite Hg'', Z.eqb_refl, Hst. done.
Qed.
End adapter.

(** * Concrete responses

    A small JSON reader (strings without escapes, objects without nesting) that
    satisfies the laws of [JsonApi], and the theorems of [ResponseSpec] at concrete
    inputs. *)

#[local] Open Scope Z_scope.

(** JSON with the apostrophe for the double quote. *)
Definition js (s : string) : str := (λ c, if c =? 39 then 34 else c) <$> lit s.

(** The text up to and with [close], and what follows. *)
Fixpoint toy_until (close : char) (s : str) : option (str * str) :=
  match s with
  | [] => None
  | c :: s =>
      if c =? close then Some ([c], s) else
      match toy_until close s with Some (a, b) => Some (c :: a, b) | None => None end
  end.

Lemma toy_until_app close s a b : toy_until close s = Some (a, b) → s = a ++ b.
Proof.
  revert a b. induction s as [|c s IH]; intros a b; cbn; [done|].
  destruct (c =? close); [by intros [= <- <-]|].
  destruct (toy_until close s) as [[a' b']|]; [|done]. intros [= <- <-]. cbn. f_equal. by apply IH.
Qed.

Definition toy_item (close : char) (s : str) : stream_item str :=
  match s with
  | [] => ItemNone
  | o :: s =>
      match toy_until close s with
      | Some (a, _) => ItemValue (o :: a) (len_utf8 o + str_len a)
      | None => ItemEof
      end
  end.

Lemma toy_item_offset close s v n :
  toy_item close s = ItemValue v n → ∃ a b, s = a ++ b ∧ a ≠ [] ∧ n = str_len a.
Proof.
  destruct s as [|o s]; cbn; [done|]. destruct (toy_until close s) as [[a b]|] eqn:E; [|done].
  intros [= <- <-]. apply toy_until_app in E as ->. by exists (o :: a), b.
Qed.

Definition unquote (s : str) : str := trim_by (λ c, c =? 34) s.

Definition toy_string (s : str) : stream_item str :=
  if is_some_and (head s) (λ c, c =? 34) then
    match toy_item 34 s with
    | ItemValue v n => ItemValue (unquote v) n
    | ItemError m => ItemError m | ItemEof => ItemEof | ItemNone => ItemNone
    end
  else ItemError (lit "expected a string").

Definition toy_value (s : str) : stream_item str :=
  if is_some_and (head s) (λ c, c =? 123) then toy_item 125 s else
  if is_some_and (head s) (λ c, c =? 34) then toy_item 34 s else
  ItemError (lit "expected a value").

(** The text of [{'text':'...'}]. *)
Definition toy_spoken (s : str) : result str SpokenResponseV1 :=
  Ok {| sp_text := take (length s - 11) (drop 9 s) |}.

Definition toy_schema (s : str) : result str NpcResponseSchemaVersion :=
  if str_eqb (unquote s) (lit "npc_response.v1") then Ok V1 else Err (lit "unknown variant").

(** The response of the example, with a malformed emotion. *)
Definition demo_raw : str := js
  "{ 'schema_version' : 'npc_response.v1', 'spoken_response' : {'text':'Stay close. Run now!'} }".
Definition demo_spoken : str := js "{'text':'Stay close. Run now!'}".
Definition demo_object : gmap str str := list_to_map
  [(lit "schema_version", js "'npc_response.v1'"); (lit "spoken_response", demo_spoken);
   (lit "emotion", js "'rage'")].
Definition demo_response : NpcResponseEnvelopeV1 := plain_text (lit "Stay close. Run now!").

Definition toy_json : JsonApi.
Proof.
  refine {|
    json := str;
    json_from_str s := Ok s;
    json_as_object s := if str_eqb s demo_raw then Some (delete (lit "emotion") demo_object)
                        else if str_eqb s (lit "emotional") then Some demo_object else None;
    json_is_null s := str_eqb s (lit "null");
    schema_from_str := toy_schema; spoken_from_str := toy_spoken;
    schema_from_value := toy_schema; spoken_from_value := toy_spoken;
    emotion_from_value _ := Err (lit "unknown variant");
    style_from_value _ := Err (lit "unknown variant");
    cues_from_value _ := Ok []; memory_from_value _ := Ok [];
    interruption_from_value _ := Ok BargeInAllowed; actions_from_value _ := Ok [];
    envelope_from_value _ := Ok demo_response;
    first_string := toy_string; first_value := toy_value |}.
  - intros s v n. unfold toy_string. destruct (is_some_and _ _); [|done].
    destruct (toy_item 34 s) as [v' n'| | |] eqn:E; try done. intros [= <- <-].
    by apply toy_item_offset in E.
  - intros s v n. unfold toy_value. destruct (is_some_and _ _); [apply toy_item_offset|].
    destruct (is_some_and _ _); [apply toy_item_offset|done].
Defined.

(** ** Witnesses *)

Lemma decode_isolates_speech_witness : ∃ d,
  decode_structured_with_isolation (H := toy_json) response_policy_default (lit "emotional") = Ok d ∧
  sp_text (en_spoken_response (dn_response d)) = lit "Stay close. Run now!" ∧
  en_emotion (dn_response d) = None ∧
  OptionalSubsystemNeutralized (lit "emotion") (lit "unknown variant") ∈ dn_issues d.
Proof.
  destruct (decode_isolates_speech (H := toy_json) response_policy_default (lit "emotional")
    (lit "emotional") demo_object V1 {| sp_text := lit "Stay close. Run now!" |})
    as (d&unknown&em&st&an&me&inte&ac&Hd&Hs&_&_&Hi&_&He&_).
  - vm_compute. repeat split; discriminate.
  - reflexivity.
  - reflexivity.
  - vm_compute. reflexivity.
  - vm_compute. reflexivity.
  - vm_compute. reflexivity.
  - exists d. split; [exact Hd|]. split; [rewrite Hs; reflexivity|].
    inversion He as [Ho|value Ho Hn|value emotion Ho Hn Hf|value emotion error Ho Hn Hf|
      value error Ho Hn Hf]; [vm_compute in Ho; discriminate Ho| | | |];
      vm_compute in Ho; injection Ho as <-; try discriminate.
    split; [done|]. injection Hf as <-. rewrite Hi. apply elem_of_app. right.
    apply elem_of_app. left. subst em. by apply list_elem_of_here.
Defined.

Definition demo_deltas : list adapter_event :=
  [AdapterPush 7 1 (take 60 demo_raw); AdapterPush 7 1 (lit "late"); AdapterPush 6 2 (lit "stale");
   AdapterPush 7 2 (drop 60 demo_raw)].

Lemma released_sentences_exact_witness : ∃ a a' out,
  adapter_new StructuredSpeechFirstV1 response_policy_default
    sentence_config_default 7 = Some a ∧
  adapter_run (H := toy_json) demo_deltas a = Done (a', out) ∧
  span_text <$> out = [lit "Stay close. Run now!"] ∧
  segments (lit "Stay close. Run now!") out.
Proof.
  destruct (adapter_new StructuredSpeechFirstV1 response_policy_default
    sentence_config_default 7) as [a|] eqn:Ea; [|vm_compute in Ea; discriminate Ea].
  destruct (adapter_run (H := toy_json) demo_deltas a) as [[a' out]| |] eqn:Er.
  2, 3: exfalso; revert Er; vm_compute in Ea; injection Ea as <-; vm_compute; discriminate.
  exists a, a', out. split; [reflexivity|]. split; [exact Er|].
  destruct (released_sentences_exact (H := toy_json) _ _ _ _ _ _ _ _ Ea Er) as (_&Hs&_).
  specialize (Hs eq_refl). revert Er Hs. vm_compute in Ea. injection Ea as <-. intros Er Hs.
  assert (released_spoken_text a' = Some (lit "Stay close. Run now!") ∧
    span_text <$> out = [lit "Stay close. Run now!"]) as [Ht Ho].
  { vm_compute in Er. injection Er as <- <-. split; vm_compute; reflexivity. }
  rewrite Ht in Hs. split; [exact Ho|exact Hs].
Defined.

(** ** Valid speech can stop the adapter

    The validator lets eighteen line feeds before the words pass, the segmenter of
    the adapter panics on them: a provider that sends them stops the task of its turn. *)
Lemma valid_speech_panics_adapter :
  let text := repeat 10 18 ++ lit "Hello." in
  validate_spoken {| sp_text := text |} response_policy_default = Ok tt ∧
  segment_text sentence_config_default text = Panic.
Proof. by split; vm_compute. Qed.
