(* ===== verification/Sse.v ===== *)
(** * Server-sent events decoder ([crates/providers-llm/src/sse.rs])

    The incremental decoder of the hosted language-model streams. The main
    theorem is that the result does not depend on how the network cuts the
    stream into chunks. *)

From S2P Require Import Prelude Text Bytes.

#[local] Open Scope Z_scope.

Definition MAX_SSE_BUFFER_BYTES : Z := 2 * 1048576.
Definition MAX_SSE_EVENT_BYTES : Z := 1048576.

Record SseFrame := {
  sf_event : option str;
  sf_data : str
}.
#[export] Instance SseFrame_eq_dec : EqDecision SseFrame.
Proof. solve_decision. Defined.

Record SseDecoder := {
  sd_buffer : list Z;
  sd_event_name : option str;
  sd_data_lines : list str;
  sd_event_bytes : Z
}.

(** [SseDecoder::default]. *)
Definition sse_default : SseDecoder := {|
  sd_buffer := []; sd_event_name := None; sd_data_lines := []; sd_event_bytes := 0 |}.

Definition set_buffer (b : list Z) (d : SseDecoder) : SseDecoder := {|
  sd_buffer := b; sd_event_name := sd_event_name d; sd_data_lines := sd_data_lines d;
  sd_event_bytes := sd_event_bytes d |}.
Definition set_event_bytes (n : Z) (d : SseDecoder) : SseDecoder := {|
  sd_buffer := sd_buffer d; sd_event_name := sd_event_name d; sd_data_lines := sd_data_lines d;
  sd_event_bytes := n |}.
Definition set_event_name (e : option str) (d : SseDecoder) : SseDecoder := {|
  sd_buffer := sd_buffer d; sd_event_name := e; sd_data_lines := sd_data_lines d;
  sd_event_bytes := sd_event_bytes d |}.
Definition set_data_lines (l : list str) (d : SseDecoder) : SseDecoder := {|
  sd_buffer := sd_buffer d; sd_event_name := sd_event_name d; sd_data_lines := l;
  sd_event_bytes := sd_event_bytes d |}.

Definition LF : Z := 10.
Definition CR : Z := 13.

(** [join("\n")]. *)
Fixpoint join_lines (lines : list str) : str :=
  match lines with
  | [] => []
  | [l] => l
  | l :: lines => l ++ LF :: join_lines lines
  end.

Definition dispatch (d : SseDecoder) : SseDecoder * option SseFrame :=
  let event := sd_event_name d in
  let data := join_lines (sd_data_lines d) in
  let d := set_data_lines [] (set_event_name None d) in
  (d, if is_none event && bool_decide (data = []) then None
      else Some {| sf_event := event; sf_data := data |}).

(** [split_once(':')], or the whole line and an empty value. *)
Fixpoint split_field (line : str) : str * str :=
  match line with
  | [] => ([], [])
  | c :: rest =>
      if c =? 58 then ([], rest)
      else let '(field, value) := split_field rest in (c :: field, value)
  end.

(** [strip_prefix(' ')], or the value itself. *)
Definition strip_space (value : str) : str :=
  match value with c :: rest => if c =? 32 then rest else value | [] => [] end.

Definition handle_field (line : str) (d : SseDecoder) : SseDecoder :=
  let '(field, value) := split_field line in
  let value := strip_space value in
  if str_eqb field (lit "event") then set_event_name (Some value) d else
  if str_eqb field (lit "data") then set_data_lines (sd_data_lines d ++ [value]) d else
  d.

Definition handle_line (line : list Z) (d : SseDecoder)
    : SseDecoder * result unit (list SseFrame) :=
  let d := set_event_bytes (sat_add64 (sd_event_bytes d) (Z.of_nat (length line))) d in
  if MAX_SSE_EVENT_BYTES <? sd_event_bytes d then (d, Err tt) else
  match line with
  | [] => let '(d, frame) := dispatch d in (set_event_bytes 0 d, Ok (option_list frame))
  | b :: _ =>
      if b =? 58 then (d, Ok []) else
      match utf8_decode line with
      | None => (d, Err tt)
      | Some line => (handle_field line d, Ok [])
      end
  end.

(** [line.strip_suffix(b"\r")], or the line itself. *)
Definition strip_cr (line : list Z) : list Z :=
  match last line with
  | Some b => if b =? CR then removelast line else line
  | None => line
  end.

(** The first line of the buffer, and what follows its line feed. *)
Fixpoint split_line (buffer : list Z) : option (list Z * list Z) :=
  match buffer with
  | [] => None
  | b :: rest =>
      if b =? LF then Some ([], rest) else
      '(line, after) ← split_line rest; Some (b :: line, after)
  end.

(** The [while let] loop. Each round takes a line feed out of the buffer. *)
Fixpoint drain_loop (fuel : nat) (d : SseDecoder) (frames : list SseFrame)
    : outcome (SseDecoder * result unit (list SseFrame)) :=
  match split_line (sd_buffer d) with
  | None => Done (d, Ok frames)
  | Some (line, after) =>
      match fuel with
      | O => OutOfFuel
      | S fuel =>
          match handle_line (strip_cr line) (set_buffer after d) with
          | (d, Err e) => Done (d, Err e)
          | (d, Ok new) => drain_loop fuel d (frames ++ new)
          end
      end
  end.

Definition drain_lines (at_eof : bool) (d : SseDecoder)
    : outcome (SseDecoder * result unit (list SseFrame)) :=
  r ← drain_loop (length (sd_buffer d)) d [];
  match r with
  | (d, Err e) => Done (d, Err e)
  | (d, Ok frames) =>
      if at_eof && negb (bool_decide (sd_buffer d = [])) then
        match handle_line (strip_cr (sd_buffer d)) (set_buffer [] d) with
        | (d, Err e) => Done (d, Err e)
        | (d, Ok new) => Done (d, Ok (frames ++ new))
        end
      else Done (d, Ok frames)
  end.

Definition push_sse (bytes : list Z) (d : SseDecoder)
    : outcome (SseDecoder * result unit (list SseFrame)) :=
  if MAX_SSE_BUFFER_BYTES
     <? sat_add64 (Z.of_nat (length (sd_buffer d))) (Z.of_nat (length bytes))
  then Done (d, Err tt)
  else drain_lines false (set_buffer (sd_buffer d ++ bytes) d).

Definition finish_sse (d : SseDecoder) : outcome (SseDecoder * result unit (list SseFrame)) :=
  r ← drain_lines true d;
  match r with
  | (d, Err e) => Done (d, Err e)
  | (d, Ok frames) =>
      if is_some (sd_event_name d) || negb (bool_decide (sd_data_lines d = [])) then
        let '(d, frame) := dispatch d in Done (d, Ok (frames ++ option_list frame))
      else Done (d, Ok frames)
  end.

(** The chunks of a stream, then its end. *)
Fixpoint push_chunks (chunks : list (list Z)) (d : SseDecoder) (frames : list SseFrame)
    : outcome (SseDecoder * result unit (list SseFrame)) :=
  match chunks with
  | [] => Done (d, Ok frames)
  | c :: chunks =>
      r ← push_sse c d;
      match r with
      | (d, Err e) => Done (d, Err e)
      | (d, Ok new) => push_chunks chunks d (frames ++ new)
      end
  end.

(** ** One byte at a time *)

Definition no_lf (buffer : list Z) : Prop := LF ∉ buffer.

(** What one more byte does. *)
Definition feed_byte (acc : SseDecoder * result unit (list SseFrame)) (b : Z)
    : SseDecoder * result unit (list SseFrame) :=
  match acc with
  | (d, Err e) => (d, Err e)
  | (d, Ok frames) =>
      if b =? LF then
        match handle_line (strip_cr (sd_buffer d)) (set_buffer [] d) with
        | (d, Err e) => (d, Err e)
        | (d, Ok new) => (d, Ok (frames ++ new))
        end
      else (set_buffer (sd_buffer d ++ [b]) d, Ok frames)
  end.

(** The same result; after an error only the error matters. *)
Definition same_run (x y : SseDecoder * result unit (list SseFrame)) : Prop :=
  x.2 = y.2 ∧ (is_ok x.2 = true → x.1 = y.1).

Lemma same_run_refl x : same_run x x.
Proof. done. Qed.

Lemma split_line_None buffer : split_line buffer = None ↔ no_lf buffer.
Proof.
  unfold no_lf. induction buffer as [|b rest IH]; cbn.
  - split; [intros _ Hin; by apply elem_of_nil in Hin|done].
  - rewrite elem_of_cons. destruct (b =? LF) eqn:E.
    + split; [done|]. intros Hn. destruct Hn. left. unfold LF in *. lia.
    + destruct (split_line rest) as [[line after]|] eqn:Es; cbn.
      * split; [done|]. intros Hn. destruct IH as [_ IH]. discriminate IH. tauto.
      * split; [|done]. intros _ [Hb|Hin]; [unfold LF in *; lia|]. by apply (proj1 IH).
Qed.

Lemma split_line_Some buffer line after :
  split_line buffer = Some (line, after) → buffer = line ++ LF :: after ∧ no_lf line.
Proof.
  unfold no_lf. revert line. induction buffer as [|b rest IH]; intros line; cbn; [done|].
  destruct (b =? LF) eqn:E.
  - intros; simplify_eq. split; [|apply not_elem_of_nil].
    cbn. f_equal. unfold LF in *. lia.
  - destruct (split_line rest) as [[line' after']|]; cbn; [|done]. intros; simplify_eq.
    destruct (IH line' eq_refl) as [-> Hn]. split; [done|].
    rewrite elem_of_cons. intros [Hb|Hin]; [unfold LF in *; lia|done].
Qed.

Lemma handle_line_buffer line d : sd_buffer (handle_line line d).1 = sd_buffer d.
Proof.
  unfold handle_line, handle_field, dispatch. repeat case_match; simplify_eq; try done.
Qed.

Lemma handle_line_set_buffer line b d :
  handle_line line (set_buffer b d) =
  (set_buffer b (handle_line line d).1, (handle_line line d).2).
Proof.
  unfold handle_line. cbn. destruct (MAX_SSE_EVENT_BYTES <? _); [done|].
  destruct line as [|b0 line]; [done|]. destruct (b0 =? 58); [done|].
  destruct (utf8_decode (b0 :: line)) as [l|]; [|done]. cbn. f_equal.
  unfold handle_field. destruct (split_field l) as [field value].
  by repeat (destruct (str_eqb _ _); [done|]).
Qed.

#[local] Arguments set_buffer : simpl never.

Lemma set_set_buffer b b' d : set_buffer b (set_buffer b' d) = set_buffer b d.
Proof. done. Qed.

Lemma sd_set_buffer b d : sd_buffer (set_buffer b d) = b.
Proof. done. Qed.

Lemma set_buffer_id d : set_buffer (sd_buffer d) d = d.
Proof. by destruct d. Qed.

Lemma feed_err d e l : foldl feed_byte (d, Err e) l = (d, Err e).
Proof. induction l as [|b l IH]; [done|]. cbn. apply IH. Qed.

Lemma feed_no_lf d frames l :
  no_lf l → foldl feed_byte (d, Ok frames) l = (set_buffer (sd_buffer d ++ l) d, Ok frames).
Proof.
  unfold no_lf. revert d. induction l as [|b l IH]; intros d Hn; cbn.
  { by rewrite app_nil_r, set_buffer_id. }
  rewrite elem_of_cons in Hn. destruct (b =? LF) eqn:E; [destruct Hn; left; unfold LF in *; lia|].
  rewrite IH by tauto. rewrite sd_set_buffer, set_set_buffer. by rewrite <-app_assoc.
Qed.

(** The line feed that ends [line] is in the new bytes. *)
Lemma split_pending pre buf line after :
  no_lf pre → pre ++ buf = line ++ LF :: after → no_lf line →
  ∃ mid, line = pre ++ mid ∧ buf = mid ++ LF :: after.
Proof.
  unfold no_lf. intros Hpre Heq Hl. apply app_eq_inv in Heq as [(k&->&Hk)|(k&->&->)].
  - destruct k as [|b k]; cbn in Hk.
    + exists []. by rewrite !app_nil_r.
    + injection Hk as <- _. destruct Hpre. apply elem_of_app. right. by left.
  - by exists k.
Qed.

Lemma drain_is_feed fuel pre buf d frames :
  no_lf pre → (length buf ≤ fuel)%nat →
  ∃ r, drain_loop fuel (set_buffer (pre ++ buf) d) frames = Done r ∧
       same_run r (foldl feed_byte (set_buffer pre d, Ok frames) buf).
Proof.
  revert pre buf d frames. induction fuel as [|fuel IH]; intros pre buf d frames Hpre Hlen.
  - destruct buf as [|]; [|cbn in Hlen; lia]. cbn [drain_loop foldl].
    apply split_line_None in Hpre. rewrite sd_set_buffer, app_nil_r, Hpre. by eexists.
  - cbn [drain_loop]. change (sd_buffer (set_buffer (pre ++ buf) d)) with (pre ++ buf).
    destruct (split_line (pre ++ buf)) as [[line after]|] eqn:Es.
    + apply split_line_Some in Es as [Heq Hl].
      destruct (split_pending _ _ _ _ Hpre Heq Hl) as (mid&->&->).
      rewrite foldl_app. cbn [foldl]. rewrite feed_no_lf
        by (intros Hin; apply Hl, elem_of_app; by right).
      cbn [feed_byte]. rewrite Z.eqb_refl, !set_set_buffer, !sd_set_buffer,
        !handle_line_set_buffer.
      destruct (handle_line (strip_cr (pre ++ mid)) d) as [d2 [new|e]]; cbn [fst snd].
      * destruct (IH [] after d2 (frames ++ new)) as (r&Hr&Hsame);
          [apply not_elem_of_nil|rewrite length_app in Hlen; cbn in Hlen; lia|].
        by exists r.
      * eexists. split; [done|]. by rewrite feed_err.
    + apply split_line_None in Es. eexists. split; [done|].
      rewrite feed_no_lf; [done|]. intros Hin. apply Es, elem_of_app. by right.
Qed.

(** ** A push *)

Definition within_limit (bytes : list Z) (d : SseDecoder) : bool :=
  negb (MAX_SSE_BUFFER_BYTES
        <? sat_add64 (Z.of_nat (length (sd_buffer d))) (Z.of_nat (length bytes))).

Lemma push_sse_feed bytes d :
  no_lf (sd_buffer d) → within_limit bytes d = true →
  ∃ r, push_sse bytes d = Done r ∧ same_run r (foldl feed_byte (d, Ok []) bytes).
Proof.
  intros Hn Hl. unfold push_sse. apply negb_true_iff in Hl. rewrite Hl.
  unfold drain_lines.
  destruct (drain_is_feed (length (sd_buffer d ++ bytes)) (sd_buffer d) bytes d [])
    as (r&Hr&Hsame); [done|rewrite length_app; lia|].
  rewrite set_buffer_id in Hsame. rewrite sd_set_buffer, Hr. exists r. split; [|done]. by destruct r as [d' [frames|e]].
Qed.

(** The buffer left by fed bytes has no complete line and has not grown by more
    than the bytes. *)
Lemma feed_buffer d frames bytes d' frames' :
  foldl feed_byte (d, Ok frames) bytes = (d', Ok frames') → no_lf (sd_buffer d) →
  no_lf (sd_buffer d') ∧ (length (sd_buffer d') ≤ length (sd_buffer d) + length bytes)%nat.
Proof.
  revert d frames. induction bytes as [|b bytes IH]; intros d frames Hf Hn; cbn in Hf.
  { simplify_eq. cbn. split; [done|lia]. }
  destruct (b =? LF) eqn:E.
  - rewrite handle_line_set_buffer in Hf.
    destruct (handle_line _ d) as [d1 [new|e]]; cbn in Hf; [|by rewrite feed_err in Hf].
    apply IH in Hf as [? Hl]; [|apply not_elem_of_nil].
    rewrite sd_set_buffer in Hl. cbn [length] in Hl |- *. split; [done|lia].
  - apply IH in Hf as [? Hl]; rewrite sd_set_buffer in *.
    + rewrite length_app in Hl. cbn [length] in Hl |- *. split; [done|lia].
    + unfold no_lf in *. rewrite elem_of_app. intros [|Hin]; [done|].
      apply list_elem_of_singleton in Hin. unfold LF in *. lia.
Qed.

Lemma feed_frames d f0 frames bytes :
  foldl feed_byte (d, Ok (f0 ++ frames)) bytes =
  match foldl feed_byte (d, Ok frames) bytes with
  | (d', Ok fr) => (d', Ok (f0 ++ fr))
  | (d', Err e) => (d', Err e)
  end.
Proof.
  revert d frames. induction bytes as [|b bytes IH]; intros d frames; cbn; [done|].
  destruct (b =? LF); [|apply IH].
  destruct (handle_line _ _) as [d1 [new|e]]; [|by rewrite !feed_err].
  rewrite <-app_assoc. apply IH.
Qed.

Lemma push_chunks_cons c chunks d frames r :
  push_sse c d = Done r →
  push_chunks (c :: chunks) d frames =
  match r with
  | (d, Err e) => Done (d, Err e)
  | (d, Ok new) => push_chunks chunks d (frames ++ new)
  end.
Proof. intros Hr. cbn. by rewrite Hr. Qed.

(** Chunks that all fit behave as their bytes. *)
Lemma push_chunks_feed chunks d frames :
  no_lf (sd_buffer d) →
  Z.of_nat (length (sd_buffer d)) + Z.of_nat (length (concat chunks)) ≤ MAX_SSE_BUFFER_BYTES →
  ∃ r, push_chunks chunks d frames = Done r ∧
       same_run r (foldl feed_byte (d, Ok frames) (concat chunks)).
Proof.
  revert d frames. induction chunks as [|c chunks IH]; intros d frames Hn Hl; cbn [concat].
  { by eexists. }
  cbn [concat] in Hl. rewrite length_app in Hl.
  destruct (push_sse_feed c d Hn) as (r&Hr&Hrun&Hst).
  { unfold within_limit, sat_add64, u64_max. unfold MAX_SSE_BUFFER_BYTES in *. lia. }
  rewrite (push_chunks_cons _ _ _ _ _ Hr), foldl_app.
  pose proof (feed_frames d frames [] c) as Hf. rewrite app_nil_r in Hf. rewrite Hf. clear Hf.
  destruct (foldl feed_byte (d, Ok []) c) as [d1 [new|e]] eqn:Ef; destruct r as [d2 r2];
    cbn in Hrun, Hst; subst r2.
  - rewrite (Hst eq_refl). apply feed_buffer in Ef as [Hn' Hl']; [|done]. apply IH; [done|lia].
  - eexists. split; [done|]. by rewrite feed_err.
Qed.

Lemma push_chunks_ok chunks d frames d' frames' :
  no_lf (sd_buffer d) → push_chunks chunks d frames = Done (d', Ok frames') →
  foldl feed_byte (d, Ok frames) (concat chunks) = (d', Ok frames').
Proof.
  revert d frames. induction chunks as [|c chunks IH]; intros d frames Hn Hp; [by injection Hp as -> ->|].
  destruct (within_limit c d) eqn:El.
  2: { unfold within_limit in El. apply negb_false_iff in El.
       rewrite (push_chunks_cons _ _ _ _ (d, Err tt)) in Hp; [done|].
       unfold push_sse. by rewrite El. }
  destruct (push_sse_feed c d Hn El) as (r&Hr&Hrun&Hst).
  rewrite (push_chunks_cons _ _ _ _ _ Hr) in Hp. cbn [concat]. rewrite foldl_app.
  pose proof (feed_frames d frames [] c) as Hf. rewrite app_nil_r in Hf. rewrite Hf. clear Hf.
  destruct (foldl feed_byte (d, Ok []) c) as [d1 [new|e]] eqn:Ef; destruct r as [d2 r2];
    cbn in Hrun, Hst; subst r2; [|done].
  rewrite (Hst eq_refl) in Hp. apply feed_buffer in Ef as [Hn' _]; [|done]. by apply IH.
Qed.

(** the decoder does not depend on the network's chunking. Two ways of
    cutting one stream that both decode give the same frames and leave the same
    decoder; and when the stream fits the buffer limit, every way of cutting it
    returns, and all return the same frames or all fail. *)
Theorem sse_chunking_irrelevant chunks1 chunks2 :
  concat chunks1 = concat chunks2 →
  (∀ d1 d2 f1 f2,
     push_chunks chunks1 sse_default [] = Done (d1, Ok f1) →
     push_chunks chunks2 sse_default [] = Done (d2, Ok f2) → d1 = d2 ∧ f1 = f2) ∧
  (Z.of_nat (length (concat chunks1)) ≤ MAX_SSE_BUFFER_BYTES →
   ∃ r1 r2, push_chunks chunks1 sse_default [] = Done r1 ∧
     push_chunks chunks2 sse_default [] = Done r2 ∧ same_run r1 r2).
Proof.
  intros Heq. split.
  - intros d1 d2 f1 f2 H1 H2. apply push_chunks_ok in H1, H2; [|apply not_elem_of_nil..].
    rewrite Heq, H2 in H1. by injection H1.
  - intros Hl. destruct (push_chunks_feed chunks1 sse_default []) as (r1&Hr1&S1&S2);
      [apply not_elem_of_nil|cbn; lia|].
    destruct (push_chunks_feed chunks2 sse_default []) as (r2&Hr2&S3&S4);
      [apply not_elem_of_nil|rewrite <-Heq; cbn; lia|].
    exists r1, r2. split; [done|]. split; [done|]. rewrite Heq in S1, S2.
    split; [by rewrite S1, S3|]. intros Hok. rewrite S2 by done.
    rewrite S4; [done|]. by rewrite S3, <-S1.
Qed.

(** pushing and finishing always return: each round of the loop takes a
    line feed out of the buffer, so the fuel (the buffer's length) is enough. *)
Theorem sse_returns bytes d :
  (∃ r, push_sse bytes d = Done r) ∧ (∃ r, finish_sse d = Done r).
Proof.
  assert (∀ d, ∃ r, drain_loop (length (sd_buffer d)) d [] = Done r) as Hdrain.
  { intros d0. destruct (drain_is_feed (length (sd_buffer d0)) [] (sd_buffer d0) d0 [])
      as (r&Hr&_); [apply not_elem_of_nil|done|].
    cbn [app] in Hr. rewrite set_buffer_id in Hr. eauto. }
  assert (∀ eof d, ∃ r, drain_lines eof d = Done r) as Hlines.
  { intros eof d0. unfold drain_lines. destruct (Hdrain d0) as ([d1 [fr|e]]&->); cbn; [|eauto].
    repeat case_match; eauto. }
  split.
  - unfold push_sse. case_match; eauto.
  - unfold finish_sse. destruct (Hlines true d) as ([d1 [fr|e]]&->); cbn; [|eauto].
    repeat case_match; eauto.
Qed.

(** A stream with a named event and one without, cut in two ways. *)
Definition sse_fixture : list Z :=
  lit "event: delta" ++ [CR; LF] ++ lit "data: hi" ++ [CR; LF; CR; LF] ++
  lit "data: [DONE]" ++ [LF; LF].

Lemma sse_chunking_irrelevant_witness : ∃ d f,
  push_chunks [sse_fixture] sse_default [] = Done (d, Ok f) ∧
  f = [{| sf_event := Some (lit "delta"); sf_data := lit "hi" |};
       {| sf_event := None; sf_data := lit "[DONE]" |}] ∧
  ∀ d' f', push_chunks ((λ b, [b]) <$> sse_fixture) sse_default [] = Done (d', Ok f') → f' = f.
Proof.
  destruct (push_chunks [sse_fixture] sse_default []) as [[d [f|e]]| |] eqn:E;
    [|vm_compute in E; discriminate E..].
  exists d, f. split; [reflexivity|]. split.
  { vm_compute in E. injection E as _ <-. vm_compute. reflexivity. }
  intros d' f' E'. symmetry.
  refine (proj2 (proj1 (sse_chunking_irrelevant [sse_fixture] ((λ b, [b]) <$> sse_fixture) _)
    d d' f f' E E')).
  vm_compute. reflexivity.
Defined.
