(* ===== verification/VoiceRoute.v ===== *)
(** * Voice routing ([crates/providers-tts/src/fallback.rs], with the voice
    bindings of [crates/providers-tts/src/types.rs])

    Which explicit voice mapping a speech session uses, and the pin that keeps
    an utterance on its provider once it has started. *)

From S2P Require Import Prelude Text.

#[local] Open Scope Z_scope.

Inductive HostedTtsProviderId := Cartesia | ElevenLabs | Inworld | Deepgram | NvidiaNimMagpie.
#[export] Instance HostedTtsProviderId_eq_dec : EqDecision HostedTtsProviderId.
Proof. solve_decision. Defined.
#[export] Instance HostedTtsProviderId_countable : Countable HostedTtsProviderId.
Proof.
  refine (inj_countable'
    (λ p, match p with Cartesia => 0 | ElevenLabs => 1 | Inworld => 2 | Deepgram => 3
          | NvidiaNimMagpie => 4 end)
    (λ n, match n with 0 => Cartesia | 1 => ElevenLabs | 2 => Inworld | 3 => Deepgram
          | _ => NvidiaNimMagpie end) _).
  by intros [].
Defined.

Record VoiceBinding := {
  vb_intent_id : str;
  vb_provider_id : HostedTtsProviderId;
  vb_voice_id : str;
  vb_model_id : str;
  vb_provider_options : gmap str str
}.
#[export] Instance VoiceBinding_eq_dec : EqDecision VoiceBinding.
Proof. solve_decision. Defined.

(** [VoiceBinding::validate]. *)
Definition binding_validate (b : VoiceBinding) : result str unit :=
  if is_blank (vb_intent_id b) || (128 <? str_len (vb_intent_id b))
  then Err (lit "invalid_voice_intent_id") else
  if is_blank (vb_voice_id b) || (256 <? str_len (vb_voice_id b))
  then Err (lit "invalid_voice_id") else
  if is_blank (vb_model_id b) || (256 <? str_len (vb_model_id b))
  then Err (lit "invalid_model_id") else
  if (32 <? Z.of_nat (size (vb_provider_options b)))
     || existsb (λ kv, (64 <? str_len kv.1) || (256 <? str_len kv.2))
          (map_to_list (vb_provider_options b))
  then Err (lit "invalid_provider_options") else
  Ok tt.

Definition VoiceBindings := gmap (str * HostedTtsProviderId) VoiceBinding.

(** [VoiceBindings::new]: the loop over the bindings. *)
Fixpoint bindings_new_loop (entries : VoiceBindings) (bindings : list VoiceBinding)
    : result str VoiceBindings :=
  match bindings with
  | [] => Ok entries
  | b :: bindings =>
      _ ← binding_validate b;
      let key := (vb_intent_id b, vb_provider_id b) in
      if is_some (entries !! key) then Err (lit "duplicate_voice_binding") else
      bindings_new_loop (<[key := b]> entries) bindings
  end.

Definition bindings_new (bindings : list VoiceBinding) : result str VoiceBindings :=
  bindings_new_loop ∅ bindings.

Definition resolve (bindings : VoiceBindings) (intent_id : str) (p : HostedTtsProviderId)
    : option VoiceBinding :=
  bindings !! (intent_id, p).

Record FallbackAuthorization := {
  fa_authorized_providers : gset HostedTtsProviderId;
  fa_allow_provider_change : bool
}.

Inductive FallbackDecision :=
| RoutePrimary (binding : VoiceBinding)
| RouteFallback (failed_provider : HostedTtsProviderId) (binding : VoiceBinding).

Inductive FallbackError :=
| PrimaryNotAuthorized
| MissingPrimaryVoice
| ProviderChangeNotAuthorized
| NoAuthorizedMappedVoice
| UtteranceAlreadyStarted.

(** [find_map] over the authorized fallbacks. *)
Fixpoint first_mapped (intent_id : str) (bindings : VoiceBindings)
    (providers : list HostedTtsProviderId) : option VoiceBinding :=
  match providers with
  | [] => None
  | p :: providers =>
      match resolve bindings intent_id p with
      | Some b => Some b
      | None => first_mapped intent_id bindings providers
      end
  end.

Definition select_voice_route (intent_id : str) (primary : HostedTtsProviderId)
    (ordered_fallbacks : list HostedTtsProviderId) (bindings : VoiceBindings)
    (authorization : FallbackAuthorization) : result FallbackError FallbackDecision :=
  if negb (bool_decide (primary ∈ fa_authorized_providers authorization))
  then Err PrimaryNotAuthorized else
  primary_binding ← ok_or (resolve bindings intent_id primary) MissingPrimaryVoice;
  match ordered_fallbacks with
  | [] => Ok (RoutePrimary primary_binding)
  | _ =>
      if negb (fa_allow_provider_change authorization)
      then Err ProviderChangeNotAuthorized else
      ok_or (RouteFallback primary <$> first_mapped intent_id bindings
        (List.filter (λ p, bool_decide (p ∈ fa_authorized_providers authorization))
           ordered_fallbacks)) NoAuthorizedMappedVoice
  end.

(** ** The pin of an utterance *)

Record UtteranceProviderPin := {
  up_provider : HostedTtsProviderId;
  up_utterance_started : bool
}.

Definition pin_new (p : HostedTtsProviderId) : UtteranceProviderPin :=
  {| up_provider := p; up_utterance_started := false |}.

Definition mark_started (pin : UtteranceProviderPin) : UtteranceProviderPin :=
  {| up_provider := up_provider pin; up_utterance_started := true |}.

Definition switch_before_start (p : HostedTtsProviderId) (authorization : FallbackAuthorization)
    (pin : UtteranceProviderPin) : UtteranceProviderPin * result FallbackError unit :=
  if up_utterance_started pin then (pin, Err UtteranceAlreadyStarted) else
  if negb (fa_allow_provider_change authorization)
     || negb (bool_decide (p ∈ fa_authorized_providers authorization))
  then (pin, Err ProviderChangeNotAuthorized) else
  ({| up_provider := p; up_utterance_started := up_utterance_started pin |}, Ok tt).

Inductive pin_event :=
| PinStart
| PinSwitch (p : HostedTtsProviderId) (authorization : FallbackAuthorization).

Definition pin_step (pin : UtteranceProviderPin) (e : pin_event) : UtteranceProviderPin :=
  match e with
  | PinStart => mark_started pin
  | PinSwitch p a => (switch_before_start p a pin).1
  end.

(** ** Bindings *)

(** An accepted table maps each key to a valid binding of that key. *)
Definition bindings_ok (bindings : VoiceBindings) : Prop :=
  map_Forall (λ k b, k = (vb_intent_id b, vb_provider_id b) ∧ binding_validate b = Ok tt) bindings.

Lemma bindings_new_loop_ok l entries bindings :
  bindings_ok entries → bindings_new_loop entries l = Ok bindings →
  bindings_ok bindings ∧ entries ⊆ bindings ∧
  Forall (λ b, bindings !! (vb_intent_id b, vb_provider_id b) = Some b) l ∧
  map_Forall (λ k b, entries !! k = Some b ∨ b ∈ l) bindings.
Proof.
  revert entries. induction l as [|b l IH]; intros entries Hok; cbn.
  { intros; simplify_eq. split; [done|]. split; [done|]. split; [done|]. by left. }
  destruct (binding_validate b) as [[]|] eqn:Hv; cbn; [|done].
  destruct (entries !! _) as [b'|] eqn:He; cbn; [done|]. intros Hl.
  apply IH in Hl as (H1&H2&H3&H4); [|by apply map_Forall_insert_2].
  split; [done|]. split; [|split].
  - etransitivity; [by apply insert_subseteq|done].
  - constructor; [|done]. eapply lookup_weaken; [|done]. apply lookup_insert_eq.
  - intros k b' Hk. destruct (H4 k b' Hk) as [Hin|Hin]; [|by right; right].
    apply lookup_insert_Some in Hin as [[_ ->]|[_ Hin]]; [by right; left|by left].
Qed.

Lemma bindings_new_ok l bindings :
  bindings_new l = Ok bindings →
  bindings_ok bindings ∧
  Forall (λ b, bindings !! (vb_intent_id b, vb_provider_id b) = Some b) l ∧
  map_Forall (λ _ b, b ∈ l) bindings.
Proof.
  intros (H1&_&H3&H4)%bindings_new_loop_ok; [|apply map_Forall_empty].
  split; [done|]. split; [done|]. intros k b Hk. by destruct (H4 k b Hk).
Qed.

Lemma first_mapped_Some (f : HostedTtsProviderId → bool) intent bindings providers b :
  first_mapped intent bindings (List.filter f providers) = Some b →
  ∃ p before after, providers = before ++ p :: after ∧ f p = true ∧
    resolve bindings intent p = Some b ∧
    Forall (λ q, f q = true → resolve bindings intent q = None) before.
Proof.
  induction providers as [|p providers IH]; cbn; [done|].
  destruct (f p) eqn:Hf; cbn.
  - destruct (resolve bindings intent p) as [b'|] eqn:Hp.
    + intros; simplify_eq. by exists p, [], providers.
    + intros (q&before&after&->&?&?&Hall)%IH. exists q, (p :: before), after.
      do 3 (split; [done|]). by constructor.
  - intros (q&before&after&->&?&?&Hall)%IH. exists q, (p :: before), after.
    do 3 (split; [done|]). constructor; [congruence|done].
Qed.

(** the selected route speaks with the voice mapped to the asked intent at
    an authorized provider: the primary's own mapping when no fallback is asked,
    otherwise (with consent to change) the first authorized, mapped fallback. *)
Theorem voice_route_authorized intent primary fallbacks l bindings authorization route :
  bindings_new l = Ok bindings →
  select_voice_route intent primary fallbacks bindings authorization = Ok route →
  primary ∈ fa_authorized_providers authorization ∧
  match route with
  | RoutePrimary b =>
      fallbacks = [] ∧ vb_intent_id b = intent ∧ vb_provider_id b = primary ∧ b ∈ l
  | RouteFallback failed b =>
      failed = primary ∧ fa_allow_provider_change authorization = true ∧
      vb_intent_id b = intent ∧ b ∈ l ∧ binding_validate b = Ok tt ∧
      vb_provider_id b ∈ fa_authorized_providers authorization ∧
      ∃ before after, fallbacks = before ++ vb_provider_id b :: after ∧
        Forall (λ q, q ∈ fa_authorized_providers authorization → resolve bindings intent q = None)
          before
  end.
Proof.
  intros (Hok&_&Hin)%bindings_new_ok. unfold select_voice_route.
  case_bool_decide as Hp; [|done]. cbn [negb].
  destruct (resolve bindings intent primary) as [pb|] eqn:Hpb; [|done]. cbn [ok_or mbind result_bind].
  destruct (Hok _ _ Hpb) as [Hkey _]. injection Hkey as Hi Hpr.
  destruct fallbacks as [|f fs]; [intros; simplify_eq; split; [done|]; by eauto|].
  destruct (fa_allow_provider_change authorization); [|done]. cbn [negb].
  destruct (first_mapped _ _ _) as [b|] eqn:Hf; [|done]. cbn. intros; simplify_eq.
  apply first_mapped_Some in Hf as (p&before&after&Hl&Hauth&Hb&Hall).
  apply bool_decide_eq_true in Hauth. destruct (Hok _ _ Hb) as [Hk Hv]. injection Hk as Hi' ->.
  split; [done|]. split; [done|]. split; [done|]. split; [done|]. split; [by apply (Hin _ _ Hb)|].
  split; [done|]. split; [done|]. exists before, after. split; [done|].
  eapply Forall_impl; [exact Hall|]. intros q Hq Hqa. apply Hq. by apply bool_decide_eq_true.
Qed.

Lemma pin_step_provider pin e :
  up_provider (pin_step pin e) = up_provider pin ∨
  ∃ p a, e = PinSwitch p a ∧ up_provider (pin_step pin e) = p ∧
    fa_allow_provider_change a = true ∧ p ∈ fa_authorized_providers a.
Proof.
  destruct e as [|p a]; [by left|]. cbn. unfold switch_before_start.
  destruct (up_utterance_started pin); [by left|].
  destruct (fa_allow_provider_change a) eqn:Ha; [|by left].
  cbn. case_bool_decide; [|by left]. right. by exists p, a.
Qed.

(** once its utterance has started a pin never changes provider, and before
    that it only ever moves to authorized providers, with consent. *)
Theorem started_pin_never_moves pin events :
  let pin' := foldl pin_step pin events in
  (up_utterance_started pin = true → pin' = pin) ∧
  (up_provider pin' = up_provider pin ∨
   ∃ a, PinSwitch (up_provider pin') a ∈ events ∧ fa_allow_provider_change a = true ∧
        up_provider pin' ∈ fa_authorized_providers a).
Proof.
  revert pin. induction events as [|e events IH]; intros pin; cbn; [by split; [|left]|].
  destruct (IH (pin_step pin e)) as [Hs Hp]. split.
  - intros Hst. assert (pin_step pin e = pin) as Hsame.
    { destruct pin as [p st], e; cbn in *; subst; done. }
    rewrite Hs, Hsame; [done|]. by rewrite Hsame.
  - destruct Hp as [Hp|(a&Hin&Ha&Hau)]; [|right; exists a; split; [by right|done]].
    destruct (pin_step_provider pin e) as [Hq|(p&a&->&Hq&?&?)]; [left; congruence|].
    right. exists a. rewrite Hp, Hq. split; [by left|done].
Qed.

(** ** The theorems at concrete inputs *)

Definition demo_binding (p : HostedTtsProviderId) : VoiceBinding := {|
  vb_intent_id := lit "guard"; vb_provider_id := p; vb_voice_id := lit "voice";
  vb_model_id := lit "model"; vb_provider_options := ∅ |}.

Definition demo_bindings : VoiceBindings :=
  match bindings_new [demo_binding Cartesia; demo_binding Deepgram] with
  | Ok bindings => bindings
  | Err _ => ∅
  end.

Definition demo_authorization : FallbackAuthorization := {|
  fa_authorized_providers := {[Cartesia; ElevenLabs; Deepgram]};
  fa_allow_provider_change := true |}.

Lemma demo_bindings_ok :
  bindings_new [demo_binding Cartesia; demo_binding Deepgram] = Ok demo_bindings.
Proof.
  assert (match bindings_new [demo_binding Cartesia; demo_binding Deepgram] with
          | Ok _ => true | Err _ => false end = true) as H by (vm_compute; reflexivity).
  unfold demo_bindings. destruct (bindings_new _); [reflexivity|discriminate H].
Qed.

Lemma demo_route :
  select_voice_route (lit "guard") Cartesia [Inworld; ElevenLabs; Deepgram] demo_bindings
    demo_authorization = Ok (RouteFallback Cartesia (demo_binding Deepgram)).
Proof. vm_compute. reflexivity. Qed.

Lemma voice_route_authorized_witness :
  select_voice_route (lit "guard") Cartesia [Inworld; ElevenLabs; Deepgram] demo_bindings
    demo_authorization = Ok (RouteFallback Cartesia (demo_binding Deepgram)) ∧
  demo_binding Deepgram ∈ [demo_binding Cartesia; demo_binding Deepgram].
Proof.
  destruct (voice_route_authorized _ _ _ _ _ _ _ demo_bindings_ok demo_route)
    as (_&_&_&_&Hin&_).
  exact (conj demo_route Hin).
Defined.
