(* ===== verification/Prog.v ===== *)
(** * Programs that interact with their environment

    The asynchronous tasks of the supervisor are written as programs over a type of
    operations: each operation (a provider call, a clock, an event channel, a
    cancellation flag) is answered by the environment. A program returns a value,
    leaves through the error operator, or panics. [runs] relates a program to every
    trace it can have, whatever the environment answers; [exec] runs it against a
    given environment. Properties are proved with [wp], which follows a monitor of
    the trace through the program. *)

From S2P Require Import Prelude.

(** How a program ends. *)
Inductive exit (E A : Type) : Type :=
| Returned (a : A)
| Raised (e : E)
| Crashed.
Arguments Returned {E A} a.
Arguments Raised {E A} e.
Arguments Crashed {E A}.

Section prog.
Context {op : Type → Type}.

Inductive prog (E A : Type) : Type :=
| Ret (a : A)
| Raise (e : E)
| Crash
| Vis {X : Type} (o : op X) (k : X → prog E A).
Arguments Ret {E A} a.
Arguments Raise {E A} e.
Arguments Crash {E A}.
Arguments Vis {E A X} o k.

#[global] Instance prog_ret {E} : MRet (prog E) := λ A a, Ret a.

(** [prog_bind f p] is [f] after [p?]. *)
#[global] Instance prog_bind {E} : MBind (prog E) := λ A B f,
  fix go p :=
    match p with
    | Ret a => f a
    | Raise e => Raise e
    | Crash => Crash
    | Vis o k => Vis o (λ x, go (k x))
    end.

(** One operation. *)
Definition perform {E X} (o : op X) : prog E X := Vis o Ret.

(** An exit as a program, and the exit of a program as a value. *)
Definition prog_of_exit {E A} (r : exit E A) : prog E A :=
  match r with Returned a => Ret a | Raised e => Raise e | Crashed => Crash end.

Fixpoint exit_of {E E' A} (p : prog E A) : prog E' (exit E A) :=
  match p with
  | Ret a => Ret (Returned a)
  | Raise e => Ret (Raised e)
  | Crash => Ret Crashed
  | Vis o k => Vis o (λ x, exit_of (k x))
  end.

(** [on_exit cleanup p]: [cleanup] runs when [p] leaves without returning (the drop
    of a value that is live across [p]). *)
Definition on_exit {E A} (cleanup : prog E ()) (p : prog E A) : prog E A :=
  r ← exit_of p;
  match r with
  | Returned a => Ret a
  | Raised e => cleanup;; Raise e
  | Crashed => cleanup;; Crash
  end.

(** [map_err]. *)
Definition map_raise {E E' A} (f : E → E') (p : prog E A) : prog E' A :=
  r ← exit_of p;
  match r with Returned a => Ret a | Raised e => Raise (f e) | Crashed => Crash end.

Definition of_result {E A} (r : result E A) : prog E A :=
  match r with Ok a => Ret a | Err e => Raise e end.

(** Code that can panic inside a task. *)
Definition of_outcome {E A} (r : outcome A) : prog E A :=
  match r with Done a => Ret a | _ => Crash end.

(** ** Runs *)

Context {act : Type} (obs : ∀ X, op X → X → act).

Fixpoint runs {E A} (p : prog E A) (tr : list act) (r : exit E A) : Prop :=
  match p with
  | Ret a => tr = [] ∧ r = Returned a
  | Raise e => tr = [] ∧ r = Raised e
  | Crash => tr = [] ∧ r = Crashed
  | Vis o k => ∃ x tr', tr = obs _ o x :: tr' ∧ runs (k x) tr' r
  end.

(** A run against an environment with a state of its own. *)
Fixpoint exec {S E A} (answer : ∀ X, op X → S → X * S) (p : prog E A) (s : S)
    : list act * exit E A * S :=
  match p with
  | Ret a => ([], Returned a, s)
  | Raise e => ([], Raised e, s)
  | Crash => ([], Crashed, s)
  | Vis o k =>
      let '(x, s) := answer _ o s in
      let '(tr, r, s) := exec answer (k x) s in
      (obs _ o x :: tr, r, s)
  end.

Lemma exec_runs {S E A} answer (p : prog E A) (s : S) :
  runs p (exec answer p s).1.1 (exec answer p s).1.2.
Proof using.
  revert s. induction p as [a|e| |X o k IH]; intros s; [done..|]. cbn [exec].
  destruct (answer X o s) as [x s1]. specialize (IH x s1).
  destruct (exec answer (k x) s1) as [[tr r] s2]. cbn in *. by exists x, tr.
Qed.

Lemma runs_bind {E A B} (p : prog E A) (f : A → prog E B) tr r :
  runs (p ≫= f) tr r ↔
    (∃ tr1 tr2 a, tr = tr1 ++ tr2 ∧ runs p tr1 (Returned a) ∧ runs (f a) tr2 r) ∨
    (∃ e, r = Raised e ∧ runs p tr (Raised e)) ∨ (r = Crashed ∧ runs p tr Crashed).
Proof using.
  revert tr. induction p as [a|e| |X o k IH]; intros tr; cbn.
  - split; [intros ?; left; by exists [], tr, a|].
    intros [(tr1&tr2&b&->&[-> [= ->]]&?)|[(e&_&_&?)|(_&_&?)]]; done.
  - split; [intros [-> ->]; right; left; by exists e|].
    intros [(tr1&tr2&b&->&[_ ?]&?)|[(e'&->&->&?)|(_&_&?)]]; [done| |done]. split; congruence.
  - split; [intros [-> ->]; right; by right|].
    intros [(tr1&tr2&b&->&[_ ?]&?)|[(e'&_&_&?)|(->&->&_)]]; done.
  - split.
    + intros (x&tr'&->&Hr). apply IH in Hr as [(tr1&tr2&a&->&H1&H2)|[(e&->&H1)|(->&H1)]].
      * left. exists (obs X o x :: tr1), tr2, a. split; [done|]. split; [|done]. by exists x, tr1.
      * right. left. exists e. split; [done|]. by exists x, tr'.
      * right. right. split; [done|]. by exists x, tr'.
    + intros [(tr1&tr2&a&->&(x&tr'&->&H1)&H2)|[(e&->&x&tr'&->&H1)|(->&x&tr'&->&H1)]].
      * exists x, (tr' ++ tr2). split; [done|]. apply IH. left. by exists tr', tr2, a.
      * exists x, tr'. split; [done|]. apply IH. right. left. by exists e.
      * exists x, tr'. split; [done|]. apply IH. right. by right.
Qed.

(** ** Actions that hold everywhere *)

(** Every action of every run satisfies [P]. *)
Fixpoint always {E A} (P : act → Prop) (p : prog E A) : Prop :=
  match p with
  | Vis o k => ∀ x, P (obs _ o x) ∧ always P (k x)
  | _ => True
  end.

Lemma always_runs {E A} P (p : prog E A) tr r : always P p → runs p tr r → Forall P tr.
Proof using.
  revert tr. induction p as [a|e| |X o k IH]; intros tr; cbn; [by intros _ [-> _]..|].
  intros Hp (x&tr'&->&Hr). destruct (Hp x) as [Hx Hk]. constructor; [done|]. by eapply IH.
Qed.

Lemma always_bind {E A B} P (p : prog E A) (f : A → prog E B) :
  always P p → (∀ a, always P (f a)) → always P (p ≫= f).
Proof using.
  intros Hp Hf. induction p as [a|e| |X o k IH]; cbn in *; [done..|].
  intros x. split; [apply Hp|]. apply IH, Hp.
Qed.

Lemma always_exit_of {E E' A} P (p : prog E A) : always P p → always P (exit_of (E' := E') p).
Proof using.
  induction p as [a|e| |X o k IH]; cbn; [done..|]. intros Hp x. split; [apply Hp|]. apply IH, Hp.
Qed.

Lemma always_on_exit {E A} P (cleanup : prog E ()) (p : prog E A) :
  always P cleanup → always P p → always P (on_exit cleanup p).
Proof using.
  intros Hc Hp. apply always_bind; [by apply always_exit_of|]. intros []; [done| |];
    (apply always_bind; [done|]); done.
Qed.

Lemma always_map_raise {E E' A} P (f : E → E') (p : prog E A) :
  always P p → always P (map_raise f p).
Proof using. intros Hp. apply always_bind; [by apply always_exit_of|]. by intros []. Qed.

Lemma always_mono {E A} (P P' : act → Prop) (p : prog E A) :
  (∀ a, P a → P' a) → always P p → always P' p.
Proof using.
  intros HP. induction p as [a|e| |X o k IH]; cbn; [done..|]. intros Hp x.
  split; [apply HP, Hp|]. apply IH, Hp.
Qed.

(** ** Monitors *)

Section monitor.
Context {S : Type} (step : S → act → option S).

(** The state of the monitor after a trace, [None] when it refuses an action. *)
Fixpoint monitor (s : S) (tr : list act) : option S :=
  match tr with
  | [] => Some s
  | a :: tr => s ← step s a; monitor s tr
  end.

Lemma monitor_app s tr1 tr2 : monitor s (tr1 ++ tr2) = monitor s tr1 ≫= λ s, monitor s tr2.
Proof using.
  revert s. induction tr1 as [|a tr1 IH]; intros s; [done|]. cbn.
  destruct (step s a) as [s'|]; [|done]. cbn. apply IH.
Qed.

(** In every environment the monitor accepts the run from [s], and the state and the
    exit it ends with satisfy [Q]. *)
Fixpoint wp {E A} (s : S) (p : prog E A) (Q : S → exit E A → Prop) : Prop :=
  match p with
  | Ret a => Q s (Returned a)
  | Raise e => Q s (Raised e)
  | Crash => Q s Crashed
  | Vis o k => ∀ x, ∃ s', step s (obs _ o x) = Some s' ∧ wp s' (k x) Q
  end.

Lemma wp_runs {E A} s (p : prog E A) Q tr r :
  wp s p Q → runs p tr r → ∃ s', monitor s tr = Some s' ∧ Q s' r.
Proof using.
  revert s tr. induction p as [a|e| |X o k IH]; intros s tr; cbn.
  1-3: intros HQ [-> ->]; by exists s.
  intros Hwp (x&tr'&->&Hr). destruct (Hwp x) as (s'&Hs&Hk).
  destruct (IH x s' tr' Hk Hr) as (s2&Hm&HQ). exists s2. cbn. by rewrite Hs.
Qed.

Lemma wp_mono {E A} s (p : prog E A) (Q Q' : S → exit E A → Prop) :
  wp s p Q → (∀ s r, Q s r → Q' s r) → wp s p Q'.
Proof using.
  intros Hwp HQ. revert s Hwp. induction p as [a|e| |X o k IH]; intros s; cbn; [apply HQ..|].
  intros Hwp x. destruct (Hwp x) as (s'&Hs&Hk). exists s'. split; [done|]. by apply IH.
Qed.

Lemma wp_bind {E A B} s (p : prog E A) (f : A → prog E B) Q :
  wp s p (λ s r, match r with
                 | Returned a => wp s (f a) Q
                 | Raised e => Q s (Raised e)
                 | Crashed => Q s Crashed
                 end) →
  wp s (p ≫= f) Q.
Proof using.
  revert s. induction p as [a|e| |X o k IH]; intros s; cbn; [done..|].
  intros Hwp x. destruct (Hwp x) as (s'&Hs&Hk). exists s'. split; [done|]. by apply IH.
Qed.

Lemma wp_exit_of {E E' A} s (p : prog E A) (Q : S → exit E' (exit E A) → Prop) :
  wp s p (λ s r, Q s (Returned r)) → wp s (exit_of p) Q.
Proof using.
  revert s. induction p as [a|e| |X o k IH]; intros s; cbn; [done..|].
  intros Hwp x. destruct (Hwp x) as (s'&Hs&Hk). exists s'. split; [done|]. by apply IH.
Qed.

Lemma wp_on_exit {E A} s (cleanup : prog E ()) (p : prog E A) Q :
  wp s p (λ s r, match r with
                 | Returned a => Q s (Returned a)
                 | Raised e => wp s (cleanup;; Raise e) Q
                 | Crashed => wp s (cleanup;; Crash) Q
                 end) →
  wp s (on_exit cleanup p) Q.
Proof using.
  intros Hwp. apply wp_bind, wp_exit_of. eapply wp_mono; [exact Hwp|]. by intros ? [].
Qed.

Lemma wp_map_raise {E E' A} s (f : E → E') (p : prog E A) Q :
  wp s p (λ s r, match r with
                 | Returned a => Q s (Returned a)
                 | Raised e => Q s (Raised (f e))
                 | Crashed => Q s Crashed
                 end) →
  wp s (map_raise f p) Q.
Proof using.
  intros Hwp. apply wp_bind, wp_exit_of. eapply wp_mono; [exact Hwp|]. by intros ? [].
Qed.

Lemma wp_of_outcome {E A} s (o : outcome A) (Q : S → exit E A → Prop) :
  Q s Crashed → (∀ a, o = Done a → Q s (Returned a)) → wp s (of_outcome o) Q.
Proof using. destruct o; cbn; auto. Qed.

Lemma wp_prog_of_exit {E A} s (r : exit E A) Q : Q s r → wp s (prog_of_exit r) Q.
Proof using. by destruct r. Qed.
End monitor.
End prog.

Arguments prog : clear implicits.
Arguments Ret {op E A} a.
Arguments Raise {op E A} e.
Arguments Crash {op E A}.
Arguments Vis {op E A X} o k.
#[global] Arguments wp {op act} obs {S} step {E A} s !p Q /.
#[global] Arguments wp : simpl nomatch.

(** The rules that follow the structure of a program. *)
Create HintDb prog.
#[export] Hint Resolve always_exit_of always_on_exit always_map_raise : prog.
