(* ===== verification/Turn.v ===== *)
(** * Turns: requests to providers, events, outcomes and errors
    ([crates/runtime-core/src/{types,provider,timing,supervisor}.rs])

    The data of a turn, the errors with their exact messages, and the failure each
    supervisor error is reported as. Durations and instants are nanoseconds. *)

From S2P Require Import Prelude Text Float Policy Circuit Sentence Response ResponseStream.

#[local] Open Scope Z_scope.

(** ** Lanes and timing *)

Inductive TurnLane := SpokenResponseLane | StructuredEffectsLane.
#[export] Instance TurnLane_eq_dec : EqDecision TurnLane.
Proof. solve_decision. Defined.

Inductive LaneLifecycle :=
| LanePending | LaneRunning | LaneCompleted | LaneNeutralized | LaneCancelled | LaneFailed.
#[export] Instance LaneLifecycle_eq_dec : EqDecision LaneLifecycle.
Proof. solve_decision. Defined.

Inductive SpanOutcome := SpanOk | SpanCancelled | SpanDegraded | SpanError.

Record TimingSpan := {
  ts_name : str;
  ts_started_after_turn_start : Z;
  ts_duration : Z;
  ts_outcome : SpanOutcome;
  ts_attributes : gmap str str
}.

(** A running span; [turn_start] belongs to its collector. *)
Record TimingGuard := {
  tg_turn_start : Z;
  tg_name : str;
  tg_started : Z
}.

(** The span of [TimingGuard::finish] at the instant [now]. *)
Definition guard_span (g : TimingGuard) (now : Z) (outcome : SpanOutcome)
    (attributes : gmap str str) : TimingSpan := {|
  ts_name := tg_name g;
  ts_started_after_turn_start := saturating_duration_since (tg_started g) (tg_turn_start g);
  ts_duration := saturating_duration_since now (tg_started g);
  ts_outcome := outcome;
  ts_attributes := attributes |}.

(** ** Requests and answers of the dependencies *)

Record CharacterIdentity := {
  ci_character_id : option str;
  ci_display_name : str;
  ci_confidence : f32;
  ci_evidence : list str;
  ci_explicit_selection : bool
}.

Record MemoryContext := {
  mc_working_context : list str;
  mc_episodic_memories : list str;
  mc_canon_facts : list str;
  mc_relationship_summary : option str;
  mc_retrieval_degraded : bool
}.

(** [MemoryContext::default] with [retrieval_degraded] set. *)
Definition memory_degraded : MemoryContext := {|
  mc_working_context := []; mc_episodic_memories := []; mc_canon_facts := [];
  mc_relationship_summary := None; mc_retrieval_degraded := true |}.

Record GenerationRequest := {
  gr_identity : TurnIdentity;
  gr_transcript : str;
  gr_character : CharacterIdentity;
  gr_memory : MemoryContext;
  gr_locale : str;
  gr_metadata : gmap str str
}.

Record EffectsRequest := {
  er_generation : GenerationRequest;
  er_response_text_hint : option str
}.

Record LlmDelta := { dl_text : str; dl_sequence : Z }.

Record SpeechRequest := {
  sr_identity : TurnIdentity;
  sr_sentence_id : Z;
  sr_text : str;
  sr_locale : str;
  sr_voice_hint : option str
}.

Record AudioChunk := {
  ch_sequence : Z;
  ch_sample_rate_hz : Z;
  ch_channels : Z;
  ch_pcm_s16le : list Z;
  ch_end_of_stream : bool
}.

Inductive SpeechTimingSymbolKind := ProviderViseme | Phoneme.

Record AlignmentEvent := {
  al_text_offset : Z;
  al_text_length : Z;
  al_audio_offset : Z;
  al_audio_duration : option Z;
  al_viseme : option str;
  al_symbol_kind : option SpeechTimingSymbolKind;
  al_symbol_provider_id : option str;
  al_symbol_model_id : option str
}.

Inductive SpeechStreamItem :=
| SpeechAudio (chunk : AudioChunk)
| SpeechAlignment (event : AlignmentEvent).

(** ** Errors of the providers and of the runtime dependencies *)

Inductive ProviderErrorKind :=
| KindCancelled | Timeout | RateLimited | Authentication | InvalidRequest | KindUnavailable
| KindProtocol | KindInternal.
#[export] Instance ProviderErrorKind_eq_dec : EqDecision ProviderErrorKind.
Proof. solve_decision. Defined.

Record ProviderError := {
  pe_provider_id : str;
  pe_kind : ProviderErrorKind;
  pe_message : str;
  pe_retryable : bool;
  pe_retry_after : option Z
}.

Definition provider_error_text (error : ProviderError) : str :=
  pe_provider_id error ++ lit ": " ++ pe_message error.

(** [ProviderError::cancelled] and [ProviderError::unavailable]. *)
Definition provider_error_cancelled (provider_id : str) : ProviderError := {|
  pe_provider_id := provider_id; pe_kind := KindCancelled;
  pe_message := lit "request cancelled"; pe_retryable := true; pe_retry_after := None |}.
Definition provider_error_unavailable (provider_id message : str) : ProviderError := {|
  pe_provider_id := provider_id; pe_kind := KindUnavailable;
  pe_message := message; pe_retryable := true; pe_retry_after := None |}.

Inductive RuntimeDependencyError :=
| DependencyCancelled
| DependencyUnavailable (message : str)
| DependencyInvalid (message : str)
| DependencyInternal (message : str).

Definition dependency_error_text (error : RuntimeDependencyError) : str :=
  match error with
  | DependencyCancelled => lit "cancelled"
  | DependencyUnavailable message => lit "temporarily unavailable: " ++ message
  | DependencyInvalid message => lit "invalid dependency response: " ++ message
  | DependencyInternal message => lit "dependency failed: " ++ message
  end.

(** [RuntimeDependencyError::retryable]. *)
Definition dependency_retryable (error : RuntimeDependencyError) : bool :=
  match error with DependencyCancelled | DependencyUnavailable _ => true | _ => false end.

(** ** Formatting *)

(** The fractional digits of [Duration]'s [Debug], without trailing zeros. *)
Fixpoint duration_fraction (digits : nat) (fractional divisor : Z) : str :=
  match digits with
  | O => []
  | S digits =>
      if 0 <? fractional
      then (48 + fractional / divisor) :: duration_fraction digits (fractional mod divisor) (divisor / 10)
      else []
  end.

Definition duration_decimal (integer fractional divisor : Z) (suffix : str) : str :=
  dec integer ++ (if 0 <? fractional then 46 :: duration_fraction 9 fractional divisor else [])
  ++ suffix.

(** [Duration]'s [Debug]. *)
Definition duration_debug (d : Z) : str :=
  let secs := d / 1000000000 in
  let nanos := d mod 1000000000 in
  if 0 <? secs then duration_decimal secs nanos 100000000 (lit "s") else
  if 1000000 <=? nanos
  then duration_decimal (nanos / 1000000) (nanos mod 1000000) 100000 (lit "ms") else
  if 1000 <=? nanos
  then duration_decimal (nanos / 1000) (nanos mod 1000) 100 [181; 115] else
  duration_decimal nanos 0 1 (lit "ns").

Definition circuit_open_text (error : CircuitOpen) : str :=
  lit "provider circuit is open; retry after " ++ duration_debug (retry_after error).

(** The derived [Debug] of a modality and of a privacy decision. *)
Definition modality_debug (m : ProviderModality) : str :=
  match m with
  | Recognition => lit "Recognition" | LanguageModel => lit "LanguageModel"
  | Policy.Effects => lit "Effects" | Speech => lit "Speech"
  end.

Definition decision_debug (d : PrivacyDecision) : str :=
  match d with
  | Allowed => lit "Allowed" | BlockedOffline => lit "BlockedOffline"
  | BlockedFullyLocal => lit "BlockedFullyLocal"
  | CloudProviderNotAuthorized => lit "CloudProviderNotAuthorized"
  | RetentionNotAuthorized => lit "RetentionNotAuthorized"
  end.

(** The [Display] of a turn identity. *)
Definition identity_text (i : TurnIdentity) : str :=
  ti_session_id i ++ lit "/" ++ ti_turn_id i ++ lit "@" ++ dec (ti_cancellation_generation i).

Definition circuit_key (d : ProviderDescriptor) : str :=
  modality_debug (pd_modality d) ++ lit ":" ++ pd_id d.

Definition error_attributes (message : str) : gmap str str := {[ lit "error" := message ]}.

(** ** Outcomes and events *)

Record TurnOutcome := {
  to_identity : TurnIdentity;
  to_lifecycle : TurnLifecycle;
  to_full_response : str;
  to_structured_response : option NpcResponseEnvelopeV1;
  to_effects : NpcEffectsV1;
  to_delivered : list DeliveredSentence;
  to_degradations : list Degradation;
  to_selected_llm_provider : option str;
  to_selected_tts_providers : list str;
  to_error : option TurnFailure
}.

Inductive TurnEvent :=
| EvLifecycle (identity : TurnIdentity) (stage : TurnLifecycle)
| EvLaneLifecycle (identity : TurnIdentity) (lane : TurnLane) (stage : LaneLifecycle)
| EvCharacterResolved (identity : TurnIdentity) (character : CharacterIdentity)
| EvMemoryReady (identity : TurnIdentity) (context : MemoryContext)
| EvTextDelta (identity : TurnIdentity) (delta : LlmDelta)
| EvSentenceReady (identity : TurnIdentity) (sentence : SentenceSpan)
| EvSpeechStarted (identity : TurnIdentity) (sentence_id : Z) (provider_id : str)
| EvSpeechDelivered (identity : TurnIdentity) (sentence : DeliveredSentence)
| EvEffectsReady (identity : TurnIdentity) (effects : NpcEffectsV1)
| EvDegraded (identity : TurnIdentity) (degradation : Degradation) (reason : str)
| EvProviderRejected (identity : TurnIdentity) (provider_id reason : str)
| EvTiming (identity : TurnIdentity) (span : TimingSpan)
| EvTerminal (outcome : TurnOutcome).

(** [TurnEvent::identity]. *)
Definition event_identity (ev : TurnEvent) : TurnIdentity :=
  match ev with
  | EvLifecycle identity _ | EvLaneLifecycle identity _ _ | EvCharacterResolved identity _
  | EvMemoryReady identity _ | EvTextDelta identity _ | EvSentenceReady identity _
  | EvSpeechStarted identity _ _ | EvSpeechDelivered identity _ | EvEffectsReady identity _
  | EvDegraded identity _ _ | EvProviderRejected identity _ _ | EvTiming identity _ => identity
  | EvTerminal outcome => to_identity outcome
  end.

(** ** Configuration and errors of the supervisor *)

Record SupervisorConfig := {
  event_channel_capacity : Z;
  sentence_channel_capacity : Z;
  sentence_segmentation : SentenceSegmenterConfig;
  circuit_breaker : CircuitBreakerConfig;
  allowed_actions : list str
}.

Definition supervisor_config_default : SupervisorConfig := {|
  event_channel_capacity := 256; sentence_channel_capacity := 8;
  sentence_segmentation := sentence_config_default; circuit_breaker := circuit_default;
  allowed_actions := [] |}.

Inductive SupervisorError :=
| TurnCancelled
| NoAuthorizedProvider (modality : ProviderModality)
| ProvidersExhausted (modality : ProviderModality) (last_error : str)
| StreamFailed (error : ProviderError)
| InvalidProviderResponse (error : StreamingResponseError)
| DependencyFailed (error : RuntimeDependencyError).

Definition supervisor_error_text (error : SupervisorError) : str :=
  match error with
  | TurnCancelled => lit "turn cancelled"
  | NoAuthorizedProvider m =>
      lit "no privacy-authorized " ++ modality_debug m ++ lit " provider is available"
  | ProvidersExhausted m last_error =>
      lit "all " ++ modality_debug m ++ lit " providers failed before output: " ++ last_error
  | StreamFailed error =>
      lit "provider stream failed after output began: " ++ provider_error_text error
  | InvalidProviderResponse error =>
      lit "provider response contract failed: " ++ streaming_error_text error
  | DependencyFailed error => lit "runtime dependency failed: " ++ dependency_error_text error
  end.

(** [SupervisorError::failure]. *)
Definition failure (error : SupervisorError) : TurnFailure :=
  let report code retryable := {| tf_code := lit code;
    tf_message := supervisor_error_text error; tf_retryable := retryable |} in
  match error with
  | TurnCancelled => report "cancelled" true
  | NoAuthorizedProvider _ => report "privacy_policy_blocked" false
  | ProvidersExhausted _ _ => report "providers_exhausted" true
  | InvalidProviderResponse _ => report "provider_response_invalid" true
  | StreamFailed error => report "provider_stream_failed" (pe_retryable error)
  | DependencyFailed error => report "runtime_dependency_failed" (dependency_retryable error)
  end%string.

Definition is_turn_cancelled (error : SupervisorError) : bool :=
  match error with TurnCancelled => true | _ => false end.
