(* ===== verification/Lanes.v ===== *)
(** * The lanes of a turn ([crates/runtime-core/src/supervisor.rs])

    The language-model lane, the effects lane and the speech lane, as programs over
    the operations of their environment. A provider is its descriptor. The answer to
    [StreamResponse] is the whole stream the provider goes on to deliver; the lane
    still reads it item by item, racing every read against cancellation. A circuit
    permit is the key of its circuit: [held] is the drop of a permit that is live
    across an early return or a panic.

    The second half runs one turn from start to end: [run_turn_inner], [run_turn] and the
    task [start_turn] spawns. *)

From S2P Require Import Prelude Text Float Policy Circuit Sentence BrokerTypes Response ResponseStream Prog Turn.

#[local] Open Scope Z_scope.

Inductive TrySendResult := Sent | ChannelFull | ChannelClosed.

(** A handle of a speech session, and the stream a synthesis answers with. *)
Abbreviation TtsSession := nat (only parsing).
Abbreviation SpeechStream := (list (result ProviderError SpeechStreamItem)) (only parsing).

(** What the tasks of a turn ask of their environment. *)
Inductive turn_op : Type → Type :=
| IsCancelled : turn_op bool
| Now : turn_op Z
| TrySend (ev : TurnEvent) : turn_op TrySendResult
| TryAcquire (key : str) : turn_op (result CircuitOpen ())
| FinishPermit (key : str) (how : PermitEnd) : turn_op ()
| StreamResponse (provider : ProviderDescriptor) (request : GenerationRequest)
    : turn_op (result ProviderError (list (result ProviderError LlmDelta)))
| SendSentence (sentence : SentenceSpan) : turn_op bool
| DeriveEffects (provider : ProviderDescriptor) (request : EffectsRequest)
    : turn_op (option (result ProviderError NpcEffectsV1))
| StartSession (provider : ProviderDescriptor) (identity : TurnIdentity) (locale : str)
    : turn_op (result ProviderError TtsSession)
| Synthesize (session : TtsSession) (request : SpeechRequest)
    : turn_op (result ProviderError SpeechStream)
| Play (identity : TurnIdentity) (sentence_id : Z) (stream : SpeechStream)
    : turn_op (result RuntimeDependencyError PlaybackReceipt)
| CloseSession (session : TtsSession) : turn_op (result ProviderError ())
| Resolve (request : TurnRequest) : turn_op (result RuntimeDependencyError CharacterIdentity)
| Retrieve (request : TurnRequest) : turn_op (result RuntimeDependencyError MemoryContext)
| CommitDelivered (identity : TurnIdentity) (transcript : str) (delivered : list DeliveredSentence)
    : turn_op (result RuntimeDependencyError ())
| JoinFailed : turn_op str
| CompleteLease (status : CompletionStatus) : turn_op ()
| SendCompletion (outcome : TurnOutcome) : turn_op ()
| ClearIfCurrent (identity : TurnIdentity) : turn_op ().

(** An action of a trace: an operation with its answer. *)
Inductive turn_act :=
| Act {X : Type} (o : turn_op X) (x : X).

Abbreviation task A := (prog turn_op SupervisorError A) (only parsing).

(** ** The event emitter *)

(** [EventEmitter::emit]: a cancelled generation emits nothing, a full or closed
    channel drops the event. *)
Definition emit (ev : TurnEvent) : task () :=
  cancelled ← perform IsCancelled;
  if cancelled : bool then Raise TurnCancelled else
  _ ← perform (TrySend ev);
  Ret tt.

Definition emit_lifecycle (identity : TurnIdentity) (stage : TurnLifecycle) : task () :=
  emit (EvLifecycle identity stage).
Definition emit_lane (identity : TurnIdentity) (lane : TurnLane) (stage : LaneLifecycle) : task () :=
  emit (EvLaneLifecycle identity lane stage).
Definition emit_degraded (identity : TurnIdentity) (degradation : Degradation) (reason : str)
    : task () :=
  emit (EvDegraded identity degradation reason).

(** [TimingCollector::start], and [TimingGuard::finish] with [emit_timing]. *)
Definition timing_start (turn_start : Z) (name : str) : task TimingGuard :=
  now ← perform Now;
  Ret {| tg_turn_start := turn_start; tg_name := name; tg_started := now |}.
Definition emit_timing (identity : TurnIdentity) (guard : TimingGuard) (outcome : SpanOutcome)
    (attributes : gmap str str) : task () :=
  now ← perform Now;
  emit (EvTiming identity (guard_span guard now outcome attributes)).

(** The cancelled branch of a [select!], and [generation.is_cancelled()]. *)
Definition unless_cancelled : task () :=
  cancelled ← perform IsCancelled;
  if cancelled : bool then Raise TurnCancelled else Ret tt.

Definition permit_success (key : str) : task () := perform (FinishPermit key PermitSuccess).
Definition permit_failure (key : str) : task () := perform (FinishPermit key PermitFailure).
Definition held {A} (key : str) (p : task A) : task A :=
  on_exit (perform (FinishPermit key PermitDrop)) p.

(** The providers of a lane the privacy policy lets through. *)
Definition allowed_candidates (providers : list ProviderDescriptor) (routing : RoutingPlan)
    : list ProviderDescriptor :=
  List.filter (λ d, bool_decide (evaluate (rp_privacy routing) d = Allowed)) providers.

(** The degradation a lane reports when another provider than the primary served. *)
Definition fallback_degradation (primary provider : ProviderDescriptor) : Degradation :=
  ProviderFallback (pd_id primary) (pd_id provider).

Definition report_fallback (identity : TurnIdentity) (primary provider : ProviderDescriptor)
    (reason : str) : task (list Degradation) :=
  if str_eqb (pd_id provider) (pd_id primary) then Ret [] else
  emit_degraded identity (fallback_degradation primary provider) reason;;
  Ret [fallback_degradation primary provider].

(** ** The language-model lane *)

Record LlmLaneResult := {
  ll_full_text : str;
  ll_structured_response : option NpcResponseEnvelopeV1;
  ll_provider_id : str;
  ll_degradations : list Degradation;
  ll_terminal_error : option SupervisorError
}.

Definition safe_partial_response (format : StreamingResponseFormatV1) (provider_output : str)
    (adapter : StreamingResponseAdapterV1) : str :=
  match format with
  | LegacyPlainText => provider_output
  | StructuredSpeechFirstV1 => default [] (released_spoken_text adapter)
  | StructuredV1 => []
  end.

(** The loop that emits and sends the sentences an update released. *)
Fixpoint send_sentences (identity : TurnIdentity) (sentences : list SentenceSpan) : task () :=
  match sentences with
  | [] => Ret tt
  | sentence :: sentences =>
      emit (EvSentenceReady identity sentence);;
      delivered ← perform (SendSentence sentence);
      if delivered : bool then send_sentences identity sentences else Raise TurnCancelled
  end.

(** How reading one provider's stream ends: the lane returns, or tries the next. *)
Inductive stream_end :=
| StreamReturns (result : LlmLaneResult)
| StreamFailsBeforeOutput (last_error : str).

Section llm_lane.
Context `{JsonApi} (request : GenerationRequest) (routing : RoutingPlan) (generation : Z)
  (sentence_config : SentenceSegmenterConfig) (turn_start : Z)
  (response_format : StreamingResponseFormatV1).

Definition llm_identity : TurnIdentity := gr_identity request.

(** The result of a lane that stops with an error after output began. *)
Definition llm_stopped (provider : ProviderDescriptor) (provider_output : str)
    (adapter : StreamingResponseAdapterV1) (error : SupervisorError) : stream_end :=
  StreamReturns {|
    ll_full_text := safe_partial_response response_format provider_output adapter;
    ll_structured_response := None; ll_provider_id := pd_id provider; ll_degradations := [];
    ll_terminal_error := Some error |}.

(** The end of the stream: [response_adapter.finish] and the result. *)
Definition llm_stream_end (primary provider : ProviderDescriptor)
    (first_delta_span : option TimingGuard) (provider_output : str)
    (adapter : StreamingResponseAdapterV1) : task stream_end :=
  let key := circuit_key provider in
  match first_delta_span with
  | Some span =>
      held key (emit_timing llm_identity span SpanError (error_attributes (lit "empty model response")));;
      permit_failure key;;
      Ret (StreamFailsBeforeOutput (lit "empty model response"))
  | None =>
      '(adapter, finished) ← held key (of_outcome (adapter_finish generation adapter));
      match finished with
      | Err error =>
          permit_failure key;;
          Ret (llm_stopped provider provider_output adapter (InvalidProviderResponse error))
      | Ok finalized =>
          held key (send_sentences llm_identity (fs_ready_sentences finalized));;
          permit_success key;;
          degradations ← report_fallback llm_identity primary provider
            (lit "primary LLM unavailable before output");
          Ret (StreamReturns {|
            ll_full_text := sp_text (en_spoken_response (fs_response finalized));
            ll_structured_response :=
              match response_format with
              | LegacyPlainText => None
              | _ => Some (fs_response finalized)
              end;
            ll_provider_id := pd_id provider; ll_degradations := degradations;
            ll_terminal_error := None |})
      end
  end.

(** The loop over the deltas. [first_delta_span] is there until the first non-empty
    delta. *)
Fixpoint llm_stream (primary provider : ProviderDescriptor)
    (items : list (result ProviderError LlmDelta)) (first_delta_span : option TimingGuard)
    (provider_output : str) (adapter : StreamingResponseAdapterV1) : task stream_end :=
  let key := circuit_key provider in
  held key unless_cancelled;;
  match items with
  | [] => llm_stream_end primary provider first_delta_span provider_output adapter
  | Err error :: _ =>
      permit_failure key;;
      if str_is_empty provider_output
      then Ret (StreamFailsBeforeOutput (provider_error_text error))
      else Ret (llm_stopped provider provider_output adapter (StreamFailed error))
  | Ok delta :: items =>
      if str_is_empty (dl_text delta)
      then llm_stream primary provider items first_delta_span provider_output adapter
      else
      match first_delta_span with
      | Some span =>
          held key (emit_timing llm_identity span SpanOk {[ lit "provider_id" := pd_id provider ]})
      | None => Ret tt
      end;;
      '(adapter, pushed) ← held key
        (of_outcome (push_delta generation (dl_sequence delta) (dl_text delta) adapter));
      match pushed with
      | Err error =>
          permit_failure key;;
          Ret (llm_stopped provider provider_output adapter (InvalidProviderResponse error))
      | Ok ready_sentences =>
          let provider_output := provider_output ++ dl_text delta in
          (if bool_decide (response_format = LegacyPlainText)
           then held key (emit (EvTextDelta llm_identity delta)) else Ret tt);;
          held key (send_sentences llm_identity ready_sentences);;
          llm_stream primary provider items None provider_output adapter
      end
  end.

(** The loop over the candidates. *)
Fixpoint llm_candidates (primary : ProviderDescriptor) (providers : list ProviderDescriptor)
    (last_error : str) : task LlmLaneResult :=
  match providers with
  | [] => Raise (ProvidersExhausted LanguageModel last_error)
  | provider :: providers =>
      if negb (allows_transition (rp_fallback routing) primary provider)
      then llm_candidates primary providers last_error else
      unless_cancelled;;
      let key := circuit_key provider in
      permit ← perform (TryAcquire key);
      match permit with
      | Err error => llm_candidates primary providers (circuit_open_text error)
      | Ok _ =>
          span ← timing_start turn_start (lit "llm.first_delta");
          stream ← perform (StreamResponse provider request);
          match stream with
          | Err error =>
              let last_error := provider_error_text error in
              permit_failure key;;
              emit_timing llm_identity span SpanError (error_attributes last_error);;
              llm_candidates primary providers last_error
          | Ok items =>
              adapter ← held key (of_outcome (of_panic (adapter_new response_format
                response_policy_default sentence_config generation)));
              ended ← llm_stream primary provider items (Some span) [] adapter;
              match ended with
              | StreamReturns result => Ret result
              | StreamFailsBeforeOutput last_error => llm_candidates primary providers last_error
              end
          end
      end
  end.
End llm_lane.

Definition run_llm_lane `{JsonApi} (request : GenerationRequest) (routing : RoutingPlan)
    (providers : list ProviderDescriptor) (generation : Z)
    (sentence_config : SentenceSegmenterConfig) (turn_start : Z) : task LlmLaneResult :=
  format ← map_raise InvalidProviderResponse (of_result (from_route_metadata (gr_metadata request)));
  let response_format := default LegacyPlainText format in
  match allowed_candidates providers routing with
  | [] => Raise (NoAuthorizedProvider LanguageModel)
  | primary :: rest =>
      llm_candidates request routing generation sentence_config turn_start response_format primary
        (primary :: rest) (lit "no provider attempted")
  end.

(** ** The effects lane *)

Record EffectsLaneResult := {
  el_effects : NpcEffectsV1;
  el_degradations : list Degradation;
  el_lifecycle : LaneLifecycle
}.

(** Neutral effects, with the degradation that says so. *)
Definition neutral_effects_lane (identity : TurnIdentity) (reason : str) : task EffectsLaneResult :=
  emit_degraded identity NeutralEffects reason;;
  Ret {| el_effects := effects_neutral; el_degradations := [NeutralEffects];
         el_lifecycle := LaneNeutralized |}.

Fixpoint effects_candidates (request : EffectsRequest) (routing : RoutingPlan)
    (allowed_actions : list str) (primary : ProviderDescriptor)
    (providers : list ProviderDescriptor) : task EffectsLaneResult :=
  let identity := gr_identity (er_generation request) in
  match providers with
  | [] => neutral_effects_lane identity (lit "effects providers failed; neutral effects used")
  | provider :: providers =>
      let next := effects_candidates request routing allowed_actions primary providers in
      if negb (allows_transition (rp_fallback routing) primary provider) then next else
      let key := circuit_key provider in
      permit ← perform (TryAcquire key);
      match permit with
      | Err _ => next
      | Ok _ =>
          derived ← perform (DeriveEffects provider request);
          match derived with
          | None => held key (Raise TurnCancelled)
          | Some (Ok effects) =>
              match effects_validate effects allowed_actions with
              | Ok effects =>
                  permit_success key;;
                  emit (EvEffectsReady identity effects);;
                  degradations ← report_fallback identity primary provider
                    (lit "primary effects provider unavailable");
                  Ret {| el_effects := effects; el_degradations := degradations;
                         el_lifecycle := LaneCompleted |}
              | Err _ => permit_failure key;; next
              end
          | Some (Err error) =>
              if bool_decide (pe_kind error = KindCancelled) then held key (Raise TurnCancelled)
              else permit_failure key;; next
          end
      end
  end.

Definition run_effects_lane (request : EffectsRequest) (routing : RoutingPlan)
    (providers : list ProviderDescriptor) (allowed_actions : list str) : task EffectsLaneResult :=
  match allowed_candidates providers routing with
  | [] =>
      neutral_effects_lane (gr_identity (er_generation request))
        (lit "no authorized effects provider; neutral effects used")
  | primary :: rest => effects_candidates request routing allowed_actions primary (primary :: rest)
  end.

(** ** The speech lane *)

Record SpeechLaneResult := {
  sl_delivered : list DeliveredSentence;
  sl_providers : list str;
  sl_degradations : list Degradation
}.

(** The local variables of the lane; [ss_sessions] is its [HashMap]. *)
Record speech_state := {
  ss_sessions : gmap str TtsSession;
  ss_delivered : list DeliveredSentence;
  ss_selected : list str;
  ss_degradations : list Degradation;
  ss_announced_voicing : bool
}.

Definition ss_insert_session (id : str) (session : TtsSession) (st : speech_state) : speech_state := {|
  ss_sessions := <[id := session]> (ss_sessions st); ss_delivered := ss_delivered st;
  ss_selected := ss_selected st; ss_degradations := ss_degradations st;
  ss_announced_voicing := ss_announced_voicing st |}.
Definition ss_select (id : str) (st : speech_state) : speech_state := {|
  ss_sessions := ss_sessions st; ss_delivered := ss_delivered st;
  ss_selected := if bool_decide (id ∈ ss_selected st) then ss_selected st
                 else ss_selected st ++ [id];
  ss_degradations := ss_degradations st; ss_announced_voicing := ss_announced_voicing st |}.
Definition ss_degrade (more : list Degradation) (st : speech_state) : speech_state := {|
  ss_sessions := ss_sessions st; ss_delivered := ss_delivered st; ss_selected := ss_selected st;
  ss_degradations := ss_degradations st ++ more; ss_announced_voicing := ss_announced_voicing st |}.
Definition ss_announce (st : speech_state) : speech_state := {|
  ss_sessions := ss_sessions st; ss_delivered := ss_delivered st; ss_selected := ss_selected st;
  ss_degradations := ss_degradations st; ss_announced_voicing := true |}.
Definition ss_deliver (sentence : DeliveredSentence) (st : speech_state) : speech_state := {|
  ss_sessions := ss_sessions st; ss_delivered := ss_delivered st ++ [sentence];
  ss_selected := ss_selected st; ss_degradations := ss_degradations st;
  ss_announced_voicing := ss_announced_voicing st |}.

Section speech_lane.
Context `{HashIter} (identity : TurnIdentity) (locale : str) (routing : RoutingPlan).

(** The session of a provider, started on first use; [None] is a failed start. *)
Definition open_session (provider : ProviderDescriptor) (st : speech_state)
    : task (speech_state * option TtsSession) :=
  match ss_sessions st !! pd_id provider with
  | Some session => Ret (st, Some session)
  | None =>
      started ← perform (StartSession provider identity locale);
      match started with
      | Ok session => Ret (ss_insert_session (pd_id provider) session st, Some session)
      | Err _ => Ret (st, None)
      end
  end.

(** The playback of one synthesized sentence by [provider]: the receipt of a completed
    playback, or [None] when the sink failed. *)
Definition play_sentence (primary provider : ProviderDescriptor) (sentence : SentenceSpan)
    (speech : SpeechStream) (st : speech_state) : task (speech_state * option PlaybackReceipt) :=
  let key := circuit_key provider in
  held key (emit (EvSpeechStarted identity (sentence_id sentence) (pd_id provider));;
            emit_lifecycle identity Animating);;
  receipt ← perform (Play identity (sentence_id sentence) speech);
  match receipt with
  | Ok receipt =>
      if pbr_completed receipt then
        permit_success key;;
        degradations ← report_fallback identity primary provider
          (lit "primary speech provider unavailable");
        Ret (ss_degrade degradations (ss_select (pd_id provider) st), Some receipt)
      else permit_failure key;; Raise TurnCancelled
  | Err _ => permit_failure key;; Ret (st, None)
  end.

(** The loop over the providers of one sentence. *)
Fixpoint speech_candidates (primary : ProviderDescriptor) (providers : list ProviderDescriptor)
    (sentence : SentenceSpan) (st : speech_state) : task (speech_state * option PlaybackReceipt) :=
  match providers with
  | [] => Ret (st, None)
  | provider :: providers =>
      if negb (allows_transition (rp_fallback routing) primary provider)
      then speech_candidates primary providers sentence st else
      let key := circuit_key provider in
      permit ← perform (TryAcquire key);
      match permit with
      | Err _ => speech_candidates primary providers sentence st
      | Ok _ =>
          '(st, session) ← open_session provider st;
          match session with
          | None => permit_failure key;; speech_candidates primary providers sentence st
          | Some session =>
              speech ← perform (Synthesize session {|
                sr_identity := identity; sr_sentence_id := sentence_id sentence;
                sr_text := span_text sentence; sr_locale := locale; sr_voice_hint := None |});
              match speech with
              | Err _ => permit_failure key;; speech_candidates primary providers sentence st
              | Ok speech => play_sentence primary provider sentence speech st
              end
          end
      end
  end.

Definition delivered_sentence (sentence : SentenceSpan) (receipt : option PlaybackReceipt)
    : DeliveredSentence := {|
  ds_sentence_id := sentence_id sentence; ds_text_start_bytes := text_start_bytes sentence;
  ds_text_end_bytes := text_end_bytes sentence; ds_text := span_text sentence;
  ds_delivery := match receipt with Some _ => DeliverAudio | None => DeliverSubtitle end;
  ds_audible_frames := match receipt with Some r => pbr_audible_frames r | None => 0 end;
  ds_duration := match receipt with Some r => pbr_duration r | None => 0 end |}.

(** One sentence of the channel. *)
Definition speak_sentence (candidates : list ProviderDescriptor) (sentence : SentenceSpan)
    (st : speech_state) : task speech_state :=
  st ← (if ss_announced_voicing st then Ret st
        else emit_lifecycle identity Voicing;; Ret (ss_announce st));
  '(st, receipt) ← match candidates with
                   | [] => Ret (st, None)
                   | primary :: _ => speech_candidates primary candidates sentence st
                   end;
  st ← match receipt with
       | Some _ => Ret st
       | None =>
           if bool_decide (AudioToSubtitles ∈ ss_degradations st) then Ret st else
           emit_degraded identity AudioToSubtitles
             (lit "speech unavailable; delivered through subtitles");;
           Ret (ss_degrade [AudioToSubtitles] st)
       end;
  emit (EvSpeechDelivered identity (delivered_sentence sentence receipt));;
  Ret (ss_deliver (delivered_sentence sentence receipt) st).

Fixpoint close_sessions (sessions : list TtsSession) : task () :=
  match sessions with
  | [] => Ret tt
  | session :: sessions => _ ← perform (CloseSession session); close_sessions sessions
  end.

(** The loop over the channel: [sentences] is what is received until it is closed. *)
Fixpoint speech_loop (candidates : list ProviderDescriptor) (sentences : list SentenceSpan)
    (st : speech_state) : task speech_state :=
  unless_cancelled;;
  match sentences with
  | [] => Ret st
  | sentence :: sentences =>
      st ← speak_sentence candidates sentence st;
      speech_loop candidates sentences st
  end.

Definition speech_state_new : speech_state := {|
  ss_sessions := ∅; ss_delivered := []; ss_selected := []; ss_degradations := [];
  ss_announced_voicing := false |}.

Definition run_speech_lane (sentences : list SentenceSpan) (providers : list ProviderDescriptor)
    : task SpeechLaneResult :=
  st ← speech_loop (allowed_candidates providers routing) sentences speech_state_new;
  close_sessions (hm_values (ss_sessions st));;
  Ret {| sl_delivered := ss_delivered st; sl_providers := ss_selected st;
         sl_degradations := ss_degradations st |}.
End speech_lane.

(** * One turn from start to end ([crates/runtime-core/src/supervisor.rs])

    [run_turn_inner], [run_turn] and the task [start_turn] spawns. The outcome the
    code threads through as [&mut outcome] is returned, and goes along with every
    error that leaves early. The three lanes run concurrently in the code and share
    nothing but the environment and the sentence channel; here they run one after the
    other, the speech lane on the sentences the language-model lane sent, so the order
    of the actions of different lanes in a trace has no meaning. *)

#[local] Open Scope Z_scope.

(** ** The sentence channel *)

(** What an operation put on the channel. *)
Definition sent_by {X} (o : turn_op X) : X → list SentenceSpan :=
  match o in turn_op X return X → list SentenceSpan with
  | SendSentence sentence => λ delivered, if delivered then [sentence] else []
  | _ => λ _, []
  end.

(** The exit of a program with the sentences it sent. *)
Fixpoint tally {E E' A} (sent : list SentenceSpan) (p : prog turn_op E A)
    : prog turn_op E' (list SentenceSpan * exit E A) :=
  match p with
  | Ret a => Ret (sent, Returned a)
  | Raise e => Ret (sent, Raised e)
  | Crash => Ret (sent, Crashed)
  | Vis o k => Vis o (λ x, tally (sent ++ sent_by o x) (k x))
  end.

(** Awaiting a spawned task: a panic is a join error. *)
Definition joined {A} (r : exit SupervisorError A) : task (result SupervisorError A) :=
  match r with
  | Returned a => Ret (Ok a)
  | Raised e => Ret (Err e)
  | Crashed =>
      message ← perform JoinFailed;
      Raise (DependencyFailed (DependencyInternal message))
  end.

(** ** The outcome under construction *)

Definition outcome_new (identity : TurnIdentity) : TurnOutcome := {|
  to_identity := identity; to_lifecycle := Accepted; to_full_response := [];
  to_structured_response := None; to_effects := effects_neutral; to_delivered := [];
  to_degradations := []; to_selected_llm_provider := None; to_selected_tts_providers := [];
  to_error := None |}.

Definition to_degrade (more : list Degradation) (o : TurnOutcome) : TurnOutcome := {|
  to_identity := to_identity o; to_lifecycle := to_lifecycle o;
  to_full_response := to_full_response o; to_structured_response := to_structured_response o;
  to_effects := to_effects o; to_delivered := to_delivered o;
  to_degradations := to_degradations o ++ more;
  to_selected_llm_provider := to_selected_llm_provider o;
  to_selected_tts_providers := to_selected_tts_providers o; to_error := to_error o |}.

Definition to_set_effects (effects : NpcEffectsV1) (o : TurnOutcome) : TurnOutcome := {|
  to_identity := to_identity o; to_lifecycle := to_lifecycle o;
  to_full_response := to_full_response o; to_structured_response := to_structured_response o;
  to_effects := effects; to_delivered := to_delivered o; to_degradations := to_degradations o;
  to_selected_llm_provider := to_selected_llm_provider o;
  to_selected_tts_providers := to_selected_tts_providers o; to_error := to_error o |}.

Definition to_set_speech (speech : SpeechLaneResult) (o : TurnOutcome) : TurnOutcome := {|
  to_identity := to_identity o; to_lifecycle := to_lifecycle o;
  to_full_response := to_full_response o; to_structured_response := to_structured_response o;
  to_effects := to_effects o; to_delivered := sl_delivered speech;
  to_degradations := to_degradations o ++ sl_degradations speech;
  to_selected_llm_provider := to_selected_llm_provider o;
  to_selected_tts_providers := sl_providers speech; to_error := to_error o |}.

Definition to_set_llm (llm : LlmLaneResult) (o : TurnOutcome) : TurnOutcome := {|
  to_identity := to_identity o; to_lifecycle := to_lifecycle o;
  to_full_response := ll_full_text llm; to_structured_response := ll_structured_response llm;
  to_effects := to_effects o; to_delivered := to_delivered o;
  to_degradations := to_degradations o ++ ll_degradations llm;
  to_selected_llm_provider := Some (ll_provider_id llm);
  to_selected_tts_providers := to_selected_tts_providers o; to_error := to_error o |}.

Definition to_finish (lifecycle : TurnLifecycle) (error : option TurnFailure) (o : TurnOutcome)
    : TurnOutcome := {|
  to_identity := to_identity o; to_lifecycle := lifecycle;
  to_full_response := to_full_response o; to_structured_response := to_structured_response o;
  to_effects := to_effects o; to_delivered := to_delivered o;
  to_degradations := to_degradations o;
  to_selected_llm_provider := to_selected_llm_provider o;
  to_selected_tts_providers := to_selected_tts_providers o; to_error := error |}.

(** A step of the turn: an error leaves with the outcome as it is then. *)
Abbreviation turn_step A := (prog turn_op (TurnOutcome * SupervisorError) A) (only parsing).
Definition keeping {A} (outcome : TurnOutcome) (p : task A) : turn_step A :=
  map_raise (pair outcome) p.

(** ** The steps *)

Section turn.
Context `{JsonApi} `{HashIter} (config : SupervisorConfig)
  (language_models effects_providers speech_providers : list ProviderDescriptor).

(** A dependency that failed: its span, the degradation, and the event that reports
    it. [CommitDelivered], [Resolve] and [Retrieve] share these lines. *)
Definition dependency_degraded (identity : TurnIdentity) (span : TimingGuard)
    (degradation : Degradation) (what : str) (error : RuntimeDependencyError)
    (outcome : TurnOutcome) : turn_step TurnOutcome :=
  keeping outcome (emit_timing identity span SpanDegraded
    (error_attributes (dependency_error_text error)));;
  let outcome := to_degrade [degradation] outcome in
  keeping outcome (emit_degraded identity degradation (what ++ dependency_error_text error));;
  Ret outcome.

Definition explicit_character (request : TurnRequest) : CharacterIdentity := {|
  ci_character_id := tr_character_hint request;
  ci_display_name := default (lit "Selected NPC") (tr_character_hint request);
  ci_confidence := f32_one; ci_evidence := [lit "explicit_or_generic_selection"];
  ci_explicit_selection := true |}.

Definition resolve_character (request : TurnRequest) (identity : TurnIdentity) (span : TimingGuard)
    (resolved : result RuntimeDependencyError CharacterIdentity) (outcome : TurnOutcome)
    : turn_step (TurnOutcome * CharacterIdentity) :=
  match resolved with
  | Ok character => keeping outcome (emit_timing identity span SpanOk ∅);; Ret (outcome, character)
  | Err DependencyCancelled => Raise (outcome, TurnCancelled)
  | Err error =>
      outcome ← dependency_degraded identity span IdentityToExplicitSelection
        (lit "identity resolver failed: ") error outcome;
      Ret (outcome, explicit_character request)
  end.

Definition retrieve_memory (identity : TurnIdentity) (span : TimingGuard)
    (retrieved : result RuntimeDependencyError MemoryContext) (outcome : TurnOutcome)
    : turn_step (TurnOutcome * MemoryContext) :=
  match retrieved with
  | Ok memory => keeping outcome (emit_timing identity span SpanOk ∅);; Ret (outcome, memory)
  | Err DependencyCancelled => Raise (outcome, TurnCancelled)
  | Err error =>
      outcome ← dependency_degraded identity span MemoryWithoutVectorRetrieval
        (lit "memory retrieval failed: ") error outcome;
      Ret (outcome, memory_degraded)
  end.

Fixpoint emit_policy_rejections (identity : TurnIdentity) (routing : RoutingPlan)
    (descriptors : list ProviderDescriptor) : task () :=
  match descriptors with
  | [] => Ret tt
  | d :: descriptors =>
      let decision := evaluate (rp_privacy routing) d in
      (if bool_decide (decision = Allowed) then Ret tt
       else emit (EvProviderRejected identity (pd_id d) (decision_debug decision)));;
      emit_policy_rejections identity routing descriptors
  end.

(** The result of the effects lane. *)
Definition take_effects (identity : TurnIdentity) (effects : result SupervisorError EffectsLaneResult)
    (outcome : TurnOutcome) : turn_step TurnOutcome :=
  match effects with
  | Ok result =>
      let outcome := to_degrade (el_degradations result) (to_set_effects (el_effects result) outcome) in
      keeping outcome (emit_lane identity StructuredEffectsLane (el_lifecycle result));;
      Ret outcome
  | Err TurnCancelled => Raise (outcome, TurnCancelled)
  | Err error =>
      let outcome := to_degrade [NeutralEffects] outcome in
      keeping outcome (emit_degraded identity NeutralEffects
        (lit "effects lane failed: " ++ supervisor_error_text error));;
      keeping outcome (emit_lane identity StructuredEffectsLane LaneNeutralized);;
      Ret outcome
  end.

Definition commit_memory (identity : TurnIdentity) (request : TurnRequest) (turn_start : Z)
    (outcome : TurnOutcome) : turn_step TurnOutcome :=
  span ← keeping outcome (timing_start turn_start (lit "memory.commit_delivered"));
  committed ← perform (CommitDelivered identity (tr_transcript request) (to_delivered outcome));
  match committed with
  | Ok _ => keeping outcome (emit_timing identity span SpanOk ∅);; Ret outcome
  | Err DependencyCancelled => Raise (outcome, TurnCancelled)
  | Err error =>
      dependency_degraded identity span MemoryCommitDeferred
        (lit "memory commit deferred: ") error outcome
  end.

Definition generation_request_of (request : TurnRequest) (identity : TurnIdentity)
    (character : CharacterIdentity) (memory : MemoryContext) : GenerationRequest := {|
  gr_identity := identity; gr_transcript := tr_transcript request; gr_character := character;
  gr_memory := memory; gr_locale := tr_locale request; gr_metadata := tr_metadata request |}.

(** The part of the turn before the lanes start: who speaks, and what is remembered. *)
Definition prepare_turn (request : TurnRequest) (identity : TurnIdentity) (turn_start : Z)
    (outcome : TurnOutcome) : turn_step (TurnOutcome * (CharacterIdentity * MemoryContext)) :=
  keeping outcome (emit_lifecycle identity Accepted);;
  keeping outcome (emit_lifecycle identity Identifying);;
  identity_span ← keeping outcome (timing_start turn_start (lit "identity.resolve"));
  memory_span ← keeping outcome (timing_start turn_start (lit "memory.retrieve"));
  character_result ← perform (Resolve request);
  memory_result ← perform (Retrieve request);
  '(outcome, character) ← resolve_character request identity identity_span character_result outcome;
  keeping outcome (emit (EvCharacterResolved identity character));;
  keeping outcome (emit_lifecycle identity Remembering);;
  '(outcome, memory) ← retrieve_memory identity memory_span memory_result outcome;
  keeping outcome (emit (EvMemoryReady identity memory));;
  let routing := plan_from_request request in
  keeping outcome (emit_policy_rejections identity routing
    (language_models ++ effects_providers ++ speech_providers));;
  keeping outcome (emit_lifecycle identity Responding);;
  keeping outcome (emit_lane identity SpokenResponseLane LaneRunning);;
  keeping outcome (emit_lane identity StructuredEffectsLane LaneRunning);;
  Ret (outcome, (character, memory)).

(** The three lanes, joined: the result of each, or the panic of the first. *)
Definition run_lanes (request : TurnRequest) (identity : TurnIdentity) (turn_start : Z)
    (generation_request : GenerationRequest)
    : task (exit SupervisorError LlmLaneResult * result SupervisorError SpeechLaneResult
            * result SupervisorError EffectsLaneResult) :=
  let routing := plan_from_request request in
  '(sent, llm) ← tally [] (run_llm_lane generation_request routing language_models
    (ti_cancellation_generation identity) (sentence_segmentation config) turn_start);
  speech ← exit_of (run_speech_lane identity (tr_locale request) routing sent speech_providers);
  effects ← exit_of (run_effects_lane
    {| er_generation := generation_request; er_response_text_hint := None |} routing
    effects_providers (allowed_actions config));
  match llm with
  | Crashed => Crash
  | _ =>
      speech ← joined speech;
      effects ← joined effects;
      Ret (llm, speech, effects)
  end.

Definition run_turn_inner (request : TurnRequest) (identity : TurnIdentity) (turn_start : Z)
    (outcome : TurnOutcome) : turn_step TurnOutcome :=
  '(outcome, (character, memory)) ← prepare_turn request identity turn_start outcome;
  let generation_request := generation_request_of request identity character memory in
  '(llm_result, speech_result, effects_result) ← keeping outcome
    (run_lanes request identity turn_start generation_request);
  outcome ← take_effects identity effects_result outcome;
  outcome ← match speech_result with
            | Ok result => Ret (to_set_speech result outcome)
            | Err error => Raise (outcome, error)
            end;
  llm ← keeping outcome (prog_of_exit llm_result);
  let outcome := to_set_llm llm outcome in
  keeping outcome (emit_lane identity SpokenResponseLane
    (match ll_terminal_error llm with Some _ => LaneFailed | None => LaneCompleted end));;
  keeping outcome (emit_lifecycle identity Committing);;
  outcome ← commit_memory identity request turn_start outcome;
  match ll_terminal_error llm with
  | Some error => Raise (outcome, error)
  | None => keeping outcome (emit_lifecycle identity Completed);; Ret outcome
  end.

(** [run_turn] never fails: every error becomes part of the outcome. *)
Definition run_turn (request : TurnRequest) (identity : TurnIdentity)
    : prog turn_op Empty_set TurnOutcome :=
  turn_start ← perform Now;
  result ← exit_of (run_turn_inner request identity turn_start (outcome_new identity));
  match result with
  | Returned outcome =>
      cancelled ← perform IsCancelled;
      Ret (if cancelled : bool then to_finish Cancelled (Some (failure TurnCancelled)) outcome
           else to_finish Completed None outcome)
  | Raised (outcome, TurnCancelled) =>
      Ret (to_finish Cancelled (Some (failure TurnCancelled)) outcome)
  | Raised (outcome, error) => Ret (to_finish Failed (Some (failure error)) outcome)
  | Crashed => Crash
  end.

(** The status a lease is completed with. *)
Definition completion_status (lifecycle : TurnLifecycle) : CompletionStatus :=
  match lifecycle with
  | Completed => StatusCompleted
  | Cancelled => StatusCancelled
  | _ => StatusFailed
  end.

(** The task [start_turn] spawns; [leased] when the turn holds a resource lease. *)
Definition turn_task (request : TurnRequest) (identity : TurnIdentity) (leased : bool)
    : prog turn_op Empty_set TurnOutcome :=
  outcome ← run_turn request identity;
  (if leased then perform (CompleteLease (completion_status (to_lifecycle outcome))) else Ret tt);;
  _ ← perform (TrySend (EvTerminal outcome));
  perform (SendCompletion outcome);;
  perform (ClearIfCurrent identity);;
  Ret outcome.
End turn.
