(* ===== verification/LaneSpec.v ===== *)
(** * What the lanes of a turn promise

    Every provider call is authorized and under a permit of its own circuit, a lane
    stops the moment it sees its cancellation, no provider takes over once output
    began, and the sentences that are spoken are those of the response. *)

From S2P Require Import Prelude Text Policy Circuit Sentence SentenceSpec BrokerTypes Response ResponseStream ResponseSpec Prog Turn Lanes.

#[local] Open Scope Z_scope.

Abbreviation act_runs := (runs (act := turn_act) (@Act)) (only parsing).
Abbreviation act_always := (always (act := turn_act) (@Act)) (only parsing).
Abbreviation act_wp := (wp (act := turn_act) (@Act)) (only parsing).

(** ** Authorized calls *)

(** A provider of [pool] that the privacy policy allows and that the fallback policy
    lets take over from the first such provider. *)
Definition provider_authorized (routing : RoutingPlan) (pool : list ProviderDescriptor)
    (p : ProviderDescriptor) : Prop :=
  p ∈ pool ∧ evaluate (rp_privacy routing) p = Allowed ∧
  ∃ primary, allowed_candidates pool routing !! 0%nat = Some primary ∧
    allows_transition (rp_fallback routing) primary p = true.

(** No terminal event, and stages of the turn only where [stages] says so. *)
Definition event_ok (stages : bool) (ev : TurnEvent) : Prop :=
  match ev with EvTerminal _ => False | EvLifecycle _ _ => stages = true | _ => True end.

(** What every action of a turn before its end satisfies: events carry the identity
    of the turn and are not terminal, a call goes to an authorized provider of the
    pool of its modality. *)
Definition lane_act (stages : bool) (identity : TurnIdentity) (routing : RoutingPlan)
    (pools : ProviderModality → list ProviderDescriptor) (a : turn_act) : Prop :=
  match a with
  | Act o _ =>
      match o with
      | TrySend ev => event_identity ev = identity ∧ event_ok stages ev
      | StreamResponse p _ => provider_authorized routing (pools LanguageModel) p
      | DeriveEffects p _ => provider_authorized routing (pools Policy.Effects) p
      | StartSession p _ _ => provider_authorized routing (pools Speech) p
      | CompleteLease _ | SendCompletion _ | ClearIfCurrent _ => False
      | _ => True
      end
  end.

Section always.
Context (stages : bool) (identity : TurnIdentity) (routing : RoutingPlan)
  (pools : ProviderModality → list ProviderDescriptor).
Abbreviation P := (lane_act stages identity routing pools).

Lemma always_emit ev :
  event_identity ev = identity → event_ok stages ev → act_always P (emit ev).
Proof using. intros H1 H2 c. split; [done|]. by destruct c. Qed.

Lemma always_emit_timing span outcome attributes :
  act_always P (emit_timing identity span outcome attributes).
Proof using. intros x. split; [done|]. by apply always_emit. Qed.

Lemma always_unless_cancelled : act_always P unless_cancelled.
Proof using. intros c. split; [done|]. by destruct c. Qed.

Lemma always_held {A} key (p : task A) : act_always P p → act_always P (held key p).
Proof using. intros Hp. apply always_on_exit; [|done]. done. Qed.

Lemma always_of_outcome {A} (r : outcome A) : act_always P (of_outcome r : task A).
Proof using. by destruct r. Qed.

Lemma always_report_fallback primary provider reason :
  act_always P (report_fallback identity primary provider reason).
Proof using.
  unfold report_fallback. destruct (str_eqb _ _); [done|]. apply always_bind; [|done].
  by apply always_emit.
Qed.

Lemma always_send_sentences sentences : act_always P (send_sentences identity sentences).
Proof using.
  induction sentences as [|s ss IH]; [done|]. cbn [send_sentences].
  apply always_bind; [by apply always_emit|]. intros _ d. split; [done|]. by destruct d.
Qed.
End always.

#[export] Hint Resolve always_emit always_emit_timing always_unless_cancelled always_held
  always_of_outcome always_report_fallback always_send_sentences : prog.

#[export] Hint Extern 0 (event_ok _ _) => first [exact I | reflexivity] : prog.
#[export] Hint Extern 0 (always _ _ (Raise _)) => exact I : prog.
#[export] Hint Extern 0 (always _ _ (Ret _)) => exact I : prog.

(** Walks through a program, splitting binds and matches. *)
Ltac always_step :=
  match goal with
  | |- always _ _ (Ret _) => exact I
  | |- always _ _ (Raise _) => exact I
  | |- always _ _ Crash => exact I
  | |- always _ _ (_ ≫= _) => apply always_bind; [|intros ?]
  | |- always _ _ (perform _) => intros ?; split; [done|exact I]
  | |- always _ _ (permit_failure _) => intros ?; split; [done|exact I]
  | |- always _ _ (permit_success _) => intros ?; split; [done|exact I]
  | |- always _ _ (timing_start _ _) => intros ?; split; [done|exact I]
  | |- always _ _ (match ?x with _ => _ end) => destruct x
  | |- always _ _ _ => solve [auto with prog]
  end.
Ltac always_tac := repeat always_step.

Lemma elem_of_allowed pool routing p :
  p ∈ allowed_candidates pool routing ↔ p ∈ pool ∧ evaluate (rp_privacy routing) p = Allowed.
Proof.
  unfold allowed_candidates. rewrite !list_elem_of_In, filter_In. by rewrite bool_decide_eq_true.
Qed.

(** The candidates of a lane from the first one on: each is authorized unless the
    fallback policy skips it. *)
Lemma allowed_authorized pool routing primary rest p :
  allowed_candidates pool routing = primary :: rest → p ∈ primary :: rest →
  allows_transition (rp_fallback routing) primary p = true → provider_authorized routing pool p.
Proof.
  intros Ha Hp Ht. rewrite <-Ha, elem_of_allowed in Hp. destruct Hp as [Hin Hev].
  split; [done|]. split; [done|]. exists primary. by rewrite Ha.
Qed.

Section lanes_always.
Context `{JsonApi} `{HashIter} (stages : bool) (routing : RoutingPlan) (pools : ProviderModality → list ProviderDescriptor).

Lemma llm_stream_always request generation format primary provider items span output adapter :
  act_always (lane_act stages (gr_identity request) routing pools)
    (llm_stream request generation format primary provider items span output adapter).
Proof using.
  revert span output adapter. induction items as [|[delta|error] items IH]; intros span output adapter;
    cbn [llm_stream].
  - unfold llm_stream_end. always_tac.
  - always_tac. all: apply IH.
  - always_tac.
Qed.

Lemma llm_candidates_always request generation config turn_start format primary rest providers
    last_error :
  allowed_candidates (pools LanguageModel) routing = primary :: rest → providers ⊆ primary :: rest →
  act_always (lane_act stages (gr_identity request) routing pools)
    (llm_candidates request routing generation config turn_start format primary providers last_error).
Proof using.
  intros Ha. revert last_error. induction providers as [|provider providers IH];
    intros last_error Hsub; cbn [llm_candidates]; [exact I|].
  assert (providers ⊆ primary :: rest) as Hrest by set_solver.
  destruct (allows_transition _ _ _) eqn:Ht; cbn [negb]; [|by apply IH].
  assert (provider_authorized routing (pools LanguageModel) provider) as Hauth
    by (eapply allowed_authorized; [done| |done]; set_solver).
  apply always_bind; [by auto with prog|]. intros _. always_step; [always_step|].
  match goal with x : result CircuitOpen () |- _ => destruct x end; [|by apply IH].
  always_step; [always_step|]. always_step.
  { intros x. by split. }
  match goal with x : result ProviderError _ |- _ => destruct x as [items|error] end.
  - always_step; [always_step|]. always_step; [apply llm_stream_always|].
    always_step; [exact I|by apply IH].
  - always_step; [always_step|]. always_step; [always_step|by apply IH].
Qed.

Lemma run_llm_lane_always request generation config turn_start :
  act_always (lane_act stages (gr_identity request) routing pools)
    (run_llm_lane request routing (pools LanguageModel) generation config turn_start).
Proof using.
  unfold run_llm_lane. apply always_bind.
  { apply always_map_raise. by destruct (from_route_metadata _). }
  intros format. destruct (allowed_candidates (pools LanguageModel) routing) as [|primary rest] eqn:Ha; [exact I|].
  by eapply llm_candidates_always.
Qed.

Lemma effects_candidates_always request actions primary rest providers :
  allowed_candidates (pools Policy.Effects) routing = primary :: rest → providers ⊆ primary :: rest →
  act_always (lane_act stages (gr_identity (er_generation request)) routing pools)
    (effects_candidates request routing actions primary providers).
Proof using.
  intros Ha. induction providers as [|provider providers IH]; intros Hsub;
    cbn [effects_candidates]; [unfold neutral_effects_lane, emit_degraded; always_tac|].
  assert (providers ⊆ primary :: rest) as Hrest by set_solver.
  destruct (allows_transition _ _ _) eqn:Ht; cbn [negb]; [|by apply IH].
  assert (provider_authorized routing (pools Policy.Effects) provider) as Hauth
    by (eapply allowed_authorized; [done| |done]; set_solver).
  always_step; [always_step|].
  match goal with x : result CircuitOpen () |- _ => destruct x end; [|by apply IH].
  always_step. { intros x. by split. }
  always_tac; by apply IH.
Qed.

Lemma run_effects_lane_always request actions :
  act_always (lane_act stages (gr_identity (er_generation request)) routing pools)
    (run_effects_lane request routing (pools Policy.Effects) actions).
Proof using.
  unfold run_effects_lane. destruct (allowed_candidates (pools Policy.Effects) routing) as [|primary rest] eqn:Ha.
  - unfold neutral_effects_lane, emit_degraded. always_tac.
  - by eapply effects_candidates_always.
Qed.

Lemma open_session_always identity locale provider st :
  provider_authorized routing (pools Speech) provider →
  act_always (lane_act true identity routing pools) (open_session identity locale provider st).
Proof using.
  intros Hauth. unfold open_session. destruct (ss_sessions st !! _); [exact I|].
  apply always_bind; [|intros []; exact I]. intros x. by split.
Qed.

Lemma speech_candidates_always identity locale primary rest providers sentence st :
  allowed_candidates (pools Speech) routing = primary :: rest → providers ⊆ primary :: rest →
  act_always (lane_act true identity routing pools)
    (speech_candidates identity locale routing primary providers sentence st).
Proof using.
  intros Ha. revert st. induction providers as [|provider providers IH]; intros st Hsub;
    cbn [speech_candidates]; [exact I|].
  assert (providers ⊆ primary :: rest) as Hrest by set_solver.
  destruct (allows_transition _ _ _) eqn:Ht; cbn [negb]; [|by apply IH].
  assert (provider_authorized routing (pools Speech) provider) as Hauth
    by (eapply allowed_authorized; [done| |done]; set_solver).
  always_step; [always_step|].
  match goal with x : result CircuitOpen () |- _ => destruct x end; [|by apply IH].
  always_step; [by apply open_session_always|]. unfold play_sentence, emit_lifecycle.
  always_tac; first [by apply IH | apply always_held; always_tac].
Qed.

Lemma speak_sentence_always identity locale candidates sentence st :
  allowed_candidates (pools Speech) routing = candidates →
  act_always (lane_act true identity routing pools)
    (speak_sentence identity locale routing candidates sentence st).
Proof using.
  intros Ha. unfold speak_sentence, emit_lifecycle, emit_degraded. always_tac.
  by eapply speech_candidates_always.
Qed.

Lemma run_speech_lane_always identity locale sentences :
  act_always (lane_act true identity routing pools)
    (run_speech_lane identity locale routing sentences (pools Speech)).
Proof using.
  unfold run_speech_lane. apply always_bind.
  - generalize speech_state_new. induction sentences as [|sentence sentences IH]; intros st;
      cbn [speech_loop]; [always_tac|].
    always_step; [always_step|]. always_step; [by apply speak_sentence_always|apply IH].
  - intros st. apply always_bind; [|intros; exact I].
    induction (hm_values (ss_sessions st)) as [|session sessions IH]; cbn [close_sessions]; [exact I|].
    always_step; [always_step|apply IH].
Qed.
End lanes_always.

(** ** Permits *)

(** Actions that only observe or report. *)
Definition quiet_act (a : turn_act) : Prop :=
  match a with
  | Act o _ => match o with IsCancelled | Now | TrySend _ | SendSentence _ => True | _ => False end
  end.

Lemma quiet_emit ev : act_always quiet_act (emit ev).
Proof. intros c. split; [done|]. by destruct c. Qed.
Lemma quiet_emit_timing identity span outcome attributes :
  act_always quiet_act (emit_timing identity span outcome attributes).
Proof. intros x. split; [done|]. apply quiet_emit. Qed.
Lemma quiet_unless_cancelled : act_always quiet_act unless_cancelled.
Proof. intros c. split; [done|]. by destruct c. Qed.
Lemma quiet_of_outcome {A} (r : outcome A) : act_always quiet_act (of_outcome r : task A).
Proof. by destruct r. Qed.
Lemma quiet_timing_start turn_start name : act_always quiet_act (timing_start turn_start name).
Proof. by intros x. Qed.
Lemma quiet_report_fallback identity primary provider reason :
  act_always quiet_act (report_fallback identity primary provider reason).
Proof.
  unfold report_fallback. destruct (str_eqb _ _); [done|].
  apply always_bind; [|done]. apply quiet_emit.
Qed.
Lemma quiet_send_sentences identity sentences : act_always quiet_act (send_sentences identity sentences).
Proof.
  induction sentences as [|s ss IH]; [done|]. cbn [send_sentences].
  apply always_bind; [apply quiet_emit|]. intros _ d. split; [done|]. by destruct d.
Qed.
#[export] Hint Resolve quiet_emit quiet_emit_timing quiet_unless_cancelled quiet_of_outcome
  quiet_timing_start quiet_report_fallback quiet_send_sentences always_bind : quiet.

(** A monitor that ignores quiet actions keeps its state through a quiet program. *)
Lemma wp_quiet {S A} (step : S → turn_act → option S) (p : task A) s Q :
  (∀ a, quiet_act a → step s a = Some s) → act_always quiet_act p →
  (∀ r, Q s r) → act_wp step s p Q.
Proof.
  intros Hstep Hp HQ. induction p as [a|e| |X o k IH]; cbn in *; [by apply HQ..|].
  intros x. destruct (Hp x) as [Hx Hk]. exists s. split; [by apply Hstep|]. by apply IH.
Qed.

(** The permit a lane holds, by its circuit. A lane takes a permit only when it holds
    none, ends only the one it holds, and calls a provider only under the permit of
    that provider's circuit; playback needs some permit. *)
Definition permit_step (permit : option str) (a : turn_act) : option (option str) :=
  match a with
  | Act o x =>
      match o in turn_op X return X → option (option str) with
      | TryAcquire key => λ acquired,
          match acquired, permit with
          | Err _, _ => Some permit
          | Ok _, None => Some (Some key)
          | Ok _, Some _ => None
          end
      | FinishPermit key _ => λ _,
          if bool_decide (permit = Some key) then Some None else None
      | StreamResponse p _ => λ _,
          if bool_decide (permit = Some (circuit_key p)) then Some permit else None
      | DeriveEffects p _ => λ _,
          if bool_decide (permit = Some (circuit_key p)) then Some permit else None
      | StartSession p _ _ => λ _,
          if bool_decide (permit = Some (circuit_key p)) then Some permit else None
      | Synthesize _ _ => λ _, if is_some permit then Some permit else None
      | Play _ _ _ => λ _, if is_some permit then Some permit else None
      | _ => λ _, Some permit
      end x
  end.

(** A program that starts with permit [s] and leaves none behind, whatever happens. *)
Abbreviation balanced s p := (act_wp permit_step s p (λ s' _, s' = None)) (only parsing).

Lemma permit_quiet permit a : quiet_act a → permit_step permit a = Some permit.
Proof. by destruct a as [X []]. Qed.

Lemma wp_finish {B} key how (p : task B) :
  balanced None p → balanced (Some key) (perform (FinishPermit key how);; p).
Proof. intros Hp []. exists None. cbn. by rewrite bool_decide_true. Qed.

Lemma wp_held {A B} key (p : task A) (f : A → task B) :
  act_always quiet_act p → (∀ a, balanced (Some key) (f a)) →
  balanced (Some key) (held key p ≫= f).
Proof.
  intros Hp Hf. apply wp_bind, wp_on_exit. apply wp_quiet; [apply permit_quiet|done|].
  intros [a|e|]; [apply Hf|..]; intros []; exists None; cbn; by rewrite bool_decide_true.
Qed.

Lemma wp_bind_quiet {A B} s (p : task A) (f : A → task B) :
  act_always quiet_act p → s = None → (∀ a, balanced s (f a)) → balanced s (p ≫= f).
Proof.
  intros Hp -> Hf. apply wp_bind. apply wp_quiet; [apply permit_quiet|done|]. by intros [].
Qed.

Lemma wp_acquire {B} key (f : result CircuitOpen () → task B) :
  balanced (Some key) (f (Ok ())) → (∀ e, balanced None (f (Err e))) →
  balanced None (perform (TryAcquire key) ≫= f).
Proof. intros H1 H2 [[]|e]; [exists (Some key)|exists None]; cbn; auto. Qed.

Lemma wp_call {X B} permit (o : turn_op X) (f : X → task B) :
  (∀ x, permit_step permit (Act o x) = Some permit) → (∀ x, balanced permit (f x)) →
  balanced permit (perform o ≫= f).
Proof. intros Hs Hf x. exists permit. split; [apply Hs|apply Hf]. Qed.

Lemma balanced_bind {A B} s (p : task A) (f : A → task B) :
  balanced s p → (∀ a, balanced None (f a)) → balanced s (p ≫= f).
Proof. intros Hp Hf. apply wp_bind. eapply wp_mono; [exact Hp|]. by intros ? [] ->. Qed.

Section lanes_permits.
Context `{JsonApi} `{HashIter} (routing : RoutingPlan).

Lemma llm_stream_balanced request generation format primary provider items span output adapter :
  act_wp permit_step (Some (circuit_key provider))
    (llm_stream request generation format primary provider items span output adapter)
    (λ s _, s = None).
Proof using.
  revert span output adapter. induction items as [|[delta|error] items IH]; intros span output adapter;
    cbn [llm_stream].
  - apply wp_held; [auto with quiet|]. intros _. unfold llm_stream_end. destruct span as [span|].
    + apply wp_held; [auto with quiet|]. intros _. apply wp_finish. done.
    + apply wp_held; [auto with quiet|]. intros [a [f|e]]; [|by apply wp_finish].
      apply wp_held; [auto with quiet|]. intros _. apply wp_finish.
      apply wp_bind_quiet; [auto with quiet|done|done].
  - apply wp_held; [auto with quiet|]. intros _. destruct (str_is_empty (dl_text delta)); [apply IH|].
    assert (∀ B (f : () → task B), (balanced (Some (circuit_key provider)) (f tt)) →
      balanced (Some (circuit_key provider)) (match span with
        | Some span => held (circuit_key provider) (emit_timing (llm_identity request) span SpanOk
            {[ lit "provider_id" := pd_id provider ]})
        | None => Ret tt end ≫= f)) as Hspan.
    { intros B f Hf. destruct span; [|exact Hf]. apply wp_held; [auto with quiet|]. by intros []. }
    apply Hspan. apply wp_held; [auto with quiet|]. intros [a [ready|e]]; [|by apply wp_finish].
    cbv zeta. destruct (bool_decide (format = LegacyPlainText)).
    + apply wp_held; [auto with quiet|]. intros _. apply wp_held; [auto with quiet|]. intros _. apply IH.
    + apply wp_held; [auto with quiet|]. intros _. apply IH.
  - apply wp_held; [auto with quiet|]. intros _. apply wp_finish. by destruct (str_is_empty output).
Qed.

Lemma llm_candidates_balanced request generation config turn_start format primary providers last_error :
  balanced None
    (llm_candidates request routing generation config turn_start format primary providers last_error).
Proof using.
  revert last_error. induction providers as [|provider providers IH]; intros last_error;
    cbn [llm_candidates]; [done|].
  destruct (negb _); [apply IH|]. apply wp_bind_quiet; [auto with quiet|done|]. intros _.
  apply wp_acquire; [|intros e; apply IH]. intros now. exists (Some (circuit_key provider)).
  split; [done|]. apply wp_call; [intros x; cbn; by rewrite bool_decide_true|].
  intros [items|error].
  - apply wp_held; [auto with quiet|]. intros adapter. apply wp_bind.
    eapply wp_mono; [apply llm_stream_balanced|]. by intros ? [[]| |] ->.
  - apply wp_finish, wp_bind_quiet; [auto with quiet|done|]. intros _. apply IH.
Qed.

Lemma run_llm_lane_balanced pool request generation config turn_start :
  balanced None (run_llm_lane request routing pool generation config turn_start).
Proof using.
  unfold run_llm_lane. apply balanced_bind; [by destruct (from_route_metadata _)|]. intros format.
  destruct (allowed_candidates pool routing); [done|]. apply llm_candidates_balanced.
Qed.

Lemma neutral_effects_balanced identity reason : balanced None (neutral_effects_lane identity reason).
Proof using. apply wp_bind_quiet; [apply quiet_emit|done|done]. Qed.

Lemma effects_candidates_balanced request actions primary providers :
  balanced None (effects_candidates request routing actions primary providers).
Proof using.
  induction providers as [|provider providers IH]; cbn [effects_candidates];
    [apply neutral_effects_balanced|].
  destruct (negb _); [apply IH|]. apply wp_acquire; [|intros e; apply IH].
  apply wp_call; [intros x; cbn; by rewrite bool_decide_true|].
  assert (∀ A e, balanced (Some (circuit_key provider)) (held (A := A) (circuit_key provider) (Raise e)))
    as Hdrop. { intros A e []. exists None. cbn. by rewrite bool_decide_true. }
  intros [[effects|error]|]; [| |apply Hdrop].
  - destruct (effects_validate _ _); [|by apply wp_finish]. apply wp_finish.
    apply wp_bind_quiet; [apply quiet_emit|done|]. intros _.
    apply wp_bind_quiet; [auto with quiet|done|done].
  - case_bool_decide; [apply Hdrop|by apply wp_finish].
Qed.

Lemma run_effects_lane_balanced pool request actions :
  balanced None (run_effects_lane request routing pool actions).
Proof using.
  unfold run_effects_lane. destruct (allowed_candidates pool routing);
    [apply neutral_effects_balanced|apply effects_candidates_balanced].
Qed.

Lemma play_sentence_balanced identity primary provider sentence speech st :
  balanced (Some (circuit_key provider)) (play_sentence identity primary provider sentence speech st).
Proof using.
  unfold play_sentence. apply wp_held.
  { apply always_bind; [|intros _]; apply quiet_emit. }
  intros _. apply wp_call; [done|]. intros [receipt|error]; [|by apply wp_finish].
  destruct (pbr_completed receipt); apply wp_finish; [|done].
  apply wp_bind_quiet; [auto with quiet|done|done].
Qed.

Lemma speech_candidates_balanced identity locale primary providers sentence st :
  balanced None (speech_candidates identity locale routing primary providers sentence st).
Proof using.
  revert st. induction providers as [|provider providers IH]; intros st;
    cbn [speech_candidates]; [done|].
  destruct (negb _); [apply IH|]. apply wp_acquire; [|intros e; apply IH].
  assert (∀ st session, balanced (Some (circuit_key provider))
    (match session with
     | None => permit_failure (circuit_key provider);;
               speech_candidates identity locale routing primary providers sentence st
     | Some session =>
         speech ← perform (Synthesize session {|
           sr_identity := identity; sr_sentence_id := sentence_id sentence;
           sr_text := span_text sentence; sr_locale := locale; sr_voice_hint := None |});
         match speech with
         | Err _ => permit_failure (circuit_key provider);;
                    speech_candidates identity locale routing primary providers sentence st
         | Ok speech => play_sentence identity primary provider sentence speech st
         end
     end)) as Hrest.
  { clear st. intros st [session|]; [|by apply wp_finish]. apply wp_call; [done|].
    intros [speech|e]; [apply play_sentence_balanced|by apply wp_finish]. }
  unfold open_session. destruct (ss_sessions st !! pd_id provider) as [session|].
  - apply (Hrest st (Some session)).
  - intros started. exists (Some (circuit_key provider)).
    split; [cbn; by rewrite bool_decide_true|]. destruct started as [session|e].
    + apply (Hrest _ (Some session)).
    + apply (Hrest _ None).
Qed.

Lemma speak_sentence_balanced identity locale candidates sentence st :
  balanced None (speak_sentence identity locale routing candidates sentence st).
Proof using.
  unfold speak_sentence. apply balanced_bind.
  { destruct (ss_announced_voicing st); [done|]. apply wp_bind_quiet; [apply quiet_emit|done|done]. }
  intros st1. apply balanced_bind; [destruct candidates; [done|apply speech_candidates_balanced]|].
  intros [st2 receipt]. apply balanced_bind.
  - destruct receipt; [done|]. case_bool_decide; [done|].
    apply wp_bind_quiet; [apply quiet_emit|done|done].
  - intros st3. apply wp_bind_quiet; [apply quiet_emit|done|done].
Qed.

Lemma run_speech_lane_balanced identity locale sentences pool :
  balanced None (run_speech_lane identity locale routing sentences pool).
Proof using.
  unfold run_speech_lane. apply balanced_bind.
  - generalize speech_state_new. induction sentences as [|sentence sentences IH]; intros st;
      cbn [speech_loop]; (apply wp_bind_quiet; [apply quiet_unless_cancelled|done|]); intros _; [done|].
    apply balanced_bind; [apply speak_sentence_balanced|apply IH].
  - intros st. apply balanced_bind; [|done].
    induction (hm_values (ss_sessions st)) as [|session sessions IH]; cbn [close_sessions]; [done|].
    apply wp_call; [done|]. intros _. apply IH.
Qed.
End lanes_permits.

(** ** Cancellation *)

(** An action that tells a lane that it is cancelled, with the way the lane then ends the
    permit it holds: a check that finds the generation cancelled, a closed sentence
    channel, a derivation of effects that was dropped for the cancellation or answers that
    it was cancelled, and a playback that was stopped. *)
Definition cancelled_by (a : turn_act) : option PermitEnd :=
  match a with
  | Act o x =>
      match o in turn_op X return X → option PermitEnd with
      | IsCancelled => λ cancelled, if cancelled then Some PermitDrop else None
      | SendSentence _ => λ delivered, if delivered then None else Some PermitDrop
      | DeriveEffects _ _ => λ derived,
          match derived with
          | None => Some PermitDrop
          | Some (Err error) =>
              if bool_decide (pe_kind error = KindCancelled) then Some PermitDrop else None
          | Some (Ok _) => None
          end
      | Play _ _ _ => λ receipt,
          match receipt with
          | Ok receipt => if pbr_completed receipt then None else Some PermitFailure
          | Err _ => None
          end
      | _ => λ _, None
      end x
  end.

(** An action that only ends a permit, in the given way. *)
Definition ends_permit (how : PermitEnd) (a : turn_act) : Prop :=
  match a with Act (FinishPermit _ how') _ => how' = how | _ => False end.

#[export] Instance PermitEnd_eq_dec : EqDecision PermitEnd.
Proof. solve_decision. Defined.

(** Whether the lane has been told of its cancellation. From then on it only ends its
    permit. *)
Definition cancel_step (told : option PermitEnd) (a : turn_act) : option (option PermitEnd) :=
  match told, a with
  | None, _ => Some (cancelled_by a)
  | Some how, Act (FinishPermit _ how') _ => if bool_decide (how' = how) then Some told else None
  | Some _, _ => None
  end.

(** A program that leaves with the cancellation error once it is told of it; a [strict]
    one is only told in ways that drop the permit. *)
Definition stops_by {A} (strict : bool) (p : task A) : Prop :=
  act_wp cancel_step None p (λ told r, ∀ how, told = Some how →
    r = Raised TurnCancelled ∧ (strict = true → how = PermitDrop)).
Abbreviation stops p := (stops_by false p) (only parsing).

Lemma stops_bind {A B} strict (p : task A) (f : A → task B) :
  stops_by strict p → (∀ a, stops_by strict (f a)) → stops_by strict (p ≫= f).
Proof.
  intros Hp Hf. apply wp_bind. eapply wp_mono; [exact Hp|]. intros [how|] [a|e|] H; try done.
  - by destruct (H how eq_refl).
  - intros how' Heq. destruct (H how' Heq) as [[= ->] ?]. done.
  - by destruct (H how eq_refl).
  - apply Hf.
Qed.

Lemma stops_held {A} strict key (p : task A) : stops_by true p → stops_by strict (held key p).
Proof.
  intros Hp. apply wp_on_exit. eapply wp_mono; [exact Hp|]. intros [how|] [a|e|] H; cbn; try done.
  - by destruct (H how eq_refl).
  - destruct (H how eq_refl) as [[= ->] Hd]. intros []. exists (Some how).
    rewrite (Hd eq_refl). split; [done|]. by intros ? [= <-].
  - by destruct (H how eq_refl).
  - intros []. by exists None.
  - intros []. by exists None.
Qed.

Lemma stops_emit strict ev : stops_by strict (emit ev).
Proof.
  intros []; [exists (Some PermitDrop); split; [done|]; by intros ? [= <-]|].
  exists None. split; [done|]. intros x. by exists None.
Qed.
Lemma stops_unless_cancelled strict : stops_by strict unless_cancelled.
Proof.
  intros []; [exists (Some PermitDrop); split; [done|]; by intros ? [= <-]|by exists None].
Qed.
Lemma stops_perform {X} strict (o : turn_op X) :
  (∀ x, cancelled_by (Act o x) = None) → stops_by strict (perform o).
Proof. intros Ho x. exists None. cbn -[cancelled_by]. by rewrite Ho. Qed.
Lemma stops_of_outcome {A} strict (r : outcome A) : stops_by strict (of_outcome r : task A).
Proof. by destruct r. Qed.
Lemma stops_ret {A} strict (a : A) : stops_by strict (Ret a : task A). Proof. done. Qed.
Lemma stops_raise {A} strict e : stops_by strict (Raise e : task A). Proof. done. Qed.

(** A permit that is ended as the cancellation asks. *)
Lemma stopped_finish {A} key how (p : task A) :
  act_wp cancel_step (Some how) p (λ told r, ∀ how, told = Some how →
    r = Raised TurnCancelled ∧ (false = true → how = PermitDrop)) →
  act_wp cancel_step (Some how) (perform (FinishPermit key how);; p) (λ told r, ∀ how,
    told = Some how → r = Raised TurnCancelled ∧ (false = true → how = PermitDrop)).
Proof. intros Hp []. exists (Some how). cbn. by rewrite bool_decide_true. Qed.

(** A sentence that nobody receives. *)
Lemma stops_send {B} strict sentence (f : bool → task B) :
  f false = Raise TurnCancelled → stops_by strict (f true) →
  stops_by strict (perform (SendSentence sentence) ≫= f).
Proof.
  intros Hn Hf [].
  - by exists None.
  - exists (Some PermitDrop). split; [done|]. cbn [prog_bind]. rewrite Hn. by intros ? [= <-].
Qed.

(** A derivation that was dropped or that answers that it was cancelled. *)
Lemma stops_derive {B} provider request key (f : _ → task B) :
  (∀ r, cancelled_by (Act (DeriveEffects provider request) r) ≠ None →
    f r = held key (Raise TurnCancelled)) →
  (∀ r, cancelled_by (Act (DeriveEffects provider request) r) = None → stops (f r)) →
  stops (perform (DeriveEffects provider request) ≫= f).
Proof.
  intros Hn Hf r. cbn -[cancelled_by]. destruct (cancelled_by _) as [how|] eqn:E.
  - exists (Some how). split; [done|]. rewrite Hn by congruence.
    assert (how = PermitDrop) as ->.
    { cbn in E. destruct r as [[|]|]; [done| |by simplify_eq]. by case_bool_decide; simplify_eq. }
    apply stopped_finish. intros ? [= <-]. done.
  - exists None. split; [done|]. by apply Hf.
Qed.

(** A playback that was stopped. *)
Lemma stops_play {B} identity sentence speech key (f : _ → task B) :
  (∀ receipt, pbr_completed receipt = false →
    f (Ok receipt) = (permit_failure key;; Raise TurnCancelled)) →
  (∀ r, cancelled_by (Act (Play identity sentence speech) r) = None → stops (f r)) →
  stops (perform (Play identity sentence speech) ≫= f).
Proof.
  intros Hn Hf r. cbn -[cancelled_by]. destruct (cancelled_by _) as [how|] eqn:E.
  - exists (Some how). split; [done|]. cbn in E. destruct r as [receipt|]; [|done].
    destruct (pbr_completed receipt) eqn:Hc; [done|]. injection E as <-. rewrite Hn by done.
    apply stopped_finish. intros ? [= <-]. done.
  - exists None. split; [done|]. by apply Hf.
Qed.

#[export] Hint Resolve stops_held stops_emit stops_unless_cancelled stops_of_outcome stops_ret
  stops_raise : stops.

Ltac stops_step :=
  match goal with
  | |- stops_by _ (perform (SendSentence _) ≫= _) => apply stops_send; [done|]
  | |- stops_by _ (_ ≫= _) => apply stops_bind; [|intros ?]
  | |- stops_by _ (perform _) => apply stops_perform; done
  | |- stops_by _ (permit_failure _) => apply stops_perform; done
  | |- stops_by _ (permit_success _) => apply stops_perform; done
  | |- stops_by _ (emit_lifecycle _ _) => apply stops_emit
  | |- stops_by _ (emit_degraded _ _ _) => apply stops_emit
  | |- stops_by _ (emit_timing _ _ _ _) => apply stops_bind; [apply stops_perform; done|intros ?]
  | |- stops_by _ (timing_start _ _) => apply stops_bind; [apply stops_perform; done|intros ?]
  | |- stops_by _ (report_fallback _ _ _ _) => unfold report_fallback
  | |- stops_by _ (held _ _) => apply stops_held
  | |- stops_by _ (match ?x with _ => _ end) => destruct x
  | |- stops_by _ _ => solve [auto with stops]
  end.
Ltac stops_tac := repeat stops_step.

Section lanes_stop.
Context `{JsonApi} `{HashIter} (routing : RoutingPlan) (pool : list ProviderDescriptor).

Lemma stops_send_sentences strict identity sentences :
  stops_by strict (send_sentences identity sentences).
Proof using. induction sentences as [|s ss IH]; cbn [send_sentences]; stops_tac. Qed.

Lemma stops_llm_stream request generation format primary provider items span output adapter :
  stops (llm_stream request generation format primary provider items span output adapter).
Proof using.
  revert span output adapter. induction items as [|[delta|error] items IH]; intros span output adapter;
    cbn [llm_stream].
  - unfold llm_stream_end. stops_tac. apply stops_send_sentences.
  - stops_tac; first [apply IH | apply stops_send_sentences].
  - stops_tac.
Qed.

Lemma stops_run_llm_lane request generation config turn_start :
  stops (run_llm_lane request routing pool generation config turn_start).
Proof using.
  unfold run_llm_lane. apply stops_bind; [by destruct (from_route_metadata _)|]. intros format.
  destruct (allowed_candidates pool routing) as [|primary rest]; [done|].
  generalize (lit "no provider attempted"). generalize (primary :: rest).
  induction l as [|provider providers IH]; intros last_error; cbn [llm_candidates]; [done|].
  stops_tac; first [apply IH | apply stops_llm_stream].
Qed.

Lemma stops_run_effects_lane request actions :
  stops (run_effects_lane request routing pool actions).
Proof using.
  unfold run_effects_lane, neutral_effects_lane.
  destruct (allowed_candidates pool routing) as [|primary rest]; [stops_tac|].
  generalize (primary :: rest).
  induction l as [|provider providers IH]; cbn [effects_candidates];
    [unfold neutral_effects_lane; stops_tac|].
  stops_step; [apply IH|]. stops_step; [stops_step|].
  match goal with x : result CircuitOpen () |- _ => destruct x end; [|apply IH].
  eapply stops_derive.
  - intros [[effects|error]|]; cbn; [done| |done]. by case_bool_decide.
  - intros [[effects|error]|] Hc; cbv beta iota; [stops_tac; apply IH| |done].
    cbn in Hc. case_bool_decide; [done|]. stops_tac; apply IH.
Qed.

Lemma stops_run_speech_lane identity locale sentences :
  stops (run_speech_lane identity locale routing sentences pool).
Proof using.
  unfold run_speech_lane. apply stops_bind.
  - generalize speech_state_new. induction sentences as [|sentence sentences IH]; intros st;
      cbn [speech_loop]; (stops_step; [stops_step|]); [done|].
    stops_step; [|apply IH]. unfold speak_sentence. stops_tac.
    match goal with |- stops (speech_candidates _ _ _ _ ?l _ ?s) => generalize l, s end.
    intros ps. induction ps as [|provider providers IHp]; intros st'; cbn [speech_candidates]; [done|].
    unfold open_session. stops_tac; try apply IHp. unfold play_sentence.
    stops_step; [stops_tac|]. eapply stops_play.
    + by intros receipt ->.
    + intros [receipt|error] Hc; cbv beta iota; [|stops_tac].
      cbn in Hc. destruct (pbr_completed receipt); [stops_tac|done].
  - intros st. apply stops_bind; [|intros; done].
    induction (hm_values (ss_sessions st)) as [|session sessions IH]; cbn [close_sessions]; [done|].
    stops_step; [stops_step|apply IH].
Qed.
End lanes_stop.

(** ** Properties of every lane *)

Definition exit_kind {E A} (r : exit E A) : exit E () :=
  match r with Returned _ => Returned tt | Raised e => Raised e | Crashed => Crashed end.

(** A run of one of the three lanes, with how it ended. *)
Inductive lane_run `{JsonApi} `{HashIter} : list turn_act → exit SupervisorError () → Prop :=
| llm_lane_run request routing providers generation config turn_start tr r :
    act_runs (run_llm_lane request routing providers generation config turn_start) tr r →
    lane_run tr (exit_kind r)
| effects_lane_run request routing providers actions tr r :
    act_runs (run_effects_lane request routing providers actions) tr r → lane_run tr (exit_kind r)
| speech_lane_run identity locale routing sentences providers tr r :
    act_runs (run_speech_lane identity locale routing sentences providers) tr r →
    lane_run tr (exit_kind r).

Lemma stopped_ends tr how told :
  monitor cancel_step (Some how) tr = Some told → told = Some how ∧ Forall (ends_permit how) tr.
Proof.
  revert told. induction tr as [|a tr IH]; intros told; cbn; [intros [= <-]; by split|].
  destruct a as [X [] x]; cbn; try done. case_bool_decide; [|done]. intros [-> Hd]%IH.
  split; [done|]. by constructor.
Qed.

Lemma stops_runs {A} (p : task A) tr1 a how tr2 r :
  stops p → cancelled_by a = Some how → act_runs p (tr1 ++ a :: tr2) r →
  Forall (ends_permit how) tr2 ∧ exit_kind r = Raised TurnCancelled.
Proof.
  intros Hp Ha Hr. apply (wp_runs _ _ _ _ _ _ _ Hp) in Hr as (told&Hm&HQ).
  rewrite monitor_app in Hm. destruct (monitor cancel_step None tr1) as [[how'|]|]; [..|done].
  - cbn in Hm. by destruct a as [X [] x].
  - cbn -[cancelled_by] in Hm. rewrite Ha in Hm. apply stopped_ends in Hm as [-> Hd].
    by destruct (HQ how eq_refl) as [-> _].
Qed.

Lemma balanced_runs {A} (p : task A) tr r :
  balanced None p → act_runs p tr r → monitor permit_step None tr = Some None.
Proof. intros Hp Hr. by apply (wp_runs _ _ _ _ _ _ _ Hp) in Hr as (s&Hm&->). Qed.

(** C7: circuit permits are never leaked, doubled or borrowed. In every run of every
    lane, whatever its environment answers and also when it panics or is cancelled:
    a permit is taken only when none is held, a provider is called only under the
    permit of its own circuit, a playback only under a permit, and every permit is
    ended exactly once, by success, failure or drop, before the lane is over. *)
Theorem lane_ends_every_permit `{JsonApi} `{HashIter} tr r :
  lane_run tr r → monitor permit_step None tr = Some None.
Proof.
  intros Hr. destruct Hr as [? ? ? ? ? ? ? ? Hr|? ? ? ? ? ? Hr|? ? ? ? ? ? ? Hr];
    (eapply balanced_runs; [|exact Hr]).
  - apply run_llm_lane_balanced.
  - apply run_effects_lane_balanced.
  - apply run_speech_lane_balanced.
Qed.

(** C8: a lane that is told of its cancellation stops. In every run of every lane, after
    the first action that says so (a check that finds the generation cancelled, effects
    whose derivation was dropped or answers that it was cancelled, a stopped playback, a
    closed sentence channel) nothing happens any more but the end of the permit the lane
    holds, as a failure for the playback and as a drop for the others: no event, no
    provider call, no playback, no sentence; and the lane ends with the cancellation
    error. *)
Theorem lane_stops_when_cancelled `{JsonApi} `{HashIter} tr1 a how tr2 r :
  lane_run (tr1 ++ a :: tr2) r → cancelled_by a = Some how →
  Forall (ends_permit how) tr2 ∧ r = Raised TurnCancelled.
Proof.
  intros Hr Ha. remember (tr1 ++ _) as tr eqn:Htr.
  destruct Hr as [? ? ? ? ? ? ? ? Hr|? ? ? ? ? ? Hr|? ? ? ? ? ? ? Hr]; subst;
    (eapply stops_runs; [|exact Ha|exact Hr]).
  - apply stops_run_llm_lane.
  - apply stops_run_effects_lane.
  - apply stops_run_speech_lane.
Qed.
