(* ===== verification/SpeechSpec.v ===== *)
(** * What the language-model lane sends and the speech lane delivers

    A monitor follows the output of the lane: the text it streams, the sentences it
    announces and the ones it sends to the speech lane. The second half follows what the
    speech lane delivers. *)

From S2P Require Import Prelude Text Policy Circuit Sentence SentenceSpec BrokerTypes Response ResponseStream ResponseSpec Prog Turn Lanes LaneSpec.

#[local] Open Scope Z_scope.

#[export] Instance SentenceSpan_eq_dec : EqDecision SentenceSpan.
Proof. solve_decision. Defined.

(** The output of the lane: whether some began, the text deltas, a sentence that is
    announced but not yet sent, and the sentences sent. *)
Record llm_log := {
  lg_began : bool;
  lg_text : str;
  lg_pending : option SentenceSpan;
  lg_sent : list SentenceSpan
}.

Definition log_new : llm_log := {|
  lg_began := false; lg_text := []; lg_pending := None; lg_sent := [] |}.

Definition log_event (log : llm_log) (ev : TurnEvent) : option llm_log :=
  match ev with
  | EvTextDelta _ delta =>
      Some {| lg_began := true; lg_text := lg_text log ++ dl_text delta;
              lg_pending := lg_pending log; lg_sent := lg_sent log |}
  | EvTiming _ span =>
      Some {| lg_began := match ts_outcome span with SpanOk => true | _ => lg_began log end;
              lg_text := lg_text log; lg_pending := lg_pending log; lg_sent := lg_sent log |}
  | EvSentenceReady _ sentence =>
      if is_some (lg_pending log) then None else
      Some {| lg_began := true; lg_text := lg_text log; lg_pending := Some sentence;
              lg_sent := lg_sent log |}
  | _ => Some log
  end.

(** A sentence is sent right after it was announced, and no provider is called once
    output began. *)
Definition log_step (log : llm_log) (a : turn_act) : option llm_log :=
  match a with
  | Act o x =>
      match o in turn_op X return X → option llm_log with
      | TrySend ev => λ _, log_event log ev
      | SendSentence sentence => λ delivered,
          if bool_decide (lg_pending log = Some sentence) then
            if delivered : bool then
              Some {| lg_began := lg_began log; lg_text := lg_text log; lg_pending := None;
                      lg_sent := lg_sent log ++ [sentence] |}
            else Some log
          else None
      | StreamResponse _ _ => λ _, if lg_began log then None else Some log
      | _ => λ _, Some log
      end x
  end.

(** The postcondition [R] of a return. *)
Definition on_return {S A} (R : S → A → Prop) (s : S) (r : exit SupervisorError A) : Prop :=
  match r with Returned a => R s a | _ => True end.

(** The lane leaves with the cancellation, or without having sent a sentence. *)
Definition log_post {A} (R : llm_log → A → Prop) (log : llm_log) (r : exit SupervisorError A) : Prop :=
  match r with
  | Returned a => R log a
  | Raised e => e = TurnCancelled ∨ lg_sent log = []
  | Crashed => True
  end.

Abbreviation log_wp log p R := (act_wp log_step log p (log_post R)) (only parsing).

Lemma log_bind {A B} log (p : task A) (f : A → task B) (M : llm_log → A → Prop) R :
  log_wp log p M → (∀ log a, M log a → log_wp log (f a) R) → log_wp log (p ≫= f) R.
Proof. intros Hp Hf. apply wp_bind. eapply wp_mono; [exact Hp|]. intros l [a|e|] H; [by apply Hf|done..]. Qed.

Lemma log_held {A} log key (p : task A) R : log_wp log p R → log_wp log (held key p) R.
Proof.
  intros Hp. apply wp_on_exit. eapply wp_mono; [exact Hp|]. intros l [a|e|] H; cbn; [done|..];
    intros x; by exists l.
Qed.

Lemma log_emit log ev log' (R : llm_log → () → Prop) :
  log_event log ev = Some log' → R log' tt → log_wp log (emit ev) R.
Proof.
  intros He HR []; exists log; split; try done; [by left|]. intros x. by exists log'.
Qed.

Lemma log_unless_cancelled log (R : llm_log → () → Prop) : R log tt → log_wp log unless_cancelled R.
Proof. intros HR []; exists log; split; try done. by left. Qed.

Lemma log_finish {B} log key how (f : () → task B) R :
  log_wp log (f tt) R → log_wp log (perform (FinishPermit key how) ≫= f) R.
Proof. intros Hf []. exists log. by destruct how. Qed.

Lemma log_of_outcome {A} log (o : outcome A) (R : llm_log → A → Prop) :
  (∀ a, o = Done a → R log a) → log_wp log (of_outcome o : task A) R.
Proof. intros HR. by apply wp_of_outcome. Qed.

Definition log_with (text : str) (sent : list SentenceSpan) : llm_log := {|
  lg_began := true; lg_text := text; lg_pending := None; lg_sent := sent |}.

Lemma log_send_sentences identity text sent sentences :
  log_wp (log_with text sent) (send_sentences identity sentences)
    (λ log _, log = log_with text (sent ++ sentences)).
Proof.
  revert sent. induction sentences as [|s ss IH]; intros sent; cbn [send_sentences].
  { cbn. by rewrite app_nil_r. }
  eapply log_bind; [eapply log_emit with (R := λ l _, l = {| lg_began := true; lg_text := text;
    lg_pending := Some s; lg_sent := sent |}); [reflexivity|done]|].
  intros l _ ->. intros delivered. cbn [log_step lg_pending]. rewrite bool_decide_true by done.
  destruct delivered; [|eexists; split; [done|by left]]. exists (log_with text (sent ++ [s])). split; [done|].
  replace (sent ++ s :: ss) with ((sent ++ [s]) ++ ss) by by rewrite <-app_assoc.
  apply (IH (sent ++ [s])).
Qed.

Lemma log_emit_timing log identity span attributes (R : llm_log → () → Prop) outcome log' :
  (∀ x, log_event log (EvTiming identity (guard_span span x outcome attributes)) = Some log') →
  R log' tt → log_wp log (emit_timing identity span outcome attributes) R.
Proof. intros He HR x. exists log. split; [done|]. apply (log_emit _ _ log'); [apply He|done]. Qed.

Lemma log_report_fallback log identity primary provider reason :
  log_wp log (report_fallback identity primary provider reason) (λ log' _, log' = log).
Proof.
  unfold report_fallback. destruct (str_eqb _ _); [done|].
  eapply log_bind; [eapply log_emit with (R := λ l _, l = log); [reflexivity|done]|]. by intros ? _ ->.
Qed.

(** What a lane that returns reports about the text it streamed and the sentences it
    sent. *)
Record llm_report (format : StreamingResponseFormatV1) (res : LlmLaneResult) (text : str)
    (sent : list SentenceSpan) : Prop := {
  lr_sentences : match ll_terminal_error res with
                 | None => segments (ll_full_text res) sent
                 | Some _ => spans_within (ll_full_text res) sent
                 end;
  lr_text : text = if bool_decide (format = LegacyPlainText) then ll_full_text res else [];
  lr_structured : match ll_structured_response res with
                  | Some envelope =>
                      format ≠ LegacyPlainText ∧ ll_terminal_error res = None ∧
                      ll_full_text res = sp_text (en_spoken_response envelope) ∧
                      envelope_validate_response envelope response_policy_default = Ok tt
                  | None => format = LegacyPlainText ∨ ll_terminal_error res ≠ None
                  end
}.

Lemma adapter_new_buffer format policy config generation a :
  adapter_new format policy config generation = Some a → sa_provider_buffer a = [].
Proof.
  unfold adapter_new. destruct (if bool_decide _ then _ else _); [|done]. cbn. by intros [= <-].
Qed.

Section llm_spec.
Context `{JsonApi} (request : GenerationRequest) (routing : RoutingPlan) (generation : Z)
  (format : StreamingResponseFormatV1).

(** The state of the loop: nothing was output while the first span is there, and the
    adapter released exactly what was sent. *)
Record stream_inv (span : option TimingGuard) (output : str) (adapter : StreamingResponseAdapterV1)
    (log : llm_log) : Prop := {
  si_adapter : adapter_inv format response_policy_default generation (lg_sent log) adapter;
  si_active : sa_state adapter = AdapterActive;
  si_buffer : format = LegacyPlainText → sa_provider_buffer adapter = output;
  si_fresh : is_Some span → output = [] ∧ log = log_new;
  si_begun : span = None → output ≠ [] ∧
    log = log_with (if bool_decide (format = LegacyPlainText) then output else []) (lg_sent log)
}.

(** The lane reports what was sent, or nothing was output. *)
Definition stream_post (log : llm_log) (ended : stream_end) : Prop :=
  match ended with
  | StreamReturns res => llm_report format res (lg_text log) (lg_sent log) ∧ lg_pending log = None
  | StreamFailsBeforeOutput _ => log = log_new
  end.

Lemma llm_stopped_post output log provider error adapter :
  adapter_inv format response_policy_default generation (lg_sent log) adapter →
  sa_state adapter = AdapterActive →
  (format = LegacyPlainText → sa_provider_buffer adapter = output) →
  log = log_with (if bool_decide (format = LegacyPlainText) then output else []) (lg_sent log) →
  stream_post log (llm_stopped format provider output adapter error).
Proof using.
  intros Ha Hst Hbuf Hlog. rewrite Hlog. split; [|done].
  pose proof (released_within _ _ _ _ _ Ha Hst) as Hw. unfold partial_text in Hw.
  rewrite (ai_format _ _ _ _ _ Ha) in Hw. constructor; cbn; [..|by right].
  - destruct format; cbn; [done..|]. by rewrite <-Hbuf.
  - case_bool_decide as Hf; [|done]. by rewrite Hf.
Qed.

Lemma str_is_empty_false (s : str) : str_is_empty s = false → s ≠ [].
Proof using. by destruct s. Qed.

(** The log once a delta has been read. *)
Lemma first_delta_log span output adapter log provider (key : str) :
  stream_inv span output adapter log →
  log_wp log
    (match span with
     | Some span => held key (emit_timing (llm_identity request) span SpanOk
         {[ lit "provider_id" := pd_id provider ]})
     | None => Ret tt
     end)
    (λ log' _, log' = log_with (if bool_decide (format = LegacyPlainText) then output else []) (lg_sent log)).
Proof using.
  intros [Ha Hst Hbuf Hfresh Hbegun]. destruct span as [span|].
  - destruct Hfresh as [-> ->]; [done|]. apply log_held. apply log_emit_timing with (log' := log_with [] []); [done|].
    by case_bool_decide.
  - by destruct Hbegun as [_ ?].
Qed.

Lemma llm_stream_end_post primary provider span output adapter log :
  stream_inv span output adapter log →
  log_wp log (llm_stream_end request generation format primary provider span output adapter) stream_post.
Proof using.
  intros Hinv. pose proof Hinv as [Ha Hst Hbuf Hfresh Hbegun]. unfold llm_stream_end.
  destruct span as [span|].
  - destruct Hfresh as [-> ->]; [done|]. eapply log_bind.
    + apply log_held. by apply log_emit_timing with (R := λ l _, l = log_new) (log' := log_new).
    + intros ? _ ->. by apply log_finish.
  - destruct Hbegun as [Hne Hlog]; [done|].
    apply log_bind with (M := λ l r, l = log ∧ adapter_finish generation adapter = Done r).
    { apply log_held, log_of_outcome. by intros. }
    intros ? [a' [f|e]] [-> Hf]; pose proof (adapter_finish_shape _ _ _ _ Hf) as Hshape; cbn in Hshape.
    + destruct (adapter_finish_ok _ _ _ _ _ _ _ _ Hf Ha) as (Hff&Hall&Hseg&Hval&_).
      rewrite Hlog. eapply log_bind; [apply log_held, log_send_sentences|]. intros ? _ ->.
      apply log_finish. eapply log_bind; [apply log_report_fallback|]. intros ? degradations ->.
      split; [|done]. constructor; cbn.
      * by rewrite Hall.
      * case_bool_decide as Hleg; [|done]. rewrite Hshape, Hbuf; [done..|].
        by rewrite (ai_format _ _ _ _ _ Ha).
      * destruct format; [by repeat split..|by left].
    + subst a'. apply log_finish. apply llm_stopped_post; [done..|]. by rewrite Hlog.
Qed.

Lemma llm_stream_post primary provider items span output adapter log :
  stream_inv span output adapter log →
  log_wp log (llm_stream request generation format primary provider items span output adapter) stream_post.
Proof using.
  revert span output adapter log.
  induction items as [|[delta|error] items IH]; intros span output adapter log Hinv; cbn [llm_stream];
    (apply log_bind with (M := λ l _, l = log); [by apply log_held, log_unless_cancelled|]);
    intros ? _ ->.
  - by apply llm_stream_end_post.
  - destruct (str_is_empty (dl_text delta)) eqn:Hempty; [by apply IH|].
    apply str_is_empty_false in Hempty.
    eapply log_bind; [by eapply first_delta_log|]. intros ? _ ->.
    eapply log_bind with (M := λ l r, l = _ ∧ push_delta generation (dl_sequence delta)
      (dl_text delta) adapter = Done r).
    { apply log_held, log_of_outcome. by intros. }
    destruct Hinv as [Ha Hst Hbuf Hfresh Hbegun].
    intros ? [a' r] [-> Hp]. destruct (push_delta_shape _ _ _ _ _ _ Hp) as [Hst' Hbuf'].
    pose proof (push_delta_inv _ _ _ _ _ _ _ _ _ _ Hp Ha) as Ha'.
    rewrite (ai_format _ _ _ _ _ Ha) in Hbuf'. destruct r as [ready|e]; cbn in Hbuf', Ha'.
    + cbv zeta. set (sent := lg_sent log) in *.
      apply log_bind with (M := λ l _, l = log_with (if bool_decide (format = LegacyPlainText)
        then output ++ dl_text delta else []) sent).
      { case_bool_decide; [|done]. apply log_held. eapply log_emit; [reflexivity|done]. }
      intros ? _ ->. eapply log_bind; [apply log_held, log_send_sentences|]. intros ? _ ->.
      apply IH. constructor; cbn; [done|congruence| |by intros []|].
      * intros Hf. by rewrite Hbuf', Hbuf.
      * intros _. split; [|done]. by destruct output, (dl_text delta).
    + rewrite app_nil_r in Ha'. apply log_finish, llm_stopped_post; [done|congruence| |done].
      intros Hf. rewrite Hbuf', Hbuf by done. apply app_nil_r.
  - destruct Hinv as [Ha Hst Hbuf Hfresh Hbegun]. apply log_finish.
    destruct (str_is_empty output) eqn:Hempty.
    + destruct span as [span|]; [by destruct Hfresh|]. destruct Hbegun as [Hne _]; [done|].
      by destruct output.
    + apply str_is_empty_false in Hempty. apply llm_stopped_post; [done..|].
      destruct span as [span|]; [by destruct Hfresh|]. by destruct Hbegun.
Qed.

Lemma llm_candidates_post config turn_start primary providers last_error :
  log_wp log_new
    (llm_candidates request routing generation config turn_start format primary providers last_error)
    (λ log res, llm_report format res (lg_text log) (lg_sent log) ∧ lg_pending log = None).
Proof using.
  revert last_error. induction providers as [|provider providers IH]; intros last_error;
    cbn [llm_candidates]; [by right|].
  destruct (negb _); [apply IH|].
  apply log_bind with (M := λ l _, l = log_new); [by apply log_unless_cancelled|]. intros ? _ ->.
  intros acquired. exists log_new. split; [done|]. destruct acquired as [[]|e]; [|apply IH].
  intros now. exists log_new. split; [done|]. intros stream. exists log_new. split; [done|].
  destruct stream as [items|error].
  - apply log_bind with (M := λ l a, l = log_new ∧
      adapter_new format response_policy_default config generation = Some a).
    { apply log_held, log_of_outcome. by destruct (adapter_new _ _ _ _); cbn; intros ? [= ->]. }
    intros ? adapter [-> Hnew]. pose proof (adapter_new_inv _ _ _ _ _ Hnew) as [Ha Hst].
    eapply log_bind.
    + apply llm_stream_post. constructor; [done..| |by intros|done].
      intros _. by eapply adapter_new_buffer.
    + intros l [res|err]; [by cbn|]. cbn. intros ->. apply IH.
  - apply log_finish. eapply log_bind.
    + by apply log_emit_timing with (R := λ l _, l = log_new) (log' := log_new).
    + intros ? _ ->. apply IH.
Qed.
End llm_spec.

(** ** What a trace says and sends *)

Definition sent_in (tr : list turn_act) : list SentenceSpan :=
  flat_map (λ a, match a with Act o x => sent_by o x end) tr.

(** The sentences announced by events, and the text of the deltas streamed. *)
Definition ready_in (tr : list turn_act) : list SentenceSpan :=
  flat_map (λ a, match a with Act (TrySend (EvSentenceReady _ s)) _ => [s] | _ => [] end) tr.
Definition text_in (tr : list turn_act) : str :=
  flat_map (λ a, match a with Act (TrySend (EvTextDelta _ d)) _ => dl_text d | _ => [] end) tr.

(** Text or a sentence that reached the player. *)
Definition output_act (a : turn_act) : Prop :=
  match a with
  | Act (TrySend (EvTextDelta _ _)) _ | Act (TrySend (EvSentenceReady _ _)) _
  | Act (SendSentence _) _ => True
  | _ => False
  end.

Definition log_ready (log : llm_log) : list SentenceSpan :=
  lg_sent log ++ option_list (lg_pending log).

Definition log_ok (log : llm_log) : Prop := is_Some (lg_pending log) → lg_began log = true.

(** What the log of a run holds. *)
Record log_reads (log : llm_log) (tr : list turn_act) (log' : llm_log) : Prop := {
  lo_ok : log_ok log';
  lo_sent : lg_sent log' = lg_sent log ++ sent_in tr;
  lo_text : lg_text log' = lg_text log ++ text_in tr;
  lo_ready : log_ready log' = log_ready log ++ ready_in tr;
  lo_mono : lg_began log = true → lg_began log' = true;
  lo_output : Exists output_act tr → lg_began log' = true
}.

Lemma reads_silent log a :
  log_ok log → sent_in [a] = [] → text_in [a] = [] → ready_in [a] = [] → ¬ output_act a →
  log_reads log [a] log.
Proof.
  intros Hok Hs Ht Hr Ho. constructor; rewrite ?Hs, ?Ht, ?Hr, ?app_nil_r; [done..|].
  intros [H|H]%Exists_cons; [done|by apply Exists_nil in H].
Qed.

Lemma log_event_reads log ev log' x :
  log_ok log → log_event log ev = Some log' → log_reads log [Act (TrySend ev) x] log'.
Proof.
  intros Hok E. destruct ev; cbn in E; try (injection E as <-; apply reads_silent; [done..|by intros []]).
  - injection E as <-. by constructor; unfold sent_in, text_in, ready_in, log_ready; cbn; rewrite ?app_nil_r.
  - destruct (lg_pending log) eqn:Hp; [done|]. injection E as <-.
    by constructor; unfold sent_in, text_in, ready_in, log_ready; cbn; rewrite ?Hp; cbn; rewrite ?app_nil_r.
  - injection E as <-. constructor; unfold sent_in, text_in, ready_in, log_ready; cbn;
      rewrite ?app_nil_r; try done.
    + intros Hp. apply Hok in Hp. cbn. by destruct (ts_outcome span).
    + by destruct (ts_outcome span).
    + intros [H|H]%Exists_cons; [done|by apply Exists_nil in H].
Qed.

Lemma log_step_reads log a log' : log_ok log → log_step log a = Some log' → log_reads log [a] log'.
Proof.
  intros Hok E. destruct a as [X o x], o; cbn in E;
    try (injection E as <-; apply reads_silent; [done..|by intros []]).
  - by apply log_event_reads.
  - destruct (lg_began log); [done|]. injection E as <-. apply reads_silent; [done..|by intros []].
  - case_bool_decide as Hp; [|done].
    assert (lg_began log = true) as Hb by (apply Hok; by rewrite Hp).
    destruct x; injection E as <-; constructor; unfold sent_in, text_in, ready_in, log_ready, log_ok;
      cbn; rewrite ?Hp; cbn; rewrite ?app_nil_r; done.
Qed.

Lemma log_run_reads log tr log' :
  log_ok log → monitor log_step log tr = Some log' → log_reads log tr log'.
Proof.
  revert log. induction tr as [|a tr IH]; intros log Hok.
  { intros [= <-]. constructor; unfold sent_in, text_in, ready_in; cbn; rewrite ?app_nil_r; try done.
    by intros ?%Exists_nil. }
  cbn. destruct (log_step log a) as [log1|] eqn:E1; [|done]. cbn. intros E2.
  destruct (log_step_reads _ _ _ Hok E1) as [O1 S1 T1 R1 M1 B1].
  destruct (IH _ O1 E2) as [O2 S2 T2 R2 M2 B2].
  change (a :: tr) with ([a] ++ tr). unfold sent_in, text_in, ready_in in *.
  constructor; unfold sent_in, text_in, ready_in; rewrite ?flat_map_app; [done|..].
  - by rewrite S2, S1, app_assoc.
  - by rewrite T2, T1, app_assoc.
  - by rewrite R2, R1, app_assoc.
  - auto.
  - intros [H|H]%Exists_app; auto.
Qed.

Lemma log_new_ok : log_ok log_new. Proof. by intros [? [=]]. Qed.

Lemma run_llm_lane_wp `{JsonApi} routing pool request generation config turn_start :
  log_wp log_new (run_llm_lane request routing pool generation config turn_start)
    (λ log res, ∃ format, from_route_metadata (gr_metadata request) = Ok format ∧
       llm_report (default LegacyPlainText format) res (lg_text log) (lg_sent log) ∧
       lg_pending log = None).
Proof.
  unfold run_llm_lane. apply log_bind with (M := λ l format, l = log_new ∧
    from_route_metadata (gr_metadata request) = Ok format).
  { destruct (from_route_metadata _); [done|by right]. }
  intros ? format [-> Hf]. destruct (allowed_candidates pool routing) as [|primary rest]; [by right|].
  eapply wp_mono; [apply llm_candidates_post|]. intros log [res|e|]; cbn; [|done..].
  intros [Hr Hp]. by exists format.
Qed.

(** What a run of the lane sent, by how it ended. *)
Lemma llm_lane_sent `{JsonApi} routing pool request generation config turn_start tr r :
  act_runs (run_llm_lane request routing pool generation config turn_start) tr r →
  match r with
  | Returned res => ready_in tr = sent_in tr ∧
      ∃ format, from_route_metadata (gr_metadata request) = Ok format ∧
        llm_report (default LegacyPlainText format) res (text_in tr) (sent_in tr)
  | Raised e => e = TurnCancelled ∨ sent_in tr = []
  | Crashed => True
  end.
Proof.
  intros Hr. apply (wp_runs _ _ _ _ _ _ _ (run_llm_lane_wp _ _ _ _ _ _)) in Hr as (log&Hm&HQ).
  destruct (log_run_reads _ _ _ log_new_ok Hm) as [_ Hs Ht Hready _ _].
  destruct r as [res|e|]; cbn in HQ, Hs; [|by rewrite <-Hs|done].
  destruct HQ as (format&Hf&Hrep&Hp). unfold log_ready in Hready. rewrite Hp in Hready. cbn in *.
  rewrite app_nil_r in Hready. rewrite Hs in Hready. rewrite Ht, Hs in Hrep.
  split; [done|]. by exists format.
Qed.

(** C9: the language-model lane sends exactly the sentences of the response. Whatever
    its providers stream, whenever circuits open, deltas are invalid or the turn is
    cancelled: when the lane returns without an error, the sentences it put on the
    channel are exact consecutive spans that hold every visible character of the full
    response it reports, each announced once before it was sent; a legacy route has
    streamed exactly that text and a structured one no text at all, and its envelope
    is valid. After an error that stopped a started stream the sentences sent are
    still exact spans of the partial text that is reported. *)
Theorem llm_lane_sends_the_response `{JsonApi} routing pool request generation config turn_start
    tr res :
  act_runs (run_llm_lane request routing pool generation config turn_start) tr (Returned res) →
  ready_in tr = sent_in tr ∧
  ∃ format, from_route_metadata (gr_metadata request) = Ok format ∧
    llm_report (default LegacyPlainText format) res (text_in tr) (sent_in tr).
Proof. apply llm_lane_sent. Qed.

(** no provider takes over a response that has begun. In every run of the
    language-model lane, however it ends, no provider is asked for a stream after any
    text or sentence has been given out. *)
Theorem llm_lane_never_switches_midway `{JsonApi} routing pool request generation config turn_start
    tr1 tr2 r p req (answer : result ProviderError (list (result ProviderError LlmDelta))) :
  act_runs (run_llm_lane request routing pool generation config turn_start)
    (tr1 ++ Act (StreamResponse p req) answer :: tr2) r →
  Forall (λ a, ¬ output_act a) tr1.
Proof.
  intros Hr. apply (wp_runs _ _ _ _ _ _ _ (run_llm_lane_wp _ _ _ _ _ _)) in Hr as (log&Hm&_).
  rewrite monitor_app in Hm. destruct (monitor log_step log_new tr1) as [log1|] eqn:E1; [|done].
  apply log_run_reads in E1 as [_ _ _ _ _ Hout]; [|apply log_new_ok].
  cbn in Hm. destruct (lg_began log1) eqn:Hb; [done|].
  apply Forall_forall. intros a Ha Ho. discriminate Hout. apply Exists_exists. by exists a.
Qed.

(** * What the speech lane delivers

    Every sentence the lane receives is delivered once and in order, heard when its
    only playback completed and as a subtitle otherwise; every session that was
    opened is closed when the lane returns. *)

#[local] Open Scope Z_scope.

(** ** What a trace plays, says, opens and closes *)

Definition receipt_of (r : result RuntimeDependencyError PlaybackReceipt) : option PlaybackReceipt :=
  match r with Ok receipt => if pbr_completed receipt then Some receipt else None | Err _ => None end.

Definition played_by {X} (o : turn_op X) : X → list (Z * option PlaybackReceipt) :=
  match o in turn_op X return X → _ with
  | Play _ id _ => λ r, [(id, receipt_of r)]
  | _ => λ _, []
  end.
Definition opened_by {X} (o : turn_op X) : X → list TtsSession :=
  match o in turn_op X return X → _ with
  | StartSession _ _ _ => λ r, match r with Ok session => [session] | Err _ => [] end
  | _ => λ _, []
  end.

Definition played_in (tr : list turn_act) : list (Z * option PlaybackReceipt) :=
  flat_map (λ a, match a with Act o x => played_by o x end) tr.
Definition opened_in (tr : list turn_act) : list TtsSession :=
  flat_map (λ a, match a with Act o x => opened_by o x end) tr.
Definition closed_in (tr : list turn_act) : list TtsSession :=
  flat_map (λ a, match a with Act (CloseSession session) _ => [session] | _ => [] end) tr.
Definition said_in (tr : list turn_act) : list DeliveredSentence :=
  flat_map (λ a, match a with Act (TrySend (EvSpeechDelivered _ s)) _ => [s] | _ => [] end) tr.

(** The whole trace as the state of a monitor. *)
Definition trace_step (tr : list turn_act) (a : turn_act) : option (list turn_act) := Some (tr ++ [a]).

Lemma trace_monitor tr tr' : monitor trace_step tr tr' = Some (tr ++ tr').
Proof.
  revert tr. induction tr' as [|a tr' IH]; intros tr; cbn; [by rewrite app_nil_r|].
  by rewrite IH, <-app_assoc.
Qed.

(** Each sentence with the playbacks that belong to it, at most one, and its delivery. *)
Inductive spoken : list SentenceSpan → list (Z * option PlaybackReceipt) → list DeliveredSentence → Prop :=
| spoken_nil : spoken [] [] []
| spoken_snoc sentences plays deliveries sentence played receipt :
    spoken sentences plays deliveries →
    played = [] ∧ receipt = None ∨ played = [(sentence_id sentence, receipt)] →
    spoken (sentences ++ [sentence]) (plays ++ played)
      (deliveries ++ [delivered_sentence sentence receipt]).

Abbreviation tr_wp tr p R := (act_wp trace_step tr p (on_return R)) (only parsing).

Lemma tr_bind {A B} tr (p : task A) (f : A → task B) (M : list turn_act → A → Prop) R :
  tr_wp tr p M → (∀ tr a, M tr a → tr_wp tr (f a) R) → tr_wp tr (p ≫= f) R.
Proof. intros Hp Hf. apply wp_bind. eapply wp_mono; [exact Hp|]. intros l [a|e|] H; [by apply Hf|done..]. Qed.

(** Actions no reader of the trace sees. *)
Definition unread (a : turn_act) : Prop :=
  played_in [a] = [] ∧ opened_in [a] = [] ∧ closed_in [a] = [] ∧ said_in [a] = [].

Definition reads (tr : list turn_act) := (played_in tr, opened_in tr, closed_in tr, said_in tr).

Lemma reads_app tr tr' :
  reads (tr ++ tr') =
    (played_in tr ++ played_in tr', opened_in tr ++ opened_in tr', closed_in tr ++ closed_in tr',
     said_in tr ++ said_in tr').
Proof. unfold reads, played_in, opened_in, closed_in, said_in. by rewrite !flat_map_app. Qed.

Lemma reads_unread tr a : unread a → reads (tr ++ [a]) = reads tr.
Proof. intros (H1&H2&H3&H4). rewrite reads_app, H1, H2, H3, H4. by rewrite !app_nil_r. Qed.

(** A program whose actions are all unread. *)
Lemma wp_unread {A} tr (p : task A) (R : list turn_act → A → Prop) :
  act_always unread p → (∀ tr' a, reads tr' = reads tr → R tr' a) → tr_wp tr p R.
Proof.
  intros Hp HR. assert (∀ tr', reads tr' = reads tr → tr_wp tr' p R) as Hgen; [|by apply Hgen].
  induction p as [a|e| |X o k IH]; intros tr' Hr; cbn in *; [by apply HR|done..|].
  intros x. destruct (Hp x) as [Hx Hk]. eexists. split; [done|]. apply IH; [done|].
  by rewrite reads_unread.
Qed.

Lemma tr_bind_unread {A B} tr (p : task A) (f : A → task B) R :
  act_always unread p → (∀ tr' a, reads tr' = reads tr → tr_wp tr' (f a) R) → tr_wp tr (p ≫= f) R.
Proof. intros Hp Hf. apply tr_bind with (M := λ tr' _, reads tr' = reads tr); [by apply wp_unread|auto]. Qed.

Lemma unread_emit ev :
  (∀ identity sentence, ev ≠ EvSpeechDelivered identity sentence) → act_always unread (emit ev).
Proof.
  intros Hev c. split; [done|]. destruct c; [done|]. intros x. split; [|done].
  destruct ev; try done. by edestruct Hev.
Qed.

Lemma unread_held {A} key (p : task A) : act_always unread p → act_always unread (held key p).
Proof. intros Hp. by apply always_on_exit. Qed.

Lemma unread_report_fallback identity primary provider reason :
  act_always unread (report_fallback identity primary provider reason).
Proof.
  unfold report_fallback. destruct (str_eqb _ _); [done|].
  apply always_bind; [by apply unread_emit|done].
Qed.

Lemma unread_unless_cancelled : act_always unread unless_cancelled.
Proof. intros c. split; [done|]. by destruct c. Qed.

Lemma unread_finish key how : act_always unread (perform (FinishPermit key how) : task ()).
Proof. by intros x. Qed.
#[local] Hint Resolve unread_emit unread_held unread_report_fallback unread_unless_cancelled
  unread_finish always_bind : unread.

Section speech_spec.
Context `{HashIter} (identity : TurnIdentity) (locale : str) (routing : RoutingPlan).

Definition sessions_opened (tr : list turn_act) (st : speech_state) : Prop :=
  opened_in tr ≡ₚ (map_to_list (ss_sessions st)).*2.

(** What trying providers for one sentence may change: playbacks and sessions. *)
Record tried (tr : list turn_act) (st : speech_state) (played : list (Z * option PlaybackReceipt))
    (tr' : list turn_act) (st' : speech_state) : Prop := {
  tr_played : played_in tr' = played_in tr ++ played;
  tr_said : said_in tr' = said_in tr;
  tr_closed : closed_in tr' = closed_in tr;
  tr_sessions : sessions_opened tr st → sessions_opened tr' st';
  tr_delivered : ss_delivered st' = ss_delivered st;
  tr_selected : NoDup (ss_selected st) → NoDup (ss_selected st');
  tr_subtitles : AudioToSubtitles ∈ ss_degradations st' ↔ AudioToSubtitles ∈ ss_degradations st
}.

Lemma tried_reads tr st tr' : reads tr' = reads tr → tried tr st [] tr' st.
Proof using.
  unfold reads. intros [= H1 H2 H3 H4]. constructor; rewrite ?app_nil_r; try done.
  unfold sessions_opened. by rewrite H2.
Qed.

Lemma tried_trans tr st tr1 st1 played tr2 st2 :
  tried tr st [] tr1 st1 → tried tr1 st1 played tr2 st2 → tried tr st played tr2 st2.
Proof using.
  intros [A1 A2 A3 A4 A5 A6 A7] [B1 B2 B3 B4 B5 B6 B7]. rewrite app_nil_r in A1.
  constructor; [by rewrite B1, A1|by rewrite B2|by rewrite B3|auto|by rewrite B5|auto|by rewrite B7].
Qed.

(** The playback of the sentence, if there was one, and the receipt that came of it. *)
Definition played_once (sentence : SentenceSpan) (played : list (Z * option PlaybackReceipt))
    (receipt : option PlaybackReceipt) : Prop :=
  played = [] ∧ receipt = None ∨ played = [(sentence_id sentence, receipt)].

Definition tried_post (sentence : SentenceSpan) (tr : list turn_act) (st : speech_state)
    (tr' : list turn_act) (r : speech_state * option PlaybackReceipt) : Prop :=
  ∃ played, tried tr st played tr' r.1 ∧ played_once sentence played r.2.

Lemma report_fallback_post tr primary provider reason :
  tr_wp tr (report_fallback identity primary provider reason)
    (λ tr' l, reads tr' = reads tr ∧ AudioToSubtitles ∉ l ∧ NeutralEffects ∉ l).
Proof using.
  unfold report_fallback. destruct (str_eqb _ _); [by split_and!; [|apply not_elem_of_nil..]|].
  apply tr_bind_unread; [by apply unread_emit|]. intros tr' _ Hr. split; [done|].
  by split; intros ?%list_elem_of_singleton.
Qed.

Lemma play_sentence_post primary provider sentence speech st tr :
  tr_wp tr (play_sentence identity primary provider sentence speech st) (tried_post sentence tr st).
Proof using.
  unfold play_sentence. apply tr_bind_unread.
  { apply unread_held, always_bind; [by apply unread_emit|]. intros _. by apply unread_emit. }
  intros tr1 _ H1. intros receipt. eexists. split; [done|]. cbn [prog_bind].
  assert (∀ st', ss_delivered st' = ss_delivered st → ss_sessions st' = ss_sessions st →
    (NoDup (ss_selected st) → NoDup (ss_selected st')) →
    (AudioToSubtitles ∈ ss_degradations st' ↔ AudioToSubtitles ∈ ss_degradations st) →
    ∀ tr2, reads tr2 = reads (tr1 ++ [Act (Play identity (sentence_id sentence) speech) receipt]) →
    tried_post sentence tr st tr2 (st', receipt_of receipt)) as Hpost.
  { intros st' Hd Hses Hsel Hsub tr2 H2. unfold reads in H1. injection H1 as P1 O1 C1 S1.
    rewrite reads_app in H2. injection H2 as P2 O2 C2 S2.
    exists [(sentence_id sentence, receipt_of receipt)]. split; [|by right]. cbn in *.
    constructor; rewrite ?app_nil_r in *; try done; [by rewrite P2, P1|congruence|congruence|].
    unfold sessions_opened. by rewrite O2, O1, Hses. }
  destruct receipt as [receipt|error]; cbn [receipt_of] in *.
  - destruct (pbr_completed receipt).
    + apply tr_bind_unread; [apply unread_finish|]. intros tr2 _ H2.
      eapply tr_bind; [apply report_fallback_post|]. cbn. intros tr3 more (H3&Hmore&_).
      apply Hpost; cbn; [done..| | |congruence].
      * intros Hn. case_bool_decide; [done|]. apply NoDup_app. split_and!; [done| |apply NoDup_singleton].
        by intros x Hx ->%list_elem_of_singleton.
      * rewrite elem_of_app. naive_solver.
    + apply tr_bind_unread; [apply unread_finish|]. intros. done.
  - apply tr_bind_unread; [apply unread_finish|]. intros tr2 _ H2. by apply Hpost.
Qed.

Lemma open_session_post provider st tr :
  tr_wp tr (open_session identity locale provider st) (λ tr' r, tried tr st [] tr' r.1).
Proof using.
  unfold open_session. destruct (ss_sessions st !! pd_id provider) as [session|] eqn:Hs.
  { by apply tried_reads. }
  intros started. eexists. split; [done|]. cbn [prog_bind].
  assert (reads (tr ++ [Act (StartSession provider identity locale) started]) =
    (played_in tr ++ [], opened_in tr ++ match started with Ok s => [s] | Err _ => [] end,
     closed_in tr ++ [], said_in tr ++ [])) as Hr.
  { rewrite reads_app. by destruct started. }
  destruct started as [session|e]; cbn.
  - unfold reads in Hr. injection Hr as P O C S. constructor; cbn; rewrite ?P, ?C, ?S, ?app_nil_r; try done.
    unfold sessions_opened. cbn. intros Hperm. rewrite O, Hperm.
    rewrite (map_to_list_insert _ _ _ Hs). cbn. by rewrite Permutation_app_comm.
  - rewrite !app_nil_r in Hr. by apply tried_reads.
Qed.

Lemma speech_candidates_post primary providers sentence st tr :
  tr_wp tr (speech_candidates identity locale routing primary providers sentence st)
    (tried_post sentence tr st).
Proof using.
  revert st tr. induction providers as [|provider providers IH]; intros st tr; cbn [speech_candidates].
  { exists []. split; [by apply tried_reads|by left]. }
  destruct (negb _); [apply IH|].
  assert (∀ tr1 st1, tried tr st [] tr1 st1 →
    tr_wp tr1 (speech_candidates identity locale routing primary providers sentence st1)
      (tried_post sentence tr st)) as Hnext.
  { intros tr1 st1 H1. eapply wp_mono; [apply IH|]. intros tr2 [r|e|]; [|done..].
    intros (played&H2&Ho). exists played. split; [|done]. by eapply tried_trans. }
  assert (∀ tr1 st1, tried tr st [] tr1 st1 →
    tr_wp tr1 (permit_failure (circuit_key provider);;
      speech_candidates identity locale routing primary providers sentence st1)
      (tried_post sentence tr st)) as Hfail.
  { intros tr1 st1 H1. apply tr_bind_unread; [apply unread_finish|]. intros tr2 _ H2.
    apply Hnext. eapply tried_trans; [exact H1|]. by apply tried_reads. }
  intros acquired. eexists. split; [done|]. cbn [prog_bind].
  assert (tried tr st [] (tr ++ [Act (TryAcquire (circuit_key provider)) acquired]) st) as H1
    by (by apply tried_reads, reads_unread).
  destruct acquired as [[]|e]; [|by apply Hnext].
  eapply tr_bind; [apply open_session_post|]. cbn. intros tr2 [st2 [session|]] H2; cbn in H2;
    (assert (tried tr st [] tr2 st2) as H3 by by eapply tried_trans); [|by apply Hfail].
  intros speech. eexists. split; [done|]. cbn [prog_bind].
  assert (∀ o, reads (tr2 ++ [o]) = reads tr2 → tried tr st [] (tr2 ++ [o]) st2) as H4.
  { intros o Ho. eapply tried_trans; [exact H3|]. by apply tried_reads. }
  destruct speech as [speech|e]; [|by apply Hfail, H4, reads_unread].
  eapply wp_mono; [apply play_sentence_post|]. intros tr5 [r|e|]; [|done..].
  intros (played&H5&Ho). exists played. split; [|done]. eapply tried_trans; [|exact H5].
  by apply H4, reads_unread.
Qed.

Definition subtitled (d : DeliveredSentence) : Prop := ds_delivery d = DeliverSubtitle.

(** Between two sentences of the loop. *)
Record speech_inv (sentences : list SentenceSpan) (tr : list turn_act) (st : speech_state) : Prop := {
  sv_spoken : spoken sentences (played_in tr) (ss_delivered st);
  sv_said : said_in tr = ss_delivered st;
  sv_closed : closed_in tr = [];
  sv_sessions : sessions_opened tr st;
  sv_selected : NoDup (ss_selected st);
  sv_subtitles : AudioToSubtitles ∈ ss_degradations st ↔ Exists subtitled (ss_delivered st)
}.

Lemma speech_inv_unread sentences tr tr' st :
  reads tr' = reads tr → speech_inv sentences tr st → speech_inv sentences tr' st.
Proof using.
  unfold reads. intros [= P O C S] [H1 H2 H3 H4 H5 H6]. constructor; rewrite ?P, ?C, ?S; try done.
  unfold sessions_opened. by rewrite O.
Qed.

(** The providers tried for [sentence], the degradation for a subtitle, and the
    delivery. *)
Definition deliver_steps (sentence : SentenceSpan) (st : speech_state)
    (receipt : option PlaybackReceipt) : task speech_state :=
  st ← match receipt with
       | Some _ => Ret st
       | None =>
           if bool_decide (AudioToSubtitles ∈ ss_degradations st) then Ret st else
           emit_degraded identity AudioToSubtitles
             (lit "speech unavailable; delivered through subtitles");;
           Ret (ss_degrade [AudioToSubtitles] st)
       end;
  emit (EvSpeechDelivered identity (delivered_sentence sentence receipt));;
  Ret (ss_deliver (delivered_sentence sentence receipt) st).

Lemma deliver_post sentences sentence tr0 st0 tr1 st1 played receipt :
  speech_inv sentences tr0 st0 → tried tr0 st0 played tr1 st1 → played_once sentence played receipt →
  tr_wp tr1 (deliver_steps sentence st1 receipt)
    (λ tr2 st2, speech_inv (sentences ++ [sentence]) tr2 st2).
Proof using.
  intros [I1 I2 I3 I4 I5 I6] [P S C O D N U] Ho. unfold deliver_steps.
  apply tr_bind with (M := λ tr2 st2, reads tr2 = reads tr1 ∧ ss_delivered st2 = ss_delivered st1 ∧
    ss_sessions st2 = ss_sessions st1 ∧ ss_selected st2 = ss_selected st1 ∧
    (AudioToSubtitles ∈ ss_degradations st2 ↔
     AudioToSubtitles ∈ ss_degradations st1 ∨ receipt = None)).
  { destruct receipt as [receipt|]; [cbn; naive_solver|]. case_bool_decide; [cbn; naive_solver|].
    apply tr_bind_unread; [by apply unread_emit|]. intros tr2 _ H2. cbn. split_and!; try done.
    rewrite elem_of_app, list_elem_of_singleton. naive_solver. }
  intros tr2 st2 (R2&D2&S2&N2&U2) c. eexists. split; [done|]. destruct c; [done|].
  intros x. eexists. split; [done|]. cbn [prog_bind on_return wp].
  rewrite <-(reads_unread _ (Act IsCancelled false)) in R2 by done.
  generalize dependent (tr2 ++ [Act IsCancelled false]). intros tr3 R3.
  unfold reads in R3. injection R3 as RP RO RC RS.
  assert (reads (tr3 ++
      [Act (TrySend (EvSpeechDelivered identity (delivered_sentence sentence receipt))) x]) =
    (played_in tr1, opened_in tr1, closed_in tr1, said_in tr1 ++ [delivered_sentence sentence receipt]))
    as Hr.
  { rewrite reads_app, RP, RO, RC, RS. cbn. by rewrite !app_nil_r. }
  injection Hr as HP HO HC HS. constructor; cbn; rewrite ?HP, ?HC, ?HS, ?D2, ?D, ?N2, ?P, ?C, ?S; try done.
  - by apply spoken_snoc.
  - by rewrite I2.
  - unfold sessions_opened. cbn. rewrite HO, S2. by apply O.
  - by apply N.
  - rewrite U2, U, I6, Exists_app, Exists_cons, Exists_nil. unfold subtitled. cbn.
    destruct receipt; naive_solver.
Qed.

Lemma speak_sentence_post sentences candidates sentence st tr :
  speech_inv sentences tr st →
  tr_wp tr (speak_sentence identity locale routing candidates sentence st)
    (λ tr' st', speech_inv (sentences ++ [sentence]) tr' st').
Proof using.
  intros Hinv. unfold speak_sentence.
  apply tr_bind with (M := λ tr' st', speech_inv sentences tr' st').
  { destruct (ss_announced_voicing st); [done|]. apply tr_bind_unread; [by apply unread_emit|].
    intros tr' _ Hr. cbn. apply (speech_inv_unread _ _ _ _ Hr). by destruct Hinv. }
  clear tr st Hinv. intros tr st Hinv. apply tr_bind with (M := tried_post sentence tr st).
  { destruct candidates as [|primary candidates]; [|apply speech_candidates_post].
    exists []. split; [by apply tried_reads|by left]. }
  intros tr1 [st1 receipt] (played&H1&Ho). by eapply deliver_post.
Qed.

Lemma speech_loop_post candidates sentences done_ st tr :
  speech_inv done_ tr st →
  tr_wp tr (speech_loop identity locale routing candidates sentences st)
    (λ tr' st', speech_inv (done_ ++ sentences) tr' st').
Proof using.
  revert done_ st tr. induction sentences as [|sentence sentences IH]; intros done_ st tr Hinv;
    cbn [speech_loop]; (apply tr_bind_unread; [apply unread_unless_cancelled|]); intros tr1 _ H1;
    apply (speech_inv_unread _ _ _ _ H1) in Hinv.
  - cbn. by rewrite app_nil_r.
  - eapply tr_bind; [by apply speak_sentence_post|]. intros tr2 st2 H2.
    rewrite cons_middle, app_assoc. by apply IH.
Qed.

Lemma close_sessions_post sessions tr :
  tr_wp tr (close_sessions sessions) (λ tr' _, played_in tr' = played_in tr ∧
    opened_in tr' = opened_in tr ∧ closed_in tr' = closed_in tr ++ sessions ∧ said_in tr' = said_in tr).
Proof using.
  revert tr. induction sessions as [|session sessions IH]; intros tr; cbn [close_sessions].
  { cbn. by rewrite app_nil_r. }
  intros x. eexists. split; [done|]. cbn [prog_bind]. eapply wp_mono; [apply IH|].
  intros tr' [[]|e|]; [|done..]. cbn.
  assert (reads (tr ++ [Act (CloseSession session) x]) =
    (played_in tr ++ [], opened_in tr ++ [], closed_in tr ++ [session], said_in tr ++ [])) as Hr
    by by rewrite reads_app.
  unfold reads in Hr. injection Hr as P O C S. rewrite P, O, C, S, !app_nil_r.
  intros (?&?&Hc&?). by rewrite Hc, <-app_assoc.
Qed.

Lemma run_speech_lane_post sentences providers :
  tr_wp [] (run_speech_lane identity locale routing sentences providers)
    (λ tr res, spoken sentences (played_in tr) (sl_delivered res) ∧ said_in tr = sl_delivered res ∧
       closed_in tr ≡ₚ opened_in tr ∧ NoDup (sl_providers res) ∧
       (AudioToSubtitles ∈ sl_degradations res ↔ Exists subtitled (sl_delivered res))).
Proof using.
  unfold run_speech_lane. eapply tr_bind.
  { apply speech_loop_post. constructor; cbn; try done; [apply spoken_nil| |constructor|].
    - unfold sessions_opened. cbn. by rewrite map_to_list_empty.
    - rewrite Exists_nil. by split; [intros ?%elem_of_nil|]. }
  intros tr st [I1 I2 I3 I4 I5 I6]. eapply tr_bind; [apply close_sessions_post|].
  cbn. intros tr' _ (P&O&C&S). rewrite P, S, O, C, I3. split_and!; try done.
  unfold sessions_opened in I4. cbn. rewrite I4. unfold hm_values. by rewrite hm_iter_perm.
Qed.
End speech_spec.

Lemma speech_lane_delivered `{HashIter} identity locale routing sentences providers
    tr res :
  act_runs (run_speech_lane identity locale routing sentences providers) tr (Returned res) →
  spoken sentences (played_in tr) (sl_delivered res) ∧ said_in tr = sl_delivered res ∧
  closed_in tr ≡ₚ opened_in tr ∧ NoDup (sl_providers res) ∧
  (AudioToSubtitles ∈ sl_degradations res ↔ Exists subtitled (sl_delivered res)).
Proof.
  intros Hr. apply (wp_runs _ _ _ _ _ _ _ (run_speech_lane_post _ _ _ _ _)) in Hr as (tr'&Hm&HQ).
  rewrite trace_monitor in Hm. by injection Hm as <-.
Qed.

(** C10: every sentence the speech lane receives is delivered exactly once, in order,
    and truthfully. Whatever the speech providers and the audio sink do: when the lane
    returns, there is one delivery for each sentence, with its identifier, byte range
    and text; each sentence was played at most once, is reported as heard, with the
    frames of the receipt, exactly if that playback completed, and otherwise as a
    subtitle with no frames; the deliveries are those the events announced; every
    session that was opened was closed once; and the fallback to subtitles is reported
    exactly when some sentence was a subtitle. *)
Theorem speech_lane_delivers_every_sentence `{HashIter} identity locale routing sentences providers
    tr res :
  act_runs (run_speech_lane identity locale routing sentences providers) tr (Returned res) →
  spoken sentences (played_in tr) (sl_delivered res) ∧ said_in tr = sl_delivered res ∧
  closed_in tr ≡ₚ opened_in tr ∧ NoDup (sl_providers res) ∧
  (AudioToSubtitles ∈ sl_degradations res ↔ Exists subtitled (sl_delivered res)).
Proof. apply speech_lane_delivered. Qed.
