(* ===== verification/TurnSpec.v ===== *)
(** * What a whole turn promises

    The effects lane, the composition of the lanes in [run_turn_inner], the outcome
    [run_turn] makes of it and the way the task of a turn ends.

    The second half is the order in which a turn announces its stages, as an abstract
    machine every run refines. *)

From S2P Require Import Prelude Text Policy Circuit Sentence SentenceSpec BrokerTypes Response ResponseStream Prog Turn Lanes LaneSpec SpeechSpec.

#[local] Open Scope Z_scope.

#[local] Arguments failure : simpl never.

(** ** Runs and the trace *)

(** The postcondition of a program may use the run that led to it. *)
Lemma wp_any {E A} tr (p : prog turn_op E A) (Q : list turn_act → exit E A → Prop) :
  (∀ tr' r, act_runs p tr' r → Q (tr ++ tr') r) → act_wp trace_step tr p Q.
Proof.
  revert tr. induction p as [a|e| |X o k IH]; intros tr HQ; cbn.
  1-3: specialize (HQ [] _ (conj eq_refl eq_refl)); by rewrite app_nil_r in HQ.
  intros x. eexists. split; [done|]. apply IH. intros tr' r Hr. rewrite <-app_assoc. apply HQ.
  by exists x, tr'.
Qed.

Lemma runs_trace {E A} (p : prog turn_op E A) Q tr r :
  act_wp trace_step [] p Q → act_runs p tr r → Q tr r.
Proof.
  intros Hp Hr. apply (wp_runs _ _ _ _ _ _ _ Hp) in Hr as (tr'&Hm&HQ).
  rewrite trace_monitor in Hm. by injection Hm as <-.
Qed.

Lemma runs_exit_of {E E' A} (p : prog turn_op E A) tr (r : exit E' (exit E A)) :
  act_runs (exit_of p) tr r → ∃ r', r = Returned r' ∧ act_runs p tr r'.
Proof.
  revert tr. induction p as [a|e| |X o k IH]; intros tr; cbn; [intros [-> ->]; by eexists..|].
  intros (x&tr'&->&Hr). apply IH in Hr as (r'&->&Hr). eexists. split; [done|]. by exists x, tr'.
Qed.

Lemma runs_tally {E E' A} sent (p : prog turn_op E A) tr (r : exit E' (list SentenceSpan * exit E A)) :
  act_runs (tally sent p) tr r → ∃ r', r = Returned (sent ++ sent_in tr, r') ∧ act_runs p tr r'.
Proof.
  revert sent tr. induction p as [a|e| |X o k IH]; intros sent tr; cbn [tally runs].
  1-3: intros [-> ->]; rewrite app_nil_r; by eexists.
  intros (x&tr'&->&Hr). apply IH in Hr as (r'&->&Hr). exists r'. split; [|by exists x, tr'].
  cbn. by rewrite <-app_assoc.
Qed.

Lemma runs_keeping {A} outcome (p : task A) tr r :
  act_runs (keeping outcome p) tr r →
  match r with
  | Returned a => act_runs p tr (Returned a)
  | Raised (o, e) => o = outcome ∧ act_runs p tr (Raised e)
  | Crashed => act_runs p tr Crashed
  end.
Proof.
  unfold keeping, map_raise. intros Hr.
  apply runs_bind in Hr as [(tr1&tr2&r'&->&H1&H2)|[(e&->&H1)|(->&H1)]].
  - apply runs_exit_of in H1 as (?&[= <-]&H1). destruct r'; destruct H2 as [-> ->]; by rewrite app_nil_r.
  - by apply runs_exit_of in H1 as (?&?&?).
  - by apply runs_exit_of in H1 as (?&?&?).
Qed.

(** ** The effects lane *)

(** The effects of a turn are valid, or neutral and reported as such. *)
Definition effects_result (allowed : list str) (res : EffectsLaneResult) : Prop :=
  el_lifecycle res = LaneCompleted ∧ effects_ok allowed (el_effects res) ∧
    NeutralEffects ∉ el_degradations res ∨
  el_lifecycle res = LaneNeutralized ∧ el_effects res = effects_neutral ∧
    el_degradations res = [NeutralEffects].

Lemma neutral_lane_post tr identity reason allowed :
  tr_wp tr (neutral_effects_lane identity reason) (λ _, effects_result allowed).
Proof.
  apply tr_bind with (M := λ _ _, True); [|intros; by right].
  apply wp_any. by intros ? [].
Qed.

Lemma effects_candidates_post tr request routing allowed primary providers :
  tr_wp tr (effects_candidates request routing allowed primary providers)
    (λ _, effects_result allowed).
Proof.
  revert tr. induction providers as [|provider providers IH]; intros tr; cbn [effects_candidates].
  { apply neutral_lane_post. }
  destruct (negb _); [apply IH|]. intros acquired. eexists. split; [done|]. cbn [prog_bind].
  destruct acquired; [|apply IH]. intros derived. eexists. split; [done|]. cbn [prog_bind].
  assert (∀ tr, tr_wp tr (permit_failure (circuit_key provider);;
    effects_candidates request routing allowed primary providers) (λ _, effects_result allowed)) as Hfail.
  { intros tr' x. eexists. split; [done|]. apply IH. }
  assert (∀ tr, tr_wp tr (held (circuit_key provider) (Raise TurnCancelled : task EffectsLaneResult))
    (λ _, effects_result allowed)) as Hdrop.
  { intros tr'. apply wp_any. intros tr2 r Hr. destruct Hr as (x&tr3&_&_&->). done. }
  destruct derived as [[effects|error]|]; [|case_bool_decide; [apply Hdrop|apply Hfail]|apply Hdrop].
  destruct (effects_validate effects allowed) as [valid|] eqn:Hv; [|apply Hfail].
  apply effects_validate_inv in Hv as [Hok _].
  intros x. eexists. split; [done|]. cbn [prog_bind].
  apply tr_bind with (M := λ _ _, True); [apply wp_any; by intros ? []|]. intros tr2 _ _.
  eapply tr_bind; [apply report_fallback_post|]. cbn. intros tr3 more (_&_&Hmore). left. by split_and!.
Qed.

Lemma run_effects_lane_post tr request routing providers allowed :
  tr_wp tr (run_effects_lane request routing providers allowed) (λ _, effects_result allowed).
Proof.
  unfold run_effects_lane. destruct (allowed_candidates providers routing);
    [apply neutral_lane_post|apply effects_candidates_post].
Qed.

(** C11: the effects of a turn are validated or neutral. However the effects providers
    answer: when the lane returns, its effects satisfy every range and limit and hold
    only allowed actions, or they are the neutral effects, and then the degradation
    says so. *)
Theorem effects_lane_valid request routing providers allowed tr res :
  act_runs (run_effects_lane request routing providers allowed) tr (Returned res) →
  effects_result allowed res.
Proof. intros Hr. by apply (runs_trace _ _ _ _ (run_effects_lane_post _ _ _ _ _)) in Hr. Qed.

(** ** The lanes together *)

Lemma keep_bind {A B} tr outcome (p : task A) (f : A → turn_step B) Q :
  (∀ tr' a, act_runs p tr' (Returned a) → act_wp trace_step (tr ++ tr') (f a) Q) →
  (∀ tr' e, Q (tr ++ tr') (Raised (outcome, e))) → (∀ tr', Q tr' Crashed) →
  act_wp trace_step tr (keeping outcome p ≫= f) Q.
Proof.
  intros Hf He Hc. apply wp_bind, wp_any. intros tr' r Hr. apply runs_keeping in Hr.
  destruct r as [a|[o e]|]; [by apply Hf| |by apply Hc]. destruct Hr as [-> _]. apply He.
Qed.

(** What the joined lanes leave: the speech lane spoke what the language-model lane
    sent. *)
Definition lanes_result (allowed : list str) (request : GenerationRequest)
    (r : exit SupervisorError LlmLaneResult * result SupervisorError SpeechLaneResult
         * result SupervisorError EffectsLaneResult) : Prop :=
  let '(llm, speech, effects) := r in
  ∃ sent,
    match llm with
    | Returned res => ∃ format text, llm_report format res text sent
    | Raised e => e = TurnCancelled ∨ sent = []
    | Crashed => False
    end ∧
    (∀ res, speech = Ok res → ∃ plays, spoken sent plays (sl_delivered res)) ∧
    (∀ res, effects = Ok res → effects_result allowed res).

Lemma run_lanes_post `{JsonApi} `{HashIter} tr config language_models effects_providers speech_providers
    request identity turn_start generation_request :
  tr_wp tr (run_lanes config language_models effects_providers speech_providers request identity
              turn_start generation_request)
    (λ _, lanes_result (allowed_actions config) generation_request).
Proof.
  unfold run_lanes. apply wp_bind, wp_any. intros tr1 r Hr. apply runs_tally in Hr as (llm&->&Hllm).
  cbn [app]. apply llm_lane_sent in Hllm. generalize dependent (sent_in tr1). intros sent Hllm.
  generalize (tr ++ tr1). clear tr. intros tr.
  apply wp_bind, wp_any. intros tr2 r Hr. apply runs_exit_of in Hr as (speech&->&Hspeech).
  apply wp_bind, wp_any. intros tr3 r Hr. apply runs_exit_of in Hr as (effects&->&Heffects).
  assert (∀ res, speech = Returned res → ∃ plays, spoken sent plays (sl_delivered res)) as Hs.
  { intros res ->. apply speech_lane_delivered in Hspeech as (Hs&_). by eexists. }
  assert (∀ res, effects = Returned res → effects_result (allowed_actions config) res) as He.
  { intros res ->. by apply (runs_trace _ _ _ _ (run_effects_lane_post _ _ _ _ _)) in Heffects. }
  clear Hspeech Heffects.
  assert (∀ tr', (match llm with Crashed => False | _ => True end) →
    tr_wp tr' (speech ← joined speech; effects ← joined effects; Ret (llm, speech, effects))
    (λ _, lanes_result (allowed_actions config) generation_request)) as Hjoin.
  { intros tr' Hc.
    destruct speech as [s|e|]; [| |intros x; eexists; by split];
      (destruct effects as [f|e'|]; [| |intros x; eexists; by split]);
      (exists sent; split; [|split; [intros ? [= <-]|intros ? [= <-]]; eauto]);
      (destruct llm as [res|e''|]; [|done..]); destruct Hllm as (_&format&_&Hrep); eauto. }
  destruct llm; [by apply Hjoin..|done].
Qed.

(** ** Cancellation in the trace *)

(** An action that tells a turn of its cancellation: to one of its lanes, or as the answer
    of a dependency. *)
Definition tells_cancelled (a : turn_act) : bool :=
  is_some (cancelled_by a) ||
  match a with
  | Act o x =>
      match o in turn_op X return X → bool with
      | Resolve _ => λ r, match r with Err DependencyCancelled => true | _ => false end
      | Retrieve _ => λ r, match r with Err DependencyCancelled => true | _ => false end
      | CommitDelivered _ _ _ => λ r, match r with Err DependencyCancelled => true | _ => false end
      | _ => λ _, false
      end x
  end.

(** A lane that panicked, and the announcement that the turn is completed. *)
Definition lane_lost (a : turn_act) : bool :=
  match a with Act JoinFailed _ => true | _ => false end.
Definition announces_completed (a : turn_act) : bool :=
  match a with Act (TrySend (EvLifecycle _ Completed)) _ => true | _ => false end.

(** What a trace has shown so far. *)
Record flags := { fl_told : bool; fl_lost : bool; fl_announced : bool }.
Definition flag_step (f : flags) (a : turn_act) : option flags := Some {|
  fl_told := fl_told f || tells_cancelled a; fl_lost := fl_lost f || lane_lost a;
  fl_announced := fl_announced f || announces_completed a |}.
Definition only_told (told : bool) : flags :=
  {| fl_told := told; fl_lost := false; fl_announced := false |}.
Abbreviation flag_wp := (act_wp flag_step) (only parsing).

Lemma flag_monitor f tr :
  monitor flag_step f tr = Some {|
    fl_told := fl_told f || existsb tells_cancelled tr;
    fl_lost := fl_lost f || existsb lane_lost tr;
    fl_announced := fl_announced f || existsb announces_completed tr |}.
Proof.
  revert f. induction tr as [|a tr IH]; intros f; cbn.
  - rewrite !orb_false_r. by destruct f.
  - rewrite IH. cbn. by rewrite !orb_assoc.
Qed.

(** A program that raises the cancellation error exactly when it was told of its
    cancellation; a [pure] one raises nothing else. It may start when the turn was [told]
    already, and then it raises nothing else either. *)
Definition honest {A} (told pure : bool) (p : task A) : Prop :=
  flag_wp (only_told told) p (λ f r,
    match r with
    | Raised e => f = only_told (is_turn_cancelled e) ∧ (pure = true → e = TurnCancelled)
    | _ => f = only_told told
    end).

Lemma honest_bind {A B} told pure (p : task A) (f : A → task B) :
  honest told pure p → (∀ a, honest told pure (f a)) → honest told pure (p ≫= f).
Proof.
  intros Hp Hf. apply wp_bind. eapply wp_mono; [exact Hp|]. intros fl [a|e|]; [|done..].
  intros ->. apply Hf.
Qed.

Lemma honest_held {A} told pure key (p : task A) : honest told pure p → honest told pure (held key p).
Proof.
  intros Hp. apply wp_on_exit. eapply wp_mono; [exact Hp|]. intros fl [a|e|]; cbn; [done|..].
  - intros [-> Hd] []. eexists. split; [done|]. cbn. by rewrite orb_false_r.
  - intros -> []. eexists. split; [done|]. cbn. by rewrite orb_false_r.
Qed.

(** An action that shows nothing. *)
Lemma flag_silent told a :
  flag_step (only_told false) a = Some (only_told false) →
  flag_step (only_told told) a = Some (only_told told).
Proof. unfold flag_step, only_told. cbn. intros [= -> -> ->]. by rewrite orb_false_r. Qed.
Lemma flag_told told a :
  flag_step (only_told false) a = Some (only_told true) →
  flag_step (only_told told) a = Some (only_told true).
Proof. unfold flag_step, only_told. cbn. intros [= -> -> ->]. by rewrite orb_true_r. Qed.

Lemma honest_perform {X} told pure (o : turn_op X) :
  (∀ x, flag_step (only_told false) (Act o x) = Some (only_told false)) →
  honest told pure (perform o).
Proof. intros Ho x. exists (only_told told). split; [apply flag_silent, Ho|done]. Qed.

Lemma honest_emit told pure ev :
  announces_completed (Act (TrySend ev) Sent) = false → honest told pure (emit ev).
Proof.
  intros Hev []; eexists; (split; [first [by apply flag_told | by apply flag_silent]|]); [done|].
  intros x. exists (only_told told). split; [|done]. apply flag_silent.
  unfold flag_step. cbn in *. by rewrite Hev.
Qed.
Lemma honest_unless_cancelled told pure : honest told pure unless_cancelled.
Proof.
  intros []; eexists; (split; [first [by apply flag_told | by apply flag_silent]|]); done.
Qed.
Lemma honest_of_outcome {A} told pure (r : outcome A) : honest told pure (of_outcome r : task A).
Proof. by destruct r. Qed.
Lemma honest_ret {A} told pure (a : A) : honest told pure (Ret a : task A). Proof. done. Qed.

Lemma honest_send {B} told pure sentence (f : bool → task B) :
  f false = Raise TurnCancelled → honest told pure (f true) →
  honest told pure (perform (SendSentence sentence) ≫= f).
Proof.
  intros Hn Hf []; eexists; (split; [first [by apply flag_told | by apply flag_silent]|]); [exact Hf|].
  cbn [prog_bind]. by rewrite Hn.
Qed.

(** An answer that may tell of the cancellation; the permit is then ended. *)
Lemma honest_ask {X B} pure (o : turn_op X) key how (f : X → task B) :
  (∀ x, flag_step (only_told false) (Act o x) = Some (only_told (tells_cancelled (Act o x)))) →
  (∀ x, tells_cancelled (Act o x) = true →
    f x = (perform (FinishPermit key how);; Raise TurnCancelled)) →
  (∀ x, tells_cancelled (Act o x) = false → honest false pure (f x)) →
  honest false pure (perform o ≫= f).
Proof.
  intros Ho Hn Hf x. eexists. split; [apply Ho|]. cbn [prog_bind].
  destruct (tells_cancelled (Act o x)) eqn:E; [|by apply Hf]. rewrite Hn by done.
  intros []. eexists. by split.
Qed.

#[export] Hint Resolve honest_held honest_unless_cancelled honest_of_outcome honest_ret : honest.
#[export] Hint Extern 1 (honest _ _ (emit _)) => apply honest_emit; reflexivity : honest.
#[export] Hint Extern 1 (honest _ _ (Raise _)) => by split : honest.

Ltac honest_step :=
  match goal with
  | |- honest _ _ (perform (SendSentence _) ≫= _) => apply honest_send; [done|]
  | |- honest _ _ (_ ≫= _) => apply honest_bind; [|intros ?]
  | |- honest _ _ (perform _) => apply honest_perform; done
  | |- honest _ _ (permit_failure _) => apply honest_perform; done
  | |- honest _ _ (permit_success _) => apply honest_perform; done
  | |- honest _ _ (emit_lifecycle _ _) => unfold emit_lifecycle
  | |- honest _ _ (emit_lane _ _ _) => unfold emit_lane
  | |- honest _ _ (emit_degraded _ _ _) => unfold emit_degraded
  | |- honest _ _ (emit_timing _ _ _ _) => apply honest_bind; [apply honest_perform; done|intros ?]
  | |- honest _ _ (timing_start _ _) => apply honest_bind; [apply honest_perform; done|intros ?]
  | |- honest _ _ (report_fallback _ _ _ _) => unfold report_fallback
  | |- honest _ _ (held _ _) => apply honest_held
  | |- honest _ _ (match ?x with _ => _ end) => destruct x
  | |- honest _ _ _ => solve [auto with honest]
  end.
Ltac honest_tac := repeat honest_step.

Section lanes_honest.
Context `{JsonApi} `{HashIter} (routing : RoutingPlan) (pool : list ProviderDescriptor).

Lemma honest_send_sentences told pure identity sentences : honest told pure (send_sentences identity sentences).
Proof using. induction sentences as [|s ss IH]; cbn [send_sentences]; honest_tac. Qed.

Lemma honest_llm_stream request generation format primary provider items span output adapter :
  honest false false (llm_stream request generation format primary provider items span output adapter).
Proof using.
  revert span output adapter. induction items as [|[delta|error] items IH]; intros span output adapter;
    cbn [llm_stream].
  - unfold llm_stream_end. honest_tac. apply honest_send_sentences.
  - honest_tac; first [apply IH | apply honest_send_sentences].
  - honest_tac.
Qed.

Lemma honest_run_llm_lane request generation config turn_start :
  honest false false (run_llm_lane request routing pool generation config turn_start).
Proof using.
  unfold run_llm_lane. apply honest_bind.
  { by destruct (from_route_metadata _). }
  intros format. destruct (allowed_candidates pool routing) as [|primary rest]; [by split|].
  generalize (lit "no provider attempted"). generalize (primary :: rest).
  induction l as [|provider providers IH]; intros last_error; cbn [llm_candidates]; [by split|].
  honest_tac; first [apply IH | apply honest_llm_stream].
Qed.

Lemma honest_run_effects_lane request actions :
  honest false true (run_effects_lane request routing pool actions).
Proof using.
  unfold run_effects_lane, neutral_effects_lane.
  destruct (allowed_candidates pool routing) as [|primary rest]; [honest_tac|].
  generalize (primary :: rest).
  induction l as [|provider providers IH]; cbn [effects_candidates];
    [unfold neutral_effects_lane; honest_tac|].
  honest_step; [apply IH|]. honest_step; [honest_step|].
  match goal with x : result CircuitOpen () |- _ => destruct x end; [|apply IH].
  apply honest_ask with (key := circuit_key provider) (how := PermitDrop); [done|..].
  - intros [[effects|error]|]; unfold tells_cancelled; cbn; [done| |done]. by case_bool_decide.
  - intros [[effects|error]|] Hc; cbv beta iota; [honest_tac; apply IH| |done].
    unfold tells_cancelled in Hc. cbn in Hc. case_bool_decide; [done|]. honest_tac; apply IH.
Qed.

Lemma honest_play_sentence identity primary provider sentence speech st :
  honest false true (play_sentence identity primary provider sentence speech st).
Proof using.
  unfold play_sentence. honest_step; [honest_tac|].
  apply honest_ask with (key := circuit_key provider) (how := PermitFailure); [done|..].
  - intros [receipt|error]; unfold tells_cancelled; cbn; [|done]. by destruct (pbr_completed receipt).
  - intros [receipt|error] Hc; cbv beta iota; [|honest_tac].
    unfold tells_cancelled in Hc. cbn in Hc. destruct (pbr_completed receipt); [honest_tac|done].
Qed.

Lemma honest_run_speech_lane identity locale sentences :
  honest false true (run_speech_lane identity locale routing sentences pool).
Proof using.
  unfold run_speech_lane. apply honest_bind.
  - generalize speech_state_new. induction sentences as [|sentence sentences IH]; intros st;
      cbn [speech_loop]; (honest_step; [honest_step|]); [done|].
    honest_step; [|apply IH]. unfold speak_sentence. honest_tac.
    match goal with |- honest _ _ (speech_candidates _ _ _ _ ?l _ ?s) => generalize l, s end.
    intros ps. induction ps as [|provider providers IHp]; intros st'; cbn [speech_candidates]; [done|].
    unfold open_session. honest_tac; first [apply IHp | apply honest_play_sentence].
  - intros st. apply honest_bind; [|intros; done].
    induction (hm_values (ss_sessions st)) as [|session sessions IH]; cbn [close_sessions]; [done|].
    honest_step; [honest_step|apply IH].
Qed.
End lanes_honest.

(** What a program can return, whatever its environment answers. *)
Definition returns {E A} (R : A → Prop) (p : prog turn_op E A) : Prop :=
  act_wp (λ (s : ()) _, Some s) tt p (λ _ r, match r with Returned a => R a | _ => True end).

Lemma returns_any {E A} (p : prog turn_op E A) : returns (λ _, True) p.
Proof. induction p as [a|e| |X o k IH]; [done..|]. intros x. exists tt. split; [done|apply IH]. Qed.
Lemma returns_bind {E A B} (R : B → Prop) (p : prog turn_op E A) (f : A → prog turn_op E B) :
  (∀ a, returns R (f a)) → returns R (p ≫= f).
Proof.
  intros Hf. apply wp_bind. eapply wp_mono; [apply returns_any|]. by intros [] [a|e|] _; [apply Hf|..].
Qed.
Lemma returns_seq {E A B} (M : A → Prop) (R : B → Prop) (p : prog turn_op E A) (f : A → prog turn_op E B) :
  returns M p → (∀ a, M a → returns R (f a)) → returns R (p ≫= f).
Proof.
  intros Hp Hf. apply wp_bind. eapply wp_mono; [exact Hp|]. by intros [] [a|e|] Ha; [apply Hf|..].
Qed.

Lemma wp_returns {S E A} (step : S → turn_act → option S) s (p : prog turn_op E A) Q R :
  act_wp step s p Q → returns R p →
  act_wp step s p (λ s r, Q s r ∧ match r with Returned a => R a | _ => True end).
Proof.
  revert s. induction p as [a|e| |X o k IH]; intros s; cbn; [by split..|].
  intros Hp Hr x. destruct (Hp x) as (s'&Hs&Hk), (Hr x) as ([]&_&Hrk). exists s'.
  split; [done|]. by apply IH.
Qed.

(** The error a stopped language-model lane returns is not the cancellation. *)
Definition stopped_not_cancelled (res : LlmLaneResult) : Prop :=
  ll_terminal_error res ≠ Some TurnCancelled.
Definition end_not_cancelled (ended : stream_end) : Prop :=
  match ended with StreamReturns res => stopped_not_cancelled res | _ => True end.

Ltac returns_tac := repeat match goal with
  | |- returns _ (_ ≫= _) => apply returns_bind; intros ?
  | |- returns _ (Ret _) => first [exact I | intros [=]]
  | |- returns _ (Raise _) => exact I
  | |- returns _ (match ?x with _ => _ end) => destruct x
  end.

Lemma llm_stream_returns `{JsonApi} request generation format primary provider items span output adapter :
  returns end_not_cancelled
    (llm_stream request generation format primary provider items span output adapter).
Proof.
  revert span output adapter. induction items as [|[delta|error] items IH]; intros span output adapter;
    cbn [llm_stream]; unfold llm_stream_end; returns_tac; apply IH.
Qed.

Lemma run_llm_lane_returns `{JsonApi} request routing pool generation config turn_start :
  returns stopped_not_cancelled (run_llm_lane request routing pool generation config turn_start).
Proof.
  unfold run_llm_lane. apply returns_bind. intros format.
  destruct (allowed_candidates pool routing) as [|primary rest]; [exact I|].
  generalize (lit "no provider attempted"). generalize (primary :: rest).
  induction l as [|provider providers IH]; intros last_error; cbn [llm_candidates]; [exact I|].
  destruct (negb _); [apply IH|]. do 2 (apply returns_bind; intros ?). case_match; [|apply IH].
  do 2 (apply returns_bind; intros ?). case_match; [|do 2 (apply returns_bind; intros ?); apply IH].
  apply returns_bind; intros adapter. eapply returns_seq; [apply llm_stream_returns|].
  intros [res|last] Hres; [exact Hres|apply IH].
Qed.

(** Flags only accumulate: what a program shows does not depend on what was shown. *)
Definition flag_or (f g : flags) : flags := {|
  fl_told := fl_told f || fl_told g; fl_lost := fl_lost f || fl_lost g;
  fl_announced := fl_announced f || fl_announced g |}.

Lemma flag_frame {E A} g f (p : prog turn_op E A) Q :
  flag_wp f p Q → flag_wp (flag_or g f) p (λ f' r, ∃ f0, Q f0 r ∧ f' = flag_or g f0).
Proof.
  revert f. induction p as [a|e| |X o k IH]; intros f; cbn; [by eexists..|].
  intros Hp x. destruct (Hp x) as (f'&[= <-]&Hk). eexists. split; [done|]. apply IH in Hk.
  unfold flag_or in Hk at 1. cbn in Hk. unfold flag_or at 1. cbn. by rewrite <-!orb_assoc.
Qed.

Definition lane_told {A} (r : exit SupervisorError A) : bool :=
  match r with Raised e => is_turn_cancelled e | _ => false end.

(** An honest lane after others. *)
Lemma honest_after {A} told (p : task A) :
  honest false true p →
  flag_wp (only_told told) p (λ f r,
    f = only_told (told || lane_told r) ∧ ∀ e, r = Raised e → e = TurnCancelled).
Proof.
  intros Hp. apply (flag_frame (only_told told)) in Hp. unfold flag_or in Hp at 1. cbn in Hp.
  rewrite orb_false_r in Hp. eapply wp_mono; [exact Hp|]. intros f r (f0&Hr&->).
  destruct r as [a|e|]; [subst; by split|destruct Hr as [-> Hr]|subst; by split].
  split; [done|]. intros ? [= <-]. by apply Hr.
Qed.

Lemma wp_tally {E E' A S} (step : S → turn_act → option S) s sent (p : prog turn_op E A)
    (Q : S → exit E' (list SentenceSpan * exit E A) → Prop) :
  act_wp step s p (λ s r, ∀ sent, Q s (Returned (sent, r))) → act_wp step s (tally sent p) Q.
Proof.
  revert s sent. induction p as [a|e| |X o k IH]; intros s sent; cbn; [by intros HQ..|].
  intros Hp x. destruct (Hp x) as (s'&Hs&Hk). exists s'. split; [done|]. by apply IH.
Qed.

Definition err_told {A} (r : result SupervisorError A) : bool :=
  match r with Err e => is_turn_cancelled e | Ok _ => false end.

(** The lanes together: told when one of them was, unless one of them panicked. *)
Lemma run_lanes_flags `{JsonApi} `{HashIter} config language_models effects_providers
    speech_providers request identity turn_start generation_request :
  flag_wp (only_told false)
    (run_lanes config language_models effects_providers speech_providers request identity
      turn_start generation_request)
    (λ f r, match r with
            | Returned (llm, speech, effects) =>
                f = only_told (lane_told llm || err_told speech || err_told effects) ∧
                (∀ e, speech = Err e → e = TurnCancelled) ∧
                (∀ res, llm = Returned res → stopped_not_cancelled res)
            | Raised e => fl_announced f = false ∧ fl_lost f = true ∧ e ≠ TurnCancelled
            | Crashed => True
            end).
Proof.
  unfold run_lanes. apply wp_bind, wp_tally.
  pose proof (run_llm_lane_returns generation_request (plan_from_request request) language_models
    (ti_cancellation_generation identity) (sentence_segmentation config) turn_start) as Hret.
  revert Hret. generalize (honest_run_llm_lane (plan_from_request request) language_models
    generation_request (ti_cancellation_generation identity) (sentence_segmentation config) turn_start).
  generalize (run_llm_lane generation_request (plan_from_request request) language_models
    (ti_cancellation_generation identity) (sentence_segmentation config) turn_start) as lane.
  intros lane Hlane Hret.
  assert (flag_wp (only_told false) lane (λ f llm, f = only_told (lane_told llm) ∧
    ∀ res, llm = Returned res → stopped_not_cancelled res)) as Hboth.
  { eapply wp_mono; [exact (wp_returns _ _ _ _ _ Hlane Hret)|]. clear. intros f [a|e|] [Hf Ha].
    - split; [done|]. by intros ? [= <-].
    - destruct Hf as [-> _]. by split.
    - by split. }
  eapply wp_mono; [exact Hboth|]. clear. intros f llm [-> Hllm] sent. cbn beta iota.
  apply wp_bind, wp_exit_of. eapply wp_mono; [apply honest_after, honest_run_speech_lane|].
  intros f speech [-> Hspeech].
  apply wp_bind, wp_exit_of. eapply wp_mono; [apply honest_after, honest_run_effects_lane|].
  intros f effects [-> Heffects].
  assert (∀ llm', lane_told llm' = lane_told llm → (∀ res, llm' = Returned res → stopped_not_cancelled res) →
    flag_wp (only_told (lane_told llm || lane_told speech || lane_told effects))
    (speech ← joined speech; effects ← joined effects; Ret (llm', speech, effects))
    (λ f r, match r with
            | Returned (llm, speech, effects) =>
                f = only_told (lane_told llm || err_told speech || err_told effects) ∧
                (∀ e, speech = Err e → e = TurnCancelled) ∧
                (∀ res, llm = Returned res → stopped_not_cancelled res)
            | Raised e => fl_announced f = false ∧ fl_lost f = true ∧ e ≠ TurnCancelled
            | Crashed => True
            end)) as Hjoin.
  { intros llm' <- Hres. destruct speech as [s|e|]; [| |intros x; eexists; by split];
      (destruct effects as [g|e'|]; [| |intros x; eexists; by split]);
      (split; [done|]; split; [|done]); intros ? [= <-]; by apply Hspeech. }
  destruct llm; [by apply Hjoin..|done].
Qed.

(** ** The outcome *)

Section turn_spec.
Context `{JsonApi} `{HashIter} (config : SupervisorConfig)
  (language_models effects_providers speech_providers : list ProviderDescriptor)
  (request : TurnRequest) (identity : TurnIdentity).

Definition effects_safe (o : TurnOutcome) : Prop :=
  to_effects o = effects_neutral ∨ effects_ok (allowed_actions config) (to_effects o).

(** Nothing delivered and no response yet. *)
Definition blank (o : TurnOutcome) : Prop :=
  to_delivered o = [] ∧ to_full_response o = [] ∧ to_error o = None ∧ effects_safe o.

(** The deliveries are spans of the response the outcome holds. *)
Definition delivered_of (whole : bool) (o : TurnOutcome) : Prop :=
  ∃ sentences plays, spoken sentences plays (to_delivered o) ∧
    if whole then segments (to_full_response o) sentences
    else spans_within (to_full_response o) sentences.

Definition committed (tr : list turn_act) (o : TurnOutcome) : Prop :=
  ∃ x, Act (CommitDelivered identity (tr_transcript request) (to_delivered o)) x ∈ tr.

Definition inner_post (tr : list turn_act) (r : exit (TurnOutcome * SupervisorError) TurnOutcome) : Prop :=
  match r with
  | Returned o => effects_safe o ∧ to_error o = None ∧ delivered_of true o ∧ committed tr o
  | Raised (o, e) => effects_safe o ∧ (e = TurnCancelled ∨ delivered_of false o)
  | Crashed => True
  end.

Lemma blank_partial o : blank o → delivered_of false o.
Proof using.
  intros (Hd&Hf&_). exists [], []. rewrite Hd, Hf. split; [constructor|].
  split; [constructor|by vm_compute].
Qed.

(** A step that keeps a property of the outcome. *)
Definition stays {A} (P : TurnOutcome → Prop) (out : A → TurnOutcome)
    (_ : list turn_act) (r : exit (TurnOutcome * SupervisorError) A) : Prop :=
  match r with Returned a => P (out a) | Raised (o, e) => P o | Crashed => True end.

Lemma keep_stays {A B} tr outcome (p : task A) (f : A → turn_step B) P out :
  P outcome → (∀ tr a, act_wp trace_step tr (f a) (stays P out)) →
  act_wp trace_step tr (keeping outcome p ≫= f) (stays P out).
Proof using. intros HP Hf. apply keep_bind; [intros; apply Hf|intros; exact HP|done]. Qed.

Lemma degraded_stays tr span degradation what error outcome (P : TurnOutcome → Prop) :
  P outcome → P (to_degrade [degradation] outcome) →
  act_wp trace_step tr (dependency_degraded identity span degradation what error outcome)
    (stays P id).
Proof using.
  intros H1 H2. unfold dependency_degraded. apply keep_stays; [done|]. intros tr1 _.
  apply keep_stays; [done|]. by intros.
Qed.

Lemma stays_bind {A B} tr (p : turn_step A) (f : A → turn_step B) P out out' :
  act_wp trace_step tr p (stays P out') →
  (∀ tr a, P (out' a) → act_wp trace_step tr (f a) (stays P out)) →
  act_wp trace_step tr (p ≫= f) (stays P out).
Proof using.
  intros Hp Hf. apply wp_bind. eapply wp_mono; [exact Hp|]. intros tr' [a|[o e]|] HP; [by apply Hf|done..].
Qed.

Lemma blank_degrade more o : blank o → blank (to_degrade more o).
Proof using. done. Qed.

Lemma prepare_stays tr turn_start outcome :
  blank outcome →
  act_wp trace_step tr (prepare_turn language_models effects_providers speech_providers request
    identity turn_start outcome) (stays blank fst).
Proof using.
  intros Hb. unfold prepare_turn. do 4 (apply keep_stays; [done|]; intros ? ?).
  intros resolved. eexists. split; [done|]. cbn [prog_bind].
  intros retrieved. eexists. split; [done|]. cbn [prog_bind].
  apply stays_bind with (out' := fst).
  { unfold resolve_character. destruct resolved as [character|[]];
      first [apply keep_stays; [done|]; by intros | done
            | (eapply stays_bind; [by apply degraded_stays|]; by intros)]. }
  intros ? [o1 character] Hb1. cbn [fst] in Hb1. do 2 (apply keep_stays; [done|]; intros ? _).
  apply stays_bind with (out' := fst).
  { unfold retrieve_memory. destruct retrieved as [memory|[]];
      first [apply keep_stays; [done|]; by intros | done
            | (eapply stays_bind; [by apply degraded_stays|]; by intros)]. }
  intros ? [o2 memory] Hb2. cbn [fst] in Hb2. cbv zeta. do 5 (apply keep_stays; [done|]; intros ? _). done.
Qed.

Lemma take_effects_stays tr effects outcome :
  blank outcome → (∀ res, effects = Ok res → effects_result (allowed_actions config) res) →
  act_wp trace_step tr (take_effects identity effects outcome) (stays blank id).
Proof using.
  intros Hb He. unfold take_effects. destruct effects as [res|error].
  - assert (blank (to_degrade (el_degradations res) (to_set_effects (el_effects res) outcome))) as Hb1.
    { destruct Hb as (?&?&?&_). split_and!; try done.
      destruct (He res eq_refl) as [(_&?&_)|(_&?&_)]; [by right|by left]. }
    cbv zeta. apply keep_stays; [done|]. by intros.
  - destruct error; [done|..]; (do 2 (apply keep_stays; [done|]; intros ? _)); done.
Qed.

Lemma commit_memory_post tr turn_start outcome :
  effects_safe outcome → to_error outcome = None →
  act_wp trace_step tr (commit_memory identity request turn_start outcome) (λ tr' r,
    match r with
    | Returned o => committed tr' o ∧ effects_safe o ∧ to_error o = None ∧
        to_delivered o = to_delivered outcome ∧ to_full_response o = to_full_response outcome
    | Raised (o, e) => effects_safe o ∧
        to_delivered o = to_delivered outcome ∧ to_full_response o = to_full_response outcome
    | Crashed => True
    end).
Proof using.
  intros He Herr. unfold commit_memory. apply keep_bind; [intros tr1 span _|by intros|done].
  intros x. eexists. split; [done|]. cbn [prog_bind].
  assert (∀ tr' o, to_delivered o = to_delivered outcome →
    committed (((tr ++ tr1) ++ [Act (CommitDelivered identity (tr_transcript request)
      (to_delivered outcome)) x]) ++ tr') o) as Hc.
  { intros tr' o Hd. exists x. rewrite Hd, !elem_of_app, list_elem_of_singleton. by left; right. }
  destruct x as [[]|error].
  - apply keep_bind; [|by intros|done]. intros tr2 _ _. cbn. split; [by apply Hc|]. done.
  - destruct error; [by split| | |];
      (unfold dependency_degraded; apply keep_bind; [|by intros|done]; intros tr2 _ _;
       apply keep_bind; [|by intros|done]; intros tr3 _ _; cbn; split; [rewrite <-app_assoc; by apply Hc|done]).
Qed.

Lemma spoken_nil_inv plays ds : spoken [] plays ds → ds = [].
Proof using. inversion 1 as [|sentences]; [done|]. by destruct sentences. Qed.

Lemma run_turn_inner_post tr turn_start outcome :
  blank outcome →
  act_wp trace_step tr (run_turn_inner config language_models effects_providers speech_providers
    request identity turn_start outcome) inner_post.
Proof using.
  intros Hb. unfold run_turn_inner. apply wp_bind. eapply wp_mono; [by apply prepare_stays|].
  assert (∀ o e, blank o → effects_safe o ∧ (e = TurnCancelled ∨ delivered_of false o)) as Hblank.
  { intros o e Ho. split; [apply Ho|]. right. by apply blank_partial. }
  intros tr1 [[o1 [character memory]]|[o e]|] Hb1; [|by apply Hblank|done]. cbn [stays fst] in Hb1.
  apply keep_bind; [|intros; by apply Hblank|done].
  intros tr2 [[llm speech] effects] Hlanes.
  apply (runs_trace _ _ _ _ (run_lanes_post _ _ _ _ _ _ _ _ _)) in Hlanes as (sent&Hllm&Hspeech&Heffects).
  apply wp_bind. eapply wp_mono; [by apply take_effects_stays|].
  intros tr3 [o2|[o e]|] Hb2; [|by apply Hblank|done]. cbn [stays id] in Hb2.
  destruct speech as [sres|e]; [|by apply Hblank]. cbn [mbind prog_bind].
  destruct (Hspeech sres eq_refl) as [plays Hspoken].
  assert (effects_safe (to_set_speech sres o2)) as Hsafe by apply Hb2.
  assert (to_error (to_set_speech sres o2) = None) as Herr by apply Hb2.
  destruct llm as [res|e|]; [|..]; cycle 1.
  - split; [done|]. destruct Hllm as [->| ->]; [by left|]. right.
    exists [], []. cbn. rewrite (spoken_nil_inv _ _ Hspoken).
    split; [constructor|]. destruct Hb2 as (_&->&_). by split; [constructor|vm_compute].
  - done.
  - destruct Hllm as (format&text&[Hsent _ _]).
    set (o3 := to_set_llm res (to_set_speech sres o2)).
    assert (∀ o, to_delivered o = to_delivered o3 → to_full_response o = to_full_response o3 →
      delivered_of false o) as Hpartial.
    { intros o Hd Hf. exists sent, plays. rewrite Hd, Hf. split; [done|]. cbn.
      destruct (ll_terminal_error res); [done|]. by apply segments_within. }
    cbn [keeping map_raise prog_of_exit exit_of mbind prog_bind].
    change (act_wp trace_step tr3
      (keeping o3 (emit_lane identity SpokenResponseLane
         (match ll_terminal_error res with Some _ => LaneFailed | None => LaneCompleted end));;
       keeping o3 (emit_lifecycle identity Committing);;
       outcome ← commit_memory identity request turn_start o3;
       match ll_terminal_error res with
       | Some error => Raise (outcome, error)
       | None => keeping outcome (emit_lifecycle identity Completed);; Ret outcome
       end) inner_post).
    do 2 (apply keep_bind; [intros ? _ _|intros; split; [done|right; by apply Hpartial]|done]).
    apply wp_bind. eapply wp_mono; [by apply commit_memory_post|].
    intros tr4 [o4|[o e]|] Ho; [|split; [apply Ho|right; apply Hpartial; apply Ho]|done].
    destruct Ho as (Hc&Hs4&He4&Hd4&Hf4). destruct (ll_terminal_error res).
    + split; [done|]. right. by apply Hpartial.
    + apply keep_bind; [|intros; split; [done|right; by apply Hpartial]|done].
      intros tr5 _ _. split; [done|]. split; [done|]. split.
      * exists sent, plays. rewrite Hd4, Hf4. done.
      * destruct Hc as [x Hx]. exists x. apply elem_of_app. by left.
Qed.

(** What a finished turn reports. *)
Record turn_report (tr : list turn_act) (o : TurnOutcome) : Prop := {
  rp_terminal : is_terminal (to_lifecycle o) = true;
  rp_effects : effects_safe o;
  rp_error : match to_lifecycle o with
             | Completed => to_error o = None
             | Cancelled => to_error o = Some (failure TurnCancelled)
             | _ => ∃ e, e ≠ TurnCancelled ∧ to_error o = Some (failure e)
             end;
  rp_delivered : to_lifecycle o ≠ Cancelled → delivered_of false o;
  rp_completed : to_lifecycle o = Completed → delivered_of true o ∧ committed tr o
}.

Lemma turn_report_app tr tr' o : turn_report tr o → turn_report (tr ++ tr') o.
Proof using.
  intros [H1 H2 H3 H4 H5]. split; try done. intros Hc. destruct (H5 Hc) as [Hd [x Hx]].
  split; [done|]. exists x. apply elem_of_app. by left.
Qed.

Lemma run_turn_post tr :
  act_wp trace_step tr (run_turn config language_models effects_providers speech_providers request
    identity) (λ tr' r, match r with Returned o => turn_report tr' o | _ => True end).
Proof using.
  unfold run_turn. intros turn_start. eexists. split; [done|]. cbn [prog_bind].
  apply wp_bind, wp_exit_of. eapply wp_mono.
  { apply run_turn_inner_post. repeat split. by left. }
  intros tr1 [o|[o e]|] Ho; cbn [inner_post] in Ho; [| |done].
  - intros c. eexists. split; [done|]. destruct Ho as (Hs&He&Hd&x&Hx).
    assert (committed (tr1 ++ [Act IsCancelled c]) o) as Hc
      by (exists x; apply elem_of_app; by left).
    destruct c; cbn; constructor; cbn; try done.
    intros _. destruct Hd as (ss&ps&Hsp&Hseg). exists ss, ps. split; [done|]. by apply segments_within.
  - destruct Ho as [Hs [->|Hd]]; [by constructor|].
    destruct e; cbn; (constructor; cbn; [done|exact Hs| |intros _; exact Hd|done]);
      first [done | (eexists; split; [|reflexivity]; done)].
Qed.
(** ** The lifecycle *)

(** A step of the turn that starts with the cancellation [told] or not, and returns with
    it [after]; it raises the cancellation error exactly when it was told. *)
Definition honest_turn {A} (told after : bool) (p : turn_step A) : Prop :=
  flag_wp (only_told told) p (λ f r,
    match r with
    | Returned _ => f = only_told after
    | Raised (_, e) => f = only_told (is_turn_cancelled e)
    | Crashed => True
    end).

Lemma honest_turn_bind {A B} told mid after (p : turn_step A) (f : A → turn_step B) :
  honest_turn told mid p → (∀ a, honest_turn mid after (f a)) → honest_turn told after (p ≫= f).
Proof using.
  intros Hp Hf. apply wp_bind. eapply wp_mono; [exact Hp|]. intros fl [a|[o e]|]; [|done..].
  intros ->. apply Hf.
Qed.

Lemma honest_keep {A} told pure outcome (p : task A) :
  honest told pure p → honest_turn told told (keeping outcome p).
Proof using.
  intros Hp. apply wp_map_raise. eapply wp_mono; [exact Hp|]. intros f [a|e|]; [done| |done].
  by intros [-> _].
Qed.

Lemma honest_keep_bind {A B} told after pure outcome (p : task A) (f : A → turn_step B) :
  honest told pure p → (∀ a, honest_turn told after (f a)) →
  honest_turn told after (keeping outcome p ≫= f).
Proof using. intros Hp. apply honest_turn_bind. by eapply honest_keep. Qed.

Lemma honest_timing told pure span outcome attributes :
  honest told pure (emit_timing identity span outcome attributes).
Proof using. honest_tac. Qed.

Lemma honest_degraded told span degradation what error outcome :
  honest_turn told told (dependency_degraded identity span degradation what error outcome).
Proof using.
  unfold dependency_degraded. eapply honest_keep_bind; [by apply (honest_timing _ true)|]. intros _.
  eapply honest_keep_bind; [by apply (honest_emit _ true)|done].
Qed.

Lemma honest_rejections told routing descriptors :
  honest told true (emit_policy_rejections identity routing descriptors).
Proof using.
  induction descriptors as [|d ds IH]; [done|]. cbn [emit_policy_rejections]. cbv zeta.
  apply honest_bind; [|intros; apply IH]. case_bool_decide; [done|]. by apply honest_emit.
Qed.

(** The answer of a dependency tells of the cancellation. *)
Definition answer_told {A} (r : result RuntimeDependencyError A) : bool :=
  match r with Err DependencyCancelled => true | _ => false end.

Lemma honest_resolve told span resolved outcome :
  (answer_told resolved = true → told = true) →
  honest_turn told told (resolve_character request identity span resolved outcome).
Proof using.
  intros Ht. unfold resolve_character. destruct resolved as [c|[]]; cbn in Ht;
    first [ rewrite Ht by done; reflexivity
          | eapply honest_turn_bind; [first [apply honest_degraded | by eapply honest_keep, (honest_timing _ true)]|done] ].
Qed.

Lemma honest_retrieve told span retrieved outcome :
  told = answer_told retrieved →
  honest_turn told false (retrieve_memory identity span retrieved outcome).
Proof using.
  intros ->. unfold retrieve_memory. destruct retrieved as [c|[]]; cbn [answer_told];
    first [ reflexivity
          | eapply honest_turn_bind; [first [apply honest_degraded | by eapply honest_keep, (honest_timing _ true)]|done] ].
Qed.

Lemma prepare_honest turn_start outcome :
  honest_turn false false (prepare_turn language_models effects_providers speech_providers request
    identity turn_start outcome).
Proof using.
  unfold prepare_turn, emit_lifecycle.
  do 2 (eapply honest_keep_bind; [by apply (honest_emit _ true)|]; intros _).
  do 2 (eapply honest_keep_bind; [instantiate (1 := true); honest_tac|]; intros ?).
  intros resolved. exists (only_told (answer_told resolved)).
  split; [by destruct resolved as [|[]]|]. cbn [prog_bind].
  intros retrieved. exists (only_told (answer_told resolved || answer_told retrieved)).
  split; [destruct resolved as [|[]], retrieved as [|[]]; reflexivity|]. cbn [prog_bind].
  destruct (answer_told resolved) eqn:Hr.
  { by destruct resolved as [|[]]. }
  cbn [orb]. eapply (honest_turn_bind _ (answer_told retrieved)).
  { apply honest_resolve. by rewrite Hr. }
  intros [o1 character]. do 2 (eapply honest_keep_bind; [by apply (honest_emit _ true)|]; intros _).
  eapply honest_turn_bind; [by apply honest_retrieve|]. intros [o2 memory].
  eapply honest_keep_bind; [by apply (honest_emit _ true)|]. intros _. cbv zeta.
  eapply honest_keep_bind; [apply honest_rejections|]. intros _. unfold emit_lane.
  do 3 (eapply honest_keep_bind; [by apply (honest_emit _ true)|]; intros _). done.
Qed.

Lemma take_effects_honest told effects outcome :
  (err_told effects = true → told = true) →
  honest_turn told told (take_effects identity effects outcome).
Proof using.
  intros Ht. unfold take_effects, emit_lane, emit_degraded. destruct effects as [res|[]];
    first [ cbn in Ht; rewrite Ht by done; reflexivity
          | cbv zeta; repeat (eapply honest_keep_bind; [by apply (honest_emit _ true)|]; intros _); done ].
Qed.

Lemma commit_memory_honest turn_start outcome :
  honest_turn false false (commit_memory identity request turn_start outcome).
Proof using.
  unfold commit_memory. eapply honest_keep_bind; [instantiate (1 := true); honest_tac|]. intros span x.
  exists (only_told (answer_told x)). split; [by destruct x as [|[]]|]. cbn [prog_bind].
  destruct x as [[]|[]]; cbn [answer_told];
    first [ reflexivity | apply honest_degraded
          | eapply honest_keep_bind; [by apply (honest_timing _ true)|done] ].
Qed.

(** What [run_turn_inner] shows: it returns after it announced the end and was told
    nothing; it raises the cancellation error exactly when it was told, unless a lane
    panicked. *)
Definition inner_flags (f : flags) (r : exit (TurnOutcome * SupervisorError) TurnOutcome) : Prop :=
  match r with
  | Returned _ => f = {| fl_told := false; fl_lost := false; fl_announced := true |}
  | Raised (_, e) => f = only_told (is_turn_cancelled e) ∨
      fl_announced f = false ∧ fl_lost f = true ∧ e ≠ TurnCancelled
  | Crashed => True
  end.

Lemma inner_flags_bind {A} told after (p : turn_step A) (f : A → turn_step TurnOutcome) :
  honest_turn told after p → (∀ a, flag_wp (only_told after) (f a) inner_flags) →
  flag_wp (only_told told) (p ≫= f) inner_flags.
Proof using.
  intros Hp Hf. apply wp_bind. eapply wp_mono; [exact Hp|]. intros fl [a|[o e]|]; [|by left|done].
  intros ->. apply Hf.
Qed.

Lemma run_turn_inner_flags turn_start outcome :
  flag_wp (only_told false) (run_turn_inner config language_models effects_providers
    speech_providers request identity turn_start outcome) inner_flags.
Proof using.
  unfold run_turn_inner. eapply inner_flags_bind; [apply prepare_honest|].
  intros [o1 [character memory]]. cbv zeta. apply wp_bind, wp_map_raise.
  eapply wp_mono; [apply run_lanes_flags|]. intros f [[[llm speech] effects]|e|]; [|by right|done].
  intros (->&Hspeech&Hres). destruct (err_told effects) eqn:He.
  { destruct effects as [|[]]; try done. left. cbn. by rewrite orb_true_r. }
  rewrite orb_false_r. eapply inner_flags_bind; [apply take_effects_honest; by rewrite He|].
  intros o2. destruct speech as [sres|e].
  2: { rewrite (Hspeech e eq_refl). left. cbn. by rewrite orb_true_r. }
  cbn [mbind prog_bind err_told]. rewrite orb_false_r.
  destruct llm as [res|e|]; [|by left|done]. cbn [lane_told].
  specialize (Hres res eq_refl). unfold stopped_not_cancelled in Hres.
  set (o3 := to_set_llm res (to_set_speech sres o2)).
  change (flag_wp (only_told false)
    (keeping o3 (emit_lane identity SpokenResponseLane
       (match ll_terminal_error res with Some _ => LaneFailed | None => LaneCompleted end));;
     keeping o3 (emit_lifecycle identity Committing);;
     outcome ← commit_memory identity request turn_start o3;
     match ll_terminal_error res with
     | Some error => Raise (outcome, error)
     | None => keeping outcome (emit_lifecycle identity Completed);; Ret outcome
     end) inner_flags).
  do 2 (eapply inner_flags_bind; [eapply honest_keep; by apply (honest_emit _ true)|]; intros _).
  eapply inner_flags_bind; [apply commit_memory_honest|]. intros o4.
  destruct (ll_terminal_error res) as [e|].
  - left. by destruct e.
  - intros []; eexists; (split; [done|]); [by left|]. intros x. by eexists.
Qed.

(** What the end of a turn says of its trace. *)
Record turn_ended (tr : list turn_act) (o : TurnOutcome) : Prop := {
  te_cancelled : to_lifecycle o = Cancelled ↔
    Exists (λ a, tells_cancelled a = true) tr ∧ ¬ Exists (λ a, lane_lost a = true) tr;
  te_completed : to_lifecycle o = Completed ↔
    Exists (λ a, announces_completed a = true) tr ∧ ¬ Exists (λ a, tells_cancelled a = true) tr
}.

Lemma run_turn_flags :
  flag_wp (only_told false) (run_turn config language_models effects_providers speech_providers
    request identity) (λ f r,
    match r with
    | Returned o => (to_lifecycle o = Cancelled ↔ fl_told f = true ∧ fl_lost f ≠ true) ∧
        (to_lifecycle o = Completed ↔ fl_announced f = true ∧ fl_told f ≠ true)
    | _ => True
    end).
Proof using.
  unfold run_turn. intros turn_start. exists (only_told false). split; [done|]. cbn [prog_bind].
  apply wp_bind, wp_exit_of. eapply wp_mono; [apply run_turn_inner_flags|].
  intros f [o|[o e]|] Hf; [| |done].
  - intros c. eexists. split; [done|]. cbn in Hf. subst f. destruct c; cbn; naive_solver.
  - destruct Hf as [->|(Ha&Hl&He)].
    + destruct e; cbn; naive_solver.
    + destruct e; cbn; rewrite ?Ha, ?Hl; naive_solver.
Qed.

Lemma existsb_Exists (p : turn_act → bool) tr :
  existsb p tr = true ↔ Exists (λ a, p a = true) tr.
Proof using.
  rewrite existsb_exists, Exists_exists. setoid_rewrite list_elem_of_In. done.
Qed.

Lemma run_turn_ended tr o :
  act_runs (run_turn config language_models effects_providers speech_providers request identity)
    tr (Returned o) → turn_ended tr o.
Proof using.
  intros Hr. apply (wp_runs _ _ _ _ _ _ _ run_turn_flags) in Hr as (f&Hm&Hc&Hd).
  rewrite flag_monitor in Hm. injection Hm as <-. cbn in Hc, Hd.
  split; [rewrite Hc|rewrite Hd]; by rewrite !existsb_Exists.
Qed.
End turn_spec.

(** C12: a turn ends as what it was. Whatever the dependencies and providers of the turn
    answer, and whenever it is cancelled: it ends as cancelled exactly when its run was
    told of the cancellation and no lane panicked, as completed exactly when it announced
    its completion and was not told of a cancellation even after that, and as failed
    otherwise. If it ends as completed, its deliveries are one for each sentence of the
    full response, in order and with exact byte ranges, the sentences hold every visible
    character of the response, and exactly these deliveries were committed to the memory.
    If it ends as failed, the deliveries are still exact spans of the response it holds, in order.
    The effects are valid or neutral, and the error is set exactly when the turn did
    not complete. *)
Theorem turn_outcome_truthful `{JsonApi} `{HashIter} config language_models effects_providers
    speech_providers request identity tr outcome :
  act_runs (run_turn config language_models effects_providers speech_providers request identity)
    tr (Returned outcome) →
  turn_report config request identity tr outcome ∧ turn_ended tr outcome.
Proof.
  intros Hr. split; [|by apply run_turn_ended in Hr].
  exact (runs_trace _ _ _ _ (run_turn_post _ _ _ _ _ _ _) Hr).
Qed.

(** ** The actions of a turn *)

Section turn_actions.
Context `{JsonApi} `{HashIter} (config : SupervisorConfig)
  (pools : ProviderModality → list ProviderDescriptor) (request : TurnRequest)
  (identity : TurnIdentity).

Abbreviation P := (lane_act true identity (plan_from_request request) pools).

Lemma always_keeping {A} outcome (p : task A) : act_always P p → act_always P (keeping outcome p).
Proof using. apply always_map_raise. Qed.

Lemma always_tally {E E' A} (Q : turn_act → Prop) sent (p : prog turn_op E A) :
  act_always Q p → act_always Q (tally (E' := E') sent p).
Proof using.
  revert sent. induction p as [a|e| |X o k IH]; intros sent; [done..|]. intros Hp x.
  destruct (Hp x) as [Hx Hk]. split; [exact Hx|]. by apply IH.
Qed.

Lemma always_prog_of_exit {E A} (r : exit E A) : act_always P (prog_of_exit r).
Proof using. by destruct r. Qed.
Lemma always_joined {A} (r : exit SupervisorError A) : act_always P (joined r).
Proof using. destruct r; [exact I..|]. intros x. by split. Qed.

Lemma always_degraded span degradation what error outcome :
  act_always P (dependency_degraded identity span degradation what error outcome).
Proof using.
  unfold dependency_degraded. apply always_bind; [by apply always_keeping, always_emit_timing|].
  intros _. apply always_bind; [|done]. by apply always_keeping, always_emit.
Qed.
#[local] Hint Resolve always_keeping always_tally always_prog_of_exit always_joined
  always_degraded : prog.

Lemma always_rejections descriptors :
  act_always P (emit_policy_rejections identity (plan_from_request request) descriptors).
Proof using.
  induction descriptors as [|d ds IH]; [done|]. cbn [emit_policy_rejections]. cbv zeta.
  apply always_bind; [|intros; apply IH]. case_bool_decide; [done|]. by apply always_emit.
Qed.

Abbreviation llms := (pools LanguageModel) (only parsing).
Abbreviation effs := (pools Policy.Effects) (only parsing).
Abbreviation voices := (pools Speech) (only parsing).

Lemma always_prepare turn_start outcome :
  act_always P (prepare_turn llms effs voices request identity turn_start outcome).
Proof using.
  unfold prepare_turn, resolve_character, retrieve_memory, emit_lifecycle, emit_lane.
  pose proof always_rejections. always_tac; apply always_keeping; by always_tac.
Qed.

Lemma always_run_lanes turn_start generation_request :
  gr_identity generation_request = identity →
  act_always P (run_lanes config llms effs voices request identity turn_start generation_request).
Proof using.
  intros Hid. unfold run_lanes. apply always_bind.
  { apply always_tally. rewrite <-Hid. apply run_llm_lane_always. }
  intros [sent llm]. apply always_bind; [apply always_exit_of, run_speech_lane_always|].
  intros speech. apply always_bind.
  { apply always_exit_of. rewrite <-Hid.
    apply (run_effects_lane_always _ _ _ {| er_generation := generation_request;
      er_response_text_hint := None |}). }
  intros effects. destruct llm; [..|exact I]; always_tac.
Qed.

Lemma always_run_turn : act_always P (run_turn config llms effs voices request identity).
Proof using.
  unfold run_turn. always_step; [always_step|]. apply always_bind; [|intros; always_tac].
  apply always_exit_of. unfold run_turn_inner. apply always_bind; [apply always_prepare|].
  intros [o [character memory]]. cbv zeta.
  apply always_bind; [by apply always_keeping, always_run_lanes|].
  intros [[llm speech] effects]. unfold take_effects, commit_memory, emit_lane, emit_lifecycle, emit_degraded.
  always_tac; apply always_keeping; always_tac.
Qed.
End turn_actions.

(** C13: a turn gives data only to providers it may use. In every run of a turn, every
    call that hands the request to a language model, an effects provider or a voice
    goes to a provider of that pool which the privacy policy of the request allows and
    which the fallback policy lets stand in for the first allowed one; every event it
    emits carries the identity of the turn and none is terminal. *)
Theorem turn_calls_only_authorized `{JsonApi} `{HashIter} config pools request identity tr r :
  act_runs (run_turn config (pools LanguageModel) (pools Policy.Effects) (pools Speech) request
    identity) tr r →
  Forall (lane_act true identity (plan_from_request request) pools) tr.
Proof. apply always_runs, always_run_turn. Qed.

(** The last actions of the task of a turn. *)
Definition task_end (leased : bool) (identity : TurnIdentity) (outcome : TurnOutcome)
    (sent : TrySendResult) : list turn_act :=
  (if leased then [Act (CompleteLease (completion_status (to_lifecycle outcome))) tt] else []) ++
  [Act (TrySend (EvTerminal outcome)) sent; Act (SendCompletion outcome) tt;
   Act (ClearIfCurrent identity) tt].

(** An action that ends the task. *)
Definition ending_act (a : turn_act) : Prop :=
  match a with
  | Act (CompleteLease _) _ | Act (TrySend (EvTerminal _)) _ | Act (SendCompletion _) _
  | Act (ClearIfCurrent _) _ => True
  | _ => False
  end.

(** C14: a turn always reports its end, exactly once. In every run in which the task of
    a turn does not panic it comes to an end with an outcome: after the run of the
    turn itself, in which nothing of this happens, it completes its lease, if it has
    one, with the status of that outcome, offers the terminal event, sends the outcome
    to the holder of the handle, and clears the turn. It never leaves with an error. *)
Theorem turn_task_reports_once `{JsonApi} `{HashIter} config pools request identity leased tr r :
  act_runs (turn_task config (pools LanguageModel) (pools Policy.Effects) (pools Speech) request
    identity leased) tr r →
  r ≠ Crashed →
  ∃ outcome tr0 sent, r = Returned outcome ∧
    tr = tr0 ++ task_end leased identity outcome sent ∧ Forall (λ a, ¬ ending_act a) tr0 ∧
    act_runs (run_turn config (pools LanguageModel) (pools Policy.Effects) (pools Speech) request
      identity) tr0 (Returned outcome).
Proof.
  intros Hr Hc. unfold turn_task in Hr.
  apply runs_bind in Hr as [(tr1&tr2&outcome&->&H1&H2)|[(e&_&_)|(->&_)]]; [|destruct e|done].
  assert (∃ sent, tr2 = task_end leased identity outcome sent ∧ r = Returned outcome) as (sent&->&->).
  { unfold task_end. destruct leased; cbn in H2.
    - destruct H2 as ([]&?&->&sent&?&->&[]&?&->&[]&?&->&->&->). by exists sent.
    - destruct H2 as (sent&?&->&[]&?&->&[]&?&->&->&->). by exists sent. }
  exists outcome, tr1, sent. split; [done|]. split; [done|]. split; [|done].
  assert (Forall (lane_act true identity (plan_from_request request) pools) tr1) as Hall.
  { revert H1. apply always_runs, always_run_turn. }
  eapply Forall_impl; [exact Hall|].
  intros a Ha He. destruct a as [X [] x]; try done. destruct ev; try done.
  by destruct Ha as [_ Ha].
Qed.

(** * The stages of a turn

    The order in which a turn announces its stages, as an abstract machine every run
    of its task refines. *)

#[local] Open Scope Z_scope.

(** ** The stages of a turn *)

(** The stages a turn may announce after [stage]. *)
Definition stage_next (stage : option TurnLifecycle) (next : TurnLifecycle) : bool :=
  match stage, next with
  | None, Accepted | Some Accepted, Identifying | Some Identifying, Remembering
  | Some Remembering, Responding | Some Responding, (Voicing | Committing)
  | Some Voicing, (Animating | Committing) | Some Animating, (Animating | Committing)
  | Some Committing, Completed => true
  | _, _ => false
  end.

Definition stage_step (stage : option TurnLifecycle) (a : turn_act) : option (option TurnLifecycle) :=
  match a with
  | Act (TrySend (EvLifecycle _ next)) _ => if stage_next stage next then Some (Some next) else None
  | _ => Some stage
  end.

Abbreviation stage_wp s p Q := (act_wp stage_step s p Q) (only parsing).

Definition no_stage (a : turn_act) : Prop :=
  match a with Act (TrySend ev) _ => event_ok false ev | _ => True end.

Lemma lane_act_no_stage identity routing pools a : lane_act false identity routing pools a → no_stage a.
Proof. destruct a as [X [] x]; try done. by intros []. Qed.

(** A program that announces no stage. *)
Lemma wp_no_stage {E A} s (p : prog turn_op E A) (Q : option TurnLifecycle → exit E A → Prop) :
  act_always no_stage p → (∀ r, Q s r) → stage_wp s p Q.
Proof.
  intros Hp HQ. induction p as [a|e| |X o k IH]; cbn in *; [by apply HQ..|].
  intros x. destruct (Hp x) as [Hx Hk]. exists s. split; [|by apply IH].
  destruct o; try done. by destruct ev.
Qed.

Definition on_ret {S E A} (R : S → A → Prop) (s : S) (r : exit E A) : Prop :=
  match r with Returned a => R s a | _ => True end.

Lemma st_bind {E A B} s (p : prog turn_op E A) (f : A → prog turn_op E B) M R :
  stage_wp s p (on_ret M) → (∀ s a, M s a → stage_wp s (f a) (on_ret R)) →
  stage_wp s (p ≫= f) (on_ret R).
Proof.
  intros Hp Hf. apply wp_bind. eapply wp_mono; [exact Hp|]. intros s' [a|e|] H; [by apply Hf|done..].
Qed.

Lemma st_keep {A} s outcome (p : task A) R :
  stage_wp s p (on_ret R) → stage_wp s (keeping outcome p) (on_ret R).
Proof. intros Hp. apply wp_map_raise. eapply wp_mono; [exact Hp|]. by intros s' [a|e|]. Qed.

Lemma st_quiet {E A B} s (p : prog turn_op E A) (f : A → prog turn_op E B) R :
  act_always no_stage p → (∀ a, stage_wp s (f a) (on_ret R)) → stage_wp s (p ≫= f) (on_ret R).
Proof. intros Hp Hf. apply wp_bind. apply wp_no_stage; [done|]. intros [a|e|]; [apply Hf|done..]. Qed.

Lemma st_stage {B} s identity next (f : () → task B) R :
  stage_next s next = true → stage_wp (Some next) (f ()) (on_ret R) →
  stage_wp s (emit_lifecycle identity next ≫= f) (on_ret R).
Proof.
  intros Hn Hf []; exists s; (split; [done|]); [done|]. intros x. exists (Some next).
  split; [cbn; by rewrite Hn|exact Hf].
Qed.

Lemma st_keep_stage {B} s identity outcome next (f : () → turn_step B) R :
  stage_next s next = true → stage_wp (Some next) (f ()) (on_ret R) →
  stage_wp s (keeping outcome (emit_lifecycle identity next) ≫= f) (on_ret R).
Proof.
  intros Hn Hf. apply st_bind with (M := λ s' _, s' = Some next); [|by intros ? [] ->].
  apply st_keep. intros []; exists s; (split; [done|]); [done|]. intros x. exists (Some next).
  split; [cbn; by rewrite Hn|done].
Qed.

Lemma quiet_no_stage {E A} (p : prog turn_op E A) identity routing pools :
  act_always (lane_act false identity routing pools) p → act_always no_stage p.
Proof. apply always_mono, lane_act_no_stage. Qed.

(** Once it speaks, a turn is voicing or animating. *)
Definition voiced (s : option TurnLifecycle) : Prop := s = Some Voicing ∨ s = Some Animating.

Section stages.
Context `{JsonApi} `{HashIter} (identity : TurnIdentity) (routing : RoutingPlan).

Lemma no_stage_emit ev : event_ok false ev → act_always no_stage (emit ev).
Proof using. intros He c. split; [done|]. by destruct c. Qed.
Lemma no_stage_report_fallback primary provider reason :
  act_always no_stage (report_fallback identity primary provider reason).
Proof using.
  unfold report_fallback. destruct (str_eqb _ _); [done|]. apply always_bind; [|done].
  by apply no_stage_emit.
Qed.
Lemma no_stage_unless_cancelled : act_always no_stage unless_cancelled.
Proof using. intros c. split; [done|]. by destruct c. Qed.
Lemma no_stage_perform {E X} (o : turn_op X) :
  (∀ x, no_stage (Act o x)) → act_always no_stage (perform (E := E) o).
Proof using. intros Ho x. by split. Qed.

Lemma play_sentence_stage s primary provider sentence speech st :
  voiced s →
  stage_wp s (play_sentence identity primary provider sentence speech st)
    (on_ret (λ s' r, voiced s' ∧ ss_announced_voicing r.1 = ss_announced_voicing st)).
Proof using.
  intros Hs. unfold play_sentence.
  apply st_bind with (M := λ s' _, s' = Some Animating).
  { apply wp_on_exit. eapply wp_mono with (Q := on_ret (λ s' _, s' = Some Animating)).
    - apply st_quiet; [by apply no_stage_emit|]. intros _.
      intros []; exists s; (split; [done|]); [done|]. intros x. exists (Some Animating).
      split; [cbn; by destruct Hs as [-> | ->]|done].
    - intros s' [a|e|] Hr; [done| |]; intros x; by exists s'. }
  intros ? _ ->. intros receipt. exists (Some Animating). split; [done|]. cbn [prog_bind].
  destruct receipt as [receipt|e].
  - destruct (pbr_completed receipt); (apply st_quiet; [by apply no_stage_perform|]); intros _; [|done].
    apply st_quiet; [apply no_stage_report_fallback|]. intros l. by split; [right|].
  - apply st_quiet; [by apply no_stage_perform|]. intros _. by split; [right|].
Qed.

Lemma speech_candidates_stage s locale primary providers sentence st :
  voiced s →
  stage_wp s (speech_candidates identity locale routing primary providers sentence st)
    (on_ret (λ s' r, voiced s' ∧ ss_announced_voicing r.1 = ss_announced_voicing st)).
Proof using.
  intros Hs. revert st. induction providers as [|provider providers IH]; intros st;
    cbn [speech_candidates]; [done|].
  destruct (negb _); [apply IH|]. intros acquired. exists s. split; [done|]. cbn [prog_bind].
  destruct acquired; [|apply IH].
  assert (∀ st', ss_announced_voicing st' = ss_announced_voicing st →
    stage_wp s (permit_failure (circuit_key provider);;
      speech_candidates identity locale routing primary providers sentence st')
    (on_ret (λ s' r, voiced s' ∧ ss_announced_voicing r.1 = ss_announced_voicing st))) as Hfail.
  { intros st' Ha. apply st_quiet; [by apply no_stage_perform|]. intros _. rewrite <-Ha. apply IH. }
  apply st_bind with (M := λ s' r, s' = s ∧ ss_announced_voicing r.1 = ss_announced_voicing st).
  { unfold open_session. destruct (ss_sessions st !! _); [done|].
    intros started. exists s. split; [done|]. by destruct started. }
  intros ? [st' [session|]] [-> Ha]; [|by apply Hfail].
  intros speech. exists s. split; [done|]. cbn [prog_bind]. destruct speech as [speech|e]; [|by apply Hfail].
  rewrite <-Ha. by apply play_sentence_stage.
Qed.

(** The stage of the lane between two sentences. *)
Definition lane_stage (s : option TurnLifecycle) (st : speech_state) : Prop :=
  if ss_announced_voicing st then voiced s else s = Some Responding.

Lemma speak_sentence_stage s locale candidates sentence st :
  lane_stage s st →
  stage_wp s (speak_sentence identity locale routing candidates sentence st) (on_ret lane_stage).
Proof using.
  intros Hs. unfold speak_sentence.
  apply st_bind with (M := λ s' st', voiced s' ∧ ss_announced_voicing st' = true).
  { unfold lane_stage in Hs. destruct (ss_announced_voicing st) eqn:Ha; [done|]. subst s.
    apply st_stage; [done|]. by split; [left|]. }
  clear s st Hs. intros s st [Hs Ha].
  apply st_bind with (M := λ s' r, voiced s' ∧ ss_announced_voicing r.1 = true).
  { destruct candidates; [done|]. rewrite <-Ha. by apply speech_candidates_stage. }
  clear s st Hs Ha. intros s [st receipt] [Hs Ha]. cbn in Ha.
  apply st_bind with (M := λ s' st', voiced s' ∧ ss_announced_voicing st' = true).
  { destruct receipt; [done|]. case_bool_decide; [done|]. apply st_quiet; [by apply no_stage_emit|done]. }
  clear s st Hs Ha. intros s st [Hs Ha]. apply st_quiet; [by apply no_stage_emit|]. intros _.
  change (lane_stage s (ss_deliver (delivered_sentence sentence receipt) st)).
  unfold lane_stage. cbn [ss_deliver ss_announced_voicing]. by rewrite Ha.
Qed.

Lemma run_speech_lane_stage locale sentences providers :
  stage_wp (Some Responding) (run_speech_lane identity locale routing sentences providers)
    (on_ret (λ s _, s = Some Responding ∨ voiced s)).
Proof using.
  unfold run_speech_lane. apply st_bind with (M := lane_stage).
  - assert (lane_stage (Some Responding) speech_state_new) as Hs by done. revert Hs.
    generalize (Some Responding) as s, speech_state_new as st.
    induction sentences as [|sentence sentences IH]; intros s st Hs; cbn [speech_loop];
      (apply st_quiet; [apply no_stage_unless_cancelled|]); intros _; [done|].
    eapply st_bind; [by apply speak_sentence_stage|]. apply IH.
  - intros s st Hs. apply st_quiet.
    + generalize (hm_values (ss_sessions st)). induction l as [|session l IH]; [done|].
      cbn [close_sessions]. by apply always_bind; [apply no_stage_perform|].
    + intros _. unfold lane_stage in Hs. by destruct (ss_announced_voicing st); [right|left].
Qed.
End stages.

Section turn_stages.
Context `{JsonApi} `{HashIter} (config : SupervisorConfig)
  (pools : ProviderModality → list ProviderDescriptor) (request : TurnRequest)
  (identity : TurnIdentity).

Abbreviation llms := (pools LanguageModel) (only parsing).
Abbreviation effs := (pools Policy.Effects) (only parsing).
Abbreviation voices := (pools Speech) (only parsing).

Lemma st_keep_quiet {A B} s outcome (p : task A) (f : A → turn_step B) R :
  act_always no_stage p → (∀ a, stage_wp s (f a) (on_ret R)) →
  stage_wp s (keeping outcome p ≫= f) (on_ret R).
Proof using. intros Hp. apply st_quiet. by apply always_map_raise. Qed.

Lemma no_stage_timing span outcome attributes : act_always no_stage (emit_timing identity span outcome attributes).
Proof using. intros x. split; [done|]. by apply no_stage_emit. Qed.

Lemma no_stage_degraded span degradation what error outcome :
  act_always no_stage (dependency_degraded identity span degradation what error outcome).
Proof using.
  unfold dependency_degraded. apply always_bind; [by apply always_map_raise, no_stage_timing|]. intros _.
  apply always_bind; [by apply always_map_raise, no_stage_emit|done].
Qed.

Lemma no_stage_rejections descriptors :
  act_always no_stage (emit_policy_rejections identity (plan_from_request request) descriptors).
Proof using.
  induction descriptors as [|d ds IH]; [done|]. cbn [emit_policy_rejections]. cbv zeta.
  apply always_bind; [|intros; apply IH]. case_bool_decide; [done|]. by apply no_stage_emit.
Qed.

Lemma prepare_stage turn_start outcome :
  stage_wp None (prepare_turn llms effs voices request identity turn_start outcome)
    (on_ret (λ s _, s = Some Responding)).
Proof using.
  unfold prepare_turn. do 2 (apply st_keep_stage; [done|]).
  do 2 (apply st_keep_quiet; [intros ?; by split|]; intros ?).
  intros resolved. eexists. split; [done|]. cbn [prog_bind].
  intros retrieved. eexists. split; [done|]. cbn [prog_bind].
  apply st_quiet.
  { unfold resolve_character. destruct resolved as [|[]];
      first [done | apply always_bind; [|done]];
      first [apply always_map_raise, no_stage_timing | apply no_stage_degraded]. }
  intros [o1 character]. apply st_keep_quiet; [by apply no_stage_emit|]. intros _.
  apply st_keep_stage; [done|]. apply st_quiet.
  { unfold retrieve_memory. destruct retrieved as [|[]];
      first [done | apply always_bind; [|done]];
      first [apply always_map_raise, no_stage_timing | apply no_stage_degraded]. }
  intros [o2 memory]. apply st_keep_quiet; [by apply no_stage_emit|]. intros _. cbv zeta.
  apply st_keep_quiet; [apply no_stage_rejections|]. intros _. apply st_keep_stage; [done|].
  do 2 (apply st_keep_quiet; [by apply no_stage_emit|]; intros ?). done.
Qed.

(** The stage after the lanes, when the speech lane returned. *)
Definition lanes_stage (s : option TurnLifecycle)
    (r : exit SupervisorError LlmLaneResult * result SupervisorError SpeechLaneResult
         * result SupervisorError EffectsLaneResult) : Prop :=
  is_ok r.1.2 = true → s = Some Responding ∨ voiced s.

Lemma run_lanes_stage turn_start generation_request :
  stage_wp (Some Responding)
    (run_lanes config llms effs voices request identity turn_start generation_request)
    (on_ret lanes_stage).
Proof using.
  unfold run_lanes. apply st_quiet.
  { eapply quiet_no_stage, always_tally, run_llm_lane_always. }
  intros [sent llm].
  apply st_bind with (M := λ s r, match r with Returned _ => s = Some Responding ∨ voiced s | _ => True end).
  { apply wp_exit_of. eapply wp_mono; [apply run_speech_lane_stage|]. by intros s [r|e|]. }
  intros s speech Hs. apply st_quiet.
  { eapply quiet_no_stage, always_exit_of, run_effects_lane_always. }
  intros effects. assert (∀ B (f : result SupervisorError SpeechLaneResult → task B) R,
    (∀ r, (is_ok r = true → s = Some Responding ∨ voiced s) → stage_wp s (f r) (on_ret R)) →
    stage_wp s (joined speech ≫= f) (on_ret R)) as Hjoin.
  { intros B f R Hf. destruct speech; [by apply Hf..|]. intros x. by exists s. }
  assert (∀ llm', stage_wp s (speech ← joined speech; effects ← joined effects;
    Ret (llm', speech, effects)) (on_ret lanes_stage)) as Hend.
  { intros llm'. apply Hjoin. intros r Hr. destruct effects; [done..|]. intros x. by exists s. }
  destruct llm; [apply Hend..|done].
Qed.

Lemma turn_task_stage leased :
  stage_wp None (turn_task config llms effs voices request identity leased) (λ s r,
    match r with Returned o => to_lifecycle o = Completed → s = Some Completed | _ => True end).
Proof using.
  assert (stage_wp None (run_turn config llms effs voices request identity)
    (on_ret (λ s o, to_lifecycle o = Completed → s = Some Completed))) as Hrun.
  { unfold run_turn. intros turn_start. exists None. split; [done|]. cbn [prog_bind].
    apply st_bind with (M := λ s r, match r with Returned _ => s = Some Completed | _ => True end).
    - apply wp_exit_of. eapply wp_mono with (Q := on_ret (λ s _, s = Some Completed));
        [|by intros s [r|e|]].
      unfold run_turn_inner. eapply st_bind; [apply prepare_stage|].
      intros ? [o1 [character memory]] ->. cbv zeta.
      eapply st_bind; [by apply st_keep, run_lanes_stage|].
      intros s [[llm speech] effects] Hs. unfold lanes_stage in Hs. cbn in Hs. apply st_quiet.
      { unfold take_effects. destruct effects as [res|[]]; [|done|..];
          repeat (apply always_bind; [by apply always_map_raise, no_stage_emit|intros ?]); done. }
      intros o2. destruct speech as [sres|e]; [|done]. cbn [mbind prog_bind].
      specialize (Hs eq_refl). apply st_quiet.
      { apply always_map_raise. by destruct llm. }
      intros res. cbv zeta. apply st_keep_quiet; [by apply no_stage_emit|]. intros _.
      apply st_keep_stage; [by destruct Hs as [->|[->| ->]]|].
      apply st_quiet.
      { unfold commit_memory. apply always_bind; [apply always_map_raise; by intros ?; split|].
        intros span. apply always_bind; [by intros ?; split|]. intros [[]|[]];
          first [done | apply no_stage_degraded
                | apply always_bind; [by apply always_map_raise, no_stage_timing|done]]. }
      intros o4. destruct (ll_terminal_error res); [done|]. by apply st_keep_stage.
    - intros s [o|[o e]|] Hs; [|destruct e; done|done].
      intros c. exists s. split; [done|]. destruct c; cbn; [done|]. by intros _. }
  unfold turn_task. apply st_bind with (M := λ s o, to_lifecycle o = Completed → s = Some Completed);
    [done|].
  intros s o Hs.
  destruct leased; [intros []; exists s; split; [done|]|];
    (intros sent; exists s; split; [done|]; intros []; exists s; split; [done|];
     intros []; exists s; by split).
Qed.
End turn_stages.

(** C15: a turn runs through its stages in order. Every run of the task of a turn
    refines the abstract machine [stage_next]: accepted, identifying, remembering,
    responding, then voicing once and animating for each played sentence, committing,
    completed; a turn may stop after any stage, skips voicing when nothing is said,
    and ends as completed only after it went through all of it. *)
Theorem turn_refines_stages `{JsonApi} `{HashIter} config pools request identity leased tr r :
  act_runs (turn_task config (pools LanguageModel) (pools Policy.Effects) (pools Speech) request
    identity leased) tr r →
  ∃ s, monitor stage_step None tr = Some s ∧
    ∀ o, r = Returned o → to_lifecycle o = Completed → s = Some Completed.
Proof.
  intros Hr. apply (wp_runs _ _ _ _ _ _ _ (turn_task_stage _ _ _ _ _)) in Hr as (s&Hm&HQ).
  exists s. split; [done|]. by intros o ->.
Qed.
