(* ===== verification/Supervisor.v ===== *)
(** * The turn supervisor ([crates/runtime-core/src/supervisor.rs])

    The object that owns the foreground turn: starting a turn, barge-in, shutdown,
    admission through the resource broker, and the end of a turn's task. The mutex
    [start_gate] serializes starts, barge-ins and shutdowns, so what runs under it is
    one function from state to state; the checks [start_turn] makes before it takes
    the gate are a step of their own. The planner is a trait of the host. *)

From S2P Require Import Prelude Text Float Policy Circuit BrokerTypes BrokerCore Broker Turn Lanes.

#[local] Open Scope Z_scope.

(** [TurnResourcePlan], what a planner answers. *)
Record TurnResourcePlan := {
  tp_primary : ComputeTarget;
  tp_fallbacks : list ComputeTarget;
  tp_deadline_ms : option Z;
  tp_priority : JobPriority;
  tp_drop_policy : DropPolicy
}.

Inductive StartTurnError :=
| StartInvalidRequest (error : ValidationError)
| StartShuttingDown
| StartResourceBroker (error : BrokerError)
| StartResourceNotAdmitted (outcome : AdmissionOutcome) (reason : str).

Section supervisor.
Context `{CancelApi} `{HashIter} (broker_config : ResourceBrokerConfig)
  {T : Type} `{BudgetTelemetry T}
  (plan_turn : TurnRequest → TurnIdentity → result BrokerError TurnResourcePlan).

Record ActiveTurn := {
  at_identity : TurnIdentity;
  at_generation : GenerationToken;
  at_resource_job_id : option str
}.

(** The state; [sup_broker] is there when turns are admitted through a broker. *)
Record TurnSupervisor := {
  sup_generations : CancellationGeneration;
  sup_current : option ActiveTurn;
  sup_shutting_down : bool;
  sup_broker : option BrokerState
}.

Definition set_generations (v : CancellationGeneration) (s : TurnSupervisor) : TurnSupervisor := {|
  sup_generations := v; sup_current := sup_current s; sup_shutting_down := sup_shutting_down s;
  sup_broker := sup_broker s |}.
Definition set_current (v : option ActiveTurn) (s : TurnSupervisor) : TurnSupervisor := {|
  sup_generations := sup_generations s; sup_current := v;
  sup_shutting_down := sup_shutting_down s; sup_broker := sup_broker s |}.
Definition set_shutting_down (s : TurnSupervisor) : TurnSupervisor := {|
  sup_generations := sup_generations s; sup_current := sup_current s; sup_shutting_down := true;
  sup_broker := sup_broker s |}.
Definition set_broker (v : option BrokerState) (s : TurnSupervisor) : TurnSupervisor := {|
  sup_generations := sup_generations s; sup_current := sup_current s;
  sup_shutting_down := sup_shutting_down s; sup_broker := v |}.

(** [TurnSupervisor::build]; [None] is the panic of its assertions. *)
Definition supervisor_build (config : SupervisorConfig) (broker : option BrokerState)
    : option TurnSupervisor :=
  if (0 <? event_channel_capacity config) && (0 <? sentence_channel_capacity config)
  then Some {| sup_generations := generation_default; sup_current := None;
               sup_shutting_down := false; sup_broker := broker |}
  else None.

(** [ResourceBroker::cancel] on the broker of the supervisor, if it has one. *)
Definition broker_cancel (telemetry : T) (job_id : option str) (reason : str) (s : TurnSupervisor)
    : TurnSupervisor :=
  match sup_broker s, job_id with
  | Some broker, Some job_id =>
      set_broker (Some (cancel broker_config telemetry job_id reason broker).1) s
  | _, _ => s
  end.

(** [barge_in_locked]: the turn that was in the foreground, whose audio is stopped. *)
Definition barge_in_locked (telemetry : T) (reason : str) (s : TurnSupervisor)
    : TurnSupervisor * option TurnIdentity :=
  match sup_current s with
  | Some active =>
      let s := set_current None s in
      let s := set_generations (generation_cancel (sup_generations s) (at_generation active)) s in
      (broker_cancel telemetry (at_resource_job_id active) reason s, Some (at_identity active))
  | None => (s, None)
  end.

Definition barge_in := barge_in_locked.

Definition shutdown_locked (telemetry : T) (s : TurnSupervisor) : TurnSupervisor :=
  (barge_in_locked telemetry (lit "runtime shutdown") s).1.

Definition active_turn (s : TurnSupervisor) : option TurnIdentity := at_identity <$> sup_current s.

(** ** Admission *)

Definition turn_job_id (identity : TurnIdentity) : str :=
  lit "turn/" ++ ti_session_id identity ++ lit "/" ++ ti_turn_id identity ++ lit "/"
  ++ dec (ti_cancellation_generation identity).

Definition turn_job (request : TurnRequest) (identity : TurnIdentity) (plan : TurnResourcePlan)
    : ResourceJob := {|
  rj_job_id := turn_job_id identity;
  rj_kind := InteractiveTurn (identity_text identity);
  rj_priority := tp_priority plan;
  rj_deadline_ms := tp_deadline_ms plan;
  rj_primary := tp_primary plan;
  rj_fallbacks := tp_fallbacks plan;
  rj_drop_policy := tp_drop_policy plan;
  rj_privacy := {|
    bp_execution_mode := tr_execution_mode request;
    bp_network_policy := tr_network_policy request;
    bp_authorized_cloud_providers := list_to_set (tr_authorized_cloud_providers request);
    bp_allow_retaining_providers := tr_allow_retaining_providers request;
    bp_allow_local_to_cloud_fallback := tr_allow_local_to_cloud_fallback request |} |}.

(** The lease with the id of its job; no broker, no lease. The telemetry is read once
    by the submission and once by the cancellation of a queued job. *)
Definition admit_turn_resources (telemetry telemetry' : T) (request : TurnRequest)
    (identity : TurnIdentity) (s : TurnSupervisor)
    : TurnSupervisor * result StartTurnError (option ResourceLease * option str) :=
  match sup_broker s with
  | None => (s, Ok (None, None))
  | Some broker =>
      match plan_turn request identity with
      | Err error => (s, Err (StartResourceBroker error))
      | Ok plan =>
          let job := turn_job request identity plan in
          match submit broker_config telemetry job broker with
          | (broker, Err error) => (set_broker (Some broker) s, Err (StartResourceBroker error))
          | (broker, Ok submission) =>
              match su_lease submission with
              | Some lease => (set_broker (Some broker) s, Ok (Some lease, Some (rj_job_id job)))
              | None =>
                  (broker_cancel telemetry' (Some (rj_job_id job))
                     (lit "turn start requires immediate admission") (set_broker (Some broker) s),
                   Err (StartResourceNotAdmitted (ad_outcome (su_diagnostic submission))
                          (ad_reason (su_diagnostic submission))))
              end
          end
      end
  end.

(** ** Starting a turn *)

(** A started turn: its [TurnHandle], and the lease its task owns. *)
Record StartedTurn := {
  sd_active : ActiveTurn;
  sd_lease : option ResourceLease
}.

(** What [start_turn] checks before it takes the gate. *)
Definition start_turn_check (request : TurnRequest) (s : TurnSupervisor)
    : result StartTurnError unit :=
  match request_validate request with
  | Err error => Err (StartInvalidRequest error)
  | Ok _ => ensure (negb (sup_shutting_down s)) StartShuttingDown
  end.

(** What it does under the gate. Each call of the broker reads the telemetry anew. *)
Definition start_turn_locked (t0 t1 t2 : T) (request : TurnRequest) (s : TurnSupervisor)
    : TurnSupervisor * result StartTurnError StartedTurn :=
  let '(s, _) := barge_in_locked t0 (lit "superseded by a newer foreground turn") s in
  let '(generation, generations) := next (sup_generations s) in
  let s := set_generations generations s in
  let identity := {|
    ti_session_id := tr_session_id request; ti_turn_id := tr_turn_id request;
    ti_cancellation_generation := gt_generation generation |} in
  match admit_turn_resources t1 t2 request identity s with
  | (s, Err error) => (s, Err error)
  | (s, Ok (lease, job_id)) =>
      let active := {| at_identity := identity; at_generation := generation;
                       at_resource_job_id := job_id |} in
      (set_current (Some active) s, Ok {| sd_active := active; sd_lease := lease |})
  end.

Definition start_turn (t0 t1 t2 : T) (request : TurnRequest) (s : TurnSupervisor)
    : TurnSupervisor * result StartTurnError StartedTurn :=
  match start_turn_check request s with
  | Err error => (s, Err error)
  | Ok _ => start_turn_locked t0 t1 t2 request s
  end.

(** ** The handle and the task of a turn *)

(** [TurnHandle::cancel]. *)
Definition handle_cancel (telemetry : T) (turn : StartedTurn) (s : TurnSupervisor) : TurnSupervisor :=
  let active := sd_active turn in
  broker_cancel telemetry (at_resource_job_id active) (lit "turn handle cancelled")
    (set_generations (generation_cancel (sup_generations s) (at_generation active)) s).

(** The bridge from the cancellation of the lease to the generation of the turn. *)
Definition bridge_cancellation (turn : StartedTurn) (s : TurnSupervisor) : TurnSupervisor :=
  match sd_lease turn, sup_broker s with
  | Some lease, Some broker =>
      if lease_is_cancelled lease broker
      then set_generations (generation_cancel (sup_generations s) (at_generation (sd_active turn))) s
      else s
  | _, _ => s
  end.

(** [clear_if_current]. *)
Definition clear_if_current (identity : TurnIdentity) (s : TurnSupervisor) : TurnSupervisor :=
  if is_some_and (sup_current s) (λ active,
       ti_cancellation_generation (at_identity active) =? ti_cancellation_generation identity)
  then set_current None s else s.

(** The completion of the lease when the task of a turn ends with [outcome]. *)
Definition complete_lease (telemetry : T) (turn : StartedTurn) (outcome : TurnOutcome)
    (s : TurnSupervisor) : TurnSupervisor :=
  match sd_lease turn, sup_broker s with
  | Some lease, Some broker =>
      set_broker (Some (lease_complete_unmeasured broker_config telemetry
        (completion_status (to_lifecycle outcome)) lease broker)) s
  | _, _ => s
  end.
End supervisor.
