(* ===== verification/SupervisorSpec.v ===== *)
(** * What the turn supervisor promises

    The supervisor with the turns it started, as a step relation over starts,
    barge-ins, shutdown, handles, task ends and any activity of the resource broker:
    at most one turn is in the foreground and every other one is cancelled. *)

From S2P Require Import Prelude Text Float Policy Circuit BrokerTypes BrokerCore Broker BrokerSim BrokerInv BrokerAdmission Turn Lanes Supervisor.

#[local] Open Scope Z_scope.

(** ** Generation tokens *)

Section tokens.
Context `{CancelApi}.

Lemma cancelled_after_cancel g t t' :
  ct_issued (cg_cells g) (gt_cancellation t) →
  generation_is_cancelled g t = true → generation_is_cancelled (generation_cancel g t') t = true.
Proof using.
  unfold generation_is_cancelled, is_current. cbn. rewrite !orb_true_iff. intros Hi [Hc|Hc]; [left|by right].
  destruct (ct_is_cancelled (ct_cancel _ _) _) eqn:E; [done|]. exfalso.
  assert (gt_cancellation t' ≠ gt_cancellation t) as Hne.
  { intros Heq. rewrite Heq, ct_cancel_self in E; done. }
  rewrite ct_cancel_other in E by done. congruence.
Qed.

Lemma cancelled_by_cancel g t :
  ct_issued (cg_cells g) (gt_cancellation t) → generation_is_cancelled (generation_cancel g t) t = true.
Proof using. intros Hi. unfold generation_is_cancelled. cbn. by rewrite ct_cancel_self. Qed.

Lemma cancel_issued g t t' :
  ct_issued (cg_cells (generation_cancel g t')) t ↔ ct_issued (cg_cells g) t.
Proof using. apply ct_cancel_issued. Qed.

(** The next generation: numbered, issued, live, and the end of every other one. *)
Lemma next_spec g t g' :
  next g = (t, g') → cg_current g < u64_max → 0 ≤ cg_current g →
  gt_generation t = cg_current g + 1 ∧ cg_current g' = cg_current g + 1 ∧
  ct_issued (cg_cells g') (gt_cancellation t) ∧ generation_is_cancelled g' t = false ∧
  (∀ u, ct_issued (cg_cells g) u → ct_issued (cg_cells g') u) ∧
  (∀ u, gt_generation u ≤ cg_current g → generation_is_cancelled g' u = true).
Proof using.
  unfold next. destruct (ct_new (cg_cells g)) as [tok cells] eqn:Hnew. intros [= <- <-] Hmax Hpos.
  assert (wrap_add64 (cg_current g) 1 = cg_current g + 1) as Hw.
  { unfold wrap_add64, u64_max in *. rewrite Z.mod_small; lia. }
  rewrite Hw. unfold generation_is_cancelled, is_current. cbn.
  pose proof (ct_new_issued (cg_cells g)) as Hi. pose proof (ct_new_live (cg_cells g)) as Hl.
  pose proof (ct_new_keeps (cg_cells g)) as Hk. rewrite Hnew in *. cbn in *.
  split_and!; try done.
  - rewrite Hl. cbn. by rewrite Z.eqb_refl.
  - intros u Hu. by apply Hk.
  - intros u Hu. apply orb_true_iff. right. apply negb_true_iff, Z.eqb_neq. lia.
Qed.
End tokens.

(** ** The supervisor and the turns it started *)

(** How far the task of a turn has come. *)
Inductive turn_phase := TurnRunning | LeaseCompleted | TurnCleared.

Section system.
Context `{CancelApi} `{HashIter} (broker_config : ResourceBrokerConfig)
  {T : Type} `{BudgetTelemetry T}
  (plan_turn : TurnRequest → TurnIdentity → result BrokerError TurnResourcePlan).

Record sup_sys := {
  sy_sup : TurnSupervisor;
  sy_attempts : nat;
  sy_pending : list TurnRequest;
  sy_started : list (StartedTurn * turn_phase);
  sy_shut : bool
}.

(** Starts that passed their checks wait for the gate in [sy_pending]; [sy_attempts]
    counts the generations; [sy_shut] says that a shutdown returned. The broker may
    change in any way between two steps of the supervisor. *)
Inductive sup_step : sup_sys → sup_sys → Prop :=
| sup_check s r :
    start_turn_check r (sy_sup s) = Ok tt →
    sup_step s {| sy_sup := sy_sup s; sy_attempts := sy_attempts s;
      sy_pending := sy_pending s ++ [r]; sy_started := sy_started s; sy_shut := sy_shut s |}
| sup_start s i r t0 t1 t2 sup res :
    sy_pending s !! i = Some r →
    start_turn_locked broker_config plan_turn t0 t1 t2 r (sy_sup s) = (sup, res) →
    sup_step s {| sy_sup := sup; sy_attempts := S (sy_attempts s);
      sy_pending := delete i (sy_pending s);
      sy_started := sy_started s ++ match res with Ok turn => [(turn, TurnRunning)] | Err _ => [] end;
      sy_shut := sy_shut s |}
| sup_barge_in s t reason :
    sup_step s {| sy_sup := (barge_in broker_config t reason (sy_sup s)).1;
      sy_attempts := sy_attempts s; sy_pending := sy_pending s; sy_started := sy_started s;
      sy_shut := sy_shut s |}
| sup_shutdown_flag s :
    sup_step s {| sy_sup := set_shutting_down (sy_sup s);
      sy_attempts := sy_attempts s; sy_pending := sy_pending s; sy_started := sy_started s;
      sy_shut := sy_shut s |}
| sup_shutdown s t :
    sup_shutting_down (sy_sup s) = true →
    sup_step s {| sy_sup := shutdown_locked broker_config t (sy_sup s);
      sy_attempts := sy_attempts s; sy_pending := sy_pending s; sy_started := sy_started s;
      sy_shut := true |}
| sup_handle_cancel s i turn phase t :
    sy_started s !! i = Some (turn, phase) →
    sup_step s {| sy_sup := handle_cancel broker_config t turn (sy_sup s);
      sy_attempts := sy_attempts s; sy_pending := sy_pending s; sy_started := sy_started s;
      sy_shut := sy_shut s |}
| sup_bridge s i turn :
    sy_started s !! i = Some (turn, TurnRunning) →
    sup_step s {| sy_sup := bridge_cancellation turn (sy_sup s);
      sy_attempts := sy_attempts s; sy_pending := sy_pending s; sy_started := sy_started s;
      sy_shut := sy_shut s |}
| sup_lease s i turn t outcome :
    sy_started s !! i = Some (turn, TurnRunning) →
    sup_step s {| sy_sup := complete_lease broker_config t turn outcome (sy_sup s);
      sy_attempts := sy_attempts s; sy_pending := sy_pending s;
      sy_started := <[i := (turn, LeaseCompleted)]> (sy_started s); sy_shut := sy_shut s |}
| sup_clear s i turn :
    sy_started s !! i = Some (turn, LeaseCompleted) →
    sup_step s {| sy_sup := clear_if_current (at_identity (sd_active turn)) (sy_sup s);
      sy_attempts := sy_attempts s; sy_pending := sy_pending s;
      sy_started := <[i := (turn, TurnCleared)]> (sy_started s); sy_shut := sy_shut s |}
| sup_broker_acts s broker :
    sup_step s {| sy_sup := set_broker broker (sy_sup s);
      sy_attempts := sy_attempts s; sy_pending := sy_pending s; sy_started := sy_started s;
      sy_shut := sy_shut s |}.

Definition sup_init (broker : option BrokerState) : sup_sys := {|
  sy_sup := {| sup_generations := generation_default; sup_current := None;
               sup_shutting_down := false; sup_broker := broker |};
  sy_attempts := 0; sy_pending := []; sy_started := []; sy_shut := false |}.

(** ** The invariant *)

Definition turn_generation (p : StartedTurn * turn_phase) : GenerationToken :=
  at_generation (sd_active p.1).

(** A turn of an older or of the present generation, with its own number. *)
Definition turn_wf (g : CancellationGeneration) (p : StartedTurn * turn_phase) : Prop :=
  gt_generation (turn_generation p) ≤ cg_current g ∧
  ct_issued (cg_cells g) (gt_cancellation (turn_generation p)) ∧
  ti_cancellation_generation (at_identity (sd_active p.1)) = gt_generation (turn_generation p).

(** Every turn is over, in the foreground, or cancelled. *)
Definition turn_settled (g : CancellationGeneration) (current : option ActiveTurn)
    (p : StartedTurn * turn_phase) : Prop :=
  p.2 = TurnCleared ∨ current = Some (sd_active p.1) ∨
  generation_is_cancelled g (turn_generation p) = true.

Record sup_inv (s : sup_sys) : Prop := {
  iv_attempts : cg_current (sup_generations (sy_sup s)) = Z.of_nat (sy_attempts s);
  iv_wf : Forall (turn_wf (sup_generations (sy_sup s))) (sy_started s);
  iv_order : NoDup ((λ p, gt_generation (turn_generation p)) <$> sy_started s);
  iv_current : ∀ a, sup_current (sy_sup s) = Some a →
    gt_generation (at_generation a) = cg_current (sup_generations (sy_sup s)) ∧
    ∃ p, p ∈ sy_started s ∧ sd_active p.1 = a;
  iv_settled : Forall (turn_settled (sup_generations (sy_sup s)) (sup_current (sy_sup s)))
    (sy_started s)
}.

(** Cancelling a token keeps every turn well formed and settled. *)
Lemma cancel_settled g t current p :
  turn_wf g p → turn_settled g current p → turn_settled (generation_cancel g t) current p.
Proof using.
  intros (_&Hi&_) [Hc|[Hc|Hc]]; [by left|by right; left|right; right]. by apply cancelled_after_cancel.
Qed.

Lemma cancel_wf g t p : turn_wf g p → turn_wf (generation_cancel g t) p.
Proof using. intros (?&?&?). split_and!; [done| |done]. by apply cancel_issued. Qed.

Lemma broker_cancel_frame t id reason (s : TurnSupervisor) :
  sup_generations (broker_cancel broker_config t id reason s) = sup_generations s ∧
  sup_current (broker_cancel broker_config t id reason s) = sup_current s ∧
  sup_shutting_down (broker_cancel broker_config t id reason s) = sup_shutting_down s.
Proof using. unfold broker_cancel. by destruct (sup_broker s), id. Qed.

Lemma barge_in_spec t reason (s : TurnSupervisor) :
  sup_current (barge_in_locked broker_config t reason s).1 = None ∧
  sup_shutting_down (barge_in_locked broker_config t reason s).1 = sup_shutting_down s ∧
  sup_generations (barge_in_locked broker_config t reason s).1 =
    match sup_current s with
    | Some a => generation_cancel (sup_generations s) (at_generation a)
    | None => sup_generations s
    end.
Proof using.
  unfold barge_in_locked. destruct (sup_current s) as [a|] eqn:Hc; [|cbn; by rewrite Hc].
  cbn [fst]. by rewrite !(proj1 (broker_cancel_frame _ _ _ _)),
    !(proj1 (proj2 (broker_cancel_frame _ _ _ _))), !(proj2 (proj2 (broker_cancel_frame _ _ _ _))).
Qed.

Lemma admit_frame t1 t2 request identity (s s' : TurnSupervisor) res :
  admit_turn_resources broker_config plan_turn t1 t2 request identity s = (s', res) →
  sup_generations s' = sup_generations s ∧ sup_current s' = sup_current s ∧
  sup_shutting_down s' = sup_shutting_down s.
Proof using.
  unfold admit_turn_resources. destruct (sup_broker s) as [broker|]; [|by intros [= <- <-]].
  destruct (plan_turn _ _) as [plan|]; [|by intros [= <- <-]].
  destruct (submit _ _ _ _) as [broker' [submission|error]]; [|by intros [= <- <-]].
  destruct (su_lease submission); intros [= <- <-]; [done|].
  destruct (broker_cancel_frame t2 (Some (turn_job_id identity))
    (lit "turn start requires immediate admission") (set_broker (Some broker') s)) as (->&->&->). done.
Qed.

(** The invariant after the generations and the foreground turn changed alone. *)
Lemma inv_update s sup' :
  sup_inv s → cg_current (sup_generations sup') = cg_current (sup_generations (sy_sup s)) →
  (∀ p, turn_wf (sup_generations (sy_sup s)) p →
    turn_settled (sup_generations (sy_sup s)) (sup_current (sy_sup s)) p →
    turn_wf (sup_generations sup') p ∧ turn_settled (sup_generations sup') (sup_current sup') p) →
  (∀ a, sup_current sup' = Some a → sup_current (sy_sup s) = Some a) →
  ∀ pending shut, sup_inv {| sy_sup := sup'; sy_attempts := sy_attempts s; sy_pending := pending;
    sy_started := sy_started s; sy_shut := shut |}.
Proof using.
  intros [I1 I2 I3 I4 I5] Hcur Hp Ha pending shut. constructor; cbn; [congruence| |done| |].
  - apply Forall_forall. intros p Hin. rewrite Forall_forall in I2, I5. apply Hp; auto.
  - intros a Hs. rewrite Hcur. apply I4, Ha, Hs.
  - apply Forall_forall. intros p Hin. rewrite Forall_forall in I2, I5. apply Hp; auto.
Qed.

Lemma inv_barge_in s t reason pending shut :
  sup_inv s → sup_inv {| sy_sup := (barge_in_locked broker_config t reason (sy_sup s)).1;
    sy_attempts := sy_attempts s; sy_pending := pending; sy_started := sy_started s; sy_shut := shut |}.
Proof using.
  intros Hinv. destruct (barge_in_spec t reason (sy_sup s)) as (Hc&_&Hg).
  apply inv_update; [done|rewrite Hg; by destruct (sup_current (sy_sup s))| |by rewrite Hc].
  intros p Hw Hs. rewrite Hg, Hc. destruct (sup_current (sy_sup s)) as [a|]; [|by split].
  split; [by apply cancel_wf|]. destruct Hs as [Hs|[[= ->]|Hs]]; [by left| |].
  - right. right. apply cancelled_by_cancel. apply Hw.
  - right. right. apply cancelled_after_cancel; [apply Hw|done].
Qed.

Lemma inv_cancel s turn sup' :
  sup_inv s → sup_current sup' = sup_current (sy_sup s) →
  sup_generations sup' = sup_generations (sy_sup s) ∨
    sup_generations sup' = generation_cancel (sup_generations (sy_sup s)) (at_generation (sd_active turn)) →
  ∀ pending shut, sup_inv {| sy_sup := sup'; sy_attempts := sy_attempts s; sy_pending := pending;
    sy_started := sy_started s; sy_shut := shut |}.
Proof using.
  intros Hinv Hc Hg pending shut.
  apply inv_update; [done|by destruct Hg as [-> | ->]| |by rewrite Hc].
  intros p Hw Hs. rewrite Hc. destruct Hg as [-> | ->]; [done|].
  split; [by apply cancel_wf|by apply cancel_settled].
Qed.

(** A turn that goes on in its task keeps its identity. *)
Lemma inv_phase s i turn phase phase' sup' :
  sup_inv s → sy_started s !! i = Some (turn, phase) →
  sup_generations sup' = sup_generations (sy_sup s) →
  (∀ a, sup_current sup' = Some a → sup_current (sy_sup s) = Some a) →
  (∀ a, sup_current (sy_sup s) = Some a → sup_current sup' = Some a ∨
     a = sd_active turn ∧ phase' = TurnCleared) →
  phase' = TurnCleared ∨ phase ≠ TurnCleared →
  ∀ pending shut, sup_inv {| sy_sup := sup'; sy_attempts := sy_attempts s; sy_pending := pending;
    sy_started := <[i := (turn, phase')]> (sy_started s); sy_shut := shut |}.
Proof using.
  intros [I1 I2 I3 I4 I5] Hi Hg Hc1 Hc2 Hph pending shut. rewrite Forall_lookup in I2, I5.
  assert (i < length (sy_started s))%nat as Hlt by (by apply lookup_lt_Some in Hi).
  constructor; cbn; rewrite ?Hg; [done|..].
  - apply Forall_insert; [by rewrite Forall_lookup|]. exact (I2 i _ Hi).
  - rewrite list_fmap_insert. rewrite list_insert_id; [done|]. by rewrite list_lookup_fmap, Hi.
  - intros a Ha. apply Hc1 in Ha as Ha'. destruct (I4 a Ha') as (Hgen&p&Hp&<-). split; [done|].
    apply list_elem_of_lookup in Hp as [j Hj]. destruct (decide (i = j)) as [<-|Hne].
    + exists (turn, phase'). rewrite Hi in Hj. injection Hj as <-. split; [|done].
      apply list_elem_of_lookup. exists i. by apply list_lookup_insert_eq.
    + exists p. split; [|done]. apply list_elem_of_lookup. exists j. by rewrite list_lookup_insert_ne.
  - apply Forall_lookup. intros j p Hj. destruct (decide (i = j)) as [<-|Hne].
    + rewrite list_lookup_insert_eq in Hj by done. injection Hj as <-.
      destruct (I5 i _ Hi) as [Hp|[Hp|Hp]]; cbn in *.
      * destruct Hph as [->|Hph]; [by left|done].
      * destruct (Hc2 _ Hp) as [Hp'|[_ ->]]; [right; left|left]; done.
      * right. right. exact Hp.
    + rewrite list_lookup_insert_ne in Hj by done. destruct (I5 j p Hj) as [Hp|[Hp|Hp]];
        [by left| |by right; right].
      destruct (Hc2 _ Hp) as [Hp'|[Heq ->]]; [by right; left|].
      exfalso. apply Hne. eapply NoDup_lookup; [exact I3|..]; rewrite list_lookup_fmap.
      * rewrite Hi. cbn. reflexivity.
      * rewrite Hj. unfold turn_generation. cbn. by rewrite Heq.
Qed.

(** A start: the turn before is over, the new one is live. *)
Lemma start_locked_spec t0 t1 t2 request (s s' : TurnSupervisor) res :
  start_turn_locked broker_config plan_turn t0 t1 t2 request s = (s', res) →
  0 ≤ cg_current (sup_generations s) < u64_max →
  ∃ generation s1, s1 = (barge_in_locked broker_config t0 (lit "superseded by a newer foreground turn") s).1 ∧
    next (sup_generations s1) = (generation, sup_generations s') ∧
    sup_shutting_down s' = sup_shutting_down s ∧
    match res with
    | Ok turn => sup_current s' = Some (sd_active turn) ∧
        at_generation (sd_active turn) = generation ∧
        ti_cancellation_generation (at_identity (sd_active turn)) = gt_generation generation
    | Err _ => sup_current s' = None
    end.
Proof using.
  unfold start_turn_locked. intros E Hb.
  pose proof (barge_in_spec t0 (lit "superseded by a newer foreground turn") s) as (Hc&Hd&_).
  destruct (barge_in_locked _ _ _ s) as [s1 prev]. cbn [fst] in Hc, Hd.
  destruct (next (sup_generations s1)) as [generation g'] eqn:Hn.
  destruct (admit_turn_resources _ _ _ _ _ _ _) as [s2 [[lease job]|error]] eqn:Ha;
    apply admit_frame in Ha as (Hg2&Hc2&Hd2); cbn in Hg2, Hc2, Hd2; injection E as <- <-;
    exists generation, s1; cbn; rewrite Hg2; split_and!; try done; by rewrite ?Hc2, ?Hd2.
Qed.

Lemma sup_step_inv s s' :
  sup_step s s' → Z.of_nat (sy_attempts s') ≤ u64_max → sup_inv s → sup_inv s'.
Proof using.
  intros Hstep Hmax Hinv. destruct Hstep as [s r Hr|s i r t0 t1 t2 sup res Hi Hs|s t reason|s|s t Hf
    |s i turn phase t Hi|s i turn Hi|s i turn t outcome Hi|s i turn Hi|s broker]; cbn in Hmax.
  - by destruct Hinv.
  - assert (0 ≤ cg_current (sup_generations (sy_sup s)) < u64_max) as Hcur
      by (destruct Hinv as [I1 _ _ _ _]; unfold u64_max in *; lia).
    apply start_locked_spec in Hs as (generation&s1&->&Hnext&_&Hres); [|done].
    pose proof (inv_barge_in s t0 (lit "superseded by a newer foreground turn") [] false Hinv) as Hb.
    destruct Hb as [I1 I2 I3 _ _]. cbn [sy_sup sy_attempts sy_started] in *.
    set (g1 := sup_generations (barge_in_locked broker_config t0 _ (sy_sup s)).1) in *.
    apply next_spec in Hnext as (Hgen&Hcur'&Hiss&Hlive&Hkeep&Hold); [|unfold u64_max in *; lia..].
    assert (Forall (turn_wf (sup_generations sup)) (sy_started s)) as Hwf.
    { apply (Forall_impl _ _ _ I2). intros p (W1&W2&W3). split_and!; [lia|by apply Hkeep|done]. }
    assert (Forall (turn_settled (sup_generations sup) (sup_current sup)) (sy_started s)) as Hset.
    { apply (Forall_impl _ _ _ I2). intros p (W1&_). right. right. by apply Hold. }
    constructor; cbn.
    + lia.
    + apply Forall_app. split; [done|]. destruct res as [turn|e]; [|constructor].
      destruct Hres as (_&Hg&Hid). apply Forall_singleton. unfold turn_wf, turn_generation. cbn.
      rewrite Hg. split_and!; [lia|done|done].
    + rewrite fmap_app. apply NoDup_app. split; [done|]. split; [|destruct res; cbn;
        [apply NoDup_singleton|constructor]].
      intros z (p&->&Hp)%list_elem_of_fmap Hz. rewrite Forall_forall in I2.
      destruct (I2 p Hp) as [W1 _]. destruct res as [turn|e]; [|by apply elem_of_nil in Hz].
      apply list_elem_of_singleton in Hz. destruct Hres as (_&Hg&_).
      unfold turn_generation at 2 in Hz. cbn in Hz. rewrite Hg in Hz. lia.
    + intros a Ha. destruct res as [turn|e]; [|congruence]. destruct Hres as (Hc&Hg&_).
      rewrite Hc in Ha. injection Ha as <-. split; [rewrite Hg; lia|].
      exists (turn, TurnRunning). split; [|done]. apply elem_of_app. right. by apply list_elem_of_singleton.
    + apply Forall_app. split; [done|]. destruct res as [turn|e]; [|constructor].
      apply Forall_singleton. right. left. apply Hres.
  - by apply inv_barge_in.
  - by destruct Hinv.
  - unfold shutdown_locked. by apply inv_barge_in.
  - unfold handle_cancel. apply (inv_cancel s turn); [done|..].
    + by rewrite (proj1 (proj2 (broker_cancel_frame _ _ _ _))).
    + right. by rewrite (proj1 (broker_cancel_frame _ _ _ _)).
  - unfold bridge_cancellation. apply (inv_cancel s turn); [done|..];
      (destruct (sd_lease turn); [|by auto]); (destruct (sup_broker _); [|by auto]);
      (destruct (lease_is_cancelled _ _); by auto).
  - apply inv_phase with TurnRunning; try done; try (by right);
      unfold complete_lease; (destruct (sd_lease turn), (sup_broker (sy_sup s)); cbn; by auto).
  - apply inv_phase with LeaseCompleted; try done; try (by left);
      unfold clear_if_current; destruct (is_some_and _ _) eqn:Hcl; cbn; try done; auto.
    intros a Ha. right. split; [|done]. rewrite Ha in Hcl. cbn in Hcl.
    destruct Hinv as [I1 I2 I3 I4 _]. destruct (I4 a Ha) as (_&p&Hp&<-).
    apply list_elem_of_lookup in Hp as [j Hj]. rewrite Forall_lookup in I2.
    destruct (I2 _ _ Hi) as (_&_&W1), (I2 _ _ Hj) as (_&_&W2).
    assert (i = j) as <-.
    { eapply NoDup_lookup; [exact I3|..]; rewrite list_lookup_fmap; [by rewrite Hi|].
      rewrite Hj. cbn. f_equal. rewrite <-W2. cbn in W1. rewrite <-W1. lia. }
    rewrite Hi in Hj. by injection Hj as <-.
  - by destruct Hinv.
Qed.

Lemma sup_init_inv broker : sup_inv (sup_init broker).
Proof using. constructor; cbn; try done; constructor. Qed.

Lemma sup_step_attempts s s' : sup_step s s' → (sy_attempts s ≤ sy_attempts s')%nat.
Proof using. destruct 1; cbn; lia. Qed.

Lemma sup_steps_inv broker s :
  rtc sup_step (sup_init broker) s → Z.of_nat (sy_attempts s) ≤ u64_max → sup_inv s.
Proof using.
  apply (rtc_ind_r (λ s, Z.of_nat (sy_attempts s) ≤ u64_max → sup_inv s)).
  - intros _. apply sup_init_inv.
  - intros s1 s2 _ Hstep IH Hmax. eapply sup_step_inv; [done..|]. apply IH.
    apply sup_step_attempts in Hstep. lia.
Qed.

(** ** Shutdown *)

(** Shut down, with no start waiting at the gate and no turn in the foreground. *)
Definition quiesced (s : sup_sys) : Prop :=
  sup_shutting_down (sy_sup s) = true ∧ sy_pending s = [] ∧ sup_current (sy_sup s) = None.

Lemma quiesced_step s s' : quiesced s → sup_step s s' → quiesced s'.
Proof using.
  intros (Hd&Hp&Hc) Hstep. destruct Hstep as [s r Hr|s i r t0 t1 t2 sup res Hi Hs|s t reason|s|s t Hf
    |s i turn phase t Hi|s i turn Hi|s i turn t outcome Hi|s i turn Hi|s broker]; unfold quiesced; cbn.
  - exfalso. unfold start_turn_check in Hr. rewrite Hd in Hr. by destruct (request_validate r).
  - by rewrite Hp in Hi.
  - unfold barge_in. by rewrite (proj1 (barge_in_spec _ _ _)), (proj1 (proj2 (barge_in_spec _ _ _))).
  - by split_and!.
  - unfold shutdown_locked.
    by rewrite (proj1 (barge_in_spec _ _ _)), (proj1 (proj2 (barge_in_spec _ _ _))).
  - unfold handle_cancel. by rewrite (proj1 (proj2 (broker_cancel_frame _ _ _ _))),
      (proj2 (proj2 (broker_cancel_frame _ _ _ _))).
  - unfold bridge_cancellation. destruct (sd_lease turn); [|by split_and!].
    destruct (sup_broker _); [|by split_and!]. destruct (lease_is_cancelled _ _); by split_and!.
  - unfold complete_lease. destruct (sd_lease turn); [|by split_and!]. destruct (sup_broker _); by split_and!.
  - unfold clear_if_current. destruct (is_some_and _ _); by split_and!.
  - by split_and!.
Qed.
End system.

(** C16: there is one foreground turn, and every other turn is cancelled or over. In
    every state that starts, barge-ins, shutdowns, handle cancellations, lease
    bridges, ends of tasks and any activity of the broker can reach with at most
    2^64 - 1 starts: the foreground turn belongs to the newest generation, and every
    other turn ever started has ended its task or has its generation cancelled. *)
Theorem one_foreground_turn `{CancelApi} `{HashIter} broker_config {T} `{BudgetTelemetry T}
    plan_turn broker s :
  rtc (sup_step broker_config plan_turn) (sup_init broker) s →
  Z.of_nat (sy_attempts s) ≤ u64_max →
  (∀ a, sup_current (sy_sup s) = Some a →
     gt_generation (at_generation a) = cg_current (sup_generations (sy_sup s))) ∧
  Forall (turn_settled (sup_generations (sy_sup s)) (sup_current (sy_sup s))) (sy_started s).
Proof.
  intros Hs Hmax. destruct (sup_steps_inv _ _ _ _ Hs Hmax) as [_ _ _ Hc Hset].
  split; [|done]. intros a Ha. by apply Hc.
Qed.

(** after a shutdown nothing starts any more. A shutdown that takes the gate while
    no start waits there leaves no foreground turn, and no later sequence of steps of
    the supervisor brings one back. *)
Theorem shutdown_is_final `{CancelApi} `{HashIter} broker_config {T} `{BudgetTelemetry T}
    plan_turn s s1 s2 (t : T) :
  sup_shutting_down (sy_sup s) = true → sy_pending s = [] →
  sy_sup s1 = shutdown_locked broker_config t (sy_sup s) → sy_pending s1 = sy_pending s →
  rtc (sup_step broker_config plan_turn) s1 s2 →
  sup_current (sy_sup s2) = None ∧ ∀ r, start_turn_check r (sy_sup s2) ≠ Ok tt.
Proof.
  intros Hd Hp Hsup Hp1 Hs. assert (quiesced s1) as Hq.
  { unfold quiesced. rewrite Hsup, Hp1. unfold shutdown_locked.
    by rewrite (proj1 (barge_in_spec _ _ _ _)), (proj1 (proj2 (barge_in_spec _ _ _ _))). }
  assert (quiesced s2) as (Hd2&_&Hc2).
  { clear Hsup Hp1. induction Hs as [|x y z Hxy _ IH]; [done|]. apply IH. by eapply quiesced_step. }
  split; [done|]. intros r. unfold start_turn_check. rewrite Hd2. by destruct (request_validate r).
Qed.

(** ** Admission through the broker *)

Section admission.
Context `{CancelApi} `{HashIter} (broker_config : ResourceBrokerConfig)
  {T : Type} `{BudgetTelemetry T}
  (plan_turn : TurnRequest → TurnIdentity → result BrokerError TurnResourcePlan).

Lemma supersede_reservations snapshot job (b : BrokerState) :
  st_reservations (supersede_queued broker_config snapshot job b) = st_reservations b.
Proof using.
  unfold supersede_queued. destruct (rj_drop_policy job) as [| | | |key]; try done.
  pose proof (foldl_push_core broker_config
    (λ state old, Admission (admission_diagnostic broker_config snapshot state (qr_job old)
       DroppedStale None (lit "superseded by a newer coalesced job")))
    (List.filter (superseded_by key) (st_queued b))
    (set_queued (List.filter (λ queued, negb (superseded_by key queued)) (st_queued b)) b))
    as (_&Hr&_).
  symmetry. exact Hr.
Qed.

Lemma decision_reservations snapshot accounted job (b : BrokerState) :
  st_reservations (decision_state broker_config snapshot accounted job b) = st_reservations b.
Proof using.
  unfold decision_state. rewrite supersede_reservations.
  by destruct (refresh_core broker_config snapshot accounted b) as (_&<-&_).
Qed.

Lemma cancel_reservations (t : T) id reason (b : BrokerState) :
  st_reservations (cancel broker_config t id reason b).1 = st_reservations b.
Proof using. unfold cancel. repeat case_match; done. Qed.

(** A foreground job is not admitted while another one holds the foreground slot. *)
Lemma submit_refused_while_held (t : T) job (b b' : BrokerState) submission held_by :
  holds_foreground_turn_slot (rj_kind job) = true →
  rs_foreground_turn_job (st_reservations b) = Some held_by →
  submit broker_config t job b = (b', Ok submission) → su_lease submission = None.
Proof using.
  intros Hk Hr (snapshot&accounted&_&_&Hs)%submit_inv.
  destruct (su_lease submission) as [lease|] eqn:Hl; [exfalso|done].
  pose proof (submit_locked_lease broker_config snapshot accounted job b lease) as Ha.
  rewrite Hs in Ha. destruct (Ha Hl) as (target&outcome&Hsel&_).
  apply select_target_available, residency_available_inv in Hsel as (Hfg&_).
  specialize (Hfg Hk). rewrite decision_reservations in Hfg. congruence.
Qed.

(** A start refused because the turn it supersedes has not returned its lease yet: the
    turn that ran is cancelled and out of the foreground, and no turn replaces it. *)
Lemma start_refused_while_lease_held t0 t1 t2 request (s s' : TurnSupervisor) res b held_by :
  sup_broker s = Some b → rs_foreground_turn_job (st_reservations b) = Some held_by →
  start_turn_locked broker_config plan_turn t0 t1 t2 request s = (s', res) →
  sup_current s' = None ∧ ∃ error, res = Err error.
Proof using.
  intros Hb Hr. unfold start_turn_locked.
  pose proof (barge_in_spec broker_config t0 (lit "superseded by a newer foreground turn") s) as (Hc&_).
  assert (∃ b1, sup_broker (barge_in_locked broker_config t0
      (lit "superseded by a newer foreground turn") s).1 = Some b1 ∧
    rs_foreground_turn_job (st_reservations b1) = Some held_by) as (b1&Hb1&Hr1).
  { unfold barge_in_locked. destruct (sup_current s) as [a|]; cbn [fst]; [|by exists b].
    unfold broker_cancel. cbn. rewrite Hb. destruct (at_resource_job_id a); [|by exists b].
    eexists. split; [done|]. by rewrite cancel_reservations. }
  destruct (barge_in_locked _ _ _ s) as [s1 prev]. cbn [fst] in *.
  destruct (next (sup_generations s1)) as [generation g'].
  destruct (admit_turn_resources _ _ _ _ _ _ _) as [s2 [[lease job]|error]] eqn:Ha; intros [= <- <-].
  - exfalso. unfold admit_turn_resources in Ha. cbn [sup_broker set_generations] in Ha. rewrite Hb1 in Ha.
    destruct (plan_turn _ _) as [plan|]; [|done].
    destruct (submit _ _ _ _) as [b2 [submission|]] eqn:Hs; [|done].
    eapply submit_refused_while_held in Hs; [|done|exact Hr1]. by rewrite Hs in Ha.
  - apply admit_frame in Ha as (_&Hc2&_). cbn in Hc2. split; [congruence|by exists error].
Qed.

End admission.
