(* ===== verification/TurnExample.v ===== *)
(** * A concrete turn

    An environment that answers every operation, and the runs of a turn against it:
    the witnesses of the theorems on lanes and turns.

    At the end, the supervisor that starts, supersedes and shuts down turns. *)

From S2P Require Import Prelude Text Float Policy Circuit Sentence SentenceSpec BrokerTypes BrokerCore Broker BrokerSim BrokerSpec Response ResponseStream ResponseSpec Prog Turn Lanes LaneSpec SpeechSpec TurnSpec Supervisor SupervisorSpec.

#[local] Open Scope Z_scope.

(** What the environment does: the check at which the turn is cancelled, the stream
    of the model, and whether playback works. *)
Record script := {
  sc_cancel_at : option nat;
  sc_stream : list (result ProviderError LlmDelta);
  sc_playback : bool
}.

Definition answer (sc : script) (X : Type) (o : turn_op X) : nat → X * nat :=
  match o in turn_op X return nat → X * nat with
  | IsCancelled => λ n, (bool_decide (sc_cancel_at sc = Some n), S n)
  | Now => λ n, (1000, n)
  | TrySend _ => λ n, (Sent, n)
  | TryAcquire _ => λ n, (Ok tt, n)
  | FinishPermit _ _ => λ n, (tt, n)
  | StreamResponse _ _ => λ n, (Ok (sc_stream sc), n)
  | SendSentence _ => λ n, (true, n)
  | DeriveEffects _ _ => λ n, (Some (Ok effects_neutral), n)
  | StartSession _ _ _ => λ n, (Ok 7%nat, n)
  | Synthesize _ _ => λ n, (Ok [], n)
  | Play _ _ _ => λ n,
      (if sc_playback sc
       then Ok {| pbr_audible_frames := 4800; pbr_duration := 100; pbr_completed := true |}
       else Err (DependencyUnavailable (lit "device lost")), n)
  | CloseSession _ => λ n, (Ok tt, n)
  | Resolve _ => λ n, (Err (DependencyUnavailable (lit "no camera")), n)
  | Retrieve _ => λ n, (Ok memory_degraded, n)
  | CommitDelivered _ _ _ => λ n, (Ok tt, n)
  | JoinFailed => λ n, ([], n)
  | CompleteLease _ => λ n, (tt, n)
  | SendCompletion _ => λ n, (tt, n)
  | ClearIfCurrent _ => λ n, (tt, n)
  end.

Definition demo_provider (id : string) (m : ProviderModality) : ProviderDescriptor := {|
  pd_id := lit id; pd_display_name := lit id; pd_modality := m; pd_location := Local;
  pd_may_retain_data := false; pd_transmitted_data := []; pd_capabilities := ∅ |}.

Definition demo_pools (m : ProviderModality) : list ProviderDescriptor :=
  match m with
  | LanguageModel => [demo_provider "qwen" LanguageModel]
  | Policy.Effects => [demo_provider "rules" Policy.Effects]
  | Speech => [demo_provider "piper" Speech]
  | Recognition => []
  end.

Definition demo_request : TurnRequest := {|
  tr_session_id := lit "s"; tr_turn_id := lit "t"; tr_transcript := lit "Hello";
  tr_character_hint := None; tr_game_id := lit "g"; tr_locale := lit "en";
  tr_execution_mode := FullyLocal; tr_network_policy := Offline;
  tr_authorized_cloud_providers := []; tr_allow_provider_fallback := false;
  tr_allow_local_to_cloud_fallback := false; tr_allow_retaining_providers := false;
  tr_metadata := ∅ |}.

Definition demo_identity : TurnIdentity := {|
  ti_session_id := lit "s"; ti_turn_id := lit "t"; ti_cancellation_generation := 1 |}.

Definition demo_script : script := {|
  sc_cancel_at := None;
  sc_stream := [Ok {| dl_text := lit "Welcome to the old harbor, "; dl_sequence := 1 |};
                Ok {| dl_text := lit "stranger. Mind the crates!"; dl_sequence := 2 |}];
  sc_playback := true |}.

#[local] Existing Instance toy_json.
#[local] Existing Instance hash_iter_list.

Definition demo_turn : prog turn_op Empty_set TurnOutcome :=
  run_turn supervisor_config_default (demo_pools LanguageModel) (demo_pools Policy.Effects)
    (demo_pools Speech) demo_request demo_identity.

Definition demo_task (leased : bool) : prog turn_op Empty_set TurnOutcome :=
  turn_task supervisor_config_default (demo_pools LanguageModel) (demo_pools Policy.Effects)
    (demo_pools Speech) demo_request demo_identity leased.

Definition run_script {E A} (sc : script) (p : prog turn_op E A) : list turn_act * exit E A :=
  (exec (@Act) (answer sc) p 0%nat).1.

Lemma run_script_runs {E A} sc (p : prog turn_op E A) :
  act_runs p (run_script sc p).1 (run_script sc p).2.
Proof. apply exec_runs. Qed.

Definition returned {E A} (r : exit E A) : option A :=
  match r with Returned a => Some a | _ => None end.

(** What a computed check says of the value a run returned. *)
Lemma returned_check {E A} (r : exit E A) (check : A → bool) :
  match returned r with Some a => check a | None => false end = true →
  ∃ a, r = Returned a ∧ check a = true.
Proof. destruct r; cbn; [by eexists|done..]. Qed.

Definition is_completed (o : TurnOutcome) : bool :=
  bool_decide (to_lifecycle o = Completed) && (length (to_delivered o) =? 2)%nat.

(** ** Whole turns *)

Lemma demo_turn_completes :
  ∃ o, (run_script demo_script demo_turn).2 = Returned o ∧ is_completed o = true.
Proof. apply (returned_check _ is_completed). vm_compute. reflexivity. Qed.

Lemma turn_outcome_truthful_witness : ∃ o,
  (run_script demo_script demo_turn).2 = Returned o ∧ is_completed o = true ∧
  turn_report supervisor_config_default demo_request demo_identity
    (run_script demo_script demo_turn).1 o ∧
  turn_ended (run_script demo_script demo_turn).1 o.
Proof.
  destruct demo_turn_completes as (o&Ho&Hc). exists o. split; [exact Ho|]. split; [exact Hc|].
  apply (turn_outcome_truthful supervisor_config_default (demo_pools LanguageModel)
    (demo_pools Policy.Effects) (demo_pools Speech)).
  pose proof (run_script_runs demo_script demo_turn) as Hr. rewrite Ho in Hr. exact Hr.
Defined.

Lemma turn_calls_only_authorized_witness :
  (10 <? length (run_script demo_script demo_turn).1)%nat = true ∧
  Forall (lane_act true demo_identity (plan_from_request demo_request) demo_pools)
    (run_script demo_script demo_turn).1.
Proof.
  split; [vm_compute; reflexivity|].
  exact (turn_calls_only_authorized supervisor_config_default demo_pools demo_request demo_identity
    _ _ (run_script_runs demo_script demo_turn)).
Defined.

Lemma turn_task_reports_once_witness : ∃ outcome tr0 sent,
  (run_script demo_script (demo_task true)).2 = Returned outcome ∧
  (run_script demo_script (demo_task true)).1 = tr0 ++ task_end true demo_identity outcome sent ∧
  Forall (λ a, ¬ ending_act a) tr0.
Proof.
  destruct (turn_task_reports_once supervisor_config_default demo_pools demo_request demo_identity
    true _ _ (run_script_runs demo_script (demo_task true))) as (outcome&tr0&sent&H1&H2&H3&_).
  - destruct (run_script demo_script (demo_task true)).2 eqn:E; [discriminate..|].
    exfalso. apply (f_equal (λ r, match r with Crashed => true | _ => false end)) in E.
    revert E. vm_compute. discriminate.
  - exists outcome, tr0, sent. split; [exact H1|]. split; [exact H2|exact H3].
Defined.

Lemma turn_refines_stages_witness : ∃ s,
  monitor stage_step None (run_script demo_script (demo_task false)).1 = Some s ∧ s = Some Completed.
Proof.
  destruct (turn_refines_stages supervisor_config_default demo_pools demo_request demo_identity
    false _ _ (run_script_runs demo_script (demo_task false))) as (s&Hm&Hs).
  exists s. split; [exact Hm|].
  destruct (returned_check (run_script demo_script (demo_task false)).2 is_completed) as (o&Ho&Hc).
  { vm_compute. reflexivity. }
  apply (Hs o Ho). unfold is_completed in Hc. apply andb_true_iff in Hc as [Hc _].
  exact (bool_decide_eq_true_1 _ Hc).
Defined.

(** ** Single lanes *)

Definition demo_generation : GenerationRequest :=
  generation_request_of demo_request demo_identity (explicit_character demo_request) memory_degraded.

Definition demo_routing : RoutingPlan := plan_from_request demo_request.

Definition demo_llm_lane : task LlmLaneResult :=
  run_llm_lane demo_generation demo_routing (demo_pools LanguageModel) 1 sentence_config_default 0.

Definition demo_sentences : list SentenceSpan := [
  {| sentence_id := 1; text_start_bytes := 0; text_end_bytes := 9; span_text := lit "Well met." |};
  {| sentence_id := 2; text_start_bytes := 10; text_end_bytes := 15; span_text := lit "Stay." |}].

Definition demo_speech_lane : task SpeechLaneResult :=
  run_speech_lane demo_identity (lit "en") demo_routing demo_sentences (demo_pools Speech).

Definition demo_effects_lane : task EffectsLaneResult :=
  run_effects_lane {| er_generation := demo_generation; er_response_text_hint := None |} demo_routing
    (demo_pools Policy.Effects) [].

Lemma llm_lane_sends_the_response_witness : ∃ res,
  (run_script demo_script demo_llm_lane).2 = Returned res ∧
  length (sent_in (run_script demo_script demo_llm_lane).1) = 2%nat ∧
  llm_report LegacyPlainText res (text_in (run_script demo_script demo_llm_lane).1)
    (sent_in (run_script demo_script demo_llm_lane).1).
Proof.
  destruct (returned_check (run_script demo_script demo_llm_lane).2 (λ _, true)) as (res&Hres&_).
  { vm_compute. reflexivity. }
  exists res. split; [exact Hres|]. split; [vm_compute; reflexivity|].
  pose proof (run_script_runs demo_script demo_llm_lane) as Hr. rewrite Hres in Hr.
  destruct (llm_lane_sends_the_response demo_routing (demo_pools LanguageModel) demo_generation 1
    sentence_config_default 0 _ _ Hr) as (_&format&Hf&Hrep).
  vm_compute in Hf. injection Hf as <-. exact Hrep.
Defined.

Definition is_stream (a : turn_act) : bool :=
  match a with Act (StreamResponse _ _) _ => true | _ => false end.

Lemma llm_lane_never_switches_midway_witness : ∃ tr1 tr2 p req ans,
  (run_script demo_script demo_llm_lane).1 = tr1 ++ Act (StreamResponse p req) ans :: tr2 ∧
  Forall (λ a, ¬ output_act a) tr1.
Proof.
  pose proof (run_script_runs demo_script demo_llm_lane) as Hr.
  set (tr := (run_script demo_script demo_llm_lane).1) in *.
  assert (tr = take 3 tr ++ Act (StreamResponse (demo_provider "qwen" LanguageModel) demo_generation)
    (Ok (sc_stream demo_script)) :: drop 4 tr) as Htr by (vm_compute; reflexivity).
  exists (take 3 tr), (drop 4 tr), (demo_provider "qwen" LanguageModel), demo_generation,
    (Ok (sc_stream demo_script)).
  split; [exact Htr|]. rewrite Htr in Hr.
  exact (llm_lane_never_switches_midway demo_routing (demo_pools LanguageModel) demo_generation 1
    sentence_config_default 0 _ _ _ _ _ _ Hr).
Defined.

(** The sink loses the device: both sentences become subtitles. *)
Definition silent_script : script := {|
  sc_cancel_at := None; sc_stream := []; sc_playback := false |}.

Lemma speech_lane_delivers_every_sentence_witness : ∃ res,
  (run_script silent_script demo_speech_lane).2 = Returned res ∧
  length (sl_delivered res) = 2%nat ∧
  spoken demo_sentences (played_in (run_script silent_script demo_speech_lane).1) (sl_delivered res).
Proof.
  destruct (returned_check (run_script silent_script demo_speech_lane).2
    (λ res, (length (sl_delivered res) =? 2)%nat)) as (res&Hres&Hlen).
  { vm_compute. reflexivity. }
  exists res. split; [exact Hres|]. split; [exact (proj1 (Nat.eqb_eq _ _) Hlen)|].
  pose proof (run_script_runs silent_script demo_speech_lane) as Hr. rewrite Hres in Hr.
  exact (proj1 (speech_lane_delivers_every_sentence demo_identity (lit "en") demo_routing demo_sentences
    (demo_pools Speech) _ _ Hr)).
Defined.

Lemma effects_lane_valid_witness : ∃ res,
  (run_script demo_script demo_effects_lane).2 = Returned res ∧ effects_result [] res.
Proof.
  destruct (returned_check (run_script demo_script demo_effects_lane).2 (λ _, true)) as (res&Hres&_).
  { vm_compute. reflexivity. }
  exists res. split; [exact Hres|].
  pose proof (run_script_runs demo_script demo_effects_lane) as Hr. rewrite Hres in Hr.
  exact (effects_lane_valid {| er_generation := demo_generation; er_response_text_hint := None |}
    demo_routing (demo_pools Policy.Effects) [] _ _ Hr).
Defined.

Lemma lane_ends_every_permit_witness :
  monitor permit_step None (run_script silent_script demo_speech_lane).1 = Some None.
Proof.
  exact (lane_ends_every_permit _ _
    (speech_lane_run demo_identity (lit "en") demo_routing demo_sentences (demo_pools Speech) _ _
      (run_script_runs silent_script demo_speech_lane))).
Defined.

(** Cancelled between the synthesis of a sentence and its playback. *)
Definition cancel_script : script := {|
  sc_cancel_at := Some 2%nat; sc_stream := []; sc_playback := true |}.

Lemma lane_stops_when_cancelled_witness : ∃ tr1 tr2,
  (run_script cancel_script demo_speech_lane).1 = tr1 ++ Act IsCancelled true :: tr2 ∧
  length tr2 = 1%nat ∧ Forall (ends_permit PermitDrop) tr2.
Proof.
  pose proof (run_script_runs cancel_script demo_speech_lane) as Hr.
  set (tr := (run_script cancel_script demo_speech_lane).1) in *.
  assert (tr = take 6 tr ++ Act IsCancelled true :: drop 7 tr) as Htr by (vm_compute; reflexivity).
  exists (take 6 tr), (drop 7 tr). split; [exact Htr|]. split; [vm_compute; reflexivity|].
  rewrite Htr in Hr.
  exact (proj1 (lane_stops_when_cancelled _ _ _ _ _ (speech_lane_run demo_identity (lit "en")
    demo_routing demo_sentences (demo_pools Speech) _ _ Hr) eq_refl)).
Defined.

(** * The turn supervisor on a concrete broker

    Starts, barge-in and shutdown evaluated on concrete requests: the witnesses of the
    theorems of [SupervisorSpec], a newer turn that is refused because the one it
    superseded still holds its lease, and a start that overtakes a shutdown. *)

#[local] Open Scope Z_scope.

Definition demo_turn_request (turn_id : string) : TurnRequest := {|
  tr_session_id := lit "s"; tr_turn_id := lit turn_id; tr_transcript := lit "Hi.";
  tr_character_hint := None; tr_game_id := lit "g"; tr_locale := lit "en";
  tr_execution_mode := FullyLocal; tr_network_policy := Offline;
  tr_authorized_cloud_providers := []; tr_allow_provider_fallback := false;
  tr_allow_local_to_cloud_fallback := false; tr_allow_retaining_providers := false;
  tr_metadata := ∅ |}.

(** A planner that gives every turn 1 GiB of the GPU it may share. *)
Definition demo_plan (request : TurnRequest) (identity : TurnIdentity)
    : result BrokerError TurnResourcePlan := Ok {|
  tp_primary := gpu_target (lit "turn") None GpuShared 1024 0; tp_fallbacks := [];
  tp_deadline_ms := None; tp_priority := Critical; tp_drop_policy := Never |}.

Definition demo_start (turn_id : string) (s : TurnSupervisor)
    : TurnSupervisor * result StartTurnError StartedTurn :=
  start_turn_locked broker_config_default demo_plan (telemetry_at 1 1000) (telemetry_at 2 1000)
    (telemetry_at 3 1000) (demo_turn_request turn_id) s.

(** A start from its check to its end with nothing between. *)
Definition demo_start_sys (turn_id : string) (s : sup_sys) : sup_sys := {|
  sy_sup := (demo_start turn_id (sy_sup s)).1; sy_attempts := S (sy_attempts s); sy_pending := [];
  sy_started := sy_started s ++ match (demo_start turn_id (sy_sup s)).2 with
                                | Ok turn => [(turn, TurnRunning)] | Err _ => [] end;
  sy_shut := sy_shut s |}.

Notation demo_step := (sup_step broker_config_default demo_plan).

Lemma demo_start_steps turn_id s :
  start_turn_check (demo_turn_request turn_id) (sy_sup s) = Ok tt → sy_pending s = [] →
  rtc demo_step s (demo_start_sys turn_id s).
Proof.
  intros Hc Hp. eapply rtc_l; [by apply sup_check with (r := demo_turn_request turn_id)|].
  eapply rtc_l; [|apply rtc_refl]. unfold demo_start_sys. rewrite Hp.
  unfold demo_start. destruct (start_turn_locked _ _ _ _ _ _ _) as [sup res] eqn:Hs. cbn [fst snd].
  exact (sup_start broker_config_default demo_plan
    {| sy_sup := sy_sup s; sy_attempts := sy_attempts s; sy_pending := [demo_turn_request turn_id];
       sy_started := sy_started s; sy_shut := sy_shut s |}
    0 (demo_turn_request turn_id) (telemetry_at 1 1000) (telemetry_at 2 1000) (telemetry_at 3 1000)
    sup res eq_refl Hs).
Qed.

(** Two starts without a broker: the second supersedes the first. *)
Definition demo_two : sup_sys := demo_start_sys "t2" (demo_start_sys "t1" (sup_init None)).

Lemma demo_two_reached : rtc demo_step (sup_init None) demo_two.
Proof.
  unfold demo_two. etransitivity; [|apply demo_start_steps; vm_compute; reflexivity].
  apply demo_start_steps; [vm_compute; reflexivity|done].
Qed.

Lemma one_foreground_turn_witness :
  (∀ a, sup_current (sy_sup demo_two) = Some a →
     gt_generation (at_generation a) = cg_current (sup_generations (sy_sup demo_two))) ∧
  Forall (turn_settled (sup_generations (sy_sup demo_two)) (sup_current (sy_sup demo_two)))
    (sy_started demo_two) ∧
  length (sy_started demo_two) = 2%nat ∧ is_some (sup_current (sy_sup demo_two)) = true.
Proof.
  destruct (one_foreground_turn broker_config_default demo_plan None demo_two demo_two_reached) as [Hc Hs].
  { vm_compute. discriminate. }
  split_and!; [done..| |]; vm_compute; reflexivity.
Defined.

(** Shutting the two turns down, and a step of the task of the second one afterwards. *)
Definition demo_flagged : sup_sys := {|
  sy_sup := set_shutting_down (sy_sup demo_two); sy_attempts := sy_attempts demo_two;
  sy_pending := []; sy_started := sy_started demo_two; sy_shut := false |}.

Definition demo_shut : sup_sys := {|
  sy_sup := shutdown_locked broker_config_default (telemetry_at 4 1000) (sy_sup demo_flagged);
  sy_attempts := sy_attempts demo_two; sy_pending := []; sy_started := sy_started demo_two;
  sy_shut := true |}.

Definition demo_after : sup_sys := {|
  sy_sup := sy_sup demo_shut; sy_attempts := sy_attempts demo_shut; sy_pending := [];
  sy_started := (λ p : StartedTurn * turn_phase, (p.1, LeaseCompleted)) <$> sy_started demo_shut;
  sy_shut := true |}.

(** Both tasks return the lease they do not have. *)
Lemma demo_after_reached : rtc demo_step demo_shut demo_after.
Proof.
  destruct (sy_started demo_shut) as [|[turn0 p0] [|[turn1 p1] [|]]] eqn:Hs; try (vm_compute in Hs; discriminate).
  assert (p0 = TurnRunning ∧ p1 = TurnRunning ∧ sd_lease turn0 = None ∧ sd_lease turn1 = None)
    as (->&->&H0&H1) by (vm_compute in Hs; by simplify_eq).
  assert (∀ s turn, sd_lease turn = None →
    complete_lease broker_config_default (telemetry_at 5 1000) turn
      (outcome_new (at_identity (sd_active turn))) s = s) as Hsame.
  { intros s turn Hl. unfold complete_lease. by rewrite Hl. }
  eapply rtc_l.
  { apply (sup_lease _ _ demo_shut 0 turn0 (telemetry_at 5 1000) (outcome_new (at_identity (sd_active turn0)))).
    by rewrite Hs. }
  rewrite Hsame, Hs by done. cbn [list_insert insert]. eapply rtc_l.
  { exact (sup_lease broker_config_default demo_plan {| sy_sup := sy_sup demo_shut; sy_attempts := sy_attempts demo_shut;
      sy_pending := sy_pending demo_shut; sy_started := [(turn0, LeaseCompleted); (turn1, TurnRunning)];
      sy_shut := sy_shut demo_shut |} 1 turn1 (telemetry_at 5 1000)
      (outcome_new (at_identity (sd_active turn1))) eq_refl). }
  cbn [sy_sup]. rewrite Hsame by done. unfold demo_after. rewrite Hs. apply rtc_refl.
Qed.

Lemma shutdown_is_final_witness :
  sup_current (sy_sup demo_two) ≠ None ∧ demo_after ≠ demo_shut ∧
  sup_current (sy_sup demo_after) = None ∧ ∀ r, start_turn_check r (sy_sup demo_after) ≠ Ok tt.
Proof.
  split; [vm_compute; discriminate|]. split.
  - intros He. apply (f_equal (λ s, snd <$> sy_started s)) in He. vm_compute in He. discriminate.
  - exact (shutdown_is_final broker_config_default demo_plan demo_flagged demo_shut demo_after
      (telemetry_at 4 1000) eq_refl eq_refl eq_refl eq_refl demo_after_reached).
Defined.

(** ** What the code does not mean to do *)

(** A shutdown returned, and a turn that started after it is in the foreground: its
    check was before the shutdown, and it took the gate after it. *)
Definition demo_overtaken : sup_sys := {|
  sy_sup := (demo_start "t1" (shutdown_locked broker_config_default (telemetry_at 1 1000)
               (set_shutting_down (sy_sup (sup_init None))))).1;
  sy_attempts := 1; sy_pending := [];
  sy_started := match (demo_start "t1" (shutdown_locked broker_config_default (telemetry_at 1 1000)
                  (set_shutting_down (sy_sup (sup_init None))))).2 with
                | Ok turn => [(turn, TurnRunning)] | Err _ => [] end;
  sy_shut := true |}.

Lemma start_overtakes_shutdown :
  rtc demo_step (sup_init None) demo_overtaken ∧
  sy_shut demo_overtaken = true ∧ is_some (sup_current (sy_sup demo_overtaken)) = true.
Proof.
  split; [|vm_compute; by split].
  eapply rtc_l; [by apply sup_check with (r := demo_turn_request "t1"); vm_compute|].
  eapply rtc_l; [apply sup_shutdown_flag|].
  eapply rtc_l; [by apply (sup_shutdown _ _ _ (telemetry_at 1 1000))|].
  eapply rtc_l; [|apply rtc_refl]. cbn [sy_sup sy_attempts sy_pending sy_started sy_shut sup_init app].
  unfold demo_overtaken, demo_start.
  destruct (start_turn_locked _ _ _ _ _ _ _) as [sup res] eqn:Hs. cbn [fst snd].
  exact (sup_start broker_config_default demo_plan
    {| sy_sup := shutdown_locked broker_config_default (telemetry_at 1 1000)
         (set_shutting_down (sy_sup (sup_init None)));
       sy_attempts := 0; sy_pending := [demo_turn_request "t1"]; sy_started := []; sy_shut := true |}
    0 (demo_turn_request "t1") _ _ _ sup res eq_refl Hs).
Qed.

(** With admission through the broker: the first turn runs, the start of the second
    one cancels it, and is itself refused. *)
Definition demo_leased : TurnSupervisor :=
  (demo_start "t1" (sy_sup (sup_init (Some broker_state_default)))).1.

Lemma newer_turn_cancels_and_is_refused :
  is_some (sup_current demo_leased) = true ∧
  sup_current (demo_start "t2" demo_leased).1 = None ∧
  match (demo_start "t2" demo_leased).2 with
  | Err (StartResourceNotAdmitted outcome _) => outcome = Queued
  | _ => False
  end.
Proof. split_and!; vm_compute; reflexivity. Qed.
