(* ===== verification/Measurement.v ===== *)
(** * Measured resource envelopes ([crates/model-manager/src/resource_governor.rs])

    Signed measurements of what a model needs on a device, and their verification
    against a trust state that remembers the newest measurement of every stream. The
    canonical serialization, the digest and the signature scheme are external crates
    and the host's verifier: [CatalogApi].

    The second half is what a verified measurement is worth. *)

From S2P Require Import Prelude Text.

#[local] Open Scope Z_scope.

(** ** The data of the model manager ([manifest.rs], [catalog.rs]) *)

Abbreviation Sha256Digest := str (only parsing).

Record PackRevision := {
  pr_pack_id : str;
  pr_revision : str
}.
#[export] Instance PackRevision_eq_dec : EqDecision PackRevision.
Proof. solve_decision. Defined.
#[export] Instance PackRevision_countable : Countable PackRevision.
Proof.
  refine (inj_countable' (λ p, (pr_pack_id p, pr_revision p))
    (λ p, {| pr_pack_id := p.1; pr_revision := p.2 |}) _).
  by intros [].
Defined.

(** The derived [Ord]: field by field. *)
#[export] Instance PackRevision_ordered : Ordered PackRevision.
Proof.
  refine {| ocmp x y := ocmp (pr_pack_id x, pr_revision x) (pr_pack_id y, pr_revision y) |}.
  - intros [] []. rewrite ocmp_Eq. cbn. naive_solver.
  - intros [] []. apply ocmp_opp.
  - intros [] [] []. apply ocmp_trans.
Defined.

Inductive ModelPackKindV1 :=
| KindLanguageModel | KindSpeechRecognition | KindSpeechSynthesis | KindEmbedding | KindVision
| KindLipSync | KindAnimation | KindOther.
#[export] Instance ModelPackKindV1_eq_dec : EqDecision ModelPackKindV1.
Proof. solve_decision. Defined.

Definition kind_rank (k : ModelPackKindV1) : Z :=
  match k with
  | KindLanguageModel => 0 | KindSpeechRecognition => 1 | KindSpeechSynthesis => 2
  | KindEmbedding => 3 | KindVision => 4 | KindLipSync => 5 | KindAnimation => 6 | KindOther => 7
  end.
#[export] Instance kind_rank_inj : Inj (=) (=) kind_rank.
Proof. by intros [] []. Qed.
#[export] Instance ModelPackKindV1_ordered : Ordered ModelPackKindV1 := ordered_by kind_rank _.

#[export] Instance ModelPackKindV1_countable : Countable ModelPackKindV1.
Proof.
  refine (inj_countable' kind_rank
    (λ n, match n with 0 => KindLanguageModel | 1 => KindSpeechRecognition
          | 2 => KindSpeechSynthesis | 3 => KindEmbedding | 4 => KindVision | 5 => KindLipSync
          | 6 => KindAnimation | _ => KindOther end) _).
  by intros [].
Defined.

Record CatalogSignatureV1 := {
  cs_key_id : str;
  cs_algorithm : str;
  cs_signature : str
}.

(** ** The measurements *)

Definition MEASURED_RESOURCE_ENVELOPE_SCHEMA_V1 : str := lit "npc.measured-resource-envelope/v1".

Inductive ResidencyModeV1 := CpuResident | GpuResident | CpuResidentGpuCold.
#[export] Instance ResidencyModeV1_eq_dec : EqDecision ResidencyModeV1.
Proof. solve_decision. Defined.

Definition mode_rank (m : ResidencyModeV1) : Z :=
  match m with CpuResident => 0 | GpuResident => 1 | CpuResidentGpuCold => 2 end.
#[export] Instance mode_rank_inj : Inj (=) (=) mode_rank.
Proof. by intros [] []. Qed.
#[export] Instance ResidencyModeV1_ordered : Ordered ResidencyModeV1 := ordered_by mode_rank _.
#[export] Instance ResidencyModeV1_countable : Countable ResidencyModeV1.
Proof.
  refine (inj_countable' mode_rank
    (λ n, match n with 0 => CpuResident | 1 => GpuResident | _ => CpuResidentGpuCold end) _).
  by intros [].
Defined.

Record PlacementMeasurementV1 := {
  pm_resident_ram_bytes : Z;
  pm_p99_total_ram_bytes : Z;
  pm_resident_vram_bytes : Z;
  pm_p99_workspace_vram_bytes : Z;
  pm_p99_load_millis : Z;
  pm_p99_reload_millis : Z;
  pm_p99_operation_millis : Z
}.

Record MeasuredResourceEnvelopePayloadV1 := {
  mp_schema : str;
  mp_report_id : str;
  mp_sequence : Z;
  mp_measured_unix_seconds : Z;
  mp_expires_unix_seconds : Z;
  mp_device_fingerprint_sha256 : Sha256Digest;
  mp_identity : PackRevision;
  mp_manifest_sha256 : Sha256Digest;
  mp_capability : ModelPackKindV1;
  mp_benchmark_suite_revision : str;
  mp_runtime : str;
  mp_runtime_revision : str;
  mp_backend : str;
  mp_sample_count : Z;
  mp_placements : gmap ResidencyModeV1 PlacementMeasurementV1
}.

Record SignedMeasuredResourceEnvelopeV1 := {
  se_signed : MeasuredResourceEnvelopePayloadV1;
  se_signatures : list CatalogSignatureV1
}.

Record MeasurementTrustPolicyV1 := {
  tp_signature_threshold : Z;
  tp_minimum_samples : Z;
  tp_maximum_lifetime_seconds : Z;
  tp_maximum_clock_skew_seconds : Z
}.

Definition trust_policy_default : MeasurementTrustPolicyV1 := {|
  tp_signature_threshold := 1; tp_minimum_samples := 20;
  tp_maximum_lifetime_seconds := 30 * 24 * 60 * 60; tp_maximum_clock_skew_seconds := 10 * 60 |}.

Record MeasurementStreamKeyV1 := {
  sk_identity : PackRevision;
  sk_device_fingerprint_sha256 : Sha256Digest;
  sk_runtime : str;
  sk_backend : str
}.
#[export] Instance MeasurementStreamKeyV1_eq_dec : EqDecision MeasurementStreamKeyV1.
Proof. solve_decision. Defined.
#[export] Instance MeasurementStreamKeyV1_countable : Countable MeasurementStreamKeyV1.
Proof.
  refine (inj_countable'
    (λ k, (sk_identity k, sk_device_fingerprint_sha256 k, sk_runtime k, sk_backend k))
    (λ '(i, d, r, b), {| sk_identity := i; sk_device_fingerprint_sha256 := d; sk_runtime := r;
                         sk_backend := b |}) _).
  by intros [].
Defined.

Record MeasurementVersionV1 := {
  mv_sequence : Z;
  mv_payload_sha256 : Sha256Digest
}.

(** [MeasurementTrustStateV1], its one field. *)
Abbreviation MeasurementTrustStateV1 := (gmap MeasurementStreamKeyV1 MeasurementVersionV1) (only parsing).

(** Verified evidence: its fields are private to the code. *)
Record QualifiedResourceEnvelopeV1 := {
  qe_payload : MeasuredResourceEnvelopePayloadV1;
  qe_payload_sha256 : Sha256Digest
}.

Definition placement (mode : ResidencyModeV1) (q : QualifiedResourceEnvelopeV1)
    : option PlacementMeasurementV1 :=
  mp_placements (qe_payload q) !! mode.

Inductive ResourceEnvelopeError :=
| EnvelopeUnsupportedSchema (schema : str)
| EnvelopeInvalidField (field : str)
| IncompleteMeasurement
| MeasuredInFuture
| EnvelopeExpired
| InvalidLifetime
| InvalidPlacementMeasurement (mode : ResidencyModeV1)
| ZeroSignatureThreshold
| SignatureThreshold (required valid : Z)
| Rollback (trusted received : Z)
| SequenceEquivocation (sequence : Z)
| EnvelopeSerialization (error : str).

(** ** Validation of a payload *)

Definition is_token_char (c : char) : bool :=
  is_ascii_alphabetic c || is_ascii_digit c || (c =? 46) || (c =? 45) || (c =? 95).

Definition validate_token (field : str) (value : str) (min max : Z)
    : result ResourceEnvelopeError unit :=
  ensure ((min <=? str_len value) && (str_len value <=? max) && forallb is_token_char value)
    (EnvelopeInvalidField field).

(** One turn of the loop over the placements. *)
Definition validate_placement (entry : ResidencyModeV1 * PlacementMeasurementV1)
    : result ResourceEnvelopeError unit :=
  let '(mode, m) := entry in
  if (pm_resident_ram_bytes m =? 0) || (pm_p99_total_ram_bytes m <? pm_resident_ram_bytes m)
     || (pm_p99_load_millis m =? 0) || (pm_p99_reload_millis m =? 0)
     || (pm_p99_operation_millis m =? 0)
  then Err (InvalidPlacementMeasurement mode) else
  match mode with
  | GpuResident => ensure (negb (pm_resident_vram_bytes m =? 0)) (InvalidPlacementMeasurement mode)
  | CpuResident | CpuResidentGpuCold =>
      ensure ((pm_resident_vram_bytes m =? 0) && (pm_p99_workspace_vram_bytes m =? 0))
        (InvalidPlacementMeasurement mode)
  end.

Definition validate_measurement_payload (p : MeasuredResourceEnvelopePayloadV1)
    (policy : MeasurementTrustPolicyV1) (now_unix_seconds : Z)
    : result ResourceEnvelopeError unit :=
  _ ← ensure (str_eqb (mp_schema p) MEASURED_RESOURCE_ENVELOPE_SCHEMA_V1)
        (EnvelopeUnsupportedSchema (mp_schema p));
  _ ← validate_token (lit "report_id") (mp_report_id p) 8 128;
  _ ← validate_token (lit "benchmark_suite_revision") (mp_benchmark_suite_revision p) 1 128;
  _ ← validate_token (lit "runtime") (mp_runtime p) 1 128;
  _ ← validate_token (lit "runtime_revision") (mp_runtime_revision p) 1 128;
  _ ← validate_token (lit "backend") (mp_backend p) 1 128;
  _ ← ensure (negb ((mp_sequence p =? 0) || (mp_measured_unix_seconds p =? 0)
                    || (mp_sample_count p <? tp_minimum_samples policy)
                    || (Z.of_nat (size (mp_placements p)) =? 0))) IncompleteMeasurement;
  _ ← ensure (mp_measured_unix_seconds p
              <=? sat_add64 now_unix_seconds (tp_maximum_clock_skew_seconds policy)) MeasuredInFuture;
  _ ← ensure (now_unix_seconds <? mp_expires_unix_seconds p) EnvelopeExpired;
  _ ← ensure (mp_measured_unix_seconds p <=? mp_expires_unix_seconds p) InvalidLifetime;
  _ ← ensure (mp_expires_unix_seconds p - mp_measured_unix_seconds p
              <=? tp_maximum_lifetime_seconds policy) InvalidLifetime;
  check_all validate_placement (btree_iter (mp_placements p)).

(** ** Verification *)

Class CatalogApi := {
  canonical_measured_resource_envelope_bytes :
    MeasuredResourceEnvelopePayloadV1 → result str (list Z);
  sha256_of_bytes : list Z → Sha256Digest;
  is_trusted_key : str → bool;
  verify_signature (key_id algorithm : str) (message : list Z) (signature : str) : bool
}.

Definition stream_of (p : MeasuredResourceEnvelopePayloadV1) : MeasurementStreamKeyV1 := {|
  sk_identity := mp_identity p; sk_device_fingerprint_sha256 := mp_device_fingerprint_sha256 p;
  sk_runtime := mp_runtime p; sk_backend := mp_backend p |}.

Section verification.
Context `{CatalogApi}.

Definition signature_valid (bytes : list Z) (s : CatalogSignatureV1) : bool :=
  is_trusted_key (cs_key_id s)
  && verify_signature (cs_key_id s) (cs_algorithm s) bytes (cs_signature s).

(** The keys whose signature counts, each once. *)
Definition accepted_keys (bytes : list Z) (signatures : list CatalogSignatureV1) : gset str :=
  foldl (λ keys s, if negb (bool_decide (cs_key_id s ∈ keys)) && signature_valid bytes s
                   then {[cs_key_id s]} ∪ keys else keys) ∅ signatures.

(** The measurement is not older than the trusted one, nor another one of its number. *)
Definition check_version (prior : MeasurementTrustStateV1)
    (p : MeasuredResourceEnvelopePayloadV1) (digest : Sha256Digest)
    : result ResourceEnvelopeError unit :=
  match prior !! stream_of p with
  | None => Ok tt
  | Some version =>
      if mp_sequence p <? mv_sequence version
      then Err (Rollback (mv_sequence version) (mp_sequence p)) else
      ensure (negb ((mp_sequence p =? mv_sequence version)
                    && negb (str_eqb digest (mv_payload_sha256 version))))
        (SequenceEquivocation (mp_sequence p))
  end.

Definition verify_measured_resource_envelope (envelope : SignedMeasuredResourceEnvelopeV1)
    (policy : MeasurementTrustPolicyV1) (prior : MeasurementTrustStateV1) (now_unix_seconds : Z)
    : result ResourceEnvelopeError (QualifiedResourceEnvelopeV1 * MeasurementTrustStateV1) :=
  let p := se_signed envelope in
  _ ← validate_measurement_payload p policy now_unix_seconds;
  _ ← ensure (negb (tp_signature_threshold policy =? 0)) ZeroSignatureThreshold;
  match canonical_measured_resource_envelope_bytes p with
  | Err error => Err (EnvelopeSerialization error)
  | Ok bytes =>
      let digest := sha256_of_bytes bytes in
      _ ← check_version prior p digest;
      let valid := Z.of_nat (size (accepted_keys bytes (se_signatures envelope))) in
      if valid <? tp_signature_threshold policy
      then Err (SignatureThreshold (tp_signature_threshold policy) valid) else
      Ok ({| qe_payload := p; qe_payload_sha256 := digest |},
          <[stream_of p := {| mv_sequence := mp_sequence p; mv_payload_sha256 := digest |}]> prior)
  end.
End verification.

(** * What verified measurements are worth

    Exactly which envelopes verification accepts, and that the trust state never
    rolls back: no history of verifications accepts an older measurement of a stream
    after a newer one, or two measurements with one number. *)

#[local] Open Scope Z_scope.

(** ** Valid payloads *)

Record placement_ok (mode : ResidencyModeV1) (m : PlacementMeasurementV1) : Prop := {
  po_ram : pm_resident_ram_bytes m ≠ 0 ∧ pm_resident_ram_bytes m ≤ pm_p99_total_ram_bytes m;
  po_times : pm_p99_load_millis m ≠ 0 ∧ pm_p99_reload_millis m ≠ 0 ∧ pm_p99_operation_millis m ≠ 0;
  po_vram : mode = GpuResident ↔ pm_resident_vram_bytes m ≠ 0;
  po_workspace : mode ≠ GpuResident → pm_p99_workspace_vram_bytes m = 0
}.

Definition token_ok (value : str) (min max : Z) : Prop :=
  min ≤ str_len value ≤ max ∧ Forall (λ c, is_token_char c = true) value.

Record payload_ok (policy : MeasurementTrustPolicyV1) (now : Z)
    (p : MeasuredResourceEnvelopePayloadV1) : Prop := {
  py_schema : mp_schema p = MEASURED_RESOURCE_ENVELOPE_SCHEMA_V1;
  py_tokens : token_ok (mp_report_id p) 8 128 ∧ token_ok (mp_benchmark_suite_revision p) 1 128 ∧
    token_ok (mp_runtime p) 1 128 ∧ token_ok (mp_runtime_revision p) 1 128 ∧
    token_ok (mp_backend p) 1 128;
  py_numbers : mp_sequence p ≠ 0 ∧ mp_measured_unix_seconds p ≠ 0;
  py_samples : tp_minimum_samples policy ≤ mp_sample_count p;
  py_measured : mp_measured_unix_seconds p ≤ now + tp_maximum_clock_skew_seconds policy;
  py_fresh : now < mp_expires_unix_seconds p;
  py_lifetime : 0 ≤ mp_expires_unix_seconds p - mp_measured_unix_seconds p
                  ≤ tp_maximum_lifetime_seconds policy;
  py_placed : mp_placements p ≠ ∅;
  py_placements : map_Forall placement_ok (mp_placements p)
}.

Lemma forallb_Forall {A} (f : A → bool) l : forallb f l = true ↔ Forall (λ x, f x = true) l.
Proof. rewrite forallb_forall, Forall_forall. by setoid_rewrite list_elem_of_In. Qed.

Lemma validate_token_Ok field value min max :
  validate_token field value min max = Ok tt ↔ token_ok value min max.
Proof.
  unfold validate_token, token_ok. rewrite ensure_Ok, !andb_true_iff, forallb_Forall. naive_solver lia.
Qed.

Lemma validate_placement_Ok mode m : validate_placement (mode, m) = Ok tt ↔ placement_ok mode m.
Proof.
  unfold validate_placement.
  destruct ((pm_resident_ram_bytes m =? 0) || _ || _ || _ || _) eqn:E;
    rewrite ?orb_false_iff, ?orb_true_iff in E.
  { split; [done|]. intros [? ? _ _]. lia. }
  split.
  - intros Hm. constructor; [lia|lia|..]; destruct mode; rewrite ensure_Ok in Hm;
      (split || intros ?); intros; (done || lia).
  - intros [_ _ Hv Hw]. destruct mode; rewrite ensure_Ok;
      destruct (Z.eqb_spec (pm_resident_vram_bytes m) 0) as [Hz|Hz]; try done.
    all: naive_solver lia.
Qed.

Lemma validate_payload_Ok p policy now :
  in_u64 (mp_measured_unix_seconds p) →
  validate_measurement_payload p policy now = Ok tt ↔ payload_ok policy now p.
Proof.
  intros [_ Hmax]. unfold validate_measurement_payload, sat_add64, str_eqb.
  rewrite !bind_unit_Ok, !ensure_Ok, !validate_token_Ok, check_all_Ok, bool_decide_eq_true,
    negb_true_iff, !orb_false_iff.
  assert (Forall (λ x, validate_placement x = Ok tt) (btree_iter (mp_placements p)) ↔
    map_Forall placement_ok (mp_placements p)) as ->.
  { rewrite Forall_forall. split.
    - intros Hall k m Hk. apply validate_placement_Ok, Hall. by apply btree_iter_elem.
    - intros Hall [k m] Hk%btree_iter_elem. apply validate_placement_Ok. by apply Hall. }
  assert (Z.of_nat (size (mp_placements p)) =? 0 = false ↔ mp_placements p ≠ ∅) as ->.
  { rewrite Z.eqb_neq, <-map_size_non_empty_iff. lia. }
  split.
  - intros (?&?&?&?&?&?&(((?&?)&?)&?)&?&?&?&?&?). constructor; (done || lia).
  - intros [? (?&?&?&?&?) ? ? ? ? ? ? ?]. split_and!; try done; lia.
Qed.

(** ** Signatures *)

Section trust.
Context `{CatalogApi}.

Lemma accepted_keys_elem bytes signatures k :
  k ∈ accepted_keys bytes signatures ↔
  ∃ s, s ∈ signatures ∧ cs_key_id s = k ∧ signature_valid bytes s = true.
Proof using.
  unfold accepted_keys.
  assert (∀ keys, k ∈ foldl (λ keys s, if negb (bool_decide (cs_key_id s ∈ keys))
      && signature_valid bytes s then {[cs_key_id s]} ∪ keys else keys) keys signatures ↔
    k ∈ keys ∨ ∃ s, s ∈ signatures ∧ cs_key_id s = k ∧ signature_valid bytes s = true) as ->.
  { induction signatures as [|s l IH]; intros keys; cbn; [set_solver|]. rewrite IH.
    setoid_rewrite elem_of_cons. destruct (signature_valid bytes s) eqn:Hv.
    - destruct (bool_decide_reflect (cs_key_id s ∈ keys)); cbn; [naive_solver|].
      rewrite elem_of_union, elem_of_singleton. naive_solver.
    - rewrite andb_false_r. naive_solver congruence. }
  set_solver.
Qed.

(** What acceptance means. *)
Record accepts (policy : MeasurementTrustPolicyV1) (prior : MeasurementTrustStateV1) (now : Z)
    (envelope : SignedMeasuredResourceEnvelopeV1) (bytes : list Z) : Prop := {
  ac_payload : payload_ok policy now (se_signed envelope);
  ac_bytes : canonical_measured_resource_envelope_bytes (se_signed envelope) = Ok bytes;
  ac_threshold : tp_signature_threshold policy ≠ 0;
  ac_keys : ∃ keys : gset str, tp_signature_threshold policy ≤ Z.of_nat (size keys) ∧
    ∀ k, k ∈ keys ↔ ∃ s, s ∈ se_signatures envelope ∧ cs_key_id s = k ∧
      is_trusted_key k = true ∧ verify_signature k (cs_algorithm s) bytes (cs_signature s) = true;
  ac_version : ∀ v, prior !! stream_of (se_signed envelope) = Some v →
    mv_sequence v < mp_sequence (se_signed envelope) ∨
    mv_sequence v = mp_sequence (se_signed envelope) ∧ mv_payload_sha256 v = sha256_of_bytes bytes
}.

Lemma check_version_Ok prior p digest :
  check_version prior p digest = Ok tt ↔
  ∀ v, prior !! stream_of p = Some v →
    mv_sequence v < mp_sequence p ∨ mv_sequence v = mp_sequence p ∧ mv_payload_sha256 v = digest.
Proof using.
  unfold check_version. destruct (prior !! stream_of p) as [v|]; [|naive_solver].
  destruct (Z.ltb_spec (mp_sequence p) (mv_sequence v)) as [Hlt|Hge].
  { split; [done|]. intros Hv. specialize (Hv v eq_refl). lia. }
  rewrite ensure_Ok, negb_true_iff, andb_false_iff, negb_false_iff. unfold str_eqb.
  rewrite Z.eqb_neq, bool_decide_eq_true. split.
  - intros Hc v' [= <-]. destruct Hc as [Hc| ->]; [left; lia|].
    destruct (decide (mv_sequence v = mp_sequence p)); [by right|left; lia].
  - intros Hv. destruct (Hv v eq_refl) as [Hlt|[_ ->]]; [left; lia|by right].
Qed.

Lemma keys_unique (P : str → Prop) (keys keys' : gset str) :
  (∀ k, k ∈ keys ↔ P k) → (∀ k, k ∈ keys' ↔ P k) → keys = keys'.
Proof using. intros Hk Hk'. apply set_eq. intros k. by rewrite Hk, Hk'. Qed.

Lemma accepted_keys_spec bytes signatures k :
  k ∈ accepted_keys bytes signatures ↔
  ∃ s, s ∈ signatures ∧ cs_key_id s = k ∧ is_trusted_key k = true ∧
    verify_signature k (cs_algorithm s) bytes (cs_signature s) = true.
Proof using.
  rewrite accepted_keys_elem. unfold signature_valid. setoid_rewrite andb_true_iff. naive_solver.
Qed.

Lemma verify_Ok envelope policy prior now q next :
  in_u64 (mp_measured_unix_seconds (se_signed envelope)) →
  verify_measured_resource_envelope envelope policy prior now = Ok (q, next) ↔
  ∃ bytes, accepts policy prior now envelope bytes ∧
    q = {| qe_payload := se_signed envelope; qe_payload_sha256 := sha256_of_bytes bytes |} ∧
    next = <[stream_of (se_signed envelope) := {| mv_sequence := mp_sequence (se_signed envelope);
      mv_payload_sha256 := sha256_of_bytes bytes |}]> prior.
Proof using.
  intros Hm. unfold verify_measured_resource_envelope.
  rewrite !bind_unit_Ok, validate_payload_Ok, ensure_Ok, negb_true_iff, Z.eqb_neq by done.
  destruct (canonical_measured_resource_envelope_bytes (se_signed envelope)) as [bytes|e] eqn:Hb.
  2:{ split; [naive_solver|]. intros (bytes&[_ Hb' _ _ _]&_). congruence. }
  rewrite bind_unit_Ok, check_version_Ok.
  pose proof (accepted_keys_spec bytes (se_signatures envelope)) as Hkeys.
  destruct (Z.ltb_spec (Z.of_nat (size (accepted_keys bytes (se_signatures envelope))))
    (tp_signature_threshold policy)) as [Hlt|Hge].
  - split; [naive_solver|]. intros (bytes'&[_ Hb' _ (keys&Hsz&Hk) _]&_). rewrite Hb in Hb'.
    injection Hb' as <-. rewrite (keys_unique _ _ _ Hk Hkeys) in Hsz. lia.
  - split.
    + intros (Hp&Ht&Hv&[= <- <-]). exists bytes. split; [|done].
      constructor; try done. eexists. split; [exact Hge|exact Hkeys].
    + intros (bytes'&[Hp Hb' Ht _ Hv]&->&->). rewrite Hb in Hb'. by injection Hb' as <-.
Qed.

(** ** Histories *)

(** One verification of a history; a refused envelope leaves the state as it was. *)
Record verification := {
  ve_envelope : SignedMeasuredResourceEnvelopeV1;
  ve_policy : MeasurementTrustPolicyV1;
  ve_now : Z
}.

Fixpoint verify_all (events : list verification) (state : MeasurementTrustStateV1)
    : list QualifiedResourceEnvelopeV1 * MeasurementTrustStateV1 :=
  match events with
  | [] => ([], state)
  | v :: events =>
      match verify_measured_resource_envelope (ve_envelope v) (ve_policy v) state (ve_now v) with
      | Ok (q, next) => let '(qs, final) := verify_all events next in (q :: qs, final)
      | Err _ => verify_all events state
      end
  end.

Definition q_stream (q : QualifiedResourceEnvelopeV1) : MeasurementStreamKeyV1 :=
  stream_of (qe_payload q).
Definition q_version (q : QualifiedResourceEnvelopeV1) : MeasurementVersionV1 := {|
  mv_sequence := mp_sequence (qe_payload q); mv_payload_sha256 := qe_payload_sha256 q |}.

(** [v'] may follow [v]. *)
Definition version_le (v v' : MeasurementVersionV1) : Prop :=
  mv_sequence v < mv_sequence v' ∨ v = v'.

#[local] Instance version_le_trans : Transitive version_le.
Proof using. intros u v w [?|<-] [?|<-]; unfold version_le; [left; lia|by left|by left|by right]. Qed.

Lemma verify_version envelope policy prior now q next :
  verify_measured_resource_envelope envelope policy prior now = Ok (q, next) →
  next = <[q_stream q := q_version q]> prior ∧
  ∀ v, prior !! q_stream q = Some v → version_le v (q_version q).
Proof using.
  unfold verify_measured_resource_envelope. rewrite !bind_unit_Ok. intros (_&_&Hr).
  destruct (canonical_measured_resource_envelope_bytes (se_signed envelope)) as [bytes|]; [|done].
  rewrite bind_unit_Ok, check_version_Ok in Hr. destruct Hr as [Hv Hr].
  destruct (Z.of_nat _ <? _); [done|]. injection Hr as <- <-. split; [done|].
  intros v Hl. unfold version_le, q_version. cbn. destruct (Hv v Hl) as [Hlt|[Heq Hd]]; [by left|right].
  destruct v. cbn in *. by subst.
Qed.

(** Everything a history accepts comes after what was trusted before, and is below
    what is trusted at the end. *)
Lemma verify_all_after events state qs final :
  verify_all events state = (qs, final) →
  (∀ k v, state !! k = Some v → ∃ v', final !! k = Some v' ∧ version_le v v') ∧
  Forall (λ q, ∀ v, state !! q_stream q = Some v → version_le v (q_version q)) qs.
Proof using.
  revert state qs. induction events as [|e events IH]; intros state qs Hr; cbn in Hr.
  { injection Hr as <- <-. split; [|constructor]. intros k v Hk. exists v. split; [done|by right]. }
  destruct (verify_measured_resource_envelope _ _ _ _) as [[q next]|] eqn:Hv; [|by apply IH].
  destruct (verify_all events next) as [qs' final'] eqn:Hr'. injection Hr as <- <-.
  apply verify_version in Hv as [-> Hle]. apply IH in Hr' as [Hk Hq].
  assert (∀ k v, state !! k = Some v →
    ∃ v', <[q_stream q := q_version q]> state !! k = Some v' ∧ version_le v v') as Hnext.
  { intros k v Hv. destruct (decide (k = q_stream q)) as [->|Hne].
    - exists (q_version q). rewrite lookup_insert_eq. split; [done|by apply Hle].
    - exists v. rewrite lookup_insert_ne by done. split; [done|by right]. }
  split.
  - intros k v Hv. apply Hnext in Hv as (v1&Hv1&Hle1). apply Hk in Hv1 as (v2&Hv2&Hle2).
    exists v2. split; [done|]. by etransitivity.
  - constructor; [exact Hle|]. apply (Forall_impl _ _ _ Hq). intros q' Hq' v Hv.
    apply Hnext in Hv as (v1&Hv1&Hle1). etransitivity; [exact Hle1|by apply Hq'].
Qed.

Lemma verify_all_ordered events state qs final i j q q' :
  verify_all events state = (qs, final) → (i < j)%nat → qs !! i = Some q → qs !! j = Some q' →
  q_stream q = q_stream q' → version_le (q_version q) (q_version q').
Proof using.
  revert state qs i j. induction events as [|e events IH]; intros state qs i j Hr Hij Hi Hj Hs; cbn in Hr.
  { by injection Hr as <- <-. }
  destruct (verify_measured_resource_envelope _ _ _ _) as [[q0 next]|] eqn:Hv; [|by eapply IH].
  destruct (verify_all events next) as [qs' final'] eqn:Hr'. injection Hr as <- <-.
  destruct j as [|j]; [lia|]. destruct i as [|i]; cbn in Hi, Hj; [|eapply IH; [exact Hr'| |done..]; lia].
  injection Hi as ->. apply verify_version in Hv as [-> _]. apply verify_all_after in Hr' as [_ Hq].
  rewrite Forall_lookup in Hq. apply (Hq j q' Hj). by rewrite Hs, lookup_insert_eq.
Qed.
End trust.

(** verification accepts exactly the trustworthy envelopes: the payload is
    complete, fresh and within its lifetime with consistent placements, at least the
    threshold of distinct trusted keys signed its canonical bytes, and it is newer
    than the trusted measurement of its stream or that measurement itself. What it
    returns is that payload with its digest, and the trust state with this one stream
    moved. *)
Theorem verification_exact `{CatalogApi} envelope policy prior now q next :
  in_u64 (mp_measured_unix_seconds (se_signed envelope)) →
  verify_measured_resource_envelope envelope policy prior now = Ok (q, next) ↔
  ∃ bytes, accepts policy prior now envelope bytes ∧
    q = {| qe_payload := se_signed envelope; qe_payload_sha256 := sha256_of_bytes bytes |} ∧
    next = <[stream_of (se_signed envelope) := {| mv_sequence := mp_sequence (se_signed envelope);
      mv_payload_sha256 := sha256_of_bytes bytes |}]> prior.
Proof. apply verify_Ok. Qed.

(** trust in measurements never rolls back. In any history of verifications, from
    any trust state and under any policies and clocks, of two accepted envelopes of
    one stream the later has the greater number, or both are the same number with the
    same digest; and the state at the end trusts, for every stream, something that is
    not older than what was trusted at the start. *)
Theorem trust_never_rolls_back `{CatalogApi} events state qs final :
  verify_all events state = (qs, final) →
  (∀ i j q q', (i < j)%nat → qs !! i = Some q → qs !! j = Some q' → q_stream q = q_stream q' →
     mp_sequence (qe_payload q) < mp_sequence (qe_payload q') ∨
     mp_sequence (qe_payload q) = mp_sequence (qe_payload q') ∧
     qe_payload_sha256 q = qe_payload_sha256 q') ∧
  ∀ k v, state !! k = Some v → ∃ v', final !! k = Some v' ∧
    (mv_sequence v < mv_sequence v' ∨ v = v').
Proof.
  intros Hr. split; [|apply (verify_all_after _ _ _ _ Hr)].
  intros i j q q' Hij Hi Hj Hs. destruct (verify_all_ordered _ _ _ _ _ _ _ _ Hr Hij Hi Hj Hs) as [?|Heq];
    [by left|right]. by injection Heq.
Qed.
