(* ===== verification/Governor.v ===== *)
(** * Admission of a local loadout
    ([ResourceGovernorV1] of [crates/model-manager/src/resource_governor.rs])

    Which models may be loaded together next to the game and the desktop, from
    verified measurements and a live snapshot, in checked 64-bit arithmetic.

    At the end, the residency of loaded models: which give up their GPU memory, and when. *)

From S2P Require Import Prelude Text Measurement.

#[local] Open Scope Z_scope.

Definition RESOURCE_GOVERNOR_POLICY_SCHEMA_V1 : str := lit "npc.resource-governor-policy/v1".
Definition BASIS_POINTS : Z := 10000.

Record ResourceGovernorPolicyV1 := {
  gp_schema : str;
  gp_vram_soft_ceiling_basis_points : Z;
  gp_ram_soft_ceiling_basis_points : Z;
  gp_minimum_vram_safety_bytes : Z;
  gp_proportional_vram_safety_basis_points : Z;
  gp_minimum_ram_safety_bytes : Z;
  gp_maximum_snapshot_age_millis : Z;
  gp_keep_warm_millis : Z;
  gp_unload_ttl_millis : Z
}.

Definition governor_policy_default : ResourceGovernorPolicyV1 := {|
  gp_schema := RESOURCE_GOVERNOR_POLICY_SCHEMA_V1;
  gp_vram_soft_ceiling_basis_points := 9000; gp_ram_soft_ceiling_basis_points := 8500;
  gp_minimum_vram_safety_bytes := 1500000000; gp_proportional_vram_safety_basis_points := 1500;
  gp_minimum_ram_safety_bytes := 2000000000; gp_maximum_snapshot_age_millis := 2000;
  gp_keep_warm_millis := 30000; gp_unload_ttl_millis := 120000 |}.

Inductive ResourceAdmissionError :=
| UnsupportedPolicySchema (schema : str)
| InvalidPolicy
| InvalidSnapshot
| SnapshotFromFuture
| StaleSnapshot (age_millis : Z)
| EmptyLoadout
| DuplicateRole (role : ModelPackKindV1)
| DeviceFingerprintMismatch
| CapabilityMismatch (measured requested : ModelPackKindV1)
| UnknownEnvelope (identity : PackRevision) (mode : ResidencyModeV1)
| VramSoftCeilingExceeded (projected_bytes ceiling_bytes : Z)
| RamSoftCeilingExceeded (projected_bytes ceiling_bytes : Z)
| ArithmeticOverflow
| InvalidResidencyUpdate
| UnknownResidency
| ResidencyClockWentBackward.

(** [ResourceGovernorPolicyV1::validate], which [ResourceGovernorV1::new] calls. *)
Definition governor_policy_validate (p : ResourceGovernorPolicyV1)
    : result ResourceAdmissionError unit :=
  _ ← ensure (str_eqb (gp_schema p) RESOURCE_GOVERNOR_POLICY_SCHEMA_V1)
        (UnsupportedPolicySchema (gp_schema p));
  ensure (negb ((gp_vram_soft_ceiling_basis_points p =? 0)
                || (BASIS_POINTS <? gp_vram_soft_ceiling_basis_points p)
                || (gp_ram_soft_ceiling_basis_points p =? 0)
                || (BASIS_POINTS <? gp_ram_soft_ceiling_basis_points p)
                || (BASIS_POINTS <? gp_proportional_vram_safety_basis_points p)
                || (gp_maximum_snapshot_age_millis p =? 0)
                || (gp_unload_ttl_millis p <? gp_keep_warm_millis p))) InvalidPolicy.

Record LiveResourceSnapshotV1 := {
  ls_captured_monotonic_millis : Z;
  ls_device_fingerprint_sha256 : Sha256Digest;
  ls_physical_vram_bytes : Z;
  ls_os_vram_budget_bytes : Z;
  ls_desktop_resident_vram_bytes : Z;
  ls_game_resident_vram_bytes : Z;
  ls_game_reserve_vram_bytes : Z;
  ls_physical_ram_bytes : Z;
  ls_available_ram_bytes : Z;
  ls_game_additional_reserve_ram_bytes : Z
}.

Record LoadoutModelRequestV1 := {
  lr_role : ModelPackKindV1;
  lr_mode : ResidencyModeV1;
  lr_envelope : QualifiedResourceEnvelopeV1
}.

Record AdmittedModelV1 := {
  am_role : ModelPackKindV1;
  am_identity : PackRevision;
  am_manifest_sha256 : Sha256Digest;
  am_measured_envelope_sha256 : Sha256Digest;
  am_mode : ResidencyModeV1;
  am_measurement : PlacementMeasurementV1
}.

Record LoadoutAdmissionV1 := {
  la_snapshot_monotonic_millis : Z;
  la_device_fingerprint_sha256 : Sha256Digest;
  la_models : list AdmittedModelV1;
  la_vram_soft_ceiling_bytes : Z;
  la_protected_desktop_and_game_vram_bytes : Z;
  la_selected_peak_vram_bytes : Z;
  la_vram_safety_bytes : Z;
  la_projected_total_vram_bytes : Z;
  la_ram_soft_ceiling_bytes : Z;
  la_selected_peak_ram_bytes : Z;
  la_ram_safety_bytes : Z
}.

Definition validates_manifest (identity : PackRevision) (manifest : Sha256Digest)
    (a : LoadoutAdmissionV1) : bool :=
  existsb (λ m, bool_decide (am_identity m = identity) && str_eqb (am_manifest_sha256 m) manifest)
    (la_models a).

(** ** Checked arithmetic *)

Definition checked_sum (left right : Z) : result ResourceAdmissionError Z :=
  if left + right <=? u64_max then Ok (left + right) else Err ArithmeticOverflow.

Definition basis_points (value bps : Z) : result ResourceAdmissionError Z :=
  if value * bps <=? u64_max then Ok (value * bps / BASIS_POINTS) else Err ArithmeticOverflow.

(** ** Admission *)

Definition validate_snapshot (s : LiveResourceSnapshotV1) (now : Z) (policy : ResourceGovernorPolicyV1)
    : result ResourceAdmissionError unit :=
  _ ← ensure (negb ((ls_captured_monotonic_millis s =? 0) || (ls_physical_vram_bytes s =? 0)
                    || (ls_os_vram_budget_bytes s =? 0) || (ls_physical_ram_bytes s =? 0)
                    || (ls_available_ram_bytes s =? 0)
                    || (ls_physical_vram_bytes s <? ls_os_vram_budget_bytes s)
                    || (ls_physical_ram_bytes s <? ls_available_ram_bytes s)
                    || (ls_os_vram_budget_bytes s <? ls_desktop_resident_vram_bytes s)
                    || (ls_os_vram_budget_bytes s <? ls_game_resident_vram_bytes s))) InvalidSnapshot;
  _ ← ensure (ls_captured_monotonic_millis s <=? now) SnapshotFromFuture;
  let age := now - ls_captured_monotonic_millis s in
  ensure (age <=? gp_maximum_snapshot_age_millis policy) (StaleSnapshot age).

Definition admitted_model (r : LoadoutModelRequestV1) (m : PlacementMeasurementV1)
    : AdmittedModelV1 := {|
  am_role := lr_role r; am_identity := mp_identity (qe_payload (lr_envelope r));
  am_manifest_sha256 := mp_manifest_sha256 (qe_payload (lr_envelope r));
  am_measured_envelope_sha256 := qe_payload_sha256 (lr_envelope r);
  am_mode := lr_mode r; am_measurement := m |}.

(** The loop over the requests: the models with their peak memory. *)
Fixpoint select_models (fingerprint : Sha256Digest) (requests : list LoadoutModelRequestV1)
    (roles : gset ModelPackKindV1) (models : list AdmittedModelV1) (peak_vram peak_ram : Z)
    : result ResourceAdmissionError (list AdmittedModelV1 * Z * Z) :=
  match requests with
  | [] => Ok (models, peak_vram, peak_ram)
  | r :: requests =>
      let payload := qe_payload (lr_envelope r) in
      if bool_decide (lr_role r ∈ roles) then Err (DuplicateRole (lr_role r)) else
      if negb (str_eqb (mp_device_fingerprint_sha256 payload) fingerprint)
      then Err DeviceFingerprintMismatch else
      if negb (bool_decide (mp_capability payload = lr_role r))
      then Err (CapabilityMismatch (mp_capability payload) (lr_role r)) else
      m ← ok_or (placement (lr_mode r) (lr_envelope r))
            (UnknownEnvelope (mp_identity payload) (lr_mode r));
      vram ← checked_sum (pm_resident_vram_bytes m) (pm_p99_workspace_vram_bytes m);
      peak_vram ← checked_sum peak_vram vram;
      peak_ram ← checked_sum peak_ram (pm_p99_total_ram_bytes m);
      select_models fingerprint requests ({[lr_role r]} ∪ roles)
        (models ++ [admitted_model r m]) peak_vram peak_ram
  end.

(** The memory the selected models need, against what may be used. *)
Definition admit_selected (policy : ResourceGovernorPolicyV1) (s : LiveResourceSnapshotV1)
    (models : list AdmittedModelV1) (selected_peak_vram selected_peak_ram : Z)
    : result ResourceAdmissionError LoadoutAdmissionV1 :=
  let vram_hard_budget := ls_physical_vram_bytes s `min` ls_os_vram_budget_bytes s in
  vram_soft_ceiling ← basis_points vram_hard_budget (gp_vram_soft_ceiling_basis_points policy);
  let protected_game := ls_game_resident_vram_bytes s `max` ls_game_reserve_vram_bytes s in
  protected_desktop_and_game ← checked_sum (ls_desktop_resident_vram_bytes s) protected_game;
  proportional_safety ←
    basis_points vram_hard_budget (gp_proportional_vram_safety_basis_points policy);
  let vram_safety := gp_minimum_vram_safety_bytes policy `max` proportional_safety in
  protected ← checked_sum protected_desktop_and_game selected_peak_vram;
  projected_total_vram ← checked_sum protected vram_safety;
  _ ← ensure (projected_total_vram <=? vram_soft_ceiling)
        (VramSoftCeilingExceeded projected_total_vram vram_soft_ceiling);
  ram_soft_ceiling ←
    basis_points (ls_physical_ram_bytes s) (gp_ram_soft_ceiling_basis_points policy);
  let incremental_ram_budget := ls_available_ram_bytes s `min` ram_soft_ceiling in
  required ← checked_sum selected_peak_ram (ls_game_additional_reserve_ram_bytes s);
  required_incremental_ram ← checked_sum required (gp_minimum_ram_safety_bytes policy);
  _ ← ensure (required_incremental_ram <=? incremental_ram_budget)
        (RamSoftCeilingExceeded required_incremental_ram incremental_ram_budget);
  Ok {| la_snapshot_monotonic_millis := ls_captured_monotonic_millis s;
        la_device_fingerprint_sha256 := ls_device_fingerprint_sha256 s;
        la_models := sort_by (λ l r, ocmp (am_role l) (am_role r)) models;
        la_vram_soft_ceiling_bytes := vram_soft_ceiling;
        la_protected_desktop_and_game_vram_bytes := protected_desktop_and_game;
        la_selected_peak_vram_bytes := selected_peak_vram;
        la_vram_safety_bytes := vram_safety;
        la_projected_total_vram_bytes := projected_total_vram;
        la_ram_soft_ceiling_bytes := incremental_ram_budget;
        la_selected_peak_ram_bytes := selected_peak_ram;
        la_ram_safety_bytes := gp_minimum_ram_safety_bytes policy |}.

Definition governor_admit (policy : ResourceGovernorPolicyV1) (s : LiveResourceSnapshotV1) (now : Z)
    (requests : list LoadoutModelRequestV1) : result ResourceAdmissionError LoadoutAdmissionV1 :=
  _ ← validate_snapshot s now policy;
  _ ← ensure (negb (bool_decide (requests = []))) EmptyLoadout;
  '(models, selected_peak_vram, selected_peak_ram) ←
    select_models (ls_device_fingerprint_sha256 s) requests ∅ [] 0 0;
  admit_selected policy s models selected_peak_vram selected_peak_ram.

(** * Residency of loaded models
    ([ResidencyTrackerV1] of [crates/model-manager/src/resource_governor.rs])

    Which models give up their GPU memory, and which are unloaded, after how much idle
    time. [maintenance_actions] stops at the first record whose clock runs ahead,
    keeping what it changed until then. *)

#[local] Open Scope Z_scope.

Inductive RuntimeResidencyStateV1 := GpuWarm | StateCpuResidentGpuCold | CpuWarm | Unloaded.
#[export] Instance RuntimeResidencyStateV1_eq_dec : EqDecision RuntimeResidencyStateV1.
Proof. solve_decision. Defined.

Record ResidencyRecordV1 := {
  rr_identity : PackRevision;
  rr_state : RuntimeResidencyStateV1;
  rr_cpu_fallback_supported : bool;
  rr_last_used_monotonic_millis : Z
}.

Inductive ResidencyActionV1 :=
| DropGpuKeepCpu (identity : PackRevision)
| Unload (identity : PackRevision).

Record ResidencyTrackerV1 := {
  rt_keep_warm_millis : Z;
  rt_unload_ttl_millis : Z;
  rt_records : gmap PackRevision ResidencyRecordV1
}.

Definition set_records (records : gmap PackRevision ResidencyRecordV1) (t : ResidencyTrackerV1)
    : ResidencyTrackerV1 := {|
  rt_keep_warm_millis := rt_keep_warm_millis t; rt_unload_ttl_millis := rt_unload_ttl_millis t;
  rt_records := records |}.

Definition residency_new (policy : ResourceGovernorPolicyV1)
    : result ResourceAdmissionError ResidencyTrackerV1 :=
  _ ← governor_policy_validate policy;
  Ok {| rt_keep_warm_millis := gp_keep_warm_millis policy;
        rt_unload_ttl_millis := gp_unload_ttl_millis policy; rt_records := ∅ |}.

Definition record_loaded (identity : PackRevision) (state : RuntimeResidencyStateV1)
    (cpu_fallback_supported : bool) (now : Z) (t : ResidencyTrackerV1)
    : result ResourceAdmissionError ResidencyTrackerV1 :=
  if (now =? 0) || bool_decide (state = Unloaded) then Err InvalidResidencyUpdate else
  Ok (set_records (<[identity := {|
    rr_identity := identity; rr_state := state;
    rr_cpu_fallback_supported := cpu_fallback_supported;
    rr_last_used_monotonic_millis := now |}]> (rt_records t)) t).

Definition set_last_used (now : Z) (r : ResidencyRecordV1) : ResidencyRecordV1 := {|
  rr_identity := rr_identity r; rr_state := rr_state r;
  rr_cpu_fallback_supported := rr_cpu_fallback_supported r; rr_last_used_monotonic_millis := now |}.

Definition set_state (state : RuntimeResidencyStateV1) (r : ResidencyRecordV1) : ResidencyRecordV1 := {|
  rr_identity := rr_identity r; rr_state := state;
  rr_cpu_fallback_supported := rr_cpu_fallback_supported r;
  rr_last_used_monotonic_millis := rr_last_used_monotonic_millis r |}.

Definition touch (identity : PackRevision) (now : Z) (t : ResidencyTrackerV1)
    : result ResourceAdmissionError ResidencyTrackerV1 :=
  match rt_records t !! identity with
  | None => Err UnknownResidency
  | Some r =>
      if now <? rr_last_used_monotonic_millis r then Err ResidencyClockWentBackward else
      Ok (set_records (<[identity := set_last_used now r]> (rt_records t)) t)
  end.

(** One turn of the loop: the record afterwards, and the action it is due. *)
Definition maintain (t : ResidencyTrackerV1) (identity : PackRevision) (r : ResidencyRecordV1)
    (idle : Z) : ResidencyRecordV1 * option ResidencyActionV1 :=
  if rt_unload_ttl_millis t <=? idle then (set_state Unloaded r, Some (Unload identity)) else
  if (rt_keep_warm_millis t <=? idle) && bool_decide (rr_state r = GpuWarm)
     && rr_cpu_fallback_supported r
  then (set_state StateCpuResidentGpuCold r, Some (DropGpuKeepCpu identity)) else
  (r, None).

Fixpoint maintenance_loop (now : Z) (identities : list PackRevision) (t : ResidencyTrackerV1)
    (actions : list ResidencyActionV1)
    : ResidencyTrackerV1 * result ResourceAdmissionError (list ResidencyActionV1) :=
  match identities with
  | [] => (t, Ok actions)
  | identity :: identities =>
      match rt_records t !! identity with
      | None => maintenance_loop now identities t actions
      | Some r =>
          if now <? rr_last_used_monotonic_millis r then (t, Err ResidencyClockWentBackward) else
          let '(r', action) := maintain t identity r (now - rr_last_used_monotonic_millis r) in
          maintenance_loop now identities (set_records (<[identity := r']> (rt_records t)) t)
            (actions ++ option_list action)
      end
  end.

Definition maintenance_actions (now : Z) (t : ResidencyTrackerV1)
    : ResidencyTrackerV1 * result ResourceAdmissionError (list ResidencyActionV1) :=
  match maintenance_loop now (btree_keys (rt_records t)) t [] with
  | (t, Err error) => (t, Err error)
  | (t, Ok actions) =>
      (set_records (filter (λ kr, rr_state kr.2 ≠ Unloaded) (rt_records t)) t, Ok actions)
  end.
