(* ===== verification/GovernorSpec.v ===== *)
(** * What admission and residency promise

    Exactly which loadouts are admitted, in unbounded arithmetic, and what the
    maintenance of loaded models does to each of them. *)

From S2P Require Import Prelude Text Measurement Governor.

#[local] Open Scope Z_scope.

(** ** Sums *)

Definition zsum {A} (f : A → Z) (l : list A) : Z := foldr (λ x total, f x + total) 0 l.

Lemma zsum_nonneg {A} (f : A → Z) l : Forall (λ x, 0 ≤ f x) l → 0 ≤ zsum f l.
Proof. induction 1; unfold zsum in *; cbn; lia. Qed.

Lemma checked_sum_Ok a b c : checked_sum a b = Ok c ↔ c = a + b ∧ a + b ≤ u64_max.
Proof. unfold checked_sum. destruct (Z.leb_spec (a + b) u64_max); naive_solver lia. Qed.

Lemma basis_points_Ok a b c :
  basis_points a b = Ok c ↔ c = a * b / BASIS_POINTS ∧ a * b ≤ u64_max.
Proof. unfold basis_points. destruct (Z.leb_spec (a * b) u64_max); naive_solver lia. Qed.

(** ** The selected models *)

Definition peak_vram (m : PlacementMeasurementV1) : Z :=
  pm_resident_vram_bytes m + pm_p99_workspace_vram_bytes m.

(** The measurements of a [u64] structure. *)
Definition measured (m : PlacementMeasurementV1) : Prop :=
  0 ≤ pm_resident_vram_bytes m ∧ 0 ≤ pm_p99_workspace_vram_bytes m ∧ 0 ≤ pm_p99_total_ram_bytes m.

Record request_ok (fingerprint : Sha256Digest) (r : LoadoutModelRequestV1)
    (m : PlacementMeasurementV1) : Prop := {
  ro_device : mp_device_fingerprint_sha256 (qe_payload (lr_envelope r)) = fingerprint;
  ro_capability : mp_capability (qe_payload (lr_envelope r)) = lr_role r;
  ro_placement : placement (lr_mode r) (lr_envelope r) = Some m
}.

Definition requests_measured (requests : list LoadoutModelRequestV1) : Prop :=
  Forall (λ r, ∀ m, placement (lr_mode r) (lr_envelope r) = Some m → measured m) requests.

(** The outcome of a selection that goes on from [models] with peaks [v] and [w]. *)
Definition selection (fingerprint : Sha256Digest) (requests : list LoadoutModelRequestV1)
    (roles : gset ModelPackKindV1) (models : list AdmittedModelV1) (v w : Z)
    (out : list AdmittedModelV1 * Z * Z) : Prop :=
  ∃ ms, Forall2 (request_ok fingerprint) requests ms ∧
    NoDup (lr_role <$> requests) ∧ Forall (λ r, lr_role r ∉ roles) requests ∧
    v + zsum peak_vram ms ≤ u64_max ∧ w + zsum pm_p99_total_ram_bytes ms ≤ u64_max ∧
    out = (models ++ zip_with admitted_model requests ms,
           v + zsum peak_vram ms, w + zsum pm_p99_total_ram_bytes ms).

Lemma selection_nil fingerprint roles models v w out :
  v ≤ u64_max → w ≤ u64_max →
  selection fingerprint [] roles models v w out ↔ out = (models, v, w).
Proof.
  intros Hv Hw. split.
  - intros (ms&Hms&_&_&_&_&->). apply Forall2_nil_inv_l in Hms as ->. cbn.
    by rewrite app_nil_r, !Z.add_0_r.
  - intros ->. exists []. cbn. rewrite app_nil_r, !Z.add_0_r.
    split_and!; (done || constructor || lia).
Qed.

Lemma fresh_role {A} (f : A → ModelPackKindV1) r requests roles :
  Forall (λ x, f x ∉ ({[f r]} ∪ roles : gset _)) requests ↔
  f r ∉ f <$> requests ∧ Forall (λ x, f x ∉ roles) requests.
Proof.
  rewrite !Forall_forall, list_elem_of_fmap. setoid_rewrite elem_of_union.
  setoid_rewrite elem_of_singleton. split.
  - intros Hall. split; [|naive_solver]. intros (x&Heq&Hin). apply (Hall x Hin). by left.
  - intros [Hnin Hall] x Hin [Heq|Hr]; [|by apply (Hall x)]. apply Hnin. by exists x.
Qed.

Lemma measurements_nonneg fingerprint requests ms :
  requests_measured requests → Forall2 (request_ok fingerprint) requests ms →
  0 ≤ zsum peak_vram ms ∧ 0 ≤ zsum pm_p99_total_ram_bytes ms.
Proof.
  intros Hm Hms. assert (Forall measured ms) as Hall.
  { revert Hm. induction Hms as [|r m ? ? [_ _ Hp] _ IH]; [constructor|].
    intros [Hr Hm]%Forall_cons. constructor; [by apply Hr|by apply IH]. }
  split; apply zsum_nonneg; (eapply Forall_impl; [exact Hall|]);
    intros x (?&?&?); unfold peak_vram; lia.
Qed.

Lemma selection_cons fingerprint r requests roles models v w out :
  requests_measured (r :: requests) → 0 ≤ v → 0 ≤ w →
  selection fingerprint (r :: requests) roles models v w out ↔
  ∃ m, lr_role r ∉ roles ∧ request_ok fingerprint r m ∧
    v + peak_vram m ≤ u64_max ∧ w + pm_p99_total_ram_bytes m ≤ u64_max ∧
    selection fingerprint requests ({[lr_role r]} ∪ roles) (models ++ [admitted_model r m])
      (v + peak_vram m) (w + pm_p99_total_ram_bytes m) out.
Proof.
  intros [_ Hm]%Forall_cons Hv Hw. unfold selection. setoid_rewrite fresh_role. split.
  - intros (ms&Hms&Hnd&Hroles&Hv'&Hw'&->). apply Forall2_cons_inv_l in Hms as (m&ms'&Hm1&Hm2&->).
    rewrite fmap_cons in Hnd. apply NoDup_cons in Hnd as [Hnin Hnd].
    apply Forall_cons in Hroles as [Hr1 Hr2]. destruct (measurements_nonneg _ _ _ Hm Hm2) as [Hn1 Hn2].
    change (zsum ?f (m :: ms')) with (f m + zsum f ms') in *. exists m.
    split_and!; [done..|lia|lia|]. exists ms'. cbn [zip_with]. rewrite !Z.add_assoc, <-app_assoc in *.
    by split_and!.
  - intros (m&Hr1&Hm1&_&_&ms&Hm2&Hnd&[Hnin Hr2]&Hv'&Hw'&->). exists (m :: ms).
    change (zsum ?f (m :: ms)) with (f m + zsum f ms). rewrite fmap_cons. cbn [zip_with].
    rewrite !Z.add_assoc, <-app_assoc. split_and!; try done; by constructor.
Qed.

Lemma select_models_Ok fingerprint requests roles models v w out :
  requests_measured requests → 0 ≤ v ≤ u64_max → 0 ≤ w ≤ u64_max →
  select_models fingerprint requests roles models v w = Ok out ↔
  selection fingerprint requests roles models v w out.
Proof.
  revert roles models v w. induction requests as [|r requests IH];
    intros roles models v w Hm Hv Hw; cbn [select_models].
  { rewrite selection_nil by lia. naive_solver. }
  rewrite selection_cons by (done || lia). apply Forall_cons in Hm as [Hr Hm].
  destruct (bool_decide_reflect (lr_role r ∈ roles)) as [Hin|Hnin]; [naive_solver|].
  unfold str_eqb. destruct (bool_decide_reflect (mp_device_fingerprint_sha256
    (qe_payload (lr_envelope r)) = fingerprint)) as [Hdev|Hdev]; cbn [negb].
  2:{ split; [done|]. intros (m&_&[Hd _ _]&_). by destruct Hdev. }
  destruct (bool_decide_reflect (mp_capability (qe_payload (lr_envelope r)) = lr_role r)) as [Hcap|Hcap];
    cbn [negb].
  2:{ split; [done|]. intros (m&_&[_ Hc _]&_). by destruct Hcap. }
  destruct (placement (lr_mode r) (lr_envelope r)) as [m|] eqn:Hp; cbn [ok_or mbind result_bind].
  2:{ split; [done|]. intros (m&_&[??Hp']&_). congruence. }
  destruct (Hr m eq_refl) as (Hr1&Hr2&Hr3).
  rewrite bind_Ok. setoid_rewrite bind_Ok. setoid_rewrite bind_Ok. setoid_rewrite checked_sum_Ok.
  unfold peak_vram in *. split.
  - intros (?&[-> ?]&?&[-> ?]&?&[-> ?]&Hs). exists m. split_and!; try done.
    apply IH in Hs; (done || lia).
  - intros (m'&_&[_ _ Hp']&?&?&Hs). rewrite Hp in Hp'. injection Hp' as <-.
    eexists. split; [split; [done|lia]|]. eexists. split; [by split|].
    eexists. split; [by split|]. apply IH; (done || lia).
Qed.

(** ** Admission *)

Record snapshot_ok (policy : ResourceGovernorPolicyV1) (now : Z) (s : LiveResourceSnapshotV1) : Prop := {
  sn_present : ls_captured_monotonic_millis s ≠ 0 ∧ ls_physical_vram_bytes s ≠ 0 ∧
    ls_os_vram_budget_bytes s ≠ 0 ∧ ls_physical_ram_bytes s ≠ 0 ∧ ls_available_ram_bytes s ≠ 0;
  sn_consistent : ls_os_vram_budget_bytes s ≤ ls_physical_vram_bytes s ∧
    ls_available_ram_bytes s ≤ ls_physical_ram_bytes s ∧
    ls_desktop_resident_vram_bytes s ≤ ls_os_vram_budget_bytes s ∧
    ls_game_resident_vram_bytes s ≤ ls_os_vram_budget_bytes s;
  sn_age : 0 ≤ now - ls_captured_monotonic_millis s ≤ gp_maximum_snapshot_age_millis policy
}.

(** The fields of [u64] structures. *)
Record governor_range (policy : ResourceGovernorPolicyV1) (s : LiveResourceSnapshotV1) : Prop := {
  rg_policy : 0 ≤ gp_vram_soft_ceiling_basis_points policy ∧ 0 ≤ gp_ram_soft_ceiling_basis_points policy ∧
    0 ≤ gp_minimum_vram_safety_bytes policy ∧ 0 ≤ gp_proportional_vram_safety_basis_points policy ∧
    0 ≤ gp_minimum_ram_safety_bytes policy;
  rg_snapshot : in_u64 (ls_os_vram_budget_bytes s) ∧ in_u64 (ls_physical_ram_bytes s) ∧
    in_u64 (ls_available_ram_bytes s) ∧ 0 ≤ ls_desktop_resident_vram_bytes s ∧
    0 ≤ ls_game_resident_vram_bytes s ∧ 0 ≤ ls_game_reserve_vram_bytes s ∧
    0 ≤ ls_game_additional_reserve_ram_bytes s
}.

Definition vram_limit (policy : ResourceGovernorPolicyV1) (s : LiveResourceSnapshotV1) : Z :=
  ls_os_vram_budget_bytes s * gp_vram_soft_ceiling_basis_points policy / BASIS_POINTS.
Definition ram_limit (policy : ResourceGovernorPolicyV1) (s : LiveResourceSnapshotV1) : Z :=
  ls_available_ram_bytes s
    `min` (ls_physical_ram_bytes s * gp_ram_soft_ceiling_basis_points policy / BASIS_POINTS).

(** What the game and the desktop keep, and the margin on top. *)
Definition protected_vram (s : LiveResourceSnapshotV1) : Z :=
  ls_desktop_resident_vram_bytes s + ls_game_resident_vram_bytes s `max` ls_game_reserve_vram_bytes s.
Definition vram_margin (policy : ResourceGovernorPolicyV1) (s : LiveResourceSnapshotV1) : Z :=
  gp_minimum_vram_safety_bytes policy
    `max` (ls_os_vram_budget_bytes s * gp_proportional_vram_safety_basis_points policy / BASIS_POINTS).

Record loadout_fits (policy : ResourceGovernorPolicyV1) (s : LiveResourceSnapshotV1)
    (ms : list PlacementMeasurementV1) : Prop := {
  lf_vram : protected_vram s + zsum peak_vram ms + vram_margin policy s ≤ vram_limit policy s;
  lf_ram : zsum pm_p99_total_ram_bytes ms + ls_game_additional_reserve_ram_bytes s
             + gp_minimum_ram_safety_bytes policy ≤ ram_limit policy s;
  lf_scaled : ls_os_vram_budget_bytes s * gp_vram_soft_ceiling_basis_points policy ≤ u64_max ∧
    ls_os_vram_budget_bytes s * gp_proportional_vram_safety_basis_points policy ≤ u64_max ∧
    ls_physical_ram_bytes s * gp_ram_soft_ceiling_basis_points policy ≤ u64_max
}.

Definition admission_of (policy : ResourceGovernorPolicyV1) (s : LiveResourceSnapshotV1)
    (requests : list LoadoutModelRequestV1) (ms : list PlacementMeasurementV1) : LoadoutAdmissionV1 := {|
  la_snapshot_monotonic_millis := ls_captured_monotonic_millis s;
  la_device_fingerprint_sha256 := ls_device_fingerprint_sha256 s;
  la_models := sort_by (λ l r, ocmp (am_role l) (am_role r)) (zip_with admitted_model requests ms);
  la_vram_soft_ceiling_bytes := vram_limit policy s;
  la_protected_desktop_and_game_vram_bytes := protected_vram s;
  la_selected_peak_vram_bytes := zsum peak_vram ms;
  la_vram_safety_bytes := vram_margin policy s;
  la_projected_total_vram_bytes := protected_vram s + zsum peak_vram ms + vram_margin policy s;
  la_ram_soft_ceiling_bytes := ram_limit policy s;
  la_selected_peak_ram_bytes := zsum pm_p99_total_ram_bytes ms;
  la_ram_safety_bytes := gp_minimum_ram_safety_bytes policy |}.

Lemma governor_policy_validate_Ok policy :
  governor_policy_validate policy = Ok tt →
  gp_vram_soft_ceiling_basis_points policy ≤ BASIS_POINTS ∧
  gp_ram_soft_ceiling_basis_points policy ≤ BASIS_POINTS ∧
  gp_proportional_vram_safety_basis_points policy ≤ BASIS_POINTS ∧
  gp_keep_warm_millis policy ≤ gp_unload_ttl_millis policy.
Proof.
  unfold governor_policy_validate. rewrite bind_unit_Ok, !ensure_Ok, negb_true_iff, !orb_false_iff. lia.
Qed.

Lemma validate_snapshot_Ok s now policy :
  validate_snapshot s now policy = Ok tt ↔ snapshot_ok policy now s.
Proof.
  unfold validate_snapshot. rewrite !bind_unit_Ok, !ensure_Ok, negb_true_iff, !orb_false_iff. split.
  - intros (Hs&Hf&Ha). constructor; lia.
  - intros [? ? ?]. lia.
Qed.

Lemma basis_points_le value bps :
  0 ≤ value → 0 ≤ bps ≤ BASIS_POINTS → 0 ≤ value * bps / BASIS_POINTS ≤ value.
Proof.
  unfold BASIS_POINTS. intros Hv Hb. split; [apply Z.div_pos; nia|].
  apply Z.div_le_upper_bound; nia.
Qed.

(** What fits is in range. *)
Lemma fits_bounded policy s now ms :
  governor_policy_validate policy = Ok tt → governor_range policy s → snapshot_ok policy now s →
  loadout_fits policy s ms →
  zsum peak_vram ms ≤ u64_max ∧ zsum pm_p99_total_ram_bytes ms ≤ u64_max.
Proof.
  intros (Hb1&Hb2&Hb3&_)%governor_policy_validate_Ok [Hp Hs] _ [Hv Hw _].
  unfold protected_vram, vram_margin, vram_limit, ram_limit in *.
  destruct (basis_points_le (ls_os_vram_budget_bytes s) (gp_vram_soft_ceiling_basis_points policy));
    [unfold in_u64 in *; lia..|].
  unfold in_u64 in *. lia.
Qed.

Lemma admit_selected_Ok policy s now requests ms a :
  governor_policy_validate policy = Ok tt → governor_range policy s → snapshot_ok policy now s →
  0 ≤ zsum peak_vram ms → 0 ≤ zsum pm_p99_total_ram_bytes ms →
  admit_selected policy s (zip_with admitted_model requests ms) (zsum peak_vram ms)
    (zsum pm_p99_total_ram_bytes ms) = Ok a ↔
  loadout_fits policy s ms ∧ a = admission_of policy s requests ms.
Proof.
  intros (Hb1&Hb2&Hb3&_)%governor_policy_validate_Ok [Hp Hs] [_ Hc _] Hv Hw.
  unfold admit_selected. rewrite Z.min_r by lia.
  destruct (basis_points_le (ls_os_vram_budget_bytes s) (gp_vram_soft_ceiling_basis_points policy));
    [unfold in_u64 in *; lia..|].
  destruct (basis_points_le (ls_os_vram_budget_bytes s)
    (gp_proportional_vram_safety_basis_points policy)); [unfold in_u64 in *; lia..|].
  destruct (basis_points_le (ls_physical_ram_bytes s) (gp_ram_soft_ceiling_basis_points policy));
    [unfold in_u64 in *; lia..|].
  setoid_rewrite bind_Ok. setoid_rewrite basis_points_Ok.
  setoid_rewrite bind_Ok. setoid_rewrite checked_sum_Ok.
  setoid_rewrite bind_Ok. setoid_rewrite basis_points_Ok. cbn zeta.
  setoid_rewrite bind_Ok. setoid_rewrite checked_sum_Ok.
  setoid_rewrite bind_Ok. setoid_rewrite checked_sum_Ok.
  setoid_rewrite bind_unit_Ok. setoid_rewrite ensure_Ok.
  setoid_rewrite bind_Ok. setoid_rewrite basis_points_Ok.
  setoid_rewrite bind_Ok. setoid_rewrite checked_sum_Ok.
  setoid_rewrite bind_Ok. setoid_rewrite checked_sum_Ok.
  setoid_rewrite bind_unit_Ok. setoid_rewrite ensure_Ok.
  assert (∀ P : Prop, loadout_fits policy s ms ∧ P ↔
    ls_os_vram_budget_bytes s * gp_vram_soft_ceiling_basis_points policy ≤ u64_max ∧
    ls_os_vram_budget_bytes s * gp_proportional_vram_safety_basis_points policy ≤ u64_max ∧
    ls_physical_ram_bytes s * gp_ram_soft_ceiling_basis_points policy ≤ u64_max ∧
    protected_vram s + zsum peak_vram ms + vram_margin policy s ≤ vram_limit policy s ∧
    zsum pm_p99_total_ram_bytes ms + ls_game_additional_reserve_ram_bytes s
      + gp_minimum_ram_safety_bytes policy ≤ ram_limit policy s ∧ P) as ->.
  { intros P. split; [intros [[? ? (?&?&?)] ?]|intros (?&?&?&?&?&?)]; by repeat split. }
  unfold admission_of, protected_vram, vram_limit, vram_margin, ram_limit in *. split.
  - intros (?&[-> ?]&?&[-> ?]&?&[-> ?]&?&[-> ?]&?&[-> ?]&Hvf&?&[-> ?]&?&[-> ?]&?&[-> ?]&Hrf&[= <-]).
    rewrite Z.leb_le in Hvf, Hrf. by split_and!.
  - unfold in_u64 in *. intros (?&?&?&Hvf&Hrf&->).
    do 5 (eexists; split; [split; [reflexivity|lia]|]). split; [lia|].
    do 3 (eexists; split; [split; [reflexivity|lia]|]). by split; [lia|].
Qed.

(** C17: a loadout is admitted exactly when it fits. For a valid policy and any
    snapshot: admission succeeds if and only if the snapshot is fresh and consistent,
    the requested roles are distinct, every model was measured on this device, in the
    role and placement it is requested for, and in unbounded arithmetic the peak video
    memory of all of them together with what the desktop and the game hold or reserve
    and the safety margin stays within the soft ceiling, and likewise their memory
    with the reserve of the game; no sum overflows. The receipt states exactly these
    numbers and lists the models by role. *)
Theorem admission_exact policy s now requests a :
  governor_policy_validate policy = Ok tt → governor_range policy s → requests_measured requests →
  governor_admit policy s now requests = Ok a ↔
  snapshot_ok policy now s ∧ requests ≠ [] ∧ NoDup (lr_role <$> requests) ∧
  ∃ ms, Forall2 (request_ok (ls_device_fingerprint_sha256 s)) requests ms ∧
    loadout_fits policy s ms ∧ a = admission_of policy s requests ms.
Proof.
  intros Hpol Hrange Hm. unfold governor_admit.
  rewrite !bind_unit_Ok, validate_snapshot_Ok, ensure_Ok, negb_true_iff, bool_decide_eq_false, bind_Ok.
  split.
  - intros (Hs&Hne&[[models v] w]&Hsel&Ha). apply select_models_Ok in Hsel as (ms&Hms&Hnd&_&_&_&[= -> -> ->]);
      [|done|unfold u64_max; lia..].
    destruct (measurements_nonneg _ _ _ Hm Hms). apply (admit_selected_Ok _ _ now) in Ha as [Hf ->]; [|done..].
    split_and!; try done. by exists ms.
  - intros (Hs&Hne&Hnd&ms&Hms&Hf&->). destruct (measurements_nonneg _ _ _ Hm Hms).
    split_and!; try done. exists (zip_with admitted_model requests ms, zsum peak_vram ms,
      zsum pm_p99_total_ram_bytes ms). split.
    + apply select_models_Ok; [done|unfold u64_max; lia..|]. exists ms.
      destruct (fits_bounded policy s now ms) as [Hv Hw]; try done.
      split_and!; try done. apply Forall_forall. intros r _. set_solver.
    + by apply (admit_selected_Ok _ _ now).
Qed.

(** ** Residency *)

(** The action a record is due after [now - last used] idle milliseconds. *)
Definition action_due (t : ResidencyTrackerV1) (now : Z) (k : PackRevision) (r : ResidencyRecordV1)
    : option ResidencyActionV1 :=
  let idle := now - rr_last_used_monotonic_millis r in
  if rt_unload_ttl_millis t <=? idle then Some (Unload k) else
  if (rt_keep_warm_millis t <=? idle) && bool_decide (rr_state r = GpuWarm)
     && rr_cpu_fallback_supported r
  then Some (DropGpuKeepCpu k) else None.

(** What remains of the record. *)
Definition residency_after (t : ResidencyTrackerV1) (now : Z) (k : PackRevision) (r : ResidencyRecordV1)
    : option ResidencyRecordV1 :=
  if bool_decide (rr_state r = Unloaded) then None else
  match action_due t now k r with
  | Some (Unload _) => None
  | Some (DropGpuKeepCpu _) => Some (set_state StateCpuResidentGpuCold r)
  | None => Some r
  end.

Definition clocks_behind (now : Z) (records : gmap PackRevision ResidencyRecordV1) : Prop :=
  map_Forall (λ _ r, rr_last_used_monotonic_millis r ≤ now) records.

Lemma maintenance_loop_spec now ids t actions :
  NoDup ids → clocks_behind now (rt_records t) →
  ∃ records, maintenance_loop now ids t actions =
    (set_records records t, Ok (actions ++ omap (λ k, r ← rt_records t !! k; action_due t now k r) ids)) ∧
    ∀ k, records !! k = if bool_decide (k ∈ ids)
      then (λ r, (maintain t k r (now - rr_last_used_monotonic_millis r)).1) <$> rt_records t !! k
      else rt_records t !! k.
Proof.
  intros Hnd. revert t actions. induction Hnd as [|k ids Hk Hnd IH]; intros t actions Hc;
    cbn [maintenance_loop omap list_omap].
  { exists (rt_records t). rewrite app_nil_r. split; [by destruct t|done]. }
  destruct (rt_records t !! k) as [r|] eqn:Hr; cbn [mbind option_bind].
  2:{ destruct (IH t actions Hc) as (records&->&Hrec). exists records. split; [done|]. intros k'.
      rewrite Hrec. destruct (decide (k' = k)) as [->|Hne].
      - rewrite !Hr. by do 2 case_bool_decide.
      - do 2 case_bool_decide; set_solver. }
  assert (rr_last_used_monotonic_millis r ≤ now) as Hle by (by apply (Hc k)).
  destruct (Z.ltb_spec now (rr_last_used_monotonic_millis r)); [lia|].
  assert ((maintain t k r (now - rr_last_used_monotonic_millis r)).2 = action_due t now k r) as Ha.
  { unfold maintain, action_due. by repeat case_match. }
  assert (rr_last_used_monotonic_millis (maintain t k r (now - rr_last_used_monotonic_millis r)).1
    = rr_last_used_monotonic_millis r) as Hl by (unfold maintain; by repeat case_match).
  destruct (maintain t k r _) as [r' action] eqn:Hmt. cbn [fst snd] in Ha, Hl. subst action.
  destruct (IH (set_records (<[k:=r']> (rt_records t)) t) (actions ++ option_list (action_due t now k r)))
    as (records&->&Hrec).
  { intros k' r1 Hk'. cbn in Hk'. apply lookup_insert_Some in Hk' as [[_ <-]|[_ Hk']]; [lia|by apply (Hc k')]. }
  exists records. split.
  - f_equal. f_equal. rewrite <-app_assoc. f_equal. cbn [rt_records set_records].
    rewrite (list_omap_ext _ (λ k0, r0 ← rt_records t !! k0; action_due t now k0 r0)) with (l2 := ids).
    + by destruct (action_due t now k r).
    + apply Forall_Forall2_diag, Forall_forall. intros k' Hk'.
      by rewrite lookup_insert_ne by (intros ->; done).
  - intros k'. rewrite Hrec. cbn [rt_records set_records]. destruct (decide (k' = k)) as [->|Hne].
    + rewrite lookup_insert_eq, bool_decide_false, bool_decide_true, Hr by set_solver. cbn. by rewrite Hmt.
    + rewrite lookup_insert_ne by done. do 2 case_bool_decide; try set_solver.
Qed.

Lemma omap_keys {B} (f : PackRevision → ResidencyRecordV1 → option B) m :
  omap (λ k, r ← m !! k; f k r) (btree_keys m) = omap (λ kr, f kr.1 kr.2) (btree_iter m).
Proof.
  unfold btree_keys.
  assert (Forall (λ kr : PackRevision * ResidencyRecordV1, m !! kr.1 = Some kr.2) (btree_iter m)) as Hl.
  { apply Forall_forall. intros [k r] Hin. by apply btree_iter_elem. }
  induction Hl as [|[k r] l Hk _ IH]; [done|]. cbn in *. rewrite Hk. cbn.
  by destruct (f k r); rewrite IH.
Qed.

Lemma maintenance_spec now t :
  clocks_behind now (rt_records t) →
  ∃ records, maintenance_actions now t =
    (set_records records t, Ok (omap (λ kr, action_due t now kr.1 kr.2) (btree_iter (rt_records t)))) ∧
    ∀ k, records !! k = (rt_records t !! k ≫= residency_after t now k).
Proof.
  intros Hc. unfold maintenance_actions.
  destruct (maintenance_loop_spec now (btree_keys (rt_records t)) t []) as (records&->&Hrec);
    [apply btree_keys_NoDup|done|].
  rewrite omap_keys. cbn [app]. eexists. split; [done|]. intros k. cbn [rt_records set_records].
  rewrite map_lookup_filter, Hrec. destruct (rt_records t !! k) as [r|] eqn:Hr.
  2:{ by case_bool_decide. }
  rewrite bool_decide_true by (apply btree_keys_elem; by exists r). cbn.
  unfold maintain, residency_after, action_due.
  destruct (rt_unload_ttl_millis t <=? _); cbn; [by case_bool_decide|].
  destruct ((_ <=? _) && _ && _) eqn:E; cbn.
  - apply andb_prop in E as [[_ E%bool_decide_eq_true]%andb_prop _].
    rewrite option_guard_True by done. by rewrite E.
  - destruct (bool_decide_reflect (rr_state r = Unloaded)) as [Hu|Hu];
      [by rewrite option_guard_False by naive_solver|by rewrite option_guard_True].
Qed.

(** maintenance does what each record is due, and does it once. As long as no
    record was used later than the present clock: the actions are, in the order of
    the identities, an unload for each record idle for the unload time and a drop of
    the GPU copy for each warm one with a fallback idle for the keep-warm time; the
    unloaded records are gone, the dropped ones are marked, the others are as they
    were; and asking again at once gives no action and changes nothing. *)
Theorem maintenance_exact now t :
  clocks_behind now (rt_records t) →
  ∃ t', maintenance_actions now t =
    (t', Ok (omap (λ kr, action_due t now kr.1 kr.2) (btree_iter (rt_records t)))) ∧
    (∀ k, rt_records t' !! k = (rt_records t !! k ≫= residency_after t now k)) ∧
    maintenance_actions now t' = (t', Ok []).
Proof.
  intros Hc. destruct (maintenance_spec now t Hc) as (records&->&Hrec).
  exists (set_records records t). split; [done|]. split; [done|].
  assert (map_Forall (λ k r, rr_last_used_monotonic_millis r ≤ now ∧ rr_state r ≠ Unloaded ∧
    action_due t now k r = None) records) as Hdone.
  { intros k r' Hk. rewrite Hrec in Hk. destruct (rt_records t !! k) as [r|] eqn:Hr; [|done]. cbn in Hk.
    specialize (Hc k r Hr). unfold residency_after in Hk. case_bool_decide; [done|].
    destruct (action_due t now k r) as [[]|] eqn:Ha; simplify_eq; [|done].
    split; [done|]. split; [done|]. unfold action_due in *. cbn.
    destruct (rt_unload_ttl_millis t <=? _); [done|]. by rewrite andb_false_r. }
  destruct (maintenance_spec now (set_records records t)) as (records'&->&Hrec').
  { intros k r Hk. by apply (Hdone k r). }
  cbn [rt_records set_records] in Hrec' |- *. f_equal.
  - unfold set_records. cbn. f_equal. apply map_eq. intros k. rewrite Hrec'.
    destruct (records !! k) as [r|] eqn:Hk; [|done]. destruct (Hdone k r Hk) as (_&Hs&Ha).
    cbn. unfold residency_after. rewrite bool_decide_false by done.
    change (action_due (set_records records t) now k r) with (action_due t now k r). by rewrite Ha.
  - f_equal. apply omap_none, Forall_forall. intros [k r] Hin%btree_iter_elem. by apply (Hdone k r).
Qed.

(** The clock of one record stops the maintenance of all, and the drop of the GPU copy
    it already marked is never reported: a later call has nothing left to say. *)
Definition lost_key (name : string) : PackRevision := {|
  pr_pack_id := lit name; pr_revision := lit "1" |}.

Definition lost_tracker : ResidencyTrackerV1 := {|
  rt_keep_warm_millis := 30000; rt_unload_ttl_millis := 120000;
  rt_records := {[
    lost_key "a" := {| rr_identity := lost_key "a"; rr_state := GpuWarm;
      rr_cpu_fallback_supported := true; rr_last_used_monotonic_millis := 1000 |};
    lost_key "b" := {| rr_identity := lost_key "b"; rr_state := CpuWarm;
      rr_cpu_fallback_supported := false; rr_last_used_monotonic_millis := 50001 |} ]} |}.

Lemma maintenance_loses_actions :
  (maintenance_actions 50000 lost_tracker).2 = Err ResidencyClockWentBackward ∧
  (maintenance_actions 50001 (maintenance_actions 50000 lost_tracker).1).2 = Ok [] ∧
  (maintenance_actions 50001 lost_tracker).2 = Ok [DropGpuKeepCpu (lost_key "a")].
Proof. split_and!; vm_compute; reflexivity. Qed.
