(* ===== verification/Scheduler.v ===== *)
(** * The work scheduler
    ([WorkSchedulerV1] of [crates/model-manager/src/resource_governor.rs])

    A bounded queue of local inference work: priorities by kind, first in first out
    within one, preemption of background work, a clock of frames that makes visual
    work stale, and shedding under pressure. Only queued work is cancelled. *)

From S2P Require Import Prelude Text Measurement.

#[local] Open Scope Z_scope.

Inductive WorkKindV1 :=
| WorkLipSync | WorkSpeechRecognition | WorkSpeechSynthesis | WorkLanguageModel | WorkVision
| WorkEmbedding.
#[export] Instance WorkKindV1_eq_dec : EqDecision WorkKindV1.
Proof. solve_decision. Defined.

Definition work_priority (k : WorkKindV1) : Z :=
  match k with
  | WorkLipSync => 6 | WorkSpeechRecognition => 5 | WorkSpeechSynthesis => 4
  | WorkLanguageModel => 3 | WorkVision => 2 | WorkEmbedding => 1
  end.

Definition is_interactive (k : WorkKindV1) : bool :=
  match k with
  | WorkLipSync | WorkSpeechRecognition | WorkSpeechSynthesis | WorkLanguageModel => true
  | _ => false
  end.

Definition is_visual (k : WorkKindV1) : bool :=
  match k with WorkLipSync | WorkVision => true | _ => false end.

(** The derived order: declaration order. *)
Definition work_kind_rank (k : WorkKindV1) : Z :=
  match k with
  | WorkLipSync => 0 | WorkSpeechRecognition => 1 | WorkSpeechSynthesis => 2
  | WorkLanguageModel => 3 | WorkVision => 4 | WorkEmbedding => 5
  end.
#[export] Instance WorkKindV1_countable : Countable WorkKindV1.
Proof.
  refine (inj_countable' work_kind_rank
    (λ n, match n with 0 => WorkLipSync | 1 => WorkSpeechRecognition | 2 => WorkSpeechSynthesis
          | 3 => WorkLanguageModel | 4 => WorkVision | _ => WorkEmbedding end) _).
  by intros [].
Defined.

Record VisualWorkAddressV1 := {
  va_generation_id : Z;
  va_frame_id : Z
}.

Record WorkItemV1 := {
  wi_work_id : str;
  wi_kind : WorkKindV1;
  wi_submitted_monotonic_millis : Z;
  wi_deadline_monotonic_millis : Z;
  wi_visual : option VisualWorkAddressV1
}.

Inductive CancellationReasonV1 :=
| PreemptedByInteractive | SupersededVisualWork | CancelStaleGeneration | StaleFrame
| DeadlineExpired | QueuePressure | QueueCapacity | CancelledByNativeRuntime | AdmissionRevoked.

Record WorkCancellationV1 := {
  wc_work_id : str;
  wc_reason : CancellationReasonV1
}.

Record WorkSubmitResultV1 := {
  ws_accepted : bool;
  ws_cancellations : list WorkCancellationV1
}.

Inductive ResourcePressureLevelV1 := PressureNormal | PressureElevated | PressureCritical.

Inductive WorkSchedulerError :=
| InvalidQueuePolicy | InvalidWorkId | InvalidDeadline | InvalidVisualAddress | DuplicateWorkId
| VisualClockWentBackward | SequenceOverflow.

Record ScheduledWorkV1 := {
  sw_sequence : Z;
  sw_item : WorkItemV1
}.

(** [WorkQueuePolicyV1] has the one field [maximum_pending]. *)
Record WorkSchedulerV1 := {
  wk_maximum_pending : Z;
  wk_sequence : Z;
  wk_pending : gmap str ScheduledWorkV1;
  wk_visual_generation_id : Z;
  wk_visual_frame_id : Z
}.

Definition set_pending (pending : gmap str ScheduledWorkV1) (s : WorkSchedulerV1) : WorkSchedulerV1 := {|
  wk_maximum_pending := wk_maximum_pending s; wk_sequence := wk_sequence s; wk_pending := pending;
  wk_visual_generation_id := wk_visual_generation_id s; wk_visual_frame_id := wk_visual_frame_id s |}.
Definition set_visual_clock (generation_id frame_id : Z) (s : WorkSchedulerV1) : WorkSchedulerV1 := {|
  wk_maximum_pending := wk_maximum_pending s; wk_sequence := wk_sequence s; wk_pending := wk_pending s;
  wk_visual_generation_id := generation_id; wk_visual_frame_id := frame_id |}.

(** [WorkQueuePolicyV1::validate] and [WorkSchedulerV1::with_policy]. *)
Definition scheduler_with_policy (maximum_pending : Z) : result WorkSchedulerError WorkSchedulerV1 :=
  if (maximum_pending =? 0) || (65536 <? maximum_pending) then Err InvalidQueuePolicy else
  Ok {| wk_maximum_pending := maximum_pending; wk_sequence := 0; wk_pending := ∅;
        wk_visual_generation_id := 0; wk_visual_frame_id := 0 |}.

(** [WorkSchedulerV1::default]. *)
Definition scheduler_default : WorkSchedulerV1 := {|
  wk_maximum_pending := 256; wk_sequence := 0; wk_pending := ∅; wk_visual_generation_id := 0;
  wk_visual_frame_id := 0 |}.

Definition validate_work_item (item : WorkItemV1) (now : Z) : result WorkSchedulerError unit :=
  _ ← match validate_token (lit "work_id") (wi_work_id item) 8 128 with
      | Ok _ => Ok tt
      | Err _ => Err InvalidWorkId
      end;
  _ ← ensure (negb ((wi_submitted_monotonic_millis item =? 0)
                    || (now <? wi_submitted_monotonic_millis item)
                    || (wi_deadline_monotonic_millis item <=? now)
                    || (wi_deadline_monotonic_millis item <? wi_submitted_monotonic_millis item)))
        InvalidDeadline;
  _ ← ensure (Bool.eqb (is_visual (wi_kind item)) (is_some (wi_visual item))) InvalidVisualAddress;
  ensure (negb (is_some_and (wi_visual item) (λ v,
    (va_generation_id v =? 0) || (va_frame_id v =? 0)))) InvalidVisualAddress.

(** An address behind the clock, with the reason to cancel it. *)
Definition stale_reason (generation_id frame_id : Z) (visual : option VisualWorkAddressV1)
    : option CancellationReasonV1 :=
  match visual with
  | Some v =>
      if va_generation_id v <? generation_id then Some CancelStaleGeneration else
      if (va_generation_id v =? generation_id) && (va_frame_id v <? frame_id) then Some StaleFrame
      else None
  | None => None
  end.

(** The loops over [pending_ids]: each pending work [reason] speaks against is removed. *)
Fixpoint cancel_loop (reason : WorkItemV1 → option CancellationReasonV1) (ids : list str)
    (pending : gmap str ScheduledWorkV1) (cancellations : list WorkCancellationV1)
    : gmap str ScheduledWorkV1 * list WorkCancellationV1 :=
  match ids with
  | [] => (pending, cancellations)
  | id :: ids =>
      match (scheduled ← pending !! id; reason (sw_item scheduled)) with
      | Some why =>
          cancel_loop reason ids (delete id pending)
            (cancellations ++ [{| wc_work_id := id; wc_reason := why |}])
      | None => cancel_loop reason ids pending cancellations
      end
  end.

Definition cancel_where (reason : WorkItemV1 → option CancellationReasonV1) (s : WorkSchedulerV1)
    : WorkSchedulerV1 * list WorkCancellationV1 :=
  let '(pending, cancellations) := cancel_loop reason (btree_keys (wk_pending s)) (wk_pending s) [] in
  (set_pending pending s, cancellations).

(** [Iterator::min_by_key] gives the first minimum, [max_by_key] the last maximum. *)
Definition min_by_key {A} (key : A → Z * Z) (l : list A) : option A :=
  foldl (λ best x, match best with
    | Some b => if match ocmp (key x) (key b) with Lt => true | _ => false end then Some x else Some b
    | None => Some x end) None l.
Definition max_by_key {A} (key : A → Z * Z) (l : list A) : option A :=
  foldl (λ best x, match best with
    | Some b => if match ocmp (key x) (key b) with Lt => false | _ => true end then Some x else Some b
    | None => Some x end) None l.

(** ** Submission *)

(** Why a submission displaces an item already queued. *)
Definition displaced_by (item : WorkItemV1) (s : WorkSchedulerV1) (existing : WorkItemV1)
    : option CancellationReasonV1 :=
  match stale_reason (wk_visual_generation_id s) (wk_visual_frame_id s) (wi_visual existing) with
  | Some reason => Some reason
  | None =>
      if is_interactive (wi_kind item)
         && match wi_kind existing with WorkEmbedding | WorkVision => true | _ => false end
      then Some PreemptedByInteractive else
      if is_visual (wi_kind item) && is_visual (wi_kind existing)
         && bool_decide (wi_kind existing = wi_kind item)
      then Some SupersededVisualWork else None
  end.

(** A full queue: its lowest work goes if the new one has a higher priority, and else
    [None] of cancellations says that the new one is refused. The outer [None] is the
    panic of the [expect] on an empty queue. *)
Definition make_room (item : WorkItemV1) (s : WorkSchedulerV1)
    : option (WorkSchedulerV1 * option (list WorkCancellationV1)) :=
  if Z.of_nat (size (wk_pending s)) <? wk_maximum_pending s then Some (s, Some []) else
  '(lowest, scheduled) ← min_by_key
    (λ kv, (work_priority (wi_kind (sw_item kv.2)), sw_sequence kv.2)) (btree_iter (wk_pending s));
  if work_priority (wi_kind (sw_item scheduled)) <? work_priority (wi_kind item)
  then Some (set_pending (delete lowest (wk_pending s)) s,
             Some [{| wc_work_id := lowest; wc_reason := QueueCapacity |}])
  else Some (s, None).

Definition insert_work (item : WorkItemV1) (s : WorkSchedulerV1) : WorkSchedulerV1 := {|
  wk_maximum_pending := wk_maximum_pending s; wk_sequence := wk_sequence s + 1;
  wk_pending := <[wi_work_id item := {| sw_sequence := wk_sequence s + 1; sw_item := item |}]>
                  (wk_pending s);
  wk_visual_generation_id := wk_visual_generation_id s; wk_visual_frame_id := wk_visual_frame_id s |}.

Definition refused (item : WorkItemV1) (reason : CancellationReasonV1)
    (cancellations : list WorkCancellationV1) : WorkSubmitResultV1 := {|
  ws_accepted := false;
  ws_cancellations := cancellations ++ [{| wc_work_id := wi_work_id item; wc_reason := reason |}] |}.

(** What [submit] does once the address of the item is not behind the clock. *)
Definition submit_current (item : WorkItemV1) (s : WorkSchedulerV1)
    : option (WorkSchedulerV1 * result WorkSchedulerError WorkSubmitResultV1) :=
  let s := match wi_visual item with
           | Some v => set_visual_clock (va_generation_id v) (va_frame_id v) s
           | None => s
           end in
  let '(s, cancellations) := cancel_where (displaced_by item s) s in
  '(s, room) ← make_room item s;
  match room with
  | None => Some (s, Ok (refused item QueueCapacity cancellations))
  | Some evicted =>
      if wk_sequence s =? u64_max then Some (s, Err SequenceOverflow) else
      Some (insert_work item s,
            Ok {| ws_accepted := true; ws_cancellations := cancellations ++ evicted |})
  end.

(** [WorkSchedulerV1::submit]; [None] is a panic. *)
Definition work_submit (item : WorkItemV1) (now : Z) (s : WorkSchedulerV1)
    : option (WorkSchedulerV1 * result WorkSchedulerError WorkSubmitResultV1) :=
  match validate_work_item item now with
  | Err error => Some (s, Err error)
  | Ok _ =>
      if is_some (wk_pending s !! wi_work_id item) then Some (s, Err DuplicateWorkId) else
      match stale_reason (wk_visual_generation_id s) (wk_visual_frame_id s) (wi_visual item) with
      | Some reason => Some (s, Ok (refused item reason []))
      | None => submit_current item s
      end
  end.

(** ** The clock, the pressure and cancellation *)

Definition expired_or (now : Z) (reason : WorkItemV1 → option CancellationReasonV1)
    (item : WorkItemV1) : option CancellationReasonV1 :=
  if wi_deadline_monotonic_millis item <=? now then Some DeadlineExpired else reason item.

Definition advance_visual_clock (generation_id frame_id now : Z) (s : WorkSchedulerV1)
    : WorkSchedulerV1 * result WorkSchedulerError (list WorkCancellationV1) :=
  if (generation_id <? wk_visual_generation_id s)
     || ((generation_id =? wk_visual_generation_id s) && (frame_id <? wk_visual_frame_id s))
  then (s, Err VisualClockWentBackward) else
  let s := set_visual_clock generation_id frame_id s in
  let '(s, cancellations) := cancel_where
    (expired_or now (λ item, stale_reason generation_id frame_id (wi_visual item))) s in
  (s, Ok cancellations).

Definition shed_for_pressure (level : ResourcePressureLevelV1) (k : WorkKindV1) : bool :=
  match level, k with
  | PressureNormal, _ => false
  | _, (WorkEmbedding | WorkVision) => true
  | PressureCritical, WorkSpeechSynthesis => true
  | _, _ => false
  end.

Definition apply_pressure (level : ResourcePressureLevelV1) (now : Z) (s : WorkSchedulerV1)
    : WorkSchedulerV1 * list WorkCancellationV1 :=
  cancel_where (expired_or now (λ item,
    match stale_reason (wk_visual_generation_id s) (wk_visual_frame_id s) (wi_visual item) with
    | Some reason => Some reason
    | None => if shed_for_pressure level (wi_kind item) then Some QueuePressure else None
    end)) s.

Definition cancel_kind (work_id : str) (kind : WorkKindV1) (reason : CancellationReasonV1)
    (s : WorkSchedulerV1) : WorkSchedulerV1 * option WorkCancellationV1 :=
  if is_none_or (wk_pending s !! work_id) (λ scheduled,
       negb (bool_decide (wi_kind (sw_item scheduled) = kind)))
  then (s, None)
  else (set_pending (delete work_id (wk_pending s)) s,
        Some {| wc_work_id := work_id; wc_reason := reason |}).

Definition cancel_all_kind (kind : WorkKindV1) (reason : CancellationReasonV1) (s : WorkSchedulerV1)
    : WorkSchedulerV1 * list WorkCancellationV1 :=
  cancel_where (λ item, if bool_decide (wi_kind item = kind) then Some reason else None) s.

Definition work_cancel_all (reason : CancellationReasonV1) (s : WorkSchedulerV1)
    : WorkSchedulerV1 * list WorkCancellationV1 :=
  cancel_where (λ _, Some reason) s.

(** ** Taking work *)

(** [drop_expired] reports nothing. *)
Definition drop_expired (now : Z) (s : WorkSchedulerV1) : WorkSchedulerV1 :=
  (cancel_where (expired_or now (λ _, None)) s).1.

Definition take_work (found : option (str * ScheduledWorkV1)) (s : WorkSchedulerV1)
    : WorkSchedulerV1 * option WorkItemV1 :=
  match found with
  | Some (id, scheduled) => (set_pending (delete id (wk_pending s)) s, Some (sw_item scheduled))
  | None => (s, None)
  end.

Definition pop_next (now : Z) (s : WorkSchedulerV1) : WorkSchedulerV1 * option WorkItemV1 :=
  let s := drop_expired now s in
  take_work (max_by_key (λ kv, (work_priority (wi_kind (sw_item kv.2)), - sw_sequence kv.2))
               (btree_iter (wk_pending s))) s.

Definition pop_next_kind (kind : WorkKindV1) (now : Z) (s : WorkSchedulerV1)
    : WorkSchedulerV1 * option WorkItemV1 :=
  let s := drop_expired now s in
  take_work (min_by_key (λ kv, (0, sw_sequence kv.2))
               (List.filter (λ kv, bool_decide (wi_kind (sw_item kv.2) = kind))
                  (btree_iter (wk_pending s)))) s.

Definition pending_len (s : WorkSchedulerV1) : Z := Z.of_nat (size (wk_pending s)).

Definition pending_by_kind (s : WorkSchedulerV1) : gmap WorkKindV1 Z :=
  foldl (λ counts scheduled,
    let kind := wi_kind (sw_item scheduled) in
    <[kind := default 0 (counts !! kind) + 1]> counts) ∅ (btree_iter (wk_pending s)).*2.
