(* ===== verification/SchedulerSpec.v ===== *)
(** * What the work scheduler promises

    The invariant of the queue over every sequence of calls, the order in which work
    is taken, and that no accepted work is lost or counted twice. *)

From S2P Require Import Prelude Text Measurement Scheduler.

#[local] Open Scope Z_scope.

(** ** The building blocks *)

Lemma min_by_key_spec {A} (key : A → Z * Z) l :
  match min_by_key key l with
  | Some x => x ∈ l ∧ ∀ y, y ∈ l → ocmp (key y) (key x) ≠ Lt
  | None => l = []
  end.
Proof.
  unfold min_by_key. induction l as [|x l IH] using rev_ind; [done|]. rewrite foldl_app. cbn [foldl].
  destruct (foldl _ None l) as [b|].
  2:{ subst l. split; [set_solver|]. intros y ->%list_elem_of_singleton. by rewrite ocmp_refl. }
  destruct IH as [Hb Hmin]. destruct (ocmp (key x) (key b)) eqn:E; (split; [set_solver|]);
    intros y [Hy| ->%list_elem_of_singleton]%elem_of_app; try (by apply Hmin); try congruence.
  - intros Hlt. apply (Hmin y Hy). by apply (ocmp_trans _ (key x)).
  - by rewrite ocmp_refl.
Qed.

Lemma max_by_key_spec {A} (key : A → Z * Z) l :
  match max_by_key key l with
  | Some x => x ∈ l ∧ ∀ y, y ∈ l → ocmp (key x) (key y) ≠ Lt
  | None => l = []
  end.
Proof.
  unfold max_by_key. induction l as [|x l IH] using rev_ind; [done|]. rewrite foldl_app. cbn [foldl].
  destruct (foldl _ None l) as [b|].
  2:{ subst l. split; [set_solver|]. intros y ->%list_elem_of_singleton. by rewrite ocmp_refl. }
  destruct IH as [Hb Hmax]. pose proof (ocmp_opp (key x) (key b)) as Hopp.
  destruct (ocmp (key x) (key b)) eqn:E; (split; [set_solver|]);
    intros y [Hy| ->%list_elem_of_singleton]%elem_of_app; rewrite ?ocmp_refl; try done; try (by apply Hmax);
    try (by rewrite Hopp).
  - apply ocmp_Eq in E. rewrite E. by apply Hmax.
  - intros Hlt. apply (Hmax y Hy). by apply (ocmp_trans _ (key x)).
Qed.

Definition cancelled_entry (reason : WorkItemV1 → option CancellationReasonV1)
    (kw : str * ScheduledWorkV1) : option WorkCancellationV1 :=
  why ← reason (sw_item kw.2); Some {| wc_work_id := kw.1; wc_reason := why |}.

Lemma cancelled_entries_cons reason k w l :
  omap (cancelled_entry reason) ((k, w) :: l) =
  match reason (sw_item w) with
  | Some why => {| wc_work_id := k; wc_reason := why |} :: omap (cancelled_entry reason) l
  | None => omap (cancelled_entry reason) l
  end.
Proof. cbn. unfold cancelled_entry at 1. cbn. by destruct (reason (sw_item w)). Qed.

Lemma cancel_loop_spec reason l pending acc :
  NoDup l.*1 → (∀ k w, (k, w) ∈ l → pending !! k = Some w) →
  ∃ pending', cancel_loop reason l.*1 pending acc = (pending', acc ++ omap (cancelled_entry reason) l) ∧
    ∀ k w, pending' !! k = Some w ↔
      pending !! k = Some w ∧ ((k, w) ∈ l → reason (sw_item w) = None).
Proof.
  revert pending acc. induction l as [|[k w] l IH]; intros pending acc Hnd Hl.
  { exists pending. cbn. rewrite app_nil_r. split; [done|]. set_solver. }
  rewrite fmap_cons in Hnd. apply NoDup_cons in Hnd as [Hk Hnd]. cbn in Hk.
  assert (∀ w', (k, w') ∉ l) as Hfresh.
  { intros w' Hin. apply Hk. apply list_elem_of_fmap. by exists (k, w'). }
  assert (pending !! k = Some w) as Hw by (apply Hl; set_solver).
  cbn [cancel_loop fmap list_fmap fst]. rewrite Hw.
  rewrite cancelled_entries_cons. cbn [mbind option_bind].
  destruct (reason (sw_item w)) as [why|] eqn:Hwhy.
  - destruct (IH (delete k pending) (acc ++ [{| wc_work_id := k; wc_reason := why |}])) as (pending'&->&Hp);
      [done| |].
    { intros k' w' Hin. rewrite lookup_delete_ne; [apply Hl; set_solver|].
      intros <-. exact (Hfresh _ Hin). }
    exists pending'. split; [by rewrite <-app_assoc|]. intros k' w'. rewrite Hp, lookup_delete_Some.
    setoid_rewrite elem_of_cons. split.
    + intros ((Hne&Hp')&Hr). split; [done|]. intros [[= <- <-]|Hin]; [done|by apply Hr].
    + intros (Hp'&Hr). split; [split; [|done]|by intros; apply Hr; right].
      intros <-. rewrite Hw in Hp'. injection Hp' as <-. rewrite Hr in Hwhy; [done|by left].
  - destruct (IH pending acc) as (pending'&->&Hp); [done|set_solver|]. exists pending'. split; [done|].
    intros k' w'. rewrite Hp. setoid_rewrite elem_of_cons. naive_solver.
Qed.

Definition survives (reason : WorkItemV1 → option CancellationReasonV1)
    (pending : gmap str ScheduledWorkV1) : gmap str ScheduledWorkV1 :=
  filter (λ kw, reason (sw_item kw.2) = None) pending.

Lemma cancel_where_spec reason s :
  cancel_where reason s = (set_pending (survives reason (wk_pending s)) s,
    omap (cancelled_entry reason) (btree_iter (wk_pending s))).
Proof.
  unfold cancel_where, btree_keys.
  destruct (cancel_loop_spec reason (btree_iter (wk_pending s)) (wk_pending s) []) as (pending'&->&Hp).
  - apply btree_keys_NoDup.
  - intros k w. by rewrite btree_iter_elem.
  - f_equal. f_equal. apply map_eq. intros k. apply option_eq. intros w. rewrite Hp.
    unfold survives. rewrite map_lookup_filter_Some, btree_iter_elem. naive_solver.
Qed.

Lemma survives_lookup reason pending k w :
  survives reason pending !! k = Some w ↔ pending !! k = Some w ∧ reason (sw_item w) = None.
Proof. unfold survives. by rewrite map_lookup_filter_Some. Qed.

Lemma survives_None reason pending k :
  pending !! k = None → survives reason pending !! k = None.
Proof.
  intros Hk. apply eq_None_not_Some. intros [w [Hw _]%survives_lookup]. by rewrite Hk in Hw.
Qed.

Definition cancelled_ids (cs : list WorkCancellationV1) : list str := wc_work_id <$> cs.

Lemma cancelled_ids_elem reason pending k :
  k ∈ cancelled_ids (omap (cancelled_entry reason) (btree_iter pending)) ↔
  ∃ w, pending !! k = Some w ∧ reason (sw_item w) ≠ None.
Proof.
  unfold cancelled_ids. rewrite list_elem_of_fmap. setoid_rewrite list_elem_of_omap. split.
  - intros (c&->&[k' w]&Hin%btree_iter_elem&Hc). unfold cancelled_entry in Hc. cbn in Hc.
    destruct (reason (sw_item w)) eqn:Hr; [|done]. injection Hc as <-. cbn. exists w. by rewrite Hr.
  - intros (w&Hk&Hr). destruct (reason (sw_item w)) as [why|] eqn:Hwhy; [|done].
    exists {| wc_work_id := k; wc_reason := why |}. split; [done|]. exists (k, w).
    split; [by apply btree_iter_elem|]. unfold cancelled_entry. cbn. by rewrite Hwhy.
Qed.

Lemma cancelled_ids_NoDup reason (l : list (str * ScheduledWorkV1)) :
  NoDup l.*1 → NoDup (cancelled_ids (omap (cancelled_entry reason) l)).
Proof.
  induction l as [|[k w] l IH]; [by intros; constructor|]. rewrite fmap_cons.
  intros [Hk Hnd]%NoDup_cons. rewrite cancelled_entries_cons. destruct (reason (sw_item w)); [|by apply IH].
  unfold cancelled_ids in *. cbn. constructor; [|by apply IH].
  intros (entry&->&Hin)%list_elem_of_fmap. apply list_elem_of_omap in Hin as (kw'&Hin&Hc). apply Hk.
  unfold cancelled_entry in Hc. destruct (reason (sw_item kw'.2)); [|done]. injection Hc as <-.
  apply list_elem_of_fmap. by exists kw'.
Qed.

(** ** The invariant *)

Record sched_inv (s : WorkSchedulerV1) : Prop := {
  si_max : 1 ≤ wk_maximum_pending s ≤ 65536;
  si_size : pending_len s ≤ wk_maximum_pending s;
  si_sequence : 0 ≤ wk_sequence s ≤ u64_max;
  si_key : ∀ k w, wk_pending s !! k = Some w → wi_work_id (sw_item w) = k;
  si_visual : ∀ k w, wk_pending s !! k = Some w →
    is_visual (wi_kind (sw_item w)) = is_some (wi_visual (sw_item w));
  si_clock : ∀ k w, wk_pending s !! k = Some w → is_visual (wi_kind (sw_item w)) = true →
    wi_visual (sw_item w) = Some {| va_generation_id := wk_visual_generation_id s;
                                    va_frame_id := wk_visual_frame_id s |};
  si_order : ∀ k w, wk_pending s !! k = Some w → 1 ≤ sw_sequence w ≤ wk_sequence s;
  si_distinct : ∀ k k' w w', wk_pending s !! k = Some w → wk_pending s !! k' = Some w' →
    sw_sequence w = sw_sequence w' → k = k';
  si_one : ∀ k k' w w', wk_pending s !! k = Some w → wk_pending s !! k' = Some w' →
    is_visual (wi_kind (sw_item w)) = true → wi_kind (sw_item w) = wi_kind (sw_item w') → k = k'
}.

(** A queue with less work satisfies it as well. *)
Lemma sched_inv_sub pending s :
  sched_inv s → pending ⊆ wk_pending s → sched_inv (set_pending pending s).
Proof.
  intros [Hm Hs Hq Hk Hv Hc Ho Hd H1] Hsub.
  assert (∀ k w, pending !! k = Some w → wk_pending s !! k = Some w) as Hl.
  { intros k w Hw. by eapply lookup_weaken. }
  apply map_subseteq_size in Hsub.
  constructor; cbn; [done|unfold pending_len in *; cbn in *; lia|done|..]; intros; eauto.
Qed.

Lemma survives_sub reason pending : survives reason pending ⊆ pending.
Proof. apply map_filter_subseteq. Qed.

(** No pending work is ahead of the clock or behind it. *)
Lemma no_stale s k w :
  sched_inv s → wk_pending s !! k = Some w →
  stale_reason (wk_visual_generation_id s) (wk_visual_frame_id s) (wi_visual (sw_item w)) = None.
Proof.
  intros Hi Hw. destruct (wi_visual (sw_item w)) as [v|] eqn:Hv; [|done].
  pose proof (si_visual s Hi k w Hw) as Hvis. rewrite Hv in Hvis. pose proof (si_clock s Hi k w Hw Hvis) as Hc.
  rewrite Hv in Hc. injection Hc as ->. cbn. rewrite !Z.ltb_irrefl. by rewrite andb_false_r.
Qed.

Lemma cancel_where_inv reason s : sched_inv s → sched_inv (cancel_where reason s).1.
Proof. intros Hi. rewrite cancel_where_spec. apply sched_inv_sub; [done|apply survives_sub]. Qed.

(** Moving the clock forward is safe once the work behind it is gone. *)
Lemma clock_inv reason gen frame s :
  sched_inv s →
  (∀ k w, wk_pending s !! k = Some w → reason (sw_item w) = None →
     stale_reason gen frame (wi_visual (sw_item w)) = None) →
  wk_visual_generation_id s < gen ∨ wk_visual_generation_id s = gen ∧ wk_visual_frame_id s ≤ frame →
  sched_inv (cancel_where reason (set_visual_clock gen frame s)).1.
Proof.
  intros Hi Hstale Hclock. rewrite cancel_where_spec. cbn [fst wk_pending set_visual_clock].
  pose proof (sched_inv_sub (survives reason (wk_pending s)) s Hi (survives_sub _ _)) as [Hm Hs Hq Hk Hv Hc Ho Hd H1].
  constructor; try done. intros k w Hw Hvis. specialize (Hc k w Hw Hvis). cbn in Hw, Hc |- *.
  apply survives_lookup in Hw as [Hw Hr]. specialize (Hstale k w Hw Hr). rewrite Hc in Hstale |- *. cbn in Hstale.
  destruct (Z.ltb_spec (wk_visual_generation_id s) gen); [done|].
  destruct (Z.eqb_spec (wk_visual_generation_id s) gen); [|lia]. cbn in Hstale.
  destruct (Z.ltb_spec (wk_visual_frame_id s) frame); [done|]. do 2 f_equal; lia.
Qed.

Lemma stale_reason_None gen frame visual :
  stale_reason gen frame visual = None ↔
  ∀ v, visual = Some v → gen < va_generation_id v ∨ gen = va_generation_id v ∧ frame ≤ va_frame_id v.
Proof.
  destruct visual as [v|]; cbn; [|naive_solver].
  destruct (Z.ltb_spec (va_generation_id v) gen) as [Hg|Hg].
  { split; [done|]. intros Hv. specialize (Hv v eq_refl). lia. }
  destruct (Z.eqb_spec (va_generation_id v) gen) as [He|He]; cbn.
  - destruct (Z.ltb_spec (va_frame_id v) frame) as [Hf|Hf].
    + split; [done|]. intros Hv. specialize (Hv v eq_refl). lia.
    + split; [|done]. intros _ v' [= <-]. right. lia.
  - split; [|done]. intros _ v' [= <-]. left. lia.
Qed.

Lemma validate_work_item_Ok item now :
  validate_work_item item now = Ok tt →
  is_visual (wi_kind item) = is_some (wi_visual item) ∧ now < wi_deadline_monotonic_millis item ∧
  wi_submitted_monotonic_millis item ≤ now.
Proof.
  unfold validate_work_item. rewrite !bind_unit_Ok, !ensure_Ok, negb_true_iff, !orb_false_iff.
  intros (_&(((_&?)&?)&?)&Hv%eqb_prop&_). split; [done|lia].
Qed.

(** ** Every call *)

Inductive sched_event :=
| EvSubmit (item : WorkItemV1) (now : Z)
| EvAdvance (generation_id frame_id now : Z)
| EvPressure (level : ResourcePressureLevelV1) (now : Z)
| EvCancelKind (work_id : str) (kind : WorkKindV1) (reason : CancellationReasonV1)
| EvCancelAllKind (kind : WorkKindV1) (reason : CancellationReasonV1)
| EvCancelAll (reason : CancellationReasonV1)
| EvPop (now : Z)
| EvPopKind (kind : WorkKindV1) (now : Z).

(** What the caller sees of a call. *)
Record sched_outcome := {
  so_accepted : option WorkItemV1;
  so_cancelled : list WorkCancellationV1;
  so_taken : option WorkItemV1
}.

Definition only_cancelled (cs : list WorkCancellationV1) : sched_outcome := {|
  so_accepted := None; so_cancelled := cs; so_taken := None |}.
Definition only_taken (item : option WorkItemV1) : sched_outcome := {|
  so_accepted := None; so_cancelled := []; so_taken := item |}.

Definition submit_outcome (item : WorkItemV1) (r : result WorkSchedulerError WorkSubmitResultV1)
    : sched_outcome :=
  match r with
  | Ok r => {| so_accepted := if ws_accepted r then Some item else None;
               so_cancelled := ws_cancellations r; so_taken := None |}
  | Err _ => only_cancelled []
  end.

(** [None] is a panic. *)
Definition sched_step (e : sched_event) (s : WorkSchedulerV1) : option (WorkSchedulerV1 * sched_outcome) :=
  match e with
  | EvSubmit item now => '(s, r) ← work_submit item now s; Some (s, submit_outcome item r)
  | EvAdvance generation_id frame_id now =>
      match advance_visual_clock generation_id frame_id now s with
      | (s, Ok cs) => Some (s, only_cancelled cs)
      | (s, Err _) => Some (s, only_cancelled [])
      end
  | EvPressure level now => let '(s, cs) := apply_pressure level now s in Some (s, only_cancelled cs)
  | EvCancelKind work_id kind reason =>
      let '(s, c) := cancel_kind work_id kind reason s in Some (s, only_cancelled (option_list c))
  | EvCancelAllKind kind reason =>
      let '(s, cs) := cancel_all_kind kind reason s in Some (s, only_cancelled cs)
  | EvCancelAll reason => let '(s, cs) := work_cancel_all reason s in Some (s, only_cancelled cs)
  | EvPop now => let '(s, item) := pop_next now s in Some (s, only_taken item)
  | EvPopKind kind now => let '(s, item) := pop_next_kind kind now s in Some (s, only_taken item)
  end.

Fixpoint sched_run (events : list sched_event) (s : WorkSchedulerV1)
    : option (WorkSchedulerV1 * list sched_outcome) :=
  match events with
  | [] => Some (s, [])
  | e :: events => '(s, out) ← sched_step e s; '(s, outs) ← sched_run events s; Some (s, out :: outs)
  end.

(** The time of a call that takes work. *)
Definition pop_time (e : sched_event) : option Z :=
  match e with EvPop now | EvPopKind _ now => Some now | _ => None end.

(** Where every piece of queued work is after the call, and nothing else is reported. *)
Record accounted (e : sched_event) (s s' : WorkSchedulerV1) (out : sched_outcome) : Prop := {
  ad_kept : ∀ k w, wk_pending s !! k = Some w →
    let reported := k ∈ cancelled_ids (so_cancelled out) in
    let taken := so_taken out = Some (sw_item w) in
    wk_pending s' !! k = Some w ∧ ¬ reported ∧ ¬ taken ∨
    wk_pending s' !! k = None ∧ reported ∧ ¬ taken ∨
    wk_pending s' !! k = None ∧ ¬ reported ∧ taken ∨
    wk_pending s' !! k = None ∧ ¬ reported ∧ ¬ taken ∧
      ∃ now, pop_time e = Some now ∧ wi_deadline_monotonic_millis (sw_item w) ≤ now;
  ad_new : ∀ k w, wk_pending s !! k = None → wk_pending s' !! k = Some w →
    so_accepted out = Some (sw_item w);
  ad_accepted : ∀ item, so_accepted out = Some item →
    wk_pending s !! wi_work_id item = None ∧ sw_item <$> wk_pending s' !! wi_work_id item = Some item;
  ad_once : NoDup (cancelled_ids (so_cancelled out));
  ad_reported : ∀ k, k ∈ cancelled_ids (so_cancelled out) →
    is_Some (wk_pending s !! k) ∨
    so_accepted out = None ∧ ∃ item now, e = EvSubmit item now ∧ k = wi_work_id item;
  ad_taken : ∀ item, so_taken out = Some item → ∃ k w, wk_pending s !! k = Some w ∧ sw_item w = item
}.

Lemma cancel_accounted e reason s :
  accounted e s (cancel_where reason s).1 (only_cancelled (cancel_where reason s).2).
Proof.
  rewrite cancel_where_spec. cbn [fst snd]. constructor; cbn; try done.
  - intros k w Hw. rewrite cancelled_ids_elem. destruct (reason (sw_item w)) eqn:Hr.
    + right. left. split_and!; [|by exists w; rewrite Hr|done].
      apply eq_None_not_Some. intros [w' [Hw' Hr']%survives_lookup]. congruence.
    + left. split_and!; [by apply survives_lookup|naive_solver|done].
  - intros k w Hn Hs. by rewrite survives_None in Hs.
  - apply cancelled_ids_NoDup, btree_keys_NoDup.
  - intros k (w&Hw&_)%cancelled_ids_elem. left. by exists w.
Qed.

Lemma same_accounted e s clock :
  wk_pending clock = wk_pending s → accounted e s clock (only_cancelled []).
Proof.
  intros Hp. constructor; cbn; rewrite ?Hp; try done.
  - intros k w Hw. left. split_and!; [done|set_solver|done].
  - intros k w Hn Hs. congruence.
  - constructor.
  - set_solver.
Qed.

Definition capacity_entry (k : str) : WorkCancellationV1 := {|
  wc_work_id := k; wc_reason := QueueCapacity |}.

Lemma capacity_ids l : cancelled_ids (capacity_entry <$> l) = l.
Proof. unfold cancelled_ids. rewrite <-list_fmap_compose. apply list_fmap_id. Qed.

(** Either there is room for the item, after at most one eviction, or it is refused. *)
Lemma make_room_spec item s :
  sched_inv s →
  (make_room item s = Some (s, None) ∧ wk_maximum_pending s ≤ pending_len s) ∨
  ∃ evicted pending, make_room item s = Some (set_pending pending s, Some (capacity_entry <$> evicted)) ∧
    Z.of_nat (size pending) < wk_maximum_pending s ∧ NoDup evicted ∧
    (∀ k, k ∈ evicted → is_Some (wk_pending s !! k)) ∧
    (∀ k, pending !! k = if bool_decide (k ∈ evicted) then None else wk_pending s !! k).
Proof.
  intros Hi. pose proof (si_max s Hi). pose proof (si_size s Hi) as Hsz. unfold make_room, pending_len in *.
  destruct (Z.ltb_spec (Z.of_nat (size (wk_pending s))) (wk_maximum_pending s)) as [Hlt|Hfull].
  { right. exists [], (wk_pending s). split_and!; [by destruct s|done|constructor|set_solver|done]. }
  pose proof (min_by_key_spec (λ kv : str * ScheduledWorkV1,
    (work_priority (wi_kind (sw_item kv.2)), sw_sequence kv.2)) (btree_iter (wk_pending s))) as Hmin.
  destruct (min_by_key _ _) as [[k w]|].
  - destruct Hmin as [Hk%btree_iter_elem _]. cbn [mbind option_bind]. destruct (_ <? _); [right|by left].
    exists [k], (delete k (wk_pending s)). split_and!; [done| |apply NoDup_singleton| |].
    + assert (size (wk_pending s) ≠ 0%nat) by (intros Hz%map_size_empty_inv; by rewrite Hz in Hk).
      rewrite map_size_delete_Some by done. lia.
    + intros k' ->%list_elem_of_singleton. by exists w.
    + intros k'. case_bool_decide as Hin.
      * apply list_elem_of_singleton in Hin as ->. apply lookup_delete_eq.
      * apply lookup_delete_ne. set_solver.
  - pose proof (Permutation_length (btree_iter_perm (wk_pending s))) as Hl. rewrite Hmin in Hl.
    rewrite length_map_to_list in Hl. cbn in Hl. lia.
Qed.

(** The state in which a submission has displaced what it displaces. *)
Definition address_clock (item : WorkItemV1) (s : WorkSchedulerV1) : WorkSchedulerV1 :=
  match wi_visual item with
  | Some v => set_visual_clock (va_generation_id v) (va_frame_id v) s
  | None => s
  end.

Lemma address_clock_pending item s : wk_pending (address_clock item s) = wk_pending s.
Proof. unfold address_clock. by destruct (wi_visual item). Qed.

Lemma displaced_inv item s :
  sched_inv s →
  stale_reason (wk_visual_generation_id s) (wk_visual_frame_id s) (wi_visual item) = None →
  sched_inv (cancel_where (displaced_by item (address_clock item s)) (address_clock item s)).1.
Proof.
  rewrite stale_reason_None. intros Hi Hs. unfold address_clock. destruct (wi_visual item) as [v|] eqn:Hv;
    [|by apply cancel_where_inv].
  apply clock_inv; [done| |specialize (Hs v eq_refl); lia].
  intros k w Hw. unfold displaced_by. cbn [wk_visual_generation_id wk_visual_frame_id set_visual_clock].
  by destruct (stale_reason _ _ _).
Qed.

(** Whatever remains of the same visual kind is displaced. *)
Lemma displaced_kind item s w :
  displaced_by item s (sw_item w) = None → is_visual (wi_kind item) = true →
  wi_kind (sw_item w) ≠ wi_kind item.
Proof.
  unfold displaced_by. intros Hd Hv Hk. rewrite Hk, Hv, bool_decide_true in Hd by done.
  destruct (stale_reason _ _ _); [done|]. by destruct (_ && _).
Qed.

Lemma delete_inv k s : sched_inv s → sched_inv (set_pending (delete k (wk_pending s)) s).
Proof. intros Hi. apply sched_inv_sub; [done|apply delete_subseteq]. Qed.

Lemma insert_inv item s :
  sched_inv s → pending_len s < wk_maximum_pending s → wk_sequence s < u64_max →
  wk_pending s !! wi_work_id item = None →
  is_visual (wi_kind item) = is_some (wi_visual item) →
  (∀ v, wi_visual item = Some v → v = {| va_generation_id := wk_visual_generation_id s;
                                        va_frame_id := wk_visual_frame_id s |}) →
  (∀ k w, wk_pending s !! k = Some w → is_visual (wi_kind item) = true →
     wi_kind (sw_item w) ≠ wi_kind item) →
  sched_inv (insert_work item s).
Proof.
  intros [Hm Hs Hq Hk Hv Hc Ho Hd H1] Hlen Hseq Hfresh Hvis Haddr Hkind.
  constructor; unfold pending_len in *; cbn [wk_maximum_pending wk_sequence wk_pending
    wk_visual_generation_id wk_visual_frame_id insert_work].
  - done.
  - rewrite map_size_insert_None by done. lia.
  - lia.
  - intros k w [[<- <-]|[_ Hw]]%lookup_insert_Some; [done|by apply Hk].
  - intros k w [[<- <-]|[_ Hw]]%lookup_insert_Some; [done|by eapply Hv].
  - intros k w [[<- <-]|[_ Hw]]%lookup_insert_Some Hvw; [|by eapply Hc]. cbn in *. rewrite Hvis in Hvw.
    destruct (wi_visual item) as [v|]; [|done]. by rewrite (Haddr v eq_refl).
  - intros k w [[<- <-]|[_ Hw]]%lookup_insert_Some; cbn; [lia|]. specialize (Ho k w Hw). lia.
  - intros k k' w w' [[<- <-]|[_ Hw]]%lookup_insert_Some [[<- <-]|[_ Hw']]%lookup_insert_Some He;
      cbn in He; [done|specialize (Ho k' w' Hw'); lia|specialize (Ho k w Hw); lia|by eapply Hd].
  - intros k k' w w' [[<- <-]|[_ Hw]]%lookup_insert_Some [[<- <-]|[_ Hw']]%lookup_insert_Some Hvw He;
      cbn in *; [done| | |by eapply H1].
    + by destruct (Hkind k' w' Hw').
    + rewrite He in Hvw. by destruct (Hkind k w Hw).
Qed.

(** The accounts of a submission that displaced [reason]'s work and, perhaps, [evicted]. *)
Lemma submit_accounted item now reason s s' evicted :
  wk_pending s !! wi_work_id item = None →
  (∀ k, k ∈ evicted → ∃ w, wk_pending s !! k = Some w ∧ reason (sw_item w) = None) →
  NoDup evicted →
  (∀ k, k ≠ wi_work_id item → wk_pending s' !! k =
    if bool_decide (k ∈ evicted) then None else survives reason (wk_pending s) !! k) →
  sw_item <$> wk_pending s' !! wi_work_id item = Some item →
  accounted (EvSubmit item now) s s' {|
    so_accepted := Some item;
    so_cancelled := omap (cancelled_entry reason) (btree_iter (wk_pending s)) ++
      (capacity_entry <$> evicted);
    so_taken := None |}.
Proof.
  intros Hfresh Hev Hnd Hs' Hitem.
  assert (∀ k, k ∈ cancelled_ids (omap (cancelled_entry reason) (btree_iter (wk_pending s)) ++
      (capacity_entry <$> evicted)) ↔
    (∃ w, wk_pending s !! k = Some w ∧ reason (sw_item w) ≠ None) ∨ k ∈ evicted) as Hids.
  { intros k. unfold cancelled_ids. rewrite fmap_app, elem_of_app, <-cancelled_ids_elem. fold (cancelled_ids (capacity_entry <$> evicted)).
    by rewrite capacity_ids. }
  constructor; cbn [so_accepted so_cancelled so_taken].
  - intros k w Hw. rewrite Hids. assert (k ≠ wi_work_id item) as Hne by congruence.
    rewrite Hs' by done. case_bool_decide as Hk.
    { right. left. split_and!; [done|by right|done]. }
    destruct (reason (sw_item w)) eqn:Hr.
    + right. left. split_and!; [|left; exists w; by rewrite Hr|done].
      apply eq_None_not_Some. intros [w' [Hw' Hr']%survives_lookup]. congruence.
    + left. split_and!; [by apply survives_lookup|naive_solver|done].
  - intros k w Hn Hw. destruct (decide (k = wi_work_id item)) as [->|Hne]; [by rewrite Hw in Hitem|].
    rewrite Hs' in Hw by done. case_bool_decide; [done|]. by rewrite survives_None in Hw.
  - by intros ? [= <-].
  - unfold cancelled_ids. rewrite fmap_app. apply NoDup_app. split_and!.
    + apply cancelled_ids_NoDup, btree_keys_NoDup.
    + intros k (w&Hw&Hr)%cancelled_ids_elem. fold (cancelled_ids (capacity_entry <$> evicted)).
      rewrite capacity_ids. intros (w'&Hw'&?)%Hev. congruence.
    + fold (cancelled_ids (capacity_entry <$> evicted)). by rewrite capacity_ids.
  - intros k [(w&Hw&_)|(w&Hw&_)%Hev]%Hids; left; by exists w.
  - done.
Qed.

(** The accounts of a refused submission. *)
Lemma refused_accounted item now s s' reason :
  wk_pending s !! wi_work_id item = None → wk_pending s' = wk_pending s →
  accounted (EvSubmit item now) s s' (submit_outcome item (Ok (refused item reason []))).
Proof.
  intros Hfresh Hp. constructor; cbn; rewrite ?Hp; try done.
  - intros k w Hw. left. split_and!; [done| |done]. intros ->%list_elem_of_singleton. congruence.
  - intros k w Hn Hw. congruence.
  - apply NoDup_singleton.
  - intros k ->%list_elem_of_singleton. right. split; [done|]. by exists item, now.
Qed.

(** A queue that is still full displaced nothing. *)
Lemma full_displaces_nothing reason pending :
  (size pending ≤ size (survives reason pending))%nat →
  survives reason pending = pending ∧ omap (cancelled_entry reason) (btree_iter pending) = [].
Proof.
  intros Hsz. assert (survives reason pending = pending) as He.
  { apply map_subseteq_size_eq; [apply survives_sub|done]. }
  split; [done|]. apply omap_none, Forall_forall. intros [k w] Hk%btree_iter_elem.
  rewrite <-He in Hk. apply survives_lookup in Hk as [_ Hr]. unfold cancelled_entry. cbn. by rewrite Hr.
Qed.

Lemma submit_current_spec item now s :
  sched_inv s → is_visual (wi_kind item) = is_some (wi_visual item) →
  wk_pending s !! wi_work_id item = None →
  stale_reason (wk_visual_generation_id s) (wk_visual_frame_id s) (wi_visual item) = None →
  ∃ s' r, submit_current item s = Some (s', r) ∧ sched_inv s' ∧
    wk_sequence s' ≤ wk_sequence s + 1 ∧
    (wk_sequence s < u64_max → accounted (EvSubmit item now) s s' (submit_outcome item r)).
Proof.
  intros Hi Hvis Hfresh Hstale.
  unfold submit_current. pose proof (displaced_inv item s Hi Hstale) as Hi2. fold (address_clock item s).
  set (reason := displaced_by item (address_clock item s)) in *. rewrite cancel_where_spec in Hi2 |- *.
  cbn [fst] in Hi2. rewrite address_clock_pending in Hi2 |- *.
  set (s2 := set_pending _ (address_clock item s)) in *.
  assert (wk_pending s2 = survives reason (wk_pending s)) as Hp2 by done.
  assert (wk_sequence s2 = wk_sequence s ∧ wk_maximum_pending s2 = wk_maximum_pending s) as [Hq2 Hm2].
  { unfold s2, address_clock. by destruct (wi_visual item). }
  assert (∀ v, wi_visual item = Some v → v = {| va_generation_id := wk_visual_generation_id s2;
    va_frame_id := wk_visual_frame_id s2 |}) as Haddr.
  { intros v Hv. unfold s2, address_clock. rewrite Hv. by destruct v. }
  assert (∀ k w, wk_pending s2 !! k = Some w → is_visual (wi_kind item) = true →
    wi_kind (sw_item w) ≠ wi_kind item) as Hkind.
  { intros k w Hw. rewrite Hp2 in Hw. apply survives_lookup in Hw as [_ Hr]. by apply displaced_kind with (address_clock item s). }
  pose proof (survives_None reason _ _ Hfresh) as Hf2. rewrite <-Hp2 in Hf2.
  clearbody s2. clear Hstale.
  destruct (make_room_spec item s2 Hi2) as [[-> Hfull]|(evicted&pending&->&Hlt&Hnd&Hev&Hpend)];
    cbn [mbind option_bind].
  { pose proof (si_size s Hi) as Hsz. destruct (full_displaces_nothing reason (wk_pending s)) as [He ->].
    { unfold pending_len in *. rewrite Hp2 in Hfull. lia. }
    eexists _, _. split_and!; [done|done|lia|]. intros _. apply refused_accounted; [done|by rewrite Hp2]. }
  assert (pending ⊆ wk_pending s2) as Hsub.
  { apply map_subseteq_spec. intros k w Hk. rewrite Hpend in Hk. by case_bool_decide. }
  pose proof (sched_inv_sub pending s2 Hi2 Hsub) as Hi3. pose proof (si_sequence _ Hi3) as Hq3.
  cbn [wk_sequence set_pending] in *. destruct (Z.eqb_spec (wk_sequence s2) u64_max).
  { eexists _, _. split_and!; [done|done|cbn; lia|]. intros ?. lia. }
  assert (pending !! wi_work_id item = None) as Hf3.
  { rewrite Hpend. by case_bool_decide. }
  eexists _, _. split_and!; [done| |cbn; lia|intros _; apply (submit_accounted _ _ _ _ _ evicted)]; try done.
  - apply insert_inv; try done; [cbn; lia|]. intros k w Hk. by eapply Hkind, lookup_weaken.
  - intros k (w&Hw)%Hev. rewrite Hp2 in Hw. exists w. by apply survives_lookup in Hw.
  - intros k Hne. cbn. by rewrite lookup_insert_ne, Hpend, Hp2 by done.
  - cbn. by rewrite lookup_insert_eq.
Qed.

Lemma submit_spec item now s :
  sched_inv s →
  ∃ s' r, work_submit item now s = Some (s', r) ∧ sched_inv s' ∧
    wk_sequence s' ≤ wk_sequence s + 1 ∧
    (wk_sequence s < u64_max → accounted (EvSubmit item now) s s' (submit_outcome item r)).
Proof.
  intros Hi. unfold work_submit. destruct (validate_work_item item now) as [[]|] eqn:Hval.
  2:{ eexists _, _. split_and!; [done|done|lia|]. intros _. by apply same_accounted. }
  apply validate_work_item_Ok in Hval as (Hvis&_&_).
  destruct (wk_pending s !! wi_work_id item) as [|] eqn:Hfresh; cbn [is_some].
  { eexists _, _. split_and!; [done|done|lia|]. intros _. by apply same_accounted. }
  destruct (stale_reason (wk_visual_generation_id s) _ _) as [why|] eqn:Hstale.
  { eexists _, _. split_and!; [done|done|lia|]. intros _. by apply refused_accounted. }
  by apply submit_current_spec.
Qed.

Lemma take_inv found s : sched_inv s → sched_inv (take_work found s).1.
Proof. intros Hi. destruct found as [[k w]|]; [by apply delete_inv|done]. Qed.

(** The accounts of taking [found] once the expired work is dropped. *)
Lemma take_accounted e now found s :
  pop_time e = Some now → sched_inv s →
  (∀ k w, found = Some (k, w) → wk_pending (drop_expired now s) !! k = Some w) →
  accounted e s (take_work found (drop_expired now s)).1 (only_taken (take_work found (drop_expired now s)).2).
Proof.
  intros He Hi Hfound. unfold drop_expired in *. rewrite cancel_where_spec in *. cbn [fst] in *.
  set (reason := expired_or now (λ _, None)) in *. cbn [wk_pending set_pending] in Hfound.
  assert (∀ k w, wk_pending s !! k = Some w → reason (sw_item w) ≠ None →
    wi_deadline_monotonic_millis (sw_item w) ≤ now) as Hexp.
  { intros k w _. unfold reason, expired_or. destruct (Z.leb_spec (wi_deadline_monotonic_millis (sw_item w)) now); done. }
  destruct found as [[k0 w0]|]; cbn [take_work fst snd].
  - specialize (Hfound k0 w0 eq_refl). apply survives_lookup in Hfound as [Hk0 Hr0].
    constructor; cbn; try done; [| |constructor|set_solver|].
    + intros k w Hw. destruct (decide (k = k0)) as [->|Hne].
      { right. right. left. rewrite lookup_delete_eq. split_and!; [done|set_solver|congruence]. }
      rewrite lookup_delete_ne by done. assert (Some (sw_item w0) ≠ Some (sw_item w)) as Hnt.
      { intros [= Heq]. apply Hne. rewrite <-(si_key s Hi k w Hw), <-(si_key s Hi k0 w0 Hk0). by rewrite Heq. }
      destruct (decide (reason (sw_item w) = None)) as [Hr|Hr].
      * left. split_and!; [by apply survives_lookup|set_solver|done].
      * do 3 right. split_and!; [|set_solver|done|exists now; split; [done|by eapply Hexp]].
        apply eq_None_not_Some. by intros [w' [Hw' Hr']%survives_lookup]; simplify_eq.
    + intros k w Hn Hw. apply lookup_delete_Some in Hw as [_ Hw]. by rewrite survives_None in Hw.
    + intros item [= <-]. by exists k0, w0.
  - constructor; cbn; try done; [| |constructor|set_solver].
    + intros k w Hw. destruct (decide (reason (sw_item w) = None)) as [Hr|Hr].
      * left. split_and!; [by apply survives_lookup|set_solver|done].
      * do 3 right. split_and!; [|set_solver|done|exists now; split; [done|by eapply Hexp]].
        apply eq_None_not_Some. by intros [w' [Hw' Hr']%survives_lookup]; simplify_eq.
    + intros k w Hn Hw. by rewrite survives_None in Hw.
Qed.

Lemma pop_found s k w :
  max_by_key (λ kv : str * ScheduledWorkV1,
    (work_priority (wi_kind (sw_item kv.2)), - sw_sequence kv.2)) (btree_iter (wk_pending s)) = Some (k, w) →
  wk_pending s !! k = Some w ∧
  ∀ k' w', wk_pending s !! k' = Some w' →
    let p := work_priority (wi_kind (sw_item w)) in
    let p' := work_priority (wi_kind (sw_item w')) in
    p' < p ∨ p' = p ∧ sw_sequence w ≤ sw_sequence w'.
Proof.
  intros Hf. pose proof (max_by_key_spec (λ kv : str * ScheduledWorkV1,
    (work_priority (wi_kind (sw_item kv.2)), - sw_sequence kv.2)) (btree_iter (wk_pending s))) as Hmax.
  rewrite Hf in Hmax. destruct Hmax as [Hk%btree_iter_elem Hmax]. split; [done|].
  intros k' w' Hw'%btree_iter_elem. specialize (Hmax _ Hw'). cbn in *.
  destruct (Z.compare_spec (work_priority (wi_kind (sw_item w))) (work_priority (wi_kind (sw_item w'))));
    [|done|lia].
  destruct (Z.compare_spec (- sw_sequence w) (- sw_sequence w')); [lia|done|lia].
Qed.

Lemma pop_kind_found kind s k w :
  min_by_key (λ kv : str * ScheduledWorkV1, (0, sw_sequence kv.2))
    (List.filter (λ kv, bool_decide (wi_kind (sw_item kv.2) = kind)) (btree_iter (wk_pending s))) = Some (k, w) →
  wk_pending s !! k = Some w ∧ wi_kind (sw_item w) = kind ∧
  ∀ k' w', wk_pending s !! k' = Some w' → wi_kind (sw_item w') = kind → sw_sequence w ≤ sw_sequence w'.
Proof.
  intros Hf. pose proof (min_by_key_spec (λ kv : str * ScheduledWorkV1, (0, sw_sequence kv.2))
    (List.filter (λ kv, bool_decide (wi_kind (sw_item kv.2) = kind)) (btree_iter (wk_pending s)))) as Hmin.
  rewrite Hf in Hmin. setoid_rewrite list_elem_of_In in Hmin. setoid_rewrite filter_In in Hmin.
  destruct Hmin as [[Hk Hkind%bool_decide_eq_true] Hmin]. apply list_elem_of_In, btree_iter_elem in Hk.
  split_and!; [done|done|]. intros k' w' Hw'%btree_iter_elem%list_elem_of_In Hkind'.
  assert (ocmp (0, sw_sequence w') (0, sw_sequence w) ≠ Lt) as Hlt.
  { apply (Hmin (k', w')). split; [done|]. by apply bool_decide_eq_true. }
  cbn in Hlt. destruct (Z.compare_spec (sw_sequence w') (sw_sequence w)); [lia|done|lia].
Qed.

Lemma cancel_kind_spec e work_id kind reason s :
  sched_inv s →
  sched_inv (cancel_kind work_id kind reason s).1 ∧
  accounted e s (cancel_kind work_id kind reason s).1
    (only_cancelled (option_list (cancel_kind work_id kind reason s).2)).
Proof.
  intros Hi. unfold cancel_kind. destruct (wk_pending s !! work_id) as [w|] eqn:Hw; cbn [is_none_or].
  2:{ split; [done|by apply same_accounted]. }
  destruct (negb _); [split; [done|by apply same_accounted]|]. split; [by apply delete_inv|].
  constructor; cbn; try done.
  - intros k w' Hw'. destruct (decide (k = work_id)) as [->|Hne].
    + right. left. split_and!; [apply lookup_delete_eq|set_solver|done].
    + left. rewrite lookup_delete_ne by done. split_and!; [done|set_solver|done].
  - intros k w' Hn [_ Hw']%lookup_delete_Some. congruence.
  - apply NoDup_singleton.
  - intros k ->%list_elem_of_singleton. left. by exists w.
Qed.

Definition step_ok (e : sched_event) (s : WorkSchedulerV1)
    (r : option (WorkSchedulerV1 * sched_outcome)) : Prop :=
  ∃ s' out, r = Some (s', out) ∧ sched_inv s' ∧ wk_sequence s' ≤ wk_sequence s + 1 ∧
    (wk_sequence s < u64_max → accounted e s s' out).

Lemma cancel_where_step e reason s :
  sched_inv s →
  step_ok e s (let '(s, cs) := cancel_where reason s in Some (s, only_cancelled cs)).
Proof.
  intros Hi. pose proof (cancel_accounted e reason s) as Ha. pose proof (cancel_where_inv reason s Hi) as Hi'.
  rewrite cancel_where_spec in *. eexists _, _. by split_and!; [|done|cbn; lia|].
Qed.

Lemma take_step e now found s :
  pop_time e = Some now → sched_inv s →
  (∀ k w, found = Some (k, w) → wk_pending (drop_expired now s) !! k = Some w) →
  step_ok e s (let '(s, item) := take_work found (drop_expired now s) in Some (s, only_taken item)).
Proof.
  intros He Hi Hf. pose proof (take_accounted e now found s He Hi Hf) as Ha.
  pose proof (take_inv found (drop_expired now s) (cancel_where_inv _ s Hi)) as Hi'.
  assert (wk_sequence (take_work found (drop_expired now s)).1 = wk_sequence s) as Hq.
  { unfold drop_expired. rewrite cancel_where_spec. by destruct found as [[]|]. }
  destruct (take_work _ _). eexists _, _. by split_and!; [|done|cbn in *; lia|].
Qed.

Lemma same_step e s : sched_inv s → step_ok e s (Some (s, only_cancelled [])).
Proof. intros Hi. eexists _, _. split_and!; [done|done|lia|]. intros _. by apply same_accounted. Qed.

Lemma step_spec e s : sched_inv s → step_ok e s (sched_step e s).
Proof.
  intros Hi. destruct e as [item now|gen frame now|level now|id kind why|kind why|why|now|kind now];
    cbn [sched_step]; try (by apply cancel_where_step).
  - destruct (submit_spec item now s Hi) as (s'&r&->&?&?&?). by eexists _, _.
  - unfold advance_visual_clock. destruct (_ || _) eqn:E; [by apply same_step|].
    set (reason := expired_or now (λ item, stale_reason gen frame (wi_visual item))).
    pose proof (cancel_accounted (EvAdvance gen frame now) reason (set_visual_clock gen frame s)) as Ha.
    assert (sched_inv (cancel_where reason (set_visual_clock gen frame s)).1) as Hi'.
    { apply clock_inv; [done| |lia]. intros k w _. unfold reason, expired_or. by destruct (_ <=? now). }
    rewrite cancel_where_spec in *. eexists _, _. split_and!; [done|done|cbn; lia|].
    intros _. destruct Ha. by constructor.
  - pose proof (cancel_kind_spec (EvCancelKind id kind why) id kind why s Hi) as [Hi' Ha].
    assert (wk_sequence (cancel_kind id kind why s).1 = wk_sequence s).
    { unfold cancel_kind. by destruct (is_none_or _ _). }
    destruct (cancel_kind id kind why s). eexists _, _. by split_and!; [|done|cbn in *; lia|].
  - apply take_step; [done..|]. intros k w Hf. by apply pop_found in Hf as [? _].
  - apply take_step; [done..|]. intros k w Hf. by apply pop_kind_found in Hf as [? _].
Qed.

Lemma scheduler_start maximum s : scheduler_with_policy maximum = Ok s → 0 ≤ maximum → sched_inv s.
Proof.
  unfold scheduler_with_policy. destruct ((maximum =? 0) || (65536 <? maximum)) eqn:E; [done|].
  intros [= <-] H0. apply orb_false_iff in E as [?%Z.eqb_neq ?%Z.ltb_ge].
  constructor; cbn; try done; try lia; try (by unfold u64_max).
Qed.

Lemma run_spec events s :
  sched_inv s →
  ∃ s' outs, sched_run events s = Some (s', outs) ∧ sched_inv s' ∧
    wk_sequence s' ≤ wk_sequence s + Z.of_nat (length events).
Proof.
  revert s. induction events as [|e events IH]; intros s Hi; cbn [sched_run].
  { eexists _, _. split_and!; [done|done|lia]. }
  destruct (step_spec e s Hi) as (s1&out&->&Hi1&Hq1&_). cbn [mbind option_bind].
  destruct (IH s1 Hi1) as (s2&outs&->&Hi2&Hq2). eexists _, _. split_and!; [done|done|cbn [length]; lia].
Qed.

(** the invariant of the work queue over every history of calls. From a fresh
    scheduler of any valid policy, any sequence of submissions, clock advances,
    pressure changes, cancellations and takes, at any times: no call panics, the
    queue never holds more than its maximum, each entry is filed under its own id,
    visual work is exactly the work with a visual address, all of it is addressed to
    the present frame of the present generation, at most one per visual kind waits,
    and the arrival numbers are distinct and bounded by the counter. *)
Theorem scheduler_invariant maximum events s :
  scheduler_with_policy maximum = Ok s → 0 ≤ maximum →
  ∃ s' outs, sched_run events s = Some (s', outs) ∧ length outs = length events ∧ sched_inv s'.
Proof.
  intros Hs H0. destruct (run_spec events s (scheduler_start _ _ Hs H0)) as (s'&outs&Hr&Hi&_).
  exists s', outs. split_and!; [done| |done]. clear Hs H0 Hi. revert s outs Hr.
  induction events as [|e events IH]; intros s outs Hr; cbn in Hr; [by injection Hr as <- <-|].
  apply bind_Some in Hr as ([s1 out]&_&Hr). apply bind_Some in Hr as ([s2 outs2]&Hr&[= <- <-]).
  cbn. by rewrite (IH _ _ Hr).
Qed.

(** no queued work is lost or counted twice. In any reachable queue and for any
    call: each item that waited either waits on unchanged, is reported cancelled
    exactly once, is handed to the caller, or is dropped by a take after its deadline;
    a new entry is the accepted item; and nothing else is ever reported than the item
    that was itself refused. (Until the 64-bit arrival counter is exhausted.) *)
Theorem scheduler_conserves_work maximum events e s0 s outs :
  scheduler_with_policy maximum = Ok s0 → 0 ≤ maximum → sched_run events s0 = Some (s, outs) →
  Z.of_nat (length events) < u64_max →
  ∃ s' out, sched_step e s = Some (s', out) ∧ accounted e s s' out.
Proof.
  intros Hs H0 Hr Hlen. destruct (run_spec events s0 (scheduler_start _ _ Hs H0)) as (s1&outs1&Hr1&Hi&Hq).
  rewrite Hr in Hr1. injection Hr1 as <- <-. destruct (step_spec e s Hi) as (s'&out&He&_&_&Ha).
  exists s', out. split; [done|]. apply Ha. unfold scheduler_with_policy in Hs.
  destruct (_ || _); [done|]. injection Hs as <-. cbn in Hq. lia.
Qed.

(** Whether the work has time left. *)
Definition alive (now : Z) (w : ScheduledWorkV1) : Prop :=
  now < wi_deadline_monotonic_millis (sw_item w).

Lemma drop_expired_lookup now s k w :
  wk_pending (drop_expired now s) !! k = Some w ↔ wk_pending s !! k = Some w ∧ alive now w.
Proof.
  unfold drop_expired, alive. rewrite cancel_where_spec. cbn. rewrite survives_lookup. unfold expired_or.
  destruct (Z.leb_spec (wi_deadline_monotonic_millis (sw_item w)) now); intuition (done || lia).
Qed.

(** the scheduler takes the most urgent work. From a queue that satisfies the
    invariant, [pop_next] hands out nothing only if all work is past its deadline;
    otherwise the item it takes has time left, and every other item with time left
    either has a kind of lower priority, or the same priority and a later arrival. In
    particular interactive work never waits behind background work, and equals are
    served in the order they came. *)
Theorem pop_next_takes_the_most_urgent now s :
  sched_inv s →
  match pop_next now s with
  | (s', None) => ∀ k w, wk_pending s !! k = Some w → ¬ alive now w
  | (s', Some item) => ∃ k w, wk_pending s !! k = Some w ∧ sw_item w = item ∧ alive now w ∧
      wk_pending s' !! k = None ∧
      ∀ k' w', wk_pending s !! k' = Some w' → alive now w' → k' ≠ k →
        wk_pending s' !! k' = Some w' ∧
        (work_priority (wi_kind (sw_item w')) < work_priority (wi_kind item) ∨
         work_priority (wi_kind (sw_item w')) = work_priority (wi_kind item) ∧
         sw_sequence w < sw_sequence w')
  end.
Proof.
  intros Hi. unfold pop_next. pose proof (pop_found (drop_expired now s)) as Hf.
  pose proof (max_by_key_spec (λ kv : str * ScheduledWorkV1,
    (work_priority (wi_kind (sw_item kv.2)), - sw_sequence kv.2))
    (btree_iter (wk_pending (drop_expired now s)))) as Hmax.
  destruct (max_by_key _ _) as [[k w]|]; cbn [take_work].
  - destruct (Hf k w eq_refl) as [[Hk Ha]%drop_expired_lookup Hbest]. exists k, w.
    split_and!; [done..|apply lookup_delete_eq|]. intros k' w' Hk' Ha' Hne.
    assert (wk_pending (drop_expired now s) !! k' = Some w') as Hl by (by apply drop_expired_lookup).
    split; [cbn; by rewrite lookup_delete_ne|]. destruct (Hbest k' w' Hl) as [?|[? Hle]]; [by left|right].
    split; [done|]. destruct (decide (sw_sequence w = sw_sequence w')) as [He|]; [|lia].
    destruct Hne. symmetry. by apply (si_distinct s Hi k k' w w').
  - intros k w Hk Ha. assert ((k, w) ∈ btree_iter (wk_pending (drop_expired now s))) as Hin.
    { by apply btree_iter_elem, drop_expired_lookup. }
    rewrite Hmax in Hin. set_solver.
Qed.
