(* ===== verification/GovernorExample.v ===== *)
(** * The resource governor on concrete inputs

    One measured language model, verified, admitted, kept and unloaded, and a queue of
    four works: the witnesses of the theorems of [Measurement], [GovernorSpec] and
    [SchedulerSpec]. *)

From S2P Require Import Prelude Text Measurement Governor GovernorSpec Scheduler SchedulerSpec.

#[local] Open Scope Z_scope.

(** A verifier that trusts one key, whose signature is its own name, over the schema. *)
#[local] Instance demo_catalog : CatalogApi := {|
  canonical_measured_resource_envelope_bytes p := Ok (mp_report_id p);
  sha256_of_bytes bytes := lit "sha256:" ++ bytes;
  is_trusted_key k := bool_decide (k = lit "release");
  verify_signature k algorithm bytes signature := bool_decide (signature = k)
|}.

Definition demo_pack : PackRevision := {| pr_pack_id := lit "llm"; pr_revision := lit "1" |}.

Definition demo_placement : PlacementMeasurementV1 := {|
  pm_resident_ram_bytes := 1000000000; pm_p99_total_ram_bytes := 2000000000;
  pm_resident_vram_bytes := 3000000000; pm_p99_workspace_vram_bytes := 500000000;
  pm_p99_load_millis := 900; pm_p99_reload_millis := 300; pm_p99_operation_millis := 40 |}.

Definition demo_payload (report : string) (sequence : Z) : MeasuredResourceEnvelopePayloadV1 := {|
  mp_schema := MEASURED_RESOURCE_ENVELOPE_SCHEMA_V1; mp_report_id := lit report;
  mp_sequence := sequence; mp_measured_unix_seconds := 1000; mp_expires_unix_seconds := 2000;
  mp_device_fingerprint_sha256 := lit "device"; mp_identity := demo_pack;
  mp_manifest_sha256 := lit "manifest"; mp_capability := KindLanguageModel;
  mp_benchmark_suite_revision := lit "suite-1"; mp_runtime := lit "llama"; mp_runtime_revision := lit "7";
  mp_backend := lit "cuda"; mp_sample_count := 20;
  mp_placements := {[ GpuResident := demo_placement ]} |}.

Definition demo_signed (report : string) (sequence : Z) (key : string) : SignedMeasuredResourceEnvelopeV1 := {|
  se_signed := demo_payload report sequence;
  se_signatures := [{| cs_key_id := lit key; cs_algorithm := lit "ed25519"; cs_signature := lit key |}] |}.

Definition demo_qualified : QualifiedResourceEnvelopeV1 := {|
  qe_payload := demo_payload "report-a" 5; qe_payload_sha256 := lit "sha256:report-a" |}.

Lemma demo_accepts :
  accepts trust_policy_default ∅ 1500 (demo_signed "report-a" 5 "release") (lit "report-a").
Proof.
  assert (∀ value min max, (min <=? str_len value) && (str_len value <=? max)
    && forallb is_token_char value = true → token_ok value min max) as Htoken.
  { intros value min max Ht. apply (validate_token_Ok (lit "field")). unfold validate_token. by rewrite Ht. }
  constructor.
  - constructor; cbn [se_signed demo_signed].
    + reflexivity.
    + split_and!; apply Htoken; vm_compute; reflexivity.
    + by split.
    + cbn. lia.
    + cbn. lia.
    + cbn. lia.
    + cbn. lia.
    + cbn. intros Hp. apply (f_equal (.!! GpuResident)) in Hp. by rewrite lookup_singleton_eq in Hp.
    + cbn. apply map_Forall_singleton. constructor; cbn; (done || lia).
  - reflexivity.
  - done.
  - exists {[lit "release"]}. rewrite size_singleton. split; [cbn; lia|]. intros k.
    rewrite elem_of_singleton. cbn. setoid_rewrite list_elem_of_singleton. split.
    + intros ->. by eexists.
    + intros (?&->&<-&_). done.
  - intros v Hv. by rewrite lookup_empty in Hv.
Qed.

Lemma verification_exact_witness :
  in_u64 (mp_measured_unix_seconds (demo_payload "report-a" 5)) ∧
  verify_measured_resource_envelope (demo_signed "report-a" 5 "release") trust_policy_default ∅ 1500
    = Ok (demo_qualified, {[ stream_of (demo_payload "report-a" 5) :=
        {| mv_sequence := 5; mv_payload_sha256 := lit "sha256:report-a" |} ]}).
Proof.
  assert (in_u64 1000) as Hr by (unfold in_u64, u64_max; lia).
  split; [exact Hr|]. apply (verification_exact (demo_signed "report-a" 5 "release")); [exact Hr|].
  exists (lit "report-a"). split; [exact demo_accepts|]. by split.
Defined.

(** The second report is older than the first, the fourth is another with the number of
    the third: two of the four are accepted. *)
Definition demo_history : list verification :=
  (λ e, {| ve_envelope := e; ve_policy := trust_policy_default; ve_now := 1500 |}) <$>
  [demo_signed "report-a" 5 "release"; demo_signed "report-b" 4 "release";
   demo_signed "report-c" 6 "release"; demo_signed "report-d" 6 "release"].

Lemma trust_never_rolls_back_witness :
  mp_report_id ∘ qe_payload <$> (verify_all demo_history ∅).1 = [lit "report-a"; lit "report-c"] ∧
  ∀ k v, (∅ : gmap MeasurementStreamKeyV1 MeasurementVersionV1) !! k = Some v →
    ∃ v', (verify_all demo_history ∅).2 !! k = Some v' ∧ (mv_sequence v < mv_sequence v' ∨ v = v').
Proof.
  split; [vm_compute; reflexivity|].
  exact (proj2 (trust_never_rolls_back demo_history ∅ _ _ (surjective_pairing _))).
Defined.

(** ** Admission and residency *)

Definition demo_snapshot : LiveResourceSnapshotV1 := {|
  ls_captured_monotonic_millis := 5000; ls_device_fingerprint_sha256 := lit "device";
  ls_physical_vram_bytes := 12000000000; ls_os_vram_budget_bytes := 11000000000;
  ls_desktop_resident_vram_bytes := 500000000; ls_game_resident_vram_bytes := 3000000000;
  ls_game_reserve_vram_bytes := 4000000000; ls_physical_ram_bytes := 32000000000;
  ls_available_ram_bytes := 16000000000; ls_game_additional_reserve_ram_bytes := 1000000000 |}.

Definition demo_request : LoadoutModelRequestV1 := {|
  lr_role := KindLanguageModel; lr_mode := GpuResident; lr_envelope := demo_qualified |}.

Definition demo_admission : LoadoutAdmissionV1 :=
  admission_of governor_policy_default demo_snapshot [demo_request] [demo_placement].

Lemma admission_exact_witness :
  governor_admit governor_policy_default demo_snapshot 6000 [demo_request] = Ok demo_admission ∧
  la_projected_total_vram_bytes demo_admission = 9650000000 ∧
  la_vram_soft_ceiling_bytes demo_admission = 9900000000.
Proof.
  split; [|by vm_compute].
  apply (proj2 (admission_exact governor_policy_default demo_snapshot 6000 [demo_request] demo_admission
    ltac:(vm_compute; reflexivity)
    ltac:(constructor; unfold in_u64, u64_max; cbn; repeat split; lia)
    ltac:(apply Forall_singleton; intros m Hm; vm_compute in Hm; injection Hm as <-;
          unfold measured; cbn; split_and!; lia))).
  split_and!; [|discriminate|apply NoDup_singleton|exists [demo_placement]; split_and!].
  - constructor; cbn; repeat split; lia.
  - repeat constructor.
  - by repeat split; vm_compute.
  - reflexivity.
Defined.

(** A warm model idle for forty seconds, one idle for three minutes, one just used. *)
Definition demo_record (name : string) (used : Z) : PackRevision * ResidencyRecordV1 :=
  ({| pr_pack_id := lit name; pr_revision := lit "1" |},
   {| rr_identity := {| pr_pack_id := lit name; pr_revision := lit "1" |}; rr_state := GpuWarm;
      rr_cpu_fallback_supported := true; rr_last_used_monotonic_millis := used |}).

Definition demo_tracker : ResidencyTrackerV1 := {|
  rt_keep_warm_millis := 30000; rt_unload_ttl_millis := 120000;
  rt_records := list_to_map [demo_record "a" 160000; demo_record "b" 20000; demo_record "c" 199000] |}.

Lemma maintenance_exact_witness :
  clocks_behind 200000 (rt_records demo_tracker) ∧
  ∃ t', maintenance_actions 200000 demo_tracker =
      (t', Ok [DropGpuKeepCpu (demo_record "a" 0).1; Unload (demo_record "b" 0).1]) ∧
    maintenance_actions 200000 t' = (t', Ok []).
Proof.
  assert (clocks_behind 200000 (rt_records demo_tracker)) as Hc.
  { unfold clocks_behind. apply map_Forall_to_list. vm_compute map_to_list.
    by repeat constructor. }
  split; [exact Hc|]. destruct (maintenance_exact 200000 demo_tracker Hc) as (t'&Hm&_&Hagain).
  exists t'. split; [|exact Hagain]. rewrite Hm. vm_compute. reflexivity.
Defined.

(** ** The queue *)

Definition demo_work (id : string) (kind : WorkKindV1) (visual : option VisualWorkAddressV1) : WorkItemV1 := {|
  wi_work_id := lit id; wi_kind := kind; wi_submitted_monotonic_millis := 10;
  wi_deadline_monotonic_millis := 500; wi_visual := visual |}.

Definition demo_frame (frame : Z) : option VisualWorkAddressV1 :=
  Some {| va_generation_id := 1; va_frame_id := frame |}.

(** Background work, two frames of lip synchronisation, and speech. *)
Definition demo_events : list sched_event :=
  [ EvSubmit (demo_work "embed-01" WorkEmbedding None) 20;
    EvSubmit (demo_work "speech-1" WorkSpeechSynthesis None) 20;
    EvSubmit (demo_work "embed-02" WorkEmbedding None) 25;
    EvSubmit (demo_work "lips-001" WorkLipSync (demo_frame 1)) 30;
    EvSubmit (demo_work "lips-002" WorkLipSync (demo_frame 2)) 40 ].

Definition demo_started : WorkSchedulerV1 := {|
  wk_maximum_pending := 2; wk_sequence := 0; wk_pending := ∅; wk_visual_generation_id := 0;
  wk_visual_frame_id := 0 |}.

Definition demo_queue : WorkSchedulerV1 := {|
  wk_maximum_pending := 2; wk_sequence := 5;
  wk_pending := {[ lit "lips-002" := {| sw_sequence := 5;
                     sw_item := demo_work "lips-002" WorkLipSync (demo_frame 2) |};
                   lit "speech-1" := {| sw_sequence := 2;
                     sw_item := demo_work "speech-1" WorkSpeechSynthesis None |} ]};
  wk_visual_generation_id := 1; wk_visual_frame_id := 2 |}.

Lemma demo_events_run : fst <$> sched_run demo_events demo_started = Some demo_queue.
Proof. vm_compute. reflexivity. Qed.

Lemma scheduler_invariant_witness :
  scheduler_with_policy 2 = Ok demo_started ∧ sched_inv demo_queue.
Proof.
  split; [reflexivity|].
  destruct (scheduler_invariant 2 demo_events demo_started eq_refl ltac:(lia)) as (s'&outs&Hr&_&Hi).
  pose proof demo_events_run as Hq. rewrite Hr in Hq. by injection Hq as <-.
Defined.

Lemma demo_events_outs : ∃ outs, sched_run demo_events demo_started = Some (demo_queue, outs).
Proof.
  pose proof demo_events_run as Hq. destruct (sched_run demo_events demo_started) as [[s outs]|]; [|done].
  injection Hq as ->. by exists outs.
Qed.

(** A take after all deadlines drops both. *)
Lemma scheduler_conserves_work_witness :
  ∃ s' out, sched_step (EvPop 1000) demo_queue = Some (s', out) ∧ wk_pending s' = ∅ ∧
    accounted (EvPop 1000) demo_queue s' out.
Proof.
  destruct demo_events_outs as [outs Hr].
  destruct (scheduler_conserves_work 2 demo_events (EvPop 1000) demo_started demo_queue outs
    eq_refl ltac:(lia) Hr ltac:(unfold u64_max; cbn; lia)) as (s'&out&He&Ha).
  exists s', out. split_and!; [exact He| |exact Ha]. vm_compute in He. by injection He as <- _.
Defined.

Lemma pop_next_takes_the_most_urgent_witness :
  sched_inv demo_queue ∧
  (pop_next 100 demo_queue).2 = Some (demo_work "lips-002" WorkLipSync (demo_frame 2)) ∧
  ∃ k, wk_pending demo_queue !! k ≠ None ∧ wk_pending (pop_next 100 demo_queue).1 !! k = None.
Proof.
  assert (sched_inv demo_queue) as Hi.
  { destruct demo_events_outs as [outs Hr].
    destruct (run_spec demo_events demo_started (scheduler_start 2 _ eq_refl ltac:(lia))) as (s'&outs'&Hr'&Hi&_).
    rewrite Hr in Hr'. by injection Hr' as <- _. }
  split; [exact Hi|]. split; [vm_compute; reflexivity|].
  pose proof (pop_next_takes_the_most_urgent 100 demo_queue Hi) as Hp.
  destruct (pop_next 100 demo_queue) as [s' [item|]] eqn:E.
  - destruct Hp as (k&w&Hk&_&_&Hn&_). exists k. split; [by rewrite Hk|exact Hn].
  - apply (f_equal snd) in E. vm_compute in E. discriminate.
Defined.
