(* ===== verification/Vdf.v ===== *)
(** * The launcher library format ([crates/game-discovery/src/vdf.rs])

    The tokenizer over the UTF-8 bytes of the text, with the index it reports in its
    errors, and the recursive parser over the tokens. A loop of the code is a
    recursion on what is left of the bytes; the slice of a bare token can panic.

    The second half proves that it accepts exactly its grammar and never panics. *)

From S2P Require Import Prelude Text Bytes.

#[local] Open Scope Z_scope.

Inductive VdfValue :=
| VdfText (value : str)
| VdfObject (value : gmap str VdfValue).

Definition as_text (v : VdfValue) : option str :=
  match v with VdfText value => Some value | VdfObject _ => None end.
Definition as_object (v : VdfValue) : option (gmap str VdfValue) :=
  match v with VdfObject value => Some value | VdfText _ => None end.

Inductive VdfError :=
| UnexpectedEnd
| UnexpectedToken (at_ : Z)
| UnterminatedString (at_ : Z)
| UnclosedObject.

Inductive Token :=
| TokenText (value : str)
| TokenOpen
| TokenClose.

(** ** The tokenizer *)

Definition is_blank_byte (b : Z) : bool := (b =? 32) || (b =? 9) || (b =? 13) || (b =? 10).
Definition is_bare_byte (b : Z) : bool := negb (is_blank_byte b || (b =? 123) || (b =? 125)).

(** The inner loop of a comment: up to the line feed. *)
Fixpoint skip_comment (bs : list Z) (index : Z) : list Z * Z :=
  match bs with
  | b :: bs' => if b =? 10 then (bs, index) else skip_comment bs' (index + 1)
  | [] => ([], index)
  end.

(** The inner loop of a bare token. *)
Fixpoint skip_bare (bs : list Z) (index : Z) : list Z * Z :=
  match bs with
  | b :: bs' => if is_bare_byte b then skip_bare bs' (index + 1) else (bs, index)
  | [] => ([], index)
  end.

Definition unescape (b : Z) : char :=
  if b =? 110 then 10 else if b =? 114 then 13 else if b =? 116 then 9 else b.

(** The inner loop of a quoted string that opened at [start]: each byte is pushed as
    one character. *)
Fixpoint quoted (start : Z) (bs : list Z) (index : Z) (value : str)
    : result VdfError (str * list Z * Z) :=
  match bs with
  | [] => Err (UnterminatedString start)
  | b :: bs =>
      if b =? 34 then Ok (value, bs, index + 1) else
      if b =? 92 then
        match bs with
        | [] => Err (UnterminatedString start)
        | escaped :: bs => quoted start bs (index + 2) (value ++ [unescape escaped])
        end else
      quoted start bs (index + 1) (value ++ [b])
  end.

(** One turn of the outer loop at byte [b], [bs] after it: what is left and the token. *)
Definition next_token (input : str) (b : Z) (bs : list Z) (index : Z)
    : outcome (result VdfError (list Z * Z * option Token)) :=
  if is_blank_byte b then Done (Ok (bs, index + 1, None)) else
  if (b =? 47) && bool_decide (head bs = Some 47) then
    let '(rest, index) := skip_comment (tail bs) (index + 2) in Done (Ok (rest, index, None)) else
  if b =? 123 then Done (Ok (bs, index + 1, Some TokenOpen)) else
  if b =? 125 then Done (Ok (bs, index + 1, Some TokenClose)) else
  if b =? 34 then
    Done ('(value, rest, index) ← quoted index bs (index + 1) []; Ok (rest, index, Some (TokenText value)))
  else
    let '(rest, stop) := skip_bare (b :: bs) index in
    if stop =? index then Done (Err (UnexpectedToken index)) else
    text ← of_panic (slice index stop input);
    Done (Ok (rest, stop, Some (TokenText text))).

Fixpoint tokenize_loop (fuel : nat) (input : str) (bs : list Z) (index : Z) (tokens : list Token)
    : outcome (result VdfError (list Token)) :=
  match fuel with
  | 0%nat => OutOfFuel
  | S fuel =>
      match bs with
      | [] => Done (Ok tokens)
      | b :: bs =>
          match next_token input b bs index with
          | Done (Ok (rest, index, token)) =>
              tokenize_loop fuel input rest index (tokens ++ option_list token)
          | Done (Err error) => Done (Err error)
          | Panic => Panic
          | OutOfFuel => OutOfFuel
          end
      end
  end.

(** Each turn of the loop consumes a byte. *)
Definition tokenize (input : str) : outcome (result VdfError (list Token)) :=
  let bs := utf8_encode input in tokenize_loop (S (length bs)) input bs 0 [].

(** ** The parser *)

(** [parse_object] from the tokens that are left, the cursor before them and the
    entries so far; with it come the tokens and the cursor after the object. *)
Fixpoint parse_object (fuel : nat) (tokens : list Token) (cursor : Z) (requires_close : bool)
    (object : gmap str VdfValue)
    : outcome (result VdfError (gmap str VdfValue * list Token * Z)) :=
  match fuel with
  | 0%nat => OutOfFuel
  | S fuel =>
      match tokens with
      | [] => Done (if requires_close then Err UnclosedObject else Ok (object, [], cursor))
      | TokenClose :: tokens =>
          Done (if requires_close then Ok (object, tokens, cursor + 1) else Err (UnexpectedToken cursor))
      | TokenOpen :: _ => Done (Err (UnexpectedToken cursor))
      | TokenText key :: tokens =>
          match tokens with
          | TokenText value :: tokens =>
              parse_object fuel tokens (cursor + 2) requires_close (<[key := VdfText value]> object)
          | TokenOpen :: tokens =>
              match parse_object fuel tokens (cursor + 2) true ∅ with
              | Done (Ok (inner, tokens, cursor)) =>
                  parse_object fuel tokens cursor requires_close (<[key := VdfObject inner]> object)
              | other => other
              end
          | TokenClose :: _ => Done (Err (UnexpectedToken (cursor + 1)))
          | [] => Done (Err UnexpectedEnd)
          end
      end
  end.

(** Each call consumes a token or ends. *)
Definition parse_tokens (tokens : list Token) : outcome (result VdfError (gmap str VdfValue)) :=
  r ← parse_object (S (length tokens)) tokens 0 false ∅;
  Done ('(object, _, _) ← r; Ok object).

Definition vdf_parse (input : str) : outcome (result VdfError (gmap str VdfValue)) :=
  r ← tokenize input;
  match r with
  | Ok tokens => parse_tokens tokens
  | Err error => Done (Err error)
  end.

(** * What the library format parser promises

    The parser accepts exactly the grammar of its tokens, never panics on a text, and
    reads back every object the reference printer writes. *)

#[local] Open Scope Z_scope.

(** ** Byte boundaries *)

Lemma utf8_encode_app s t : utf8_encode (s ++ t) = utf8_encode s ++ utf8_encode t.
Proof. unfold utf8_encode. by rewrite fmap_app, concat_app. Qed.

Lemma utf8_length s : Z.of_nat (length (utf8_encode s)) = str_len s.
Proof.
  induction s as [|c s IH]; [done|]. change (utf8_encode (c :: s)) with (encode_char c ++ utf8_encode s).
  rewrite length_app, Nat2Z.inj_add, IH. cbn. unfold encode_char, len_utf8. by repeat case_match; cbn; lia.
Qed.

Lemma encode_char_high c : is_scalar c → 128 ≤ c → Forall (λ b, 128 ≤ b) (encode_char c).
Proof.
  unfold is_scalar, encode_char. intros Hs Hc.
  repeat case_match; repeat constructor; try lia;
    match goal with |- _ ≤ ?k + ?x => assert (0 ≤ x) by (apply Z.div_pos || apply Z.mod_pos_bound; lia); lia end.
Qed.

(** An ASCII byte of a text is a character of it. *)
Lemma split_ascii s p b rest :
  Forall is_scalar s → utf8_encode s = p ++ b :: rest → 0 ≤ b < 128 →
  ∃ s1 s2, s = s1 ++ b :: s2 ∧ p = utf8_encode s1 ∧ rest = utf8_encode s2.
Proof.
  intros Hs Hp Hb. revert p Hp. induction Hs as [|c s Hc Hs IH]; intros p Hp.
  { by destruct p. }
  change (utf8_encode (c :: s)) with (encode_char c ++ utf8_encode s) in Hp.
  apply app_eq_app in Hp as (l&[[He Hl]|[He Hl]]).
  - destruct (decide (c < 128)) as [Hlt|Hge].
    + unfold encode_char in He. destruct (Z.ltb_spec c 128); [|lia].
      destruct p as [|x p]; cbn in He.
      * subst l. injection Hl as <- ->. exists [], s. done.
      * injection He as <- He. symmetry in He. apply app_nil in He as [-> ->]. cbn in Hl.
        destruct (IH [] (eq_sym Hl)) as (s1&s2&->&H1&->). exists (c :: s1), s2.
        split_and!; [done| |done]. change (utf8_encode (c :: s1)) with (encode_char c ++ utf8_encode s1).
        rewrite <-H1. unfold encode_char. by destruct (Z.ltb_spec c 128); [|lia].
    + pose proof (encode_char_high c Hc ltac:(lia)) as Hh. destruct l as [|x l]; cbn in Hl.
      * rewrite app_nil_r in He. destruct (IH [] (eq_sym Hl)) as (s1&s2&->&H1&->).
        exists (c :: s1), s2. split_and!; [done| |done].
        change (utf8_encode (c :: s1)) with (encode_char c ++ utf8_encode s1).
        by rewrite <-H1, app_nil_r.
      * injection Hl as -> Hl. rewrite He in Hh. apply Forall_app in Hh as [_ [Hh _]%Forall_cons]. lia.
  - destruct (IH l Hl) as (s1&s2&->&->&->). exists (c :: s1), s2. by subst p.
Qed.

Definition ascii_head (rest : list Z) : Prop := rest = [] ∨ ∃ b bs, rest = b :: bs ∧ 0 ≤ b < 128.

Lemma split_boundary s p rest :
  Forall is_scalar s → utf8_encode s = p ++ rest → ascii_head rest →
  ∃ s1 s2, s = s1 ++ s2 ∧ p = utf8_encode s1 ∧ rest = utf8_encode s2.
Proof.
  intros Hs Hp [->|(b&bs&->&Hb)].
  - exists s, []. rewrite !app_nil_r in *. by split_and!.
  - destruct (split_ascii s p b bs Hs Hp Hb) as (s1&s2&->&->&->). exists s1, (b :: s2).
    split_and!; [done..|]. change (utf8_encode (b :: s2)) with (encode_char b ++ utf8_encode s2).
    unfold encode_char. by destruct (Z.ltb_spec b 128); [|lia].
Qed.

(** ** The loops of the tokenizer *)

Lemma skip_comment_spec bs index rest stop :
  skip_comment bs index = (rest, stop) →
  ∃ p, bs = p ++ rest ∧ stop = index + Z.of_nat (length p) ∧ ascii_head rest.
Proof.
  revert index. induction bs as [|b bs IH]; intros index; cbn [skip_comment].
  { intros [= <- <-]. exists []. split_and!; [done|cbn; lia|by left]. }
  destruct (Z.eqb_spec b 10) as [->|].
  - intros [= <- <-]. exists []. split_and!; [done|cbn; lia|]. right. by eexists _, _.
  - intros (p&->&->&Hh)%IH. exists (b :: p). split_and!; [done|cbn [length]; lia|done].
Qed.

Lemma not_bare_ascii b : is_bare_byte b = false → 0 ≤ b < 128.
Proof. unfold is_bare_byte, is_blank_byte. rewrite negb_false_iff, !orb_true_iff, !Z.eqb_eq. lia. Qed.

Lemma skip_bare_spec bs index rest stop :
  skip_bare bs index = (rest, stop) →
  ∃ p, bs = p ++ rest ∧ stop = index + Z.of_nat (length p) ∧ ascii_head rest.
Proof.
  revert index. induction bs as [|b bs IH]; intros index; cbn [skip_bare].
  { intros [= <- <-]. exists []. split_and!; [done|cbn; lia|by left]. }
  destruct (is_bare_byte b) eqn:Hb.
  - intros (p&->&->&Hh)%IH. exists (b :: p). split_and!; [done|cbn [length]; lia|done].
  - intros [= <- <-]. exists []. split_and!; [done|cbn; lia|]. right. eexists _, _.
    split; [done|by apply not_bare_ascii].
Qed.

Lemma quoted_spec start bs index value value' rest stop :
  quoted start bs index value = Ok (value', rest, stop) →
  ∃ p, bs = p ++ 34 :: rest ∧ stop = index + Z.of_nat (length p) + 1.
Proof.
  remember (length bs) as n eqn:Hn. revert bs index value Hn.
  induction (lt_wf n) as [n _ IH]. intros [|b bs] index value ->; cbn [quoted]; [done|].
  destruct (Z.eqb_spec b 34) as [->|].
  { intros [= <- <- <-]. exists []. split; [done|]. cbn. lia. }
  destruct (Z.eqb_spec b 92).
  - destruct bs as [|b' bs]; [done|]. intros Hq. apply (IH (length bs)) in Hq as (p&->&->); [|cbn; lia|done].
    exists (b :: b' :: p). split; [done|]. cbn [length]. lia.
  - intros Hq. apply (IH (length bs)) in Hq as (p&->&->); [|cbn; lia|done]. exists (b :: p). split; [done|].
    cbn [length]. lia.
Qed.

(** Where the tokenizer stands in the text: before [s], after [pre]. *)
Record at_text (input pre s : str) (bs : list Z) (index : Z) : Prop := {
  an_input : input = pre ++ s;
  an_bytes : bs = utf8_encode s;
  an_index : index = str_len pre;
  an_scalar : Forall is_scalar s
}.

(** It moves on over the bytes [p]. *)
Lemma at_text_move input pre s p rest index stop :
  at_text input pre s (p ++ rest) index → stop = index + Z.of_nat (length p) → ascii_head rest →
  ∃ s1 s2, at_text input (pre ++ s1) s2 rest stop ∧ s = s1 ++ s2 ∧ stop = str_len pre + str_len s1.
Proof.
  intros [-> Hb -> Hs] -> Hh. destruct (split_boundary s p rest Hs (eq_sym Hb) Hh) as (s1&s2&->&->&->).
  apply Forall_app in Hs as [_ Hs]. exists s1, s2. rewrite utf8_length. split_and!; [|done|done].
  constructor; [by rewrite <-app_assoc|done|by rewrite str_len_app|done].
Qed.

Lemma at_text_after input pre s p b rest index stop :
  at_text input pre s (p ++ b :: rest) index → stop = index + Z.of_nat (length p) + 1 → 0 ≤ b < 128 →
  ∃ s1 s2, at_text input s1 s2 rest stop.
Proof.
  intros [-> Hb -> Hs] -> Ha. destruct (split_ascii s p b rest Hs (eq_sym Hb) Ha) as (s1&s2&->&->&->).
  apply Forall_app in Hs as [_ [_ Hs]%Forall_cons]. exists (pre ++ s1 ++ [b]), s2. rewrite utf8_length.
  constructor; [by rewrite <-!app_assoc|done| |done]. rewrite !str_len_app. cbn. unfold len_utf8.
  destruct (Z.ltb_spec b 128); lia.
Qed.

(** A turn of the loop goes on with less, stops with an error, and never panics. *)
Lemma next_token_ok input pre s b bs index :
  at_text input pre s (b :: bs) index →
  ∃ r, next_token input b bs index = Done r ∧
    match r with
    | Ok (rest, stop, _) => (length rest < length (b :: bs))%nat ∧ ∃ pre s, at_text input pre s rest stop
    | Err _ => True
    end.
Proof.
  intros Hat. unfold next_token.
  assert (∀ stop, stop = index + 1 → 0 ≤ b < 128 → ∃ pre s, at_text input pre s bs stop) as Hone.
  { intros stop -> Hb. apply (at_text_after _ _ _ [] b bs index _ Hat); [cbn; lia|done]. }
  destruct (is_blank_byte b) eqn:Hblank.
  { eexists. split; [done|]. split; [cbn; lia|]. apply Hone; [done|].
    unfold is_blank_byte in Hblank. rewrite !orb_true_iff, !Z.eqb_eq in Hblank. lia. }
  destruct ((b =? 47) && bool_decide (head bs = Some 47)) eqn:Hc.
  { apply andb_prop in Hc as [->%Z.eqb_eq Hh%bool_decide_eq_true]. destruct bs as [|x bs]; [done|].
    injection Hh as ->. cbn [tail]. destruct (skip_comment bs (index + 2)) as [rest stop] eqn:Hs.
    apply skip_comment_spec in Hs as (p&->&->&Hh). eexists. split; [done|].
    split; [cbn; rewrite length_app; lia|].
    destruct (at_text_move input pre s (47 :: 47 :: p) rest index
      (index + 2 + Z.of_nat (length p)) Hat) as (s1&s2&Hn&_); [cbn [length]; lia|done|by eexists _, _]. }
  destruct (Z.eqb_spec b 123) as [->|]; [eexists; split; [done|]; split; [cbn; lia|by apply Hone]|].
  destruct (Z.eqb_spec b 125) as [->|]; [eexists; split; [done|]; split; [cbn; lia|by apply Hone]|].
  destruct (Z.eqb_spec b 34) as [->|].
  { eexists. split; [done|]. destruct (quoted index bs (index + 1) []) as [[[value rest] stop]|e] eqn:Hq;
      [|done]. apply quoted_spec in Hq as (p&->&->). split; [cbn; rewrite length_app; cbn; lia|].
    apply (at_text_after input pre s (34 :: p) 34 rest index); [done|cbn [length]; lia|lia]. }
  destruct (skip_bare (b :: bs) index) as [rest stop] eqn:Hs.
  apply skip_bare_spec in Hs as (p&Hp&Hstop&Hh). destruct (Z.eqb_spec stop index) as [He|Hne].
  { eexists. by split. }
  rewrite Hp in Hat. destruct (at_text_move input pre s p rest index stop Hat Hstop Hh) as (s1&s2&Hn&->&Hl).
  rewrite (an_index _ _ _ _ _ Hat), Hl.
  assert (slice (str_len pre) (str_len pre + str_len s1) input = Some s1) as ->.
  { rewrite (an_input _ _ _ _ _ Hat). apply slice_app. }
  eexists. split; [done|]. split; [|rewrite Hl in Hn; by eexists _, _].
  rewrite Hp, length_app. destruct p; cbn in *; lia.
Qed.

Lemma tokenize_loop_total fuel input pre s bs index tokens :
  at_text input pre s bs index → (length bs < fuel)%nat →
  ∃ r, tokenize_loop fuel input bs index tokens = Done r.
Proof.
  revert pre s bs index tokens. induction fuel as [|fuel IH]; intros pre s bs index tokens Hat Hf; [lia|].
  cbn [tokenize_loop]. destruct bs as [|b bs]; [by eexists|].
  destruct (next_token_ok input pre s b bs index Hat) as (r&->&Hr).
  destruct r as [[[rest stop] token]|e]; [|by eexists].
  destruct Hr as (Hlen&pre'&s'&Hat'). eapply IH; [exact Hat'|cbn in *; lia].
Qed.

Lemma tokenize_total input : Forall is_scalar input → ∃ r, tokenize input = Done r.
Proof.
  intros Hs. unfold tokenize. eapply (tokenize_loop_total _ input []); [|lia]. by constructor.
Qed.

(** ** The grammar of the tokens *)

(** [denotes tokens m]: the entries, one after the other, build [m]; a later entry of a
    key replaces the earlier one. *)
Inductive denotes : list Token → gmap str VdfValue → Prop :=
| denotes_nil : denotes [] ∅
| denotes_text tokens m key value :
    denotes tokens m →
    denotes (tokens ++ [TokenText key; TokenText value]) (<[key := VdfText value]> m)
| denotes_object tokens m key inner object :
    denotes tokens m → denotes inner object →
    denotes (tokens ++ [TokenText key; TokenOpen] ++ inner ++ [TokenClose])
      (<[key := VdfObject object]> m).

Lemma denotes_app ts1 m1 ts2 m2 : denotes ts1 m1 → denotes ts2 m2 → denotes (ts1 ++ ts2) (m2 ∪ m1).
Proof.
  intros H1. induction 1 as [|ts2 m2 key value _ IH|ts2 m2 key inner object _ IH Hin _].
  - by rewrite app_nil_r, (left_id_L ∅ (∪)).
  - rewrite app_assoc, <-insert_union_l. by constructor.
  - rewrite app_assoc, <-insert_union_l. by constructor.
Qed.

Lemma denotes_one key value : denotes [TokenText key; TokenText value] {[key := VdfText value]}.
Proof. apply (denotes_text [] ∅). constructor. Qed.

Lemma denotes_one_object key inner object :
  denotes inner object →
  denotes ([TokenText key; TokenOpen] ++ inner ++ [TokenClose]) {[key := VdfObject object]}.
Proof. apply (denotes_object [] ∅). constructor. Qed.

(** ** The parser *)

(** More fuel changes nothing. *)
Lemma parse_object_fuel fuel fuel' tokens cursor close object r :
  parse_object fuel tokens cursor close object = Done r → (fuel ≤ fuel')%nat →
  parse_object fuel' tokens cursor close object = Done r.
Proof.
  revert fuel' tokens cursor close object r. induction fuel as [|fuel IH]; [done|].
  intros [|fuel'] tokens cursor close object r Hr Hle; [lia|]. cbn [parse_object] in *.
  destruct tokens as [|[key| |] tokens]; try done. destruct tokens as [|[value| |] tokens]; try done.
  - apply (IH fuel') in Hr; [done|lia].
  - destruct (parse_object fuel tokens (cursor + 2) true ∅) as [r1| |] eqn:E; try done.
    apply (IH fuel') in E; [|lia]. rewrite E. destruct r1 as [[[inner rest] cursor']|e]; [|done].
    apply (IH fuel') in Hr; [done|lia].
Qed.

(** Enough fuel gives a result, and what is left is not longer. *)
Lemma parse_object_total fuel tokens cursor close object :
  (length tokens < fuel)%nat →
  ∃ r, parse_object fuel tokens cursor close object = Done r ∧
    ∀ m rest cursor', r = Ok (m, rest, cursor') → (length rest ≤ length tokens)%nat.
Proof.
  revert tokens cursor close object. induction fuel as [|fuel IH]; intros tokens cursor close object Hf; [lia|].
  cbn [parse_object]. destruct tokens as [|[key| |] tokens]; cbn [length] in *.
  - destruct close; eexists; split; (done || by intros ? ? ? [= _ <- _]).
  - destruct tokens as [|[value| |] tokens]; cbn [length] in *; try (by eexists).
    + destruct (IH tokens (cursor + 2) close (<[key:=VdfText value]> object)) as (r&->&Hr); [lia|].
      eexists. split; [done|]. intros m rest cursor' He. specialize (Hr _ _ _ He). lia.
    + destruct (IH tokens (cursor + 2) true ∅) as (r1&->&Hr1); [lia|].
      destruct r1 as [[[inner rest] cursor1]|e]; [|by eexists]. specialize (Hr1 _ _ _ eq_refl).
      destruct (IH rest cursor1 close (<[key:=VdfObject inner]> object)) as (r&->&Hr); [lia|].
      eexists. split; [done|]. intros m rest' cursor' He. specialize (Hr _ _ _ He). lia.
  - by eexists.
  - destruct close; eexists; split; [done| |done|]; [intros ? ? ? [= _ <- _]; lia|done].
Qed.

(** What follows the entries of an object. *)
Definition closed (close : bool) (suffix rest : list Token) : Prop :=
  if close then suffix = TokenClose :: rest else suffix = [] ∧ rest = [].

Lemma parse_object_sound fuel tokens cursor close object m rest cursor' :
  parse_object fuel tokens cursor close object = Done (Ok (m, rest, cursor')) →
  ∃ ts suffix m0, tokens = ts ++ suffix ∧ closed close suffix rest ∧ denotes ts m0 ∧ m = m0 ∪ object.
Proof.
  revert tokens cursor close object m rest cursor'. induction fuel as [|fuel IH]; [done|].
  intros tokens cursor close object m rest cursor' Hr. cbn [parse_object] in Hr.
  destruct tokens as [|[key| |] tokens].
  - destruct close; [done|]. injection Hr as -> <- _. exists [], [], ∅. rewrite (left_id_L ∅ (∪)).
    split_and!; [done|by split|constructor|done].
  - destruct tokens as [|[value| |] tokens]; [done| | |done].
    + apply IH in Hr as (ts&suffix&m0&->&Hc&Hd&->).
      exists ([TokenText key; TokenText value] ++ ts), suffix, (m0 ∪ {[key := VdfText value]}).
      split_and!; [done|done|by apply denotes_app; [apply denotes_one|]|].
      by rewrite <-(assoc_L (∪)), <-insert_union_singleton_l.
    + destruct (parse_object fuel tokens (cursor + 2) true ∅) as [[[[inner rest1] cursor1]|e]| |] eqn:E;
        try done. apply IH in E as (ts1&suffix1&m1&->&Hc1&Hd1&->). cbn in Hc1. subst suffix1.
      rewrite (right_id_L ∅ (∪)) in Hr. apply IH in Hr as (ts&suffix&m0&->&Hc&Hd&->).
      exists (([TokenText key; TokenOpen] ++ ts1 ++ [TokenClose]) ++ ts), suffix,
        (m0 ∪ {[key := VdfObject m1]}).
      split_and!; [by rewrite <-!app_assoc|done|by apply denotes_app; [apply denotes_one_object|]|].
      by rewrite <-(assoc_L (∪)), <-insert_union_singleton_l.
  - done.
  - destruct close; [|done]. injection Hr as -> <- _. exists [], (TokenClose :: tokens), ∅.
    rewrite (left_id_L ∅ (∪)). split_and!; [done|done|constructor|done].
Qed.

(** Entries at the front are parsed into the object, whatever follows them. *)
Lemma parse_object_entries ts m :
  denotes ts m →
  ∀ fuel rest cursor close object r,
    parse_object fuel rest (cursor + Z.of_nat (length ts)) close (m ∪ object) = Done r →
    parse_object (fuel + length ts) (ts ++ rest) cursor close object = Done r.
Proof.
  induction 1 as [|ts m key value _ IH|ts m key inner inner_m _ IH _ IHi];
    intros fuel rest cursor close object r Hr.
  - rewrite (left_id_L ∅ (∪)), Z.add_0_r, Nat.add_0_r in *. done.
  - rewrite <-app_assoc, length_app in *. cbn [length] in *. rewrite Nat.add_comm.
    apply (parse_object_fuel (S fuel + length ts)); [|lia]. apply IH. cbn [app parse_object].
    rewrite insert_union_l. rewrite <-Hr. f_equal. lia.
  - rewrite <-app_assoc, !length_app in *. cbn [length] in *.
    apply (parse_object_fuel (S (fuel + length inner + 1) + length ts)); [|lia]. apply IH.
    rewrite <-!app_assoc. cbn [app parse_object].
    assert (parse_object (fuel + length inner + 1) (inner ++ TokenClose :: rest)
      (cursor + Z.of_nat (length ts) + 2) true ∅ =
      Done (Ok (inner_m, rest, cursor + Z.of_nat (length ts) + 2 + Z.of_nat (length inner) + 1))) as ->.
    { apply (parse_object_fuel (1 + length inner)); [|lia]. apply IHi. cbn [parse_object].
      by rewrite (right_id_L ∅ (∪)). }
    rewrite insert_union_l. apply (parse_object_fuel fuel); [|lia]. rewrite <-Hr. f_equal. lia.
Qed.

Lemma parse_tokens_exact tokens :
  ∃ r, parse_tokens tokens = Done r ∧ ∀ m, r = Ok m ↔ denotes tokens m.
Proof.
  unfold parse_tokens. destruct (parse_object_total (S (length tokens)) tokens 0 false ∅) as (r&Hr&_); [lia|].
  rewrite Hr. eexists. split; [done|]. intros m. split.
  - destruct r as [[[m' rest] cursor]|e]; [|done]. cbn. intros [= ->].
    apply parse_object_sound in Hr as (ts&suffix&m0&->&[-> _]&Hd&->).
    by rewrite app_nil_r, (right_id_L ∅ (∪)).
  - intros Hd. pose proof (parse_object_entries tokens m Hd 1 [] 0 false ∅
      (Ok (m ∪ ∅, [], 0 + Z.of_nat (length tokens))) eq_refl) as Hp.
    rewrite app_nil_r in Hp. change (1 + length tokens)%nat with (S (length tokens)) in Hp.
    rewrite Hp in Hr. injection Hr as <-. cbn. by rewrite (right_id_L ∅ (∪)).
Qed.

(** the library format parser accepts exactly its grammar. On every text the parser
    ends without a panic; it returns an object if and only if the text splits into
    tokens that are, entry by entry, that object, nested to any depth, with the last
    entry of a repeated key. *)
Theorem vdf_parse_exact input :
  Forall is_scalar input →
  ∃ r, vdf_parse input = Done r ∧
    ∀ m, r = Ok m ↔ ∃ tokens, tokenize input = Done (Ok tokens) ∧ denotes tokens m.
Proof.
  intros Hs. unfold vdf_parse. destruct (tokenize_total input Hs) as ([tokens|e]&->); cbn [mbind outcome_bind].
  - destruct (parse_tokens_exact tokens) as (r&->&Hr). exists r. split; [done|]. intros m. rewrite Hr.
    split; [by exists tokens|]. by intros (ts&[= <-]&?).
  - eexists. split; [done|]. intros m. split; [done|]. by intros (ts&?&_).
Qed.

(** ** The reference printer *)

(** A value as tokens. *)
Fixpoint value_tokens (v : VdfValue) : list Token :=
  match v with
  | VdfText value => [TokenText value]
  | VdfObject m => TokenOpen :: map_fold (λ key v tokens, TokenText key :: value_tokens v ++ tokens) [TokenClose] m
  end.
Definition object_tokens (m : gmap str VdfValue) : list Token :=
  map_fold (λ key v tokens, TokenText key :: value_tokens v ++ tokens) [] m.

Fixpoint vdf_depth (v : VdfValue) : nat :=
  match v with
  | VdfText _ => 0
  | VdfObject m => S (map_fold (λ _ v n, vdf_depth v `max` n)%nat 0%nat m)
  end.

Lemma VdfValue_ind' (P : VdfValue → Prop) :
  (∀ value, P (VdfText value)) → (∀ m, map_Forall (λ _ v, P v) m → P (VdfObject m)) → ∀ v, P v.
Proof.
  intros Ht Ho v. remember (vdf_depth v) as n eqn:Hn. assert (vdf_depth v ≤ n)%nat as Hle by lia. clear Hn.
  revert v Hle. induction n as [|n IH]; intros [value|m] Hle; cbn in Hle; try done; [lia|].
  apply Ho. apply le_S_n in Hle. revert Hle.
  apply (map_fold_weak_ind (λ d m, (d ≤ n)%nat → map_Forall (λ _ v, P v) m)).
  - intros _. apply map_Forall_empty.
  - intros k v m' d _ IHm Hd. apply map_Forall_insert_2; [apply IH; lia|apply IHm; lia].
Qed.

Definition entry_tokens (kv : str * VdfValue) : list Token := TokenText kv.1 :: value_tokens kv.2.

Lemma fold_tokens (m : gmap str VdfValue) rest :
  map_fold (λ key v tokens, TokenText key :: value_tokens v ++ tokens) rest m =
  concat (entry_tokens <$> map_to_list m) ++ rest.
Proof.
  rewrite map_fold_foldr. induction (map_to_list m) as [|[k v] l IH]; [done|]. cbn in *.
  by rewrite IH, <-app_assoc.
Qed.

Lemma object_tokens_eq m : object_tokens m = concat (entry_tokens <$> map_to_list m).
Proof. unfold object_tokens. by rewrite fold_tokens, app_nil_r. Qed.

Lemma value_tokens_object m : value_tokens (VdfObject m) = [TokenOpen] ++ object_tokens m ++ [TokenClose].
Proof. cbn. by rewrite fold_tokens, object_tokens_eq. Qed.

Lemma denotes_entries (l : list (str * VdfValue)) :
  NoDup l.*1 → Forall (λ kv, denotes (entry_tokens kv) {[kv.1 := kv.2]}) l →
  denotes (concat (entry_tokens <$> l)) (list_to_map l).
Proof.
  intros Hnd. induction 1 as [|[k v] l Hkv _ IH]; [constructor|]. rewrite fmap_cons in Hnd.
  apply NoDup_cons in Hnd as [Hk Hnd]. rewrite list_to_map_cons, fmap_cons. cbn [concat].
  assert (<[k := v]> (list_to_map l) = list_to_map l ∪ {[k := v]} :> gmap str VdfValue) as ->.
  { rewrite insert_union_singleton_l. apply map_union_comm. apply map_disjoint_singleton_l.
    by apply not_elem_of_list_to_map_1. }
  apply denotes_app; [done|by apply IH].
Qed.

(** What the printer writes denotes what it was given. *)
Lemma object_tokens_denote m : denotes (object_tokens m) m.
Proof.
  assert (∀ v, match v with VdfObject m => denotes (object_tokens m) m | VdfText _ => True end) as Hall.
  { apply VdfValue_ind'; [done|]. clear m. intros m Hm. rewrite object_tokens_eq.
    rewrite <-(list_to_map_to_list m) at 2. apply denotes_entries; [apply NoDup_fst_map_to_list|].
    apply Forall_forall. intros [k v] Hkv%elem_of_map_to_list. specialize (Hm k v Hkv). unfold entry_tokens.
    cbn [fst snd]. destruct v as [value|inner]; [apply denotes_one|].
    rewrite value_tokens_object. by apply denotes_one_object. }
  apply (Hall (VdfObject m)).
Qed.

(** Tokens as text. *)
Definition escape_char (c : char) : str :=
  if c =? 34 then [92; 34] else if c =? 92 then [92; 92] else if c =? 10 then [92; 110] else
  if c =? 13 then [92; 114] else if c =? 9 then [92; 116] else [c].

Definition print_token (t : Token) : str :=
  match t with
  | TokenText value => [34] ++ concat (escape_char <$> value) ++ [34; 32]
  | TokenOpen => [123; 32]
  | TokenClose => [125; 32]
  end.
Definition print_tokens (tokens : list Token) : str := concat (print_token <$> tokens).

Definition is_ascii_text (s : str) : bool := forallb (λ c, (0 <=? c) && (c <? 128)) s.
Definition ascii_token (t : Token) : bool :=
  match t with TokenText value => is_ascii_text value | _ => true end.

Lemma ascii_encode s : is_ascii_text s = true → utf8_encode s = s.
Proof.
  induction s as [|c s IH]; [done|]. cbn [is_ascii_text forallb]. intros [Hc Hs]%andb_prop.
  change (utf8_encode (c :: s)) with (encode_char c ++ utf8_encode s). rewrite IH by done.
  unfold encode_char. destruct (Z.ltb_spec c 128); [done|lia].
Qed.

Lemma is_ascii_app s t : is_ascii_text (s ++ t) = is_ascii_text s && is_ascii_text t.
Proof. apply forallb_app. Qed.

Lemma print_ascii tokens : forallb ascii_token tokens = true → is_ascii_text (print_tokens tokens) = true.
Proof.
  induction tokens as [|t tokens IH]; [done|]. cbn [forallb]. intros [Ht Hts]%andb_prop.
  change (print_tokens (t :: tokens)) with (print_token t ++ print_tokens tokens).
  rewrite is_ascii_app, IH, andb_true_r by done. destruct t as [value| |]; [|done..].
  cbn [print_token ascii_token] in *. rewrite !is_ascii_app. cbn. rewrite andb_true_r.
  induction value as [|c value IHv]; [done|]. cbn in Ht |- *. apply andb_prop in Ht as [Hc Hv].
  rewrite is_ascii_app, IHv, andb_true_r by done. unfold escape_char. repeat case_match; try done. cbn.
  by rewrite Hc.
Qed.

Lemma quoted_print start value rest index prefix :
  ∃ stop, quoted start (concat (escape_char <$> value) ++ 34 :: rest) index prefix =
    Ok (prefix ++ value, rest, stop).
Proof.
  revert index prefix. induction value as [|c value IH]; intros index prefix.
  { eexists. cbn. by rewrite app_nil_r. }
  cbn [fmap list_fmap concat]. rewrite <-app_assoc.
  assert (prefix ++ c :: value = (prefix ++ [c]) ++ value) as -> by by rewrite <-app_assoc.
  destruct (IH (index + 2) (prefix ++ [c])) as (stop&Hs). destruct (IH (index + 1) (prefix ++ [c])) as (stop'&Hs').
  unfold escape_char.
  destruct (Z.eqb_spec c 34) as [->|]; [exists stop; cbn; by rewrite <-Hs|].
  destruct (Z.eqb_spec c 92) as [->|]; [exists stop; cbn; by rewrite <-Hs|].
  destruct (Z.eqb_spec c 10) as [->|]; [exists stop; cbn; by rewrite <-Hs|].
  destruct (Z.eqb_spec c 13) as [->|]; [exists stop; cbn; by rewrite <-Hs|].
  destruct (Z.eqb_spec c 9) as [->|]; [exists stop; cbn; by rewrite <-Hs|].
  exists stop'. cbn [app quoted]. by rewrite (proj2 (Z.eqb_neq c 34)), (proj2 (Z.eqb_neq c 92)) by done.
Qed.

Lemma tokenize_step fuel input b bs index acc :
  tokenize_loop (S fuel) input (b :: bs) index acc =
  match next_token input b bs index with
  | Done (Ok (rest, index, token)) => tokenize_loop fuel input rest index (acc ++ option_list token)
  | Done (Err error) => Done (Err error)
  | Panic => Panic
  | OutOfFuel => OutOfFuel
  end.
Proof. done. Qed.

Lemma tokenize_print fuel input tokens index acc :
  (length (print_tokens tokens) < fuel)%nat →
  tokenize_loop fuel input (print_tokens tokens) index acc = Done (Ok (acc ++ tokens)).
Proof.
  revert fuel index acc. induction tokens as [|t tokens IH]; intros fuel index acc Hf.
  { destruct fuel; [lia|]. cbn. by rewrite app_nil_r. }
  change (print_tokens (t :: tokens)) with (print_token t ++ print_tokens tokens) in *.
  rewrite length_app in Hf.
  assert (∀ n i acc, (length (print_tokens tokens) < n)%nat →
    tokenize_loop (S n) input (32 :: print_tokens tokens) i acc = Done (Ok (acc ++ tokens))) as Hspace.
  { intros n i acc' Hn. rewrite tokenize_step. change (next_token input 32 (print_tokens tokens) i) with
      (Done (Ok (print_tokens tokens, i + 1, None)) : outcome (result VdfError (list Z * Z * option Token))).
    cbn match. cbn [option_list]. rewrite IH by lia. by rewrite app_nil_r. }
  destruct fuel as [|[|fuel]]; [lia|destruct t; cbn in Hf; lia|].
  destruct t as [value| |]; cbn [print_token app length] in *.
  - rewrite <-!app_assoc. cbn [app]. rewrite tokenize_step.
    change (next_token input 34 ?bs index) with (Done ('(value, rest, index) ← quoted index bs (index + 1) [];
      Ok (rest, index, Some (TokenText value))) : outcome (result VdfError (list Z * Z * option Token))).
    destruct (quoted_print index value (32 :: print_tokens tokens) (index + 1) []) as (stop&->).
    cbn [mbind result_bind app option_list]. rewrite Hspace; [by rewrite <-app_assoc|].
    rewrite !length_app in Hf. cbn in Hf. lia.
  - rewrite tokenize_step. change (next_token input 123 (32 :: print_tokens tokens) index) with
      (Done (Ok (32 :: print_tokens tokens, index + 1, Some TokenOpen)) : outcome (result VdfError (list Z * Z * option Token))).
    cbn match. cbn [option_list]. rewrite Hspace by lia. by rewrite <-app_assoc.
  - rewrite tokenize_step. change (next_token input 125 (32 :: print_tokens tokens) index) with
      (Done (Ok (32 :: print_tokens tokens, index + 1, Some TokenClose)) : outcome (result VdfError (list Z * Z * option Token))).
    cbn match. cbn [option_list]. rewrite Hspace by lia. by rewrite <-app_assoc.
Qed.

(** the library format parser reads back what is written. Every object whose keys
    and texts are ASCII, however deep, printed with quotes, escapes and blanks, parses
    to exactly that object. *)
Theorem vdf_roundtrip m :
  forallb ascii_token (object_tokens m) = true →
  vdf_parse (print_tokens (object_tokens m)) = Done (Ok m).
Proof.
  intros Ha. unfold vdf_parse, tokenize. rewrite ascii_encode by (by apply print_ascii).
  rewrite tokenize_print by lia. cbn [mbind outcome_bind app].
  destruct (parse_tokens_exact (object_tokens m)) as (r&->&Hr). f_equal. apply Hr, object_tokens_denote.
Qed.

(** ** Witnesses *)

Definition demo_library : gmap str VdfValue :=
  {[ lit "libraryfolders" := VdfObject {[ lit "0" :=
       VdfObject {[ lit "path" := VdfText (lit "C:\Games\Steam") ]} ]} ]}.

Lemma vdf_roundtrip_witness :
  forallb ascii_token (object_tokens demo_library) = true ∧
  vdf_parse (print_tokens (object_tokens demo_library)) = Done (Ok demo_library).
Proof. split; [vm_compute; reflexivity|]. apply vdf_roundtrip. vm_compute. reflexivity. Defined.

(** A comment, a bare key and a repeated key. *)
Definition demo_text : str := lit "// launcher" ++ [10] ++ lit "path { a b } path c".

Lemma vdf_parse_exact_witness :
  Forall is_scalar demo_text ∧ vdf_parse demo_text = Done (Ok {[ lit "path" := VdfText (lit "c") ]}) ∧
  ∃ r, vdf_parse demo_text = Done r ∧
    ∀ m, r = Ok m ↔ ∃ tokens, tokenize demo_text = Done (Ok tokens) ∧ denotes tokens m.
Proof.
  assert (Forall is_scalar demo_text) as Hs by (apply is_scalar_all; vm_compute; reflexivity).
  split; [exact Hs|]. split; [vm_compute; reflexivity|]. exact (vdf_parse_exact demo_text Hs).
Defined.

(** ** What the code does not mean to do *)

(** A quoted path with a letter outside ASCII (an e with an acute accent) is read as
    the characters of its UTF-8 bytes, while the same text without quotes is kept. *)
Lemma quoted_text_is_not_decoded :
  vdf_parse ([34; 107; 34; 34; 233; 34]) = Done (Ok {[ lit "k" := VdfText [195; 169] ]}) ∧
  vdf_parse ([107; 32; 233]) = Done (Ok {[ lit "k" := VdfText [233] ]}).
Proof. split; vm_compute; reflexivity. Qed.

(** The position of an unexpected token counts tokens, not bytes. *)
Lemma error_position_counts_tokens :
  vdf_parse (lit "longkey  longvalue }") = Done (Err (UnexpectedToken 2)).
Proof. vm_compute. reflexivity. Qed.
