(* ===== verification/ProtoEvents.v ===== *)
(** * The transport protocol: identifiers, versions and errors
    ([crates/protocol/src/ids.rs], [version.rs], [error.rs], [safety.rs])

    An identifier is the bytes of the one newtype the macro defines six times.

    Then the events of a provider and their validation ([events.rs]). *)

From S2P Require Import Prelude Text Float.

#[local] Open Scope Z_scope.

(** ** Identifiers *)

Record ProtoId := { id_value : list Z }.
#[export] Instance ProtoId_eq_dec : EqDecision ProtoId.
Proof. solve_decision. Defined.

Inductive IdError :=
| IdInvalidLength (length : Z)
| IdNil.

Definition ID_BYTE_LEN : Z := 16.

Definition id_from_bytes (bytes : list Z) : result IdError ProtoId :=
  if negb (Z.of_nat (length bytes) =? ID_BYTE_LEN)
  then Err (IdInvalidLength (Z.of_nat (length bytes))) else
  if forallb (λ byte, byte =? 0) bytes then Err IdNil else
  Ok {| id_value := bytes |}.

Definition id_validate (id : ProtoId) : result IdError unit :=
  _ ← id_from_bytes (id_value id); Ok tt.

(** ** Versions *)

Record ProtocolVersion := {
  pv_major : Z;
  pv_minor : Z;
  pv_patch : Z
}.
#[export] Instance ProtocolVersion_eq_dec : EqDecision ProtocolVersion.
Proof. solve_decision. Defined.

(** The derived order: field by field. *)
#[export] Instance ProtocolVersion_ordered : Ordered ProtocolVersion.
Proof.
  refine {| ocmp x y := ocmp (pv_major x, (pv_minor x, pv_patch x)) (pv_major y, (pv_minor y, pv_patch y)) |}.
  - intros [] []. rewrite ocmp_Eq. cbn. naive_solver.
  - intros [] []. apply ocmp_opp.
  - intros [] [] []. apply ocmp_trans.
Defined.

Definition ver_leb (x y : ProtocolVersion) : bool :=
  match ocmp x y with Gt => false | _ => true end.
(** [Ord::max] and [Ord::min]. *)
Definition ver_max (x y : ProtocolVersion) : ProtocolVersion := if ver_leb x y then y else x.
Definition ver_min (x y : ProtocolVersion) : ProtocolVersion := if ver_leb x y then x else y.

Definition V1_0_0 : ProtocolVersion := {| pv_major := 1; pv_minor := 0; pv_patch := 0 |}.

Definition wire_compatible_with (x y : ProtocolVersion) : bool :=
  negb (pv_major x =? 0) && (pv_major x =? pv_major y).

Record VersionRange := {
  vr_minimum : ProtocolVersion;
  vr_maximum : ProtocolVersion
}.

Definition RANGE_V1 : VersionRange := {| vr_minimum := V1_0_0; vr_maximum := V1_0_0 |}.

Inductive NegotiationError :=
| UnstableVersion | InvertedRange | CrossMajorRange | MissingRange | NoOverlap.

Definition range_validate (r : VersionRange) : result NegotiationError unit :=
  if (pv_major (vr_minimum r) =? 0) || (pv_major (vr_maximum r) =? 0) then Err UnstableVersion else
  if negb (ver_leb (vr_minimum r) (vr_maximum r)) then Err InvertedRange else
  ensure (pv_major (vr_minimum r) =? pv_major (vr_maximum r)) CrossMajorRange.

Definition range_new (minimum maximum : ProtocolVersion) : result NegotiationError VersionRange :=
  let range := {| vr_minimum := minimum; vr_maximum := maximum |} in
  _ ← range_validate range; Ok range.

Definition range_contains_version (r : VersionRange) (v : ProtocolVersion) : bool :=
  (pv_major v =? pv_major (vr_minimum r)) && ver_leb (vr_minimum r) v && ver_leb v (vr_maximum r).

Record NegotiationHelloV1 := {
  nh_minimum : option ProtocolVersion;
  nh_maximum : option ProtocolVersion;
  nh_optional_features : list str;
  nh_peer_name : str;
  nh_peer_build : str
}.

Definition hello_range (h : NegotiationHelloV1) : result NegotiationError VersionRange :=
  minimum ← ok_or (nh_minimum h) MissingRange;
  maximum ← ok_or (nh_maximum h) MissingRange;
  range_new minimum maximum.

Record NegotiationAcceptedV1 := {
  na_selected : option ProtocolVersion;
  na_enabled_features : list str
}.

Definition negotiate (local remote : VersionRange) : result NegotiationError ProtocolVersion :=
  _ ← range_validate local;
  _ ← range_validate remote;
  if negb (pv_major (vr_minimum local) =? pv_major (vr_minimum remote)) then Err NoOverlap else
  let minimum := ver_max (vr_minimum local) (vr_minimum remote) in
  let maximum := ver_min (vr_maximum local) (vr_maximum remote) in
  if negb (ver_leb minimum maximum) then Err NoOverlap else Ok maximum.

(** ** Errors on the wire *)

Inductive ErrorCode :=
| CodeUnspecified | InvalidArgument | CodeUnsupportedVersion | UnauthorizedPeer | CodeStaleLaunch
| CodeWrongSession | OutOfOrder | CodeSequenceGap | CodeDeadlineExceeded | CodeCancelled
| PayloadTooLarge | MalformedPayload | ProviderUnavailable | ProviderRateLimited
| ModelUnavailable | DeviceUnavailable | WorkerQuarantined | PolicyBlocked | CodeInternal.
#[export] Instance ErrorCode_eq_dec : EqDecision ErrorCode.
Proof. solve_decision. Defined.

(** [ErrorCode::try_from]: the discriminants from 0. *)
Definition ERROR_CODES : list ErrorCode :=
  [CodeUnspecified; InvalidArgument; CodeUnsupportedVersion; UnauthorizedPeer; CodeStaleLaunch;
   CodeWrongSession; OutOfOrder; CodeSequenceGap; CodeDeadlineExceeded; CodeCancelled;
   PayloadTooLarge; MalformedPayload; ProviderUnavailable; ProviderRateLimited; ModelUnavailable;
   DeviceUnavailable; WorkerQuarantined; PolicyBlocked; CodeInternal].

(** The variant of a discriminant; a negative number has none. *)
Definition discriminant {A} (variants : list A) (n : Z) : option A :=
  if n <? 0 then None else variants !! Z.to_nat n.

Record IpcErrorV1 := {
  ie_code : Z;
  ie_message : str;
  ie_retryable : bool;
  ie_retry_after_ms : option Z;
  ie_stage : str;
  ie_details : gmap str str
}.

Definition error_code (e : IpcErrorV1) : ErrorCode :=
  default CodeUnspecified (discriminant ERROR_CODES (ie_code e)).

Inductive IpcErrorValidationError :=
| UnknownCode | InvalidMessage | InvalidDetails | ContradictoryRetry | InvalidRetryDelay.

Definition ipc_error_validate (e : IpcErrorV1) : result IpcErrorValidationError unit :=
  _ ← ensure (negb (bool_decide (error_code e = CodeUnspecified))) UnknownCode;
  _ ← ensure (negb (is_blank (ie_message e) || (16384 <? str_len (ie_message e)))) InvalidMessage;
  _ ← ensure (negb ((128 <? str_len (ie_stage e)) || (64 <? Z.of_nat (size (ie_details e)))
                    || existsb (λ kv, str_is_empty kv.1 || (128 <? str_len kv.1) || (4096 <? str_len kv.2))
                         (map_to_list (ie_details e)))) InvalidDetails;
  _ ← ensure (negb (negb (ie_retryable e) && is_some (ie_retry_after_ms e))) ContradictoryRetry;
  ensure (negb (is_some_and (ie_retry_after_ms e) (λ delay, (delay =? 0) || (86400000 <? delay))))
    InvalidRetryDelay.

(** ** Safety evidence of a turn *)

Inductive TurnSafetyEvidenceStateV1 := VerifiedSafe | ConsoleIsolated | SafetyUnknown | SafetyBlocked.
Inductive TurnProfileSafetyPolicyV1 :=
| SyntheticFixture | SinglePlayerOnly | OfflineOnly | ConsoleIsolatedNoGameInteraction | PolicyUnknown.

Record TurnSafetyContextV1 := {
  sc_evidence_state : TurnSafetyEvidenceStateV1;
  sc_profile_policy : TurnProfileSafetyPolicyV1;
  sc_visuals_allowed : bool;
  sc_protected_online_detected : bool;
  sc_anti_cheat_detected : bool
}.

Inductive TurnSafetyContextErrorV1 :=
| UnverifiedOrMismatched | ConsoleVisualsForbidden | ProtectedOnlineDetected | AntiCheatDetected.

Definition pair_admitted (s : TurnSafetyEvidenceStateV1) (p : TurnProfileSafetyPolicyV1) : bool :=
  match s, p with
  | VerifiedSafe, (SyntheticFixture | SinglePlayerOnly | OfflineOnly) => true
  | ConsoleIsolated, ConsoleIsolatedNoGameInteraction => true
  | _, _ => false
  end.

Definition validate_admitted (c : TurnSafetyContextV1) : result TurnSafetyContextErrorV1 unit :=
  _ ← ensure (pair_admitted (sc_evidence_state c) (sc_profile_policy c)) UnverifiedOrMismatched;
  _ ← ensure (negb (match sc_evidence_state c with ConsoleIsolated => sc_visuals_allowed c | _ => false end))
        ConsoleVisualsForbidden;
  _ ← ensure (negb (sc_protected_online_detected c)) ProtectedOnlineDetected;
  ensure (negb (sc_anti_cheat_detected c)) AntiCheatDetected.

(** * The transport protocol: provider events and effects
    ([crates/protocol/src/events.rs], [effects.rs])

    The messages a provider's stream is carried in, and their validation. The JSON
    parameters of an action are read by an external crate: [is_json_object]. *)

#[local] Open Scope Z_scope.

Definition MAX_AUDIO_CHUNK_BYTES : Z := 1024 * 1024.
Definition MAX_TEXT_BYTES : Z := 256 * 1024.

Record ProviderEventMetadataV1 := {
  em_provider_id : str;
  em_model_id : str;
  em_request_id : option ProtoId;
  em_provider_sequence : Z;
  em_provider_elapsed_ms : Z
}.

Inductive AudioEncoding := EncodingUnspecified | PcmS16Le | PcmF32Le | Opus | Mp3 | Wav.
#[export] Instance AudioEncoding_eq_dec : EqDecision AudioEncoding.
Proof. solve_decision. Defined.
Definition AUDIO_ENCODINGS : list AudioEncoding := [EncodingUnspecified; PcmS16Le; PcmF32Le; Opus; Mp3; Wav].

Inductive EventValidationError :=
| MissingKind | MissingMetadata | InvalidRequestId | ZeroEventSequence | EmptyEventText
| EventTextTooLarge (bytes : Z) | MetadataTooLarge | UnknownEnum (name : str)
| NonFiniteOrOutOfRange (name : str) | InvalidTimeRange | InvalidTextRange
| InvalidAudioFormat (why : str) | MissingAudioFormat | AudioChunkSize (bytes : Z)
| MalformedError | MalformedCancellation.

Abbreviation event_check := (result EventValidationError unit) (only parsing).

Record AudioFormatV1 := {
  af_encoding : Z;
  af_sample_rate_hz : Z;
  af_channels : Z;
  af_bits_per_sample : Z
}.

Definition audio_format_validate (f : AudioFormatV1) : event_check :=
  match discriminant AUDIO_ENCODINGS (af_encoding f) with
  | None | Some EncodingUnspecified => Err (UnknownEnum (lit "audio encoding"))
  | Some encoding =>
      _ ← ensure ((8000 <=? af_sample_rate_hz f) && (af_sample_rate_hz f <=? 192000))
            (InvalidAudioFormat (lit "sample rate must be between 8 kHz and 192 kHz"));
      _ ← ensure ((1 <=? af_channels f) && (af_channels f <=? 8))
            (InvalidAudioFormat (lit "channel count must be between 1 and 8"));
      match encoding with
      | PcmS16Le => ensure (af_bits_per_sample f =? 16) (InvalidAudioFormat (lit "PCM S16 must use 16 bits"))
      | PcmF32Le => ensure (af_bits_per_sample f =? 32) (InvalidAudioFormat (lit "PCM F32 must use 32 bits"))
      | _ => ensure (af_bits_per_sample f =? 0) (InvalidAudioFormat
               (lit "compressed/container formats must report zero bits per sample"))
      end
  end.

Inductive EndpointReason :=
| ReasonUnspecified | PushToTalkReleased | VoiceActivitySilence | ProviderEndpoint | MaximumDuration
| ManualStop.
Definition ENDPOINT_REASONS : list EndpointReason :=
  [ReasonUnspecified; PushToTalkReleased; VoiceActivitySilence; ProviderEndpoint; MaximumDuration; ManualStop].

Record TranscriptSegmentV1 := {
  ts_text : str;
  ts_language : str;
  ts_confidence : option f32;
  ts_stability : option f32;
  ts_start_ms : Z;
  ts_end_ms : Z;
  ts_provider_segment_id : str
}.

(** ** The shared checks *)

Definition event_text (text : str) (allow_empty : bool) : event_check :=
  _ ← ensure (allow_empty || negb (is_blank text)) EmptyEventText;
  ensure (str_len text <=? MAX_TEXT_BYTES) (EventTextTooLarge (str_len text)).

Definition unit_interval (value : option f32) (name : str) : event_check :=
  ensure (is_none_or value (λ v, is_finite v && range_contains f_zero f32_one v))
    (NonFiniteOrOutOfRange name).

Definition validate_metadata (metadata : option ProviderEventMetadataV1) : event_check :=
  metadata ← ok_or metadata MissingMetadata;
  _ ← ensure (negb (str_is_empty (em_provider_id metadata) || (128 <? str_len (em_provider_id metadata))
                    || (512 <? str_len (em_model_id metadata)))) MetadataTooLarge;
  request ← ok_or (em_request_id metadata) InvalidRequestId;
  _ ← ensure (is_ok (id_validate request)) InvalidRequestId;
  ensure (negb (em_provider_sequence metadata =? 0)) ZeroEventSequence.

Definition validate_error (e : IpcErrorV1) : event_check := ensure (is_ok (ipc_error_validate e)) MalformedError.

Record CancelledV1 := {
  cv_reason : str;
  cv_observed_generation : Z
}.

Definition validate_cancelled (c : CancelledV1) : event_check :=
  ensure (str_len (cv_reason c) <=? 1024) MalformedCancellation.

(** ** Speech recognition *)

Definition segment_validate (s : TranscriptSegmentV1) (allow_empty : bool) : event_check :=
  _ ← event_text (ts_text s) allow_empty;
  _ ← unit_interval (ts_confidence s) (lit "confidence");
  _ ← unit_interval (ts_stability s) (lit "stability");
  _ ← ensure (ts_start_ms s <=? ts_end_ms s) InvalidTimeRange;
  ensure (negb ((64 <? str_len (ts_language s)) || (256 <? str_len (ts_provider_segment_id s))))
    MetadataTooLarge.

Record SpeechActivityV1 := {
  sa_active : bool;
  sa_probability : f32;
  sa_rms_dbfs : f32
}.

Record EndpointDetectedV1 := {
  ed_reason : Z;
  ed_captured_audio_ms : Z
}.

Inductive SttKind :=
| SttStarted (format : AudioFormatV1)
| SttPartial (segment : TranscriptSegmentV1)
| SttFinal (segment : TranscriptSegmentV1)
| SttSpeechActivity (activity : SpeechActivityV1)
| SttEndpoint (endpoint : EndpointDetectedV1)
| SttFailed (error : IpcErrorV1)
| SttCancelled (cancelled : CancelledV1).

Record SttEventV1 := {
  stt_metadata : option ProviderEventMetadataV1;
  stt_kind : option SttKind
}.

Definition endpoint_validate (e : EndpointDetectedV1) : event_check :=
  match discriminant ENDPOINT_REASONS (ed_reason e) with
  | None | Some ReasonUnspecified => Err (UnknownEnum (lit "endpoint reason"))
  | Some _ => Ok tt
  end.

Definition stt_event_validate (e : SttEventV1) : event_check :=
  _ ← validate_metadata (stt_metadata e);
  kind ← ok_or (stt_kind e) MissingKind;
  match kind with
  | SttStarted format => audio_format_validate format
  | SttPartial segment => segment_validate segment true
  | SttFinal segment => segment_validate segment false
  | SttSpeechActivity activity =>
      _ ← unit_interval (Some (sa_probability activity)) (lit "speech probability");
      ensure (is_finite (sa_rms_dbfs activity) && negb (f_lt f_zero (sa_rms_dbfs activity)))
        (NonFiniteOrOutOfRange (lit "rms_dbfs"))
  | SttEndpoint endpoint => endpoint_validate endpoint
  | SttFailed error => validate_error error
  | SttCancelled cancelled => validate_cancelled cancelled
  end.

(** ** Language models *)

Inductive LlmFinishReason :=
| FinishUnspecified | FinishStop | FinishLength | FinishContentFilter | FinishToolBoundary | FinishProvider.
Definition LLM_FINISH_REASONS : list LlmFinishReason :=
  [FinishUnspecified; FinishStop; FinishLength; FinishContentFilter; FinishToolBoundary; FinishProvider].

Record TextDeltaV1 := {
  td_text : str;
  td_text_offset_bytes : Z
}.

Record SentenceReadyV1 := {
  sr_sentence_id : str;
  sr_text : str;
  sr_text_start_bytes : Z;
  sr_text_end_bytes : Z
}.

Record TokenUsageV1 := {
  tu_input_tokens : Z;
  tu_output_tokens : Z;
  tu_cached_input_tokens : Z
}.

Record LlmCompletedV1 := {
  lc_finish_reason : Z;
  lc_usage : option TokenUsageV1;
  lc_provider_finish_reason : str
}.

Inductive LlmKind :=
| LlmStarted
| LlmTextDelta (delta : TextDeltaV1)
| LlmSentenceReady (sentence : SentenceReadyV1)
| LlmCompleted (completed : LlmCompletedV1)
| LlmFailed (error : IpcErrorV1)
| LlmCancelled (cancelled : CancelledV1).

Record LlmEventV1 := {
  llm_metadata : option ProviderEventMetadataV1;
  llm_kind : option LlmKind
}.

Definition sentence_ready_validate (s : SentenceReadyV1) : event_check :=
  _ ← event_text (sr_text s) false;
  _ ← ensure (negb (str_is_empty (sr_sentence_id s) || (256 <? str_len (sr_sentence_id s)))) MetadataTooLarge;
  ensure (negb ((sr_text_end_bytes s <=? sr_text_start_bytes s)
                || negb (sr_text_end_bytes s - sr_text_start_bytes s =? str_len (sr_text s))))
    InvalidTextRange.

Definition llm_completed_validate (c : LlmCompletedV1) : event_check :=
  match discriminant LLM_FINISH_REASONS (lc_finish_reason c) with
  | None | Some FinishUnspecified => Err (UnknownEnum (lit "LLM finish reason"))
  | Some _ => ensure (str_len (lc_provider_finish_reason c) <=? 256) MetadataTooLarge
  end.

Definition llm_event_validate (e : LlmEventV1) : event_check :=
  _ ← validate_metadata (llm_metadata e);
  kind ← ok_or (llm_kind e) MissingKind;
  match kind with
  | LlmStarted => Ok tt
  | LlmTextDelta delta => event_text (td_text delta) false
  | LlmSentenceReady sentence => sentence_ready_validate sentence
  | LlmCompleted completed => llm_completed_validate completed
  | LlmFailed error => validate_error error
  | LlmCancelled cancelled => validate_cancelled cancelled
  end.

(** ** Speech synthesis *)

Record AudioChunkV1 := {
  ac_chunk_sequence : Z;
  ac_start_sample : Z;
  ac_format : option AudioFormatV1;
  ac_data : list Z;
  ac_end_of_sentence : bool
}.

Record VisemeV1 := {
  vi_id : str;
  vi_start_ms : Z;
  vi_duration_ms : Z;
  vi_weight : f32
}.

Record WordAlignmentV1 := {
  wa_text : str;
  wa_start_ms : Z;
  wa_duration_ms : Z;
  wa_text_start_bytes : Z;
  wa_text_end_bytes : Z
}.

Record AlignmentBatchV1 := {
  ab_words : list WordAlignmentV1;
  ab_visemes : list VisemeV1
}.

Record TtsCompletedV1 := {
  tc_total_samples : Z;
  tc_total_duration_ms : Z
}.

Inductive TtsKind :=
| TtsStarted (format : AudioFormatV1)
| TtsAudio (chunk : AudioChunkV1)
| TtsAlignment (batch : AlignmentBatchV1)
| TtsCompleted (completed : TtsCompletedV1)
| TtsFailed (error : IpcErrorV1)
| TtsCancelled (cancelled : CancelledV1).

Record TtsEventV1 := {
  tts_metadata : option ProviderEventMetadataV1;
  tts_sentence_id : str;
  tts_kind : option TtsKind
}.

Definition audio_chunk_validate (c : AudioChunkV1) : event_check :=
  _ ← ensure (negb (ac_chunk_sequence c =? 0)) ZeroEventSequence;
  format ← ok_or (ac_format c) MissingAudioFormat;
  _ ← audio_format_validate format;
  let size := Z.of_nat (length (ac_data c)) in
  ensure (negb ((size =? 0) || (MAX_AUDIO_CHUNK_BYTES <? size))) (AudioChunkSize size).

Definition word_validate (w : WordAlignmentV1) : event_check :=
  _ ← event_text (wa_text w) false;
  ensure (wa_text_start_bytes w <? wa_text_end_bytes w) InvalidTextRange.

Definition viseme_validate (v : VisemeV1) : event_check :=
  _ ← ensure (negb (str_is_empty (vi_id v) || (64 <? str_len (vi_id v)))) MetadataTooLarge;
  unit_interval (Some (vi_weight v)) (lit "viseme weight").

Definition alignment_validate (b : AlignmentBatchV1) : event_check :=
  _ ← ensure (negb ((2048 <? Z.of_nat (length (ab_words b))) || (8192 <? Z.of_nat (length (ab_visemes b)))))
        MetadataTooLarge;
  _ ← check_all word_validate (ab_words b);
  check_all viseme_validate (ab_visemes b).

Definition tts_event_validate (e : TtsEventV1) : event_check :=
  _ ← validate_metadata (tts_metadata e);
  _ ← ensure (negb (str_is_empty (tts_sentence_id e) || (256 <? str_len (tts_sentence_id e)))) MetadataTooLarge;
  kind ← ok_or (tts_kind e) MissingKind;
  match kind with
  | TtsStarted format => audio_format_validate format
  | TtsAudio chunk => audio_chunk_validate chunk
  | TtsAlignment batch => alignment_validate batch
  | TtsCompleted _ => Ok tt
  | TtsFailed error => validate_error error
  | TtsCancelled cancelled => validate_cancelled cancelled
  end.
