(* ===== verification/ProtoEnvelope.v ===== *)
(** * The transport protocol: effects ([crates/protocol/src/effects.rs])

    The effects message, its validation against the policy of the adapter, and the
    neutral effects that replace an invalid one. Whether the parameters of an action
    are a JSON object is the external JSON crate's: [ParameterJson].

    Then the envelope, its frame and the tracker of sequences ([envelope.rs]). *)

From S2P Require Import Prelude Text Bytes Float ProtoEvents.

#[local] Open Scope Z_scope.

(** The variants of each enumeration, by their discriminants. *)
Inductive Emotion :=
| EmotionUnspecified | EmotionNeutral | Joy | Sadness | Anger | FearEmotion | Surprise | Disgust
| Contempt | Concern | Amusement.
Definition EMOTIONS : list Emotion :=
  [EmotionUnspecified; EmotionNeutral; Joy; Sadness; Anger; FearEmotion; Surprise; Disgust; Contempt;
   Concern; Amusement].

Inductive VoiceStyle :=
| StyleUnspecified | StyleNeutral | StyleWarm | StyleTense | StyleSomber | StyleExcited | StyleWhisper
| StyleShout.
Definition VOICE_STYLES : list VoiceStyle :=
  [StyleUnspecified; StyleNeutral; StyleWarm; StyleTense; StyleSomber; StyleExcited; StyleWhisper; StyleShout].

Inductive AnimationCueKind :=
| CueUnspecified | CueNod | CueShakeHead | CueLookAtPlayer | CueLookAway | CueGestureOpen
| CueGesturePoint | CueIdleShift | CueVisemeStream.
Definition ANIMATION_CUES : list AnimationCueKind :=
  [CueUnspecified; CueNod; CueShakeHead; CueLookAtPlayer; CueLookAway; CueGestureOpen; CueGesturePoint;
   CueIdleShift; CueVisemeStream].

Inductive InterruptionPolicy := InterruptionUnspecified | BargeInAllowed | FinishClause | Uninterruptible.
Definition INTERRUPTION_POLICIES : list InterruptionPolicy :=
  [InterruptionUnspecified; BargeInAllowed; FinishClause; Uninterruptible].

Inductive MemoryProposalKind := MemoryUnspecified | MemoryEpisodic | MemoryFact | MemoryPreference | MemoryQuestState.
Definition MEMORY_KINDS : list MemoryProposalKind :=
  [MemoryUnspecified; MemoryEpisodic; MemoryFact; MemoryPreference; MemoryQuestState].

Inductive RelationshipAxis := AxisUnspecified | Affinity | Trust | Respect | AxisFear | Familiarity.
Definition RELATIONSHIP_AXES : list RelationshipAxis :=
  [AxisUnspecified; Affinity; Trust; Respect; AxisFear; Familiarity].

Record AnimationCueV1 := {
  an_kind : Z;
  an_start_offset_ms : Z;
  an_duration_ms : Z;
  an_intensity : f32
}.

Record MemoryProposalV1 := {
  mm_kind : Z;
  mm_content : str;
  mm_importance : f32;
  mm_expires_after_ms : option Z;
  mm_evidence_turn_ids : list str
}.

Record RelationshipProposalV1 := {
  rl_subject_actor_id : option ProtoId;
  rl_axis : Z;
  rl_delta : f32;
  rl_reason : str
}.

Record ActionProposalV1 := {
  ap_action_id : str;
  ap_parameters_json : str;
  ap_rationale : str;
  ap_requires_confirmation : bool
}.

Record NpcEffectsV1 := {
  ne_emotion : Z;
  ne_valence : f32;
  ne_arousal : f32;
  ne_intensity : f32;
  ne_voice_style : Z;
  ne_speaking_rate : f32;
  ne_pitch_semitones : f32;
  ne_energy : f32;
  ne_animation_cues : list AnimationCueV1;
  ne_interruption_policy : Z;
  ne_memory_proposals : list MemoryProposalV1;
  ne_relationship_proposals : list RelationshipProposalV1;
  ne_action_proposals : list ActionProposalV1
}.

Definition proto_effects_neutral : NpcEffectsV1 := {|
  ne_emotion := 1; ne_valence := f_zero; ne_arousal := f_zero; ne_intensity := f_zero;
  ne_voice_style := 1; ne_speaking_rate := f32_one; ne_pitch_semitones := f_zero; ne_energy := f32_one;
  ne_animation_cues := []; ne_interruption_policy := 1; ne_memory_proposals := [];
  ne_relationship_proposals := []; ne_action_proposals := [] |}.

Record EffectsValidationPolicy := {
  ep_max_animation_cues : Z;
  ep_max_animation_duration_ms : Z;
  ep_max_memory_proposals : Z;
  ep_max_relationship_proposals : Z;
  ep_max_action_proposals : Z;
  ep_max_proposal_text_bytes : Z;
  ep_max_action_json_bytes : Z;
  ep_allowed_action_ids : gset str
}.

Definition effects_policy_default : EffectsValidationPolicy := {|
  ep_max_animation_cues := 32; ep_max_animation_duration_ms := 60000; ep_max_memory_proposals := 16;
  ep_max_relationship_proposals := 16; ep_max_action_proposals := 8; ep_max_proposal_text_bytes := 8 * 1024;
  ep_max_action_json_bytes := 16 * 1024; ep_allowed_action_ids := ∅ |}.

Inductive EffectsValidationError :=
| EffectsUnknownEnum (name : str)
| InvalidRange (name : str)
| EffectsTooMany (name : str)
| InvalidDuration (name : str)
| EffectsEmptyText (name : str)
| EffectsTextTooLarge (name : str)
| MissingActor
| ActionNotAllowed (action_id : str)
| InvalidActionJson.

Abbreviation effects_check := (result EffectsValidationError unit) (only parsing).

Definition known_nonzero {A} (variants : list A) (value : Z) (name : str) : effects_check :=
  ensure (negb (value =? 0) && is_some (discriminant variants value)) (EffectsUnknownEnum name).

Definition effects_range (value minimum maximum : f32) (name : str) : effects_check :=
  ensure (is_finite value && range_contains minimum maximum value) (InvalidRange name).

Definition effects_count (actual maximum : Z) (name : str) : effects_check :=
  ensure (actual <=? maximum) (EffectsTooMany name).

Definition validate_content (content : str) (maximum : Z) (name : str) : effects_check :=
  if is_blank content then Err (EffectsEmptyText name) else
  ensure (str_len content <=? maximum `min` MAX_TEXT_BYTES) (EffectsTextTooLarge name).

Class ParameterJson := { is_json_object : str → bool }.

(** One turn of each loop of [NpcEffectsV1::validate]. *)
Definition proto_cue_validate (policy : EffectsValidationPolicy) (c : AnimationCueV1) : effects_check :=
  _ ← known_nonzero ANIMATION_CUES (an_kind c) (lit "animation cue");
  _ ← ensure (negb ((an_duration_ms c =? 0) || (ep_max_animation_duration_ms policy <? an_duration_ms c)))
        (InvalidDuration (lit "animation cue"));
  effects_range (an_intensity c) f_zero f32_one (lit "animation intensity").

Definition proto_memory_validate (policy : EffectsValidationPolicy) (p : MemoryProposalV1) : effects_check :=
  _ ← known_nonzero MEMORY_KINDS (mm_kind p) (lit "memory kind");
  _ ← validate_content (mm_content p) (ep_max_proposal_text_bytes policy) (lit "memory");
  _ ← effects_range (mm_importance p) f_zero f32_one (lit "memory importance");
  _ ← effects_count (Z.of_nat (length (mm_evidence_turn_ids p))) 32 (lit "memory evidence");
  ensure (negb (existsb (λ id, 64 <? str_len id) (mm_evidence_turn_ids p)))
    (EffectsTextTooLarge (lit "memory evidence")).

Definition proto_relationship_validate (policy : EffectsValidationPolicy) (p : RelationshipProposalV1)
    : effects_check :=
  _ ← known_nonzero RELATIONSHIP_AXES (rl_axis p) (lit "relationship axis");
  actor ← ok_or (rl_subject_actor_id p) MissingActor;
  _ ← ensure (is_ok (id_validate actor)) MissingActor;
  _ ← effects_range (rl_delta p) f32_minus_one f32_one (lit "relationship delta");
  validate_content (rl_reason p) (ep_max_proposal_text_bytes policy) (lit "relationship reason").

Definition proto_action_validate `{ParameterJson} (policy : EffectsValidationPolicy) (p : ActionProposalV1)
    : effects_check :=
  _ ← ensure (bool_decide (ap_action_id p ∈ ep_allowed_action_ids policy)) (ActionNotAllowed (ap_action_id p));
  _ ← ensure (str_len (ap_parameters_json p) <=? ep_max_action_json_bytes policy)
        (EffectsTextTooLarge (lit "action parameters"));
  _ ← ensure (is_json_object (ap_parameters_json p)) InvalidActionJson;
  ensure (str_len (ap_rationale p) <=? ep_max_proposal_text_bytes policy)
    (EffectsTextTooLarge (lit "action rationale")).

Definition proto_effects_validate `{ParameterJson} (e : NpcEffectsV1) (policy : EffectsValidationPolicy)
    : effects_check :=
  _ ← known_nonzero EMOTIONS (ne_emotion e) (lit "emotion");
  _ ← known_nonzero VOICE_STYLES (ne_voice_style e) (lit "voice style");
  _ ← known_nonzero INTERRUPTION_POLICIES (ne_interruption_policy e) (lit "interruption policy");
  _ ← effects_range (ne_valence e) f32_minus_one f32_one (lit "valence");
  _ ← effects_range (ne_arousal e) f_zero f32_one (lit "arousal");
  _ ← effects_range (ne_intensity e) f_zero f32_one (lit "intensity");
  _ ← effects_range (ne_speaking_rate e) f32_half f32_two (lit "speaking rate");
  _ ← effects_range (ne_pitch_semitones e) f32_minus_twelve f32_twelve (lit "pitch");
  _ ← effects_range (ne_energy e) f_zero f32_two (lit "energy");
  _ ← effects_count (Z.of_nat (length (ne_animation_cues e))) (ep_max_animation_cues policy) (lit "animation cues");
  _ ← effects_count (Z.of_nat (length (ne_memory_proposals e))) (ep_max_memory_proposals policy)
        (lit "memory proposals");
  _ ← effects_count (Z.of_nat (length (ne_relationship_proposals e))) (ep_max_relationship_proposals policy)
        (lit "relationship proposals");
  _ ← effects_count (Z.of_nat (length (ne_action_proposals e))) (ep_max_action_proposals policy)
        (lit "action proposals");
  _ ← check_all (proto_cue_validate policy) (ne_animation_cues e);
  _ ← check_all (proto_memory_validate policy) (ne_memory_proposals e);
  _ ← check_all (proto_relationship_validate policy) (ne_relationship_proposals e);
  check_all (proto_action_validate policy) (ne_action_proposals e).

Record EffectsValidationOutcome := {
  eo_effects : NpcEffectsV1;
  eo_neutralized : bool;
  eo_error : option EffectsValidationError
}.

Definition validated_or_neutral `{ParameterJson} (e : NpcEffectsV1) (policy : EffectsValidationPolicy)
    : EffectsValidationOutcome :=
  match proto_effects_validate e policy with
  | Ok _ => {| eo_effects := e; eo_neutralized := false; eo_error := None |}
  | Err error => {| eo_effects := proto_effects_neutral; eo_neutralized := true; eo_error := Some error |}
  end.

(** * The transport protocol: envelopes, frames and ordering
    ([crates/protocol/src/envelope.rs])

    The envelope and its validation, the length-prefixed frame, and the tracker that
    refuses replays, gaps and superseded generations. The protobuf encoding of a
    message is the external crate's: [ProstApi]. *)

#[local] Open Scope Z_scope.

Definition DEFAULT_MAX_FRAME_BYTES : Z := 8 * 1024 * 1024.
Definition DEFAULT_MAX_BODY_BYTES : Z := 4 * 1024 * 1024.

Inductive OrderingPolicy := StrictContiguous | Monotonic.
#[export] Instance OrderingPolicy_eq_dec : EqDecision OrderingPolicy.
Proof. solve_decision. Defined.

Record HeartbeatV1 := {
  hb_uptime_ms : Z;
  hb_component : str;
  hb_state : str
}.

Record AckV1 := {
  ak_acknowledged_sequence : Z;
  ak_observed_cancellation_generation : Z
}.

Record CancelRequestV1 := {
  cr_new_generation : Z;
  cr_reason : str
}.

Record ActorSelectedV1 := {
  as_actor_id : option ProtoId;
  as_display_name : str;
  as_explicit_user_selection : bool;
  as_identity_confidence : option f32
}.

Inductive ControlOperationV1 :=
| OpUnspecified | OpPing | OpDoctor | OpValidateProfiles | OpSimulateTurn | OpCancel | OpShutdown
| OpDiscoverTtsVoices | OpTranscribeSelectedStt.
#[export] Instance ControlOperationV1_eq_dec : EqDecision ControlOperationV1.
Proof. solve_decision. Defined.
Definition CONTROL_OPERATIONS : list ControlOperationV1 :=
  [OpUnspecified; OpPing; OpDoctor; OpValidateProfiles; OpSimulateTurn; OpCancel; OpShutdown;
   OpDiscoverTtsVoices; OpTranscribeSelectedStt].

(** The getter of an enumeration field: an unknown number reads as the default. *)
Definition control_operation (n : Z) : ControlOperationV1 := default OpUnspecified (discriminant CONTROL_OPERATIONS n).

Record ControlRequestV1 := {
  cq_request_id : option ProtoId;
  cq_operation : Z;
  cq_payload_json : list Z
}.

Inductive ControlResponseBody :=
| SuccessJson (json : list Z)
| ControlError (error : IpcErrorV1).

Record ControlResponseV1 := {
  cp_request_id : option ProtoId;
  cp_request_sequence : Z;
  cp_operation : Z;
  cp_body : option ControlResponseBody
}.

Inductive Body :=
| NegotiationHello (hello : NegotiationHelloV1)
| NegotiationAccepted (accepted : NegotiationAcceptedV1)
| Heartbeat (heartbeat : HeartbeatV1)
| Ack (ack : AckV1)
| CancelBody (cancel : CancelRequestV1)
| Stt (event : SttEventV1)
| Llm (event : LlmEventV1)
| Tts (event : TtsEventV1)
| EffectsBody (effects : NpcEffectsV1)
| ErrorBody (error : IpcErrorV1)
| ActorSelected (selection : ActorSelectedV1)
| ControlRequest (request : ControlRequestV1)
| ControlResponse (response : ControlResponseV1).

Record EnvelopeV1 := {
  ev_protocol_version : option ProtocolVersion;
  ev_launch_nonce : option ProtoId;
  ev_session_id : option ProtoId;
  ev_turn_id : option ProtoId;
  ev_trace_id : option ProtoId;
  ev_sequence : Z;
  ev_qpc_timestamp_ticks : Z;
  ev_qpc_frequency_hz : Z;
  ev_deadline_qpc_ticks : Z;
  ev_cancellation_generation : Z;
  ev_declared_body_bytes : Z;
  ev_body : option Body
}.

Inductive EnvelopeValidationError :=
| MissingVersion | UnsupportedVersion (version : ProtocolVersion) | MissingLaunchNonce | InvalidLaunchNonce
| StaleLaunch | MissingSession | InvalidSession | WrongSession | MissingTurn | InvalidTurn | MissingTrace
| InvalidTrace | ZeroSequence | ZeroQpcFrequency | InvalidDeadline | DeadlineExceeded | MissingBody
| MalformedBody | DeclaredSizeMismatch (declared actual : Z) | BodyTooLarge (bytes : Z)
| FrameTooLarge (bytes : Z) | TruncatedLengthPrefix | FrameLengthMismatch (declared actual : Z)
| Decode (message : str) | ReplayOrReorder (last received : Z) | SequenceGap (expected received : Z)
| StaleCancellationGeneration (highest received : Z).

Abbreviation envelope_check := (result EnvelopeValidationError unit) (only parsing).

(** The encoding of messages: [encoded_len], [encode] and [decode]. *)
Class ProstApi := {
  body_encoded_len : Body → Z;
  envelope_encoded_len : EnvelopeV1 → Z;
  envelope_encode : EnvelopeV1 → result str (list Z);
  envelope_decode : list Z → result str EnvelopeV1
}.

(** ** Control messages *)

Definition is_turn_bound (operation : Z) : bool :=
  match control_operation operation with
  | OpSimulateTurn | OpTranscribeSelectedStt => true
  | _ => false
  end.

(** [.ok_or(missing)?.validate().map_err(|_| invalid)]. *)
Definition required_id (id : option ProtoId) (missing invalid : EnvelopeValidationError) : envelope_check :=
  id ← ok_or id missing; ensure (is_ok (id_validate id)) invalid.

Definition control_request_validate (r : ControlRequestV1) : envelope_check :=
  _ ← required_id (cq_request_id r) MalformedBody MalformedBody;
  ensure (negb (bool_decide (control_operation (cq_operation r) = OpUnspecified)
                || (DEFAULT_MAX_BODY_BYTES / 2 <? Z.of_nat (length (cq_payload_json r))))) MalformedBody.

Definition control_response_validate (r : ControlResponseV1) : envelope_check :=
  _ ← required_id (cp_request_id r) MalformedBody MalformedBody;
  _ ← ensure (negb ((cp_request_sequence r =? 0)
                    || bool_decide (control_operation (cp_operation r) = OpUnspecified))) MalformedBody;
  body ← ok_or (cp_body r) MalformedBody;
  match body with
  | SuccessJson json => ensure (Z.of_nat (length json) <=? DEFAULT_MAX_BODY_BYTES / 2) MalformedBody
  | ControlError error => ensure (is_ok (ipc_error_validate error)) MalformedBody
  end.

(** ** Validation of an envelope *)

Definition requires_turn (e : EnvelopeV1) : bool :=
  match ev_body e with
  | Some (Stt _ | Llm _ | Tts _ | EffectsBody _) => true
  | Some (ControlRequest request) => is_turn_bound (cq_operation request)
  | Some (ControlResponse response) => is_turn_bound (cp_operation response)
  | _ => false
  end.

Definition actor_selected_validate (s : ActorSelectedV1) : envelope_check :=
  _ ← required_id (as_actor_id s) MalformedBody MalformedBody;
  ensure (negb (is_blank (as_display_name s) || (256 <? str_len (as_display_name s))
                || is_some_and (as_identity_confidence s) (λ confidence,
                     negb (is_finite confidence) || negb (range_contains f_zero f32_one confidence))))
    MalformedBody.

Definition validate_body (e : EnvelopeV1) : envelope_check :=
  body ← ok_or (ev_body e) MissingBody;
  match body with
  | NegotiationHello hello =>
      ensure (is_ok (remote ← hello_range hello; negotiate RANGE_V1 remote)) MalformedBody
  | NegotiationAccepted accepted => _ ← ok_or (na_selected accepted) MalformedBody; Ok tt
  | Heartbeat heartbeat =>
      ensure (negb (str_is_empty (hb_component heartbeat) || (128 <? str_len (hb_component heartbeat))
                    || (128 <? str_len (hb_state heartbeat)))) MalformedBody
  | Ack ack => ensure (negb (ak_acknowledged_sequence ack =? 0)) MalformedBody
  | CancelBody cancel =>
      ensure (negb ((cr_new_generation cancel <=? ev_cancellation_generation e)
                    || (1024 <? str_len (cr_reason cancel)))) MalformedBody
  | Stt event => ensure (is_ok (stt_event_validate event)) MalformedBody
  | Llm event => ensure (is_ok (llm_event_validate event)) MalformedBody
  | Tts event => ensure (is_ok (tts_event_validate event)) MalformedBody
  | EffectsBody _ => Ok tt
  | ErrorBody error => ensure (is_ok (ipc_error_validate error)) MalformedBody
  | ActorSelected selection => actor_selected_validate selection
  | ControlRequest request => control_request_validate request
  | ControlResponse response => control_response_validate response
  end.

Record EnvelopeValidationContext := {
  vc_accepted_versions : VersionRange;
  vc_expected_launch_nonce : option ProtoId;
  vc_expected_session_id : option ProtoId;
  vc_now_qpc_ticks : Z;
  vc_max_body_bytes : Z;
  vc_max_frame_bytes : Z
}.

Definition permissive_for_time (now : Z) : EnvelopeValidationContext := {|
  vc_accepted_versions := RANGE_V1; vc_expected_launch_nonce := None; vc_expected_session_id := None;
  vc_now_qpc_ticks := now; vc_max_body_bytes := DEFAULT_MAX_BODY_BYTES;
  vc_max_frame_bytes := DEFAULT_MAX_FRAME_BYTES |}.

(** [if let Some(expected) = expected { if id != expected { return Err(..) } }]. *)
Definition expected_id (id : ProtoId) (expected : option ProtoId) (mismatch : EnvelopeValidationError)
    : envelope_check :=
  ensure (is_none_or expected (λ expected, bool_decide (id = expected))) mismatch.

(** Who sent it: the version, the launch, the session, the turn and the trace. *)
Definition validate_origin (e : EnvelopeV1) (c : EnvelopeValidationContext) : envelope_check :=
  version ← ok_or (ev_protocol_version e) MissingVersion;
  _ ← ensure (range_contains_version (vc_accepted_versions c) version) (UnsupportedVersion version);
  launch_nonce ← ok_or (ev_launch_nonce e) MissingLaunchNonce;
  _ ← ensure (is_ok (id_validate launch_nonce)) InvalidLaunchNonce;
  _ ← expected_id launch_nonce (vc_expected_launch_nonce c) StaleLaunch;
  session_id ← ok_or (ev_session_id e) MissingSession;
  _ ← ensure (is_ok (id_validate session_id)) InvalidSession;
  _ ← expected_id session_id (vc_expected_session_id c) WrongSession;
  _ ← (if requires_turn e then required_id (ev_turn_id e) MissingTurn InvalidTurn else
       ensure (is_none_or (ev_turn_id e) (λ turn_id, is_ok (id_validate turn_id))) InvalidTurn);
  required_id (ev_trace_id e) MissingTrace InvalidTrace.

Definition validate_times (e : EnvelopeV1) (c : EnvelopeValidationContext) : envelope_check :=
  _ ← ensure (negb (ev_sequence e =? 0)) ZeroSequence;
  _ ← ensure (negb (ev_qpc_frequency_hz e =? 0)) ZeroQpcFrequency;
  _ ← ensure (ev_qpc_timestamp_ticks e <? ev_deadline_qpc_ticks e) InvalidDeadline;
  ensure (vc_now_qpc_ticks c <=? ev_deadline_qpc_ticks e) DeadlineExceeded.

Section codec.
Context `{ProstApi}.

Definition body_payload_len (e : EnvelopeV1) : result EnvelopeValidationError Z :=
  body ← ok_or (ev_body e) MissingBody; Ok (body_encoded_len body).

Definition validate_sizes (e : EnvelopeV1) (c : EnvelopeValidationContext) : envelope_check :=
  actual_body ← body_payload_len e;
  _ ← ensure (actual_body <=? vc_max_body_bytes c) (BodyTooLarge actual_body);
  _ ← ensure (ev_declared_body_bytes e =? actual_body)
        (DeclaredSizeMismatch (ev_declared_body_bytes e) actual_body);
  let frame_bytes := envelope_encoded_len e + 4 in
  ensure (frame_bytes <=? vc_max_frame_bytes c) (FrameTooLarge frame_bytes).

(** [EnvelopeV1::validate]. *)
Definition envelope_validate (e : EnvelopeV1) (c : EnvelopeValidationContext) : envelope_check :=
  _ ← validate_origin e c;
  _ ← validate_times e c;
  _ ← validate_sizes e c;
  validate_body e.

Definition set_declared_size (declared : Z) (e : EnvelopeV1) : EnvelopeV1 := {|
  ev_protocol_version := ev_protocol_version e; ev_launch_nonce := ev_launch_nonce e;
  ev_session_id := ev_session_id e; ev_turn_id := ev_turn_id e; ev_trace_id := ev_trace_id e;
  ev_sequence := ev_sequence e; ev_qpc_timestamp_ticks := ev_qpc_timestamp_ticks e;
  ev_qpc_frequency_hz := ev_qpc_frequency_hz e; ev_deadline_qpc_ticks := ev_deadline_qpc_ticks e;
  ev_cancellation_generation := ev_cancellation_generation e; ev_declared_body_bytes := declared;
  ev_body := ev_body e |}.

Definition synchronize_declared_size (e : EnvelopeV1) : result EnvelopeValidationError EnvelopeV1 :=
  body_bytes ← body_payload_len e;
  if body_bytes <=? u32_max then Ok (set_declared_size body_bytes e) else Err (BodyTooLarge body_bytes).

Definition envelope_new (launch_nonce session_id : ProtoId) (turn_id : option ProtoId) (trace_id : ProtoId)
    (sequence timestamp frequency deadline generation : Z) (body : Body)
    : result EnvelopeValidationError EnvelopeV1 :=
  synchronize_declared_size {|
    ev_protocol_version := Some V1_0_0; ev_launch_nonce := Some launch_nonce;
    ev_session_id := Some session_id; ev_turn_id := turn_id; ev_trace_id := Some trace_id;
    ev_sequence := sequence; ev_qpc_timestamp_ticks := timestamp; ev_qpc_frequency_hz := frequency;
    ev_deadline_qpc_ticks := deadline; ev_cancellation_generation := generation;
    ev_declared_body_bytes := 0; ev_body := Some body |}.

(** ** Frames *)

Definition encode_frame (e : EnvelopeV1) (c : EnvelopeValidationContext)
    : result EnvelopeValidationError (list Z) :=
  _ ← envelope_validate e c;
  let encoded_len := envelope_encoded_len e in
  _ ← ensure (encoded_len + 4 <=? vc_max_frame_bytes c) (FrameTooLarge (encoded_len + 4));
  _ ← ensure (encoded_len <=? u32_max) (FrameTooLarge (encoded_len + 4));
  match envelope_encode e with
  | Ok bytes => Ok (le_bytes 4 encoded_len ++ bytes)
  | Err message => Err (Decode message)
  end.

Definition decode_frame (frame : list Z) (c : EnvelopeValidationContext)
    : result EnvelopeValidationError EnvelopeV1 :=
  let size := Z.of_nat (length frame) in
  _ ← ensure (4 <=? size) TruncatedLengthPrefix;
  _ ← ensure (size <=? vc_max_frame_bytes c) (FrameTooLarge size);
  let declared := le_value (take 4 frame) in
  let actual := size - 4 in
  _ ← ensure (declared =? actual) (FrameLengthMismatch declared actual);
  match envelope_decode (drop 4 frame) with
  | Err message => Err (Decode message)
  | Ok envelope => _ ← envelope_validate envelope c; Ok envelope
  end.

(** ** Ordering *)

Record SequenceTracker := {
  st_expected_launch_nonce : ProtoId;
  st_expected_session_id : ProtoId;
  st_last_sequence : Z;
  st_highest_cancellation_generation : Z;
  st_ordering : OrderingPolicy
}.

Definition tracker_new (launch session : ProtoId) (ordering : OrderingPolicy) : SequenceTracker := {|
  st_expected_launch_nonce := launch; st_expected_session_id := session; st_last_sequence := 0;
  st_highest_cancellation_generation := 0; st_ordering := ordering |}.

Definition own_context (t : SequenceTracker) (c : EnvelopeValidationContext) : EnvelopeValidationContext := {|
  vc_accepted_versions := vc_accepted_versions c;
  vc_expected_launch_nonce := Some (st_expected_launch_nonce t);
  vc_expected_session_id := Some (st_expected_session_id t);
  vc_now_qpc_ticks := vc_now_qpc_ticks c; vc_max_body_bytes := vc_max_body_bytes c;
  vc_max_frame_bytes := vc_max_frame_bytes c |}.

Definition observe (e : EnvelopeV1) (c : EnvelopeValidationContext) (t : SequenceTracker)
    : result EnvelopeValidationError SequenceTracker :=
  _ ← envelope_validate e (own_context t c);
  _ ← ensure (st_last_sequence t <? ev_sequence e) (ReplayOrReorder (st_last_sequence t) (ev_sequence e));
  _ ← ensure (negb (bool_decide (st_ordering t = StrictContiguous)
                    && negb (ev_sequence e =? st_last_sequence t + 1)))
        (SequenceGap (st_last_sequence t + 1) (ev_sequence e));
  _ ← ensure (st_highest_cancellation_generation t <=? ev_cancellation_generation e)
        (StaleCancellationGeneration (st_highest_cancellation_generation t) (ev_cancellation_generation e));
  Ok {| st_expected_launch_nonce := st_expected_launch_nonce t;
        st_expected_session_id := st_expected_session_id t; st_last_sequence := ev_sequence e;
        st_highest_cancellation_generation :=
          st_highest_cancellation_generation t `max` ev_cancellation_generation e;
        st_ordering := st_ordering t |}.
End codec.
