(* ===== verification/ProtoSpec.v ===== *)
(** * What the transport protocol promises

    Negotiation picks the newest shared version, a frame decodes to the envelope it was
    made of and nothing else decodes, a stream of envelopes is accepted in order and
    without replays, and invalid effects fall back to neutral ones.

    At the end, the theorems on concrete envelopes. *)

From S2P Require Import Prelude Text Bytes Float ProtoEvents ProtoEnvelope.

#[local] Open Scope Z_scope.

(** ** Versions *)

Lemma ver_leb_le x y : ver_leb x y = true ↔ ocmp x y ≠ Gt.
Proof. unfold ver_leb. by destruct (ocmp x y). Qed.

Definition ver_le (x y : ProtocolVersion) : Prop := ocmp x y ≠ Gt.

Lemma ver_max_le x y z : ver_le (ver_max x y) z ↔ ver_le x z ∧ ver_le y z.
Proof.
  unfold ver_max, ver_le. destruct (ver_leb x y) eqn:E.
  - apply ver_leb_le in E. split; [|naive_solver]. intros Hy. split; [by apply (ocmp_le_trans x y z)|done].
  - assert (ocmp y x ≠ Gt). { destruct (ocmp_le_total x y) as [Hle|]; [|done]. by rewrite (proj2 (ver_leb_le x y) Hle) in E. }
    split; [|naive_solver]. intros Hx. split; [done|by apply (ocmp_le_trans y x z)].
Qed.

Lemma ver_min_le x y z : ver_le z (ver_min x y) ↔ ver_le z x ∧ ver_le z y.
Proof.
  unfold ver_min, ver_le. destruct (ver_leb x y) eqn:E.
  - apply ver_leb_le in E. split; [|naive_solver]. intros Hx. split; [done|by apply (ocmp_le_trans z x y)].
  - assert (ocmp y x ≠ Gt). { destruct (ocmp_le_total x y) as [Hle|]; [|done]. by rewrite (proj2 (ver_leb_le x y) Hle) in E. }
    split; [|naive_solver]. intros Hy. split; [by apply (ocmp_le_trans z y x)|done].
Qed.

Lemma ver_le_refl x : ver_le x x.
Proof. unfold ver_le. by rewrite ocmp_refl. Qed.

Lemma ver_max_comm x y : ver_max x y = ver_max y x.
Proof.
  assert (∀ x y, ver_le (ver_max x y) (ver_max y x)) as Hle.
  { intros a b. apply ver_max_le. destruct (proj1 (ver_max_le b a _) (ver_le_refl _)). done. }
  apply ocmp_le_antisym; apply Hle.
Qed.

Lemma ver_min_comm x y : ver_min x y = ver_min y x.
Proof.
  assert (∀ x y, ver_le (ver_min x y) (ver_min y x)) as Hle.
  { intros a b. apply ver_min_le. destruct (proj1 (ver_min_le a b _) (ver_le_refl _)). done. }
  apply ocmp_le_antisym; apply Hle.
Qed.

Lemma ver_min_either x y : ver_min x y = x ∨ ver_min x y = y.
Proof. unfold ver_min. destruct (ver_leb x y); auto. Qed.

(** Both peers speak [v]. *)
Definition shared (local remote : VersionRange) (v : ProtocolVersion) : Prop :=
  range_contains_version local v = true ∧ range_contains_version remote v = true.

Lemma contains_iff r v :
  range_contains_version r v = true ↔
  pv_major v = pv_major (vr_minimum r) ∧ ver_le (vr_minimum r) v ∧ ver_le v (vr_maximum r).
Proof. unfold range_contains_version. rewrite !andb_true_iff, !ver_leb_le, Z.eqb_eq. unfold ver_le. tauto. Qed.

Lemma shared_iff local remote v :
  shared local remote v ↔
  (pv_major v = pv_major (vr_minimum local) ∧ ver_le (vr_minimum local) v ∧ ver_le v (vr_maximum local)) ∧
  pv_major v = pv_major (vr_minimum remote) ∧ ver_le (vr_minimum remote) v ∧ ver_le v (vr_maximum remote).
Proof. unfold shared. by rewrite !contains_iff. Qed.

Lemma range_validate_major r :
  range_validate r = Ok tt → pv_major (vr_minimum r) = pv_major (vr_maximum r).
Proof.
  unfold range_validate. destruct (_ || _); [done|]. destruct (negb _); [done|]. by rewrite ensure_Ok, Z.eqb_eq.
Qed.

(** negotiation finds the newest version both peers speak. For two valid ranges: if
    it returns a version, both ranges contain it and no newer version is in both; if it
    fails, the ranges share no version; and both peers reach the same answer. *)
Theorem negotiation_exact local remote :
  range_validate local = Ok tt → range_validate remote = Ok tt →
  match negotiate local remote with
  | Ok v => shared local remote v ∧ ∀ w, shared local remote w → ver_le w v
  | Err error => error = NoOverlap ∧ ∀ w, ¬ shared local remote w
  end ∧ negotiate remote local = negotiate local remote.
Proof.
  intros Hl Hr. unfold negotiate. rewrite Hl, Hr. cbn [mbind result_bind]. pose proof (range_validate_major _ Hl) as Hml.
  pose proof (range_validate_major _ Hr) as Hmr. split.
  - destruct (Z.eqb_spec (pv_major (vr_minimum local)) (pv_major (vr_minimum remote))) as [He|Hne]; cbn [negb].
    2:{ split; [done|]. intros w ((?&_)&?&_)%shared_iff. congruence. }
    destruct (ver_leb _ _) eqn:E; cbn [negb].
    + apply ver_leb_le, ver_max_le in E as [E1 E2].
      pose proof (proj1 (ver_min_le (vr_maximum local) (vr_maximum remote) _) (ver_le_refl _)) as [E3 E4].
      assert (pv_major (ver_min (vr_maximum local) (vr_maximum remote)) = pv_major (vr_minimum local)) as Hm.
      { destruct (ver_min_either (vr_maximum local) (vr_maximum remote)) as [-> | ->]; congruence. }
      split; [apply shared_iff; split_and!; try done; congruence|].
      intros w ((_&_&?)&_&_&?)%shared_iff. by apply ver_min_le.
    + split; [done|]. intros w ((_&?&?)&_&?&?)%shared_iff.
      rewrite (proj2 (ver_leb_le _ _)) in E; [done|]. apply (ocmp_le_trans _ w); [by apply ver_max_le|by apply ver_min_le].
  - by rewrite Z.eqb_sym, (ver_max_comm (vr_minimum remote)), (ver_min_comm (vr_maximum remote)).
Qed.

(** ** Valid envelopes *)

Definition id_ok (id : ProtoId) : Prop :=
  length (id_value id) = 16%nat ∧ Exists (λ byte, byte ≠ 0) (id_value id).

Lemma id_validate_Ok id : is_ok (id_validate id) = true ↔ id_ok id.
Proof.
  unfold id_validate, id_from_bytes, id_ok, ID_BYTE_LEN.
  destruct (Z.eqb_spec (Z.of_nat (length (id_value id))) 16) as [Hl|Hl]; cbn [negb].
  2:{ split; [done|]. intros [? _]. lia. }
  destruct (forallb (λ byte, byte =? 0) (id_value id)) eqn:Hz; cbn.
  - split; [done|]. intros [_ He]. exfalso. clear Hl. induction He as [b bs Hb|b bs He IH]; cbn in Hz.
    + destruct (Z.eqb_spec b 0); done.
    + apply andb_prop in Hz as [_ Hz]. by apply IH.
  - split; [|done]. intros _. split; [lia|]. clear Hl. induction (id_value id) as [|b bs IH]; [done|].
    cbn in Hz. destruct (Z.eqb_spec b 0) as [->|]; [right; by apply IH|by left].
Qed.

Section codec.
Context `{ProstApi}.

(** What a receiver may rely on in an envelope it accepted. *)
Record envelope_ok (c : EnvelopeValidationContext) (e : EnvelopeV1) : Prop := {
  eo_version : ∃ v, ev_protocol_version e = Some v ∧ range_contains_version (vc_accepted_versions c) v = true;
  eo_launch : ∃ id, ev_launch_nonce e = Some id ∧ id_ok id ∧
    ∀ expected, vc_expected_launch_nonce c = Some expected → id = expected;
  eo_session : ∃ id, ev_session_id e = Some id ∧ id_ok id ∧
    ∀ expected, vc_expected_session_id c = Some expected → id = expected;
  eo_turn : (requires_turn e = true → ev_turn_id e ≠ None) ∧ ∀ id, ev_turn_id e = Some id → id_ok id;
  eo_trace : ∃ id, ev_trace_id e = Some id ∧ id_ok id;
  eo_sequence : ev_sequence e ≠ 0;
  eo_frequency : ev_qpc_frequency_hz e ≠ 0;
  eo_deadline : ev_qpc_timestamp_ticks e < ev_deadline_qpc_ticks e ∧ vc_now_qpc_ticks c ≤ ev_deadline_qpc_ticks e;
  eo_size : ∃ body, ev_body e = Some body ∧ body_encoded_len body = ev_declared_body_bytes e ∧
    ev_declared_body_bytes e ≤ vc_max_body_bytes c;
  eo_frame : envelope_encoded_len e + 4 ≤ vc_max_frame_bytes c;
  eo_body : validate_body e = Ok tt
}.

Lemma required_id_Ok id missing invalid :
  required_id id missing invalid = Ok tt ↔ ∃ i, id = Some i ∧ id_ok i.
Proof using.
  unfold required_id. rewrite bind_ok_or. setoid_rewrite ensure_Ok.
  by setoid_rewrite id_validate_Ok.
Qed.

Lemma expected_id_Ok id expected mismatch :
  expected_id id expected mismatch = Ok tt ↔ ∀ i, expected = Some i → id = i.
Proof using.
  unfold expected_id. rewrite ensure_Ok. destruct expected as [i|]; cbn; [|naive_solver].
  rewrite bool_decide_eq_true. naive_solver.
Qed.

Lemma validate_origin_Ok e c :
  validate_origin e c = Ok tt ↔
  (∃ v, ev_protocol_version e = Some v ∧ range_contains_version (vc_accepted_versions c) v = true) ∧
  (∃ id, ev_launch_nonce e = Some id ∧ id_ok id ∧
     ∀ expected, vc_expected_launch_nonce c = Some expected → id = expected) ∧
  (∃ id, ev_session_id e = Some id ∧ id_ok id ∧
     ∀ expected, vc_expected_session_id c = Some expected → id = expected) ∧
  ((requires_turn e = true → ev_turn_id e ≠ None) ∧ ∀ id, ev_turn_id e = Some id → id_ok id) ∧
  ∃ id, ev_trace_id e = Some id ∧ id_ok id.
Proof using.
  unfold validate_origin. repeat first [setoid_rewrite bind_ok_or | setoid_rewrite bind_unit_Ok].
  setoid_rewrite expected_id_Ok. setoid_rewrite ensure_Ok.
  setoid_rewrite id_validate_Ok.
  assert ((if requires_turn e then required_id (ev_turn_id e) MissingTurn InvalidTurn
    else ensure (is_none_or (ev_turn_id e) (λ turn_id, is_ok (id_validate turn_id))) InvalidTurn) = Ok tt ↔
    (requires_turn e = true → ev_turn_id e ≠ None) ∧ ∀ id, ev_turn_id e = Some id → id_ok id) as Hturn.
  { destruct (requires_turn e).
    - rewrite required_id_Ok. destruct (ev_turn_id e); naive_solver.
    - rewrite ensure_Ok. destruct (ev_turn_id e) as [id|]; cbn; [rewrite id_validate_Ok|]; naive_solver. }
  setoid_rewrite Hturn. naive_solver.
Qed.

Lemma validate_times_Ok e c :
  validate_times e c = Ok tt ↔
  ev_sequence e ≠ 0 ∧ ev_qpc_frequency_hz e ≠ 0 ∧ ev_qpc_timestamp_ticks e < ev_deadline_qpc_ticks e ∧
  vc_now_qpc_ticks c ≤ ev_deadline_qpc_ticks e.
Proof using.
  unfold validate_times. rewrite !bind_unit_Ok, !ensure_Ok. by rewrite !negb_true_iff, !Z.eqb_neq, Z.ltb_lt, Z.leb_le.
Qed.

Lemma validate_sizes_Ok e c :
  validate_sizes e c = Ok tt ↔
  (∃ body, ev_body e = Some body ∧ body_encoded_len body = ev_declared_body_bytes e ∧
     ev_declared_body_bytes e ≤ vc_max_body_bytes c) ∧
  envelope_encoded_len e + 4 ≤ vc_max_frame_bytes c.
Proof using.
  unfold validate_sizes, body_payload_len. destruct (ev_body e) as [body|]; cbn [ok_or mbind result_bind].
  - rewrite !bind_unit_Ok, !ensure_Ok, !Z.leb_le, Z.eqb_eq. split.
    + intros (?&?&?). split; [exists body; split_and!; (done || lia)|done].
    + intros [(body'&[= <-]&?&?) ?]. split_and!; (done || lia).
  - split; [done|]. by intros [(?&?&_) _].
Qed.

Lemma envelope_accepts_Ok e c : envelope_validate e c = Ok tt ↔ envelope_ok c e.
Proof using.
  unfold envelope_validate. rewrite !bind_unit_Ok, validate_origin_Ok, validate_times_Ok, validate_sizes_Ok. split.
  - intros ((?&?&?&?&?)&(?&?&?&?)&(?&?)&?). by constructor.
  - intros [? ? ? ? ? ? ? [? ?] ? ? ?]. tauto.
Qed.

(** ** Frames *)

(** What the encoding crate promises about [e]: [encode] writes [encoded_len] bytes,
    and [decode] reads them back. *)
Record prost_exact (e : EnvelopeV1) (bytes : list Z) : Prop := {
  px_encode : envelope_encode e = Ok bytes;
  px_length : Z.of_nat (length bytes) = envelope_encoded_len e;
  px_decode : envelope_decode bytes = Ok e
}.

Lemma frame_prefix n bytes : 0 ≤ n ≤ u32_max →
  le_value (take 4 (le_bytes 4 n ++ bytes)) = n ∧ drop 4 (le_bytes 4 n ++ bytes) = bytes.
Proof using.
  intros Hn. rewrite take_app_length', drop_app_length' by (by rewrite le_bytes_length).
  split; [|done]. apply le_value_bytes. unfold u32_max in Hn. cbn. lia.
Qed.

Lemma decode_frame_Ok frame c e :
  Forall is_byte frame →
  decode_frame frame c = Ok e ↔
  ∃ bytes, frame = le_bytes 4 (Z.of_nat (length bytes)) ++ bytes ∧ Z.of_nat (length bytes) ≤ u32_max ∧
    Z.of_nat (length bytes) + 4 ≤ vc_max_frame_bytes c ∧ envelope_decode bytes = Ok e ∧ envelope_ok c e.
Proof using.
  intros Hbytes. unfold decode_frame. rewrite !bind_unit_Ok, !ensure_Ok, !Z.leb_le, Z.eqb_eq. split.
  - intros (Hlen&Hmax&Hdecl&Hd). destruct (envelope_decode (drop 4 frame)) as [e'|] eqn:He; [|done].
    rewrite bind_unit_Ok in Hd. destruct Hd as [Hv [= ->]]. exists (drop 4 frame).
    assert (length (take 4 frame) = 4%nat) as Ht by (rewrite length_take; lia).
    assert (Z.of_nat (length (drop 4 frame)) = Z.of_nat (length frame) - 4) as Hdrop
      by (rewrite length_drop; lia).
    pose proof (le_value_range (take 4 frame) (Forall_take _ _ _ Hbytes)) as Hr. rewrite Ht in Hr.
    change (256 ^ Z.of_nat 4) with 4294967296 in Hr. split_and!; [|unfold u32_max; lia|lia|done|by apply envelope_accepts_Ok].
    pose proof (le_bytes_value (take 4 frame) (Forall_take _ _ _ Hbytes)) as Hle. rewrite Ht in Hle.
    by rewrite Hdrop, <-Hdecl, Hle, take_drop.
  - intros (bytes&->&Hn&Hmax&He&Hok). destruct (frame_prefix (Z.of_nat (length bytes)) bytes) as [-> ->]; [lia|].
    rewrite length_app, le_bytes_length, He, bind_unit_Ok, envelope_accepts_Ok. split_and!; (done || lia).
Qed.
End codec.

(** C18: a frame carries its envelope unchanged. If the frame of an envelope could be
    made, then decoding it under the same context gives that envelope back, the frame is
    within the context's bound, and every frame with a byte cut off or added is refused
    before the message is decoded. (For what the encoding crate documents.) *)
Theorem frame_roundtrip `{ProstApi} e c bytes frame :
  prost_exact e bytes → encode_frame e c = Ok frame →
  decode_frame frame c = Ok e ∧ Z.of_nat (length frame) ≤ vc_max_frame_bytes c ∧
  (∀ b, decode_frame (frame ++ [b]) c = Err (FrameTooLarge (Z.of_nat (length frame) + 1)) ∨
        decode_frame (frame ++ [b]) c =
          Err (FrameLengthMismatch (Z.of_nat (length bytes)) (Z.of_nat (length bytes) + 1))) ∧
  ∀ n, (n < length frame)%nat → is_ok (decode_frame (take n frame) c) = false.
Proof.
  intros [Henc Hlen Hdec]. unfold encode_frame. rewrite bind_unit_Ok, !bind_unit_Ok, !ensure_Ok, !Z.leb_le, Henc.
  intros (Hv&Hmax&Hu32&Hf). rewrite <-Hlen in *.
  assert (frame = le_bytes 4 (Z.of_nat (length bytes)) ++ bytes) as -> by congruence. clear Hf.
  destruct (frame_prefix (Z.of_nat (length bytes)) bytes) as [Hp Hd]; [lia|].
  assert (length (le_bytes 4 (Z.of_nat (length bytes)) ++ bytes) = (4 + length bytes)%nat) as Hframe.
  { by rewrite length_app, le_bytes_length. }
  split_and!.
  - unfold decode_frame. rewrite Hp, Hd, Hframe, Hdec, Hv.
    rewrite !bind_unit_Ok, !ensure_Ok, !Z.leb_le, Z.eqb_eq. split_and!; (done || lia).
  - rewrite Hframe. lia.
  - intros b. unfold decode_frame. rewrite length_app, Hframe. cbn [length].
    rewrite (proj2 (Z.leb_le 4 _)) by lia. cbn [ensure mbind result_bind].
    destruct (Z.leb_spec (Z.of_nat (4 + length bytes + 1)) (vc_max_frame_bytes c)); [right|left].
    + cbn [ensure mbind result_bind]. rewrite take_app_le by (rewrite Hframe; lia). rewrite Hp.
      destruct (Z.eqb_spec (Z.of_nat (length bytes)) (Z.of_nat (4 + length bytes + 1) - 4)); [lia|].
      cbn. do 2 f_equal; lia.
    + cbn. do 2 f_equal; lia.
  - intros n Hn. unfold decode_frame. rewrite length_take, Nat.min_l by lia.
    destruct (Z.leb_spec 4 (Z.of_nat n)); [|done]. cbn [ensure mbind result_bind].
    destruct (_ <=? _); [|done]. cbn [ensure mbind result_bind].
    rewrite take_take, Nat.min_l, Hp by lia. rewrite Hframe in Hn.
    destruct (Z.eqb_spec (Z.of_nat (length bytes)) (Z.of_nat n - 4)); [lia|done].
Qed.

(** exactly the well-formed frames are accepted. Whatever bytes arrive, decoding
    returns an envelope if and only if the bytes are its length in four little-endian
    bytes and then an encoding of it, within the bound, and the envelope is one a
    receiver may rely on: of an accepted version, of the expected launch and session,
    with live identifiers, not expired, of the size it declares, with a valid body. *)
Theorem frame_decoding_exact `{ProstApi} frame c e :
  Forall is_byte frame →
  decode_frame frame c = Ok e ↔
  ∃ bytes, frame = le_bytes 4 (Z.of_nat (length bytes)) ++ bytes ∧ Z.of_nat (length bytes) ≤ u32_max ∧
    Z.of_nat (length bytes) + 4 ≤ vc_max_frame_bytes c ∧ envelope_decode bytes = Ok e ∧ envelope_ok c e.
Proof. apply decode_frame_Ok. Qed.

(** ** Order *)

Section ordering.
Context `{ProstApi}.

(** A stream of envelopes against a tracker: those it accepts, and the tracker after. *)
Fixpoint observe_all (stream : list (EnvelopeV1 * EnvelopeValidationContext)) (t : SequenceTracker)
    : list EnvelopeV1 * SequenceTracker :=
  match stream with
  | [] => ([], t)
  | (e, c) :: stream =>
      match observe e c t with
      | Ok t => let '(accepted, t) := observe_all stream t in (e :: accepted, t)
      | Err _ => observe_all stream t
      end
  end.

(** [e'] may come after [e]. *)
Definition follows (ordering : OrderingPolicy) (last generation : Z) (e' : EnvelopeV1) : Prop :=
  match ordering with
  | StrictContiguous => ev_sequence e' = last + 1
  | Monotonic => last < ev_sequence e'
  end ∧ generation ≤ ev_cancellation_generation e'.

Lemma observe_Ok e c t t' :
  observe e c t = Ok t' →
  envelope_ok (own_context t c) e ∧
  follows (st_ordering t) (st_last_sequence t) (st_highest_cancellation_generation t) e ∧
  t' = {| st_expected_launch_nonce := st_expected_launch_nonce t;
          st_expected_session_id := st_expected_session_id t; st_last_sequence := ev_sequence e;
          st_highest_cancellation_generation := ev_cancellation_generation e; st_ordering := st_ordering t |}.
Proof using.
  unfold observe, follows. rewrite !bind_unit_Ok, !ensure_Ok, envelope_accepts_Ok, negb_true_iff, Z.ltb_lt, Z.leb_le.
  intros (Hok&Hlt&Hseq&Hgen&[= <-]). rewrite Z.max_r by lia. split_and!; try done.
  destruct (st_ordering t); [|done]. cbn in Hseq. apply negb_false_iff in Hseq. lia.
Qed.

(** The accepted envelopes one after the other. *)
Inductive in_order (ordering : OrderingPolicy) : Z → Z → list EnvelopeV1 → Prop :=
| in_order_nil last generation : in_order ordering last generation []
| in_order_cons last generation e es :
    follows ordering last generation e →
    in_order ordering (ev_sequence e) (ev_cancellation_generation e) es →
    in_order ordering last generation (e :: es).

(** What one process sent in one session. *)
Definition of_stream (t : SequenceTracker) (e : EnvelopeV1) : Prop :=
  ev_launch_nonce e = Some (st_expected_launch_nonce t) ∧
  ev_session_id e = Some (st_expected_session_id t) ∧ validate_body e = Ok tt.

Lemma observe_all_spec stream t accepted t' :
  observe_all stream t = (accepted, t') →
  in_order (st_ordering t) (st_last_sequence t) (st_highest_cancellation_generation t) accepted ∧
  Forall (of_stream t) accepted ∧
  st_last_sequence t' = default (st_last_sequence t) (ev_sequence <$> last accepted) ∧
  st_highest_cancellation_generation t' =
    default (st_highest_cancellation_generation t) (ev_cancellation_generation <$> last accepted).
Proof using.
  revert t accepted. induction stream as [|[e c] stream IH]; intros t accepted Hr; cbn in Hr.
  { injection Hr as <- <-. split_and!; constructor. }
  destruct (observe e c t) as [t1|error] eqn:Ho; [|by apply IH].
  destruct (observe_all stream t1) as [es t2] eqn:Hs. injection Hr as <- <-.
  apply observe_Ok in Ho as (Hok&Hf&->). apply IH in Hs as (Hord&Hall&Hl&Hg).
  cbn [st_ordering st_last_sequence st_highest_cancellation_generation] in *. split_and!.
  - by constructor.
  - constructor; [|done]. destruct Hok as [_ (l&Hl1&_&Hl2) (s&Hs1&_&Hs2) _ _ _ _ _ _ _ Hb].
    rewrite (Hl2 _ eq_refl) in Hl1. rewrite (Hs2 _ eq_refl) in Hs1. done.
  - rewrite Hl. by destruct es as [|e' es] using rev_ind; rewrite ?last_snoc, ?app_comm_cons, ?last_snoc.
  - rewrite Hg. by destruct es as [|e' es] using rev_ind; rewrite ?last_snoc, ?app_comm_cons, ?last_snoc.
Qed.

Lemma in_order_sorted ordering l g es :
  in_order ordering l g es →
  StronglySorted (λ e e', ev_sequence e < ev_sequence e' ∧
    ev_cancellation_generation e ≤ ev_cancellation_generation e') es ∧
  Forall (λ e, l < ev_sequence e ∧ g ≤ ev_cancellation_generation e) es.
Proof using.
  induction 1 as [|l g e es [Hs Hg] _ [IH Hall]]; [by repeat constructor|].
  assert (l < ev_sequence e) as Hlt by (destruct ordering; lia).
  split; [by constructor|]. constructor; [done|]. eapply Forall_impl; [exact Hall|]. cbn. lia.
Qed.

Lemma in_order_contiguous l g es i e :
  in_order StrictContiguous l g es → es !! i = Some e → ev_sequence e = l + 1 + Z.of_nat i.
Proof using.
  intros Ho. revert i. induction Ho as [|l g e0 es [Hs _] _ IH]; intros i Hi; [done|].
  destruct i as [|i]; cbn in Hi; [injection Hi as ->; lia|]. rewrite (IH i Hi). lia.
Qed.
End ordering.

(** a channel is read in order, once, and never from a superseded generation. For
    any stream of envelopes offered to a fresh tracker, under any contexts: the accepted
    ones are all of the expected launch and session with valid bodies, their sequence
    numbers strictly increase, from 1 without a gap when the order is strict, their
    cancellation generations never decrease, and the tracker stands at the last of
    them; a refused envelope changes nothing. *)
Theorem channel_read_in_order `{ProstApi} launch session ordering stream accepted t :
  observe_all stream (tracker_new launch session ordering) = (accepted, t) →
  Forall (of_stream (tracker_new launch session ordering)) accepted ∧
  StronglySorted (λ e e', ev_sequence e < ev_sequence e' ∧
    ev_cancellation_generation e ≤ ev_cancellation_generation e') accepted ∧
  (ordering = StrictContiguous → ∀ i e, accepted !! i = Some e → ev_sequence e = 1 + Z.of_nat i) ∧
  st_last_sequence t = default 0 (ev_sequence <$> last accepted) ∧
  st_highest_cancellation_generation t = default 0 (ev_cancellation_generation <$> last accepted).
Proof.
  intros Hr. apply observe_all_spec in Hr as (Ho&Hall&Hl&Hg). cbn in *. split_and!; try done.
  - by destruct (in_order_sorted _ _ _ _ Ho).
  - intros -> i e He. by rewrite (in_order_contiguous _ _ _ _ _ Ho He).
Qed.

(** ** Effects *)

(** The limits of a policy are unsigned. *)
Definition policy_limits (p : EffectsValidationPolicy) : Prop :=
  0 ≤ ep_max_animation_cues p ∧ 0 ≤ ep_max_memory_proposals p ∧
  0 ≤ ep_max_relationship_proposals p ∧ 0 ≤ ep_max_action_proposals p.

Lemma neutral_effects_valid `{ParameterJson} policy :
  policy_limits policy → proto_effects_validate proto_effects_neutral policy = Ok tt.
Proof.
  intros (?&?&?&?). unfold proto_effects_validate. rewrite !bind_unit_Ok. unfold effects_count.
  rewrite !ensure_Ok, !Z.leb_le. cbn [length proto_effects_neutral ne_animation_cues ne_memory_proposals
    ne_relationship_proposals ne_action_proposals check_all].
  split_and!; (done || reflexivity || vm_compute; reflexivity).
Qed.

(** effects fail closed. Whatever effects arrive, under any policy, what is used is
    valid under that policy; valid effects are used unchanged, and anything else is
    replaced as a whole by the neutral effects, which propose nothing, with the error. *)
Theorem effects_fail_closed `{ParameterJson} e policy :
  policy_limits policy →
  proto_effects_validate (eo_effects (validated_or_neutral e policy)) policy = Ok tt ∧
  (eo_neutralized (validated_or_neutral e policy) = false ↔ proto_effects_validate e policy = Ok tt) ∧
  (eo_neutralized (validated_or_neutral e policy) = false → eo_effects (validated_or_neutral e policy) = e) ∧
  (eo_neutralized (validated_or_neutral e policy) = true →
     eo_effects (validated_or_neutral e policy) = proto_effects_neutral ∧
     is_some (eo_error (validated_or_neutral e policy)) = true).
Proof.
  intros Hp. unfold validated_or_neutral. destruct (proto_effects_validate e policy) as [[]|error] eqn:Hv; cbn.
  - by split_and!.
  - split_and!; try done. by apply neutral_effects_valid.
Qed.

(** * The transport protocol on concrete envelopes

    The witnesses of the theorems of [ProtoSpec], with a codec that knows the heartbeats
    of one session by their sequence number and generation. *)

#[local] Open Scope Z_scope.

Definition demo_id (n : Z) : ProtoId := {| id_value := repeat n 16 |}.

Definition demo_heartbeat (sequence generation : Z) : EnvelopeV1 := {|
  ev_protocol_version := Some V1_0_0; ev_launch_nonce := Some (demo_id 1); ev_session_id := Some (demo_id 2);
  ev_turn_id := None; ev_trace_id := Some (demo_id 4); ev_sequence := sequence;
  ev_qpc_timestamp_ticks := 100; ev_qpc_frequency_hz := 10000000; ev_deadline_qpc_ticks := 1000;
  ev_cancellation_generation := generation; ev_declared_body_bytes := 12;
  ev_body := Some (Heartbeat {| hb_uptime_ms := 5; hb_component := lit "runtime"; hb_state := lit "ready" |}) |}.

#[local] Instance demo_prost : ProstApi := {|
  body_encoded_len _ := 12;
  envelope_encoded_len _ := 2;
  envelope_encode e := Ok [ev_sequence e; ev_cancellation_generation e];
  envelope_decode bytes :=
    match bytes with
    | [sequence; generation] => Ok (demo_heartbeat sequence generation)
    | _ => Err (lit "unexpected end of message")
    end
|}.

Definition demo_context : EnvelopeValidationContext := permissive_for_time 100.
Definition demo_frame : list Z := [2; 0; 0; 0; 1; 3].

Lemma frame_roundtrip_witness :
  encode_frame (demo_heartbeat 1 3) demo_context = Ok demo_frame ∧
  decode_frame demo_frame demo_context = Ok (demo_heartbeat 1 3) ∧
  Z.of_nat (length demo_frame) ≤ DEFAULT_MAX_FRAME_BYTES.
Proof.
  assert (encode_frame (demo_heartbeat 1 3) demo_context = Ok demo_frame) as He by (vm_compute; reflexivity).
  split; [exact He|].
  destruct (frame_roundtrip (demo_heartbeat 1 3) demo_context [1; 3] demo_frame ltac:(by constructor) He)
    as (Hd&Hl&_).
  by split.
Defined.

Lemma frame_decoding_exact_witness :
  Forall is_byte demo_frame ∧ envelope_ok demo_context (demo_heartbeat 1 3).
Proof.
  assert (Forall is_byte demo_frame) as Hb by (apply is_byte_all; vm_compute; reflexivity).
  split; [exact Hb|].
  destruct (proj1 (frame_decoding_exact demo_frame demo_context (demo_heartbeat 1 3) Hb)) as (bytes&_&_&_&_&Hok).
  - vm_compute. reflexivity.
  - exact Hok.
Defined.

(** A replay, a gap and a message of an old generation are refused. *)
Definition demo_stream : list (EnvelopeV1 * EnvelopeValidationContext) :=
  (λ e, (e, demo_context)) <$>
  [demo_heartbeat 1 0; demo_heartbeat 1 0; demo_heartbeat 3 0; demo_heartbeat 2 4; demo_heartbeat 3 1;
   demo_heartbeat 3 4].

Lemma channel_read_in_order_witness :
  (observe_all demo_stream (tracker_new (demo_id 1) (demo_id 2) StrictContiguous)).1 =
    [demo_heartbeat 1 0; demo_heartbeat 2 4; demo_heartbeat 3 4] ∧
  ∀ i e, (observe_all demo_stream (tracker_new (demo_id 1) (demo_id 2) StrictContiguous)).1 !! i = Some e →
    ev_sequence e = 1 + Z.of_nat i.
Proof.
  split; [vm_compute; reflexivity|].
  destruct (channel_read_in_order (demo_id 1) (demo_id 2) StrictContiguous demo_stream _ _
    (surjective_pairing _)) as (_&_&Hs&_).
  exact (Hs eq_refl).
Defined.

Definition demo_range (minor : Z) : VersionRange := {|
  vr_minimum := V1_0_0; vr_maximum := {| pv_major := 1; pv_minor := minor; pv_patch := 0 |} |}.

Lemma negotiation_exact_witness :
  negotiate (demo_range 4) (demo_range 2) = Ok (vr_maximum (demo_range 2)) ∧
  negotiate (demo_range 2) (demo_range 4) = negotiate (demo_range 4) (demo_range 2).
Proof.
  split; [vm_compute; reflexivity|].
  exact (proj2 (negotiation_exact (demo_range 4) (demo_range 2) eq_refl eq_refl)).
Defined.

#[local] Instance demo_json : ParameterJson := {| is_json_object s := bool_decide (s = lit "{}") |}.

(** Effects with an action that is not allowed. *)
Definition demo_effects : NpcEffectsV1 := {|
  ne_emotion := 2; ne_valence := f32_one; ne_arousal := f_zero; ne_intensity := f32_one;
  ne_voice_style := 2; ne_speaking_rate := f32_one; ne_pitch_semitones := f_zero; ne_energy := f32_one;
  ne_animation_cues := []; ne_interruption_policy := 1; ne_memory_proposals := [];
  ne_relationship_proposals := [];
  ne_action_proposals := [{| ap_action_id := lit "spawn_process"; ap_parameters_json := lit "{}";
    ap_rationale := []; ap_requires_confirmation := false |}] |}.

Lemma effects_fail_closed_witness :
  policy_limits effects_policy_default ∧
  eo_neutralized (validated_or_neutral demo_effects effects_policy_default) = true ∧
  proto_effects_validate (eo_effects (validated_or_neutral demo_effects effects_policy_default))
    effects_policy_default = Ok tt.
Proof.
  assert (policy_limits effects_policy_default) as Hp by (unfold policy_limits; cbn; lia).
  split; [exact Hp|]. split; [vm_compute; reflexivity|].
  exact (proj1 (effects_fail_closed demo_effects effects_policy_default Hp)).
Defined.
