(* ===== verification/Identity.v ===== *)
(** * Identity engine: boxes, embeddings and the gallery
    ([crates/identity-engine/src/{geometry,embedding,identity}.rs])

    The data the tracker and the resolver work on, with its validation. The digest and
    the platform's [hypot] are not in the repository: [TrackerApi], which includes the
    sign of the NaNs the program computes.

    At the end, what each validation means. *)

From S2P Require Import Prelude Text Bytes Float.

#[local] Open Scope Z_scope.

Class TrackerApi := {
  f32_hypot : f32 → f32 → f32;
  tracker_digest :: DigestApi;
  tracker_nan :: NanApi
}.

(** ** Boxes *)

Record BoundingBoxV1 := { bx_x : f32; bx_y : f32; bx_width : f32; bx_height : f32 }.

Inductive GeometryError := InvalidBoundingBox.

Definition box_validate (b : BoundingBoxV1) : result GeometryError unit :=
  if negb (is_finite (bx_x b)) || negb (is_finite (bx_y b))
     || negb (is_finite (bx_width b)) || negb (is_finite (bx_height b))
     || f_le (bx_width b) f_zero || f_le (bx_height b) f_zero
  then Err InvalidBoundingBox else Ok tt.

Definition area (b : BoundingBoxV1) : f32 := f32_mul (bx_width b) (bx_height b).

Definition center (b : BoundingBoxV1) : f32 * f32 :=
  (f32_add (bx_x b) (f32_mul (bx_width b) f32_half),
   f32_add (bx_y b) (f32_mul (bx_height b) f32_half)).

Definition intersection_over_union (self other : BoundingBoxV1) : f32 :=
  let left := f32_max (bx_x self) (bx_x other) in
  let top := f32_max (bx_y self) (bx_y other) in
  let right := f32_min (f32_add (bx_x self) (bx_width self)) (f32_add (bx_x other) (bx_width other)) in
  let bottom := f32_min (f32_add (bx_y self) (bx_height self)) (f32_add (bx_y other) (bx_height other)) in
  let intersection :=
    f32_mul (f32_max (f32_sub right left) f_zero) (f32_max (f32_sub bottom top) f_zero) in
  let union_ := f32_sub (f32_add (area self) (area other)) intersection in
  if f_le union_ f32_epsilon then f_zero
  else f32_clamp f_zero f32_one (f32_div intersection union_).

Definition normalized_center_distance `{TrackerApi} (self other : BoundingBoxV1) : f32 :=
  let '(ax, ay) := center self in
  let '(bx, by_) := center other in
  let distance := f32_hypot (f32_sub ax bx) (f32_sub ay by_) in
  let scale := f32_max (f32_hypot (f32_max (bx_width self) (bx_width other))
                                  (f32_max (bx_height self) (bx_height other))) f32_epsilon in
  f32_div distance scale.

Definition translated (dx dy : f32) (b : BoundingBoxV1) : BoundingBoxV1 := {|
  bx_x := f32_add (bx_x b) dx; bx_y := f32_add (bx_y b) dy;
  bx_width := bx_width b; bx_height := bx_height b |}.

(** ** Embeddings *)

Definition EMBEDDING_SCHEMA_VERSION : Z := 1.
Definition UNIT_NORM_TOLERANCE : f32 := Eval vm_compute in f32_lit 1 1000.

Record EmbeddingModelV1 := {
  xm_provider : str;
  xm_model_id : str;
  xm_revision : str;
  xm_dimensions : Z
}.
#[export] Instance EmbeddingModelV1_eq_dec : EqDecision EmbeddingModelV1.
Proof. solve_decision. Defined.

Inductive EmbeddingError :=
| EmbUnsupportedSchemaVersion (version : Z)
| InvalidModelDescriptor
| InvalidMetadata
| InvalidSourceDigest
| DimensionMismatch (expected actual : Z)
| NonFiniteValue
| ZeroNorm
| NotNormalized
| IncompatibleModelSpace
| EmbInvalidGeometry (error : GeometryError).

Definition model_validate (m : EmbeddingModelV1) : result EmbeddingError unit :=
  if is_blank (xm_provider m) || is_blank (xm_model_id m) || is_blank (xm_revision m)
     || (xm_dimensions m =? 0) || (65536 <? xm_dimensions m)
  then Err InvalidModelDescriptor else Ok tt.

Record EmbeddingMetadataV1 := {
  xd_source_frame_index : Z;
  xd_crop_bounds : BoundingBoxV1;
  xd_detector_id : str;
  xd_detector_revision : str;
  xd_preprocessing : str;
  xd_source_digest_sha256 : option str
}.

Definition is_hexdigit_char (c : char) : bool :=
  is_ascii_digit c || ((65 <=? c) && (c <=? 70)) || ((97 <=? c) && (c <=? 102)).

Definition metadata_validate (d : EmbeddingMetadataV1) : result EmbeddingError unit :=
  _ ← map_err EmbInvalidGeometry (box_validate (xd_crop_bounds d));
  if is_blank (xd_detector_id d) || is_blank (xd_detector_revision d) || is_blank (xd_preprocessing d)
  then Err InvalidMetadata else
  if is_some_and (xd_source_digest_sha256 d)
       (λ digest, negb (str_len digest =? 64) || negb (forallb is_hexdigit_char digest))
  then Err InvalidSourceDigest else Ok tt.

Record NormalizedEmbeddingV1 := {
  ne_schema_version : Z;
  ne_model : EmbeddingModelV1;
  ne_metadata : EmbeddingMetadataV1;
  ne_values : list f32
}.

Definition validate_raw_values (model : EmbeddingModelV1) (values : list f32)
    : result EmbeddingError unit :=
  if negb (Z.of_nat (length values) =? xm_dimensions model)
  then Err (DimensionMismatch (xm_dimensions model) (Z.of_nat (length values))) else
  if existsb (λ value, negb (is_finite value)) values then Err NonFiniteValue else Ok tt.

Definition l2_norm (values : list f32) : f32 :=
  f32_sqrt (f32_sum ((λ value, f32_mul value value) <$> values)).

Definition embedding_validate (e : NormalizedEmbeddingV1) : result EmbeddingError unit :=
  _ ← ensure (ne_schema_version e =? EMBEDDING_SCHEMA_VERSION)
        (EmbUnsupportedSchemaVersion (ne_schema_version e));
  _ ← model_validate (ne_model e);
  _ ← metadata_validate (ne_metadata e);
  _ ← validate_raw_values (ne_model e) (ne_values e);
  let norm := l2_norm (ne_values e) in
  if f_le norm f32_epsilon then Err ZeroNorm else
  if f_lt UNIT_NORM_TOLERANCE (f32_abs (f32_sub norm f32_one)) then Err NotNormalized else Ok tt.

Definition embedding_new (model : EmbeddingModelV1) (metadata : EmbeddingMetadataV1)
    (values : list f32) : result EmbeddingError NormalizedEmbeddingV1 :=
  _ ← model_validate model;
  _ ← metadata_validate metadata;
  _ ← validate_raw_values model values;
  let norm := l2_norm values in
  if f_le norm f32_epsilon then Err ZeroNorm else
  let embedding := {|
    ne_schema_version := EMBEDDING_SCHEMA_VERSION; ne_model := model; ne_metadata := metadata;
    ne_values := (λ value, f32_div value norm) <$> values |} in
  _ ← embedding_validate embedding; Ok embedding.

Definition cosine_similarity (self other : NormalizedEmbeddingV1) : result EmbeddingError f32 :=
  _ ← embedding_validate self;
  _ ← embedding_validate other;
  if bool_decide (ne_model self ≠ ne_model other) then Err IncompatibleModelSpace else
  Ok (f32_clamp f32_minus_one f32_one
        (f32_sum (zip_with f32_mul (ne_values self) (ne_values other)))).

(** ** The gallery *)

Definition IDENTITY_GALLERY_SCHEMA_VERSION : Z := 1.

Record IdentityReferenceV1 := {
  ir_reference_id : str;
  ir_provenance : str;
  ir_embedding : NormalizedEmbeddingV1
}.

Record SubjectIdentityV1 := {
  sj_subject_id : str;
  sj_display_name : str;
  sj_references : list IdentityReferenceV1
}.

Inductive IdentityError :=
| UnsupportedGallerySchema (version : Z)
| InvalidIdentityConfiguration
| InvalidIdentifier (kind : str)
| InvalidDisplayName
| InvalidProvenance
| SubjectHasNoReferences (subject_id : str)
| DuplicateSubjectId (subject_id : str)
| DuplicateReferenceId (reference_id : str)
| SubjectMapKeyMismatch (key subject_id : str)
| IncompatibleGalleryModel
| IncompatibleObservationModel
| UnknownSubject (subject_id : str)
| IdInvalidEmbedding (error : EmbeddingError).

(** The bytes of a character outside ASCII are never in the class, so the test on the
    bytes of the text is a test on its characters. *)
Definition is_identifier_char (c : char) : bool :=
  is_ascii_alphabetic c || is_ascii_digit c || (c =? 45) || (c =? 95) || (c =? 46) || (c =? 58).

Definition validate_identifier (value kind : str) : result IdentityError unit :=
  if str_is_empty value || (256 <? str_len value) || negb (forallb is_identifier_char value)
  then Err (InvalidIdentifier kind) else Ok tt.

(** The loop over the references of a subject: [reference_ids] are those before. *)
Fixpoint references_validate (model : EmbeddingModelV1) (reference_ids : gset str)
    (references : list IdentityReferenceV1) : result IdentityError unit :=
  match references with
  | [] => Ok tt
  | reference :: references =>
      _ ← validate_identifier (ir_reference_id reference) (lit "reference ID");
      if bool_decide (ir_reference_id reference ∈ reference_ids)
      then Err (DuplicateReferenceId (ir_reference_id reference)) else
      if is_blank (ir_provenance reference) || (2048 <? str_len (ir_provenance reference))
      then Err InvalidProvenance else
      _ ← map_err IdInvalidEmbedding (embedding_validate (ir_embedding reference));
      if bool_decide (ne_model (ir_embedding reference) ≠ model)
      then Err IncompatibleGalleryModel else
      references_validate model ({[ir_reference_id reference]} ∪ reference_ids) references
  end.

Definition subject_validate (model : EmbeddingModelV1) (s : SubjectIdentityV1)
    : result IdentityError unit :=
  _ ← validate_identifier (sj_subject_id s) (lit "subject ID");
  if is_blank (sj_display_name s) || (256 <? str_len (sj_display_name s))
  then Err InvalidDisplayName else
  match sj_references s with
  | [] => Err (SubjectHasNoReferences (sj_subject_id s))
  | references => references_validate model ∅ references
  end.

Record IdentityGalleryV1 := {
  ig_schema_version : Z;
  ig_model : EmbeddingModelV1;
  ig_subjects : gmap str SubjectIdentityV1
}.

Definition gallery_new (model : EmbeddingModelV1) : result IdentityError IdentityGalleryV1 :=
  _ ← map_err IdInvalidEmbedding (model_validate model);
  Ok {| ig_schema_version := IDENTITY_GALLERY_SCHEMA_VERSION; ig_model := model; ig_subjects := ∅ |}.

Definition gallery_entry_validate (model : EmbeddingModelV1) (entry : str * SubjectIdentityV1)
    : result IdentityError unit :=
  if bool_decide (entry.1 ≠ sj_subject_id entry.2)
  then Err (SubjectMapKeyMismatch entry.1 (sj_subject_id entry.2))
  else subject_validate model entry.2.

Definition gallery_validate (g : IdentityGalleryV1) : result IdentityError unit :=
  _ ← ensure (ig_schema_version g =? IDENTITY_GALLERY_SCHEMA_VERSION)
        (UnsupportedGallerySchema (ig_schema_version g));
  _ ← map_err IdInvalidEmbedding (model_validate (ig_model g));
  check_all (gallery_entry_validate (ig_model g)) (btree_iter (ig_subjects g)).

Definition set_subjects (subjects : gmap str SubjectIdentityV1) (g : IdentityGalleryV1)
    : IdentityGalleryV1 := {|
  ig_schema_version := ig_schema_version g; ig_model := ig_model g; ig_subjects := subjects |}.

Definition insert_subject (subject : SubjectIdentityV1) (g : IdentityGalleryV1)
    : result IdentityError IdentityGalleryV1 :=
  _ ← subject_validate (ig_model g) subject;
  if is_some (ig_subjects g !! sj_subject_id subject)
  then Err (DuplicateSubjectId (sj_subject_id subject)) else
  Ok (set_subjects (<[sj_subject_id subject := subject]> (ig_subjects g)) g).

Definition contains_subject (g : IdentityGalleryV1) (subject_id : str) : bool :=
  is_some (ig_subjects g !! subject_id).

(** * Identity engine: what validation means

    Each validation of [Identity] as the conjunction of its conditions, for the proofs
    about the resolver and the imported galleries. *)

#[local] Open Scope Z_scope.

(** The text of a name: not blank, and not too long. *)
Definition text_ok (bound : Z) (s : str) : Prop := is_blank s = false ∧ str_len s ≤ bound.

Lemma text_ok_iff bound s : is_blank s || (bound <? str_len s) = false ↔ text_ok bound s.
Proof. by rewrite orb_false_iff, Z.ltb_ge. Qed.

Definition reference_ok (model : EmbeddingModelV1) (r : IdentityReferenceV1) : Prop :=
  validate_identifier (ir_reference_id r) (lit "reference ID") = Ok tt ∧
  text_ok 2048 (ir_provenance r) ∧
  embedding_validate (ir_embedding r) = Ok tt ∧ ne_model (ir_embedding r) = model.

Lemma references_validate_Ok model references : ∀ seen,
  references_validate model seen references = Ok tt ↔
  NoDup (ir_reference_id <$> references) ∧
  (∀ id, id ∈ ir_reference_id <$> references → id ∉ seen) ∧
  Forall (reference_ok model) references.
Proof.
  induction references as [|r references IH]; intros seen; cbn [references_validate].
  { split; [|done]. intros _. split; [apply NoDup_nil_2|]. split; [|done].
    by intros ??%not_elem_of_nil. }
  rewrite fmap_cons, NoDup_cons, Forall_cons, !bind_unit_Ok. unfold reference_ok.
  rewrite !if_err_Ok, text_ok_iff, bind_unit_Ok, if_err_Ok, map_err_Ok, IH, !bool_decide_eq_false.
  rewrite not_ne_iff.
  split.
  - intros (?&?&?&?&?&?&Hseen&?). split; [split; [|done]|split; [|done]].
    + intros Hin. apply (Hseen _ Hin). set_solver.
    + intros id [->|Hin]%elem_of_cons; [done|]. intros ?. apply (Hseen _ Hin). set_solver.
  - intros ((?&?)&Hseen&(?&?&?&?)&?). split; [done|]. split; [apply Hseen; by left|].
    do 4 (split; [done|]). split; [|done]. intros id Hin Hor.
    assert (id ∉ seen) by (apply Hseen; by right). set_solver.
Qed.

Definition subject_ok (model : EmbeddingModelV1) (s : SubjectIdentityV1) : Prop :=
  validate_identifier (sj_subject_id s) (lit "subject ID") = Ok tt ∧
  text_ok 256 (sj_display_name s) ∧ sj_references s ≠ [] ∧
  NoDup (ir_reference_id <$> sj_references s) ∧ Forall (reference_ok model) (sj_references s).

Lemma subject_validate_Ok model s : subject_validate model s = Ok tt ↔ subject_ok model s.
Proof.
  unfold subject_validate, subject_ok. rewrite bind_unit_Ok, if_err_Ok, text_ok_iff.
  destruct (sj_references s) as [|r references] eqn:E; [naive_solver|].
  rewrite references_validate_Ok.
  assert (∀ id, id ∈ ir_reference_id <$> r :: references → id ∉ (∅ : gset str)) by set_solver.
  naive_solver.
Qed.

Definition gallery_ok (g : IdentityGalleryV1) : Prop :=
  ig_schema_version g = IDENTITY_GALLERY_SCHEMA_VERSION ∧
  model_validate (ig_model g) = Ok tt ∧
  map_Forall (λ k s, k = sj_subject_id s ∧ subject_ok (ig_model g) s) (ig_subjects g).

Lemma gallery_validate_Ok g : gallery_validate g = Ok tt ↔ gallery_ok g.
Proof.
  unfold gallery_validate, gallery_ok.
  rewrite !bind_unit_Ok, ensure_Ok, Z.eqb_eq, map_err_Ok, check_all_Ok, Forall_forall.
  assert ((∀ x, x ∈ btree_iter (ig_subjects g) → gallery_entry_validate (ig_model g) x = Ok tt) ↔
    map_Forall (λ k s, k = sj_subject_id s ∧ subject_ok (ig_model g) s) (ig_subjects g)) as ->;
    [|tauto].
  assert (∀ k s, gallery_entry_validate (ig_model g) (k, s) = Ok tt ↔
    k = sj_subject_id s ∧ subject_ok (ig_model g) s) as Hentry.
  { intros k s. unfold gallery_entry_validate.
    by rewrite if_err_Ok, subject_validate_Ok, bool_decide_eq_false, not_ne_iff. }
  split.
  - intros Hall k s Hs. apply Hentry, Hall. by apply btree_iter_elem.
  - intros Hall [k s] Hs%btree_iter_elem. by apply Hentry, Hall.
Qed.

(** Two valid embeddings of one model can be compared. *)
Lemma cosine_similarity_ok e1 e2 :
  embedding_validate e1 = Ok tt → embedding_validate e2 = Ok tt → ne_model e1 = ne_model e2 →
  ∃ similarity, cosine_similarity e1 e2 = Ok similarity.
Proof.
  intros H1 H2 Hm. unfold cosine_similarity. rewrite H1, H2. cbn.
  rewrite bool_decide_eq_false_2 by (by intros []). by eexists.
Qed.
