(* ===== verification/Tracker.v ===== *)
(** * Identity engine: continuity of actors
    ([crates/identity-engine/src/tracker.rs])

    The tracker associates the detections of each frame with the actors it follows. Its
    [update] changes the tracker in place and can fail in the middle, so every loop
    returns the tracker as it stands beside its result; [None] is the panic of an index
    out of range. *)

From S2P Require Import Prelude Text Bytes Float Identity.

#[local] Open Scope Z_scope.

Inductive TrackPhaseV1 := Visible | Offscreen.
#[export] Instance TrackPhaseV1_eq_dec : EqDecision TrackPhaseV1.
Proof. solve_decision. Defined.

Record ActorDetectionV1 := {
  dt_detector_local_id : option str;
  dt_bounds : BoundingBoxV1;
  dt_confidence : f32;
  dt_embedding : option NormalizedEmbeddingV1
}.

Inductive TrackerError :=
| InvalidConfiguration
| InvalidEncounterNamespace
| InvalidDetectionConfidence
| InvalidDetectorLocalId
| DuplicateDetectorLocalId (local_id : str)
| NonMonotonicFrameIndex
| NonMonotonicTimestamp
| UnknownTrack (track_id : Z)
| TrackIdExhausted
| TrackEpochExhausted
| InternalAssociationInvariant
| TrkInvalidGeometry (error : GeometryError)
| TrkInvalidEmbedding (error : EmbeddingError).

Definition in_unit_range (x : f32) : bool := is_finite x && range_contains f_zero f32_one x.

Definition detection_validate (d : ActorDetectionV1) : result TrackerError unit :=
  _ ← map_err TrkInvalidGeometry (box_validate (dt_bounds d));
  _ ← ensure (in_unit_range (dt_confidence d)) InvalidDetectionConfidence;
  _ ← ensure (negb (is_some_and (dt_detector_local_id d)
         (λ value, is_blank value || (256 <? str_len value)))) InvalidDetectorLocalId;
  match dt_embedding d with
  | Some embedding => map_err TrkInvalidEmbedding (embedding_validate embedding)
  | None => Ok tt
  end.

Record FrameActorsV1 := {
  fr_frame_index : Z;
  fr_timestamp_ms : Z;
  fr_detections : list ActorDetectionV1
}.

Record TrackerConfigV1 := {
  tc_encounter_namespace : str;
  tc_minimum_detection_confidence : f32;
  tc_minimum_intersection_over_union : f32;
  tc_maximum_normalized_center_distance : f32;
  tc_minimum_appearance_similarity : f32;
  tc_appearance_weight : f32;
  tc_selected_actor_match_bonus : f32;
  tc_velocity_smoothing : f32;
  tc_maximum_missed_frames : Z;
  tc_selected_actor_maximum_missed_frames : Z
}.

Definition tracker_config_default : TrackerConfigV1 := Eval vm_compute in {|
  tc_encounter_namespace := lit "default-session";
  tc_minimum_detection_confidence := f32_lit 35 100;
  tc_minimum_intersection_over_union := f32_lit 5 100;
  tc_maximum_normalized_center_distance := f32_lit 5 2;
  tc_minimum_appearance_similarity := f32_lit 65 100;
  tc_appearance_weight := f32_lit 1 4;
  tc_selected_actor_match_bonus := f32_lit 8 100;
  tc_velocity_smoothing := f32_lit 55 100;
  tc_maximum_missed_frames := 4;
  tc_selected_actor_maximum_missed_frames := 30 |}.

Definition tracker_config_validate (c : TrackerConfigV1) : result TrackerError unit :=
  if is_blank (tc_encounter_namespace c) || (256 <? str_len (tc_encounter_namespace c))
  then Err InvalidEncounterNamespace else
  if negb (forallb in_unit_range [tc_minimum_detection_confidence c;
       tc_minimum_intersection_over_union c; tc_appearance_weight c; tc_velocity_smoothing c])
  then Err InvalidConfiguration else
  if negb (is_finite (tc_minimum_appearance_similarity c))
     || negb (range_contains f32_minus_one f32_one (tc_minimum_appearance_similarity c))
     || negb (is_finite (tc_maximum_normalized_center_distance c))
     || f_le (tc_maximum_normalized_center_distance c) f_zero
     || negb (is_finite (tc_selected_actor_match_bonus c))
     || f_lt (tc_selected_actor_match_bonus c) f_zero
     || (tc_selected_actor_maximum_missed_frames c <? tc_maximum_missed_frames c)
  then Err InvalidConfiguration else Ok tt.

Record ActorTrackSnapshotV1 := {
  sn_track_id : Z;
  sn_track_epoch : Z;
  sn_phase : TrackPhaseV1;
  sn_bounds : BoundingBoxV1;
  sn_velocity_x_per_frame : f32;
  sn_velocity_y_per_frame : f32;
  sn_first_seen_frame : Z;
  sn_last_seen_frame : Z;
  sn_missed_frames : Z;
  sn_selected : bool;
  sn_encounter_id : str
}.

Inductive TrackEventV1 :=
| TrackCreated (track_id track_epoch : Z)
| TrackUpdated (track_id track_epoch : Z)
| TrackLost (track_id track_epoch : Z)
| TrackReacquired (track_id track_epoch : Z)
| TrackRetired (track_id final_epoch : Z) (encounter_id : str)
| SelectionCleared (retired_track_id : Z).

Record TrackedDetectionV1 := {
  td_detection_index : nat;
  td_track_id : Z;
  td_track_epoch : Z;
  td_embedding : option NormalizedEmbeddingV1
}.

Record TrackState := {
  ts_track_id : Z;
  ts_track_epoch : Z;
  ts_phase : TrackPhaseV1;
  ts_bounds : BoundingBoxV1;
  ts_velocity_x_per_frame : f32;
  ts_velocity_y_per_frame : f32;
  ts_first_seen_frame : Z;
  ts_last_seen_frame : Z;
  ts_missed_frames : Z;
  ts_encounter_id : str;
  ts_last_embedding : option NormalizedEmbeddingV1
}.

Definition track_snapshot (selected : bool) (t : TrackState) : ActorTrackSnapshotV1 := {|
  sn_track_id := ts_track_id t; sn_track_epoch := ts_track_epoch t; sn_phase := ts_phase t;
  sn_bounds := ts_bounds t; sn_velocity_x_per_frame := ts_velocity_x_per_frame t;
  sn_velocity_y_per_frame := ts_velocity_y_per_frame t;
  sn_first_seen_frame := ts_first_seen_frame t; sn_last_seen_frame := ts_last_seen_frame t;
  sn_missed_frames := ts_missed_frames t; sn_selected := selected;
  sn_encounter_id := ts_encounter_id t |}.

Definition predicted_bounds (frame_index : Z) (t : TrackState) : BoundingBoxV1 :=
  let elapsed := f32_of_u64 (sat_sub frame_index (ts_last_seen_frame t)) in
  translated (f32_mul (ts_velocity_x_per_frame t) elapsed)
             (f32_mul (ts_velocity_y_per_frame t) elapsed) (ts_bounds t).

Record ActorTrackerV1 := {
  at_config : TrackerConfigV1;
  at_next_track_id : Z;
  at_tracks : gmap Z TrackState;
  at_selected_track_id : option Z;
  at_last_frame_index : option Z;
  at_last_timestamp_ms : option Z
}.

Record TrackerUpdateV1 := {
  tu_frame_index : Z;
  tu_tracks : list ActorTrackSnapshotV1;
  tu_observations : list TrackedDetectionV1;
  tu_events : list TrackEventV1;
  tu_selected_track_id : option Z
}.

Definition actor_tracker_new (config : TrackerConfigV1) : result TrackerError ActorTrackerV1 :=
  _ ← tracker_config_validate config;
  Ok {| at_config := config; at_next_track_id := 1; at_tracks := ∅;
        at_selected_track_id := None; at_last_frame_index := None; at_last_timestamp_ms := None |}.

Definition set_tracks (tracks : gmap Z TrackState) (a : ActorTrackerV1) : ActorTrackerV1 := {|
  at_config := at_config a; at_next_track_id := at_next_track_id a; at_tracks := tracks;
  at_selected_track_id := at_selected_track_id a; at_last_frame_index := at_last_frame_index a;
  at_last_timestamp_ms := at_last_timestamp_ms a |}.

Definition set_selected (selected : option Z) (a : ActorTrackerV1) : ActorTrackerV1 := {|
  at_config := at_config a; at_next_track_id := at_next_track_id a; at_tracks := at_tracks a;
  at_selected_track_id := selected; at_last_frame_index := at_last_frame_index a;
  at_last_timestamp_ms := at_last_timestamp_ms a |}.

Definition set_next_track_id (next : Z) (a : ActorTrackerV1) : ActorTrackerV1 := {|
  at_config := at_config a; at_next_track_id := next; at_tracks := at_tracks a;
  at_selected_track_id := at_selected_track_id a; at_last_frame_index := at_last_frame_index a;
  at_last_timestamp_ms := at_last_timestamp_ms a |}.

Definition set_last_frame (frame : FrameActorsV1) (a : ActorTrackerV1) : ActorTrackerV1 := {|
  at_config := at_config a; at_next_track_id := at_next_track_id a; at_tracks := at_tracks a;
  at_selected_track_id := at_selected_track_id a;
  at_last_frame_index := Some (fr_frame_index frame);
  at_last_timestamp_ms := Some (fr_timestamp_ms frame) |}.

Definition select_actor (track_id : Z) (a : ActorTrackerV1) : result TrackerError ActorTrackerV1 :=
  if negb (is_some (at_tracks a !! track_id)) then Err (UnknownTrack track_id)
  else Ok (set_selected (Some track_id) a).

Definition clear_selection (a : ActorTrackerV1) : ActorTrackerV1 := set_selected None a.

Definition is_selected (a : ActorTrackerV1) (track_id : Z) : bool :=
  bool_decide (at_selected_track_id a = Some track_id).

Definition tracker_snapshot (a : ActorTrackerV1) : list ActorTrackSnapshotV1 :=
  (λ t, track_snapshot (is_selected a (ts_track_id t)) t) <$> (btree_iter (at_tracks a)).*2.

(** ** Checking a frame *)

(** The loop over the detections: [local_ids] are those before. *)
Fixpoint detections_validate (local_ids : gset str) (detections : list ActorDetectionV1)
    : result TrackerError unit :=
  match detections with
  | [] => Ok tt
  | detection :: detections =>
      _ ← detection_validate detection;
      match dt_detector_local_id detection with
      | Some local_id =>
          if bool_decide (local_id ∈ local_ids) then Err (DuplicateDetectorLocalId local_id)
          else detections_validate ({[local_id]} ∪ local_ids) detections
      | None => detections_validate local_ids detections
      end
  end.

Definition validate_frame (frame : FrameActorsV1) (a : ActorTrackerV1) : result TrackerError unit :=
  _ ← ensure (negb (is_some_and (at_last_frame_index a) (λ last_, fr_frame_index frame <=? last_)))
        NonMonotonicFrameIndex;
  _ ← ensure (negb (is_some_and (at_last_timestamp_ms a) (λ last_, fr_timestamp_ms frame <? last_)))
        NonMonotonicTimestamp;
  detections_validate ∅ (fr_detections frame).

(** ** Association *)

Definition enumerate {A} (l : list A) : list (nat * A) := imap pair l.

Definition eligible_detections (config : TrackerConfigV1) (detections : list ActorDetectionV1)
    : gset nat :=
  list_to_set (omap (λ '(index, detection),
    if f_ge (dt_confidence detection) (tc_minimum_detection_confidence config)
    then Some index else None) (enumerate detections)).

Section association.
Context `{TrackerApi}.

Definition association_score (a : ActorTrackerV1) (t : TrackState) (detection : ActorDetectionV1)
    (frame_index : Z) : option f32 :=
  let config := at_config a in
  let predicted := predicted_bounds frame_index t in
  let iou := intersection_over_union predicted (dt_bounds detection) in
  let distance := normalized_center_distance predicted (dt_bounds detection) in
  let appearance := match ts_last_embedding t, dt_embedding detection with
    | Some previous, Some current =>
        match cosine_similarity previous current with Ok s => Some s | Err _ => None end
    | _, _ => None
    end in
  let geometric_gate := f_ge iou (tc_minimum_intersection_over_union config)
    || f_le distance (tc_maximum_normalized_center_distance config) in
  let appearance_gate :=
    is_some_and appearance (λ s, f_ge s (tc_minimum_appearance_similarity config)) in
  if negb geometric_gate && negb appearance_gate then None else
  if is_some_and appearance (λ s, f_lt s (tc_minimum_appearance_similarity config)) then None else
  let proximity := f32_clamp f_zero f32_one
    (f32_sub f32_one (f32_div distance (tc_maximum_normalized_center_distance config))) in
  let appearance_score := match appearance with
    | None => f32_half
    | Some s => f32_mul (f32_add s f32_one) f32_half
    end in
  let geometry_weight := f32_sub f32_one (tc_appearance_weight config) in
  let score := f32_add
    (f32_mul geometry_weight
       (f32_add (f32_mul (f32_lit 6 10) iou) (f32_mul (f32_lit 4 10) proximity)))
    (f32_mul (tc_appearance_weight config) appearance_score) in
  Some (if is_selected a (ts_track_id t)
        then f32_add score (tc_selected_actor_match_bonus config) else score).

Record CandidatePair := { cd_track_id : Z; cd_detection_index : nat; cd_score : f32 }.

Definition candidate_pairs (a : ActorTrackerV1) (frame : FrameActorsV1) : list CandidatePair :=
  let eligible := eligible_detections (at_config a) (fr_detections frame) in
  (btree_iter (at_tracks a)).*2 ≫= λ t,
    omap (λ '(index, detection),
      if negb (bool_decide (index ∈ eligible)) then None else
      score ← association_score a t detection (fr_frame_index frame);
      Some {| cd_track_id := ts_track_id t; cd_detection_index := index; cd_score := score |})
    (enumerate (fr_detections frame)).

Definition candidate_cmp (left right : CandidatePair) : comparison :=
  then_with (f_total_cmp nan_negative (cd_score right) (cd_score left))
    (then_with (Z.compare (cd_track_id left) (cd_track_id right))
       (Nat.compare (cd_detection_index left) (cd_detection_index right))).

(** The greedy loop over the sorted candidates. *)
Fixpoint assign_candidates (candidates : list CandidatePair) (assigned_tracks : gset Z)
    (assigned_detections : gset nat) (assignments : list (Z * nat))
    : gset Z * gset nat * list (Z * nat) :=
  match candidates with
  | [] => (assigned_tracks, assigned_detections, assignments)
  | c :: candidates =>
      if negb (bool_decide (cd_track_id c ∈ assigned_tracks))
         && negb (bool_decide (cd_detection_index c ∈ assigned_detections))
      then assign_candidates candidates ({[cd_track_id c]} ∪ assigned_tracks)
             ({[cd_detection_index c]} ∪ assigned_detections)
             (assignments ++ [(cd_track_id c, cd_detection_index c)])
      else assign_candidates candidates assigned_tracks assigned_detections assignments
  end.

Definition associate (a : ActorTrackerV1) (frame : FrameActorsV1)
    : gset Z * gset nat * list (Z * nat) :=
  let '(assigned_tracks, assigned_detections, assignments) :=
    assign_candidates (sort_by candidate_cmp (candidate_pairs a frame)) ∅ ∅ [] in
  (assigned_tracks, assigned_detections,
   sort_by (λ l r, Nat.compare l.2 r.2) assignments).
End association.

(** ** The update *)

Definition next_epoch (epoch : Z) : result TrackerError Z :=
  if epoch =? u64_max then Err TrackEpochExhausted else Ok (epoch + 1).

Definition encounter_id `{TrackerApi} (namespace : str) (track_id first_seen_frame : Z) : str :=
  let bytes := sha256 (utf8_encode (lit "interactive-npcs/background-encounter/v1") ++ [0]
    ++ utf8_encode namespace ++ [0] ++ le_bytes 8 track_id ++ le_bytes 8 first_seen_frame) in
  lit "enc_v1_" ++ hex_bytes (take 12 bytes).

(** The velocity of a track towards a detection, smoothed. *)
Definition set_velocity (config : TrackerConfigV1) (frame_index : Z) (detection : ActorDetectionV1)
    (t : TrackState) : TrackState :=
  let elapsed := f32_of_u64 (Z.max (sat_sub frame_index (ts_last_seen_frame t)) 1) in
  let measured_vx := f32_div (f32_sub (bx_x (dt_bounds detection)) (bx_x (ts_bounds t))) elapsed in
  let measured_vy := f32_div (f32_sub (bx_y (dt_bounds detection)) (bx_y (ts_bounds t))) elapsed in
  let smoothing := tc_velocity_smoothing config in
  {| ts_track_id := ts_track_id t; ts_track_epoch := ts_track_epoch t; ts_phase := ts_phase t;
     ts_bounds := ts_bounds t;
     ts_velocity_x_per_frame := f32_add (f32_mul smoothing measured_vx)
       (f32_mul (f32_sub f32_one smoothing) (ts_velocity_x_per_frame t));
     ts_velocity_y_per_frame := f32_add (f32_mul smoothing measured_vy)
       (f32_mul (f32_sub f32_one smoothing) (ts_velocity_y_per_frame t));
     ts_first_seen_frame := ts_first_seen_frame t; ts_last_seen_frame := ts_last_seen_frame t;
     ts_missed_frames := ts_missed_frames t; ts_encounter_id := ts_encounter_id t;
     ts_last_embedding := ts_last_embedding t |}.

(** The track is on the detection. *)
Definition set_seen (epoch frame_index : Z) (detection : ActorDetectionV1) (t : TrackState)
    : TrackState := {|
  ts_track_id := ts_track_id t; ts_track_epoch := epoch; ts_phase := Visible;
  ts_bounds := dt_bounds detection; ts_velocity_x_per_frame := ts_velocity_x_per_frame t;
  ts_velocity_y_per_frame := ts_velocity_y_per_frame t;
  ts_first_seen_frame := ts_first_seen_frame t; ts_last_seen_frame := frame_index;
  ts_missed_frames := 0; ts_encounter_id := ts_encounter_id t;
  ts_last_embedding := dt_embedding detection |}.

Definition set_missed (phase : TrackPhaseV1) (epoch missed : Z) (t : TrackState) : TrackState := {|
  ts_track_id := ts_track_id t; ts_track_epoch := epoch; ts_phase := phase;
  ts_bounds := ts_bounds t; ts_velocity_x_per_frame := ts_velocity_x_per_frame t;
  ts_velocity_y_per_frame := ts_velocity_y_per_frame t;
  ts_first_seen_frame := ts_first_seen_frame t; ts_last_seen_frame := ts_last_seen_frame t;
  ts_missed_frames := missed; ts_encounter_id := ts_encounter_id t;
  ts_last_embedding := ts_last_embedding t |}.

Definition put_track (track_id : Z) (t : TrackState) (a : ActorTrackerV1) : ActorTrackerV1 :=
  set_tracks (<[track_id := t]> (at_tracks a)) a.

(** One assignment: the track is updated from its detection. *)
Definition assign_track (frame : FrameActorsV1) (track_id : Z) (detection_index : nat)
    (a : ActorTrackerV1)
    : option (ActorTrackerV1 * result TrackerError (TrackEventV1 * TrackedDetectionV1)) :=
  detection ← fr_detections frame !! detection_index;
  match at_tracks a !! track_id with
  | None => Some (a, Err InternalAssociationInvariant)
  | Some t =>
      let t := set_velocity (at_config a) (fr_frame_index frame) detection t in
      let reacquired := bool_decide (ts_phase t = Offscreen) in
      match (if reacquired then next_epoch (ts_track_epoch t) else Ok (ts_track_epoch t)) with
      | Err error => Some (put_track track_id t a, Err error)
      | Ok epoch =>
          let t := set_seen epoch (fr_frame_index frame) detection t in
          Some (put_track track_id t a, Ok
            (if reacquired then TrackReacquired track_id epoch else TrackUpdated track_id epoch,
             {| td_detection_index := detection_index; td_track_id := track_id;
                td_track_epoch := epoch; td_embedding := dt_embedding detection |}))
      end
  end.

Fixpoint assign_loop (frame : FrameActorsV1) (assignments : list (Z * nat)) (a : ActorTrackerV1)
    (events : list TrackEventV1) (observations : list TrackedDetectionV1)
    : option (ActorTrackerV1 * result TrackerError (list TrackEventV1 * list TrackedDetectionV1)) :=
  match assignments with
  | [] => Some (a, Ok (events, observations))
  | (track_id, detection_index) :: assignments =>
      r ← assign_track frame track_id detection_index a;
      match r with
      | (a, Err error) => Some (a, Err error)
      | (a, Ok (event, observation)) =>
          assign_loop frame assignments a (events ++ [event]) (observations ++ [observation])
      end
  end.

(** A track without a detection in this frame. *)
Definition grace (track_id : Z) (a : ActorTrackerV1) : Z :=
  if is_selected a track_id then tc_selected_actor_maximum_missed_frames (at_config a)
  else tc_maximum_missed_frames (at_config a).

Definition miss_track (frame : FrameActorsV1) (track_id : Z) (a : ActorTrackerV1)
    : ActorTrackerV1 * result TrackerError (list TrackEventV1 * bool) :=
  match at_tracks a !! track_id with
  | None => (a, Err InternalAssociationInvariant)
  | Some t =>
      let missed := sat_sub (fr_frame_index frame) (ts_last_seen_frame t) in
      let retire := grace track_id a <? missed in
      match ts_phase t with
      | Visible =>
          match next_epoch (ts_track_epoch t) with
          | Err error => (put_track track_id (set_missed Offscreen (ts_track_epoch t) missed t) a, Err error)
          | Ok epoch => (put_track track_id (set_missed Offscreen epoch missed t) a,
                         Ok ([TrackLost track_id epoch], retire))
          end
      | Offscreen => (put_track track_id (set_missed Offscreen (ts_track_epoch t) missed t) a,
                      Ok ([], retire))
      end
  end.

Fixpoint miss_loop (frame : FrameActorsV1) (assigned_tracks : gset Z) (track_ids : list Z)
    (a : ActorTrackerV1) (events : list TrackEventV1) (retire : list Z)
    : ActorTrackerV1 * result TrackerError (list TrackEventV1 * list Z) :=
  match track_ids with
  | [] => (a, Ok (events, retire))
  | track_id :: track_ids =>
      if bool_decide (track_id ∈ assigned_tracks)
      then miss_loop frame assigned_tracks track_ids a events retire else
      match miss_track frame track_id a with
      | (a, Err error) => (a, Err error)
      | (a, Ok (new, due)) =>
          miss_loop frame assigned_tracks track_ids a (events ++ new)
            (if due then retire ++ [track_id] else retire)
      end
  end.

(** A detection without a track. *)
Definition create_track `{TrackerApi} (frame : FrameActorsV1) (detection_index : nat)
    (detection : ActorDetectionV1) (a : ActorTrackerV1)
    : ActorTrackerV1 * result TrackerError (TrackEventV1 * TrackedDetectionV1) :=
  let track_id := at_next_track_id a in
  if track_id =? u64_max then (a, Err TrackIdExhausted) else
  let a := set_next_track_id (track_id + 1) a in
  let t := {|
    ts_track_id := track_id; ts_track_epoch := 1; ts_phase := Visible;
    ts_bounds := dt_bounds detection; ts_velocity_x_per_frame := f_zero;
    ts_velocity_y_per_frame := f_zero; ts_first_seen_frame := fr_frame_index frame;
    ts_last_seen_frame := fr_frame_index frame; ts_missed_frames := 0;
    ts_encounter_id :=
      encounter_id (tc_encounter_namespace (at_config a)) track_id (fr_frame_index frame);
    ts_last_embedding := dt_embedding detection |} in
  (put_track track_id t a, Ok (TrackCreated track_id 1,
     {| td_detection_index := detection_index; td_track_id := track_id; td_track_epoch := 1;
        td_embedding := dt_embedding detection |})).

Fixpoint create_loop `{TrackerApi} (frame : FrameActorsV1) (assigned_detections eligible : gset nat)
    (detections : list (nat * ActorDetectionV1)) (a : ActorTrackerV1)
    (events : list TrackEventV1) (observations : list TrackedDetectionV1)
    : ActorTrackerV1 * result TrackerError (list TrackEventV1 * list TrackedDetectionV1) :=
  match detections with
  | [] => (a, Ok (events, observations))
  | (detection_index, detection) :: detections =>
      if bool_decide (detection_index ∈ assigned_detections)
         || negb (bool_decide (detection_index ∈ eligible))
      then create_loop frame assigned_detections eligible detections a events observations else
      match create_track frame detection_index detection a with
      | (a, Err error) => (a, Err error)
      | (a, Ok (event, observation)) =>
          create_loop frame assigned_detections eligible detections a
            (events ++ [event]) (observations ++ [observation])
      end
  end.

Fixpoint retire_loop (retire : list Z) (a : ActorTrackerV1) (events : list TrackEventV1)
    : ActorTrackerV1 * list TrackEventV1 :=
  match retire with
  | [] => (a, events)
  | track_id :: retire =>
      match at_tracks a !! track_id with
      | None => retire_loop retire a events
      | Some t =>
          let a := set_tracks (delete track_id (at_tracks a)) a in
          let events := events ++ [TrackRetired track_id (ts_track_epoch t) (ts_encounter_id t)] in
          if is_selected a track_id
          then retire_loop retire (set_selected None a) (events ++ [SelectionCleared track_id])
          else retire_loop retire a events
      end
  end.

Definition tracker_update `{TrackerApi} (frame : FrameActorsV1) (a : ActorTrackerV1)
    : option (ActorTrackerV1 * result TrackerError TrackerUpdateV1) :=
  match validate_frame frame a with
  | Err error => Some (a, Err error)
  | Ok _ =>
  let eligible := eligible_detections (at_config a) (fr_detections frame) in
  let '(assigned_tracks, assigned_detections, assignments) := associate a frame in
  assigned ← assign_loop frame assignments a [] [];
  match assigned with
  | (a, Err error) => Some (a, Err error)
  | (a, Ok (events, observations)) =>
  match miss_loop frame assigned_tracks (btree_keys (at_tracks a)) a events [] with
  | (a, Err error) => Some (a, Err error)
  | (a, Ok (events, retire)) =>
  match create_loop frame assigned_detections eligible (enumerate (fr_detections frame)) a
          events observations with
  | (a, Err error) => Some (a, Err error)
  | (a, Ok (events, observations)) =>
  let '(a, events) := retire_loop retire a events in
  let a := set_last_frame frame a in
  Some (a, Ok {|
    tu_frame_index := fr_frame_index frame; tu_tracks := tracker_snapshot a;
    tu_observations :=
      sort_by (λ l r, Nat.compare (td_detection_index l) (td_detection_index r)) observations;
    tu_events := events; tu_selected_track_id := at_selected_track_id a |})
  end end end end.
