(* ===== verification/TrackerFacts.v ===== *)
(** * The actor tracker: association and the loops of an update

    The greedy association is one to one and stable, and each of the four loops of an
    update is described by the tracks it leaves. *)

From S2P Require Import Prelude Text Bytes Float Identity Tracker.

#[local] Open Scope Z_scope.

(** ** Lists of numbered elements *)

Lemma enumerate_elem {A} (l : list A) i x : (i, x) ∈ enumerate l ↔ l !! i = Some x.
Proof.
  unfold enumerate. rewrite elem_of_lookup_imap. split.
  - by intros (?&?&[= <- <-]&?).
  - intros Hl. by exists i, x.
Qed.

Lemma enumerate_fst {A} (l : list A) : (enumerate l).*1 = seq 0 (length l).
Proof.
  unfold enumerate. rewrite fmap_imap, <-(list_fmap_id (seq 0 _)), <-imap_seq_0. by apply imap_ext.
Qed.

Lemma eligible_elem config detections i :
  i ∈ eligible_detections config detections ↔
  ∃ d, detections !! i = Some d ∧
       f_ge (dt_confidence d) (tc_minimum_detection_confidence config) = true.
Proof.
  unfold eligible_detections. rewrite elem_of_list_to_set, list_elem_of_omap. split.
  - intros ([j d]&Hd%enumerate_elem&Hi). destruct (f_ge _ _) eqn:E; [|done].
    injection Hi as ->. by exists d.
  - intros (d&Hd&E). exists (i, d). rewrite enumerate_elem. cbn. by rewrite E.
Qed.

Lemma cmp_preorder_nat : cmp_preorder Nat.compare.
Proof.
  split; [intros; apply Nat.compare_antisym|].
  intros x y z. unfold cmp_le. rewrite !Nat.compare_gt_iff. lia.
Qed.

Lemma sorted_filter_seq (P : nat → Prop) `{∀ i, Decision (P i)} n :
  ∀ i, StronglySorted (≤)%nat (filter P (seq i n)).
Proof.
  induction n as [|n IH]; intros i; [constructor|]. cbn [seq]. rewrite filter_cons.
  case_decide; [|done]. constructor; [done|]. apply Forall_forall.
  intros j [_ Hj%elem_of_seq]%list_elem_of_filter. lia.
Qed.

Section association.
Context `{TrackerApi}.
Implicit Types (c : CandidatePair) (a : ActorTrackerV1).

Definition cd_pair c : Z * nat := (cd_track_id c, cd_detection_index c).

Lemma candidate_cmp_preorder : cmp_preorder candidate_cmp.
Proof using.
  unfold candidate_cmp. apply cmp_preorder_then; [|apply cmp_preorder_then].
  - apply (cmp_preorder_flip (λ x y, f_total_cmp nan_negative (cd_score x) (cd_score y))).
    apply (cmp_preorder_map (λ x, f_total_key nan_negative (cd_score x)) ocmp), cmp_preorder_ocmp.
  - apply (cmp_preorder_map cd_track_id), cmp_preorder_Z.
  - apply (cmp_preorder_map cd_detection_index), cmp_preorder_nat.
Qed.

(** ** The greedy assignment *)

(** The pairs taken so far, as the loop keeps them. *)
Definition books (ts : gset Z) (ds : gset nat) (assignments : list (Z * nat)) : Prop :=
  ts = list_to_set assignments.*1 ∧ ds = list_to_set assignments.*2 ∧
  NoDup assignments.*1 ∧ NoDup assignments.*2.

Lemma books_snoc ts ds assignments c :
  books ts ds assignments → cd_track_id c ∉ ts → cd_detection_index c ∉ ds →
  books ({[cd_track_id c]} ∪ ts) ({[cd_detection_index c]} ∪ ds) (assignments ++ [cd_pair c]).
Proof using.
  intros (->&->&Hnt&Hnd) Ht Hd.
  rewrite elem_of_list_to_set in Ht. rewrite elem_of_list_to_set in Hd.
  unfold books. rewrite !fmap_app, !list_to_set_app_L, !NoDup_app. cbn.
  split; [set_solver|]. split; [set_solver|].
  by repeat split; try apply NoDup_singleton; try done; intros x Hx ->%list_elem_of_singleton.
Qed.

(** Every candidate is blocked by, or is, a pair that was taken and does not rank after
    it. *)
Definition blocked (old taken : list (Z * nat)) (candidates : list CandidatePair) c : Prop :=
  ∃ p, p ∈ taken ∧ (p.1 = cd_track_id c ∨ p.2 = cd_detection_index c) ∧
       (p ∈ old ∨ ∃ c', c' ∈ candidates ∧ cd_pair c' = p ∧ cmp_le candidate_cmp c' c).

Lemma assign_candidates_spec candidates : ∀ ts ds old ts' ds' taken,
  StronglySorted (cmp_le candidate_cmp) candidates →
  books ts ds old →
  assign_candidates candidates ts ds old = (ts', ds', taken) →
  books ts' ds' taken ∧ (∀ p, p ∈ old → p ∈ taken) ∧
  (∀ p, p ∈ taken → p ∈ old ∨ ∃ c, c ∈ candidates ∧ cd_pair c = p) ∧
  (∀ c, c ∈ candidates → blocked old taken candidates c).
Proof using.
  induction candidates as [|c candidates IH]; intros ts ds old ts' ds' taken Hs Hb; cbn.
  { intros [= <- <- <-]. split; [done|]. split; [done|]. split; [by left|]. by intros ??%not_elem_of_nil. }
  apply StronglySorted_inv in Hs as [Hs Hc]. rewrite Forall_forall in Hc.
  destruct (negb _ && negb _) eqn:E; intros Ha.
  - apply andb_true_iff in E as [Ht Hd]. apply negb_true_iff, bool_decide_eq_false in Ht, Hd.
    apply (IH _ _ _ _ _ _ Hs (books_snoc _ _ _ _ Hb Ht Hd)) in Ha as (Hb'&Hsub&Hfrom&Hbl).
    split; [done|]. split; [by intros p Hp; apply Hsub, elem_of_app; left|]. split.
    + intros p [[Hp|Hp%list_elem_of_singleton]%elem_of_app|(c'&?&?)]%Hfrom; [by left| |];
        right; [exists c; by split; [left|]|exists c'; by split; [right|]].
    + intros c' [->|Hc']%elem_of_cons.
      * exists (cd_pair c). split; [by apply Hsub, elem_of_app; right; left|].
        split; [by left|]. right. exists c. split; [by left|]. split; [done|]. unfold cmp_le.
        destruct candidate_cmp_preorder as [Hopp _]. specialize (Hopp c c).
        by destruct (candidate_cmp c c).
      * destruct (Hbl _ Hc') as (p&?&?&[[?|Hp%list_elem_of_singleton]%elem_of_app|(c''&?&?&?)]);
          exists p; (split; [done|]); (split; [done|]); [by left|right..].
        -- exists c. split; [by left|]. split; [done|]. by apply Hc.
        -- exists c''. split; [by right|done].
  - apply (IH _ _ _ _ _ _ Hs Hb) in Ha as (Hb'&Hsub&Hfrom&Hbl).
    split; [done|]. split; [done|]. split.
    + intros p [?|(c'&?&?)]%Hfrom; [by left|]. right. exists c'. by split; [right|].
    + intros c' [->|Hc']%elem_of_cons.
      * assert (∃ p, p ∈ old ∧ (p.1 = cd_track_id c ∨ p.2 = cd_detection_index c)) as (p&Hp&Hor).
        { destruct Hb as (->&->&_&_). rewrite !bool_decide_decide in E.
          destruct (decide (cd_track_id c ∈ _)) as [Hin|_]; [|destruct (decide _) as [Hin|]; [|done]];
            rewrite elem_of_list_to_set, list_elem_of_fmap in Hin; destruct Hin as (p&->&?);
            exists p; auto. }
        exists p. split; [by apply Hsub|]. split; [done|by left].
      * destruct (Hbl _ Hc') as (p&?&?&[?|(c''&?&?&?)]); exists p; (split; [done|]);
          (split; [done|]); [by left|]. right. exists c''. by split; [right|].
Qed.

(** ** The invariant of a tracker *)

(** What is true of a followed actor after a frame was processed. *)
Definition track_ok a (k : Z) (t : TrackState) : Prop :=
  ts_track_id t = k ∧ 1 ≤ k < at_next_track_id a ∧
  ∃ last_, at_last_frame_index a = Some last_ ∧
    0 ≤ ts_first_seen_frame t ≤ ts_last_seen_frame t ∧
    1 ≤ ts_track_epoch t ≤ last_ - ts_first_seen_frame t + 1 ∧
    Z.odd (ts_track_epoch t) = bool_decide (ts_phase t = Visible) ∧
    match ts_phase t with
    | Visible => ts_last_seen_frame t = last_ ∧ ts_missed_frames t = 0
    | Offscreen => ts_last_seen_frame t < last_ ∧ ts_missed_frames t = last_ - ts_last_seen_frame t ∧
        ts_missed_frames t ≤ tc_selected_actor_maximum_missed_frames (at_config a)
    end.

Record tracker_inv a : Prop := {
  ti_config : tracker_config_validate (at_config a) = Ok tt;
  ti_next : 1 ≤ at_next_track_id a ≤ u64_max;
  ti_tracks : map_Forall (track_ok a) (at_tracks a);
  ti_selected : ∀ k, at_selected_track_id a = Some k → is_Some (at_tracks a !! k)
}.

Lemma actor_tracker_new_inv config a : actor_tracker_new config = Ok a → tracker_inv a.
Proof using.
  unfold actor_tracker_new. intros [Hc [= <-]]%bind_unit_Ok. split; cbn; [done| |done|done].
  unfold u64_max; lia.
Qed.

Lemma select_inv k a a' : tracker_inv a → select_actor k a = Ok a' → tracker_inv a'.
Proof using.
  intros [???] Hs. unfold select_actor in Hs.
  destruct (at_tracks a !! k) eqn:E; [|done]. injection Hs as <-. split; cbn; try done.
  intros k' [= <-]. by rewrite E.
Qed.

Lemma clear_selection_inv a : tracker_inv a → tracker_inv (clear_selection a).
Proof using. by intros []. Qed.

(** ** Which pairs compete *)

Definition scored a (frame : FrameActorsV1) (track_id : Z) (index : nat) (score : f32) : Prop :=
  ∃ t detection, at_tracks a !! track_id = Some t ∧
    fr_detections frame !! index = Some detection ∧
    f_ge (dt_confidence detection) (tc_minimum_detection_confidence (at_config a)) = true ∧
    association_score a t detection (fr_frame_index frame) = Some score.

Lemma candidate_pairs_elem a frame c :
  map_Forall (track_ok a) (at_tracks a) →
  c ∈ candidate_pairs a frame ↔ scored a frame (cd_track_id c) (cd_detection_index c) (cd_score c).
Proof using.
  intros Hok. unfold candidate_pairs, scored. rewrite list_elem_of_bind. split.
  - intros (t&Hc&([k t']&->&Ht%btree_iter_elem)%list_elem_of_fmap). cbn in *.
    apply list_elem_of_omap in Hc as ([i d]&Hd%enumerate_elem&Hc).
    destruct (bool_decide_reflect (i ∈ eligible_detections (at_config a) (fr_detections frame)))
      as [(d'&Hd'&Hge)%eligible_elem|]; [|done]. cbn in Hc.
    destruct (association_score _ _ _ _) as [score|] eqn:Es; [|done]. injection Hc as <-. cbn.
    destruct (Hok _ _ Ht) as (->&_). assert (d' = d) as -> by congruence. by exists t', d.
  - intros (t&d&Ht&Hd&Hge&Hs). exists t. split.
    + apply list_elem_of_omap. exists (cd_detection_index c, d). split; [by apply enumerate_elem|].
      rewrite bool_decide_eq_true_2 by (apply eligible_elem; by exists d). cbn. rewrite Hs. cbn.
      destruct (Hok _ _ Ht) as (->&_). by destruct c.
    + apply list_elem_of_fmap. exists (cd_track_id c, t). split; [done|]. by apply btree_iter_elem.
Qed.

(** The pairs of [associate], sorted by detection. *)
Lemma associate_spec a frame ts ds assignments :
  map_Forall (track_ok a) (at_tracks a) →
  associate a frame = (ts, ds, assignments) →
  books ts ds assignments ∧
  (∀ p, p ∈ assignments → ∃ score, scored a frame p.1 p.2 score) ∧
  (∀ k i score, scored a frame k i score → ∃ k' i' score',
     (k', i') ∈ assignments ∧ scored a frame k' i' score' ∧ (k' = k ∨ i' = i) ∧
     f_total_cmp nan_negative score' score ≠ Lt).
Proof using.
  intros Hok. unfold associate. destruct (assign_candidates _ _ _ _) as [[ts0 ds0] taken] eqn:Ea.
  intros [= <- <- <-].
  apply assign_candidates_spec in Ea as (Hb&_&Hfrom&Hbl);
    [|apply sort_by_strongly_sorted, candidate_cmp_preorder|by repeat split; try apply NoDup_nil_2].
  set (sorted := sort_by _ taken). assert (sorted ≡ₚ taken) as Hp by apply sort_by_perm.
  split; [|split].
  - destruct Hb as (->&->&Hnt&Hnd). unfold books. by rewrite !Hp.
  - intros p Hin. rewrite Hp in Hin. destruct (Hfrom _ Hin) as [Hn%not_elem_of_nil|(c&Hc&<-)]; [done|].
    rewrite sort_by_perm, candidate_pairs_elem in Hc by done. by exists (cd_score c).
  - intros k i score Hs.
    destruct (Hbl {| cd_track_id := k; cd_detection_index := i; cd_score := score |})
      as (p&Hin&Hor&[Hn%not_elem_of_nil|(c&Hc&<-&Hle)]); [|done|].
    { rewrite sort_by_perm. by apply candidate_pairs_elem. }
    rewrite sort_by_perm, candidate_pairs_elem in Hc by done.
    exists (cd_track_id c), (cd_detection_index c), (cd_score c). rewrite Hp.
    split; [done|]. split; [done|]. split; [done|]. intros Hlt. apply Hle.
    unfold candidate_cmp. cbn [cd_score]. unfold f_total_cmp in *.
    by rewrite (ocmp_opp (f_total_key _ (cd_score c))), Hlt.
Qed.

(** ** What the four loops of an update do *)

Definition seen_track (config : TrackerConfigV1) (frame : FrameActorsV1) (d : ActorDetectionV1)
    (t : TrackState) : TrackState :=
  set_seen (match ts_phase t with Offscreen => ts_track_epoch t + 1 | Visible => ts_track_epoch t end)
    (fr_frame_index frame) d (set_velocity config (fr_frame_index frame) d t).

Definition missed_track (frame : FrameActorsV1) (t : TrackState) : TrackState :=
  set_missed Offscreen
    (match ts_phase t with Visible => ts_track_epoch t + 1 | Offscreen => ts_track_epoch t end)
    (sat_sub (fr_frame_index frame) (ts_last_seen_frame t)) t.

Definition observation (i : nat) (k epoch : Z) (d : ActorDetectionV1) : TrackedDetectionV1 := {|
  td_detection_index := i; td_track_id := k; td_track_epoch := epoch;
  td_embedding := dt_embedding d |}.

(** The tracks an event says are gone. *)
Definition retired_id (e : TrackEventV1) : option Z :=
  match e with TrackRetired k _ _ => Some k | _ => None end.

Lemma next_epoch_ok e : e < u64_max → next_epoch e = Ok (e + 1).
Proof using. intros He. unfold next_epoch. by destruct (Z.eqb_spec e u64_max); [lia|]. Qed.

Lemma assign_track_ok a frame k i t d :
  at_tracks a !! k = Some t → fr_detections frame !! i = Some d → ts_track_epoch t < u64_max →
  ∃ event, retired_id event = None ∧
    let t' := seen_track (at_config a) frame d t in
    assign_track frame k i a =
      Some (put_track k t' a, Ok (event, observation i k (ts_track_epoch t') d)).
Proof using.
  intros Ht Hd He. unfold assign_track, seen_track, observation. rewrite Hd, Ht. cbn.
  destruct (ts_phase t) eqn:Hp; cbn.
  - by exists (TrackUpdated k (ts_track_epoch t)).
  - rewrite next_epoch_ok by done. by exists (TrackReacquired k (ts_track_epoch t + 1)).
Qed.

(** A pair can be carried out: the track and the detection exist, and the epoch has room. *)
Definition assignable a (frame : FrameActorsV1) (p : Z * nat) : Prop :=
  ∃ t d, at_tracks a !! p.1 = Some t ∧ fr_detections frame !! p.2 = Some d ∧ ts_track_epoch t < u64_max.

Definition assigned_to a (frame : FrameActorsV1) (m : gmap Z TrackState) (p : Z * nat)
    (o : TrackedDetectionV1) : Prop :=
  ∃ t d, at_tracks a !! p.1 = Some t ∧ fr_detections frame !! p.2 = Some d ∧
    let t' := seen_track (at_config a) frame d t in
    m !! p.1 = Some t' ∧ o = observation p.2 p.1 (ts_track_epoch t') d.

Lemma assign_loop_step frame k i pairs a a' events observations event o :
  assign_track frame k i a = Some (a', Ok (event, o)) →
  assign_loop frame ((k, i) :: pairs) a events observations =
  assign_loop frame pairs a' (events ++ [event]) (observations ++ [o]).
Proof using. intros Hs. cbn [assign_loop]. by rewrite Hs. Qed.

Lemma assign_loop_ok frame pairs : ∀ a events observations,
  NoDup pairs.*1 → Forall (assignable a frame) pairs →
  ∃ m new_events new_observations,
    assign_loop frame pairs a events observations =
      Some (set_tracks m a, Ok (events ++ new_events, observations ++ new_observations)) ∧
    (∀ k, k ∉ pairs.*1 → m !! k = at_tracks a !! k) ∧
    Forall2 (assigned_to a frame m) pairs new_observations ∧ omap retired_id new_events = [].
Proof using.
  induction pairs as [|[k i] pairs IH]; intros a events observations Hnd Hok.
  { exists (at_tracks a), [], []. rewrite !app_nil_r. by destruct a. }
  rewrite fmap_cons in *. apply NoDup_cons in Hnd as [Hk Hnd].
  apply Forall_cons in Hok as [(t&d&Ht&Hd&He) Hok].
  destruct (assign_track_ok a frame k i t d Ht Hd He) as (event&Hev&Hstep).
  rewrite (assign_loop_step _ _ _ _ _ _ _ _ _ _ Hstep). clear Hstep.
  set (t' := seen_track (at_config a) frame d t).
  assert (∀ p, p ∈ pairs → k ≠ p.1) as Hne.
  { intros p Hp Heq. apply Hk. apply list_elem_of_fmap. by exists p. }
  destruct (IH (put_track k t' a) (events ++ [event])
              (observations ++ [observation i k (ts_track_epoch t') d]))
    as (m&evs&obs&Hrun&Hother&Hall&Hret); [done| |].
  { rewrite Forall_forall in *. intros p Hp. destruct (Hok _ Hp) as (t1&d1&Ht1&?&?).
    exists t1, d1. split; [|done]. cbn. rewrite lookup_insert_ne; [done|by apply Hne]. }
  exists m, (event :: evs), (observation i k (ts_track_epoch t') d :: obs).
  rewrite Hrun, <-!app_assoc. split; [done|]. split.
  { intros k' [Hne' Hk']%not_elem_of_cons. rewrite Hother by done. apply lookup_insert_ne. by intros ->. }
  split; [|cbn; by rewrite Hev].
  constructor.
  - exists t, d. split; [done|]. split; [done|]. split; [|done].
    rewrite Hother by done. apply lookup_insert_eq.
  - clear -Hall Hne. induction Hall as [|p o pairs obs (t1&d1&Ht1&?&?) _ IH]; constructor.
    + exists t1, d1. cbn in Ht1. rewrite lookup_insert_ne in Ht1; [done|]. apply Hne. by left.
    + apply IH. intros q Hq. apply Hne. by right.
Qed.

(** The tracks due to be retired: not seen, and missed for longer than their grace. *)
Definition due a (frame : FrameActorsV1) (ts : gset Z) (k : Z) : Prop :=
  k ∉ ts ∧ ∃ t, at_tracks a !! k = Some t ∧
    grace k a < sat_sub (fr_frame_index frame) (ts_last_seen_frame t).

Lemma miss_track_ok a frame k t :
  at_tracks a !! k = Some t → ts_track_epoch t < u64_max →
  ∃ event, omap retired_id event = [] ∧
    miss_track frame k a = (put_track k (missed_track frame t) a,
      Ok (event, grace k a <? sat_sub (fr_frame_index frame) (ts_last_seen_frame t))).
Proof using.
  intros Ht He. unfold miss_track, missed_track. rewrite Ht.
  destruct (ts_phase t) eqn:Hp; [rewrite next_epoch_ok by done; by exists [TrackLost k (ts_track_epoch t + 1)]|by exists []].
Qed.

Lemma miss_loop_ok frame ts ks : ∀ a events retire,
  NoDup ks →
  (∀ k, k ∈ ks → k ∉ ts → ∃ t, at_tracks a !! k = Some t ∧ ts_track_epoch t < u64_max) →
  ∃ m new_events new_retire,
    miss_loop frame ts ks a events retire =
      (set_tracks m a, Ok (events ++ new_events, retire ++ new_retire)) ∧
    omap retired_id new_events = [] ∧ NoDup new_retire ∧
    (∀ k, k ∈ new_retire ↔ k ∈ ks ∧ due a frame ts k) ∧
    (∀ k, k ∈ ks → k ∉ ts → m !! k = missed_track frame <$> at_tracks a !! k) ∧
    (∀ k, k ∉ ks ∨ k ∈ ts → m !! k = at_tracks a !! k).
Proof using.
  induction ks as [|k ks IH]; intros a events retire Hnd Hok; cbn [miss_loop].
  { exists (at_tracks a), [], []. rewrite !app_nil_r. destruct a.
    split; [done|]. split; [done|]. split; [apply NoDup_nil_2|]. split; [|split; [|done]].
    - intros k. split; [by intros ?%not_elem_of_nil|by intros [?%not_elem_of_nil _]].
    - by intros k ?%not_elem_of_nil. }
  apply NoDup_cons in Hnd as [Hk Hnd]. destruct (bool_decide_reflect (k ∈ ts)) as [Hin|Hin].
  { destruct (IH a events retire) as (m&evs&new&->&?&?&Hdue&Hm&Hother); [done|set_solver|].
    exists m, evs, new. split; [done|]. split; [done|]. split; [done|]. split.
    { intros k'. rewrite Hdue, elem_of_cons. unfold due. naive_solver. }
    split; [set_solver|]. intros k' Hk'. apply Hother. set_solver. }
  destruct (Hok k) as (t&Ht&He); [by left|done|].
  destruct (miss_track_ok a frame k t Ht He) as (event&Hev&->). cbn [put_track].
  set (a1 := put_track k (missed_track frame t) a).
  assert (∀ k', k' ≠ k → at_tracks a1 !! k' = at_tracks a !! k') as Hne.
  { intros k' ?. by apply lookup_insert_ne. }
  set (due_k := grace k a <? _).
  destruct (IH a1 (events ++ event) (if due_k then retire ++ [k] else retire))
    as (m&evs&new&->&Hret&Hndn&Hdue&Hm&Hother); [done| |].
  { intros k' Hk' Hts. rewrite Hne by (by intros ->). apply Hok; [by right|done]. }
  exists m, (event ++ evs), (if due_k then k :: new else new).
  assert (∀ k', k' ≠ k → due a1 frame ts k' ↔ due a frame ts k') as Hdue_ne.
  { intros k' ?. unfold due. rewrite Hne by done. done. }
  assert (k ∉ new) as Hkn by (by intros [? _]%Hdue).
  assert (due a frame ts k ↔ due_k = true) as Hduek.
  { unfold due, due_k. rewrite Ht, Z.ltb_lt. naive_solver. }
  split; [destruct due_k; by rewrite <-!app_assoc|]. split; [by rewrite omap_app, Hev|].
  split; [destruct due_k; [by apply NoDup_cons|done]|]. split.
  { intros k'. rewrite elem_of_cons. destruct (decide (k' = k)) as [->|Hk'].
    - rewrite Hduek. destruct due_k; [set_solver|]. split; [done|naive_solver].
    - pose proof (Hdue k') as Hd. pose proof (Hdue_ne k' Hk') as Hd'. clear -Hd Hd' Hk'.
      destruct due_k; rewrite ?elem_of_cons; tauto. }
  split.
  - intros k' [->|Hk']%elem_of_cons Hts.
    + rewrite Hother by (by left). unfold a1. cbn. by rewrite lookup_insert_eq, Ht.
    + rewrite Hm by done. rewrite Hne; [done|]. by intros ->.
  - intros k' Hk'. assert (k' ≠ k) by (intros ->; set_solver).
    rewrite Hother by set_solver. by apply Hne.
Qed.

Definition new_track a (frame : FrameActorsV1) (k : Z) (d : ActorDetectionV1) : TrackState := {|
  ts_track_id := k; ts_track_epoch := 1; ts_phase := Visible; ts_bounds := dt_bounds d;
  ts_velocity_x_per_frame := f_zero; ts_velocity_y_per_frame := f_zero;
  ts_first_seen_frame := fr_frame_index frame; ts_last_seen_frame := fr_frame_index frame;
  ts_missed_frames := 0;
  ts_encounter_id := encounter_id (tc_encounter_namespace (at_config a)) k (fr_frame_index frame);
  ts_last_embedding := dt_embedding d |}.

Definition created_for a (frame : FrameActorsV1) (m : gmap Z TrackState)
    (detections : list (nat * ActorDetectionV1)) (o : TrackedDetectionV1) : Prop :=
  ∃ i d, (i, d) ∈ detections ∧ m !! td_track_id o = Some (new_track a frame (td_track_id o) d) ∧
    o = observation i (td_track_id o) 1 d.

Lemma create_loop_ok frame ds eligible detections : ∀ a events observations,
  at_next_track_id a + Z.of_nat (length detections) ≤ u64_max →
  ∃ m new_events obs,
    create_loop frame ds eligible detections a events observations =
      (set_tracks m (set_next_track_id (at_next_track_id a + Z.of_nat (length obs)) a),
       Ok (events ++ new_events, observations ++ obs)) ∧
    (length obs ≤ length detections)%nat ∧ omap retired_id new_events = [] ∧
    td_detection_index <$> obs = filter (λ i, i ∉ ds ∧ i ∈ eligible) detections.*1 ∧
    td_track_id <$> obs = seqZ (at_next_track_id a) (Z.of_nat (length obs)) ∧
    (∀ k, k ∉ (td_track_id <$> obs) → m !! k = at_tracks a !! k) ∧
    Forall (created_for a frame m detections) obs.
Proof using.
  induction detections as [|[i d] detections IH]; intros a events observations Hnext; cbn [create_loop].
  { exists (at_tracks a), [], []. rewrite !app_nil_r. cbn. rewrite Z.add_0_r. by destruct a. }
  cbn [length] in Hnext. rewrite fmap_cons, filter_cons. cbn [fst].
  destruct (bool_decide (i ∈ ds) || negb (bool_decide (i ∈ eligible))) eqn:E.
  { rewrite decide_False.
    2:{ intros [Hd He]. rewrite bool_decide_eq_false_2, bool_decide_eq_true_2 in E by done. done. }
    destruct (IH a events observations) as (m&evs&obs&->&?&?&?&?&?&Hall); [lia|].
    exists m, evs, obs. split; [done|]. split; [cbn; lia|]. do 4 (split; [done|]).
    eapply Forall_impl; [exact Hall|]. intros o (i'&d'&?&?). exists i', d'. by split; [right|]. }
  apply orb_false_iff in E as [Hd He]. apply bool_decide_eq_false in Hd.
  apply negb_false_iff, bool_decide_eq_true in He. rewrite decide_True by done.
  unfold create_track. destruct (Z.eqb_spec (at_next_track_id a) u64_max) as [|_]; [lia|].
  set (k := at_next_track_id a). set (a1 := put_track k _ _).
  change (at_tracks a1) with (<[k := new_track a frame k d]> (at_tracks a)).
  destruct (IH a1 (events ++ [TrackCreated k 1]) (observations ++ [observation i k 1 d]))
    as (m&evs&obs&Hrun&Hlen&Hret&Hidx&Hids&Hother&Hall); [cbn; lia|].
  change (at_next_track_id a1) with (k + 1) in *.
  assert (k ∉ td_track_id <$> obs) as Hk. { rewrite Hids, elem_of_seqZ. lia. }
  exists m, (TrackCreated k 1 :: evs), (observation i k 1 d :: obs).
  rewrite !fmap_cons. cbn [length]. rewrite Nat2Z.inj_succ.
  split; [|split; [lia|split; [done|split; [by rewrite Hidx|split]]]].
  - unfold observation in Hrun at 1. cbn -[create_loop] in Hrun |- *. rewrite Hrun, <-!app_assoc.
    by replace (k + 1 + Z.of_nat (length obs)) with (k + Z.succ (Z.of_nat (length obs))) by lia.
  - rewrite (seqZ_cons k) by lia. rewrite Hids. f_equal. f_equal; lia.
  - split.
    + intros k' [Hne Hk']%not_elem_of_cons. rewrite Hother by done.
      apply lookup_insert_ne. by intros ->.
    + constructor.
      * exists i, d. split; [by left|]. cbn. split; [|done]. rewrite Hother by done.
        apply lookup_insert_eq.
      * eapply Forall_impl; [exact Hall|]. intros o (i'&d'&?&?). exists i', d'. by split; [right|].
Qed.

Lemma retire_loop_ok retire : ∀ a events,
  NoDup retire → (∀ k, k ∈ retire → is_Some (at_tracks a !! k)) →
  ∃ m new_events,
    retire_loop retire a events =
      (set_selected (k ← at_selected_track_id a; if bool_decide (k ∈ retire) then None else Some k)
         (set_tracks m a), events ++ new_events) ∧
    omap retired_id new_events = retire ∧
    (∀ k, m !! k = if bool_decide (k ∈ retire) then None else at_tracks a !! k).
Proof using.
  induction retire as [|k retire IH]; intros a events Hnd Hok; cbn [retire_loop].
  { exists (at_tracks a), []. rewrite app_nil_r. split; [|done].
    destruct a as [??? [|]]; cbn; [|done]. by rewrite bool_decide_eq_false_2 by apply not_elem_of_nil. }
  apply NoDup_cons in Hnd as [Hk Hnd]. destruct (Hok k) as [t Ht]; [by left|]. rewrite Ht.
  set (a1 := set_tracks (delete k (at_tracks a)) a).
  assert (∀ k', k' ∈ retire → is_Some (at_tracks a1 !! k')) as Hok1.
  { intros k' Hk'. cbn. rewrite lookup_delete_ne by (by intros ->). apply Hok. by right. }
  assert (∀ m k', (if bool_decide (k' ∈ retire) then None else at_tracks a1 !! k') = m →
    (if bool_decide (k' ∈ k :: retire) then None else at_tracks a !! k') = m) as Hm.
  { intros m k' <-. destruct (decide (k' = k)) as [->|Hne].
    - rewrite bool_decide_eq_true_2 by by left. cbn. rewrite lookup_delete_eq. by case_bool_decide.
    - cbn. rewrite lookup_delete_ne by done. apply (f_equal (λ b : bool, if b then _ else _)).
      apply bool_decide_ext. set_solver. }
  destruct (is_selected a1 k) eqn:Es; unfold is_selected in Es; cbn in Es.
  - apply bool_decide_eq_true in Es.
    destruct (IH (set_selected None a1)
      ((events ++ [TrackRetired k (ts_track_epoch t) (ts_encounter_id t)]) ++ [SelectionCleared k]))
      as (m&evs&->&Hev&Hm'); [done..|].
    exists m, (TrackRetired k (ts_track_epoch t) (ts_encounter_id t) :: SelectionCleared k :: evs).
    rewrite <-!app_assoc, Es. cbn. rewrite bool_decide_eq_true_2 by by left.
    split; [done|]. split; [by rewrite Hev|]. intros k'. symmetry. apply Hm. by rewrite Hm'.
  - apply bool_decide_eq_false in Es.
    destruct (IH a1 (events ++ [TrackRetired k (ts_track_epoch t) (ts_encounter_id t)]))
      as (m&evs&->&Hev&Hm'); [done..|].
    exists m, (TrackRetired k (ts_track_epoch t) (ts_encounter_id t) :: evs).
    rewrite <-!app_assoc. split; [|split; [cbn; by rewrite Hev|]].
    + cbn. do 2 f_equal. destruct (at_selected_track_id a) as [s|]; [|done]. cbn.
      apply (f_equal (λ b : bool, if b then _ else _)), bool_decide_ext. set_solver.
    + intros k'. symmetry. apply Hm. by rewrite Hm'.
Qed.
End association.
