(* ===== verification/TrackerSpec.v ===== *)
(** * What the actor tracker promises

    An update uses every eligible detection exactly once, keeps the invariant of the
    tracker, and a track that was retired never comes back. *)

From S2P Require Import Prelude Text Bytes Float Identity Tracker TrackerFacts.

#[local] Open Scope Z_scope.

Section update.
Context `{TrackerApi}.
Implicit Types (a : ActorTrackerV1).

(** ** One update *)

Definition by_index (l r : TrackedDetectionV1) : comparison :=
  Nat.compare (td_detection_index l) (td_detection_index r).

Record update_exact a (frame : FrameActorsV1) a' (u : TrackerUpdateV1) : Prop := {
  ue_config : at_config a' = at_config a;
  ue_next : at_next_track_id a ≤ at_next_track_id a';
  ue_clock : at_last_frame_index a' = Some (fr_frame_index frame) ∧
    at_last_timestamp_ms a' = Some (fr_timestamp_ms frame);
  ue_indices : td_detection_index <$> tu_observations u =
    filter (λ i, i ∈ eligible_detections (at_config a) (fr_detections frame))
      (seq 0 (length (fr_detections frame)));
  ue_ids : NoDup (td_track_id <$> tu_observations u);
  ue_seen : ∀ o, o ∈ tu_observations u → ∃ d t,
    fr_detections frame !! td_detection_index o = Some d ∧
    td_embedding o = dt_embedding d ∧
    at_tracks a' !! td_track_id o = Some t ∧ td_track_epoch o = ts_track_epoch t ∧
    match at_tracks a !! td_track_id o with
    | Some t0 => t = seen_track (at_config a) frame d t0 ∧
        ∃ score, scored a frame (td_track_id o) (td_detection_index o) score
    | None => at_next_track_id a ≤ td_track_id o ∧ t = new_track a frame (td_track_id o) d
    end;
  ue_missed : ∀ k, k ∉ td_track_id <$> tu_observations u →
    at_tracks a' !! k = (t ← at_tracks a !! k;
      if grace k a <? sat_sub (fr_frame_index frame) (ts_last_seen_frame t) then None
      else Some (missed_track frame t));
  ue_retired : ∀ k, k ∈ omap retired_id (tu_events u) ↔
    is_Some (at_tracks a !! k) ∧ at_tracks a' !! k = None;
  ue_selected : at_selected_track_id a' =
    (k ← at_selected_track_id a; if is_some (at_tracks a' !! k) then Some k else None);
  ue_report : tu_frame_index u = fr_frame_index frame ∧ tu_tracks u = tracker_snapshot a' ∧
    tu_selected_track_id u = at_selected_track_id a';
  ue_stable : ∀ k i score, scored a frame k i score → ∃ o score',
    o ∈ tu_observations u ∧ (td_track_id o = k ∨ td_detection_index o = i) ∧
    scored a frame (td_track_id o) (td_detection_index o) score' ∧
    f_total_cmp nan_negative score' score ≠ Lt
}.

(** The frame index and the numbers of the new tracks have room in 64 bits. *)
Definition room a (frame : FrameActorsV1) : Prop :=
  0 ≤ fr_frame_index frame < u64_max ∧
  at_next_track_id a + Z.of_nat (length (fr_detections frame)) ≤ u64_max.

Lemma track_epoch_room a frame k t :
  tracker_inv a → validate_frame frame a = Ok tt → room a frame →
  at_tracks a !! k = Some t → ts_track_epoch t < u64_max.
Proof using.
  intros Hinv Hv [Hf _] (_&_&last_&Hl&Hfirst&He&_)%(ti_tracks _ Hinv).
  unfold validate_frame in Hv. rewrite Hl in Hv. cbn in Hv.
  apply bind_unit_Ok in Hv as [Hv _]. apply ensure_Ok, negb_true_iff, Z.leb_gt in Hv. lia.
Qed.

(** The tracks an update leaves, by the observation or the miss of each. *)
Record update_maps a frame (ts : gset Z) (ds : gset nat) (pairs : list (Z * nat))
    (obs1 obs2 : list TrackedDetectionV1) (retire : list Z) (m1 m : gmap Z TrackState) : Prop := {
  um_books : books ts ds pairs;
  um_scored : ∀ p, p ∈ pairs → ∃ score, scored a frame p.1 p.2 score;
  um_obs1 : Forall2 (assigned_to a frame m1) pairs obs1;
  um_idx2 : td_detection_index <$> obs2 =
    filter (λ i, i ∉ ds ∧ i ∈ eligible_detections (at_config a) (fr_detections frame))
      (seq 0 (length (fr_detections frame)));
  um_ids2 : td_track_id <$> obs2 = seqZ (at_next_track_id a) (Z.of_nat (length obs2));
  um_retire : ∀ k, k ∈ retire ↔ k ∉ ts ∧ ∃ t, at_tracks a !! k = Some t ∧
    grace k a < sat_sub (fr_frame_index frame) (ts_last_seen_frame t);
  um_assigned : ∀ k, k ∈ ts → m !! k = m1 !! k;
  um_missed : ∀ k, k ∉ ts → k ∉ td_track_id <$> obs2 →
    m !! k = if bool_decide (k ∈ retire) then None else missed_track frame <$> at_tracks a !! k;
  um_created : Forall (created_for a frame m (enumerate (fr_detections frame))) obs2
}.

Lemma update_runs a frame :
  tracker_inv a → validate_frame frame a = Ok tt → room a frame →
  ∃ ts ds pairs obs1 obs2 retire m1 m events,
    update_maps a frame ts ds pairs obs1 obs2 retire m1 m ∧ omap retired_id events = retire ∧
    (∀ k i score, scored a frame k i score → ∃ k' i' score',
       (k', i') ∈ pairs ∧ scored a frame k' i' score' ∧ (k' = k ∨ i' = i) ∧
       f_total_cmp nan_negative score' score ≠ Lt) ∧
    let selected := (k ← at_selected_track_id a; if bool_decide (k ∈ retire) then None else Some k) in
    let a' := {| at_config := at_config a;
      at_next_track_id := at_next_track_id a + Z.of_nat (length obs2); at_tracks := m;
      at_selected_track_id := selected; at_last_frame_index := Some (fr_frame_index frame);
      at_last_timestamp_ms := Some (fr_timestamp_ms frame) |} in
    at_next_track_id a' ≤ u64_max ∧
    tracker_update frame a = Some (a', Ok {|
      tu_frame_index := fr_frame_index frame; tu_tracks := tracker_snapshot a';
      tu_observations := sort_by by_index (obs1 ++ obs2); tu_events := events;
      tu_selected_track_id := selected |}).
Proof using.
  intros Hinv Hv Hroom. pose proof (ti_tracks _ Hinv) as Hok.
  destruct (associate a frame) as [[ts ds] pairs] eqn:Ea.
  destruct (associate_spec _ _ _ _ _ Hok Ea) as (Hbooks&Hscored&Hstable).
  destruct (assign_loop_ok frame pairs a [] []) as (m1&ev1&obs1&Hrun1&Hm1&Hobs1&Hev1).
  { by destruct Hbooks as (_&_&?&_). }
  { apply Forall_forall. intros p Hp. destruct (Hscored _ Hp) as (s&t&d&Ht&Hd&_).
    exists t, d. split; [done|]. split; [done|]. by eapply track_epoch_room. }
  assert (∀ k, k ∉ ts → m1 !! k = at_tracks a !! k) as Hother1.
  { destruct Hbooks as (->&_). intros k Hk. apply Hm1. by rewrite elem_of_list_to_set in Hk. }
  set (a1 := set_tracks m1 a).
  destruct (miss_loop_ok frame ts (btree_keys m1) a1 ev1 [])
    as (m2&ev2&retire&Hrun2&Hev2&Hnd&Hret&Hm2&Hother2); [apply btree_keys_NoDup| |].
  { intros k [t Ht]%btree_keys_elem Hk. exists t. split; [done|]. rewrite Hother1 in Ht by done.
    by eapply track_epoch_room. }
  set (a2 := set_tracks m2 a1).
  destruct (create_loop_ok frame ds (eligible_detections (at_config a) (fr_detections frame))
     (enumerate (fr_detections frame)) a2 (ev1 ++ ev2) obs1)
    as (m3&ev3&obs2&Hrun3&Hlen&Hev3&Hidx2&Hids2&Hother3&Hobs2).
  { unfold enumerate. rewrite length_imap. apply Hroom. }
  set (a3 := set_tracks m3 (set_next_track_id (at_next_track_id a2 + Z.of_nat (length obs2)) a2)).
  assert (∀ k, k ∈ retire ↔ k ∉ ts ∧ ∃ t, at_tracks a !! k = Some t ∧
    grace k a < sat_sub (fr_frame_index frame) (ts_last_seen_frame t)) as Hret'.
  { intros k. rewrite Hret, btree_keys_elem. unfold due. cbn [at_tracks a1 set_tracks].
    change (grace k a1) with (grace k a). split.
    - intros (_&Hk&t&Ht&?). rewrite Hother1 in Ht by done. by eauto.
    - intros (Hk&t&Ht&?). rewrite !Hother1 by done. rewrite Ht. by eauto. }
  assert (∀ k, is_Some (at_tracks a !! k) → k ∉ td_track_id <$> obs2) as Hold.
  { intros k [t Ht]. rewrite Hids2, elem_of_seqZ. destruct (Hok _ _ Ht) as (_&?&_).
    change (at_next_track_id a2) with (at_next_track_id a). lia. }
  destruct (retire_loop_ok retire a3 ((ev1 ++ ev2) ++ ev3)) as (m&ev4&Hrun4&Hev4&Hm); [done| |].
  { intros k (Hk&t&Ht&_)%Hret'. cbn. rewrite Hother3 by by apply Hold. cbn.
    rewrite Hm2; [|apply btree_keys_elem; by rewrite Hother1, Ht|done]. cbn.
    rewrite Hother1, Ht by done. by eexists. }
  exists ts, ds, pairs, obs1, obs2, retire, m1, m, (((ev1 ++ ev2) ++ ev3) ++ ev4).
  split; [|split; [|split; [done|split]]].
  - split; try done.
    + by rewrite <-enumerate_fst.
    + intros k Hk. rewrite Hm, bool_decide_eq_false_2 by (by intros [? _]%Hret'). cbn.
      rewrite Hother3; [cbn; apply Hother2; by right|].
      apply Hold. destruct Hbooks as (->&_). apply elem_of_list_to_set, list_elem_of_fmap in Hk
        as (p&->&Hp). destruct (Hscored _ Hp) as (?&t&_&->&_). by eexists.
    + intros k Hk Hk2. rewrite Hm. case_bool_decide; [done|]. cbn. rewrite Hother3 by done. cbn.
      destruct (at_tracks a !! k) as [t|] eqn:Ht.
      * rewrite Hm2; [|apply btree_keys_elem; by rewrite Hother1, Ht|done]. cbn. by rewrite Hother1, Ht.
      * rewrite Hother2; [cbn; by rewrite Hother1|]. left. rewrite btree_keys_elem, Hother1, Ht by done.
        by intros [].
    + rewrite Forall_forall in *. intros o Hin. destruct (Hobs2 _ Hin) as (i&d&?&Hmo&Ho).
      exists i, d. split; [done|]. split; [|done]. rewrite Hm, bool_decide_eq_false_2; [done|].
      intros (_&t&Ht&_)%Hret'. apply (Hold (td_track_id o)); [by eexists|].
      apply list_elem_of_fmap. by exists o.
  - by rewrite !omap_app, Hev1, Hev2, Hev3, Hev4.
  - cbn. destruct Hroom as [_ Hr]. unfold enumerate in Hlen. rewrite length_imap in Hlen. lia.
  - unfold tracker_update. rewrite Hv, Ea, Hrun1. cbn -[sort_by tracker_snapshot btree_keys].
    change (at_tracks (set_tracks m1 a)) with m1. fold a1. rewrite Hrun2. fold a2.
    rewrite Hrun3.
    change (retire_loop _ _ _) with (retire_loop retire a3 ((ev1 ++ ev2) ++ ev3)).
    by rewrite Hrun4.
Qed.

Section maps.
Context (a : ActorTrackerV1) (frame : FrameActorsV1) (ts : gset Z) (ds : gset nat)
  (pairs : list (Z * nat)) (obs1 obs2 : list TrackedDetectionV1) (retire : list Z)
  (m1 m : gmap Z TrackState).
Hypothesis Hinv : tracker_inv a.
Hypothesis Hum : update_maps a frame ts ds pairs obs1 obs2 retire m1 m.

Let obs := sort_by by_index (obs1 ++ obs2).

Lemma obs1_ids : td_track_id <$> obs1 = pairs.*1.
Proof using Hum.
  pose proof (um_obs1 _ _ _ _ _ _ _ _ _ _ Hum) as Hall. clear -Hall.
  induction Hall as [|p o ps os (t&d&_&_&_&->)]; [done|]. by rewrite !fmap_cons, IHHall.
Qed.

Lemma obs1_indices : td_detection_index <$> obs1 = pairs.*2.
Proof using Hum.
  pose proof (um_obs1 _ _ _ _ _ _ _ _ _ _ Hum) as Hall. clear -Hall.
  induction Hall as [|p o ps os (t&d&_&_&_&->)]; [done|]. by rewrite !fmap_cons, IHHall.
Qed.

Lemma obs_ids_elem k : k ∈ td_track_id <$> obs ↔ k ∈ ts ∨ k ∈ td_track_id <$> obs2.
Proof using Hum.
  unfold obs. rewrite sort_by_perm, fmap_app, elem_of_app, obs1_ids.
  destruct (um_books _ _ _ _ _ _ _ _ _ _ Hum) as (->&_). by rewrite elem_of_list_to_set.
Qed.

Lemma ts_tracked k : k ∈ ts → is_Some (at_tracks a !! k).
Proof using Hum.
  destruct Hum as [(->&_) Hs _ _ _ _ _ _ _]. clear Hum.
  intros (p&->&Hp)%elem_of_list_to_set%list_elem_of_fmap.
  destruct (Hs _ Hp) as (?&t&_&->&_). by eexists.
Qed.

Lemma tracked_old k : is_Some (at_tracks a !! k) → k ∉ td_track_id <$> obs2.
Proof using Hinv Hum.
  intros [t Ht]. rewrite (um_ids2 _ _ _ _ _ _ _ _ _ _ Hum), elem_of_seqZ.
  destruct (ti_tracks _ Hinv _ _ Ht) as (_&?&_). lia.
Qed.

Lemma obs_ids_NoDup : NoDup (td_track_id <$> obs).
Proof using Hinv Hum.
  unfold obs. rewrite sort_by_perm, fmap_app, obs1_ids. apply NoDup_app. split; [|split].
  - by destruct (um_books _ _ _ _ _ _ _ _ _ _ Hum) as (_&_&?&_).
  - intros k Hk. apply tracked_old, ts_tracked.
    destruct (um_books _ _ _ _ _ _ _ _ _ _ Hum) as (->&_). by apply elem_of_list_to_set.
  - rewrite (um_ids2 _ _ _ _ _ _ _ _ _ _ Hum). apply NoDup_seqZ.
Qed.

Lemma obs_indices :
  td_detection_index <$> obs =
  filter (λ i, i ∈ eligible_detections (at_config a) (fr_detections frame))
    (seq 0 (length (fr_detections frame))).
Proof using Hum.
  destruct Hum as [(_&Hds&_&Hnd) Hsc _ Hidx2 _ _ _ _ _].
  apply (StronglySorted_unique (≤)%nat).
  - apply (sorted_fmap _ (cmp_le by_index)).
    + intros x y. unfold cmp_le, by_index. rewrite Nat.compare_gt_iff. lia.
    + apply sort_by_strongly_sorted, (cmp_preorder_map td_detection_index), cmp_preorder_nat.
  - apply sorted_filter_seq.
  - apply NoDup_Permutation.
    + unfold obs. rewrite sort_by_perm, fmap_app, obs1_indices, Hidx2. apply NoDup_app.
      split; [done|]. split; [|apply NoDup_filter, NoDup_seq].
      intros i Hi [[Hn _] _]%list_elem_of_filter. apply Hn. rewrite Hds. by apply elem_of_list_to_set.
    + apply NoDup_filter, NoDup_seq.
    + intros i. unfold obs.
      rewrite sort_by_perm, fmap_app, elem_of_app, obs1_indices, Hidx2, !list_elem_of_filter.
      split; [intros [(p&->&Hp)%list_elem_of_fmap|]; [|tauto]|].
      * destruct (Hsc _ Hp) as (s&t&d&_&Hd&Hge&_). split; [apply eligible_elem; by exists d|].
        apply elem_of_seq. apply lookup_lt_Some in Hd. lia.
      * intros [He Hi]. destruct (decide (i ∈ ds)) as [Hin|]; [left|by right].
        rewrite Hds in Hin. by apply elem_of_list_to_set in Hin.
Qed.

(** What became of the track [k]: seen, created, or not observed. *)
Lemma lookup_seen p o : (p, o) ∈ zip pairs obs1 →
  ∃ t d score, at_tracks a !! p.1 = Some t ∧ fr_detections frame !! p.2 = Some d ∧
    m !! p.1 = Some (seen_track (at_config a) frame d t) ∧
    o = observation p.2 p.1 (ts_track_epoch (seen_track (at_config a) frame d t)) d ∧
    scored a frame p.1 p.2 score.
Proof using Hum.
  intros Hz. destruct Hum as [(Hts&_) Hsc Hobs1 _ _ _ Has _ _].
  assert (p ∈ pairs) as Hp by by eapply elem_of_zip_l.
  destruct (Hsc _ Hp) as [score Hscore].
  apply list_elem_of_lookup in Hz as [i (q&o'&[= -> ->]&Hq&Ho')%lookup_zip_with_Some].
  destruct (Forall2_lookup_lr _ _ _ _ _ _ Hobs1 Hq Ho') as (t&d&Ht&Hd&Hm&->).
  exists t, d, score. do 2 (split; [done|]). split; [|done].
  rewrite Has; [done|]. rewrite Hts. apply elem_of_list_to_set, list_elem_of_fmap. by exists q.
Qed.

Lemma obs_cases o : o ∈ obs →
  (∃ p, (p, o) ∈ zip pairs obs1) ∨ o ∈ obs2.
Proof using Hum.
  unfold obs. rewrite sort_by_perm. intros [Ho|]%elem_of_app; [left|by right].
  apply list_elem_of_lookup in Ho as [i Hi].
  destruct (Forall2_lookup_r _ _ _ _ _ (um_obs1 _ _ _ _ _ _ _ _ _ _ Hum) Hi) as (p&Hp&_).
  exists p. apply list_elem_of_lookup. exists i. apply lookup_zip_with_Some. by exists p, o.
Qed.

Lemma obs_seen o : o ∈ obs → ∃ d t,
  fr_detections frame !! td_detection_index o = Some d ∧
  td_embedding o = dt_embedding d ∧
  m !! td_track_id o = Some t ∧ td_track_epoch o = ts_track_epoch t ∧
  match at_tracks a !! td_track_id o with
  | Some t0 => t = seen_track (at_config a) frame d t0 ∧
      ∃ score, scored a frame (td_track_id o) (td_detection_index o) score
  | None => at_next_track_id a ≤ td_track_id o ∧ t = new_track a frame (td_track_id o) d
  end.
Proof using Hinv Hum.
  intros [[p Hz]|Ho]%obs_cases.
  - destruct (lookup_seen _ _ Hz) as (t&d&score&Ht&Hd&Hm&->&Hs). exists d, (seen_track (at_config a) frame d t).
    cbn [observation td_track_id td_detection_index td_embedding td_track_epoch]. rewrite Ht. by eauto 10.
  - pose proof (um_created _ _ _ _ _ _ _ _ _ _ Hum) as Hc. rewrite Forall_forall in Hc.
    destruct (Hc _ Ho) as (i&d&Hd%enumerate_elem&Hm&Heq).
    assert (td_track_id o ∈ td_track_id <$> obs2) as Hid by (apply list_elem_of_fmap; by exists o).
    exists d, (new_track a frame (td_track_id o) d). split; [by rewrite Heq|].
    split; [by rewrite Heq|]. split; [done|]. split; [by rewrite Heq|].
    destruct (at_tracks a !! td_track_id o) eqn:Et.
    + by destruct (tracked_old (td_track_id o)); [eexists|].
    + rewrite (um_ids2 _ _ _ _ _ _ _ _ _ _ Hum), elem_of_seqZ in Hid. split; [lia|done].
Qed.

Lemma lookup_unseen k : k ∉ td_track_id <$> obs →
  m !! k = (t ← at_tracks a !! k;
    if grace k a <? sat_sub (fr_frame_index frame) (ts_last_seen_frame t) then None
    else Some (missed_track frame t)).
Proof using Hum.
  rewrite obs_ids_elem. intros Hn.
  assert (k ∉ ts ∧ k ∉ td_track_id <$> obs2) as [Hts Hid] by (split; intros ?; apply Hn; auto).
  rewrite (um_missed _ _ _ _ _ _ _ _ _ _ Hum) by done.
  destruct (at_tracks a !! k) as [t|] eqn:Ht; cbn; [|by case_bool_decide].
  destruct (Z.ltb_spec (grace k a) (sat_sub (fr_frame_index frame) (ts_last_seen_frame t))).
  - rewrite bool_decide_eq_true_2; [done|]. apply (um_retire _ _ _ _ _ _ _ _ _ _ Hum). by eauto.
  - rewrite bool_decide_eq_false_2; [done|].
    intros (_&t'&Ht'&?)%(um_retire _ _ _ _ _ _ _ _ _ _ Hum). rewrite Ht in Ht'. injection Ht' as <-. lia.
Qed.

Lemma retired_iff k : k ∈ retire ↔ is_Some (at_tracks a !! k) ∧ m !! k = None.
Proof using Hinv Hum.
  rewrite (um_retire _ _ _ _ _ _ _ _ _ _ Hum). split.
  - intros (Hts&t&Ht&Hlt). split; [by eexists|].
    rewrite lookup_unseen; [rewrite Ht; cbn; by rewrite (proj2 (Z.ltb_lt _ _) Hlt)|].
    rewrite obs_ids_elem. intros [|Hid]; [done|]. by apply tracked_old in Hid; [|eexists].
  - intros [[t Ht] Hm]. destruct (decide (k ∈ td_track_id <$> obs)) as [Hin|Hn].
    { apply list_elem_of_fmap in Hin as (o&->&(d&t'&_&_&Hm'&_)%obs_seen). by rewrite Hm in Hm'. }
    split; [intros Hts; apply Hn, obs_ids_elem; by left|]. exists t. split; [done|].
    rewrite lookup_unseen, Ht in Hm by done. cbn in Hm.
    by destruct (Z.ltb_spec (grace k a) (sat_sub (fr_frame_index frame) (ts_last_seen_frame t))).
Qed.
End maps.

Lemma grace_bound a k :
  tracker_config_validate (at_config a) = Ok tt →
  grace k a ≤ tc_selected_actor_maximum_missed_frames (at_config a).
Proof using.
  unfold tracker_config_validate, grace. intros Hc.
  destruct (is_blank _ || _); [done|]. destruct (negb (forallb _ _)); [done|].
  destruct (_ || _) eqn:E; [done|]. apply orb_false_iff in E as [_ E%Z.ltb_ge].
  destruct (is_selected a k); lia.
Qed.

(** The frames of a tracker increase. *)
Lemma frame_later a frame last_ :
  validate_frame frame a = Ok tt → at_last_frame_index a = Some last_ → last_ < fr_frame_index frame.
Proof using.
  unfold validate_frame. intros [Hv _]%bind_unit_Ok Hl. rewrite Hl in Hv.
  by apply ensure_Ok, negb_true_iff, Z.leb_gt in Hv.
Qed.

Lemma track_ok_seen a frame a' k d t :
  validate_frame frame a = Ok tt → at_last_frame_index a' = Some (fr_frame_index frame) →
  at_next_track_id a ≤ at_next_track_id a' →
  track_ok a k t → track_ok a' k (seen_track (at_config a) frame d t).
Proof using.
  intros Hv Hlast Hnext (Hid&Hk&last_&Hl&Hfirst&He&Hodd&Hp).
  pose proof (frame_later _ _ _ Hv Hl).
  split; [done|]. split; [lia|]. exists (fr_frame_index frame). split; [done|].
  unfold seen_track. cbn. assert (ts_last_seen_frame t ≤ last_) by (destruct (ts_phase t); lia).
  split; [lia|]. split; [destruct (ts_phase t); lia|]. split; [|done].
  destruct (ts_phase t); [done|]. by rewrite Z.odd_add, Hodd.
Qed.

Lemma track_ok_missed a frame a' k t :
  tracker_config_validate (at_config a) = Ok tt → at_config a' = at_config a →
  validate_frame frame a = Ok tt → at_last_frame_index a' = Some (fr_frame_index frame) →
  at_next_track_id a ≤ at_next_track_id a' →
  sat_sub (fr_frame_index frame) (ts_last_seen_frame t) ≤ grace k a →
  track_ok a k t → track_ok a' k (missed_track frame t).
Proof using.
  intros Hc Hcfg Hv Hlast Hnext Hg (Hid&Hk&last_&Hl&Hfirst&He&Hodd&Hp).
  pose proof (frame_later _ _ _ Hv Hl). pose proof (grace_bound a k Hc).
  split; [done|]. split; [lia|]. exists (fr_frame_index frame). split; [done|].
  unfold missed_track. cbn. rewrite Hcfg. unfold sat_sub in *.
  assert (ts_last_seen_frame t ≤ last_) by (destruct (ts_phase t); lia).
  split; [done|]. split; [destruct (ts_phase t); lia|]. split; [|lia].
  destruct (ts_phase t); [|done]. by rewrite Z.odd_add, Hodd.
Qed.

Lemma track_ok_new a frame a' k d :
  at_last_frame_index a' = Some (fr_frame_index frame) → 0 ≤ fr_frame_index frame →
  1 ≤ k < at_next_track_id a' → track_ok a' k (new_track a frame k d).
Proof using.
  intros Hl Hf Hk. split; [done|]. split; [done|]. exists (fr_frame_index frame).
  split; [done|]. cbn. split; [lia|]. split; [lia|done].
Qed.

Lemma update_ok a frame :
  tracker_inv a → validate_frame frame a = Ok tt → room a frame →
  ∃ a' u, tracker_update frame a = Some (a', Ok u) ∧ update_exact a frame a' u ∧ tracker_inv a'.
Proof using.
  intros Hinv Hv Hroom.
  destruct (update_runs _ _ Hinv Hv Hroom)
    as (ts&ds&pairs&obs1&obs2&retire&m1&m&events&Hum&Hev&Hstable&Hnext&Hrun).
  set (a' := Build_ActorTrackerV1 _ _ _ _ _ _) in *.
  eexists a', _. split; [exact Hrun|].
  pose proof (retired_iff a frame ts ds pairs obs1 obs2 retire m1 m Hinv Hum) as Hret.
  pose proof (obs_seen a frame ts ds pairs obs1 obs2 retire m1 m Hinv Hum) as Hseen.
  pose proof (obs_ids_elem a frame ts ds pairs obs1 obs2 retire m1 m Hum) as Hids.
  pose proof (lookup_unseen a frame ts ds pairs obs1 obs2 retire m1 m Hum) as Hunseen.
  assert (at_selected_track_id a' =
    (k ← at_selected_track_id a; if is_some (m !! k) then Some k else None)) as Hsel.
  { cbn. destruct (at_selected_track_id a) as [k|] eqn:Ek; [|done]. cbn.
    pose proof (ti_selected _ Hinv k Ek) as Ht. case_bool_decide as Hin.
    - apply Hret in Hin as [_ ->]. done.
    - destruct (m !! k) eqn:Em; [done|]. destruct Hin. by apply Hret. }
  split.
  - split; try done.
    + cbn. lia.
    + exact (obs_indices a frame ts ds pairs obs1 obs2 retire m1 m Hum).
    + exact (obs_ids_NoDup a frame ts ds pairs obs1 obs2 retire m1 m Hinv Hum).
    + intros k. cbn. by rewrite Hev, Hret.
    + intros k i score (k'&i'&score'&Hp&Hs'&Hor&Hcmp)%Hstable.
      apply list_elem_of_lookup in Hp as [j Hj].
      destruct (Forall2_lookup_l _ _ _ _ _ (um_obs1 _ _ _ _ _ _ _ _ _ _ Hum) Hj)
        as (o&Ho&t&d&_&_&_&Heq).
      exists o, score'. cbn [tu_observations]. rewrite sort_by_perm. split; [|by rewrite Heq].
      apply elem_of_app. left. apply list_elem_of_lookup. by exists j.
  - split; [apply Hinv|pose proof (ti_next _ Hinv); cbn in Hnext |- *; lia| |].
    + intros k t Ht. cbn in Ht. destruct (decide (k ∈ td_track_id <$> sort_by by_index (obs1 ++ obs2)))
        as [Hin|Hn].
      * pose proof Hin as Hor%Hids. apply list_elem_of_fmap in Hin as (o&->&Ho).
        destruct (Hseen _ Ho) as (d&t'&_&_&Ht'&_&Hcase). rewrite Ht in Ht'. injection Ht' as <-.
        destruct (at_tracks a !! td_track_id o) as [t0|] eqn:Et.
        -- destruct Hcase as [-> _]. apply (track_ok_seen a frame a'); try done; [cbn; lia|].
           by apply (ti_tracks _ Hinv).
        -- destruct Hcase as [Hge ->]. apply track_ok_new; [done|apply Hroom|].
           destruct Hor as [Hts|Hid].
           ++ destruct (ts_tracked _ _ _ _ _ _ _ _ _ _ Hum _ Hts) as [? Hx]. by rewrite Et in Hx.
           ++ rewrite (um_ids2 _ _ _ _ _ _ _ _ _ _ Hum), elem_of_seqZ in Hid.
              pose proof (ti_next _ Hinv). cbn. lia.
      * rewrite Hunseen in Ht by done. destruct (at_tracks a !! k) as [t0|] eqn:Et; [|done].
        cbn in Ht. destruct (Z.ltb_spec (grace k a)
          (sat_sub (fr_frame_index frame) (ts_last_seen_frame t0))); [done|]. injection Ht as <-.
        apply (track_ok_missed a frame a'); try done; [apply Hinv|cbn; lia|].
        by apply (ti_tracks _ Hinv).
    + intros k. rewrite Hsel. destruct (at_selected_track_id a) as [k'|]; [|done]. cbn.
      destruct (m !! k') eqn:Em; [|done]. intros [= <-]. by rewrite Em.
Qed.

(** C19: One update of the actor tracker, while frame and track numbers have room in 64
    bits, never panics and never breaks its own association: a frame that is refused
    changes nothing, and otherwise every eligible detection is observed exactly once, in
    order, by distinct tracks; an observed track moves to its detection or is new under a
    number never used before; every other track is missed, and retired exactly when its
    grace is over; and the invariant of the tracker is kept. *)
Theorem tracker_update_exact a frame :
  tracker_inv a → room a frame →
  ∃ a' r, tracker_update frame a = Some (a', r) ∧ tracker_inv a' ∧
    match validate_frame frame a with
    | Err error => a' = a ∧ r = Err error
    | Ok _ => ∃ u, r = Ok u ∧ update_exact a frame a' u
    end.
Proof using.
  intros Hinv Hroom. destruct (validate_frame frame a) as [[]|error] eqn:Hv.
  - destruct (update_ok a frame Hinv Hv Hroom) as (a'&u&Hrun&Hex&Hinv'). eauto 10.
  - exists a, (Err error). unfold tracker_update. by rewrite Hv.
Qed.

(** ** Runs of the tracker *)

Inductive tracker_op :=
| OpSelect (track_id : Z)
| OpClear
| OpFrame (frame : FrameActorsV1).

(** One call: it may fail, and the tracker goes on as it stands. *)
Inductive tracker_step a : tracker_op → ActorTrackerV1 → Prop :=
| step_select k : tracker_step a (OpSelect k)
    (match select_actor k a with Ok a' => a' | Err _ => a end)
| step_clear : tracker_step a OpClear (clear_selection a)
| step_frame frame a' r : room a frame → tracker_update frame a = Some (a', r) →
    tracker_step a (OpFrame frame) a'.

Inductive tracker_run a : list tracker_op → ActorTrackerV1 → Prop :=
| run_nil : tracker_run a [] a
| run_snoc ops op a1 a2 : tracker_run a ops a1 → tracker_step a1 op a2 →
    tracker_run a (ops ++ [op]) a2.

(** What later trackers know of earlier ones: a number once given away is not given
    again, and a track that is still followed is the same appearance of one actor. *)
Record later a a' : Prop := {
  la_next : at_next_track_id a ≤ at_next_track_id a';
  la_gone : ∀ k, 1 ≤ k < at_next_track_id a → at_tracks a !! k = None → at_tracks a' !! k = None;
  la_same : ∀ k t t', at_tracks a !! k = Some t → at_tracks a' !! k = Some t' →
    ts_encounter_id t' = ts_encounter_id t ∧
    ts_first_seen_frame t' = ts_first_seen_frame t ∧
    ts_track_epoch t ≤ ts_track_epoch t'
}.

Lemma later_same_tracks a a' :
  at_tracks a' = at_tracks a → at_next_track_id a' = at_next_track_id a → later a a'.
Proof using.
  intros Ht Hn. split; [lia|by rewrite Ht|]. rewrite Ht. intros k t t' Hk Hk'.
  rewrite Hk in Hk'. injection Hk' as <-. done.
Qed.

Lemma later_trans a1 a2 a3 : tracker_inv a1 → later a1 a2 → later a2 a3 → later a1 a3.
Proof using.
  intros Hinv [Hn1 Hg1 Hs1] [Hn2 Hg2 Hs2]. split; [lia| |].
  - intros k Hk Hnone. apply Hg2; [lia|]. by apply Hg1.
  - intros k t t3 Hk Hk3. destruct (at_tracks a2 !! k) as [t2|] eqn:Hk2.
    + destruct (Hs1 _ _ _ Hk Hk2) as (?&?&?), (Hs2 _ _ _ Hk2 Hk3) as (?&?&?).
      split; [congruence|]. split; [congruence|lia].
    + rewrite Hg2 in Hk3; [done| |done]. destruct (ti_tracks _ Hinv _ _ Hk) as (_&?&_). lia.
Qed.

Lemma update_exact_later a frame a' u :
  tracker_inv a → update_exact a frame a' u → later a a'.
Proof using.
  intros Hinv Hex. split; [apply Hex| |].
  - intros k Hk Hnone. destruct (decide (k ∈ td_track_id <$> tu_observations u)) as [Hin|Hn].
    + apply list_elem_of_fmap in Hin as (o&->&Ho).
      destruct (ue_seen _ _ _ _ Hex _ Ho) as (d&t&_&_&_&_&Hcase). rewrite Hnone in Hcase. lia.
    + by rewrite (ue_missed _ _ _ _ Hex _ Hn), Hnone.
  - intros k t t' Hk Hk'. destruct (decide (k ∈ td_track_id <$> tu_observations u)) as [Hin|Hn].
    + apply list_elem_of_fmap in Hin as (o&->&Ho).
      destruct (ue_seen _ _ _ _ Hex _ Ho) as (d&t1&_&_&Ht1&_&Hcase). rewrite Hk in Hcase.
      rewrite Hk' in Ht1. injection Ht1 as <-. destruct Hcase as [-> _].
      split; [done|]. split; [done|]. unfold seen_track. cbn. destruct (ts_phase t); lia.
    + rewrite (ue_missed _ _ _ _ Hex _ Hn), Hk in Hk'. cbn in Hk'.
      destruct (_ <? _); [done|]. injection Hk' as <-.
      split; [done|]. split; [done|]. unfold missed_track. cbn. destruct (ts_phase t); lia.
Qed.

Lemma tracker_step_later a op a' : tracker_inv a → tracker_step a op a' → tracker_inv a' ∧ later a a'.
Proof using.
  intros Hinv [k| |frame a1 r Hroom Hrun].
  - destruct (select_actor k a) as [a1|] eqn:Hs; [|by split; [|apply later_same_tracks]].
    split; [by eapply select_inv|]. unfold select_actor in Hs.
    destruct (negb _); [done|]. injection Hs as <-. by apply later_same_tracks.
  - split; [by apply clear_selection_inv|by apply later_same_tracks].
  - destruct (validate_frame frame a) as [[]|error] eqn:Hv.
    + destruct (update_ok a frame Hinv Hv Hroom) as (a2&u&Hrun'&Hex&Hinv').
      rewrite Hrun in Hrun'. injection Hrun' as -> _. split; [done|]. by eapply update_exact_later.
    + unfold tracker_update in Hrun. rewrite Hv in Hrun. injection Hrun as -> _.
      by split; [|apply later_same_tracks].
Qed.

(** Over every run of a tracker, a track that is gone never comes back under its
    number, and a track that is still followed keeps its encounter and its first frame,
    its epoch only grows, and it tells by its parity whether the actor is on screen: so
    two observations under one track and one epoch are one uninterrupted appearance. *)
Theorem tracks_never_reused config a0 ops a1 ops' a2 :
  actor_tracker_new config = Ok a0 → tracker_run a0 ops a1 → tracker_run a1 ops' a2 →
  tracker_inv a2 ∧ later a1 a2 ∧
  ∀ k t t', at_tracks a1 !! k = Some t → at_tracks a2 !! k = Some t' →
    ts_track_epoch t = ts_track_epoch t' → ts_phase t = ts_phase t'.
Proof using.
  intros Hnew Hrun1 Hrun2.
  assert (tracker_inv a1) as Hinv1.
  { clear Hrun2. induction Hrun1 as [|ops op a1 a1' _ IH Hstep]; [by eapply actor_tracker_new_inv|].
    by destruct (tracker_step_later _ _ _ IH Hstep). }
  assert (tracker_inv a2 ∧ later a1 a2) as [Hinv2 Hlater].
  { clear Hrun1. induction Hrun2 as [|ops2 op b b' _ IH Hstep]; [by split; [|apply later_same_tracks]|].
    destruct IH as [Hinvb Hl]. destruct (tracker_step_later _ _ _ Hinvb Hstep).
    split; [done|]. by eapply later_trans. }
  split; [done|]. split; [done|]. intros k t t' Hk Hk' He.
  destruct (ti_tracks _ Hinv1 _ _ Hk) as (_&_&?&_&_&_&Hodd&_).
  destruct (ti_tracks _ Hinv2 _ _ Hk') as (_&_&?&_&_&_&Hodd'&_).
  rewrite He, Hodd' in Hodd. by destruct (ts_phase t), (ts_phase t').
Qed.

(** The association of a frame is stable: no track and no detection could both be
    better served. Every pair the gates admit is taken, or its track or its detection is
    in a pair that scores at least as high; every pair taken passed the gates. *)
Theorem association_stable a frame a' u :
  tracker_inv a → room a frame → tracker_update frame a = Some (a', Ok u) →
  (∀ k i score, scored a frame k i score → ∃ o score',
     o ∈ tu_observations u ∧ (td_track_id o = k ∨ td_detection_index o = i) ∧
     scored a frame (td_track_id o) (td_detection_index o) score' ∧
     f_total_cmp nan_negative score' score ≠ Lt) ∧
  (∀ o, o ∈ tu_observations u → is_Some (at_tracks a !! td_track_id o) →
     ∃ score, scored a frame (td_track_id o) (td_detection_index o) score).
Proof using.
  intros Hinv Hroom Hrun. destruct (validate_frame frame a) as [[]|error] eqn:Hv;
    [|unfold tracker_update in Hrun; by rewrite Hv in Hrun].
  destruct (update_ok a frame Hinv Hv Hroom) as (a2&u2&Hrun'&Hex&_).
  rewrite Hrun in Hrun'. injection Hrun' as -> ->. split; [apply Hex|].
  intros o Ho [t Ht]. destruct (ue_seen _ _ _ _ Hex _ Ho) as (d&t1&_&_&_&_&Hcase).
  rewrite Ht in Hcase. apply Hcase.
Qed.
End update.
