(* ===== verification/Resolver.v ===== *)
(** * Identity engine: who an actor is
    ([crates/identity-engine/src/{identity,engine}.rs])

    The resolver keeps, for every track, the scores of its last frames against the
    gallery and decides conservatively; the engine feeds it from the tracker. A method
    that changes the resolver returns it on its error branches too. *)

From S2P Require Import Prelude Text Bytes Float Identity Tracker.

#[local] Open Scope Z_scope.

Record IdentityConfigV1 := {
  ic_consensus_window_frames : Z;
  ic_minimum_consensus_frames : Z;
  ic_minimum_similarity : f32;
  ic_ambiguity_margin : f32;
  ic_hysteresis_retention_similarity : f32;
  ic_hysteresis_switch_margin : f32
}.

Definition identity_config_default : IdentityConfigV1 := Eval vm_compute in {|
  ic_consensus_window_frames := 5; ic_minimum_consensus_frames := 3;
  ic_minimum_similarity := f32_lit 72 100; ic_ambiguity_margin := f32_lit 8 100;
  ic_hysteresis_retention_similarity := f32_lit 66 100;
  ic_hysteresis_switch_margin := f32_lit 12 100 |}.

Definition identity_config_validate (c : IdentityConfigV1) : result IdentityError unit :=
  if (ic_consensus_window_frames c =? 0) || (ic_minimum_consensus_frames c =? 0)
     || (ic_consensus_window_frames c <? ic_minimum_consensus_frames c)
  then Err InvalidIdentityConfiguration else
  if negb (forallb in_unit_range [ic_minimum_similarity c; ic_ambiguity_margin c;
       ic_hysteresis_retention_similarity c; ic_hysteresis_switch_margin c])
  then Err InvalidIdentityConfiguration else
  if f_lt (ic_minimum_similarity c) (ic_hysteresis_retention_similarity c)
  then Err InvalidIdentityConfiguration else Ok tt.

Record MatchedDecision := {
  md_encounter_id : str;
  md_subject_id : str;
  md_subject_similarity : f32;
  md_top_candidate_subject_id : str;
  md_top_candidate_similarity : f32;
  md_runner_up_similarity : option f32;
  md_top1_top2_margin : f32;
  md_supporting_frames : Z;
  md_window_frames : Z;
  md_held_by_hysteresis : bool
}.

Inductive IdentityDecisionV1 :=
| Pending (encounter_id : str) (observed_frames required_frames : Z)
| Explicit (encounter_id subject_id : str)
| Matched (m : MatchedDecision)
| Ambiguous (encounter_id top_subject_id : str) (runner_up_subject_id : option str)
    (top_similarity : f32) (runner_up_similarity : option f32) (top1_top2_margin : f32)
    (supporting_frames window_frames : Z)
| NoMatch (encounter_id : str) (best_subject_id : option str) (best_similarity : option f32)
    (observed_frames : Z)
| DecisionOffscreen (encounter_id : str) (last_confirmed_subject_id : option str) (track_epoch : Z).

Definition decision_encounter_id (d : IdentityDecisionV1) : str :=
  match d with
  | Pending e _ _ | Explicit e _ | Ambiguous e _ _ _ _ _ _ _ | NoMatch e _ _ _
  | DecisionOffscreen e _ _ => e
  | Matched m => md_encounter_id m
  end.

Definition resolved_subject_id (d : IdentityDecisionV1) : option str :=
  match d with
  | Explicit _ subject_id => Some subject_id
  | Matched m => Some (md_subject_id m)
  | DecisionOffscreen _ last_confirmed_subject_id _ => last_confirmed_subject_id
  | Pending _ _ _ | Ambiguous _ _ _ _ _ _ _ _ | NoMatch _ _ _ _ => None
  end.

Record ScoreFrame := { sf_scores : gmap str f32; sf_top_subject_id : option str }.

Record TrackIdentityHistory := {
  th_score_frames : list ScoreFrame;
  th_confirmed_subject_id : option str;
  th_last_decision : option IdentityDecisionV1
}.

Definition history_default : TrackIdentityHistory := {|
  th_score_frames := []; th_confirmed_subject_id := None; th_last_decision := None |}.

Definition set_score_frames (frames : list ScoreFrame) (h : TrackIdentityHistory)
    : TrackIdentityHistory := {|
  th_score_frames := frames; th_confirmed_subject_id := th_confirmed_subject_id h;
  th_last_decision := th_last_decision h |}.
Definition set_confirmed (subject : option str) (h : TrackIdentityHistory)
    : TrackIdentityHistory := {|
  th_score_frames := th_score_frames h; th_confirmed_subject_id := subject;
  th_last_decision := th_last_decision h |}.
Definition set_last_decision (d : IdentityDecisionV1) (h : TrackIdentityHistory)
    : TrackIdentityHistory := {|
  th_score_frames := th_score_frames h; th_confirmed_subject_id := th_confirmed_subject_id h;
  th_last_decision := Some d |}.

Record IdentityResolverV1 := {
  rs_config : IdentityConfigV1;
  rs_gallery : IdentityGalleryV1;
  rs_histories : gmap Z TrackIdentityHistory;
  rs_explicit_assignments : gmap Z str
}.

Definition resolver_new (config : IdentityConfigV1) (gallery : IdentityGalleryV1)
    : result IdentityError IdentityResolverV1 :=
  _ ← identity_config_validate config;
  _ ← gallery_validate gallery;
  Ok {| rs_config := config; rs_gallery := gallery; rs_histories := ∅; rs_explicit_assignments := ∅ |}.

Definition set_histories (histories : gmap Z TrackIdentityHistory) (r : IdentityResolverV1)
    : IdentityResolverV1 := {|
  rs_config := rs_config r; rs_gallery := rs_gallery r; rs_histories := histories;
  rs_explicit_assignments := rs_explicit_assignments r |}.

Definition set_explicit (explicit : gmap Z str) (r : IdentityResolverV1) : IdentityResolverV1 := {|
  rs_config := rs_config r; rs_gallery := rs_gallery r; rs_histories := rs_histories r;
  rs_explicit_assignments := explicit |}.

Definition assign_explicit (track_id : Z) (subject_id : str) (r : IdentityResolverV1)
    : result IdentityError IdentityResolverV1 :=
  if negb (contains_subject (rs_gallery r) subject_id) then Err (UnknownSubject subject_id) else
  Ok (set_explicit (<[track_id := subject_id]> (rs_explicit_assignments r)) r).

Definition clear_explicit (track_id : Z) (r : IdentityResolverV1) : IdentityResolverV1 :=
  set_explicit (delete track_id (rs_explicit_assignments r)) r.

Definition retire_track (track_id : Z) (r : IdentityResolverV1) : IdentityResolverV1 :=
  set_histories (delete track_id (rs_histories r)) (clear_explicit track_id r).

(** ** Scores *)

Section decisions.
Context `{TrackerApi}.

Definition ranked_cmp (left right : str * f32) : comparison :=
  then_with (f_total_cmp nan_negative right.2 left.2) (ocmp left.1 right.1).

Definition ranked_scores (scores : gmap str f32) : list (str * f32) :=
  sort_by ranked_cmp (btree_iter scores).

(** The best similarity of the references of one subject. *)
Fixpoint best_similarity (embedding : NormalizedEmbeddingV1) (references : list IdentityReferenceV1)
    (best : f32) : result EmbeddingError f32 :=
  match references with
  | [] => Ok best
  | reference :: references =>
      similarity ← cosine_similarity embedding (ir_embedding reference);
      best_similarity embedding references (f32_max best similarity)
  end.

Fixpoint score_subjects (embedding : NormalizedEmbeddingV1) (subjects : list SubjectIdentityV1)
    (scores : gmap str f32) : result EmbeddingError (gmap str f32) :=
  match subjects with
  | [] => Ok scores
  | subject :: subjects =>
      best ← best_similarity embedding (sj_references subject) f32_neg_infinity;
      score_subjects embedding subjects (<[sj_subject_id subject := best]> scores)
  end.

Definition score_embedding (gallery : IdentityGalleryV1) (embedding : NormalizedEmbeddingV1)
    : result IdentityError ScoreFrame :=
  scores ← map_err IdInvalidEmbedding (score_subjects embedding (btree_iter (ig_subjects gallery)).*2 ∅);
  Ok {| sf_scores := scores; sf_top_subject_id := fst <$> head (ranked_scores scores) |}.

(** ** The decision for one history *)

Definition add_score (sums : gmap str f32) (entry : str * f32) : gmap str f32 :=
  <[entry.1 := f32_add (default f_zero (sums !! entry.1)) entry.2]> sums.

Definition sum_scores (frames : list ScoreFrame) : gmap str f32 :=
  fold_left (λ sums frame, fold_left add_score (btree_iter (sf_scores frame)) sums) frames ∅.

Definition count_top (supports : gmap str Z) (frame : ScoreFrame) : gmap str Z :=
  match sf_top_subject_id frame with
  | Some subject_id => <[subject_id := default 0 (supports !! subject_id) + 1]> supports
  | None => supports
  end.

Definition count_supports (frames : list ScoreFrame) : gmap str Z := fold_left count_top frames ∅.

Definition decide_identity (config : IdentityConfigV1) (history : TrackIdentityHistory)
    (encounter_id : str) : TrackIdentityHistory * IdentityDecisionV1 :=
  let frames := th_score_frames history in
  let observed_frames := Z.of_nat (length frames) in
  if observed_frames <? ic_minimum_consensus_frames config
  then (history, Pending encounter_id observed_frames (ic_minimum_consensus_frames config)) else
  let supports := count_supports frames in
  let averages := (λ sum, f32_div sum (f32_of_u64 observed_frames)) <$> sum_scores frames in
  let ranked := ranked_scores averages in
  match ranked with
  | [] => (set_confirmed None history, NoMatch encounter_id None None observed_frames)
  | (top_subject_id, top_similarity) :: others =>
  let runner_up := head others in
  let runner_up_similarity := snd <$> runner_up in
  let margin := match runner_up_similarity with
    | Some score => f32_sub top_similarity score | None => f32_one end in
  let support subject_id := default 0 (supports !! subject_id) in
  let held := confirmed_subject_id ← th_confirmed_subject_id history;
    let confirmed_similarity := default f32_neg_infinity (averages !! confirmed_subject_id) in
    let challenger_advantage := f32_sub top_similarity confirmed_similarity in
    if f_ge confirmed_similarity (ic_hysteresis_retention_similarity config)
       && (bool_decide (top_subject_id = confirmed_subject_id)
           || f_lt challenger_advantage (ic_hysteresis_switch_margin config))
    then Some {|
      md_encounter_id := encounter_id; md_subject_id := confirmed_subject_id;
      md_subject_similarity := confirmed_similarity; md_top_candidate_subject_id := top_subject_id;
      md_top_candidate_similarity := top_similarity; md_runner_up_similarity := runner_up_similarity;
      md_top1_top2_margin := margin; md_supporting_frames := support confirmed_subject_id;
      md_window_frames := observed_frames;
      md_held_by_hysteresis := bool_decide (top_subject_id ≠ confirmed_subject_id) |}
    else None in
  match held with
  | Some m => (history, Matched m)
  | None =>
  if f_lt top_similarity (ic_minimum_similarity config)
  then (set_confirmed None history,
        NoMatch encounter_id (Some top_subject_id) (Some top_similarity) observed_frames) else
  if f_lt margin (ic_ambiguity_margin config)
     || (support top_subject_id <? ic_minimum_consensus_frames config)
  then (history, Ambiguous encounter_id top_subject_id (fst <$> runner_up) top_similarity
          runner_up_similarity margin (support top_subject_id) observed_frames) else
  (set_confirmed (Some top_subject_id) history, Matched {|
      md_encounter_id := encounter_id; md_subject_id := top_subject_id;
      md_subject_similarity := top_similarity; md_top_candidate_subject_id := top_subject_id;
      md_top_candidate_similarity := top_similarity; md_runner_up_similarity := runner_up_similarity;
      md_top1_top2_margin := margin; md_supporting_frames := support top_subject_id;
      md_window_frames := observed_frames; md_held_by_hysteresis := false |})
  end end.

(** ** Observing a track *)

(** The [while] loop that drops the oldest frames beyond the window. *)
Fixpoint trim_window (window : Z) (frames : list ScoreFrame) : list ScoreFrame :=
  match frames with
  | [] => []
  | _ :: older =>
      if window <? Z.of_nat (length frames) then trim_window window older else frames
  end.

(** [entry(track_id).or_default()]. *)
Definition history_of (track_id : Z) (r : IdentityResolverV1) : TrackIdentityHistory :=
  default history_default (rs_histories r !! track_id).

Definition put_history (track_id : Z) (h : TrackIdentityHistory) (r : IdentityResolverV1)
    : IdentityResolverV1 := set_histories (<[track_id := h]> (rs_histories r)) r.

(** The frame of an observation is added to its history. *)
Definition push_scores (track_id : Z) (embedding : option NormalizedEmbeddingV1)
    (r : IdentityResolverV1) : result IdentityError IdentityResolverV1 :=
  match embedding with
  | None => Ok r
  | Some embedding =>
      _ ← map_err IdInvalidEmbedding (embedding_validate embedding);
      _ ← ensure (bool_decide (ne_model embedding = ig_model (rs_gallery r))) IncompatibleObservationModel;
      score_frame ← score_embedding (rs_gallery r) embedding;
      let history := history_of track_id r in
      Ok (put_history track_id (set_score_frames
            (trim_window (ic_consensus_window_frames (rs_config r))
               (th_score_frames history ++ [score_frame])) history) r)
  end.

Definition observe_identity (track_id : Z) (embedding : option NormalizedEmbeddingV1)
    (encounter_id : str) (r : IdentityResolverV1)
    : IdentityResolverV1 * result IdentityError IdentityDecisionV1 :=
  match rs_explicit_assignments r !! track_id with
  | Some subject_id =>
      let decision := Explicit encounter_id subject_id in
      (put_history track_id (set_last_decision decision (history_of track_id r)) r, Ok decision)
  | None =>
  match push_scores track_id embedding r with
  | Err error => (r, Err error)
  | Ok r =>
  let history := history_of track_id r in
  match (if is_none embedding then th_last_decision history else None) with
  | Some last_ => (put_history track_id history r, Ok last_)
  | None =>
      let '(history, decision) := decide_identity (rs_config r) history encounter_id in
      (put_history track_id (set_last_decision decision history) r, Ok decision)
  end end end.

Definition decision_for_phase (track_id track_epoch : Z) (phase : TrackPhaseV1) (encounter_id : str)
    (r : IdentityResolverV1) : IdentityResolverV1 * IdentityDecisionV1 :=
  match phase with
  | Offscreen =>
      let last_confirmed_subject_id := match rs_explicit_assignments r !! track_id with
        | Some subject_id => Some subject_id
        | None => history ← rs_histories r !! track_id; th_confirmed_subject_id history
        end in
      (r, DecisionOffscreen encounter_id last_confirmed_subject_id track_epoch)
  | Visible =>
      match observe_identity track_id None encounter_id r with
      | (r, Ok decision) => (r, decision)
      | (r, Err _) => (r, Pending encounter_id 0 (ic_minimum_consensus_frames (rs_config r)))
      end
  end.
End decisions.

(** ** The engine *)

Record ActorIdentityV1 := { ai_track : ActorTrackSnapshotV1; ai_identity : IdentityDecisionV1 }.

Record FrameIdentityUpdateV1 := {
  fu_frame_index : Z;
  fu_actors : list ActorIdentityV1;
  fu_track_events : list TrackEventV1;
  fu_selected_track_id : option Z
}.

Inductive EngineError :=
| NoSelectedActor
| EngineTracker (error : TrackerError)
| EngineIdentity (error : IdentityError).

Record ActorIdentityEngineV1 := {
  en_tracker : ActorTrackerV1;
  en_resolver : IdentityResolverV1
}.

Definition engine_select_actor (track_id : Z) (e : ActorIdentityEngineV1)
    : result EngineError ActorIdentityEngineV1 :=
  t ← map_err EngineTracker (select_actor track_id (en_tracker e));
  Ok {| en_tracker := t; en_resolver := en_resolver e |}.

Definition engine_clear_selection (e : ActorIdentityEngineV1) : ActorIdentityEngineV1 :=
  {| en_tracker := clear_selection (en_tracker e); en_resolver := en_resolver e |}.

Definition assign_subject (track_id : Z) (subject_id : str) (e : ActorIdentityEngineV1)
    : result EngineError ActorIdentityEngineV1 :=
  if negb (existsb (λ track, sn_track_id track =? track_id) (tracker_snapshot (en_tracker e)))
  then Err (EngineTracker (UnknownTrack track_id)) else
  r ← map_err EngineIdentity (assign_explicit track_id subject_id (en_resolver e));
  Ok {| en_tracker := en_tracker e; en_resolver := r |}.

Definition assign_selected_subject (subject_id : str) (e : ActorIdentityEngineV1)
    : result EngineError ActorIdentityEngineV1 :=
  track_id ← ok_or (at_selected_track_id (en_tracker e)) NoSelectedActor;
  r ← map_err EngineIdentity (assign_explicit track_id subject_id (en_resolver e));
  Ok {| en_tracker := en_tracker e; en_resolver := r |}.

Definition clear_subject_assignment (track_id : Z) (e : ActorIdentityEngineV1)
    : ActorIdentityEngineV1 :=
  {| en_tracker := en_tracker e; en_resolver := clear_explicit track_id (en_resolver e) |}.

Definition retire_event (r : IdentityResolverV1) (event : TrackEventV1) : IdentityResolverV1 :=
  match event with TrackRetired track_id _ _ => retire_track track_id r | _ => r end.

Section engine.
Context `{TrackerApi}.

Fixpoint identify_actors (observations : gmap Z (option NormalizedEmbeddingV1))
    (tracks : list ActorTrackSnapshotV1) (r : IdentityResolverV1) (actors : list ActorIdentityV1)
    : IdentityResolverV1 * result IdentityError (list ActorIdentityV1) :=
  match tracks with
  | [] => (r, Ok actors)
  | track :: tracks =>
      match (match sn_phase track with
             | Visible => observe_identity (sn_track_id track)
                 (embedding ← observations !! sn_track_id track; embedding) (sn_encounter_id track) r
             | Offscreen =>
                 let '(r, decision) := decision_for_phase (sn_track_id track) (sn_track_epoch track)
                   (sn_phase track) (sn_encounter_id track) r in (r, Ok decision)
             end) with
      | (r, Err error) => (r, Err error)
      | (r, Ok identity) =>
          identify_actors observations tracks r
            (actors ++ [{| ai_track := track; ai_identity := identity |}])
      end
  end.

Definition process_frame (frame : FrameActorsV1) (e : ActorIdentityEngineV1)
    : option (ActorIdentityEngineV1 * result EngineError FrameIdentityUpdateV1) :=
  updated ← tracker_update frame (en_tracker e);
  match updated with
  | (t, Err error) =>
      Some ({| en_tracker := t; en_resolver := en_resolver e |}, Err (EngineTracker error))
  | (t, Ok u) =>
      let r := fold_left retire_event (tu_events u) (en_resolver e) in
      let observations := fold_left (λ m o, <[td_track_id o := td_embedding o]> m)
        (tu_observations u) ∅ in
      match identify_actors observations (tu_tracks u) r [] with
      | (r, Err error) => Some ({| en_tracker := t; en_resolver := r |}, Err (EngineIdentity error))
      | (r, Ok actors) => Some ({| en_tracker := t; en_resolver := r |}, Ok {|
          fu_frame_index := tu_frame_index u; fu_actors := actors; fu_track_events := tu_events u;
          fu_selected_track_id := tu_selected_track_id u |})
      end
  end.
End engine.
