(* ===== verification/ResolverSpec.v ===== *)
(** * What the identity resolver promises

    A match has the evidence the configuration asks for, every name comes from the
    gallery, an explicit assignment takes precedence, and what is known of a track dies
    with it. *)

From S2P Require Import Prelude Text Bytes Float Identity Tracker TrackerFacts TrackerSpec Resolver.

#[local] Open Scope Z_scope.

Section resolver.
Context `{TrackerApi}.
Implicit Types (r : IdentityResolverV1) (h : TrackIdentityHistory) (g : IdentityGalleryV1).

(** ** Ranking *)

Lemma ranked_cmp_preorder : cmp_preorder ranked_cmp.
Proof using.
  unfold ranked_cmp. apply cmp_preorder_then.
  - apply (cmp_preorder_flip (λ x y : str * f32, f_total_cmp nan_negative x.2 y.2)).
    apply (cmp_preorder_map (λ x : str * f32, f_total_key nan_negative x.2) ocmp), cmp_preorder_ocmp.
  - apply (cmp_preorder_map (λ x : str * f32, x.1) ocmp), cmp_preorder_ocmp.
Qed.

Lemma ranked_elem scores s x : (s, x) ∈ ranked_scores scores ↔ scores !! s = Some x.
Proof using. unfold ranked_scores. by rewrite sort_by_perm, btree_iter_elem. Qed.

(** The first of the ranking has no smaller score than any other. *)
Lemma ranked_head scores s x rest :
  ranked_scores scores = (s, x) :: rest →
  scores !! s = Some x ∧
  ∀ s' x', scores !! s' = Some x' → f_total_cmp nan_negative x x' ≠ Lt.
Proof using.
  intros Hr. split; [apply ranked_elem; rewrite Hr; by left|].
  intros s' x' Hin%ranked_elem. rewrite Hr in Hin.
  pose proof (sort_by_strongly_sorted ranked_cmp (btree_iter scores) ranked_cmp_preorder) as Hs.
  unfold ranked_scores in Hr. rewrite Hr in Hs. apply StronglySorted_inv in Hs as [_ Hall].
  unfold f_total_cmp. apply elem_of_cons in Hin as [[= -> ->]|Hin]; [by rewrite ocmp_refl|].
  rewrite Forall_forall in Hall. specialize (Hall _ Hin). unfold cmp_le, ranked_cmp, f_total_cmp in Hall.
  cbn [fst snd] in Hall. intros Hlt. by rewrite (ocmp_opp (f_total_key _ x)), Hlt in Hall.
Qed.

(** The rest of the ranking holds the other subjects, and its first has no smaller score
    than any of them. *)
Lemma ranked_rest scores s x rest s' x' :
  ranked_scores scores = (s, x) :: rest →
  (s', x') ∈ rest ↔ s' ≠ s ∧ scores !! s' = Some x'.
Proof using.
  intros Hr. assert (NoDup (s :: rest.*1)) as Hnd.
  { change (s :: rest.*1) with ((s, x) :: rest).*1. rewrite <-Hr. unfold ranked_scores.
    rewrite sort_by_perm. apply btree_keys_NoDup. }
  apply NoDup_cons in Hnd as [Hnotin _]. rewrite <-ranked_elem, Hr, elem_of_cons. split.
  - intros Hin. split; [|by right]. intros ->. apply Hnotin. by apply (list_elem_of_fmap_2 fst) in Hin.
  - intros [Hne [[= -> _]|Hin]]; done.
Qed.

Lemma ranked_second scores s x s1 x1 rest :
  ranked_scores scores = (s, x) :: (s1, x1) :: rest →
  ∀ s' x', s' ≠ s → scores !! s' = Some x' → f_total_cmp nan_negative x1 x' ≠ Lt.
Proof using.
  intros Hr s' x' Hne Hs'. pose proof (proj2 (ranked_rest _ _ _ _ s' x' Hr) (conj Hne Hs')) as Hin.
  pose proof (sort_by_strongly_sorted ranked_cmp (btree_iter scores) ranked_cmp_preorder) as Hs.
  unfold ranked_scores in Hr. rewrite Hr in Hs. apply StronglySorted_inv in Hs as [Hs _].
  apply StronglySorted_inv in Hs as [_ Hall].
  unfold f_total_cmp. apply elem_of_cons in Hin as [[= -> ->]|Hin]; [by rewrite ocmp_refl|].
  rewrite Forall_forall in Hall. specialize (Hall _ Hin). unfold cmp_le, ranked_cmp, f_total_cmp in Hall.
  cbn [fst snd] in Hall. intros Hlt. by rewrite (ocmp_opp (f_total_key _ x1)), Hlt in Hall.
Qed.

(** ** Sums and supports *)

Lemma add_score_dom sums e s : is_Some (add_score sums e !! s) ↔ s = e.1 ∨ is_Some (sums !! s).
Proof using. unfold add_score. rewrite lookup_insert_is_Some'. naive_solver. Qed.

Lemma sum_frame_dom entries : ∀ sums s,
  is_Some (fold_left add_score entries sums !! s) ↔ s ∈ entries.*1 ∨ is_Some (sums !! s).
Proof using.
  induction entries as [|e entries IH]; intros sums s; cbn [fold_left].
  - split; [by right|by intros [?%not_elem_of_nil|]].
  - rewrite IH, add_score_dom, fmap_cons, elem_of_cons. tauto.
Qed.

Lemma sum_scores_dom frames s :
  is_Some (sum_scores frames !! s) ↔ ∃ f, f ∈ frames ∧ is_Some (sf_scores f !! s).
Proof using.
  unfold sum_scores.
  assert (∀ sums, is_Some (fold_left (λ sums f, fold_left add_score (btree_iter (sf_scores f)) sums)
    frames sums !! s) ↔ (∃ f, f ∈ frames ∧ is_Some (sf_scores f !! s)) ∨ is_Some (sums !! s)) as ->.
  { induction frames as [|f frames IH]; intros sums; cbn [fold_left].
    - split; [by right|by intros [(?&?%not_elem_of_nil&_)|]].
    - rewrite IH, sum_frame_dom. change ((btree_iter (sf_scores f)).*1) with (btree_keys (sf_scores f)).
      rewrite btree_keys_elem. setoid_rewrite elem_of_cons. naive_solver. }
  split; [intros [|[x Hx]]; [done|by rewrite lookup_empty in Hx]|by left].
Qed.

(** How many frames put [s] first. *)
Definition votes (frames : list ScoreFrame) (s : str) : Z :=
  Z.of_nat (length (filter (λ f, sf_top_subject_id f = Some s) frames)).

Lemma count_supports_votes frames s : default 0 (count_supports frames !! s) = votes frames s.
Proof using.
  unfold count_supports, votes.
  assert (∀ supports, default 0 (fold_left count_top frames supports !! s) =
    default 0 (supports !! s) + Z.of_nat (length (filter (λ f, sf_top_subject_id f = Some s) frames)))
    as ->; [|by rewrite lookup_empty].
  induction frames as [|f frames IH]; intros supports; cbn [fold_left]; [rewrite filter_nil; cbn [length]; lia|].
  rewrite IH, filter_cons. unfold count_top.
  destruct (sf_top_subject_id f) as [s'|]; [|by rewrite decide_False].
  destruct (decide (Some s' = Some s)) as [[= ->]|Hne].
  - rewrite lookup_insert_eq. cbn -[Z.of_nat]. lia.
  - rewrite lookup_insert_ne by congruence. done.
Qed.

(** The average of a subject over the window. *)
Definition average (frames : list ScoreFrame) (s : str) : option f32 :=
  (λ sum, f32_div sum (f32_of_u64 (Z.of_nat (length frames)))) <$> sum_scores frames !! s.

(** ** The evidence of a match *)

Definition best_candidate (frames : list ScoreFrame) (s : str) (x : f32) : Prop :=
  average frames s = Some x ∧
  ∀ s' x', average frames s' = Some x' → f_total_cmp nan_negative x x' ≠ Lt.

(** The best average among the other subjects, when there is another one. *)
Definition best_rival (frames : list ScoreFrame) (top : str) (rival : option f32) : Prop :=
  match rival with
  | Some x =>
      (∃ s, s ≠ top ∧ average frames s = Some x) ∧
      ∀ s' x', s' ≠ top → average frames s' = Some x' → f_total_cmp nan_negative x x' ≠ Lt
  | None => ∀ s', s' ≠ top → average frames s' = None
  end.

(** A match that is new: enough frames put the subject first, its average is not too low,
    and no other subject comes too close. *)
Definition newly_matched (c : IdentityConfigV1) (frames : list ScoreFrame) (m : MatchedDecision) : Prop :=
  md_subject_id m = md_top_candidate_subject_id m ∧
  md_subject_similarity m = md_top_candidate_similarity m ∧
  md_held_by_hysteresis m = false ∧
  ic_minimum_consensus_frames c ≤ votes frames (md_subject_id m) ∧
  f_lt (md_subject_similarity m) (ic_minimum_similarity c) = false ∧
  f_lt (md_top1_top2_margin m) (ic_ambiguity_margin c) = false.

(** A match that was confirmed before is kept while the subject scores well enough and no
    challenger leads by the switch margin. *)
Definition retained (c : IdentityConfigV1) (confirmed : option str) (m : MatchedDecision) : Prop :=
  confirmed = Some (md_subject_id m) ∧
  f_ge (md_subject_similarity m) (ic_hysteresis_retention_similarity c) = true ∧
  (md_top_candidate_subject_id m = md_subject_id m ∨
   f_lt (f32_sub (md_top_candidate_similarity m) (md_subject_similarity m))
        (ic_hysteresis_switch_margin c) = true).

Definition match_report (frames : list ScoreFrame) (m : MatchedDecision) : Prop :=
  best_candidate frames (md_top_candidate_subject_id m) (md_top_candidate_similarity m) ∧
  md_subject_similarity m = default f32_neg_infinity (average frames (md_subject_id m)) ∧
  md_supporting_frames m = votes frames (md_subject_id m) ∧
  md_window_frames m = Z.of_nat (length frames) ∧
  best_rival frames (md_top_candidate_subject_id m) (md_runner_up_similarity m) ∧
  md_top1_top2_margin m = match md_runner_up_similarity m with
    | Some x => f32_sub (md_top_candidate_similarity m) x | None => f32_one end.

(** What [decide_identity] does, by cases. *)
Lemma decide_cases c h encounter_id h' d :
  decide_identity c h encounter_id = (h', d) →
  th_score_frames h' = th_score_frames h ∧ decision_encounter_id d = encounter_id ∧
  match d with
  | Pending _ n required =>
      h' = h ∧ n = Z.of_nat (length (th_score_frames h)) ∧
      required = ic_minimum_consensus_frames c ∧ n < required
  | Matched m =>
      ic_minimum_consensus_frames c ≤ Z.of_nat (length (th_score_frames h)) ∧
      match_report (th_score_frames h) m ∧
      th_confirmed_subject_id h' = Some (md_subject_id m) ∧
      (newly_matched c (th_score_frames h) m ∨ retained c (th_confirmed_subject_id h) m)
  | Ambiguous _ _ _ _ _ _ _ _ => h' = h
  | NoMatch _ _ _ _ => th_confirmed_subject_id h' = None
  | Explicit _ _ | DecisionOffscreen _ _ _ => False
  end.
Proof using.
  unfold decide_identity. set (frames := th_score_frames h).
  destruct (Z.ltb_spec (Z.of_nat (length frames)) (ic_minimum_consensus_frames c)) as [|Hlen].
  { by intros [= <- <-]. }
  destruct (ranked_scores _) as [|[top x] others] eqn:Hr; [by intros [= <- <-]|].
  assert (best_candidate frames top x) as Hbest.
  { apply ranked_head in Hr as [Ht Hall]. rewrite lookup_fmap in Ht. split; [done|].
    intros s' x' Hs'. apply (Hall s'). by rewrite lookup_fmap. }
  assert (best_rival frames top (snd <$> head others)) as Hrival.
  { destruct others as [|[s1 x1] others]; cbn.
    - intros s' Hne. apply eq_None_not_Some. intros [x' Hx'].
      assert ((s', x') ∈ ([] : list (str * f32))) as []%not_elem_of_nil.
      { apply (ranked_rest _ _ _ _ s' x' Hr). by rewrite lookup_fmap. }
    - split.
      + exists s1. assert ((s1, x1) ∈ (s1, x1) :: others) as Hin by by left.
        apply (ranked_rest _ _ _ _ _ _ Hr) in Hin as [Hne Hs1]. by rewrite lookup_fmap in Hs1.
      + intros s' x' Hne Hs'. eapply ranked_second; [exact Hr|exact Hne|]. by rewrite lookup_fmap. }
  destruct (th_confirmed_subject_id h) as [s|] eqn:Hc; cbn [mbind option_bind].
  1: destruct (f_ge _ _ && _) eqn:Eheld.
  1:{ intros [= <- <-]. apply andb_true_iff in Eheld as [Hge Hor].
    split; [done|]. split; [done|]. split; [done|].
    split; [|split; [by rewrite Hc|right; split; [done|split; [done|]]]].
    - split; [done|]. cbn. rewrite lookup_fmap, count_supports_votes. done.
    - cbn. apply orb_true_iff in Hor as [Heq%bool_decide_eq_true|Hlt]; [by left|by right]. }
  all: destruct (f_lt x _) eqn:Elow; [by intros [= <- <-]|].
  all: rewrite !count_supports_votes; destruct (f_lt _ _ || _) eqn:Eamb; [by intros [= <- <-]|].
  all: intros [= <- <-]; apply orb_false_iff in Eamb as [Em Esup%Z.ltb_ge].
  all: split; [done|]; split; [done|]; split; [done|]; split; [|split; [done|left]].
  all: try by repeat split.
  all: destruct Hbest as [Ha Hmax]; split; [by split|]; cbn; by rewrite Ha.
Qed.

(** ** The invariant of a resolver *)

Definition known g (s : str) : Prop := contains_subject g s = true.

Definition frame_known g (f : ScoreFrame) : Prop := ∀ s, is_Some (sf_scores f !! s) → known g s.

Record history_ok r h : Prop := {
  ho_window : Z.of_nat (length (th_score_frames h)) ≤ ic_consensus_window_frames (rs_config r);
  ho_frames : Forall (frame_known (rs_gallery r)) (th_score_frames h);
  ho_confirmed : ∀ s, th_confirmed_subject_id h = Some s → known (rs_gallery r) s;
  ho_last : ∀ d s, th_last_decision h = Some d → resolved_subject_id d = Some s → known (rs_gallery r) s
}.

Record resolver_inv r : Prop := {
  ri_config : identity_config_validate (rs_config r) = Ok tt;
  ri_window : 0 ≤ ic_consensus_window_frames (rs_config r);  (* a [usize] *)
  ri_gallery : gallery_ok (rs_gallery r);
  ri_histories : map_Forall (λ _ h, history_ok r h) (rs_histories r);
  ri_explicit : map_Forall (λ _ s, known (rs_gallery r) s) (rs_explicit_assignments r)
}.

Lemma resolver_new_inv config g r :
  0 ≤ ic_consensus_window_frames config → resolver_new config g = Ok r → resolver_inv r.
Proof using.
  unfold resolver_new. rewrite !bind_unit_Ok. intros Hw (Hc&Hg%gallery_validate_Ok&[= <-]).
  by split.
Qed.

Lemma history_of_ok r k :
  resolver_inv r → history_ok r (history_of k r).
Proof using.
  intros Hinv. pose proof (ri_window _ Hinv). unfold history_of. destruct (rs_histories r !! k) as [h|] eqn:Hh.
  - by apply (ri_histories _ Hinv k).
  - by split.
Qed.

(** What one operation may change: histories and assignments. *)
Definition same_setup r r' : Prop := rs_config r' = rs_config r ∧ rs_gallery r' = rs_gallery r.

Lemma history_ok_setup r r' h : same_setup r r' → history_ok r h → history_ok r' h.
Proof using. intros [Hc Hg] [????]. by split; rewrite ?Hc, ?Hg. Qed.

Lemma put_history_inv r k h : resolver_inv r → history_ok r h → resolver_inv (put_history k h r).
Proof using.
  intros [?????] Hh. split; try done. cbn. apply map_Forall_insert_2; [by split; apply Hh|].
  eapply map_Forall_impl; [done|]. intros k' h'. by apply history_ok_setup.
Qed.

(** ** Scoring *)

Lemma best_similarity_ok emb references : ∀ best,
  embedding_validate emb = Ok tt → Forall (reference_ok (ne_model emb)) references →
  ∃ x, best_similarity emb references best = Ok x.
Proof using.
  induction references as [|ref references IH]; intros best He; [by eexists|].
  intros [(_&_&Hv&Hm) Hall]%Forall_cons. cbn.
  destruct (cosine_similarity_ok emb (ir_embedding ref)) as [x ->]; [done..|]. cbn. by apply IH.
Qed.

Lemma score_subjects_ok emb subjects : ∀ scores,
  embedding_validate emb = Ok tt → Forall (subject_ok (ne_model emb)) subjects →
  ∃ scores', score_subjects emb subjects scores = Ok scores' ∧
    ∀ s, is_Some (scores' !! s) → is_Some (scores !! s) ∨ s ∈ sj_subject_id <$> subjects.
Proof using.
  induction subjects as [|subject subjects IH]; intros scores He; cbn [score_subjects].
  { intros _. exists scores. split; [done|by left]. }
  intros [(_&_&_&_&Hrefs) Hall]%Forall_cons.
  destruct (best_similarity_ok emb (sj_references subject) f32_neg_infinity) as [x ->]; [done..|].
  cbn [mbind result_bind].
  destruct (IH (<[sj_subject_id subject := x]> scores)) as (scores'&->&Hdom); [done..|].
  exists scores'. split; [done|]. intros s [Hs|Hs]%Hdom; rewrite fmap_cons, elem_of_cons; [|tauto].
  rewrite lookup_insert_is_Some' in Hs. naive_solver.
Qed.

Lemma score_embedding_ok g emb :
  gallery_ok g → embedding_validate emb = Ok tt → ne_model emb = ig_model g →
  ∃ f, score_embedding g emb = Ok f ∧ frame_known g f.
Proof using.
  intros (_&_&Hg) He Hm. unfold score_embedding.
  destruct (score_subjects_ok emb (btree_iter (ig_subjects g)).*2 ∅) as (scores&->&Hdom); [done| |].
  { rewrite Hm. apply Forall_forall. intros s ([k s']&->&Hs%btree_iter_elem)%list_elem_of_fmap.
    apply (Hg _ _ Hs). }
  cbn. eexists. split; [done|]. intros s. cbn.
  intros [[? Hs]|Hs]%Hdom; [by rewrite lookup_empty in Hs|].
  apply list_elem_of_fmap in Hs as (subject&->&Hs). apply list_elem_of_fmap in Hs as ([k s']&->&Hs).
  apply btree_iter_elem in Hs. destruct (Hg _ _ Hs) as [Hk _]. unfold known, contains_subject.
  cbn. by rewrite <-Hk, Hs.
Qed.

Lemma trim_window_spec window frames : 0 ≤ window →
  Z.of_nat (length (trim_window window frames)) ≤ window ∧
  ∃ dropped, frames = dropped ++ trim_window window frames ∧
    (Z.of_nat (length frames) ≤ window → dropped = []).
Proof using.
  intros Hw. induction frames as [|f frames [IHl (dropped&Heq&_)]]; cbn [trim_window].
  { split; [done|]. by exists []. }
  destruct (Z.ltb_spec window (Z.of_nat (length (f :: frames)))) as [Hlt|].
  - split; [done|]. exists (f :: dropped). split; [cbn; by rewrite <-Heq|]. lia.
  - split; [done|]. by exists [].
Qed.

(** A new frame, if there is one, joins the history of its track. *)
Lemma push_scores_ok r k emb :
  resolver_inv r →
  (∀ e, emb = Some e → embedding_validate e = Ok tt) →
  match push_scores k emb r with
  | Ok r' => resolver_inv r' ∧ same_setup r r' ∧
      rs_explicit_assignments r' = rs_explicit_assignments r ∧
      th_confirmed_subject_id (history_of k r') = th_confirmed_subject_id (history_of k r) ∧
      (∀ k', is_Some (rs_histories r' !! k') → k' = k ∨ is_Some (rs_histories r !! k'))
  | Err error => error = IncompatibleObservationModel ∧
      ∃ e, emb = Some e ∧ ne_model e ≠ ig_model (rs_gallery r)
  end.
Proof using.
  intros Hinv Hv. pose proof (ri_window _ Hinv) as Hw. unfold push_scores. destruct emb as [e|]; [|by split_and!; try done; right].
  rewrite (Hv e) by done. cbn [map_err mbind result_bind].
  destruct (bool_decide_reflect (ne_model e = ig_model (rs_gallery r))) as [Hm|Hm]; cbn;
    [|by split; [|exists e]].
  destruct (score_embedding_ok (rs_gallery r) e) as (f&->&Hf); [apply Hinv|by apply Hv|done|]. cbn.
  destruct (history_of_ok r k Hinv) as [Hl Hfr Hc Hlast].
  destruct (trim_window_spec (ic_consensus_window_frames (rs_config r))
    (th_score_frames (history_of k r) ++ [f]) Hw) as [Htl (dropped&Heq&_)].
  split; [|split; [done|split; [done|split]]].
  - apply put_history_inv; [done|]. split; cbn; try done.
    assert (Forall (frame_known (rs_gallery r)) (th_score_frames (history_of k r) ++ [f])) as Hall.
    { apply Forall_app. split; [done|by apply Forall_singleton]. }
    rewrite Heq in Hall. by apply Forall_app in Hall as [_ ?].
  - unfold history_of at 1. cbn. by rewrite lookup_insert_eq.
  - intros k'. cbn. rewrite lookup_insert_is_Some'. naive_solver.
Qed.

(** A decision only names subjects of the gallery. *)
Lemma decide_known r h encounter_id h' d :
  history_ok r h → decide_identity (rs_config r) h encounter_id = (h', d) →
  history_ok r (set_last_decision d h') ∧
  ∀ s, resolved_subject_id d = Some s → known (rs_gallery r) s.
Proof using.
  intros [Hl Hfr Hc Hlast] Hd. apply decide_cases in Hd as (Hframes&_&Hcase).
  assert (∀ s x, average (th_score_frames h) s = Some x → known (rs_gallery r) s) as Havg.
  { intros s x Hs. unfold average in Hs. apply fmap_Some in Hs as (sum&Hs&_).
    destruct (proj1 (sum_scores_dom (th_score_frames h) s)) as (f&Hf&Hin); [by eexists|].
    rewrite Forall_forall in Hfr. by apply (Hfr _ Hf). }
  assert (∀ s, resolved_subject_id d = Some s → known (rs_gallery r) s) as Hknown.
  { destruct d; try done. intros s [= <-]. destruct Hcase as (_&[[Ha _] _]&_&[(->&_)|(Hs&_)]);
      [by eapply Havg|by apply Hc]. }
  split; [|done]. split; cbn; [by rewrite Hframes|by rewrite Hframes| |by intros ? s [= <-]; apply Hknown].
  intros s Hs. destruct d; try done; try (destruct Hcase as (->&_)); try (subst h'); try by apply Hc.
  - destruct Hcase as (_&_&Hs'&_). rewrite Hs' in Hs. injection Hs as <-. by apply Hknown.
  - by rewrite Hcase in Hs.
Qed.

(** ** One observation *)

(** What an actor of a frame is reported as: named from the gallery only, and by its
    assignment where it has one. *)
Definition identity_good r (k : Z) (d : IdentityDecisionV1) : Prop :=
  (∀ s, resolved_subject_id d = Some s → known (rs_gallery r) s) ∧
  (∀ s, rs_explicit_assignments r !! k = Some s → resolved_subject_id d = Some s).

(** What an operation on the track [k] leaves. *)
Definition only_touches (k : Z) r r' : Prop :=
  same_setup r r' ∧ rs_explicit_assignments r' = rs_explicit_assignments r ∧
  ∀ k', is_Some (rs_histories r' !! k') → k' = k ∨ is_Some (rs_histories r !! k').

Lemma put_history_touches k h r : only_touches k r (put_history k h r).
Proof using.
  split; [done|]. split; [done|]. intros k'. cbn. rewrite lookup_insert_is_Some'. naive_solver.
Qed.

Lemma only_touches_put k h r r1 : only_touches k r r1 → only_touches k r (put_history k h r1).
Proof using.
  intros ([??]&?&Hd). split; [done|]. split; [done|]. intros k'. cbn.
  rewrite lookup_insert_is_Some'. specialize (Hd k'). naive_solver.
Qed.

Lemma observe_ok r k emb encounter_id r' res :
  resolver_inv r → (∀ e, emb = Some e → embedding_validate e = Ok tt) →
  observe_identity k emb encounter_id r = (r', res) →
  resolver_inv r' ∧ only_touches k r r' ∧
  match res with
  | Ok d => identity_good r k d
  | Err error => error = IncompatibleObservationModel ∧ r' = r ∧
      ∃ e, emb = Some e ∧ ne_model e ≠ ig_model (rs_gallery r)
  end.
Proof using.
  intros Hinv Hv. unfold observe_identity.
  destruct (rs_explicit_assignments r !! k) as [s|] eqn:Hex.
  { intros [= <- <-]. pose proof (ri_explicit _ Hinv _ _ Hex) as Hs.
    split; [|split; [apply put_history_touches|split; [by intros ? [= <-]|by intros ? [= <-]]]].
    apply put_history_inv; [done|]. destruct (history_of_ok r k Hinv) as [????].
    split; cbn; try done. by intros ?? [= <-] [= <-]. }
  pose proof (push_scores_ok r k emb Hinv Hv) as Hpush.
  destruct (push_scores k emb r) as [r1|error]; last first.
  { intros [= <- <-]. destruct Hpush as [-> ?]. split; [done|]. split; [|done].
    split; [done|]. split; [done|]. by right. }
  destruct Hpush as (Hinv1&[Hc Hg]&Hex1&Hconf&Hdom).
  assert (only_touches k r r1) as Hot by by split.
  pose proof (history_of_ok r1 k Hinv1) as Hh.
  destruct (if is_none emb then _ else _) as [last_|] eqn:Hlast.
  - intros [= <- <-]. split; [by apply put_history_inv|]. split; [by apply only_touches_put|].
    split; [|by rewrite Hex]. intros s Hs. destruct emb; [done|]. cbn in Hlast. rewrite <-Hg.
    by apply (ho_last _ _ Hh _ _ Hlast).
  - destruct (decide_identity _ _ _) as [h' d] eqn:Hd. intros [= <- <-].
    destruct (decide_known _ _ _ _ _ Hh Hd) as [Hh' Hknown].
    split; [by apply put_history_inv|]. split; [by apply only_touches_put|].
    split; [rewrite <-Hg; exact Hknown|by rewrite Hex].
Qed.

Lemma decision_for_phase_ok r k epoch phase encounter_id r' d :
  resolver_inv r → decision_for_phase k epoch phase encounter_id r = (r', d) →
  resolver_inv r' ∧ only_touches k r r' ∧ identity_good r k d.
Proof using.
  intros Hinv. unfold decision_for_phase. destruct phase.
  - destruct (observe_identity k None encounter_id r) as [r1 res] eqn:Ho.
    apply observe_ok in Ho as (Hinv1&Hot&Hres); [|done..].
    destruct res as [d1|error]; [by intros [= <- <-]|by destruct Hres as (_&_&?&?&_)].
  - intros [= <- <-]. split; [done|]. split; [by split; [|split; [|right]]|].
    split; cbn; [|by intros s ->]. intros s.
    destruct (rs_explicit_assignments r !! k) as [s'|] eqn:Hex.
    + intros [= <-]. by apply (ri_explicit _ Hinv k).
    + destruct (rs_histories r !! k) as [h|] eqn:Hh; [|done]. cbn. apply (ri_histories _ Hinv k _ Hh).
Qed.

(** C20: A name the resolver reports on new evidence is earned: at least the configured
    number of frames is in the window, the report tells their averages and votes truly
    (the best average, the best one of any other subject, and the margin between them),
    and either this is a new match, with its votes, its similarity and its margin over
    the runner-up not below the configured ones, or the subject was confirmed before and
    is retained within the hysteresis; the subject is in the gallery, and it is the one
    confirmed from now on. *)
Theorem match_has_evidence r k e encounter_id r' m :
  resolver_inv r → rs_explicit_assignments r !! k = None →
  observe_identity k (Some e) encounter_id r = (r', Ok (Matched m)) →
  let frames := th_score_frames (history_of k r') in
  ic_minimum_consensus_frames (rs_config r) ≤ Z.of_nat (length frames)
    ≤ ic_consensus_window_frames (rs_config r) ∧
  match_report frames m ∧
  (newly_matched (rs_config r) frames m ∨
   retained (rs_config r) (th_confirmed_subject_id (history_of k r)) m) ∧
  known (rs_gallery r) (md_subject_id m) ∧
  th_confirmed_subject_id (history_of k r') = Some (md_subject_id m).
Proof using.
  intros Hinv Hex Ho.
  assert (embedding_validate e = Ok tt) as Hv.
  { unfold observe_identity in Ho. rewrite Hex in Ho. cbn in Ho.
    by destruct (embedding_validate e) as [[]|]. }
  assert (∀ e', Some e = Some e' → embedding_validate e' = Ok tt) as Hv' by by intros ? [= <-].
  pose proof (observe_ok _ _ _ _ _ _ Hinv Hv' Ho) as (Hinv'&[[Hc Hg] _]&Hknown&_).
  unfold observe_identity in Ho. rewrite Hex in Ho.
  pose proof (push_scores_ok r k (Some e) Hinv Hv') as Hpush.
  destruct (push_scores k (Some e) r) as [r1|]; [|done].
  destruct Hpush as (_&[Hc1 _]&_&Hconf&_). cbn [is_none negb is_some] in Ho.
  destruct (decide_identity _ _ _) as [h' d] eqn:Hd. injection Ho as <- ->.
  apply decide_cases in Hd as (Hframes&_&Hmin&Hrep&Hconf'&Hor).
  assert (history_of k (put_history k (set_last_decision (Matched m) h') r1) =
    set_last_decision (Matched m) h') as Hh.
  { unfold history_of. cbn. by rewrite lookup_insert_eq. }
  pose proof (ho_window _ _ (history_of_ok _ k Hinv')) as Hw. rewrite Hh in *. cbn in *.
  rewrite Hframes in *. rewrite <-Hc1, <-Hconf. split; [by rewrite Hc1 in *|]. by auto.
Qed.

(** ** The engine *)



Record engine_inv (e : ActorIdentityEngineV1) : Prop := {
  ei_tracker : tracker_inv (en_tracker e);
  ei_resolver : resolver_inv (en_resolver e);
  ei_histories : ∀ k, is_Some (rs_histories (en_resolver e) !! k) → is_Some (at_tracks (en_tracker e) !! k);
  ei_explicit : ∀ k, is_Some (rs_explicit_assignments (en_resolver e) !! k) →
    is_Some (at_tracks (en_tracker e) !! k)
}.

Lemma retire_events_spec events : ∀ r,
  let r' := fold_left retire_event events r in
  same_setup r r' ∧
  (∀ k, rs_histories r' !! k =
     if bool_decide (k ∈ omap retired_id events) then None else rs_histories r !! k) ∧
  (∀ k, rs_explicit_assignments r' !! k =
     if bool_decide (k ∈ omap retired_id events) then None else rs_explicit_assignments r !! k).
Proof using.
  induction events as [|event events IH]; intros r; cbn [fold_left].
  { split; [done|]. by split; intros k; rewrite bool_decide_eq_false_2 by apply not_elem_of_nil. }
  destruct (IH (retire_event r event)) as ([Hc Hg]&Hh&Hx).
  destruct event as [| | | |k0 epoch encounter|]; try by split.
  cbn [omap list_omap retired_id] in *. split; [done|].
  assert (∀ A (m : gmap Z A) k,
    (if bool_decide (k ∈ omap retired_id events) then None else delete k0 m !! k) =
    (if bool_decide (k ∈ k0 :: omap retired_id events) then None else m !! k)) as Hdel.
  { intros A m k. destruct (decide (k = k0)) as [->|Hne].
    - rewrite lookup_delete_eq, (bool_decide_eq_true_2 (_ ∈ _ :: _)) by by left. by case_bool_decide.
    - rewrite lookup_delete_ne by done. apply (f_equal (λ b : bool, if b then _ else _)).
      apply bool_decide_ext. rewrite elem_of_cons. tauto. }
  split; intros k; rewrite <-Hdel; [apply Hh|apply Hx].
Qed.

Lemma retire_events_inv events r : resolver_inv r → resolver_inv (fold_left retire_event events r).
Proof using.
  intros Hinv. destruct (retire_events_spec events r) as ([Hc Hg]&Hh&Hx).
  destruct Hinv as [????]. split; rewrite ?Hc, ?Hg; try done; intros k x Hk.
  - rewrite Hh in Hk. case_bool_decide; [done|]. eapply history_ok_setup; [done|]. by eapply ri_histories0.
  - rewrite Hx in Hk. case_bool_decide; [done|]. by eapply ri_explicit0.
Qed.

Lemma observations_map obs : ∀ (m : gmap Z (option NormalizedEmbeddingV1)) k v,
  fold_left (λ m o, <[td_track_id o := td_embedding o]> m) obs m !! k = Some v →
  m !! k = Some v ∨ ∃ o, o ∈ obs ∧ td_track_id o = k ∧ td_embedding o = v.
Proof using.
  induction obs as [|o obs IH]; intros m k v; cbn [fold_left]; [by left|].
  intros [Hk|(o'&?&?&?)]%IH; [|right; exists o'; by split; [right|]].
  apply lookup_insert_Some in Hk as [[? ?]|[_ ?]]; [|by left]. right. exists o. by split; [left|].
Qed.

Lemma identify_actors_ok observations tracks : ∀ r actors r' res,
  resolver_inv r →
  (∀ k e, observations !! k = Some (Some e) → embedding_validate e = Ok tt) →
  identify_actors observations tracks r actors = (r', res) →
  resolver_inv r' ∧ same_setup r r' ∧ rs_explicit_assignments r' = rs_explicit_assignments r ∧
  (∀ k, is_Some (rs_histories r' !! k) → is_Some (rs_histories r !! k) ∨ k ∈ sn_track_id <$> tracks) ∧
  match res with
  | Ok actors' => ∃ new, actors' = actors ++ new ∧ ai_track <$> new = tracks ∧
      Forall (λ a, identity_good r (sn_track_id (ai_track a)) (ai_identity a)) new
  | Err error => error = IncompatibleObservationModel ∧
      ∃ k e, observations !! k = Some (Some e) ∧ ne_model e ≠ ig_model (rs_gallery r)
  end.
Proof using.
  induction tracks as [|track tracks IH]; intros r actors r' res Hinv Hv; cbn [identify_actors].
  { intros [= <- <-]. split; [done|]. split; [done|]. split; [done|]. split; [by left|].
    exists []. by rewrite app_nil_r. }
  set (step := match sn_phase track with Visible => _ | Offscreen => _ end).
  destruct step as [r1 res1] eqn:Hstep.
  assert (resolver_inv r1 ∧ only_touches (sn_track_id track) r r1 ∧
    match res1 with
    | Ok d => identity_good r (sn_track_id track) d
    | Err error => error = IncompatibleObservationModel ∧
        ∃ k e, observations !! k = Some (Some e) ∧ ne_model e ≠ ig_model (rs_gallery r)
    end) as (Hinv1&([Hc Hg]&Hex&Hdom)&Hres1).
  { unfold step in Hstep. destruct (sn_phase track) eqn:Hp.
    - apply observe_ok in Hstep as (?&?&Hres); [|done|].
      + split; [done|]. split; [done|]. destruct res1 as [?|err1]; [done|]. destruct Hres as (->&_&e&He&?).
        split; [done|]. exists (sn_track_id track), e. split; [|done].
        by destruct (observations !! sn_track_id track) as [[]|]; cbn in He; simplify_eq.
      + intros e He. apply (Hv (sn_track_id track)).
        by destruct (observations !! sn_track_id track) as [[]|]; cbn in He; simplify_eq.
    - destruct (decision_for_phase _ _ _ _ _) as [r2 d] eqn:Hd. injection Hstep as <- <-.
      by apply decision_for_phase_ok in Hd. }
  destruct res1 as [d|error].
  - intros Hrun. apply IH in Hrun as (Hinv'&[Hc' Hg']&Hex'&Hdom'&Hres); [|done|done].
    split; [done|]. split; [split; congruence|]. split; [congruence|]. split.
    { intros k [[->|Hk]%Hdom|Hk]%Hdom'; rewrite fmap_cons, elem_of_cons; tauto. }
    destruct res as [actors'|error].
    + destruct Hres as (new&->&Htracks&Hall).
      exists ({| ai_track := track; ai_identity := d |} :: new). rewrite <-app_assoc.
      split; [done|]. split; [by rewrite fmap_cons, Htracks|]. constructor; [done|].
      eapply Forall_impl; [exact Hall|]. intros a [H1 H2]. unfold identity_good in *.
      by rewrite Hg, Hex in *.
    + by rewrite Hg in Hres.
  - intros [= <- <-]. split; [done|]. split; [done|]. split; [done|]. split; [|done].
    intros k [->|Hk]%Hdom; rewrite fmap_cons, elem_of_cons; tauto.
Qed.

Lemma snapshot_ids t k : map_Forall (track_ok t) (at_tracks t) →
  k ∈ sn_track_id <$> tracker_snapshot t ↔ is_Some (at_tracks t !! k).
Proof using.
  intros Hok. unfold tracker_snapshot. rewrite <-list_fmap_compose, list_elem_of_fmap. split.
  - intros (x&->&([k' x']&->&Hx%btree_iter_elem)%list_elem_of_fmap). cbn.
    destruct (Hok _ _ Hx) as (->&_). by eexists.
  - intros [x Hx]. exists x. split; [symmetry; apply (Hok _ _ Hx)|].
    apply list_elem_of_fmap. exists (k, x). by rewrite btree_iter_elem.
Qed.

(** The embeddings of a frame the tracker accepts are valid. *)
Lemma detections_validate_embeddings detections : ∀ seen d e,
  detections_validate seen detections = Ok tt → d ∈ detections → dt_embedding d = Some e →
  embedding_validate e = Ok tt.
Proof using.
  induction detections as [|d0 detections IH]; intros seen d e Hv Hin He; [by apply not_elem_of_nil in Hin|].
  cbn [detections_validate] in Hv. apply bind_unit_Ok in Hv as [Hd Hv].
  apply elem_of_cons in Hin as [->|Hin].
  - unfold detection_validate in Hd. rewrite !bind_unit_Ok, He in Hd.
    by destruct Hd as (_&_&_&Hd%map_err_Ok).
  - destruct (dt_detector_local_id d0); [case_bool_decide; [done|]|]; by eapply IH.
Qed.

(** What a frame changes of the engine. *)
Lemma process_frame_ok e frame :
  engine_inv e → room (en_tracker e) frame →
  ∃ e' res, process_frame frame e = Some (e', res) ∧ engine_inv e' ∧
    later (en_tracker e) (en_tracker e') ∧ same_setup (en_resolver e) (en_resolver e') ∧
    (e' = e ∨ at_last_frame_index (en_tracker e') = Some (fr_frame_index frame)) ∧
    (∀ k, rs_explicit_assignments (en_resolver e') !! k =
       if is_some (at_tracks (en_tracker e') !! k)
       then rs_explicit_assignments (en_resolver e) !! k else None) ∧
    match res with
    | Ok u =>
        ai_track <$> fu_actors u = tracker_snapshot (en_tracker e') ∧
        Forall (λ a, identity_good (en_resolver e') (sn_track_id (ai_track a)) (ai_identity a))
          (fu_actors u)
    | Err NoSelectedActor => False
    | Err (EngineTracker error) => e' = e ∧ validate_frame frame (en_tracker e) = Err error
    | Err (EngineIdentity error) => error = IncompatibleObservationModel ∧
        ∃ d emb, d ∈ fr_detections frame ∧ dt_embedding d = Some emb ∧
          ne_model emb ≠ ig_model (rs_gallery (en_resolver e))
    end.
Proof using.
  intros [Ht Hr Hh Hx] Hroom. unfold process_frame.
  destruct (validate_frame frame (en_tracker e)) as [[]|error] eqn:Hv; last first.
  { unfold tracker_update. rewrite Hv. cbn. exists e, (Err (EngineTracker error)).
    destruct e as [t r]. cbn in *. split; [done|]. split; [by split|].
    split; [by apply later_same_tracks|]. split; [done|]. split; [by left|]. split; [|done].
    intros k. destruct (at_tracks t !! k) eqn:Hk; [done|]. cbn. apply eq_None_not_Some.
    intros Hsome%Hx. rewrite Hk in Hsome. by destruct Hsome. }
  destruct (update_ok _ _ Ht Hv Hroom) as (t'&u&->&Hex&Ht'). cbn [mbind option_bind].
  pose proof (update_exact_later _ _ _ _ Ht Hex) as Hlater.
  set (r1 := fold_left retire_event (tu_events u) (en_resolver e)).
  destruct (retire_events_spec (tu_events u) (en_resolver e)) as ([Hc1 Hg1]&Hh1&Hx1). fold r1 in Hc1, Hg1, Hh1, Hx1.
  pose proof (retire_events_inv (tu_events u) (en_resolver e) Hr) as Hr1. fold r1 in Hr1.
  assert (∀ k, k ∉ omap retired_id (tu_events u) → is_Some (at_tracks (en_tracker e) !! k) →
    is_Some (at_tracks t' !! k)) as Hstay.
  { intros k Hk Hsome. rewrite (ue_retired _ _ _ _ Hex) in Hk.
    destruct (at_tracks t' !! k) eqn:E; [by eexists|]. by destruct Hk. }
  set (observations := fold_left _ (tu_observations u) ∅).
  destruct (ue_report _ _ _ _ Hex) as (_&Hsnap&_).
  assert (∀ k emb, observations !! k = Some (Some emb) →
    ∃ d, d ∈ fr_detections frame ∧ dt_embedding d = Some emb) as Hobs.
  { intros k emb [Hk|(o&Ho&_&He)]%observations_map; [by rewrite lookup_empty in Hk|].
    destruct (ue_seen _ _ _ _ Hex _ Ho) as (d&_&Hd&He'&_). exists d.
    split; [by eapply list_elem_of_lookup_2|congruence]. }
  destruct (identify_actors observations (tu_tracks u) r1 []) as [r2 res] eqn:Hid.
  apply identify_actors_ok in Hid as (Hr2&[Hc2 Hg2]&Hx2&Hdom&Hres); [|done|]; last first.
  { intros k emb (d&Hd&He)%Hobs. unfold validate_frame in Hv. rewrite !bind_unit_Ok in Hv.
    destruct Hv as (_&_&Hv). by eapply detections_validate_embeddings. }
  assert (∀ k, rs_explicit_assignments r2 !! k = if is_some (at_tracks t' !! k)
    then rs_explicit_assignments (en_resolver e) !! k else None) as Hexp.
  { intros k. rewrite Hx2, Hx1. case_bool_decide as Hin.
    - apply (ue_retired _ _ _ _ Hex) in Hin as [_ ->]. done.
    - destruct (at_tracks t' !! k) eqn:E; [done|]. cbn. apply eq_None_not_Some.
      intros Hsome%Hx%Hstay; [|done]. rewrite E in Hsome. by destruct Hsome. }
  assert (engine_inv {| en_tracker := t'; en_resolver := r2 |}) as Hinv'.
  { split; [done|done| |]; cbn.
    - intros k [Hk|Hk]%Hdom.
      + rewrite Hh1 in Hk. case_bool_decide; [by destruct Hk|]. apply Hstay; [done|by apply Hh].
      + rewrite Hsnap in Hk. apply snapshot_ids in Hk; [done|apply Ht'].
    - intros k Hk. rewrite Hexp in Hk. by destruct (at_tracks t' !! k); [|destruct Hk]. }
  destruct res as [actors|error].
  - eexists _, _. split; [done|]. split; [done|]. split; [done|]. split; [split; cbn; congruence|].
    split; [right; apply Hex|]. split; [done|]. destruct Hres as (new&->&Htracks&Hall). cbn. rewrite Htracks. split; [done|].
    eapply Forall_impl; [exact Hall|]. intros a [Hk Hs]. split; [by rewrite Hg2|by rewrite Hx2].
  - eexists _, _. split; [done|]. split; [done|]. split; [done|]. split; [split; cbn; congruence|].
    split; [right; apply Hex|]. split; [done|]. destruct Hres as (->&k&emb&(d&Hd&He)%Hobs&Hne). split; [done|].
    exists d, emb. by rewrite Hg1 in Hne.
Qed.

(** Every frame the engine is given either is refused with nothing changed, or every
    followed actor is reported in order with an identity that names a subject of the
    gallery only, and the assigned subject where the player assigned one, on screen and
    off; the only other error is an embedding of another model. What the engine knows is
    about followed tracks alone, before and after. *)
Theorem engine_frame_sound e frame :
  engine_inv e → room (en_tracker e) frame →
  ∃ e' res, process_frame frame e = Some (e', res) ∧ engine_inv e' ∧
    match res with
    | Ok u =>
        ai_track <$> fu_actors u = tracker_snapshot (en_tracker e') ∧
        Forall (λ a, identity_good (en_resolver e') (sn_track_id (ai_track a)) (ai_identity a))
          (fu_actors u)
    | Err NoSelectedActor => False
    | Err (EngineTracker error) => e' = e ∧ validate_frame frame (en_tracker e) = Err error
    | Err (EngineIdentity error) => error = IncompatibleObservationModel ∧
        ∃ d emb, d ∈ fr_detections frame ∧ dt_embedding d = Some emb ∧
          ne_model emb ≠ ig_model (rs_gallery (en_resolver e))
    end.
Proof using.
  intros Hinv Hroom. destruct (process_frame_ok e frame Hinv Hroom) as (e'&res&Hrun&Hinv'&_&_&_&_&Hres).
  eauto 6.
Qed.

(** ** Runs of the engine *)

Inductive engine_op :=
| EoSelect (track_id : Z)
| EoClearSelection
| EoAssign (track_id : Z) (subject_id : str)
| EoAssignSelected (subject_id : str)
| EoClearAssignment (track_id : Z)
| EoFrame (frame : FrameActorsV1).

(** The engine after a call that may be refused. *)
Definition or_same (e : ActorIdentityEngineV1) (res : result EngineError ActorIdentityEngineV1)
    : ActorIdentityEngineV1 := match res with Ok e' => e' | Err _ => e end.

Inductive engine_step (e : ActorIdentityEngineV1) : engine_op → ActorIdentityEngineV1 → Prop :=
| estep_select k : engine_step e (EoSelect k) (or_same e (engine_select_actor k e))
| estep_clear : engine_step e EoClearSelection (engine_clear_selection e)
| estep_assign k s : engine_step e (EoAssign k s) (or_same e (assign_subject k s e))
| estep_assign_selected s :
    engine_step e (EoAssignSelected s) (or_same e (assign_selected_subject s e))
| estep_clear_assignment k : engine_step e (EoClearAssignment k) (clear_subject_assignment k e)
| estep_frame frame e' res : room (en_tracker e) frame →
    process_frame frame e = Some (e', res) → engine_step e (EoFrame frame) e'.

Inductive engine_run (e : ActorIdentityEngineV1) : list engine_op → ActorIdentityEngineV1 → Prop :=
| erun_nil : engine_run e [] e
| erun_snoc ops op e1 e2 : engine_run e ops e1 → engine_step e1 op e2 →
    engine_run e (ops ++ [op]) e2.

(** A call that is not about the assignment of the track [k]. *)
Definition spares (k : Z) (op : engine_op) : Prop :=
  match op with
  | EoAssign k' _ | EoClearAssignment k' => k' ≠ k
  | EoAssignSelected _ => False
  | _ => True
  end.

Lemma set_explicit_inv r m :
  resolver_inv r → map_Forall (λ _ s, known (rs_gallery r) s) m → resolver_inv (set_explicit m r).
Proof using.
  intros [?????] Hm. split; try done. cbn. eapply map_Forall_impl; [done|].
  intros k h. by apply history_ok_setup.
Qed.

Lemma assign_explicit_inv e k s r :
  engine_inv e → is_Some (at_tracks (en_tracker e) !! k) →
  assign_explicit k s (en_resolver e) = Ok r →
  engine_inv {| en_tracker := en_tracker e; en_resolver := r |} ∧
  rs_explicit_assignments r = <[k := s]> (rs_explicit_assignments (en_resolver e)).
Proof using.
  intros [????] Hk Ha. unfold assign_explicit in Ha. destruct (contains_subject _ s) eqn:Hs; [|done].
  injection Ha as <-. split; [|done]. split; try done; cbn.
  - apply set_explicit_inv; [done|]. by apply map_Forall_insert_2; [|apply ri_explicit].
  - intros k' Hk'. rewrite lookup_insert_is_Some' in Hk'. destruct Hk' as [<-|]; [done|by apply ei_explicit0].
Qed.

(** One call: the invariant, the tracks, and the assignment of a track the call spares. *)
Lemma engine_step_ok e op e' k : engine_inv e → engine_step e op e' →
  engine_inv e' ∧ later (en_tracker e) (en_tracker e') ∧
  (spares k op → rs_explicit_assignments (en_resolver e') !! k =
     if is_some (at_tracks (en_tracker e') !! k)
     then rs_explicit_assignments (en_resolver e) !! k else None).
Proof using.
  intros Hinv Hstep. pose proof Hinv as [Ht Hr Hh Hx].
  assert (rs_explicit_assignments (en_resolver e) !! k =
    if is_some (at_tracks (en_tracker e) !! k)
    then rs_explicit_assignments (en_resolver e) !! k else None) as Hsame.
  { destruct (at_tracks (en_tracker e) !! k) eqn:E; [done|]. cbn. apply eq_None_not_Some.
    intros Hs%Hx. rewrite E in Hs. by destruct Hs. }
  destruct Hstep as [k0| |k0 s|s|k0|frame e' res Hroom Hrun].
  - unfold or_same, engine_select_actor.
    destruct (select_actor k0 (en_tracker e)) as [t|] eqn:Es; cbn; [|by split; [|split; [apply later_same_tracks|]]].
    pose proof (select_inv _ _ _ Ht Es). unfold select_actor in Es. destruct (negb _); [done|].
    injection Es as <-. split; [by split|]. by split; [apply later_same_tracks|].
  - cbn. split; [split; try done; by apply clear_selection_inv|]. by split; [apply later_same_tracks|].
  - unfold or_same, assign_subject. destruct (negb (existsb _ _)) eqn:Ek; cbn.
    { by split; [|split; [apply later_same_tracks|]]. }
    destruct (assign_explicit k0 s (en_resolver e)) as [r|] eqn:Ea; cbn;
      [|by split; [|split; [apply later_same_tracks|]]].
    apply assign_explicit_inv in Ea as [Hinv' Hr']; [|done|].
    + split; [done|]. split; [by apply later_same_tracks|]. intros Hne. rewrite Hr'.
      by rewrite lookup_insert_ne.
    + apply negb_false_iff, existsb_exists in Ek as (track&Hin&Heq%Z.eqb_eq).
      rewrite <-(snapshot_ids (en_tracker e)) by apply Ht. apply list_elem_of_fmap.
      exists track. split; [done|]. by apply list_elem_of_In.
  - unfold or_same, assign_selected_subject.
    destruct (at_selected_track_id (en_tracker e)) as [k0|] eqn:Ek; cbn;
      [|by split; [|split; [apply later_same_tracks|]]].
    destruct (assign_explicit k0 s (en_resolver e)) as [r|] eqn:Ea; cbn;
      [|by split; [|split; [apply later_same_tracks|]]].
    apply assign_explicit_inv in Ea as [Hinv' Hr']; [|done|by apply (ti_selected _ Ht)].
    split; [done|]. split; [by apply later_same_tracks|done].
  - cbn. split; [|split; [by apply later_same_tracks|]].
    + split; try done; cbn.
      * apply set_explicit_inv; [done|]. apply map_Forall_delete, Hr.
      * intros k' [s Hs]. apply lookup_delete_Some in Hs as [_ Hs]. apply Hx. by eexists.
    + intros Hne. by rewrite lookup_delete_ne.
  - destruct (process_frame_ok e frame Hinv Hroom) as (e2&res2&Hrun2&?&?&_&_&Hexp&_).
    rewrite Hrun in Hrun2. injection Hrun2 as <- _. by split; [|split].
Qed.

Lemma engine_new_inv config g r tconfig t :
  0 ≤ ic_consensus_window_frames config → resolver_new config g = Ok r → actor_tracker_new tconfig = Ok t →
  engine_inv {| en_tracker := t; en_resolver := r |}.
Proof using.
  intros Hw Hr Ht. split; [by eapply actor_tracker_new_inv|by eapply resolver_new_inv| |]; cbn.
  - unfold resolver_new in Hr. rewrite !bind_unit_Ok in Hr. destruct Hr as (_&_&[= <-]).
    intros k. cbn. rewrite lookup_empty. by intros [].
  - unfold resolver_new in Hr. rewrite !bind_unit_Ok in Hr. destruct Hr as (_&_&[= <-]).
    intros k. cbn. rewrite lookup_empty. by intros [].
Qed.

(** An explicit assignment lasts exactly as long as its track, whatever frames come
    and whatever else is selected, assigned or cleared, until it is itself changed; and
    when the track is gone, nothing of it is left under its number, forever. *)
Theorem assignment_lasts e k s ops e' :
  engine_inv e → rs_explicit_assignments (en_resolver e) !! k = Some s →
  engine_run e ops e' → Forall (spares k) ops →
  engine_inv e' ∧
  rs_explicit_assignments (en_resolver e') !! k =
    (if is_some (at_tracks (en_tracker e') !! k) then Some s else None) ∧
  (at_tracks (en_tracker e') !! k = None → rs_histories (en_resolver e') !! k = None).
Proof using.
  intros Hinv Hs Hrun Hsp.
  assert (is_Some (at_tracks (en_tracker e) !! k)) as [t0 Ht0] by (apply ei_explicit; [done|by eexists]).
  destruct (ti_tracks _ (ei_tracker _ Hinv) _ _ Ht0) as (_&Hk&_).
  assert (engine_inv e' ∧ later (en_tracker e) (en_tracker e') ∧
    rs_explicit_assignments (en_resolver e') !! k =
      (if is_some (at_tracks (en_tracker e') !! k) then Some s else None)) as (Hinv'&_&Hexp).
  { induction Hrun as [|ops op e1 e2 _ IH Hstep].
    - split; [done|]. split; [by apply later_same_tracks|]. by rewrite Ht0.
    - apply Forall_app in Hsp as [Hsp Hop%Forall_inv]. destruct (IH Hsp) as (Hinv1&Hl1&Hexp1).
      destruct (engine_step_ok _ _ _ k Hinv1 Hstep) as (Hinv2&Hl2&Hexp2).
      split; [done|]. split; [eapply later_trans; [apply Hinv|done..]|].
      rewrite Hexp2, Hexp1 by done. destruct (at_tracks (en_tracker e2) !! k) as [t2|] eqn:E2; [|done].
      destruct (at_tracks (en_tracker e1) !! k) eqn:E1; [done|].
      rewrite (la_gone _ _ Hl2) in E2; [done| |done]. pose proof (la_next _ _ Hl1). lia. }
  split; [done|]. split; [done|]. intros Hgone. apply eq_None_not_Some.
  intros Hh%(ei_histories _ Hinv'). rewrite Hgone in Hh. by destruct Hh.
Qed.
End resolver.
