(* ===== verification/Qualified.v ===== *)
(** * Identity engine: imported references and trusted frames
    ([crates/identity-engine/src/qualified.rs])

    A gallery pinned to one qualified model, into which references are imported from raw
    tensors, and the adapter that lets only authenticated capture frames reach the
    engine. Both change in place and may fail. *)

From S2P Require Import Prelude Text Bytes Float Identity Tracker Resolver.

#[local] Open Scope Z_scope.

Definition QUALIFIED_IDENTITY_SCHEMA_VERSION : Z := 1.
Definition MAX_REFERENCE_DIMENSIONS : Z := 65536.
Definition MAX_FRAME_OBSERVATIONS : Z := 128.

Inductive ReferenceSourceClassV1 := UserPrivate | OriginalSynthetic.
Inductive PortableTensorTransportV1 := F32Le.

Record PinnedIdentityQualificationV1 := {
  pq_qualification_id : str;
  pq_model : EmbeddingModelV1;
  pq_detector_id : str;
  pq_detector_revision : str;
  pq_preprocessing : str;
  pq_calibration_fixture_sha256 : str;
  pq_calibrated_config : IdentityConfigV1
}.

Record QualifiedReferenceProvenanceV1 := {
  qp_game_profile_id : str;
  qp_subject_id : str;
  qp_reference_id : str;
  qp_source_class : ReferenceSourceClassV1;
  qp_source_content_sha256 : str;
  qp_owner_user_id : option str;
  qp_original_work_license : option str;
  qp_explicit_user_consent : bool;
  qp_local_only : bool;
  qp_imported_at_ms : Z
}.

Record PortableReferenceImportV1 := {
  pi_schema_version : Z;
  pi_provenance : QualifiedReferenceProvenanceV1;
  pi_subject_display_name : str;
  pi_model : EmbeddingModelV1;
  pi_metadata : EmbeddingMetadataV1;
  pi_transport : PortableTensorTransportV1;
  pi_tensor_sha256 : str;
  pi_tensor_f32le : list Z
}.

Record QualifiedIdentityGalleryV1 := {
  qg_schema_version : Z;
  qg_game_profile_id : str;
  qg_qualification : PinnedIdentityQualificationV1;
  qg_gallery : IdentityGalleryV1;
  qg_reference_provenance : gmap str QualifiedReferenceProvenanceV1
}.

Inductive QualifiedIdentityError :=
| InvalidQualification
| InvalidGallerySchema
| InvalidGameScope
| InvalidReferenceProvenance
| InvalidPortableTensor
| SourceDigestMismatch
| DuplicateReference
| SubjectDisplayNameMismatch
| MissingReferenceProvenance
| ModelNotPinned
| InvalidCaptureTarget
| UntrustedCaptureEvidence
| CaptureGenerationChanged
| UnqualifiedObservation
| QualifiedEmbedding (error : EmbeddingError)
| QualifiedIdentity (error : IdentityError)
| QualifiedGeometry (error : GeometryError)
| QualifiedEngine (error : EngineError).

Definition valid_identifier (value : str) : bool :=
  negb (str_is_empty value) && (str_len value <=? 256) && forallb is_identifier_char value.

Definition is_lower_hexdigit (c : char) : bool := is_ascii_digit c || ((97 <=? c) && (c <=? 102)).

Definition valid_sha256 (value : str) : bool :=
  (str_len value =? 64) && forallb is_lower_hexdigit value.

Definition sha256_hex `{TrackerApi} (bytes : list Z) : str := hex_bytes (sha256 bytes).

Definition qualification_validate (q : PinnedIdentityQualificationV1)
    : result QualifiedIdentityError unit :=
  _ ← map_err QualifiedEmbedding (model_validate (pq_model q));
  _ ← map_err QualifiedIdentity (identity_config_validate (pq_calibrated_config q));
  if negb (valid_identifier (pq_qualification_id q)) || is_blank (pq_detector_id q)
     || is_blank (pq_detector_revision q) || is_blank (pq_preprocessing q)
     || negb (valid_sha256 (pq_calibration_fixture_sha256 q))
  then Err InvalidQualification else Ok tt.

Definition provenance_validate (game_profile_id : str) (p : QualifiedReferenceProvenanceV1)
    : result QualifiedIdentityError unit :=
  if bool_decide (qp_game_profile_id p ≠ game_profile_id)
     || negb (valid_identifier (qp_game_profile_id p)) || negb (valid_identifier (qp_subject_id p))
     || negb (valid_identifier (qp_reference_id p)) || negb (valid_sha256 (qp_source_content_sha256 p))
  then Err InvalidReferenceProvenance else
  match qp_source_class p with
  | UserPrivate =>
      if negb (qp_explicit_user_consent p) || negb (qp_local_only p)
         || is_none_or (qp_owner_user_id p) (λ owner, negb (valid_identifier owner))
         || is_some (qp_original_work_license p)
      then Err InvalidReferenceProvenance else Ok tt
  | OriginalSynthetic =>
      if negb (qp_local_only p) || is_some (qp_owner_user_id p)
         || is_none_or (qp_original_work_license p) is_blank
      then Err InvalidReferenceProvenance else Ok tt
  end.

(** ** The gallery *)

Definition qualified_gallery_new (game_profile_id : str) (q : PinnedIdentityQualificationV1)
    : result QualifiedIdentityError QualifiedIdentityGalleryV1 :=
  if negb (valid_identifier game_profile_id) then Err InvalidGameScope else
  _ ← qualification_validate q;
  gallery ← map_err QualifiedIdentity (gallery_new (pq_model q));
  Ok {| qg_schema_version := QUALIFIED_IDENTITY_SCHEMA_VERSION; qg_game_profile_id := game_profile_id;
        qg_qualification := q; qg_gallery := gallery; qg_reference_provenance := ∅ |}.

(** The loop over all references: each must have a provenance of its own subject. *)
Fixpoint references_provenance (g : QualifiedIdentityGalleryV1) (subject_id : str)
    (references : list IdentityReferenceV1) (ids : gset str)
    : result QualifiedIdentityError (gset str) :=
  match references with
  | [] => Ok ids
  | reference :: references =>
      provenance ← ok_or (qg_reference_provenance g !! ir_reference_id reference)
        MissingReferenceProvenance;
      _ ← provenance_validate (qg_game_profile_id g) provenance;
      if bool_decide (qp_subject_id provenance ≠ subject_id) then Err InvalidReferenceProvenance else
      references_provenance g subject_id references ({[ir_reference_id reference]} ∪ ids)
  end.

Fixpoint subjects_provenance (g : QualifiedIdentityGalleryV1) (subjects : list SubjectIdentityV1)
    (ids : gset str) : result QualifiedIdentityError (gset str) :=
  match subjects with
  | [] => Ok ids
  | subject :: subjects =>
      ids ← references_provenance g (sj_subject_id subject) (sj_references subject) ids;
      subjects_provenance g subjects ids
  end.

Definition qualified_validate (g : QualifiedIdentityGalleryV1) : result QualifiedIdentityError unit :=
  if negb (qg_schema_version g =? QUALIFIED_IDENTITY_SCHEMA_VERSION)
     || negb (valid_identifier (qg_game_profile_id g))
  then Err InvalidGallerySchema else
  _ ← qualification_validate (qg_qualification g);
  _ ← map_err QualifiedIdentity (gallery_validate (qg_gallery g));
  if bool_decide (ig_model (qg_gallery g) ≠ pq_model (qg_qualification g)) then Err ModelNotPinned else
  gallery_reference_ids ← subjects_provenance g (btree_iter (ig_subjects (qg_gallery g))).*2 ∅;
  if negb (Nat.eqb (size gallery_reference_ids) (size (qg_reference_provenance g)))
     || existsb (λ id, negb (bool_decide (id ∈ gallery_reference_ids)))
          (btree_keys (qg_reference_provenance g))
  then Err MissingReferenceProvenance else Ok tt.

(** [chunks_exact(4)] and [f32::from_le_bytes]. *)
Fixpoint tensor_values (bytes : list Z) : list f32 :=
  match bytes with
  | a :: b :: c :: d :: bytes => f32_from_bits (le_value [a; b; c; d]) :: tensor_values bytes
  | _ => []
  end.

Definition sat_mul_usize (x y : Z) : Z := Z.min (x * y) u64_max.

Definition source_class_text (c : ReferenceSourceClassV1) : str :=
  match c with UserPrivate => lit "user_private" | OriginalSynthetic => lit "original_synthetic" end.

Definition set_gallery (gallery : IdentityGalleryV1)
    (provenance : gmap str QualifiedReferenceProvenanceV1) (g : QualifiedIdentityGalleryV1)
    : QualifiedIdentityGalleryV1 := {|
  qg_schema_version := qg_schema_version g; qg_game_profile_id := qg_game_profile_id g;
  qg_qualification := qg_qualification g; qg_gallery := gallery;
  qg_reference_provenance := provenance |}.

Definition import_checks `{TrackerApi} (i : PortableReferenceImportV1) (g : QualifiedIdentityGalleryV1)
    : result QualifiedIdentityError unit :=
  let q := qg_qualification g in
  if negb (pi_schema_version i =? QUALIFIED_IDENTITY_SCHEMA_VERSION)
     || bool_decide (pi_model i ≠ pq_model q)
     || bool_decide (xd_detector_id (pi_metadata i) ≠ pq_detector_id q)
     || bool_decide (xd_detector_revision (pi_metadata i) ≠ pq_detector_revision q)
     || bool_decide (xd_preprocessing (pi_metadata i) ≠ pq_preprocessing q)
     || negb (valid_sha256 (pi_tensor_sha256 i))
     || bool_decide (sha256_hex (pi_tensor_f32le i) ≠ pi_tensor_sha256 i)
     || negb (Z.of_nat (length (pi_tensor_f32le i)) =? sat_mul_usize (xm_dimensions (pi_model i)) 4)
     || (MAX_REFERENCE_DIMENSIONS <? xm_dimensions (pi_model i))
     || is_blank (pi_subject_display_name i) || (256 <? str_len (pi_subject_display_name i))
  then Err InvalidPortableTensor else
  _ ← provenance_validate (qg_game_profile_id g) (pi_provenance i);
  if bool_decide (xd_source_digest_sha256 (pi_metadata i)
       ≠ Some (qp_source_content_sha256 (pi_provenance i)))
  then Err SourceDigestMismatch else
  if is_some (qg_reference_provenance g !! qp_reference_id (pi_provenance i))
  then Err DuplicateReference else Ok tt.

Definition import_reference `{TrackerApi} (i : PortableReferenceImportV1)
    (g : QualifiedIdentityGalleryV1)
    : QualifiedIdentityGalleryV1 * result QualifiedIdentityError unit :=
  match (_ ← qualified_validate g; import_checks i g) with
  | Err error => (g, Err error)
  | Ok _ =>
  match embedding_new (pi_model i) (pi_metadata i) (tensor_values (pi_tensor_f32le i)) with
  | Err error => (g, Err (QualifiedEmbedding error))
  | Ok embedding =>
  let p := pi_provenance i in
  let reference := {|
    ir_reference_id := qp_reference_id p;
    ir_provenance := lit "qualified:" ++ pq_qualification_id (qg_qualification g) ++ lit ":"
      ++ source_class_text (qp_source_class p);
    ir_embedding := embedding |} in
  let subjects := ig_subjects (qg_gallery g) in
  let put subject := set_gallery
    (set_subjects (<[qp_subject_id p := subject]> subjects) (qg_gallery g))
    (<[qp_reference_id p := p]> (qg_reference_provenance g)) g in
  match subjects !! qp_subject_id p with
  | None =>
      let g := put {| sj_subject_id := qp_subject_id p;
        sj_display_name := pi_subject_display_name i; sj_references := [reference] |} in
      (g, qualified_validate g)
  | Some subject =>
      if bool_decide (sj_display_name subject ≠ pi_subject_display_name i)
      then (g, Err SubjectDisplayNameMismatch) else
      let g := put {| sj_subject_id := sj_subject_id subject;
        sj_display_name := sj_display_name subject;
        sj_references := sj_references subject ++ [reference] |} in
      (g, qualified_validate g)
  end end end.

Definition into_engine (tracker : ActorTrackerV1) (g : QualifiedIdentityGalleryV1)
    : result QualifiedIdentityError ActorIdentityEngineV1 :=
  _ ← qualified_validate g;
  resolver ← map_err QualifiedIdentity
    (resolver_new (pq_calibrated_config (qg_qualification g)) (qg_gallery g));
  Ok {| en_tracker := tracker; en_resolver := resolver |}.

(** ** Trusted frames *)

Record TrustedCaptureTargetV1 := {
  ct_capture_session_id : str;
  ct_process_id : Z;
  ct_window_handle : Z;
  ct_executable_name : str
}.
#[export] Instance TrustedCaptureTargetV1_eq_dec : EqDecision TrustedCaptureTargetV1.
Proof. solve_decision. Defined.

(** [ends_with] of a text. *)
Definition str_ends_with (suffix s : str) : bool :=
  str_eqb (drop (length s - length suffix) s) suffix && Nat.leb (length suffix) (length s).

Definition target_validate (t : TrustedCaptureTargetV1) : result QualifiedIdentityError unit :=
  if negb (valid_identifier (ct_capture_session_id t)) || (ct_process_id t =? 0)
     || (ct_window_handle t =? 0)
     || negb (str_ends_with (lit ".exe") (to_ascii_lowercase <$> ct_executable_name t))
     || existsb (λ c, (c =? 47) || (c =? 92) || (c =? 58)) (ct_executable_name t)
  then Err InvalidCaptureTarget else Ok tt.

Record TrustedWgcIdentityFrameV1 := {
  wf_schema_version : Z;
  wf_target : TrustedCaptureTargetV1;
  wf_frame_sequence : Z;
  wf_device_generation : Z;
  wf_geometry_epoch : Z;
  wf_source_frame_qpc : Z;
  wf_qpc_frequency : Z;
  wf_captured_at_ms : Z;
  wf_content_sha256 : str;
  wf_advancing_frame_verified : bool;
  wf_overlay_capture_excluded : bool;
  wf_protected_online_detected : bool;
  wf_anti_cheat_detected : bool;
  wf_observations : list ActorDetectionV1
}.

Record TrustedWgcEvidenceAdapterV1 := {
  wa_expected_target : TrustedCaptureTargetV1;
  wa_qualification : PinnedIdentityQualificationV1;
  wa_last_frame_sequence : option Z;
  wa_last_source_frame_qpc : option Z;
  wa_device_generation : option Z;
  wa_geometry_epoch : option Z
}.

Definition evidence_adapter_new (target : TrustedCaptureTargetV1) (q : PinnedIdentityQualificationV1)
    : result QualifiedIdentityError TrustedWgcEvidenceAdapterV1 :=
  _ ← target_validate target;
  _ ← qualification_validate q;
  Ok {| wa_expected_target := target; wa_qualification := q; wa_last_frame_sequence := None;
        wa_last_source_frame_qpc := None; wa_device_generation := None; wa_geometry_epoch := None |}.

(** One observation: from the pinned model, of this very frame. *)
Definition observation_checks (f : TrustedWgcIdentityFrameV1) (q : PinnedIdentityQualificationV1)
    (o : ActorDetectionV1) : result QualifiedIdentityError unit :=
  _ ← map_err QualifiedGeometry (box_validate (dt_bounds o));
  if negb (is_finite (dt_confidence o)) || negb (range_contains f_zero f32_one (dt_confidence o))
     || is_some_and (dt_embedding o) (λ e, bool_decide (ne_model e ≠ pq_model q))
  then Err UnqualifiedObservation else
  match dt_embedding o with
  | None => Ok tt
  | Some e =>
      _ ← map_err QualifiedEmbedding (embedding_validate e);
      let d := ne_metadata e in
      if negb (xd_source_frame_index d =? wf_frame_sequence f)
         || bool_decide (xd_detector_id d ≠ pq_detector_id q)
         || bool_decide (xd_detector_revision d ≠ pq_detector_revision q)
         || bool_decide (xd_preprocessing d ≠ pq_preprocessing q)
         || bool_decide (xd_source_digest_sha256 d ≠ Some (wf_content_sha256 f))
      then Err UnqualifiedObservation else Ok tt
  end.

Definition adapt (f : TrustedWgcIdentityFrameV1) (w : TrustedWgcEvidenceAdapterV1)
    : TrustedWgcEvidenceAdapterV1 * result QualifiedIdentityError FrameActorsV1 :=
  match (
    _ ← target_validate (wf_target f);
    if negb (wf_schema_version f =? QUALIFIED_IDENTITY_SCHEMA_VERSION)
       || bool_decide (wf_target f ≠ wa_expected_target w)
       || (wf_frame_sequence f =? 0) || (wf_device_generation f =? 0) || (wf_geometry_epoch f =? 0)
       || (wf_source_frame_qpc f =? 0) || (wf_qpc_frequency f =? 0)
       || negb (valid_sha256 (wf_content_sha256 f))
       || negb (wf_advancing_frame_verified f) || negb (wf_overlay_capture_excluded f)
       || wf_protected_online_detected f || wf_anti_cheat_detected f
       || (MAX_FRAME_OBSERVATIONS <? Z.of_nat (length (wf_observations f)))
       || is_some_and (wa_last_frame_sequence w) (λ last_, wf_frame_sequence f <=? last_)
       || is_some_and (wa_last_source_frame_qpc w) (λ last_, wf_source_frame_qpc f <=? last_)
    then Err UntrustedCaptureEvidence else
    if is_some_and (wa_device_generation w) (λ generation,
         negb (generation =? wf_device_generation f)
         && is_some_and (wa_last_frame_sequence w) (λ sequence, negb (sequence =? 0)))
    then Err CaptureGenerationChanged else
    if is_some_and (wa_geometry_epoch w) (λ epoch, wf_geometry_epoch f <? epoch)
    then Err UntrustedCaptureEvidence else
    check_all (observation_checks f (wa_qualification w)) (wf_observations f)) with
  | Err error => (w, Err error)
  | Ok _ =>
      ({| wa_expected_target := wa_expected_target w; wa_qualification := wa_qualification w;
          wa_last_frame_sequence := Some (wf_frame_sequence f);
          wa_last_source_frame_qpc := Some (wf_source_frame_qpc f);
          wa_device_generation := Some (wf_device_generation f);
          wa_geometry_epoch := Some (wf_geometry_epoch f) |},
       Ok {| fr_frame_index := wf_frame_sequence f; fr_timestamp_ms := wf_captured_at_ms f;
             fr_detections := wf_observations f |})
  end.

Definition process_trusted `{TrackerApi} (f : TrustedWgcIdentityFrameV1)
    (w : TrustedWgcEvidenceAdapterV1) (e : ActorIdentityEngineV1)
    : option (TrustedWgcEvidenceAdapterV1 * ActorIdentityEngineV1 *
              result QualifiedIdentityError FrameIdentityUpdateV1) :=
  match adapt f w with
  | (w, Err error) => Some (w, e, Err error)
  | (w, Ok frame) =>
      processed ← process_frame frame e;
      Some (w, processed.1, map_err QualifiedEngine processed.2)
  end.
