(* ===== verification/QualifiedSpec.v ===== *)
(** * What imported references and trusted frames are worth

    An import is all or nothing and keeps the gallery valid, with a provenance for every
    reference; and the frames the adapter lets through only go forward, so the engine
    behind it is never fed twice or backwards. *)

From S2P Require Import Prelude Text Bytes Float Identity Tracker TrackerFacts TrackerSpec Resolver ResolverSpec Qualified.

#[local] Open Scope Z_scope.

Section qualified.
Context `{TrackerApi}.
Implicit Types (g : QualifiedIdentityGalleryV1) (i : PortableReferenceImportV1).

(** ** What the validation of a gallery means *)

Definition provenance_ok g (subject_id : str) (r : IdentityReferenceV1) : Prop :=
  ∃ p, qg_reference_provenance g !! ir_reference_id r = Some p ∧
    provenance_validate (qg_game_profile_id g) p = Ok tt ∧ qp_subject_id p = subject_id.

Definition ids_of (references : list IdentityReferenceV1) : gset str :=
  list_to_set (ir_reference_id <$> references).

Lemma references_provenance_Ok g subject_id references : ∀ ids ids',
  references_provenance g subject_id references ids = Ok ids' ↔
  Forall (provenance_ok g subject_id) references ∧ ids' = ids_of references ∪ ids.
Proof using.
  induction references as [|r references IH]; intros ids ids'; cbn [references_provenance].
  { unfold ids_of. cbn. rewrite union_empty_l_L. split; [intros [= <-]; by split|]. by intros [_ ->]. }
  assert (ids_of (r :: references) ∪ ids = ids_of references ∪ ({[ir_reference_id r]} ∪ ids)) as HX.
  { unfold ids_of. rewrite fmap_cons. cbn [list_to_set]. set_solver. }
  rewrite HX, Forall_cons. split.
  - rewrite bind_ok_or. intros (p&Hp&Hr). apply bind_unit_Ok in Hr as [Hv Hr].
    apply if_err_Ok in Hr as [Hs Hr]. apply bool_decide_eq_false, not_ne_iff in Hs.
    apply IH in Hr as [Hall Heq]. split; [split; [by exists p|done]|done].
  - intros [[(p&->&Hv&Hs) Hall] Heq]. cbn [ok_or mbind result_bind]. rewrite Hv.
    cbn [mbind result_bind]. rewrite bool_decide_eq_false_2 by by rewrite not_ne_iff.
    by apply IH.
Qed.

Definition subjects_ids (subjects : list SubjectIdentityV1) : gset str :=
  ids_of (subjects ≫= sj_references).

Lemma subjects_provenance_Ok g subjects : ∀ ids ids',
  subjects_provenance g subjects ids = Ok ids' ↔
  Forall (λ s, Forall (provenance_ok g (sj_subject_id s)) (sj_references s)) subjects ∧
  ids' = subjects_ids subjects ∪ ids.
Proof using.
  unfold subjects_ids. induction subjects as [|s subjects IH]; intros ids ids'; cbn [subjects_provenance].
  { unfold ids_of. cbn. rewrite union_empty_l_L. split; [intros [= <-]; by split|]. by intros [_ ->]. }
  assert (ids_of ((s :: subjects) ≫= sj_references) ∪ ids =
    ids_of (subjects ≫= sj_references) ∪ (ids_of (sj_references s) ∪ ids)) as HX.
  { unfold ids_of. rewrite bind_cons, fmap_app, list_to_set_app_L. set_solver. }
  rewrite HX, Forall_cons, bind_Ok. split.
  - intros (ids1&[Hs ->]%references_provenance_Ok&[Hall ->]%IH). by split.
  - intros [[Hs Hall] ->]. eexists. split; [by apply references_provenance_Ok|by apply IH].
Qed.

Record qualified_ok g : Prop := {
  qo_schema : qg_schema_version g = QUALIFIED_IDENTITY_SCHEMA_VERSION;
  qo_scope : valid_identifier (qg_game_profile_id g) = true;
  qo_qualification : qualification_validate (qg_qualification g) = Ok tt;
  qo_gallery : gallery_ok (qg_gallery g);
  qo_model : ig_model (qg_gallery g) = pq_model (qg_qualification g);
  qo_provenance : ∀ k s r, ig_subjects (qg_gallery g) !! k = Some s → r ∈ sj_references s →
    provenance_ok g (sj_subject_id s) r;
  qo_orphans : ∀ id, is_Some (qg_reference_provenance g !! id) → ∃ k s r,
    ig_subjects (qg_gallery g) !! k = Some s ∧ r ∈ sj_references s ∧ ir_reference_id r = id
}.

Lemma gallery_ids_elem g id :
  id ∈ subjects_ids (btree_iter (ig_subjects (qg_gallery g))).*2 ↔ ∃ k s r,
    ig_subjects (qg_gallery g) !! k = Some s ∧ r ∈ sj_references s ∧ ir_reference_id r = id.
Proof using.
  unfold subjects_ids, ids_of. rewrite elem_of_list_to_set, list_elem_of_fmap.
  setoid_rewrite list_elem_of_bind. split.
  - intros (r&->&s&Hr&Hs). apply list_elem_of_fmap in Hs as ([k s']&->&Hs%btree_iter_elem). by eauto 6.
  - intros (k&s&r&Hs&Hr&<-). exists r. split; [done|]. exists s. split; [done|].
    apply list_elem_of_fmap. exists (k, s). by rewrite btree_iter_elem.
Qed.

Lemma qualified_validate_Ok g : qualified_validate g = Ok tt ↔ qualified_ok g.
Proof using.
  unfold qualified_validate.
  set (ids := subjects_ids (btree_iter (ig_subjects (qg_gallery g))).*2).
  assert (Forall (λ s, Forall (provenance_ok g (sj_subject_id s)) (sj_references s))
      (btree_iter (ig_subjects (qg_gallery g))).*2 ↔
    ∀ k s r, ig_subjects (qg_gallery g) !! k = Some s → r ∈ sj_references s →
      provenance_ok g (sj_subject_id s) r) as Hprov.
  { rewrite Forall_forall. setoid_rewrite Forall_forall. split.
    - intros Hall k s r Hs. apply Hall, list_elem_of_fmap. exists (k, s). by rewrite btree_iter_elem.
    - intros Hall s ([k s']&->&Hs%btree_iter_elem)%list_elem_of_fmap r. by apply (Hall k). }
  assert (∀ X : gset str, existsb (λ id, negb (bool_decide (id ∈ X)))
      (btree_keys (qg_reference_provenance g)) = false ↔
    ∀ id, is_Some (qg_reference_provenance g !! id) → id ∈ X) as Horph.
  { intros X. rewrite <-not_true_iff_false, existsb_exists. setoid_rewrite negb_true_iff.
    setoid_rewrite bool_decide_eq_false. split.
    - intros Hn id Hid%btree_keys_elem. destruct (decide (id ∈ X)); [done|]. destruct Hn.
      exists id. by rewrite <-list_elem_of_In.
    - intros Hall (id&Hid%list_elem_of_In%btree_keys_elem&Hn). by apply Hn, Hall. }
  split.
  - intros [[?%negb_false_iff%Z.eqb_eq ?%negb_false_iff]%orb_false_iff Hv]%if_err_Ok.
    apply bind_unit_Ok in Hv as [Hq Hv]. apply bind_unit_Ok in Hv as [Hg%map_err_Ok%gallery_validate_Ok Hv].
    apply if_err_Ok in Hv as [Hm%bool_decide_eq_false%not_ne_iff Hv].
    apply bind_Ok in Hv as (X&[Hall ->]%subjects_provenance_Ok&[[_ Hor]%orb_false_iff _]%if_err_Ok).
    rewrite union_empty_r_L in Hor. fold ids in Hor.
    split; try done; [by apply Hprov|]. intros id Hid. by apply gallery_ids_elem, (proj1 (Horph ids)).
  - intros [Hsc Hval Hq Hg Hm Hp Ho]. rewrite Hsc, Hval, Z.eqb_refl. cbn [negb orb]. rewrite Hq.
    cbn [mbind result_bind]. rewrite (proj2 (gallery_validate_Ok _) Hg). cbn [map_err mbind result_bind].
    rewrite bool_decide_eq_false_2 by by rewrite not_ne_iff.
    rewrite (proj2 (subjects_provenance_Ok g _ ∅ ids)); [|by split; [apply Hprov|rewrite union_empty_r_L]].
    cbn [mbind result_bind]. apply (proj2 (if_err_Ok _ _ _ _)). split; [|done]. apply orb_false_iff. split.
    + apply negb_false_iff, Nat.eqb_eq. rewrite <-size_dom. f_equal. apply set_eq. intros id.
      rewrite elem_of_dom. unfold ids. rewrite gallery_ids_elem. split; [|by apply Ho].
      intros (k&s&r&Hs&Hr&<-). destruct (Hp _ _ _ Hs Hr) as (p&->&_). by eexists.
    + apply Horph. intros id Hid. by apply gallery_ids_elem, Ho.
Qed.

(** ** One import *)

Lemma valid_identifier_iff value kind :
  validate_identifier value kind = Ok tt ↔ valid_identifier value = true.
Proof using.
  unfold validate_identifier, valid_identifier. rewrite if_err_Ok, !orb_false_iff, !andb_true_iff.
  rewrite negb_false_iff, negb_true_iff, Z.ltb_ge, Z.leb_le. tauto.
Qed.

Lemma provenance_validate_ids game p :
  provenance_validate game p = Ok tt →
  valid_identifier (qp_subject_id p) = true ∧ valid_identifier (qp_reference_id p) = true.
Proof using.
  unfold provenance_validate. intros [Hc _]%if_err_Ok. rewrite !orb_false_iff, !negb_false_iff in Hc. tauto.
Qed.

Lemma embedding_new_Ok model d values e :
  embedding_new model d values = Ok e →
  embedding_validate e = Ok tt ∧ ne_model e = model ∧ ne_metadata e = d.
Proof using.
  unfold embedding_new. rewrite !bind_unit_Ok. intros (_&_&_&Hn).
  apply if_err_Ok in Hn as [_ Hn]. apply bind_unit_Ok in Hn as [Hv [= <-]]. done.
Qed.

(** The provenance text an import writes fits. *)
Lemma imported_provenance_ok q_id c :
  valid_identifier q_id = true →
  text_ok 2048 (lit "qualified:" ++ q_id ++ lit ":" ++ source_class_text c).
Proof using.
  unfold valid_identifier. rewrite !andb_true_iff, Z.leb_le. intros [[_ Hl] _]. split.
  - apply not_true_iff_false. rewrite is_blank_spec. done.
  - rewrite !str_len_app. assert (str_len (source_class_text c) ≤ 18) by by destruct c.
    assert (str_len (lit "qualified:") = 10) as -> by done. assert (str_len (lit ":") = 1) as -> by done. lia.
Qed.

(** What the reference of an import is. *)
Definition imported g i (r : IdentityReferenceV1) : Prop :=
  ir_reference_id r = qp_reference_id (pi_provenance i) ∧
  ne_metadata (ir_embedding r) = pi_metadata i ∧ reference_ok (ig_model (qg_gallery g)) r.

(** The references a subject has: those before, and the imported one. *)
Definition references_before g (subject_id : str) : list IdentityReferenceV1 :=
  match ig_subjects (qg_gallery g) !! subject_id with
  | Some s => sj_references s | None => [] end.

(** Adding one reference with its provenance to a valid gallery keeps it valid. *)
Lemma add_reference_ok g i r name :
  let p := pi_provenance i in
  qualified_ok g → provenance_validate (qg_game_profile_id g) p = Ok tt →
  qg_reference_provenance g !! qp_reference_id p = None →
  imported g i r → text_ok 256 name →
  qualified_ok (set_gallery (set_subjects (<[qp_subject_id p := {|
      sj_subject_id := qp_subject_id p; sj_display_name := name;
      sj_references := references_before g (qp_subject_id p) ++ [r] |}]>
    (ig_subjects (qg_gallery g))) (qg_gallery g))
    (<[qp_reference_id p := p]> (qg_reference_provenance g)) g).
Proof using.
  intros p [Hsc Hval Hq (Hg1&Hg2&Hg) Hm Hp Ho] Hv Hfresh (Hid&_&Hr) Hname.
  destruct (provenance_validate_ids _ _ Hv) as [Hsid Hrid].
  assert (∀ r', r' ∈ references_before g (qp_subject_id p) →
    reference_ok (ig_model (qg_gallery g)) r' ∧ provenance_ok g (qp_subject_id p) r') as Hbefore.
  { unfold references_before. intros r' Hr'.
    destruct (ig_subjects (qg_gallery g) !! qp_subject_id p) as [s|] eqn:Es; [|by apply not_elem_of_nil in Hr'].
    destruct (Hg _ _ Es) as (Hk&_&_&_&_&Hall). rewrite Forall_forall in Hall. split; [by apply Hall|].
    rewrite Hk. by apply (Hp _ _ _ Es). }
  assert (∀ sid r', provenance_ok g sid r' → ir_reference_id r' ≠ qp_reference_id p) as Hother.
  { intros sid r' (p'&Hp'&_) Heq. by rewrite Heq, Hfresh in Hp'. }
  split; cbn; try done.
  - split; [done|]. split; [done|]. apply map_Forall_insert_2.
    + split; [done|]. split; [by apply (valid_identifier_iff _ (lit "subject ID"))|]. split; [done|].
      cbn. split; [by destruct (references_before _ _)|]. split.
      * rewrite fmap_app, NoDup_app. split; [|split; [|apply NoDup_singleton]].
        -- unfold references_before. destruct (ig_subjects (qg_gallery g) !! qp_subject_id p) as [s|] eqn:Es;
             [|apply NoDup_nil_2]. apply (Hg _ _ Es).
        -- intros id (r'&->&Hr')%list_elem_of_fmap Heq%list_elem_of_singleton.
           eapply Hother; [apply Hbefore, Hr'|by rewrite Heq].
      * apply Forall_app. split; [|by apply Forall_singleton]. apply Forall_forall. intros r' Hr'.
        by apply Hbefore.
    + eapply map_Forall_impl; [exact Hg|]. done.
  - assert (∀ sid r', provenance_ok g sid r' → ∃ p',
      <[qp_reference_id p := p]> (qg_reference_provenance g) !! ir_reference_id r' = Some p' ∧
      provenance_validate (qg_game_profile_id g) p' = Ok tt ∧ qp_subject_id p' = sid) as Hkeep.
    { intros sid r' Hpr. pose proof (Hother _ _ Hpr). destruct Hpr as (p'&Hp'&?&?). exists p'.
      rewrite lookup_insert_ne by done. done. }
    intros k s r' [[<- <-]|[Hne Hs]]%lookup_insert_Some Hr'; [|by eapply Hkeep, Hp].
    cbn in Hr' |- *. apply elem_of_app in Hr' as [Hr'|Hr'%list_elem_of_singleton];
      [by apply Hkeep, Hbefore|subst r'].
    exists p. cbn. by rewrite Hid, lookup_insert_eq.
  - intros id Hsome. rewrite lookup_insert_is_Some' in Hsome. destruct Hsome as [<-|Hsome].
    + eexists (qp_subject_id p), _, r. rewrite lookup_insert_eq. split; [done|]. cbn.
      split; [|done]. apply elem_of_app. right. by apply list_elem_of_singleton.
    + destruct (Ho _ Hsome) as (k&s&r'&Hs&Hr'&<-). destruct (decide (k = qp_subject_id p)) as [->|Hne].
      * eexists (qp_subject_id p), _, r'. rewrite lookup_insert_eq. split; [done|]. cbn.
        split; [|done]. apply elem_of_app. left. unfold references_before. by rewrite Hs.
      * exists k, s, r'. by rewrite lookup_insert_ne by done.
Qed.

(** What the checks of an import establish. *)
Lemma import_checks_Ok i g :
  import_checks i g = Ok tt →
  pi_model i = pq_model (qg_qualification g) ∧
  sha256_hex (pi_tensor_f32le i) = pi_tensor_sha256 i ∧
  text_ok 256 (pi_subject_display_name i) ∧
  provenance_validate (qg_game_profile_id g) (pi_provenance i) = Ok tt ∧
  xd_source_digest_sha256 (pi_metadata i) = Some (qp_source_content_sha256 (pi_provenance i)) ∧
  qg_reference_provenance g !! qp_reference_id (pi_provenance i) = None.
Proof using.
  unfold import_checks. intros [Hc Hr]%if_err_Ok. apply bind_unit_Ok in Hr as [Hv Hr].
  apply if_err_Ok in Hr as [Hd%bool_decide_eq_false%not_ne_iff [Hf _]%if_err_Ok].
  apply orb_false_iff in Hc as [Hc Hlen]. apply orb_false_iff in Hc as [Hc Hblank].
  rewrite !orb_false_iff, !bool_decide_eq_false, !not_ne_iff in Hc. split; [tauto|]. split; [tauto|].
  split; [split; [done|by apply Z.ltb_ge]|]. split; [done|]. split; [done|].
  by destruct (qg_reference_provenance g !! _).
Qed.

Lemma qualified_ok_private g id p :
  qualified_ok g → qg_reference_provenance g !! id = Some p →
  qp_local_only p = true ∧ (qp_source_class p = UserPrivate → qp_explicit_user_consent p = true).
Proof using.
  intros Hok Hp. destruct (qo_orphans _ Hok id) as (k&s&r&Hs&Hr&<-); [by eexists|].
  destruct (qo_provenance _ Hok _ _ _ Hs Hr) as (p'&Hp'&Hv&_). rewrite Hp in Hp'. injection Hp' as <-.
  unfold provenance_validate in Hv. apply if_err_Ok in Hv as [_ Hv].
  destruct (qp_source_class p); apply if_err_Ok in Hv as [Hv _];
    rewrite !orb_false_iff, !negb_false_iff in Hv; [tauto|by split; [tauto|]].
Qed.

(** An import is all or nothing. When it fails, with whichever error, the gallery is
    what it was: the validation that follows the change never fails. When it succeeds,
    exactly one reference, with the digest and the crop that were declared, was added to
    its subject together with its provenance, nothing else changed, and the gallery is
    valid: every reference stays local, and a private one has the user's consent. *)
Theorem import_all_or_nothing i g g' res :
  import_reference i g = (g', res) →
  match res with
  | Err _ => g' = g
  | Ok _ =>
      let p := pi_provenance i in
      qualified_validate g' = Ok tt ∧
      sha256_hex (pi_tensor_f32le i) = pi_tensor_sha256 i ∧
      xd_source_digest_sha256 (pi_metadata i) = Some (qp_source_content_sha256 p) ∧
      qg_reference_provenance g !! qp_reference_id p = None ∧
      qg_reference_provenance g' = <[qp_reference_id p := p]> (qg_reference_provenance g) ∧
      (∃ r, imported g i r ∧
        ig_subjects (qg_gallery g') = <[qp_subject_id p := {|
          sj_subject_id := qp_subject_id p; sj_display_name := pi_subject_display_name i;
          sj_references := references_before g (qp_subject_id p) ++ [r] |}]>
          (ig_subjects (qg_gallery g))) ∧
      (∀ id p', qg_reference_provenance g' !! id = Some p' → qp_local_only p' = true ∧
        (qp_source_class p' = UserPrivate → qp_explicit_user_consent p' = true))
  end.
Proof using.
  unfold import_reference. destruct (_ ≫= _) as [[]|error] eqn:Hpre; [|by intros [= <- <-]].
  apply bind_unit_Ok in Hpre as [Hok%qualified_validate_Ok Hchecks].
  destruct (import_checks_Ok _ _ Hchecks) as (Hmodel&Hsha&Hname&Hv&Hdigest&Hfresh).
  destruct (embedding_new _ _ _) as [e|error] eqn:He; [|by intros [= <- <-]].
  apply embedding_new_Ok in He as (Hev&Hem&Hed).
  set (p := pi_provenance i) in *. set (r := Build_IdentityReferenceV1 _ _ e).
  assert (imported g i r) as Himp.
  { split; [done|]. split; [done|]. split.
    - apply (valid_identifier_iff _ (lit "reference ID")), (provenance_validate_ids _ _ Hv).
    - split; [|split; [done|]].
      + apply imported_provenance_ok. pose proof (qo_qualification _ Hok) as Hq.
        unfold qualification_validate in Hq. rewrite !bind_unit_Ok, if_err_Ok, !orb_false_iff in Hq.
        apply negb_false_iff. tauto.
      + cbn. by rewrite Hem, (qo_model _ Hok). }
  pose proof (add_reference_ok g i r _ Hok Hv Hfresh Himp Hname) as Hok'. fold p in Hok'.
  destruct (ig_subjects (qg_gallery g) !! qp_subject_id p) as [s|] eqn:Es.
  - case_bool_decide as Hn; [by intros [= <- <-]|].
    destruct (qo_gallery _ Hok) as (_&_&Hg). destruct (Hg _ _ Es) as [Hk _].
    rewrite Hn, <-Hk. unfold references_before in *. rewrite Es in *.
    rewrite (proj2 (qualified_validate_Ok _) Hok'). intros [= <- <-].
    split; [by apply qualified_validate_Ok|]. do 4 (split; [done|]).
    split; [by exists r|]. intros id p' Hp'. by eapply qualified_ok_private.
  - unfold references_before in *. rewrite Es in *. cbn [app] in *.
    rewrite (proj2 (qualified_validate_Ok _) Hok'). intros [= <- <-].
    split; [by apply qualified_validate_Ok|]. do 4 (split; [done|]).
    split; [by exists r|]. intros id p' Hp'. by eapply qualified_ok_private.
Qed.

(** ** Trusted frames *)

Implicit Types (f : TrustedWgcIdentityFrameV1) (w : TrustedWgcEvidenceAdapterV1).

(** The frame the tracker gets. *)
Definition frame_of f : FrameActorsV1 := {|
  fr_frame_index := wf_frame_sequence f; fr_timestamp_ms := wf_captured_at_ms f;
  fr_detections := wf_observations f |}.

(** A frame of the expected window of a game without protection, whose embeddings are the
    pinned model's and of this very frame. *)
Record clean (target : TrustedCaptureTargetV1) (q : PinnedIdentityQualificationV1) f : Prop := {
  cl_target : wf_target f = target;
  cl_verified : wf_advancing_frame_verified f = true ∧ wf_overlay_capture_excluded f = true;
  cl_unprotected : wf_protected_online_detected f = false ∧ wf_anti_cheat_detected f = false;
  cl_bounded : Z.of_nat (length (wf_observations f)) ≤ MAX_FRAME_OBSERVATIONS;
  cl_pinned : ∀ d e, d ∈ wf_observations f → dt_embedding d = Some e →
    ne_model e = pq_model q ∧ xd_source_frame_index (ne_metadata e) = wf_frame_sequence f ∧
    xd_source_digest_sha256 (ne_metadata e) = Some (wf_content_sha256 f)
}.

Lemma observation_checks_Ok f q o e :
  observation_checks f q o = Ok tt → dt_embedding o = Some e →
  ne_model e = pq_model q ∧ xd_source_frame_index (ne_metadata e) = wf_frame_sequence f ∧
  xd_source_digest_sha256 (ne_metadata e) = Some (wf_content_sha256 f).
Proof using.
  unfold observation_checks. intros Hc He. rewrite He in Hc. apply bind_unit_Ok in Hc as [_ Hc].
  apply if_err_Ok in Hc as [Hm Hc]. apply bind_unit_Ok in Hc as [_ [Hc _]%if_err_Ok].
  cbn in Hm. rewrite !orb_false_iff, bool_decide_eq_false, not_ne_iff in Hm.
  rewrite !orb_false_iff, !bool_decide_eq_false, !not_ne_iff, negb_false_iff, Z.eqb_eq in Hc. tauto.
Qed.

(** What the adapter remembers of a frame. *)
Definition remember f w : TrustedWgcEvidenceAdapterV1 := {|
  wa_expected_target := wa_expected_target w; wa_qualification := wa_qualification w;
  wa_last_frame_sequence := Some (wf_frame_sequence f);
  wa_last_source_frame_qpc := Some (wf_source_frame_qpc f);
  wa_device_generation := Some (wf_device_generation f);
  wa_geometry_epoch := Some (wf_geometry_epoch f) |}.

Lemma adapt_cases f w :
  (∃ error, adapt f w = (w, Err error)) ∨
  (adapt f w = (remember f w, Ok (frame_of f)) ∧ clean (wa_expected_target w) (wa_qualification w) f ∧
   wf_frame_sequence f ≠ 0 ∧
   (∀ s, wa_last_frame_sequence w = Some s → s < wf_frame_sequence f) ∧
   (∀ t, wa_last_source_frame_qpc w = Some t → t < wf_source_frame_qpc f) ∧
   (∀ gen s, wa_device_generation w = Some gen → wa_last_frame_sequence w = Some s → s ≠ 0 →
      gen = wf_device_generation f) ∧
   (∀ n, wa_geometry_epoch w = Some n → n ≤ wf_geometry_epoch f)).
Proof using.
  unfold adapt. destruct (_ ≫= _) as [[]|error] eqn:Hc; [right|left; by eexists].
  split; [done|]. apply bind_unit_Ok in Hc as [_ Hc]. apply if_err_Ok in Hc as [Hc Hr].
  apply if_err_Ok in Hr as [Hgen Hr]. apply if_err_Ok in Hr as [Hgeo Hobs].
  apply check_all_Ok in Hobs. rewrite Forall_forall in Hobs.
  rewrite !orb_false_iff, bool_decide_eq_false, not_ne_iff, !negb_false_iff, Z.ltb_ge in Hc.
  destruct Hc as ((((((((((((((_&Ht)&Hs)&_)&_)&_)&_)&_)&Hadv)&Hov)&Hpr)&Hac)&Hlen)&Hseq)&Hqpc).
  split; [|split; [by apply Z.eqb_neq|split; [|split; [|split]]]].
  - split; try done. intros d e Hd He. eapply observation_checks_Ok; [by apply Hobs|done].
  - intros s Hw. rewrite Hw in Hseq. by apply Z.leb_gt in Hseq.
  - intros t Hw. rewrite Hw in Hqpc. by apply Z.leb_gt in Hqpc.
  - intros gen s Hg Hw Hne. rewrite Hg, Hw in Hgen. cbn in Hgen.
    apply andb_false_iff in Hgen as [?%negb_false_iff%Z.eqb_eq|Hz%negb_false_iff%Z.eqb_eq]; done.
  - intros n Hw. rewrite Hw in Hgeo. by apply Z.ltb_ge in Hgeo.
Qed.

(** ** The adapter before its engine *)

(** [f2] is a later frame than [f1] of the same capture. *)
Definition advances f1 f2 : Prop :=
  wf_frame_sequence f1 < wf_frame_sequence f2 ∧ wf_source_frame_qpc f1 < wf_source_frame_qpc f2 ∧
  wf_device_generation f1 = wf_device_generation f2 ∧ wf_geometry_epoch f1 ≤ wf_geometry_epoch f2.

(** Frames through the adapter, and any other call of the engine between them; the frames
    the adapter let through are collected. *)
Inductive trusted_run w0 e0 :
    list TrustedWgcIdentityFrameV1 → TrustedWgcEvidenceAdapterV1 → ActorIdentityEngineV1 → Prop :=
| tr_start : trusted_run w0 e0 [] w0 e0
| tr_call accepted w e op e' : trusted_run w0 e0 accepted w e →
    (∀ frame, op ≠ EoFrame frame) → engine_step e op e' → trusted_run w0 e0 accepted w e'
| tr_frame accepted w e f w' e' res : trusted_run w0 e0 accepted w e →
    room (en_tracker e) (frame_of f) → process_trusted f w e = Some (w', e', res) →
    trusted_run w0 e0 (if is_ok (adapt f w).2 then accepted ++ [f] else accepted) w' e'.

Record pipe_inv (target : TrustedCaptureTargetV1) (q : PinnedIdentityQualificationV1)
    (accepted : list TrustedWgcIdentityFrameV1) w e : Prop := {
  pi_engine : engine_inv e;
  pi_pinned : ig_model (rs_gallery (en_resolver e)) = pq_model q;
  pi_target : wa_expected_target w = target;
  pi_qualification : wa_qualification w = q;
  pi_clock : ∀ l, at_last_frame_index (en_tracker e) = Some l →
    ∃ s, wa_last_frame_sequence w = Some s ∧ l ≤ s;
  pi_past : ∀ f, f ∈ accepted → ∃ s t n,
    wa_last_frame_sequence w = Some s ∧ s ≠ 0 ∧ wa_last_source_frame_qpc w = Some t ∧
    wa_device_generation w = Some (wf_device_generation f) ∧ wa_geometry_epoch w = Some n ∧
    wf_frame_sequence f ≤ s ∧ wf_source_frame_qpc f ≤ t ∧ wf_geometry_epoch f ≤ n;
  pi_sorted : StronglySorted advances accepted;
  pi_clean : Forall (clean target q) accepted
}.

Lemma engine_call_keeps e op e' :
  (∀ frame, op ≠ EoFrame frame) → engine_step e op e' →
  at_last_frame_index (en_tracker e') = at_last_frame_index (en_tracker e) ∧
  rs_gallery (en_resolver e') = rs_gallery (en_resolver e).
Proof using.
  intros Hop Hstep. destruct Hstep as [k| |k s|s|k|frame]; [..|by destruct (Hop frame)];
    unfold or_same, engine_select_actor, assign_subject, assign_selected_subject, select_actor, assign_explicit.
  - by destruct (negb _).
  - done.
  - destruct (negb _); [done|]. by destruct (negb _).
  - destruct (at_selected_track_id _); cbn; [|done]. by destruct (negb _).
  - done.
Qed.

(** A refused detection is not a frame out of order. *)
Lemma detections_validate_error detections : ∀ seen error,
  detections_validate seen detections = Err error →
  error ≠ NonMonotonicFrameIndex ∧ error ≠ NonMonotonicTimestamp.
Proof using.
  induction detections as [|d detections IH]; intros seen error; cbn [detections_validate]; [done|].
  unfold detection_validate.
  destruct (box_validate _); [|by intros [= <-]]. destruct (in_unit_range _); [|by intros [= <-]].
  destruct (negb _); [|by intros [= <-]]. cbn.
  destruct (match dt_embedding d with Some _ => _ | None => _ end) eqn:Ee; cbn.
  - destruct (dt_detector_local_id d); [case_bool_decide; [by intros [= <-]|]|]; apply IH.
  - intros [= <-]. destruct (dt_embedding d); [|done]. by destruct (embedding_validate _); simplify_eq/=.
Qed.

(** The capture clock of a frame lies before that of the last frame. *)
Definition clock_back (a : ActorTrackerV1) (timestamp : Z) : Prop :=
  ∃ last, at_last_timestamp_ms a = Some last ∧ timestamp < last.

(** Why a frame with a later index is refused: its capture clock, or else its detections. *)
Definition refused_for (a : ActorTrackerV1) (frame : FrameActorsV1) (error : TrackerError) : Prop :=
  error = NonMonotonicTimestamp ∧ clock_back a (fr_timestamp_ms frame) ∨
  error ≠ NonMonotonicFrameIndex ∧ error ≠ NonMonotonicTimestamp ∧
  ¬ clock_back a (fr_timestamp_ms frame) ∧
  detections_validate ∅ (fr_detections frame) = Err error.

Lemma later_frame_validated a frame :
  (∀ l, at_last_frame_index a = Some l → l < fr_frame_index frame) →
  match validate_frame frame a with
  | Err error => refused_for a frame error
  | Ok _ => ¬ clock_back a (fr_timestamp_ms frame)
  end.
Proof using.
  intros Hl. unfold validate_frame.
  assert (is_some_and (at_last_frame_index a) (λ last_, fr_frame_index frame <=? last_) = false) as ->.
  { destruct (at_last_frame_index a) as [l|]; cbn; [|done]. by apply Z.leb_gt, Hl. }
  cbn [negb ensure mbind result_bind]. unfold refused_for, clock_back.
  destruct (at_last_timestamp_ms a) as [t|]; cbn [is_some_and].
  - destruct (Z.ltb_spec (fr_timestamp_ms frame) t) as [Hlt|Hge]; cbn [negb ensure mbind result_bind].
    + left. eauto.
    + assert (¬ ∃ last, Some t = Some last ∧ fr_timestamp_ms frame < last) as Hno.
      { intros (last&[= <-]&?). lia. }
      destruct (detections_validate _ _) as [[]|error] eqn:Hd; [done|]. right.
      by destruct (detections_validate_error _ _ _ Hd).
  - cbn [negb ensure mbind result_bind]. destruct (detections_validate _ _) as [[]|error] eqn:Hd.
    + by intros (?&?&_).
    + right. destruct (detections_validate_error _ _ _ Hd). split_and!; try done. by intros (?&?&_).
Qed.

Lemma process_frame_valid frame e e' u :
  process_frame frame e = Some (e', Ok u) → validate_frame frame (en_tracker e) = Ok tt.
Proof using.
  unfold process_frame, tracker_update. by destruct (validate_frame _ _) as [[]|].
Qed.

(** One trusted frame: what comes of it, and the invariant. *)
Lemma process_trusted_ok target q accepted w e f :
  pipe_inv target q accepted w e → room (en_tracker e) (frame_of f) →
  ∃ w' e' res, process_trusted f w e = Some (w', e', res) ∧
    pipe_inv target q (if is_ok (adapt f w).2 then accepted ++ [f] else accepted) w' e' ∧
    match (adapt f w).2, res with
    | Err error, _ => res = Err error ∧ w' = w ∧ e' = e
    | Ok _, Err error => e' = e ∧ ∃ refused,
        error = QualifiedEngine (EngineTracker refused) ∧
        refused_for (en_tracker e) (frame_of f) refused
    | Ok _, Ok _ => ¬ clock_back (en_tracker e) (wf_captured_at_ms f)
    end.
Proof using.
  intros [He Hm Ht Hq Hclock Hpast Hsorted Hclean] Hroom. unfold process_trusted.
  destruct (adapt_cases f w) as [[error Ha]|(Ha&Hc&Hs0&Hs&Hqpc&Hg&Hn)]; rewrite Ha; cbn [is_ok snd].
  { exists w, e, (Err error). split; [done|]. by split; [split|]. }
  destruct (process_frame_ok e (frame_of f) He Hroom) as (e'&res&Hrun&He'&_&[_ Hgal]&Hlast&_&Hres).
  rewrite Hrun. cbn [mbind option_bind fst snd]. rewrite Ht, Hq in Hc.
  exists (remember f w), e', (map_err QualifiedEngine res). split; [done|].
  assert (∀ l, at_last_frame_index (en_tracker e) = Some l → l < wf_frame_sequence f) as Hbelow.
  { intros l (s&Hws&?)%Hclock. specialize (Hs _ Hws). lia. }
  split.
  - split; try done.
    + by rewrite Hgal.
    + intros l Hl. exists (wf_frame_sequence f). split; [done|]. destruct Hlast as [->|Hlast].
      * specialize (Hbelow _ Hl). lia.
      * rewrite Hlast in Hl. injection Hl as <-. done.
    + intros f' [Hf'|Hf'%list_elem_of_singleton]%elem_of_app; cbn; [|subst f'; eexists _, _, _; do 5 (split; [done|]); lia].
      destruct (Hpast _ Hf') as (s&t&n&Hws&Hne&Hwt&Hwg&Hwn&?&?&?).
      specialize (Hs _ Hws). specialize (Hqpc _ Hwt). specialize (Hn _ Hwn).
      rewrite (Hg _ _ Hwg Hws Hne). eexists _, _, _. do 5 (split; [done|]). lia.
    + apply StronglySorted_app_2; [|done|by repeat constructor].
      intros f' f'' Hf' ->%list_elem_of_singleton.
      destruct (Hpast _ Hf') as (s&t&n&Hws&Hne&Hwt&Hwg&Hwn&?&?&?).
      specialize (Hs _ Hws). specialize (Hqpc _ Hwt). specialize (Hn _ Hwn).
      split; [lia|]. split; [lia|]. split; [by apply (Hg _ s)|lia].
    + apply Forall_app. by split; [|apply Forall_singleton].
  - pose proof (later_frame_validated (en_tracker e) (frame_of f) Hbelow) as Hvalid.
    destruct res as [u|[|refused|error]]; cbn; [|done| |].
    + by rewrite (process_frame_valid _ _ _ _ Hrun) in Hvalid.
    + destruct Hres as [-> Hv]. rewrite Hv in Hvalid. split; [done|]. by exists refused.
    + destruct Hres as (_&d&emb&Hd&Hemb&Hne). destruct (cl_pinned _ _ _ Hc _ _ Hd Hemb) as (Hpin&_).
      destruct Hne. by rewrite Hm.
Qed.

End qualified.
