(* ===== verification/IdentityExample.v ===== *)
(** * The identity engine on concrete frames

    One actor with a one-dimensional embedding, followed, identified, assigned, imported
    and captured: the witnesses of the theorems of [TrackerSpec], [ResolverSpec] and
    [QualifiedSpec], and an assignment that is still reported after it was cleared. *)

From S2P Require Import Prelude Text Bytes Float Identity Tracker TrackerFacts TrackerSpec Resolver ResolverSpec Qualified QualifiedSpec.

#[local] Open Scope Z_scope.

(** The square root of the sum of squares, and the first bytes for a digest. *)
#[local] Instance example_api : TrackerApi := {|
  f32_hypot := λ x y, f32_sqrt (f32_add (f32_mul x x) (f32_mul y y));
  tracker_digest := {| sha256 := λ bytes, take 32 (bytes ++ repeat 0 32) |};
  tracker_nan := {| nan_negative := true |}
|}.

Definition a_box : BoundingBoxV1 := {|
  bx_x := f32_one; bx_y := f32_one; bx_width := f32_two; bx_height := f32_two |}.

Definition a_model : EmbeddingModelV1 := {|
  xm_provider := lit "p"; xm_model_id := lit "m"; xm_revision := lit "1"; xm_dimensions := 1 |}.

Definition a_digest : str := repeat 48 64.

Definition metadata (frame_index : Z) : EmbeddingMetadataV1 := {|
  xd_source_frame_index := frame_index; xd_crop_bounds := a_box; xd_detector_id := lit "d";
  xd_detector_revision := lit "1"; xd_preprocessing := lit "n";
  xd_source_digest_sha256 := Some a_digest |}.

Definition an_embedding (frame_index : Z) : NormalizedEmbeddingV1 := {|
  ne_schema_version := 1; ne_model := a_model; ne_metadata := metadata frame_index;
  ne_values := [f32_one] |}.

Definition detection (embedding : option NormalizedEmbeddingV1) : ActorDetectionV1 := {|
  dt_detector_local_id := None; dt_bounds := a_box; dt_confidence := f32_one;
  dt_embedding := embedding |}.

Definition a_frame (index : Z) (detections : list ActorDetectionV1) : FrameActorsV1 := {|
  fr_frame_index := index; fr_timestamp_ms := index; fr_detections := detections |}.

Definition ok_value {E A} (d : A) (r : result E A) : A := match r with Ok a => a | Err _ => d end.

Definition no_tracker : ActorTrackerV1 := {|
  at_config := tracker_config_default; at_next_track_id := 1; at_tracks := ∅;
  at_selected_track_id := None; at_last_frame_index := None; at_last_timestamp_ms := None |}.

Lemma no_tracker_new : actor_tracker_new tracker_config_default = Ok no_tracker.
Proof. by vm_compute. Qed.

Lemma no_tracker_inv : tracker_inv no_tracker.
Proof. exact (actor_tracker_new_inv _ _ no_tracker_new). Qed.

(** The tracker after some frames. *)
Definition after_frame (a : ActorTrackerV1) (frame : FrameActorsV1) : ActorTrackerV1 :=
  match tracker_update frame a with Some (a', _) => a' | None => a end.

Lemma after_frame_step a frame :
  room a frame → is_some (tracker_update frame a) = true →
  tracker_step a (OpFrame frame) (after_frame a frame).
Proof.
  intros Hroom Hs. unfold after_frame. destruct (tracker_update frame a) as [[a' r]|] eqn:E; [|done].
  by eapply step_frame.
Qed.

Definition room_b (a : ActorTrackerV1) (frame : FrameActorsV1) : bool :=
  (0 <=? fr_frame_index frame) && (fr_frame_index frame <? u64_max)
  && (at_next_track_id a + Z.of_nat (length (fr_detections frame)) <=? u64_max).

Lemma room_b_true a frame : room_b a frame = true → room a frame.
Proof. unfold room_b, room. rewrite !andb_true_iff, !Z.leb_le, Z.ltb_lt. lia. Qed.

Lemma tracker_run_cons a op a1 ops a2 :
  tracker_step a op a1 → tracker_run a1 ops a2 → tracker_run a (op :: ops) a2.
Proof.
  intros Hs. induction 1 as [|ops op' a2 a3 _ IH Hs']; [by apply (run_snoc _ [] op a); [constructor|]|].
  rewrite app_comm_cons. by econstructor.
Qed.

(** Every frame of a list has room and is answered. *)
Fixpoint frames_ok (frames : list FrameActorsV1) (a : ActorTrackerV1) : bool :=
  match frames with
  | [] => true
  | frame :: frames => room_b a frame && is_some (tracker_update frame a)
      && frames_ok frames (after_frame a frame)
  end.

Lemma after_frames_run frames : ∀ a,
  frames_ok frames a = true → tracker_run a (OpFrame <$> frames) (fold_left after_frame frames a).
Proof.
  induction frames as [|frame frames IH]; intros a Hok; [constructor|].
  cbn in Hok. rewrite !andb_true_iff in Hok. destruct Hok as [[Hr Hs] Hok].
  eapply tracker_run_cons; [|by apply IH]. apply after_frame_step; [by apply room_b_true|done].
Qed.

(** One actor is seen, and then gone for more frames than its grace. *)
Definition seen_frames : list FrameActorsV1 := [a_frame 1 [detection None]].
Definition gone_frames : list FrameActorsV1 := (λ i, a_frame i []) <$> [2; 3; 4; 5; 6; 7].
Definition seen : ActorTrackerV1 := fold_left after_frame seen_frames no_tracker.
Definition gone : ActorTrackerV1 := fold_left after_frame gone_frames seen.

Lemma tracker_update_exact_witness :
  tracker_inv no_tracker ∧ room no_tracker (a_frame 1 [detection None]) ∧
  ∃ a' r, tracker_update (a_frame 1 [detection None]) no_tracker = Some (a', r) ∧ tracker_inv a'.
Proof.
  assert (room no_tracker (a_frame 1 [detection None])) as Hroom by by apply room_b_true; vm_compute.
  split; [exact no_tracker_inv|]. split; [exact Hroom|].
  destruct (tracker_update_exact _ _ no_tracker_inv Hroom) as (a'&r&Hrun&Hinv&_). by exists a', r.
Defined.

Lemma tracks_never_reused_witness :
  is_some (at_tracks seen !! 1) = true ∧ is_some (at_tracks gone !! 1) = false ∧
  tracker_run seen (OpFrame <$> gone_frames) gone ∧ later seen gone.
Proof.
  split; [by vm_compute|]. split; [by vm_compute|].
  assert (tracker_run no_tracker (OpFrame <$> seen_frames) seen) as Hseen
    by by apply after_frames_run; vm_compute.
  assert (tracker_run seen (OpFrame <$> gone_frames) gone) as Hgone
    by by apply after_frames_run; vm_compute.
  split; [exact Hgone|].
  destruct (tracks_never_reused _ _ _ _ _ _ no_tracker_new Hseen Hgone) as (_&Hlater&_). exact Hlater.
Defined.

(** The next frame: the followed actor again. *)
Definition next_frame : FrameActorsV1 := a_frame 2 [detection None].

Lemma seen_inv : tracker_inv seen.
Proof.
  assert (tracker_run no_tracker (OpFrame <$> seen_frames) seen) as Hseen
    by by apply after_frames_run; vm_compute.
  assert (∀ a ops a', tracker_inv a → tracker_run a ops a' → tracker_inv a') as Hrun.
  { intros a ops a' Ha. induction 1 as [|ops op a1 a2 _ IH Hs]; [done|].
    by destruct (tracker_step_later _ _ _ IH Hs). }
  by eapply Hrun; [apply no_tracker_inv|].
Qed.

Lemma association_stable_witness :
  ∃ a' u, tracker_update next_frame seen = Some (a', Ok u) ∧
  ∀ k i score, scored seen next_frame k i score → ∃ o, o ∈ tu_observations u ∧
    (td_track_id o = k ∨ td_detection_index o = i).
Proof.
  assert (room seen next_frame) as Hroom by by apply room_b_true; vm_compute.
  assert (match tracker_update next_frame seen with Some (_, Ok _) => true | _ => false end = true)
    as Hok by by vm_compute.
  destruct (tracker_update next_frame seen) as [[a' [u|error]]|] eqn:E; [|discriminate Hok..].
  exists a', u. split; [done|].
  destruct (association_stable _ _ _ _ seen_inv Hroom E) as [Hst _].
  intros k i score Hs. destruct (Hst k i score Hs) as (o&score'&Ho&Hor&_). exact (ex_intro _ o (conj Ho Hor)).
Defined.

(** ** A gallery of one subject *)

Definition a_reference : IdentityReferenceV1 := {|
  ir_reference_id := lit "r"; ir_provenance := lit "portrait"; ir_embedding := an_embedding 0 |}.

Definition a_subject : SubjectIdentityV1 := {|
  sj_subject_id := lit "ada"; sj_display_name := lit "Ada"; sj_references := [a_reference] |}.

Definition a_gallery : IdentityGalleryV1 := {|
  ig_schema_version := 1; ig_model := a_model; ig_subjects := {[lit "ada" := a_subject]} |}.

Definition a_resolver : IdentityResolverV1 := {|
  rs_config := identity_config_default; rs_gallery := a_gallery; rs_histories := ∅;
  rs_explicit_assignments := ∅ |}.

Lemma a_resolver_new : resolver_new identity_config_default a_gallery = Ok a_resolver.
Proof. by vm_compute. Qed.

Definition enc : str := lit "enc".

(** The resolver after one more observation of the actor on the track 1. *)
Definition observed (r : IdentityResolverV1) : IdentityResolverV1 :=
  (observe_identity 1 (Some (an_embedding 1)) enc r).1.

Lemma a_resolver_inv : resolver_inv a_resolver.
Proof. by apply (resolver_new_inv identity_config_default a_gallery); [|exact a_resolver_new]. Qed.

Lemma observed_inv r : resolver_inv r → resolver_inv (observed r).
Proof.
  intros Hinv. unfold observed.
  destruct (observe_identity 1 (Some (an_embedding 1)) enc r) as [r' res] eqn:E.
  apply observe_ok in E as (?&_&_); [done..|]. intros e [= <-]. by vm_compute.
Qed.

(** Whether an observation is a match. *)
Definition is_match (res : result IdentityError IdentityDecisionV1) : bool :=
  match res with Ok (Matched _) => true | _ => false end.

Lemma match_has_evidence_witness :
  let r := observed (observed a_resolver) in
  resolver_inv r ∧ ∃ r' m, observe_identity 1 (Some (an_embedding 1)) enc r = (r', Ok (Matched m)) ∧
    3 ≤ Z.of_nat (length (th_score_frames (history_of 1 r'))) ∧ known a_gallery (md_subject_id m).
Proof.
  intros r. assert (resolver_inv r) as Hinv by exact (observed_inv _ (observed_inv _ a_resolver_inv)).
  split; [exact Hinv|].
  assert (is_match (observe_identity 1 (Some (an_embedding 1)) enc r).2 = true) as Hok by by vm_compute.
  assert (rs_explicit_assignments r !! 1 = None) as Hex by by vm_compute.
  destruct (observe_identity 1 (Some (an_embedding 1)) enc r) as [r' [[| |m| | |]|]] eqn:E;
    try discriminate Hok.
  exists r', m. split; [done|].
  destruct (match_has_evidence r 1 _ enc r' m Hinv Hex E) as ([Hmin _]&_&_&Hknown&_).
  exact (conj Hmin Hknown).
Defined.

(** ** The engine *)

Definition an_engine : ActorIdentityEngineV1 := {| en_tracker := no_tracker; en_resolver := a_resolver |}.

Lemma an_engine_inv : engine_inv an_engine.
Proof. exact (engine_new_inv identity_config_default a_gallery a_resolver tracker_config_default no_tracker
  ltac:(done) a_resolver_new no_tracker_new). Qed.

(** The engine after a frame, and whether the frame was answered. *)
Definition engine_after (e : ActorIdentityEngineV1) (frame : FrameActorsV1) : ActorIdentityEngineV1 :=
  match process_frame frame e with Some (e', _) => e' | None => e end.

Lemma engine_after_step e frame :
  room_b (en_tracker e) frame = true → is_some (process_frame frame e) = true →
  engine_step e (EoFrame frame) (engine_after e frame).
Proof.
  intros Hroom Hs. unfold engine_after. destruct (process_frame frame e) as [[e' r]|] eqn:E; [|done].
  eapply estep_frame; [by apply room_b_true|exact E].
Qed.

Definition engine_seen : ActorIdentityEngineV1 := engine_after an_engine (a_frame 1 [detection None]).
Definition engine_assigned : ActorIdentityEngineV1 :=
  or_same engine_seen (assign_subject 1 (lit "ada") engine_seen).
Definition engine_later : ActorIdentityEngineV1 := engine_after engine_assigned (a_frame 2 []).

Lemma engine_assigned_inv : engine_inv engine_assigned.
Proof.
  assert (engine_step an_engine (EoFrame (a_frame 1 [detection None])) engine_seen) as Hs1
    by by apply engine_after_step; vm_compute.
  destruct (engine_step_ok _ _ _ 1 an_engine_inv Hs1) as [Hinv1 _].
  by destruct (engine_step_ok _ _ _ 1 Hinv1 (estep_assign engine_seen 1 (lit "ada"))) as [? _].
Qed.

Lemma engine_frame_sound_witness :
  engine_inv engine_assigned ∧ room (en_tracker engine_assigned) (a_frame 2 []) ∧
  ∃ e' res, process_frame (a_frame 2 []) engine_assigned = Some (e', res) ∧ engine_inv e'.
Proof.
  assert (room (en_tracker engine_assigned) (a_frame 2 [])) as Hroom by by apply room_b_true; vm_compute.
  split; [exact engine_assigned_inv|]. split; [exact Hroom|].
  destruct (engine_frame_sound _ _ engine_assigned_inv Hroom) as (e'&res&Hrun&Hinv&_).
  exact (ex_intro _ e' (ex_intro _ res (conj Hrun Hinv))).
Defined.

Lemma assignment_lasts_witness :
  engine_run engine_assigned [EoFrame (a_frame 2 [])] engine_later ∧
  rs_explicit_assignments (en_resolver engine_later) !! 1 = Some (lit "ada").
Proof.
  assert (engine_run engine_assigned [EoFrame (a_frame 2 [])] engine_later) as Hrun.
  { apply (erun_snoc _ [] _ engine_assigned); [constructor|]. by apply engine_after_step; vm_compute. }
  assert (rs_explicit_assignments (en_resolver engine_assigned) !! 1 = Some (lit "ada")) as Hs
    by by vm_compute.
  assert (Forall (spares 1) [EoFrame (a_frame 2 [])]) as Hsp by by repeat constructor.
  split; [exact Hrun|].
  destruct (assignment_lasts _ 1 (lit "ada") _ _ engine_assigned_inv Hs Hrun Hsp) as (_&Hexp&_).
  rewrite Hexp. by vm_compute.
Defined.

(** ** A cleared assignment is still reported *)

(** The identities a frame reports. *)
Definition reported (e : ActorIdentityEngineV1) (frame : FrameActorsV1) : list IdentityDecisionV1 :=
  match process_frame frame e with Some (_, Ok u) => ai_identity <$> fu_actors u | _ => [] end.

(** The player assigns a subject to a visible actor, a frame reports it, the player clears
    the assignment; the next frame, in which the detector has no embedding for the actor,
    reports the cleared assignment again as explicit. *)
Lemma cleared_assignment_still_reported :
  let e1 := engine_after engine_assigned (a_frame 2 [detection None]) in
  let e2 := clear_subject_assignment 1 e1 in
  rs_explicit_assignments (en_resolver e2) !! 1 = None ∧
  resolved_subject_id <$> reported e2 (a_frame 3 [detection None]) = [Some (lit "ada")].
Proof. split; by vm_compute. Qed.

(** ** An imported reference *)

Definition a_qualification : PinnedIdentityQualificationV1 := {|
  pq_qualification_id := lit "q"; pq_model := a_model; pq_detector_id := lit "d";
  pq_detector_revision := lit "1"; pq_preprocessing := lit "n";
  pq_calibration_fixture_sha256 := a_digest; pq_calibrated_config := identity_config_default |}.

Definition empty_qualified : QualifiedIdentityGalleryV1 := {|
  qg_schema_version := 1; qg_game_profile_id := lit "g"; qg_qualification := a_qualification;
  qg_gallery := {| ig_schema_version := 1; ig_model := a_model; ig_subjects := ∅ |};
  qg_reference_provenance := ∅ |}.

(** The value 1.0 in little-endian bytes. *)
Definition a_tensor : list Z := [0; 0; 128; 63].

Definition an_import : PortableReferenceImportV1 := {|
  pi_schema_version := 1;
  pi_provenance := {|
    qp_game_profile_id := lit "g"; qp_subject_id := lit "ada"; qp_reference_id := lit "r";
    qp_source_class := UserPrivate; qp_source_content_sha256 := a_digest;
    qp_owner_user_id := Some (lit "u"); qp_original_work_license := None;
    qp_explicit_user_consent := true; qp_local_only := true; qp_imported_at_ms := 0 |};
  pi_subject_display_name := lit "Ada"; pi_model := a_model; pi_metadata := metadata 0;
  pi_transport := F32Le; pi_tensor_sha256 := sha256_hex a_tensor; pi_tensor_f32le := a_tensor |}.

Definition imported_gallery : QualifiedIdentityGalleryV1 :=
  (import_reference an_import empty_qualified).1.

Lemma import_all_or_nothing_witness :
  ∃ g', import_reference an_import empty_qualified = (g', Ok tt) ∧
    qualified_validate g' = Ok tt ∧
    import_reference an_import g' = (g', Err DuplicateReference).
Proof.
  assert (is_ok (import_reference an_import empty_qualified).2 = true) as Hok by by vm_compute.
  assert ((import_reference an_import imported_gallery).2 = Err DuplicateReference) as Hagain
    by by vm_compute.
  unfold imported_gallery in Hagain.
  destruct (import_reference an_import empty_qualified) as [g' [[]|]] eqn:E; [|discriminate Hok].
  exists g'. split; [reflexivity|].
  destruct (import_all_or_nothing an_import empty_qualified g' (Ok tt) E) as (Hvalid&_).
  split; [exact Hvalid|]. cbn [fst] in Hagain.
  destruct (import_reference an_import g') as [g2 res] eqn:E2. cbn [snd] in Hagain. subst res.
  rewrite (import_all_or_nothing an_import g' g2 _ E2). reflexivity.
Defined.

(** ** Trusted frames *)

Definition a_target : TrustedCaptureTargetV1 := {|
  ct_capture_session_id := lit "s"; ct_process_id := 7; ct_window_handle := 9;
  ct_executable_name := lit "Game.EXE" |}.

Definition trusted_frame (sequence : Z) : TrustedWgcIdentityFrameV1 := {|
  wf_schema_version := 1; wf_target := a_target; wf_frame_sequence := sequence;
  wf_device_generation := 1; wf_geometry_epoch := 1; wf_source_frame_qpc := 100 * sequence;
  wf_qpc_frequency := 10; wf_captured_at_ms := sequence; wf_content_sha256 := a_digest;
  wf_advancing_frame_verified := true; wf_overlay_capture_excluded := true;
  wf_protected_online_detected := false; wf_anti_cheat_detected := false;
  wf_observations := [detection (Some (an_embedding sequence))] |}.

Definition an_adapter : TrustedWgcEvidenceAdapterV1 := {|
  wa_expected_target := a_target; wa_qualification := a_qualification;
  wa_last_frame_sequence := None; wa_last_source_frame_qpc := None; wa_device_generation := None;
  wa_geometry_epoch := None |}.

Definition pipe_after (f : TrustedWgcIdentityFrameV1)
    (we : TrustedWgcEvidenceAdapterV1 * ActorIdentityEngineV1) :=
  match process_trusted f we.1 we.2 with Some (w, e, _) => (w, e) | None => we end.

Definition pipe_start : TrustedWgcEvidenceAdapterV1 * ActorIdentityEngineV1 :=
  (an_adapter, ok_value an_engine (into_engine no_tracker imported_gallery)).

Definition pipe_one : TrustedWgcEvidenceAdapterV1 * ActorIdentityEngineV1 :=
  pipe_after (trusted_frame 1) pipe_start.

Lemma pipe_one_run : trusted_run pipe_start.1 pipe_start.2 [trusted_frame 1] pipe_one.1 pipe_one.2.
Proof.
  assert (is_some (process_trusted (trusted_frame 1) pipe_start.1 pipe_start.2) = true) as Hs
    by by vm_compute.
  assert (is_ok (adapt (trusted_frame 1) pipe_start.1).2 = true) as Ha by by vm_compute.
  assert (room (en_tracker pipe_start.2) (frame_of (trusted_frame 1))) as Hroom
    by by apply room_b_true; vm_compute.
  unfold pipe_one, pipe_after.
  destruct (process_trusted (trusted_frame 1) pipe_start.1 pipe_start.2) as [[[w e] res]|] eqn:E;
    [|discriminate Hs].
  pose proof (tr_frame _ _ [] _ _ _ _ _ _ (tr_start pipe_start.1 pipe_start.2) Hroom E) as Hrun.
  rewrite Ha in Hrun. exact Hrun.
Qed.


(** A capture clock that goes back: the adapter lets the frame through and remembers it,
    the engine refuses it, and the frame cannot be sent again with its clock corrected. *)
Definition frame_clock_back : TrustedWgcIdentityFrameV1 := {|
  wf_schema_version := 1; wf_target := a_target; wf_frame_sequence := 2;
  wf_device_generation := 1; wf_geometry_epoch := 1; wf_source_frame_qpc := 200;
  wf_qpc_frequency := 10; wf_captured_at_ms := 0; wf_content_sha256 := a_digest;
  wf_advancing_frame_verified := true; wf_overlay_capture_excluded := true;
  wf_protected_online_detected := false; wf_anti_cheat_detected := false;
  wf_observations := [detection (Some (an_embedding 2))] |}.

Definition pipe_answer (f : TrustedWgcIdentityFrameV1)
    (we : TrustedWgcEvidenceAdapterV1 * ActorIdentityEngineV1) :=
  match process_trusted f we.1 we.2 with
  | Some (_, _, Err error) => Some error | _ => None end.

Example clock_back_frame_lost :
  pipe_answer frame_clock_back pipe_one = Some (QualifiedEngine (EngineTracker NonMonotonicTimestamp)) ∧
  is_ok (adapt (trusted_frame 2) pipe_one.1).2 = true ∧
  is_ok (adapt (trusted_frame 2) (pipe_after frame_clock_back pipe_one).1).2 = false.
Proof. split; [by vm_compute|]. split; by vm_compute. Qed.
