(* ===== verification/HostedTypes.v ===== *)
(** * Hosted language models: data, errors and local validation
    ([crates/providers-llm/src/{error,types}.rs])

    The requests the adapters send, the events they yield, the sanitised errors, and the
    checks made before anything leaves the machine. JSON values and URLs belong to
    third-party crates: what the code calls on them is an interface. *)

From S2P Require Import Prelude Text Float.

#[local] Open Scope Z_scope.

(** ** Third-party values *)

(** [serde_json]: the constructors of a value, [get], [pointer] and the [as_*] accessors,
    parsing, and the length of the compact encoding. Objects are maps; the parts of an
    array or an object are less deep than the value. *)
Class JsonValueApi := {
  json_value : Type;
  json_parse : str → option json_value;
  json_from_slice : list Z → option json_value;
  json_get : str → json_value → option json_value;
  json_pointer : str → json_value → option json_value;
  json_as_str : json_value → option str;
  json_as_bool : json_value → option bool;
  json_as_u64 : json_value → option Z;
  json_as_f64 : json_value → option f64;
  json_as_array : json_value → option (list json_value);
  json_is_object : json_value → bool;
  json_encoded_len : json_value → option Z;
  json_as_object : json_value → option (gmap str json_value);
  json_null : json_value;
  json_bool : bool → json_value;
  json_u64 : Z → json_value;
  json_f32 : f32 → json_value;
  json_string : str → json_value;
  json_array : list json_value → json_value;
  json_object : gmap str json_value → json_value;
  json_depth : json_value → nat;
  json_array_view : ∀ vs, json_as_array (json_array vs) = Some vs;
  json_array_not_object : ∀ vs, json_as_object (json_array vs) = None;
  json_array_depth : ∀ v vs, json_as_array v = Some vs →
    Forall (λ w, json_depth w < json_depth v)%nat vs;
  json_object_depth : ∀ v m, json_as_object v = Some m →
    map_Forall (λ _ w, json_depth w < json_depth v)%nat m
}.

(** [Value::Object(Default::default())]. *)
Definition json_empty_object `{JsonValueApi} : json_value := json_object ∅.

(** [url::Url]: the accessors and the two setters the adapters use. *)
Class UrlApi := {
  url : Type;
  url_scheme : url → str;
  url_host_str : url → option str;
  url_port : url → option Z;
  url_path : url → str;
  url_username : url → str;
  url_password : url → option str;
  url_query : url → option str;
  url_fragment : url → option str;
  url_set_path : str → url → url;
  url_set_query : option str → url → url
}.

(** ** Errors *)

Inductive ErrorKind :=
| EkCancelled | EkTimeout | EkAuthentication | EkRateLimited | EkInvalidRequest
| EkUnavailable | EkProtocol | EkSecretUnavailable | EkPollingRequired | EkInternal.
#[export] Instance ErrorKind_eq_dec : EqDecision ErrorKind.
Proof. solve_decision. Defined.

(** [ProviderError] of the adapters. *)
Record HostedError := {
  he_provider_id : str;
  he_kind : ErrorKind;
  he_message : str;
  he_retryable : bool;
  he_retry_after : option Z;
  he_http_status : option Z;
  he_request_id : option str
}.
#[export] Instance HostedError_eq_dec : EqDecision HostedError.
Proof. solve_decision. Defined.

Definition hosted_error (provider_id : str) (kind : ErrorKind) (message : str) : HostedError := {|
  he_provider_id := provider_id;
  he_kind := kind;
  he_message := message;
  he_retryable :=
    match kind with EkCancelled | EkTimeout | EkRateLimited | EkUnavailable => true | _ => false end;
  he_retry_after := None;
  he_http_status := None;
  he_request_id := None |}.

Definition hosted_cancelled (provider_id : str) : HostedError :=
  hosted_error provider_id EkCancelled (lit "request cancelled").
Definition hosted_timeout (provider_id : str) : HostedError :=
  hosted_error provider_id EkTimeout (lit "provider request timed out").
Definition hosted_protocol (provider_id message : str) : HostedError :=
  hosted_error provider_id EkProtocol message.

(** The category of an HTTP status. *)
Definition status_kind (status : Z) : ErrorKind :=
  if (status =? 401) || (status =? 403) || (status =? 498) then EkAuthentication else
  if (status =? 408) || (status =? 504) then EkTimeout else
  if status =? 499 then EkCancelled else
  if status =? 429 then EkRateLimited else
  if (400 <=? status) && (status <=? 499) then EkInvalidRequest else
  if (500 <=? status) && (status <=? 599) then EkUnavailable else
  EkProtocol.

Definition set_http_status (status : Z) (e : HostedError) : HostedError := {|
  he_provider_id := he_provider_id e; he_kind := he_kind e; he_message := he_message e;
  he_retryable := he_retryable e; he_retry_after := he_retry_after e;
  he_http_status := Some status; he_request_id := he_request_id e |}.
Definition set_request_id (id : option str) (e : HostedError) : HostedError := {|
  he_provider_id := he_provider_id e; he_kind := he_kind e; he_message := he_message e;
  he_retryable := he_retryable e; he_retry_after := he_retry_after e;
  he_http_status := he_http_status e; he_request_id := id |}.
Definition set_retry_after (after : option Z) (e : HostedError) : HostedError := {|
  he_provider_id := he_provider_id e; he_kind := he_kind e; he_message := he_message e;
  he_retryable := he_retryable e; he_retry_after := after;
  he_http_status := he_http_status e; he_request_id := he_request_id e |}.

Definition from_http (provider_id : str) (status : Z) : HostedError :=
  set_http_status status
    (hosted_error provider_id (status_kind status) (lit "provider returned HTTP status " ++ dec status)).

(** What [reqwest::Error] says about itself. *)
Record TransportFailure := {
  tf_is_timeout : bool;
  tf_is_connect : bool;
  tf_is_request : bool;
  tf_is_builder : bool
}.

(** [ProviderError::transport]: classified without the text of the failure. *)
Definition hosted_transport (provider_id : str) (e : TransportFailure) : HostedError :=
  if tf_is_timeout e then hosted_timeout provider_id
  else if tf_is_connect e then
    hosted_error provider_id EkUnavailable (lit "provider connection failed")
  else if tf_is_request e || tf_is_builder e then
    hosted_error provider_id EkInvalidRequest (lit "provider request could not be constructed")
  else hosted_error provider_id EkUnavailable (lit "provider transport failed").

(** ** Identifiers *)

Definition valid_stable_id (value : str) : bool :=
  negb (str_is_empty value) && (str_len value <=? 128)
  && forallb (λ c, is_ascii_lowercase c || is_ascii_digit c || one_of (lit "-_.") c) value.

Definition valid_model_id (value : str) : bool :=
  negb (str_is_empty value) && (str_len value <=? 512)
  && negb (str_contains (lit "..") value) && negb (text_starts_with (lit "/") value)
  && forallb (λ c, is_ascii_alphanumeric c || one_of (lit "-_./:") c) value.

Definition valid_tool_name (value : str) : bool :=
  negb (str_is_empty value) && (str_len value <=? 128)
  && forallb (λ c, is_ascii_alphanumeric c || one_of (lit "-_") c) value.

Definition valid_opaque_id (value : str) : bool :=
  negb (str_is_empty value) && (str_len value <=? 512) && negb (existsb is_control value).

(** ** Capabilities *)

Inductive ProviderProtocol :=
| OpenAiResponses | AnthropicMessages | GeminiGenerateContent | OpenAiChatCompletions
| CohereChat | NvidiaNimChat.
#[export] Instance ProviderProtocol_eq_dec : EqDecision ProviderProtocol.
Proof. solve_decision. Defined.

Record PrivacyCapabilities := {
  pv_application_stateless : bool;
  pv_request_disables_storage : bool;
  pv_provider_may_retain_data : bool
}.

Record HostedCapabilities := {
  hc_provider_id : str;
  hc_display_name : str;
  hc_protocol : ProviderProtocol;
  hc_streaming : bool;
  hc_cancellation : bool;
  hc_tool_calls : bool;
  hc_usage_reporting : bool;
  hc_model_listing : bool;
  hc_json_schema : bool;
  hc_privacy : PrivacyCapabilities
}.

Definition capabilities_validate (c : HostedCapabilities) : result HostedError unit :=
  if negb (valid_stable_id (hc_provider_id c)) || is_blank (hc_display_name c) then
    Err (hosted_protocol (hc_provider_id c) (lit "provider capability descriptor is invalid")) else
  if negb (hc_streaming c) || negb (hc_cancellation c) then
    Err (hosted_protocol (hc_provider_id c)
           (lit "hosted adapter must support streaming and cancellation")) else
  Ok tt.

Inductive CapabilitySupport := Supported | Unsupported | UnknownSupport.
#[export] Instance CapabilitySupport_eq_dec : EqDecision CapabilitySupport.
Proof. solve_decision. Defined.

Record ModelCapabilities := {
  mcap_streaming : CapabilitySupport;
  mcap_tool_calls : CapabilitySupport;
  mcap_json_schema : CapabilitySupport;
  mcap_reasoning : CapabilitySupport
}.
#[export] Instance ModelCapabilities_eq_dec : EqDecision ModelCapabilities.
Proof. solve_decision. Defined.

(** [ModelCapabilities::default]. *)
Definition model_capabilities_default : ModelCapabilities := {|
  mcap_streaming := UnknownSupport; mcap_tool_calls := UnknownSupport;
  mcap_json_schema := UnknownSupport; mcap_reasoning := UnknownSupport |}.

Record ModelInfo := {
  mi_id : str;
  mi_display_name : option str;
  mi_owned_by : option str;
  mi_supports_generation : bool;
  mi_capabilities : ModelCapabilities
}.
#[export] Instance ModelInfo_eq_dec : EqDecision ModelInfo.
Proof. solve_decision. Defined.

(** ** Where an adapter may connect *)

Record AdapterConfig `{UrlApi} := {
  ac_base_url : url;
  ac_credential : str;
  ac_request_timeout : Z;
  ac_allow_insecure_loopback : bool
}.

Section config.
Context `{UrlApi}.

Definition loopback_host (u : url) : bool :=
  match url_host_str u with
  | Some h => str_eqb h (lit "localhost") || str_eqb h (lit "127.0.0.1") || str_eqb h (lit "::1")
  | None => false
  end.

Definition adapter_config_validate (provider_id : str) (c : AdapterConfig)
    : result HostedError unit :=
  let u := ac_base_url c in
  let secure := str_eqb (url_scheme u) (lit "https") in
  if negb (secure || ac_allow_insecure_loopback c && loopback_host u)
     || is_none (url_host_str u)
     || negb (str_is_empty (url_username u))
     || is_some (url_password u)
     || is_some (url_query u)
     || is_some (url_fragment u)
     || (ac_request_timeout c <? 100 * 1000000)
     || (15 * 60 * 1000000000 <? ac_request_timeout c) then
    Err (hosted_error provider_id EkInvalidRequest (lit "adapter configuration is invalid")) else
  Ok tt.
End config.

(** ** Requests *)

Definition MAX_MESSAGES : Z := 4096.
Definition MAX_TEXT_BYTES : Z := 1048576.
Definition MAX_REQUEST_BYTES : Z := 8 * 1048576.
Definition MAX_TOOLS : Z := 128.
Definition MAX_SCHEMA_BYTES : Z := 256 * 1024.

Inductive ChatRole := SystemRole | UserRole | AssistantRole | ToolRole.
#[export] Instance ChatRole_eq_dec : EqDecision ChatRole.
Proof. solve_decision. Defined.

Record ChatMessage := {
  cm_role : ChatRole;
  cm_content : str;
  cm_name : option str;
  cm_tool_call_id : option str
}.

Record ToolDefinition `{JsonValueApi} := {
  td_name : str;
  td_description : str;
  td_input_schema : json_value
}.

Record LlmRequest `{JsonValueApi} := {
  lr_model : str;
  lr_messages : list ChatMessage;
  lr_maximum_output_tokens : Z;
  lr_temperature : option f32;
  lr_tools : list ToolDefinition;
  lr_response_json_schema : option json_value
}.

(** [!value.is_finite() || !(0.0..=2.0).contains(&value)]. *)
Definition bad_temperature (value : f32) : bool :=
  negb (is_finite value) || negb (range_contains f_zero f32_two value).

Section request.
Context `{JsonValueApi} (provider_id : str).

Definition invalid_request : HostedError :=
  hosted_error provider_id EkInvalidRequest (lit "language model request failed local validation").

(** One message: its checks, and the running size. *)
Definition check_message (size : Z) (m : ChatMessage) : result HostedError Z :=
  let size := sat_add64 size (str_len (cm_content m)) in
  if (MAX_TEXT_BYTES <? str_len (cm_content m))
     || is_some_and (cm_name m) (λ name, negb (valid_tool_name name))
     || is_some_and (cm_tool_call_id m) (λ id, negb (valid_opaque_id id))
     || bool_decide (cm_role m = ToolRole)
        && (is_none (cm_tool_call_id m) || is_none (cm_name m)) then
    Err invalid_request else
  Ok size.

Definition check_tool (size : Z) (t : ToolDefinition) : result HostedError Z :=
  schema_size ← ok_or (json_encoded_len (td_input_schema t)) invalid_request;
  let size := sat_add64 (sat_add64 (sat_add64 size (str_len (td_name t)))
                           (str_len (td_description t))) schema_size in
  if negb (valid_tool_name (td_name t))
     || (4096 <? str_len (td_description t))
     || (MAX_SCHEMA_BYTES <? schema_size)
     || negb (json_is_object (td_input_schema t)) then
    Err invalid_request else
  Ok size.

(** A [for] loop with [?] that threads the size. *)
Fixpoint check_sizes {A} (check : Z → A → result HostedError Z) (size : Z) (l : list A)
    : result HostedError Z :=
  match l with
  | [] => Ok size
  | x :: l => size ← check size x; check_sizes check size l
  end.

Definition check_schema (schema : option json_value) : result HostedError unit :=
  match schema with
  | None => Ok tt
  | Some schema =>
      len ← ok_or (json_encoded_len schema) invalid_request;
      if (MAX_SCHEMA_BYTES <? len) || negb (json_is_object schema) then Err invalid_request
      else Ok tt
  end.

(** [LlmRequest::validate]. *)
Definition llm_request_validate (r : LlmRequest) : result HostedError unit :=
  if negb (valid_model_id (lr_model r))
     || bool_decide (lr_messages r = [])
     || (MAX_MESSAGES <? Z.of_nat (length (lr_messages r)))
     || (lr_maximum_output_tokens r =? 0)
     || (1000000 <? lr_maximum_output_tokens r)
     || is_some_and (lr_temperature r) bad_temperature
     || (MAX_TOOLS <? Z.of_nat (length (lr_tools r))) then
    Err invalid_request else
  size ← check_sizes check_message (str_len (lr_model r)) (lr_messages r);
  size ← check_sizes check_tool size (lr_tools r);
  _ ← check_schema (lr_response_json_schema r);
  if MAX_REQUEST_BYTES <? size then Err invalid_request else Ok tt.
End request.

(** ** Events *)

Record TokenUsage := {
  tu_input_tokens : Z;
  tu_output_tokens : Z;
  tu_cached_input_tokens : Z;
  tu_total_tokens : Z
}.
#[export] Instance TokenUsage_eq_dec : EqDecision TokenUsage.
Proof. solve_decision. Defined.

Inductive FinishReason :=
| EndTurn | MaximumTokens | ToolUse | StopSequence | Safety | FinishCancelled
| OtherReason (reason : str).
#[export] Instance FinishReason_eq_dec : EqDecision FinishReason.
Proof. solve_decision. Defined.

Inductive LlmEvent `{JsonValueApi} :=
| Started (request_id : option str)
| TextDelta (text : str) (content_index : Z)
| ToolCallStarted (index : Z) (id name : str)
| ToolCallDelta (index : Z) (arguments_fragment : str)
| ToolCallCompleted (index : Z) (id name : str) (arguments : json_value)
| Usage (usage : TokenUsage)
| Finished (reason : FinishReason) (provider_reason : str)
| StreamError (error : HostedError).

(** [LlmEvent::terminal]. *)
Definition event_terminal `{JsonValueApi} (e : LlmEvent) : bool :=
  match e with Finished _ _ | StreamError _ => true | _ => false end.
