(* ===== verification/HostedRequest.v ===== *)
(** * Hosted language models: what is sent ([crates/providers-llm/src/adapter.rs])

    The capabilities each adapter declares, the endpoint, the headers and the JSON body of
    a generation request, in the six protocols. *)

From S2P Require Import Prelude Text Float HostedTypes.

#[local] Open Scope Z_scope.

(** ** Capabilities of the adapters *)

Record CompatibleOptions := {
  co_provider_id : str;
  co_display_name : str;
  co_supports_model_listing : bool;
  co_supports_json_schema : bool;
  co_send_store_false : bool;
  co_provider_may_retain_data : bool
}.

Definition capabilities (id name : str) (protocol : ProviderProtocol)
    (model_listing json_schema request_disables_storage provider_may_retain_data : bool)
    : HostedCapabilities := {|
  hc_provider_id := id; hc_display_name := name; hc_protocol := protocol;
  hc_streaming := true; hc_cancellation := true; hc_tool_calls := true;
  hc_usage_reporting := true; hc_model_listing := model_listing; hc_json_schema := json_schema;
  hc_privacy := {| pv_application_stateless := true;
                   pv_request_disables_storage := request_disables_storage;
                   pv_provider_may_retain_data := provider_may_retain_data |} |}.

Definition compatible_capabilities (o : CompatibleOptions) : HostedCapabilities :=
  capabilities (co_provider_id o) (co_display_name o) OpenAiChatCompletions
    (co_supports_model_listing o) (co_supports_json_schema o) (co_send_store_false o)
    (co_provider_may_retain_data o).

(** ** Endpoints *)

Section endpoint.
Context `{UrlApi}.

(** [relative.split_once('?')], or the whole and no query. *)
Fixpoint split_query (s : str) : str * str :=
  match s with
  | [] => ([], [])
  | c :: rest =>
      if c =? 63 then ([], rest)
      else let '(path, query) := split_query rest in (c :: path, query)
  end.

Definition is_slash (c : char) : bool := c =? 47.

Definition append_endpoint (base : url) (relative : str) : url :=
  let '(path_part, query) := split_query relative in
  let path := trim_end_by is_slash (url_path base) ++ lit "/" ++ trim_start_by is_slash path_part in
  url_set_query (if str_is_empty query then None else Some query) (url_set_path path base).

(** [strip_prefix(p).unwrap_or(s)]. *)
Definition without_prefix (p s : str) : str := default s (strip_prefix p s).

Definition generation_path (protocol : ProviderProtocol) (model : str) : str :=
  match protocol with
  | OpenAiResponses => lit "responses"
  | AnthropicMessages => lit "messages"
  | OpenAiChatCompletions => lit "chat/completions"
  | CohereChat => lit "v2/chat"
  | NvidiaNimChat => lit "v1/chat/completions"
  | GeminiGenerateContent =>
      lit "models/" ++ without_prefix (lit "models/") model ++ lit ":streamGenerateContent?alt=sse"
  end.
Definition generation_endpoint (base : url) (protocol : ProviderProtocol) (model : str) : url :=
  append_endpoint base (generation_path protocol model).

Definition model_endpoint (base : url) (protocol : ProviderProtocol) : url :=
  append_endpoint base
    match protocol with
    | GeminiGenerateContent => lit "models?pageSize=1000"
    | CohereChat => lit "v1/models?page_size=1000&endpoint=chat"
    | NvidiaNimChat => lit "v1/models"
    | _ => lit "models"
    end.

Definition trusted_nvidia_endpoint (c : AdapterConfig) : bool :=
  let u := ac_base_url c in
  let hosted := str_eqb (url_scheme u) (lit "https")
    && bool_decide (url_host_str u = Some (lit "integrate.api.nvidia.com"))
    && is_none (url_port u) && str_eqb (url_path u) (lit "/") in
  let fixture := ac_allow_insecure_loopback c && str_eqb (url_scheme u) (lit "http")
    && loopback_host u in
  hosted || fixture.
End endpoint.

(** ** Headers *)

(** [HeaderValue::from_bytes] of the [http] crate: what a header value may hold. *)
Class HeaderApi := { header_value_ok : list Z → bool }.

Definition ascii_bytes (s : string) : list Z := lit s.

Definition invalid_credential (provider_id : str) : HostedError :=
  hosted_error provider_id EkAuthentication
    (lit "provider credential has an invalid header representation").

Section headers.
Context `{HeaderApi}.

Definition header_value (provider_id : str) (bytes : list Z) : result HostedError (list Z) :=
  if header_value_ok bytes then Ok bytes else Err (invalid_credential provider_id).

Definition auth_headers (protocol : ProviderProtocol) (secret : list Z) (provider_id : str)
    : result HostedError (list (str * list Z)) :=
  match protocol with
  | AnthropicMessages =>
      key ← header_value provider_id secret;
      Ok [(lit "x-api-key", key); (lit "anthropic-version", ascii_bytes "2023-06-01")]
  | GeminiGenerateContent =>
      key ← header_value provider_id secret;
      Ok [(lit "x-goog-api-key", key)]
  | _ =>
      bearer ← header_value provider_id (ascii_bytes "Bearer " ++ secret);
      Ok ((lit "authorization", bearer)
          :: if bool_decide (protocol = CohereChat)
             then [(lit "x-client-name", ascii_bytes "interactive-npcs")] else [])
  end.
End headers.

(** ** Bodies *)

Section body.
Context `{JsonValueApi}.

(** A map of a [json!] object and a body: fields are inserted in turn. *)
Abbreviation body := (gmap str json_value) (only parsing).
Definition fields (l : list (string * json_value)) : body :=
  foldl (λ m f, <[lit f.1 := f.2]> m) ∅ l.
Definition obj (l : list (string * json_value)) : json_value := json_object (fields l).
Definition text (s : string) : json_value := json_string (lit s).
Definition json_option (o : option str) : json_value :=
  match o with Some s => json_string s | None => json_null end.

(** [if let Some(x) = o { body.insert(key, f(x)); }] *)
Definition insert_some {A} (key : string) (o : option A) (f : A → json_value) (b : body) : body :=
  match o with Some x => <[lit key := f x]> b | None => b end.
(** [if cond { body.insert(key, value); }] *)
Definition insert_if (cond : bool) (key : string) (value : json_value) (b : body) : body :=
  if cond then <[lit key := value]> b else b.

Definition has_tools (r : LlmRequest) : bool := negb (bool_decide (length (lr_tools r) = 0%nat)).

Definition role_text (role : ChatRole) : json_value :=
  text match role with
       | SystemRole => "system" | UserRole => "user" | AssistantRole => "assistant"
       | ToolRole => "tool"
       end.

(** [collect::<Result<Vec<_>, _>>()]: the first error wins. *)
Fixpoint collect_results {E A} (l : list (result E A)) : result E (list A) :=
  match l with
  | [] => Ok []
  | r :: l => a ← r; rest ← collect_results l; Ok (a :: rest)
  end.

(** *** OpenAI responses *)

Definition openai_response_message (m : ChatMessage) : json_value :=
  if bool_decide (cm_role m = ToolRole) then
    obj [("type", text "function_call_output"); ("call_id", json_option (cm_tool_call_id m));
         ("output", json_string (cm_content m))]%string
  else
    obj [("role", role_text (cm_role m)); ("content", json_string (cm_content m))]%string.

Definition openai_response_tool (t : ToolDefinition) : json_value :=
  obj [("type", text "function"); ("name", json_string (td_name t));
       ("description", json_string (td_description t)); ("parameters", td_input_schema t);
       ("strict", json_bool true)]%string.

Definition openai_responses_body (r : LlmRequest) : body :=
  let b := fields [("model", json_string (lr_model r)); ("stream", json_bool true);
                   ("store", json_bool false);
                   ("max_output_tokens", json_u64 (lr_maximum_output_tokens r));
                   ("input", json_array (openai_response_message <$> lr_messages r))]%string in
  let b := insert_some "temperature" (lr_temperature r) json_f32 b in
  let b := insert_if (has_tools r) "tools" (json_array (openai_response_tool <$> lr_tools r)) b in
  insert_some "text" (lr_response_json_schema r) (λ schema,
    obj [("format", obj [("type", text "json_schema"); ("name", text "npc_response");
                         ("strict", json_bool true); ("schema", schema)])]%string) b.

(** *** Anthropic messages *)

(** The system messages joined with a blank line. *)
Fixpoint join_paragraphs (l : list str) : str :=
  match l with
  | [] => []
  | [s] => s
  | s :: l => s ++ [10; 10] ++ join_paragraphs l
  end.

Definition is_system (m : ChatMessage) : bool := bool_decide (cm_role m = SystemRole).
Definition system_text (r : LlmRequest) : str :=
  join_paragraphs (cm_content <$> List.filter is_system (lr_messages r)).
Definition conversation (r : LlmRequest) : list ChatMessage :=
  List.filter (λ m, negb (is_system m)) (lr_messages r).

Definition anthropic_message (m : ChatMessage) : json_value :=
  match cm_role m with
  | ToolRole =>
      let content := default (json_string (cm_content m)) (json_parse (cm_content m)) in
      obj [("role", text "user");
           ("content", json_array
             [obj [("type", text "tool_result"); ("tool_use_id", json_option (cm_tool_call_id m));
                   ("content", content)]])]%string
  | role => obj [("role", role_text role); ("content", json_string (cm_content m))]%string
  end.

Definition anthropic_tool (t : ToolDefinition) : json_value :=
  obj [("name", json_string (td_name t)); ("description", json_string (td_description t));
       ("input_schema", td_input_schema t)]%string.

Definition anthropic_body (r : LlmRequest) : body :=
  let b := fields [("model", json_string (lr_model r)); ("stream", json_bool true);
                   ("max_tokens", json_u64 (lr_maximum_output_tokens r));
                   ("messages", json_array (anthropic_message <$> conversation r))]%string in
  let b := insert_if (negb (str_is_empty (system_text r))) "system"
             (json_string (system_text r)) b in
  let b := insert_some "temperature" (lr_temperature r) json_f32 b in
  let b := insert_if (has_tools r) "tools" (json_array (anthropic_tool <$> lr_tools r)) b in
  insert_some "output_config" (lr_response_json_schema r) (λ schema,
    obj [("format", obj [("type", text "json_schema"); ("schema", schema)])]%string) b.

(** *** Gemini *)

(** [object.remove("const")] and [entry("enum").or_insert(..)]. *)
Definition const_to_enum (m : body) : body :=
  match m !! lit "const" with
  | None => m
  | Some constant =>
      let m := delete (lit "const") m in
      match m !! lit "enum" with
      | Some _ => m
      | None => <[lit "enum" := json_array [constant]]> m
      end
  end.

(** The recursion is on the depth of the value. *)
Fixpoint portable_schema (fuel : nat) (schema : json_value) : outcome json_value :=
  match json_as_object schema, json_as_array schema with
  | Some m, _ =>
      match fuel with
      | O => OutOfFuel
      | S fuel =>
          m ← map_fold (λ key value acc,
                          m ← acc; value ← portable_schema fuel value; Done (<[key := value]> m))
                (Done ∅) (const_to_enum m);
          Done (json_object m)
      end
  | None, Some values =>
      match fuel with
      | O => OutOfFuel
      | S fuel =>
          values ← foldr (λ value acc,
                            values ← acc; value ← portable_schema fuel value; Done (value :: values))
                     (Done []) values;
          Done (json_array values)
      end
  | None, None => Done schema
  end.
(** An object is at most replaced by one more array around a constant, so twice the depth
    and one more is enough. *)
Definition gemini_portable_json_schema (schema : json_value) : outcome json_value :=
  portable_schema (S (2 * json_depth schema)) schema.

Definition gemini_message (m : ChatMessage) : result HostedError json_value :=
  let parts role := obj [("role", text role);
                         ("parts", json_array [obj [("text", json_string (cm_content m))]])]%string in
  match cm_role m with
  | AssistantRole => Ok (parts "model"%string)
  | ToolRole =>
      response ← ok_or (json_parse (cm_content m))
        (hosted_error (lit "gemini") EkInvalidRequest (lit "Gemini tool results must be JSON"));
      Ok (obj [("role", text "user");
               ("parts", json_array
                 [obj [("functionResponse",
                        obj [("name", json_option (cm_name m)); ("response", response)])]])]%string)
  | _ => Ok (parts "user"%string)
  end.

Definition gemini_tool (t : ToolDefinition) : json_value :=
  obj [("name", json_string (td_name t)); ("description", json_string (td_description t));
       ("parametersJsonSchema", td_input_schema t)]%string.

Definition gemini_generation (r : LlmRequest) : outcome body :=
  let g := fields [("maxOutputTokens", json_u64 (lr_maximum_output_tokens r))]%string in
  let g := insert_some "temperature" (lr_temperature r) json_f32 g in
  match lr_response_json_schema r with
  | None => Done g
  | Some schema =>
      schema ← gemini_portable_json_schema schema;
      Done (<[lit "responseJsonSchema" := schema]>
              (<[lit "responseMimeType" := text "application/json"]> g))
  end.

Definition gemini_body (r : LlmRequest) : outcome (result HostedError body) :=
  match collect_results (gemini_message <$> conversation r) with
  | Err e => Done (Err e)
  | Ok contents =>
      generation ← gemini_generation r;
      let b := fields [("contents", json_array contents);
                       ("generationConfig", json_object generation);
                       ("store", json_bool false)]%string in
      let b := insert_if (negb (str_is_empty (system_text r))) "systemInstruction"
                 (obj [("parts", json_array [obj [("text", json_string (system_text r))]])]%string) b in
      Done (Ok (insert_if (has_tools r) "tools"
        (json_array [obj [("functionDeclarations",
                           json_array (gemini_tool <$> lr_tools r))]%string]) b))
  end.

(** *** Chat completions, Cohere and NVIDIA *)

Definition chat_message (m : ChatMessage) : json_value :=
  json_object (insert_some "tool_call_id" (cm_tool_call_id m) json_string
    (insert_some "name" (cm_name m) json_string
      (fields [("role", role_text (cm_role m)); ("content", json_string (cm_content m))]%string))).

Definition function_tool (strict : bool) (t : ToolDefinition) : json_value :=
  obj [("type", text "function");
       ("function", json_object (insert_if strict "strict" (json_bool true)
          (fields [("name", json_string (td_name t));
                   ("description", json_string (td_description t));
                   ("parameters", td_input_schema t)])))]%string.

Definition named_schema (schema : json_value) : json_value :=
  obj [("type", text "json_schema");
       ("json_schema", obj [("name", text "npc_response"); ("strict", json_bool true);
                            ("schema", schema)])]%string.

Definition apply_qualified_model_parameters (o : CompatibleOptions) (model : str) (b : body) : body :=
  let b :=
    if str_eqb (co_provider_id o) (lit "groq")
       && (str_eqb model (lit "qwen/qwen3.6-27b") || str_eqb model (lit "qwen/qwen3.8-27b"))
    then <[lit "reasoning_format" := text "hidden"]> (<[lit "reasoning_effort" := text "none"]> b)
    else b in
  insert_if (str_eqb (co_provider_id o) (lit "openrouter")
             && str_eqb model (lit "liquid/lfm-2.5-2.6b:free")) "provider"
    (obj [("allow_fallbacks", json_bool false); ("require_parameters", json_bool true)]%string) b.

Definition compatible_body (r : LlmRequest) (options : option CompatibleOptions)
    : result HostedError body :=
  o ← ok_or options
    (hosted_error (lit "openai-compatible") EkInternal (lit "compatible options are missing"));
  let b := fields [("model", json_string (lr_model r)); ("stream", json_bool true);
                   ("stream_options", obj [("include_usage", json_bool true)]);
                   ("max_tokens", json_u64 (lr_maximum_output_tokens r));
                   ("messages", json_array (chat_message <$> lr_messages r))]%string in
  let b := insert_if (co_send_store_false o) "store" (json_bool false) b in
  let b := insert_some "temperature" (lr_temperature r) json_f32 b in
  let b := insert_if (has_tools r) "tools" (json_array (function_tool true <$> lr_tools r)) b in
  let b := insert_some "response_format" (lr_response_json_schema r) named_schema b in
  Ok (apply_qualified_model_parameters o (lr_model r) b).

Definition cohere_message (m : ChatMessage) : json_value :=
  match cm_role m with
  | ToolRole =>
      obj [("role", text "tool"); ("tool_call_id", json_option (cm_tool_call_id m));
           ("content", json_array
              [obj [("type", text "document");
                    ("document", obj [("data", json_string (cm_content m))])]])]%string
  | role => obj [("role", role_text role); ("content", json_string (cm_content m))]%string
  end.

Definition cohere_body (r : LlmRequest) : body :=
  let b := fields [("model", json_string (lr_model r)); ("stream", json_bool true);
                   ("messages", json_array (cohere_message <$> lr_messages r));
                   ("max_tokens", json_u64 (lr_maximum_output_tokens r))]%string in
  let b := insert_some "temperature" (lr_temperature r) json_f32 b in
  let b := insert_if (has_tools r) "tools" (json_array (function_tool false <$> lr_tools r)) b in
  let b := insert_some "response_format" (lr_response_json_schema r) (λ schema,
             obj [("type", text "json_object"); ("schema", schema)]%string) b in
  insert_if (str_eqb (lr_model r) (lit "command-a-plus-05-2026")) "thinking"
    (obj [("type", text "disabled")]%string) b.

Definition nvidia_nim_body (r : LlmRequest) : body :=
  let b := fields [("model", json_string (lr_model r)); ("stream", json_bool true);
                   ("max_tokens", json_u64 (lr_maximum_output_tokens r))]%string in
  let b := insert_if (text_starts_with (lit "nvidia/nemotron-3") (lr_model r)) "chat_template_kwargs"
             (obj [("enable_thinking", json_bool false)]%string) b in
  let b := <[lit "messages" := json_array (chat_message <$> lr_messages r)]> b in
  let b := insert_some "temperature" (lr_temperature r) json_f32 b in
  let b := insert_if (has_tools r) "tools" (json_array (function_tool false <$> lr_tools r)) b in
  insert_some "response_format" (lr_response_json_schema r) named_schema b.

Definition request_body (protocol : ProviderProtocol) (r : LlmRequest)
    (compatible : option CompatibleOptions) : outcome (result HostedError body) :=
  match protocol with
  | OpenAiResponses => Done (Ok (openai_responses_body r))
  | AnthropicMessages => Done (Ok (anthropic_body r))
  | GeminiGenerateContent => gemini_body r
  | OpenAiChatCompletions => Done (compatible_body r compatible)
  | CohereChat => Done (Ok (cohere_body r))
  | NvidiaNimChat => Done (Ok (nvidia_nim_body r))
  end.
End body.

(** ** Adapters *)

Record AdapterInner `{UrlApi} := {
  ai_config : AdapterConfig;
  ai_capabilities : HostedCapabilities;
  ai_compatible : option CompatibleOptions
}.

Section adapter.
Context `{UrlApi}.

(** [AdapterInner::new]; building the HTTP client can fail. *)
Definition hosted_adapter_new (client_built : bool) (config : AdapterConfig) (c : HostedCapabilities)
    (compatible : option CompatibleOptions) : result HostedError AdapterInner :=
  _ ← adapter_config_validate (hc_provider_id c) config;
  _ ← capabilities_validate c;
  if client_built then
    Ok {| ai_config := config; ai_capabilities := c; ai_compatible := compatible |}
  else Err (hosted_error (hc_provider_id c) EkInternal (lit "HTTP client initialization failed")).

Definition openai_new (built : bool) (config : AdapterConfig) : result HostedError AdapterInner :=
  hosted_adapter_new built config
    (capabilities (lit "openai") (lit "OpenAI") OpenAiResponses true true true false) None.
Definition anthropic_new (built : bool) (config : AdapterConfig) : result HostedError AdapterInner :=
  hosted_adapter_new built config
    (capabilities (lit "anthropic") (lit "Anthropic") AnthropicMessages true true false true) None.
Definition gemini_new (built : bool) (config : AdapterConfig) : result HostedError AdapterInner :=
  hosted_adapter_new built config
    (capabilities (lit "gemini") (lit "Google Gemini") GeminiGenerateContent true true true false)
    None.
Definition groq_new (built : bool) (config : AdapterConfig) : result HostedError AdapterInner :=
  let compatible := {| co_provider_id := lit "groq"; co_display_name := lit "Groq";
    co_supports_model_listing := true; co_supports_json_schema := true;
    co_send_store_false := false; co_provider_may_retain_data := true |} in
  hosted_adapter_new built config (compatible_capabilities compatible) (Some compatible).
Definition cohere_new (built : bool) (config : AdapterConfig) : result HostedError AdapterInner :=
  hosted_adapter_new built config
    (capabilities (lit "cohere") (lit "Cohere") CohereChat true true false true) None.

Definition compatible_new (built : bool) (config : AdapterConfig) (o : CompatibleOptions)
    : result HostedError AdapterInner :=
  if negb (valid_stable_id (co_provider_id o)) || is_blank (co_display_name o)
     || (128 <? str_len (co_display_name o)) then
    Err (hosted_error (lit "openai-compatible") EkInvalidRequest
           (lit "OpenAI-compatible provider options are invalid")) else
  hosted_adapter_new built config (compatible_capabilities o) (Some o).

(** *** NVIDIA: capabilities are evidence about exact model identifiers *)

Record NvidiaNim := {
  nn_inner : AdapterInner;
  nn_verified : gmap str ModelCapabilities;
  nn_cache_ttl : Z
}.

Definition NVIDIA_NIM_MIN_MODEL_CACHE_TTL : Z := 100 * 1000000.
Definition NVIDIA_NIM_MAX_MODEL_CACHE_TTL : Z := 24 * 60 * 60 * 1000000000.

Definition nvidia_new (built : bool) (config : AdapterConfig)
    (verified : gmap str ModelCapabilities) (ttl : Z) : result HostedError NvidiaNim :=
  if negb (trusted_nvidia_endpoint config)
     || (4096 <? Z.of_nat (size verified))
     || existsb (λ id, negb (valid_model_id id)) (btree_keys verified)
     || negb ((NVIDIA_NIM_MIN_MODEL_CACHE_TTL <=? ttl)
              && (ttl <=? NVIDIA_NIM_MAX_MODEL_CACHE_TTL)) then
    Err (hosted_error (lit "nvidia-nim") EkInvalidRequest
           (lit "NVIDIA NIM adapter configuration is invalid")) else
  inner ← hosted_adapter_new built config
    (capabilities (lit "nvidia-nim") (lit "NVIDIA NIM API Catalog") NvidiaNimChat
       true true false true) None;
  Ok {| nn_inner := inner; nn_verified := verified; nn_cache_ttl := ttl |}.

Definition validate_model_features `{JsonValueApi} (n : NvidiaNim) (r : LlmRequest)
    : result HostedError unit :=
  let evidence := nn_verified n !! lr_model r in
  let refuse message := Err (hosted_error (lit "nvidia-nim") EkInvalidRequest message) in
  if has_tools r && negb (bool_decide (mcap_tool_calls <$> evidence = Some Supported)) then
    refuse (lit "tool calling is not verified for this exact NVIDIA model ID") else
  if is_some (lr_response_json_schema r)
     && negb (bool_decide (mcap_json_schema <$> evidence = Some Supported)) then
    refuse (lit "JSON schema output is not verified for this exact NVIDIA model ID") else
  if is_some_and evidence (λ e, bool_decide (mcap_streaming e = Unsupported)) then
    refuse (lit "streaming is explicitly unsupported for this NVIDIA model ID") else
  Ok tt.
End adapter.
