(* ===== verification/HostedParser.v ===== *)
(** * Hosted language models: the protocol parsers ([crates/providers-llm/src/parser.rs])

    One parser reads the frames of a server-sent event stream in one of six protocols and
    turns them into the events of [HostedTypes]. A handler works on the parser's state and
    on the vector of events of its frame; an error drops that vector and keeps the state. *)

From S2P Require Import Prelude Text Float Sse HostedTypes.
From Stdlib Require Import SpecFloat.

#[local] Open Scope Z_scope.

Section parser.
Context `{JsonValueApi}.

Record ToolAccumulator := {
  ta_id : str;
  ta_name : str;
  ta_arguments : str
}.

Record ProtocolParser := {
  pp_provider_id : str;
  pp_protocol : ProviderProtocol;
  pp_tools : gmap Z ToolAccumulator;
  pp_pending_finish : option (FinishReason * str);
  pp_started : bool;
  pp_terminal : bool
}.

Definition parser_new (provider_id : str) (protocol : ProviderProtocol) : ProtocolParser := {|
  pp_provider_id := provider_id; pp_protocol := protocol; pp_tools := ∅;
  pp_pending_finish := None; pp_started := false; pp_terminal := false |}.

Definition set_tools (tools : gmap Z ToolAccumulator) (p : ProtocolParser) : ProtocolParser := {|
  pp_provider_id := pp_provider_id p; pp_protocol := pp_protocol p; pp_tools := tools;
  pp_pending_finish := pp_pending_finish p; pp_started := pp_started p;
  pp_terminal := pp_terminal p |}.
Definition set_pending_finish (finish : option (FinishReason * str)) (p : ProtocolParser)
    : ProtocolParser := {|
  pp_provider_id := pp_provider_id p; pp_protocol := pp_protocol p; pp_tools := pp_tools p;
  pp_pending_finish := finish; pp_started := pp_started p; pp_terminal := pp_terminal p |}.
Definition set_started (p : ProtocolParser) : ProtocolParser := {|
  pp_provider_id := pp_provider_id p; pp_protocol := pp_protocol p; pp_tools := pp_tools p;
  pp_pending_finish := pp_pending_finish p; pp_started := true; pp_terminal := pp_terminal p |}.
Definition set_terminal (p : ProtocolParser) : ProtocolParser := {|
  pp_provider_id := pp_provider_id p; pp_protocol := pp_protocol p; pp_tools := pp_tools p;
  pp_pending_finish := pp_pending_finish p; pp_started := pp_started p; pp_terminal := true |}.

(** ** Handlers: state, events of the frame, and [?] *)

Definition handler (A : Type) : Type :=
  ProtocolParser → list LlmEvent → ProtocolParser * result HostedError (A * list LlmEvent).

#[export] Instance handler_ret : MRet handler := λ A a p events, (p, Ok (a, events)).
#[export] Instance handler_bind : MBind handler := λ A B f m p events,
  match m p events with
  | (p, Ok (a, events)) => f a p events
  | (p, Err e) => (p, Err e)
  end.

Definition read {A} (f : ProtocolParser → A) : handler A := λ p events, (p, Ok (f p, events)).
Definition update (f : ProtocolParser → ProtocolParser) : handler unit :=
  λ p events, (f p, Ok (tt, events)).
Definition push_event (e : LlmEvent) : handler unit := λ p events, (p, Ok (tt, events ++ [e])).
Definition skip : handler unit := mret tt.

(** [ok_or_else(|| ProviderError::protocol(..))?]. *)
Definition require {A} (o : option A) (message : string) : handler A := λ p events,
  match o with
  | Some a => (p, Ok (a, events))
  | None => (p, Err (hosted_protocol (pp_provider_id p) (lit message)))
  end.

(** [for x in l { ... }]. *)
Fixpoint for_each {A} (l : list A) (body : A → handler unit) : handler unit :=
  match l with
  | [] => skip
  | x :: l => _ ← body x; for_each l body
  end.

(** ** Fields *)

Definition str_at (key : string) (v : json_value) : option str :=
  json_get (lit key) v ≫= json_as_str.
Definition str_of (pointer : string) (v : json_value) : option str :=
  json_pointer (lit pointer) v ≫= json_as_str.
Definition u64_at (key : string) (v : json_value) : option Z :=
  json_get (lit key) v ≫= json_as_u64.
Definition u64_or_zero (o : option json_value) : Z := default 0 (o ≫= json_as_u64).

Definition required_str (v : json_value) (key : string) : handler str :=
  require (str_at key v) "provider event is missing a required field".

(** [usize] has 64 bits, so the conversion of the index never fails. *)
Definition required_usize (v : json_value) (key : string) : handler Z :=
  require (u64_at key v) "provider event is missing a required index".

Definition bounded_text (value : str) : str := take 128 value.

Definition map_finish (reason : str) : FinishReason :=
  let r := ascii_lowercase reason in
  let says s := str_eqb r (lit s) in
  if says "stop"%string || says "end_turn"%string || says "complete"%string || says "completed"%string
  then EndTurn else
  if says "length"%string || says "max_tokens"%string || says "max_output_tokens"%string
  then MaximumTokens else
  if says "tool_call"%string || says "tool_calls"%string || says "tool_use"%string then ToolUse else
  if says "stop_sequence"%string then StopSequence else
  if says "safety"%string || says "content_filter"%string || says "recitation"%string
     || says "blocklist"%string || says "prohibited_content"%string then Safety else
  if says "cancelled"%string then FinishCancelled else
  OtherReason (bounded_text r).

(** ** Token usage *)

Definition usage_openai (value : option json_value) : option TokenUsage :=
  value ← value;
  let input := u64_or_zero (or_else (json_get (lit "input_tokens") value)
                              (json_get (lit "prompt_tokens") value)) in
  let output := u64_or_zero (or_else (json_get (lit "output_tokens") value)
                               (json_get (lit "completion_tokens") value)) in
  let cached := u64_or_zero (or_else (json_pointer (lit "/input_tokens_details/cached_tokens") value)
                               (json_pointer (lit "/prompt_tokens_details/cached_tokens") value)) in
  Some {| tu_input_tokens := input; tu_output_tokens := output; tu_cached_input_tokens := cached;
          tu_total_tokens := default (sat_add64 input output) (u64_at "total_tokens" value) |}.

(** The additions are plain: they wrap in a release build. *)
Definition usage_anthropic (start delta : option json_value) : option TokenUsage :=
  value ← or_else start delta;
  let field key := u64_or_zero (json_get (lit key) value) in
  let input := wrap_add64 (wrap_add64 (field "input_tokens"%string)
                             (field "cache_creation_input_tokens"%string))
                 (field "cache_read_input_tokens"%string) in
  let output := field "output_tokens"%string in
  Some {| tu_input_tokens := input; tu_output_tokens := output;
          tu_cached_input_tokens := field "cache_read_input_tokens"%string;
          tu_total_tokens := sat_add64 input output |}.

Definition usage_gemini (value : option json_value) : option TokenUsage :=
  value ← value;
  let field key := u64_or_zero (json_get (lit key) value) in
  let input := field "promptTokenCount"%string in
  let output := field "candidatesTokenCount"%string in
  Some {| tu_input_tokens := input; tu_output_tokens := output;
          tu_cached_input_tokens := field "cachedContentTokenCount"%string;
          tu_total_tokens := default (sat_add64 input output) (u64_at "totalTokenCount" value) |}.

(** A finite non-negative number without fraction as an integer: [fract() == 0.0] and the
    saturating [as u64]. *)
Definition f64_as_whole (x : f64) : option Z :=
  match x with
  | S754_zero _ => Some 0
  | S754_finite false m e =>
      if 0 <=? e then Some (Z.min (Z.pos m * 2 ^ e) u64_max)
      else if Z.pos m `mod` 2 ^ (- e) =? 0 then Some (Z.min (Z.pos m / 2 ^ (- e)) u64_max)
      else None
  | _ => None
  end.

Definition numeric_u64 (value : option json_value) : Z :=
  default 0 (v ← value; or_else (json_as_u64 v) (json_as_f64 v ≫= f64_as_whole)).

Definition usage_cohere (value : option json_value) : option TokenUsage :=
  value ← value;
  tokens ← or_else (json_get (lit "tokens") value) (json_get (lit "billed_units") value);
  let input := numeric_u64 (json_get (lit "input_tokens") tokens) in
  let output := numeric_u64 (json_get (lit "output_tokens") tokens) in
  Some {| tu_input_tokens := input; tu_output_tokens := output; tu_cached_input_tokens := 0;
          tu_total_tokens := sat_add64 input output |}.

Definition emit_usage (usage : option TokenUsage) : handler unit :=
  match usage with Some usage => push_event (Usage usage) | None => skip end.

(** ** Tools *)

Definition ensure_started : handler unit :=
  started ← read pp_started;
  if started : bool then skip else _ ← update set_started; push_event (Started None).

(** [entry(index).or_insert_with(..)]: an open call keeps its identifier and name. *)
Definition start_tool (index : Z) (id name : str) : handler unit :=
  _ ← update (λ p, match pp_tools p !! index with
                   | Some _ => p
                   | None => set_tools (<[index := {| ta_id := id; ta_name := name;
                                                      ta_arguments := [] |}]> (pp_tools p)) p
                   end);
  push_event (ToolCallStarted index id name).

Definition push_arguments (text : str) (t : ToolAccumulator) : ToolAccumulator := {|
  ta_id := ta_id t; ta_name := ta_name t; ta_arguments := ta_arguments t ++ text |}.

(** A fragment for a call that must be open. *)
Definition tool_delta (index : Z) (fragment : str) (missing : string) : handler unit :=
  tools ← read pp_tools;
  tool ← require (tools !! index) missing;
  _ ← update (λ p, set_tools (<[index := push_arguments fragment tool]> (pp_tools p)) p);
  push_event (ToolCallDelta index fragment).

Definition tool_arguments (text : str) : option json_value :=
  if is_blank text then Some json_empty_object else json_parse text.

Definition complete_tool (index : Z) : handler LlmEvent :=
  tools ← read pp_tools;
  tool ← require (tools !! index) "tool completion arrived before tool start";
  _ ← update (λ p, set_tools (delete index (pp_tools p)) p);
  arguments ← require (tool_arguments (ta_arguments tool)) "tool arguments are malformed JSON";
  mret (ToolCallCompleted index (ta_id tool) (ta_name tool) arguments).

(** [let event = self.complete_tool(index)?; events.push(event)]. *)
Definition emit_completed (index : Z) : handler unit := event ← complete_tool index; push_event event.

Definition complete_all_tools : handler unit :=
  tools ← read pp_tools;
  for_each (btree_keys tools) emit_completed.

(** ** The protocols *)

Definition parse_json (data : str) : handler json_value :=
  require (json_parse data) "provider emitted malformed JSON".

Definition stream_failed : handler unit :=
  id ← read pp_provider_id;
  push_event (StreamError (hosted_protocol id (lit "provider reported a streaming error"))).

Definition tool_delta_early : string := "tool delta arrived before tool start".

(** The end of a text handler: empty deltas are not events. *)
Definition emit_text (text : str) (content_index : handler Z) : handler unit :=
  if str_is_empty text then skip else index ← content_index; push_event (TextDelta text index).

Definition openai_item_added (value : json_value) : handler unit :=
  if bool_decide (str_of "/item/type" value = Some (lit "function_call")) then
    index ← required_usize value "output_index";
    id ← require (or_else (json_pointer (lit "/item/call_id") value)
                    (json_pointer (lit "/item/id") value) ≫= json_as_str)
           "tool call id is missing";
    name ← require (str_of "/item/name" value) "tool call name is missing";
    start_tool index id name
  else skip.

(** Arguments sent only with the finished item replace an empty accumulator. *)
Definition openai_late_arguments (index : Z) (value : json_value) : handler unit :=
  match str_of "/item/arguments" value with
  | Some arguments =>
      update (λ p, match pp_tools p !! index with
                   | Some tool =>
                       if str_is_empty (ta_arguments tool)
                       then set_tools (<[index := push_arguments arguments tool]> (pp_tools p)) p
                       else p
                   | None => p
                   end)
  | None => skip
  end.

Definition openai_item_done (value : json_value) : handler unit :=
  if bool_decide (str_of "/item/type" value = Some (lit "function_call")) then
    index ← required_usize value "output_index";
    _ ← openai_late_arguments index value;
    emit_completed index
  else skip.

Definition openai_incomplete (value : json_value) : handler unit :=
  _ ← emit_usage (usage_openai (json_pointer (lit "/response/usage") value));
  let reason := default (lit "incomplete") (str_of "/response/incomplete_details/reason" value) in
  push_event (Finished (map_finish reason) (bounded_text reason)).

Definition parse_openai_responses (data : str) : handler unit :=
  value ← parse_json data;
  event_type ← required_str value "type";
  let says s := str_eqb event_type (lit s) in
  if says "response.created"%string then
    _ ← update set_started; push_event (Started (str_of "/response/id" value)) else
  if says "response.output_text.delta"%string then
    _ ← ensure_started;
    text ← required_str value "delta";
    emit_text text (mret (default 0 (u64_at "content_index" value))) else
  if says "response.output_item.added"%string then openai_item_added value else
  if says "response.function_call_arguments.delta"%string then
    index ← required_usize value "output_index";
    delta ← required_str value "delta";
    tool_delta index delta tool_delta_early else
  if says "response.output_item.done"%string then openai_item_done value else
  if says "response.completed"%string then
    _ ← emit_usage (usage_openai (json_pointer (lit "/response/usage") value));
    push_event (Finished EndTurn (lit "completed")) else
  if says "response.incomplete"%string then openai_incomplete value else
  if says "response.failed"%string || says "error"%string then stream_failed else
  if says "response.cancelled"%string then
    id ← read pp_provider_id; push_event (StreamError (hosted_cancelled id)) else
  skip.

Definition anthropic_block_start (value : json_value) : handler unit :=
  if bool_decide (str_of "/content_block/type" value = Some (lit "tool_use")) then
    index ← required_usize value "index";
    id ← require (str_of "/content_block/id" value) "tool call id is missing";
    name ← require (str_of "/content_block/name" value) "tool call name is missing";
    start_tool index id name
  else skip.

Definition anthropic_block_delta (value : json_value) : handler unit :=
  match str_of "/delta/type" value with
  | Some kind =>
      if str_eqb kind (lit "text_delta") then
        _ ← ensure_started;
        text ← require (str_of "/delta/text" value) "text delta is missing";
        emit_text text (required_usize value "index") else
      if str_eqb kind (lit "input_json_delta") then
        index ← required_usize value "index";
        delta ← require (str_of "/delta/partial_json" value) "tool delta is missing";
        tool_delta index delta tool_delta_early else
      skip
  | None => skip
  end.

Definition anthropic_block_stop (value : json_value) : handler unit :=
  index ← required_usize value "index";
  tools ← read pp_tools;
  if is_some (tools !! index) then emit_completed index else skip.

Definition anthropic_message_delta (value : json_value) : handler unit :=
  let provider_reason := default (lit "end_turn") (str_of "/delta/stop_reason" value) in
  _ ← emit_usage (usage_anthropic None (json_get (lit "usage") value));
  update (set_pending_finish (Some (map_finish provider_reason, bounded_text provider_reason))).

(** [self.pending_finish.take().unwrap_or((EndTurn, fallback))], pushed as the end. *)
Definition finish_pending (fallback : string) : handler unit :=
  pending ← read pp_pending_finish;
  _ ← update (set_pending_finish None);
  let '(reason, provider_reason) := default (EndTurn, lit fallback) pending in
  push_event (Finished reason provider_reason).

Definition parse_anthropic (data : str) : handler unit :=
  value ← parse_json data;
  event_type ← required_str value "type";
  let says s := str_eqb event_type (lit s) in
  if says "message_start"%string then
    _ ← update set_started;
    _ ← push_event (Started (str_of "/message/id" value));
    emit_usage (usage_anthropic (json_pointer (lit "/message/usage") value) None) else
  if says "content_block_start"%string then anthropic_block_start value else
  if says "content_block_delta"%string then anthropic_block_delta value else
  if says "content_block_stop"%string then anthropic_block_stop value else
  if says "message_delta"%string then anthropic_message_delta value else
  if says "message_stop"%string then finish_pending "end_turn" else
  if says "error"%string then stream_failed else
  skip.

(** A call arrives whole: it is announced and completed at once. *)
Definition gemini_call (candidate_index part_index index : Z) (call : json_value) : handler unit :=
  name ← require (str_at "name" call) "tool call name is missing";
  let id := default (lit "gemini-" ++ dec candidate_index ++ lit "-" ++ dec part_index)
              (str_at "id" call) in
  _ ← push_event (ToolCallStarted index id name);
  push_event (ToolCallCompleted index id name (default json_empty_object (json_get (lit "args") call))).

Definition gemini_part (candidate_index : Z) (entry : Z * json_value) : handler unit :=
  let '(part_index, part) := entry in
  let index := sat_add64 (sat_mul64 candidate_index 1000) part_index in
  if bool_decide (json_get (lit "thought") part ≫= json_as_bool = Some true) then skip else
  _ ← match str_at "text" part with
      | Some text => emit_text text (mret index)
      | None => skip
      end;
  match json_get (lit "functionCall") part with
  | Some call => gemini_call candidate_index part_index index call
  | None => skip
  end.

(** [iter().enumerate()]. *)
Definition indexed {A} (l : list A) : list (Z * A) := zip (seqZ 0 (Z.of_nat (length l))) l.

Definition finish_reason_at (key : string) (value : json_value) : handler unit :=
  match str_at key value with
  | Some reason => update (set_pending_finish (Some (map_finish reason, bounded_text reason)))
  | None => skip
  end.

Definition gemini_candidate (candidate : json_value) : handler unit :=
  let candidate_index := default 0 (u64_at "index" candidate) in
  _ ← match json_pointer (lit "/content/parts") candidate ≫= json_as_array with
      | Some parts => for_each (indexed parts) (gemini_part candidate_index)
      | None => skip
      end;
  finish_reason_at "finishReason" candidate.

Definition for_each_at (key : string) (value : json_value) (body : json_value → handler unit)
    : handler unit :=
  match json_get (lit key) value ≫= json_as_array with
  | Some items => for_each items body
  | None => skip
  end.

Definition parse_gemini (data : str) : handler unit :=
  value ← parse_json data;
  if is_some (json_get (lit "error") value) then stream_failed else
  _ ← ensure_started;
  _ ← for_each_at "candidates" value gemini_candidate;
  _ ← emit_usage (usage_gemini (json_get (lit "usageMetadata") value));
  pending ← read pp_pending_finish;
  _ ← update (set_pending_finish None);
  match pending with
  | Some (reason, provider_reason) => push_event (Finished reason provider_reason)
  | None => skip
  end.

Definition rename_tool (id name : option str) (t : ToolAccumulator) : ToolAccumulator := {|
  ta_id := default (ta_id t) id; ta_name := default (ta_name t) name;
  ta_arguments := ta_arguments t |}.

(** A call is opened by its first chunk; later chunks may rename it. *)
Definition chat_tool_call (call : json_value) : handler unit :=
  let index := default 0 (u64_at "index" call) in
  let id := str_at "id" call in
  let name := str_of "/function/name" call in
  tools ← read pp_tools;
  _ ← match tools !! index with
      | None => start_tool index (default (lit "tool-call") id) (default (lit "unknown_tool") name)
      | Some tool => update (λ p, set_tools (<[index := rename_tool id name tool]> (pp_tools p)) p)
      end;
  match str_of "/function/arguments" call with
  | Some delta =>
      _ ← update (λ p, match pp_tools p !! index with
                       | Some tool =>
                           set_tools (<[index := push_arguments delta tool]> (pp_tools p)) p
                       | None => p
                       end);
      push_event (ToolCallDelta index delta)
  | None => skip
  end.

Definition chat_choice (choice : json_value) : handler unit :=
  let content_index := default 0 (u64_at "index" choice) in
  _ ← match str_of "/delta/content" choice with
      | Some text => emit_text text (mret content_index)
      | None => skip
      end;
  _ ← match json_pointer (lit "/delta/tool_calls") choice ≫= json_as_array with
      | Some calls => for_each calls chat_tool_call
      | None => skip
      end;
  finish_reason_at "finish_reason" choice.

Definition chat_done : handler unit :=
  terminal ← read pp_terminal;
  if terminal : bool then skip else
  _ ← complete_all_tools;
  finish_pending "stop".

Definition parse_chat_completions (data : str) : handler unit :=
  if str_eqb (trim data) (lit "[DONE]") then chat_done else
  value ← parse_json data;
  if is_some (json_get (lit "error") value) then stream_failed else
  started ← read pp_started;
  _ ← (if started : bool then skip
       else _ ← update set_started; push_event (Started (str_at "id" value)));
  _ ← for_each_at "choices" value chat_choice;
  emit_usage (usage_openai (json_get (lit "usage") value)).

Definition cohere_content_delta (value : json_value) : handler unit :=
  _ ← ensure_started;
  content ← require (json_pointer (lit "/delta/message/content") value) "content delta is missing";
  match str_at "text" content with
  | Some text => emit_text text (mret (default 0 (u64_at "index" value)))
  | None =>
      if is_none (str_at "thinking" content)
      then require None "content delta has no supported payload"
      else skip
  end.

Definition cohere_call_start (value : json_value) : handler unit :=
  index ← required_usize value "index";
  call ← require (json_pointer (lit "/delta/message/tool_calls") value) "tool call is missing";
  id ← require (str_at "id" call) "tool call id is missing";
  name ← require (str_of "/function/name" call) "tool call name is missing";
  _ ← start_tool index id name;
  match str_of "/function/arguments" call with
  | Some arguments =>
      if str_is_empty arguments then skip
      else tool_delta index arguments "tool state could not be initialized"
  | None => skip
  end.

Definition cohere_message_end (value : json_value) : handler unit :=
  tools ← read pp_tools;
  if negb (bool_decide (tools = ∅)) then
    require None "provider ended before completing all tool calls" else
  _ ← emit_usage (usage_cohere (json_pointer (lit "/delta/usage") value));
  let reason := default (lit "COMPLETE") (str_of "/delta/finish_reason" value) in
  if str_eqb reason (lit "TIMEOUT") || text_starts_with (lit "ERROR") reason then
    id ← read pp_provider_id;
    push_event (StreamError (hosted_error id
            (if str_eqb reason (lit "TIMEOUT") then EkTimeout else EkUnavailable)
            (lit "provider reported a terminal generation error")))
  else push_event (Finished (map_finish reason) (bounded_text reason)).

Definition parse_cohere (data : str) : handler unit :=
  value ← parse_json data;
  event_type ← required_str value "type";
  let says s := str_eqb event_type (lit s) in
  if says "message-start"%string then
    _ ← update set_started; push_event (Started (str_at "id" value)) else
  if says "content-delta"%string then cohere_content_delta value else
  if says "tool-call-start"%string then cohere_call_start value else
  if says "tool-call-delta"%string then
    index ← required_usize value "index";
    delta ← require (str_of "/delta/message/tool_calls/function/arguments" value)
              "tool delta is missing";
    tool_delta index delta tool_delta_early else
  if says "tool-call-end"%string then
    index ← required_usize value "index"; emit_completed index else
  if says "message-end"%string then cohere_message_end value else
  if says "error"%string then stream_failed else
  skip.

Definition parse_frame (data : str) : handler unit :=
  protocol ← read pp_protocol;
  match protocol with
  | OpenAiResponses => parse_openai_responses data
  | AnthropicMessages => parse_anthropic data
  | GeminiGenerateContent => parse_gemini data
  | OpenAiChatCompletions => parse_chat_completions data
  | CohereChat => parse_cohere data
  | NvidiaNimChat => parse_chat_completions data
  end.

(** [ProtocolParser::parse]. *)
Definition parse (frame : SseFrame) (p : ProtocolParser)
    : ProtocolParser * result HostedError (list LlmEvent) :=
  if pp_terminal p then (p, Ok []) else
  match parse_frame (sf_data frame) p [] with
  | (p, Ok (_, events)) =>
      (if existsb event_terminal events then set_terminal p else p, Ok events)
  | (p, Err e) => (p, Err e)
  end.
End parser.
