(* ===== verification/HostedStream.v ===== *)
(** * Hosted language models: the request, the response stream, the model list and the
    bridge to the runtime ([crates/providers-llm/src/{adapter,runtime_bridge}.rs])

    The network, the clock and the cancellation token are the environment: every [select!]
    of the code is one answer. *)

From S2P Require Import Prelude Text Bytes Float Policy Sse Turn HostedTypes HostedRequest HostedParser.

#[local] Open Scope Z_scope.

(** ** Answers of the environment *)

(** One round of a [select!] on the body of a response. *)
Inductive net_answer :=
| NetCancelled
| NetTimedOut
| NetBytes (bytes : list Z)
| NetFailed (failure : TransportFailure)
| NetEnd.

Inductive secret_answer := SecretCancelled | SecretTimedOut | SecretFailed | SecretResolved (bytes : list Z).

(** The status and the headers of a response: a header that is present has a text when
    its bytes are visible ASCII. *)
Record Response := {
  rs_status : Z;
  rs_header : str → option (option str)
}.

Inductive send_answer :=
| SendCancelled | SendTimedOut | SendFailed (failure : TransportFailure)
| SendResponse (response : Response).

(** ** The body of a streaming response *)

Section stream.
Context `{JsonValueApi} (provider_id : str).

Record StreamState := {
  ss_decoder : SseDecoder;
  ss_parser : ProtocolParser
}.

Definition stream_start (protocol : ProviderProtocol) : StreamState := {|
  ss_decoder := sse_default; ss_parser := parser_new provider_id protocol |}.

(** [yield event; if terminal { return; }] for the events of one frame: what is yielded,
    and whether the stream returned. *)
Fixpoint yield_events (events : list LlmEvent) : list LlmEvent * bool :=
  match events with
  | [] => ([], false)
  | event :: rest =>
      if event_terminal event then ([event], true)
      else let '(sent, ended) := yield_events rest in (event :: sent, ended)
  end.

(** The frames of one push. [None] is [return]. *)
Fixpoint pump (frames : list SseFrame) (p : ProtocolParser)
    : list LlmEvent * option ProtocolParser :=
  match frames with
  | [] => ([], Some p)
  | frame :: frames =>
      match parse frame p with
      | (_, Err e) => ([StreamError e], None)
      | (p, Ok events) =>
          let '(sent, ended) := yield_events events in
          if ended : bool then (sent, None)
          else let '(more, rest) := pump frames p in (sent ++ more, rest)
      end
  end.

Definition protocol_failure (message : string) : LlmEvent :=
  StreamError (hosted_protocol provider_id (lit message)).

Definition with_decoder (d : SseDecoder) (r : list LlmEvent * option ProtocolParser)
    : list LlmEvent * option StreamState :=
  (r.1, (λ p, {| ss_decoder := d; ss_parser := p |}) <$> r.2).

(** The end of the network stream: the rest of the buffer, then the missing terminal. *)
Definition stream_finish (st : StreamState) : outcome (list LlmEvent) :=
  r ← finish_sse (ss_decoder st);
  match r with
  | (_, Err _) => Done [protocol_failure "SSE stream ended with invalid framing"]
  | (_, Ok frames) =>
      let '(sent, rest) := pump frames (ss_parser st) in
      match rest with
      | None => Done sent
      | Some p =>
          Done (sent ++ if pp_terminal p then []
                        else [protocol_failure "provider stream ended before a terminal event"])
      end
  end.

(** One round of the loop. *)
Definition stream_step (answer : net_answer) (st : StreamState)
    : outcome (list LlmEvent * option StreamState) :=
  match answer with
  | NetCancelled => Done ([StreamError (hosted_cancelled provider_id)], None)
  | NetTimedOut => Done ([StreamError (hosted_timeout provider_id)], None)
  | NetBytes bytes =>
      r ← push_sse bytes (ss_decoder st);
      match r with
      | (_, Err _) => Done ([protocol_failure "SSE framing is invalid or oversized"], None)
      | (d, Ok frames) => Done (with_decoder d (pump frames (ss_parser st)))
      end
  | NetFailed failure => Done ([StreamError (hosted_transport provider_id failure)], None)
  | NetEnd => sent ← stream_finish st; Done (sent, None)
  end.

(** The stream under the answers it gets; [Some] is a stream that is still open. *)
Fixpoint stream_run (answers : list net_answer) (st : StreamState)
    : outcome (list LlmEvent * option StreamState) :=
  match answers with
  | [] => Done ([], Some st)
  | answer :: answers =>
      r ← stream_step answer st;
      match r with
      | (sent, None) => Done (sent, None)
      | (sent, Some st) => '(more, rest) ← stream_run answers st; Done (sent ++ more, rest)
      end
  end.
End stream.

(** ** Requests *)

Section request.
Context `{JsonValueApi, UrlApi, HeaderApi}.

(** The capability checks of [AdapterInner::stream]. *)
Definition admit_request (a : AdapterInner) (r : LlmRequest) : result HostedError unit :=
  let c := ai_capabilities a in
  let id := hc_provider_id c in
  let refuse message := Err (hosted_error id EkInvalidRequest message) in
  _ ← llm_request_validate id r;
  if has_tools r && negb (hc_tool_calls c) then
    refuse (lit "provider does not support tool calls") else
  if is_some (lr_response_json_schema r) && negb (hc_json_schema c) then
    refuse (lit "provider does not support JSON schema output") else
  if bool_decide (hc_protocol c = CohereChat) && has_tools r
     && is_some (lr_response_json_schema r) then
    refuse (lit "Cohere JSON schema output cannot be combined with tools") else
  Ok tt.

Definition resolve_secret (id : str) (answer : secret_answer) : result HostedError (list Z) :=
  match answer with
  | SecretCancelled => Err (hosted_cancelled id)
  | SecretTimedOut => Err (hosted_timeout id)
  | SecretFailed => Err (hosted_error id EkSecretUnavailable
                           (lit "provider credential is unavailable"))
  | SecretResolved bytes => Ok bytes
  end.

(** What the client is asked to send. *)
Record SentRequest := {
  sq_endpoint : url;
  sq_headers : list (str * list Z);
  sq_body : gmap str json_value
}.

Definition generation_request (a : AdapterInner) (r : LlmRequest) (secret : list Z)
    : outcome (result HostedError SentRequest) :=
  let c := ai_capabilities a in
  let endpoint := generation_endpoint (ac_base_url (ai_config a)) (hc_protocol c) (lr_model r) in
  body ← request_body (hc_protocol c) r (ai_compatible a);
  Done (body ← body;
        headers ← auth_headers (hc_protocol c) secret (hc_provider_id c);
        Ok {| sq_endpoint := endpoint;
              sq_headers := headers ++ [(lit "accept", ascii_bytes "text/event-stream");
                                        (lit "content-type", ascii_bytes "application/json")];
              sq_body := body |}).

(** A header as text: the first name that is present decides. *)
Definition header_text (response : Response) (names : list string) : option str :=
  foldr (λ name rest, match rs_header response (lit name) with
                      | Some value => value
                      | None => rest
                      end) None names.

(** [str::parse::<u64>]: an optional plus sign and decimal digits, within 64 bits. *)
Definition digits_value (digits : str) : option Z :=
  foldl (λ acc c,
    v ← acc;
    if is_ascii_digit c then
      let v := v * 10 + (c - 48) in if v <=? u64_max then Some v else None
    else None) (Some 0) digits.
Definition parse_u64 (s : str) : option Z :=
  let digits := match s with c :: rest => if c =? 43 then rest else s | [] => s end in
  if str_is_empty digits then None else digits_value digits.

Definition http_error (id : str) (response : Response) : HostedError :=
  let request_id :=
    value ← header_text response ["x-request-id"; "request-id"]%string;
    if (str_len value <=? 256) && negb (existsb is_control value) then Some value else None in
  let retry_after :=
    seconds ← header_text response ["retry-after"]%string ≫= parse_u64;
    Some (seconds * 1000000000) in
  set_retry_after retry_after (set_request_id request_id (from_http id (rs_status response))).

Definition is_success (status : Z) : bool := (200 <=? status) && (status <=? 299).

Definition MAX_MODEL_LIST_BYTES : Z := 4 * 1048576.

(** [read_limited]: [None] while the body is still coming. *)
Fixpoint read_limited (id : str) (answers : list net_answer) (body : list Z)
    : option (result HostedError (list Z)) :=
  match answers with
  | [] => None
  | NetCancelled :: _ => Some (Err (hosted_cancelled id))
  | NetTimedOut :: _ => Some (Err (hosted_timeout id))
  | NetFailed failure :: _ => Some (Err (hosted_transport id failure))
  | NetEnd :: _ => Some (Ok body)
  | NetBytes bytes :: answers =>
      if MAX_MODEL_LIST_BYTES
         <? sat_add64 (Z.of_nat (length body)) (Z.of_nat (length bytes)) then
        Some (Err (hosted_protocol id (lit "model list is oversized")))
      else read_limited id answers (body ++ bytes)
  end.

(** The request identifier of a [202 Accepted] body: bounded, printable, and without the
    credential when that is text. *)
Definition accepted_request_id (secret body : list Z) : option str :=
  value ← json_from_slice body;
  id ← or_else (json_get (lit "requestId") value)
         (or_else (json_get (lit "request_id") value) (json_get (lit "id") value)) ≫= json_as_str;
  if (str_len id <=? 512) && negb (existsb is_control id)
     && is_none_or (utf8_decode secret) (λ secret, negb (str_contains secret id)) then Some id else None.

Definition accepted_response_error (id : str) (secret : list Z)
    (body : result HostedError (list Z)) : HostedError :=
  let request_id := match body with Ok body => accepted_request_id secret body | Err _ => None end in
  set_request_id request_id (set_http_status 202
    (hosted_error id EkPollingRequired
       (lit "provider accepted asynchronous work; polling is not supported by this adapter"))).

(** [send_generation] after the request is built; [accepted] is the body of a 202. *)
Definition check_response (id : str) (secret : list Z)
    (accepted : result HostedError (list Z)) (answer : send_answer)
    : result HostedError Response :=
  match answer with
  | SendCancelled => Err (hosted_cancelled id)
  | SendTimedOut => Err (hosted_timeout id)
  | SendFailed failure => Err (hosted_transport id failure)
  | SendResponse response =>
      if rs_status response =? 202 then Err (accepted_response_error id secret accepted) else
      if negb (is_success (rs_status response)) then Err (http_error id response) else
      Ok response
  end.

Definition validate_stream_response (id : str) (protocol : ProviderProtocol) (response : Response)
    : result HostedError StreamState :=
  if is_some_and (header_text response ["content-type"]%string)
       (λ value, text_starts_with (lit "text/event-stream") (ascii_lowercase value)) then
    Ok (stream_start id protocol)
  else Err (hosted_protocol id (lit "provider response is not an SSE stream")).

(** [AdapterInner::stream]: what was sent, and the stream to read. *)
Definition adapter_stream (a : AdapterInner) (r : LlmRequest) (secret : secret_answer)
    (send : send_answer) (accepted : result HostedError (list Z))
    : outcome (option SentRequest * result HostedError StreamState) :=
  let c := ai_capabilities a in
  let id := hc_provider_id c in
  match admit_request a r, resolve_secret id secret with
  | Err e, _ => Done (None, Err e)
  | Ok _, Err e => Done (None, Err e)
  | Ok _, Ok secret =>
      request ← generation_request a r secret;
      match request with
      | Err e => Done (None, Err e)
      | Ok request =>
          Done (Some request,
                response ← check_response id secret accepted send;
                validate_stream_response id (hc_protocol c) response)
      end
  end.

(** NVIDIA checks the evidence for the model first. *)
Definition nvidia_stream (n : NvidiaNim) (r : LlmRequest) (secret : secret_answer)
    (send : send_answer) (accepted : result HostedError (list Z))
    : outcome (option SentRequest * result HostedError StreamState) :=
  match validate_model_features n r with
  | Err e => Done (None, Err e)
  | Ok _ => adapter_stream (nn_inner n) r secret send accepted
  end.

(** ** Model lists *)

(** [dedup_by] with equal identifiers: the first of a run stays. *)
Fixpoint dedup_models (l : list ModelInfo) : list ModelInfo :=
  match l with
  | [] => []
  | m :: rest =>
      m :: match dedup_models rest with
           | m' :: rest' => if bool_decide (mi_id m = mi_id m') then rest' else m' :: rest'
           | [] => []
           end
  end.

(** [sort_by(id)] and [dedup_by(id)]. *)
Definition sort_models (l : list ModelInfo) : list ModelInfo :=
  dedup_models (sort_by (λ a b, str_cmp (mi_id a) (mi_id b)) l).

Definition supports_generation (protocol : ProviderProtocol) (value : json_value) : bool :=
  if bool_decide (protocol = CohereChat) then
    negb (default false (json_get (lit "is_deprecated") value ≫= json_as_bool))
    && is_some_and (json_get (lit "endpoints") value ≫= json_as_array)
         (existsb (λ e, bool_decide (json_as_str e = Some (lit "chat"))))
  else
    is_none_or (json_get (lit "supportedGenerationMethods") value ≫= json_as_array)
      (existsb (λ m, is_some_and (json_as_str m) (str_contains (lit "generateContent")))).

(** One entry: [None] is [continue]. *)
Definition model_entry (protocol : ProviderProtocol) (id : str) (value : json_value)
    : result HostedError (option ModelInfo) :=
  raw_id ← ok_or (or_else (json_get (lit "id") value) (json_get (lit "name") value) ≫= json_as_str)
    (hosted_protocol id (lit "provider model entry is missing an id"));
  let model := without_prefix (lit "models/") raw_id in
  if negb (valid_model_id model) then Ok None else
  let name o := take 256 <$> (o ≫= json_as_str) in
  Ok (Some {|
    mi_id := model;
    mi_display_name := name (or_else (json_get (lit "display_name") value)
                               (json_get (lit "displayName") value));
    mi_owned_by := name (json_get (lit "owned_by") value);
    mi_supports_generation := supports_generation protocol value;
    mi_capabilities := model_capabilities_default |}).

Definition parse_models (protocol : ProviderProtocol) (body : list Z) (id : str)
    : result HostedError (list ModelInfo) :=
  value ← ok_or (json_from_slice body)
    (hosted_protocol id (lit "provider returned a malformed model list"));
  values ← ok_or
    (match protocol with
     | GeminiGenerateContent | CohereChat => json_get (lit "models") value
     | _ => json_get (lit "data") value
     end ≫= json_as_array)
    (hosted_protocol id (lit "provider model list has an invalid shape"));
  models ← collect_results (model_entry protocol id <$> take 4096 values);
  Ok (sort_models (omap (λ m, m) models)).

Definition parse_cohere_model_page (body : list Z) (id : str)
    : result HostedError (list ModelInfo * option str) :=
  value ← ok_or (json_from_slice body)
    (hosted_protocol id (lit "provider returned a malformed model list"));
  models ← parse_models CohereChat body id;
  let token :=
    token ← str_at "next_page_token" value;
    if str_is_empty token then None else Some token in
  if is_some_and token (λ t, (2048 <? str_len t) || existsb is_control t) then
    Err (hosted_protocol id (lit "provider model pagination token is invalid"))
  else Ok (models, token).

(** [fetch] is one request for the page of a token: the send, the status and the body. *)
Fixpoint list_cohere_models (rounds : nat) (id : str)
    (fetch : option str → result HostedError (list Z)) (token : option str)
    (models : list ModelInfo) : result HostedError (list ModelInfo) :=
  match rounds with
  | O => Err (hosted_protocol id (lit "model list exceeded the pagination limit"))
  | S rounds =>
      body ← fetch token;
      '(page, next) ← parse_cohere_model_page body id;
      let models := models ++ page in
      if 4096 <? Z.of_nat (length models) then
        Err (hosted_protocol id (lit "model list contains too many entries")) else
      match next with
      | Some token => list_cohere_models rounds id fetch (Some token) models
      | None => Ok (sort_models models)
      end
  end.

Definition COHERE_PAGES : nat := 8.

(** [AdapterInner::list_models] after the credential is resolved. *)
Definition list_models (a : AdapterInner) (secret : secret_answer)
    (fetch : option str → result HostedError (list Z)) : result HostedError (list ModelInfo) :=
  let c := ai_capabilities a in
  let id := hc_provider_id c in
  if negb (hc_model_listing c) then
    Err (hosted_error id EkInvalidRequest (lit "provider does not support model listing")) else
  _ ← resolve_secret id secret;
  if bool_decide (hc_protocol c = CohereChat) then list_cohere_models COHERE_PAGES id fetch None []
  else body ← fetch None; parse_models (hc_protocol c) body id.

Record NvidiaModelCache := {
  nc_expires_at : Z;
  nc_models : list ModelInfo
}.

(** A model without evidence is only known to stream. *)
Definition verified_capabilities (verified : gmap str ModelCapabilities) (id : str) : ModelCapabilities :=
  default {| mcap_streaming := Supported; mcap_tool_calls := UnknownSupport;
             mcap_json_schema := UnknownSupport; mcap_reasoning := UnknownSupport |}
    (verified !! id).

Definition with_evidence (verified : gmap str ModelCapabilities) (m : ModelInfo) : ModelInfo := {|
  mi_id := mi_id m; mi_display_name := mi_display_name m; mi_owned_by := mi_owned_by m;
  mi_supports_generation := mi_supports_generation m;
  mi_capabilities := verified_capabilities verified (mi_id m) |}.

(** [NvidiaNimChat::list_models] at the instant [now], under the lock of the cache. *)
Definition nvidia_list_models (n : NvidiaNim) (cancelled : bool) (now : Z)
    (listed : result HostedError (list ModelInfo)) (cache : option NvidiaModelCache)
    : option NvidiaModelCache * result HostedError (list ModelInfo) :=
  if cancelled then (cache, Err (hosted_cancelled (lit "nvidia-nim"))) else
  let fresh := c ← cache; if now <? nc_expires_at c then Some (nc_models c) else None in
  match fresh, listed with
  | Some models, _ => (cache, Ok models)
  | None, Err e => (cache, Err e)
  | None, Ok models =>
      let models := with_evidence (nn_verified n) <$> models in
      (Some {| nc_expires_at := now + nn_cache_ttl n; nc_models := models |}, Ok models)
  end.
End request.

(** ** The bridge to the runtime *)

Definition runtime_kind (kind : ErrorKind) : ProviderErrorKind :=
  match kind with
  | EkCancelled => KindCancelled
  | EkTimeout => Timeout
  | EkAuthentication | EkSecretUnavailable => Authentication
  | EkRateLimited => RateLimited
  | EkInvalidRequest => InvalidRequest
  | EkUnavailable | EkPollingRequired => KindUnavailable
  | EkProtocol => KindProtocol
  | EkInternal => KindInternal
  end.

Definition runtime_error (e : HostedError) : ProviderError := {|
  pe_provider_id := he_provider_id e; pe_kind := runtime_kind (he_kind e);
  pe_message := he_message e; pe_retryable := he_retryable e;
  pe_retry_after := he_retry_after e |}.

(** The items of [stream_response] for the events of the provider's stream. *)
Fixpoint bridge_items `{JsonValueApi} (sequence : Z) (events : list LlmEvent)
    : list (result ProviderError LlmDelta) :=
  match events with
  | [] => []
  | TextDelta text _ :: events =>
      if str_is_empty text then bridge_items sequence events else
      let sequence := sat_add64 sequence 1 in
      Ok {| dl_text := text; dl_sequence := sequence |} :: bridge_items sequence events
  | StreamError error :: _ => [Err (runtime_error error)]
  | Finished _ _ :: _ => []
  | _ :: events => bridge_items sequence events
  end.

Record RuntimeBridgeConfig := {
  rb_default_model : str;
  rb_maximum_output_tokens : Z;
  rb_temperature : option f32;
  rb_system_prompt : option str
}.

Definition bridge_config_validate (id : str) (c : RuntimeBridgeConfig) : result HostedError unit :=
  if negb (valid_model_id (rb_default_model c))
     || (rb_maximum_output_tokens c =? 0)
     || (1000000 <? rb_maximum_output_tokens c)
     || is_some_and (rb_temperature c) bad_temperature
     || is_some_and (rb_system_prompt c) (λ p, MAX_TEXT_BYTES <? str_len p) then
    Err (hosted_error id EkInvalidRequest (lit "runtime bridge configuration is invalid"))
  else Ok tt.

Definition bool_text (b : bool) : str := if b then lit "true" else lit "false".

Definition bridge_descriptor (c : HostedCapabilities) : ProviderDescriptor := {|
  pd_id := hc_provider_id c;
  pd_display_name := hc_display_name c;
  pd_modality := LanguageModel;
  pd_location := CloudService (hc_provider_id c);
  pd_may_retain_data := pv_provider_may_retain_data (hc_privacy c);
  pd_transmitted_data := [Transcript; PromptContext];
  pd_capabilities := list_to_map
    [(lit "streaming", bool_text (hc_streaming c));
     (lit "cancellation", bool_text (hc_cancellation c));
     (lit "tool_calls", bool_text (hc_tool_calls c));
     (lit "usage_reporting", bool_text (hc_usage_reporting c));
     (lit "model_listing", bool_text (hc_model_listing c));
     (lit "json_schema", bool_text (hc_json_schema c));
     (lit "application_stateless", bool_text (pv_application_stateless (hc_privacy c)));
     (lit "request_disables_storage", bool_text (pv_request_disables_storage (hc_privacy c)))] |}.

(** [RuntimeBridge::new]. *)
Definition bridge_new (c : HostedCapabilities) (config : RuntimeBridgeConfig)
    : result HostedError ProviderDescriptor :=
  _ ← bridge_config_validate (hc_provider_id c) config; Ok (bridge_descriptor c).

(** [turn_json] is the text of the JSON object of the turn's context. *)
Section normalize.
Context `{JsonValueApi} (turn_json : GenerationRequest → str).

Definition portable_npc_response_schema : json_value :=
  let closed (rest : list (string * json_value)) :=
    obj (("type"%string, text "object") :: ("additionalProperties"%string, json_bool false) :: rest) in
  closed
    [("properties", obj
       [("schema_version", obj [("type", text "string");
                                ("enum", json_array [text "npc_response.v1"])]);
        ("spoken_response", closed
           [("properties", obj [("text", obj [("type", text "string")])]);
            ("required", json_array [text "text"])])]);
     ("required", json_array [text "schema_version"; text "spoken_response"])]%string.

Definition wants_structured_response (r : GenerationRequest) : bool :=
  is_some_and (gr_metadata r !! lit "npc_response_format") (λ format,
    str_eqb format (lit "structured_v1") || str_eqb format (lit "structured_speech_first_v1")).

Definition chat_text (role : ChatRole) (content : str) : ChatMessage := {|
  cm_role := role; cm_content := content; cm_name := None; cm_tool_call_id := None |}.

Definition normalize_request (c : RuntimeBridgeConfig) (r : GenerationRequest) : LlmRequest := {|
  lr_model := rb_default_model c;
  lr_messages :=
    match rb_system_prompt c with Some prompt => [chat_text SystemRole prompt] | None => [] end
    ++ [chat_text UserRole (turn_json r)];
  lr_maximum_output_tokens := rb_maximum_output_tokens c;
  lr_temperature := rb_temperature c;
  lr_tools := [];
  lr_response_json_schema :=
    if wants_structured_response r then Some portable_npc_response_schema else None |}.
End normalize.
