(* ===== verification/HostedSpec.v ===== *)
(** * Hosted language models: the grammar of the events

    A reader of the stream can rely on an order of events: text comes after the start, a
    fragment belongs to an announced tool call, a completed call carries the value of the
    fragments that were streamed for it, and one terminal event ends the stream. [Reader]
    is what such a reader remembers; the handlers of [HostedParser] are proved against it
    with a small Hoare logic. *)

From S2P Require Import Prelude Text Sse HostedTypes HostedRequest HostedParser HostedStream.

#[local] Open Scope Z_scope.

(** ** The grammar *)

Record OpenCall := {
  oc_id : str;
  oc_name : str;
  oc_text : str
}.

Record Reader := {
  mn_started : bool;
  mn_open : gmap Z OpenCall;
  mn_ended : bool
}.

Definition reader_start : Reader := {| mn_started := false; mn_open := ∅; mn_ended := false |}.

Section grammar.
Context `{JsonValueApi} (protocol : ProviderProtocol).

(** Later chunks of a chat completion may rename a call. *)
Definition renames_calls : bool :=
  match protocol with OpenAiChatCompletions | NvidiaNimChat => true | _ => false end.

(** Who refuses to end with a call still open. *)
Definition closes_calls : bool :=
  match protocol with OpenAiResponses | AnthropicMessages => false | _ => true end.

(** The value of a call's streamed text. Gemini sends a call whole, and the responses
    protocol may send the text of a call that streamed none with its end. *)
Definition completes_with (streamed : str) (arguments : json_value) : Prop :=
  tool_arguments streamed = Some arguments ∨
  (streamed = [] ∧
   (protocol = GeminiGenerateContent ∨
    protocol = OpenAiResponses ∧ ∃ late, tool_arguments late = Some arguments)).

Definition next_event (m : Reader) (e : LlmEvent) : Reader :=
  let set_open open := {| mn_started := mn_started m; mn_open := open; mn_ended := mn_ended m |} in
  match e with
  | Started _ => {| mn_started := true; mn_open := mn_open m; mn_ended := mn_ended m |}
  | ToolCallStarted i id name =>
      match mn_open m !! i with
      | Some _ => m
      | None => set_open (<[i := {| oc_id := id; oc_name := name; oc_text := [] |}]> (mn_open m))
      end
  | ToolCallDelta i fragment =>
      set_open (alter (λ c, {| oc_id := oc_id c; oc_name := oc_name c;
                               oc_text := oc_text c ++ fragment |}) i (mn_open m))
  | ToolCallCompleted i _ _ _ => set_open (delete i (mn_open m))
  | Finished _ _ | StreamError _ =>
      {| mn_started := mn_started m; mn_open := mn_open m; mn_ended := true |}
  | _ => m
  end.

Definition stream_event_ok (m : Reader) (e : LlmEvent) : Prop :=
  mn_ended m = false ∧
  match e with
  | TextDelta text _ => text ≠ [] ∧ mn_started m = true
  | ToolCallDelta i _ => is_Some (mn_open m !! i)
  | ToolCallCompleted i id name arguments =>
      ∃ call, mn_open m !! i = Some call ∧ completes_with (oc_text call) arguments ∧
              (renames_calls = false → id = oc_id call ∧ name = oc_name call)
  | Finished _ _ => closes_calls = true → mn_open m = ∅
  | _ => True
  end.

Fixpoint well_formed (m : Reader) (events : list LlmEvent) : Prop :=
  match events with
  | [] => True
  | e :: events => stream_event_ok m e ∧ well_formed (next_event m e) events
  end.

Definition reader (m : Reader) (events : list LlmEvent) : Reader := foldl next_event m events.

Lemma well_formed_app m es es' :
  well_formed m (es ++ es') ↔ well_formed m es ∧ well_formed (reader m es) es'.
Proof. revert m. induction es as [|e es IH]; intros m; cbn; [tauto|]. rewrite IH. tauto. Qed.

Lemma reader_app m es es' : reader m (es ++ es') = reader (reader m es) es'.
Proof. apply foldl_app. Qed.

Lemma next_event_ended m e : mn_ended (next_event m e) = mn_ended m || event_terminal e.
Proof. destruct e; cbn; rewrite ?orb_true_r, ?orb_false_r; try done. by case_match. Qed.

Lemma reader_ended m es : mn_ended (reader m es) = mn_ended m || existsb event_terminal es.
Proof.
  revert m. induction es as [|e es IH]; intros m; [by rewrite orb_false_r|].
  change (reader m (e :: es)) with (reader (next_event m e) es).
  rewrite IH, next_event_ended. cbn. by rewrite orb_assoc.
Qed.

(** After the end nothing is well formed, so what follows the first terminal event is
    nothing. *)
Lemma well_formed_ended m es : mn_ended m = true → well_formed m es → es = [].
Proof. intros Hm. destruct es as [|e es]; [done|]. intros [[Hn _] _]. congruence. Qed.

Lemma yield_well_formed m es :
  well_formed m es → yield_events es = (es, existsb event_terminal es).
Proof.
  revert m. induction es as [|e es IH]; intros m; cbn; [done|]. intros [Ho Hwf].
  destruct (event_terminal e) eqn:Et; cbn.
  - apply well_formed_ended in Hwf as ->; [done|]. by rewrite next_event_ended, Et, orb_true_r.
  - by rewrite (IH _ Hwf).
Qed.
End grammar.

(** ** The handlers *)

Section handlers.
Context `{JsonValueApi} (protocol : ProviderProtocol) (m0 : Reader).

Definition call_agrees (tool : option ToolAccumulator) (call : option OpenCall) : Prop :=
  match tool, call with
  | Some t, Some c =>
      oc_text c = ta_arguments t ∧
      (renames_calls protocol = false → ta_id t = oc_id c ∧ ta_name t = oc_name c)
  | None, None => True
  | _, _ => False
  end.

(** The parser's state is what a reader of its events knows. *)
Record tracks (p : ProtocolParser) (m : Reader) : Prop := {
  tr_protocol : pp_protocol p = protocol;
  tr_terminal : pp_terminal p = false;
  tr_started : pp_started p = true → mn_started m = true;
  tr_gemini : protocol = GeminiGenerateContent → pp_tools p = ∅;
  tr_calls : ∀ i, call_agrees (pp_tools p !! i) (mn_open m !! i)
}.

(** In the middle of a frame ([b]: after the start of the response), and after it. *)
Definition live (b : bool) (p : ProtocolParser) (events : list LlmEvent) : Prop :=
  well_formed protocol m0 events ∧ mn_ended (reader m0 events) = false ∧
  tracks p (reader m0 events) ∧ (b = true → pp_started p = true).
Definition settled (p : ProtocolParser) (events : list LlmEvent) : Prop :=
  well_formed protocol m0 events ∧
  (mn_ended (reader m0 events) = false → tracks p (reader m0 events)).

Definition assertion : Type := ProtocolParser → list LlmEvent → Prop.

Definition triple {A} (P : assertion) (h : handler A) (Q : A → assertion) : Prop :=
  ∀ p events, P p events →
    match h p events with
    | (p, Ok (a, events)) => Q a p events
    | (_, Err _) => True
    end.

Definition stable {A} (I : assertion) (h : handler A) : Prop := triple I h (λ _, I).
Definition ends (b : bool) (h : handler unit) : Prop := triple (live b) h (λ _, settled).

Lemma triple_weaken {A} P (h : handler A) (Q Q' : A → assertion) :
  triple P h Q → (∀ a p events, Q a p events → Q' a p events) → triple P h Q'.
Proof.
  intros Hh HQ p events HP. specialize (Hh p events HP).
  destruct (h p events) as [p' [[a events']|e]]; [by apply HQ|done].
Qed.

Lemma triple_bind {A B} P (h : handler A) (f : A → handler B) Q R :
  triple P h Q → (∀ a, triple (Q a) (f a) R) → triple P (h ≫= f) R.
Proof.
  intros Hh Hf p events HP. specialize (Hh p events HP). unfold mbind, handler_bind.
  destruct (h p events) as [p' [[a events']|e]]; [|done]. by apply Hf.
Qed.

Lemma triple_read {A} (f : ProtocolParser → A) (P : assertion) :
  triple P (read f) (λ a p events, P p events ∧ a = f p).
Proof. by intros p events HP. Qed.

Lemma triple_require {A} (o : option A) message (P : assertion) :
  triple P (require o message) (λ a p events, P p events ∧ o = Some a).
Proof. intros p events HP. unfold require. by destruct o. Qed.

Lemma triple_pre {A} (F : Prop) (P : assertion) (h : handler A) Q :
  (F → triple P h Q) → triple (λ p events, P p events ∧ F) h Q.
Proof. intros Hh p events [HP HF]. by apply Hh. Qed.

Lemma live_settled b p events : live b p events → settled p events.
Proof. intros (Hwf&_&Htr&_). by split. Qed.

Lemma ends_stable b (h : handler unit) : stable (live b) h → ends b h.
Proof. intros Hh. apply (triple_weaken _ _ _ _ Hh). intros _. apply live_settled. Qed.

Lemma stable_bind {A B} I (h : handler A) (f : A → handler B) :
  stable I h → (∀ a, stable I (f a)) → stable I (h ≫= f).
Proof. apply triple_bind. Qed.

Lemma ends_bind {A} b (h : handler A) (f : A → handler unit) :
  stable (live b) h → (∀ a, ends b (f a)) → ends b (h ≫= f).
Proof. apply triple_bind. Qed.

Lemma stable_skip I : stable I skip.
Proof. by intros p events HP. Qed.

Lemma stable_skip_ret {A} I (a : A) : stable I (mret a).
Proof. by intros p events HP. Qed.

Lemma stable_read {A} I (f : ProtocolParser → A) : stable I (read f).
Proof. by intros p events HP. Qed.

Lemma stable_require {A} I (o : option A) message : stable I (require o message).
Proof. apply (triple_weaken _ _ _ _ (triple_require o message I)). by intros a p events [? _]. Qed.

Lemma triple_if {A} (b : bool) P (h h' : handler A) Q :
  triple P h Q → triple P h' Q → triple P (if b then h else h') Q.
Proof. by destruct b. Qed.

Lemma triple_option {A B} (o : option A) P (f : A → handler B) (h : handler B) Q :
  (∀ a, triple P (f a) Q) → triple P h Q →
  triple P (match o with Some a => f a | None => h end) Q.
Proof. by destruct o. Qed.

Lemma stable_for_each {A} I (l : list A) (body : A → handler unit) :
  (∀ x, stable I (body x)) → stable I (for_each l body).
Proof.
  intros Hb. induction l as [|x l IH]; cbn [for_each]; [apply stable_skip|].
  apply stable_bind; [apply Hb|]. by intros _.
Qed.

Lemma stable_for_each_at I key value (body : json_value → handler unit) :
  (∀ x, stable I (body x)) → stable I (for_each_at key value body).
Proof. intros Hb. apply triple_option; [|apply stable_skip]. intros l. by apply stable_for_each. Qed.

Ltac step_read x :=
  refine (triple_bind _ (read _) _ _ _ (triple_read _ _) _); intros x.
Ltac step_require x :=
  refine (triple_bind _ (require _ _) _ _ _ (triple_require _ _ _) _); intros x.

(** *** Emitting *)

Lemma wf_snoc events e :
  well_formed protocol m0 events → stream_event_ok protocol (reader m0 events) e →
  well_formed protocol m0 (events ++ [e]).
Proof. intros Hwf Hok. apply well_formed_app. split; [done|]. by split. Qed.

Lemma reader_snoc events e : reader m0 (events ++ [e]) = next_event (reader m0 events) e.
Proof. exact (reader_app m0 events [e]). Qed.

Lemma live_push b p events e :
  well_formed protocol m0 events → stream_event_ok protocol (reader m0 events) e →
  event_terminal e = false → tracks p (next_event (reader m0 events) e) →
  (b = true → pp_started p = true) → live b p (events ++ [e]).
Proof.
  intros Hwf Hok Ht Htr Hb. split; [by apply wf_snoc|].
  rewrite reader_snoc, next_event_ended, Ht, orb_false_r. split; [apply Hok|done].
Qed.

Lemma stable_push b e :
  event_terminal e = false →
  (∀ p events, live b p events → stream_event_ok protocol (reader m0 events) e) →
  (∀ p m, tracks p m → tracks p (next_event m e)) → stable (live b) (push_event e).
Proof.
  intros Ht Hok Htr p events Hl. apply live_push; [apply Hl|by eapply Hok|done|..|apply Hl].
  apply Htr, Hl.
Qed.

Lemma stable_emit_usage b usage : stable (live b) (emit_usage usage).
Proof.
  destruct usage; [|apply stable_skip].
  apply stable_push; [done| |done]. intros p events Hl. split; [apply Hl|done].
Qed.

(** Announcing the response. *)
Lemma start_starts b id :
  triple (live b) (_ ← update set_started; push_event (Started id)) (λ _, live true).
Proof.
  intros p events (Hwf&He&[]&Hb). cbn. apply live_push; [done|by split|done|by split|done].
Qed.

Lemma started_starts b : triple (live b) ensure_started (λ _, live true).
Proof.
  apply (triple_bind _ _ _ _ _ (triple_read _ _)). intros started p events [Hl Hs].
  destruct started; [|by apply (start_starts b)].
  destruct Hl as (Hwf&He&Htr&_). by repeat (split; [done|]).
Qed.

Lemma stable_emit_text text index :
  stable (live true) index → stable (live true) (emit_text text index).
Proof.
  intros Hi. unfold emit_text. destruct text as [|c text]; [apply stable_skip|].
  apply stable_bind; [done|]. intros i. apply stable_push; [done| |done].
  intros p events (Hwf&He&Htr&Hb). split; [done|]. split; [done|].
  by apply (tr_started _ _ Htr), Hb.
Qed.

(** *** Ending *)

Lemma ends_push b e :
  event_terminal e = true →
  (∀ p events, live b p events → stream_event_ok protocol (reader m0 events) e) → ends b (push_event e).
Proof.
  intros Ht Hok p events Hl. split; [apply wf_snoc; [apply Hl|by eapply Hok]|].
  by rewrite reader_snoc, next_event_ended, Ht, orb_true_r.
Qed.

Lemma ends_error b error : ends b (push_event (StreamError error)).
Proof. apply ends_push; [done|]. intros p events Hl. split; [apply Hl|done]. Qed.

Lemma ends_stream_failed b : ends b stream_failed.
Proof. apply ends_bind; [apply stable_read|]. intros id. apply ends_error. Qed.

Lemma no_calls p m : tracks p m → pp_tools p = ∅ → mn_open m = ∅.
Proof.
  intros Htr Ht. apply map_eq. intros i. pose proof (tr_calls _ _ Htr i) as Hc.
  rewrite Ht, lookup_empty in Hc. rewrite lookup_empty. by destruct (mn_open m !! i).
Qed.

(** A protocol that must close its calls ends when none is open. *)
Lemma ends_finished b reason text :
  closes_calls protocol = false → ends b (push_event (Finished reason text)).
Proof.
  intros Hc. apply ends_push; [done|]. intros p events Hl. split; [apply Hl|]. congruence.
Qed.

Lemma ends_finished_closed b reason text :
  triple (λ p events, live b p events ∧ pp_tools p = ∅) (push_event (Finished reason text))
    (λ _, settled).
Proof.
  intros p events [Hl Ht]. split.
  - apply wf_snoc; [apply Hl|]. split; [apply Hl|]. intros _. eapply no_calls; [apply Hl|done].
  - by rewrite reader_snoc.
Qed.

(** *** Changing the state *)

(** Updates that touch neither the calls nor the flags. *)
Lemma stable_pending b finish : stable (live b) (update (set_pending_finish finish)).
Proof. intros p events (Hwf&He&[]&Hb). by repeat (split; [done|]). Qed.

Lemma stable_finish_reason b key value : stable (live b) (finish_reason_at key value).
Proof. apply triple_option; [|apply stable_skip]. intros r. apply stable_pending. Qed.

Lemma ends_finish_pending b fallback :
  closes_calls protocol = false → ends b (finish_pending fallback).
Proof.
  intros Hc. apply ends_bind; [apply stable_read|]. intros pending.
  apply ends_bind; [apply stable_pending|]. intros _.
  destruct (default _ pending) as [reason text]. by apply ends_finished.
Qed.

(** *** Tool calls *)

Lemma tracks_calls p m tools open :
  tracks p m → protocol ≠ GeminiGenerateContent →
  (∀ i, call_agrees (tools !! i) (open !! i)) →
  tracks (set_tools tools p)
    {| mn_started := mn_started m; mn_open := open; mn_ended := mn_ended m |}.
Proof. intros [] Hp Hc. by split. Qed.

Lemma call_agrees_insert (tools : gmap Z ToolAccumulator) (open : gmap Z OpenCall) i t c :
  (∀ j, call_agrees (tools !! j) (open !! j)) → call_agrees (Some t) (Some c) →
  ∀ j, call_agrees (<[i := t]> tools !! j) (<[i := c]> open !! j).
Proof.
  intros Hall Hc j. destruct (decide (i = j)) as [->|Hne]; [by rewrite !lookup_insert_eq|].
  by rewrite !lookup_insert_ne.
Qed.

Lemma call_agrees_delete (tools : gmap Z ToolAccumulator) (open : gmap Z OpenCall) i :
  (∀ j, call_agrees (tools !! j) (open !! j)) →
  ∀ j, call_agrees (delete i tools !! j) (delete i open !! j).
Proof.
  intros Hall j. destruct (decide (i = j)) as [->|Hne]; [by rewrite !lookup_delete_eq|].
  by rewrite !lookup_delete_ne.
Qed.

Lemma open_call p m i t :
  tracks p m → pp_tools p !! i = Some t →
  ∃ c, mn_open m !! i = Some c ∧ call_agrees (Some t) (Some c).
Proof.
  intros Htr Ht. pose proof (tr_calls _ _ Htr i) as Hc. rewrite Ht in Hc.
  destruct (mn_open m !! i) as [c|]; [by exists c|done].
Qed.

Lemma stable_start_tool b i id name :
  protocol ≠ GeminiGenerateContent → stable (live b) (start_tool i id name).
Proof.
  intros Hp p events (Hwf&He&Htr&Hb). cbn. pose proof (tr_calls _ _ Htr i) as Hc.
  apply live_push; [done|by split|done|..]; cbn.
  - destruct (pp_tools p !! i) as [t|], (mn_open _ !! i) as [c|]; try done.
    apply tracks_calls; [done..|]. apply call_agrees_insert; [apply Htr|done].
  - by destruct (pp_tools p !! i).
Qed.

Lemma tracks_delta p m i t fragment :
  tracks p m → protocol ≠ GeminiGenerateContent → pp_tools p !! i = Some t →
  is_Some (mn_open m !! i) ∧
  tracks (set_tools (<[i := push_arguments fragment t]> (pp_tools p)) p)
    (next_event m (ToolCallDelta i fragment)).
Proof.
  intros Htr Hp Ht. destruct (open_call _ _ _ _ Htr Ht) as (c&Hc&Htext&Hid).
  split; [by eexists|]. apply tracks_calls; [done..|].
  intros j. destruct (decide (i = j)) as [<-|Hne].
  - rewrite lookup_insert_eq, lookup_alter_eq, Hc. cbn. by rewrite Htext.
  - rewrite lookup_insert_ne, lookup_alter_ne by done. apply Htr.
Qed.

Lemma stable_tool_delta b i fragment missing :
  protocol ≠ GeminiGenerateContent → stable (live b) (tool_delta i fragment missing).
Proof.
  intros Hp. step_read tools. step_require t.
  intros p events [[(Hwf&He&Htr&Hb) ->] Ht]. cbn.
  destruct (tracks_delta _ _ _ _ fragment Htr Hp Ht) as [Hopen Htr'].
  apply live_push; [done|by split|done..].
Qed.

(** A call is completed with the value of its text. *)
Lemma complete_call b p events i t arguments :
  live b p events → protocol ≠ GeminiGenerateContent → pp_tools p !! i = Some t →
  (tool_arguments (ta_arguments t) = Some arguments ∨
   ta_arguments t = [] ∧ protocol = OpenAiResponses ∧
   ∃ late, tool_arguments late = Some arguments) →
  live b (set_tools (delete i (pp_tools p)) p)
    (events ++ [ToolCallCompleted i (ta_id t) (ta_name t) arguments]).
Proof.
  intros (Hwf&He&Htr&Hb) Hp Ht Harg.
  destruct (open_call _ _ _ _ Htr Ht) as (c&Hc&Htext&Hid).
  apply live_push; [done| |done| |done].
  - split; [done|]. exists c. split; [done|]. split; [|done]. unfold completes_with.
    rewrite Htext. naive_solver.
  - apply tracks_calls; [done..|]. apply call_agrees_delete, Htr.
Qed.

(** What [emit_completed] does to a live state. *)
Lemma emit_completed_spec i p events :
  match emit_completed i p events with
  | (p', Ok (_, events')) =>
      ∃ t arguments, pp_tools p !! i = Some t ∧ tool_arguments (ta_arguments t) = Some arguments ∧
        p' = set_tools (delete i (pp_tools p)) p ∧
        events' = events ++ [ToolCallCompleted i (ta_id t) (ta_name t) arguments]
  | (_, Err _) => True
  end.
Proof.
  unfold emit_completed, complete_tool, mbind, handler_bind, read, update, push_event, require.
  destruct (pp_tools p !! i) as [t|]; [|done].
  destruct (tool_arguments (ta_arguments t)) as [arguments|] eqn:Ha; [|done].
  by exists t, arguments.
Qed.

Lemma stable_emit_completed b i :
  protocol ≠ GeminiGenerateContent → stable (live b) (emit_completed i).
Proof.
  intros Hp p events Hl. pose proof (emit_completed_spec i p events) as Hs.
  destruct (emit_completed i p events) as [p' [[[] events']|e]]; [|done].
  destruct Hs as (t&arguments&Ht&Ha&->&->). apply complete_call; [done..|]. by left.
Qed.

Lemma complete_list_closes b l :
  protocol ≠ GeminiGenerateContent →
  triple (λ p events, live b p events ∧ ∀ i, is_Some (pp_tools p !! i) → i ∈ l)
    (for_each l emit_completed) (λ _ p events, live b p events ∧ pp_tools p = ∅).
Proof.
  intros Hp. induction l as [|i l IH]; cbn [for_each].
  - intros p events [Hl Hall]. split; [done|]. apply map_eq. intros i. rewrite lookup_empty.
    destruct (pp_tools p !! i) eqn:E; [|done]. exfalso.
    by apply (not_elem_of_nil (A:=Z) i), Hall.
  - refine (triple_bind _ _ _ _ _ _ (λ _, IH)). intros p events [Hl Hall].
    pose proof (emit_completed_spec i p events) as Hs.
    pose proof (stable_emit_completed b i Hp p events Hl) as Hk.
    destruct (emit_completed i p events) as [p' [[[] events']|e]]; [|done].
    destruct Hs as (t&arguments&Ht&_&->&_). split; [done|]. cbn. intros j [t' Hj].
    apply lookup_delete_Some in Hj as [Hne Hj].
    destruct (elem_of_cons l j i) as [[->|Hin] _]; [|done|done]. apply Hall. by eexists.
Qed.

Lemma complete_all_closes b :
  protocol ≠ GeminiGenerateContent →
  triple (live b) complete_all_tools (λ _ p events, live b p events ∧ pp_tools p = ∅).
Proof.
  intros Hp. step_read tools. intros p events [Hl ->].
  apply (complete_list_closes b); [done|]. split; [done|]. intros i Hi. by apply btree_keys_elem.
Qed.

(** *** The handlers of each protocol *)

Lemma stable_if {A} I (b : bool) (h h' : handler A) :
  stable I h → stable I h' → stable I (if b then h else h').
Proof. by destruct b. Qed.
Lemma ends_if c (b : bool) (h h' : handler unit) :
  ends c h → ends c h' → ends c (if b then h else h').
Proof. by destruct b. Qed.
Lemma stable_option {A B} I (o : option A) (f : A → handler B) (h : handler B) :
  (∀ a, stable I (f a)) → stable I h → stable I (match o with Some a => f a | None => h end).
Proof. by destruct o. Qed.
Lemma ends_option {A} c (o : option A) (f : A → handler unit) (h : handler unit) :
  (∀ a, ends c (f a)) → ends c h → ends c (match o with Some a => f a | None => h end).
Proof. by destruct o. Qed.

Lemma ends_after_start b (k : unit → handler unit) :
  (∀ u, ends true (k u)) → ends b (ensure_started ≫= k).
Proof. intros Hk. exact (triple_bind _ _ k _ _ (started_starts b) Hk). Qed.

Lemma ends_start b id : ends b (_ ← update set_started; push_event (Started id)).
Proof. apply (triple_weaken _ _ _ _ (start_starts b id)). intros _. apply live_settled. Qed.

Lemma ends_start_then b id (k : unit → handler unit) :
  (∀ u, ends true (k u)) → ends b (update set_started ≫= λ _, push_event (Started id) ≫= k).
Proof. intros Hk p events Hl. exact (Hk tt _ _ (start_starts b id p events Hl)). Qed.

Lemma stable_start b id : stable (live b) (_ ← update set_started; push_event (Started id)).
Proof.
  apply (triple_weaken _ _ _ _ (start_starts b id)). intros _ p events (?&?&?&Hb).
  repeat (split; [done|]). intros _. by apply Hb.
Qed.

(** A handler of text. *)
Lemma ends_emit_text text index : stable (live true) index → ends true (emit_text text index).
Proof. intros Hi. by apply ends_stable, stable_emit_text. Qed.

(** Late arguments of the responses protocol, and the completion that follows. *)
Lemma openai_completion b i value :
  protocol = OpenAiResponses →
  stable (live b) (_ ← openai_late_arguments i value; emit_completed i).
Proof.
  intros Hp p events Hl. unfold mbind, handler_bind, openai_late_arguments.
  assert (protocol ≠ GeminiGenerateContent) as Hg by congruence.
  destruct (str_of "/item/arguments" value) as [late|]; [|by apply stable_emit_completed].
  cbn [update]. destruct (pp_tools p !! i) as [t|] eqn:Ht; [|by apply stable_emit_completed].
  destruct (str_is_empty (ta_arguments t)) eqn:Ee; [|by apply stable_emit_completed].
  pose proof (emit_completed_spec i (set_tools (<[i := push_arguments late t]> (pp_tools p)) p)
    events) as Hs.
  destruct (emit_completed i _ events) as [p' [[[] events']|e]]; [|done].
  destruct Hs as (t'&arguments&Ht'&Ha&->&->). cbn [set_tools pp_tools] in *.
  rewrite lookup_insert_eq in Ht'. injection Ht' as <-.
  change (set_tools (delete i (<[i := push_arguments late t]> (pp_tools p))) (set_tools _ p))
    with (set_tools (delete i (<[i := push_arguments late t]> (pp_tools p))) p).
  rewrite delete_insert_eq.
  apply (complete_call b p events i t); [done..|]. right.
  split; [by destruct (ta_arguments t)|]. split; [done|]. by exists (ta_arguments t ++ late).
Qed.

(** Goes through a handler; what it leaves are the handlers it does not know. *)
Ltac walk_step :=
  lazymatch goal with
  | |- stable _ skip => apply stable_skip
  | |- ends _ skip => apply ends_stable, stable_skip
  | |- stable _ (read _) => apply stable_read
  | |- stable _ (require _ _) => apply stable_require
  | |- ends _ (require _ _) => apply ends_stable, stable_require
  | |- stable _ (required_usize _ _) => apply stable_require
  | |- stable _ (required_str _ _) => apply stable_require
  | |- stable _ (parse_json _) => apply stable_require
  | |- stable _ (emit_usage _) => apply stable_emit_usage
  | |- ends _ (emit_usage _) => apply ends_stable, stable_emit_usage
  | |- stable _ (update (set_pending_finish _)) => apply stable_pending
  | |- ends _ (update (set_pending_finish _)) => apply ends_stable, stable_pending
  | |- stable _ (finish_reason_at _ _) => apply stable_finish_reason
  | |- ends _ (push_event (StreamError _)) => apply ends_error
  | |- ends _ stream_failed => apply ends_stream_failed
  | |- ends _ (push_event (Finished _ _)) => apply ends_finished; assumption
  | |- ends _ (finish_pending _) => apply ends_finish_pending; assumption
  | |- stable _ (start_tool _ _ _) => apply stable_start_tool; assumption
  | |- ends _ (start_tool _ _ _) => apply ends_stable, stable_start_tool; assumption
  | |- stable _ (tool_delta _ _ _) => apply stable_tool_delta; assumption
  | |- ends _ (tool_delta _ _ _) => apply ends_stable, stable_tool_delta; assumption
  | |- stable _ (emit_completed _) => apply stable_emit_completed; assumption
  | |- ends _ (emit_completed _) => apply ends_stable, stable_emit_completed; assumption
  | |- stable _ (for_each _ _) => apply stable_for_each; intros ?
  | |- stable _ (for_each_at _ _ _) => apply stable_for_each_at; intros ?
  | |- ends _ (ensure_started ≫= _) => apply ends_after_start; intros ?
  | |- ends _ (update set_started ≫= λ _, push_event (Started _)) => apply ends_start
  | |- ends _ (openai_late_arguments _ _ ≫= _) => apply ends_stable, openai_completion; assumption
  | |- ends _ (emit_text _ _) => apply ends_emit_text
  | |- stable _ (emit_text _ _) => apply stable_emit_text
  | |- stable _ (mret _) => apply stable_skip_ret
  | |- ends _ (update set_started ≫= λ _, push_event (Started _) ≫= _) =>
      apply ends_start_then; intros ?
  | |- stable _ (_ ≫= _) => apply stable_bind; [|intros ?]
  | |- ends _ (_ ≫= _) => apply ends_bind; [|intros ?]
  | |- stable _ (if _ then _ else _) => apply stable_if
  | |- ends _ (if _ then _ else _) => apply ends_if
  | |- stable _ (match _ with Some _ => _ | None => _ end) => apply stable_option; [intros ?|]
  | |- ends _ (match _ with Some _ => _ | None => _ end) => apply ends_option; [intros ?|]
  end.
Ltac walk := repeat walk_step.

Lemma openai_ends b data : protocol = OpenAiResponses → ends b (parse_openai_responses data).
Proof.
  intros Hp. assert (protocol ≠ GeminiGenerateContent) as Hg by congruence.
  assert (closes_calls protocol = false) as Hc by by rewrite Hp.
  unfold parse_openai_responses, openai_item_added, openai_item_done, openai_incomplete. walk.
Qed.

Lemma anthropic_ends b data : protocol = AnthropicMessages → ends b (parse_anthropic data).
Proof.
  intros Hp. assert (protocol ≠ GeminiGenerateContent) as Hg by congruence.
  assert (closes_calls protocol = false) as Hc by by rewrite Hp.
  unfold parse_anthropic, anthropic_block_start, anthropic_block_delta, anthropic_block_stop,
    anthropic_message_delta. walk.
Qed.

(** *** Cohere *)

Lemma live_error b p events error : live b p events → settled p (events ++ [StreamError error]).
Proof.
  intros Hl. exact (ends_error b error p events Hl).
Qed.

(** Ending once no call is open. *)
Lemma ends_when_closed b reason text p events :
  live b p events → pp_tools p = ∅ → settled p (events ++ [Finished reason text]).
Proof. intros Hl Ht. exact (ends_finished_closed b reason text p events (conj Hl Ht)). Qed.

Lemma emit_usage_spec b usage p events :
  live b p events → ∃ events', emit_usage usage p events = (p, Ok (tt, events')) ∧ live b p events'.
Proof.
  intros Hl. pose proof (stable_emit_usage b usage p events Hl) as Hs.
  destruct usage; [|by eexists]. by eexists.
Qed.

Lemma cohere_end_ends b value : ends b (cohere_message_end value).
Proof.
  unfold cohere_message_end. step_read tools. intros p events [Hl ->].
  case_bool_decide as Ht; [|done]. cbn [negb].
  set (usage := usage_cohere _). destruct (emit_usage_spec b usage p events Hl) as (events'&Hu&Hl').
  unfold mbind, handler_bind at 1. rewrite Hu.
  destruct (_ || _); [by apply (live_error b)|by apply (ends_when_closed b)].
Qed.

Lemma cohere_ends b data : protocol = CohereChat → ends b (parse_cohere data).
Proof.
  intros Hp. assert (protocol ≠ GeminiGenerateContent) as Hg by congruence.
  unfold parse_cohere, cohere_content_delta, cohere_call_start.
  walk. apply cohere_end_ends.
Qed.

(** *** Chat completions *)

Lemma tracks_rename p m i t id name :
  tracks p m → renames_calls protocol = true → pp_tools p !! i = Some t →
  tracks (set_tools (<[i := rename_tool id name t]> (pp_tools p)) p) m.
Proof.
  intros [Hpr Hte Hs Hg Hc] Hr Ht. split; [done|done|done| |]; cbn.
  - intros ->. done.
  - intros j. specialize (Hc j). destruct (decide (i = j)) as [<-|Hne].
    + rewrite lookup_insert_eq. rewrite Ht in Hc. destruct (mn_open m !! i); [|done].
      split; [apply Hc|congruence].
    + by rewrite lookup_insert_ne.
Qed.

Lemma chat_fragment b i (o : option str) :
  protocol ≠ GeminiGenerateContent →
  triple (λ p events, live b p events ∧ is_Some (pp_tools p !! i))
    (match o with
     | Some delta =>
         _ ← update (λ p, match pp_tools p !! i with
                          | Some tool => set_tools (<[i := push_arguments delta tool]> (pp_tools p)) p
                          | None => p
                          end);
         push_event (ToolCallDelta i delta)
     | None => skip
     end) (λ _, live b).
Proof.
  intros Hp p events [(Hwf&He&Htr&Hb) [t Ht]].
  destruct o as [delta|]; [|by repeat (split; [done|])].
  unfold mbind, handler_bind, update, push_event. rewrite Ht.
  destruct (tracks_delta _ _ _ _ delta Htr Hp Ht) as [Hopen Htr'].
  apply live_push; [done|by split|done..].
Qed.

Lemma chat_call_stable b call :
  renames_calls protocol = true → stable (live b) (chat_tool_call call).
Proof.
  intros Hr. assert (protocol ≠ GeminiGenerateContent) as Hg by by intros ->.
  unfold chat_tool_call. set (i := default 0 _). step_read tools.
  refine (triple_bind _ _ _ _ _ _ (λ _, chat_fragment b i _ Hg)).
  intros p events [Hl ->]. destruct (pp_tools p !! i) as [t|] eqn:Ht.
  - destruct Hl as (Hwf&He&Htr&Hb). cbn. split; [|by rewrite lookup_insert_eq; eexists].
    split; [done|]. split; [done|]. split; [|done]. by apply tracks_rename.
  - pose proof (stable_start_tool b i (default (lit "tool-call") (str_at "id" call))
      (default (lit "unknown_tool") (str_of "/function/name" call)) Hg p events Hl) as Hs.
    unfold start_tool, mbind, handler_bind, update, push_event in Hs |- *. rewrite Ht in Hs |- *.
    split; [exact Hs|]. cbn. rewrite lookup_insert_eq. by eexists.
Qed.

Lemma chat_choice_stable choice :
  renames_calls protocol = true → stable (live true) (chat_choice choice).
Proof.
  intros Hr. unfold chat_choice. walk. by apply chat_call_stable.
Qed.

Lemma chat_start b id :
  triple (live b)
    (started ← read pp_started;
     if started : bool then skip else _ ← update set_started; push_event (Started id))
    (λ _, live true).
Proof.
  step_read started. intros p events [Hl Hs].
  destruct started; [|by apply (start_starts b)].
  destruct Hl as (Hwf&He&Htr&_). by repeat (split; [done|]).
Qed.

Lemma chat_done_ends b : protocol ≠ GeminiGenerateContent → ends b chat_done.
Proof.
  intros Hp. unfold chat_done. apply ends_bind; [apply stable_read|]. intros terminal.
  apply ends_if; [apply ends_stable, stable_skip|].
  refine (triple_bind _ _ _ _ _ (complete_all_closes b Hp) _). intros _.
  intros p events [Hl Ht]. unfold finish_pending, mbind, handler_bind, read, update.
  destruct (default (EndTurn, lit "stop") (pp_pending_finish p)) as [reason text].
  apply (ends_when_closed b); [|done]. exact (stable_pending b None p events Hl).
Qed.

(** [h] after the response is announced. *)
Lemma ends_from_start b (h : handler unit) (k : unit → handler unit) :
  triple (live b) h (λ _, live true) → (∀ u, ends true (k u)) → ends b (h ≫= k).
Proof. intros Hh Hk. exact (triple_bind _ h k _ _ Hh Hk). Qed.

Lemma bind_assoc {A B C} (h : handler A) (f : A → handler B) (g : B → handler C) P Q :
  triple P ((h ≫= f) ≫= g) Q → triple P (h ≫= λ a, f a ≫= g) Q.
Proof.
  intros Hh p events HP. specialize (Hh p events HP). unfold mbind, handler_bind in *.
  by destruct (h p events) as [p' [[a events']|e]].
Qed.

Lemma chat_ends b data : renames_calls protocol = true → ends b (parse_chat_completions data).
Proof.
  intros Hr. assert (protocol ≠ GeminiGenerateContent) as Hg by by intros ->.
  unfold parse_chat_completions. apply ends_if; [by apply chat_done_ends|].
  apply ends_bind; [apply stable_require|]. intros value. apply ends_if; [apply ends_stream_failed|].
  apply (bind_assoc _ _ _ (live b)), ends_from_start; [apply chat_start|]. intros _. walk.
  by apply chat_choice_stable.
Qed.

(** *** Gemini *)

Lemma gemini_call_stable c n i call :
  protocol = GeminiGenerateContent → stable (live true) (gemini_call c n i call).
Proof.
  intros Hp. unfold gemini_call. step_require name.
  intros p events [(Hwf&He&Htr&Hb) _]. cbn.
  set (id := default _ (str_at "id" call)). set (arguments := default _ _).
  assert (mn_open (reader m0 events) = ∅) as Ho by by eapply no_calls, Htr.
  assert (well_formed protocol m0 (events ++ [ToolCallStarted i id name])) as Hwf'
    by (by apply wf_snoc).
  apply live_push; [done| |done| |done]; rewrite reader_snoc; cbn; rewrite Ho, lookup_empty; cbn.
  - split; [done|]. eexists. split; [apply lookup_insert_eq|]. split; [|done].
    right. by split; [|left].
  - destruct Htr as [? ? ? Hg Hc]. split; [done..|]. cbn. intros j.
    rewrite delete_insert_eq, delete_empty. specialize (Hc j). by rewrite Ho in Hc.
Qed.

Lemma gemini_part_stable c part :
  protocol = GeminiGenerateContent → stable (live true) (gemini_part c part).
Proof.
  intros Hp. destruct part as [n part]. cbn [gemini_part]. walk. by apply gemini_call_stable.
Qed.

Lemma gemini_candidate_stable candidate :
  protocol = GeminiGenerateContent → stable (live true) (gemini_candidate candidate).
Proof. intros Hp. unfold gemini_candidate. walk. by apply gemini_part_stable. Qed.

Lemma gemini_end b :
  protocol = GeminiGenerateContent →
  ends b (pending ← read pp_pending_finish;
          _ ← update (set_pending_finish None);
          match pending with
          | Some (reason, provider_reason) => push_event (Finished reason provider_reason)
          | None => skip
          end).
Proof.
  intros Hp. apply ends_bind; [apply stable_read|]. intros pending p events Hl.
  pose proof (stable_pending b None p events Hl) as Hl'.
  destruct pending as [[reason text]|]; [|by apply (live_settled b)].
  apply (ends_when_closed b); [done|]. by apply (tr_gemini _ (reader m0 events)); [apply Hl'|].
Qed.

Lemma gemini_ends b data : protocol = GeminiGenerateContent → ends b (parse_gemini data).
Proof.
  intros Hp. unfold parse_gemini. apply ends_bind; [apply stable_require|]. intros value.
  apply ends_if; [apply ends_stream_failed|]. apply ends_after_start. intros _.
  apply ends_bind; [apply stable_for_each_at; intros candidate; by apply gemini_candidate_stable|].
  intros _. apply ends_bind; [apply stable_emit_usage|]. intros _. by apply gemini_end.
Qed.
End handlers.

(** ** Frames and the stream *)

Section frames.
Context `{JsonValueApi} (id : str) (protocol : ProviderProtocol).

Lemma parse_frame_settles m p data :
  tracks protocol p m → mn_ended m = false →
  match parse_frame data p [] with
  | (p', Ok (_, events)) => settled protocol m p' events
  | (_, Err _) => True
  end.
Proof.
  intros Htr He. assert (live protocol m false p []) as Hl by done.
  unfold parse_frame, mbind, handler_bind, read. rewrite (tr_protocol _ _ _ Htr).
  destruct protocol eqn:E; rewrite <-E in *.
  - by apply (openai_ends protocol m false).
  - by apply (anthropic_ends protocol m false).
  - by apply (gemini_ends protocol m false).
  - apply (chat_ends protocol m false); [by rewrite E|done].
  - by apply (cohere_ends protocol m false).
  - apply (chat_ends protocol m false); [by rewrite E|done].
Qed.

(** The parser between two frames, seen by the reader. *)
Definition between (p : ProtocolParser) (m : Reader) : Prop :=
  tracks protocol p m ∧ mn_ended m = false.

(** The parser before the first frame. *)
Lemma between_start : between (parser_new id protocol) reader_start.
Proof. split; [|done]. by split. Qed.

Lemma parse_settles m p frame :
  between p m →
  match parse frame p with
  | (p', Ok events) =>
      well_formed protocol m events ∧
      (mn_ended (reader m events) = false → between p' (reader m events))
  | (_, Err _) => True
  end.
Proof.
  intros [Htr He]. unfold parse. rewrite (tr_terminal _ _ _ Htr).
  pose proof (parse_frame_settles m p (sf_data frame) Htr He) as Hs.
  destruct (parse_frame (sf_data frame) p []) as [p' [[[] events]|e]] eqn:Ep; [|done].
  destruct Hs as [Hwf Hs]. split; [done|]. intros Hn. specialize (Hs Hn). split; [|done].
  rewrite reader_ended, He in Hn. cbn in Hn. by rewrite Hn.
Qed.

(** What a part of the stream yields: well-formed events, and the stream is open exactly
    when they have not ended it. *)
Definition yields {A} (good : A → Reader → Prop) (m : Reader)
    (r : list LlmEvent * option A) : Prop :=
  well_formed protocol m r.1 ∧
  match r.2 with
  | Some a => mn_ended (reader m r.1) = false ∧ good a (reader m r.1)
  | None => mn_ended (reader m r.1) = true
  end.

Lemma yields_last {A} (good : A → Reader → Prop) m e :
  mn_ended m = false → event_terminal e = true → stream_event_ok protocol m e → yields good m ([e], None).
Proof.
  intros He Ht Hok. split; [by split|]. unfold reader. cbn. by rewrite next_event_ended, He.
Qed.

Lemma yields_error {A} (good : A → Reader → Prop) m error :
  mn_ended m = false → yields good m ([StreamError error], None).
Proof. intros He. by apply yields_last. Qed.

Lemma yields_app {A} (good : A → Reader → Prop) m sent more rest :
  well_formed protocol m sent → yields good (reader m sent) (more, rest) →
  yields good m (sent ++ more, rest).
Proof.
  intros Hwf [Hwf' Hr]. unfold yields. cbn [fst snd] in *. rewrite well_formed_app, reader_app.
  done.
Qed.

Lemma pump_yields frames m p : between p m → yields between m (pump frames p).
Proof.
  revert m p. induction frames as [|frame frames IH]; intros m p Hb; cbn [pump].
  { split; [done|]. split; [apply Hb|done]. }
  pose proof (parse_settles m p frame Hb) as Hs.
  destruct (parse frame p) as [p' [events|e]]; [|apply yields_error, Hb].
  destruct Hs as [Hwf Hs]. rewrite (yield_well_formed _ _ _ Hwf).
  pose proof (reader_ended m events) as Hm. rewrite (proj2 Hb) in Hm. cbn in Hm.
  destruct (existsb event_terminal events); cbn.
  - by split.
  - specialize (IH _ _ (Hs Hm)). destruct (pump frames p') as [more rest]. by apply yields_app.
Qed.

Definition open_stream (st : StreamState) (m : Reader) : Prop := between (ss_parser st) m.

Lemma stream_finish_yields st m :
  open_stream st m → ∃ sent, stream_finish id st = Done sent ∧ yields open_stream m (sent, None).
Proof.
  intros Hb. unfold stream_finish. destruct (proj2 (sse_returns [] (ss_decoder st))) as [[d r] Hr].
  rewrite Hr. cbn. destruct r as [frames|e]; [|eexists; split; [done|]; apply yields_error, Hb].
  pose proof (pump_yields frames m (ss_parser st) Hb) as Hp.
  destruct (pump frames (ss_parser st)) as [sent [p|]]; [|by exists sent].
  destruct Hp as [Hwf [He [Htr _]]]. cbn in *. rewrite (tr_terminal _ _ _ Htr).
  eexists. split; [done|]. apply yields_app; [done|]. by apply yields_error.
Qed.

Lemma stream_step_yields answer st m :
  open_stream st m → ∃ r, stream_step id answer st = Done r ∧ yields open_stream m r.
Proof.
  intros Hb. assert (mn_ended m = false) as He by apply Hb.
  destruct answer as [| |bytes|failure|]; cbn [stream_step];
    try (eexists; split; [done|]; by apply yields_error).
  - destruct (proj1 (sse_returns bytes (ss_decoder st))) as [[d r] Hr]. rewrite Hr. cbn.
    destruct r as [frames|e]; [|eexists; split; [done|]; by apply yields_error].
    eexists. split; [done|]. pose proof (pump_yields frames m (ss_parser st) Hb) as Hp.
    by destruct (pump frames (ss_parser st)) as [sent [p|]].
  - destruct (stream_finish_yields st m Hb) as (sent&Hs&Hy). rewrite Hs. by eexists.
Qed.

Lemma stream_run_yields answers st m :
  open_stream st m → ∃ r, stream_run id answers st = Done r ∧ yields open_stream m r.
Proof.
  revert st m. induction answers as [|answer answers IH]; intros st m Hb; cbn [stream_run].
  { eexists. split; [done|]. split; [done|]. split; [apply Hb|done]. }
  destruct (stream_step_yields answer st m Hb) as ([sent [st'|]]&Hr&Hy); rewrite Hr; cbn;
    [|by eexists].
  destruct Hy as [Hwf [He Ho]]. destruct (IH st' _ Ho) as ([more rest]&Hm&Hy).
  rewrite Hm. cbn. eexists. split; [done|]. by apply yields_app.
Qed.
End frames.
