(* ===== verification/HostedTheorems.v ===== *)
(** * Hosted language models: the theorems

    What the runtime can rely on when a hosted provider answers, over every behaviour of
    the network, the clock and the cancellation token. *)

From S2P Require Import Prelude Text Bytes Policy Sse Turn HostedTypes HostedRequest HostedParser HostedStream HostedSpec.

#[local] Open Scope Z_scope.

(** ** The events of a response *)

Section events.
Context `{JsonValueApi} (id : str) (protocol : ProviderProtocol).

Definition closing (a : net_answer) : bool := match a with NetBytes _ => false | _ => true end.

Lemma closing_ends answers st events st' :
  stream_run id answers st = Done (events, Some st') → existsb closing answers = false.
Proof.
  revert st events. induction answers as [|a answers IH]; intros st events; cbn; [done|].
  destruct (stream_step id a st) as [[sent [st1|]]| |] eqn:Es; cbn; [|done..].
  destruct (stream_run id answers st1) as [[more rest]| |] eqn:Er; cbn; [|done..].
  intros [= _ ->]. rewrite (IH _ _ Er), orb_false_r.
  destruct a; [done..| |done|]; [done|]. cbn in Es.
  by destruct (stream_finish id st).
Qed.

(** C22: every response is read to a well-formed sequence of events, whatever the network
    delivers, the clock and the cancellation do: the stream always yields a result; text
    is never empty and comes after the start; fragments belong to an announced tool call;
    a completed call carries the value of exactly the text streamed for it, under the
    identifier that opened it; and the stream returns exactly with one terminal
    event, after which nothing is yielded. A timeout, a cancellation, a failed transport
    or the end of the body always end it. *)
Theorem hosted_events_well_formed answers :
  ∃ events st,
    stream_run id answers (stream_start id protocol) = Done (events, st) ∧
    well_formed protocol reader_start events ∧
    is_none st = existsb event_terminal events ∧
    (existsb closing answers = true → st = None).
Proof.
  destruct (stream_run_yields id protocol answers (stream_start id protocol) reader_start)
    as ([events st]&Hr&Hwf&Hst); [apply between_start|].
  exists events, st. split; [done|]. split; [done|]. cbn in Hst. split.
  - pose proof (reader_ended reader_start events) as Hm. cbn [mn_ended reader_start orb] in Hm.
    rewrite <-Hm. destruct st; [symmetry; apply Hst|by symmetry].
  - intros Hc. destruct st as [st|]; [|done]. apply closing_ends in Hr. congruence.
Qed.

(** *** Chunks *)

Lemma push_chunks_acc chunks d f0 frames :
  push_chunks chunks d (f0 ++ frames) =
  match push_chunks chunks d frames with
  | Done (d', Ok new) => Done (d', Ok (f0 ++ new))
  | r => r
  end.
Proof.
  revert d frames. induction chunks as [|c chunks IH]; intros d frames; cbn; [done|].
  destruct (push_sse c d) as [[d1 [new|e]]| |]; cbn; [|done..]. by rewrite <-app_assoc, IH.
Qed.

Lemma pump_app a b p :
  pump (a ++ b) p =
  match pump a p with
  | (sent, Some p) => let '(more, rest) := pump b p in (sent ++ more, rest)
  | (sent, None) => (sent, None)
  end.
Proof.
  revert p. induction a as [|frame a IH]; intros p; cbn; [by destruct (pump b p)|].
  destruct (parse frame p) as [p' [events|e]]; [|done].
  destruct (yield_events events) as [sent [|]]; [done|]. rewrite IH.
  destruct (pump a p') as [more [p2|]]; [|done].
  destruct (pump b p2) as [more' rest]. by rewrite app_assoc.
Qed.

(** Chunks that decode are read as their frames, then the rest of the answers. *)
Lemma run_chunks chunks tail d p d' frames :
  push_chunks chunks d [] = Done (d', Ok frames) →
  stream_run id ((NetBytes <$> chunks) ++ tail) {| ss_decoder := d; ss_parser := p |} =
  match pump frames p with
  | (sent, Some p) =>
      '(more, rest) ← stream_run id tail {| ss_decoder := d'; ss_parser := p |};
      Done (sent ++ more, rest)
  | (sent, None) => Done (sent, None)
  end.
Proof.
  revert d p frames. induction chunks as [|c chunks IH]; intros d p frames; cbn.
  { intros [= <- <-]. cbn. destruct (stream_run id tail _) as [[more rest]| |]; reflexivity. }
  destruct (push_sse c d) as [[d1 [new|e]]| |]; cbn; [|done..].
  pose proof (push_chunks_acc chunks d1 new []) as Hacc. rewrite app_nil_r in Hacc. rewrite Hacc.
  destruct (push_chunks chunks d1 []) as [[d2 [f|e]]| |] eqn:Ep; [|done..].
  intros [= -> <-]. rewrite pump_app. destruct (pump new p) as [sent [p1|]]; cbn; [|done].
  rewrite (IH d1 p1 f Ep). destruct (pump f p1) as [more [p2|]]; cbn; [|done].
  destruct (stream_run id tail _) as [[more' rest]| |]; cbn; [|done..]. by rewrite app_assoc.
Qed.

(** C23: the way the network cuts a response does not matter. When the bytes of a response
    fit the buffer and decode as one piece, every way of delivering them yields the same
    events, whatever happens next (the end of the body, a failure, a cancellation, a
    timeout or more bytes). *)
Theorem hosted_chunking_irrelevant bytes chunks tail d frames :
  concat chunks = bytes →
  Z.of_nat (length bytes) ≤ MAX_SSE_BUFFER_BYTES →
  push_sse bytes sse_default = Done (d, Ok frames) →
  stream_run id ((NetBytes <$> chunks) ++ tail) (stream_start id protocol) =
  stream_run id (NetBytes bytes :: tail) (stream_start id protocol).
Proof.
  intros Hc Hl Hp.
  assert (push_chunks [bytes] sse_default [] = Done (d, Ok frames)) as H1
    by (cbn; by rewrite Hp).
  destruct (push_chunks_feed chunks sse_default []) as (r&Hr&Hrun); [apply not_elem_of_nil| |].
  { rewrite Hc. cbn. lia. }
  pose proof (push_chunks_ok [bytes] sse_default [] d frames (not_elem_of_nil _) H1) as H2.
  cbn [concat] in H2. rewrite app_nil_r, <-Hc in H2. rewrite H2 in Hrun.
  destruct r as [d1 r1], Hrun as [Hrun1 Hrun2]. cbn [fst snd] in *. subst r1. rewrite (Hrun2 eq_refl) in Hr.
  change (NetBytes bytes :: tail) with ((NetBytes <$> [bytes]) ++ tail).
  unfold stream_start. by rewrite (run_chunks _ _ _ _ _ _ Hr), (run_chunks _ _ _ _ _ _ H1).
Qed.
End events.

(** ** What the runtime receives *)

Section bridge.
Context `{JsonValueApi}.

(** The text of a response, delta by delta. *)
Definition text_deltas (events : list LlmEvent) : list str :=
  omap (λ e, match e with TextDelta text _ => Some text | _ => None end) events.

(** How a response ended, for the runtime. *)
Definition bridged_end (e : LlmEvent) : list (result ProviderError LlmDelta) :=
  match e with StreamError error => [Err (runtime_error error)] | _ => [] end.

Definition numbered (from : Z) (texts : list str) : list (result ProviderError LlmDelta) :=
  imap (λ i text, Ok {| dl_text := text; dl_sequence := from + Z.of_nat i + 1 |}) texts.

Lemma bridge_well_formed protocol m n events :
  well_formed protocol m events → 0 ≤ n → n + Z.of_nat (length events) ≤ u64_max →
  bridge_items n events =
  numbered n (text_deltas events) ++ (concat (bridged_end <$> events)).
Proof.
  revert m n. induction events as [|e events IH]; intros m n; [done|].
  intros [[Hn Hok] Hwf] Hpos Hlen. cbn [length] in Hlen.
  destruct (event_terminal e) eqn:Et.
  { apply (well_formed_ended protocol) in Hwf as ->; [by destruct e|].
    by rewrite next_event_ended, Et, orb_true_r. }
  destruct e as [o|t i|i a b|i f|i a b v|u|r pr|er]; try done; cbn [bridge_items];
    try (apply (IH _ n Hwf); lia).
  destruct Hok as [Ht _]. destruct t as [|c t]; [done|]. cbn [str_is_empty].
  unfold sat_add64. rewrite Z.min_l by lia.
  rewrite (IH _ (n + 1) Hwf) by lia. unfold text_deltas. cbn [omap list_omap].
  unfold numbered. cbn [imap]. cbn -[Z.add]. f_equal; [do 2 f_equal; lia|].
  f_equal. apply imap_ext. intros j x _. cbn. do 2 f_equal. lia.
Qed.

Lemma texts_not_empty protocol m events :
  well_formed protocol m events → Forall (λ text, text ≠ []) (text_deltas events).
Proof.
  revert m. induction events as [|e events IH]; intros m; [constructor|].
  intros [[_ Hok] Hwf%IH]. unfold text_deltas. destruct e; try exact Hwf.
  constructor; [apply Hok|exact Hwf].
Qed.

Lemma one_end protocol m events :
  well_formed protocol m events → (length (concat (bridged_end <$> events)) ≤ 1)%nat.
Proof.
  revert m. induction events as [|e events IH]; intros m; [cbn; lia|]. intros [Hok Hwf].
  destruct e as [| | | | | | |error]; try exact (IH _ Hwf).
  apply (well_formed_ended protocol) in Hwf as ->; [cbn; lia|done].
Qed.

(** the runtime receives exactly the text of the response. For every response that is
    read, the items of the bridge are the text deltas of its events in order, numbered
    from 1 without a gap, followed by the provider's error when the response ended with
    one, and by nothing else: no empty delta, no tool call, nothing after an error. *)
Theorem bridge_delivers_text id protocol answers events st :
  stream_run id answers (stream_start id protocol) = Done (events, st) →
  Z.of_nat (length events) ≤ u64_max →
  bridge_items 0 events =
    numbered 0 (text_deltas events) ++ concat (bridged_end <$> events) ∧
  Forall (λ text, text ≠ []) (text_deltas events) ∧
  (length (concat (bridged_end <$> events)) ≤ 1)%nat.
Proof.
  intros Hr Hl. destruct (stream_run_yields id protocol answers (stream_start id protocol)
    reader_start) as (r&Hr'&Hwf&_); [apply between_start|].
  rewrite Hr in Hr'. injection Hr' as <-. cbn in Hwf. split; [|split].
  - apply (bridge_well_formed protocol reader_start); [done|lia|lia].
  - by apply (texts_not_empty protocol reader_start).
  - by apply (one_end protocol reader_start).
Qed.
End bridge.

(** ** What is sent *)

Section sent.
Context `{JsonValueApi, UrlApi, HeaderApi}.

(** *** The schema translation returns *)

Lemma map_fold_done {A B} (f : A → outcome B) (m : gmap str A) :
  map_Forall (λ _ a, ∃ b, f a = Done b) m →
  ∃ r, map_fold (λ key a acc, m ← acc; b ← f a; Done (<[key := b]> m))
         (Done (∅ : gmap str B)) m = Done r.
Proof.
  apply (map_fold_weak_ind (λ r m, map_Forall (λ _ a, ∃ b, f a = Done b) m → ∃ r', r = Done r'));
    [by eexists|]. intros k a m' r Hk IH Hall.
  apply map_Forall_insert in Hall as [[b Hb] Hall]; [|done].
  destruct (IH Hall) as [r' ->]. cbn. rewrite Hb. by eexists.
Qed.

Lemma foldr_done {A B} (f : A → outcome B) (l : list A) :
  Forall (λ a, ∃ b, f a = Done b) l →
  ∃ r, foldr (λ a acc, l ← acc; b ← f a; Done (b :: l)) (Done []) l = Done r.
Proof.
  induction 1 as [|a l [b Hb] _ [r Hr]]; [by eexists|]. cbn. rewrite Hr. cbn. rewrite Hb. by eexists.
Qed.

(** The fields after the replacement: old ones, or one array around an old one. *)
Lemma const_to_enum_elem (m : gmap str json_value) k v :
  const_to_enum m !! k = Some v →
  m !! k = Some v ∨ ∃ c, m !! lit "const" = Some c ∧ v = json_array [c].
Proof.
  unfold const_to_enum. destruct (m !! lit "const") as [c|]; [|by left].
  destruct (delete (lit "const") m !! lit "enum") as [e|].
  - intros [_ Hk]%lookup_delete_Some. by left.
  - intros [[<- <-]|[_ [_ Hk]%lookup_delete_Some]]%lookup_insert_Some; [right; by exists c|by left].
Qed.

Lemma portable_array fuel vs :
  Forall (λ v, ∃ w, portable_schema fuel v = Done w) vs →
  ∃ w, portable_schema (S fuel) (json_array vs) = Done w.
Proof.
  intros Hall. cbn [portable_schema]. rewrite json_array_not_object, json_array_view.
  destruct (foldr_done _ _ Hall) as [r Hr]. rewrite Hr. by eexists.
Qed.

Lemma portable_schema_returns fuel v :
  (2 * json_depth v < fuel)%nat → ∃ w, portable_schema fuel v = Done w.
Proof.
  revert v. induction fuel as [fuel IH] using lt_wf_ind. intros v Hf.
  destruct fuel as [|fuel]; [lia|]. cbn [portable_schema].
  destruct (json_as_object v) as [m|] eqn:Eo.
  - apply json_object_depth in Eo.
    destruct (map_fold_done (portable_schema fuel) (const_to_enum m)) as [r Hr];
      [|rewrite Hr; by eexists].
    intros k w [Hk|(c&Hc&->)]%const_to_enum_elem.
    + specialize (Eo _ _ Hk). cbn in Eo. apply IH; lia.
    + specialize (Eo _ _ Hc). cbn in Eo. destruct fuel as [|fuel]; [lia|].
      apply portable_array. apply Forall_singleton. apply IH; lia.
  - destruct (json_as_array v) as [vs|] eqn:Ea; [|by eexists].
    apply json_array_depth in Ea.
    destruct (foldr_done (portable_schema fuel) vs) as [r Hr]; [|rewrite Hr; by eexists].
    eapply Forall_impl; [exact Ea|]. intros w Hw. apply IH; cbn in Hw; lia.
Qed.

Lemma request_body_returns p r compatible : ∃ b, request_body p r compatible = Done b.
Proof.
  destruct p; try (by eexists). cbn [request_body]. unfold gemini_body.
  destruct (collect_results _) as [contents|e]; [|by eexists]. unfold gemini_generation.
  destruct (lr_response_json_schema r) as [schema|]; [|by eexists].
  destruct (portable_schema_returns (S (2 * json_depth schema)) schema) as [w Hw]; [lia|].
  unfold gemini_portable_json_schema. rewrite Hw. by eexists.
Qed.

(** C24: asking a hosted provider always produces an outcome: whatever the request, the
    credential and the answers are, building the body (with the recursive translation of
    the response schema for Gemini, whose fuel is twice the depth of the schema) ends, and
    the call gives a stream to read or an error. *)
Theorem adapter_stream_returns a r secret send accepted :
  ∃ sent answer, adapter_stream a r secret send accepted = Done (sent, answer).
Proof.
  unfold adapter_stream. destruct (admit_request a r) as [u|e]; [|by eexists _, _].
  destruct (resolve_secret _ secret) as [bytes|e]; [|by eexists _, _].
  unfold generation_request.
  destruct (request_body_returns (hc_protocol (ai_capabilities a)) r (ai_compatible a)) as [b ->].
  cbn. destruct (body ← b; _) as [q|e]; by eexists _, _.
Qed.

(** *** Where and how *)

(** The adapters the crate offers. *)
Inductive offered : AdapterInner → Prop :=
| offered_openai built config a : openai_new built config = Ok a → offered a
| offered_anthropic built config a : anthropic_new built config = Ok a → offered a
| offered_gemini built config a : gemini_new built config = Ok a → offered a
| offered_groq built config a : groq_new built config = Ok a → offered a
| offered_cohere built config a : cohere_new built config = Ok a → offered a
| offered_compatible built config o a : compatible_new built config o = Ok a → offered a
| offered_nvidia built config verified ttl n :
    nvidia_new built config verified ttl = Ok n → offered (nn_inner n).

Lemma hosted_adapter_new_Ok built config c o a :
  hosted_adapter_new built config c o = Ok a →
  a = {| ai_config := config; ai_capabilities := c; ai_compatible := o |} ∧
  adapter_config_validate (hc_provider_id c) config = Ok tt.
Proof.
  unfold hosted_adapter_new. intros [Hv [_ Ha]%bind_unit_Ok]%bind_unit_Ok.
  destruct built; [|done]. by injection Ha as <-.
Qed.

(** What an offered adapter is: its configuration is valid, and when it declares that
    requests disable storage, its protocol is one that sends the flag. *)
Lemma offered_adapter a :
  offered a →
  adapter_config_validate (hc_provider_id (ai_capabilities a)) (ai_config a) = Ok tt ∧
  (pv_request_disables_storage (hc_privacy (ai_capabilities a)) = true →
   match hc_protocol (ai_capabilities a) with
   | OpenAiResponses | GeminiGenerateContent => True
   | OpenAiChatCompletions =>
       ∃ o, ai_compatible a = Some o ∧ co_send_store_false o = true
   | _ => False
   end).
Proof.
  intros [built config a' Ha|built config a' Ha|built config a' Ha|built config a' Ha
    |built config a' Ha|built config o a' Ha|built config verified ttl n Hn].
  1-5: apply hosted_adapter_new_Ok in Ha as [-> Hv]; done.
  - unfold compatible_new in Ha. apply if_err_Ok in Ha as [_ Ha].
    apply hosted_adapter_new_Ok in Ha as [-> Hv]. split; [done|]. intros Hs. by exists o.
  - unfold nvidia_new in Hn. apply if_err_Ok in Hn as [_ Hn].
    apply bind_Ok in Hn as (inner&Ha&[= <-]). by apply hosted_adapter_new_Ok in Ha as [-> Hv].
Qed.

Lemma insert_some_ne {A} (key : string) (o : option A) (f : A → json_value) (b : gmap str json_value) (k : str) :
  lit key ≠ k → insert_some key o f b !! k = b !! k.
Proof. intros Hk. destruct o; [by apply lookup_insert_ne|done]. Qed.

Lemma insert_if_ne (cond : bool) (key : string) (v : json_value) (b : gmap str json_value) (k : str) :
  lit key ≠ k → insert_if cond key v b !! k = b !! k.
Proof. intros Hk. destruct cond; [by apply lookup_insert_ne|done]. Qed.

Ltac other_field :=
  repeat first [rewrite insert_some_ne by discriminate | rewrite insert_if_ne by discriminate
               | rewrite lookup_insert_ne by discriminate].

Lemma openai_store r : openai_responses_body r !! lit "store" = Some (json_bool false).
Proof.
  unfold openai_responses_body, fields. cbn [foldl fst snd]. other_field.
  by rewrite lookup_insert_eq.
Qed.

Lemma gemini_store r b : gemini_body r = Done (Ok b) → b !! lit "store" = Some (json_bool false).
Proof.
  unfold gemini_body. destruct (collect_results _) as [contents|e]; [|done].
  destruct (gemini_generation r) as [g| |]; [|done..]. intros [= <-]. other_field.
  unfold fields. cbn [foldl fst snd]. by rewrite lookup_insert_eq.
Qed.

Lemma compatible_store r o b :
  compatible_body r (Some o) = Ok b → co_send_store_false o = true →
  b !! lit "store" = Some (json_bool false).
Proof.
  intros [= <-] Ho. unfold apply_qualified_model_parameters. other_field.
  destruct (_ && _); other_field; rewrite Ho; apply lookup_insert_eq.
Qed.

(** The headers that do not depend on the credential. *)
Definition public_headers : list (str * list Z) :=
  [(lit "anthropic-version", ascii_bytes "2023-06-01");
   (lit "x-client-name", ascii_bytes "interactive-npcs");
   (lit "accept", ascii_bytes "text/event-stream");
   (lit "content-type", ascii_bytes "application/json")].

Lemma auth_headers_Ok protocol key id headers :
  auth_headers protocol key id = Ok headers →
  ∃ name scheme rest, headers = (name, scheme ++ key) :: rest ∧
    (scheme = [] ∨ scheme = ascii_bytes "Bearer ") ∧ Forall (λ h, h ∈ public_headers) rest.
Proof.
  unfold auth_headers, header_value, public_headers. intros Hh.
  destruct protocol; (destruct (header_value_ok _); [|discriminate Hh]); cbn in Hh;
    injection Hh as <-;
    first [eexists _, [], _; split; [reflexivity|]
          |eexists _, (ascii_bytes "Bearer "), _; split; [reflexivity|]];
    (split; [first [by left|by right]|]); repeat constructor; set_solver.
Qed.

(** *** The security of a request *)

(** Setting the path or the query of a URL changes nothing else (the [url] crate). *)
Class UrlLaws := {
  set_path_scheme : ∀ p u, url_scheme (url_set_path p u) = url_scheme u;
  set_path_host : ∀ p u, url_host_str (url_set_path p u) = url_host_str u;
  set_query_scheme : ∀ q u, url_scheme (url_set_query q u) = url_scheme u;
  set_query_host : ∀ q u, url_host_str (url_set_query q u) = url_host_str u
}.

Lemma append_endpoint_origin `{UrlLaws} base relative :
  url_scheme (append_endpoint base relative) = url_scheme base ∧
  url_host_str (append_endpoint base relative) = url_host_str base.
Proof.
  unfold append_endpoint. destruct (split_query relative) as [path query].
  by rewrite set_query_scheme, set_path_scheme, set_query_host, set_path_host.
Qed.

(** HTTPS, or plain HTTP to the player's own machine when the configuration says so. *)
Definition secure_origin (config : AdapterConfig) (u : url) : Prop :=
  url_scheme u = lit "https" ∨
  ac_allow_insecure_loopback config = true ∧ loopback_host u = true.

Lemma valid_config_secure id config :
  adapter_config_validate id config = Ok tt → secure_origin config (ac_base_url config).
Proof.
  unfold adapter_config_validate. intros [Hg _]%if_err_Ok.
  rewrite !orb_false_iff, negb_false_iff, orb_true_iff, andb_true_iff in Hg.
  destruct Hg as (((((((Hs&_)&_)&_)&_)&_)&_)&_). destruct Hs as [Hs|Hs]; [|by right].
  left. by apply bool_decide_eq_true in Hs.
Qed.

Lemma generation_request_Ok a r key q :
  generation_request a r key = Done (Ok q) →
  ∃ body headers,
    request_body (hc_protocol (ai_capabilities a)) r (ai_compatible a) = Done (Ok body) ∧
    auth_headers (hc_protocol (ai_capabilities a)) key (hc_provider_id (ai_capabilities a)) =
      Ok headers ∧
    q = {| sq_endpoint := generation_endpoint (ac_base_url (ai_config a))
                            (hc_protocol (ai_capabilities a)) (lr_model r);
           sq_headers := headers ++ [(lit "accept", ascii_bytes "text/event-stream");
                                     (lit "content-type", ascii_bytes "application/json")];
           sq_body := body |}.
Proof.
  unfold generation_request.
  destruct (request_body _ r _) as [[body|e]| |]; cbn; [|done..].
  destruct (auth_headers _ key _) as [headers|e] eqn:Eh; cbn; [|done].
  intros [= <-]. by exists body, headers.
Qed.

Lemma adapter_stream_sent a r secret send accepted q answer :
  adapter_stream a r secret send accepted = Done (Some q, answer) →
  ∃ key, secret = SecretResolved key ∧ admit_request a r = Ok tt ∧
    generation_request a r key = Done (Ok q).
Proof.
  unfold adapter_stream. destruct (admit_request a r) as [[]|e]; [|done].
  destruct secret as [| | |key]; try done. cbn [resolve_secret].
  destruct (generation_request a r key) as [[q'|e]| |] eqn:Eg; cbn; [|done..].
  intros [= <- _]. by exists key.
Qed.

(** C25: what a hosted adapter sends is private and goes where it was configured to go.
    A request leaves only after it passed local validation and the credential was
    resolved; it goes to the configured host over HTTPS (or to the loopback of the
    player's machine when that was allowed); the credential is in one header and the other
    headers are constants; and when the adapter declares that its requests disable
    storage, the body carries [store: false]. *)
Theorem hosted_request_secure `{UrlLaws} a r secret send accepted q answer :
  offered a → adapter_stream a r secret send accepted = Done (Some q, answer) →
  admit_request a r = Ok tt ∧
  secure_origin (ai_config a) (sq_endpoint q) ∧
  url_host_str (sq_endpoint q) = url_host_str (ac_base_url (ai_config a)) ∧
  (∃ key name scheme rest, secret = SecretResolved key ∧
     sq_headers q = (name, scheme ++ key) :: rest ∧
     (scheme = [] ∨ scheme = ascii_bytes "Bearer ") ∧ Forall (λ h, h ∈ public_headers) rest) ∧
  (pv_request_disables_storage (hc_privacy (ai_capabilities a)) = true →
   sq_body q !! lit "store" = Some (json_bool false)).
Proof.
  intros Ha (key&->&Hadmit&Hg)%adapter_stream_sent.
  apply generation_request_Ok in Hg as (body&headers&Hbody&Hh&->).
  destruct (offered_adapter a Ha) as [Hv Hstore].
  destruct (append_endpoint_origin (ac_base_url (ai_config a))
    (generation_path (hc_protocol (ai_capabilities a)) (lr_model r))) as [Hscheme Hhost].
  split; [done|]. split; [|split; [exact Hhost|split]].
  - unfold secure_origin, loopback_host, generation_endpoint. cbn [sq_endpoint].
    rewrite Hscheme, Hhost. exact (valid_config_secure _ _ Hv).
  - apply auth_headers_Ok in Hh as (name&scheme&rest&->&Hs&Hrest).
    eexists key, name, scheme, _. split; [done|]. split; [reflexivity|]. split; [done|].
    apply Forall_app. split; [done|]. unfold public_headers.
    repeat constructor; set_solver.
  - intros Hdeclared. specialize (Hstore Hdeclared). cbn [sq_body].
    destruct (hc_protocol (ai_capabilities a)); try done; cbn [request_body] in Hbody.
    + injection Hbody as <-. apply openai_store.
    + exact (gemini_store r _ Hbody).
    + destruct Hstore as (o&Ho&Hs). rewrite Ho in Hbody.
      apply (compatible_store r o); [congruence|done].
Qed.
End sent.

(** ** Lists of models *)

Section models.
Context `{JsonValueApi, UrlApi, HeaderApi}.

Definition id_lt (a b : ModelInfo) : Prop := str_cmp (mi_id a) (mi_id b) = Lt.

Lemma dedup_sub l m : m ∈ dedup_models l → m ∈ l.
Proof.
  induction l as [|a l IH]; [done|]. cbn. rewrite !elem_of_cons. intros [->|Hm]; [by left|right].
  apply IH. destruct (dedup_models l) as [|b rest]; [done|].
  case_bool_decide; [by right|done].
Qed.

Lemma dedup_length l : (length (dedup_models l) ≤ length l)%nat.
Proof.
  induction l as [|a l IH]; [done|]. cbn. destruct (dedup_models l) as [|b rest]; cbn in *; [lia|].
  case_bool_decide; cbn; lia.
Qed.

Lemma dedup_ids l : (mi_id <$> dedup_models l) ⊆ mi_id <$> l ∧ (mi_id <$> l) ⊆ mi_id <$> dedup_models l.
Proof.
  split.
  - intros id. rewrite !list_elem_of_fmap. intros (m&->&Hm%dedup_sub). by exists m.
  - induction l as [|a l IH]; [done|]. rewrite fmap_cons. intros id [->|Hid]%elem_of_cons; [by left|].
    apply IH in Hid. cbn. destruct (dedup_models l) as [|b rest]; [by apply not_elem_of_nil in Hid|].
    rewrite fmap_cons in Hid. case_bool_decide as Hb.
    + apply elem_of_cons. rewrite Hb. by apply elem_of_cons.
    + right. done.
Qed.

Lemma dedup_sorted l :
  StronglySorted (cmp_le (λ a b, str_cmp (mi_id a) (mi_id b))) l → StronglySorted id_lt (dedup_models l).
Proof.
  induction 1 as [|a l Hs IH Ha]; [constructor|]. cbn.
  assert (Forall (λ b, str_cmp (mi_id a) (mi_id b) ≠ Gt) (dedup_models l)) as Hle.
  { apply Forall_forall. intros b Hb%dedup_sub. rewrite Forall_forall in Ha. by apply (Ha b). }
  destruct (dedup_models l) as [|b rest]; [repeat constructor|].
  assert (∀ c, c ∈ rest → id_lt b c) as Hrest.
  { apply StronglySorted_inv in IH as [_ Hr]. by apply Forall_forall. }
  apply Forall_cons in Hle as [Hb _].
  case_bool_decide as Heq.
  - apply StronglySorted_inv in IH as [IH _]. constructor; [done|]. apply Forall_forall.
    intros c Hc. unfold id_lt. rewrite Heq. by apply Hrest.
  - assert (id_lt a b) as Hab.
    { unfold id_lt. destruct (str_cmp (mi_id a) (mi_id b)) eqn:E; [|done..].
      destruct Heq. exact (proj1 (ocmp_Eq (mi_id a) (mi_id b)) E). }
    constructor; [done|]. constructor; [done|]. apply Forall_forall. intros c Hc.
    exact (ocmp_trans (mi_id a) (mi_id b) (mi_id c) Hab (Hrest c Hc)).
Qed.

Lemma str_preorder : cmp_preorder (λ a b : ModelInfo, str_cmp (mi_id a) (mi_id b)).
Proof. exact (cmp_preorder_map mi_id ocmp cmp_preorder_ocmp). Qed.

Lemma sort_models_sorted l : StronglySorted id_lt (sort_models l).
Proof. apply dedup_sorted, sort_by_strongly_sorted, str_preorder. Qed.

Lemma sort_models_sub l m : m ∈ sort_models l → m ∈ l.
Proof. intros Hm%dedup_sub. by rewrite sort_by_perm in Hm. Qed.

Lemma sort_models_length l : (length (sort_models l) ≤ length l)%nat.
Proof.
  unfold sort_models. etransitivity; [apply dedup_length|].
  by rewrite (Permutation_length (sort_by_perm _ l)).
Qed.

Lemma sort_models_ids l id : id ∈ mi_id <$> l → id ∈ mi_id <$> sort_models l.
Proof. intros Hid. apply dedup_ids. by rewrite sort_by_perm. Qed.

(** An entry has a valid identifier and claims nothing. *)
Definition plain_entry (m : ModelInfo) : Prop :=
  valid_model_id (mi_id m) = true ∧ mi_capabilities m = model_capabilities_default.

Lemma model_entry_plain p id v m : model_entry p id v = Ok (Some m) → plain_entry m.
Proof.
  unfold model_entry. intros (raw&_&Hm)%bind_ok_or. revert Hm.
  destruct (valid_model_id (without_prefix (lit "models/") raw)) eqn:Ev; cbn; [|done].
  intros [= <-]. by split.
Qed.

Lemma collect_results_elem {E A} (l : list (result E A)) xs x :
  collect_results l = Ok xs → x ∈ xs → Ok x ∈ l.
Proof.
  revert xs. induction l as [|r l IH]; intros xs; cbn.
  { intros [= <-] Hx. by apply not_elem_of_nil in Hx. }
  intros (a&->&(rest&Hrest&[= <-])%bind_Ok)%bind_Ok. intros [->|Hx]%elem_of_cons; [by left|].
  right. by apply (IH rest).
Qed.

Lemma parse_models_plain p body id models :
  parse_models p body id = Ok models → Forall plain_entry models ∧ StronglySorted id_lt models.
Proof.
  unfold parse_models. intros (v&_&(vs&_&(ms&Hms&[= <-])%bind_Ok)%bind_ok_or)%bind_ok_or.
  split; [|apply sort_models_sorted]. apply Forall_forall.
  intros m ([m'|]&Hm&Hin)%sort_models_sub%list_elem_of_omap; [|done]. injection Hin as ->.
  apply (collect_results_elem _ _ _ Hms), list_elem_of_fmap in Hm as (w&Hw&_).
  by apply (model_entry_plain p id w).
Qed.

Lemma list_cohere_plain rounds id fetch token models r :
  Forall plain_entry models → list_cohere_models rounds id fetch token models = Ok r →
  Forall plain_entry r ∧ StronglySorted id_lt r ∧ Z.of_nat (length r) ≤ 4096.
Proof.
  revert token models. induction rounds as [|rounds IH]; intros token models Hall; cbn; [done|].
  intros (body&_&([page next]&Hpage&Hrest)%bind_Ok)%bind_Ok.
  assert (Forall plain_entry page) as Hp.
  { unfold parse_cohere_model_page in Hpage.
    apply bind_ok_or in Hpage as (v&_&(ms&Hms&Hpage)%bind_Ok).
    apply if_err_Ok in Hpage as [_ [= <- _]]. by apply parse_models_plain in Hms as [? _]. }
  assert (Forall plain_entry (models ++ page)) as Hall' by by apply Forall_app.
  apply if_err_Ok in Hrest as [Hlen%Z.ltb_ge Hrest].
  destruct next as [token'|]; [by apply (IH (Some token') (models ++ page))|].
  injection Hrest as <-. split; [|split; [apply sort_models_sorted|]].
  - apply Forall_forall. intros m Hm%sort_models_sub. rewrite Forall_forall in Hall'. by apply Hall'.
  - etransitivity; [|exact Hlen]. apply inj_le, sort_models_length.
Qed.

(** *** NVIDIA: one call after another through the cache *)

Record list_call := {
  lc_cancelled : bool;
  lc_now : Z;
  lc_listed : result HostedError (list ModelInfo)
}.

Definition call_nvidia (n : NvidiaNim) (cache : option NvidiaModelCache) (c : list_call)
    : option NvidiaModelCache :=
  (nvidia_list_models n (lc_cancelled c) (lc_now c) (lc_listed c) cache).1.

Definition evidenced (n : NvidiaNim) (m : ModelInfo) : Prop :=
  mi_capabilities m = verified_capabilities (nn_verified n) (mi_id m).

Lemma nvidia_list_evidenced n cancelled now listed cache :
  (∀ c, cache = Some c → Forall (evidenced n) (nc_models c)) →
  let r := nvidia_list_models n cancelled now listed cache in
  (∀ c, r.1 = Some c → Forall (evidenced n) (nc_models c)) ∧
  (∀ models, r.2 = Ok models → Forall (evidenced n) models).
Proof.
  intros Hc. unfold nvidia_list_models. destruct cancelled; [done|].
  assert (∀ l, Forall (evidenced n) (with_evidence (nn_verified n) <$> l)) as Hnew.
  { intros l. apply Forall_fmap, Forall_forall. by intros m _. }
  assert (∀ r, match listed with
               | Err e => (cache, Err e)
               | Ok models => (Some {| nc_expires_at := now + nn_cache_ttl n;
                                       nc_models := with_evidence (nn_verified n) <$> models |},
                               Ok (with_evidence (nn_verified n) <$> models))
               end = r →
             (∀ c, r.1 = Some c → Forall (evidenced n) (nc_models c)) ∧
             (∀ models, r.2 = Ok models → Forall (evidenced n) models)) as Hmiss.
  { intros r <-. destruct listed as [models|e]; cbn; [|done].
    split; [intros c [= <-]|intros ms [= <-]]; apply Hnew. }
  destruct cache as [c|]; cbn; [|by eapply Hmiss].
  destruct (now <? nc_expires_at c); [|by eapply Hmiss].
  split; [done|]. intros models [= <-]. by apply Hc.
Qed.

Lemma validate_model_features_Ok n r :
  validate_model_features n r = Ok tt →
  let evidence := nn_verified n !! lr_model r in
  (lr_tools r ≠ [] → mcap_tool_calls <$> evidence = Some Supported) ∧
  (is_Some (lr_response_json_schema r) → mcap_json_schema <$> evidence = Some Supported) ∧
  mcap_streaming <$> evidence ≠ Some Unsupported.
Proof.
  unfold validate_model_features, has_tools. set (evidence := nn_verified n !! lr_model r).
  intros [Ht [Hs [Hu _]%if_err_Ok]%if_err_Ok]%if_err_Ok. cbn. split; [|split].
  - intros Hne. destruct (lr_tools r); [done|]. cbn in Ht.
    by apply negb_false_iff, bool_decide_eq_true in Ht.
  - intros [schema Hsc]. rewrite Hsc in Hs. cbn in Hs.
    by apply negb_false_iff, bool_decide_eq_true in Hs.
  - destruct evidence as [e|]; [|done]. cbn in Hu |- *. apply bool_decide_eq_false in Hu. congruence.
Qed.

(** features of an NVIDIA model are used only on evidence about that exact model. Over
    any sequence of listings, with the cache, every model that is listed carries exactly
    the capabilities verified for its identifier (streaming alone when there is no
    evidence); and a request with tools or with a response schema leaves the machine only
    when that feature is verified for its model, and never for a model known not to
    stream. *)
Theorem nvidia_needs_evidence n :
  (∀ calls c models,
     let cache := foldl (call_nvidia n) None calls in
     (nvidia_list_models n (lc_cancelled c) (lc_now c) (lc_listed c) cache).2 = Ok models →
     Forall (evidenced n) models) ∧
  (∀ r secret send accepted q answer,
     nvidia_stream n r secret send accepted = Done (Some q, answer) →
     let evidence := nn_verified n !! lr_model r in
     (lr_tools r ≠ [] → mcap_tool_calls <$> evidence = Some Supported) ∧
     (is_Some (lr_response_json_schema r) → mcap_json_schema <$> evidence = Some Supported) ∧
     mcap_streaming <$> evidence ≠ Some Unsupported).
Proof.
  split.
  - intros calls c models cache.
    assert (∀ c, cache = Some c → Forall (evidenced n) (nc_models c)) as Hinv.
    { subst cache. assert (∀ c, @None NvidiaModelCache = Some c → Forall (evidenced n) (nc_models c))
        as H0' by done. revert H0'. generalize (@None NvidiaModelCache).
      induction calls as [|c' calls IH]; intros cache Hc; [done|]. cbn. apply IH.
      by apply (nvidia_list_evidenced n (lc_cancelled c') (lc_now c') (lc_listed c')). }
    destruct (nvidia_list_evidenced n (lc_cancelled c) (lc_now c) (lc_listed c) cache Hinv)
      as [_ Hm]. apply Hm.
  - intros r secret send accepted q answer. unfold nvidia_stream.
    destruct (validate_model_features n r) as [[]|e] eqn:Ev; [|done]. intros _.
    by apply validate_model_features_Ok.
Qed.
End models.
