(* ===== verification/HostedExample.v ===== *)
(** * Hosted language models: concrete instances and witnesses

    A small JSON type, a URL as the record of its parts, and a fixture of a chat-completion
    stream with text and a tool call cut in pieces. *)

From S2P Require Import Prelude Text Bytes Float Policy Sse Turn HostedTypes HostedRequest HostedParser HostedStream HostedSpec HostedTheorems.

#[local] Open Scope Z_scope.

(** ** JSON values *)

Inductive toy :=
| ToyNull
| ToyBool (b : bool)
| ToyNumber (n : Z)
| ToyF32 (x : f32)
| ToyString (s : str)
| ToyArray (l : list toy)
| ToyObject (l : list (str * toy)).

Fixpoint toy_depth (v : toy) : nat :=
  match v with
  | ToyArray l => S (foldr (λ v n, Nat.max (toy_depth v) n) O l)
  | ToyObject l => S (foldr (λ e n, Nat.max (toy_depth e.2) n) O l)
  | _ => O
  end.

Definition toy_get (key : str) (v : toy) : option toy :=
  match v with ToyObject l => (list_to_map l : gmap str toy) !! key | _ => None end.

(** The pointer_segments of a pointer, after the first slash. *)
Fixpoint pointer_segments (s current : str) : list str :=
  match s with
  | [] => [current]
  | c :: s => if c =? 47 then current :: pointer_segments s [] else pointer_segments s (current ++ [c])
  end.

Definition toy_pointer (pointer : str) (v : toy) : option toy :=
  foldl (λ o key, v ← o; toy_get key v) (Some v) (tail (pointer_segments pointer [])).

(** The texts the fixtures use, and the values they stand for. *)
Definition field (key : string) (v : toy) : str * toy := (lit key, v).
Definition chunk (delta : list (str * toy)) : toy :=
  ToyObject [field "id" (ToyString (lit "r1"));
             field "choices" (ToyArray [ToyObject [field "index" (ToyNumber 0);
                                                   field "delta" (ToyObject delta)]])].
Definition tool_chunk (fields : list (str * toy)) : toy :=
  chunk [field "tool_calls" (ToyArray [ToyObject fields])].

Definition toy_texts : list (string * toy) :=
  [("hello", chunk [field "content" (ToyString (lit "Hel"))]);
   ("world", chunk [field "content" (ToyString (lit "lo."))]);
   ("call", tool_chunk [field "index" (ToyNumber 0); field "id" (ToyString (lit "c1"));
                        field "function" (ToyObject [field "name" (ToyString (lit "look"));
                                                     field "arguments" (ToyString (lit "[ar"))])]);
   ("rest", tool_chunk [field "index" (ToyNumber 0);
                        field "function" (ToyObject [field "arguments" (ToyString (lit "gs]"))])]);
   ("[args]", ToyArray [ToyNumber 1]);
   ("models", ToyObject [field "data" (ToyArray [ToyObject [field "id" (ToyString (lit "m"))]])])]%string.

Definition toy_parse (s : str) : option toy :=
  snd <$> List.find (λ e, str_eqb (lit e.1) s) toy_texts.

Definition toy_as_array (v : toy) : option (list toy) :=
  match v with ToyArray l => Some l | _ => None end.
Definition toy_as_object (v : toy) : option (gmap str toy) :=
  match v with ToyObject l => Some (list_to_map l) | _ => None end.

Lemma toy_array_depth v vs :
  toy_as_array v = Some vs → Forall (λ w, toy_depth w < toy_depth v)%nat vs.
Proof.
  destruct v as [| | | | |l|l]; intros [=<-]. apply Forall_forall. intros w Hw. cbn.
  induction l as [|v l IH]; [by apply not_elem_of_nil in Hw|]. cbn.
  apply elem_of_cons in Hw as [->|Hw]; [lia|]. specialize (IH Hw). lia.
Qed.

Lemma toy_object_depth v m :
  toy_as_object v = Some m → map_Forall (λ _ w, toy_depth w < toy_depth v)%nat m.
Proof.
  destruct v as [| | | | |l|l]; intros [=<-]. intros k w Hk%elem_of_list_to_map_2. cbn.
  induction l as [|v l IH]; [by apply not_elem_of_nil in Hk|]. cbn.
  apply elem_of_cons in Hk as [<-|Hk]; [cbn; lia|]. specialize (IH Hk). lia.
Qed.

Lemma toy_array_view vs : toy_as_array (ToyArray vs) = Some vs.
Proof. done. Qed.
Lemma toy_array_not_object vs : toy_as_object (ToyArray vs) = None.
Proof. done. Qed.

Definition toy_json_values : JsonValueApi := {|
  json_value := toy;
  json_parse := toy_parse;
  json_from_slice := λ bytes, utf8_decode bytes ≫= toy_parse;
  json_get := toy_get;
  json_pointer := toy_pointer;
  json_as_str := λ v, match v with ToyString s => Some s | _ => None end;
  json_as_bool := λ v, match v with ToyBool b => Some b | _ => None end;
  json_as_u64 := λ v, match v with ToyNumber n => Some n | _ => None end;
  json_as_f64 := λ v, None;
  json_as_array := toy_as_array;
  json_is_object := λ v, is_some (toy_as_object v);
  json_encoded_len := λ v, Some 100;
  json_as_object := toy_as_object;
  json_null := ToyNull; json_bool := ToyBool; json_u64 := ToyNumber; json_f32 := ToyF32;
  json_string := ToyString; json_array := ToyArray;
  json_object := λ m, ToyObject (map_to_list m);
  json_depth := toy_depth;
  json_array_view := toy_array_view;
  json_array_not_object := toy_array_not_object;
  json_array_depth := toy_array_depth;
  json_object_depth := toy_object_depth |}.

(** ** URLs and headers *)

Record toy_url := {
  tu_scheme : str; tu_host : option str; tu_path : str; tu_query : option str }.

Definition toy_urls : UrlApi := {|
  url := toy_url;
  url_scheme := tu_scheme; url_host_str := tu_host; url_port := λ _, None; url_path := tu_path;
  url_username := λ _, []; url_password := λ _, None; url_query := tu_query;
  url_fragment := λ _, None;
  url_set_path := λ p u, {| tu_scheme := tu_scheme u; tu_host := tu_host u; tu_path := p;
                            tu_query := tu_query u |};
  url_set_query := λ q u, {| tu_scheme := tu_scheme u; tu_host := tu_host u;
                             tu_path := tu_path u; tu_query := q |} |}.

Lemma toy_url_laws : @UrlLaws toy_urls.
Proof. by split. Defined.

(** Printable bytes. *)
Definition toy_headers : HeaderApi := {| header_value_ok := forallb (λ b, (32 <=? b) && (b <=? 126)) |}.

#[local] Existing Instances toy_json_values toy_urls toy_headers toy_url_laws.

(** ** A stream *)

Definition sse_data (s : string) : list Z := lit "data: " ++ lit s ++ [LF; LF].

Definition fixture_stream : list Z :=
  concat (sse_data <$> ["hello"; "world"; "call"; "rest"; "[DONE]"]%string).

Definition fixture_run (answers : list net_answer) : outcome (list LlmEvent * option StreamState) :=
  stream_run (lit "groq") answers (stream_start (lit "groq") OpenAiChatCompletions).

(** The events, without the interface in their type. *)
Inductive shown :=
| ShownStarted (id : option str) | ShownText (text : str) | ShownCall (index : Z) (id name : str)
| ShownFragment (index : Z) (text : str) | ShownDone (index : Z) (id name : str) (v : toy)
| ShownUsage (u : TokenUsage) | ShownEnd (reason : FinishReason) | ShownError (e : HostedError).

Definition show (e : LlmEvent) : shown :=
  match e with
  | Started id => ShownStarted id
  | TextDelta text _ => ShownText text
  | ToolCallStarted i id name => ShownCall i id name
  | ToolCallDelta i text => ShownFragment i text
  | ToolCallCompleted i id name v => ShownDone i id name v
  | Usage u => ShownUsage u
  | Finished reason _ => ShownEnd reason
  | StreamError e => ShownError e
  end.
Definition shown_run (answers : list net_answer) : option (list shown * bool) :=
  match fixture_run answers with Done (es, st) => Some (show <$> es, is_none st) | _ => None end.

(** Byte by byte. *)
Example hosted_fixture_events :
  shown_run ((λ b, NetBytes [b]) <$> fixture_stream) =
  Some ([ShownStarted (Some (lit "r1")); ShownText (lit "Hel"); ShownText (lit "lo.");
         ShownCall 0 (lit "c1") (lit "look"); ShownFragment 0 (lit "[ar");
         ShownFragment 0 (lit "gs]");
         ShownDone 0 (lit "c1") (lit "look") (ToyArray [ToyNumber 1]);
         ShownEnd EndTurn], true).
Proof. vm_compute. reflexivity. Qed.

Definition is_done {A} (o : outcome A) : bool := match o with Done _ => true | _ => false end.
Definition done_ok {A E B} (o : outcome (A * result E B)) : bool :=
  match o with Done (_, Ok _) => true | _ => false end.

Lemma hosted_chunking_irrelevant_witness :
  fixture_run ((NetBytes <$> ((λ b, [b]) <$> fixture_stream)) ++ [NetEnd]) =
  fixture_run [NetBytes fixture_stream; NetEnd].
Proof.
  assert (done_ok (push_sse fixture_stream sse_default) = true) as Hok by (vm_compute; reflexivity).
  destruct (push_sse fixture_stream sse_default) as [[d [frames|e]]| |] eqn:Ep;
    [|discriminate Hok..].
  apply (hosted_chunking_irrelevant (lit "groq") OpenAiChatCompletions fixture_stream
    ((λ b, [b]) <$> fixture_stream) [NetEnd] d frames); [reflexivity| |exact Ep].
  vm_compute. discriminate.
Defined.

Definition cancelled_run : list net_answer :=
  [NetBytes (sse_data "hello"); NetBytes (sse_data "world"); NetCancelled].

Lemma bridge_delivers_text_witness : ∃ events st,
  fixture_run cancelled_run = Done (events, st) ∧
  bridge_items 0 events = numbered 0 (text_deltas events) ++ concat (bridged_end <$> events).
Proof.
  assert (match fixture_run cancelled_run with
          | Done (es, _) => Z.of_nat (length es) <=? u64_max | _ => false end = true) as Hok
    by (vm_compute; reflexivity).
  destruct (fixture_run cancelled_run) as [[events st]| |] eqn:Er; [|discriminate Hok..].
  exists events, st. split; [reflexivity|].
  apply (bridge_delivers_text (lit "groq") OpenAiChatCompletions cancelled_run events st Er).
  by apply Z.leb_le.
Defined.

(** What the runtime gets from the cancelled stream. *)
Example cancelled_items :
  match fixture_run cancelled_run with Done (es, _) => bridge_items 0 es | _ => [] end =
  [Ok {| dl_text := lit "Hel"; dl_sequence := 1 |};
   Ok {| dl_text := lit "lo."; dl_sequence := 2 |};
   Err (runtime_error (hosted_cancelled (lit "groq")))].
Proof. vm_compute. reflexivity. Qed.

(** A framing error drops what the same piece had completed: with the end marker and an
    invalid line in one piece the response fails, in two it succeeds. *)
Theorem framing_error_drops_frames :
  let ended := sse_data "hello" ++ sse_data "[DONE]" in
  let invalid := [255; LF] in
  shown_run [NetBytes (ended ++ invalid)] =
    Some ([ShownError (hosted_protocol (lit "groq") (lit "SSE framing is invalid or oversized"))],
          true) ∧
  shown_run [NetBytes ended; NetBytes invalid] =
    Some ([ShownStarted (Some (lit "r1")); ShownText (lit "Hel"); ShownEnd EndTurn], true).
Proof. split; vm_compute; reflexivity. Qed.

(** ** A request *)

Definition base_url : toy_url := {|
  tu_scheme := lit "https"; tu_host := Some (lit "api.openai.com"); tu_path := lit "/v1/";
  tu_query := None |}.
Definition fixture_config : AdapterConfig := {|
  ac_base_url := base_url; ac_credential := lit "openai"; ac_request_timeout := 30 * 1000000000;
  ac_allow_insecure_loopback := false |}.
Definition fixture_request : LlmRequest := {|
  lr_model := lit "gpt"; lr_messages := [chat_text UserRole (lit "Hi")];
  lr_maximum_output_tokens := 64; lr_temperature := None; lr_tools := [];
  lr_response_json_schema := None |}.
Definition event_stream : send_answer := SendResponse {|
  rs_status := 200;
  rs_header := λ name, if str_eqb name (lit "content-type")
                       then Some (Some (lit "text/event-stream; charset=utf-8")) else None |}.
Definition key : list Z := lit "sk-1".

Definition fixture_adapter : AdapterInner := {|
  ai_config := fixture_config;
  ai_capabilities := capabilities (lit "openai") (lit "OpenAI") OpenAiResponses true true true false;
  ai_compatible := None |}.

Lemma hosted_request_secure_witness : ∃ q answer,
  adapter_stream fixture_adapter fixture_request (SecretResolved key) event_stream (Ok []) =
    Done (Some q, answer) ∧
  sq_body q !! lit "store" = Some (json_bool false).
Proof.
  assert (match adapter_stream fixture_adapter fixture_request (SecretResolved key) event_stream
                  (Ok []) with Done (Some _, _) => true | _ => false end = true) as Hok
    by (vm_compute; reflexivity).
  destruct (adapter_stream fixture_adapter fixture_request (SecretResolved key) event_stream (Ok []))
    as [[[q|] answer]| |] eqn:Es; [|discriminate Hok..].
  exists q, answer. split; [reflexivity|].
  refine (proj2 (proj2 (proj2 (proj2 (hosted_request_secure fixture_adapter fixture_request
    (SecretResolved key) event_stream (Ok []) q answer _ Es)))) eq_refl).
  apply (offered_openai true fixture_config). reflexivity.
Defined.

(** ** NVIDIA *)

Definition fixture_nim : NvidiaNim := {|
  nn_inner := fixture_adapter;
  nn_verified := {[ lit "gpt" := {| mcap_streaming := Supported; mcap_tool_calls := Supported;
                                    mcap_json_schema := UnknownSupport;
                                    mcap_reasoning := UnknownSupport |} ]};
  nn_cache_ttl := NVIDIA_NIM_MIN_MODEL_CACHE_TTL |}.

Lemma nvidia_needs_evidence_witness : ∃ models,
  (nvidia_list_models fixture_nim false 0
     (parse_models OpenAiResponses (lit "models") (lit "nvidia-nim")) None).2 = Ok models ∧
  Forall (evidenced fixture_nim) models.
Proof.
  assert (is_ok (nvidia_list_models fixture_nim false 0
     (parse_models OpenAiResponses (lit "models") (lit "nvidia-nim")) None).2 = true) as Hok
    by (vm_compute; reflexivity).
  destruct (nvidia_list_models fixture_nim false 0
     (parse_models OpenAiResponses (lit "models") (lit "nvidia-nim")) None).2
    as [models|e] eqn:Em; [|discriminate Hok].
  exists models. split; [reflexivity|].
  exact (proj1 (nvidia_needs_evidence fixture_nim) []
    {| lc_cancelled := false; lc_now := 0;
       lc_listed := parse_models OpenAiResponses (lit "models") (lit "nvidia-nim") |} models Em).
Defined.
