(* ===== verification/ProfileValidation.v ===== *)
(** * Game profiles: the data ([crates/game-profile/src/model.rs])

    A profile is authored, declarative data: which game it is for, how its window is
    found, what its characters are and know. Nothing in it is executable; what makes a
    profile acceptable, every check of a document, of text and of paths, follows it. *)

From S2P Require Import Prelude Text Float HostedTypes.
From Stdlib Require Import SpecFloat.

#[local] Open Scope Z_scope.

Definition GAME_PROFILE_V2_VERSION : str := lit "2.0.0".

(** ** The game and its detection *)

Record GameMetadata := {
  gm_publisher : str;
  gm_release_year : Z;
  gm_genres : list str;
  gm_official_url : option str
}.

(** Entries with [required] are alternatives; the others are hints. *)
Record ProcessDetection := {
  pd_executable : str;
  pd_required : bool;
  pd_window_title_regex : option str
}.

Inductive StoreKind := Steam | Epic | Gog | Microsoft | Standalone.

Record StoreDetection := {
  sd_store : StoreKind;
  sd_app_id : option str;
  sd_install_directory_hints : list str
}.

Inductive BuildStatus := BuildSupported | BuildExperimental | BuildBlocked.
#[export] Instance BuildStatus_eq_dec : EqDecision BuildStatus.
Proof. solve_decision. Defined.

Record BuildCompatibility := {
  bc_build_id : str;
  bc_status : BuildStatus;
  bc_reason : option str
}.

Inductive UiRegionPurpose :=
| ExcludeIdentity | ExcludeCompositing | SubtitleSafeZone | DialogueIndicator | NameplateHint.

Record NormalizedRect := { nr_x : f64; nr_y : f64; nr_width : f64; nr_height : f64 }.

Record UiRegion := {
  ur_id : str;
  ur_purpose : UiRegionPurpose;
  ur_rect : NormalizedRect
}.

Inductive CaptureMethod := WindowsGraphicsCapture | DesktopDuplication | AudioSubtitles.
#[export] Instance CaptureMethod_eq_dec : EqDecision CaptureMethod.
Proof. solve_decision. Defined.

Inductive CaptureFallback := FallbackAudioSubtitles.

Record CaptureContract := {
  cc_preferred_methods : list CaptureMethod;
  cc_excluded_window_title_regexes : list str;
  cc_allow_exclusive_fullscreen : bool;
  cc_fallback : CaptureFallback;
  cc_ui_regions : list UiRegion
}.

Record DetectionMetadata := {
  dm_processes : list ProcessDetection;
  dm_stores : list StoreDetection;
  dm_builds : list BuildCompatibility;
  dm_capture : CaptureContract
}.

(** ** Safety and capabilities *)

Inductive OnlinePolicy := OnlineBlocked.
Inductive AntiCheatPolicy := BlockWhenDetected.

Record SafetyPolicy := {
  sp_single_player_only : bool;
  sp_online_policy : OnlinePolicy;
  sp_anti_cheat_policy : AntiCheatPolicy;
  sp_declarative_only : bool;
  sp_risk_notes : list str
}.

Inductive CapabilityEvidenceKind := DeterministicReplay | DeclarativeContract | NotVerified.
#[export] Instance CapabilityEvidenceKind_eq_dec : EqDecision CapabilityEvidenceKind.
Proof. solve_decision. Defined.

Inductive CapabilityTier := TierUnsupported | TierExperimental | ReplayVerified | LiveCertified.
#[export] Instance CapabilityTier_eq_dec : EqDecision CapabilityTier.
Proof. solve_decision. Defined.

Record CapabilityEvidence := {
  ce_kind : CapabilityEvidenceKind;
  ce_reference : str;
  ce_summary : str
}.

Record CapabilityClaim := {
  cl_tier : CapabilityTier;
  cl_evidence : list CapabilityEvidence;
  cl_fallback : str
}.

Record CapabilitySet := {
  cs_conversation : CapabilityClaim;
  cs_identity : CapabilityClaim;
  cs_capture : CapabilityClaim;
  cs_subtitles : CapabilityClaim;
  cs_memory : CapabilityClaim;
  cs_screen_space_lip_sync : CapabilityClaim
}.

(** [CapabilitySet::iter]. *)
Definition capabilities_iter (c : CapabilitySet) : list (str * CapabilityClaim) := [
  (lit "conversation", cs_conversation c);
  (lit "identity", cs_identity c);
  (lit "capture", cs_capture c);
  (lit "subtitles", cs_subtitles c);
  (lit "memory", cs_memory c);
  (lit "screen_space_lip_sync", cs_screen_space_lip_sync c)
].

(** ** Authored content *)

Inductive CharacterDataReadiness := ReadinessCurated | ReadinessPartial | ReadinessUnavailable.

Record SpoilerTier := {
  st_id : str;
  st_description : str;
  st_default_enabled : bool
}.

Inductive ProvenanceKind := ProvOriginal | ProvOfficial | ProvLicensed | ProvLegacyImport.

Inductive ReviewStatus := ReviewPending | ReviewApproved | ReviewRejected.
#[export] Instance ReviewStatus_eq_dec : EqDecision ReviewStatus.
Proof. solve_decision. Defined.

Record ProvenanceRecord := {
  pr_id : str;
  pr_title : str;
  pr_kind : ProvenanceKind;
  pr_source_url : option str;
  pr_license : option str;
  pr_notes : option str;
  pr_source_revision : option str;
  pr_source_path : option str;
  pr_source_sha256 : option str;
  pr_review_status : option ReviewStatus;
  pr_transform_version : option str
}.

(** What an authored piece of knowledge may be told to. *)
Inductive KnowledgeAuthority := KnCoreCanon | KnGamePublic | KnCharacterAuthored.
#[export] Instance KnowledgeAuthority_eq_dec : EqDecision KnowledgeAuthority.
Proof. solve_decision. Defined.

Record KnowledgeRecord := {
  kr_id : str;
  kr_authority : KnowledgeAuthority;
  kr_owner_character_id : option str;
  kr_text : str;
  kr_topic_tags : list str;
  kr_spoiler_tier : str;
  kr_provenance_id : str
}.

(** The lanes of a prompt. *)
Inductive PromptAuthority :=
| CoreCanon | CharacterProfileLane | GamePublic | CharacterAuthored
| RetrievedMemory | SessionSummary | RecentDeliveredTurns.
#[export] Instance PromptAuthority_eq_dec : EqDecision PromptAuthority.
Proof. solve_decision. Defined.
#[export] Instance PromptAuthority_countable : Countable PromptAuthority.
Proof.
  refine (inj_countable'
    (λ a, match a with CoreCanon => 0%nat | CharacterProfileLane => 1%nat | GamePublic => 2%nat
          | CharacterAuthored => 3%nat | RetrievedMemory => 4%nat | SessionSummary => 5%nat
          | RecentDeliveredTurns => 6%nat end)
    (λ n, match n with 0%nat => CoreCanon | 1%nat => CharacterProfileLane | 2%nat => GamePublic
          | 3%nat => CharacterAuthored | 4%nat => RetrievedMemory | 5%nat => SessionSummary
          | _ => RecentDeliveredTurns end) _).
  by intros [].
Defined.

Record RetrievalPolicy := {
  rp_query_window_delivered_turns : Z;
  rp_max_core_records : Z;
  rp_max_public_records : Z;
  rp_max_character_records : Z;
  rp_max_memory_records : Z;
  rp_authority_order : list PromptAuthority
}.

(** [RetrievalPolicy::default]. *)
Definition retrieval_policy_default : RetrievalPolicy := {|
  rp_query_window_delivered_turns := 5;
  rp_max_core_records := 16;
  rp_max_public_records := 4;
  rp_max_character_records := 4;
  rp_max_memory_records := 8;
  rp_authority_order := [CoreCanon; CharacterProfileLane; CharacterAuthored; GamePublic;
                         SessionSummary; RetrievedMemory; RecentDeliveredTurns] |}.

Record ContentBundle := {
  cb_world_lore : str;
  cb_spoiler_policy : str;
  cb_spoiler_tiers : list SpoilerTier;
  cb_background_npc_rules : list str;
  cb_provenance : list ProvenanceRecord;
  cb_knowledge : list KnowledgeRecord;
  cb_retrieval : RetrievalPolicy;
  cb_character_data_readiness : option CharacterDataReadiness;
  cb_character_data_readiness_notes : option str
}.

(** ** Characters *)

Record StyleExample := {
  se_id : str;
  se_speaker : str;
  se_text : str;
  se_situation_tags : list str;
  se_tone_tags : list str;
  se_weight_millis : Z;
  se_provenance_id : str
}.

Record CharacterPrompt := {
  cp_role : str;
  cp_objectives : list str;
  cp_constraints : list str;
  cp_knowledge_refs : list str
}.

Record VoiceDefaults := {
  vd_description : str;
  vd_locale : str;
  vd_style_tags : list str;
  vd_provider_voice_id : option str;
  vd_adapter_id : option str;
  vd_catalog_version : option str;
  vd_license : option str;
  vd_user_override_allowed : bool
}.

Inductive IdentityStrategy := StrategyExplicitSelection.
#[export] Instance IdentityStrategy_eq_dec : EqDecision IdentityStrategy.
Proof. solve_decision. Defined.
Inductive IdentityEvidence := EvidenceExplicitSelection.
#[export] Instance IdentityEvidence_eq_dec : EqDecision IdentityEvidence.
Proof. solve_decision. Defined.
Inductive IdentityFallback := FallbackExplicitSelection.

Record IdentityContract := {
  ic_strategy : IdentityStrategy;
  ic_evidence : list IdentityEvidence;
  ic_fallback : IdentityFallback
}.

Inductive ModelQualityTier := QualityFast | QualityBalanced | QualityHigh.

Record ModelDefaults := {
  md_quality_tier : ModelQualityTier;
  md_context_budget : Z
}.

Record CharacterProfile := {
  ch_id : str;
  ch_display_name : str;
  ch_aliases : list str;
  ch_biography : str;
  ch_personality : str;
  ch_dialogue_style : str;
  ch_style_examples : list StyleExample;
  ch_opening_lines : list str;
  ch_background_npc : bool;
  ch_prompt : CharacterPrompt;
  ch_voice : VoiceDefaults;
  ch_identity : IdentityContract;
  ch_model : ModelDefaults
}.

(** ** The profile *)

Record ProfileDefaults := {
  pf_character_id : str;
  pf_model : ModelDefaults;
  pf_voice : VoiceDefaults
}.

Inductive DiagnosticSeverity := SeverityInfo | SeverityWarning | SeverityError.

Record DiagnosticContract := {
  dc_id : str;
  dc_severity : DiagnosticSeverity;
  dc_check : str;
  dc_remediation : str
}.

Record TroubleshootingEntry := {
  te_symptom : str;
  te_cause : str;
  te_steps : list str
}.

Record GlobalPrompts := {
  gp_system_preamble : str;
  gp_safety_rules : list str;
  gp_background_npc_template : str
}.

Inductive IntegrationMode := ExternalOnly.
Inductive ProviderStrategy := ApiFirst.
Inductive LocalActivationPolicy := MeasuredWholeLoadoutFitRequired.
Inductive ScreenSpaceLipSyncRecommendation :=
  ExperimentalOptInAfterExactTargetAndAdvancingFrameQualification.

Record RecommendationPolicy := {
  rc_integration_mode : IntegrationMode;
  rc_provider_strategy : ProviderStrategy;
  rc_local_activation_policy : LocalActivationPolicy;
  rc_game_resource_reserve_required : bool;
  rc_screen_space_lip_sync : ScreenSpaceLipSyncRecommendation
}.

Record GameProfileV2 := {
  gf_schema_version : str;
  gf_id : str;
  gf_display_name : str;
  gf_game : GameMetadata;
  gf_detection : DetectionMetadata;
  gf_safety : SafetyPolicy;
  gf_capabilities : CapabilitySet;
  gf_content : ContentBundle;
  gf_characters : list CharacterProfile;
  gf_defaults : ProfileDefaults;
  gf_diagnostics : list DiagnosticContract;
  gf_troubleshooting : list TroubleshootingEntry;
  gf_prompts : GlobalPrompts;
  gf_recommendations : option RecommendationPolicy
}.

(** * Game profiles: validation ([crates/game-profile/src/validation.rs])

    A profile is untrusted input. [load_profile] checks its size, the schema, the absence
    of executable fields anywhere in the document, and then the references and the safety
    of what it names. A check is a function from the report to the report: problems
    accumulate, nothing stops at the first.

    The regular-expression compiler, the schema validator and the generated decoder are
    not in the repository: [ProfileApi]. *)

#[local] Open Scope Z_scope.

Definition MAX_PROFILE_BYTES : Z := 2 * 1024 * 1024.
Definition MAX_TOTAL_STRING_BYTES : Z := 1024 * 1024.

(** ** The report *)

Inductive IssueCode :=
| IcSchema | IcUnsupportedVersion | IcDuplicateId | IcBrokenReference | IcUnsafeRegex
| IcUnsafePath | IcUnsafeUrl | IcForbiddenExecutableField | IcInconsistentCapability
| IcMissingRationale | IcExcessiveContent | IcInvalidRegion | IcMissingPrimaryProcess
| IcMissingCapabilityEvidence | IcInvalidCapabilityEvidence.
#[export] Instance IssueCode_eq_dec : EqDecision IssueCode.
Proof. solve_decision. Defined.

Record ValidationIssue := {
  vi_code : IssueCode;
  vi_path : str;
  vi_message : str
}.

Record ValidationReport := {
  vr_errors : list ValidationIssue;
  vr_warnings : list ValidationIssue
}.

Definition report_default : ValidationReport := {| vr_errors := []; vr_warnings := [] |}.

Definition report_is_valid (r : ValidationReport) : bool :=
  match vr_errors r with [] => true | _ => false end.

Definition report_error (code : IssueCode) (path message : str) (r : ValidationReport)
    : ValidationReport := {|
  vr_errors := vr_errors r ++ [{| vi_code := code; vi_path := path; vi_message := message |}];
  vr_warnings := vr_warnings r |}.

Definition report_warning (code : IssueCode) (path message : str) (r : ValidationReport)
    : ValidationReport := {|
  vr_errors := vr_errors r;
  vr_warnings := vr_warnings r ++ [{| vi_code := code; vi_path := path; vi_message := message |}] |}.

(** *** Checks *)

Definition check : Type := ValidationReport → ValidationReport.

(** [if b { report.error(...) }]. *)
Definition error_if (b : bool) (code : IssueCode) (path message : str) : check :=
  λ r, if b then report_error code path message r else r.

Definition skip_check : check := λ r, r.

(** Statements one after the other. *)
Definition all_checks (cs : list check) : check := λ r, fold_left (λ r c, c r) cs r.

(** [for (index, item) in items.iter().enumerate()]. *)
Definition each {A} (f : nat → A → check) (l : list A) : check := all_checks (imap f l).

(** [if let Some(x) = o]. *)
Definition if_some {A} (o : option A) (f : A → check) : check :=
  match o with Some x => f x | None => skip_check end.

Definition index_text (i : nat) : str := dec (Z.of_nat i).

(** ** The helper checks *)

(** [unique_ids]. *)
Fixpoint unique_loop (seen : gset str) (ids : list str) (path : str) : check :=
  match ids with
  | [] => skip_check
  | id :: ids => λ r,
      unique_loop ({[id]} ∪ seen) ids path
        (error_if (bool_decide (id ∈ seen)) IcDuplicateId path
           (lit "duplicate id `" ++ id ++ lit "`") r)
  end.
Definition unique_ids (ids : list str) (path : str) : check := unique_loop ∅ ids path.

Definition has_nested_quantifier (pattern : str) : bool :=
  str_contains (lit "+)+") pattern || str_contains (lit "*)+") pattern
  || str_contains (lit "+)*") pattern || str_contains (lit "*)*") pattern
  || str_contains (lit "+){") pattern || str_contains (lit "*){") pattern.

(** [str::replace(from, to)]: left to right, without overlap. [fuel] is the length of the
    text plus one. *)
Fixpoint str_replace_from (fuel : nat) (from to s : str) : str :=
  match fuel with
  | O => s
  | S fuel =>
      match strip_prefix from s, s with
      | Some rest, _ => to ++ str_replace_from fuel from to rest
      | None, [] => []
      | None, c :: s => c :: str_replace_from fuel from to s
      end
  end.
Definition str_replace (from to s : str) : str := str_replace_from (S (length s)) from to s.

(** The constructs whose matching cost is not bounded. *)
Definition regex_forbidden (pattern : str) : bool :=
  let lower := ascii_lowercase pattern in
  let unsupported_group :=
    str_contains (lit "(?") (str_replace (lit "(?:") (lit "(") (str_replace (lit "(?i)") [] lower)) in
  (256 <? str_len pattern)
  || unsupported_group
  || str_contains (lit "\k<") lower
  || existsb (λ digit, str_contains (lit "\" ++ dec digit) pattern) [1; 2; 3; 4; 5; 6; 7; 8; 9]
  || has_nested_quantifier pattern.

Definition is_unsafe_path (value : str) : bool :=
  str_is_empty value
  || str_eqb value (lit ".") || str_eqb value (lit "..")
  || str_contains (lit "/") value || str_contains (lit "\") value || str_contains (lit ":") value
  || text_starts_with (lit ".") value || str_contains [0] value.

Definition unsafe_executable (value : str) : bool :=
  is_unsafe_path value || negb (text_ends_with (lit ".exe") (ascii_lowercase value)).

Definition validate_executable_leaf (value path : str) : check :=
  error_if (unsafe_executable value) IcUnsafePath path
    (lit "executable must be a leaf .exe filename, never a path").

Definition safe_segment (segment : str) : bool :=
  negb (str_is_empty segment) && negb (str_eqb segment (lit ".")) && negb (str_eqb segment (lit ".."))
  && negb (text_starts_with (lit ".") segment) && negb (str_contains [0] segment).

Definition unsafe_relative (value : str) : bool :=
  negb (forallb safe_segment (split_char 47 value))
  || text_starts_with (lit "/") value
  || str_contains (lit "\") value || str_contains (lit ":") value
  || (512 <? str_len value).

Definition validate_relative_leaf (value path : str) : check :=
  error_if (unsafe_relative value) IcUnsafePath path
    (lit "install hint must be a safe relative path without traversal, drive, UNC, or device syntax").

Definition unsafe_url (value : str) : bool :=
  let lower := ascii_lowercase value in
  negb (text_starts_with (lit "https://") lower)
  || str_contains (lit "@") lower
  || str_contains (lit "javascript:") lower
  || str_contains (lit "data:") lower.

Definition validate_https_url (value path : str) : check :=
  error_if (unsafe_url value) IcUnsafeUrl path
    (lit "only credential-free HTTPS URLs are allowed").

(** [notes.as_deref().map(str::trim).unwrap_or("").is_empty()]. *)
Definition missing_text (o : option str) : bool :=
  str_is_empty (default [] (trim <$> o)).

(** A rectangle outside the frame; the sums are those of [f64]. *)
Definition f64_add (x y : f64) : f64 := SFadd 53 1024 x y.
Definition f64_one : f64 := Eval vm_compute in f64_lit 1 1.
Definition invalid_rect (r : NormalizedRect) : bool :=
  negb (is_finite (nr_x r) && is_finite (nr_y r) && is_finite (nr_width r) && is_finite (nr_height r))
  || f_lt (nr_x r) f_zero || f_lt (nr_y r) f_zero
  || f_le (nr_width r) f_zero || f_le (nr_height r) f_zero
  || f_lt f64_one (f64_add (nr_x r) (nr_width r))
  || f_lt f64_one (f64_add (nr_y r) (nr_height r)).

Definition bad_sha256 (hash : str) : bool :=
  negb (str_len hash =? 64)
  || negb (forallb (λ b, is_ascii_digit b || ((97 <=? b) && (b <=? 102))) hash).

(** ** The profile *)

(** What the checks need of third-party code: [Regex::new] ([None] when the pattern
    compiles, else its error), the validator of the bundled schema with the path and the
    text of each problem, the derived decoder. *)
Class ProfileApi `{JsonValueApi} := {
  regex_error : str → option str;
  schema_problems : json_value → list (str * str);
  profile_of_json : json_value → option GameProfileV2
}.

Section validate.
Context `{ProfileApi}.

Definition validate_safe_regex (pattern path : str) : check := λ r,
  if regex_forbidden pattern then
    report_error IcUnsafeRegex path (lit "regex uses a forbidden high-complexity construct") r
  else match regex_error pattern with
  | Some error => report_error IcUnsafeRegex path (lit "invalid regex: " ++ error) r
  | None => r
  end.

Definition has_id (ids : list str) (id : str) : bool := bool_decide (id ∈ ids).

Definition check_style_example (provenance : list str) (index example_index : nat)
    (e : StyleExample) : check :=
  let path := lit "/characters/" ++ index_text index ++ lit "/style_examples/" ++ index_text example_index in
  all_checks [
    error_if (1000 <? se_weight_millis e) IcInconsistentCapability (path ++ lit "/weight_millis")
      (lit "style example weight must be in 0..=1000");
    error_if (negb (has_id provenance (se_provenance_id e))) IcBrokenReference
      (path ++ lit "/provenance_id")
      (lit "unknown provenance `" ++ se_provenance_id e ++ lit "`")].

Definition check_character (provenance spoiler_tiers knowledge : list str) (index : nat)
    (c : CharacterProfile) : check :=
  let path := lit "/characters/" ++ index_text index in
  all_checks [
    each (λ _ reference,
      error_if (negb (has_id provenance reference) && negb (has_id spoiler_tiers reference)
                && negb (has_id knowledge reference))
        IcBrokenReference (path ++ lit "/prompt/knowledge_refs")
        (lit "unknown provenance or spoiler-tier reference `" ++ reference ++ lit "`"))
      (cp_knowledge_refs (ch_prompt c));
    error_if (bool_decide (ic_strategy (ch_identity c) ≠ StrategyExplicitSelection)
              || bool_decide (ic_evidence (ch_identity c) ≠ [EvidenceExplicitSelection]))
      IcInconsistentCapability (path ++ lit "/identity")
      (lit "generic profiles require explicit character selection as their sole identity evidence");
    unique_ids (se_id <$> ch_style_examples c) (path ++ lit "/style_examples");
    each (check_style_example provenance index) (ch_style_examples c)].

Definition check_knowledge (characters provenance spoiler_tiers : list str) (index : nat)
    (k : KnowledgeRecord) : check :=
  let path := lit "/content/knowledge/" ++ index_text index in
  all_checks [
    error_if (negb (has_id provenance (kr_provenance_id k))) IcBrokenReference
      (path ++ lit "/provenance_id")
      (lit "unknown provenance `" ++ kr_provenance_id k ++ lit "`");
    error_if (negb (has_id spoiler_tiers (kr_spoiler_tier k))) IcBrokenReference
      (path ++ lit "/spoiler_tier")
      (lit "unknown spoiler tier `" ++ kr_spoiler_tier k ++ lit "`");
    match kr_authority k, kr_owner_character_id k with
    | KnCharacterAuthored, Some owner =>
        error_if (negb (has_id characters owner)) IcBrokenReference
          (path ++ lit "/owner_character_id") (lit "unknown character `" ++ owner ++ lit "`")
    | KnCharacterAuthored, None =>
        report_error IcBrokenReference (path ++ lit "/owner_character_id")
          (lit "character-authored knowledge requires an owner")
    | _, Some _ =>
        report_error IcInconsistentCapability (path ++ lit "/owner_character_id")
          (lit "only character-authored knowledge may declare an owner")
    | _, None => skip_check
    end].

Definition bad_authority_order (order : list PromptAuthority) : bool :=
  bool_decide (order = [])
  || negb (Nat.eqb (size (list_to_set order : gset PromptAuthority)) (length order))
  || negb (bool_decide (CoreCanon ∈ order)).

Definition readiness_unexplained (c : ContentBundle) : bool :=
  match cb_character_data_readiness c with
  | Some ReadinessPartial | Some ReadinessUnavailable =>
      missing_text (cb_character_data_readiness_notes c)
  | _ => false
  end.

Definition check_process (index : nat) (p : ProcessDetection) : check :=
  let path := lit "/detection/processes/" ++ index_text index in
  all_checks [
    validate_executable_leaf (pd_executable p) (path ++ lit "/executable");
    if_some (pd_window_title_regex p) (λ pattern,
      validate_safe_regex pattern (path ++ lit "/window_title_regex"))].

Definition check_store (store_index : nat) (s : StoreDetection) : check :=
  each (λ hint_index hint,
    validate_relative_leaf hint
      (lit "/detection/stores/" ++ index_text store_index ++ lit "/install_directory_hints/"
       ++ index_text hint_index)) (sd_install_directory_hints s).

Definition sourced_kind (k : ProvenanceKind) : bool :=
  match k with ProvOfficial | ProvLicensed => true | _ => false end.

Definition check_provenance (index : nat) (p : ProvenanceRecord) : check :=
  let path := lit "/content/provenance/" ++ index_text index in
  all_checks [
    if_some (pr_source_url p) (λ url, validate_https_url url (path ++ lit "/source_url"));
    error_if (sourced_kind (pr_kind p) && is_none (pr_source_url p)) IcBrokenReference
      (path ++ lit "/source_url") (lit "non-original content requires an HTTPS source URL");
    if_some (pr_source_path p) (λ value, validate_relative_leaf value (path ++ lit "/source_path"));
    if_some (pr_source_sha256 p) (λ hash,
      error_if (bad_sha256 hash) IcBrokenReference (path ++ lit "/source_sha256")
        (lit "source_sha256 must be 64 lowercase hexadecimal characters"))].

Definition check_build (index : nat) (b : BuildCompatibility) : check :=
  error_if (bool_decide (bc_status b = BuildBlocked) && missing_text (bc_reason b))
    IcMissingRationale (lit "/detection/builds/" ++ index_text index ++ lit "/reason")
    (lit "a blocked build requires a reason").

Definition check_region (index : nat) (u : UiRegion) : check :=
  error_if (invalid_rect (ur_rect u)) IcInvalidRegion
    (lit "/detection/capture/ui_regions/" ++ index_text index ++ lit "/rect")
    (lit "normalized rectangle must be finite, positive, and entirely within the 0..1 frame").

Definition has_replay (c : CapabilityClaim) : bool :=
  existsb (λ item, bool_decide (ce_kind item = DeterministicReplay)) (cl_evidence c).

Definition check_claim (name : str) (c : CapabilityClaim) : check :=
  let path := lit "/capabilities/" ++ name in
  all_checks [
    error_if (is_blank (cl_fallback c)) IcMissingRationale (path ++ lit "/fallback")
      (lit "every capability needs an explicit fallback");
    error_if (bool_decide (length (cl_evidence c) = 0%nat)) IcMissingCapabilityEvidence
      (path ++ lit "/evidence") (lit "every capability claim needs honest evidence metadata");
    error_if (bool_decide (cl_tier c = ReplayVerified) && negb (has_replay c))
      IcInvalidCapabilityEvidence (path ++ lit "/evidence")
      (lit "replay_verified requires deterministic_replay evidence");
    error_if (bool_decide (cl_tier c = LiveCertified)) IcInvalidCapabilityEvidence
      (path ++ lit "/tier")
      (lit "live_certified is reserved until external live-game evidence is attached");
    each (λ index e,
      error_if (is_blank (ce_reference e) || is_blank (ce_summary e)) IcMissingCapabilityEvidence
        (path ++ lit "/evidence/" ++ index_text index)
        (lit "capability evidence needs a non-empty reference and summary")) (cl_evidence c)].

Definition lip_sync_overclaimed (c : CapabilityClaim) : bool :=
  bool_decide (cl_tier c ≠ TierExperimental)
  || existsb (λ e, bool_decide (ce_kind e ≠ NotVerified)) (cl_evidence c).

(** [GameProfileV2::validate], its statements in order. *)
Definition validate_checks (p : GameProfileV2) : list check :=
  let content := gf_content p in
  let detection := gf_detection p in
  let capture := dm_capture detection in
  let characters := ch_id <$> gf_characters p in
  let provenance := pr_id <$> cb_provenance content in
  let spoiler_tiers := st_id <$> cb_spoiler_tiers content in
  let knowledge := kr_id <$> cb_knowledge content in
  [ error_if (negb (str_eqb (gf_schema_version p) GAME_PROFILE_V2_VERSION)) IcUnsupportedVersion
      (lit "/schema_version")
      (lit "expected " ++ GAME_PROFILE_V2_VERSION ++ lit ", got " ++ gf_schema_version p);
    unique_ids characters (lit "/characters");
    unique_ids provenance (lit "/content/provenance");
    unique_ids knowledge (lit "/content/knowledge");
    unique_ids spoiler_tiers (lit "/content/spoiler_tiers");
    unique_ids (dc_id <$> gf_diagnostics p) (lit "/diagnostics");
    unique_ids (bc_build_id <$> dm_builds detection) (lit "/detection/builds");
    unique_ids (ur_id <$> cc_ui_regions capture) (lit "/detection/capture/ui_regions");
    error_if (negb (has_id characters (pf_character_id (gf_defaults p)))) IcBrokenReference
      (lit "/defaults/character_id") (lit "default character does not exist");
    each (check_character provenance spoiler_tiers knowledge) (gf_characters p);
    each (check_knowledge characters provenance spoiler_tiers) (cb_knowledge content);
    error_if (bad_authority_order (rp_authority_order (cb_retrieval content)))
      IcInconsistentCapability (lit "/content/retrieval/authority_order")
      (lit "authority order must be unique, non-empty, and include core_canon");
    error_if (readiness_unexplained content) IcMissingRationale
      (lit "/content/character_data_readiness_notes")
      (lit "partial or unavailable character data requires a non-empty rationale");
    error_if (is_some_and (gf_recommendations p)
                (λ policy, negb (rc_game_resource_reserve_required policy)))
      IcInconsistentCapability (lit "/recommendations/game_resource_reserve_required")
      (lit "local activation must reserve resources for the foreground game");
    each check_process (dm_processes detection);
    error_if (negb (existsb pd_required (dm_processes detection))) IcMissingPrimaryProcess
      (lit "/detection/processes")
      (lit "at least one required primary process is needed; required entries are OR alternatives");
    each (λ index pattern,
      validate_safe_regex pattern
        (lit "/detection/capture/excluded_window_title_regexes/" ++ index_text index))
      (cc_excluded_window_title_regexes capture);
    each check_region (cc_ui_regions capture);
    each check_store (dm_stores detection);
    if_some (gm_official_url (gf_game p)) (λ url, validate_https_url url (lit "/game/official_url"));
    each check_provenance (cb_provenance content);
    each check_build (dm_builds detection);
    error_if (negb (bool_decide (AudioSubtitles ∈ cc_preferred_methods capture)))
      IcInconsistentCapability (lit "/detection/capture/preferred_methods")
      (lit "generic profiles must retain audio and subtitles as a capture-independent path");
    each (λ _ named, check_claim named.1 named.2) (capabilities_iter (gf_capabilities p));
    error_if (lip_sync_overclaimed (cs_screen_space_lip_sync (gf_capabilities p)))
      IcInconsistentCapability (lit "/capabilities/screen_space_lip_sync")
      (lit "generic screen-space lip sync must remain experimental with only not_verified evidence");
    λ r, if bool_decide (cl_tier (cs_conversation (gf_capabilities p)) = TierUnsupported) then
      report_warning IcInconsistentCapability (lit "/capabilities/conversation")
        (lit "a profile without conversation support cannot provide the core experience") r
      else r ].

Definition profile_validate (p : GameProfileV2) : ValidationReport :=
  all_checks (validate_checks p) report_default.

(** ** Untyped documents *)

Definition validate_json_schema (value : json_value) : ValidationReport :=
  fold_left (λ r problem, report_error IcSchema problem.1 problem.2 r)
    (schema_problems value) report_default.

Definition FORBIDDEN_KEYS : list str := [
  lit "command"; lit "commands"; lit "script"; lit "script_path"; lit "shell"; lit "powershell";
  lit "python"; lit "code"; lit "eval"; lit "exec"; lit "arguments"; lit "dll"; lit "inject";
  lit "hook_address"; lit "download_url"; lit "environment"; lit "working_directory";
  lit "registry_write"; lit "network_request"].

Definition is_forbidden_key (key : str) : bool :=
  bool_decide (ascii_lowercase key ∈ FORBIDDEN_KEYS).

(** [walk]: the report and the total length of the strings, threaded through the document
    in the order of the keys. [fuel] is more than the depth of the document. *)
Fixpoint security_walk (fuel : nat) (value : json_value) (path : str)
    (s : Z * ValidationReport) : Z * ValidationReport :=
  match fuel with
  | O => s
  | S fuel =>
      match json_as_object value with
      | Some map =>
          fold_left (λ s member,
            let child_path := path ++ lit "/" ++ member.1 in
            let report := error_if (is_forbidden_key member.1) IcForbiddenExecutableField child_path
              (lit "profiles are declarative data and may not contain executable fields") s.2 in
            security_walk fuel member.2 child_path (s.1, report)) (btree_iter map) s
      | None =>
          match json_as_array value with
          | Some items =>
              fold_left (λ s item,
                security_walk fuel item.2 (path ++ lit "/" ++ index_text item.1) s)
                (imap pair items) s
          | None =>
              match json_as_str value with
              | Some text => (sat_add64 s.1 (str_len text), s.2)
              | None => s
              end
          end
      end
  end.

Definition validate_untyped_security (value : json_value) (r : ValidationReport) : ValidationReport :=
  let '(total, r) := security_walk (S (json_depth value)) value [] (0, r) in
  error_if (MAX_TOTAL_STRING_BYTES <? total) IcExcessiveContent []
    (lit "string content totals " ++ dec total ++ lit " bytes; maximum is "
     ++ dec MAX_TOTAL_STRING_BYTES) r.

(** ** Loading *)

Inductive ProfileLoadError :=
| TooLarge (actual maximum : Z)
| InvalidJson
| ProfileInvalid (report : ValidationReport).

Definition load_profile (input : list Z) : result ProfileLoadError GameProfileV2 :=
  let size := Z.of_nat (length input) in
  if MAX_PROFILE_BYTES <? size then Err (TooLarge size MAX_PROFILE_BYTES) else
  value ← ok_or (json_from_slice input) InvalidJson;
  let report := validate_untyped_security value (validate_json_schema value) in
  if negb (report_is_valid report) then Err (ProfileInvalid report) else
  profile ← ok_or (profile_of_json value) InvalidJson;
  let report := profile_validate profile in
  if negb (report_is_valid report) then Err (ProfileInvalid report) else
  Ok profile.
End validate.
