(* ===== verification/ProfileSpec.v ===== *)
(** * Game profiles: what validation accepts

    [well_formed_profile] says what an acceptable profile is; [validate_accepts] that the
    checks of [ProfileValidation] accept exactly those; [load_profile_exact] what a loaded
    document is. *)

From S2P Require Import Prelude Text Float HostedTypes ProfileValidation.

#[local] Open Scope Z_scope.

(** ** What a check decides *)

(** The check adds no error exactly when [P] holds, whatever was reported before. *)
Definition passes (c : check) (P : Prop) : Prop :=
  ∀ r, report_is_valid (c r) = true ↔ report_is_valid r = true ∧ P.

Lemma report_error_invalid code path message r :
  report_is_valid (report_error code path message r) = false.
Proof. unfold report_is_valid. cbn. by destruct (vr_errors r). Qed.

Lemma passes_iff c P Q : passes c P → (P ↔ Q) → passes c Q.
Proof. intros Hc HPQ r. by rewrite (Hc r), HPQ. Qed.

Lemma passes_error_if b code path message : passes (error_if b code path message) (b = false).
Proof.
  intros r. unfold error_if. destruct b; [|naive_solver]. rewrite report_error_invalid. naive_solver.
Qed.

Lemma passes_report_error code path message : passes (report_error code path message) False.
Proof. intros r. rewrite report_error_invalid. naive_solver. Qed.

Lemma passes_skip : passes skip_check True.
Proof. intros r. unfold skip_check. naive_solver. Qed.

Lemma passes_if_some {A} (o : option A) f (P : A → Prop) :
  (∀ x, passes (f x) (P x)) → passes (if_some o f) (∀ x, o = Some x → P x).
Proof.
  intros Hf. destruct o as [x|].
  - refine (passes_iff _ _ _ (Hf x) _). naive_solver.
  - refine (passes_iff _ _ _ passes_skip _). naive_solver.
Qed.

(** The statements of a list, each with what it decides. *)
Lemma passes_nil : passes (all_checks []) True.
Proof. apply passes_skip. Qed.
Lemma passes_cons c cs P Q :
  passes c P → passes (all_checks cs) Q → passes (all_checks (c :: cs)) (P ∧ Q).
Proof.
  intros Hc Hcs r. change (all_checks (c :: cs) r) with (all_checks cs (c r)).
  rewrite (Hcs (c r)), (Hc r). tauto.
Qed.

Lemma passes_each {A} (f : nat → A → check) (P : A → Prop) l :
  (∀ i x, passes (f i x) (P x)) → passes (each f l) (Forall P l).
Proof.
  intros Hf. unfold each. revert f Hf. induction l as [|x l IH]; intros f Hf.
  - refine (passes_iff _ _ _ passes_nil _). split; [by constructor|done].
  - cbn [imap]. refine (passes_iff _ _ _ (passes_cons _ _ _ _ (Hf 0%nat x) (IH (f ∘ S) _)) _).
    + intros i y. apply Hf.
    + by rewrite Forall_cons.
Qed.

Lemma passes_unique_loop ids seen path :
  passes (unique_loop seen ids path) (NoDup ids ∧ ∀ id, id ∈ ids → id ∉ seen).
Proof.
  revert seen. induction ids as [|id ids IH]; intros seen; cbn [unique_loop].
  { refine (passes_iff _ _ _ passes_skip _). split; [|done]. intros _. split; [constructor|].
    intros id Hid. by apply not_elem_of_nil in Hid. }
  intros r. etransitivity; [apply (IH ({[id]} ∪ seen))|].
  etransitivity; [apply and_iff_compat_r, passes_error_if|].
  rewrite bool_decide_eq_false, NoDup_cons. setoid_rewrite elem_of_cons.
  setoid_rewrite not_elem_of_union. setoid_rewrite not_elem_of_singleton. naive_solver.
Qed.

Lemma passes_unique_ids ids path : passes (unique_ids ids path) (NoDup ids).
Proof.
  refine (passes_iff _ _ _ (passes_unique_loop _ _ _) _). split; [naive_solver|].
  intros Hd. split; [done|]. intros id _. apply not_elem_of_empty.
Qed.

(** The parts of a conjunction, without looking inside them. *)
Ltac parts := repeat lazymatch goal with |- _ ∧ _ => split end; try done.

Create HintDb report.
#[export] Hint Resolve passes_error_if passes_report_error passes_skip passes_unique_ids : report.
#[export] Hint Extern 3 (passes (error_if _ _ _ _) _) => eapply passes_error_if : report.

(** Reads a list of checks off statement by statement, by the head of the check. *)
Ltac read_statements :=
  cbv zeta;
  repeat lazymatch goal with
    | |- passes (all_checks []) _ => exact passes_nil
    | |- passes (all_checks (_ :: _)) _ => refine (passes_cons _ _ _ _ _ _)
    | |- passes (each _ _) _ => apply passes_each; intros ? ?
    | |- passes (if_some _ _) _ => apply passes_if_some; intros ?
    | |- _ => solve [eauto with report]
    end.

#[global] Opaque all_checks error_if skip_check each if_some unique_ids report_error.

(** ** Acceptable parts *)

Section spec.
Context `{ProfileApi}.

Definition safe_regex (pattern : str) : Prop :=
  regex_forbidden pattern = false ∧ regex_error pattern = None.

Definition explained (o : option str) : Prop := ∃ s, o = Some s ∧ is_blank s = false.

Record style_example_ok (provenance : list str) (e : StyleExample) : Prop := {
  se_ok_weight : se_weight_millis e ≤ 1000;
  se_ok_provenance : se_provenance_id e ∈ provenance
}.

Record character_ok (provenance spoiler_tiers knowledge : list str) (c : CharacterProfile) : Prop := {
  ch_ok_refs : ∀ reference, reference ∈ cp_knowledge_refs (ch_prompt c) →
    reference ∈ provenance ∨ reference ∈ spoiler_tiers ∨ reference ∈ knowledge;
  ch_ok_identity : ic_evidence (ch_identity c) = [EvidenceExplicitSelection];
  ch_ok_unique : NoDup (se_id <$> ch_style_examples c);
  ch_ok_examples : Forall (style_example_ok provenance) (ch_style_examples c)
}.

Record knowledge_ok (characters provenance spoiler_tiers : list str) (k : KnowledgeRecord) : Prop := {
  kn_ok_provenance : kr_provenance_id k ∈ provenance;
  kn_ok_tier : kr_spoiler_tier k ∈ spoiler_tiers;
  kn_ok_owner : kr_authority k = KnCharacterAuthored →
    ∃ owner, kr_owner_character_id k = Some owner ∧ owner ∈ characters;
  kn_ok_unowned : kr_authority k ≠ KnCharacterAuthored → kr_owner_character_id k = None
}.

Record process_ok (p : ProcessDetection) : Prop := {
  pd_ok_executable : unsafe_executable (pd_executable p) = false;
  pd_ok_regex : ∀ pattern, pd_window_title_regex p = Some pattern → safe_regex pattern
}.

Record provenance_ok (p : ProvenanceRecord) : Prop := {
  pr_ok_url : ∀ url, pr_source_url p = Some url → unsafe_url url = false;
  pr_ok_sourced : sourced_kind (pr_kind p) = true → is_Some (pr_source_url p);
  pr_ok_path : ∀ path, pr_source_path p = Some path → unsafe_relative path = false;
  pr_ok_hash : ∀ hash, pr_source_sha256 p = Some hash → bad_sha256 hash = false
}.

Record claim_ok (c : CapabilityClaim) : Prop := {
  cl_ok_fallback : is_blank (cl_fallback c) = false;
  cl_ok_evidence : cl_evidence c ≠ [];
  cl_ok_replay : cl_tier c = ReplayVerified → has_replay c = true;
  cl_ok_uncertified : cl_tier c ≠ LiveCertified;
  cl_ok_texts : ∀ e, e ∈ cl_evidence c →
    is_blank (ce_reference e) = false ∧ is_blank (ce_summary e) = false
}.

(** An acceptable profile: its identifiers are unique, its references resolve, what it
    names is safe to look for, and it claims no more than its evidence. *)
Record well_formed_profile (p : GameProfileV2) : Prop := {
  wf_version : gf_schema_version p = GAME_PROFILE_V2_VERSION;
  wf_characters : NoDup (ch_id <$> gf_characters p);
  wf_provenance : NoDup (pr_id <$> cb_provenance (gf_content p));
  wf_knowledge : NoDup (kr_id <$> cb_knowledge (gf_content p));
  wf_tiers : NoDup (st_id <$> cb_spoiler_tiers (gf_content p));
  wf_diagnostics : NoDup (dc_id <$> gf_diagnostics p);
  wf_builds : NoDup (bc_build_id <$> dm_builds (gf_detection p));
  wf_regions : NoDup (ur_id <$> cc_ui_regions (dm_capture (gf_detection p)));
  wf_default : pf_character_id (gf_defaults p) ∈ ch_id <$> gf_characters p;
  wf_each_character : Forall (character_ok (pr_id <$> cb_provenance (gf_content p))
    (st_id <$> cb_spoiler_tiers (gf_content p)) (kr_id <$> cb_knowledge (gf_content p)))
    (gf_characters p);
  wf_each_knowledge : Forall (knowledge_ok (ch_id <$> gf_characters p)
    (pr_id <$> cb_provenance (gf_content p)) (st_id <$> cb_spoiler_tiers (gf_content p)))
    (cb_knowledge (gf_content p));
  wf_order : NoDup (rp_authority_order (cb_retrieval (gf_content p)))
    ∧ CoreCanon ∈ rp_authority_order (cb_retrieval (gf_content p));
  wf_readiness : readiness_unexplained (gf_content p) = false;
  wf_reserve : ∀ policy, gf_recommendations p = Some policy →
    rc_game_resource_reserve_required policy = true;
  wf_processes : Forall process_ok (dm_processes (gf_detection p));
  wf_primary : ∃ process, process ∈ dm_processes (gf_detection p) ∧ pd_required process = true;
  wf_excluded : Forall safe_regex (cc_excluded_window_title_regexes (dm_capture (gf_detection p)));
  wf_each_region : Forall (λ u, invalid_rect (ur_rect u) = false)
    (cc_ui_regions (dm_capture (gf_detection p)));
  wf_stores : Forall (λ s, Forall (λ hint, unsafe_relative hint = false)
    (sd_install_directory_hints s)) (dm_stores (gf_detection p));
  wf_url : ∀ url, gm_official_url (gf_game p) = Some url → unsafe_url url = false;
  wf_each_provenance : Forall provenance_ok (cb_provenance (gf_content p));
  wf_each_build : Forall (λ b, bc_status b = BuildBlocked → explained (bc_reason b))
    (dm_builds (gf_detection p));
  wf_audio : AudioSubtitles ∈ cc_preferred_methods (dm_capture (gf_detection p));
  wf_claims : Forall (λ named, claim_ok named.2) (capabilities_iter (gf_capabilities p));
  wf_lip_sync : lip_sync_overclaimed (cs_screen_space_lip_sync (gf_capabilities p)) = false
}.

(** ** The checks decide them *)

Lemma passes_regex pattern path : passes (validate_safe_regex pattern path) (safe_regex pattern).
Proof.
  intros r. unfold validate_safe_regex, safe_regex. destruct (regex_forbidden pattern).
  { rewrite report_error_invalid. naive_solver. }
  destruct (regex_error pattern); [rewrite report_error_invalid|]; naive_solver.
Qed.

Lemma has_id_true ids id : has_id ids id = true ↔ id ∈ ids.
Proof. apply bool_decide_eq_true. Qed.

Lemma passes_has_id ids id code path message :
  passes (error_if (negb (has_id ids id)) code path message) (id ∈ ids).
Proof.
  refine (passes_iff _ _ _ (passes_error_if _ _ _ _) _). by rewrite negb_false_iff, has_id_true.
Qed.

Lemma passes_executable value path :
  passes (validate_executable_leaf value path) (unsafe_executable value = false).
Proof. apply passes_error_if. Qed.
Lemma passes_relative value path :
  passes (validate_relative_leaf value path) (unsafe_relative value = false).
Proof. apply passes_error_if. Qed.
Lemma passes_url value path : passes (validate_https_url value path) (unsafe_url value = false).
Proof. apply passes_error_if. Qed.

#[local] Hint Resolve passes_has_id passes_executable : report.
#[local] Hint Extern 1 (passes (validate_safe_regex _ _) _) => eapply passes_regex : report.
#[local] Hint Extern 1 (passes (validate_relative_leaf _ _) _) => eapply passes_relative : report.
#[local] Hint Extern 1 (passes (validate_https_url _ _) _) => eapply passes_url : report.

Lemma not_missing_text o : missing_text o = false ↔ explained o.
Proof.
  unfold missing_text, explained, is_blank. destruct o as [s|]; cbn; [naive_solver|].
  split; [done|]. by intros (?&?&_).
Qed.

Lemma passes_style_example provenance i j e :
  passes (check_style_example provenance i j e) (style_example_ok provenance e).
Proof.
  eapply passes_iff; [unfold check_style_example; read_statements|].
  rewrite Z.ltb_ge. split; [intros (?&?&_); by constructor|intros []; by parts].
Qed.

Lemma passes_reference provenance spoiler_tiers knowledge reference code path message :
  passes (error_if (negb (has_id provenance reference) && negb (has_id spoiler_tiers reference)
                    && negb (has_id knowledge reference)) code path message)
    (reference ∈ provenance ∨ reference ∈ spoiler_tiers ∨ reference ∈ knowledge).
Proof.
  refine (passes_iff _ _ _ (passes_error_if _ _ _ _) _).
  rewrite !andb_false_iff, !negb_false_iff, !has_id_true. tauto.
Qed.

Lemma passes_identity c code path message :
  passes (error_if (bool_decide (ic_strategy c ≠ StrategyExplicitSelection)
                    || bool_decide (ic_evidence c ≠ [EvidenceExplicitSelection])) code path message)
    (ic_evidence c = [EvidenceExplicitSelection]).
Proof.
  refine (passes_iff _ _ _ (passes_error_if _ _ _ _) _).
  rewrite orb_false_iff, !bool_decide_eq_false, !not_ne_iff. by destruct (ic_strategy c); naive_solver.
Qed.

#[local] Hint Resolve passes_style_example passes_identity : report.
#[local] Hint Extern 1 (passes (error_if _ _ _ _) _) => eapply passes_reference : report.

Lemma passes_character provenance spoiler_tiers knowledge i c :
  passes (check_character provenance spoiler_tiers knowledge i c)
    (character_ok provenance spoiler_tiers knowledge c).
Proof.
  eapply passes_iff; [unfold check_character; read_statements|].
  rewrite Forall_forall. split; [intros (?&?&?&?&_); by constructor|intros []; by parts].
Qed.

Lemma passes_owner characters k path :
  passes (match kr_authority k, kr_owner_character_id k with
    | KnCharacterAuthored, Some owner =>
        error_if (negb (has_id characters owner)) IcBrokenReference path
          (lit "unknown character `" ++ owner ++ lit "`")
    | KnCharacterAuthored, None => report_error IcBrokenReference path
        (lit "character-authored knowledge requires an owner")
    | _, Some _ => report_error IcInconsistentCapability path
        (lit "only character-authored knowledge may declare an owner")
    | _, None => skip_check
    end)
    ((kr_authority k = KnCharacterAuthored →
       ∃ owner, kr_owner_character_id k = Some owner ∧ owner ∈ characters) ∧
     (kr_authority k ≠ KnCharacterAuthored → kr_owner_character_id k = None)).
Proof.
  destruct (kr_authority k), (kr_owner_character_id k) as [owner|];
    (eapply passes_iff; [eauto with report|]); naive_solver.
Qed.

#[local] Hint Resolve passes_character passes_owner : report.

Lemma passes_knowledge characters provenance spoiler_tiers i k :
  passes (check_knowledge characters provenance spoiler_tiers i k)
    (knowledge_ok characters provenance spoiler_tiers k).
Proof.
  eapply passes_iff; [unfold check_knowledge; read_statements|].
  split; [intros (?&?&[]&_); by constructor|intros []; by parts].
Qed.

Lemma passes_order order code path message :
  passes (error_if (bad_authority_order order) code path message)
    (NoDup order ∧ CoreCanon ∈ order).
Proof.
  refine (passes_iff _ _ _ (passes_error_if _ _ _ _) _). unfold bad_authority_order.
  rewrite !orb_false_iff, !negb_false_iff, bool_decide_eq_false, bool_decide_eq_true, Nat.eqb_eq.
  split.
  - intros [[_ Hsize] ?]. split; [|done]. clear -Hsize.
    induction order as [|a order IH]; [constructor|]. cbn in Hsize.
    destruct (decide (a ∈ order)) as [Hin|Hin].
    + exfalso. rewrite subseteq_union_1_L in Hsize by set_solver.
      assert (size (list_to_set order : gset PromptAuthority) ≤ length order)%nat; [|lia].
      clear. induction order as [|b order IH]; [done|]. cbn.
      rewrite size_union_alt, size_singleton.
      pose proof (subseteq_size (list_to_set order ∖ {[b]} : gset PromptAuthority)
        (list_to_set order) ltac:(set_solver)). lia.
    + constructor; [done|]. apply IH. rewrite size_union, size_singleton in Hsize by set_solver. lia.
  - intros [Hd Hin]. split; [|done]. split; [by intros ->; apply not_elem_of_nil in Hin|].
    by rewrite size_list_to_set.
Qed.

Lemma passes_process i p : passes (check_process i p) (process_ok p).
Proof.
  eapply passes_iff; [unfold check_process; read_statements|].
  split; [intros (?&?&_); by constructor|intros []; by parts].
Qed.

Lemma passes_store i s :
  passes (check_store i s)
    (Forall (λ hint, unsafe_relative hint = false) (sd_install_directory_hints s)).
Proof. unfold check_store. read_statements. Qed.

Lemma passes_provenance i p : passes (check_provenance i p) (provenance_ok p).
Proof.
  eapply passes_iff; [unfold check_provenance; read_statements|].
  rewrite andb_false_iff. split.
  - intros (Hurl&Hsourced&?&?&_). split; [done| |done..]. intros Hk. rewrite Hk in Hsourced.
    destruct (pr_source_url p); [done|]. by destruct Hsourced.
  - intros [? Hsourced ? ?]. parts.
    destruct (sourced_kind (pr_kind p)); [right|by left]. by destruct (Hsourced eq_refl) as [? ->].
Qed.

Lemma passes_build i b :
  passes (check_build i b) (bc_status b = BuildBlocked → explained (bc_reason b)).
Proof.
  refine (passes_iff _ _ _ (passes_error_if _ _ _ _) _).
  rewrite andb_false_iff, bool_decide_eq_false, not_missing_text.
  destruct (decide (bc_status b = BuildBlocked)); tauto.
Qed.

Lemma passes_region i u : passes (check_region i u) (invalid_rect (ur_rect u) = false).
Proof. apply passes_error_if. Qed.

Lemma passes_claim name c : passes (check_claim name c) (claim_ok c).
Proof.
  eapply passes_iff; [unfold check_claim; read_statements|].
  setoid_rewrite orb_false_iff.
  rewrite andb_false_iff, !bool_decide_eq_false, negb_false_iff, Forall_forall. split.
  - intros (?&?&Hr&?&?&_). split; [done|by destruct (cl_evidence c)| |done..]. by destruct Hr.
  - intros [? He Hr ? ?]. parts; [by destruct (cl_evidence c)|].
    destruct (decide (cl_tier c = ReplayVerified)); [right|left]; auto.
Qed.

Lemma passes_warning (b : bool) code path message :
  passes (λ r, if b then report_warning code path message r else r) True.
Proof. intros r. destruct b; [unfold report_is_valid; cbn|]; naive_solver. Qed.

#[local] Hint Resolve passes_knowledge passes_order passes_process passes_provenance passes_warning : report.
#[local] Hint Extern 1 (passes (check_store _ _) _) => eapply passes_store : report.
#[local] Hint Extern 1 (passes (check_build _ _) _) => eapply passes_build : report.
#[local] Hint Extern 1 (passes (check_region _ _) _) => eapply passes_region : report.
#[local] Hint Extern 1 (passes (check_claim _ _) _) => eapply passes_claim : report.

Lemma passes_validate p : passes (all_checks (validate_checks p)) (well_formed_profile p).
Proof.
  eapply passes_iff; [unfold validate_checks; read_statements|].
  rewrite !negb_false_iff, bool_decide_eq_true, existsb_exists.
  setoid_rewrite <-list_elem_of_In.
  assert (is_some_and (gf_recommendations p) (λ policy, negb (rc_game_resource_reserve_required policy))
          = false ↔ ∀ policy, gf_recommendations p = Some policy →
                    rc_game_resource_reserve_required policy = true) as ->.
  { destruct (gf_recommendations p); cbn; rewrite ?negb_false_iff; naive_solver. }
  unfold str_eqb. rewrite bool_decide_eq_true. split.
  - intros (?&?&?&?&?&?&?&?&?&?&?&?&?&?&?&?&?&?&?&?&?&?&?&?&?&_). by constructor.
  - intros []. parts; tauto.
Qed.

Lemma profile_validate_iff p :
  report_is_valid (profile_validate p) = true ↔ well_formed_profile p.
Proof. unfold profile_validate. rewrite (passes_validate p report_default). naive_solver. Qed.

(** ** Untyped documents *)

(** The parts of a document. *)
Inductive json_part : json_value → json_value → Prop :=
| part_self v : json_part v v
| part_member v m k w x : json_as_object v = Some m → m !! k = Some w → json_part w x → json_part v x
| part_item v vs w x :
    json_as_object v = None → json_as_array v = Some vs → w ∈ vs → json_part w x → json_part v x.

(** No object of the document has a key that names something executable. *)
Definition inert (v : json_value) : Prop :=
  ∀ x m k, json_part v x → json_as_object x = Some m → is_Some (m !! k) → is_forbidden_key k = false.

(** The total length of the strings. *)
Fixpoint string_bytes (fuel : nat) (v : json_value) : Z :=
  match fuel with
  | O => 0
  | S fuel =>
      match json_as_object v with
      | Some m => foldr (λ kw total, string_bytes fuel kw.2 + total) 0 (btree_iter m)
      | None =>
          match json_as_array v with
          | Some vs => foldr (λ w total, string_bytes fuel w + total) 0 vs
          | None => match json_as_str v with Some text => str_len text | None => 0 end
          end
      end
  end.
Definition json_string_bytes (v : json_value) : Z := string_bytes (S (json_depth v)) v.

Lemma string_bytes_nonneg fuel v : 0 ≤ string_bytes fuel v.
Proof.
  revert v. induction fuel as [|fuel IH]; intros v; [done|]. cbn [string_bytes].
  destruct (json_as_object v) as [m|].
  { induction (btree_iter m) as [|kw l IHl]; cbn; [done|]. specialize (IH kw.2). lia. }
  destruct (json_as_array v) as [vs|].
  { induction vs as [|w vs IHvs]; cbn; [done|]. specialize (IH w). lia. }
  destruct (json_as_str v); [apply str_len_nonneg|done].
Qed.

Lemma inert_object v m : json_as_object v = Some m →
  (inert v ↔ ∀ k w, m !! k = Some w → is_forbidden_key k = false ∧ inert w).
Proof.
  intros Hv. split.
  - intros Hin k w Hk. split.
    + eapply (Hin v m k); [constructor|done|by eexists].
    + intros x m' k' Hp. apply (Hin x). by eapply part_member.
  - intros Hall x m' k' Hp Hx [w' Hk']. inversion Hp; simplify_eq.
    + by destruct (Hall _ _ Hk').
    + match goal with Hm : m !! _ = Some ?w, Hw : json_part ?w _ |- _ =>
        destruct (Hall _ _ Hm) as [_ Hin]; eapply (Hin _ _ _ Hw); [done|by eexists] end.
Qed.

Lemma inert_array v vs : json_as_object v = None → json_as_array v = Some vs →
  (inert v ↔ Forall inert vs).
Proof.
  intros Hv Ha. rewrite Forall_forall. split.
  - intros Hin w Hw x m k Hp. apply (Hin x). by eapply part_item.
  - intros Hall x m k Hp Hx Hk. inversion Hp; simplify_eq.
    match goal with Hm : _ ∈ vs, Hw : json_part _ _ |- _ => by eapply (Hall _ Hm _ _ _ Hw) end.
Qed.

Lemma inert_leaf v : json_as_object v = None → json_as_array v = None → inert v.
Proof. intros Hv Ha x m k Hp Hx. inversion Hp; simplify_eq. Qed.

(** What one walk does to the running total and the report. *)
Definition walks (f : str → Z * ValidationReport → Z * ValidationReport) (bytes : Z) (P : Prop) :=
  ∀ path total r, 0 ≤ total ≤ u64_max →
    (f path (total, r)).1 = Z.min (total + bytes) u64_max ∧
    (report_is_valid (f path (total, r)).2 = true ↔ report_is_valid r = true ∧ P).

Lemma walks_fold {A} (f : A → Z * ValidationReport → Z * ValidationReport) (bytes : A → Z)
    (P : A → Prop) (l : list A) total r :
  (∀ x, x ∈ l → 0 ≤ bytes x) →
  (∀ x total r, x ∈ l → 0 ≤ total ≤ u64_max →
    (f x (total, r)).1 = Z.min (total + bytes x) u64_max ∧
    (report_is_valid (f x (total, r)).2 = true ↔ report_is_valid r = true ∧ P x)) →
  0 ≤ total ≤ u64_max →
  (fold_left (λ s x, f x s) l (total, r)).1
    = Z.min (total + foldr (λ x t, bytes x + t) 0 l) u64_max ∧
  (report_is_valid (fold_left (λ s x, f x s) l (total, r)).2 = true
    ↔ report_is_valid r = true ∧ Forall P l).
Proof.
  revert total r. induction l as [|x l IH]; intros total r Hb Hf Ht; cbn [fold_left foldr].
  { rewrite Forall_nil. cbn. split; [lia|naive_solver]. }
  assert (Hx := Hb x ltac:(by left)).
  assert (0 ≤ foldr (λ x t, bytes x + t) 0 l) as Hrest.
  { clear -Hb. induction l as [|y l IHl]; cbn; [done|].
    assert (0 ≤ bytes y) by (apply Hb; right; by left).
    assert (0 ≤ foldr (λ x t, bytes x + t) 0 l); [|lia]. apply IHl. intros z Hz. apply Hb.
    apply elem_of_cons in Hz as [->|Hz]; [by left|]. right. by right. }
  destruct (Hf x total r ltac:(by left) Ht) as [H1 H2].
  destruct (f x (total, r)) as [total' r']. cbn [fst snd] in *. subst total'.
  destruct (IH (Z.min (total + bytes x) u64_max) r') as [H3 H4].
  { intros y Hy. apply Hb. by right. }
  { intros y ??  Hy. apply Hf. by right. }
  { unfold u64_max in *. lia. }
  rewrite H3, H4, H2, Forall_cons. split; [unfold u64_max in *; lia|tauto].
Qed.

Section walk.
Context (fuel : nat).
Hypothesis IH : ∀ v, (json_depth v < fuel)%nat →
  walks (security_walk fuel v) (string_bytes fuel v) (inert v).

Lemma walks_object v m path total r :
  (json_depth v ≤ fuel)%nat → json_as_object v = Some m → 0 ≤ total ≤ u64_max →
  (security_walk (S fuel) v path (total, r)).1 = Z.min (total + string_bytes (S fuel) v) u64_max ∧
  (report_is_valid (security_walk (S fuel) v path (total, r)).2 = true
    ↔ report_is_valid r = true ∧ inert v).
Proof.
  intros Hd Ho Ht. cbn [security_walk string_bytes]. rewrite Ho.
  edestruct (walks_fold (A := str * json_value)) with
    (P := λ kw : str * json_value, is_forbidden_key kw.1 = false ∧ inert kw.2)
    as [H1 H2]; [| |exact Ht|].
  3: split; [exact H1|etransitivity; [exact H2|]].
  - intros kw _. apply string_bytes_nonneg.
  - intros [k w] t r' Hkw%btree_iter_elem Ht'. cbn [fst snd].
    pose proof (json_object_depth _ _ Ho _ _ Hkw) as Hw. cbn in Hw.
    edestruct (IH w ltac:(lia)) as [H1 H2]; [exact Ht'|].
    split; [exact H1|]. etransitivity; [exact H2|].
    etransitivity; [apply and_iff_compat_r, passes_error_if|]. cbn. tauto.
  - rewrite (inert_object _ _ Ho), Forall_forall. split; (intros [? Hall]; split; [done|]).
    + intros k w Hk%btree_iter_elem. by apply (Hall _ Hk).
    + intros [k w] Hk%btree_iter_elem. by apply Hall.
Qed.

Lemma imap_pair_elem {A} (l : list A) i x : (i, x) ∈ imap pair l ↔ l !! i = Some x.
Proof.
  rewrite list_elem_of_lookup. setoid_rewrite list_lookup_imap_Some. split.
  - by intros (j&y&?&[= -> ->]).
  - intros ?. by exists i, x.
Qed.

Lemma foldr_imap_pair {A} (f : A → Z) (l : list A) :
  foldr (λ (ix : nat * A) t, f ix.2 + t) 0 (imap pair l) = foldr (λ x t, f x + t) 0 l.
Proof.
  assert (∀ g : nat → A → nat * A, (∀ i x, (g i x).2 = x) →
    foldr (λ (ix : nat * A) t, f ix.2 + t) 0 (imap g l) = foldr (λ x t, f x + t) 0 l) as H'; [|by apply H'].
  induction l as [|x l IHl]; [done|]. intros g Hg. cbn. rewrite Hg, IHl; [done|]. intros. apply Hg.
Qed.

Lemma walks_array v vs path total r :
  (json_depth v ≤ fuel)%nat → json_as_object v = None → json_as_array v = Some vs →
  0 ≤ total ≤ u64_max →
  (security_walk (S fuel) v path (total, r)).1 = Z.min (total + string_bytes (S fuel) v) u64_max ∧
  (report_is_valid (security_walk (S fuel) v path (total, r)).2 = true
    ↔ report_is_valid r = true ∧ inert v).
Proof.
  intros Hd Ho Ha Ht. cbn [security_walk string_bytes]. rewrite Ho, Ha.
  pose proof (json_array_depth _ _ Ha) as Hdepth. rewrite Forall_forall in Hdepth.
  edestruct (walks_fold (A := nat * json_value)) with (P := λ iw : nat * json_value, inert iw.2)
    as [H1 H2]; [| |exact Ht|].
  3: split; [rewrite <-(foldr_imap_pair (string_bytes fuel)); exact H1|etransitivity; [exact H2|]].
  - intros iw _. apply string_bytes_nonneg.
  - intros [i w] t r' Hw%imap_pair_elem%list_elem_of_lookup_2 Ht'. cbn [fst snd].
    edestruct (IH w) as [H1 H2]; [specialize (Hdepth w Hw); lia|exact Ht'|].
    split; [exact H1|exact H2].
  - rewrite (inert_array _ _ Ho Ha), !Forall_forall. split; (intros [? Hall]; split; [done|]).
    + intros w [i Hi%imap_pair_elem]%list_elem_of_lookup. by apply (Hall _ Hi).
    + intros [i w] Hw%imap_pair_elem%list_elem_of_lookup_2. by apply Hall.
Qed.
End walk.

Lemma security_walk_exact fuel v :
  (json_depth v < fuel)%nat → walks (security_walk fuel v) (string_bytes fuel v) (inert v).
Proof.
  revert v. induction fuel as [|fuel IH]; [lia|]. intros v Hd path total r Ht.
  destruct (json_as_object v) as [m|] eqn:Ho; [by eapply walks_object; [|lia|..]|].
  destruct (json_as_array v) as [vs|] eqn:Ha; [by eapply walks_array; [|lia|..]|].
  cbn [security_walk string_bytes]. rewrite Ho, Ha.
  pose proof (inert_leaf _ Ho Ha). destruct (json_as_str v); cbn; [split; [done|]|split]; [tauto| |tauto].
  unfold u64_max in *. lia.
Qed.

Lemma untyped_security_valid v r :
  report_is_valid (validate_untyped_security v r) = true ↔
  report_is_valid r = true ∧ inert v ∧ json_string_bytes v ≤ MAX_TOTAL_STRING_BYTES.
Proof.
  unfold validate_untyped_security.
  destruct (security_walk_exact (S (json_depth v)) v ltac:(lia) [] 0 r) as [H1 H2]; [done|].
  destruct (security_walk _ _ _ _) as [total r']. cbn [fst snd] in *. subst total.
  etransitivity; [apply passes_error_if|]. rewrite H2, Z.ltb_ge. fold (json_string_bytes v).
  unfold MAX_TOTAL_STRING_BYTES, u64_max. split; [intros [[??]?]|intros (?&?&?)]; parts; lia.
Qed.

Lemma schema_fold_invalid l r :
  report_is_valid r = false →
  report_is_valid (fold_left (λ r (problem : str * str), report_error IcSchema problem.1 problem.2 r) l r)
    = false.
Proof.
  revert r. induction l as [|q l IHl]; intros r Hr; [done|]. apply IHl, report_error_invalid.
Qed.

Lemma schema_valid v : report_is_valid (validate_json_schema v) = true ↔ schema_problems v = [].
Proof.
  unfold validate_json_schema. destruct (schema_problems v) as [|p l]; [done|].
  cbn [fold_left]. rewrite schema_fold_invalid by apply report_error_invalid. done.
Qed.

(** ** What is loaded *)

Lemma load_profile_Ok (input : list Z) p :
  load_profile input = Ok p ↔
  Z.of_nat (length input) ≤ MAX_PROFILE_BYTES ∧
  ∃ v, json_from_slice input = Some v ∧ schema_problems v = [] ∧ inert v ∧
    json_string_bytes v ≤ MAX_TOTAL_STRING_BYTES ∧
    profile_of_json v = Some p ∧ well_formed_profile p.
Proof.
  unfold load_profile. rewrite if_err_Ok, Z.ltb_ge. apply and_iff_compat_l.
  rewrite bind_ok_or. f_equiv. intros v. apply and_iff_compat_l.
  rewrite if_err_Ok, negb_false_iff, untyped_security_valid, schema_valid, bind_ok_or. split.
  - intros ((?&?&?)&p'&?&Hr). rewrite if_err_Ok, negb_false_iff, profile_validate_iff in Hr.
    by destruct Hr as [? [= ->]].
  - intros (?&?&?&?&?). parts. exists p. split; [done|].
    by rewrite if_err_Ok, negb_false_iff, profile_validate_iff.
Qed.

(** C34: [load_profile] returns a profile exactly for an input of at most 2 MiB that is a
    JSON document which satisfies the schema, names nothing executable at any depth, holds
    at most 1 MiB of text, and decodes to a well-formed profile: unique identifiers,
    references that resolve, safe names, paths, links and patterns, and no claim beyond its
    evidence. *)
Theorem load_profile_exact (input : list Z) p :
  load_profile input = Ok p ↔
  Z.of_nat (length input) ≤ MAX_PROFILE_BYTES ∧
  ∃ v, json_from_slice input = Some v ∧ schema_problems v = [] ∧ inert v ∧
    json_string_bytes v ≤ MAX_TOTAL_STRING_BYTES ∧
    profile_of_json v = Some p ∧ well_formed_profile p.
Proof. apply load_profile_Ok. Qed.
End spec.
