(* ===== verification/ProfileExample.v ===== *)
(** * Game profiles: a document of version 1 and witnesses

    The JSON values are those of [HostedExample]; two documents exist, one of each
    version. *)

From S2P Require Import Prelude Text Bytes Float HostedTypes HostedExample ProfileValidation ProfileSpec ProfileMigration.

#[local] Open Scope Z_scope.

Definition a_legacy_character (id : string) : LegacyCharacter := {|
  lc_id := lit id; lc_display_name := lit id; lc_aliases := [lit "z"; lit "a"; lit "z"];
  lc_biography := lit "A resident."; lc_personality := lit "Calm.";
  lc_dialogue_style := default_dialogue_style |}.

Definition a_legacy_profile : LegacyProfileV1 := {|
  lp_schema_version := lit "1"; lp_id := lit "game"; lp_display_name := lit "Game";
  lp_publisher := lit "Publisher"; lp_release_year := 2020; lp_genres := [lit "rpg"; lit "action"];
  lp_executable_names := [lit "Game.exe"; lit "game.exe"; lit "Alt.exe"];
  lp_store_ids := [{| ls_store := Steam; ls_app_id := Some (lit "1") |}];
  lp_world_lore := lit "A quiet valley.";
  lp_characters := [a_legacy_character "bo"; a_legacy_character "ada"] |}.

Definition v1_bytes : list Z := lit "v1".
Definition v2_bytes : list Z := lit "v2".
Definition v1_value : toy := ToyObject [field "schemaVersion" (ToyString (lit "1"))].

Definition document (bytes : list Z) : option toy :=
  if bool_decide (bytes = v1_bytes) then Some v1_value else
  if bool_decide (bytes = v2_bytes) then Some (ToyObject [field "id" (ToyString (lit "game"))]) else None.

#[local] Instance profile_json : JsonValueApi := {|
  json_value := toy;
  json_parse := toy_parse;
  json_from_slice := document;
  json_get := toy_get;
  json_pointer := toy_pointer;
  json_as_str := λ v, match v with ToyString s => Some s | _ => None end;
  json_as_bool := λ v, match v with ToyBool b => Some b | _ => None end;
  json_as_u64 := λ v, match v with ToyNumber n => Some n | _ => None end;
  json_as_f64 := λ v, None;
  json_as_array := toy_as_array;
  json_is_object := λ v, is_some (toy_as_object v);
  json_encoded_len := λ v, Some 100;
  json_as_object := toy_as_object;
  json_null := ToyNull; json_bool := ToyBool; json_u64 := ToyNumber; json_f32 := ToyF32;
  json_string := ToyString; json_array := ToyArray;
  json_object := λ m, ToyObject (map_to_list m);
  json_depth := toy_depth;
  json_array_view := toy_array_view;
  json_array_not_object := toy_array_not_object;
  json_array_depth := toy_array_depth;
  json_object_depth := toy_object_depth |}.

#[local] Instance profile_api : ProfileApi := {|
  regex_error := λ _, None;
  schema_problems := λ _, [];
  profile_of_json := λ _, Some (into_v2 a_legacy_profile) |}.
#[local] Instance migration_api : MigrationApi := {|
  legacy_of_json := λ _, Some a_legacy_profile;
  profile_to_vec := λ _, Some v2_bytes |}.

(** The lists of the migrated profile are in order, without repetitions. *)
Example migrated_lists :
  (gm_genres (gf_game (into_v2 a_legacy_profile)),
   pd_executable <$> dm_processes (gf_detection (into_v2 a_legacy_profile)),
   ch_id <$> gf_characters (into_v2 a_legacy_profile),
   ch_aliases <$> gf_characters (into_v2 a_legacy_profile))
  = ([lit "action"; lit "rpg"], [lit "Alt.exe"; lit "Game.exe"], [lit "ada"; lit "bo"],
     [[lit "a"; lit "z"]; [lit "a"; lit "z"]]).
Proof. vm_compute. reflexivity. Qed.

(** Stores are sorted and not deduplicated. *)
Example stores_stay_twice :
  length (migrated_stores (canonical_stores
    [{| ls_store := Steam; ls_app_id := None |}; {| ls_store := Steam; ls_app_id := None |}])) = 2%nat.
Proof. vm_compute. reflexivity. Qed.

(** Two spellings of one executable: which one stays depends on which came first. *)
Example spelling_of_the_first :
  (canonical_executables [lit "Game.exe"; lit "game.exe"], canonical_executables [lit "game.exe"; lit "Game.exe"])
  = ([lit "Game.exe"], [lit "game.exe"]).
Proof. vm_compute. reflexivity. Qed.

Lemma faithful_here : encoder_faithful (into_v2 a_legacy_profile).
Proof. intros bytes v q [= <-] [= <-] [= <-]. reflexivity. Qed.

Lemma only_an_identifier : inert (ToyObject [field "id" (ToyString (lit "game"))]).
Proof.
  apply (inert_object _ (list_to_map [field "id" (ToyString (lit "game"))])); [reflexivity|]. intros k w Hk%elem_of_list_to_map_2.
  apply list_elem_of_singleton in Hk as [= -> ->]. split; [vm_compute; reflexivity|].
  by apply inert_leaf.
Qed.

Lemma migration_witness :
  migrate_to_v2 v1_bytes = Ok {| mg_profile := into_v2 a_legacy_profile;
    mg_source_version := lit "1"; mg_warnings := migration_warnings |}.
Proof.
  apply (migration_exact (H := profile_json) v1_bytes v1_value (lit "1") a_legacy_profile v2_bytes _
    faithful_here eq_refl eq_refl (or_intror eq_refl) eq_refl eq_refl).
  split; [reflexivity|]. split; [discriminate|].
  split; [repeat (constructor; [vm_compute; reflexivity|]); constructor|].
  split; [apply (bool_decide_unpack _); vm_compute; exact I|].
  split; [vm_compute; discriminate|].
  eexists. split; [reflexivity|]. split; [reflexivity|]. split; [|split; [vm_compute; discriminate|by eexists]].
  apply only_an_identifier.
Defined.
