(* ===== verification/MemoryTypes.v ===== *)
(** * Conversation memory: the domain ([crates/memory/src/domain.rs])

    What the store keeps about conversations: scopes of authority, turns with what was
    really delivered of them, memories derived from turns, the older free-form items, and
    the checks every one of them passes before it reaches the database. JSON values of
    provenance are those of [HostedTypes.JsonValueApi]. *)

From S2P Require Import Prelude Text Bytes Float HostedTypes.
From Stdlib Require Import SpecFloat.

#[local] Open Scope Z_scope.

(** ** Errors *)

(** [Database] carries the extended result code of the engine. *)
Inductive MemoryError :=
| MeDatabase (extended_code : Z)
| MeSerialization
| MeInvalidData (message : str)
| MeNotFound (what : str)
| MeRevisionConflict (id : str) (expected actual : Z)
| MeWriterUnavailable
| MeWriterBackpressure
| MeBackgroundTask (message : str)
| MeIo.
#[export] Instance MemoryError_eq_dec : EqDecision MemoryError.
Proof. solve_decision. Defined.

Inductive StorageFailureKind := DiskFull | Corrupt | Busy | ReadOnly | StorageIo | StorageUnknown.

(** The codes of [rusqlite::ffi]. *)
Definition SQLITE_BUSY : Z := 5.
Definition SQLITE_LOCKED : Z := 6.
Definition SQLITE_READONLY : Z := 8.
Definition SQLITE_IOERR : Z := 10.
Definition SQLITE_CORRUPT : Z := 11.
Definition SQLITE_FULL : Z := 13.
Definition SQLITE_CANTOPEN : Z := 14.
Definition SQLITE_NOTADB : Z := 26.
(** [QueryReturnedNoRows] has no code of its own. *)
Definition SQLITE_DONE : Z := 101.
Definition SQLITE_CONSTRAINT_CHECK : Z := 275.
Definition SQLITE_CONSTRAINT_FOREIGNKEY : Z := 787.
Definition SQLITE_CONSTRAINT_TRIGGER : Z := 1811.
Definition SQLITE_CONSTRAINT_UNIQUE : Z := 2067.

Definition storage_failure_kind (e : MemoryError) : option StorageFailureKind :=
  match e with
  | MeDatabase extended_code =>
      let code := Z.land extended_code 255 in
      Some (if code =? SQLITE_FULL then DiskFull else
            if (code =? SQLITE_CORRUPT) || (code =? SQLITE_NOTADB) then Corrupt else
            if (code =? SQLITE_BUSY) || (code =? SQLITE_LOCKED) then Busy else
            if code =? SQLITE_READONLY then ReadOnly else
            if (code =? SQLITE_IOERR) || (code =? SQLITE_CANTOPEN) then StorageIo else
            StorageUnknown)
  | MeIo => Some StorageIo
  | _ => None
  end.

(** ** Helpers *)

(** [validate_bounded]. *)
Definition validate_bounded (name value : str) (maximum : Z) : result MemoryError unit :=
  if is_blank value || (maximum <? str_len value) then
    Err (MeInvalidData (name ++ lit " must be non-blank and at most " ++ dec maximum ++ lit " bytes"))
  else Ok tt.

Definition f64_one : f64 := Eval vm_compute in f64_lit 1 1.

(** [!value.is_finite() || !(0.0..=1.0).contains(&value)]. *)
Definition bad_weight (value : f64) : bool :=
  negb (is_finite value) || negb (range_contains f_zero f64_one value).

Definition check_weight (named : str * f64) : result MemoryError unit :=
  if bad_weight named.2 then
    Err (MeInvalidData (named.1 ++ lit " must be finite and between 0 and 1"))
  else Ok tt.

(** ** Namespaces and visibility of the free-form items *)

Inductive MemoryNamespace :=
| NsEvent | NsEpisode | NsFact | NsRelationship | NsSummary | NsLore | NsProfile.
#[export] Instance MemoryNamespace_eq_dec : EqDecision MemoryNamespace.
Proof. solve_decision. Defined.

Definition MemoryNamespace_ALL : list MemoryNamespace :=
  [NsEvent; NsEpisode; NsFact; NsRelationship; NsSummary; NsLore; NsProfile].

Definition namespace_as_str (n : MemoryNamespace) : str :=
  match n with
  | NsEvent => lit "event" | NsEpisode => lit "episode" | NsFact => lit "fact"
  | NsRelationship => lit "relationship" | NsSummary => lit "summary"
  | NsLore => lit "lore" | NsProfile => lit "profile"
  end.

Definition namespace_from_str (value : str) : result MemoryError MemoryNamespace :=
  if str_eqb value (lit "event") then Ok NsEvent else
  if str_eqb value (lit "episode") then Ok NsEpisode else
  if str_eqb value (lit "fact") then Ok NsFact else
  if str_eqb value (lit "relationship") then Ok NsRelationship else
  if str_eqb value (lit "summary") then Ok NsSummary else
  if str_eqb value (lit "lore") then Ok NsLore else
  if str_eqb value (lit "profile") then Ok NsProfile else
  Err (MeInvalidData (lit "unknown memory namespace: " ++ value)).

Inductive Visibility := VisPrivate | VisCharacter | VisGame | VisProfile | VisGlobal.
#[export] Instance Visibility_eq_dec : EqDecision Visibility.
Proof. solve_decision. Defined.

Definition visibility_as_str (v : Visibility) : str :=
  match v with
  | VisPrivate => lit "private" | VisCharacter => lit "character" | VisGame => lit "game"
  | VisProfile => lit "profile" | VisGlobal => lit "global"
  end.

Definition visibility_from_str (value : str) : result MemoryError Visibility :=
  if str_eqb value (lit "private") then Ok VisPrivate else
  if str_eqb value (lit "character") then Ok VisCharacter else
  if str_eqb value (lit "game") then Ok VisGame else
  if str_eqb value (lit "profile") then Ok VisProfile else
  if str_eqb value (lit "global") then Ok VisGlobal else
  Err (MeInvalidData (lit "unknown visibility: " ++ value)).

Record MemoryScope := {
  ms_profile_id : option str;
  ms_game_id : option str;
  ms_character_id : option str;
  ms_session_id : option str;
  ms_save_id : option str
}.
#[export] Instance MemoryScope_eq_dec : EqDecision MemoryScope.
Proof. solve_decision. Defined.

(** ** Where a record comes from *)

Record Provenance `{JsonValueApi} := {
  pv_source_kind : str;
  pv_source_id : option str;
  pv_source_uri : option str;
  pv_author : option str;
  pv_captured_at_ms : option Z;
  pv_attributes : gmap str json_value
}.

Record GeneratorProvenance := {
  gn_provider_id : str;
  gn_model_id : str;
  gn_model_revision : str;
  gn_prompt_version : str
}.
#[export] Instance GeneratorProvenance_eq_dec : EqDecision GeneratorProvenance.
Proof. solve_decision. Defined.

(** ** Scopes of authority *)

(** User, profile and game are mandatory. *)
Record AuthorityScope := {
  sc_user_id : str;
  sc_profile_id : str;
  sc_game_id : str;
  sc_character_id : option str;
  sc_encounter_id : option str;
  sc_session_id : option str;
  sc_save_id : option str
}.
#[export] Instance AuthorityScope_eq_dec : EqDecision AuthorityScope.
Proof. solve_decision. Defined.

Definition check_scope_part (part : str * option str) : result MemoryError unit :=
  match part.2 with
  | Some value =>
      if is_blank value || (512 <? str_len value) then
        Err (MeInvalidData (part.1 ++ lit " must be non-blank and at most 512 bytes"))
      else Ok tt
  | None => Ok tt
  end.

(** [AuthorityScope::validate]. *)
Definition scope_validate (s : AuthorityScope) : result MemoryError unit :=
  check_all check_scope_part [
    (lit "user_id", Some (sc_user_id s));
    (lit "profile_id", Some (sc_profile_id s));
    (lit "game_id", Some (sc_game_id s));
    (lit "character_id", sc_character_id s);
    (lit "encounter_id", sc_encounter_id s);
    (lit "session_id", sc_session_id s);
    (lit "save_id", sc_save_id s)].

Record CharacterMemoryErasureRequest := {
  er_scope : AuthorityScope;
  er_erased_at_ms : Z
}.

Definition erasure_request_validate (r : CharacterMemoryErasureRequest) : result MemoryError unit :=
  _ ← scope_validate (er_scope r);
  if is_none (sc_character_id (er_scope r)) then
    Err (MeInvalidData (lit "character memory erasure requires an exact character ID")) else
  if er_erased_at_ms r <? 0 then
    Err (MeInvalidData (lit "memory erasure timestamp cannot be negative")) else
  Ok tt.

(** ** Turns *)

Inductive TurnSpeaker := SpeakerPlayer | SpeakerNpc.
#[export] Instance TurnSpeaker_eq_dec : EqDecision TurnSpeaker.
Proof. solve_decision. Defined.

Definition speaker_as_str (s : TurnSpeaker) : str :=
  match s with SpeakerPlayer => lit "player" | SpeakerNpc => lit "npc" end.
Definition speaker_from_str (value : str) : result MemoryError TurnSpeaker :=
  if str_eqb value (lit "player") then Ok SpeakerPlayer else
  if str_eqb value (lit "npc") then Ok SpeakerNpc else
  Err (MeInvalidData (lit "unknown turn speaker: " ++ value)).

(** Only what was delivered is eligible for storage. *)
Inductive DeliveryDisposition :=
| DdQueued
| DdDelivered (delivered_at_ms : Z)
| DdPartiallyDelivered (delivered_bytes delivered_at_ms : Z)
| DdCancelled
| DdFailed.
#[export] Instance DeliveryDisposition_eq_dec : EqDecision DeliveryDisposition.
Proof. solve_decision. Defined.

(** [DeliveryDisposition::eligible_text]; [is_char_boundary] and the slice are one
    split of the text. *)
Definition eligible_text (d : DeliveryDisposition) (text : str)
    : result MemoryError (option (str * Z)) :=
  match d with
  | DdDelivered delivered_at_ms => Ok (Some (text, delivered_at_ms))
  | DdPartiallyDelivered delivered_bytes delivered_at_ms =>
      let bad := Err (MeInvalidData
        (lit "partial delivery must be a non-empty, proper UTF-8 byte prefix")) in
      if (delivered_bytes =? 0) || (str_len text <=? delivered_bytes) then bad else
      match slice_to delivered_bytes text with
      | Some prefix => Ok (Some (prefix, delivered_at_ms))
      | None => bad
      end
  | DdQueued | DdCancelled | DdFailed => Ok None
  end.

Section turns.
Context `{JsonValueApi}.

Record TurnCommitInput := {
  ti_turn_id : str;
  ti_scope : AuthorityScope;
  ti_speaker : TurnSpeaker;
  ti_text : str;
  ti_delivery : DeliveryDisposition;
  ti_created_at_ms : Z;
  ti_sequence : Z;
  ti_cancellation_generation : Z;
  ti_provider_id : option str;
  ti_delivery_receipt_id : option str;
  ti_provenance : Provenance
}.

Definition check_optional_id (name : str) (o : option str) : result MemoryError unit :=
  match o with Some value => validate_bounded name value 512 | None => Ok tt end.

(** [TurnCommitInput::validate]. *)
Definition turn_validate (t : TurnCommitInput) : result MemoryError unit :=
  _ ← scope_validate (ti_scope t);
  _ ← validate_bounded (lit "turn_id") (ti_turn_id t) 512;
  if is_blank (ti_text t) || (1048576 <? str_len (ti_text t)) then
    Err (MeInvalidData (lit "turn text must be non-blank and at most 1 MiB")) else
  _ ← check_optional_id (lit "provider_id") (ti_provider_id t);
  _ ← check_optional_id (lit "delivery_receipt_id") (ti_delivery_receipt_id t);
  eligible ← eligible_text (ti_delivery t) (ti_text t);
  match eligible with
  | Some (text, delivered_at_ms) =>
      if is_blank text || (delivered_at_ms <? ti_created_at_ms t) then
        Err (MeInvalidData (lit "delivered text cannot be blank or predate turn creation")) else
      if bool_decide (ti_speaker t = SpeakerNpc) && is_none (ti_delivery_receipt_id t) then
        Err (MeInvalidData (lit "delivered NPC text requires an audio or subtitle delivery receipt"))
      else Ok tt
  | None => Ok tt
  end.

Record DeliveredTurnRecord := {
  dt_turn_id : str;
  dt_scope : AuthorityScope;
  dt_speaker : TurnSpeaker;
  dt_delivered_text : str;
  dt_content_sha256 : str;
  dt_created_at_ms : Z;
  dt_delivered_at_ms : Z;
  dt_sequence : Z;
  dt_cancellation_generation : Z;
  dt_provider_id : option str;
  dt_delivery_receipt_id : option str;
  dt_provenance : Provenance
}.
End turns.

(** ** Derived memories *)

Inductive KnowledgeClass :=
| WorldLore | Biography | CharacterKnowledge | UncertainPublicInfo | LongTermSummary.
#[export] Instance KnowledgeClass_eq_dec : EqDecision KnowledgeClass.
Proof. solve_decision. Defined.

Definition KnowledgeClass_ALL : list KnowledgeClass :=
  [WorldLore; Biography; CharacterKnowledge; UncertainPublicInfo; LongTermSummary].

Definition class_as_str (c : KnowledgeClass) : str :=
  match c with
  | WorldLore => lit "world_lore" | Biography => lit "biography"
  | CharacterKnowledge => lit "character_knowledge"
  | UncertainPublicInfo => lit "uncertain_public_info" | LongTermSummary => lit "long_term_summary"
  end.
Definition class_from_str (value : str) : result MemoryError KnowledgeClass :=
  if str_eqb value (lit "world_lore") then Ok WorldLore else
  if str_eqb value (lit "biography") then Ok Biography else
  if str_eqb value (lit "character_knowledge") then Ok CharacterKnowledge else
  if str_eqb value (lit "uncertain_public_info") then Ok UncertainPublicInfo else
  if str_eqb value (lit "long_term_summary") then Ok LongTermSummary else
  Err (MeInvalidData (lit "unknown knowledge class: " ++ value)).

Inductive SpoilerScope := SpNone | SpGame | SpSave | SpCharacterPrivate | SpUserPrivate.
#[export] Instance SpoilerScope_eq_dec : EqDecision SpoilerScope.
Proof. solve_decision. Defined.

Definition spoiler_as_str (s : SpoilerScope) : str :=
  match s with
  | SpNone => lit "none" | SpGame => lit "game" | SpSave => lit "save"
  | SpCharacterPrivate => lit "character_private" | SpUserPrivate => lit "user_private"
  end.
Definition spoiler_from_str (value : str) : result MemoryError SpoilerScope :=
  if str_eqb value (lit "none") then Ok SpNone else
  if str_eqb value (lit "game") then Ok SpGame else
  if str_eqb value (lit "save") then Ok SpSave else
  if str_eqb value (lit "character_private") then Ok SpCharacterPrivate else
  if str_eqb value (lit "user_private") then Ok SpUserPrivate else
  Err (MeInvalidData (lit "unknown spoiler scope: " ++ value)).

Section derived.
Context `{JsonValueApi}.

Record DerivedMemoryInput := {
  di_id : option str;
  di_scope : AuthorityScope;
  di_class : KnowledgeClass;
  di_spoiler_scope : SpoilerScope;
  di_content : str;
  di_provenance : Provenance;
  di_confidence : f64;
  di_importance : f64;
  di_observed_at_ms : Z;
  di_expires_at_ms : option Z;
  di_source_turn_ids : list str;
  di_generator : option GeneratorProvenance
}.

(** The loop over the source turns with the set of those seen. *)
Fixpoint check_sources (seen : gset str) (ids : list str) : result MemoryError unit :=
  match ids with
  | [] => Ok tt
  | id :: ids =>
      _ ← validate_bounded (lit "source turn id") id 512;
      if bool_decide (id ∈ seen) then
        Err (MeInvalidData (lit "derived memory source turn IDs must be unique")) else
      check_sources ({[id]} ∪ seen) ids
  end.

Definition check_generator (g : GeneratorProvenance) : result MemoryError unit :=
  check_all (λ named, validate_bounded named.1 named.2 512) [
    (lit "generator provider", gn_provider_id g);
    (lit "generator model", gn_model_id g);
    (lit "generator revision", gn_model_revision g);
    (lit "prompt version", gn_prompt_version g)].

(** [DerivedMemoryInput::validate]. *)
Definition derived_validate (d : DerivedMemoryInput) : result MemoryError unit :=
  _ ← scope_validate (di_scope d);
  _ ← check_optional_id (lit "derived memory id") (di_id d);
  if is_blank (di_content d) || (1048576 <? str_len (di_content d)) then
    Err (MeInvalidData (lit "derived memory must be non-blank and at most 1 MiB")) else
  _ ← check_all check_weight [(lit "confidence", di_confidence d); (lit "importance", di_importance d)];
  if is_some_and (di_expires_at_ms d) (λ expiry, expiry <=? di_observed_at_ms d) then
    Err (MeInvalidData (lit "derived memory expiry must follow observation")) else
  if 10000 <? Z.of_nat (length (di_source_turn_ids d)) then
    Err (MeInvalidData (lit "derived memory references too many source turns")) else
  _ ← check_sources ∅ (di_source_turn_ids d);
  if bool_decide (di_class d = LongTermSummary)
     && (bool_decide (di_source_turn_ids d = []) || is_none (di_generator d)) then
    Err (MeInvalidData (lit "long-term summaries require source turns and generator provenance")) else
  match di_generator d with Some g => check_generator g | None => Ok tt end.

Record DerivedMemoryRecord := {
  dr_id : str;
  dr_scope : AuthorityScope;
  dr_class : KnowledgeClass;
  dr_spoiler_scope : SpoilerScope;
  dr_content : str;
  dr_content_sha256 : str;
  dr_provenance : Provenance;
  dr_confidence : f64;
  dr_importance : f64;
  dr_observed_at_ms : Z;
  dr_created_at_ms : Z;
  dr_expires_at_ms : option Z;
  dr_source_turn_ids : list str;
  dr_generator : option GeneratorProvenance
}.

Record MemoryCommitBatch := {
  mb_turns : list TurnCommitInput;
  mb_derived : list DerivedMemoryInput
}.
End derived.

Inductive SkippedTurnReason := SkQueued | SkCancelled | SkFailed.
Record SkippedTurn := { sk_turn_id : str; sk_reason : SkippedTurnReason }.

Section reports.
Context `{JsonValueApi}.

Record MemoryCommitReport := {
  mr_stored_turns : list DeliveredTurnRecord;
  mr_skipped_turns : list SkippedTurn;
  mr_derived_memories : list DerivedMemoryRecord
}.

Record MemoryContextBundle := {
  mx_world_lore : list DerivedMemoryRecord;
  mx_biography : list DerivedMemoryRecord;
  mx_character_knowledge : list DerivedMemoryRecord;
  mx_uncertain_public_info : list DerivedMemoryRecord;
  mx_recent_dialogue : list DeliveredTurnRecord;
  mx_long_term_summaries : list DerivedMemoryRecord
}.
End reports.

(** ** Spoilers and queries *)

Record SpoilerPolicy := {
  sy_allow_game : bool;
  sy_allow_save : bool;
  sy_allow_character_private : bool;
  sy_allow_user_private : bool
}.

Definition spoiler_policy_default : SpoilerPolicy := {|
  sy_allow_game := true; sy_allow_save := true;
  sy_allow_character_private := true; sy_allow_user_private := true |}.

(** [SpoilerPolicy::allows]. *)
Definition policy_allows (p : SpoilerPolicy) (s : SpoilerScope) : bool :=
  match s with
  | SpNone => true
  | SpGame => sy_allow_game p
  | SpSave => sy_allow_save p
  | SpCharacterPrivate => sy_allow_character_private p
  | SpUserPrivate => sy_allow_user_private p
  end.

Record ContextQuery := {
  cq_scope : AuthorityScope;
  cq_text : option str;
  cq_spoiler_policy : SpoilerPolicy;
  cq_recent_turn_limit : Z;
  cq_per_class_limit : Z;
  cq_now_ms : Z
}.

Definition context_query_validate (q : ContextQuery) : result MemoryError unit :=
  _ ← scope_validate (cq_scope q);
  if (1000 <? cq_recent_turn_limit q) || (1000 <? cq_per_class_limit q) then
    Err (MeInvalidData (lit "context limits must be at most 1000")) else
  if is_some_and (cq_text q) (λ text, 65536 <? str_len text) then
    Err (MeInvalidData (lit "context query text is too large")) else
  Ok tt.

(** ** Free-form items *)

Section items.
Context `{JsonValueApi}.

Record MemoryInput := {
  mn_id : option str;
  mn_namespace : MemoryNamespace;
  mn_scope : MemoryScope;
  mn_visibility : Visibility;
  mn_content : str;
  mn_provenance : Provenance;
  mn_confidence : f64;
  mn_importance : f64;
  mn_observed_at_ms : Z;
  mn_expires_at_ms : option Z;
  mn_expected_revision : option Z
}.

Definition memory_input_validate (m : MemoryInput) : result MemoryError unit :=
  if is_blank (mn_content m) then Err (MeInvalidData (lit "memory content cannot be blank")) else
  if 1048576 <? str_len (mn_content m) then
    Err (MeInvalidData (lit "memory content exceeds 1 MiB")) else
  _ ← check_all check_weight [(lit "confidence", mn_confidence m); (lit "importance", mn_importance m)];
  match mn_expires_at_ms m with
  | Some expires =>
      if expires <=? mn_observed_at_ms m then
        Err (MeInvalidData (lit "expires_at_ms must be after observed_at_ms")) else Ok tt
  | None => Ok tt
  end.

Record MemoryRecord := {
  me_id : str;
  me_namespace : MemoryNamespace;
  me_scope : MemoryScope;
  me_visibility : Visibility;
  me_content : str;
  me_content_sha256 : str;
  me_provenance : Provenance;
  me_confidence : f64;
  me_importance : f64;
  me_observed_at_ms : Z;
  me_created_at_ms : Z;
  me_updated_at_ms : Z;
  me_expires_at_ms : option Z;
  me_embedding_generation : option Z;
  me_revision : Z
}.
End items.

(** ** Outbox jobs *)

Inductive OutboxStatus := JobPending | JobProcessing | JobCompleted | JobDead.
#[export] Instance OutboxStatus_eq_dec : EqDecision OutboxStatus.
Proof. solve_decision. Defined.

Section jobs.
Context `{JsonValueApi}.

Record OutboxJobInput := {
  ji_kind : str;
  ji_aggregate_id : option str;
  ji_payload : json_value;
  ji_available_at_ms : Z;
  ji_max_attempts : Z;
  ji_dedupe_key : option str
}.

Record OutboxJob := {
  jb_id : Z;
  jb_kind : str;
  jb_aggregate_id : option str;
  jb_payload : json_value;
  jb_status : OutboxStatus;
  jb_attempts : Z;
  jb_max_attempts : Z;
  jb_available_at_ms : Z;
  jb_lease_owner : option str;
  jb_lease_expires_at_ms : option Z;
  jb_last_error : option str;
  jb_created_at_ms : Z;
  jb_updated_at_ms : Z
}.
End jobs.
