(* ===== verification/MemoryStore.v ===== *)
(** * Conversation memory: the authoritative tables ([crates/memory/src/store.rs],
    [crates/memory/src/schema.rs])

    Delivered turns, memories derived from them and the table that joins the two. The
    statements of SQL the code sends are functions on tables: a table is a finite map from
    its primary key to its rows, with the [CHECK]s, foreign keys and triggers of the schema
    as guards that fail the statement. A transaction is a function from the database to its
    result and the next database; when it fails, the database stays as it was. *)

From S2P Require Import Prelude Text Bytes Float HostedTypes MemoryTypes.
From Stdlib Require Import SpecFloat.

#[local] Open Scope Z_scope.

(** ** SQL *)

(** [length(text)] counts the characters before the first NUL; [trim] removes spaces. *)
Fixpoint sql_length (s : str) : Z :=
  match s with [] => 0 | c :: s => if c =? 0 then 0 else 1 + sql_length s end.
Definition sql_trim (s : str) : str := trim_by (Z.eqb 32) s.

(** [CHECK(length(trim(x)) > 0 AND length(x) <= n)]. *)
Definition sql_text_ok (n : Z) (s : str) : bool := (0 <? sql_length (sql_trim s)) && (sql_length s <=? n).
Definition sql_null_or_text (n : Z) (o : option str) : bool := is_none_or o (sql_text_ok n).

(** [?1 IS NULL OR x IS ?1]. *)
Definition null_or_is (wanted actual : option str) : bool :=
  is_none wanted || bool_decide (actual = wanted).
(** [x IS NULL OR x IS ?1]. *)
Definition is_null_or (actual wanted : option str) : bool :=
  is_none actual || bool_decide (actual = wanted).

(** The order of [REAL] values. *)
Definition real_cmp (x y : f64) : comparison := default Eq (SFcompare x y).

(** The columns of a scope, checked. *)
Definition scope_columns_ok (s : AuthorityScope) : bool :=
  sql_text_ok 512 (sc_user_id s) && sql_text_ok 512 (sc_profile_id s) && sql_text_ok 512 (sc_game_id s)
  && sql_null_or_text 512 (sc_character_id s) && sql_null_or_text 512 (sc_encounter_id s)
  && sql_null_or_text 512 (sc_session_id s) && sql_null_or_text 512 (sc_save_id s).

(** ** The database *)

(** [structured_memory_sources]: primary key (memory, turn), the position of the turn. *)
Definition sources_table : Type := gmap (str * str) Z.

Section store.
Context `{JsonValueApi} `{!EqDecision json_value} `{DigestApi}.

#[export] Instance Provenance_eq_dec : EqDecision Provenance.
Proof using Type*. solve_decision. Defined.
#[export] Instance DeliveredTurnRecord_eq_dec : EqDecision DeliveredTurnRecord.
Proof using Type*. solve_decision. Defined.

Record MemoryErasureAudit := {
  au_erasure_id : str;
  au_scope_sha256 : str;
  au_delivered_turns_deleted : nat;
  au_structured_memories_deleted : nat;
  au_legacy_items_deleted : nat;
  au_outbox_jobs_deleted : nat;
  au_erased_at_ms : Z
}.

(** A row of [memory_items] and of [memory_embeddings]. *)
Record ItemRow := { it_record : MemoryRecord; it_deleted_at_ms : option Z }.
Record EmbeddingRow := {
  eb_model_id : str;
  eb_dimensions : Z;
  eb_vector : list Z;
  eb_l2_norm : f64;
  eb_created_at_ms : Z
}.
(** A row of [memory_outbox]. *)
Record JobRow := { jr_job : OutboxJob; jr_dedupe_key : option str }.

(** The rows of [structured_memories] have no sources of their own: the column list of
    the record stays empty. *)
Record MemoryDb := {
  db_turns : gmap str DeliveredTurnRecord;
  db_memories : gmap str DerivedMemoryRecord;
  db_sources : sources_table;
  db_items : gmap str ItemRow;
  db_embeddings : gmap (str * Z) EmbeddingRow;
  db_outbox : gmap Z JobRow;
  db_audit : gmap str MemoryErasureAudit
}.

Definition empty_db : MemoryDb := {|
  db_turns := ∅; db_memories := ∅; db_sources := ∅; db_items := ∅; db_embeddings := ∅;
  db_outbox := ∅; db_audit := ∅ |}.

Definition set_turns f (d : MemoryDb) : MemoryDb := {|
  db_turns := f (db_turns d); db_memories := db_memories d; db_sources := db_sources d;
  db_items := db_items d; db_embeddings := db_embeddings d; db_outbox := db_outbox d;
  db_audit := db_audit d |}.
Definition set_memories f (d : MemoryDb) : MemoryDb := {|
  db_turns := db_turns d; db_memories := f (db_memories d); db_sources := db_sources d;
  db_items := db_items d; db_embeddings := db_embeddings d; db_outbox := db_outbox d;
  db_audit := db_audit d |}.
Definition set_sources f (d : MemoryDb) : MemoryDb := {|
  db_turns := db_turns d; db_memories := db_memories d; db_sources := f (db_sources d);
  db_items := db_items d; db_embeddings := db_embeddings d; db_outbox := db_outbox d;
  db_audit := db_audit d |}.
Definition set_items f (d : MemoryDb) : MemoryDb := {|
  db_turns := db_turns d; db_memories := db_memories d; db_sources := db_sources d;
  db_items := f (db_items d); db_embeddings := db_embeddings d; db_outbox := db_outbox d;
  db_audit := db_audit d |}.
Definition set_embeddings f (d : MemoryDb) : MemoryDb := {|
  db_turns := db_turns d; db_memories := db_memories d; db_sources := db_sources d;
  db_items := db_items d; db_embeddings := f (db_embeddings d); db_outbox := db_outbox d;
  db_audit := db_audit d |}.
Definition set_outbox f (d : MemoryDb) : MemoryDb := {|
  db_turns := db_turns d; db_memories := db_memories d; db_sources := db_sources d;
  db_items := db_items d; db_embeddings := db_embeddings d; db_outbox := f (db_outbox d);
  db_audit := db_audit d |}.
Definition set_audit f (d : MemoryDb) : MemoryDb := {|
  db_turns := db_turns d; db_memories := db_memories d; db_sources := db_sources d;
  db_items := db_items d; db_embeddings := db_embeddings d; db_outbox := db_outbox d;
  db_audit := f (db_audit d) |}.

(** *** Transactions *)

Definition tx (A : Type) : Type := MemoryDb → result MemoryError (A * MemoryDb).
#[export] Instance tx_ret : MRet tx := λ A a d, Ok (a, d).
#[export] Instance tx_bind : MBind tx := λ A B f m d,
  match m d with Ok (a, d') => f a d' | Err e => Err e end.

(** A statement that fails, one that reads, one that writes, and Rust's [?]. *)
Definition fail {A} (e : MemoryError) : tx A := λ _, Err e.
Definition query {A} (f : MemoryDb → A) : tx A := λ d, Ok (f d, d).
Definition execute (f : MemoryDb → MemoryDb) : tx unit := λ d, Ok (tt, f d).
Definition lift {A} (r : result MemoryError A) : tx A := λ d,
  match r with Ok a => Ok (a, d) | Err e => Err e end.
Definition constraint (b : bool) (code : Z) : tx unit :=
  if b then mret tt else fail (MeDatabase code).

(** [connection.transaction()] ... [tx.commit()]: the database afterwards, and what the
    caller is told. *)
Definition run_transaction {A} (m : tx A) (d : MemoryDb) : result MemoryError A * MemoryDb :=
  match m d with Ok (a, d') => (Ok a, d') | Err e => (Err e, d) end.

(** ** Turns and memories *)

Definition I64_MAX : Z := 9223372036854775807.

Definition checked_sql_integer (name : str) (value : Z) : result MemoryError Z :=
  if I64_MAX <? value then
    Err (MeInvalidData (name ++ lit " exceeds SQLite's signed integer range")) else Ok value.

Definition content_sha256 (content : str) : str := hex_bytes (sha256 (utf8_encode content)).

(** [source_scope_compatible]: everything but the session. *)
Definition source_scope_compatible (memory source : AuthorityScope) : bool :=
  bool_decide (sc_user_id memory = sc_user_id source)
  && bool_decide (sc_profile_id memory = sc_profile_id source)
  && bool_decide (sc_game_id memory = sc_game_id source)
  && bool_decide (sc_character_id memory = sc_character_id source)
  && bool_decide (sc_encounter_id memory = sc_encounter_id source)
  && bool_decide (sc_save_id memory = sc_save_id source).

(** The [CHECK]s of [delivered_turns]. *)
Definition turn_row_ok (t : DeliveredTurnRecord) : bool :=
  sql_text_ok 512 (dt_turn_id t) && scope_columns_ok (dt_scope t)
  && sql_text_ok 1048576 (dt_delivered_text t)
  && (sql_length (dt_content_sha256 t) =? 64)
  && (dt_created_at_ms t <=? dt_delivered_at_ms t)
  && (0 <=? dt_sequence t) && (0 <=? dt_cancellation_generation t)
  && sql_null_or_text 512 (dt_provider_id t) && sql_null_or_text 512 (dt_delivery_receipt_id t).

Definition skipped_reason (d : DeliveryDisposition) : option SkippedTurnReason :=
  match d with
  | DdQueued => Some SkQueued
  | DdCancelled => Some SkCancelled
  | DdFailed => Some SkFailed
  | DdDelivered _ | DdPartiallyDelivered _ _ => None
  end.

(** What a turn leaves in the table. *)
Definition expected_turn (t : TurnCommitInput) (delivered_text : str) (delivered_at_ms : Z)
    : DeliveredTurnRecord := {|
  dt_turn_id := ti_turn_id t;
  dt_scope := ti_scope t;
  dt_speaker := ti_speaker t;
  dt_delivered_text := delivered_text;
  dt_content_sha256 := content_sha256 delivered_text;
  dt_created_at_ms := ti_created_at_ms t;
  dt_delivered_at_ms := delivered_at_ms;
  dt_sequence := ti_sequence t;
  dt_cancellation_generation := ti_cancellation_generation t;
  dt_provider_id := ti_provider_id t;
  dt_delivery_receipt_id := ti_delivery_receipt_id t;
  dt_provenance := ti_provenance t |}.

Definition load_delivered_turn (turn_id : str) (d : MemoryDb) : option DeliveredTurnRecord :=
  db_turns d !! turn_id.

(** [INSERT INTO delivered_turns]. *)
Definition insert_turn (t : DeliveredTurnRecord) : tx unit :=
  _ ← lift (checked_sql_integer (lit "turn sequence") (dt_sequence t));
  _ ← lift (checked_sql_integer (lit "cancellation generation") (dt_cancellation_generation t));
  _ ← constraint (turn_row_ok t) SQLITE_CONSTRAINT_CHECK;
  execute (set_turns <[dt_turn_id t := t]>).

Definition report_turn (t : DeliveredTurnRecord) (r : MemoryCommitReport) : MemoryCommitReport := {|
  mr_stored_turns := mr_stored_turns r ++ [t];
  mr_skipped_turns := mr_skipped_turns r;
  mr_derived_memories := mr_derived_memories r |}.
Definition report_skipped (s : SkippedTurn) (r : MemoryCommitReport) : MemoryCommitReport := {|
  mr_stored_turns := mr_stored_turns r;
  mr_skipped_turns := mr_skipped_turns r ++ [s];
  mr_derived_memories := mr_derived_memories r |}.
Definition report_derived (m : DerivedMemoryRecord) (r : MemoryCommitReport) : MemoryCommitReport := {|
  mr_stored_turns := mr_stored_turns r;
  mr_skipped_turns := mr_skipped_turns r;
  mr_derived_memories := mr_derived_memories r ++ [m] |}.
Definition report_empty : MemoryCommitReport := {|
  mr_stored_turns := []; mr_skipped_turns := []; mr_derived_memories := [] |}.

(** One turn of the batch. [unreachable!()] has no counterpart: an eligible turn has no
    reason to be skipped. *)
Definition commit_one_turn (t : TurnCommitInput) (report : MemoryCommitReport) : tx MemoryCommitReport :=
  eligible ← lift (eligible_text (ti_delivery t) (ti_text t));
  match eligible, skipped_reason (ti_delivery t) with
  | None, Some reason =>
      mret (report_skipped {| sk_turn_id := ti_turn_id t; sk_reason := reason |} report)
  | None, None => fail (MeBackgroundTask (lit "unreachable"))
  | Some (text, delivered_at_ms), _ =>
      let expected := expected_turn t text delivered_at_ms in
      existing ← query (load_delivered_turn (ti_turn_id t));
      match existing with
      | Some existing =>
          if bool_decide (existing ≠ expected) then
            fail (MeInvalidData (lit "delivered turn " ++ ti_turn_id t
              ++ lit " is immutable and conflicts with the existing source row"))
          else mret (report_turn existing report)
      | None =>
          _ ← insert_turn expected;
          mret (report_turn expected report)
      end
  end.

Fixpoint commit_turns (ts : list TurnCommitInput) (report : MemoryCommitReport) : tx MemoryCommitReport :=
  match ts with
  | [] => mret report
  | t :: ts => report ← commit_one_turn t report; commit_turns ts report
  end.

(** *** Derived memories *)

(** The [CHECK]s of [structured_memories]. *)
Definition memory_row_ok (m : DerivedMemoryRecord) : bool :=
  sql_text_ok 512 (dr_id m) && scope_columns_ok (dr_scope m)
  && sql_text_ok 1048576 (dr_content m)
  && (sql_length (dr_content_sha256 m) =? 64)
  && range_contains f_zero f64_one (dr_confidence m)
  && range_contains f_zero f64_one (dr_importance m)
  && is_none_or (dr_expires_at_ms m) (λ expiry, dr_observed_at_ms m <? expiry)
  && (bool_decide (dr_class m ≠ LongTermSummary) || is_some (dr_generator m)).

Definition set_sources_of (ids : list str) (m : DerivedMemoryRecord) : DerivedMemoryRecord := {|
  dr_id := dr_id m; dr_scope := dr_scope m; dr_class := dr_class m;
  dr_spoiler_scope := dr_spoiler_scope m; dr_content := dr_content m;
  dr_content_sha256 := dr_content_sha256 m; dr_provenance := dr_provenance m;
  dr_confidence := dr_confidence m; dr_importance := dr_importance m;
  dr_observed_at_ms := dr_observed_at_ms m; dr_created_at_ms := dr_created_at_ms m;
  dr_expires_at_ms := dr_expires_at_ms m; dr_source_turn_ids := ids;
  dr_generator := dr_generator m |}.

(** [SELECT turn_id FROM structured_memory_sources WHERE memory_id=?1 ORDER BY
    source_ordinal]. *)
Definition load_sources (memory_id : str) (sources : sources_table) : list str :=
  (sort_by (λ l r : str * str * Z, Z.compare l.2 r.2)
    (List.filter (λ row : str * str * Z, bool_decide (row.1.1 = memory_id)) (btree_iter sources))).*1.*2.

Definition load_derived_memory (id : str) (d : MemoryDb) : option DerivedMemoryRecord :=
  set_sources_of (load_sources id (db_sources d)) <$> db_memories d !! id.

(** The row of a memory; the text is trimmed. *)
Definition memory_row (m : DerivedMemoryInput) (id : str) (created_at_ms : Z) : DerivedMemoryRecord := {|
  dr_id := id;
  dr_scope := di_scope m;
  dr_class := di_class m;
  dr_spoiler_scope := di_spoiler_scope m;
  dr_content := trim (di_content m);
  dr_content_sha256 := content_sha256 (trim (di_content m));
  dr_provenance := di_provenance m;
  dr_confidence := di_confidence m;
  dr_importance := di_importance m;
  dr_observed_at_ms := di_observed_at_ms m;
  dr_created_at_ms := created_at_ms;
  dr_expires_at_ms := di_expires_at_ms m;
  dr_source_turn_ids := [];
  dr_generator := di_generator m |}.

(** [existing == memory], field by field; floating-point fields with the equality of
    [f64]. *)
Definition same_memory (existing : DerivedMemoryRecord) (m : DerivedMemoryInput) : bool :=
  bool_decide (dr_scope existing = di_scope m)
  && bool_decide (dr_class existing = di_class m)
  && bool_decide (dr_spoiler_scope existing = di_spoiler_scope m)
  && bool_decide (dr_content existing = trim (di_content m))
  && bool_decide (dr_provenance existing = di_provenance m)
  && SFeqb (dr_confidence existing) (di_confidence m)
  && SFeqb (dr_importance existing) (di_importance m)
  && bool_decide (dr_observed_at_ms existing = di_observed_at_ms m)
  && bool_decide (dr_expires_at_ms existing = di_expires_at_ms m)
  && bool_decide (dr_source_turn_ids existing = di_source_turn_ids m)
  && bool_decide (dr_generator existing = di_generator m).

Definition check_source (m : DerivedMemoryInput) (source_id : str) : tx unit :=
  source ← query (load_delivered_turn source_id);
  match source with
  | None => fail (MeNotFound (lit "source turn " ++ source_id))
  | Some source =>
      if negb (source_scope_compatible (di_scope m) (dt_scope source)) then
        fail (MeInvalidData (lit "source turn " ++ source_id
          ++ lit " crosses a user, game, character, encounter, or save boundary"))
      else mret tt
  end.

Fixpoint each_tx {A} (f : A → tx unit) (l : list A) : tx unit :=
  match l with [] => mret tt | x :: l => _ ← f x; each_tx f l end.

(** [INSERT INTO structured_memory_sources]: both keys, and both references. *)
Definition insert_source (memory_id : str) (ordinal_source : nat * str) : tx unit :=
  let '(ordinal, turn_id) := ordinal_source in
  fresh ← query (λ d, is_none (db_sources d !! (memory_id, turn_id))
    && negb (existsb (λ row : str * str * Z, bool_decide (row.1.1 = memory_id) && (row.2 =? Z.of_nat ordinal))
               (map_to_list (db_sources d))));
  _ ← constraint fresh SQLITE_CONSTRAINT_UNIQUE;
  referenced ← query (λ d, is_some (db_memories d !! memory_id) && is_some (db_turns d !! turn_id));
  _ ← constraint referenced SQLITE_CONSTRAINT_FOREIGNKEY;
  execute (set_sources <[(memory_id, turn_id) := Z.of_nat ordinal]>).

(** [insert_derived_memory]; [uuid] and [now] are what [Uuid::new_v4] and the clock give. *)
Definition insert_derived_memory (uuid : str) (now : Z) (m : DerivedMemoryInput)
    : tx DerivedMemoryRecord :=
  let id := default uuid (di_id m) in
  _ ← each_tx (check_source m) (di_source_turn_ids m);
  existing ← query (load_derived_memory id);
  match existing with
  | Some existing =>
      if negb (same_memory existing m) then
        fail (MeInvalidData (lit "structured memory " ++ id
          ++ lit " is immutable and conflicts with the existing record"))
      else mret existing
  | None =>
      let row := memory_row m id now in
      _ ← constraint (memory_row_ok row) SQLITE_CONSTRAINT_CHECK;
      _ ← execute (set_memories <[id := row]>);
      _ ← each_tx (insert_source id) (imap pair (di_source_turn_ids m));
      stored ← query (load_derived_memory id);
      match stored with Some stored => mret stored | None => fail (MeNotFound id) end
  end.

(** [draw i] is what the identifier source and the clock give for the [i]-th memory. *)
Fixpoint commit_memories (draw : nat → str * Z) (ms : list DerivedMemoryInput)
    (report : MemoryCommitReport) : tx MemoryCommitReport :=
  match ms with
  | [] => mret report
  | m :: ms =>
      record ← insert_derived_memory (draw 0%nat).1 (draw 0%nat).2 m;
      commit_memories (draw ∘ S) ms (report_derived record report)
  end.

(** [commit_authoritative_batch]. *)
Definition commit_authoritative_batch (draw : nat → str * Z) (batch : MemoryCommitBatch)
    : tx MemoryCommitReport :=
  report ← commit_turns (mb_turns batch) report_empty;
  commit_memories draw (mb_derived batch) report.

(** [MemoryStore::commit_batch]: the checks of the caller's side, then the transaction. *)
Definition check_turn_input (t : TurnCommitInput) : result MemoryError unit :=
  _ ← turn_validate t;
  _ ← checked_sql_integer (lit "turn sequence") (ti_sequence t);
  _ ← checked_sql_integer (lit "cancellation generation") (ti_cancellation_generation t);
  Ok tt.

Definition commit_batch_checks (batch : MemoryCommitBatch) : result MemoryError unit :=
  if (10000 <? Z.of_nat (length (mb_turns batch))) || (10000 <? Z.of_nat (length (mb_derived batch))) then
    Err (MeInvalidData
      (lit "a memory commit batch may contain at most 10000 turns and 10000 derived records")) else
  _ ← check_all check_turn_input (mb_turns batch);
  check_all derived_validate (mb_derived batch).

Definition commit_batch (draw : nat → str * Z) (batch : MemoryCommitBatch) (d : MemoryDb)
    : result MemoryError MemoryCommitReport * MemoryDb :=
  match commit_batch_checks batch with
  | Err e => (Err e, d)
  | Ok _ => run_transaction (commit_authoritative_batch draw batch) d
  end.

(** ** Context of a prompt *)

Definition turn_recency (l r : DeliveredTurnRecord) : comparison :=
  then_with (Z.compare (dt_delivered_at_ms l) (dt_delivered_at_ms r))
    (then_with (Z.compare (dt_sequence l) (dt_sequence r)) (str_cmp (dt_turn_id l) (dt_turn_id r))).

(** The last turns of exactly the scope, oldest first. *)
Definition recent_dialogue (q : ContextQuery) (d : MemoryDb) : list DeliveredTurnRecord :=
  if cq_recent_turn_limit q <=? 0 then [] else
  let rows := List.filter (λ t, bool_decide (dt_scope t = cq_scope q)) (btree_iter (db_turns d)).*2 in
  sort_by turn_recency (take (Z.to_nat (cq_recent_turn_limit q)) (sort_by (λ l r, turn_recency r l) rows)).

Definition spoiler_scope_matches (m : DerivedMemoryRecord) (q : ContextQuery) : bool :=
  match dr_spoiler_scope m with
  | SpNone | SpGame | SpUserPrivate => true
  | SpSave => is_some (sc_save_id (cq_scope q))
              && bool_decide (sc_save_id (dr_scope m) = sc_save_id (cq_scope q))
  | SpCharacterPrivate => is_some (sc_character_id (cq_scope q))
              && bool_decide (sc_character_id (dr_scope m) = sc_character_id (cq_scope q))
  end.

(** The [WHERE] clause of [retrieve_class]: wider memories are visible, other scopes are
    not. *)
Definition class_candidate (q : ContextQuery) (class : KnowledgeClass) (m : DerivedMemoryRecord) : bool :=
  bool_decide (sc_user_id (dr_scope m) = sc_user_id (cq_scope q))
  && bool_decide (sc_profile_id (dr_scope m) = sc_profile_id (cq_scope q))
  && bool_decide (sc_game_id (dr_scope m) = sc_game_id (cq_scope q))
  && bool_decide (dr_class m = class)
  && is_null_or (sc_character_id (dr_scope m)) (sc_character_id (cq_scope q))
  && is_null_or (sc_encounter_id (dr_scope m)) (sc_encounter_id (cq_scope q))
  && is_null_or (sc_session_id (dr_scope m)) (sc_session_id (cq_scope q))
  && is_null_or (sc_save_id (dr_scope m)) (sc_save_id (cq_scope q))
  && is_none_or (dr_expires_at_ms m) (λ expiry, cq_now_ms q <? expiry).

(** [ORDER BY CASE WHEN ... instr(lower(content),?10)>0 THEN 0 ELSE 1 END, importance
    DESC, confidence DESC, observed_at_ms DESC, id]. *)
Definition text_miss (text : option str) (m : DerivedMemoryRecord) : Z :=
  if is_some_and text (λ text, str_contains text (ascii_lowercase (dr_content m))) then 0 else 1.
Definition class_order (text : option str) (l r : DerivedMemoryRecord) : comparison :=
  then_with (Z.compare (text_miss text l) (text_miss text r))
  (then_with (real_cmp (dr_importance r) (dr_importance l))
  (then_with (real_cmp (dr_confidence r) (dr_confidence l))
  (then_with (Z.compare (dr_observed_at_ms r) (dr_observed_at_ms l))
     (str_cmp (dr_id l) (dr_id r))))).

Section context.
Context `{UnicodeApi}.

Definition normalized_text (q : ContextQuery) : option str :=
  text ← cq_text q;
  let text := trim text in
  if str_is_empty text then None else Some (to_lowercase text).

(** The loop over the candidates: spoilers are left out until the limit is reached. *)
Fixpoint visible_loop (q : ContextQuery) (sources : sources_table) (limit : nat)
    (candidates : list DerivedMemoryRecord) : list DerivedMemoryRecord :=
  match limit, candidates with
  | O, _ | _, [] => []
  | S limit', m :: candidates =>
      if negb (policy_allows (cq_spoiler_policy q) (dr_spoiler_scope m))
         || negb (spoiler_scope_matches m q)
      then visible_loop q sources limit candidates
      else set_sources_of (load_sources (dr_id m) sources) m
             :: visible_loop q sources limit' candidates
  end.

Definition retrieve_class (q : ContextQuery) (d : MemoryDb) (class : KnowledgeClass)
    : list DerivedMemoryRecord :=
  if cq_per_class_limit q <=? 0 then [] else
  let candidate_limit := Z.min (sat_mul64 (cq_per_class_limit q) 8) 8000 in
  let rows := List.filter (class_candidate q class) (btree_iter (db_memories d)).*2 in
  visible_loop q (db_sources d) (Z.to_nat (cq_per_class_limit q))
    (take (Z.to_nat candidate_limit) (sort_by (class_order (normalized_text q)) rows)).

Definition retrieve_context_on (q : ContextQuery) (d : MemoryDb) : MemoryContextBundle := {|
  mx_world_lore := retrieve_class q d WorldLore;
  mx_biography := retrieve_class q d Biography;
  mx_character_knowledge := retrieve_class q d CharacterKnowledge;
  mx_uncertain_public_info := retrieve_class q d UncertainPublicInfo;
  mx_recent_dialogue := recent_dialogue q d;
  mx_long_term_summaries := retrieve_class q d LongTermSummary |}.

(** [MemoryStore::retrieve_context]. *)
Definition retrieve_context (q : ContextQuery) (d : MemoryDb) : result MemoryError MemoryContextBundle :=
  _ ← context_query_validate q;
  Ok (retrieve_context_on q d).
End context.

(** ** Erasure *)

(** [WHERE user_id=?1 AND ... AND (?5 IS NULL OR encounter_id IS ?5) ...]. *)
Definition erased_scope (scope row : AuthorityScope) : bool :=
  bool_decide (sc_user_id row = sc_user_id scope)
  && bool_decide (sc_profile_id row = sc_profile_id scope)
  && bool_decide (sc_game_id row = sc_game_id scope)
  && bool_decide (sc_character_id row = sc_character_id scope)
  && null_or_is (sc_encounter_id scope) (sc_encounter_id row)
  && null_or_is (sc_session_id scope) (sc_session_id row)
  && null_or_is (sc_save_id scope) (sc_save_id row).

(** Items have no user and no encounter. *)
Definition erased_item (scope : AuthorityScope) (row : MemoryScope) : bool :=
  bool_decide (ms_profile_id row = Some (sc_profile_id scope))
  && bool_decide (ms_game_id row = Some (sc_game_id scope))
  && bool_decide (ms_character_id row = sc_character_id scope)
  && null_or_is (sc_session_id scope) (ms_session_id row)
  && null_or_is (sc_save_id scope) (ms_save_id row).

(** The three temporary tables. *)
Definition erase_turn_ids (scope : AuthorityScope) (d : MemoryDb) : gset str :=
  dom (filter (λ kv, erased_scope scope (dt_scope kv.2) = true) (db_turns d)).
Definition erase_memory_ids (scope : AuthorityScope) (turns : gset str) (d : MemoryDb) : gset str :=
  dom (filter (λ kv, erased_scope scope (dr_scope kv.2) = true) (db_memories d))
  ∪ set_map fst (dom (filter (λ kv : str * str * Z, kv.1.2 ∈ turns) (db_sources d)) : gset (str * str)).
Definition erase_legacy_ids (scope : AuthorityScope) (d : MemoryDb) : gset str :=
  dom (filter (λ kv, erased_item scope (me_scope (it_record kv.2)) = true) (db_items d)).

(** The statements that delete, with the triggers and [ON DELETE RESTRICT]. A trigger
    fires for a row that is deleted. *)
Definition delete_sources (authorized : bool) (memories : gset str) : tx unit :=
  hit ← query (λ d, bool_decide (filter (λ kv : str * str * Z, kv.1.1 ∈ memories) (db_sources d) = ∅));
  _ ← constraint (authorized || hit) SQLITE_CONSTRAINT_TRIGGER;
  execute (set_sources (filter (λ kv, kv.1.1 ∉ memories))).

Definition delete_memories (authorized : bool) (memories : gset str) : tx unit :=
  hit ← query (λ d, bool_decide (filter (λ kv, kv.1 ∈ memories) (db_memories d) = ∅));
  _ ← constraint (authorized || hit) SQLITE_CONSTRAINT_TRIGGER;
  free ← query (λ d, bool_decide
    (filter (λ kv : str * str * Z, kv.1.1 ∈ memories ∩ dom (db_memories d)) (db_sources d) = ∅));
  _ ← constraint free SQLITE_CONSTRAINT_FOREIGNKEY;
  execute (set_memories (filter (λ kv, kv.1 ∉ memories))).

Definition delete_turns (authorized : bool) (turns : gset str) : tx unit :=
  hit ← query (λ d, bool_decide (filter (λ kv, kv.1 ∈ turns) (db_turns d) = ∅));
  _ ← constraint (authorized || hit) SQLITE_CONSTRAINT_TRIGGER;
  free ← query (λ d, bool_decide
    (filter (λ kv : str * str * Z, kv.1.2 ∈ turns ∩ dom (db_turns d)) (db_sources d) = ∅));
  _ ← constraint free SQLITE_CONSTRAINT_FOREIGNKEY;
  execute (set_turns (filter (λ kv, kv.1 ∉ turns))).

(** [DELETE FROM memory_items], with [ON DELETE CASCADE] on the embeddings. *)
Definition delete_items (items : gset str) : tx unit :=
  execute (λ d, set_embeddings (filter (λ kv, kv.1.1 ∉ items))
                  (set_items (filter (λ kv, kv.1 ∉ items)) d)).

Definition job_mentions (ids : gset str) (j : JobRow) : bool :=
  is_some_and (jb_aggregate_id (jr_job j)) (λ id, bool_decide (id ∈ ids)).

(** [DELETE FROM memory_outbox], which also counts. *)
Definition delete_jobs (ids : gset str) : tx nat :=
  count ← query (λ d, size (filter (λ kv : Z * JobRow, job_mentions ids kv.2 = true) (db_outbox d)));
  _ ← execute (set_outbox (filter (λ kv, job_mentions ids kv.2 = false)));
  mret count.

Definition audit_row_ok (a : MemoryErasureAudit) : bool :=
  (sql_length (au_erasure_id a) =? 36) && (sql_length (au_scope_sha256 a) =? 64)
  && (0 <=? au_erased_at_ms a).

Definition insert_audit (a : MemoryErasureAudit) : tx unit :=
  fresh ← query (λ d, is_none (db_audit d !! au_erasure_id a));
  _ ← constraint fresh SQLITE_CONSTRAINT_UNIQUE;
  _ ← constraint (audit_row_ok a) SQLITE_CONSTRAINT_CHECK;
  execute (set_audit <[au_erasure_id a := a]>).

(** The transaction of [erase_character_memory]; its report has the columns of the audit.
    [scope_sha256] is the digest of the serialized scope, [erasure_id] a new UUID. *)
Definition erase_transaction (authorized : bool) (scope_sha256 erasure_id : str)
    (request : CharacterMemoryErasureRequest) : tx MemoryErasureAudit :=
  let scope := er_scope request in
  turns ← query (erase_turn_ids scope);
  memories ← query (erase_memory_ids scope turns);
  legacy ← query (erase_legacy_ids scope);
  jobs ← delete_jobs (turns ∪ memories ∪ legacy);
  _ ← delete_sources authorized memories;
  _ ← delete_memories authorized memories;
  _ ← delete_turns authorized turns;
  _ ← delete_items legacy;
  let audit := {|
    au_erasure_id := erasure_id;
    au_scope_sha256 := scope_sha256;
    au_delivered_turns_deleted := size turns;
    au_structured_memories_deleted := size memories;
    au_legacy_items_deleted := size legacy;
    au_outbox_jobs_deleted := jobs;
    au_erased_at_ms := er_erased_at_ms request |} in
  _ ← insert_audit audit;
  mret audit.

(** The writer thread: the database, and the flag the triggers read. *)
Record Writer := { wr_db : MemoryDb; wr_erasure_authorized : bool }.

(** [erase_character_memory]: the guard sets the flag and clears it on every path. *)
Definition erase_character_memory (scope_sha256 erasure_id : str)
    (request : CharacterMemoryErasureRequest) (w : Writer)
    : result MemoryError MemoryErasureAudit * Writer :=
  match erasure_request_validate request with
  | Err e => (Err e, w)
  | Ok _ =>
      let authorized := {| wr_db := wr_db w; wr_erasure_authorized := true |} in
      let '(r, d) := run_transaction
        (erase_transaction (wr_erasure_authorized authorized) scope_sha256 erasure_id request)
        (wr_db authorized) in
      (r, {| wr_db := d; wr_erasure_authorized := false |})
  end.

(** [character_memory_status]. *)
Definition character_memory_status (scope : AuthorityScope) (d : MemoryDb) : nat * nat * nat :=
  (size (filter (λ kv, erased_scope scope (dt_scope kv.2) = true) (db_turns d)),
   size (filter (λ kv, erased_scope scope (dr_scope kv.2) = true) (db_memories d)),
   size (filter (λ kv, erased_item scope (me_scope (it_record kv.2)) = true) (db_items d))).
End store.
