(* ===== verification/MemoryFacts.v ===== *)
(** * Conversation memory: facts of the authoritative tables

    How a transaction that succeeded reads, the invariant of the tables, and that every
    commit keeps it. *)

From S2P Require Import Prelude Text Bytes Float HostedTypes MemoryTypes MemoryStore.
From Stdlib Require Import SpecFloat.

#[local] Open Scope Z_scope.

(** Reads a table of an updated database, and nothing else. *)
Ltac db_simpl :=
  unfold sources_table in *;
  cbn [db_turns db_memories db_sources db_items db_embeddings db_outbox db_audit set_turns
       set_memories set_sources set_items set_embeddings set_outbox set_audit] in *.

Section facts.
Context `{JsonValueApi} `{!EqDecision json_value} `{DigestApi}.
Implicit Types d : MemoryDb.

(** ** Transactions that succeed *)

Lemma tx_bind_Ok {A B} (m : tx A) (f : A → tx B) d b d' :
  (m ≫= f) d = Ok (b, d') ↔ ∃ a d1, m d = Ok (a, d1) ∧ f a d1 = Ok (b, d').
Proof.
  unfold mbind, tx_bind. destruct (m d) as [[a d1]|e]; [naive_solver|].
  split; [done|]. by intros (?&?&?&_).
Qed.

Lemma tx_unit_Ok {B} (m : tx unit) (f : unit → tx B) d b d' :
  (m ≫= f) d = Ok (b, d') ↔ ∃ d1, m d = Ok (tt, d1) ∧ f tt d1 = Ok (b, d').
Proof. rewrite tx_bind_Ok. split; [intros ([]&?&?)|]; naive_solver. Qed.

Lemma tx_ret_Ok {A} (a b : A) d d' : (mret a : tx A) d = Ok (b, d') ↔ b = a ∧ d' = d.
Proof. unfold mret, tx_ret. naive_solver. Qed.

Lemma fail_Ok {A} e (b : A) d d' : fail e d = Ok (b, d') ↔ False.
Proof. done. Qed.

Lemma query_bind_Ok {A B} (q : MemoryDb → A) (f : A → tx B) d b d' :
  (query q ≫= f) d = Ok (b, d') ↔ f (q d) d = Ok (b, d').
Proof. done. Qed.

Lemma execute_Ok g d u d' : execute g d = Ok (u, d') ↔ d' = g d.
Proof. destruct u. unfold execute. naive_solver. Qed.

Lemma execute_bind_Ok {B} g (f : unit → tx B) d b d' :
  (execute g ≫= f) d = Ok (b, d') ↔ f tt (g d) = Ok (b, d').
Proof. done. Qed.

Lemma lift_bind_Ok {A B} (r : result MemoryError A) (f : A → tx B) d b d' :
  (lift r ≫= f) d = Ok (b, d') ↔ ∃ a, r = Ok a ∧ f a d = Ok (b, d').
Proof. unfold mbind, tx_bind, lift. destruct r; naive_solver. Qed.

Lemma constraint_bind_Ok {B} (c : bool) code (f : unit → tx B) d b d' :
  (constraint c code ≫= f) d = Ok (b, d') ↔ c = true ∧ f tt d = Ok (b, d').
Proof. unfold constraint. destruct c; naive_solver. Qed.

Lemma constraint_Ok (c : bool) code d u d' :
  constraint c code d = Ok (u, d') ↔ c = true ∧ d' = d.
Proof. destruct u. unfold constraint. destruct c; [rewrite tx_ret_Ok|rewrite fail_Ok]; naive_solver. Qed.

(** ** What the tables promise *)

(** A stored turn is exactly something that was delivered. *)
Record turn_ok (id : str) (t : DeliveredTurnRecord) : Prop := {
  to_id : dt_turn_id t = id;
  to_text : is_blank (dt_delivered_text t) = false;
  to_digest : dt_content_sha256 t = content_sha256 (dt_delivered_text t);
  to_time : dt_created_at_ms t ≤ dt_delivered_at_ms t;
  to_receipt : dt_speaker t = SpeakerNpc → is_Some (dt_delivery_receipt_id t)
}.

Record memory_ok (id : str) (m : DerivedMemoryRecord) : Prop := {
  mo_id : dr_id m = id;
  mo_sources : dr_source_turn_ids m = [];
  mo_digest : dr_content_sha256 m = content_sha256 (dr_content m);
  mo_weights : range_contains f_zero f64_one (dr_confidence m) = true ∧
    range_contains f_zero f64_one (dr_importance m) = true;
  mo_expiry : ∀ expiry, dr_expires_at_ms m = Some expiry → dr_observed_at_ms m < expiry;
  mo_generator : dr_class m = LongTermSummary → is_Some (dr_generator m)
}.

(** A source joins a stored memory with a stored turn of the same authority; a position is
    used once; a summary has a source. *)
Record db_ok (d : MemoryDb) : Prop := {
  ok_turns : map_Forall turn_ok (db_turns d);
  ok_memories : map_Forall memory_ok (db_memories d);
  ok_sources : ∀ id turn_id i, db_sources d !! (id, turn_id) = Some i →
    ∃ m t, db_memories d !! id = Some m ∧ db_turns d !! turn_id = Some t ∧
      source_scope_compatible (dr_scope m) (dt_scope t) = true;
  ok_positions : ∀ id turn turn' i, db_sources d !! (id, turn) = Some i →
    db_sources d !! (id, turn') = Some i → turn = turn';
  ok_summaries : ∀ id m, db_memories d !! id = Some m → dr_class m = LongTermSummary →
    ∃ turn_id i, db_sources d !! (id, turn_id) = Some i
}.

Lemma empty_db_ok : db_ok empty_db.
Proof. split; cbn; [apply map_Forall_empty..| | |]; by intros. Qed.

(** Nothing already stored is changed or removed. *)
Record grows (d d' : MemoryDb) : Prop := {
  gr_turns : db_turns d ⊆ db_turns d';
  gr_memories : db_memories d ⊆ db_memories d';
  gr_sources : db_sources d ⊆ db_sources d';
  gr_items : db_items d' = db_items d;
  gr_embeddings : db_embeddings d' = db_embeddings d;
  gr_outbox : db_outbox d' = db_outbox d;
  gr_audit : db_audit d' = db_audit d
}.

#[export] Instance grows_preorder : PreOrder grows.
Proof.
  split; [by constructor|]. intros d1 d2 d3 [] []. split; try (by etransitivity); congruence.
Qed.

(** ** Turns *)

Lemma checked_sql_integer_Ok name v w : checked_sql_integer name v = Ok w ↔ v ≤ I64_MAX ∧ w = v.
Proof. unfold checked_sql_integer. rewrite if_err_Ok, Z.ltb_ge. naive_solver. Qed.

(** A turn that passed its checks and was delivered, with the part of the text that was. *)
Definition delivers (t : TurnCommitInput) (r : DeliveredTurnRecord) : Prop :=
  ∃ text at_, eligible_text (ti_delivery t) (ti_text t) = Ok (Some (text, at_)) ∧
    r = expected_turn t text at_.

Lemma eligible_reason t o :
  eligible_text (ti_delivery t) (ti_text t) = Ok o → (o = None ↔ is_Some (skipped_reason (ti_delivery t))).
Proof.
  unfold eligible_text, skipped_reason. destruct (ti_delivery t); try (intros [= <-]; naive_solver).
  destruct (_ || _); [done|]. destruct (slice_to _ _); [|done]. intros [= <-]. naive_solver.
Qed.

Lemma eligible_prefix (dd : DeliveryDisposition) (text text' : str) at_ :
  eligible_text dd text = Ok (Some (text', at_)) → ∃ rest, text = text' ++ rest.
Proof.
  unfold eligible_text. destruct dd as [|?|n ?| |]; try done.
  - intros [= <- _]. exists []. by rewrite app_nil_r.
  - destruct (_ || _); [done|]. unfold slice_to.
    destruct (split_at_byte n text) as [[a b]|] eqn:Hs; [|done]. intros [= <- _].
    apply split_at_byte_Some in Hs as [-> _]. by exists b.
Qed.

(** What one turn does: nothing, or one new row. *)
Inductive turn_effect (t : TurnCommitInput) (d : MemoryDb) (r : MemoryCommitReport) :
    MemoryCommitReport → MemoryDb → Prop :=
| effect_skipped reason :
    skipped_reason (ti_delivery t) = Some reason →
    turn_effect t d r (report_skipped {| sk_turn_id := ti_turn_id t; sk_reason := reason |} r) d
| effect_present row :
    delivers t row → db_turns d !! ti_turn_id t = Some row →
    turn_effect t d r (report_turn row r) d
| effect_stored row :
    delivers t row → db_turns d !! ti_turn_id t = None → turn_row_ok row = true →
    turn_effect t d r (report_turn row r) (set_turns <[ti_turn_id t := row]> d).

Lemma commit_one_turn_effect t r d r' d' :
  commit_one_turn t r d = Ok (r', d') → turn_effect t d r r' d'.
Proof.
  unfold commit_one_turn. rewrite lift_bind_Ok. intros (o&Ho&Hc).
  destruct o as [[text at_]|]; [|destruct (skipped_reason (ti_delivery t)) as [reason|] eqn:Hr].
  - rewrite query_bind_Ok in Hc. unfold load_delivered_turn in Hc.
    destruct (db_turns d !! ti_turn_id t) as [row|] eqn:Hrow.
    + case_bool_decide as Hne; [done|]. apply tx_ret_Ok in Hc as [-> ->].
      constructor; [by exists text, at_|done].
    + unfold insert_turn in Hc. rewrite tx_unit_Ok in Hc. destruct Hc as (d1&Hi&Hc).
      rewrite !lift_bind_Ok in Hi. destruct Hi as (?&_&Hi). rewrite lift_bind_Ok in Hi.
      destruct Hi as (?&_&Hi). rewrite constraint_bind_Ok, execute_Ok in Hi. destruct Hi as [? ->].
      apply tx_ret_Ok in Hc as [-> ->]. constructor; [|done..]. by exists text, at_.
  - apply tx_ret_Ok in Hc as [-> ->]. by constructor.
  - done.
Qed.

Lemma delivers_id t row : delivers t row → dt_turn_id row = ti_turn_id t.
Proof. by intros (?&?&_&->). Qed.

Lemma delivers_ok t row : turn_validate t = Ok tt → delivers t row → turn_ok (ti_turn_id t) row.
Proof.
  intros Hv (text&at_&He&->). unfold turn_validate in Hv. read_checks Hv.
  destruct Hv as (_&_&_&_&_&Hv). rewrite He in Hv. cbn in Hv. read_checks Hv.
  destruct Hv as ((?&?)&Hs&_). split; cbn; [done..|]. intros Hn. rewrite Hn in Hs.
  apply andb_false_iff in Hs as [Hs|Hs]; [by rewrite bool_decide_eq_false in Hs|].
  unfold is_none in Hs. apply negb_false_iff in Hs. by destruct (ti_delivery_receipt_id t).
Qed.

Lemma turn_effect_ok t d r r' d' :
  turn_validate t = Ok tt → turn_effect t d r r' d' → db_ok d → db_ok d' ∧ grows d d'.
Proof.
  intros Hv Heff Hok. destruct Heff as [| |row Hd Hnone]; [done..|].
  split.
  - destruct Hok as [Ht Hm Hs Hp Hg]. split; cbn; [|done| |done..].
    + apply map_Forall_insert_2; [by apply (delivers_ok t)|done].
    + intros id turn_id i (m&u&?&Hu&?)%Hs. exists m, u. split; [done|]. split; [|done].
      rewrite lookup_insert_ne; [done|congruence].
  - split; cbn; try done. by apply insert_subseteq.
Qed.

(** ** Sources *)

Lemma check_source_Ok m id d u d' :
  check_source m id d = Ok (u, d') ↔
  d' = d ∧ ∃ t, db_turns d !! id = Some t ∧ source_scope_compatible (di_scope m) (dt_scope t) = true.
Proof.
  destruct u. unfold check_source. rewrite query_bind_Ok. unfold load_delivered_turn.
  destruct (db_turns d !! id) as [t|]; [|split; [done|by intros (_&?&?&_)]].
  destruct (source_scope_compatible _ _) eqn:Hc; cbn.
  - rewrite tx_ret_Ok. naive_solver.
  - split; [done|]. intros (_&?&[= <-]&?). congruence.
Qed.

Lemma check_sources_Ok m ids d u d' :
  each_tx (check_source m) ids d = Ok (u, d') ↔
  d' = d ∧ Forall (λ id, ∃ t, db_turns d !! id = Some t ∧
    source_scope_compatible (di_scope m) (dt_scope t) = true) ids.
Proof.
  destruct u. induction ids as [|id ids IH]; cbn [each_tx].
  { rewrite tx_ret_Ok, Forall_nil. naive_solver. }
  rewrite tx_unit_Ok, Forall_cons. setoid_rewrite check_source_Ok. split.
  - intros (d1&[-> ?]&Hrest). apply IH in Hrest as [-> ?]. done.
  - intros (->&?&?). exists d. split; [done|]. by apply IH.
Qed.

(** The table after the sources of one memory were inserted, from position [i] on. *)
Fixpoint with_sources (id : str) (i : nat) (ids : list str) (s : gmap (str * str) Z) : gmap (str * str) Z :=
  match ids with
  | [] => s
  | turn :: ids => with_sources id (S i) ids (<[(id, turn) := Z.of_nat i]> s)
  end.

Lemma insert_source_Ok id i turn d u d' :
  insert_source id (i, turn) d = Ok (u, d') →
  d' = set_sources <[(id, turn) := Z.of_nat i]> d ∧ db_sources d !! (id, turn) = None ∧
  (∀ turn', db_sources d !! (id, turn') ≠ Some (Z.of_nat i)) ∧
  is_Some (db_memories d !! id) ∧ is_Some (db_turns d !! turn).
Proof.
  unfold insert_source. rewrite query_bind_Ok, constraint_bind_Ok. intros [Hf Hi].
  rewrite query_bind_Ok, constraint_bind_Ok, execute_Ok in Hi. destruct Hi as [Hr ->].
  apply andb_true_iff in Hf as [Hf Hp]. apply andb_true_iff in Hr as [Hm Ht].
  split; [done|]. split; [unfold is_none in Hf; by destruct (db_sources d !! _)|]. split.
  - intros turn' Hs. apply negb_true_iff, not_true_iff_false in Hp. apply Hp.
    apply existsb_exists. exists ((id, turn'), Z.of_nat i). rewrite <-list_elem_of_In.
    split; [by apply elem_of_map_to_list|]. cbn. by rewrite bool_decide_eq_true_2, Z.eqb_refl.
  - unfold is_some in *. by destruct (db_memories d !! id), (db_turns d !! turn).
Qed.

Lemma insert_source_core id i turn d u d' :
  insert_source id (i, turn) d = Ok (u, d') →
  (∀ m t, db_memories d !! id = Some m → db_turns d !! turn = Some t →
    source_scope_compatible (dr_scope m) (dt_scope t) = true) →
  (∀ id turn i, db_sources d !! (id, turn) = Some i →
    ∃ m t, db_memories d !! id = Some m ∧ db_turns d !! turn = Some t ∧
      source_scope_compatible (dr_scope m) (dt_scope t) = true) →
  (∀ id turn turn' i, db_sources d !! (id, turn) = Some i →
    db_sources d !! (id, turn') = Some i → turn = turn') →
  (∀ id turn i, db_sources d' !! (id, turn) = Some i →
    ∃ m t, db_memories d' !! id = Some m ∧ db_turns d' !! turn = Some t ∧
      source_scope_compatible (dr_scope m) (dt_scope t) = true) ∧
  (∀ id turn turn' i, db_sources d' !! (id, turn) = Some i →
    db_sources d' !! (id, turn') = Some i → turn = turn').
Proof.
  intros (->&Hnone&Hpos&[m Hm]&[t Ht])%insert_source_Ok Hc Hs Hp; db_simpl. split.
  - intros id' turn' i'. rewrite lookup_insert_Some. intros [[[= <- <-] _]|[_ ?%Hs]]; [|done].
    exists m, t. split; [done|]. split; [done|]. by apply Hc.
  - intros id' t1 t2 j. rewrite !lookup_insert_Some.
    intros [[[= <- <-] <-]|[_ Hj]] [[[= <-] ?]|[_ Hj']]; try done.
    + by apply Hpos in Hj'.
    + subst j. by apply Hpos in Hj.
    + by eapply Hp.
Qed.

Lemma with_sources_grows id i ids s :
  (∀ turn, turn ∈ ids → s !! (id, turn) = None) → NoDup ids → s ⊆ with_sources id i ids s.
Proof.
  revert i s. induction ids as [|turn ids IH]; intros i s Hs Hd; [done|]. cbn.
  apply NoDup_cons in Hd as [Hnin Hd]. etransitivity; [|apply IH; [|done]].
  - apply insert_subseteq, Hs. by left.
  - intros turn' Hin. rewrite lookup_insert_ne; [apply Hs; by right|]. by intros [= ->].
Qed.

(** What the inserted rows are. *)
Lemma with_sources_lookup id i ids s id' turn j :
  NoDup ids →
  with_sources id i ids s !! (id', turn) = Some j ↔
  (id' = id ∧ ∃ k, ids !! k = Some turn ∧ j = Z.of_nat (i + k)) ∨
  ((id' ≠ id ∨ turn ∉ ids) ∧ s !! (id', turn) = Some j).
Proof.
  intros Hd. revert i s. induction Hd as [|x ids Hx Hd IH]; intros i s; cbn.
  { split; [|intros [(_&?&?&_)|[_ ?]]; done]. intros Hs. right. split; [|done]. right.
    apply not_elem_of_nil. }
  rewrite IH, lookup_insert_Some. split.
  - intros [(->&k&Hk&->)|[Hni [[[= -> ->] <-]|[Hne Hs]]]].
    + left. split; [done|]. exists (S k). split; [done|]. f_equal. lia.
    + left. split; [done|]. exists 0%nat. split; [done|]. f_equal. lia.
    + right. split; [|done]. destruct (decide (id' = id)) as [->|]; [|by left]. right.
      rewrite elem_of_cons. destruct Hni as [|Hni]; [done|]. intros [->|?]; done.
  - intros [(->&k&Hk&->)|[Hni Hs]].
    + destruct k as [|k]; cbn in Hk.
      * injection Hk as ->. right. split; [by right|]. left. split; [done|]. f_equal. lia.
      * left. split; [done|]. exists k. split; [done|]. f_equal. lia.
    + rewrite elem_of_cons in Hni. right. split; [tauto|]. right. split; [|done].
      intros [= -> ->]. tauto.
Qed.

Lemma insert_sources_Ok id i ids d u d' :
  each_tx (insert_source id) (imap (λ k x, ((i + k)%nat, x)) ids) d = Ok (u, d') →
  d' = set_sources (with_sources id i ids) d ∧ NoDup ids ∧
  (∀ turn, turn ∈ ids → db_sources d !! (id, turn) = None ∧ is_Some (db_turns d !! turn)).
Proof.
  revert i d. induction ids as [|turn ids IH]; intros i d; cbn [imap each_tx].
  { intros [_ ->]%tx_ret_Ok. split; [by destruct d|]. split; [constructor|].
    intros turn Hin. by apply not_elem_of_nil in Hin. }
  rewrite tx_unit_Ok, Nat.add_0_r. intros (d1&Hi&Hrest).
  apply insert_source_Ok in Hi as (->&Hnone&_&_&Ht).
  assert (imap ((λ k x, ((i + k)%nat, x)) ∘ S) ids = imap (λ k x, ((S i + k)%nat, x)) ids) as Heq.
  { apply imap_ext. intros. cbn. f_equal. lia. }
  rewrite Heq in Hrest. apply IH in Hrest as (->&Hd&Hnew). split; [done|].
  db_simpl. split.
  - constructor; [|done]. intros Hin. apply Hnew in Hin as [Hin _]. by rewrite lookup_insert_eq in Hin.
  - intros turn' [->|Hin]%elem_of_cons; [done|]. destruct (Hnew _ Hin) as [Hs ?]. split; [|done].
    apply lookup_insert_None in Hs. tauto.
Qed.

(** ** Loading the sources back *)

Definition by_position (l r : str * str * Z) : comparison := Z.compare l.2 r.2.

Lemma by_position_preorder : cmp_preorder by_position.
Proof. apply (cmp_preorder_map (λ row : str * str * Z, row.2)), cmp_preorder_Z. Qed.

Lemma load_sources_exact (id : str) (s : gmap (str * str) Z) (ids : list str) :
  NoDup ids →
  (∀ turn j, s !! (id, turn) = Some j ↔ ∃ k, ids !! k = Some turn ∧ j = Z.of_nat k) →
  load_sources id s = ids.
Proof.
  intros Hd Hs. unfold load_sources.
  set (rows := imap (λ k turn, (id, turn, Z.of_nat k)) ids).
  assert (∀ row, row ∈ rows ↔ ∃ k turn, ids !! k = Some turn ∧ row = (id, turn, Z.of_nat k)) as Hrows.
  { intros row. unfold rows. rewrite list_elem_of_lookup. setoid_rewrite list_lookup_imap_Some.
    split; [intros (k&turn&?&->)|intros (k&turn&?&->)]; by eauto. }
  rewrite (sort_by_already by_position by_position_preorder rows).
  - unfold rows. rewrite <-list_fmap_compose, fmap_imap. clear.
    assert (∀ g : nat → str → str, (∀ k x, g k x = x) → imap g ids = ids) as Hg; [|by apply Hg].
    induction ids as [|x ids IH]; intros g Hg; cbn; [done|]. rewrite Hg. f_equal. apply IH. intros. apply Hg.
  - unfold rows. clear.
    assert (∀ n, StronglySorted (cmp_le by_position) (imap (λ k turn, (id, turn, Z.of_nat (n + k))) ids)) as Hn;
      [|apply (Hn 0%nat)].
    induction ids as [|x ids IH]; intros n; cbn; [constructor|]. constructor.
    + specialize (IH (S n)). erewrite imap_ext; [exact IH|]. intros. cbn. do 2 f_equal. lia.
    + apply Forall_forall. intros row. rewrite list_elem_of_lookup. intros (k&Hk).
      apply list_lookup_imap_Some in Hk as (y&_&->). unfold cmp_le, by_position. cbn.
      apply Z.compare_le_iff. lia.
  - intros r1 r2 (k1&t1&H1&->)%Hrows (k2&t2&H2&->)%Hrows. unfold by_position. cbn.
    intros Heq%Z.compare_eq_iff%Nat2Z.inj. subst k2. congruence.
  - apply NoDup_Permutation.
    + apply filter_NoDup. rewrite btree_iter_perm. apply NoDup_map_to_list.
    + unfold rows. apply NoDup_alt. intros k1 k2 row.
      rewrite !list_lookup_imap_Some. intros (?&?&->) (?&?&[= _ ?]). lia.
    + intros [[id' turn] j]. rewrite filter_elem, btree_iter_elem, bool_decide_eq_true, Hrows. cbn.
      split.
      * intros [-> Hl%Hs]. destruct Hl as (k&?&->). by eauto.
      * intros (k&?&?&[= -> -> ->]). split; [done|]. apply Hs. by eauto.
Qed.

(** ** Memories *)

Definition memory_id (uuid : str) (m : DerivedMemoryInput) : str := default uuid (di_id m).

(** What a derived memory does: nothing, or one new row with its sources. *)
Inductive memory_effect (uuid : str) (now : Z) (m : DerivedMemoryInput) (d : MemoryDb) :
    DerivedMemoryRecord → MemoryDb → Prop :=
| effect_known r :
    load_derived_memory (memory_id uuid m) d = Some r → same_memory r m = true →
    memory_effect uuid now m d r d
| effect_new :
    let id := memory_id uuid m in
    let row := memory_row m id now in
    db_memories d !! id = None → memory_row_ok row = true →
    NoDup (di_source_turn_ids m) →
    Forall (λ turn, ∃ t, db_turns d !! turn = Some t ∧
      source_scope_compatible (di_scope m) (dt_scope t) = true) (di_source_turn_ids m) →
    memory_effect uuid now m d (set_sources_of (di_source_turn_ids m) row)
      (set_sources (with_sources id 0 (di_source_turn_ids m)) (set_memories <[id := row]> d)).

(** No memory, no sources of it. *)
Lemma no_dangling d id turn : db_ok d → db_memories d !! id = None → db_sources d !! (id, turn) = None.
Proof.
  intros Hok Hm. apply eq_None_not_Some. intros [j Hj].
  apply (ok_sources _ Hok) in Hj as (?&?&?&_). congruence.
Qed.

Lemma load_new_sources d id ids :
  db_ok d → db_memories d !! id = None → NoDup ids →
  load_sources id (with_sources id 0 ids (db_sources d)) = ids.
Proof.
  intros Hok Hm Hd. apply load_sources_exact; [done|]. intros turn j.
  rewrite with_sources_lookup by done. split.
  - intros [(_&k&?&->)|[_ Hs]]; [by exists k|]. by rewrite (no_dangling d) in Hs.
  - intros (k&?&->). left. split; [done|]. by exists k.
Qed.

Lemma insert_derived_effect uuid now m d r d' :
  db_ok d → insert_derived_memory uuid now m d = Ok (r, d') → memory_effect uuid now m d r d'.
Proof.
  intros Hok. unfold insert_derived_memory. fold (memory_id uuid m). cbv zeta.
  rewrite tx_unit_Ok. intros (d1&Hc&Hi). apply check_sources_Ok in Hc as [-> Hsrc].
  rewrite query_bind_Ok in Hi.
  destruct (load_derived_memory (memory_id uuid m) d) as [x|] eqn:Hl.
  - destruct (same_memory x m) eqn:Hsame; [|done]. cbn [negb] in Hi.
    apply tx_ret_Ok in Hi as [-> ->]. by apply effect_known.
  - rewrite constraint_bind_Ok, execute_bind_Ok, tx_unit_Ok in Hi. destruct Hi as (Hrow&d2&Hins&Hi).
    apply (insert_sources_Ok _ 0) in Hins as (->&Hd&_).
    rewrite query_bind_Ok in Hi. unfold load_derived_memory in Hl.
    apply fmap_None in Hl. unfold load_derived_memory in Hi. db_simpl.
    rewrite lookup_insert_eq in Hi. cbn [fmap option_fmap option_map] in Hi.
    rewrite load_new_sources in Hi by done. apply tx_ret_Ok in Hi as [-> ->]. by apply effect_new.
Qed.

Lemma derived_validate_facts m : derived_validate m = Ok tt →
  is_blank (di_content m) = false ∧ bad_weight (di_confidence m) = false ∧
  bad_weight (di_importance m) = false ∧
  (di_class m = LongTermSummary → di_source_turn_ids m ≠ [] ∧ is_Some (di_generator m)) ∧
  (∀ expiry, di_expires_at_ms m = Some expiry → di_observed_at_ms m < expiry).
Proof.
  unfold derived_validate. intros Hv. read_checks Hv.
  destruct Hv as (_&_&(?&_)&Hw&He&_&_&Hs&_).
  unfold check_weight in Hw. cbn [check_all] in Hw. read_checks Hw. cbn [snd] in Hw.
  destruct Hw as ((?&_)&(?&_)&_). split; [done|]. split; [done|]. split; [done|]. split.
  - intros Hc. rewrite Hc in Hs. rewrite bool_decide_eq_true_2, andb_true_l in Hs by done.
    apply orb_false_iff in Hs as [Hn Hg]. rewrite bool_decide_eq_false in Hn. split; [done|].
    unfold is_none in Hg. apply negb_false_iff in Hg. by destruct (di_generator m).
  - intros expiry Hx. rewrite Hx in He. cbn in He. lia.
Qed.

Lemma memory_row_checked m id now : memory_row_ok (memory_row m id now) = true →
  memory_ok id (memory_row m id now).
Proof.
  unfold memory_row_ok. rewrite !andb_true_iff. cbn.
  intros (((((((_&_)&_)&_)&?)&?)&He)&Hg). split; cbn; [done..| |].
  - intros expiry Hx. rewrite Hx in He. cbn in He. lia.
  - intros Hc. rewrite bool_decide_eq_false_2 in Hg by (intros Hn; by apply Hn).
    by destruct (di_generator m).
Qed.

Lemma memory_effect_ok uuid now m d r d' :
  derived_validate m = Ok tt → memory_effect uuid now m d r d' → db_ok d → db_ok d' ∧ grows d d'.
Proof.
  intros (_&_&_&Hsum&_)%derived_validate_facts Heff Hok. destruct Heff as [|id row Hnone Hrow Hd Hsrc]; [done|].
  assert (∀ turn, turn ∈ di_source_turn_ids m → db_sources d !! (id, turn) = None) as Hfresh.
  { intros turn _. by apply no_dangling. }
  split.
  - split; db_simpl.
    + apply (ok_turns _ Hok).
    + apply map_Forall_insert_2; [by apply memory_row_checked|]. apply (ok_memories _ Hok).
    + intros id' turn j. rewrite with_sources_lookup by done. intros [(->&k&Hk&->)|[_ Hs]].
      * rewrite Forall_forall in Hsrc.
        destruct (Hsrc turn ltac:(by eapply list_elem_of_lookup_2)) as (t&Ht&Hc).
        exists row, t. by rewrite lookup_insert_eq.
      * destruct (ok_sources _ Hok _ _ _ Hs) as (m'&t&Hm&Ht&Hc). exists m', t.
        rewrite lookup_insert_ne; [done|]. congruence.
    + intros id' t1 t2 j. rewrite !with_sources_lookup by done.
      intros [(->&k1&Hk1&->)|[_ Hs1]] [(Heq&k2&Hk2&Hj)|[_ Hs2]].
      * assert (k1 = k2) by lia. congruence.
      * by rewrite (no_dangling d) in Hs2.
      * subst id'. by rewrite (no_dangling d) in Hs1.
      * by eapply (ok_positions _ Hok).
    + intros id' m' Hm Hc. apply lookup_insert_Some in Hm as [[<- <-]|[Hne Hm]].
      * destruct (Hsum Hc) as [Hne _]. destruct (di_source_turn_ids m) as [|turn ids] eqn:Hids; [done|].
        exists turn, 0. rewrite with_sources_lookup by done. left. split; [done|]. by exists 0%nat.
      * destruct (ok_summaries _ Hok _ _ Hm Hc) as (turn&j&Hs). exists turn, j.
        rewrite with_sources_lookup by done. right. split; [left; congruence|done].
  - split; db_simpl; try done.
    + by apply insert_subseteq.
    + by apply with_sources_grows.
Qed.

(** ** The batch *)

Lemma commit_turns_ok ts r d r' d' :
  Forall (λ t, turn_validate t = Ok tt) ts → db_ok d →
  commit_turns ts r d = Ok (r', d') → db_ok d' ∧ grows d d'.
Proof.
  intros Hts. revert r d. induction Hts as [|t ts Ht _ IH]; intros r d Hok; cbn [commit_turns].
  { by intros [_ ->]%tx_ret_Ok. }
  rewrite tx_bind_Ok. intros (r1&d1&H1&Hrest).
  apply commit_one_turn_effect, turn_effect_ok in H1 as [Hok1 Hg]; [|done..].
  destruct (IH _ _ Hok1 Hrest). split; [done|]. by etransitivity.
Qed.

Lemma commit_memories_ok draw ms r d r' d' :
  Forall (λ m, derived_validate m = Ok tt) ms → db_ok d →
  commit_memories draw ms r d = Ok (r', d') → db_ok d' ∧ grows d d'.
Proof.
  intros Hms. revert draw r d. induction Hms as [|m ms Hm _ IH]; intros draw r d Hok; cbn [commit_memories].
  { by intros [_ ->]%tx_ret_Ok. }
  rewrite tx_bind_Ok. intros (rec&d1&H1&Hrest).
  apply insert_derived_effect in H1; [|done]. apply memory_effect_ok in H1 as [Hok1 Hg]; [|done..].
  destruct (IH _ _ _ Hok1 Hrest). split; [done|]. by etransitivity.
Qed.

Lemma batch_checks_Ok b : commit_batch_checks b = Ok tt →
  Forall (λ t, turn_validate t = Ok tt ∧ ti_sequence t ≤ I64_MAX ∧ ti_cancellation_generation t ≤ I64_MAX)
    (mb_turns b) ∧
  Forall (λ m, derived_validate m = Ok tt) (mb_derived b).
Proof.
  unfold commit_batch_checks. rewrite if_err_Ok, bind_unit_Ok, !check_all_Ok.
  intros (_&Ht&Hm). split; [|done]. eapply Forall_impl; [exact Ht|]. intros t. unfold check_turn_input.
  cbn beta. rewrite bind_unit_Ok. intros [? Hi]. split; [done|].
  destruct (checked_sql_integer _ (ti_sequence t)) eqn:E1; [|done]. cbn in Hi.
  destruct (checked_sql_integer _ (ti_cancellation_generation t)) eqn:E2; [|done].
  apply checked_sql_integer_Ok in E1 as [? _], E2 as [? _]. done.
Qed.

Lemma commit_batch_keeps draw b d r d' :
  db_ok d → commit_batch draw b d = (r, d') → db_ok d' ∧ grows d d'.
Proof.
  unfold commit_batch. intros Hok. destruct (commit_batch_checks b) as [[]|e] eqn:Hc; [|by intros [= _ <-]].
  apply batch_checks_Ok in Hc as [Ht Hm]. unfold run_transaction, commit_authoritative_batch.
  destruct ((commit_turns _ _ ≫= _) d) as [[r' d1]|e] eqn:Hrun; [|by intros [= _ <-]].
  intros [= _ <-]. apply tx_bind_Ok in Hrun as (r1&d2&H1&H2).
  apply commit_turns_ok in H1 as [Hok1 Hg1]; [|eapply Forall_impl; [exact Ht|]; naive_solver|done].
  apply commit_memories_ok in H2 as [Hok2 Hg2]; [|done..]. split; [done|]. by etransitivity.
Qed.

(** ** Stability: what was stored loads as it did *)

Lemma load_sources_ext (id : str) (s s' : gmap (str * str) Z) :
  (∀ turn turn' i, s !! (id, turn) = Some i → s !! (id, turn') = Some i → turn = turn') →
  (∀ turn, s' !! (id, turn) = s !! (id, turn)) →
  load_sources id s' = load_sources id s.
Proof.
  intros Hp Hs. unfold load_sources. do 2 f_equal.
  symmetry. apply (sort_by_perm_eq by_position by_position_preorder).
  - intros [[id1 t1] i] [[id2 t2] j]. rewrite !filter_elem, !btree_iter_elem, !bool_decide_eq_true. cbn.
    intros [-> H1] [-> H2]. unfold by_position. cbn. intros ->%Z.compare_eq_iff.
    by rewrite (Hp _ _ _ H1 H2).
  - apply NoDup_Permutation.
    1,2: apply filter_NoDup; rewrite btree_iter_perm; apply NoDup_map_to_list.
    intros [[id' t] i]. rewrite !filter_elem, !btree_iter_elem, !bool_decide_eq_true. cbn.
    split; intros [-> Hx]; (split; [done|]); [by rewrite Hs|by rewrite <-Hs].
Qed.

(** Every memory of [d] loads in [d'] as it did. *)
Definition stable d d' : Prop :=
  grows d d' ∧ ∀ id m, load_derived_memory id d = Some m → load_derived_memory id d' = Some m.

#[export] Instance stable_preorder : PreOrder stable.
Proof. split; [by split|]. intros d1 d2 d3 [] []. split; [by etransitivity|naive_solver]. Qed.

Lemma turn_effect_stable t d r r' d' : turn_effect t d r r' d' → stable d d'.
Proof.
  destruct 1; [done|done|]. split; [|done]. split; db_simpl; try done. by apply insert_subseteq.
Qed.

Lemma memory_effect_stable uuid now m d r d' :
  derived_validate m = Ok tt → db_ok d → memory_effect uuid now m d r d' → stable d d'.
Proof.
  intros Hv Hok Heff. destruct (memory_effect_ok _ _ _ _ _ _ Hv Heff Hok) as [_ Hg]. split; [done|].
  destruct Heff as [|id row Hnone Hrow Hd Hsrc]; [done|]. intros id' x. unfold load_derived_memory. db_simpl.
  intros (m'&Hm'&->)%fmap_Some. assert (id' ≠ id) as Hne by congruence.
  rewrite lookup_insert_ne, Hm' by done. cbn. f_equal. f_equal. apply load_sources_ext.
  - intros ???. apply (ok_positions _ Hok).
  - intros turn. apply option_eq. intros j. rewrite with_sources_lookup by done. naive_solver.
Qed.

(** After its effect, the memory loads as reported, equal to its input, with its sources. *)
Definition committed d (m : DerivedMemoryInput) (uuid : str) (r : DerivedMemoryRecord) : Prop :=
  load_derived_memory (memory_id uuid m) d = Some r ∧ same_memory r m = true ∧
  Forall (λ turn, ∃ t, db_turns d !! turn = Some t ∧
    source_scope_compatible (di_scope m) (dt_scope t) = true) (di_source_turn_ids m).

Lemma committed_stable d d' m uuid r : stable d d' → committed d m uuid r → committed d' m uuid r.
Proof.
  intros [Hg Hl] (?&?&Hs). split; [by apply Hl|]. split; [done|]. eapply Forall_impl; [exact Hs|].
  intros turn (t&?&?). exists t. split; [|done]. by eapply lookup_weaken, (gr_turns _ _ Hg).
Qed.

(** The order of [REAL] columns that hold numbers. *)
Definition real_key (x : f64) : Z * (Z * Z) :=
  f_total_key false (match x with S754_zero _ => S754_zero false | _ => x end).

Lemma SFcompare_key (x y : f64) : is_nan x = false → is_nan y = false →
  SFcompare x y = Some (ocmp (real_key x) (real_key y)).
Proof.
  destruct x as [[]|[]| |[] m e], y as [[]|[]| |[] m' e']; try done; intros _ _; cbn -[Z.compare].
  - change (Z.neg m ?= Z.neg m') with (CompOpp (m ?= m')%positive).
    rewrite Z.compare_opp, (Z.compare_antisym e e').
    change (PosDef.Pos.compare_cont Eq m m') with (m ?= m')%positive.
    by destruct (e ?= e'); cbn; destruct (m ?= m')%positive.
  - change (PosDef.Pos.compare_cont Eq m m') with (m ?= m')%positive.
    by destruct (e ?= e'); cbn; destruct (m ?= m')%positive.
Qed.

Lemma real_cmp_key (x y : f64) : is_nan x = false → is_nan y = false →
  real_cmp x y = ocmp (real_key x) (real_key y).
Proof. intros Hx Hy. unfold real_cmp. by rewrite SFcompare_key. Qed.

Lemma SFeqb_refl (x : f64) : is_nan x = false → SFeqb x x = true.
Proof.
  destruct x as [s|s| |s m e]; try done; unfold SFeqb, SFcompare; [by destruct s|].
  rewrite Z.compare_refl. change (PosDef.Pos.compare_cont Eq m m) with (m ?= m)%positive.
  rewrite Pos.compare_refl. by destruct s.
Qed.

Lemma good_weight_eq (x : f64) : bad_weight x = false → SFeqb x x = true.
Proof.
  unfold bad_weight. rewrite orb_false_iff, negb_false_iff. intros [Hf _].
  apply SFeqb_refl, is_finite_not_nan, Hf.
Qed.

Lemma new_memory_same m id now : derived_validate m = Ok tt →
  same_memory (set_sources_of (di_source_turn_ids m) (memory_row m id now)) m = true.
Proof.
  intros (_&Hc&Hi&_)%derived_validate_facts. unfold same_memory. cbn.
  rewrite !bool_decide_eq_true_2 by done. by rewrite !good_weight_eq.
Qed.

Lemma insert_derived_committed uuid now m d r d' :
  derived_validate m = Ok tt → db_ok d → insert_derived_memory uuid now m d = Ok (r, d') →
  committed d' m uuid r.
Proof.
  intros Hv Hok Hi. pose proof (insert_derived_effect _ _ _ _ _ _ Hok Hi) as Heff.
  unfold insert_derived_memory in Hi. rewrite tx_unit_Ok in Hi. destruct Hi as (d1&Hc&_).
  apply check_sources_Ok in Hc as [_ Hsrc]. destruct Heff as [r Hl Hs|id row Hnone Hrow Hd _].
  - by split.
  - split; [|split; [by apply new_memory_same|done]].
    unfold load_derived_memory. db_simpl. fold id. rewrite lookup_insert_eq. cbn. f_equal.
    by rewrite load_new_sources.
Qed.
End facts.
