(* ===== verification/MemoryItems.v ===== *)
(** * Conversation memory: items, embeddings, the outbox and retrieval
    ([crates/memory/src/store.rs], [crates/memory/src/retrieval.rs])

    The free-form items with optimistic revisions and soft deletion, their embeddings, the
    outbox of jobs that workers lease, and hybrid retrieval over the items. The full-text
    index is the engine's: a parameter.

    The second half is the search over the items. *)

From S2P Require Import Prelude Text Bytes Float HostedTypes MemoryTypes MemoryStore.
From Stdlib Require Import SpecFloat.

#[local] Open Scope Z_scope.

(** ** Numbers *)

Definition f64_add (x y : f64) : f64 := SFadd 53 1024 x y.
Definition f64_mul (x y : f64) : f64 := SFmul 53 1024 x y.
Definition f64_sqrt (x : f64) : f64 := SFsqrt 53 1024 x.
Definition f64_epsilon : f64 := Eval vm_compute in f64_lit 1 4503599627370496.

(** [f32::to_bits] of a number; a NaN has one of its patterns. *)
Definition f32_to_bits (x : f32) : Z :=
  let sign (s : bool) := if s then 2147483648 else 0 in
  match x with
  | S754_zero s => sign s
  | S754_infinity s => sign s + 2139095040
  | S754_nan => 2143289344
  | S754_finite s m e =>
      if Z.pos m <? 8388608 then sign s + Z.pos m
      else sign s + (e + 150) * 8388608 + (Z.pos m - 8388608)
  end.

(** Saturating arithmetic of [i64]. *)
Definition i64_max : Z := 9223372036854775807.
Definition i64_min : Z := -9223372036854775808.
Definition sat_i64 (x : Z) : Z := Z.max i64_min (Z.min x i64_max).

Section items.
Context `{JsonValueApi} `{!EqDecision json_value} `{DigestApi}.

(** ** The outbox *)

Definition validate_job (job : OutboxJobInput) : result MemoryError unit :=
  if is_blank (ji_kind job) || (256 <? str_len (ji_kind job))
     || (ji_max_attempts job =? 0) || (1000 <? ji_max_attempts job) then
    Err (MeInvalidData (lit "job kind and max_attempts are invalid")) else
  payload_len ← ok_or (json_encoded_len (ji_payload job)) MeSerialization;
  if 1048576 <? payload_len then Err (MeInvalidData (lit "job payload exceeds 1 MiB")) else Ok tt.

(** [INTEGER PRIMARY KEY]: one more than the largest. *)
Definition next_rowid (outbox : gmap Z JobRow) : Z :=
  1 + map_fold (λ id _ m, Z.max id m) 0 outbox.

Definition find_dedupe (key : str) (outbox : gmap Z JobRow) : option Z :=
  fst <$> find (λ row : Z * JobRow, bool_decide (jr_dedupe_key row.2 = Some key)) (map_to_list outbox).

(** The [CHECK]s of [memory_outbox]. *)
Definition job_row_ok (j : OutboxJob) : bool :=
  (0 <? sql_length (sql_trim (jb_kind j))) && (0 <=? jb_attempts j) && (0 <? jb_max_attempts j)
  && Bool.eqb (bool_decide (jb_status j = JobProcessing))
       (is_some (jb_lease_owner j) && is_some (jb_lease_expires_at_ms j)).

Definition new_job (id now_ms : Z) (job : OutboxJobInput) : OutboxJob := {|
  jb_id := id;
  jb_kind := ji_kind job;
  jb_aggregate_id := ji_aggregate_id job;
  jb_payload := ji_payload job;
  jb_status := JobPending;
  jb_attempts := 0;
  jb_max_attempts := ji_max_attempts job;
  jb_available_at_ms := ji_available_at_ms job;
  jb_lease_owner := None;
  jb_lease_expires_at_ms := None;
  jb_last_error := None;
  jb_created_at_ms := now_ms;
  jb_updated_at_ms := now_ms |}.

(** [enqueue_job_tx]: the [CHECK]s come first; a key that is present already does
    nothing. *)
Definition enqueue_job_tx (job : OutboxJobInput) (now_ms : Z) : tx Z :=
  id ← query (λ d, next_rowid (db_outbox d));
  let row := new_job id now_ms job in
  _ ← constraint (job_row_ok row) SQLITE_CONSTRAINT_CHECK;
  present ← query (λ d, key ← ji_dedupe_key job; find_dedupe key (db_outbox d));
  match present with
  | Some present => mret present
  | None =>
      _ ← execute (set_outbox <[id := {| jr_job := row; jr_dedupe_key := ji_dedupe_key job |}]>);
      mret id
  end.

Definition enqueue_job (job : OutboxJobInput) (now_ms : Z) (d : MemoryDb) : result MemoryError Z * MemoryDb :=
  match validate_job job with
  | Err e => (Err e, d)
  | Ok _ => run_transaction (enqueue_job_tx job now_ms) d
  end.

Definition with_job (f : OutboxJob → OutboxJob) (r : JobRow) : JobRow :=
  {| jr_job := f (jr_job r); jr_dedupe_key := jr_dedupe_key r |}.

Definition set_job (status : OutboxStatus) (attempts available_at : Z) (owner : option str)
    (expires : option Z) (last_error : option str) (now_ms : Z) (j : OutboxJob) : OutboxJob := {|
  jb_id := jb_id j; jb_kind := jb_kind j; jb_aggregate_id := jb_aggregate_id j;
  jb_payload := jb_payload j; jb_status := status; jb_attempts := attempts;
  jb_max_attempts := jb_max_attempts j; jb_available_at_ms := available_at;
  jb_lease_owner := owner; jb_lease_expires_at_ms := expires; jb_last_error := last_error;
  jb_created_at_ms := jb_created_at_ms j; jb_updated_at_ms := now_ms |}.

(** The first statement of [claim_jobs]: a lease that ran out is taken back. *)
Definition lease_expired (now_ms : Z) (j : OutboxJob) : bool :=
  bool_decide (jb_status j = JobProcessing)
  && is_some_and (jb_lease_expires_at_ms j) (λ expires, expires <=? now_ms).
Definition recover_job (now_ms : Z) (j : OutboxJob) : OutboxJob :=
  if lease_expired now_ms j then
    set_job (if jb_max_attempts j <=? jb_attempts j then JobDead else JobPending) (jb_attempts j)
      now_ms None None
      (Some (default (lit "worker lease expired") (jb_last_error j))) now_ms j
  else j.

Definition claimable (now_ms : Z) (j : OutboxJob) : bool :=
  bool_decide (jb_status j = JobPending) && (jb_available_at_ms j <=? now_ms)
  && (jb_attempts j <? jb_max_attempts j).

Definition claim_order (l r : OutboxJob) : comparison :=
  then_with (Z.compare (jb_available_at_ms l) (jb_available_at_ms r)) (Z.compare (jb_id l) (jb_id r)).

Definition claimable_ids (now_ms : Z) (limit : nat) (outbox : gmap Z JobRow) : list Z :=
  jb_id <$> take limit (sort_by claim_order
    (List.filter (claimable now_ms) (jr_job <$> (btree_iter outbox).*2))).

Definition lease_job (worker : str) (expires now_ms : Z) (j : OutboxJob) : OutboxJob :=
  if bool_decide (jb_status j = JobPending) then
    set_job JobProcessing (jb_attempts j + 1) (jb_available_at_ms j) (Some worker) (Some expires)
      (jb_last_error j) now_ms j
  else j.

(** [load_job_tx]. *)
Definition load_job (id : Z) (d : MemoryDb) : option OutboxJob := jr_job <$> db_outbox d !! id.

Fixpoint load_jobs (ids : list Z) : tx (list OutboxJob) :=
  match ids with
  | [] => mret []
  | id :: ids =>
      job ← query (load_job id);
      match job with
      | Some job => jobs ← load_jobs ids; mret (job :: jobs)
      | None => fail (MeDatabase SQLITE_DONE)
      end
  end.

Definition claim_jobs_tx (worker : str) (now_ms lease_ms : Z) (limit : nat) : tx (list OutboxJob) :=
  _ ← execute (set_outbox (fmap (with_job (recover_job now_ms))));
  ids ← query (λ d, claimable_ids now_ms limit (db_outbox d));
  let lease_expires := sat_i64 (now_ms + lease_ms) in
  _ ← execute (set_outbox (λ outbox,
        foldr (λ id outbox, alter (with_job (lease_job worker lease_expires now_ms)) id outbox) outbox ids));
  load_jobs ids.

(** [MemoryStore::claim_jobs]; the lease in milliseconds. *)
Definition claim_jobs (worker : str) (now_ms lease_ms limit : Z) (d : MemoryDb)
    : result MemoryError (list OutboxJob) * MemoryDb :=
  if is_blank worker || (limit =? 0) || (1000 <? limit) then
    (Err (MeInvalidData (lit "worker is required and claim limit must be in 1..=1000")), d) else
  if i64_max <? lease_ms then (Err (MeInvalidData (lit "lease is too long")), d) else
  if lease_ms <=? 0 then (Err (MeInvalidData (lit "lease must be greater than zero")), d) else
  run_transaction (claim_jobs_tx worker now_ms lease_ms (Z.to_nat limit)) d.

Definition leased_by (worker : str) (j : OutboxJob) : bool :=
  bool_decide (jb_status j = JobProcessing) && bool_decide (jb_lease_owner j = Some worker).

(** [complete_job]: the holder of the lease, and nobody else. *)
Definition complete_job (id : Z) (worker : str) (now_ms : Z) (d : MemoryDb) : bool * MemoryDb :=
  match load_job id d with
  | Some j =>
      if leased_by worker j then
        (true, set_outbox (alter (with_job (λ j, set_job JobCompleted (jb_attempts j)
                 (jb_available_at_ms j) None None (jb_last_error j) now_ms j)) id) d)
      else (false, d)
  | None => (false, d)
  end.

Definition fail_job_tx (id : Z) (worker : str) (now_ms retry_at_ms : Z) (error : str) : tx OutboxStatus :=
  found ← query (load_job id);
  match found with
  | Some j =>
      if leased_by worker j then
        let status := if jb_max_attempts j <=? jb_attempts j then JobDead else JobPending in
        _ ← execute (set_outbox (alter (with_job (λ j, set_job status (jb_attempts j) retry_at_ms
               None None (Some error) now_ms j)) id));
        mret status
      else fail (MeNotFound (lit "leased outbox job " ++ dec id))
  | None => fail (MeNotFound (lit "leased outbox job " ++ dec id))
  end.

Definition fail_job (id : Z) (worker : str) (now_ms retry_at_ms : Z) (error : str) (d : MemoryDb)
    : result MemoryError OutboxStatus * MemoryDb :=
  if is_blank error || (16384 <? str_len error) || (retry_at_ms <? now_ms) then
    (Err (MeInvalidData (lit "failure requires a bounded error and a non-past retry time")), d) else
  run_transaction (fail_job_tx id worker now_ms retry_at_ms error) d.

(** ** Items *)

(** [idx_memory_fact_identity]: the unique index on facts, relationships, lore and
    profiles that are not deleted; NULLs are distinct. *)
Definition indexed_namespace (n : MemoryNamespace) : bool :=
  match n with NsFact | NsRelationship | NsLore | NsProfile => true | _ => false end.
Definition same_fact (a b : MemoryRecord) : bool :=
  bool_decide (me_namespace a = me_namespace b) && indexed_namespace (me_namespace a)
  && is_some (ms_profile_id (me_scope a)) && is_some (ms_game_id (me_scope a))
  && is_some (ms_character_id (me_scope a))
  && bool_decide (ms_profile_id (me_scope a) = ms_profile_id (me_scope b))
  && bool_decide (ms_game_id (me_scope a) = ms_game_id (me_scope b))
  && bool_decide (ms_character_id (me_scope a) = ms_character_id (me_scope b))
  && bool_decide (me_content_sha256 a = me_content_sha256 b).
Definition fact_taken (r : MemoryRecord) (items : gmap str ItemRow) : bool :=
  existsb (λ row : str * ItemRow, bool_decide (row.1 ≠ me_id r) && is_none (it_deleted_at_ms row.2)
             && same_fact r (it_record row.2)) (map_to_list items).

(** The [CHECK]s of [memory_items]. *)
Definition item_row_ok (r : MemoryRecord) : bool :=
  sql_text_ok 1048576 (me_content r)
  && (sql_length (me_content_sha256 r) =? 64)
  && range_contains f_zero f64_one (me_confidence r)
  && range_contains f_zero f64_one (me_importance r)
  && is_none_or (me_expires_at_ms r) (λ expiry, me_observed_at_ms r <? expiry)
  && is_none_or (me_embedding_generation r) (λ g, 0 <=? g)
  && (0 <? me_revision r).

(** [load_record]: deleted items are not there. *)
Definition load_record (id : str) (d : MemoryDb) : option MemoryRecord :=
  row ← db_items d !! id;
  if is_none (it_deleted_at_ms row) then Some (it_record row) else None.

(** The row an upsert leaves: fresh, or the next revision of the one there. *)
Definition upserted (id : str) (now_ms : Z) (m : MemoryInput) (existing : option ItemRow) : MemoryRecord :=
  let content := trim (mn_content m) in
  let hash := content_sha256 content in
  {| me_id := id;
     me_namespace := mn_namespace m;
     me_scope := mn_scope m;
     me_visibility := mn_visibility m;
     me_content := content;
     me_content_sha256 := hash;
     me_provenance := mn_provenance m;
     me_confidence := mn_confidence m;
     me_importance := mn_importance m;
     me_observed_at_ms := mn_observed_at_ms m;
     me_created_at_ms := match existing with
       | Some row => me_created_at_ms (it_record row) | None => now_ms end;
     me_updated_at_ms := now_ms;
     me_expires_at_ms := mn_expires_at_ms m;
     me_embedding_generation := match existing with
       | Some row => if bool_decide (me_content_sha256 (it_record row) = hash)
                     then me_embedding_generation (it_record row) else None
       | None => None end;
     me_revision := match existing with
       | Some row => me_revision (it_record row) + 1 | None => 1 end |}.

Definition embedding_job (r : MemoryRecord) (now_ms : Z) : OutboxJobInput := {|
  ji_kind := lit "memory.embedding.requested";
  ji_aggregate_id := Some (me_id r);
  ji_payload := json_object (list_to_map [
    (lit "item_id", json_string (me_id r));
    (lit "revision", json_u64 (me_revision r));
    (lit "content_sha256", json_string (me_content_sha256 r))]);
  ji_available_at_ms := now_ms;
  ji_max_attempts := 5;
  ji_dedupe_key := Some (lit "embedding:" ++ me_id r ++ lit ":" ++ dec (me_revision r)) |}.

(** [upsert_in_transaction]. *)
Definition upsert_in_transaction (uuid : str) (m : MemoryInput) (now_ms : Z) : tx MemoryRecord :=
  let id := default uuid (mn_id m) in
  if is_blank id || (512 <? str_len id) then
    fail (MeInvalidData (lit "record ID must be non-empty and at most 512 bytes")) else
  existing ← query (λ d, db_items d !! id);
  let actual := match existing with Some row => me_revision (it_record row) | None => 0 end in
  if is_some_and (mn_expected_revision m) (λ expected, negb (actual =? expected)) then
    fail (MeRevisionConflict id (default 0 (mn_expected_revision m)) actual) else
  let row := upserted id now_ms m existing in
  let content_changed := match existing with
    | Some old => bool_decide (me_content_sha256 (it_record old) ≠ me_content_sha256 row)
    | None => true end in
  _ ← constraint (item_row_ok row) SQLITE_CONSTRAINT_CHECK;
  free ← query (λ d, negb (fact_taken row (db_items d)));
  _ ← constraint free SQLITE_CONSTRAINT_UNIQUE;
  _ ← execute (set_items <[id := {| it_record := row; it_deleted_at_ms := None |}]>);
  _ ← execute (if content_changed then set_embeddings (filter (λ kv, kv.1.1 ≠ id)) else λ d, d);
  found ← query (load_record id);
  match found with
  | Some record => _ ← enqueue_job_tx (embedding_job record now_ms) now_ms; mret record
  | None => fail (MeNotFound id)
  end.

(** [upsert_record]. *)
Definition upsert (uuid : str) (m : MemoryInput) (now_ms : Z) (d : MemoryDb)
    : result MemoryError MemoryRecord * MemoryDb :=
  match memory_input_validate m with
  | Err e => (Err e, d)
  | Ok _ => run_transaction (upsert_in_transaction uuid m now_ms) d
  end.

(** [UPDATE ... SET deleted_at_ms=?, revision=revision+1]. *)
Definition bump (now_ms : Z) (embedding : option Z) (r : MemoryRecord) : MemoryRecord := {|
  me_id := me_id r; me_namespace := me_namespace r; me_scope := me_scope r;
  me_visibility := me_visibility r; me_content := me_content r;
  me_content_sha256 := me_content_sha256 r; me_provenance := me_provenance r;
  me_confidence := me_confidence r; me_importance := me_importance r;
  me_observed_at_ms := me_observed_at_ms r; me_created_at_ms := me_created_at_ms r;
  me_updated_at_ms := now_ms; me_expires_at_ms := me_expires_at_ms r;
  me_embedding_generation := embedding; me_revision := me_revision r + 1 |}.

Definition soft_deleted (now_ms : Z) (row : ItemRow) : ItemRow := {|
  it_record := bump now_ms (me_embedding_generation (it_record row)) (it_record row);
  it_deleted_at_ms := Some now_ms |}.

Definition soft_delete (id : str) (deleted_at_ms : Z) (d : MemoryDb) : bool * MemoryDb :=
  match load_record id d with
  | Some _ => (true, set_items (alter (soft_deleted deleted_at_ms) id) d)
  | None => (false, d)
  end.

Definition item_expired (now_ms : Z) (row : ItemRow) : bool :=
  is_none (it_deleted_at_ms row)
  && is_some_and (me_expires_at_ms (it_record row)) (λ expiry, expiry <=? now_ms).

Definition purge_expired (now_ms : Z) (d : MemoryDb) : nat * MemoryDb :=
  (size (filter (λ kv : str * ItemRow, item_expired now_ms kv.2 = true) (db_items d)),
   set_items (fmap (λ row, if item_expired now_ms row then soft_deleted now_ms row else row)) d).

(** *** Imports *)

Inductive ImportConflictPolicy := PolicyReject | PolicyKeepExisting | PolicyReplace.
Record ImportReport := { ir_inserted : nat; ir_replaced : nat; ir_skipped : nat }.

Definition expecting (revision : option Z) (m : MemoryInput) : MemoryInput := {|
  mn_id := mn_id m; mn_namespace := mn_namespace m; mn_scope := mn_scope m;
  mn_visibility := mn_visibility m; mn_content := mn_content m;
  mn_provenance := mn_provenance m; mn_confidence := mn_confidence m;
  mn_importance := mn_importance m; mn_observed_at_ms := mn_observed_at_ms m;
  mn_expires_at_ms := mn_expires_at_ms m; mn_expected_revision := revision |}.

Definition import_one (policy : ImportConflictPolicy) (now_ms : Z) (m : MemoryInput)
    (report : ImportReport) : tx ImportReport :=
  let id := default [] (mn_id m) in
  exists_ ← query (λ d, is_some (db_items d !! id));
  match exists_, policy with
  | true, PolicyReject => fail (MeInvalidData (lit "import conflicts with existing record " ++ id))
  | true, PolicyKeepExisting =>
      mret {| ir_inserted := ir_inserted report; ir_replaced := ir_replaced report;
              ir_skipped := S (ir_skipped report) |}
  | true, PolicyReplace =>
      _ ← upsert_in_transaction [] (expecting None m) now_ms;
      mret {| ir_inserted := ir_inserted report; ir_replaced := S (ir_replaced report);
              ir_skipped := ir_skipped report |}
  | false, _ =>
      _ ← upsert_in_transaction [] (expecting (Some 0) m) now_ms;
      mret {| ir_inserted := S (ir_inserted report); ir_replaced := ir_replaced report;
              ir_skipped := ir_skipped report |}
  end.

Fixpoint import_loop (policy : ImportConflictPolicy) (now_ms : Z) (records : list MemoryInput)
    (report : ImportReport) : tx ImportReport :=
  match records with
  | [] => mret report
  | m :: records => report ← import_one policy now_ms m report; import_loop policy now_ms records report
  end.

Definition check_import (m : MemoryInput) : result MemoryError unit :=
  _ ← memory_input_validate m;
  if str_is_empty (default [] (mn_id m)) then
    Err (MeInvalidData (lit "imports require a stable non-empty record ID")) else Ok tt.

(** [MemoryStore::import]. *)
Definition import (records : list MemoryInput) (policy : ImportConflictPolicy) (now_ms : Z) (d : MemoryDb)
    : result MemoryError ImportReport * MemoryDb :=
  match check_all check_import records with
  | Err e => (Err e, d)
  | Ok _ => run_transaction
      (import_loop policy now_ms records {| ir_inserted := 0; ir_replaced := 0; ir_skipped := 0 |}) d
  end.

(** ** Embeddings *)

Record EmbeddingInput := {
  ei_item_id : str;
  ei_generation : Z;
  ei_model_id : str;
  ei_values : list f32
}.

Definition f64_sum (xs : list f64) : f64 := fold_left f64_add xs (S754_zero true).
Definition l2_norm (values : list f32) : f64 :=
  f64_sqrt (f64_sum ((λ v, f64_mul (f64_of_f32 v) (f64_of_f32 v)) <$> values)).

Definition embedding_input_validate (e : EmbeddingInput) : result MemoryError unit :=
  if ei_generation e <? 0 then Err (MeInvalidData (lit "embedding generation cannot be negative")) else
  if is_blank (ei_model_id e) || bool_decide (length (ei_values e) = 0%nat) then
    Err (MeInvalidData (lit "embedding model and vector are required")) else
  if (65536 <? Z.of_nat (length (ei_values e))) || existsb (λ v, negb (is_finite v)) (ei_values e) then
    Err (MeInvalidData (lit "embedding is too large or contains a non-finite value")) else
  if f_le (l2_norm (ei_values e)) f64_epsilon then
    Err (MeInvalidData (lit "zero-length embedding is not searchable")) else Ok tt.

Definition encode_f32 (values : list f32) : list Z := values ≫= λ v, le_bytes 4 (f32_to_bits v).

Fixpoint decode_chunks (n : nat) (bytes : list Z) : list f32 :=
  match n with
  | O => []
  | S n => f32_from_bits (le_value (take 4 bytes)) :: decode_chunks n (drop 4 bytes)
  end.
Definition decode_f32 (bytes : list Z) (dimensions : Z) : result MemoryError (list f32) :=
  if negb (Z.of_nat (length bytes) =? sat_mul64 dimensions 4) then
    Err (MeInvalidData (lit "stored embedding dimensions do not match its byte length"))
  else Ok (decode_chunks (length bytes / 4) bytes).

(** The [CHECK]s of [memory_embeddings]. *)
Definition embedding_row_ok (generation : Z) (row : EmbeddingRow) : bool :=
  (0 <=? generation) && (0 <? sql_length (sql_trim (eb_model_id row)))
  && (0 <? eb_dimensions row) && (eb_dimensions row <=? 65536) && f_lt f_zero (eb_l2_norm row).

Definition put_embedding_tx (e : EmbeddingInput) (now_ms : Z) : tx unit :=
  let row := {| eb_model_id := ei_model_id e;
                eb_dimensions := Z.of_nat (length (ei_values e));
                eb_vector := encode_f32 (ei_values e);
                eb_l2_norm := l2_norm (ei_values e);
                eb_created_at_ms := now_ms |} in
  _ ← constraint (embedding_row_ok (ei_generation e) row) SQLITE_CONSTRAINT_CHECK;
  known ← query (λ d, is_some (db_items d !! ei_item_id e));
  if negb known then fail (MeNotFound (ei_item_id e)) else
  _ ← execute (set_embeddings <[(ei_item_id e, ei_generation e) := row]>);
  execute (set_items (alter (λ row : ItemRow,
    if is_none (it_deleted_at_ms row) then
      {| it_record :=
           let r := it_record row in
           {| me_id := me_id r; me_namespace := me_namespace r; me_scope := me_scope r;
              me_visibility := me_visibility r; me_content := me_content r;
              me_content_sha256 := me_content_sha256 r; me_provenance := me_provenance r;
              me_confidence := me_confidence r; me_importance := me_importance r;
              me_observed_at_ms := me_observed_at_ms r; me_created_at_ms := me_created_at_ms r;
              me_updated_at_ms := me_updated_at_ms r; me_expires_at_ms := me_expires_at_ms r;
              me_embedding_generation := Some (ei_generation e); me_revision := me_revision r |};
         it_deleted_at_ms := None |}
    else row) (ei_item_id e))).

Definition put_embedding (e : EmbeddingInput) (now_ms : Z) (d : MemoryDb)
    : result MemoryError unit * MemoryDb :=
  match embedding_input_validate e with
  | Err e => (Err e, d)
  | Ok _ => run_transaction (put_embedding_tx e now_ms) d
  end.

(** ** Reindexing *)

Record ReindexRequest := { rx_target_generation : Z; rx_model_id : str; rx_batch_size : Z }.
Record ReindexReport := {
  rp_fts_rebuilt : bool;
  rp_embedding_jobs_enqueued : nat;
  rp_target_generation : Z
}.

Definition reindex_checks (r : ReindexRequest) : result MemoryError unit :=
  if (rx_target_generation r <? 0) || is_blank (rx_model_id r)
     || (rx_batch_size r =? 0) || (10000 <? rx_batch_size r) then
    Err (MeInvalidData (lit "invalid reindex generation, model, or batch size")) else Ok tt.

(** The items without an embedding of the target generation, in the order of their
    identifiers; a NULL generation is another one. *)
Definition needs_embedding (target now_ms : Z) (row : ItemRow) : bool :=
  is_none (it_deleted_at_ms row)
  && is_none_or (me_expires_at_ms (it_record row)) (λ expiry, now_ms <? expiry)
  && is_none_or (me_embedding_generation (it_record row)) (λ g, negb (g =? target)).

Definition reindex_job (r : ReindexRequest) (m : MemoryRecord) (now_ms : Z) : OutboxJobInput := {|
  ji_kind := lit "memory.embedding.requested";
  ji_aggregate_id := Some (me_id m);
  ji_payload := json_object (list_to_map [
    (lit "item_id", json_string (me_id m));
    (lit "revision", json_u64 (me_revision m));
    (lit "content_sha256", json_string (me_content_sha256 m));
    (lit "generation", json_u64 (rx_target_generation r));
    (lit "model_id", json_string (rx_model_id r));
    (lit "batch_size", json_u64 (rx_batch_size r))]);
  ji_available_at_ms := now_ms;
  ji_max_attempts := 5;
  ji_dedupe_key := Some (lit "embedding:" ++ me_id m ++ lit ":" ++ dec (me_revision m) ++ lit ":"
                         ++ dec (rx_target_generation r)) |}.

Fixpoint enqueue_reindex (r : ReindexRequest) (now_ms : Z) (ms : list MemoryRecord) : tx unit :=
  match ms with
  | [] => mret tt
  | m :: ms => _ ← enqueue_job_tx (reindex_job r m now_ms) now_ms; enqueue_reindex r now_ms ms
  end.

(** [reindex]; the full-text index is rebuilt by the engine from the same rows. *)
Definition reindex_tx (r : ReindexRequest) (now_ms : Z) : tx ReindexReport :=
  ms ← query (λ d, it_record <$> List.filter (needs_embedding (rx_target_generation r) now_ms)
                     (btree_iter (db_items d)).*2);
  _ ← enqueue_reindex r now_ms ms;
  mret {| rp_fts_rebuilt := true; rp_embedding_jobs_enqueued := length ms;
          rp_target_generation := rx_target_generation r |}.

Definition reindex (r : ReindexRequest) (now_ms : Z) (d : MemoryDb)
    : result MemoryError ReindexReport * MemoryDb :=
  match reindex_checks r with
  | Err e => (Err e, d)
  | Ok _ => run_transaction (reindex_tx r now_ms) d
  end.
End items.

(** * Conversation memory: retrieval over the items
    ([crates/memory/src/retrieval.rs], [crates/memory/src/store.rs])

    Candidates come from the full-text index, from the similarity of embeddings, or from
    the most recent items; the ones the caller may see are ranked by a score that fuses
    both rankings with importance, confidence and age. *)

#[local] Open Scope Z_scope.

(** ** Queries *)

Record RetrievalFilter := {
  rf_namespaces : list MemoryNamespace;
  rf_visibility : list Visibility;
  rf_profile_id : option str;
  rf_game_id : option str;
  rf_character_id : option str;
  rf_session_id : option str;
  rf_save_id : option str;
  rf_include_global_scope : bool
}.

(** [RetrievalFilter::default]. *)
Definition retrieval_filter_default : RetrievalFilter := {|
  rf_namespaces := MemoryNamespace_ALL;
  rf_visibility := [VisPrivate; VisCharacter; VisGame; VisProfile; VisGlobal];
  rf_profile_id := None; rf_game_id := None; rf_character_id := None;
  rf_session_id := None; rf_save_id := None;
  rf_include_global_scope := true |}.

Record RetrievalQuery := {
  rq_text : option str;
  rq_embedding : option (list f32);
  rq_embedding_generation : option Z;
  rq_filter : RetrievalFilter;
  rq_limit : Z;
  rq_candidate_limit : Z;
  rq_now_ms : Z
}.

Definition retrieval_query_validate (q : RetrievalQuery) : result MemoryError unit :=
  if (rq_limit q =? 0) || (1000 <? rq_limit q) then
    Err (MeInvalidData (lit "retrieval limit must be in 1..=1000")) else
  if (rq_candidate_limit q <? rq_limit q) || (50000 <? rq_candidate_limit q) then
    Err (MeInvalidData (lit "candidate_limit must be >= limit and <= 50000")) else
  if bool_decide (rf_namespaces (rq_filter q) = []) || bool_decide (rf_visibility (rq_filter q) = []) then
    Err (MeInvalidData (lit "at least one namespace and visibility are required")) else
  if is_some_and (rq_embedding q) (λ v, bool_decide (length v = 0%nat) || existsb (λ x, negb (is_finite x)) v) then
    Err (MeInvalidData (lit "query embedding must be non-empty and finite")) else
  Ok tt.

(** [scope_matches]. *)
Definition scope_matches (actual wanted : option str) (include_global : bool) : bool :=
  match wanted with
  | None => true
  | Some wanted => bool_decide (actual = Some wanted) || (include_global && is_none actual)
  end.

(** ** Numbers *)

Definition f64_sub (x y : f64) : f64 := SFsub 53 1024 x y.
Definition lit_fraction (num den : Z) : f64 := f64_lit num den.

(** [cosine_similarity]: the three running sums. *)
Definition cosine_step (s : f64 * f64 * f64) (ab : f32 * f32) : f64 * f64 * f64 :=
  let a := f64_of_f32 ab.1 in
  let b := f64_of_f32 ab.2 in
  (f64_add s.1.1 (f64_mul a b), f64_add s.1.2 (f64_mul a a), f64_add s.2 (f64_mul b b)).

Definition cosine_similarity (left right : list f32) : option f64 :=
  if negb (Nat.eqb (length left) (length right)) || bool_decide (length left = 0%nat) then None else
  let s := fold_left cosine_step (zip left right) (f_zero, f_zero, f_zero) in
  let denominator := f64_mul (f64_sqrt s.1.2) (f64_sqrt s.2) in
  if f_lt f64_epsilon denominator then Some (f64_div s.1.1 denominator) else None.

(** ** Ranking *)

Record CandidateRanks := { ck_lexical : option Z; ck_semantic : option Z }.

Definition f64_half : f64 := Eval vm_compute in f64_lit 50 100.
Definition f64_two_fifths : f64 := Eval vm_compute in f64_lit 40 100.
Definition importance_weight : f64 := Eval vm_compute in f64_lit 8 10000.
Definition confidence_weight : f64 := Eval vm_compute in f64_lit 4 10000.
Definition recency_weight : f64 := Eval vm_compute in f64_lit 2 10000.
Definition RRF_K : f64 := Eval vm_compute in f64_of_u64 60.
Definition day_ms : f64 := Eval vm_compute in f64_of_u64 86400000.
Definition thirty : f64 := Eval vm_compute in f64_of_u64 30.

(** [1.0 / (RRF_K + rank as f64 + 1.0)], or nothing. *)
Definition reciprocal_rank (rank : option Z) : f64 :=
  match rank with
  | Some rank => f64_div f64_one (f64_add (f64_add RRF_K (f64_of_u64 rank)) f64_one)
  | None => f_zero
  end.

Section retrieval.
Context `{JsonValueApi} `{!EqDecision json_value} `{DigestApi} `{NanApi}.

Definition candidate_score (record : MemoryRecord) (ranks : CandidateRanks) (now_ms : Z) : f64 :=
  let lexical := reciprocal_rank (ck_lexical ranks) in
  let semantic := reciprocal_rank (ck_semantic ranks) in
  let age_days := f64_div
    (f64_of_u64 (Z.max (sat_i64 (now_ms - me_observed_at_ms record)) 0)) day_ms in
  let recency := f64_div f64_one (f64_add f64_one (f64_div age_days thirty)) in
  f64_add (f64_add (f64_add (f64_add (f64_mul lexical f64_half) (f64_mul semantic f64_two_fifths))
    (f64_mul (me_importance record) importance_weight))
    (f64_mul (me_confidence record) confidence_weight))
    (f64_mul recency recency_weight).

Notation ranked := (MemoryRecord * f64 * CandidateRanks)%type.

Definition rank_order (l r : ranked) : comparison :=
  then_with (f_total_cmp nan_negative r.1.2 l.1.2)
  (then_with (f_total_cmp nan_negative (me_importance r.1.1) (me_importance l.1.1))
  (then_with (Z.compare (me_observed_at_ms r.1.1) (me_observed_at_ms l.1.1))
     (str_cmp (me_id l.1.1) (me_id r.1.1)))).

Definition rank_candidates (candidates : list (MemoryRecord * CandidateRanks)) (now_ms : Z) : list ranked :=
  sort_by rank_order
    ((λ c : MemoryRecord * CandidateRanks, (c.1, candidate_score c.1 c.2 now_ms, c.2)) <$> candidates).

(** [rank_map]: a later entry for the same identifier replaces an earlier one. *)
Definition rank_map (ids : list str) : gmap str Z :=
  foldl (λ m p, <[p.2 := Z.of_nat p.1]> m) ∅ (imap pair ids).

(** ** Candidates *)

Definition item_live (now_ms : Z) (row : ItemRow) : bool :=
  is_none (it_deleted_at_ms row)
  && is_none_or (me_expires_at_ms (it_record row)) (λ expiry, now_ms <? expiry).

(** [fts_query]: the words, quoted, any of them; [None] when there is none. The class of
    letters is that of Unicode: [is_alphanumeric]. *)
Fixpoint split_words (alnum : char → bool) (word s : str) : list str :=
  match s with
  | [] => if str_is_empty word then [] else [rev word]
  | c :: s =>
      if alnum c || (c =? 95) then split_words alnum (c :: word) s
      else (if str_is_empty word then [] else [rev word]) ++ split_words alnum [] s
  end.
Definition fts_query (alnum : char → bool) (text : str) : option str :=
  let quoted (token : str) : str := token ≫= λ c, if c =? 34 then [34; 34] else [c] in
  let tokens := (λ token, [34] ++ quoted token ++ [34; 42]) <$> take 32 (split_words alnum [] text) in
  if bool_decide (length tokens = 0%nat) then None else Some (join_with (lit " OR ") tokens).

(** The identifiers the full-text index yields for a query, best first. *)
Class FtsApi := {
  is_alphanumeric : char → bool;
  fts_match : str → list MemoryRecord → list str
}.
Context `{FtsApi}.

Definition live_records (now_ms : Z) (d : MemoryDb) : list MemoryRecord :=
  it_record <$> List.filter (item_live now_ms) (btree_iter (db_items d)).*2.

Definition lexical_candidates (text : str) (now_ms limit : Z) (d : MemoryDb) : list str :=
  match fts_query is_alphanumeric text with
  | Some q => take (Z.to_nat limit) (fts_match q (live_records now_ms d))
  | None => []
  end.

Definition semantic_order (l r : str * f64) : comparison :=
  then_with (f_total_cmp nan_negative r.2 l.2) (str_cmp l.1 r.1).

(** One row of [memory_embeddings] joined with its item. *)
Definition score_row (q : RetrievalQuery) (vector : list f32) (d : MemoryDb)
    (row : str * Z * EmbeddingRow) : result MemoryError (option (str * f64)) :=
  let '((id, generation), e) := row in
  if is_none_or (rq_embedding_generation q) (Z.eqb generation)
     && is_some_and (db_items d !! id) (item_live (rq_now_ms q)) then
    values ← decode_f32 (eb_vector e) (eb_dimensions e);
    Ok (pair id <$> cosine_similarity vector values)
  else Ok None.

Fixpoint score_rows (q : RetrievalQuery) (vector : list f32) (d : MemoryDb)
    (rows : list (str * Z * EmbeddingRow)) : result MemoryError (list (str * f64)) :=
  match rows with
  | [] => Ok []
  | row :: rows =>
      scored ← score_row q vector d row;
      rest ← score_rows q vector d rows;
      Ok (match scored with Some s => s :: rest | None => rest end)
  end.

Definition semantic_candidates (q : RetrievalQuery) (vector : list f32) (d : MemoryDb)
    : result MemoryError (list str) :=
  scored ← score_rows q vector d (btree_iter (db_embeddings d));
  Ok (take (Z.to_nat (rq_candidate_limit q)) (sort_by semantic_order scored)).*1.

Definition recent_candidates (now_ms limit : Z) (d : MemoryDb) : list str :=
  me_id <$> take (Z.to_nat limit)
    (sort_by (λ l r, then_with (Z.compare (me_observed_at_ms r) (me_observed_at_ms l))
                       (str_cmp (me_id l) (me_id r))) (live_records now_ms d)).

(** [record_matches_filter]. *)
Definition record_matches_filter (r : MemoryRecord) (f : RetrievalFilter) : bool :=
  bool_decide (me_namespace r ∈ rf_namespaces f) && bool_decide (me_visibility r ∈ rf_visibility f)
  && scope_matches (ms_profile_id (me_scope r)) (rf_profile_id f) (rf_include_global_scope f)
  && scope_matches (ms_game_id (me_scope r)) (rf_game_id f) (rf_include_global_scope f)
  && scope_matches (ms_character_id (me_scope r)) (rf_character_id f) (rf_include_global_scope f)
  && scope_matches (ms_session_id (me_scope r)) (rf_session_id f) (rf_include_global_scope f)
  && scope_matches (ms_save_id (me_scope r)) (rf_save_id f) (rf_include_global_scope f).

(** The records the caller may see, of those the candidates name. *)
Definition visible_record (q : RetrievalQuery) (d : MemoryDb) (id : str) : option MemoryRecord :=
  record ← load_record id d;
  if is_some_and (me_expires_at_ms record) (λ expiry, expiry <=? rq_now_ms q)
     || negb (record_matches_filter record (rq_filter q))
  then None else Some record.

Definition visible_records (q : RetrievalQuery) (d : MemoryDb) (ids : gset str) : gmap str MemoryRecord :=
  list_to_map (omap (λ id, pair id <$> visible_record q d id) (elements ids)).

Record SearchHit := {
  sh_record : MemoryRecord;
  sh_score : f64;
  sh_lexical_rank : option Z;
  sh_semantic_rank : option Z
}.

(** [retrieve_on]; the records of a hash map come in any order. *)
Definition retrieve_on `{HashIter} (q : RetrievalQuery) (d : MemoryDb) : result MemoryError (list SearchHit) :=
  let lexical_ids := match rq_text q with
    | Some text => lexical_candidates text (rq_now_ms q) (rq_candidate_limit q) d | None => [] end in
  semantic_ids ← match rq_embedding q with
    | Some vector => semantic_candidates q vector d | None => Ok [] end;
  let candidate_ids : gset str := list_to_set lexical_ids ∪ list_to_set semantic_ids in
  let candidate_ids :=
    if bool_decide (candidate_ids = ∅) && is_none (rq_text q) && is_none (rq_embedding q) then
      candidate_ids ∪ list_to_set (recent_candidates (rq_now_ms q) (rq_candidate_limit q) d)
    else candidate_ids in
  let records := visible_records q d candidate_ids in
  let lexical := rank_map (List.filter (λ id, is_some (records !! id)) lexical_ids) in
  let semantic := rank_map (List.filter (λ id, is_some (records !! id)) semantic_ids) in
  let candidates := (λ r : MemoryRecord,
    (r, {| ck_lexical := lexical !! me_id r; ck_semantic := semantic !! me_id r |})) <$> hm_values records in
  Ok ((λ h : ranked, {| sh_record := h.1.1; sh_score := h.1.2;
                        sh_lexical_rank := ck_lexical h.2; sh_semantic_rank := ck_semantic h.2 |})
      <$> take (Z.to_nat (rq_limit q)) (rank_candidates candidates (rq_now_ms q))).

(** [MemoryStore::retrieve]. *)
Definition retrieve `{HashIter} (q : RetrievalQuery) (d : MemoryDb) : result MemoryError (list SearchHit) :=
  _ ← retrieval_query_validate q;
  retrieve_on q d.
End retrieval.
