(* ===== verification/MemorySpec.v ===== *)
(** * Conversation memory: what the authoritative tables promise

    A commit stores exactly what was delivered and is all or nothing; a retried commit
    changes nothing; context never crosses a scope; erasure removes exactly one scope with
    everything derived from it. *)

From S2P Require Import Prelude Text Bytes Float HostedTypes MemoryTypes MemoryStore MemoryFacts.
From Stdlib Require Import SpecFloat.

#[local] Open Scope Z_scope.

Section spec.
Context `{JsonValueApi} `{!EqDecision json_value} `{DigestApi}.
Implicit Types d : MemoryDb.

(** ** Commits *)

(** What a batch delivers, and what it skips, in order. *)
Definition delivered_row (t : TurnCommitInput) : option DeliveredTurnRecord :=
  match eligible_text (ti_delivery t) (ti_text t) with
  | Ok (Some (text, at_)) => Some (expected_turn t text at_)
  | _ => None
  end.
Definition skipped_row (t : TurnCommitInput) : option SkippedTurn :=
  (λ reason, {| sk_turn_id := ti_turn_id t; sk_reason := reason |}) <$> skipped_reason (ti_delivery t).

Lemma delivers_row t row : delivers t row ↔ delivered_row t = Some row.
Proof.
  unfold delivers, delivered_row. destruct (eligible_text _ _) as [[[text at_]|]|e]; naive_solver.
Qed.

Lemma delivers_not_skipped t row : delivers t row → skipped_row t = None.
Proof.
  intros (text&at_&He&_). unfold skipped_row. apply eligible_reason in He.
  destruct (skipped_reason (ti_delivery t)); [|done]. destruct He as [_ He]. by specialize (He ltac:(done)).
Qed.

Lemma skipped_not_delivered t reason : skipped_reason (ti_delivery t) = Some reason → delivered_row t = None.
Proof. unfold skipped_reason, delivered_row, eligible_text. by destruct (ti_delivery t). Qed.

(** The rows of a table after some turns: the old ones and the delivered ones. *)
Definition turns_after (ts : list TurnCommitInput) d d' : Prop :=
  (∀ row, row ∈ omap delivered_row ts → db_turns d' !! dt_turn_id row = Some row) ∧
  (∀ id row, db_turns d' !! id = Some row →
    db_turns d !! id = Some row ∨ row ∈ omap delivered_row ts).

Lemma commit_turns_exact ts r d r' d' :
  Forall (λ t, turn_validate t = Ok tt) ts → db_ok d →
  commit_turns ts r d = Ok (r', d') →
  mr_stored_turns r' = mr_stored_turns r ++ omap delivered_row ts ∧
  mr_skipped_turns r' = mr_skipped_turns r ++ omap skipped_row ts ∧
  mr_derived_memories r' = mr_derived_memories r ∧
  db_memories d' = db_memories d ∧ db_sources d' = db_sources d ∧
  turns_after ts d d'.
Proof.
  intros Hts. revert r d. induction Hts as [|t ts Ht Hts IH]; intros r d Hok; cbn [commit_turns].
  { intros [-> ->]%tx_ret_Ok. rewrite !app_nil_r. repeat split; [|by left].
    intros row Hrow. by apply not_elem_of_nil in Hrow. }
  rewrite tx_bind_Ok. intros (r1&d1&H1%commit_one_turn_effect&Hrest).
  destruct (turn_effect_ok _ _ _ _ _ Ht H1 Hok) as [Hok1 Hg].
  pose proof (commit_turns_ok _ _ _ _ _ Hts Hok1 Hrest) as [_ Hg2].
  destruct (IH _ _ Hok1 Hrest) as (Hst&Hsk&Hde&Hm&Hs&Hin&Hout). clear IH Hrest.
  unfold turns_after.
  change (omap delivered_row (t :: ts))
    with (match delivered_row t with Some y => y :: omap delivered_row ts | None => omap delivered_row ts end).
  change (omap skipped_row (t :: ts))
    with (match skipped_row t with Some y => y :: omap skipped_row ts | None => omap skipped_row ts end).
  destruct H1 as [reason Hr|row Hd Hrow|row Hd Hnone Hrow].
  - rewrite (skipped_not_delivered _ _ Hr). unfold skipped_row at 1. rewrite Hr. cbn in Hst, Hsk, Hde |- *.
    rewrite Hsk, <-app_assoc. done.
  - pose proof (delivers_not_skipped _ _ Hd) as ->. pose proof (delivers_id _ _ Hd) as Hid.
    apply delivers_row in Hd as Hd'. rewrite Hd'. cbn in Hst, Hsk, Hde |- *. rewrite Hst, <-app_assoc.
    do 5 (split; [done|]). split.
    + intros row' [->|?]%elem_of_cons; [|by apply Hin]. rewrite Hid.
      by apply (lookup_weaken _ _ _ _ Hrow), (gr_turns _ _ Hg2).
    + intros id row' [?|?]%Hout; [by left|]. right. by right.
  - pose proof (delivers_not_skipped _ _ Hd) as ->. pose proof (delivers_id _ _ Hd) as Hid.
    apply delivers_row in Hd as Hd'. rewrite Hd'. cbn in Hst, Hsk, Hde |- *. rewrite Hst, <-app_assoc.
    do 3 (split; [done|]). db_simpl. do 2 (split; [done|]). split.
    + intros row' [->|?]%elem_of_cons; [|by apply Hin]. rewrite Hid.
      eapply lookup_weaken; [|apply (gr_turns _ _ Hg2)]. db_simpl. apply lookup_insert_eq.
    + intros id row' [Hx|?]%Hout; [|right; by right].
      apply lookup_insert_Some in Hx as [[_ <-]|[_ ?]]; [right; by left|by left].
Qed.

Lemma commit_memories_turns draw ms r d r' d' :
  Forall (λ m, derived_validate m = Ok tt) ms → db_ok d →
  commit_memories draw ms r d = Ok (r', d') →
  db_turns d' = db_turns d ∧ mr_stored_turns r' = mr_stored_turns r ∧
  mr_skipped_turns r' = mr_skipped_turns r.
Proof.
  intros Hms. revert draw r d. induction Hms as [|m ms Hm _ IH]; intros draw r d Hok; cbn [commit_memories].
  { by intros [-> ->]%tx_ret_Ok. }
  rewrite tx_bind_Ok. intros (rec&d1&H1&Hrest).
  apply insert_derived_effect in H1; [|done]. destruct (memory_effect_ok _ _ _ _ _ _ Hm H1 Hok) as [Hok1 _].
  destruct (IH _ _ _ Hok1 Hrest) as (Ht&Hst&Hsk). rewrite Ht, Hst, Hsk. by destruct H1.
Qed.

(** *** Derived memories *)

(** A record says what its input says; numbers are compared as the code compares them. *)
Record memory_of (m : DerivedMemoryInput) (r : DerivedMemoryRecord) : Prop := {
  mf_scope : dr_scope r = di_scope m;
  mf_class : dr_class r = di_class m;
  mf_spoilers : dr_spoiler_scope r = di_spoiler_scope m;
  mf_content : dr_content r = trim (di_content m);
  mf_provenance : dr_provenance r = di_provenance m;
  mf_confidence : SFeqb (dr_confidence r) (di_confidence m) = true;
  mf_importance : SFeqb (dr_importance r) (di_importance m) = true;
  mf_observed : dr_observed_at_ms r = di_observed_at_ms m;
  mf_expires : dr_expires_at_ms r = di_expires_at_ms m;
  mf_sources : dr_source_turn_ids r = di_source_turn_ids m;
  mf_generator : dr_generator r = di_generator m
}.

Lemma same_memory_of m r : same_memory r m = true → memory_of m r.
Proof.
  unfold same_memory. rewrite !andb_true_iff, !bool_decide_eq_true. intros. destruct_and!. by split.
Qed.

(** The same user, profile, game, character, encounter and save. *)
Definition same_authority (a b : AuthorityScope) : Prop :=
  sc_user_id a = sc_user_id b ∧ sc_profile_id a = sc_profile_id b ∧ sc_game_id a = sc_game_id b ∧
  sc_character_id a = sc_character_id b ∧ sc_encounter_id a = sc_encounter_id b ∧
  sc_save_id a = sc_save_id b.

Lemma compatible_authority a b : source_scope_compatible a b = true ↔ same_authority a b.
Proof.
  unfold source_scope_compatible, same_authority. rewrite !andb_true_iff, !bool_decide_eq_true. tauto.
Qed.

(** Each derived memory of a batch has its record, under the identifier it asks for or
    the one that is drawn; the record loads from the database, and its sources are stored
    turns of the memory's own authority. *)
Definition derived_stored (draw : nat → str * Z) d (ms : list DerivedMemoryInput)
    (rs : list DerivedMemoryRecord) : Prop :=
  length rs = length ms ∧
  ∀ i m r, ms !! i = Some m → rs !! i = Some r →
    memory_of m r ∧ dr_id r = default (draw i).1 (di_id m) ∧
    load_derived_memory (dr_id r) d = Some r ∧
    Forall (λ turn, ∃ t, db_turns d !! turn = Some t ∧ same_authority (di_scope m) (dt_scope t))
      (di_source_turn_ids m).

(** And no other memory came with them. *)
Definition memories_after d d' (rs : list DerivedMemoryRecord) : Prop :=
  (∀ id row, db_memories d' !! id = Some row →
    db_memories d !! id = Some row ∨ ∃ r, r ∈ rs ∧ dr_id r = id) ∧
  (∀ id turn i, db_sources d' !! (id, turn) = Some i →
    db_sources d !! (id, turn) = Some i ∨ ∃ r, r ∈ rs ∧ dr_id r = id).

Lemma load_id d id r : db_ok d → load_derived_memory id d = Some r → dr_id r = id.
Proof.
  intros Hok. unfold load_derived_memory. intros (m&Hm&->)%fmap_Some. cbn.
  apply (mo_id _ _ (ok_memories _ Hok _ _ Hm)).
Qed.

Lemma memory_effect_after uuid now m d r d' :
  db_ok d → memory_effect uuid now m d r d' → memories_after d d' [r].
Proof.
  intros Hok [|id row Hnone Hrow Hd Hsrc]; [split; by left|]. split; db_simpl.
  - intros id' row' [[<- <-]|[_ ?]]%lookup_insert_Some; [|by left]. right.
    eexists. split; [by left|done].
  - intros id' turn i. rewrite with_sources_lookup by done. intros [(->&_)|[_ ?]]; [|by left].
    right. eexists. split; [by left|done].
Qed.

Lemma memories_after_trans d1 d2 d3 rs rs' :
  memories_after d1 d2 rs → memories_after d2 d3 rs' → memories_after d1 d3 (rs ++ rs').
Proof.
  intros [H1 H2] [H3 H4]. split.
  - intros id row [[?|(r&?&?)]%H1|(r&?&?)]%H3; [by left|..]; right; exists r; rewrite elem_of_app; tauto.
  - intros id turn i [[?|(r&?&?)]%H2|(r&?&?)]%H4; [by left|..]; right; exists r; rewrite elem_of_app; tauto.
Qed.

Lemma commit_memories_stored draw ms r d r' d' :
  Forall (λ m, derived_validate m = Ok tt) ms → db_ok d →
  commit_memories draw ms r d = Ok (r', d') →
  stable d d' ∧ ∃ rs, mr_derived_memories r' = mr_derived_memories r ++ rs ∧
    derived_stored draw d' ms rs ∧ memories_after d d' rs.
Proof.
  intros Hms. revert draw r d. induction Hms as [|m ms Hm _ IH]; intros draw r d Hok;
    cbn [commit_memories].
  { intros [-> ->]%tx_ret_Ok. split; [done|]. exists []. rewrite app_nil_r. split; [done|].
    split; [by split|]. split; by left. }
  rewrite tx_bind_Ok. intros (rec&d1&H1&Hrest).
  pose proof (insert_derived_committed _ _ _ _ _ _ Hm Hok H1) as Hc.
  apply insert_derived_effect in H1; [|done].
  pose proof (memory_effect_stable _ _ _ _ _ _ Hm Hok H1) as Hst.
  destruct (memory_effect_ok _ _ _ _ _ _ Hm H1 Hok) as [Hok1 _].
  destruct (IH _ _ _ Hok1 Hrest) as (Hst'&rs&Hrs&[Hlen Hall]&Hafter). split; [by etransitivity|].
  exists (rec :: rs). split; [rewrite Hrs; cbn; by rewrite <-app_assoc|]. split.
  - split; [cbn; by rewrite Hlen|]. intros [|i] m' r''; cbn.
    + intros [= <-] [= <-]. pose proof (committed_stable _ _ _ _ _ Hst' Hc) as (Hl&Hs&Hsrc).
      assert (dr_id rec = memory_id (draw 0%nat).1 m) as Hid.
      { destruct Hc as (Hl1&_). by eapply load_id. }
      split; [by apply same_memory_of|]. split; [exact Hid|]. split; [by rewrite Hid|].
      eapply Forall_impl; [exact Hsrc|]. intros turn (t&?&?%compatible_authority). by exists t.
    + intros Hi Hr. by apply (Hall i).
  - change (rec :: rs) with ([rec] ++ rs). eapply memories_after_trans; [|exact Hafter].
    by eapply memory_effect_after.
Qed.

(** What is stored of a turn: all of its text, or a proper prefix that ends where the
    delivery did. *)
Definition delivered_text_of (t : TurnCommitInput) (row : DeliveredTurnRecord) : Prop :=
  (ti_delivery t = DdDelivered (dt_delivered_at_ms row) ∧ ti_text t = dt_delivered_text row) ∨
  (ti_delivery t = DdPartiallyDelivered (str_len (dt_delivered_text row)) (dt_delivered_at_ms row) ∧
   dt_delivered_text row ≠ [] ∧ ∃ rest, rest ≠ [] ∧ ti_text t = dt_delivered_text row ++ rest).

Lemma eligible_delivered t text at_ :
  eligible_text (ti_delivery t) (ti_text t) = Ok (Some (text, at_)) →
  delivered_text_of t (expected_turn t text at_).
Proof.
  unfold eligible_text, delivered_text_of. cbn. destruct (ti_delivery t) as [|?|n ?| |]; try done.
  - intros [= <- <-]. by left.
  - destruct (_ || _) eqn:Hb; [done|]. unfold slice_to.
    destruct (split_at_byte n (ti_text t)) as [[a b]|] eqn:Hs; [|done]. intros [= <- <-]. right.
    apply split_at_byte_Some in Hs as [Heq ->]. rewrite Heq, str_len_app in Hb.
    apply orb_false_iff in Hb as [Ha%Z.eqb_neq Hlen%Z.leb_gt]. split; [done|]. split.
    + by intros ->.
    + exists b. split; [|done]. intros ->. cbn in Hlen. lia.
Qed.

(** C26: A batch is all or nothing. When it succeeds, the turns reported and stored are
    exactly what was delivered of each turn, in order - the whole text, or the prefix of it
    that was really spoken; queued, cancelled and failed turns are reported as skipped and
    never stored; every derived memory is stored and reported as its input says, each with
    its sources, which are stored turns of its own user, game, character and save; no other
    row comes with them and nothing that was stored before is changed. When it fails,
    nothing is. *)
Theorem commit_stores_what_was_delivered draw b d r d' :
  db_ok d → commit_batch draw b d = (r, d') →
  match r with
  | Err _ => d' = d
  | Ok report =>
      mr_stored_turns report = omap delivered_row (mb_turns b) ∧
      mr_skipped_turns report = omap skipped_row (mb_turns b) ∧
      derived_stored draw d' (mb_derived b) (mr_derived_memories report) ∧
      turns_after (mb_turns b) d d' ∧ memories_after d d' (mr_derived_memories report) ∧
      grows d d' ∧ db_ok d' ∧
      Forall (λ row, ∃ t, t ∈ mb_turns b ∧ ti_turn_id t = dt_turn_id row ∧
        delivered_text_of t row) (mr_stored_turns report)
  end.
Proof.
  intros Hok Hc. destruct (commit_batch_keeps _ _ _ _ _ Hok Hc) as [Hok' Hg].
  unfold commit_batch in Hc. destruct (commit_batch_checks b) as [[]|e] eqn:Hv; [|by injection Hc as <- <-].
  apply batch_checks_Ok in Hv as [Ht Hm]. unfold run_transaction, commit_authoritative_batch in Hc.
  destruct ((commit_turns _ _ ≫= _) d) as [[r' d1]|e] eqn:Hrun; injection Hc as <- <-; [|done].
  apply tx_bind_Ok in Hrun as (r1&d2&H1&H2).
  assert (Forall (λ t, turn_validate t = Ok tt) (mb_turns b)) as Hts
    by (eapply Forall_impl; [exact Ht|naive_solver]).
  destruct (commit_turns_ok _ _ _ _ _ Hts Hok H1) as [Hok1 _].
  destruct (commit_turns_exact _ _ _ _ _ Hts Hok H1) as (Hst&Hsk&Hde&Hme&Hso&Hin&Hout).
  destruct (commit_memories_turns _ _ _ _ _ _ Hm Hok1 H2) as (Htu&Hst2&Hsk2).
  destruct (commit_memories_stored _ _ _ _ _ _ Hm Hok1 H2) as (_&rs&Hrs&Hall&Hafter).
  rewrite Hst2, Hsk2, Hrs, Hde. cbn [mr_derived_memories report_empty app].
  split; [done|]. split; [done|]. split; [done|]. split.
  { unfold turns_after. rewrite Htu. done. }
  split; [unfold memories_after in *; by rewrite <-Hme, <-Hso|].
  split; [done|]. split; [done|]. rewrite Hst. cbn. apply Forall_forall.
  intros row (t&Hin_t&Hrow)%list_elem_of_omap. apply delivers_row in Hrow as (text&at_&He&->).
  exists t. split; [done|]. split; [done|]. by apply eligible_delivered.
Qed.

(** *** Retries *)

Lemma report_eta r : {| mr_stored_turns := mr_stored_turns r; mr_skipped_turns := mr_skipped_turns r;
  mr_derived_memories := mr_derived_memories r |} = r.
Proof. by destruct r. Qed.

Lemma commit_one_turn_again t r d :
  is_ok (eligible_text (ti_delivery t) (ti_text t)) = true →
  (∀ row, delivered_row t = Some row → db_turns d !! dt_turn_id row = Some row) →
  ∃ r', commit_one_turn t r d = Ok (r', d).
Proof.
  intros He Hrows. unfold commit_one_turn. destruct (eligible_text _ _) as [o|e] eqn:Ho; [|done].
  apply eligible_reason in Ho as Hreason. unfold delivered_row in Hrows. rewrite Ho in Hrows.
  cbn [lift mbind tx_bind]. unfold mbind, tx_bind. cbn.
  destruct o as [[text at_]|].
  - specialize (Hrows _ eq_refl). cbn in Hrows. unfold load_delivered_turn. rewrite Hrows.
    rewrite bool_decide_eq_false_2 by naive_solver. by eexists.
  - destruct Hreason as [Hr _]. destruct (Hr eq_refl) as [reason ->]. by eexists.
Qed.

Lemma commit_turns_again ts r d :
  Forall (λ t, is_ok (eligible_text (ti_delivery t) (ti_text t)) = true) ts →
  (∀ row, row ∈ omap delivered_row ts → db_turns d !! dt_turn_id row = Some row) →
  ∃ r', commit_turns ts r d = Ok (r', d).
Proof.
  intros Hts. revert r. induction Hts as [|t ts Ht _ IH]; intros r Hrows; cbn [commit_turns]; [by eexists|].
  destruct (commit_one_turn_again t r d Ht) as [r1 H1].
  { intros row Hrow. apply Hrows. apply list_elem_of_omap. exists t. split; [by left|done]. }
  destruct (IH r1) as [r' H']; [|exists r'; by rewrite tx_bind_Ok; eauto].
  intros row Hrow%list_elem_of_omap. destruct Hrow as (u&?&?). apply Hrows, list_elem_of_omap.
  exists u. split; [by right|done].
Qed.

(** The records of a batch, as they load afterwards, whatever identifiers are drawn. *)
Definition all_committed d (ms : list DerivedMemoryInput) (rs : list DerivedMemoryRecord) : Prop :=
  Forall2 (λ m r, ∀ uuid, committed d m uuid r) ms rs.

Lemma commit_memories_records draw ms r d r' d' :
  Forall (λ m, derived_validate m = Ok tt ∧ is_Some (di_id m)) ms → db_ok d →
  commit_memories draw ms r d = Ok (r', d') →
  stable d d' ∧ ∃ rs, mr_derived_memories r' = mr_derived_memories r ++ rs ∧ all_committed d' ms rs.
Proof.
  intros Hms. revert draw r d. induction Hms as [|m ms [Hm [id Hid]] _ IH]; intros draw r d Hok;
    cbn [commit_memories].
  { intros [-> ->]%tx_ret_Ok. split; [done|]. exists []. split; [by rewrite app_nil_r|constructor]. }
  rewrite tx_bind_Ok. intros (rec&d1&H1&Hrest).
  pose proof (insert_derived_committed _ _ _ _ _ _ Hm Hok H1) as Hc.
  apply insert_derived_effect in H1; [|done].
  pose proof (memory_effect_stable _ _ _ _ _ _ Hm Hok H1) as Hst.
  destruct (memory_effect_ok _ _ _ _ _ _ Hm H1 Hok) as [Hok1 _].
  destruct (IH _ _ _ Hok1 Hrest) as (Hst'&rs&Hrs&Hall). split; [by etransitivity|].
  exists (rec :: rs). split; [rewrite Hrs; cbn; by rewrite <-app_assoc|]. constructor; [|done].
  intros uuid. apply (committed_stable d1); [done|]. unfold committed, memory_id in *.
  by rewrite Hid in *.
Qed.

Lemma commit_memories_again draw ms rs r d :
  all_committed d ms rs →
  commit_memories draw ms r d = Ok ({| mr_stored_turns := mr_stored_turns r;
    mr_skipped_turns := mr_skipped_turns r; mr_derived_memories := mr_derived_memories r ++ rs |}, d).
Proof.
  intros Hall. revert draw r. induction Hall as [|m rec ms rs Hm _ IH]; intros draw r; cbn [commit_memories].
  { by rewrite app_nil_r, report_eta. }
  destruct (Hm (draw 0%nat).1) as (Hl&Hs&Hsrc). apply tx_bind_Ok. exists rec, d. split.
  - unfold insert_derived_memory. apply tx_unit_Ok. exists d. split; [by apply check_sources_Ok|].
    rewrite query_bind_Ok. fold (memory_id (draw 0%nat).1 m). by rewrite Hl, Hs.
  - rewrite IH. cbn. by rewrite <-app_assoc.
Qed.

(** A commit whose outcome was lost can be sent again: when every derived memory has an
    identifier of its own, repeating a batch that succeeded succeeds with the same report
    and leaves the database as it is. *)
Theorem commit_again_is_harmless draw draw' b d r d' :
  db_ok d → Forall (λ m, is_Some (di_id m)) (mb_derived b) →
  commit_batch draw b d = (Ok r, d') →
  commit_batch draw' b d' = (Ok r, d').
Proof.
  intros Hok Hids Hc. pose proof (commit_batch_keeps _ _ _ _ _ Hok Hc) as [Hok' _].
  unfold commit_batch in *. destruct (commit_batch_checks b) as [[]|e] eqn:Hv; [|done].
  apply batch_checks_Ok in Hv as [Ht Hm]. unfold run_transaction, commit_authoritative_batch in *.
  destruct ((commit_turns _ _ ≫= _) d) as [[r' d1]|e] eqn:Hrun; [|done]. injection Hc as -> ->.
  apply tx_bind_Ok in Hrun as (r1&d2&H1&H2).
  assert (Forall (λ t, turn_validate t = Ok tt) (mb_turns b)) as Hts
    by (eapply Forall_impl; [exact Ht|naive_solver]).
  destruct (commit_turns_ok _ _ _ _ _ Hts Hok H1) as [Hok1 _].
  destruct (commit_turns_exact _ _ _ _ _ Hts Hok H1) as (Hst&Hsk&Hde&_&_&Hin&_).
  destruct (commit_memories_turns _ _ _ _ _ _ Hm Hok1 H2) as (Htu&Hst2&Hsk2).
  destruct (commit_memories_records _ _ _ _ _ _ ltac:(by apply Forall_and) Hok1 H2)
    as (_&rs&Hrs&Hall).
  destruct (commit_turns_again (mb_turns b) report_empty d') as [r2 H3].
  { eapply Forall_impl; [exact Hts|]. intros t Hv. unfold turn_validate in Hv. read_checks Hv.
    destruct Hv as (_&_&_&_&_&Hv). by destruct (eligible_text _ _). }
  { intros row Hrow. rewrite Htu. by apply Hin. }
  destruct (commit_turns_exact _ _ _ _ _ Hts Hok' H3) as (Hst3&Hsk3&Hde3&_).
  assert ((report ← commit_turns (mb_turns b) report_empty;
           commit_memories draw' (mb_derived b) report) d' = Ok (r, d')) as Hgoal; [|by rewrite Hgoal].
  apply tx_bind_Ok. exists r2, d'. split; [done|]. rewrite (commit_memories_again _ _ _ _ _ Hall).
  do 2 f_equal. rewrite <-(report_eta r), Hst2, Hsk2, Hrs, Hst, Hsk, Hde, Hst3, Hsk3, Hde3. done.
Qed.

(** ** Erasure *)

(** A scope covers the rows of its user, profile, game and character; an encounter, a
    session or a save narrows it when it names one. Items have no user and no encounter. *)
Definition narrowed_to (wanted actual : option str) : Prop := ∀ x, wanted = Some x → actual = Some x.
Definition scope_covers (scope row : AuthorityScope) : Prop :=
  sc_user_id row = sc_user_id scope ∧ sc_profile_id row = sc_profile_id scope ∧
  sc_game_id row = sc_game_id scope ∧ sc_character_id row = sc_character_id scope ∧
  narrowed_to (sc_encounter_id scope) (sc_encounter_id row) ∧
  narrowed_to (sc_session_id scope) (sc_session_id row) ∧
  narrowed_to (sc_save_id scope) (sc_save_id row).
Definition scope_covers_item (scope : AuthorityScope) (row : MemoryScope) : Prop :=
  ms_profile_id row = Some (sc_profile_id scope) ∧ ms_game_id row = Some (sc_game_id scope) ∧
  ms_character_id row = sc_character_id scope ∧
  narrowed_to (sc_session_id scope) (ms_session_id row) ∧ narrowed_to (sc_save_id scope) (ms_save_id row).

Lemma null_or_is_spec wanted actual : null_or_is wanted actual = true ↔ narrowed_to wanted actual.
Proof.
  unfold null_or_is, narrowed_to. destruct wanted as [x|]; cbn; [|naive_solver].
  rewrite bool_decide_eq_true. naive_solver.
Qed.

Lemma erased_scope_spec scope row : erased_scope scope row = true ↔ scope_covers scope row.
Proof.
  unfold erased_scope, scope_covers. rewrite !andb_true_iff, !bool_decide_eq_true, !null_or_is_spec. tauto.
Qed.

Lemma erased_item_spec scope row : erased_item scope row = true ↔ scope_covers_item scope row.
Proof.
  unfold erased_item, scope_covers_item.
  rewrite !andb_true_iff, !bool_decide_eq_true, !null_or_is_spec. tauto.
Qed.

(** A turn is erased with its scope; a memory with its scope, or with a turn it was derived
    from. *)
Definition turn_erased scope d (id : str) : Prop :=
  ∃ t, db_turns d !! id = Some t ∧ scope_covers scope (dt_scope t).
Definition memory_erased scope d (id : str) : Prop :=
  (∃ m, db_memories d !! id = Some m ∧ scope_covers scope (dr_scope m)) ∨
  (∃ turn i, db_sources d !! (id, turn) = Some i ∧ turn_erased scope d turn).
Definition item_erased scope d (id : str) : Prop :=
  ∃ row, db_items d !! id = Some row ∧ scope_covers_item scope (me_scope (it_record row)).
Definition job_erased scope d (n : Z) : Prop :=
  ∃ row id, db_outbox d !! n = Some row ∧ jb_aggregate_id (jr_job row) = Some id ∧
    (turn_erased scope d id ∨ memory_erased scope d id ∨ item_erased scope d id).

Lemma erase_turn_ids_elem scope d id : id ∈ erase_turn_ids scope d ↔ turn_erased scope d id.
Proof.
  unfold erase_turn_ids, turn_erased. rewrite elem_of_dom. unfold is_Some.
  setoid_rewrite map_lookup_filter_Some. cbn [snd]. by setoid_rewrite erased_scope_spec.
Qed.

Lemma erase_legacy_ids_elem scope d id : id ∈ erase_legacy_ids scope d ↔ item_erased scope d id.
Proof.
  unfold erase_legacy_ids, item_erased. rewrite elem_of_dom. unfold is_Some.
  setoid_rewrite map_lookup_filter_Some. cbn [snd]. by setoid_rewrite erased_item_spec.
Qed.

Lemma erase_memory_ids_elem scope d id :
  id ∈ erase_memory_ids scope (erase_turn_ids scope d) d ↔ memory_erased scope d id.
Proof.
  unfold erase_memory_ids, memory_erased. rewrite elem_of_union, elem_of_dom, elem_of_map.
  unfold is_Some. setoid_rewrite elem_of_dom. unfold is_Some. setoid_rewrite map_lookup_filter_Some.
  setoid_rewrite erase_turn_ids_elem. cbn [snd]. setoid_rewrite erased_scope_spec. split.
  - intros [(m&?&?)|([id' turn]&->&i&?&?)]; [by left; exists m|right; by exists turn, i].
  - intros [(m&?&?)|(turn&i&?&?)]; [left; by exists m|right]. exists (id, turn). split; [done|]. by exists i.
Qed.

(** What is left: exactly what was not erased; no job speaks of anything erased. *)
Record erased_from scope d d' : Prop := {
  er_turns : ∀ id t, db_turns d' !! id = Some t ↔ db_turns d !! id = Some t ∧ ¬ turn_erased scope d id;
  er_memories : ∀ id m, db_memories d' !! id = Some m ↔
    db_memories d !! id = Some m ∧ ¬ memory_erased scope d id;
  er_sources : ∀ id turn i, db_sources d' !! (id, turn) = Some i ↔
    db_sources d !! (id, turn) = Some i ∧ ¬ memory_erased scope d id;
  er_items : ∀ id row, db_items d' !! id = Some row ↔ db_items d !! id = Some row ∧ ¬ item_erased scope d id;
  er_embeddings : ∀ id g e, db_embeddings d' !! (id, g) = Some e ↔
    db_embeddings d !! (id, g) = Some e ∧ ¬ item_erased scope d id;
  er_jobs : ∀ n j, db_outbox d' !! n = Some j ↔ db_outbox d !! n = Some j ∧
    ∀ id, jb_aggregate_id (jr_job j) = Some id →
      ¬ turn_erased scope d id ∧ ¬ memory_erased scope d id ∧ ¬ item_erased scope d id
}.

Lemma delete_sources_run memories d :
  delete_sources true memories d = Ok (tt, set_sources (filter (λ kv, kv.1.1 ∉ memories)) d).
Proof. done. Qed.

Lemma empty_filter `{Countable K} {A} (P : K * A → Prop) `{∀ x, Decision (P x)} (m : gmap K A) :
  (∀ k x, m !! k = Some x → ¬ P (k, x)) → filter P m = ∅.
Proof.
  intros Hm. apply map_empty. intros k. apply map_lookup_filter_None. right. intros x Hx. by apply Hm.
Qed.

Lemma delete_memories_run memories d :
  (∀ id turn i, db_sources d !! (id, turn) = Some i → id ∉ memories) →
  delete_memories true memories d = Ok (tt, set_memories (filter (λ kv, kv.1 ∉ memories)) d).
Proof.
  intros Hs. unfold delete_memories, mbind, tx_bind, query, constraint. cbn -[filter].
  rewrite bool_decide_eq_true_2; [done|]. apply empty_filter.
  intros [id turn] i Hi%Hs. cbn. set_solver.
Qed.

Lemma delete_turns_run turns d :
  (∀ id turn i, db_sources d !! (id, turn) = Some i → turn ∉ turns) →
  delete_turns true turns d = Ok (tt, set_turns (filter (λ kv, kv.1 ∉ turns)) d).
Proof.
  intros Hs. unfold delete_turns, mbind, tx_bind, query, constraint. cbn -[filter].
  rewrite bool_decide_eq_true_2; [done|]. apply empty_filter.
  intros [id turn] i Hi%Hs. cbn. set_solver.
Qed.

(** The database after the deletions. *)
Definition after_erasure scope d : MemoryDb :=
  let turns := erase_turn_ids scope d in
  let memories := erase_memory_ids scope turns d in
  let legacy := erase_legacy_ids scope d in
  set_embeddings (filter (λ kv, kv.1.1 ∉ legacy))
  (set_items (filter (λ kv, kv.1 ∉ legacy))
  (set_turns (filter (λ kv, kv.1 ∉ turns))
  (set_memories (filter (λ kv, kv.1 ∉ memories))
  (set_sources (filter (λ kv, kv.1.1 ∉ memories))
  (set_outbox (filter (λ kv, job_mentions (turns ∪ memories ∪ legacy) kv.2 = false)) d))))).

Lemma after_erasure_from scope d : erased_from scope d (after_erasure scope d).
Proof.
  unfold after_erasure. split; db_simpl; intros *; rewrite map_lookup_filter_Some; cbn [fst snd].
  - by rewrite erase_turn_ids_elem.
  - by rewrite erase_memory_ids_elem.
  - by rewrite erase_memory_ids_elem.
  - by rewrite erase_legacy_ids_elem.
  - by rewrite erase_legacy_ids_elem.
  - apply and_iff_compat_l. unfold job_mentions. destruct (jb_aggregate_id _) as [id|]; cbn; [|done].
    rewrite bool_decide_eq_false, !not_elem_of_union, erase_turn_ids_elem, erase_memory_ids_elem,
      erase_legacy_ids_elem. split; [by intros ((?&?)&?) ? [= <-]|].
    intros Hx. destruct (Hx id eq_refl) as (?&?&?). tauto.
Qed.

Lemma turn_erased_dec scope d id : turn_erased scope d id ∨ ¬ turn_erased scope d id.
Proof. rewrite <-erase_turn_ids_elem. destruct (decide (id ∈ erase_turn_ids scope d)); [by left|by right]. Qed.

(** A source of a memory that stays is a turn that stays. *)
Lemma kept_source scope d id turn i :
  db_sources d !! (id, turn) = Some i → ¬ memory_erased scope d id → ¬ turn_erased scope d turn.
Proof. intros Hs Hm Ht. apply Hm. right. by exists turn, i. Qed.

Lemma erased_from_ok scope d d' : db_ok d → erased_from scope d d' → db_ok d'.
Proof.
  intros Hok He. split.
  - intros id t Ht. apply (er_turns _ _ _ He) in Ht as [Ht _]. by apply (ok_turns _ Hok).
  - intros id m Hm. apply (er_memories _ _ _ He) in Hm as [Hm _]. by apply (ok_memories _ Hok).
  - intros id turn i Hs. apply (er_sources _ _ _ He) in Hs as [Hs Hkept].
    destruct (ok_sources _ Hok _ _ _ Hs) as (m&t&Hm&Ht&Hc). exists m, t.
    split; [by apply (er_memories _ _ _ He)|]. split; [|done]. apply (er_turns _ _ _ He).
    split; [done|]. by eapply kept_source.
  - intros id t1 t2 i Hs1 Hs2. apply (er_sources _ _ _ He) in Hs1 as [Hs1 _], Hs2 as [Hs2 _].
    by eapply (ok_positions _ Hok).
  - intros id m Hm Hc. apply (er_memories _ _ _ He) in Hm as [Hm Hkept].
    destruct (ok_summaries _ Hok _ _ Hm Hc) as (turn&i&Hs). exists turn, i.
    by apply (er_sources _ _ _ He).
Qed.

(** A number counts the keys with a property. *)
Definition counts {K} (n : nat) (P : K → Prop) : Prop :=
  ∃ keys : list K, NoDup keys ∧ (∀ k, k ∈ keys ↔ P k) ∧ length keys = n.

Lemma counts_set `{Countable K} (X : gset K) (P : K → Prop) :
  (∀ k, k ∈ X ↔ P k) → counts (size X) P.
Proof.
  intros HP. exists (elements X). split; [apply NoDup_elements|]. split; [|done].
  intros k. by rewrite elem_of_elements.
Qed.

Lemma jobs_counted scope d :
  counts (size (filter (λ kv : Z * JobRow, job_mentions (erase_turn_ids scope d
    ∪ erase_memory_ids scope (erase_turn_ids scope d) d ∪ erase_legacy_ids scope d) kv.2 = true)
    (db_outbox d))) (job_erased scope d).
Proof.
  rewrite <-size_dom. apply counts_set. intros n. rewrite elem_of_dom. unfold is_Some, job_erased.
  setoid_rewrite map_lookup_filter_Some. cbn [snd]. unfold job_mentions. split.
  - intros (row&Hrow&Hm). destruct (jb_aggregate_id (jr_job row)) as [id|] eqn:Hid; [|done].
    cbn in Hm. apply bool_decide_eq_true in Hm. exists row, id. split; [done|]. split; [done|].
    rewrite !elem_of_union, erase_turn_ids_elem, erase_memory_ids_elem, erase_legacy_ids_elem in Hm. tauto.
  - intros (row&id&Hrow&Hid&Hm). exists row. split; [done|]. rewrite Hid. cbn. apply bool_decide_eq_true.
    rewrite !elem_of_union, erase_turn_ids_elem, erase_memory_ids_elem, erase_legacy_ids_elem. tauto.
Qed.

(** What an audit says of an erasure: what was asked, when, and how much went. *)
Record audit_of (scope_sha256 erasure_id : str) (request : CharacterMemoryErasureRequest) d
    (audit : MemoryErasureAudit) : Prop := {
  ao_id : au_erasure_id audit = erasure_id;
  ao_scope : au_scope_sha256 audit = scope_sha256;
  ao_at : au_erased_at_ms audit = er_erased_at_ms request;
  ao_turns : counts (au_delivered_turns_deleted audit) (turn_erased (er_scope request) d);
  ao_memories : counts (au_structured_memories_deleted audit) (memory_erased (er_scope request) d);
  ao_items : counts (au_legacy_items_deleted audit) (item_erased (er_scope request) d);
  ao_jobs : counts (au_outbox_jobs_deleted audit) (job_erased (er_scope request) d)
}.

Lemma erase_transaction_run scope_sha256 erasure_id request d :
  sql_length erasure_id = 36 → sql_length scope_sha256 = 64 → 0 ≤ er_erased_at_ms request →
  db_audit d !! erasure_id = None →
  ∃ audit, erase_transaction true scope_sha256 erasure_id request d
    = Ok (audit, set_audit <[erasure_id := audit]> (after_erasure (er_scope request) d)) ∧
  audit_of scope_sha256 erasure_id request d audit.
Proof.
  intros Hid Hsha Hat Hfresh. set (scope := er_scope request).
  set (turns := erase_turn_ids scope d). set (memories := erase_memory_ids scope turns d).
  set (jobs := size (filter (λ kv : Z * JobRow,
    job_mentions (turns ∪ memories ∪ erase_legacy_ids scope d) kv.2 = true) (db_outbox d))).
  exists {| au_erasure_id := erasure_id; au_scope_sha256 := scope_sha256;
    au_delivered_turns_deleted := size turns; au_structured_memories_deleted := size memories;
    au_legacy_items_deleted := size (erase_legacy_ids scope d); au_outbox_jobs_deleted := jobs;
    au_erased_at_ms := er_erased_at_ms request |}.
  split; [|split; cbn; try done; [apply counts_set, erase_turn_ids_elem|
    apply counts_set, erase_memory_ids_elem|apply counts_set, erase_legacy_ids_elem|
    apply jobs_counted]].
  unfold erase_transaction. fold scope.
  rewrite !query_bind_Ok. fold turns memories. apply tx_bind_Ok. do 2 eexists. split; [done|].
  apply tx_unit_Ok. eexists. split; [apply delete_sources_run|].
  apply tx_unit_Ok. eexists. split.
  { apply delete_memories_run. intros id turn i. db_simpl. rewrite map_lookup_filter_Some. by intros [_ ?]. }
  apply tx_unit_Ok. eexists. split.
  { apply delete_turns_run. intros id turn i. db_simpl. rewrite map_lookup_filter_Some. cbn [fst].
    intros [Hs Hm] Ht. apply Hm. unfold memories. apply erase_memory_ids_elem. right.
    exists turn, i. split; [done|]. by apply erase_turn_ids_elem. }
  apply tx_unit_Ok. eexists. split; [done|].
  apply tx_unit_Ok. eexists. split; [|apply tx_ret_Ok; done].
  unfold insert_audit. rewrite query_bind_Ok, !constraint_bind_Ok, execute_Ok. cbn [au_erasure_id].
  db_simpl. rewrite Hfresh. split; [done|]. split; [|done].
  unfold audit_row_ok. cbn [au_erasure_id au_scope_sha256 au_erased_at_ms]. rewrite Hid, Hsha. lia.
Qed.

Lemma nothing_counted scope d d' :
  erased_from scope d d' → character_memory_status scope d' = (0, 0, 0)%nat.
Proof.
  intros He. unfold character_memory_status. f_equal; [f_equal|];
    apply map_size_empty_iff, empty_filter; intros id x Hx; cbn;
    rewrite ?erased_scope_spec, ?erased_item_spec; intros Hin.
  - apply (er_turns _ _ _ He) in Hx as [Hx Hn]. apply Hn. by exists x.
  - apply (er_memories _ _ _ He) in Hx as [Hx Hn]. apply Hn. left. by exists x.
  - apply (er_items _ _ _ He) in Hx as [Hx Hn]. apply Hn. by exists x.
Qed.


(** ** Context *)

(** What a query may see of the memories of one class: what is stored for its scope or for
    all scopes and has not expired ... *)
Definition reaches (actual wanted : option str) : Prop := actual = None ∨ actual = wanted.
Record in_reach (q : ContextQuery) d (class : KnowledgeClass) (m : DerivedMemoryRecord) : Prop := {
  vm_stored : load_derived_memory (dr_id m) d = Some m;
  vm_class : dr_class m = class;
  vm_user : sc_user_id (dr_scope m) = sc_user_id (cq_scope q);
  vm_profile : sc_profile_id (dr_scope m) = sc_profile_id (cq_scope q);
  vm_game : sc_game_id (dr_scope m) = sc_game_id (cq_scope q);
  vm_character : reaches (sc_character_id (dr_scope m)) (sc_character_id (cq_scope q));
  vm_encounter : reaches (sc_encounter_id (dr_scope m)) (sc_encounter_id (cq_scope q));
  vm_session : reaches (sc_session_id (dr_scope m)) (sc_session_id (cq_scope q));
  vm_save : reaches (sc_save_id (dr_scope m)) (sc_save_id (cq_scope q));
  vm_current : ∀ expiry, dr_expires_at_ms m = Some expiry → cq_now_ms q < expiry
}.

(** ... as far as the spoiler policy and its own privacy allow. *)
Definition may_see (q : ContextQuery) (m : DerivedMemoryRecord) : Prop :=
  match dr_spoiler_scope m with
  | SpNone => True
  | SpGame => sy_allow_game (cq_spoiler_policy q) = true
  | SpUserPrivate => sy_allow_user_private (cq_spoiler_policy q) = true
  | SpSave => sy_allow_save (cq_spoiler_policy q) = true ∧
      ∃ save, sc_save_id (cq_scope q) = Some save ∧ sc_save_id (dr_scope m) = Some save
  | SpCharacterPrivate => sy_allow_character_private (cq_spoiler_policy q) = true ∧
      ∃ character, sc_character_id (cq_scope q) = Some character ∧
        sc_character_id (dr_scope m) = Some character
  end.

Definition visible_memory (q : ContextQuery) d (class : KnowledgeClass) (m : DerivedMemoryRecord) : Prop :=
  in_reach q d class m ∧ may_see q m.

Lemma is_null_or_spec actual wanted : is_null_or actual wanted = true ↔ reaches actual wanted.
Proof.
  unfold is_null_or, reaches. rewrite orb_true_iff, bool_decide_eq_true. destruct actual; naive_solver.
Qed.

(** The test of the loop. *)
Definition shown (q : ContextQuery) (m : DerivedMemoryRecord) : bool :=
  policy_allows (cq_spoiler_policy q) (dr_spoiler_scope m) && spoiler_scope_matches m q.

Lemma shown_spec q m : shown q m = true ↔ may_see q m.
Proof.
  unfold shown, may_see, spoiler_scope_matches. rewrite andb_true_iff.
  destruct (dr_spoiler_scope m); cbn; try tauto; rewrite andb_true_iff, bool_decide_eq_true;
    apply and_iff_compat_l.
  - destruct (sc_save_id (cq_scope q)); cbn; naive_solver.
  - destruct (sc_character_id (cq_scope q)); cbn; naive_solver.
Qed.

(** *** Best first *)

(** A memory mentions the text of a query when its content has the text in it, whatever the
    case. *)
Definition mentions `{UnicodeApi} (q : ContextQuery) (m : DerivedMemoryRecord) : Prop :=
  ∃ text before after, cq_text q = Some text ∧ trim text ≠ [] ∧
    ascii_lowercase (dr_content m) = before ++ to_lowercase (trim text) ++ after.

(** The memories that mention the text come first; then the more important, the more
    certain, the more recent; the identifiers break ties. *)
Definition ranks_before `{UnicodeApi} (q : ContextQuery) (a b : DerivedMemoryRecord) : Prop :=
  (mentions q a ∧ ¬ mentions q b) ∨
  ((mentions q a ↔ mentions q b) ∧
    (SFltb (dr_importance b) (dr_importance a) = true ∨
     (SFeqb (dr_importance b) (dr_importance a) = true ∧
       (SFltb (dr_confidence b) (dr_confidence a) = true ∨
        (SFeqb (dr_confidence b) (dr_confidence a) = true ∧
          (dr_observed_at_ms b < dr_observed_at_ms a ∨
           (dr_observed_at_ms b = dr_observed_at_ms a ∧ str_cmp (dr_id a) (dr_id b) ≠ Gt))))))).

(** The memories of a class a query gets: each once, best first, and none that is left out
    is better than one that is kept. A visible memory is left out because the places are
    taken, or because eight times as many memories of its class within reach rank before
    it, hidden ones included. *)
Record best_of `{UnicodeApi} (q : ContextQuery) d (class : KnowledgeClass)
    (l : list DerivedMemoryRecord) : Prop := {
  bo_visible : Forall (visible_memory q d class) l;
  bo_limit : Z.of_nat (length l) ≤ Z.max 0 (cq_per_class_limit q);
  bo_once : NoDup (dr_id <$> l);
  bo_order : StronglySorted (ranks_before q) l;
  bo_best : ∀ m, visible_memory q d class m → m ∉ l →
    Forall (λ kept, ranks_before q kept m) l ∧
    (Z.of_nat (length l) = Z.max 0 (cq_per_class_limit q) ∨
     ∃ ahead, NoDup (dr_id <$> ahead) ∧ Z.of_nat (length ahead) = 8 * cq_per_class_limit q ∧
       Forall (λ a, in_reach q d class a ∧ ranks_before q a m) ahead)
}.

Lemma visible_loop_take q s limit candidates :
  visible_loop q s limit candidates =
    take limit ((λ m, set_sources_of (load_sources (dr_id m) s) m) <$> List.filter (shown q) candidates).
Proof.
  revert limit. induction candidates as [|m candidates IH]; intros [|limit]; cbn; try done.
  unfold shown. rewrite <-negb_andb. destruct (policy_allows _ _ && _); cbn; by rewrite IH.
Qed.

Lemma btree_values_elem `{Ordered K, Countable K} {A} (m : gmap K A) x :
  x ∈ (btree_iter m).*2 ↔ ∃ k, m !! k = Some x.
Proof.
  rewrite list_elem_of_fmap. split; [intros ([k y]&->&Hk%btree_iter_elem); by exists k|].
  intros [k Hk]. exists (k, x). by rewrite btree_iter_elem.
Qed.

Context `{UnicodeApi}.

(** The order of the statement, on rows whose weights are numbers. *)
Definition weighed (m : DerivedMemoryRecord) : Prop :=
  is_nan (dr_importance m) = false ∧ is_nan (dr_confidence m) = false.
Definition class_key_order (text : option str) (l r : DerivedMemoryRecord) : comparison :=
  then_with (Z.compare (text_miss text l) (text_miss text r))
  (then_with (ocmp (real_key (dr_importance r)) (real_key (dr_importance l)))
  (then_with (ocmp (real_key (dr_confidence r)) (real_key (dr_confidence l)))
  (then_with (Z.compare (dr_observed_at_ms r) (dr_observed_at_ms l))
     (ocmp (dr_id l) (dr_id r))))).

Lemma class_order_key text l r : weighed l → weighed r → class_order text l r = class_key_order text l r.
Proof. intros [??] [??]. unfold class_order, class_key_order. by rewrite !real_cmp_key. Qed.

Lemma class_key_order_preorder text : cmp_preorder (class_key_order text).
Proof.
  unfold class_key_order.
  apply cmp_preorder_then; [apply (cmp_preorder_map (text_miss text)), cmp_preorder_Z|].
  apply cmp_preorder_then.
  { apply (cmp_preorder_flip (λ x y, ocmp (real_key (dr_importance x)) (real_key (dr_importance y)))).
    apply (cmp_preorder_map (λ x, real_key (dr_importance x)) ocmp), cmp_preorder_ocmp. }
  apply cmp_preorder_then.
  { apply (cmp_preorder_flip (λ x y, ocmp (real_key (dr_confidence x)) (real_key (dr_confidence y)))).
    apply (cmp_preorder_map (λ x, real_key (dr_confidence x)) ocmp), cmp_preorder_ocmp. }
  apply cmp_preorder_then.
  { apply (cmp_preorder_flip (λ x y, Z.compare (dr_observed_at_ms x) (dr_observed_at_ms y))).
    apply (cmp_preorder_map dr_observed_at_ms), cmp_preorder_Z. }
  apply (cmp_preorder_map dr_id ocmp), cmp_preorder_ocmp.
Qed.

Lemma text_miss_mentions q m :
  (mentions q m ∧ text_miss (normalized_text q) m = 0) ∨
  (¬ mentions q m ∧ text_miss (normalized_text q) m = 1).
Proof.
  unfold text_miss, normalized_text, mentions. destruct (cq_text q) as [text|]; cbn.
  - destruct (str_is_empty (trim text)) eqn:He; cbn.
    { right. split; [|done]. intros (t&a&b&[= <-]&Hne&_). by destruct (trim text). }
    destruct (str_contains _ _) eqn:Hc.
    + left. split; [|done]. apply str_contains_spec in Hc as (a&b&Hab). exists text, a, b.
      split; [done|]. split; [intros E; by rewrite E in He|done].
    + right. split; [|done]. intros (t&a&b&[= <-]&_&Hab).
      assert (str_contains (to_lowercase (trim text)) (ascii_lowercase (dr_content m)) = true) as Hx
        by (apply str_contains_spec; by exists a, b). congruence.
  - right. split; [|done]. by intros (t&_&_&?&_).
Qed.

Lemma class_order_before q a b : weighed a → weighed b →
  cmp_le (class_order (normalized_text q)) a b → ranks_before q a b.
Proof.
  intros [Hia Hca] [Hib Hcb]. unfold cmp_le, class_order, ranks_before, real_cmp, SFltb, SFeqb.
  rewrite !SFcompare_key by done. cbn [default].
  destruct (text_miss_mentions q a) as [[Ha ->]|[Ha ->]], (text_miss_mentions q b) as [[Hb ->]|[Hb ->]];
    cbn [Z.compare then_with]; [|by left|done|].
  all: intros Hle; right; (split; [tauto|]).
  all: destruct (ocmp (real_key (dr_importance b)) _); [right|by left|done]; (split; [done|]).
  all: destruct (ocmp (real_key (dr_confidence b)) _); [right|by left|done]; (split; [done|]).
  all: cbn in Hle; destruct (Z.compare_spec (dr_observed_at_ms b) (dr_observed_at_ms a));
    [by right|by left|done].
Qed.

(** The rows a class is chosen from. *)
Definition class_rows q d class : list DerivedMemoryRecord :=
  List.filter (class_candidate q class) (btree_iter (db_memories d)).*2.

Lemma class_rows_elem q d class row : db_ok d → row ∈ class_rows q d class →
  db_memories d !! dr_id row = Some row ∧ class_candidate q class row = true.
Proof.
  intros Hok. unfold class_rows. rewrite filter_elem, btree_values_elem. intros [Hc [id Hid]].
  by rewrite (mo_id _ _ (ok_memories _ Hok _ _ Hid)).
Qed.

Lemma class_rows_weighed q d class row : db_ok d → row ∈ class_rows q d class → weighed row.
Proof.
  intros Hok [Hid _]%class_rows_elem; [|done].
  destruct (mo_weights _ _ (ok_memories _ Hok _ _ Hid)) as [Hc Hi]. unfold range_contains in *.
  apply andb_true_iff in Hc as [[_ Hc]%f_le_not_nan _], Hi as [[_ Hi]%f_le_not_nan _]. done.
Qed.

Lemma class_rows_NoDup q d class : db_ok d → NoDup (dr_id <$> class_rows q d class).
Proof.
  intros Hok. apply NoDup_fmap_2_strong.
  - intros x y [Hx _]%class_rows_elem [Hy _]%class_rows_elem E; [|done..]. congruence.
  - apply filter_NoDup. pose proof (btree_keys_NoDup (db_memories d)) as Hnd. unfold btree_keys in Hnd.
    apply (NoDup_fmap_1 dr_id). replace (dr_id <$> (btree_iter (db_memories d)).*2)
      with (btree_iter (db_memories d)).*1; [done|]. rewrite <-list_fmap_compose.
    apply list_fmap_ext. intros i [k m] Hi%list_elem_of_lookup_2%btree_iter_elem. cbn.
    by rewrite (mo_id _ _ (ok_memories _ Hok _ _ Hi)).
Qed.

(** A row with its sources. *)
Notation loaded d := (λ m, set_sources_of (load_sources (dr_id m) (db_sources d)) m).

Lemma class_row_in_reach q d class row : db_ok d → row ∈ class_rows q d class →
  in_reach q d class (loaded d row).
Proof.
  intros Hok [Hid Hc]%class_rows_elem; [|done]. unfold class_candidate in Hc.
  rewrite !andb_true_iff, !bool_decide_eq_true, !is_null_or_spec in Hc.
  destruct Hc as ((((((((?&?)&?)&?)&?)&?)&?)&?)&Hx). split; cbn; try done.
  - unfold load_derived_memory. by rewrite Hid.
  - intros expiry He. rewrite He in Hx. cbn in Hx. lia.
Qed.

Lemma in_reach_row q d class m : db_ok d → in_reach q d class m →
  ∃ row, row ∈ class_rows q d class ∧ m = loaded d row.
Proof.
  intros Hok []. unfold load_derived_memory in vm_stored0.
  apply fmap_Some in vm_stored0 as (row&Hrow&Hm). exists row.
  pose proof (mo_id _ _ (ok_memories _ Hok _ _ Hrow)) as Hid. rewrite <-Hid in Hm. split; [|exact Hm].
  unfold class_rows. rewrite filter_elem, btree_values_elem. split; [|by exists (dr_id m)].
  rewrite Hm in * |-. cbn in *. unfold class_candidate.
  rewrite !andb_true_iff, !bool_decide_eq_true, !is_null_or_spec.
  repeat split; try done. destruct (dr_expires_at_ms row) as [e|]; [|done]. cbn. apply Z.ltb_lt. auto.
Qed.

(** The rows in the order of the statement. *)
Definition ranked_rows q d class : list DerivedMemoryRecord :=
  sort_by (class_order (normalized_text q)) (class_rows q d class).

Lemma ranked_rows_elem q d class row : row ∈ ranked_rows q d class ↔ row ∈ class_rows q d class.
Proof. unfold ranked_rows. by rewrite sort_by_perm. Qed.

Lemma ranked_rows_sorted q d class : db_ok d → StronglySorted (ranks_before q) (ranked_rows q d class).
Proof.
  intros Hok. set (le := cmp_le (class_key_order (normalized_text q))).
  assert (StronglySorted le (ranked_rows q d class)) as Hs.
  { unfold ranked_rows. rewrite (sort_by_ext _ (class_key_order (normalized_text q))).
    - apply sort_by_strongly_sorted, class_key_order_preorder.
    - intros x y Hx Hy. apply class_order_key; by eapply class_rows_weighed. }
  eapply sorted_impl; [|exact Hs]. intros x y Hx%ranked_rows_elem Hy%ranked_rows_elem Hxy.
  pose proof (class_rows_weighed _ _ _ _ Hok Hx). pose proof (class_rows_weighed _ _ _ _ Hok Hy).
  apply class_order_before; [done..|]. unfold cmp_le. by rewrite class_order_key.
Qed.

Lemma ranked_rows_NoDup q d class : db_ok d → NoDup (dr_id <$> ranked_rows q d class).
Proof. intros Hok. unfold ranked_rows. rewrite sort_by_perm. by apply class_rows_NoDup. Qed.

Lemma loaded_ids d (l : list DerivedMemoryRecord) : dr_id <$> (loaded d <$> l) = dr_id <$> l.
Proof. rewrite <-list_fmap_compose. by apply list_fmap_ext. Qed.

Lemma elem_of_drop_length {A} n (l : list A) x : x ∈ drop n l → (n < length l)%nat.
Proof.
  intros Hx. destruct (decide (n < length l)%nat); [done|].
  rewrite drop_ge in Hx by lia. by apply not_elem_of_nil in Hx.
Qed.

Lemma filter_ids_NoDup (p : DerivedMemoryRecord → bool) l : NoDup (dr_id <$> l) → NoDup (dr_id <$> List.filter p l).
Proof.
  induction l as [|x l IH]; cbn; [done|]. intros [Hx Hl]%NoDup_cons. destruct (p x); [|by apply IH].
  constructor; [|by apply IH]. intros (y&Hy&[_ Hin]%filter_elem)%list_elem_of_fmap. apply Hx.
  rewrite Hy. by apply list_elem_of_fmap_2.
Qed.

Lemma NoDup_take {A} n (l : list A) : NoDup l → NoDup (take n l).
Proof. rewrite <-(take_drop n l) at 1. by intros [? _]%NoDup_app. Qed.

(** The rows the loop goes through, and what it keeps of them. *)
Definition considered q d class : list DerivedMemoryRecord :=
  take (Z.to_nat (8 * cq_per_class_limit q)) (ranked_rows q d class).

Lemma retrieve_class_kept q d class : 0 < cq_per_class_limit q ≤ 1000 →
  retrieve_class q d class = take (Z.to_nat (cq_per_class_limit q))
    (loaded d <$> List.filter (shown q) (considered q d class)).
Proof.
  intros Hl. unfold retrieve_class. rewrite (proj2 (Z.leb_gt _ _)) by lia. rewrite visible_loop_take.
  replace (Z.min (sat_mul64 (cq_per_class_limit q) 8) 8000) with (8 * cq_per_class_limit q); [done|].
  unfold sat_mul64, u64_max. lia.
Qed.

Lemma considered_elem q d class row :
  row ∈ List.filter (shown q) (considered q d class) → row ∈ class_rows q d class ∧ may_see q row.
Proof.
  unfold considered. rewrite filter_elem, shown_spec. by intros [? ?%take_elem%ranked_rows_elem].
Qed.

Lemma kept_sorted q d class : db_ok d →
  StronglySorted (ranks_before q) (loaded d <$> List.filter (shown q) (considered q d class)).
Proof.
  intros Hok. eapply sorted_fmap; [|apply strongly_sorted_filter, sorted_take, ranked_rows_sorted, Hok].
  done.
Qed.

Lemma kept_before q d class x row : db_ok d → x ∈ (loaded d <$> considered q d class) →
  row ∈ drop (Z.to_nat (8 * cq_per_class_limit q)) (ranked_rows q d class) →
  ranks_before q x (loaded d row).
Proof.
  intros Hok (y&->&Hy)%list_elem_of_fmap Hrow.
  change (ranks_before q y row). eapply sorted_take_drop; [by apply ranked_rows_sorted|exact Hy|done].
Qed.

(** Where a visible memory that is not kept is. *)
Lemma left_out q d class m : db_ok d → 0 < cq_per_class_limit q ≤ 1000 →
  visible_memory q d class m → m ∉ retrieve_class q d class →
  Forall (λ kept, ranks_before q kept m) (retrieve_class q d class) ∧
  (Z.of_nat (length (retrieve_class q d class)) = cq_per_class_limit q ∨
   ∃ ahead, NoDup (dr_id <$> ahead) ∧ Z.of_nat (length ahead) = 8 * cq_per_class_limit q ∧
     Forall (λ a, in_reach q d class a ∧ ranks_before q a m) ahead).
Proof.
  intros Hok Hl [Hreach Hsee] Hout. rewrite retrieve_class_kept in * by done.
  apply in_reach_row in Hreach as (row&Hrow&->); [|done].
  apply ranked_rows_elem in Hrow. rewrite <-(take_drop (Z.to_nat (8 * cq_per_class_limit q))) in Hrow.
  apply elem_of_app in Hrow as [Hrow|Hrow].
  - assert (loaded d row ∈ loaded d <$> List.filter (shown q) (considered q d class)) as Hin.
    { apply (list_elem_of_fmap_2 (loaded d)), filter_elem. split; [by apply shown_spec|done]. }
    rewrite <-(take_drop (Z.to_nat (cq_per_class_limit q))) in Hin. apply elem_of_app in Hin as [?|Hin]; [done|].
    split.
    + apply Forall_forall. intros x Hx. eapply sorted_take_drop; [by apply kept_sorted|exact Hx|exact Hin].
    + left. apply elem_of_drop_length in Hin. rewrite length_take. lia.
  - split.
    + apply Forall_forall. intros x Hx%take_elem. apply (kept_before _ _ class); [done| |done].
      apply list_elem_of_fmap in Hx as (y&->&[_ Hy]%filter_elem). by apply (list_elem_of_fmap_2 (loaded d)).
    + right. exists (loaded d <$> considered q d class). rewrite loaded_ids, length_fmap. split.
      { unfold considered. rewrite fmap_take. apply NoDup_take, ranked_rows_NoDup, Hok. }
      split; [apply elem_of_drop_length in Hrow; unfold considered; rewrite length_take; lia|].
      apply Forall_forall. intros x Hx. split; [|by apply (kept_before _ _ class)].
      apply list_elem_of_fmap in Hx as (y&->&Hy%take_elem%ranked_rows_elem).
      by apply class_row_in_reach.
Qed.

Lemma retrieve_class_best q d class : db_ok d → cq_per_class_limit q ≤ 1000 →
  best_of q d class (retrieve_class q d class).
Proof.
  intros Hok Hmax. destruct (decide (0 < cq_per_class_limit q)) as [Hl|Hl].
  - split.
    + rewrite retrieve_class_kept by done. apply Forall_forall.
      intros x (row&->&[Hrow Hsee]%considered_elem)%take_elem%list_elem_of_fmap.
      split; [by apply class_row_in_reach|done].
    + rewrite retrieve_class_kept, length_take by done. lia.
    + rewrite retrieve_class_kept by done. rewrite fmap_take, loaded_ids. apply NoDup_take.
      apply filter_ids_NoDup.
      unfold considered. rewrite fmap_take. apply NoDup_take, ranked_rows_NoDup, Hok.
    + rewrite retrieve_class_kept by done. by apply sorted_take, kept_sorted.
    + intros m Hm Hout. rewrite Z.max_r by lia. by apply left_out.
  - unfold retrieve_class. rewrite (proj2 (Z.leb_le _ _)) by lia. split; [constructor|cbn; lia|constructor..|].
    intros m _ _. split; [constructor|]. left. cbn. lia.
Qed.

Lemma turn_recency_preorder : cmp_preorder turn_recency.
Proof.
  unfold turn_recency.
  apply (cmp_preorder_then (λ l r, Z.compare (dt_delivered_at_ms l) (dt_delivered_at_ms r))).
  { apply (cmp_preorder_map dt_delivered_at_ms), cmp_preorder_Z. }
  apply (cmp_preorder_then (λ l r, Z.compare (dt_sequence l) (dt_sequence r))).
  { apply (cmp_preorder_map dt_sequence), cmp_preorder_Z. }
  exact (cmp_preorder_map dt_turn_id ocmp cmp_preorder_ocmp).
Qed.

(** The conversation of a scope: its turns, oldest first. *)
Definition conversation (scope : AuthorityScope) d : list DeliveredTurnRecord :=
  sort_by turn_recency (List.filter (λ t, bool_decide (dt_scope t = scope)) (btree_iter (db_turns d)).*2).

Lemma conversation_separates scope d : db_ok d → separates turn_recency (conversation scope d).
Proof.
  intros Hok. unfold conversation. eapply separates_perm; [symmetry; apply sort_by_perm|].
  intros x y. rewrite !filter_elem, !btree_values_elem. intros [_ [i Hi]] [_ [j Hj]].
  unfold turn_recency. destruct (Z.compare_spec (dt_delivered_at_ms x) (dt_delivered_at_ms y)); try done.
  destruct (Z.compare_spec (dt_sequence x) (dt_sequence y)); try done. cbn. intros E.
  pose proof (proj1 (ocmp_Eq (K := str) _ _) E) as Hid.
  pose proof (to_id _ _ (ok_turns _ Hok _ _ Hi)). pose proof (to_id _ _ (ok_turns _ Hok _ _ Hj)).
  congruence.
Qed.

(** Taking the newest first and putting them back in order is taking the end. *)
Lemma recent_is_suffix q d : db_ok d → 0 < cq_recent_turn_limit q →
  recent_dialogue q d =
    drop (length (conversation (cq_scope q) d) - Z.to_nat (cq_recent_turn_limit q))
      (conversation (cq_scope q) d).
Proof.
  intros Hok Hl. unfold recent_dialogue. rewrite (proj2 (Z.leb_gt _ _)) by lia.
  pose proof (conversation_separates (cq_scope q) d Hok) as Hsep.
  set (c := conversation (cq_scope q) d) in *. set (n := Z.to_nat (cq_recent_turn_limit q)).
  assert (StronglySorted (cmp_le turn_recency) c) as Hsorted
    by apply sort_by_strongly_sorted, turn_recency_preorder.
  assert (sort_by (λ l r, turn_recency r l)
    (List.filter (λ t, bool_decide (dt_scope t = cq_scope q)) (btree_iter (db_turns d)).*2) = rev c) as ->.
  { apply sort_by_already.
    - apply cmp_preorder_flip, turn_recency_preorder.
    - apply sorted_rev in Hsorted. exact Hsorted.
    - intros x y. rewrite !list_elem_of_In, <-!in_rev, <-!list_elem_of_In. intros Hx Hy E.
      symmetry. by apply Hsep.
    - rewrite <-Permutation_rev. unfold c, conversation. symmetry. apply sort_by_perm. }
  rewrite firstn_rev. apply sort_by_already.
  - apply turn_recency_preorder.
  - by apply sorted_drop.
  - intros x y Hx%drop_elem Hy%drop_elem. by apply Hsep.
  - by rewrite <-Permutation_rev.
Qed.

Lemma conversation_elem scope d t :
  t ∈ conversation scope d ↔ dt_scope t = scope ∧ ∃ id, db_turns d !! id = Some t.
Proof. unfold conversation. by rewrite sort_by_perm, filter_elem, btree_values_elem, bool_decide_eq_true. Qed.

(** C28: The context of a prompt stays inside the scope that asks. A memory is shown only if
    it is stored for the same user, profile and game, for this character, encounter,
    session and save or for all of them, if it has not expired, and if the spoiler policy
    and its own privacy allow it; at most as many as asked, each once, and in the lane of
    its class. The best come first - those that mention the text of the query, then by
    importance, confidence, recency and identifier - and no memory that could be shown is
    left out for a worse one. The dialogue is exactly the end of the conversation of that
    very scope, in order. *)
Theorem context_stays_in_scope q d bundle :
  db_ok d → retrieve_context q d = Ok bundle →
  best_of q d WorldLore (mx_world_lore bundle) ∧
  best_of q d Biography (mx_biography bundle) ∧
  best_of q d CharacterKnowledge (mx_character_knowledge bundle) ∧
  best_of q d UncertainPublicInfo (mx_uncertain_public_info bundle) ∧
  best_of q d LongTermSummary (mx_long_term_summaries bundle) ∧
  mx_recent_dialogue bundle =
    drop (length (conversation (cq_scope q) d) - Z.to_nat (cq_recent_turn_limit q))
      (conversation (cq_scope q) d) ∧
  (∀ t, t ∈ conversation (cq_scope q) d ↔ dt_scope t = cq_scope q ∧ ∃ id, db_turns d !! id = Some t).
Proof.
  intros Hok. unfold retrieve_context. destruct (context_query_validate q) as [[]|e] eqn:Hv; [|done].
  assert (cq_per_class_limit q ≤ 1000) as Hmax.
  { unfold context_query_validate in Hv. read_checks Hv. lia. }
  cbn. intros [= <-]. cbn. do 5 (split; [by apply retrieve_class_best|]).
  split; [|intros t; apply conversation_elem].
  destruct (decide (0 < cq_recent_turn_limit q)); [by apply recent_is_suffix|].
  unfold recent_dialogue. rewrite (proj2 (Z.leb_le _ _)) by lia.
  rewrite Z2Nat.nonpos, Nat.sub_0_r, drop_all by lia. done.
Qed.
End spec.
