(* ===== verification/MemoryItemsSpec.v ===== *)
(** * Conversation memory: the outbox, the items, and every reachable database

    Jobs are leased to one worker at a time and tried a bounded number of times; the items
    keep their keys and revisions; and the invariants of all tables hold in every database
    the operations can produce.

    At the end, what a search over the items returns. *)

From S2P Require Import Prelude Text Bytes Float HostedTypes MemoryTypes MemoryStore MemoryFacts MemoryItems MemorySpec.
From Stdlib Require Import SpecFloat.

#[local] Open Scope Z_scope.

Section spec.
Context `{JsonValueApi} `{!EqDecision json_value} `{DigestApi}.
Implicit Types d : MemoryDb.

(** ** Jobs *)

Record job_ok (id : Z) (r : JobRow) : Prop := {
  jo_id : jb_id (jr_job r) = id;
  jo_attempts : 0 ≤ jb_attempts (jr_job r) ≤ jb_max_attempts (jr_job r);
  jo_lease : jb_status (jr_job r) = JobProcessing ↔
    is_Some (jb_lease_owner (jr_job r)) ∧ is_Some (jb_lease_expires_at_ms (jr_job r));
  jo_pending : jb_status (jr_job r) = JobPending → jb_lease_owner (jr_job r) = None ∧
    jb_lease_expires_at_ms (jr_job r) = None;
  jo_tried : jb_status (jr_job r) = JobProcessing → 0 < jb_attempts (jr_job r)
}.

Record outbox_ok (outbox : gmap Z JobRow) : Prop := {
  oo_jobs : map_Forall job_ok outbox;
  oo_keys : ∀ id id' r r' key, outbox !! id = Some r → outbox !! id' = Some r' →
    jr_dedupe_key r = Some key → jr_dedupe_key r' = Some key → id = id'
}.

Lemma next_rowid_fresh (outbox : gmap Z JobRow) : outbox !! next_rowid outbox = None.
Proof.
  assert (∀ id r, outbox !! id = Some r → id ≤ map_fold (λ id _ m, Z.max id m) 0 outbox) as Hle.
  { apply (map_fold_weak_ind (λ m (o : gmap Z JobRow), ∀ id r, o !! id = Some r → id ≤ m)).
    - intros id r Hx. by rewrite lookup_empty in Hx.
    - intros i x m r Hi IH id y. rewrite lookup_insert_Some. intros [[-> _]|[_ ?%IH]]; lia. }
  apply eq_None_not_Some. intros [r Hr]. apply Hle in Hr. unfold next_rowid in Hr. lia.
Qed.

Lemma find_dedupe_None (key : str) outbox : find_dedupe key outbox = None →
  ∀ id r, outbox !! id = Some r → jr_dedupe_key r ≠ Some key.
Proof.
  unfold find_dedupe. intros Hf%fmap_None id r Hr Hk.
  pose proof (find_none _ _ Hf (id, r)) as Hn. cbn in Hn.
  rewrite bool_decide_eq_false in Hn. apply Hn; [|done].
  by apply list_elem_of_In, elem_of_map_to_list.
Qed.

Lemma find_dedupe_Some (key : str) outbox id : find_dedupe key outbox = Some id →
  ∃ r, outbox !! id = Some r ∧ jr_dedupe_key r = Some key.
Proof.
  unfold find_dedupe. intros ([id' r]&Hf&->)%fmap_Some. apply find_some in Hf as [Hin Hk].
  rewrite bool_decide_eq_true in Hk. exists r. split; [|done].
  by apply elem_of_map_to_list, list_elem_of_In.
Qed.

Lemma new_job_ok id now job dedupe :
  0 < ji_max_attempts job → job_ok id {| jr_job := new_job id now job; jr_dedupe_key := dedupe |}.
Proof. intros Hm. split; cbn; [done|lia| |done|done]. split; [done|]. by intros [[? [=]] _]. Qed.

(** An enqueued job is there once: a key that is present already is answered with its job. *)
Lemma enqueue_tx_Ok job now d id d' :
  enqueue_job_tx job now d = Ok (id, d') → outbox_ok (db_outbox d) →
  ∃ outbox, d' = set_outbox (λ _, outbox) d ∧ outbox_ok outbox ∧ db_outbox d ⊆ outbox ∧
    ∃ r, outbox !! id = Some r ∧
      (outbox = db_outbox d ∧ is_Some (ji_dedupe_key job) ∧ jr_dedupe_key r = ji_dedupe_key job ∨
       db_outbox d !! id = None ∧ r = {| jr_job := new_job id now job; jr_dedupe_key := ji_dedupe_key job |}).
Proof.
  intros He Hok. unfold enqueue_job_tx in He. rewrite query_bind_Ok in He. cbv zeta in He.
  rewrite constraint_bind_Ok in He. destruct He as [Hrow He]. rewrite query_bind_Ok in He.
  destruct (key ← ji_dedupe_key job; find_dedupe key (db_outbox d)) as [present|] eqn:Hp.
  - apply tx_ret_Ok in He as [-> ->]. apply bind_Some in Hp as (key&Hk&Hp).
    apply find_dedupe_Some in Hp as (r&Hr&Hd). exists (db_outbox d). split; [by destruct d|].
    split; [done|]. split; [done|]. exists r. split; [done|]. left. split; [done|]. rewrite Hk. done.
  - rewrite execute_bind_Ok in He. apply tx_ret_Ok in He as [-> ->].
    pose proof (next_rowid_fresh (db_outbox d)) as Hfresh.
    set (id' := next_rowid (db_outbox d)) in *.
    exists (<[id' := {| jr_job := new_job id' now job; jr_dedupe_key := ji_dedupe_key job |}]> (db_outbox d)).
    split; [done|]. split; [|split; [by apply insert_subseteq|]].
    + destruct Hok as [Hj Hkeys]. split.
      * apply map_Forall_insert_2; [|done]. apply new_job_ok. unfold job_row_ok in Hrow. cbn in Hrow.
        rewrite !andb_true_iff in Hrow. destruct Hrow as [[_ ?] _]. lia.
      * assert (∀ key i r, ji_dedupe_key job = Some key → db_outbox d !! i = Some r →
          jr_dedupe_key r ≠ Some key) as Hnew.
        { intros key i r Hk. rewrite Hk in Hp. by apply (find_dedupe_None key). }
        intros i j r r' key. rewrite !lookup_insert_Some.
        intros [[<- <-]|[_ Hr]] [[<- <-]|[_ Hr']] Hk Hk'; cbn in Hk, Hk'; [done| | |].
        -- by apply (Hnew key) in Hr'.
        -- by apply (Hnew key) in Hr.
        -- by eapply Hkeys.
    + eexists. split; [apply lookup_insert_eq|]. by right.
Qed.

(** *** Claims *)

Lemma recover_job_ok id r now : job_ok id r → job_ok id (with_job (recover_job now) r).
Proof.
  intros [Hid Ha Hl Hp Ht]. unfold with_job, recover_job.
  destruct (lease_expired now (jr_job r)) eqn:He; [|by destruct r].
  split; cbn; [done|done| |done|].
  - destruct (_ <=? _); (split; [done|]); by intros [[? [=]] _].
  - by destruct (_ <=? _).
Qed.

Lemma lease_job_ok id r worker expires now :
  job_ok id r → jb_attempts (jr_job r) < jb_max_attempts (jr_job r) →
  job_ok id (with_job (lease_job worker expires now) r).
Proof.
  intros [Hid Ha Hl Hp Ht] Hlt. unfold with_job, lease_job. case_bool_decide; [|by destruct r].
  split; cbn; [done|lia| |done|lia]. split; [by eauto|done].
Qed.

Lemma foldr_alter {A} (f : A → A) (m : gmap Z A) ids k :
  NoDup ids →
  foldr (λ id m, alter f id m) m ids !! k = if decide (k ∈ ids) then f <$> m !! k else m !! k.
Proof.
  induction 1 as [|id ids Hid _ IH]; cbn.
  { rewrite decide_False by apply not_elem_of_nil. done. }
  destruct (decide (k = id)) as [->|Hne].
  - rewrite lookup_alter_eq, IH. rewrite (decide_False (P := id ∈ ids)) by done.
    rewrite decide_True by by left. done.
  - rewrite lookup_alter_ne, IH by done. apply decide_ext. rewrite elem_of_cons. tauto.
Qed.

Lemma claim_order_preorder : cmp_preorder claim_order.
Proof.
  unfold claim_order. apply (cmp_preorder_then (λ l r, Z.compare (jb_available_at_ms l) (jb_available_at_ms r))).
  - apply (cmp_preorder_map jb_available_at_ms), cmp_preorder_Z.
  - apply (cmp_preorder_map jb_id), cmp_preorder_Z.
Qed.

Lemma claimable_elem now (outbox : gmap Z JobRow) j :
  map_Forall job_ok outbox →
  j ∈ List.filter (claimable now) (jr_job <$> (btree_iter outbox).*2) ↔
  claimable now j = true ∧ ∃ r, outbox !! jb_id j = Some r ∧ jr_job r = j.
Proof.
  intros Hok. rewrite filter_elem, list_elem_of_fmap. setoid_rewrite btree_values_elem.
  split.
  - intros [Hc (r&->&id&Hr)]. split; [done|]. exists r. split; [|done].
    by rewrite (jo_id _ _ (Hok _ _ Hr)).
  - intros [Hc (r&Hr&<-)]. split; [done|]. exists r. split; [done|]. by eexists.
Qed.

Lemma claimable_ids_facts now limit outbox :
  map_Forall job_ok outbox →
  NoDup (claimable_ids now limit outbox) ∧ (length (claimable_ids now limit outbox) ≤ limit)%nat ∧
  ∀ id, id ∈ claimable_ids now limit outbox →
    ∃ r, outbox !! id = Some r ∧ claimable now (jr_job r) = true.
Proof.
  intros Hok. set (rows := List.filter (claimable now) (jr_job <$> (btree_iter outbox).*2)).
  assert (NoDup (jb_id <$> rows)) as Hnd.
  { assert (NoDup (btree_iter outbox)) as Hb by (rewrite btree_iter_perm; apply NoDup_map_to_list).
    assert (∀ k r, (k, r) ∈ btree_iter outbox → jb_id (jr_job r) = k) as Hkey.
    { intros k r Hr%btree_iter_elem. apply (jo_id _ _ (Hok _ _ Hr)). }
    assert (NoDup (btree_iter outbox).*1) as Hkeys by apply btree_keys_NoDup.
    unfold rows. clear Hb. induction (btree_iter outbox) as [|[k r] l IH]; cbn; [constructor|].
    cbn in Hkeys. apply NoDup_cons in Hkeys as [Hk Hkeys].
    specialize (IH ltac:(intros k' r' Hr'; apply Hkey; by right) Hkeys).
    destruct (claimable now (jr_job r)); [|done]. cbn. apply NoDup_cons. split; [|done].
    rewrite (Hkey k r) by by left. intros (j&->&Hj)%list_elem_of_fmap.
    apply filter_elem in Hj as [_ (r'&->&Hr')%list_elem_of_fmap].
    apply list_elem_of_fmap in Hr' as ([k' r'']&->&Hr'). cbn in Hk.
    apply Hk. rewrite (Hkey k' r'') by by right. apply list_elem_of_fmap. by exists (k', r''). }
  unfold claimable_ids. fold rows. split; [|split].
  - assert (NoDup (jb_id <$> sort_by claim_order rows)) as Hs by by rewrite sort_by_perm.
    rewrite <-(take_drop limit (sort_by claim_order rows)), fmap_app in Hs.
    by apply NoDup_app in Hs as [? _].
  - rewrite length_fmap, length_take. lia.
  - intros id (j&->&Hj%take_elem)%list_elem_of_fmap. rewrite sort_by_perm in Hj.
    apply claimable_elem in Hj as [Hc (r&Hr&<-)]; [|done]. by exists r.
Qed.

Lemma load_jobs_Ok ids d jobs d' :
  load_jobs ids d = Ok (jobs, d') → d' = d ∧ Forall2 (λ id j, load_job id d = Some j) ids jobs.
Proof.
  revert jobs. induction ids as [|id ids IH]; intros jobs; cbn [load_jobs].
  { intros [-> ->]%tx_ret_Ok. split; [done|constructor]. }
  rewrite query_bind_Ok. destruct (load_job id d) as [j|] eqn:Hj; [|done].
  rewrite tx_bind_Ok. intros (js&d1&H1&H2). apply tx_ret_Ok in H2 as [-> ->].
  destruct (IH _ H1) as [-> ?]. split; [done|]. by constructor.
Qed.

Lemma load_jobs_run ids d :
  (∀ id, id ∈ ids → is_Some (load_job id d)) → ∃ jobs, load_jobs ids d = Ok (jobs, d).
Proof.
  induction ids as [|id ids IH]; intros Hi; cbn [load_jobs]; [by eexists|].
  destruct (Hi id ltac:(by left)) as [j Hj].
  destruct IH as [jobs Hjobs]; [intros; apply Hi; by right|].
  exists (j :: jobs). apply (proj2 (query_bind_Ok _ _ _ _ _)). rewrite Hj.
  apply tx_bind_Ok. exists jobs, d. split; [done|]. by apply tx_ret_Ok.
Qed.

(** The outbox after a claim, row by row. *)
Definition claimed_outbox (worker : str) (now lease : Z) (limit : nat) (outbox : gmap Z JobRow) : gmap Z JobRow :=
  let recovered := with_job (recover_job now) <$> outbox in
  foldr (λ id o, alter (with_job (lease_job worker (sat_i64 (now + lease)) now)) id o) recovered
    (claimable_ids now limit recovered).

Lemma recovered_ok now (outbox : gmap Z JobRow) :
  map_Forall job_ok outbox → map_Forall job_ok (with_job (recover_job now) <$> outbox).
Proof.
  intros Hok id r. rewrite lookup_fmap. intros (r'&Hr&->)%fmap_Some. by apply recover_job_ok, Hok.
Qed.

Lemma claimed_outbox_lookup worker now lease limit outbox id :
  map_Forall job_ok outbox →
  claimed_outbox worker now lease limit outbox !! id =
    (λ r, if decide (id ∈ claimable_ids now limit (with_job (recover_job now) <$> outbox))
          then with_job (lease_job worker (sat_i64 (now + lease)) now) (with_job (recover_job now) r)
          else with_job (recover_job now) r) <$> outbox !! id.
Proof.
  intros Hok. unfold claimed_outbox.
  destruct (claimable_ids_facts now limit _ (recovered_ok now _ Hok)) as [Hnd _].
  rewrite foldr_alter, lookup_fmap by done. by destruct (decide _), (outbox !! id).
Qed.

Lemma claimed_outbox_ok worker now lease limit outbox :
  outbox_ok outbox → outbox_ok (claimed_outbox worker now lease limit outbox).
Proof.
  intros [Hok Hkeys]. destruct (claimable_ids_facts now limit _ (recovered_ok now _ Hok)) as (_&_&Hc).
  split.
  - intros id r. rewrite claimed_outbox_lookup by done. intros (r0&Hr&->)%fmap_Some.
    pose proof (recover_job_ok _ _ now (Hok _ _ Hr)) as Hrec. destruct (decide _) as [Hin|]; [|done].
    apply lease_job_ok; [done|]. destruct (Hc _ Hin) as (r1&Hr1&Hclaim).
    rewrite lookup_fmap, Hr in Hr1. injection Hr1 as <-. unfold claimable in Hclaim.
    rewrite !andb_true_iff in Hclaim. lia.
  - intros id id' r r' key. rewrite !claimed_outbox_lookup by done.
    intros (r0&Hr&->)%fmap_Some (r1&Hr'&->)%fmap_Some Hk Hk'. apply (Hkeys id id' r0 r1 key); [done..| |].
    + by destruct (decide _) in Hk.
    + by destruct (decide _) in Hk'.
Qed.

(** Jobs a claim must leave alone: somebody else's lease, and what is finished. *)
Definition untouchable (now : Z) (j : OutboxJob) : Prop :=
  jb_status j = JobCompleted ∨ jb_status j = JobDead ∨
  (jb_status j = JobProcessing ∧ ∃ expires, jb_lease_expires_at_ms j = Some expires ∧ now < expires).

Lemma untouchable_kept now r : untouchable now (jr_job r) →
  with_job (recover_job now) r = r ∧ claimable now (jr_job r) = false.
Proof.
  intros Hu. unfold with_job, recover_job, lease_expired, claimable.
  destruct r as [j key]. cbn [jr_job jr_dedupe_key] in *.
  destruct Hu as [Hs|[Hs|[Hs (expires&Hx&Hlt)]]]; rewrite Hs; cbn; [done..|].
  rewrite Hx. cbn. rewrite (proj2 (Z.leb_gt _ _)) by lia. done.
Qed.

(** What a claim does to a job it hands out, and to one it must leave alone. *)
Lemma claimed_row worker now lease limit outbox id :
  outbox_ok outbox →
  id ∈ claimable_ids now limit (with_job (recover_job now) <$> outbox) →
  ∃ r j, outbox !! id = Some r ∧
    jr_job <$> claimed_outbox worker now lease limit outbox !! id = Some j ∧ jb_id j = id ∧
    jb_status j = JobProcessing ∧ jb_lease_owner j = Some worker ∧
    jb_lease_expires_at_ms j = Some (sat_i64 (now + lease)) ∧ ¬ untouchable now (jr_job r) ∧
    jb_attempts j = jb_attempts (jr_job r) + 1 ∧ jb_attempts j ≤ jb_max_attempts j.
Proof.
  intros [Hrows Hkeys] Hin.
  destruct (claimable_ids_facts now limit _ (recovered_ok now _ Hrows)) as (_&_&Hcl).
  destruct (Hcl _ Hin) as (r2&Hr2&Hclaim). rewrite lookup_fmap in Hr2.
  apply fmap_Some in Hr2 as (r&Hr&->). exists r. eexists. split; [done|]. split.
  { rewrite claimed_outbox_lookup, Hr by done. cbn [fmap option_fmap option_map].
    rewrite decide_True by done. done. }
  pose proof Hclaim as Hclaim'. unfold claimable in Hclaim. rewrite !andb_true_iff, bool_decide_eq_true in Hclaim.
  destruct Hclaim as [[Hs _] Hlt%Z.ltb_lt]. cbn [with_job jr_job]. unfold lease_job.
  cbn [with_job jr_job] in Hs, Hlt. rewrite bool_decide_eq_true_2 by done. cbn.
  assert (∀ j, jb_id (recover_job now j) = jb_id j ∧ jb_attempts (recover_job now j) = jb_attempts j) as Hrec.
  { intros j. unfold recover_job. by destruct (lease_expired now j). }
  destruct (Hrec (jr_job r)) as [-> Hatt]. rewrite Hatt in *.
  split; [apply (jo_id _ _ (Hrows _ _ Hr))|]. do 3 (split; [done|]). split; [|split; [done|lia]].
  intros [Hkept Hno]%untouchable_kept. rewrite Hkept in Hclaim'. congruence.
Qed.

Lemma untouched_row worker now lease limit outbox id r :
  outbox_ok outbox → outbox !! id = Some r → untouchable now (jr_job r) →
  claimed_outbox worker now lease limit outbox !! id = Some r.
Proof.
  intros [Hrows Hkeys] Hr [Hkept Hno]%untouchable_kept.
  destruct (claimable_ids_facts now limit _ (recovered_ok now _ Hrows)) as (_&_&Hcl).
  rewrite claimed_outbox_lookup, Hr by done. cbn [fmap option_fmap option_map].
  rewrite decide_False; [by rewrite Hkept|]. intros (r2&Hr2&Hclaim)%Hcl.
  rewrite lookup_fmap, Hr in Hr2. injection Hr2 as <-. rewrite Hkept in Hclaim. congruence.
Qed.

Lemma claim_jobs_Ok worker now lease limit d jobs d' :
  outbox_ok (db_outbox d) → 0 ≤ limit → claim_jobs worker now lease limit d = (Ok jobs, d') →
  let outbox := claimed_outbox worker now lease (Z.to_nat limit) (db_outbox d) in
  d' = set_outbox (λ _, outbox) d ∧
  jb_id <$> jobs = claimable_ids now (Z.to_nat limit) (with_job (recover_job now) <$> db_outbox d) ∧
  Forall (λ j, jr_job <$> outbox !! jb_id j = Some j) jobs.
Proof.
  intros Hok Hpos Hc outbox. unfold claim_jobs in Hc. destruct (is_blank worker || _ || _) eqn:Hlim; [done|].
  destruct (i64_max <? lease); [done|]. destruct (lease <=? 0); [done|].
  unfold run_transaction in Hc.
  destruct (claim_jobs_tx _ _ _ _ d) as [[js d1]|e] eqn:Hrun; [|done]. injection Hc as -> ->.
  unfold claim_jobs_tx in Hrun. rewrite execute_bind_Ok, query_bind_Ok in Hrun. cbv zeta in Hrun.
  rewrite execute_bind_Ok in Hrun. apply load_jobs_Ok in Hrun as [-> Hjobs].
  unfold load_job in Hjobs. db_simpl. split; [done|].
  fold (claimed_outbox worker now lease (Z.to_nat limit) (db_outbox d)) in Hjobs. fold outbox in Hjobs.
  pose proof (claimed_outbox_ok worker now lease (Z.to_nat limit) _ Hok) as [Hrows _]. fold outbox in Hrows.
  clear -Hjobs Hrows. induction Hjobs as [|id j l js Hj _ [IH1 IH2]]; [by split|].
  assert (jb_id j = id) as <-.
  { apply fmap_Some in Hj as (r&Hr&->). apply (jo_id _ _ (Hrows _ _ Hr)). }
  split; [cbn; by f_equal|by constructor].
Qed.

(** C29: A job has one worker at a time. A claim hands out at most as many jobs as asked,
    each once, each leased to the caller until the time asked for and counted as one more
    attempt within its limit; it takes nothing from a worker whose lease still runs and
    never revives a job that is completed or dead. *)
Theorem jobs_have_one_worker worker now lease limit d jobs d' :
  outbox_ok (db_outbox d) → 0 ≤ limit →
  claim_jobs worker now lease limit d = (Ok jobs, d') →
  outbox_ok (db_outbox d') ∧
  Z.of_nat (length jobs) ≤ limit ∧ NoDup (jb_id <$> jobs) ∧
  Forall (λ j, load_job (jb_id j) d' = Some j ∧ jb_status j = JobProcessing ∧
    jb_lease_owner j = Some worker ∧ jb_lease_expires_at_ms j = Some (sat_i64 (now + lease)) ∧
    ∃ before, load_job (jb_id j) d = Some before ∧ ¬ untouchable now before ∧
      jb_attempts j = jb_attempts before + 1 ∧ jb_attempts j ≤ jb_max_attempts j) jobs ∧
  (∀ id before, load_job id d = Some before → untouchable now before → load_job id d' = Some before).
Proof.
  intros Hok Hpos Hc. apply claim_jobs_Ok in Hc as (->&Hids&Hjobs); [|done..].
  pose proof (oo_jobs _ Hok) as Hrows.
  destruct (claimable_ids_facts now (Z.to_nat limit) _ (recovered_ok now _ Hrows)) as (Hnd&Hlen&_).
  rewrite <-Hids in Hnd, Hlen. rewrite length_fmap in Hlen.
  split; [by apply claimed_outbox_ok|]. split; [lia|]. split; [done|]. split.
  - rewrite Forall_forall in Hjobs. apply Forall_forall. intros j Hj. pose proof (Hjobs j Hj) as Hload.
    assert (jb_id j ∈ jb_id <$> jobs) as Hin by (apply list_elem_of_fmap; by exists j). rewrite Hids in Hin.
    destruct (claimed_row worker now lease (Z.to_nat limit) _ _ Hok Hin)
      as (r&j'&Hr&Hload'&_&?&?&?&?&?&?). rewrite Hload in Hload'. injection Hload' as <-.
    split; [done|]. do 3 (split; [done|]). exists (jr_job r). unfold load_job. by rewrite Hr.
  - unfold load_job. intros id before (r&Hr&->)%fmap_Some Hu. db_simpl.
    by rewrite (untouched_row _ _ _ _ _ _ r).
Qed.

(** *** The end of a job *)

Lemma set_finished_ok id r status now available error :
  job_ok id r → status ≠ JobProcessing →
  job_ok id (with_job (λ j, set_job status (jb_attempts j) available None None error now j) r).
Proof.
  intros [Hid Ha _ _ _] Hs. split; cbn; [done|done| |done|done].
  split; [done|]. by intros [[? [=]] _].
Qed.

Lemma alter_job_ok (f : OutboxJob → OutboxJob) id outbox :
  outbox_ok outbox → (∀ r, outbox !! id = Some r → job_ok id (with_job f r)) →
  outbox_ok (alter (with_job f) id outbox).
Proof.
  intros [Hrows Hkeys] Hf. split.
  - intros i r. rewrite lookup_alter_Some. intros [[<- (r0&Hr&->)]|[_ Hr]]; [by apply Hf|by apply Hrows].
  - intros i i' r r' key Hr Hr' Hk Hk'. rewrite lookup_alter_Some in Hr, Hr'.
    assert (∃ r0, outbox !! i = Some r0 ∧ jr_dedupe_key r0 = Some key) as (r0&?&?).
    { destruct Hr as [[<- (r0&?&->)]|[_ ?]]; by eauto. }
    assert (∃ r1, outbox !! i' = Some r1 ∧ jr_dedupe_key r1 = Some key) as (r1&?&?).
    { destruct Hr' as [[<- (r1&?&->)]|[_ ?]]; by eauto. }
    by apply (Hkeys i i' r0 r1 key).
Qed.

(** Completing and failing a job is for the worker that holds it. *)
Lemma complete_job_effect id worker now d b d' :
  complete_job id worker now d = (b, d') → outbox_ok (db_outbox d) →
  outbox_ok (db_outbox d') ∧ d' = set_outbox (λ _, db_outbox d') d ∧
  (b = true ↔ ∃ j, load_job id d = Some j ∧ leased_by worker j = true).
Proof.
  unfold complete_job, load_job. intros Hc Hok.
  destruct (db_outbox d !! id) as [r|] eqn:Hr; cbn in Hc |- *.
  2: { injection Hc as <- <-. split; [done|]. split; [by destruct d|]. naive_solver. }
  destruct (leased_by worker (jr_job r)) eqn:Hl; injection Hc as <- <-.
  - split; [|split; [done|naive_solver]]. db_simpl. apply alter_job_ok; [done|].
    intros r0 Hr0. apply set_finished_ok; [by apply (oo_jobs _ Hok)|done].
  - split; [done|]. split; [by destruct d|]. split; [done|]. intros (j&[= <-]&?). congruence.
Qed.

Lemma fail_job_effect id worker now retry error d r d' :
  fail_job id worker now retry error d = (r, d') → outbox_ok (db_outbox d) →
  outbox_ok (db_outbox d') ∧ d' = set_outbox (λ _, db_outbox d') d.
Proof.
  intros Hf Hok. unfold fail_job in Hf.
  assert (outbox_ok (db_outbox d) ∧ d = set_outbox (λ _, db_outbox d) d) as Hsame by (split; [done|by destruct d]).
  destruct (is_blank error || _ || _); [by injection Hf as <- <-|].
  unfold run_transaction in Hf. destruct (fail_job_tx _ _ _ _ _ d) as [[st d1]|e] eqn:Hrun;
    injection Hf as <- <-; [|done].
  unfold fail_job_tx in Hrun. rewrite query_bind_Ok in Hrun. unfold load_job in Hrun.
  destruct (db_outbox d !! id) as [row|] eqn:Hr; [|done]. cbn [fmap option_fmap option_map] in Hrun.
  destruct (leased_by worker (jr_job row)); [|done]. cbv zeta in Hrun.
  rewrite execute_bind_Ok in Hrun. apply tx_ret_Ok in Hrun as [_ ->]. split; [|done].
  db_simpl. apply alter_job_ok; [done|]. intros r0 Hr0.
  apply (set_finished_ok id r0 _ now retry (Some error)); [by apply (oo_jobs _ Hok)|by destruct (_ <=? _)].
Qed.

(** ** Items *)

Record item_ok (id : str) (row : ItemRow) : Prop := {
  io_id : me_id (it_record row) = id;
  io_revision : 0 < me_revision (it_record row)
}.

Definition live_row (row : ItemRow) : Prop := it_deleted_at_ms row = None.

(** Keys and revisions; a fact is held once; an embedding belongs to an item. *)
Record items_ok d : Prop := {
  is_rows : map_Forall item_ok (db_items d);
  is_facts : ∀ id id' r r', db_items d !! id = Some r → db_items d !! id' = Some r' →
    live_row r → live_row r' → id ≠ id' → same_fact (it_record r) (it_record r') = false;
  is_embeddings : ∀ id g e, db_embeddings d !! (id, g) = Some e → is_Some (db_items d !! id)
}.

Record store_ok d : Prop := {
  so_db : db_ok d;
  so_outbox : outbox_ok (db_outbox d);
  so_items : items_ok d
}.

Lemma db_ok_same d d' :
  db_turns d' = db_turns d → db_memories d' = db_memories d → db_sources d' = db_sources d →
  db_ok d → db_ok d'.
Proof. intros Ht Hm Hs [H1 H2 H3 H4 H5]. split; rewrite ?Ht, ?Hm, ?Hs; done. Qed.

Lemma items_ok_same d d' :
  db_items d' = db_items d → db_embeddings d' = db_embeddings d → items_ok d → items_ok d'.
Proof. intros Hi He [H1 H2 H3]. split; rewrite ?Hi, ?He; done. Qed.

(** Operations on the outbox alone. *)
Lemma outbox_only_ok d outbox : store_ok d → outbox_ok outbox → store_ok (set_outbox (λ _, outbox) d).
Proof.
  intros [Hd Ho Hi] Hok. split; [by apply (db_ok_same d)|done|by apply (items_ok_same d)].
Qed.

Lemma same_fact_swap (a b : MemoryRecord) : same_fact a b = true → same_fact b a = true.
Proof.
  unfold same_fact. rewrite !andb_true_iff, !bool_decide_eq_true.
  intros ((((((((Hn&?)&?)&?)&?)&Hp)&Hg)&Hc)&Hh). by rewrite <-Hn, <-Hp, <-Hg, <-Hc, <-Hh.
Qed.

Lemma same_fact_sym (a b : MemoryRecord) : same_fact a b = same_fact b a.
Proof. apply eq_iff_eq_true. split; apply same_fact_swap. Qed.

Lemma fact_free (r : MemoryRecord) items : fact_taken r items = false →
  ∀ id row, items !! id = Some row → id ≠ me_id r → live_row row → same_fact r (it_record row) = false.
Proof.
  unfold fact_taken, live_row. intros Hf id row Hr Hne Hlive. apply not_true_iff_false. intros Hs.
  apply not_true_iff_false in Hf. apply Hf, existsb_exists. exists (id, row).
  rewrite <-list_elem_of_In, elem_of_map_to_list. split; [done|]. cbn.
  rewrite bool_decide_eq_true_2, Hlive, Hs by done. done.
Qed.

(** A change of rows that keeps identifiers and facts, and revives nothing. *)
Lemma items_ok_update d d' :
  items_ok d →
  (∀ id row', db_items d' !! id = Some row' → ∃ row, db_items d !! id = Some row ∧
    item_ok id row' ∧ (live_row row' → live_row row) ∧
    (∀ x, same_fact (it_record row') x = same_fact (it_record row) x) ∧
    (∀ x, same_fact x (it_record row') = same_fact x (it_record row))) →
  (∀ id, is_Some (db_items d !! id) → is_Some (db_items d' !! id)) →
  (∀ id g e, db_embeddings d' !! (id, g) = Some e → is_Some (db_items d' !! id)) →
  items_ok d'.
Proof.
  intros [Hr Hf He] Hrows Hkeep Hemb. split; [|intros id id' r r' H1 H2 Hl Hl' Hne|done].
  - by intros id row (?&_&?&_)%Hrows.
  - apply Hrows in H1 as (r0&H1&_&Hl0&Hs&_), H2 as (r1&H2&_&Hl1&_&Hs'). rewrite Hs, Hs'.
    by apply (Hf id id'); auto.
Qed.

Lemma bump_fact now g (r x : MemoryRecord) :
  same_fact (bump now g r) x = same_fact r x ∧ same_fact x (bump now g r) = same_fact x r.
Proof. done. Qed.

Lemma bump_item_ok id now g row deleted :
  item_ok id row → item_ok id {| it_record := bump now g (it_record row); it_deleted_at_ms := deleted |}.
Proof. intros [? ?]. split; cbn; [done|lia]. Qed.

Lemma soft_deleted_ok id now row : item_ok id row → item_ok id (soft_deleted now row).
Proof. apply bump_item_ok. Qed.

(** *** Upserts *)

Lemma upsert_tx_Ok uuid m now d r d' :
  upsert_in_transaction uuid m now d = Ok (r, d') → store_ok d → store_ok d'.
Proof.
  intros Hu [Hd Ho Hi]. unfold upsert_in_transaction in Hu. cbv zeta in Hu.
  set (id := default uuid (mn_id m)) in *. destruct (is_blank id || _); [done|].
  rewrite query_bind_Ok in Hu. set (existing := db_items d !! id) in *.
  destruct (is_some_and (mn_expected_revision m) _); [done|].
  set (row := upserted id now m existing) in *.
  rewrite constraint_bind_Ok, query_bind_Ok, constraint_bind_Ok in Hu. destruct Hu as (Hrow&Hfree&Hu).
  apply negb_true_iff in Hfree.
  rewrite execute_bind_Ok, execute_bind_Ok, query_bind_Ok in Hu.
  match type of Hu with _ ?y = _ => set (d1 := y) in * end.
  destruct (load_record id d1) as [record|]; [|done].
  assert (store_ok d1) as Hok1.
  { assert (db_outbox d1 = db_outbox d) as Houtbox by (unfold d1; by case_match).
    split; [apply (db_ok_same d); try done; unfold d1; by case_match|by rewrite Houtbox|].
    assert (db_items d1 = <[id := {| it_record := row; it_deleted_at_ms := None |}]> (db_items d)) as Hitems
      by (unfold d1; by case_match).
    destruct Hi as [Hr Hf He]. split; rewrite Hitems.
    - apply map_Forall_insert_2; [|done]. split; [done|]. cbn [it_record].
      unfold item_row_ok in Hrow. rewrite !andb_true_iff in Hrow. destruct Hrow as [_ Hrow]. lia.
    - intros i j a b. rewrite !lookup_insert_Some.
      intros [[<- <-]|[Hn Ha]] [[<- <-]|[Hn' Hb]] Hla Hlb Hne; [done| | |by apply (Hf i j)].
      + cbn [it_record]. apply (fact_free _ _ Hfree j b); [done|cbn; congruence|done].
      + cbn [it_record]. rewrite same_fact_sym. apply (fact_free _ _ Hfree i a); [done|cbn; congruence|done].
    - intros i g e Hx. apply lookup_insert_is_Some. destruct (decide (id = i)); [by left|right; split; [done|]].
      apply (He i g e). unfold d1 in Hx. db_simpl. case_match; [|done].
      by apply map_lookup_filter_Some in Hx as [? _]. }
  rewrite tx_bind_Ok in Hu. destruct Hu as (jid&d2&He&Hu). apply tx_ret_Ok in Hu as [_ ->].
  apply enqueue_tx_Ok in He as (outbox&->&Hok2&_); [|apply (so_outbox _ Hok1)].
  by apply outbox_only_ok.
Qed.

Lemma run_transaction_ok {A} (m : tx A) d r d' :
  (∀ a d1, m d = Ok (a, d1) → store_ok d1) → store_ok d →
  run_transaction m d = (r, d') → store_ok d'.
Proof.
  unfold run_transaction. intros Hm Hok. destruct (m d) as [[a d1]|e] eqn:E; intros [= _ <-]; [|done].
  by eapply Hm.
Qed.

Lemma import_loop_ok policy now records report d report' d' :
  import_loop policy now records report d = Ok (report', d') → store_ok d → store_ok d'.
Proof.
  revert report d. induction records as [|m records IH]; intros report d; cbn [import_loop].
  { by intros [_ ->]%tx_ret_Ok. }
  rewrite tx_bind_Ok. intros (r1&d1&H1&Hrest) Hok. apply (IH _ _ Hrest). clear IH Hrest.
  unfold import_one in H1. rewrite query_bind_Ok in H1.
  destruct (is_some _), policy; try done; try (by apply tx_ret_Ok in H1 as [_ ->]);
    rewrite tx_bind_Ok in H1; destruct H1 as (rec&d2&Hu&H1); apply tx_ret_Ok in H1 as [_ ->];
    by eapply upsert_tx_Ok.
Qed.

(** *** The other statements on items *)

Lemma alter_items_ok (f : ItemRow → ItemRow) id d :
  store_ok d →
  (∀ row, item_ok id row → item_ok id (f row) ∧ (live_row (f row) → live_row row) ∧
    (∀ x, same_fact (it_record (f row)) x = same_fact (it_record row) x) ∧
    (∀ x, same_fact x (it_record (f row)) = same_fact x (it_record row))) →
  store_ok (set_items (alter f id) d).
Proof.
  intros [Hd Ho Hi] Hf. split; [by apply (db_ok_same d)|done|].
  apply (items_ok_update d); [done|..]; db_simpl.
  - intros i row'. rewrite lookup_alter_Some. intros [[<- (row&Hr&->)]|[_ Hr]].
    + exists row. split; [done|]. apply Hf, (is_rows _ Hi _ _ Hr).
    + exists row'. split; [done|]. split; [by apply (is_rows _ Hi)|done].
  - intros i [row Hr]. destruct (decide (i = id)) as [->|Hne].
    + rewrite lookup_alter_eq, Hr. by eexists.
    + rewrite lookup_alter_ne, Hr by done. by eexists.
  - intros i g e Hx%(is_embeddings _ Hi). destruct (decide (i = id)) as [->|Hne].
    + rewrite lookup_alter_eq. by apply fmap_is_Some.
    + by rewrite lookup_alter_ne.
Qed.

Lemma soft_delete_ok id now d b d' : soft_delete id now d = (b, d') → store_ok d → store_ok d'.
Proof.
  unfold soft_delete. destruct (load_record id d); intros [= _ <-] Hok; [|done].
  apply alter_items_ok; [done|]. intros row Hrow. split; [by apply soft_deleted_ok|]. done.
Qed.

Lemma purge_expired_ok now d n d' : purge_expired now d = (n, d') → store_ok d → store_ok d'.
Proof.
  unfold purge_expired. intros [= _ <-] [Hd Ho Hi]. split; [by apply (db_ok_same d)|done|].
  apply (items_ok_update d); [done|..]; db_simpl.
  - intros i row'. rewrite lookup_fmap. intros (row&Hr&->)%fmap_Some. exists row. split; [done|].
    pose proof (is_rows _ Hi _ _ Hr) as Hrow. destruct (item_expired now row); [|done].
    split; [by apply soft_deleted_ok|done].
  - intros i [row Hr]. rewrite lookup_fmap, Hr. by eexists.
  - intros i g e Hx%(is_embeddings _ Hi). rewrite lookup_fmap. by apply fmap_is_Some.
Qed.

Lemma put_embedding_ok e now d r d' : put_embedding e now d = (r, d') → store_ok d → store_ok d'.
Proof.
  unfold put_embedding. destruct (embedding_input_validate e); [|by intros [= _ <-]].
  intros Hrun Hok. refine (run_transaction_ok _ _ _ _ _ Hok Hrun). clear Hrun. intros [] d1 Hp.
  unfold put_embedding_tx in Hp. cbv zeta in Hp. rewrite constraint_bind_Ok, query_bind_Ok in Hp.
  destruct Hp as [_ Hp].
  destruct (db_items d !! ei_item_id e) as [row|] eqn:Hrow; [|done]. cbn [is_some negb] in Hp.
  rewrite execute_bind_Ok, execute_Ok in Hp. subst d1. apply alter_items_ok.
  - destruct Hok as [Hd Ho Hi]. split; [by apply (db_ok_same d)|done|].
    destruct Hi as [Hr Hf He]. split; db_simpl; [done..|]. intros i g x. rewrite lookup_insert_Some.
    intros [[[= <- _] _]|[_ Hx]]; [by eexists|by eapply He].
  - intros row' [Hid Hrev]. unfold live_row. destruct (it_deleted_at_ms row') eqn:Hdel; cbn [is_none is_some negb].
    + split; [by split|]. split; [congruence|done].
    + split; [by split|done].
Qed.

(** *** Erasure and commits keep the other tables *)

Lemma commit_batch_store draw b d r d' : commit_batch draw b d = (r, d') → store_ok d → store_ok d'.
Proof.
  intros Hc [Hd Ho Hi]. destruct (commit_batch_keeps _ _ _ _ _ Hd Hc) as [Hd' Hg]. split; [done| |].
  - by rewrite (gr_outbox _ _ Hg).
  - by apply (items_ok_same d); [apply (gr_items _ _ Hg)|apply (gr_embeddings _ _ Hg)|].
Qed.

Lemma erased_from_store scope d d' : erased_from scope d d' → store_ok d → store_ok d'.
Proof.
  intros He [Hd Ho Hi]. split; [by eapply erased_from_ok| |].
  - destruct Ho as [Hr Hk]. split.
    + intros n j Hj. apply (er_jobs _ _ _ He) in Hj as [Hj _]. by apply Hr.
    + intros n n' j j' key Hj Hj'. apply (er_jobs _ _ _ He) in Hj as [Hj _], Hj' as [Hj' _]. by apply Hk.
  - destruct Hi as [Hr Hf Hemb]. split.
    + intros id row Hrow. apply (er_items _ _ _ He) in Hrow as [Hrow _]. by apply Hr.
    + intros id id' r r' Hx Hx'. apply (er_items _ _ _ He) in Hx as [Hx _], Hx' as [Hx' _]. by apply Hf.
    + intros id g e Hx. apply (er_embeddings _ _ _ He) in Hx as [Hx Hn].
      destruct (Hemb _ _ _ Hx) as [row Hrow]. exists row. by apply (er_items _ _ _ He).
Qed.

Lemma delete_rows_Ok authorized scope d audit scope_sha256 erasure_id request d' :
  scope = er_scope request →
  erase_transaction authorized scope_sha256 erasure_id request d = Ok (audit, d') →
  d' = set_audit <[erasure_id := audit]> (after_erasure scope d).
Proof.
  intros -> He. unfold erase_transaction, delete_jobs, delete_sources, delete_memories, delete_turns in He.
  rewrite !query_bind_Ok, tx_bind_Ok in He. destruct He as (n&d1&Hj&He).
  rewrite query_bind_Ok, execute_bind_Ok in Hj. apply tx_ret_Ok in Hj as [-> ->].
  rewrite tx_unit_Ok in He. destruct He as (d2&Hs&He).
  rewrite query_bind_Ok, constraint_bind_Ok, execute_Ok in Hs. destruct Hs as [_ ->].
  rewrite tx_unit_Ok in He. destruct He as (d3&Hm&He).
  rewrite query_bind_Ok, constraint_bind_Ok, query_bind_Ok, constraint_bind_Ok, execute_Ok in Hm.
  destruct Hm as (_&_&->). rewrite tx_unit_Ok in He. destruct He as (d4&Ht&He).
  rewrite query_bind_Ok, constraint_bind_Ok, query_bind_Ok, constraint_bind_Ok, execute_Ok in Ht.
  destruct Ht as (_&_&->). unfold delete_items in He. rewrite execute_bind_Ok, tx_unit_Ok in He.
  destruct He as (d5&Ha&He). unfold insert_audit in Ha.
  rewrite query_bind_Ok, !constraint_bind_Ok, execute_Ok in Ha. destruct Ha as (_&_&->).
  by apply tx_ret_Ok in He as [-> ->].
Qed.

Lemma erase_store_ok scope_sha256 erasure_id request w r w' :
  erase_character_memory scope_sha256 erasure_id request w = (r, w') →
  store_ok (wr_db w) → store_ok (wr_db w').
Proof.
  unfold erase_character_memory. destruct (erasure_request_validate request); [|by intros [= _ <-]].
  destruct (run_transaction _ _) as [r0 d0] eqn:Hrun. intros [= _ <-] Hok. cbn.
  revert Hrun. cbn [wr_db wr_erasure_authorized]. apply run_transaction_ok; [|done].
  intros audit d1 Ht%(delete_rows_Ok _ (er_scope request)); [|done]. subst d1.
  eapply (erased_from_store (er_scope request)); [|exact Hok].
  by destruct (after_erasure_from (er_scope request) (wr_db w)).
Qed.

(** ** Every database the store can produce *)

Lemma enqueue_reindex_ok r now ms d u d' :
  enqueue_reindex r now ms d = Ok (u, d') → store_ok d → store_ok d'.
Proof.
  revert d. induction ms as [|m ms IH]; intros d; cbn [enqueue_reindex]; [by intros [_ ->]%tx_ret_Ok|].
  rewrite tx_bind_Ok. intros (id&d1&He&Hrest) Hok. apply (IH d1 Hrest).
  apply enqueue_tx_Ok in He as (o&->&?&_); [|apply Hok]. by apply outbox_only_ok.
Qed.

Lemma reindex_store_ok request now d r d' : reindex request now d = (r, d') → store_ok d → store_ok d'.
Proof.
  unfold reindex. destruct (reindex_checks request); [|by intros [= _ <-]]. intros Hrun Hok.
  refine (run_transaction_ok _ _ _ _ _ Hok Hrun). clear Hrun. intros report d1 Hr.
  unfold reindex_tx in Hr. rewrite query_bind_Ok, tx_bind_Ok in Hr. destruct Hr as (u&d2&He&Hr).
  apply tx_ret_Ok in Hr as [_ ->]. by eapply enqueue_reindex_ok.
Qed.

(** ** The constraints of the tables *)

(** A text column: not blank, and bounded; an optional one holds such a text or nothing; a
    weight lies between zero and one. *)
Definition column_text (bound : Z) (s : str) : Prop := 0 < sql_length (sql_trim s) ∧ sql_length s ≤ bound.
Definition column_option (o : option str) : Prop := ∀ s, o = Some s → column_text 512 s.
Definition column_weight (x : f64) : Prop := f_le f_zero x = true ∧ f_le x f64_one = true.

Definition scope_checked (s : AuthorityScope) : Prop :=
  column_text 512 (sc_user_id s) ∧ column_text 512 (sc_profile_id s) ∧ column_text 512 (sc_game_id s) ∧
  column_option (sc_character_id s) ∧ column_option (sc_encounter_id s) ∧
  column_option (sc_session_id s) ∧ column_option (sc_save_id s).

Record turn_checked (t : DeliveredTurnRecord) : Prop := {
  tc_id : column_text 512 (dt_turn_id t);
  tc_scope : scope_checked (dt_scope t);
  tc_text : column_text 1048576 (dt_delivered_text t);
  tc_digest : sql_length (dt_content_sha256 t) = 64;
  tc_times : dt_created_at_ms t ≤ dt_delivered_at_ms t;
  tc_sequence : 0 ≤ dt_sequence t;
  tc_generation : 0 ≤ dt_cancellation_generation t;
  tc_provider : column_option (dt_provider_id t);
  tc_receipt : column_option (dt_delivery_receipt_id t)
}.

Record memory_checked (m : DerivedMemoryRecord) : Prop := {
  mc_id : column_text 512 (dr_id m);
  mc_scope : scope_checked (dr_scope m);
  mc_content : column_text 1048576 (dr_content m);
  mc_digest : sql_length (dr_content_sha256 m) = 64;
  mc_confidence : column_weight (dr_confidence m);
  mc_importance : column_weight (dr_importance m);
  mc_expiry : ∀ expiry, dr_expires_at_ms m = Some expiry → dr_observed_at_ms m < expiry;
  mc_generator : dr_class m = LongTermSummary → is_Some (dr_generator m)
}.

Record item_checked (r : MemoryRecord) : Prop := {
  ic_content : column_text 1048576 (me_content r);
  ic_digest : sql_length (me_content_sha256 r) = 64;
  ic_confidence : column_weight (me_confidence r);
  ic_importance : column_weight (me_importance r);
  ic_expiry : ∀ expiry, me_expires_at_ms r = Some expiry → me_observed_at_ms r < expiry;
  ic_generation : ∀ g, me_embedding_generation r = Some g → 0 ≤ g;
  ic_revision : 0 < me_revision r
}.

Record embedding_checked (generation : Z) (e : EmbeddingRow) : Prop := {
  ec_generation : 0 ≤ generation;
  ec_model : 0 < sql_length (sql_trim (eb_model_id e));
  ec_dimensions : 0 < eb_dimensions e ≤ 65536;
  ec_norm : f_lt f_zero (eb_l2_norm e) = true
}.

Record job_checked (j : OutboxJob) : Prop := {
  jc_kind : 0 < sql_length (sql_trim (jb_kind j));
  jc_attempts : 0 ≤ jb_attempts j;
  jc_max_attempts : 0 < jb_max_attempts j;
  jc_lease : jb_status j = JobProcessing ↔ is_Some (jb_lease_owner j) ∧ is_Some (jb_lease_expires_at_ms j)
}.

Record audit_checked (a : MemoryErasureAudit) : Prop := {
  ac_id : sql_length (au_erasure_id a) = 36;
  ac_digest : sql_length (au_scope_sha256 a) = 64;
  ac_at : 0 ≤ au_erased_at_ms a
}.

(** Every row of every table. *)
Record tables_checked d : Prop := {
  tk_turns : map_Forall (λ _ t, turn_checked t) (db_turns d);
  tk_memories : map_Forall (λ _ m, memory_checked m) (db_memories d);
  tk_sources : map_Forall (λ _ i, 0 ≤ i) (db_sources d);
  tk_items : map_Forall (λ _ row, item_checked (it_record row)) (db_items d);
  tk_embeddings : map_Forall (λ key e, embedding_checked key.2 e) (db_embeddings d);
  tk_jobs : map_Forall (λ _ row, job_checked (jr_job row)) (db_outbox d);
  tk_audit : map_Forall (λ _ a, audit_checked a) (db_audit d)
}.

(** *** What the statements test is what the tables say *)

Lemma sql_text_ok_spec n s : sql_text_ok n s = true ↔ column_text n s.
Proof. unfold sql_text_ok, column_text. rewrite andb_true_iff. lia. Qed.

Lemma sql_null_or_text_spec o : sql_null_or_text 512 o = true ↔ column_option o.
Proof.
  unfold sql_null_or_text, column_option. destruct o as [s|]; cbn; [|naive_solver].
  rewrite sql_text_ok_spec. naive_solver.
Qed.

Lemma range_weight x : range_contains f_zero f64_one x = true ↔ column_weight x.
Proof. unfold range_contains. by rewrite andb_true_iff. Qed.

Lemma none_or_later (o : option Z) x : is_none_or o (λ expiry, x <? expiry) = true ↔
  ∀ expiry, o = Some expiry → x < expiry.
Proof. destruct o; cbn; [rewrite Z.ltb_lt|]; naive_solver. Qed.

Lemma scope_columns_spec s : scope_columns_ok s = true ↔ scope_checked s.
Proof.
  unfold scope_columns_ok, scope_checked.
  rewrite !andb_true_iff, !sql_text_ok_spec, !sql_null_or_text_spec. tauto.
Qed.

Lemma turn_row_checked t : turn_row_ok t = true → turn_checked t.
Proof.
  unfold turn_row_ok.
  rewrite !andb_true_iff, !sql_text_ok_spec, !sql_null_or_text_spec, scope_columns_spec, !Z.leb_le, Z.eqb_eq.
  intros. destruct_and!. by split.
Qed.

Lemma memory_row_spec m : memory_row_ok m = true → memory_checked m.
Proof.
  unfold memory_row_ok.
  rewrite !andb_true_iff, !sql_text_ok_spec, scope_columns_spec, !range_weight, none_or_later, Z.eqb_eq,
    orb_true_iff, bool_decide_eq_true.
  intros. destruct_and!. split; try done. intros Hc. by destruct (dr_generator m); [|naive_solver].
Qed.

Lemma item_row_spec r : item_row_ok r = true → item_checked r.
Proof.
  unfold item_row_ok.
  rewrite !andb_true_iff, sql_text_ok_spec, !range_weight, none_or_later, Z.eqb_eq, Z.ltb_lt.
  intros. destruct_and!. split; try done. intros g Hg.
  destruct (me_embedding_generation r); [|done]. cbn in *. naive_solver lia.
Qed.

Lemma embedding_row_spec g e : embedding_row_ok g e = true → embedding_checked g e.
Proof.
  unfold embedding_row_ok. rewrite !andb_true_iff, !Z.leb_le, !Z.ltb_lt. intros. destruct_and!. by split.
Qed.

Lemma job_row_spec j : job_row_ok j = true → job_checked j.
Proof.
  unfold job_row_ok. rewrite !andb_true_iff, !Z.leb_le, !Z.ltb_lt, eqb_true_iff.
  intros [[[??]?] Hlease]. split; [done..|].
  rewrite <-(bool_decide_eq_true (jb_status j = JobProcessing)), Hlease, andb_true_iff.
  destruct (jb_lease_owner j), (jb_lease_expires_at_ms j); cbn; unfold is_Some; naive_solver.
Qed.

Lemma audit_row_spec a : audit_row_ok a = true → audit_checked a.
Proof. unfold audit_row_ok. rewrite !andb_true_iff, !Z.eqb_eq, Z.leb_le. intros. destruct_and!. by split. Qed.

(** *** Statements that keep them *)

Definition keeps {A} (m : tx A) : Prop :=
  ∀ d a d', m d = Ok (a, d') → tables_checked d → tables_checked d'.

Lemma keeps_ret {A} (a : A) : keeps (mret a).
Proof. by intros d ? ? [-> ->]%tx_ret_Ok. Qed.

Lemma keeps_fail {A} e : keeps (fail e : tx A).
Proof. by intros d ? ?. Qed.

Lemma keeps_query {A} (f : MemoryDb → A) : keeps (query f).
Proof. by intros d ? ? [= _ ->]. Qed.

Lemma keeps_lift {A} (r : result MemoryError A) : keeps (lift r).
Proof. intros d ? ?. unfold lift. destruct r; [by intros [= _ ->]|done]. Qed.

Lemma keeps_execute f : (∀ d, tables_checked d → tables_checked (f d)) → keeps (execute f).
Proof. intros Hf d u d' Hx%execute_Ok Hd. rewrite Hx. by apply Hf. Qed.

Lemma keeps_bind {A B} (m : tx A) (k : A → tx B) : keeps m → (∀ a, keeps (k a)) → keeps (m ≫= k).
Proof. intros Hm Hk d b d' (a&d1&H1&H2)%tx_bind_Ok Hd. apply (Hk a _ _ _ H2), (Hm _ _ _ H1), Hd. Qed.

Lemma keeps_constraint {B} (c : bool) code (k : unit → tx B) :
  (c = true → keeps (k tt)) → keeps (constraint c code ≫= k).
Proof. intros Hk d b d' [Hc Hr]%constraint_bind_Ok. exact (Hk Hc d b d' Hr). Qed.

Lemma keeps_run {A} (m : tx A) d r d' :
  keeps m → run_transaction m d = (r, d') → tables_checked d → tables_checked d'.
Proof.
  unfold run_transaction. intros Hm. destruct (m d) as [[a d1]|e] eqn:E; intros [= _ <-]; [|done].
  by eapply Hm.
Qed.

(** Goes through a transaction, statement by statement. *)
Ltac keep :=
  repeat lazymatch goal with
    | |- keeps (mbind _ (constraint _ _)) => apply keeps_constraint; intros ?
    | |- keeps (mbind _ _) => apply keeps_bind; [|intros ?]
    | |- keeps (mret _) => apply keeps_ret
    | |- keeps (fail _) => apply keeps_fail
    | |- keeps (query _) => apply keeps_query
    | |- keeps (lift _) => apply keeps_lift
    | |- keeps (match ?x with _ => _ end) => destruct x eqn:?
    | |- keeps _ => assumption
    end.

(** One table changes. *)
Lemma checked_delete {K A} `{Countable K} (P : K → A → Prop) (Q : K * A → Prop) `{∀ x, Decision (Q x)}
    (m : gmap K A) : map_Forall P m → map_Forall P (filter Q m).
Proof. intros Hm k x [Hx _]%map_lookup_filter_Some. by apply Hm. Qed.

Lemma checked_alter {K A} `{Countable K} (P : K → A → Prop) (f : A → A) k (m : gmap K A) :
  (∀ x, P k x → P k (f x)) → map_Forall P m → map_Forall P (alter f k m).
Proof. intros Hf Hm i x. rewrite lookup_alter_Some. intros [[<- (y&?&->)]|[_ ?]]; auto. Qed.

Ltac one_table :=
  intros ? []; split; db_simpl; try done; try by apply checked_delete.

Lemma keeps_each {A} (f : A → tx unit) l : (∀ x, keeps (f x)) → keeps (each_tx f l).
Proof. intros Hf. induction l as [|x l IH]; cbn [each_tx]; keep. apply Hf. Qed.

Lemma keeps_enqueue job now : keeps (enqueue_job_tx job now).
Proof.
  unfold enqueue_job_tx. keep. apply keeps_execute. one_table. apply map_Forall_insert_2; [|done].
  by apply job_row_spec.
Qed.

Lemma keeps_commit_turns ts r : keeps (commit_turns ts r).
Proof.
  revert r. induction ts as [|t ts IH]; intros r; cbn [commit_turns]; keep; [|apply IH].
  unfold commit_one_turn. keep. unfold insert_turn. keep. apply keeps_execute. one_table.
  apply map_Forall_insert_2; [|done]. by apply turn_row_checked.
Qed.

Lemma keeps_insert_derived uuid now m : keeps (insert_derived_memory uuid now m).
Proof.
  unfold insert_derived_memory. keep.
  - apply keeps_each. intros id. unfold check_source. keep.
  - apply keeps_execute. one_table. apply map_Forall_insert_2; [|done]. by apply memory_row_spec.
  - apply keeps_each. intros [i turn]. unfold insert_source. keep. apply keeps_execute. one_table.
    apply map_Forall_insert_2; [lia|done].
Qed.

Lemma keeps_commit_memories draw ms r : keeps (commit_memories draw ms r).
Proof.
  revert draw r. induction ms as [|m ms IH]; intros draw r; cbn [commit_memories]; keep; [|apply IH].
  apply keeps_insert_derived.
Qed.

Lemma keeps_erase authorized digest id request : keeps (erase_transaction authorized digest id request).
Proof.
  unfold erase_transaction, delete_jobs, delete_sources, delete_memories, delete_turns, delete_items,
    insert_audit. keep; apply keeps_execute; try one_table.
  apply map_Forall_insert_2; [|done]. by apply audit_row_spec.
Qed.

Lemma keeps_upsert uuid m now : keeps (upsert_in_transaction uuid m now).
Proof.
  unfold upsert_in_transaction. keep; try apply keeps_enqueue; apply keeps_execute.
  - one_table. apply map_Forall_insert_2; [|done]. by apply item_row_spec.
  - match goal with |- context [if ?b then _ else _] => destruct b end; [one_table|done].
Qed.

Lemma keeps_import policy now records report : keeps (import_loop policy now records report).
Proof.
  revert report. induction records as [|m records IH]; intros report; cbn [import_loop]; keep; [|apply IH].
  unfold import_one. keep; apply keeps_upsert.
Qed.

Lemma keeps_reindex request now : keeps (reindex_tx request now).
Proof.
  unfold reindex_tx. keep. match goal with |- keeps (enqueue_reindex _ _ ?ms) => generalize ms end.
  intros ms. induction ms as [|m ms IH]; cbn [enqueue_reindex]; keep. apply keeps_enqueue.
Qed.

Lemma keeps_embedding e now : keeps (put_embedding_tx e now).
Proof.
  unfold put_embedding_tx. cbv zeta. apply keeps_constraint. intros He%embedding_row_spec.
  keep; apply keeps_execute; one_table.
  - by apply map_Forall_insert_2.
  - apply checked_alter; [|done]. intros row []. destruct (is_none _); [|by split].
    split; cbn; try done. intros g [= <-]. apply (ec_generation _ _ He).
Qed.

(** *** Jobs, and items that are deleted *)

Lemma set_job_checked status attempts available owner expires error now j :
  job_checked j → 0 ≤ attempts →
  (status = JobProcessing ↔ is_Some owner ∧ is_Some expires) →
  job_checked (set_job status attempts available owner expires error now j).
Proof. intros [] ? ?. by split. Qed.

Lemma not_leased status : status ≠ JobProcessing →
  status = JobProcessing ↔ is_Some (None : option str) ∧ is_Some (None : option Z).
Proof. intros Hs. split; [done|]. by intros [[? ?] _]. Qed.

Lemma recover_job_checked now j : job_checked j → job_checked (recover_job now j).
Proof.
  intros Hj. unfold recover_job. destruct (lease_expired now j); [|done].
  apply set_job_checked; [done|apply (jc_attempts _ Hj)|]. apply not_leased. by case_match.
Qed.

Lemma lease_job_checked worker expires now j : job_checked j → job_checked (lease_job worker expires now j).
Proof.
  intros Hj. unfold lease_job. case_bool_decide; [|done].
  apply set_job_checked; [done|pose proof (jc_attempts _ Hj); lia|]. split; [by eauto|done].
Qed.

Lemma keeps_claim worker now lease limit : keeps (claim_jobs_tx worker now lease limit).
Proof.
  unfold claim_jobs_tx. keep.
  - apply keeps_execute. one_table. intros id row. rewrite lookup_fmap. intros (r&Hr&->)%fmap_Some.
    cbn. by apply recover_job_checked, (tk_jobs0 id r).
  - apply keeps_execute. one_table. match goal with |- context [foldr _ _ ?ids] => induction ids end; cbn; [done|].
    apply checked_alter; [|done]. intros row ?. cbn. by apply lease_job_checked.
  - match goal with |- keeps (load_jobs ?ids) => generalize ids end. intros ids.
    induction ids as [|id ids IH]; cbn [load_jobs]; keep.
Qed.

Lemma keeps_fail_job id worker now retry error : keeps (fail_job_tx id worker now retry error).
Proof.
  unfold fail_job_tx. keep. apply keeps_execute. one_table. apply checked_alter; [|done].
  intros row Hj. cbn. apply set_job_checked; [done|apply (jc_attempts _ Hj)|]. apply not_leased. by case_match.
Qed.

Lemma complete_job_checked id worker now d b d' :
  complete_job id worker now d = (b, d') → tables_checked d → tables_checked d'.
Proof.
  unfold complete_job. destruct (load_job id d) as [j|]; [destruct (leased_by worker j)|];
    intros [= _ <-]; [|done..]. revert d. one_table.
  apply checked_alter; [|done]. intros row Hj. cbn.
  by apply set_job_checked; [|apply (jc_attempts _ Hj)|apply not_leased].
Qed.

Lemma soft_deleted_checked now row :
  item_checked (it_record row) → item_checked (it_record (soft_deleted now row)).
Proof. intros []. split; cbn; try done. lia. Qed.

(** One call of the store, with whatever answer. *)
Inductive store_step : MemoryDb → MemoryDb → Prop :=
| step_commit draw b d r d' : commit_batch draw b d = (r, d') → store_step d d'
| step_erase digest id request w r w' :
    erase_character_memory digest id request w = (r, w') → store_step (wr_db w) (wr_db w')
| step_enqueue job now d r d' : enqueue_job job now d = (r, d') → store_step d d'
| step_claim worker now lease limit d r d' :
    0 ≤ limit → claim_jobs worker now lease limit d = (r, d') → store_step d d'
| step_complete id worker now d b d' : complete_job id worker now d = (b, d') → store_step d d'
| step_fail id worker now retry error d r d' :
    fail_job id worker now retry error d = (r, d') → store_step d d'
| step_upsert uuid m now d r d' : upsert uuid m now d = (r, d') → store_step d d'
| step_import records policy now d r d' : import records policy now d = (r, d') → store_step d d'
| step_soft_delete id now d b d' : soft_delete id now d = (b, d') → store_step d d'
| step_purge now d n d' : purge_expired now d = (n, d') → store_step d d'
| step_embed e now d r d' : put_embedding e now d = (r, d') → store_step d d'
| step_reindex request now d r d' : reindex request now d = (r, d') → store_step d d'.

Lemma claim_jobs_Err worker now lease limit d e d' :
  claim_jobs worker now lease limit d = (Err e, d') → d' = d.
Proof.
  unfold claim_jobs. repeat (case_match; [by intros [= _ <-]|]). unfold run_transaction.
  destruct (claim_jobs_tx _ _ _ _ d) as [[js d1]|e']; [done|]. by intros [= _ <-].
Qed.

Lemma store_step_ok d d' : store_step d d' → store_ok d → store_ok d'.
Proof.
  intros Hstep. destruct Hstep as [draw b d r d' Hs|digest id request w r w' Hs|job now d r d' Hs
    |worker now lease limit d r d' Hl Hs|id worker now d b d' Hs|id worker now retry error d r d' Hs
    |uuid m now d r d' Hs|records policy now d r d' Hs|id now d b d' Hs|now d n d' Hs|e now d r d' Hs
    |request now d r d' Hs]; intros Hok.
  - by eapply commit_batch_store.
  - by eapply erase_store_ok.
  - unfold enqueue_job in Hs. destruct (validate_job job); [|by injection Hs as _ <-].
    refine (run_transaction_ok _ _ _ _ _ Hok Hs). clear Hs. intros ? ? (o&->&?&_)%enqueue_tx_Ok; [|apply Hok].
    by apply outbox_only_ok.
  - destruct r as [jobs|e]; [|by apply claim_jobs_Err in Hs as ->].
    apply claim_jobs_Ok in Hs as [-> _]; [|apply Hok|done].
    apply outbox_only_ok; [done|]. apply claimed_outbox_ok, Hok.
  - apply complete_job_effect in Hs as (?&->&_); [|apply Hok]. by apply outbox_only_ok.
  - apply fail_job_effect in Hs as (?&->); [|apply Hok]. by apply outbox_only_ok.
  - unfold upsert in Hs. destruct (memory_input_validate m); [|by injection Hs as _ <-].
    refine (run_transaction_ok _ _ _ _ _ Hok Hs). clear Hs. intros ? ? Hu. by eapply upsert_tx_Ok.
  - unfold import in Hs. destruct (check_all check_import records); [|by injection Hs as _ <-].
    refine (run_transaction_ok _ _ _ _ _ Hok Hs). clear Hs. intros ? ? Hu. by eapply import_loop_ok.
  - by eapply soft_delete_ok.
  - by eapply purge_expired_ok.
  - by eapply put_embedding_ok.
  - by eapply reindex_store_ok.
Qed.

Lemma store_step_checked d d' : store_step d d' → tables_checked d → tables_checked d'.
Proof.
  intros Hstep. destruct Hstep as [draw b d r d' Hs|digest id request w r w' Hs|job now d r d' Hs
    |worker now lease limit d r d' Hl Hs|id worker now d b d' Hs|id worker now retry error d r d' Hs
    |uuid m now d r d' Hs|records policy now d r d' Hs|id now d b d' Hs|now d n d' Hs|e now d r d' Hs
    |request now d r d' Hs].
  - unfold commit_batch in Hs. destruct (commit_batch_checks b); [|by injection Hs as _ <-].
    eapply keeps_run; [|exact Hs]. unfold commit_authoritative_batch. keep;
      [apply keeps_commit_turns|apply keeps_commit_memories].
  - unfold erase_character_memory in Hs. destruct (erasure_request_validate request); [|by injection Hs as _ <-].
    destruct (run_transaction _ _) as [r0 d0] eqn:Hrun. injection Hs as _ <-. cbn.
    revert Hrun. cbn [wr_db]. apply keeps_run, keeps_erase.
  - unfold enqueue_job in Hs. destruct (validate_job job); [|by injection Hs as _ <-].
    eapply keeps_run; [apply keeps_enqueue|exact Hs].
  - unfold claim_jobs in Hs. repeat (case_match; [by injection Hs as _ <-|]).
    eapply keeps_run; [apply keeps_claim|exact Hs].
  - by eapply complete_job_checked.
  - unfold fail_job in Hs. case_match; [by injection Hs as _ <-|].
    eapply keeps_run; [apply keeps_fail_job|exact Hs].
  - unfold upsert in Hs. destruct (memory_input_validate m); [|by injection Hs as _ <-].
    eapply keeps_run; [apply keeps_upsert|exact Hs].
  - unfold import in Hs. destruct (check_all check_import records); [|by injection Hs as _ <-].
    eapply keeps_run; [apply keeps_import|exact Hs].
  - unfold soft_delete in Hs. destruct (load_record id d); injection Hs as _ <-; [|done].
    revert d. one_table. apply checked_alter; [|done]. intros row. apply soft_deleted_checked.
  - unfold purge_expired in Hs. injection Hs as _ <-. revert d. one_table. intros id row.
    rewrite lookup_fmap. intros (x&Hx&->)%fmap_Some. apply tk_items0 in Hx.
    destruct (item_expired now x); [by apply soft_deleted_checked|done].
  - unfold put_embedding in Hs. destruct (embedding_input_validate e); [|by injection Hs as _ <-].
    eapply keeps_run; [apply keeps_embedding|exact Hs].
  - unfold reindex in Hs. destruct (reindex_checks request); [|by injection Hs as _ <-].
    eapply keeps_run; [apply keeps_reindex|exact Hs].
Qed.

Lemma empty_store_ok : store_ok empty_db.
Proof.
  split; [apply empty_db_ok| |].
  - split; cbn; [apply map_Forall_empty|]. by intros.
  - split; cbn; [apply map_Forall_empty| |]; by intros.
Qed.

Lemma empty_checked : tables_checked empty_db.
Proof. split; apply map_Forall_empty. Qed.

(** C30: Every sequence of calls keeps the database sound: turns and memories are what they
    were when they were delivered and derived, no source dangles, jobs keep their lease
    discipline and their unique keys, items keep their keys, a fact is recorded once among
    the items that are not deleted, and an embedding belongs to an item. And every row
    satisfies the constraints of its table, whichever call changed it last: texts that are
    not blank and bounded, digests of 64 characters, weights between zero and one, an expiry
    after the observation, deliveries after their creation, attempts and revisions in range,
    a lease exactly while a job is processed, a generator for every summary. Calls that
    fail, in whatever way, are included. *)
Theorem reachable_store_ok d : rtc store_step empty_db d → store_ok d ∧ tables_checked d.
Proof.
  intros Hr. assert (store_ok empty_db ∧ tables_checked empty_db → store_ok d ∧ tables_checked d) as Hk;
    [|by apply Hk; split; [apply empty_store_ok|apply empty_checked]].
  induction Hr as [d0|d0 d1 d2 Hstep _ IH]; [done|]. intros [Hok Hch]. apply IH. split.
  - by apply (store_step_ok d0).
  - by apply (store_step_checked d0).
Qed.
End spec.

(** * Conversation memory: what retrieval returns

    The answer of a search over the items does not depend on the order of a hash map, and
    shows only what the caller may see. *)

#[local] Open Scope Z_scope.

Section spec.
Context `{JsonValueApi} `{!EqDecision json_value} `{DigestApi} `{NanApi} `{FtsApi}.
Implicit Types d : MemoryDb.

Notation ranked := (MemoryRecord * f64 * CandidateRanks)%type.

Lemma rank_order_preorder : cmp_preorder rank_order.
Proof.
  unfold rank_order. apply cmp_preorder_then.
  { apply (cmp_preorder_flip (λ x y : ranked, f_total_cmp nan_negative x.1.2 y.1.2)).
    apply (cmp_preorder_map (λ x : ranked, f_total_key nan_negative x.1.2) ocmp), cmp_preorder_ocmp. }
  apply cmp_preorder_then.
  { apply (cmp_preorder_flip (λ x y : ranked, f_total_cmp nan_negative (me_importance x.1.1) (me_importance y.1.1))).
    apply (cmp_preorder_map (λ x : ranked, f_total_key nan_negative (me_importance x.1.1)) ocmp), cmp_preorder_ocmp. }
  apply cmp_preorder_then.
  { apply (cmp_preorder_flip (λ x y : ranked, Z.compare (me_observed_at_ms x.1.1) (me_observed_at_ms y.1.1))).
    apply (cmp_preorder_map (λ x : ranked, me_observed_at_ms x.1.1)), cmp_preorder_Z. }
  exact (cmp_preorder_map (λ x : ranked, me_id x.1.1) ocmp cmp_preorder_ocmp).
Qed.

Lemma rank_order_id (l r : ranked) : rank_order l r = Eq → me_id l.1.1 = me_id r.1.1.
Proof.
  unfold rank_order, then_with. do 3 (case_match; try done). intros E.
  exact (proj1 (@ocmp_Eq str ordered_str (me_id l.1.1) (me_id r.1.1)) E).
Qed.

Lemma visible_record_Some q d id r : visible_record q d id = Some r ↔
  load_record id d = Some r ∧
  is_some_and (me_expires_at_ms r) (λ expiry, expiry <=? rq_now_ms q) = false ∧
  record_matches_filter r (rq_filter q) = true.
Proof.
  unfold visible_record. rewrite bind_Some. split.
  - intros (r'&Hl&Hr). destruct (_ || _) eqn:E; [done|]. injection Hr as ->.
    apply orb_false_iff in E as [? ?%negb_false_iff]. done.
  - intros (Hl&He&Hm). exists r. by rewrite He, Hm.
Qed.

Lemma visible_records_lookup q d ids id r :
  visible_records q d ids !! id = Some r ↔ id ∈ ids ∧ visible_record q d id = Some r.
Proof.
  unfold visible_records.
  assert (NoDup (omap (λ id, pair id <$> visible_record q d id) (elements ids)).*1) as Hnd.
  { pose proof (NoDup_elements ids) as Hn. induction Hn as [|x l Hx _ IH]; cbn; [constructor|].
    destruct (visible_record q d x); [|done]. cbn. apply NoDup_cons. split; [|done].
    intros ([k v]&->&Hk)%list_elem_of_fmap. apply list_elem_of_omap in Hk as (y&Hy&Hv).
    destruct (visible_record q d y); [|done]. cbn in Hv. injection Hv as <- _. done. }
  rewrite <-(elem_of_list_to_map _ id r Hnd), list_elem_of_omap. setoid_rewrite elem_of_elements.
  split.
  - intros (x&Hx&Hv). destruct (visible_record q d x) eqn:E; [|done]. cbn in Hv. naive_solver.
  - intros [Hx Hv]. exists id. by rewrite Hv.
Qed.

(** Records are stored under their own identifiers, so no two tie. *)
Lemma candidates_separate (l : list (MemoryRecord * CandidateRanks)) now :
  (∀ a b, a ∈ l → b ∈ l → me_id a.1 = me_id b.1 → a = b) →
  separates rank_order
    ((λ c : MemoryRecord * CandidateRanks, (c.1, candidate_score c.1 c.2 now, c.2)) <$> l).
Proof.
  intros Hl x y Hx Hy E. apply rank_order_id in E.
  apply list_elem_of_fmap in Hx as (a&->&Ha), Hy as (b&->&Hb). cbn in E. by rewrite (Hl a b).
Qed.

Definition hit_of (h : ranked) : SearchHit := {|
  sh_record := h.1.1; sh_score := h.1.2;
  sh_lexical_rank := ck_lexical h.2; sh_semantic_rank := ck_semantic h.2 |}.
Definition ranked_by (lexical semantic : gmap str Z) (r : MemoryRecord) : MemoryRecord * CandidateRanks :=
  (r, {| ck_lexical := lexical !! me_id r; ck_semantic := semantic !! me_id r |}).
Definition ranked_hits (it : HashIter) (q : RetrievalQuery) (lexical semantic : gmap str Z)
    (records : gmap str MemoryRecord) : list SearchHit :=
  hit_of <$> take (Z.to_nat (rq_limit q))
    (rank_candidates (ranked_by lexical semantic <$> hm_values records) (rq_now_ms q)).

Lemma retrieve_shape q d : ∃ e, ∀ it : HashIter,
  match e with
  | Err e => retrieve q d = Err e
  | Ok (lexical, semantic, ids) =>
      retrieve q d = Ok (ranked_hits it q lexical semantic (visible_records q d ids))
  end.
Proof.
  unfold retrieve. destruct (retrieval_query_validate q) as [[]|e]; [|by exists (Err e)].
  cbn -[retrieve_on]. unfold retrieve_on.
  destruct (match rq_embedding q with Some v => _ | None => _ end) as [ids|e]; [|by exists (Err e)].
  cbv zeta. eexists (Ok (_, _, _)). intros it. reflexivity.
Qed.

Lemma hm_values_perm (it it' : HashIter) {A} (m : gmap str A) :
  @hm_values it _ _ _ A m ≡ₚ @hm_values it' _ _ _ A m.
Proof. unfold hm_values. by rewrite !hm_iter_perm. Qed.

Lemma hm_values_elem (it : HashIter) {A} (m : gmap str A) x :
  x ∈ hm_values m ↔ ∃ id, m !! id = Some x.
Proof.
  unfold hm_values. rewrite list_elem_of_fmap. setoid_rewrite hm_iter_perm. split.
  - intros ([id y]&->&Hy%elem_of_map_to_list). by exists id.
  - intros (id&Hid). exists (id, x). split; [done|]. by apply elem_of_map_to_list.
Qed.

(** The records found, under their own identifiers. *)
Lemma visible_records_ok q d ids id r : items_ok d → visible_records q d ids !! id = Some r →
  me_id r = id ∧ visible_record q d id = Some r.
Proof.
  intros Hok [_ Hv]%visible_records_lookup. split; [|done].
  apply visible_record_Some in Hv as (Hl&_). unfold load_record in Hl.
  apply bind_Some in Hl as (row&Hrow&Hl). destruct (is_none _); [|done]. injection Hl as <-.
  apply (io_id _ _ (is_rows _ Hok _ _ Hrow)).
Qed.

Section records.
Variables (q : RetrievalQuery) (lexical semantic : gmap str Z) (records : gmap str MemoryRecord).
Hypothesis Hkeys : ∀ id r, records !! id = Some r → me_id r = id.

Lemma ranked_separate (it : HashIter) :
  separates rank_order
    ((λ c : MemoryRecord * CandidateRanks, (c.1, candidate_score c.1 c.2 (rq_now_ms q), c.2))
     <$> (ranked_by lexical semantic <$> hm_values records)).
Proof.
  apply candidates_separate. intros a b Ha Hb E.
  apply list_elem_of_fmap in Ha as (ra&->&Ha), Hb as (rb&->&Hb). cbn in E.
  apply hm_values_elem in Ha as (ia&Ha), Hb as (ib&Hb).
  pose proof (Hkeys _ _ Ha). pose proof (Hkeys _ _ Hb). subst ia ib. congruence.
Qed.

Lemma ranked_hits_iter (it it' : HashIter) :
  ranked_hits it q lexical semantic records = ranked_hits it' q lexical semantic records.
Proof.
  unfold ranked_hits, rank_candidates. do 2 f_equal. apply (sort_by_perm_eq _ rank_order_preorder).
  - apply ranked_separate.
  - do 2 apply fmap_Permutation. apply hm_values_perm.
Qed.

Lemma ranked_hits_facts (it : HashIter) :
  (length (ranked_hits it q lexical semantic records) ≤ Z.to_nat (rq_limit q))%nat ∧
  NoDup ((λ h, me_id (sh_record h)) <$> ranked_hits it q lexical semantic records) ∧
  ∀ h, h ∈ ranked_hits it q lexical semantic records → ∃ id, records !! id = Some (sh_record h).
Proof.
  unfold ranked_hits. set (rows := rank_candidates _ _).
  assert (rows ≡ₚ (λ c : MemoryRecord * CandidateRanks, (c.1, candidate_score c.1 c.2 (rq_now_ms q), c.2))
     <$> (ranked_by lexical semantic <$> hm_values records)) as Hp by apply sort_by_perm.
  split; [rewrite length_fmap, length_take; lia|]. split.
  - rewrite <-list_fmap_compose.
    assert (NoDup (((λ h, me_id (sh_record h)) ∘ hit_of) <$> rows)) as Hnd.
    { rewrite Hp, <-!list_fmap_compose. unfold compose, hm_values. cbn.
      rewrite <-list_fmap_compose, hm_iter_perm. unfold compose.
      erewrite list_fmap_ext; [apply NoDup_fst_map_to_list|].
      intros i [id r] Hin%list_elem_of_lookup_2. cbn. by apply Hkeys, elem_of_map_to_list. }
    rewrite <-(take_drop (Z.to_nat (rq_limit q)) rows), fmap_app in Hnd.
    by apply NoDup_app in Hnd as [? _].
  - intros h (x&->&Hx%take_elem)%list_elem_of_fmap. rewrite Hp in Hx.
    apply list_elem_of_fmap in Hx as (c&->&Hc). apply list_elem_of_fmap in Hc as (r&->&Hr).
    by apply hm_values_elem in Hr.
Qed.
End records.

(** A search over the items shows only what the caller may see - items that are stored,
    not deleted, not expired, in the namespaces, visibilities and scopes of the filter - at
    most as many as asked and each once, and its answer, order included, does not depend
    on the order in which a hash map is walked. *)
Theorem retrieval_stays_in_filter (it it' : HashIter) q d hits :
  items_ok d → @retrieve _ _ _ it q d = Ok hits →
  @retrieve _ _ _ it' q d = Ok hits ∧
  Z.of_nat (length hits) ≤ Z.max 0 (rq_limit q) ∧ NoDup ((λ h, me_id (sh_record h)) <$> hits) ∧
  Forall (λ h, load_record (me_id (sh_record h)) d = Some (sh_record h) ∧
    (∀ expiry, me_expires_at_ms (sh_record h) = Some expiry → rq_now_ms q < expiry) ∧
    record_matches_filter (sh_record h) (rq_filter q) = true) hits.
Proof.
  intros Hok Hr. destruct (retrieve_shape q d) as [[[[lexical semantic] ids]|e] He].
  2: { by rewrite He in Hr. }
  rewrite !He in *. injection Hr as <-.
  set (records := visible_records q d ids).
  assert (∀ id r, records !! id = Some r → me_id r = id) as Hkeys by (intros; by apply (visible_records_ok q d ids)).
  destruct (ranked_hits_facts q lexical semantic records Hkeys it) as (Hlen&Hnd&Hin).
  split; [f_equal; by apply ranked_hits_iter|]. split; [lia|]. split; [done|].
  apply Forall_forall. intros h (id&Hid)%Hin. apply visible_records_ok in Hid as [<- Hv]; [|done].
  apply visible_record_Some in Hv as (?&Hx&?). split; [done|]. split; [|done].
  intros expiry E. rewrite E in Hx. cbn in Hx. lia.
Qed.
End spec.
