(* ===== verification/MemoryExample.v ===== *)
(** * Conversation memory: a concrete store and witnesses

    Values of attributes are trees over strings; the digest is a padding to 32 bytes; the
    full-text index yields the records whose text contains the query. *)

From S2P Require Import Prelude Text Bytes Float HostedTypes MemoryTypes MemoryStore MemoryFacts MemoryItems MemorySpec MemoryItemsSpec.
From Stdlib Require Import SpecFloat.

#[local] Open Scope Z_scope.

(** ** Instances *)

Notation tree := (gen_tree str).

Fixpoint tree_depth (v : tree) : nat :=
  match v with GenLeaf _ => O | GenNode _ l => S (foldr (λ v n, Nat.max (tree_depth v) n) O l) end.
Definition tree_as_array (v : tree) : option (list tree) :=
  match v with GenNode O l => Some l | _ => None end.
Definition tree_as_str (v : tree) : option str :=
  match v with GenLeaf s => Some s | _ => None end.

Lemma tree_array_depth v vs :
  tree_as_array v = Some vs → Forall (λ w, tree_depth w < tree_depth v)%nat vs.
Proof.
  destruct v as [|[|n] l]; intros [=<-]. apply Forall_forall. intros w Hw. cbn.
  induction l as [|v l IH]; [by apply not_elem_of_nil in Hw|]. cbn.
  apply elem_of_cons in Hw as [->|Hw]; [lia|]. specialize (IH Hw). lia.
Qed.

Lemma tree_array_view (vs : list tree) : tree_as_array (GenNode 0 vs) = Some vs.
Proof. done. Qed.
Lemma tree_array_not_object (vs : list tree) : (None : option (gmap str tree)) = None.
Proof. done. Qed.
Lemma tree_object_depth (v : tree) (m : gmap str tree) :
  None = Some m → map_Forall (λ _ w, tree_depth w < tree_depth v)%nat m.
Proof. done. Qed.

#[local] Instance tree_json : JsonValueApi := {|
  json_value := tree;
  json_parse := λ s, Some (GenLeaf s);
  json_from_slice := λ bytes, GenLeaf <$> utf8_decode bytes;
  json_get := λ key v, None;
  json_pointer := λ pointer v, None;
  json_as_str := tree_as_str;
  json_as_bool := λ v, None;
  json_as_u64 := λ v, None;
  json_as_f64 := λ v, None;
  json_as_array := tree_as_array;
  json_is_object := λ v, false;
  json_encoded_len := λ v, Some 100;
  json_as_object := λ v, None;
  json_null := GenLeaf [];
  json_bool := λ b, GenLeaf (if b then lit "true" else lit "false");
  json_u64 := λ n, GenLeaf (dec n);
  json_f32 := λ x, GenLeaf (lit "number");
  json_string := GenLeaf;
  json_array := GenNode 0;
  json_object := λ m, GenNode 1 ((λ kv, kv.2) <$> map_to_list m);
  json_depth := tree_depth;
  json_array_view := tree_array_view;
  json_array_not_object := tree_array_not_object;
  json_array_depth := tree_array_depth;
  json_object_depth := tree_object_depth |}.

#[local] Instance tree_json_eq_dec : EqDecision (@json_value tree_json).
Proof. change (EqDecision tree). apply _. Defined.
#[local] Instance padding_digest : DigestApi := {| sha256 := λ bytes, take 32 (bytes ++ repeat 0 32) |}.
#[local] Instance ascii_case : UnicodeApi := {| to_lowercase := ascii_lowercase |}.
#[local] Instance positive_nan : NanApi := {| nan_negative := false |}.
#[local] Instance containing_text : FtsApi := {|
  is_alphanumeric := λ c, (97 <=? c) && (c <=? 122);
  fts_match := λ q records, me_id <$> List.filter (λ r : MemoryRecord,
    str_contains (List.filter (λ c, (97 <=? c) && (c <=? 122)) q) (me_content r)) records |}.

(** ** A conversation *)

Definition plain : Provenance := {|
  pv_source_kind := lit "conversation"; pv_source_id := None; pv_source_uri := None;
  pv_author := None; pv_captured_at_ms := None; pv_attributes := ∅ |}.

Definition with_ada : AuthorityScope := {|
  sc_user_id := lit "u"; sc_profile_id := lit "p"; sc_game_id := lit "g";
  sc_character_id := Some (lit "ada"); sc_encounter_id := None; sc_session_id := Some (lit "s1");
  sc_save_id := None |}.

Definition a_turn (id text : string) (speaker : TurnSpeaker) (delivery : DeliveryDisposition) (sequence : Z)
    : TurnCommitInput := {|
  ti_turn_id := lit id; ti_scope := with_ada; ti_speaker := speaker; ti_text := lit text;
  ti_delivery := delivery; ti_created_at_ms := 100; ti_sequence := sequence;
  ti_cancellation_generation := 0; ti_provider_id := None;
  ti_delivery_receipt_id := Some (lit "receipt"); ti_provenance := plain |}.

Definition a_summary : DerivedMemoryInput := {|
  di_id := Some (lit "m1"); di_scope := with_ada; di_class := LongTermSummary;
  di_spoiler_scope := SpCharacterPrivate; di_content := lit "They greeted each other.";
  di_provenance := plain; di_confidence := f64_one; di_importance := f64_one;
  di_observed_at_ms := 300; di_expires_at_ms := Some 900;
  di_source_turn_ids := [lit "t1"; lit "t2"];
  di_generator := Some {| gn_provider_id := lit "local"; gn_model_id := lit "m";
    gn_model_revision := lit "1"; gn_prompt_version := lit "1" |} |}.

(** The second answer was cut off after its first word; the third was never heard. *)
Definition a_batch : MemoryCommitBatch := {|
  mb_turns := [a_turn "t1" "Hello?" SpeakerPlayer (DdDelivered 110) 1;
               a_turn "t2" "Hello there, traveller." SpeakerNpc (DdPartiallyDelivered 5 120) 2;
               a_turn "t3" "Wait!" SpeakerNpc DdCancelled 3];
  mb_derived := [a_summary] |}.

Definition no_draw : nat → str * Z := λ i, (lit "uuid", 400).
Definition committed_call := commit_batch no_draw a_batch empty_db.

Definition call_ok {A} (c : result MemoryError A * MemoryDb) : bool :=
  match c.1 with Ok _ => true | Err _ => false end.
Definition stored_texts (c : result MemoryError MemoryCommitReport * MemoryDb) : list str :=
  match c.1 with Ok r => dt_delivered_text <$> mr_stored_turns r | Err _ => [] end.

Lemma a_batch_stored : stored_texts committed_call = [lit "Hello?"; lit "Hello"].
Proof. vm_compute. reflexivity. Qed.

(** A call that answers [Ok] has an answer and a database. *)
Lemma call_ok_run {A} (c : result MemoryError A * MemoryDb) : call_ok c = true → ∃ r d, c = (Ok r, d).
Proof. destruct c as [[r|e] d]; [by exists r, d|done]. Qed.

Lemma a_batch_runs : ∃ r d, committed_call = (Ok r, d).
Proof. apply call_ok_run. vm_compute. reflexivity. Qed.

Lemma commit_stores_witness : ∃ r d, committed_call = (Ok r, d) ∧
  mr_stored_turns r = omap delivered_row (mb_turns a_batch) ∧
  derived_stored no_draw d (mb_derived a_batch) (mr_derived_memories r) ∧
  length (mb_derived a_batch) = 1%nat ∧ grows empty_db d ∧ db_ok d.
Proof.
  destruct a_batch_runs as (r&d&E). exists r, d. split; [exact E|].
  destruct (commit_stores_what_was_delivered no_draw a_batch empty_db (Ok r) d empty_db_ok E)
    as (Hs&_&Hd&_&_&Hg&Hok&_). split; [exact Hs|]. split; [exact Hd|].
  split; [reflexivity|]. split; [exact Hg|exact Hok].
Defined.

Lemma commit_again_witness : ∃ r d, committed_call = (Ok r, d) ∧
  commit_batch (λ i, (lit "other", 500)) a_batch d = (Ok r, d).
Proof.
  destruct a_batch_runs as (r&d&E). exists r, d. split; [exact E|].
  apply (commit_again_is_harmless no_draw _ a_batch empty_db r d empty_db_ok); [|exact E].
  constructor; [exists (lit "m1"); reflexivity|constructor].
Defined.

(** ** The context of the next prompt *)

Definition after_talk : MemoryDb := committed_call.2.

Lemma after_talk_ok : db_ok after_talk.
Proof.
  unfold after_talk. destruct a_batch_runs as (r&d&E). rewrite E.
  by destruct (commit_batch_keeps no_draw a_batch empty_db (Ok r) d empty_db_ok E).
Qed.

Definition ask (now : Z) : ContextQuery := {|
  cq_scope := with_ada; cq_text := Some (lit "greeted"); cq_spoiler_policy := spoiler_policy_default;
  cq_recent_turn_limit := 1; cq_per_class_limit := 4; cq_now_ms := now |}.

Definition context_texts (r : result MemoryError MemoryContextBundle) : list str * list str :=
  match r with
  | Ok b => (dt_delivered_text <$> mx_recent_dialogue b, dr_content <$> mx_long_term_summaries b)
  | Err _ => ([], [])
  end.

(** The last turn, and the summary until it expires. *)
Example context_now : context_texts (retrieve_context (ask 500) after_talk)
  = ([lit "Hello"], [lit "They greeted each other."]).
Proof. vm_compute. reflexivity. Qed.
Example context_later : context_texts (retrieve_context (ask 900) after_talk) = ([lit "Hello"], []).
Proof. vm_compute. reflexivity. Qed.

Lemma context_witness : ∃ bundle, retrieve_context (ask 500) after_talk = Ok bundle ∧
  best_of (ask 500) after_talk LongTermSummary (mx_long_term_summaries bundle).
Proof.
  eexists. split; [reflexivity|].
  apply (context_stays_in_scope (ask 500) after_talk _ after_talk_ok eq_refl).
Defined.

(** ** Erasure *)

Definition forget_ada : CharacterMemoryErasureRequest := {| er_scope := with_ada; er_erased_at_ms := 600 |}.
Definition an_erasure_id : str := repeat 97 36.
Definition a_scope_digest : str := repeat 48 64.
Definition the_writer : Writer := {| wr_db := after_talk; wr_erasure_authorized := false |}.


(** ** Jobs *)

Definition a_job (key : string) (available : Z) : OutboxJobInput := {|
  ji_kind := lit "memory.embedding.requested"; ji_aggregate_id := None; ji_payload := GenLeaf [];
  ji_available_at_ms := available; ji_max_attempts := 2; ji_dedupe_key := Some (lit key) |}.

Definition two_jobs : MemoryDb :=
  (enqueue_job (a_job "late" 20) 0 (enqueue_job (a_job "early" 10) 0 empty_db).2).2.

Lemma two_jobs_reachable : rtc store_step empty_db two_jobs.
Proof.
  eapply rtc_l; [apply (step_enqueue (a_job "early" 10) 0 empty_db _ _ (surjective_pairing _))|].
  apply rtc_once. exact (step_enqueue (a_job "late" 20) 0 _ _ _ (surjective_pairing _)).
Qed.

Lemma reachable_witness : store_ok two_jobs ∧ tables_checked two_jobs.
Proof. apply reachable_store_ok. exact two_jobs_reachable. Defined.

Lemma two_jobs_ok : outbox_ok (db_outbox two_jobs).
Proof.
  destruct (enqueue_job (a_job "early" 10) 0 empty_db) as [r d] eqn:E1.
  assert (store_ok d) as Hd by exact (store_step_ok _ _ (step_enqueue _ _ _ _ _ E1) empty_store_ok).
  destruct (enqueue_job (a_job "late" 20) 0 d) as [r' d'] eqn:E2.
  assert (store_ok d') as Hd' by exact (store_step_ok _ _ (step_enqueue _ _ _ _ _ E2) Hd).
  assert (two_jobs = d') as -> by by unfold two_jobs; rewrite E1; cbn [snd]; rewrite E2.
  apply Hd'.
Qed.

Definition claimed_ids (c : result MemoryError (list OutboxJob) * MemoryDb) : list Z :=
  match c.1 with Ok jobs => jb_id <$> jobs | Err _ => [] end.

(** The second worker does not get the job of the first; when its lease has run out it
    does, and after two attempts the job is dead. *)
Example leases_expire :
  let first := claim_jobs (lit "w1") 10 100 5 two_jobs in
  let second := claim_jobs (lit "w2") 50 100 5 first.2 in
  let third := claim_jobs (lit "w2") 110 100 5 second.2 in
  let fourth := claim_jobs (lit "w1") 300 100 5 third.2 in
  (claimed_ids first, claimed_ids second, claimed_ids third, claimed_ids fourth,
   jb_status <$> load_job 1 fourth.2)
  = ([1], [2], [1], [2], Some JobDead).
Proof. vm_compute. reflexivity. Qed.

Lemma jobs_witness : ∃ jobs d', claim_jobs (lit "w1") 10 100 5 two_jobs = (Ok jobs, d') ∧
  Z.of_nat (length jobs) ≤ 5 ∧ NoDup (jb_id <$> jobs).
Proof.
  destruct (call_ok_run (claim_jobs (lit "w1") 10 100 5 two_jobs)) as (jobs&d'&E);
    [vm_compute; reflexivity|].
  exists jobs, d'. split; [exact E|]. assert (0 ≤ 5) as Hl by lia.
  destruct (jobs_have_one_worker (lit "w1") 10 100 5 two_jobs jobs d' two_jobs_ok Hl E)
    as (_&Hlen&Hnd&_). split; [exact Hlen|exact Hnd].
Defined.

(** ** Items and retrieval *)

Definition an_item (id content : string) : MemoryInput := {|
  mn_id := Some (lit id); mn_namespace := NsFact;
  mn_scope := {| ms_profile_id := Some (lit "p"); ms_game_id := Some (lit "g");
    ms_character_id := Some (lit "ada"); ms_session_id := None; ms_save_id := None |};
  mn_visibility := VisCharacter; mn_content := lit content; mn_provenance := plain;
  mn_confidence := f64_one; mn_importance := f64_one; mn_observed_at_ms := 10;
  mn_expires_at_ms := None; mn_expected_revision := None |}.

Definition with_item (id content : string) (now : Z) (d : MemoryDb) : MemoryDb :=
  (upsert [] (an_item id content) now d).2.
Definition some_items : MemoryDb :=
  with_item "b" "the gate is open" 30 (with_item "a" "the gate is closed" 20 empty_db).

Lemma some_items_ok : items_ok some_items.
Proof.
  assert (∀ id content now d, store_ok d → store_ok (with_item id content now d)) as Hstep.
  { intros id content now d Hd. unfold with_item. eapply store_step_ok; [|exact Hd].
    eapply step_upsert. apply surjective_pairing. }
  apply Hstep, Hstep, empty_store_ok.
Qed.

Definition about_the_gate (filter : RetrievalFilter) : RetrievalQuery := {|
  rq_text := Some (lit "gate"); rq_embedding := None; rq_embedding_generation := None;
  rq_filter := filter; rq_limit := 5; rq_candidate_limit := 10; rq_now_ms := 50 |}.

Definition hit_ids (r : result MemoryError (list SearchHit)) : list str :=
  match r with Ok hits => (λ h, me_id (sh_record h)) <$> hits | Err _ => [] end.

#[local] Existing Instance hash_iter_list.
Definition private_only : RetrievalFilter := {|
  rf_namespaces := MemoryNamespace_ALL; rf_visibility := [VisPrivate];
  rf_profile_id := None; rf_game_id := None; rf_character_id := None;
  rf_session_id := None; rf_save_id := None; rf_include_global_scope := true |}.

Example gate_hits : hit_ids (retrieve (about_the_gate retrieval_filter_default) some_items)
  = [lit "a"; lit "b"].
Proof. vm_compute. reflexivity. Qed.
Example gate_private : hit_ids (retrieve (about_the_gate private_only) some_items) = [].
Proof. vm_compute. reflexivity. Qed.

Definition search_ok (r : result MemoryError (list SearchHit)) : bool :=
  match r with Ok _ => true | Err _ => false end.

Lemma retrieval_witness :
  ∃ hits, retrieve (about_the_gate retrieval_filter_default) some_items = Ok hits ∧
    NoDup ((λ h, me_id (sh_record h)) <$> hits).
Proof.
  destruct (retrieve (about_the_gate retrieval_filter_default) some_items) as [hits|e] eqn:E.
  - exists hits. split; [reflexivity|].
    apply (retrieval_stays_in_filter _ hash_iter_list _ _ _ some_items_ok E).
  - exfalso. assert (search_ok (retrieve (about_the_gate retrieval_filter_default) some_items) = true) as H
      by (vm_compute; reflexivity).
    rewrite E in H. discriminate H.
Defined.

(** ** What the model shows *)

(** The same worker may ask for jobs in any order of identifiers: what comes first is what
    became available first. *)
Example claims_by_availability :
  claimed_ids (claim_jobs (lit "w") 30 100 5
    (enqueue_job (a_job "soon" 5) 0 (enqueue_job (a_job "later" 25) 0 empty_db).2).2) = [2; 1].
Proof. vm_compute. reflexivity. Qed.

(** An identifier that is found twice keeps its last rank. *)
Example rank_map_keeps_last : rank_map [lit "a"; lit "b"; lit "a"] !! lit "a" = Some 2.
Proof. vm_compute. reflexivity. Qed.

(** A text that starts with NUL passes the checks of the code and fails those of the
    schema. *)
Definition nul_turn : TurnCommitInput := {|
  ti_turn_id := lit "t9"; ti_scope := with_ada; ti_speaker := SpeakerPlayer; ti_text := 0 :: lit "hi";
  ti_delivery := DdDelivered 110; ti_created_at_ms := 100; ti_sequence := 9;
  ti_cancellation_generation := 0; ti_provider_id := None; ti_delivery_receipt_id := None;
  ti_provenance := plain |}.
Definition call_error {A} (c : result MemoryError A * MemoryDb) : option MemoryError :=
  match c.1 with Ok _ => None | Err e => Some e end.

Example nul_text_reaches_the_engine :
  call_error (commit_batch no_draw {| mb_turns := [nul_turn]; mb_derived := [] |} empty_db)
  = Some (MeDatabase SQLITE_CONSTRAINT_CHECK).
Proof. vm_compute. reflexivity. Qed.

(** Two requests share a key: that for generation 2 of the first revision of [a] is taken
    for that of the second revision of [a:1], and is never queued; the report counts it. *)
Definition ambiguous : MemoryDb :=
  with_item "a:1" "the gate was repaired" 30 (with_item "a:1" "the gate is broken" 20 empty_db).
Definition requested_items (d : MemoryDb) : list (option str) :=
  (λ row, jb_aggregate_id (jr_job row.2)) <$> btree_iter (db_outbox d).

Example reindex_key_collides :
  let d := with_item "a" "the gate is closed" 40 ambiguous in
  let reindexed := reindex {| rx_target_generation := 2; rx_model_id := lit "m"; rx_batch_size := 1 |} 50 d in
  (match reindexed.1 with Ok r => rp_embedding_jobs_enqueued r | Err _ => 0%nat end,
   requested_items d, requested_items reindexed.2)
  = (2%nat, [Some (lit "a:1"); Some (lit "a:1"); Some (lit "a")],
     [Some (lit "a:1"); Some (lit "a:1"); Some (lit "a"); Some (lit "a:1")]).
Proof. vm_compute. reflexivity. Qed.
