(* ===== verification/CharacterDb.v ===== *)
(** * Characters: the index, selection and summaries
    ([crates/character-db/src/database.rs], [selection.rs], [turn.rs])

    A read-only index over a validated profile: characters by identifier and by
    normalized alias. From it, who is being spoken to: an explicit choice, a name that was
    said, the current partner, or the best visual candidate.

    Then the context of a prompt ([prompt.rs]) and the registry of encounters
    ([encounter.rs]). *)

From S2P Require Import Prelude Text Bytes Float HostedTypes ProfileValidation MemoryTypes MemoryStore MemoryItems.
From Stdlib Require Import SpecFloat.

#[local] Open Scope Z_scope.

Definition CHARACTER_DB_SCHEMA_VERSION : str := lit "character-db/1.0.0".

(** [CdMemory] is [InvalidInput] with the text of an error of the memory crate. *)
Inductive CharacterDbError :=
| CdInvalidProfile (report : ValidationReport)
| CdUnknownCharacter (id : str)
| CdInvalidInput (message : str)
| CdMemory (error : MemoryError).

Definition from_memory {A} (r : result MemoryError A) : result CharacterDbError A := map_err CdMemory r.

(** ** The database *)

Record CharacterDatabase := {
  cd_profile : GameProfileV2;
  cd_character_indexes : gmap str nat;
  cd_alias_indexes : gmap str (list nat)
}.

(** [Vec::dedup]. *)
Fixpoint dedup_from (last : nat) (l : list nat) : list nat :=
  match l with
  | [] => []
  | i :: l => if Nat.eqb i last then dedup_from last l else i :: dedup_from i l
  end.
Definition dedup_indexes (l : list nat) : list nat :=
  match l with [] => [] | i :: l => i :: dedup_from i l end.

Section database.
Context `{ProfileApi} `{UnicodeApi}.

Definition normalize_alias (value : str) : str :=
  join_with (lit " ") (to_lowercase <$> split_whitespace value).

Definition character_names (c : CharacterProfile) : list str := ch_display_name c :: ch_aliases c.

Definition push_alias (index : nat) (m : gmap str (list nat)) (alias : str) : gmap str (list nat) :=
  let key := normalize_alias alias in
  <[key := default [] (m !! key) ++ [index]]> m.

Definition index_character (acc : gmap str nat * gmap str (list nat)) (indexed : nat * CharacterProfile)
    : gmap str nat * gmap str (list nat) :=
  (<[ch_id indexed.2 := indexed.1]> acc.1, foldl (push_alias indexed.1) acc.2 (character_names indexed.2)).

(** The identifier at an index; the loops only use indexes of characters. *)
Definition id_at (p : GameProfileV2) (i : nat) : str :=
  match gf_characters p !! i with Some c => ch_id c | None => [] end.

(** [CharacterDatabase::new]. *)
Definition database_new (p : GameProfileV2) : result CharacterDbError CharacterDatabase :=
  let report := profile_validate p in
  if negb (report_is_valid report) then Err (CdInvalidProfile report) else
  let indexed := foldl index_character (∅, ∅) (imap pair (gf_characters p)) in
  Ok {| cd_profile := p;
        cd_character_indexes := indexed.1;
        cd_alias_indexes := (λ l, dedup_indexes (sort_by (λ i j, str_cmp (id_at p i) (id_at p j)) l))
                            <$> indexed.2 |}.

Definition character (db : CharacterDatabase) (id : str) : option CharacterProfile :=
  i ← cd_character_indexes db !! id; gf_characters (cd_profile db) !! i.

Definition require_character (db : CharacterDatabase) (id : str) : result CharacterDbError CharacterProfile :=
  ok_or (character db id) (CdUnknownCharacter id).

Definition characters_for_alias (db : CharacterDatabase) (alias : str) : list CharacterProfile :=
  omap (λ i, gf_characters (cd_profile db) !! i)
    (default [] (cd_alias_indexes db !! normalize_alias alias)).

(** *** Authored knowledge as memories *)

(** [find(id)] and its review: what has no review status counts as approved. *)
Definition provenance_available (id : str) (p : GameProfileV2) : bool :=
  match List.find (λ r, str_eqb (pr_id r) id) (cb_provenance (gf_content p)) with
  | Some r => match pr_review_status r with None | Some ReviewApproved => true | _ => false end
  | None => false
  end.

Definition authority_text (a : KnowledgeAuthority) : str :=
  match a with
  | KnCoreCanon => lit "core_canon" | KnGamePublic => lit "game_public"
  | KnCharacterAuthored => lit "character_authored"
  end.

Definition knowledge_weight : f64 := Eval vm_compute in f64_lit 7 10.

Definition knowledge_input (p : GameProfileV2) (user_id : str) (k : KnowledgeRecord) : DerivedMemoryInput :=
  let '(class, spoiler) := match kr_authority k with
    | KnCoreCanon | KnGamePublic => (WorldLore, SpGame)
    | KnCharacterAuthored => (CharacterKnowledge, SpCharacterPrivate) end in
  {| di_id := Some (lit "profile-knowledge:" ++ kr_id k);
     di_scope := {| sc_user_id := user_id; sc_profile_id := gf_id p; sc_game_id := gf_id p;
       sc_character_id := kr_owner_character_id k; sc_encounter_id := None; sc_session_id := None;
       sc_save_id := None |};
     di_class := class;
     di_spoiler_scope := spoiler;
     di_content := kr_text k;
     di_provenance := {| pv_source_kind := lit "game_profile_knowledge";
       pv_source_id := Some (kr_provenance_id k); pv_source_uri := None; pv_author := None;
       pv_captured_at_ms := None;
       pv_attributes := list_to_map [
         (lit "knowledge_id", json_string (kr_id k));
         (lit "authority", json_string (authority_text (kr_authority k)));
         (lit "spoiler_tier", json_string (kr_spoiler_tier k))] |};
     di_confidence := MemoryTypes.f64_one;
     di_importance := knowledge_weight;
     di_observed_at_ms := 0;
     di_expires_at_ms := None;
     di_source_turn_ids := [];
     di_generator := None |}.

Definition approved_knowledge_memory_inputs (db : CharacterDatabase) (user_id : str)
    : result CharacterDbError (list DerivedMemoryInput) :=
  if is_blank user_id then
    Err (CdInvalidInput (lit "knowledge indexing requires a non-blank user ID")) else
  let p := cd_profile db in
  let inputs := knowledge_input p user_id <$>
    List.filter (λ k, provenance_available (kr_provenance_id k) p) (cb_knowledge (gf_content p)) in
  _ ← from_memory (check_all derived_validate inputs);
  Ok inputs.
End database.

(** ** Selection *)

Record IdentityCandidateV1 := {
  ic_character_id : str;
  ic_confidence : f64;
  ic_evidence_id : str
}.

Record SelectionEvidenceV1 := {
  sv_schema_version : str;
  sv_explicit_character_id : option str;
  sv_addressed_alias : option str;
  sv_current_character_id : option str;
  sv_visual_candidates : list IdentityCandidateV1
}.

Record SelectionPolicyV1 := {
  so_minimum_confidence : f64;
  so_minimum_margin : f64;
  so_sticky_confidence : f64
}.

Definition selection_policy_default : SelectionPolicyV1 := Eval vm_compute in {|
  so_minimum_confidence := f64_lit 80 100;
  so_minimum_margin := f64_lit 10 100;
  so_sticky_confidence := f64_lit 65 100 |}.

Inductive SelectionReason := ByExplicit | ByAddressedAlias | ByStickyCurrent | ByVisualConfidence.

Inductive SelectionOutcomeV1 :=
| SelectKnown (character_id : str) (reason : SelectionReason)
| SelectBackground
| SelectAmbiguous (candidate_ids : list str).

Section selection.
Context `{ProfileApi} `{UnicodeApi} `{NanApi} `{DigestApi}.

(** [validate_policy]. *)
Definition in_unit_interval (value : f64) : bool := is_finite value && range_contains f_zero MemoryTypes.f64_one value.
Definition validate_selection_policy (p : SelectionPolicyV1) : result CharacterDbError unit :=
  check_all (λ named : str * f64,
    if negb (in_unit_interval named.2) then
      Err (CdInvalidInput (named.1 ++ lit " must be finite and in 0..=1")) else Ok tt)
    [(lit "minimum_confidence", so_minimum_confidence p);
     (lit "minimum_margin", so_minimum_margin p);
     (lit "sticky_confidence", so_sticky_confidence p)].

Definition check_candidate (c : IdentityCandidateV1) : result CharacterDbError unit :=
  if negb (in_unit_interval (ic_confidence c)) then
    Err (CdInvalidInput (lit "identity confidence for `" ++ ic_character_id c
                         ++ lit "` must be finite and in 0..=1")) else Ok tt.

Definition candidate_order (l r : IdentityCandidateV1) : comparison :=
  then_with (f_total_cmp nan_negative (ic_confidence r) (ic_confidence l))
  (then_with (str_cmp (ic_character_id l) (ic_character_id r))
     (str_cmp (ic_evidence_id l) (ic_evidence_id r))).

(** [retain(|candidate| seen.insert(...))]. *)
Fixpoint first_of_each (seen : gset str) (l : list IdentityCandidateV1) : list IdentityCandidateV1 :=
  match l with
  | [] => []
  | c :: l => if bool_decide (ic_character_id c ∈ seen) then first_of_each seen l
              else c :: first_of_each ({[ic_character_id c]} ∪ seen) l
  end.

Fixpoint close_to (best margin : f64) (l : list IdentityCandidateV1) : list IdentityCandidateV1 :=
  match l with
  | [] => []
  | c :: l => if f_lt (f64_sub best (ic_confidence c)) margin then c :: close_to best margin l else []
  end.

(** The candidates of known characters, the strongest of each, best first. *)
Definition ranked_candidates (db : CharacterDatabase) (l : list IdentityCandidateV1)
    : result CharacterDbError (list IdentityCandidateV1) :=
  let known := List.filter (λ c, is_some (character db (ic_character_id c))) l in
  _ ← check_all check_candidate known;
  Ok (first_of_each ∅ (sort_by candidate_order known)).

(** What the visual candidates say. *)
Definition select_visual (p : SelectionPolicyV1) (candidates : list IdentityCandidateV1)
    : SelectionOutcomeV1 :=
  match candidates with
  | [] => SelectBackground
  | best :: rest =>
      if f_lt (ic_confidence best) (so_minimum_confidence p) then SelectBackground else
      let second := match rest with c :: _ => ic_confidence c | [] => f_zero end in
      if f_lt (f64_sub (ic_confidence best) second) (so_minimum_margin p) then
        SelectAmbiguous (ic_character_id <$> close_to (ic_confidence best) (so_minimum_margin p) candidates)
      else SelectKnown (ic_character_id best) ByVisualConfidence
  end.

Definition sticky (db : CharacterDatabase) (p : SelectionPolicyV1)
    (candidates : list IdentityCandidateV1) (current : str) : bool :=
  is_some (character db current)
  && existsb (λ c, str_eqb (ic_character_id c) current && f_le (so_sticky_confidence p) (ic_confidence c))
       candidates.

Definition select_character (db : CharacterDatabase) (evidence : SelectionEvidenceV1)
    (policy : SelectionPolicyV1) : result CharacterDbError SelectionOutcomeV1 :=
  if negb (str_eqb (sv_schema_version evidence) CHARACTER_DB_SCHEMA_VERSION) then
    Err (CdInvalidInput (lit "unsupported selection schema `" ++ sv_schema_version evidence ++ lit "`")) else
  _ ← validate_selection_policy policy;
  let by_candidates :=
    candidates ← ranked_candidates db (sv_visual_candidates evidence);
    match sv_current_character_id evidence with
    | Some current =>
        if sticky db policy candidates current then Ok (SelectKnown current ByStickyCurrent)
        else Ok (select_visual policy candidates)
    | None => Ok (select_visual policy candidates)
    end in
  match sv_explicit_character_id evidence with
  | Some id => _ ← require_character db id; Ok (SelectKnown id ByExplicit)
  | None =>
      match sv_addressed_alias evidence with
      | Some alias =>
          match characters_for_alias db alias with
          | [c] => Ok (SelectKnown (ch_id c) ByAddressedAlias)
          | [] => by_candidates
          | cs => Ok (SelectAmbiguous (ch_id <$> cs))
          end
      | None => by_candidates
      end
  end.

(** *** Background characters *)

(** [u64::from_be_bytes(digest[0..8])]. *)
Definition stable_index (seed : list Z) (count : nat) : nat :=
  Z.to_nat (foldl (λ n b, n * 256 + b) 0 (take 8 (sha256 seed)) `mod` Z.of_nat count).

Definition select_background_profile (db : CharacterDatabase) (continuity_key : str)
    : result CharacterDbError CharacterProfile :=
  if is_blank continuity_key then
    Err (CdInvalidInput (lit "background continuity key cannot be blank")) else
  let profiles := sort_by (λ a b, str_cmp (ch_id a) (ch_id b))
    (List.filter ch_background_npc (gf_characters (cd_profile db))) in
  ok_or (profiles !! stable_index (utf8_encode continuity_key) (length profiles))
    (CdInvalidInput (lit "profile has no background character archetype")).
End selection.

(** ** Summaries and the record of a retrieval *)

Section turn.
Context `{JsonValueApi} `{DigestApi}.

Definition hex_sha256 (bytes : list Z) : str := hex_bytes (sha256 bytes).

Record MemorySummaryRequestV1 := {
  mq_schema_version : str;
  mq_summary_id : str;
  mq_scope : AuthorityScope;
  mq_source_turn_ids : list str;
  mq_text : str;
  mq_provider_id : str;
  mq_model_id : str;
  mq_model_revision : str;
  mq_prompt_version : str;
  mq_created_at_ms : Z
}.

Definition summary_confidence : f64 := Eval vm_compute in f64_lit 8 10.
Definition summary_importance : f64 := Eval vm_compute in f64_lit 6 10.

(** [MemorySummaryRequestV1::to_memory_input]. *)
Definition to_memory_input (r : MemorySummaryRequestV1) : result CharacterDbError DerivedMemoryInput :=
  if negb (str_eqb (mq_schema_version r) CHARACTER_DB_SCHEMA_VERSION) then
    Err (CdInvalidInput (lit "unsupported memory summary schema `" ++ mq_schema_version r ++ lit "`")) else
  let input := {|
    di_id := Some (lit "summary:" ++ mq_summary_id r);
    di_scope := mq_scope r;
    di_class := LongTermSummary;
    di_spoiler_scope := SpCharacterPrivate;
    di_content := mq_text r;
    di_provenance := {| pv_source_kind := lit "versioned_turn_summary";
      pv_source_id := Some (mq_summary_id r); pv_source_uri := None; pv_author := None;
      pv_captured_at_ms := Some (mq_created_at_ms r);
      pv_attributes := {[ lit "source_turn_ids_sha256" :=
        json_string (hex_sha256 (utf8_encode (join_with [0] (mq_source_turn_ids r)))) ]} |};
    di_confidence := summary_confidence;
    di_importance := summary_importance;
    di_observed_at_ms := mq_created_at_ms r;
    di_expires_at_ms := None;
    di_source_turn_ids := mq_source_turn_ids r;
    di_generator := Some {| gn_provider_id := mq_provider_id r; gn_model_id := mq_model_id r;
      gn_model_revision := mq_model_revision r; gn_prompt_version := mq_prompt_version r |} |} in
  _ ← from_memory (derived_validate input);
  Ok input.

Record RetrievalProvenanceV1 := {
  rv_schema_version : str;
  rv_policy_fingerprint_sha256 : str;
  rv_query_sha256 : str;
  rv_selected_profile_knowledge_ids : list str;
  rv_selected_memory_item_ids : list str;
  rv_embedding_metadata_ids : list str
}.

(** [RetrievalProvenanceV1::for_query]. *)
Definition for_query (query : str) (policy_json : list Z) : RetrievalProvenanceV1 := {|
  rv_schema_version := CHARACTER_DB_SCHEMA_VERSION;
  rv_policy_fingerprint_sha256 := hex_sha256 policy_json;
  rv_query_sha256 := hex_sha256 (utf8_encode query);
  rv_selected_profile_knowledge_ids := [];
  rv_selected_memory_item_ids := [];
  rv_embedding_metadata_ids := [] |}.
End turn.

(** * Characters: the context of a prompt ([crates/character-db/src/prompt.rs])

    The lanes of a prompt are built one after the other, in the order of the profile's
    policy; two lanes share the budget of memory records, and two sort the request in
    place. The encoder of the policy is [PromptApi]. *)

#[local] Open Scope Z_scope.

(** [serde_json::to_vec] of a policy. *)
Class PromptApi := { policy_to_vec : RetrievalPolicy → option (list Z) }.

Section prompt.
Context `{ProfileApi} `{UnicodeApi} `{NanApi} `{DigestApi} `{PromptApi}.

Record PromptBuildRequestV1 := {
  pq_schema_version : str;
  pq_scope : AuthorityScope;
  pq_query : str;
  pq_enabled_spoiler_tiers : list str;
  pq_memory_context : MemoryContextBundle;
  pq_memory_spoiler_policy : SpoilerPolicy;
  pq_max_style_examples : Z
}.

Record PromptRecordV1 := {
  pc_id : str;
  pc_text : str;
  pc_provenance_id : option str;
  pc_memory_class : option KnowledgeClass;
  pc_spoiler_scope : option SpoilerScope
}.

Record PromptSectionV1 := {
  ps_authority : PromptAuthority;
  ps_records : list PromptRecordV1
}.

Record PromptContextV1 := {
  px_schema_version : str;
  px_profile_id : str;
  px_character_id : str;
  px_sections : list PromptSectionV1;
  px_retrieval_provenance : RetrievalProvenanceV1
}.

(** ** Records *)

Definition authored_record (id text : str) (provenance : option str) : PromptRecordV1 := {|
  pc_id := id; pc_text := text; pc_provenance_id := provenance;
  pc_memory_class := None; pc_spoiler_scope := None |}.

Definition profile_knowledge_record (k : KnowledgeRecord) : PromptRecordV1 :=
  authored_record (kr_id k) (kr_text k) (Some (kr_provenance_id k)).

Definition derived_memory_record (m : DerivedMemoryRecord) : PromptRecordV1 := {|
  pc_id := dr_id m;
  pc_text := dr_content m;
  pc_provenance_id := match pv_source_id (dr_provenance m) with
    | Some source => Some source | None => Some (dr_id m) end;
  pc_memory_class := Some (dr_class m);
  pc_spoiler_scope := Some (dr_spoiler_scope m) |}.

Definition speaker_label (s : TurnSpeaker) : str :=
  match s with SpeakerPlayer => lit "Player" | SpeakerNpc => lit "NPC" end.
Definition delivered_turn_record (t : DeliveredTurnRecord) : PromptRecordV1 :=
  authored_record (lit "turn:" ++ dt_turn_id t)
    (speaker_label (dt_speaker t) ++ lit ": " ++ dt_delivered_text t) (Some (dt_turn_id t)).

Definition spoiler_allowed (tier : str) (enabled : gset str) (p : GameProfileV2) : bool :=
  bool_decide (tier ∈ enabled)
  || existsb (λ t, str_eqb (st_id t) tier && st_default_enabled t) (cb_spoiler_tiers (gf_content p)).

(** [select_style_examples]: by the digest of the query and the example. *)
Definition example_digest (seed : list Z) (e : StyleExample) : list Z :=
  sha256 (seed ++ [0] ++ utf8_encode (se_id e)).
Definition example_order (seed : list Z) (l r : StyleExample) : comparison :=
  then_with (str_cmp (example_digest seed l) (example_digest seed r))
  (then_with (Z.compare (se_weight_millis r) (se_weight_millis l)) (str_cmp (se_id l) (se_id r))).
Definition select_style_examples (examples : list StyleExample) (seed : list Z) (limit : Z)
    : list StyleExample :=
  take (Z.to_nat limit) (sort_by (example_order seed) examples).

(** ** Lanes *)

Definition by_id (l r : PromptRecordV1) : comparison := str_cmp (pc_id l) (pc_id r).

(** The authored knowledge of one authority, as every lane filters it. *)
Definition authored_knowledge (p : GameProfileV2) (enabled : gset str) (mine : KnowledgeRecord → bool)
    : list PromptRecordV1 :=
  profile_knowledge_record <$>
    List.filter (λ k, spoiler_allowed (kr_spoiler_tier k) enabled p)
      (List.filter (λ k, provenance_available (kr_provenance_id k) p)
        (List.filter mine (cb_knowledge (gf_content p)))).

Definition core_canon_lane (p : GameProfileV2) (enabled : gset str) : list PromptRecordV1 :=
  take (Z.to_nat (rp_max_core_records (cb_retrieval (gf_content p))))
    (sort_by by_id
      (authored_record (lit "profile-world-lore") (cb_world_lore (gf_content p)) None
       :: authored_knowledge p enabled (λ k, bool_decide (kr_authority k = KnCoreCanon)))).

Definition game_public_lane (p : GameProfileV2) (enabled : gset str) : list PromptRecordV1 :=
  take (Z.to_nat (rp_max_public_records (cb_retrieval (gf_content p))))
    (sort_by by_id (authored_knowledge p enabled (λ k, bool_decide (kr_authority k = KnGamePublic)))).

Definition owned_by (c : CharacterProfile) (k : KnowledgeRecord) : bool :=
  bool_decide (kr_authority k = KnCharacterAuthored)
  && bool_decide (kr_owner_character_id k = Some (ch_id c)).
Definition character_authored_lane (p : GameProfileV2) (c : CharacterProfile) (enabled : gset str)
    : list PromptRecordV1 :=
  take (Z.to_nat (rp_max_character_records (cb_retrieval (gf_content p))))
    (sort_by by_id (authored_knowledge p enabled (owned_by c))).

Definition style_record (e : StyleExample) : PromptRecordV1 :=
  authored_record (se_id e) (se_speaker e ++ lit ": " ++ se_text e) (Some (se_provenance_id e)).
Definition character_profile_lane (p : GameProfileV2) (c : CharacterProfile) (query : str) (limit : Z)
    : list PromptRecordV1 :=
  [authored_record (ch_id c ++ lit "-biography") (ch_biography c) None;
   authored_record (ch_id c ++ lit "-personality") (ch_personality c) None;
   authored_record (ch_id c ++ lit "-dialogue-style") (ch_dialogue_style c) None]
  ++ (style_record <$>
       select_style_examples (List.filter (λ e, provenance_available (se_provenance_id e) p) (ch_style_examples c))
         (utf8_encode query) limit).

(** Most important first, then the newest. *)
Definition memory_order (l r : DerivedMemoryRecord) : comparison :=
  then_with (f_total_cmp nan_negative (dr_importance r) (dr_importance l))
  (then_with (Z.compare (dr_observed_at_ms r) (dr_observed_at_ms l)) (str_cmp (dr_id l) (dr_id r))).

Definition in_scope (q : PromptBuildRequestV1) (m : DerivedMemoryRecord) : bool :=
  bool_decide (dr_scope m = pq_scope q) && policy_allows (pq_memory_spoiler_policy q) (dr_spoiler_scope m).

Definition retrieved_memory_lane (q : PromptBuildRequestV1) (remaining : nat) : list PromptRecordV1 :=
  let mc := pq_memory_context q in
  derived_memory_record <$>
    take remaining (sort_by memory_order (List.filter (in_scope q)
      (mx_world_lore mc ++ mx_biography mc ++ mx_character_knowledge mc ++ mx_uncertain_public_info mc))).

Definition with_context (mc : MemoryContextBundle) (q : PromptBuildRequestV1) : PromptBuildRequestV1 := {|
  pq_schema_version := pq_schema_version q; pq_scope := pq_scope q; pq_query := pq_query q;
  pq_enabled_spoiler_tiers := pq_enabled_spoiler_tiers q; pq_memory_context := mc;
  pq_memory_spoiler_policy := pq_memory_spoiler_policy q;
  pq_max_style_examples := pq_max_style_examples q |}.

Definition sort_summaries (q : PromptBuildRequestV1) : PromptBuildRequestV1 :=
  let mc := pq_memory_context q in
  with_context {| mx_world_lore := mx_world_lore mc; mx_biography := mx_biography mc;
    mx_character_knowledge := mx_character_knowledge mc;
    mx_uncertain_public_info := mx_uncertain_public_info mc;
    mx_recent_dialogue := mx_recent_dialogue mc;
    mx_long_term_summaries := sort_by memory_order (mx_long_term_summaries mc) |} q.

Definition session_summary_lane (q : PromptBuildRequestV1) (remaining : nat) : list PromptRecordV1 :=
  derived_memory_record <$> take remaining
    (List.filter (in_scope q) (mx_long_term_summaries (pq_memory_context q))).

Definition turn_order (l r : DeliveredTurnRecord) : comparison :=
  then_with (Z.compare (dt_sequence l) (dt_sequence r)) (str_cmp (dt_turn_id l) (dt_turn_id r)).

Definition sort_dialogue (q : PromptBuildRequestV1) : PromptBuildRequestV1 :=
  let mc := pq_memory_context q in
  with_context {| mx_world_lore := mx_world_lore mc; mx_biography := mx_biography mc;
    mx_character_knowledge := mx_character_knowledge mc;
    mx_uncertain_public_info := mx_uncertain_public_info mc;
    mx_recent_dialogue := sort_by turn_order (mx_recent_dialogue mc);
    mx_long_term_summaries := mx_long_term_summaries mc |} q.

(** [records.drain(0..records.len() - keep)]. *)
Definition last_of {A} (keep : nat) (l : list A) : list A := drop (length l - keep) l.

Definition recent_turns_lane (p : GameProfileV2) (q : PromptBuildRequestV1) : list PromptRecordV1 :=
  last_of (Z.to_nat (rp_query_window_delivered_turns (cb_retrieval (gf_content p))))
    (delivered_turn_record <$>
      List.filter (λ t, bool_decide (dt_scope t = pq_scope q)) (mx_recent_dialogue (pq_memory_context q))).

(** One lane: its records, what is left of the memory budget, and the request. *)
Definition build_lane (p : GameProfileV2) (c : CharacterProfile) (enabled : gset str)
    (authority : PromptAuthority) (q : PromptBuildRequestV1) (remaining : nat)
    : list PromptRecordV1 * nat * PromptBuildRequestV1 :=
  match authority with
  | CoreCanon => (core_canon_lane p enabled, remaining, q)
  | CharacterProfileLane => (character_profile_lane p c (pq_query q) (pq_max_style_examples q), remaining, q)
  | GamePublic => (game_public_lane p enabled, remaining, q)
  | CharacterAuthored => (character_authored_lane p c enabled, remaining, q)
  | RetrievedMemory =>
      let records := retrieved_memory_lane q remaining in
      (records, (remaining - length records)%nat, q)
  | SessionSummary =>
      let q := sort_summaries q in
      let records := session_summary_lane q remaining in
      (records, (remaining - length records)%nat, q)
  | RecentDeliveredTurns =>
      let q := sort_dialogue q in
      (recent_turns_lane p q, remaining, q)
  end.

Fixpoint build_sections (p : GameProfileV2) (c : CharacterProfile) (enabled : gset str)
    (order : list PromptAuthority) (q : PromptBuildRequestV1) (remaining : nat) : list PromptSectionV1 :=
  match order with
  | [] => []
  | authority :: order =>
      let '(records, remaining, q) := build_lane p c enabled authority q remaining in
      match records with
      | [] => build_sections p c enabled order q remaining
      | _ => {| ps_authority := authority; ps_records := records |}
             :: build_sections p c enabled order q remaining
      end
  end.

(** ** The context *)

Definition knowledge_lane (a : PromptAuthority) : bool :=
  match a with CoreCanon | GamePublic | CharacterAuthored => true | _ => false end.
Definition memory_lane (a : PromptAuthority) : bool :=
  match a with SessionSummary | RecentDeliveredTurns | RetrievedMemory => true | _ => false end.
Definition selected_ids (lane : PromptAuthority → bool) (sections : list PromptSectionV1) : list str :=
  List.filter (λ s, lane (ps_authority s)) sections ≫= λ s, pc_id <$> ps_records s.

(** [build_prompt_context]. *)
Definition build_prompt_context (db : CharacterDatabase) (q : PromptBuildRequestV1)
    : result CharacterDbError PromptContextV1 :=
  if negb (str_eqb (pq_schema_version q) CHARACTER_DB_SCHEMA_VERSION) then
    Err (CdInvalidInput (lit "unsupported prompt request schema `" ++ pq_schema_version q ++ lit "`")) else
  _ ← from_memory (scope_validate (pq_scope q));
  if is_blank (pq_query q) || is_none (sc_session_id (pq_scope q)) then
    Err (CdInvalidInput (lit "prompt query and a session-scoped authority boundary are required")) else
  if 64 <? pq_max_style_examples q then
    Err (CdInvalidInput (lit "max_style_examples cannot exceed 64")) else
  let p := cd_profile db in
  if bool_decide (sc_profile_id (pq_scope q) ≠ gf_id p) || bool_decide (sc_game_id (pq_scope q) ≠ gf_id p) then
    Err (CdInvalidInput (lit "prompt authority scope does not match the active game profile")) else
  character_id ← ok_or (sc_character_id (pq_scope q))
    (CdInvalidInput (lit "prompt authority scope requires a character ID"));
  c ← require_character db character_id;
  let enabled : gset str := list_to_set (pq_enabled_spoiler_tiers q) in
  let policy := cb_retrieval (gf_content p) in
  let sections := build_sections p c enabled (rp_authority_order policy) q
                    (Z.to_nat (rp_max_memory_records policy)) in
  policy_json ← ok_or (policy_to_vec policy) (CdInvalidInput (lit "the policy cannot be encoded"));
  let provenance := for_query (pq_query q) policy_json in
  Ok {| px_schema_version := CHARACTER_DB_SCHEMA_VERSION;
        px_profile_id := gf_id p;
        px_character_id := ch_id c;
        px_sections := sections;
        px_retrieval_provenance := {|
          rv_schema_version := rv_schema_version provenance;
          rv_policy_fingerprint_sha256 := rv_policy_fingerprint_sha256 provenance;
          rv_query_sha256 := rv_query_sha256 provenance;
          rv_selected_profile_knowledge_ids := selected_ids knowledge_lane sections;
          rv_selected_memory_item_ids := selected_ids memory_lane sections;
          rv_embedding_metadata_ids := rv_embedding_metadata_ids provenance |} |}.
End prompt.

(** * Characters: encounters ([crates/character-db/src/encounter.rs])

    An encounter is a meeting with an unknown background character, kept under an
    identifier derived from what it is recognized by. The registry keeps the records, the
    redirects of merged encounters and the events nobody has taken yet. A [Uuid] is its
    128-bit number, so that its order is the order of the numbers; a timestamp is an [i64]
    in [Z]: the code compares timestamps and never computes with them. *)

#[local] Open Scope Z_scope.

(** [Uuid::new_v5], of a namespace and a name. *)
Class UuidApi := { uuid_v5 : Z → list Z → Z }.

Definition ENCOUNTER_NAMESPACE : Z := 0x4ac43b8e2d324c49916b95257e8d4331.

Record VoiceCandidateV1 := {
  vc_binding_id : str;
  vc_adapter_id : str;
  vc_provider_voice_id : str;
  vc_locale : str;
  vc_traits : list str;
  vc_catalog_version : option str;
  vc_license : option str
}.

Inductive EncounterStatus := EncounterActive | EncounterExpired.
#[export] Instance EncounterStatus_eq_dec : EqDecision EncounterStatus.
Proof. solve_decision. Defined.

Record EncounterRecordV1 := {
  er_schema_version : str;
  er_encounter_id : Z;
  er_game_profile_id : str;
  er_archetype_character_id : str;
  er_continuity_key_sha256 : str;
  er_selected_voice : VoiceCandidateV1;
  er_created_at_ms : Z;
  er_last_seen_at_ms : Z;
  er_expires_at_ms : Z;
  er_status : EncounterStatus
}.

Definition set_last_seen (seen : Z) (status : EncounterStatus) (r : EncounterRecordV1) : EncounterRecordV1 := {|
  er_schema_version := er_schema_version r; er_encounter_id := er_encounter_id r;
  er_game_profile_id := er_game_profile_id r; er_archetype_character_id := er_archetype_character_id r;
  er_continuity_key_sha256 := er_continuity_key_sha256 r; er_selected_voice := er_selected_voice r;
  er_created_at_ms := er_created_at_ms r; er_last_seen_at_ms := seen;
  er_expires_at_ms := er_expires_at_ms r; er_status := status |}.

(** [EncounterRecordV1::observe]. *)
Definition record_observe (observed_at_ms : Z) (r : EncounterRecordV1)
    : result CharacterDbError EncounterRecordV1 :=
  if observed_at_ms <? er_created_at_ms r then
    Err (CdInvalidInput (lit "encounter observation predates creation")) else
  Ok (set_last_seen (Z.max (er_last_seen_at_ms r) observed_at_ms)
        (if er_expires_at_ms r <=? observed_at_ms then EncounterExpired else er_status r) r).

Inductive EncounterCorrectionSourceV1 := ManualExplicit.

Inductive EncounterLifecycleEventV1 :=
| EvCreated (encounter_id : Z) (game_profile_id : str) (occurred_at_ms : Z)
| EvObserved (encounter_id : Z) (occurred_at_ms : Z)
| EvCorrected (encounter_id : Z) (character_id : str) (source : EncounterCorrectionSourceV1)
    (occurred_at_ms : Z) (memory_migration_required : bool)
| EvMerged (source_encounter_id destination_encounter_id : Z) (source : EncounterCorrectionSourceV1)
    (occurred_at_ms : Z) (memory_migration_required : bool)
| EvExpired (encounter_id : Z) (occurred_at_ms : Z).

Record EncounterRegistryV1 := {
  eg_schema_version : str;
  eg_game_profile_id : str;
  eg_records : gmap Z EncounterRecordV1;
  eg_redirects : gmap Z Z;
  eg_events : list EncounterLifecycleEventV1
}.

Definition set_registry (records : gmap Z EncounterRecordV1) (redirects : gmap Z Z)
    (events : list EncounterLifecycleEventV1) (g : EncounterRegistryV1) : EncounterRegistryV1 := {|
  eg_schema_version := eg_schema_version g; eg_game_profile_id := eg_game_profile_id g;
  eg_records := records; eg_redirects := redirects; eg_events := events |}.

(** [EncounterRegistryV1::new]. *)
Definition registry_new (game_profile_id : str) : result CharacterDbError EncounterRegistryV1 :=
  if is_blank game_profile_id then
    Err (CdInvalidInput (lit "encounter registry game profile cannot be blank")) else
  Ok {| eg_schema_version := CHARACTER_DB_SCHEMA_VERSION; eg_game_profile_id := game_profile_id;
        eg_records := ∅; eg_redirects := ∅; eg_events := [] |}.

(** [EncounterRegistryV1::insert]. *)
Definition registry_insert (r : EncounterRecordV1) (g : EncounterRegistryV1)
    : result CharacterDbError EncounterRegistryV1 :=
  if negb (str_eqb (er_schema_version r) CHARACTER_DB_SCHEMA_VERSION)
     || negb (str_eqb (er_game_profile_id r) (eg_game_profile_id g))
     || is_some (eg_records g !! er_encounter_id r) then
    Err (CdInvalidInput (lit "encounter does not belong to this registry or already exists")) else
  Ok (set_registry (<[er_encounter_id r := r]> (eg_records g)) (eg_redirects g)
        (eg_events g ++ [EvCreated (er_encounter_id r) (eg_game_profile_id g) (er_created_at_ms r)]) g).

(** One redirect is followed, and not the redirect of where it leads. *)
Definition resolved (g : EncounterRegistryV1) (id : Z) : Z := default id (eg_redirects g !! id).

(** [EncounterRegistryV1::record]. *)
Definition registry_record (g : EncounterRegistryV1) (id : Z) : option EncounterRecordV1 :=
  eg_records g !! resolved g id.

Definition unknown_encounter : CharacterDbError := CdInvalidInput (lit "unknown encounter ID").

(** [EncounterRegistryV1::observe]. *)
Definition registry_observe (id observed_at_ms : Z) (g : EncounterRegistryV1)
    : result CharacterDbError EncounterRegistryV1 :=
  let id := resolved g id in
  r ← ok_or (eg_records g !! id) unknown_encounter;
  if bool_decide (er_status r ≠ EncounterActive) || (er_expires_at_ms r <=? observed_at_ms) then
    Err (CdInvalidInput (lit "expired encounter cannot be observed")) else
  r ← record_observe observed_at_ms r;
  Ok (set_registry (<[id := r]> (eg_records g)) (eg_redirects g)
        (eg_events g ++ [EvObserved id observed_at_ms]) g).

Definition require_active_at (r : EncounterRecordV1) (occurred_at_ms : Z) : result CharacterDbError unit :=
  if bool_decide (er_status r ≠ EncounterActive) || (occurred_at_ms <? er_created_at_ms r)
     || (er_expires_at_ms r <=? occurred_at_ms) then
    Err (CdInvalidInput (lit "encounter is expired or event time is outside its active lifetime"))
  else Ok tt.

(** [EncounterRegistryV1::correct_to_authored_character]. *)
Definition correct_to_authored_character (db : CharacterDatabase) (id : Z) (character_id : str)
    (explicitly_confirmed : bool) (occurred_at_ms : Z) (g : EncounterRegistryV1)
    : result CharacterDbError EncounterRegistryV1 :=
  if negb explicitly_confirmed || negb (str_eqb (gf_id (cd_profile db)) (eg_game_profile_id g)) then
    Err (CdInvalidInput
      (lit "encounter correction requires explicit native confirmation in the same game")) else
  c ← require_character db character_id;
  if ch_background_npc c then
    Err (CdInvalidInput (lit "authored correction target must be a named character")) else
  r ← ok_or (eg_records g !! id) unknown_encounter;
  _ ← require_active_at r occurred_at_ms;
  Ok (set_registry
        (<[id := set_last_seen (Z.max (er_last_seen_at_ms r) occurred_at_ms) EncounterExpired r]> (eg_records g))
        (eg_redirects g)
        (eg_events g ++ [EvCorrected id (ch_id c) ManualExplicit occurred_at_ms true]) g).

(** [EncounterRegistryV1::merge_unknown_encounters]. *)
Definition merge_unknown_encounters (source destination : Z) (explicitly_confirmed : bool)
    (occurred_at_ms : Z) (g : EncounterRegistryV1) : result CharacterDbError EncounterRegistryV1 :=
  if negb explicitly_confirmed || (source =? destination) then
    Err (CdInvalidInput
      (lit "encounter merge requires two distinct explicitly confirmed encounters")) else
  s ← ok_or (eg_records g !! source) (CdInvalidInput (lit "unknown source encounter ID"));
  d ← ok_or (eg_records g !! destination) (CdInvalidInput (lit "unknown destination encounter ID"));
  _ ← require_active_at s occurred_at_ms;
  _ ← require_active_at d occurred_at_ms;
  Ok (set_registry
        (<[source := set_last_seen (Z.max (er_last_seen_at_ms s) occurred_at_ms) EncounterExpired s]> (eg_records g))
        (<[source := destination]> (eg_redirects g))
        (eg_events g ++ [EvMerged source destination ManualExplicit occurred_at_ms true]) g).

(** The loop of [expire_due] over [values_mut], in the order of the identifiers. *)
Definition expiry_due (now_ms : Z) (r : EncounterRecordV1) : bool :=
  bool_decide (er_status r = EncounterActive) && (er_expires_at_ms r <=? now_ms).
Fixpoint expire_rows (now_ms : Z) (rows : list (Z * EncounterRecordV1)) (g : EncounterRegistryV1)
    (expired : list Z) : list Z * EncounterRegistryV1 :=
  match rows with
  | [] => (expired, g)
  | (id, r) :: rows =>
      if expiry_due now_ms r then
        expire_rows now_ms rows
          (set_registry (<[id := set_last_seen (er_last_seen_at_ms r) EncounterExpired r]> (eg_records g))
            (eg_redirects g) (eg_events g ++ [EvExpired (er_encounter_id r) now_ms]) g)
          (expired ++ [er_encounter_id r])
      else expire_rows now_ms rows g expired
  end.

(** [EncounterRegistryV1::expire_due]. *)
Definition expire_due (now_ms : Z) (g : EncounterRegistryV1) : list Z * EncounterRegistryV1 :=
  expire_rows now_ms (btree_iter (eg_records g)) g [].

(** [EncounterRegistryV1::drain_events]. *)
Definition drain_events (g : EncounterRegistryV1) : list EncounterLifecycleEventV1 * EncounterRegistryV1 :=
  (eg_events g, set_registry (eg_records g) (eg_redirects g) [] g).

(** ** A new encounter *)

Definition validate_voice (v : VoiceCandidateV1) : result CharacterDbError unit :=
  if existsb is_blank [vc_binding_id v; vc_adapter_id v; vc_provider_voice_id v; vc_locale v] then
    Err (CdInvalidInput (lit "voice candidate IDs and locale cannot be blank"))
  else Ok tt.

(** [dedup_by]: of a run of candidates with the same binding, the first. *)
Fixpoint dedup_voices (last : str) (l : list VoiceCandidateV1) : list VoiceCandidateV1 :=
  match l with
  | [] => []
  | v :: l => if str_eqb (vc_binding_id v) last then dedup_voices last l
              else v :: dedup_voices (vc_binding_id v) l
  end.
Definition voice_pool (candidates : list VoiceCandidateV1) : list VoiceCandidateV1 :=
  match sort_by (λ l r, str_cmp (vc_binding_id l) (vc_binding_id r)) candidates with
  | [] => []
  | v :: l => v :: dedup_voices (vc_binding_id v) l
  end.

Section create.
Context `{ProfileApi} `{UnicodeApi} `{DigestApi} `{UuidApi}.

Definition profile_voice (archetype : CharacterProfile) (provider_voice_id : str) : VoiceCandidateV1 := {|
  vc_binding_id := lit "profile:" ++ ch_id archetype;
  vc_adapter_id := default (lit "profile-default") (vd_adapter_id (ch_voice archetype));
  vc_provider_voice_id := provider_voice_id;
  vc_locale := vd_locale (ch_voice archetype);
  vc_traits := vd_style_tags (ch_voice archetype);
  vc_catalog_version := vd_catalog_version (ch_voice archetype);
  vc_license := vd_license (ch_voice archetype) |}.

Definition identity_material (profile_id archetype_id continuity_key : str) : str :=
  CHARACTER_DB_SCHEMA_VERSION ++ [0] ++ profile_id ++ [0] ++ archetype_id ++ [0] ++ continuity_key.

Definition create_stable_encounter (db : CharacterDatabase) (archetype_id continuity_key : str)
    (candidates : list VoiceCandidateV1) (created_at_ms expires_at_ms : Z)
    : result CharacterDbError EncounterRecordV1 :=
  archetype ← require_character db archetype_id;
  if negb (ch_background_npc archetype) then
    Err (CdInvalidInput (lit "character `" ++ archetype_id ++ lit "` is not a background archetype")) else
  if is_blank continuity_key then
    Err (CdInvalidInput (lit "encounter continuity key cannot be blank")) else
  if expires_at_ms <=? created_at_ms then
    Err (CdInvalidInput (lit "encounter expiry must follow creation")) else
  let voices := voice_pool candidates in
  _ ← check_all validate_voice voices;
  selected_voice ← match vd_provider_voice_id (ch_voice archetype) with
    | Some id => Ok (profile_voice archetype id)
    | None =>
        ok_or (voices !! stable_index (utf8_encode continuity_key) (length voices))
          (CdInvalidInput
            (lit "background encounter requires a profile voice or a non-empty voice pool"))
    end;
  Ok {| er_schema_version := CHARACTER_DB_SCHEMA_VERSION;
        er_encounter_id := uuid_v5 ENCOUNTER_NAMESPACE
          (utf8_encode (identity_material (gf_id (cd_profile db)) archetype_id continuity_key));
        er_game_profile_id := gf_id (cd_profile db);
        er_archetype_character_id := archetype_id;
        er_continuity_key_sha256 := hex_sha256 (utf8_encode continuity_key);
        er_selected_voice := selected_voice;
        er_created_at_ms := created_at_ms;
        er_last_seen_at_ms := created_at_ms;
        er_expires_at_ms := expires_at_ms;
        er_status := EncounterActive |}.
End create.
