(* ===== verification/CharacterSpec.v ===== *)
(** * Characters: what the index finds, whom selection picks, and what a prompt tells *)

From S2P Require Import Prelude Text Bytes Float HostedTypes ProfileValidation ProfileSpec ProfileMigration MemoryTypes MemoryStore MemoryFacts MemoryItems MemorySpec CharacterDb.
From Stdlib Require Import SpecFloat.

#[local] Open Scope Z_scope.

(** ** Lists *)

Lemma imap_pair_lookup {A} (l : list A) i x : (i, x) ∈ imap pair l ↔ l !! i = Some x.
Proof.
  rewrite list_elem_of_lookup. setoid_rewrite list_lookup_imap_Some. split.
  - by intros (j&y&?&[= -> ->]).
  - intros ?. by exists i, x.
Qed.

Lemma dedup_from_elem i last (l : list nat) : i ∈ dedup_from last l → i ∈ l.
Proof.
  revert last. induction l as [|j l IH]; intros last; [done|]. cbn. destruct (Nat.eqb j last).
  - intros ?%IH. by right.
  - rewrite !elem_of_cons. intros [->|?%IH]; [by left|by right].
Qed.

Lemma dedup_from_keeps i last (l : list nat) : i ∈ l → i = last ∨ i ∈ dedup_from last l.
Proof.
  revert last. induction l as [|j l IH]; intros last; [by intros ?%not_elem_of_nil|]. cbn.
  rewrite elem_of_cons. destruct (Nat.eqb_spec j last) as [->|Hne].
  - intros [->|Hi]; [by left|by apply IH].
  - rewrite elem_of_cons. intros [->|Hi]; [right; by left|]. destruct (IH j Hi) as [->|?]; [right; by left|].
    right. by right.
Qed.

Lemma dedup_indexes_elem i (l : list nat) : i ∈ dedup_indexes l ↔ i ∈ l.
Proof.
  destruct l as [|j l]; [done|]. cbn. rewrite !elem_of_cons. split.
  - intros [->|?%dedup_from_elem]; [by left|by right].
  - intros [->|Hi]; [by left|]. destruct (dedup_from_keeps _ j _ Hi); [by left|by right].
Qed.

(** Runs of equal elements of a sorted list are all its repetitions. *)
Lemma dedup_from_NoDup cmp last (l : list nat) :
  cmp_preorder cmp → StronglySorted (cmp_le cmp) (last :: l) → separates cmp (last :: l) →
  last ∉ dedup_from last l ∧ NoDup (dedup_from last l).
Proof.
  intros Hcmp. revert last. induction l as [|j l IH]; intros last Hs Hsep; cbn.
  { split; [apply not_elem_of_nil|constructor]. }
  inversion Hs as [|? ? Hs' Hle]; subst. inversion Hs' as [|? ? Hs'' Hle']; subst.
  rewrite Forall_forall in Hle, Hle'.
  destruct (Nat.eqb_spec j last) as [->|Hne].
  - apply IH; [done|]. intros x y Hx Hy. apply Hsep; by right.
  - destruct (IH j Hs') as [Hj Hnd]; [intros x y Hx Hy; apply Hsep; by right|].
    split; [|by constructor]. rewrite elem_of_cons. intros [->|Hin%dedup_from_elem]; [done|].
    apply Hne, Hsep; [right; by left|by left|]. apply (cmp_le_antisym cmp Hcmp).
    + by apply Hle'.
    + apply Hle. by left.
Qed.

Lemma dedup_indexes_NoDup cmp (l : list nat) :
  cmp_preorder cmp → separates cmp l → NoDup (dedup_indexes (sort_by cmp l)).
Proof.
  intros Hcmp Hsep.
  assert (StronglySorted (cmp_le cmp) (sort_by cmp l)) as Hs by by apply sort_by_strongly_sorted.
  assert (separates cmp (sort_by cmp l)) as Hsep' by (eapply separates_perm; [symmetry; apply sort_by_perm|done]).
  destruct (sort_by cmp l) as [|j k]; cbn; [constructor|].
  destruct (dedup_from_NoDup cmp j k Hcmp Hs Hsep'). by constructor.
Qed.

(** ** The index *)

Section index.
Context `{ProfileApi} `{UnicodeApi}.
Implicit Types (p : GameProfileV2) (c : CharacterProfile).

Definition named c (alias : str) : Prop :=
  ∃ name, name ∈ character_names c ∧ normalize_alias name = normalize_alias alias.

Lemma push_aliases_elem i j key (names : list str) m :
  i ∈ default [] (foldl (push_alias j) m names !! key) ↔
  i ∈ default [] (m !! key) ∨ (i = j ∧ ∃ name, name ∈ names ∧ normalize_alias name = key).
Proof.
  revert m. induction names as [|name names IH]; intros m; cbn [foldl].
  { split; [by left|]. intros [?|(_&?&Hn&_)]; [done|]. by apply not_elem_of_nil in Hn. }
  rewrite IH. unfold push_alias at 1. setoid_rewrite elem_of_cons.
  destruct (decide (normalize_alias name = key)) as [<-|Hne].
  - rewrite lookup_insert_eq. cbn. rewrite elem_of_app, list_elem_of_singleton. naive_solver.
  - rewrite lookup_insert_ne by done. naive_solver.
Qed.

Definition indexed (l : list (nat * CharacterProfile)) : gmap str nat * gmap str (list nat) :=
  foldl index_character (∅, ∅) l.

Lemma indexed_snoc l x : indexed (l ++ [x]) = index_character (indexed l) x.
Proof. unfold indexed. by rewrite foldl_app. Qed.

Lemma indexed_ids l id i : NoDup (ch_id <$> l.*2) →
  (indexed l).1 !! id = Some i ↔ ∃ c, (i, c) ∈ l ∧ ch_id c = id.
Proof.
  induction l as [|[j c] l IH] using rev_ind; intros Hnd.
  { cbn. rewrite lookup_empty. split; [done|]. intros (?&Hn&_). by apply not_elem_of_nil in Hn. }
  rewrite indexed_snoc. rewrite !fmap_app, NoDup_app in Hnd. destruct Hnd as (Hnd&Hfresh&_).
  unfold index_character. cbn [fst snd]. setoid_rewrite elem_of_app.
  setoid_rewrite list_elem_of_singleton.
  destruct (decide (ch_id c = id)) as [<-|Hne].
  - rewrite lookup_insert_eq. split; [intros [= ->]; exists c; naive_solver|].
    intros (c'&[Hin|[= -> ->]]&E); [|done]. exfalso.
    apply (Hfresh (ch_id c')); [|rewrite E; by left].
    apply list_elem_of_fmap. exists c'. split; [done|]. apply list_elem_of_fmap. by exists (i, c').
  - rewrite lookup_insert_ne, IH by done. split; [naive_solver|].
    intros (c'&[Hin|[= -> ->]]&E); [by exists c'|done].
Qed.

Lemma indexed_aliases l key i :
  i ∈ default [] ((indexed l).2 !! key) ↔
  ∃ c, (i, c) ∈ l ∧ ∃ name, name ∈ character_names c ∧ normalize_alias name = key.
Proof.
  induction l as [|[j c] l IH] using rev_ind.
  { cbn. rewrite lookup_empty. split; [by intros ?%not_elem_of_nil|].
    intros (?&Hn&_). by apply not_elem_of_nil in Hn. }
  rewrite indexed_snoc. unfold index_character. cbn [fst snd]. rewrite push_aliases_elem, IH.
  setoid_rewrite elem_of_app. setoid_rewrite list_elem_of_singleton. naive_solver.
Qed.

(** What a database that was built knows. *)
Record database_of p (db : CharacterDatabase) : Prop := {
  db_profile : cd_profile db = p;
  db_well_formed : well_formed_profile p;
  db_character : ∀ id c, character db id = Some c ↔ c ∈ gf_characters p ∧ ch_id c = id;
  db_alias : ∀ alias c, c ∈ characters_for_alias db alias ↔ c ∈ gf_characters p ∧ named c alias;
  db_alias_once : ∀ alias, NoDup (ch_id <$> characters_for_alias db alias)
}.

Lemma id_at_lookup p i c : gf_characters p !! i = Some c → id_at p i = ch_id c.
Proof. unfold id_at. by intros ->. Qed.

Lemma id_at_preorder p : cmp_preorder (λ i j, str_cmp (id_at p i) (id_at p j)).
Proof. exact (cmp_preorder_map (id_at p) str_cmp str_cmp_preorder). Qed.

Lemma omap_lookup_ids {A B} (f : A → B) (l : list A) (idx : list nat) :
  NoDup idx → (∀ i j x y, l !! i = Some x → l !! j = Some y → f x = f y → i = j) →
  NoDup (f <$> omap (λ i, l !! i) idx).
Proof.
  intros Hnd Hinj. induction Hnd as [|i idx Hi _ IH]; cbn; [constructor|].
  destruct (l !! i) as [x|] eqn:Hx; [|done]. cbn. apply NoDup_cons. split; [|done].
  intros (y&E&Hy)%list_elem_of_fmap. apply list_elem_of_omap in Hy as (j&Hj&Hy).
  by rewrite (Hinj i j x y) in Hi.
Qed.

Lemma database_new_ok p db : database_new p = Ok db → database_of p db.
Proof.
  unfold database_new. cbv zeta. rewrite if_err_Ok. intros [Hv [= <-]].
  apply negb_false_iff, profile_validate_iff in Hv. pose proof (wf_characters _ Hv) as Hnd.
  fold (indexed (imap pair (gf_characters p))).
  assert ((imap pair (gf_characters p)).*2 = gf_characters p) as Hsnd.
  { rewrite fmap_imap. rewrite (imap_ext _ (λ _ x, x)) by done. clear. induction (gf_characters p); cbn; by f_equal. }
  assert (∀ i j x y, gf_characters p !! i = Some x → gf_characters p !! j = Some y →
    ch_id x = ch_id y → i = j) as Hinj.
  { intros i j x y Hi Hj E. apply (NoDup_lookup _ i j (ch_id x) Hnd).
    - by rewrite list_lookup_fmap, Hi.
    - rewrite list_lookup_fmap, Hj. cbn. by f_equal. }
  set (order := λ i j, str_cmp (id_at p i) (id_at p j)).
  split; [done|done| | |]; cbn [cd_profile].
  - intros id c. unfold character. cbn [cd_character_indexes cd_profile]. rewrite bind_Some.
    setoid_rewrite indexed_ids; [|by rewrite Hsnd]. setoid_rewrite imap_pair_lookup. split.
    + intros (i&(c'&Hi&<-)&Hc). rewrite Hc in Hi. injection Hi as ->.
      split; [by eapply list_elem_of_lookup_2|done].
    + intros [[i Hi]%list_elem_of_lookup <-]. exists i. split; [by exists c|done].
  - intros alias c. unfold characters_for_alias, named. cbn [cd_alias_indexes cd_profile].
    rewrite lookup_fmap, list_elem_of_omap.
    assert (∀ i, i ∈ default [] ((λ l, dedup_indexes (sort_by order l))
        <$> (indexed (imap pair (gf_characters p))).2 !! normalize_alias alias) ↔
      i ∈ default [] ((indexed (imap pair (gf_characters p))).2 !! normalize_alias alias)) as Helem.
    { intros i. destruct (_ !! normalize_alias alias); cbn; [|done].
      by rewrite dedup_indexes_elem, sort_by_perm. }
    setoid_rewrite Helem. setoid_rewrite indexed_aliases. setoid_rewrite imap_pair_lookup. split.
    + intros (i&(c'&Hi&Hn)&Hc). rewrite Hc in Hi. injection Hi as ->.
      split; [by eapply list_elem_of_lookup_2|done].
    + intros [[i Hi]%list_elem_of_lookup Hn]. exists i. split; [by exists c|done].
  - intros alias. unfold characters_for_alias. cbn [cd_alias_indexes cd_profile].
    apply omap_lookup_ids; [|done]. rewrite lookup_fmap.
    pose proof (indexed_aliases (imap pair (gf_characters p)) (normalize_alias alias)) as Hel.
    destruct (_ !! normalize_alias alias) as [l|]; cbn in Hel |- *; [|constructor].
    apply (dedup_indexes_NoDup order l (id_at_preorder p)).
    intros i j (ci&Hi&_)%Hel (cj&Hj&_)%Hel E%str_cmp_Eq. rewrite imap_pair_lookup in Hi, Hj.
    rewrite (id_at_lookup _ _ _ Hi), (id_at_lookup _ _ _ Hj) in E. by eapply Hinj.
Qed.
End index.

(** ** Selection *)

Lemma f_total_key_inj b (x y : spec_float) : f_total_key b x = f_total_key b y → x = y.
Proof. destruct b, x as [[]|[]| |[] ? ?], y as [[]|[]| |[] ? ?]; cbn; intros [=]; try done; f_equal; lia. Qed.

(** *** Differences of confidences

    The numbers of an [f64] are the ones its format has; on those, a number minus one that
    is not greater is not negative. *)
Definition proper_f64 (x : f64) : Prop := valid_binary 53 1024 x = true.

Definition not_negative (x : f64) : Prop :=
  match x with S754_finite true _ _ | S754_infinity true => False | _ => True end.

Lemma not_negative_lt x z : not_negative x → f_lt x z = true → f_lt f_zero z = true.
Proof. unfold f_lt, SFltb, f_zero. destruct x as [[]|[]| |[] ? ?], z as [[]|[]| |[] ? ?]; cbn; done. Qed.

Lemma round_not_negative m e : not_negative (binary_round 53 1024 false m e).
Proof.
  unfold binary_round. destruct (shl_align m e _) as [mz ez]. unfold binary_round_aux.
  destruct (shr_fexp _ _ _ _ _) as [mrs e']. destruct (shr_fexp _ _ _ _ _) as [mrs' e''].
  destruct (shr_m mrs'); [done| |done]. by destruct (_ <=? _).
Qed.

Lemma digits_bounds m : 2 ^ (Z.pos (digits2_pos m) - 1) ≤ Z.pos m < 2 ^ Z.pos (digits2_pos m).
Proof.
  induction m as [m IH|m IH|]; [| |done]; cbn [digits2_pos];
    rewrite Pos2Z.inj_succ; replace (Z.succ (Z.pos (digits2_pos m)) - 1) with (Z.pos (digits2_pos m)) by lia;
    rewrite Z.pow_succ_r by lia;
    assert (2 ^ Z.pos (digits2_pos m) = 2 * 2 ^ (Z.pos (digits2_pos m) - 1)) as Hd
      by (rewrite <-Z.pow_succ_r by lia; f_equal; lia); lia.
Qed.

Lemma shl_align_value m e e' : e' ≤ e → Z.pos (shl_align m e e').1 = Z.pos m * 2 ^ (e - e').
Proof.
  intros Hle. unfold shl_align. destruct (e' - e) as [|q|q] eqn:E; [..|].
  - replace (e - e') with 0 by lia. cbn [fst]. lia.
  - lia.
  - replace (e - e') with (Z.pos q) by lia. cbn [fst]. clear. induction q as [|q IH] using Pos.peano_ind.
    + cbn. lia.
    + rewrite Pos.iter_succ, Pos2Z.inj_succ, Z.pow_succ_r by lia. lia.
Qed.

(** Among numbers of the format, the greater exponent has the greater number. *)
Lemma aligned_le mx ex my ey :
  bounded 53 1024 mx ex = true → bounded 53 1024 my ey = true →
  SFcompare (S754_finite false my ey) (S754_finite false mx ex) ≠ Some Gt →
  Z.pos (shl_align my ey (Z.min ex ey)).1 ≤ Z.pos (shl_align mx ex (Z.min ex ey)).1.
Proof.
  unfold bounded, canonical_mantissa, fexp, emin. rewrite !andb_true_iff, !Z.eqb_eq. intros [Hx _] [Hy _] Hle.
  rewrite !shl_align_value by lia. cbn in Hle.
  pose proof (digits_bounds mx) as Hmx. pose proof (digits_bounds my) as Hmy.
  destruct (Z.compare_spec ey ex) as [->|Hlt|Hgt]; [| |done].
  - rewrite Z.min_id, Z.sub_diag.
    change (PosDef.Pos.compare_cont Eq my mx) with (my ?= mx)%positive in Hle.
    destruct (Pos.compare_spec my mx); [subst; lia|lia|done].
  - rewrite Z.min_r by lia. rewrite Z.sub_diag, Z.mul_1_r.
    assert (Z.pos (digits2_pos mx) = 53) as Hdx by lia. rewrite Hdx in Hmx.
    assert (2 ^ Z.pos (digits2_pos my) ≤ 2 ^ 53) by (apply Z.pow_le_mono_r; lia).
    assert (2 ^ 1 ≤ 2 ^ (ex - ey)) by (apply Z.pow_le_mono_r; lia).
    change (2 ^ (53 - 1)) with 4503599627370496 in Hmx. change (2 ^ 53) with 9007199254740992 in *.
    change (2 ^ 1) with 2 in *. nia.
Qed.

Lemma sub_not_negative x y :
  proper_f64 x → proper_f64 y → f_le f_zero x = true → f_le f_zero y = true → f_le y x = true →
  not_negative (f64_sub x y).
Proof.
  unfold f_le, SFleb, f_zero, proper_f64, f64_sub.
  destruct x as [[]|[]| |[] mx ex], y as [[]|[]| |[] my ey]; try done. intros Hx Hy _ _ Hle.
  unfold SFsub, cond_Zopp. cbv zeta. cbn [valid_binary] in Hx, Hy.
  pose proof (aligned_le _ _ _ _ Hx Hy) as Hal.
  destruct (Z.pos _ - Z.pos _) as [|q|q] eqn:E; cbn [binary_normalize]; [done|apply round_not_negative|].
  exfalso. assert (SFcompare (S754_finite false my ey) (S754_finite false mx ex) ≠ Some Gt) as Hc.
  { intros Hc. by rewrite Hc in Hle. }
  specialize (Hal Hc). lia.
Qed.

Lemma sub_self x z : is_finite x = true → f_lt f_zero z = true → f_lt (f64_sub x x) z = true.
Proof.
  intros Hx Hz. unfold f64_sub. destruct x as [[]|[]| |s m e]; try done. unfold SFsub. cbv zeta.
  by rewrite Z.sub_diag.
Qed.

Lemma not_lt_le x y : is_nan x = false → is_nan y = false → f_lt x y = false → f_le y x = true.
Proof.
  intros Hx Hy. unfold f_lt, f_le, SFltb, SFleb. rewrite !SFcompare_key by done.
  rewrite (ocmp_opp (real_key x) (real_key y)). by destruct (ocmp _ _).
Qed.

Section selection.
Context `{ProfileApi} `{UnicodeApi} `{NanApi} `{DigestApi}.
Implicit Types (p : GameProfileV2) (x y : IdentityCandidateV1) (ev : SelectionEvidenceV1).

Lemma candidate_order_preorder : cmp_preorder candidate_order.
Proof.
  unfold candidate_order. apply cmp_preorder_then; [|apply cmp_preorder_then].
  - apply (cmp_preorder_flip (λ x y, f_total_cmp nan_negative (ic_confidence x) (ic_confidence y))).
    apply (cmp_preorder_map (λ x, f_total_key nan_negative (ic_confidence x)) ocmp), cmp_preorder_ocmp.
  - exact (cmp_preorder_map ic_character_id str_cmp str_cmp_preorder).
  - exact (cmp_preorder_map ic_evidence_id str_cmp str_cmp_preorder).
Qed.

Lemma candidate_order_Eq x y : candidate_order x y = Eq → x = y.
Proof.
  unfold candidate_order, then_with, f_total_cmp. destruct (ocmp _ _) eqn:E1; try done.
  apply ocmp_Eq, f_total_key_inj in E1.
  destruct (str_cmp (ic_character_id x) _) eqn:E2; try done. apply str_cmp_Eq in E2.
  intros E3%str_cmp_Eq. destruct x, y; cbn in *; congruence.
Qed.

Lemma candidates_separated (l : list IdentityCandidateV1) : separates candidate_order l.
Proof. intros x y _ _. apply candidate_order_Eq. Qed.

Lemma first_of_each_elem seen l x :
  StronglySorted (cmp_le candidate_order) l →
  x ∈ first_of_each seen l ↔ x ∈ l ∧ ic_character_id x ∉ seen ∧
    ∀ y, y ∈ l → ic_character_id y = ic_character_id x → cmp_le candidate_order x y.
Proof.
  intros Hs. revert seen. induction Hs as [|c l Hs IH Hc]; intros seen; cbn [first_of_each].
  { split; [by intros ?%not_elem_of_nil|by intros [?%not_elem_of_nil _]]. }
  rewrite Forall_forall in Hc. case_bool_decide as Hin.
  - rewrite IH. setoid_rewrite elem_of_cons. split.
    + intros (?&?&Hy). split; [by right|]. split; [done|]. intros y [->|?] E; [|by apply Hy].
      by rewrite E in Hin.
    + intros ([->|?]&Hn&Hy); [done|]. split; [done|]. split; [done|]. intros y ? ?. apply Hy; [by right|done].
  - rewrite elem_of_cons, IH, not_elem_of_union, not_elem_of_singleton. setoid_rewrite elem_of_cons. split.
    + intros [->|(?&[Hne ?]&Hy)].
      * split; [by left|]. split; [done|]. intros y [->|Hy] _; [|by apply Hc].
        apply cmp_le_refl, candidate_order_preorder.
      * split; [by right|]. split; [done|]. intros y [->|?] E; [by rewrite E in Hne|by apply Hy].
    + intros ([->|Hx]&Hn&Hy); [by left|].
      destruct (decide (ic_character_id x = ic_character_id c)) as [E|Hne].
      * left. apply candidate_order_Eq, cmp_le_antisym; [apply candidate_order_preorder|..].
        -- apply Hy; [by left|done].
        -- by apply Hc.
      * right. split; [done|]. split; [done|]. intros y ? ?. apply Hy; [by right|done].
Qed.

Lemma first_of_each_sorted seen l :
  StronglySorted (cmp_le candidate_order) l →
  StronglySorted (cmp_le candidate_order) (first_of_each seen l) ∧
  NoDup (ic_character_id <$> first_of_each seen l).
Proof.
  intros Hs. revert seen. induction Hs as [|c l Hs IH Hc]; intros seen; cbn [first_of_each].
  { split; constructor. }
  case_bool_decide; [apply IH|]. rewrite Forall_forall in Hc.
  destruct (IH ({[ic_character_id c]} ∪ seen)) as [IH1 IH2]. split.
  - constructor; [done|]. apply Forall_forall. intros y (Hy&_&_)%first_of_each_elem; [|done]. by apply Hc.
  - cbn. apply NoDup_cons. split; [|done]. intros (y&E&Hy)%list_elem_of_fmap.
    apply first_of_each_elem in Hy as (_&Hn&_); [|done]. apply Hn. rewrite E. set_solver.
Qed.

(** A candidate that counts: of a known character, and none of that character's candidates
    is stronger. *)
Definition known_candidate p ev x : Prop :=
  x ∈ sv_visual_candidates ev ∧ ic_character_id x ∈ ch_id <$> gf_characters p.
Definition strongest p ev x : Prop :=
  known_candidate p ev x ∧
  ∀ y, known_candidate p ev y → ic_character_id y = ic_character_id x → cmp_le candidate_order x y.

Lemma known_iff p db id : database_of p db → is_some (character db id) = true ↔ id ∈ ch_id <$> gf_characters p.
Proof.
  intros Hdb. rewrite list_elem_of_fmap. split.
  - destruct (character db id) as [c|] eqn:E; [|done]. intros _.
    apply (db_character _ _ Hdb) in E as [? <-]. by exists c.
  - intros (c&->&Hc). by rewrite (proj2 (db_character _ _ Hdb (ch_id c) c) (conj Hc eq_refl)).
Qed.

Lemma ranked_candidates_ok p db ev l :
  database_of p db → ranked_candidates db (sv_visual_candidates ev) = Ok l →
  StronglySorted (cmp_le candidate_order) l ∧ NoDup (ic_character_id <$> l) ∧ (∀ x, x ∈ l ↔ strongest p ev x) ∧
  (∀ x rest y, l = x :: rest → known_candidate p ev y → cmp_le candidate_order x y) ∧
  (l = [] → ∀ y, ¬ known_candidate p ev y).
Proof.
  intros Hdb. unfold ranked_candidates. cbv zeta.
  set (known := List.filter _ _). destruct (check_all check_candidate known); [|done]. intros [= <-].
  assert (∀ y, y ∈ sort_by candidate_order known ↔ known_candidate p ev y) as Hk.
  { intros y. unfold known_candidate. rewrite sort_by_perm. unfold known.
    rewrite filter_elem, (known_iff p db) by done. tauto. }
  assert (StronglySorted (cmp_le candidate_order) (sort_by candidate_order known)) as Hs
    by apply sort_by_strongly_sorted, candidate_order_preorder.
  destruct (first_of_each_sorted ∅ _ Hs) as [Hs1 Hs2]. split; [done|]. split; [done|]. split; [|split].
  - intros x. rewrite first_of_each_elem by done. unfold strongest. setoid_rewrite Hk. set_solver.
  - intros x rest y E Hy. apply Hk in Hy. destruct (sort_by candidate_order known) as [|c k]; [done|].
    cbn in E. rewrite bool_decide_eq_false_2 in E by set_solver. injection E as <- _.
    inversion Hs as [|? ? _ Hc]; subst. rewrite Forall_forall in Hc.
    apply elem_of_cons in Hy as [->|Hy]; [apply cmp_le_refl, candidate_order_preorder|by apply Hc].
  - intros E y Hy%Hk. destruct (sort_by candidate_order known) as [|c k]; [by apply not_elem_of_nil in Hy|].
    cbn in E. by rewrite bool_decide_eq_false_2 in E by set_solver.
Qed.

(** Nobody was named. *)
Definition unnamed p ev : Prop :=
  sv_explicit_character_id ev = None ∧
  ∀ alias, sv_addressed_alias ev = Some alias → ∀ c, c ∈ gf_characters p → ¬ named c alias.

(** The current partner was not seen well enough to stay. *)
Definition let_go p ev (policy : SelectionPolicyV1) : Prop :=
  ∀ x, strongest p ev x → sv_current_character_id ev = Some (ic_character_id x) →
    f_le (so_sticky_confidence policy) (ic_confidence x) = false.

(** Best of all, and the best of the other characters. *)
Definition best_candidate p ev x : Prop :=
  strongest p ev x ∧ ∀ y, known_candidate p ev y → cmp_le candidate_order x y.
Definition runner_up p ev x y : Prop :=
  strongest p ev y ∧ y ≠ x ∧ ∀ z, strongest p ev z → z ≠ x → cmp_le candidate_order y z.
Definition ahead (policy : SelectionPolicyV1) (x : IdentityCandidateV1) (second : f64) : Prop :=
  f_lt (f64_sub (ic_confidence x) second) (so_minimum_margin policy) = false.

(** The strongest candidate of every character, best first. *)
Record ranking p ev (l : list IdentityCandidateV1) : Prop := {
  rk_sorted : StronglySorted (cmp_le candidate_order) l;
  rk_once : NoDup (ic_character_id <$> l);
  rk_all : ∀ x, x ∈ l ↔ strongest p ev x
}.

(** Why an outcome is the right one. A close call is one the runner-up takes part in, or
    one a character that is alone does not win; it concerns the candidates from the best
    down to the last that is close. *)
Inductive justified p ev policy : SelectionOutcomeV1 → Prop :=
| by_explicit c :
    c ∈ gf_characters p → sv_explicit_character_id ev = Some (ch_id c) →
    justified p ev policy (SelectKnown (ch_id c) ByExplicit)
| by_alias c alias :
    sv_explicit_character_id ev = None → sv_addressed_alias ev = Some alias →
    (∀ c', c' ∈ gf_characters p ∧ named c' alias ↔ c' = c) →
    justified p ev policy (SelectKnown (ch_id c) ByAddressedAlias)
| by_alias_of_many cs alias :
    sv_explicit_character_id ev = None → sv_addressed_alias ev = Some alias →
    (2 ≤ length cs)%nat → NoDup (ch_id <$> cs) →
    (∀ c, c ∈ cs ↔ c ∈ gf_characters p ∧ named c alias) →
    justified p ev policy (SelectAmbiguous (ch_id <$> cs))
| by_sticky x :
    unnamed p ev → sv_current_character_id ev = Some (ic_character_id x) → strongest p ev x →
    f_le (so_sticky_confidence policy) (ic_confidence x) = true →
    justified p ev policy (SelectKnown (ic_character_id x) ByStickyCurrent)
| by_sight x :
    unnamed p ev → let_go p ev policy → best_candidate p ev x →
    f_lt (ic_confidence x) (so_minimum_confidence policy) = false →
    (∀ y, runner_up p ev x y → ahead policy x (ic_confidence y)) →
    ((∀ y, strongest p ev y → y = x) → ahead policy x f_zero) →
    justified p ev policy (SelectKnown (ic_character_id x) ByVisualConfidence)
| by_close_call x close rest :
    unnamed p ev → let_go p ev policy → best_candidate p ev x →
    f_lt (ic_confidence x) (so_minimum_confidence policy) = false →
    ranking p ev (close ++ rest) → x ∈ close →
    Forall (λ y, ¬ ahead policy x (ic_confidence y)) close →
    (∀ y, head rest = Some y → ahead policy x (ic_confidence y)) →
    (∀ y, runner_up p ev x y → y ∈ close) →
    ((∀ y, strongest p ev y → y = x) → ¬ ahead policy x f_zero) →
    justified p ev policy (SelectAmbiguous (ic_character_id <$> close))
| by_nobody :
    unnamed p ev → let_go p ev policy →
    (∀ y, known_candidate p ev y →
      ∃ x, best_candidate p ev x ∧ f_lt (ic_confidence x) (so_minimum_confidence policy) = true) →
    justified p ev policy SelectBackground.

Lemma close_to_facts best margin (l : list IdentityCandidateV1) :
  ∃ rest, l = close_to best margin l ++ rest ∧
  Forall (λ y, f_lt (f64_sub best (ic_confidence y)) margin = true) (close_to best margin l) ∧
  (∀ y, head rest = Some y → f_lt (f64_sub best (ic_confidence y)) margin = false).
Proof.
  induction l as [|x l (rest&IH1&IH2&IH3)]; [by exists []|]. cbn. destruct (f_lt _ _) eqn:E.
  - exists rest. split; [by rewrite <-app_comm_cons, <-IH1|]. by split; [constructor|].
  - exists (x :: l). split; [done|]. split; [constructor|]. by intros y [= <-].
Qed.

(** What a candidate that counts is worth. *)
Definition in_unit x : Prop := is_finite (ic_confidence x) = true ∧ f_le f_zero (ic_confidence x) = true.

Lemma ranked_candidates_unit db (l l' : list IdentityCandidateV1) :
  ranked_candidates db l = Ok l' → Forall (λ x, in_unit x ∧ x ∈ l) l'.
Proof.
  unfold ranked_candidates. cbv zeta. set (known := List.filter _ _).
  destruct (check_all check_candidate known) as [[]|] eqn:Hc; [|done]. intros [= <-].
  apply check_all_Ok in Hc. rewrite Forall_forall in Hc. apply Forall_forall. intros x Hx.
  assert (x ∈ known) as Hk.
  { apply first_of_each_elem in Hx as [Hx _]; [by rewrite sort_by_perm in Hx|].
    apply sort_by_strongly_sorted, candidate_order_preorder. }
  specialize (Hc x Hk). apply filter_elem in Hk as [_ Hk]. split; [|done]. unfold check_candidate in Hc.
  destruct (in_unit_interval (ic_confidence x)) eqn:Hu; [|done]. unfold in_unit_interval, range_contains in Hu.
  apply andb_true_iff in Hu as [? [? _]%andb_true_iff]. done.
Qed.

(** Of two candidates, the first is at least as confident. *)
Lemma order_confidence x y : in_unit x → in_unit y → cmp_le candidate_order x y →
  f_le (ic_confidence y) (ic_confidence x) = true.
Proof.
  intros [Hx _] [Hy _] Hle. apply not_lt_le; [by apply is_finite_not_nan..|].
  apply not_true_iff_false. intros Hlt%(f_total_cmp_lt nan_negative). apply Hle. unfold candidate_order, f_total_cmp in *.
  rewrite (ocmp_opp (f_total_key nan_negative (ic_confidence x))), Hlt. done.
Qed.

(** When something is close, the best itself is. *)
Lemma close_positive x second (policy : SelectionPolicyV1) :
  in_unit x → proper_f64 (ic_confidence x) → proper_f64 second → f_le f_zero second = true →
  f_le second (ic_confidence x) = true → ¬ ahead policy x second → ¬ ahead policy x (ic_confidence x).
Proof.
  intros [Hx Hx0] Hpx Hps Hs0 Hle. unfold ahead. rewrite !not_false_iff_true. intros Hlt.
  apply sub_self; [done|]. eapply not_negative_lt; [|exact Hlt]. by apply sub_not_negative.
Qed.

(** The runner-up comes second. *)
Lemma runner_up_second p ev x rest y :
  ranking p ev (x :: rest) → runner_up p ev x y → head rest = Some y.
Proof.
  intros [Hs Hnd Hel] (Hy&Hyx&Hmin'). inversion Hs as [|? ? Hs' _]; subst.
  assert (y ∈ rest) as Hyr by (by apply Hel, elem_of_cons in Hy as [->|]).
  destruct rest as [|c rest]; [by apply not_elem_of_nil in Hyr|]. cbn. f_equal.
  inversion Hs' as [|? ? _ Hc']; subst. rewrite Forall_forall in Hc'.
  apply candidate_order_Eq, cmp_le_antisym; [apply candidate_order_preorder|..].
  - apply elem_of_cons in Hyr as [->|Hyr]; [apply cmp_le_refl, candidate_order_preorder|by apply Hc'].
  - apply Hmin'; [apply Hel; right; by left|]. intros ->. cbn in Hnd.
    apply NoDup_cons in Hnd as [Hn _]. apply Hn. by left.
Qed.

(** Nobody else was seen. *)
Lemma alone p ev x rest : ranking p ev (x :: rest) → (∀ y, strongest p ev y → y = x) → rest = [].
Proof.
  intros [_ Hnd Hel] Honly. destruct rest as [|c rest]; [done|]. exfalso. cbn in Hnd.
  apply NoDup_cons in Hnd as [Hn _]. apply Hn. rewrite <-(Honly c); [by left|]. apply Hel. right. by left.
Qed.

Lemma close_call_justified p ev policy x rest :
  unnamed p ev → let_go p ev policy → best_candidate p ev x →
  ranking p ev (x :: rest) → Forall (λ y, in_unit y ∧ proper_f64 (ic_confidence y)) (x :: rest) →
  f_lt (ic_confidence x) (so_minimum_confidence policy) = false →
  ¬ ahead policy x (match rest with c :: _ => ic_confidence c | [] => f_zero end) →
  justified p ev policy
    (SelectAmbiguous (ic_character_id <$> close_to (ic_confidence x) (so_minimum_margin policy) (x :: rest))).
Proof.
  intros Hun Hgo Hbest Hrk Hall Hmin Hclose. apply Forall_cons in Hall as [[Hux Hpx] Hall].
  assert (¬ ahead policy x (ic_confidence x)) as Hself.
  { destruct rest as [|c rest].
    - apply (close_positive x f_zero); [done..| |done]. apply Hux.
    - apply Forall_cons in Hall as [[Huc Hpc] _]. apply (close_positive x (ic_confidence c)); [done..| | |done].
      + apply Huc.
      + apply order_confidence; [done..|]. pose proof (rk_sorted _ _ _ Hrk) as Hs.
        inversion Hs as [|? ? _ Hle]; subst. by apply Forall_cons in Hle as [? _]. }
  destruct (close_to_facts (ic_confidence x) (so_minimum_margin policy) (x :: rest)) as (tail&E&Hin&Hout).
  assert (close_to (ic_confidence x) (so_minimum_margin policy) (x :: rest)
    = x :: close_to (ic_confidence x) (so_minimum_margin policy) rest) as Hcl.
  { cbn. unfold ahead in Hself. apply not_false_iff_true in Hself. by rewrite Hself. }
  apply (by_close_call _ _ _ x _ tail); [done..|by rewrite <-E| | |done| |].
  - rewrite Hcl. by left.
  - eapply Forall_impl; [exact Hin|]. intros y Hy. unfold ahead. by rewrite Hy.
  - intros y Hy%(runner_up_second _ _ _ rest); [|done]. destruct rest as [|c rest]; [done|].
    injection Hy as ->. rewrite Hcl. cbn. unfold ahead in Hclose. apply not_false_iff_true in Hclose.
    rewrite Hclose. right. by left.
  - intros ->%(alone _ _ _ rest); done.
Qed.

Lemma select_visual_justified p db ev policy l :
  database_of p db → ranked_candidates db (sv_visual_candidates ev) = Ok l →
  Forall (λ y, proper_f64 (ic_confidence y)) (sv_visual_candidates ev) →
  unnamed p ev → let_go p ev policy → justified p ev policy (select_visual policy l).
Proof.
  intros Hdb Hl Hproper Hun Hgo. destruct (ranked_candidates_ok _ _ _ _ Hdb Hl) as (Hs&Hnd&Hel&Hbest&Hnil).
  assert (ranking p ev l) as Hrk by done.
  assert (Forall (λ y, in_unit y ∧ proper_f64 (ic_confidence y)) l) as Hall.
  { eapply Forall_impl; [by eapply ranked_candidates_unit|]. rewrite Forall_forall in Hproper.
    intros y [? ?]. split; [done|by apply Hproper]. }
  destruct l as [|x rest]; cbn [select_visual].
  { apply by_nobody; [done..|]. intros y Hy. by apply Hnil in Hy. }
  assert (best_candidate p ev x) as Hx.
  { split; [apply Hel; by left|]. intros y. by apply (Hbest x rest). }
  destruct (f_lt (ic_confidence x) _) eqn:Hmin.
  { apply by_nobody; [done..|]. intros _ _. by exists x. }
  destruct (f_lt (f64_sub _ _) _) eqn:Hmargin.
  - apply close_call_justified; [done..|]. unfold ahead. by rewrite Hmargin.
  - apply by_sight; [done..| |].
    + intros y Hy%(runner_up_second _ _ _ rest); [|done]. destruct rest as [|c rest]; [done|].
      by injection Hy as ->.
    + by intros ->%(alone _ _ _ rest).
Qed.

Definition with_candidates (l : list IdentityCandidateV1) ev : SelectionEvidenceV1 := {|
  sv_schema_version := sv_schema_version ev; sv_explicit_character_id := sv_explicit_character_id ev;
  sv_addressed_alias := sv_addressed_alias ev; sv_current_character_id := sv_current_character_id ev;
  sv_visual_candidates := l |}.

Lemma ranked_candidates_perm db (l l' : list IdentityCandidateV1) r :
  l ≡ₚ l' → ranked_candidates db l = Ok r → ranked_candidates db l' = Ok r.
Proof.
  intros Hp. unfold ranked_candidates. cbv zeta.
  set (known := λ l, List.filter (λ c, is_some (character db (ic_character_id c))) l).
  assert (known l ≡ₚ known l') as Hk by by apply filter_perm.
  change (List.filter _ l) with (known l). change (List.filter _ l') with (known l').
  destruct (check_all check_candidate (known l)) as [[]|e] eqn:Hc; [|done].
  rewrite check_all_Ok, Hk in Hc. apply check_all_Ok in Hc. rewrite Hc. cbn. intros [= <-].
  do 2 f_equal. symmetry. apply sort_by_perm_eq; [apply candidate_order_preorder|apply candidates_separated|done].
Qed.

Lemma sticky_iff p db ev policy l current :
  database_of p db → ranked_candidates db (sv_visual_candidates ev) = Ok l →
  sticky db policy l current = true ↔
  ∃ x, strongest p ev x ∧ ic_character_id x = current ∧
    f_le (so_sticky_confidence policy) (ic_confidence x) = true.
Proof.
  intros Hdb Hl. destruct (ranked_candidates_ok _ _ _ _ Hdb Hl) as (_&_&Hel&_).
  unfold sticky. rewrite andb_true_iff, existsb_exists, (known_iff p db) by done.
  setoid_rewrite <-list_elem_of_In. setoid_rewrite Hel. setoid_rewrite andb_true_iff.
  unfold str_eqb. setoid_rewrite bool_decide_eq_true. split; [naive_solver|].
  intros (x&Hx&<-&?). split; [apply Hx|]. by exists x.
Qed.

(** What a name that was said means. *)
Lemma alias_many p db alias : database_of p db →
  match characters_for_alias db alias with
  | [] => ∀ c, c ∈ gf_characters p → ¬ named c alias
  | [c] => ∀ c', c' ∈ gf_characters p ∧ named c' alias ↔ c' = c
  | cs => (2 ≤ length cs)%nat ∧ NoDup (ch_id <$> cs) ∧ ∀ c, c ∈ cs ↔ c ∈ gf_characters p ∧ named c alias
  end.
Proof.
  intros Hdb. pose proof (db_alias _ _ Hdb alias) as Hel. pose proof (db_alias_once _ _ Hdb alias) as Hnd.
  destruct (characters_for_alias db alias) as [|c [|c2 cs]].
  - intros c Hc Hn. assert (c ∈ []) as Hin%not_elem_of_nil by (apply Hel; split; [exact Hc|exact Hn]). done.
  - intros c'. rewrite <-Hel. apply list_elem_of_singleton.
  - split; [cbn; lia|]. split; [exact Hnd|exact Hel].
Qed.

Definition by_candidates db ev policy : result CharacterDbError SelectionOutcomeV1 :=
  candidates ← ranked_candidates db (sv_visual_candidates ev);
  match sv_current_character_id ev with
  | Some current =>
      if sticky db policy candidates current then Ok (SelectKnown current ByStickyCurrent)
      else Ok (select_visual policy candidates)
  | None => Ok (select_visual policy candidates)
  end.

Lemma by_candidates_justified p db ev policy out :
  database_of p db → Forall (λ y, proper_f64 (ic_confidence y)) (sv_visual_candidates ev) →
  by_candidates db ev policy = Ok out → unnamed p ev → justified p ev policy out.
Proof.
  intros Hdb Hproper. unfold by_candidates. destruct (ranked_candidates _ _) as [l|e] eqn:Hl; [|done].
  cbn [mbind result_bind]. intros Ho Hun.
  assert (∀ current, sv_current_character_id ev = Some current → sticky db policy l current = false →
    let_go p ev policy) as Hgo.
  { intros current Hc Hs x Hx E. rewrite Hc in E. injection E as ->.
    apply not_true_iff_false. intros Hle. apply not_true_iff_false in Hs. apply Hs.
    apply (sticky_iff p db ev policy l); [done..|]. by exists x. }
  destruct (sv_current_character_id ev) as [current|] eqn:Hc; [|injection Ho as <-].
  - destruct (sticky db policy l current) eqn:Hs; injection Ho as <-.
    + apply (sticky_iff p db ev) in Hs as (x&Hx&<-&Hle); [|done..]. by apply by_sticky.
    + by apply (select_visual_justified p db), (Hgo current).
  - apply (select_visual_justified p db); [done..|]. intros x _ E. by rewrite Hc in E.
Qed.

Lemma by_candidates_perm db ev policy l' out :
  sv_visual_candidates ev ≡ₚ l' → by_candidates db ev policy = Ok out →
  by_candidates db (with_candidates l' ev) policy = Ok out.
Proof.
  intros Hp. unfold by_candidates. cbn [sv_visual_candidates sv_current_character_id with_candidates].
  destruct (ranked_candidates db (sv_visual_candidates ev)) as [l|e] eqn:Hl; [|done].
  by rewrite (ranked_candidates_perm _ _ _ _ Hp Hl).
Qed.

(** C32: Whoever is selected is selected for a reason that holds: the explicit choice; the
    one character the name that was said stands for; the current partner while seen well
    enough; or the best visual candidate, confident enough and far enough ahead of the
    best candidate of any other character (of zero, when there is no other). A name several
    characters share is reported as ambiguous with exactly those characters. A close call is
    reported as ambiguous only when the best is not far enough ahead, and names the best,
    the runner-up and whoever else follows within the margin, best first. What was seen
    unclearly is nobody. The order in which the detectors report does not matter. *)
Theorem selection_is_justified p db ev policy out :
  database_new p = Ok db → Forall (λ y, proper_f64 (ic_confidence y)) (sv_visual_candidates ev) →
  select_character db ev policy = Ok out →
  justified p ev policy out ∧
  ∀ l', sv_visual_candidates ev ≡ₚ l' → select_character db (with_candidates l' ev) policy = Ok out.
Proof.
  intros Hdb%database_new_ok Hproper. unfold select_character. cbv zeta.
  fold (by_candidates db ev policy). rewrite if_err_Ok. intros [Hver Hsel].
  destruct (validate_selection_policy policy) as [[]|e] eqn:Hpol; [|done].
  cbn [mbind result_bind sv_schema_version sv_explicit_character_id sv_addressed_alias with_candidates] in Hsel |- *.
  rewrite Hver. cbn [mbind result_bind].
  destruct (sv_explicit_character_id ev) as [id|] eqn:He.
  { unfold require_character in *. destruct (character db id) as [c|] eqn:Hc; [|done]. injection Hsel as <-.
    apply (db_character _ _ Hdb) in Hc as [Hc <-]. split; [by apply by_explicit|done]. }
  destruct (sv_addressed_alias ev) as [alias|] eqn:Ha.
  - pose proof (alias_many p db alias Hdb) as Hal.
    destruct (characters_for_alias db alias) as [|c [|c2 cs]].
    + split; [|intros l' Hp; by apply (by_candidates_perm db ev policy l' out Hp)].
      apply (by_candidates_justified p db); [done..|]. split; [done|].
      intros alias' E. rewrite Ha in E. by injection E as <-.
    + injection Hsel as <-. split; [by apply (by_alias _ _ _ _ alias)|done].
    + injection Hsel as <-. destruct Hal as (?&?&?). split; [by apply (by_alias_of_many _ _ _ (c :: c2 :: cs) alias)|done].
  - split; [|intros l' Hp; by apply (by_candidates_perm db ev policy l' out Hp)].
    apply (by_candidates_justified p db); [done..|]. split; [done|]. intros alias E. by rewrite Ha in E.
Qed.
End selection.

(** * Characters: what a prompt may contain *)

#[local] Open Scope Z_scope.

Section spec.
Context `{ProfileApi} `{UnicodeApi} `{NanApi} `{!EqDecision json_value} `{DigestApi} `{PromptApi}.
Implicit Types (p : GameProfileV2) (c : CharacterProfile) (q : PromptBuildRequestV1).

(** ** Where a record comes from *)

(** Its provenance is recorded, and the record (the first of that identifier) is approved
    or has no review at all: neither pending nor rejected. *)
Definition reviewed p (provenance : str) : Prop :=
  ∃ before r after, cb_provenance (gf_content p) = before ++ r :: after ∧ pr_id r = provenance ∧
    Forall (λ other, pr_id other ≠ provenance) before ∧
    (pr_review_status r = None ∨ pr_review_status r = Some ReviewApproved).

(** The tier is one the user enabled, or one the profile enables by default. *)
Definition tier_enabled p (enabled : gset str) (tier : str) : Prop :=
  tier ∈ enabled ∨
  ∃ t, t ∈ cb_spoiler_tiers (gf_content p) ∧ st_id t = tier ∧ st_default_enabled t = true.

Definition tellable p (enabled : gset str) (k : KnowledgeRecord) : Prop :=
  k ∈ cb_knowledge (gf_content p) ∧ reviewed p (kr_provenance_id k) ∧
  tier_enabled p enabled (kr_spoiler_tier k).

(** The user allows memories of a kind. *)
Definition kind_allowed (policy : SpoilerPolicy) (kind : SpoilerScope) : Prop :=
  match kind with
  | SpNone => True
  | SpGame => sy_allow_game policy = true
  | SpSave => sy_allow_save policy = true
  | SpCharacterPrivate => sy_allow_character_private policy = true
  | SpUserPrivate => sy_allow_user_private policy = true
  end.

(** A memory of exactly the scope that asks, of a kind the user allows. *)
Definition own_memory q (m : DerivedMemoryRecord) : Prop :=
  dr_scope m = pq_scope q ∧ kind_allowed (pq_memory_spoiler_policy q) (dr_spoiler_scope m).

Lemma provenance_reviewed p id : provenance_available id p = true ↔ reviewed p id.
Proof.
  unfold provenance_available, reviewed. induction (cb_provenance (gf_content p)) as [|r l IH]; cbn.
  { split; [done|]. by intros ([]&?&?&?&_). }
  unfold str_eqb at 1. case_bool_decide as Hid.
  - split.
    + intros Hr. exists [], r, l. split; [done|]. split; [done|]. split; [constructor|].
      destruct (pr_review_status r) as [[]|]; naive_solver.
    + intros ([|other before]&r'&after&[= -> ->]&Hr'&Hb&Hs).
      * by destruct Hs as [->| ->].
      * by apply Forall_cons in Hb as [? _].
  - rewrite IH. split.
    + intros (before&r'&after&->&?&?&?). exists (r :: before), r', after. by repeat split; [..|constructor|].
    + intros ([|other before]&r'&after&[= -> ->]&Hr'&Hb&Hs); [done|].
      apply Forall_cons in Hb as [_ Hb]. by exists before, r', after.
Qed.

Lemma tier_enabled_iff p enabled tier : spoiler_allowed tier enabled p = true ↔ tier_enabled p enabled tier.
Proof.
  unfold spoiler_allowed, tier_enabled. rewrite orb_true_iff, bool_decide_eq_true, existsb_exists.
  setoid_rewrite <-list_elem_of_In. setoid_rewrite andb_true_iff. unfold str_eqb.
  setoid_rewrite bool_decide_eq_true. done.
Qed.

Lemma kind_allowed_iff policy kind : policy_allows policy kind = true ↔ kind_allowed policy kind.
Proof. by destruct kind. Qed.

Inductive grounded p c (enabled : gset str) q : PromptAuthority → PromptRecordV1 → Prop :=
| from_lore :
    grounded p c enabled q CoreCanon
      (authored_record (lit "profile-world-lore") (cb_world_lore (gf_content p)) None)
| from_canon k :
    tellable p enabled k → kr_authority k = KnCoreCanon →
    grounded p c enabled q CoreCanon (profile_knowledge_record k)
| from_public k :
    tellable p enabled k → kr_authority k = KnGamePublic →
    grounded p c enabled q GamePublic (profile_knowledge_record k)
| from_secret k :
    tellable p enabled k → kr_authority k = KnCharacterAuthored → kr_owner_character_id k = Some (ch_id c) →
    grounded p c enabled q CharacterAuthored (profile_knowledge_record k)
| from_biography :
    grounded p c enabled q CharacterProfileLane
      (authored_record (ch_id c ++ lit "-biography") (ch_biography c) None)
| from_personality :
    grounded p c enabled q CharacterProfileLane
      (authored_record (ch_id c ++ lit "-personality") (ch_personality c) None)
| from_style :
    grounded p c enabled q CharacterProfileLane
      (authored_record (ch_id c ++ lit "-dialogue-style") (ch_dialogue_style c) None)
| from_example e :
    e ∈ ch_style_examples c → reviewed p (se_provenance_id e) →
    grounded p c enabled q CharacterProfileLane (style_record e)
| from_memory_of m :
    m ∈ mx_world_lore (pq_memory_context q) ++ mx_biography (pq_memory_context q)
        ++ mx_character_knowledge (pq_memory_context q) ++ mx_uncertain_public_info (pq_memory_context q) →
    own_memory q m → grounded p c enabled q RetrievedMemory (derived_memory_record m)
| from_summary m :
    m ∈ mx_long_term_summaries (pq_memory_context q) → own_memory q m →
    grounded p c enabled q SessionSummary (derived_memory_record m)
| from_turn t :
    t ∈ mx_recent_dialogue (pq_memory_context q) → dt_scope t = pq_scope q →
    grounded p c enabled q RecentDeliveredTurns (delivered_turn_record t).

(** How many records a lane may have. *)
Definition lane_limit p q (a : PromptAuthority) : Z :=
  let policy := cb_retrieval (gf_content p) in
  match a with
  | CoreCanon => rp_max_core_records policy
  | GamePublic => rp_max_public_records policy
  | CharacterAuthored => rp_max_character_records policy
  | CharacterProfileLane => 3 + Z.max 0 (pq_max_style_examples q)
  | RetrievedMemory | SessionSummary => rp_max_memory_records policy
  | RecentDeliveredTurns => rp_query_window_delivered_turns policy
  end.

(** ** The request while the lanes are built *)

(** The same request, its summaries and its dialogue in some order. *)
Record same_request q q' : Prop := {
  sr_scope : pq_scope q' = pq_scope q;
  sr_query : pq_query q' = pq_query q;
  sr_policy : pq_memory_spoiler_policy q' = pq_memory_spoiler_policy q;
  sr_examples : pq_max_style_examples q' = pq_max_style_examples q;
  sr_lore : mx_world_lore (pq_memory_context q') = mx_world_lore (pq_memory_context q);
  sr_biography : mx_biography (pq_memory_context q') = mx_biography (pq_memory_context q);
  sr_knowledge : mx_character_knowledge (pq_memory_context q') = mx_character_knowledge (pq_memory_context q);
  sr_public : mx_uncertain_public_info (pq_memory_context q') = mx_uncertain_public_info (pq_memory_context q);
  sr_summaries : mx_long_term_summaries (pq_memory_context q') ≡ₚ mx_long_term_summaries (pq_memory_context q);
  sr_dialogue : mx_recent_dialogue (pq_memory_context q') ≡ₚ mx_recent_dialogue (pq_memory_context q)
}.

#[local] Instance same_request_preorder : PreOrder same_request.
Proof.
  split; [by split|]. intros q1 q2 q3 [] []. split; try congruence; by etransitivity.
Qed.

Lemma sort_summaries_same q : same_request q (sort_summaries q).
Proof. split; try done. apply sort_by_perm. Qed.
Lemma sort_dialogue_same q : same_request q (sort_dialogue q).
Proof. split; try done. apply sort_by_perm. Qed.

Lemma own_memory_same q q' m : same_request q q' → own_memory q' m → own_memory q m.
Proof. intros [Hs _ Hp _ _ _ _ _ _ _]. unfold own_memory. by rewrite Hs, Hp. Qed.

Lemma grounded_same p c enabled q q' a r :
  same_request q q' → grounded p c enabled q' a r → grounded p c enabled q a r.
Proof.
  intros Hq Hr. pose proof Hq as [Hscope _ _ _ Hl Hb Hk Hu Hs Hd].
  destruct Hr as [|k Hk1 Hk2|k Hk1 Hk2|k Hk1 Hk2 Hk3| | | |e He1 He2|m Hm Ho|m Hm Ho|t Ht Ho].
  1-8: by constructor.
  - apply from_memory_of; [by rewrite <-Hl, <-Hb, <-Hk, <-Hu|by apply (own_memory_same q q')].
  - apply from_summary; [by rewrite <-Hs|by apply (own_memory_same q q')].
  - apply from_turn; [by rewrite <-Hd|congruence].
Qed.

(** ** Lanes *)

Lemma authored_knowledge_elem p enabled mine r :
  r ∈ authored_knowledge p enabled mine ↔
  ∃ k, r = profile_knowledge_record k ∧ tellable p enabled k ∧ mine k = true.
Proof.
  unfold authored_knowledge, tellable. rewrite list_elem_of_fmap. setoid_rewrite filter_elem.
  setoid_rewrite filter_elem. setoid_rewrite filter_elem. setoid_rewrite provenance_reviewed.
  setoid_rewrite tier_enabled_iff. naive_solver.
Qed.

Lemma take_length_le {A} (n : Z) (l : list A) : 0 ≤ n → Z.of_nat (length (take (Z.to_nat n) l)) ≤ n.
Proof. intros Hn. rewrite length_take. lia. Qed.

Lemma last_of_elem {A} n (l : list A) x : x ∈ last_of n l → x ∈ l.
Proof. apply drop_elem. Qed.
Lemma last_of_length {A} n (l : list A) : (length (last_of n l) ≤ n)%nat.
Proof. unfold last_of. rewrite length_drop. lia. Qed.

Lemma in_scope_iff q m : in_scope q m = true ↔ own_memory q m.
Proof. unfold in_scope, own_memory. by rewrite andb_true_iff, bool_decide_eq_true, kind_allowed_iff. Qed.

(** No limit of the profile is negative. *)
Record limits_ok p : Prop := {
  lo_core : 0 ≤ rp_max_core_records (cb_retrieval (gf_content p));
  lo_public : 0 ≤ rp_max_public_records (cb_retrieval (gf_content p));
  lo_character : 0 ≤ rp_max_character_records (cb_retrieval (gf_content p));
  lo_memory : 0 ≤ rp_max_memory_records (cb_retrieval (gf_content p));
  lo_window : 0 ≤ rp_query_window_delivered_turns (cb_retrieval (gf_content p))
}.

(** The lanes of memories, with the budget they share. *)
Definition costs (a : PromptAuthority) : bool :=
  match a with RetrievedMemory | SessionSummary => true | _ => false end.

Ltac lane_of_taken := intros r Hr%take_elem; rewrite sort_by_perm in Hr.

Lemma build_lane_facts p c enabled a q remaining records remaining' q' :
  limits_ok p → Z.of_nat remaining ≤ rp_max_memory_records (cb_retrieval (gf_content p)) →
  build_lane p c enabled a q remaining = (records, remaining', q') →
  same_request q q' ∧ Forall (grounded p c enabled q a) records ∧
  Z.of_nat (length records) ≤ lane_limit p q a ∧
  remaining = (remaining' + if costs a then length records else 0)%nat.
Proof.
  intros [Hc Hp Ha Hm Hw] Hrem. destruct a; cbn [build_lane costs lane_limit]; intros [= <- <- <-].
  - split; [done|]. split; [|split; [by apply take_length_le|lia]]. apply Forall_forall. lane_of_taken.
    apply elem_of_cons in Hr as [->|Hr]; [constructor|].
    apply authored_knowledge_elem in Hr as (k&->&Hk&Hmine). rewrite bool_decide_eq_true in Hmine. by constructor.
  - split; [done|]. split; [|split; [|lia]].
    + unfold character_profile_lane. apply Forall_app. split; [repeat constructor|].
      apply Forall_forall. intros r (e&->&He)%list_elem_of_fmap. unfold select_style_examples in He.
      apply take_elem in He. rewrite sort_by_perm, filter_elem, provenance_reviewed in He. destruct He. by apply from_example.
    + unfold character_profile_lane, select_style_examples. rewrite length_app, length_fmap, length_take. cbn. lia.
  - split; [done|]. split; [|split; [by apply take_length_le|lia]]. apply Forall_forall. lane_of_taken.
    apply authored_knowledge_elem in Hr as (k&->&Hk&Hmine). rewrite bool_decide_eq_true in Hmine. by constructor.
  - split; [done|]. split; [|split; [by apply take_length_le|lia]]. apply Forall_forall. lane_of_taken.
    apply authored_knowledge_elem in Hr as (k&->&Hk&Hmine). unfold owned_by in Hmine.
    rewrite andb_true_iff, !bool_decide_eq_true in Hmine. destruct Hmine. by apply from_secret.
  - split; [done|]. split; [|unfold retrieved_memory_lane; rewrite !length_fmap, !length_take; lia].
    apply Forall_forall. intros r (m&->&Hr%take_elem)%list_elem_of_fmap.
    rewrite sort_by_perm, filter_elem, in_scope_iff in Hr. destruct Hr. by apply from_memory_of.
  - split; [apply sort_summaries_same|].
    split; [|unfold session_summary_lane; rewrite !length_fmap, !length_take; lia].
    apply Forall_forall. intros r (m&->&Hr%take_elem)%list_elem_of_fmap.
    rewrite filter_elem, in_scope_iff in Hr. destruct Hr as [Ho Hin].
    apply (grounded_same _ _ _ _ (sort_summaries q)); [apply sort_summaries_same|by apply from_summary].
  - split; [apply sort_dialogue_same|]. split; [|split; [|lia]].
    + apply Forall_forall. intros r Hr%last_of_elem. apply list_elem_of_fmap in Hr as (t&->&Hr).
      rewrite filter_elem, bool_decide_eq_true in Hr. destruct Hr as [Ho Hin].
      apply (grounded_same _ _ _ _ (sort_dialogue q)); [apply sort_dialogue_same|by apply from_turn].
    + unfold recent_turns_lane. match goal with |- Z.of_nat (length (last_of ?n ?l)) ≤ _ =>
        pose proof (last_of_length n l) end. lia.
Qed.

Definition memory_cost (sections : list PromptSectionV1) : nat :=
  foldr (λ s n, (if costs (ps_authority s) then length (ps_records s) else 0) + n)%nat 0%nat sections.

Lemma lane_limit_same p q q' a : same_request q q' → lane_limit p q' a = lane_limit p q a.
Proof. intros Hq. unfold lane_limit. by rewrite (sr_examples _ _ Hq). Qed.

Lemma build_sections_facts p c enabled order q remaining :
  limits_ok p → Z.of_nat remaining ≤ rp_max_memory_records (cb_retrieval (gf_content p)) →
  let sections := build_sections p c enabled order q remaining in
  Forall (λ s, ps_records s ≠ [] ∧ Forall (grounded p c enabled q (ps_authority s)) (ps_records s) ∧
    Z.of_nat (length (ps_records s)) ≤ lane_limit p q (ps_authority s)) sections ∧
  sublist (ps_authority <$> sections) order ∧ (memory_cost sections ≤ remaining)%nat.
Proof.
  intros Hlim. revert q remaining. induction order as [|a order IH]; intros q remaining Hrem; cbn [build_sections].
  { cbn. split; [constructor|]. split; [constructor|lia]. }
  destruct (build_lane p c enabled a q remaining) as [[records remaining'] q'] eqn:Hl.
  apply build_lane_facts in Hl as (Hq&Hg&Hlen&Hcost); [|done..].
  destruct (IH q' remaining') as (IH1&IH2&IH3); [lia|].
  assert (Forall (λ s, ps_records s ≠ [] ∧ Forall (grounded p c enabled q (ps_authority s)) (ps_records s) ∧
    Z.of_nat (length (ps_records s)) ≤ lane_limit p q (ps_authority s))
    (build_sections p c enabled order q' remaining')) as IH1'.
  { eapply Forall_impl; [exact IH1|]. cbn. intros s (?&Hs&?). split; [done|].
    split; [|by rewrite <-(lane_limit_same p q q')]. eapply Forall_impl; [exact Hs|]. intros r. by apply grounded_same. }
  destruct records as [|r records].
  { split; [done|]. split; [by apply sublist_cons|lia]. }
  cbn [fmap list_fmap ps_authority memory_cost foldr ps_records].
  split; [by constructor|]. split; [by apply sublist_skip|]. fold (memory_cost (build_sections p c enabled order q' remaining')).
  destruct (costs a); cbn [length] in *; lia.
Qed.

(** ** Prompts *)

(** C31: A prompt contains only what may be told. Authored knowledge has a recorded
    provenance that is approved or was never put to review, and a spoiler tier that the user
    or the profile enabled, and a character's own secrets go to that character alone;
    memories and dialogue belong to exactly the scope that asks, user, character, session
    and all, and are of a kind the user allows; each lane keeps its limit, the two lanes of
    memories one budget together; the lanes come in the order of the policy, each at most
    once, never empty; and the record kept of the retrieval names what was shown. *)
Theorem prompt_tells_what_it_may p db q ctx :
  limits_ok p → database_new p = Ok db → build_prompt_context db q = Ok ctx →
  ∃ c, c ∈ gf_characters p ∧ sc_character_id (pq_scope q) = Some (ch_id c) ∧ px_character_id ctx = ch_id c ∧
  Forall (λ s, ps_records s ≠ [] ∧
    Forall (grounded p c (list_to_set (pq_enabled_spoiler_tiers q)) q (ps_authority s)) (ps_records s) ∧
    Z.of_nat (length (ps_records s)) ≤ lane_limit p q (ps_authority s)) (px_sections ctx) ∧
  sublist (ps_authority <$> px_sections ctx) (rp_authority_order (cb_retrieval (gf_content p))) ∧
  NoDup (ps_authority <$> px_sections ctx) ∧
  Z.of_nat (memory_cost (px_sections ctx)) ≤ rp_max_memory_records (cb_retrieval (gf_content p)) ∧
  rv_selected_profile_knowledge_ids (px_retrieval_provenance ctx) = selected_ids knowledge_lane (px_sections ctx) ∧
  rv_selected_memory_item_ids (px_retrieval_provenance ctx) = selected_ids memory_lane (px_sections ctx) ∧
  rv_query_sha256 (px_retrieval_provenance ctx) = hex_sha256 (utf8_encode (pq_query q)).
Proof.
  intros Hlim Hdb%database_new_ok. unfold build_prompt_context. cbv zeta.
  rewrite if_err_Ok. intros [_ Hb]. destruct (from_memory _) as [[]|]; [|done]. cbn [mbind result_bind] in Hb.
  rewrite !if_err_Ok in Hb. destruct Hb as (_&_&_&Hb).
  destruct (sc_character_id (pq_scope q)) as [id|]; [|done]. cbn [ok_or mbind result_bind] in Hb.
  unfold require_character in Hb. destruct (character db id) as [c|] eqn:Hc; [|done]. cbn [ok_or mbind result_bind] in Hb.
  apply (db_character _ _ Hdb) in Hc as [Hc <-]. rewrite (db_profile _ _ Hdb) in Hb.
  destruct (policy_to_vec _) as [bytes|]; [|done]. cbn [ok_or mbind result_bind] in Hb. injection Hb as <-.
  exists c. cbn [px_character_id px_sections px_retrieval_provenance rv_selected_profile_knowledge_ids
    rv_selected_memory_item_ids rv_query_sha256 for_query].
  destruct (build_sections_facts p c (list_to_set (pq_enabled_spoiler_tiers q))
    (rp_authority_order (cb_retrieval (gf_content p))) q
    (Z.to_nat (rp_max_memory_records (cb_retrieval (gf_content p)))) Hlim) as (H1'&H2'&H3').
  { pose proof (lo_memory _ Hlim). lia. }
  do 5 (split; [done|]). split; [|split; [|done]].
  - eapply sublist_NoDup; [|exact H2']. apply (wf_order _ (db_well_formed _ _ Hdb)).
  - pose proof (lo_memory _ Hlim). lia.
Qed.
End spec.
