(* ===== verification/EncounterSpec.v ===== *)
(** * Characters: the lives of encounters *)

From S2P Require Import Prelude Text Bytes Float HostedTypes ProfileValidation MemoryTypes MemoryStore MemoryItems CharacterDb.

#[local] Open Scope Z_scope.

(** ** What the events tell *)

Inductive Phase := Open | Ended.

Notation phases := (gmap Z Phase).
Notation events := (list EncounterLifecycleEventV1).

#[export] Instance Phase_eq_dec : EqDecision Phase.
Proof. solve_decision. Defined.

Definition is_open (p : phases) (id : Z) : bool := bool_decide (p !! id = Some Open).

(** An encounter is created once, then observed, then ends at most once: corrected, merged
    into another one that is open, or expired. *)
Definition advance_phase (p : phases) (e : EncounterLifecycleEventV1) : option phases :=
  match e with
  | EvCreated id _ _ => if is_some (p !! id) then None else Some (<[id := Open]> p)
  | EvObserved id _ => if is_open p id then Some p else None
  | EvCorrected id _ _ _ _ | EvExpired id _ => if is_open p id then Some (<[id := Ended]> p) else None
  | EvMerged source destination _ _ _ =>
      if is_open p source && is_open p destination && negb (source =? destination)
      then Some (<[source := Ended]> p) else None
  end.

Definition replay (log : events) : option phases :=
  foldl (λ acc e, p ← acc; advance_phase p e) (Some ∅) log.

Lemma replay_snoc log e p : replay log = Some p → replay (log ++ [e]) = advance_phase p e.
Proof. unfold replay. rewrite foldl_app. by intros ->. Qed.

(** ** When the events happened *)

Definition lives (records : gmap Z EncounterRecordV1) (id t : Z) : Prop :=
  ∃ r, records !! id = Some r ∧ er_created_at_ms r ≤ t < er_expires_at_ms r.

Definition timely (game : str) (records : gmap Z EncounterRecordV1) (e : EncounterLifecycleEventV1) : Prop :=
  match e with
  | EvCreated id g t => g = game ∧ ∃ r, records !! id = Some r ∧ er_created_at_ms r = t
  | EvObserved id t => lives records id t
  | EvCorrected id _ _ t migrate => lives records id t ∧ migrate = true
  | EvMerged source destination _ t migrate =>
      lives records source t ∧ lives records destination t ∧ migrate = true
  | EvExpired id t => ∃ r, records !! id = Some r ∧ er_expires_at_ms r ≤ t
  end.

(** The records only grow, and the times of a record stay. *)
Definition outlasts (records records' : gmap Z EncounterRecordV1) : Prop :=
  ∀ id r, records !! id = Some r → ∃ r', records' !! id = Some r' ∧
    er_created_at_ms r' = er_created_at_ms r ∧ er_expires_at_ms r' = er_expires_at_ms r.

Lemma timely_outlasts game records records' e :
  outlasts records records' → timely game records e → timely game records' e.
Proof.
  intros Ho. assert (∀ id t, lives records id t → lives records' id t) as Hl.
  { intros id t (r&(r'&?&E1&E2)%Ho&?). exists r'. by rewrite E1, E2. }
  destruct e; cbn; [intros (?&r&(r'&?&E1&E2)%Ho&?)|naive_solver..|intros (r&(r'&?&E1&E2)%Ho&?)].
  - split; [done|]. exists r'. by rewrite E1.
  - exists r'. by rewrite E2.
Qed.

Lemma outlasts_set_seen records id r seen status :
  records !! id = Some r → outlasts records (<[id := set_last_seen seen status r]> records).
Proof.
  intros Hr k x Hk. destruct (decide (k = id)) as [->|Hne].
  - rewrite Hr in Hk. injection Hk as <-. exists (set_last_seen seen status r). by rewrite lookup_insert_eq.
  - exists x. by rewrite lookup_insert_ne.
Qed.

Lemma outlasts_fresh records id r : records !! id = None → outlasts records (<[id := r]> records).
Proof.
  intros Hr k x Hk. exists x. rewrite lookup_insert_ne by naive_solver. done.
Qed.

(** ** The registry and all events so far *)

Record tracked (g : EncounterRegistryV1) (log : events) (p : phases) : Prop := {
  tk_replay : replay log = Some p;
  tk_keys : ∀ id r, eg_records g !! id = Some r →
    er_encounter_id r = id ∧ er_game_profile_id r = eg_game_profile_id g;
  tk_phases : ∀ id, is_Some (p !! id) ↔ is_Some (eg_records g !! id);
  tk_open : ∀ id r, eg_records g !! id = Some r → er_status r = EncounterActive → p !! id = Some Open;
  tk_timely : Forall (timely (eg_game_profile_id g) (eg_records g)) log;
  tk_redirects : ∀ a b, eg_redirects g !! a = Some b ↔ ∃ s t m, EvMerged a b s t m ∈ log;
  tk_merged : ∀ a b, eg_redirects g !! a = Some b → p !! a = Some Ended
}.

Definition not_merge (e : EncounterLifecycleEventV1) : Prop :=
  match e with EvMerged _ _ _ _ _ => False | _ => True end.

Lemma merged_in_snoc a b log e :
  not_merge e → (∃ s t m, EvMerged a b s t m ∈ log ++ [e]) ↔ ∃ s t m, EvMerged a b s t m ∈ log.
Proof.
  intros He. setoid_rewrite elem_of_app. setoid_rewrite list_elem_of_singleton.
  split; [|naive_solver]. intros (s&t&m&[?|<-]); [by exists s, t, m|done].
Qed.

(** A record changes what was seen of it, and the event says so. *)
Lemma tracked_update g log p id r seen status redirects evs e p' :
  tracked g log p → eg_records g !! id = Some r →
  advance_phase p e = Some p' →
  timely (eg_game_profile_id g) (eg_records g) e →
  (status = EncounterActive → er_status r = EncounterActive ∧ p' !! id = Some Open) →
  (∀ k, k ≠ id → p' !! k = p !! k) → is_Some (p' !! id) → (p !! id = Some Ended → p' !! id = Some Ended) →
  (∀ a b, redirects !! a = Some b ↔ ∃ s t m, EvMerged a b s t m ∈ log ++ [e]) →
  (∀ a b, redirects !! a = Some b → eg_redirects g !! a = Some b ∨ p' !! a = Some Ended) →
  tracked (set_registry (<[id := set_last_seen seen status r]> (eg_records g)) redirects evs g) (log ++ [e]) p'.
Proof.
  intros [Hrep Hkeys Hph Hop Htm Hrd Hmg] Hr Hadv Hte Hst Hother Hid Hend Hrd' Hmg'.
  split; cbn [eg_records eg_redirects eg_game_profile_id set_registry].
  - by rewrite (replay_snoc _ _ p).
  - intros k x. destruct (decide (k = id)) as [->|Hne].
    + rewrite lookup_insert_eq. intros [= <-]. exact (Hkeys _ _ Hr).
    + rewrite lookup_insert_ne by done. apply Hkeys.
  - intros k. destruct (decide (k = id)) as [->|Hne].
    + rewrite lookup_insert_eq. split; [by eexists|done].
    + rewrite lookup_insert_ne, Hother by done. apply Hph.
  - intros k x. destruct (decide (k = id)) as [->|Hne].
    + rewrite lookup_insert_eq. intros [= <-]. cbn. intros E. by apply Hst.
    + rewrite lookup_insert_ne, Hother by done. apply Hop.
  - assert (outlasts (eg_records g) (<[id := set_last_seen seen status r]> (eg_records g))) as Ho
      by by apply outlasts_set_seen.
    apply Forall_app. split; [|constructor; [|done]].
    + eapply Forall_impl; [exact Htm|]. intros x. by apply timely_outlasts.
    + by apply (timely_outlasts _ (eg_records g)).
  - exact Hrd'.
  - intros a b Hab. destruct (Hmg' a b Hab) as [Hold|]; [|done]. apply Hmg in Hold.
    destruct (decide (a = id)) as [->|Hne]; [by apply Hend|by rewrite Hother].
Qed.

(** An open encounter ends, other than by a merge. *)
Lemma tracked_end g log p id r seen evs e :
  tracked g log p → eg_records g !! id = Some r → er_status r = EncounterActive →
  timely (eg_game_profile_id g) (eg_records g) e → not_merge e → advance_phase p e = Some (<[id := Ended]> p) →
  tracked (set_registry (<[id := set_last_seen seen EncounterExpired r]> (eg_records g)) (eg_redirects g) evs g)
    (log ++ [e]) (<[id := Ended]> p).
Proof.
  intros Ht Hr Ha Hte Hm Hadv. eapply tracked_update; try done.
  - intros k Hk. by rewrite lookup_insert_ne.
  - rewrite lookup_insert_eq. by eexists.
  - by rewrite lookup_insert_eq.
  - intros a b. rewrite merged_in_snoc by done. apply (tk_redirects _ _ _ Ht).
  - intros a b. by left.
Qed.

Lemma is_open_active g log p id r :
  tracked g log p → eg_records g !! id = Some r → er_status r = EncounterActive → is_open p id = true.
Proof. intros Ht Hr Ha. apply bool_decide_eq_true. by apply (tk_open _ _ _ Ht id r). Qed.

(** ** The operations *)

Definition expire_row (now_ms : Z) (r : EncounterRecordV1) : EncounterRecordV1 :=
  if expiry_due now_ms r then set_last_seen (er_last_seen_at_ms r) EncounterExpired r else r.

Lemma expire_rows_tracked now rows g drained p expired :
  NoDup rows.*1 → (∀ id r, (id, r) ∈ rows → eg_records g !! id = Some r) →
  tracked g (drained ++ eg_events g) p →
  ∃ p' g', expire_rows now rows g expired = (expired ++ (List.filter (λ x, expiry_due now x.2) rows).*1, g') ∧
    tracked g' (drained ++ eg_events g') p' ∧
    ∀ id, eg_records g' !! id =
      if bool_decide (id ∈ rows.*1) then expire_row now <$> eg_records g !! id else eg_records g !! id.
Proof.
  revert g p expired. induction rows as [|[id r] rows IH]; intros g p expired Hnd Hrows Ht; cbn [expire_rows].
  { exists p, g. split; [by rewrite app_nil_r|]. split; [done|]. intros id.
    by rewrite bool_decide_eq_false_2 by apply not_elem_of_nil. }
  cbn in Hnd. apply NoDup_cons in Hnd as [Hid Hnd].
  assert (eg_records g !! id = Some r) as Hr by (apply Hrows; by left).
  cbn [List.filter snd fmap list_fmap fst]. destruct (expiry_due now r) eqn:Hdue.
  - pose proof Hdue as Hd. unfold expiry_due in Hd. rewrite andb_true_iff, bool_decide_eq_true in Hd.
    destruct Hd as [Ha Hle%Z.leb_le]. rewrite (proj1 (tk_keys _ _ _ Ht _ _ Hr)).
    set (g1 := set_registry _ _ _ g).
    assert (tracked g1 (drained ++ eg_events g1) (<[id := Ended]> p)) as Ht1.
    { subst g1. cbn [eg_events set_registry]. rewrite app_assoc. apply tracked_end; try done.
      - exists r. done.
      - cbn. by rewrite (is_open_active g (drained ++ eg_events g) p id r). }
    destruct (IH g1 (<[id := Ended]> p) (expired ++ [id]) Hnd) as (p'&g'&E&Ht'&Hrec); [|exact Ht1|].
    { intros k x Hk. subst g1. cbn. rewrite lookup_insert_ne; [apply Hrows; by right|].
      intros <-. apply Hid, list_elem_of_fmap. by exists (id, x). }
    exists p', g'. split; [rewrite E; cbn; by rewrite <-app_assoc|]. split; [done|].
    intros k. rewrite Hrec. subst g1. cbn [eg_records set_registry].
    destruct (decide (k = id)) as [->|Hne].
    + rewrite bool_decide_eq_false_2, bool_decide_eq_true_2 by (done || by left).
      rewrite lookup_insert_eq, Hr. cbn. unfold expire_row. by rewrite Hdue.
    + rewrite lookup_insert_ne by done. do 2 case_bool_decide; set_solver.
  - destruct (IH g p expired Hnd) as (p'&g'&E&Ht'&Hrec); [intros k x Hk; apply Hrows; by right|exact Ht|].
    exists p', g'. split; [done|]. split; [done|]. intros k. rewrite Hrec.
    destruct (decide (k = id)) as [->|Hne]; [|do 2 case_bool_decide; set_solver].
    rewrite bool_decide_eq_false_2, bool_decide_eq_true_2 by (done || by left).
    rewrite Hr. cbn. unfold expire_row. by rewrite Hdue.
Qed.

Lemma filter_keys_NoDup {A} (f : Z * A → bool) (l : list (Z * A)) : NoDup l.*1 → NoDup (List.filter f l).*1.
Proof.
  induction l as [|[k x] l IH]; cbn; [constructor|]. intros [Hk Hnd]%NoDup_cons.
  destruct (f (k, x)); [|by apply IH]. cbn. apply NoDup_cons. split; [|by apply IH].
  intros ([k' y]&->&Hy)%list_elem_of_fmap. apply filter_elem in Hy as [_ Hy].
  apply Hk, list_elem_of_fmap. by exists (k', y).
Qed.

Lemma expire_due_tracked now g drained p :
  tracked g (drained ++ eg_events g) p →
  ∃ p' ids g', expire_due now g = (ids, g') ∧ tracked g' (drained ++ eg_events g') p' ∧
    eg_records g' = expire_row now <$> eg_records g ∧
    ids = (List.filter (λ x, expiry_due now x.2) (btree_iter (eg_records g))).*1.
Proof.
  intros Ht. unfold expire_due.
  destruct (expire_rows_tracked now (btree_iter (eg_records g)) g drained p []) as (p'&g'&E&Ht'&Hrec); [| |done|].
  - apply btree_keys_NoDup.
  - intros id r. by apply btree_iter_elem.
  - eexists p', _, g'. split; [exact E|]. split; [done|]. split; [|done].
    apply map_eq. intros id. rewrite Hrec, lookup_fmap. case_bool_decide as Hin; [done|].
    destruct (eg_records g !! id) as [r|] eqn:Hr; [|done]. exfalso. apply Hin.
    apply btree_keys_elem. by exists r.
Qed.

Lemma insert_tracked r g g' drained p :
  tracked g (drained ++ eg_events g) p → registry_insert r g = Ok g' →
  ∃ p', tracked g' (drained ++ eg_events g') p'.
Proof.
  intros Ht. unfold registry_insert. rewrite if_err_Ok, !orb_false_iff, !negb_false_iff.
  intros [[[_ Hgame] Hnew] [= <-]]. apply bool_decide_eq_true in Hgame.
  destruct (eg_records g !! er_encounter_id r) as [x|] eqn:Hr; [done|].
  set (id := er_encounter_id r) in *.
  assert (p !! id = None) as Hp.
  { apply eq_None_not_Some. rewrite (tk_phases _ _ _ Ht), Hr. by intros [? ?]. }
  destruct Ht as [Hrep Hkeys Hph Hop Htm Hrd Hmg]. cbn [eg_events set_registry]. rewrite app_assoc.
  assert (outlasts (eg_records g) (<[id := r]> (eg_records g))) as Ho by by apply outlasts_fresh.
  exists (<[id := Open]> p). split; cbn [eg_records eg_redirects eg_game_profile_id set_registry].
  - rewrite (replay_snoc _ _ p) by done. cbn. by rewrite Hp.
  - intros k x. destruct (decide (k = id)) as [->|Hne].
    + rewrite lookup_insert_eq. by intros [= <-].
    + rewrite lookup_insert_ne by done. apply Hkeys.
  - intros k. destruct (decide (k = id)) as [->|Hne].
    + rewrite !lookup_insert_eq. by split; eexists.
    + rewrite !lookup_insert_ne by done. apply Hph.
  - intros k x. destruct (decide (k = id)) as [->|Hne].
    + by rewrite !lookup_insert_eq.
    + rewrite !lookup_insert_ne by done. apply Hop.
  - apply Forall_app. split.
    + eapply Forall_impl; [exact Htm|]. intros x. by apply timely_outlasts.
    + constructor; [|done]. split; [done|]. exists r. by rewrite lookup_insert_eq.
  - intros a b. rewrite merged_in_snoc by done. apply Hrd.
  - intros a b Hab%Hmg. rewrite lookup_insert_ne; [done|]. intros <-. by rewrite Hp in Hab.
Qed.

Lemma observe_tracked id t g g' drained p :
  tracked g (drained ++ eg_events g) p → registry_observe id t g = Ok g' →
  tracked g' (drained ++ eg_events g') p.
Proof.
  intros Ht. unfold registry_observe. cbv zeta. set (k := resolved g id).
  destruct (eg_records g !! k) as [r|] eqn:Hr; [|done]. cbn [ok_or mbind result_bind].
  rewrite if_err_Ok, orb_false_iff, bool_decide_eq_false, Z.leb_gt. intros [[Ha%dec_stable Hlt] Hk].
  unfold record_observe in Hk. destruct (t <? er_created_at_ms r) eqn:Hc; [done|]. apply Z.ltb_ge in Hc.
  cbn [mbind result_bind] in Hk. injection Hk as <-. cbn [eg_events set_registry]. rewrite app_assoc.
  assert (p !! k = Some Open) as Ho by by apply (tk_open _ _ _ Ht k r).
  apply (tracked_update g _ p k r); try done.
  - cbn. by rewrite (is_open_active g (drained ++ eg_events g) p k r).
  - exists r. by split.
  - intros a b. rewrite merged_in_snoc by done. apply (tk_redirects _ _ _ Ht).
  - intros a b. by left.
Qed.

Lemma require_active_at_Ok r t :
  require_active_at r t = Ok tt ↔ er_status r = EncounterActive ∧ er_created_at_ms r ≤ t < er_expires_at_ms r.
Proof.
  unfold require_active_at. rewrite if_err_Ok, !orb_false_iff, bool_decide_eq_false, Z.ltb_ge, Z.leb_gt.
  split; [intros [[[Ha%dec_stable ?] ?] _]; by split|]. intros [Ha ?]. split; [|done]. split; [|lia]. split; [|lia].
  by intros Hn.
Qed.

Lemma correct_tracked db id c confirmed t g g' drained p :
  tracked g (drained ++ eg_events g) p → correct_to_authored_character db id c confirmed t g = Ok g' →
  ∃ p', tracked g' (drained ++ eg_events g') p'.
Proof.
  intros Ht. unfold correct_to_authored_character. rewrite if_err_Ok. intros [_ Hk].
  destruct (require_character db c) as [x|]; [|done]. cbn [mbind result_bind] in Hk.
  rewrite if_err_Ok in Hk. destruct Hk as [_ Hk].
  destruct (eg_records g !! id) as [r|] eqn:Hr; [|done]. cbn [ok_or mbind result_bind] in Hk.
  destruct (require_active_at r t) as [[]|] eqn:Hact; [|done]. cbn [mbind result_bind] in Hk. injection Hk as <-.
  apply require_active_at_Ok in Hact as [Ha Htime]. cbn [eg_events set_registry]. rewrite app_assoc.
  exists (<[id := Ended]> p). apply tracked_end; try done.
  - split; [|done]. by exists r.
  - cbn. by rewrite (is_open_active g (drained ++ eg_events g) p id r).
Qed.

Lemma merge_tracked source destination confirmed t g g' drained p :
  tracked g (drained ++ eg_events g) p →
  merge_unknown_encounters source destination confirmed t g = Ok g' →
  ∃ p', tracked g' (drained ++ eg_events g') p'.
Proof.
  intros Ht. unfold merge_unknown_encounters. rewrite if_err_Ok, orb_false_iff, Z.eqb_neq. intros [[_ Hne] Hk].
  destruct (eg_records g !! source) as [s|] eqn:Hs; [|done]. cbn [ok_or mbind result_bind] in Hk.
  destruct (eg_records g !! destination) as [d|] eqn:Hd; [|done]. cbn [ok_or mbind result_bind] in Hk.
  destruct (require_active_at s t) as [[]|] eqn:Has; [|done]. cbn [mbind result_bind] in Hk.
  destruct (require_active_at d t) as [[]|] eqn:Had; [|done]. cbn [mbind result_bind] in Hk. injection Hk as <-.
  apply require_active_at_Ok in Has as [Has Hts]. apply require_active_at_Ok in Had as [Had Htd].
  assert (p !! source = Some Open) as Hos by by apply (tk_open _ _ _ Ht source s).
  cbn [eg_events set_registry]. rewrite app_assoc. exists (<[source := Ended]> p).
  assert (∀ b, eg_redirects g !! source ≠ Some b) as Hno.
  { intros b Hb%(tk_merged _ _ _ Ht). by rewrite Hos in Hb. }
  apply (tracked_update g _ p source s); try done.
  - cbn. rewrite (is_open_active g (drained ++ eg_events g) p source s), (is_open_active g (drained ++ eg_events g) p destination d) by done.
    by rewrite (proj2 (Z.eqb_neq _ _) Hne).
  - split; [by exists s|]. split; [by exists d|done].
  - intros k Hk. by rewrite lookup_insert_ne.
  - rewrite lookup_insert_eq. by eexists.
  - by rewrite lookup_insert_eq.
  - intros a b. setoid_rewrite elem_of_app. setoid_rewrite list_elem_of_singleton.
    destruct (decide (a = source)) as [->|Has'].
    + rewrite lookup_insert_eq. split.
      * intros [= <-]. exists ManualExplicit, t, true. by right.
      * intros (x&t'&m&[Hin|E]); [|congruence].
        exfalso. apply (Hno b), (tk_redirects _ _ _ Ht). by exists x, t', m.
    + rewrite lookup_insert_ne, (tk_redirects _ _ _ Ht) by done. split; [naive_solver|].
      intros (x&t'&m&[Hin|E]); [by exists x, t', m|congruence].
  - intros a b. destruct (decide (a = source)) as [->|Has']; [right; by rewrite lookup_insert_eq|].
    rewrite lookup_insert_ne by done. by left.
Qed.

Lemma drain_tracked g drained p :
  tracked g (drained ++ eg_events g) p →
  tracked (drain_events g).2 ((drained ++ (drain_events g).1) ++ eg_events (drain_events g).2) p.
Proof. intros []. cbn. rewrite app_nil_r. by split. Qed.

(** ** Everything that can happen *)

(** A registry, and the events that were taken from it. *)
Inductive encounter_reachable : EncounterRegistryV1 → events → Prop :=
| reach_new game g : registry_new game = Ok g → encounter_reachable g []
| reach_insert r g g' drained : encounter_reachable g drained → registry_insert r g = Ok g' → encounter_reachable g' drained
| reach_observe id t g g' drained :
    encounter_reachable g drained → registry_observe id t g = Ok g' → encounter_reachable g' drained
| reach_correct db id c confirmed t g g' drained :
    encounter_reachable g drained → correct_to_authored_character db id c confirmed t g = Ok g' → encounter_reachable g' drained
| reach_merge source destination confirmed t g g' drained :
    encounter_reachable g drained → merge_unknown_encounters source destination confirmed t g = Ok g' →
    encounter_reachable g' drained
| reach_expire now ids g g' drained :
    encounter_reachable g drained → expire_due now g = (ids, g') → encounter_reachable g' drained
| reach_drain evs g g' drained :
    encounter_reachable g drained → drain_events g = (evs, g') → encounter_reachable g' (drained ++ evs).

Lemma reachable_tracked g drained : encounter_reachable g drained → ∃ p, tracked g (drained ++ eg_events g) p.
Proof.
  induction 1 as [game g Hg|? ? ? ? _ [p IH] Hs|? ? ? ? ? _ [p IH] Hs|? ? ? ? ? ? ? ? _ [p IH] Hs
    |? ? ? ? ? ? ? _ [p IH] Hs|now ids g g' drained _ [p IH] Hs|? g ? drained _ [p IH] Hs].
  - unfold registry_new in Hg. rewrite if_err_Ok in Hg. destruct Hg as [_ [= <-]]. exists ∅.
    split; cbn; try done.
    + intros id. rewrite !lookup_empty. by split; intros [? ?].
    + intros a b. rewrite lookup_empty. split; [done|]. intros (?&?&?&Hn). by apply not_elem_of_nil in Hn.
  - by eapply insert_tracked.
  - exists p. by eapply observe_tracked.
  - by eapply correct_tracked.
  - by eapply merge_tracked.
  - destruct (expire_due_tracked now g drained p IH) as (p'&ids'&g''&E&Ht&_). rewrite Hs in E. injection E as -> ->.
    by exists p'.
  - injection Hs as <- <-. exists p. by apply drain_tracked.
Qed.

(** C33: An encounter lives once. In everything a registry ever reported, taken or not, an
    encounter is created first, then observed while it is open, and ends at most once: it
    is corrected to an authored character, merged into another encounter that is open, or
    expired; nothing is reported of it after its end, and each event falls in the lifetime
    its record states. The records are those of the encounters that were created, all of
    the registry's game; one that was ended is never active again; a redirect stands for
    exactly the merges that were reported. Expiry ends those that are due and no others,
    and leaves none that is due. *)
Theorem encounters_live_once g drained :
  encounter_reachable g drained →
  (∃ p, replay (drained ++ eg_events g) = Some p ∧
    (∀ id, is_Some (p !! id) ↔ is_Some (eg_records g !! id)) ∧
    (∀ id r, eg_records g !! id = Some r → p !! id = Some Ended → er_status r = EncounterExpired)) ∧
  Forall (timely (eg_game_profile_id g) (eg_records g)) (drained ++ eg_events g) ∧
  (∀ id r, eg_records g !! id = Some r → er_encounter_id r = id ∧ er_game_profile_id r = eg_game_profile_id g) ∧
  (∀ a b, eg_redirects g !! a = Some b ↔ ∃ s t m, EvMerged a b s t m ∈ drained ++ eg_events g) ∧
  (∀ now, let (ids, g') := expire_due now g in
    eg_records g' = expire_row now <$> eg_records g ∧ NoDup ids ∧
    (∀ id, id ∈ ids ↔ ∃ r, eg_records g !! id = Some r ∧ expiry_due now r = true) ∧
    (∀ id r, eg_records g' !! id = Some r → expiry_due now r = false)).
Proof.
  intros Hg. destruct (reachable_tracked g drained Hg) as [p Ht]. pose proof Ht as [Hrep Hkeys Hph Hop Htm Hrd Hmg].
  split; [|split; [done|split; [done|split; [done|]]]].
  - exists p. split; [done|]. split; [done|]. intros id r Hr He.
    destruct (er_status r) eqn:Hs; [|done]. by rewrite (Hop id r) in He.
  - intros now. destruct (expire_due_tracked now g drained p Ht) as (p'&ids&g'&E&_&Hrec&Hids). rewrite E.
    split; [done|]. split; [|split].
    + subst ids. by apply filter_keys_NoDup, btree_keys_NoDup.
    + intros id. subst ids. rewrite list_elem_of_fmap. setoid_rewrite filter_elem. split.
      * intros ([k r]&->&Hd&Hin%btree_iter_elem). by exists r.
      * intros (r&Hr%btree_iter_elem&Hd). by exists (id, r).
    + intros id r. rewrite Hrec, lookup_fmap_Some. intros (x&<-&_). unfold expire_row.
      destruct (expiry_due now x) eqn:Hd; [|done]. unfold expiry_due. by rewrite bool_decide_eq_false_2 by done.
Qed.
