(* ===== verification/CharacterExample.v ===== *)
(** * Characters: a village, and witnesses

    The profile is the migrated one of [ProfileExample] with reviewed knowledge: a fact of
    the world and a secret of each of two characters. *)

From S2P Require Import Prelude Text Bytes Float HostedTypes ProfileValidation ProfileMigration ProfileExample MemoryTypes MemoryStore MemoryItems MemoryExample CharacterDb CharacterSpec EncounterSpec.
From Stdlib Require Import SpecFloat.

#[local] Open Scope Z_scope.

#[local] Existing Instances tree_json padding_digest ascii_case positive_nan.
#[local] Instance village_profiles : @ProfileApi tree_json := {|
  regex_error := λ _, None; schema_problems := λ _, []; profile_of_json := λ _, None |}.
#[local] Instance village_policy : PromptApi := {| policy_to_vec := λ _, Some [1; 2; 3] |}.

Definition reviewed : ProvenanceRecord := {|
  pr_id := lit "reviewed"; pr_title := lit "Notes"; pr_kind := ProvLegacyImport;
  pr_source_url := None; pr_license := None; pr_notes := None; pr_source_revision := None;
  pr_source_path := None; pr_source_sha256 := None; pr_review_status := Some ReviewApproved;
  pr_transform_version := None |}.

Definition a_fact (id text provenance : string) (a : KnowledgeAuthority) (owner : option str) : KnowledgeRecord := {|
  kr_id := lit id; kr_authority := a; kr_owner_character_id := owner; kr_text := lit text;
  kr_topic_tags := []; kr_spoiler_tier := lit "introductory"; kr_provenance_id := lit provenance |}.

Definition village_content (c : ContentBundle) : ContentBundle := {|
  cb_world_lore := cb_world_lore c; cb_spoiler_policy := cb_spoiler_policy c;
  cb_spoiler_tiers := cb_spoiler_tiers c; cb_background_npc_rules := cb_background_npc_rules c;
  cb_provenance := reviewed :: cb_provenance c;
  cb_knowledge := [
    a_fact "river" "The river floods in spring." "reviewed" KnCoreCanon None;
    a_fact "ada-secret" "Ada hid the key." "reviewed" KnCharacterAuthored (Some (lit "ada"));
    a_fact "bo-secret" "Bo forged the seal." "reviewed" KnCharacterAuthored (Some (lit "bo"));
    a_fact "rumour" "Wolves." "legacy-v1-import" KnGamePublic None];
  cb_retrieval := cb_retrieval c; cb_character_data_readiness := cb_character_data_readiness c;
  cb_character_data_readiness_notes := cb_character_data_readiness_notes c |}.

Definition village : GameProfileV2 :=
  let p := into_v2 a_legacy_profile in {|
  gf_schema_version := gf_schema_version p; gf_id := gf_id p; gf_display_name := gf_display_name p;
  gf_game := gf_game p; gf_detection := gf_detection p; gf_safety := gf_safety p;
  gf_capabilities := gf_capabilities p; gf_content := village_content (gf_content p);
  gf_characters := gf_characters p; gf_defaults := gf_defaults p; gf_diagnostics := gf_diagnostics p;
  gf_troubleshooting := gf_troubleshooting p; gf_prompts := gf_prompts p;
  gf_recommendations := gf_recommendations p |}.

Definition result_ok {E A} (r : result E A) : bool := match r with Ok _ => true | Err _ => false end.
Lemma result_ok_run {E A} (r : result E A) : result_ok r = true → ∃ x, r = Ok x.
Proof. destruct r; [by eexists|done]. Qed.

Example village_valid : result_ok (database_new village) = true.
Proof. vm_compute. reflexivity. Qed.

(** ** Selection *)

Definition sighting (id evidence : string) (confidence : Z) : IdentityCandidateV1 := {|
  ic_character_id := lit id; ic_confidence := f64_lit confidence 100; ic_evidence_id := lit evidence |}.
Definition two_faces : SelectionEvidenceV1 := {|
  sv_schema_version := CHARACTER_DB_SCHEMA_VERSION; sv_explicit_character_id := None;
  sv_addressed_alias := None; sv_current_character_id := None;
  sv_visual_candidates := [sighting "bo" "face-2" 40; sighting "stranger" "face-3" 99; sighting "ada" "face-1" 91] |}.

Definition in_village {A} (f : CharacterDatabase → result CharacterDbError A) : result CharacterDbError A :=
  db ← database_new village; f db.

Lemma in_village_run {A} (f : CharacterDatabase → result CharacterDbError A) :
  result_ok (in_village f) = true → ∃ db x, database_new village = Ok db ∧ f db = Ok x.
Proof.
  unfold in_village. destruct (database_new village) as [db|]; [|done]. cbn [mbind result_bind].
  intros [x Hx]%result_ok_run. by exists db, x.
Qed.

Example ada_is_closest :
  in_village (λ db, select_character db two_faces selection_policy_default)
  = Ok (SelectKnown (lit "ada") ByVisualConfidence).
Proof. vm_compute. reflexivity. Qed.

Lemma selection_witness :
  ∃ db out, select_character db two_faces selection_policy_default = Ok out ∧
    justified village two_faces selection_policy_default out.
Proof.
  destruct (in_village_run (λ db, select_character db two_faces selection_policy_default))
    as (db&out&Hdb&Hout); [vm_compute; reflexivity|].
  exists db, out. split; [exact Hout|].
  refine (proj1 (selection_is_justified village db two_faces selection_policy_default out Hdb _ Hout)).
  repeat constructor.
Defined.

(** ** Prompts *)

Definition in_session (session : string) : AuthorityScope := {|
  sc_user_id := lit "u"; sc_profile_id := lit "game"; sc_game_id := lit "game";
  sc_character_id := Some (lit "ada"); sc_encounter_id := None; sc_session_id := Some (lit session);
  sc_save_id := None |}.

Definition a_memory (id session : string) (class : KnowledgeClass) : DerivedMemoryRecord := {|
  dr_id := lit id; dr_scope := in_session session; dr_class := class;
  dr_spoiler_scope := SpCharacterPrivate; dr_content := lit "The player asked for the key.";
  dr_content_sha256 := []; dr_provenance := plain; dr_confidence := MemoryTypes.f64_one;
  dr_importance := MemoryTypes.f64_one; dr_observed_at_ms := 10; dr_created_at_ms := 10;
  dr_expires_at_ms := None; dr_source_turn_ids := []; dr_generator := None |}.

Definition a_delivered (id session : string) (sequence : Z) : DeliveredTurnRecord := {|
  dt_turn_id := lit id; dt_scope := in_session session; dt_speaker := SpeakerPlayer;
  dt_delivered_text := lit "Where is the key?"; dt_content_sha256 := []; dt_created_at_ms := 5;
  dt_delivered_at_ms := 6; dt_sequence := sequence; dt_cancellation_generation := 0;
  dt_provider_id := None; dt_delivery_receipt_id := None; dt_provenance := plain |}.

Definition ask_ada : PromptBuildRequestV1 := {|
  pq_schema_version := CHARACTER_DB_SCHEMA_VERSION; pq_scope := in_session "s1";
  pq_query := lit "key"; pq_enabled_spoiler_tiers := [];
  pq_memory_context := {|
    mx_world_lore := []; mx_biography := [];
    mx_character_knowledge := [a_memory "m1" "s1" CharacterKnowledge; a_memory "m2" "s2" CharacterKnowledge];
    mx_uncertain_public_info := [];
    mx_recent_dialogue := [a_delivered "t2" "s1" 2; a_delivered "t9" "s2" 1; a_delivered "t1" "s1" 1];
    mx_long_term_summaries := [a_memory "m3" "s1" LongTermSummary] |};
  pq_memory_spoiler_policy := spoiler_policy_default;
  pq_max_style_examples := 4 |}.

Definition told (r : result CharacterDbError PromptContextV1) : list (PromptAuthority * list str) :=
  match r with
  | Ok ctx => (λ s, (ps_authority s, pc_id <$> ps_records s)) <$> px_sections ctx
  | Err _ => []
  end.

(** Bo's secret, the unreviewed rumour and what belongs to another session are not told. *)
Example told_to_ada :
  told (in_village (λ db, build_prompt_context db ask_ada)) =
  [(CoreCanon, [lit "profile-world-lore"; lit "river"]);
   (CharacterProfileLane, [lit "ada-biography"; lit "ada-personality"; lit "ada-dialogue-style"]);
   (CharacterAuthored, [lit "ada-secret"]);
   (SessionSummary, [lit "m3"]);
   (RetrievedMemory, [lit "m1"]);
   (RecentDeliveredTurns, [lit "turn:t1"; lit "turn:t2"])].
Proof. vm_compute. reflexivity. Qed.

Lemma village_limits : limits_ok village.
Proof. split; vm_compute; discriminate. Qed.

Lemma prompt_witness :
  ∃ db ctx, build_prompt_context db ask_ada = Ok ctx ∧ px_character_id ctx = lit "ada".
Proof.
  destruct (in_village_run (λ db, build_prompt_context db ask_ada)) as (db&ctx&Hdb&Hctx);
    [vm_compute; reflexivity|].
  exists db, ctx. split; [exact Hctx|].
  destruct (prompt_tells_what_it_may village db ask_ada ctx village_limits Hdb Hctx) as (c&_&Hc&Hx&_).
  rewrite Hx. injection Hc as Hc. symmetry. exact Hc.
Defined.

(** ** Encounters *)

Definition a_voice : VoiceCandidateV1 := {|
  vc_binding_id := lit "v"; vc_adapter_id := lit "a"; vc_provider_voice_id := lit "p";
  vc_locale := lit "en"; vc_traits := []; vc_catalog_version := None; vc_license := None |}.

Definition an_encounter (id : Z) : EncounterRecordV1 := {|
  er_schema_version := CHARACTER_DB_SCHEMA_VERSION; er_encounter_id := id;
  er_game_profile_id := lit "game"; er_archetype_character_id := lit "guard";
  er_continuity_key_sha256 := lit "00"; er_selected_voice := a_voice; er_created_at_ms := 10;
  er_last_seen_at_ms := 10; er_expires_at_ms := 100; er_status := EncounterActive |}.

(** Three strangers; the first turns out to be the second, the second to be the third. *)
Definition three_strangers : result CharacterDbError EncounterRegistryV1 :=
  g ← registry_new (lit "game");
  g ← registry_insert (an_encounter 1) g;
  g ← registry_insert (an_encounter 2) g;
  registry_insert (an_encounter 3) g.
Definition merged_twice : result CharacterDbError EncounterRegistryV1 :=
  g ← three_strangers;
  g ← merge_unknown_encounters 1 2 true 20 g;
  merge_unknown_encounters 2 3 true 30 g.

(** The first is not found at the third any more, and cannot be observed. *)
Example one_redirect_only :
  (λ g, (er_status <$> registry_record g 1, er_status <$> registry_record g 2,
         match registry_observe 1 40 g with Ok _ => None | Err e => Some e end))
    <$> (match merged_twice with Ok g => Some g | Err _ => None end)
  = Some (Some EncounterExpired, Some EncounterActive,
          Some (CdInvalidInput (lit "expired encounter cannot be observed"))).
Proof. vm_compute. reflexivity. Qed.

Lemma merged_twice_reachable g : merged_twice = Ok g → encounter_reachable g [].
Proof.
  unfold merged_twice, three_strangers.
  destruct (registry_new _) as [g0|] eqn:E0; [|done]. cbn [mbind result_bind].
  destruct (registry_insert (an_encounter 1) g0) as [g1|] eqn:E1; [|done]. cbn [mbind result_bind].
  destruct (registry_insert (an_encounter 2) g1) as [g2|] eqn:E2; [|done]. cbn [mbind result_bind].
  destruct (registry_insert (an_encounter 3) g2) as [g3|] eqn:E3; [|done]. cbn [mbind result_bind].
  destruct (merge_unknown_encounters 1 2 true 20 g3) as [g4|] eqn:E4; [|done]. cbn [mbind result_bind].
  intros E5. eapply reach_merge; [|exact E5]. eapply reach_merge; [|exact E4].
  eapply reach_insert; [|exact E3]. eapply reach_insert; [|exact E2]. eapply reach_insert; [|exact E1].
  by eapply reach_new.
Qed.

Lemma encounters_witness :
  ∃ g, merged_twice = Ok g ∧
    Forall (timely (eg_game_profile_id g) (eg_records g)) (eg_events g).
Proof.
  destruct (result_ok_run merged_twice) as [g E]; [vm_compute; reflexivity|].
  exists g. split; [exact E|].
  destruct (encounters_live_once g [] (merged_twice_reachable g E)) as (_&Ht&_). exact Ht.
Defined.
