(* ===== verification/Archive.v ===== *)
(** * Archives of model files: paths and entries ([crates/model-manager/src/archive.rs])

    What an archive may contain before anything is extracted: relative paths without
    traversal, drive letters, streams, device names or characters Windows does not allow,
    no two paths that differ in case only, and sizes within a policy. The second half proves
    which archives are accepted. *)

From S2P Require Import Prelude Text.
#[local] Open Scope Z_scope.

Inductive ArchivePathError :=
| ApEmpty | ApTooLong | ApControlCharacter | ApAbsoluteOrUnc | ApDrivePrefix | ApEmptyComponent
| ApTraversal | ApAlternateDataStream | ApTrailingDotOrSpace | ApComponentTooLong
| ApReservedDeviceName (component : str) | ApInvalidWindowsCharacter.

Definition WINDOWS_RESERVED : list str := Eval vm_compute in
  lit <$> ["con"; "prn"; "aux"; "nul"; "clock$"; "com1"; "com2"; "com3"; "com4"; "com5"; "com6"; "com7";
           "com8"; "com9"; "lpt1"; "lpt2"; "lpt3"; "lpt4"; "lpt5"; "lpt6"; "lpt7"; "lpt8"; "lpt9"]%string.

(** [str::replace] of a character by a character. *)
Definition replace_char (a b : char) (s : str) : str := (λ c, if c =? a then b else c) <$> s.

(** The body of the loop over the components. *)
Definition component_base (component : str) : str :=
  ascii_lowercase (default component (head (split_char 46 component))).
Definition check_component (component : str) : result ArchivePathError unit :=
  if str_is_empty component then Err ApEmptyComponent else
  if str_eqb component (lit ".") || str_eqb component (lit "..") then Err ApTraversal else
  if existsb (Z.eqb 58) component then Err ApAlternateDataStream else
  if ends_with 32 component || ends_with 46 component then Err ApTrailingDotOrSpace else
  if 255 <? str_len component then Err ApComponentTooLong else
  if bool_decide (component_base component ∈ WINDOWS_RESERVED) then Err (ApReservedDeviceName component) else
  if existsb (one_of [60; 62; 34; 124; 63; 42]) component then Err ApInvalidWindowsCharacter else
  Ok tt.

(** [as_bytes().get(1) == Some(':')]: the second byte is a colon when the first character
    takes one byte. *)
Definition drive_prefix (s : str) : bool :=
  match s with a :: b :: _ => (len_utf8 a =? 1) && (b =? 58) | _ => false end.

Definition validate_relative_archive_path (input : str) : result ArchivePathError str :=
  if str_is_empty input then Err ApEmpty else
  if 1024 <? str_len input then Err ApTooLong else
  if existsb (Z.eqb 0) input || existsb is_control input then Err ApControlCharacter else
  let normalized := replace_char 92 47 input in
  if text_starts_with (lit "/") normalized || text_starts_with (lit "//") normalized then
    Err ApAbsoluteOrUnc else
  if drive_prefix normalized then Err ApDrivePrefix else
  let components := split_char 47 normalized in
  _ ← check_all check_component components;
  Ok (join_with (lit "/") components).

(** ** Entries *)

Inductive ArchiveEntryKind := EntryFile | EntryDirectory | EntrySymlink | EntryHardlink | EntryDevice.
#[export] Instance ArchiveEntryKind_eq_dec : EqDecision ArchiveEntryKind.
Proof. solve_decision. Defined.

Record ArchiveEntry := {
  en_path : str;
  en_kind : ArchiveEntryKind;
  en_uncompressed_size : Z
}.

Record ArchivePolicy := {
  ay_max_entries : Z;
  ay_max_uncompressed_bytes : Z;
  ay_max_single_file_bytes : Z
}.
Definition archive_policy_default : ArchivePolicy := {|
  ay_max_entries := 100000;
  ay_max_uncompressed_bytes := 549755813888;
  ay_max_single_file_bytes := 137438953472 |}.

Inductive ArchiveValidationError :=
| AvPath (error : ArchivePathError)
| AvEntryLimit
| AvSizeLimit
| AvSingleFileLimit (path : str)
| AvUnsupportedEntryType (path : str) (kind : ArchiveEntryKind)
| AvCaseFoldCollision (path : str)
| AvFileAsParent (path : str).

(** [strip_suffix('/')] for directories. *)
Definition strip_slash (s : str) : str := if ends_with 47 s then removelast s else s.
Definition entry_candidate (e : ArchiveEntry) : str :=
  if bool_decide (en_kind e = EntryDirectory) then strip_slash (en_path e) else en_path e.

(** The proper prefixes of a path, shortest first: [components[..i].join("/")]. *)
Definition parents (path : str) : list str :=
  let components := split_char 47 path in
  (λ i, join_with (lit "/") (take i components)) <$> seq 1 (length components - 1).

(** The first parent that is a file. *)
Definition file_parent (kinds : gmap str ArchiveEntryKind) (path : str) : option str :=
  List.find (λ parent, bool_decide (kinds !! parent = Some EntryFile)) (parents path).

Fixpoint entries_loop (policy : ArchivePolicy) (entries : list ArchiveEntry) (seen : gset str)
    (kinds : gmap str ArchiveEntryKind) (total : Z) : result ArchiveValidationError (list str) :=
  match entries with
  | [] => Ok []
  | e :: entries =>
      if negb (bool_decide (en_kind e = EntryFile)) && negb (bool_decide (en_kind e = EntryDirectory)) then
        Err (AvUnsupportedEntryType (en_path e) (en_kind e)) else
      if ay_max_single_file_bytes policy <? en_uncompressed_size e then
        Err (AvSingleFileLimit (en_path e)) else
      if u64_max <? total + en_uncompressed_size e then Err AvSizeLimit else
      let total := total + en_uncompressed_size e in
      if ay_max_uncompressed_bytes policy <? total then Err AvSizeLimit else
      path ← map_err AvPath (validate_relative_archive_path (entry_candidate e));
      let folded := ascii_lowercase path in
      if bool_decide (folded ∈ seen) then Err (AvCaseFoldCollision path) else
      match file_parent kinds folded with
      | Some parent => Err (AvFileAsParent parent)
      | None =>
          validated ← entries_loop policy entries ({[folded]} ∪ seen) (<[folded := en_kind e]> kinds) total;
          Ok (path :: validated)
      end
  end.

Definition validate_archive_entries (policy : ArchivePolicy) (entries : list ArchiveEntry)
    : result ArchiveValidationError (list str) :=
  if ay_max_entries policy <? Z.of_nat (length entries) then Err AvEntryLimit else
  entries_loop policy entries ∅ ∅ 0.

(** ** Splitting and joining *)

Lemma split_char_not_nil c s : split_char c s ≠ [].
Proof. destruct s as [|d s]; [done|]. cbn. destruct (c =? d); [done|]. by destruct (split_char c s). Qed.

Lemma join_split c s : join_with [c] (split_char c s) = s.
Proof.
  induction s as [|d s IH]; [done|]. cbn [split_char]. pose proof (split_char_not_nil c s) as Hn.
  destruct (Z.eqb_spec c d) as [<-|_].
  - destruct (split_char c s) as [|w ws]; [done|]. cbn. by rewrite <-IH.
  - destruct (split_char c s) as [|w ws]; [done|]. cbn in *. rewrite <-IH. by destruct ws.
Qed.

(** ** Paths *)

(** What one component of an accepted path is. *)
Record safe_component (c : str) : Prop := {
  sc_not_empty : c ≠ [];
  sc_not_dots : c ≠ lit "." ∧ c ≠ lit "..";
  sc_no_colon : 58 ∉ c;
  sc_end : last c ≠ Some 32 ∧ last c ≠ Some 46;
  sc_length : str_len c ≤ 255;
  sc_not_device : component_base c ∉ WINDOWS_RESERVED;
  sc_characters : Forall (λ x, x ∉ [60; 62; 34; 124; 63; 42]) c
}.

Lemma existsb_eqb_false c (s : str) : existsb (Z.eqb c) s = false ↔ c ∉ s.
Proof.
  rewrite <-not_true_iff_false, existsb_exists. setoid_rewrite <-list_elem_of_In.
  setoid_rewrite Z.eqb_eq. naive_solver.
Qed.

Lemma existsb_one_of_false l (s : str) : existsb (one_of l) s = false ↔ Forall (λ x, x ∉ l) s.
Proof.
  rewrite Forall_forall, <-not_true_iff_false, existsb_exists. setoid_rewrite <-list_elem_of_In.
  unfold one_of. split.
  - intros Hn x Hx Hl. apply Hn. exists x. split; [done|]. apply existsb_exists. exists x.
    rewrite <-list_elem_of_In, Z.eqb_eq. done.
  - intros Ha (x&Hx&(y&Hy&->%Z.eqb_eq)%existsb_exists). rewrite <-list_elem_of_In in Hy. by apply (Ha y).
Qed.

Lemma ends_with_false c s : ends_with c s = false ↔ last s ≠ Some c.
Proof.
  unfold ends_with. destruct (last s) as [d|]; [|naive_solver]. rewrite Z.eqb_neq. naive_solver.
Qed.

Lemma check_component_Ok c : check_component c = Ok tt ↔ safe_component c.
Proof.
  unfold check_component, str_eqb. rewrite !if_err_Ok, !orb_false_iff, !bool_decide_eq_false, existsb_eqb_false,
    existsb_one_of_false, !ends_with_false, Z.ltb_ge.
  assert (str_is_empty c = false ↔ c ≠ []) as -> by by destruct c.
  split; [intros (?&?&?&?&?&?&?&_); by split|]. intros []. naive_solver.
Qed.

(** The path an archive member is given. *)
Definition archive_path (input path : str) : Prop :=
  path = replace_char 92 47 input ∧ input ≠ [] ∧ str_len input ≤ 1024 ∧
  Forall (λ c, is_control c = false) input ∧ Forall safe_component (split_char 47 path).

Lemma is_control_zero : is_control 0 = true.
Proof. done. Qed.

Lemma existsb_false_iff {A} (p : A → bool) l : existsb p l = false ↔ Forall (λ x, p x = false) l.
Proof.
  rewrite <-not_true_iff_false, existsb_exists, Forall_forall. setoid_rewrite <-list_elem_of_In. split.
  - intros Hn x Hx. apply not_true_iff_false. intros ?. apply Hn. by exists x.
  - intros Ha (x&Hx&E). by rewrite Ha in E.
Qed.

(** A leading slash leaves an empty component, a drive letter a colon. *)
Lemma safe_not_absolute s : Forall safe_component (split_char 47 s) → text_starts_with [47] s = false.
Proof.
  destruct s as [|c s]; [done|]. cbn [split_char]. unfold text_starts_with. cbn [strip_prefix].
  destruct (47 =? c) eqn:E; [|done]. intros [[] _]%Forall_cons. done.
Qed.

Lemma starts_with_longer a b s : text_starts_with [a] s = false → text_starts_with [a; b] s = false.
Proof. destruct s as [|c s]; [done|]. unfold text_starts_with. cbn. by destruct (a =? c). Qed.

Lemma join_with_elem x sep l : x ∈ join_with sep l → x ∈ sep ∨ ∃ c, c ∈ l ∧ x ∈ c.
Proof.
  induction l as [|c l IH]; [by intros ?%not_elem_of_nil|]. destruct l as [|d l].
  - intros Hx. right. exists c. split; [by left|done].
  - change (join_with sep (c :: d :: l)) with (c ++ sep ++ join_with sep (d :: l)).
    rewrite !elem_of_app. intros [Hx|[Hx|Hx]]; [right; exists c; split; [by left|done]|by left|].
    destruct (IH Hx) as [?|(e&He&?)]; [by left|]. right. exists e. split; [by right|done].
Qed.

Lemma safe_no_colon s : Forall safe_component (split_char 47 s) → 58 ∉ s.
Proof.
  intros Hs Hin. rewrite <-(join_split 47 s) in Hin.
  apply join_with_elem in Hin as [Hin|(c&Hc&Hin)]; [by apply list_elem_of_singleton in Hin|].
  rewrite Forall_forall in Hs. by apply (sc_no_colon _ (Hs c Hc)).
Qed.

Lemma no_colon_no_drive s : 58 ∉ s → drive_prefix s = false.
Proof.
  destruct s as [|a [|b s]]; [done..|]. cbn. rewrite !not_elem_of_cons. intros (_&Hb&_).
  apply andb_false_iff. right. apply Z.eqb_neq. naive_solver.
Qed.

Lemma validate_path_Ok input path :
  validate_relative_archive_path input = Ok path ↔ archive_path input path.
Proof.
  unfold validate_relative_archive_path, archive_path. cbv zeta.
  rewrite !if_err_Ok, !orb_false_iff, Z.ltb_ge, existsb_eqb_false, existsb_false_iff, bind_unit_Ok, check_all_Ok.
  assert (str_is_empty input = false ↔ input ≠ []) as -> by by destruct input.
  change (lit "/") with [47]. change (lit "//") with [47; 47]. rewrite join_split. setoid_rewrite check_component_Ok. split.
  - intros (Hn&Hl&[_ Hc]&_&_&Hs&[= <-]). by repeat split.
  - intros (->&Hn&Hl&Hc&Hs). split; [done|]. split; [done|].
    split; [split; [|done]|].
    { intros Hz. rewrite Forall_forall in Hc. by specialize (Hc 0 Hz). }
    pose proof (safe_not_absolute _ Hs) as Ha. split; [split; [done|by apply starts_with_longer]|].
    split; [by apply no_colon_no_drive, safe_no_colon|by split].
Qed.

(** ** Entries *)

Definition valid_entry (policy : ArchivePolicy) (e : ArchiveEntry) (path : str) : Prop :=
  (en_kind e = EntryFile ∨ en_kind e = EntryDirectory) ∧
  en_uncompressed_size e ≤ ay_max_single_file_bytes policy ∧ archive_path (entry_candidate e) path.

(** The later entry is not inside the earlier one, when that is a file. *)
Definition not_inside (x y : ArchiveEntry * str) : Prop :=
  en_kind x.1 = EntryFile → ascii_lowercase x.2 ∉ parents (ascii_lowercase y.2).

Definition total_size (entries : list ArchiveEntry) : Z :=
  foldr (λ e n, en_uncompressed_size e + n) 0 entries.

Lemma total_size_nonneg entries : Forall (λ e, 0 ≤ en_uncompressed_size e) entries → 0 ≤ total_size entries.
Proof. induction 1 as [|e es He _ IH]; cbn; [done|]. fold (total_size es). lia. Qed.

Lemma file_parent_None kinds path :
  file_parent kinds path = None ↔ ∀ q, q ∈ parents path → kinds !! q ≠ Some EntryFile.
Proof.
  unfold file_parent. split.
  - intros Hf q Hq E. apply list_elem_of_In in Hq. pose proof (find_none _ _ Hf q Hq) as Hn.
    cbn in Hn. by rewrite bool_decide_eq_true_2 in Hn.
  - intros Ha. destruct (List.find _ _) as [q|] eqn:Hf; [|done]. exfalso.
    apply find_some in Hf as [Hq%list_elem_of_In E%bool_decide_eq_true]. by apply (Ha q).
Qed.

Lemma entries_loop_Ok policy entries seen kinds total paths :
  Forall (λ e, 0 ≤ en_uncompressed_size e) entries → 0 ≤ total → dom kinds = seen →
  total ≤ Z.min u64_max (ay_max_uncompressed_bytes policy) →
  entries_loop policy entries seen kinds total = Ok paths ↔
  Forall2 (valid_entry policy) entries paths ∧
  total + total_size entries ≤ Z.min u64_max (ay_max_uncompressed_bytes policy) ∧
  NoDup (ascii_lowercase <$> paths) ∧ (∀ p, p ∈ paths → ascii_lowercase p ∉ seen) ∧
  (∀ p q, p ∈ paths → q ∈ parents (ascii_lowercase p) → kinds !! q ≠ Some EntryFile) ∧
  StronglySorted not_inside (zip entries paths).
Proof.
  intros Hs. revert seen kinds total paths.
  induction Hs as [|e entries He Hs IH]; intros seen kinds total paths Ht Hdom Hle; cbn [entries_loop].
  { cbn. split.
    - intros [= <-]. split; [constructor|]. split; [lia|]. split; [constructor|].
      split; [by intros ? ?%not_elem_of_nil|]. split; [by intros ? ? ?%not_elem_of_nil|constructor].
    - intros (Hf&_). by inversion Hf. }
  pose proof (total_size_nonneg entries Hs) as Hnn.
  assert (negb (bool_decide (en_kind e = EntryFile)) && negb (bool_decide (en_kind e = EntryDirectory)) = false
    ↔ en_kind e = EntryFile ∨ en_kind e = EntryDirectory) as Hkind by (by destruct (en_kind e); intuition).
  cbv zeta. rewrite !if_err_Ok, Hkind, !Z.ltb_ge. clear Hkind.
  rewrite bind_Ok. setoid_rewrite map_err_Ok. setoid_rewrite validate_path_Ok. split.
  - intros (Hk&Hsize&Hu&Hmax&path&Hpath&Hrest). rewrite if_err_Ok, bool_decide_eq_false in Hrest.
    destruct Hrest as [Hseen Hrest]. destruct (file_parent kinds _) as [q|] eqn:Hq; [done|].
    apply bind_Ok in Hrest as (ps&Hps&[= <-]).
    apply IH in Hps as (Hf&Hsum&Hnd&Hfresh&Hpar&Hsort); [|lia|by rewrite dom_insert_L, Hdom|lia].
    split; [by constructor|]. split; [cbn; fold (total_size entries); lia|].
    split; [cbn; constructor; [|done]; intros (p&Ep&Hp)%list_elem_of_fmap; apply (Hfresh p Hp); rewrite <-Ep; set_solver|].
    split; [intros p [->|Hp]%elem_of_cons; [done|]; specialize (Hfresh p Hp); set_solver|].
    split.
    + intros p r [->|Hp]%elem_of_cons Hr; [by apply (proj1 (file_parent_None _ _) Hq)|].
      pose proof (Hpar p r Hp Hr) as Hn. destruct (decide (r = ascii_lowercase path)) as [->|Hne].
      * intros Hkf. apply Hseen. rewrite <-Hdom. by apply elem_of_dom_2 in Hkf.
      * by rewrite lookup_insert_ne in Hn.
    + cbn [zip zip_with]. constructor; [done|]. apply Forall_forall. intros [e' p] Hin Hfile Hp. cbn in Hfile, Hp.
      apply elem_of_zip_r in Hin. apply (Hpar p _ Hin Hp). by rewrite lookup_insert_eq, Hfile.
  - intros (Hf&Hsum&Hnd&Hfresh&Hpar&Hsort). cbn in Hsum. fold (total_size entries) in Hsum.
    destruct paths as [|path paths]; [by inversion Hf|]. apply Forall2_cons in Hf as [(Hk&Hsize&Hpath) Hf].
    cbn in Hnd. apply NoDup_cons in Hnd as [Hnin Hnd].
    cbn [zip zip_with] in Hsort. inversion Hsort as [|? ? Hsort' Hhd]; subst.
    split; [done|]. split; [done|]. split; [lia|]. split; [lia|]. exists path. split; [done|].
    rewrite if_err_Ok, bool_decide_eq_false. split; [apply Hfresh; by left|].
    assert (file_parent kinds (ascii_lowercase path) = None) as ->.
    { apply file_parent_None. intros q Hq. apply (Hpar path q); [by left|done]. }
    apply bind_Ok. exists paths. split; [|done]. apply IH; [lia|by rewrite dom_insert_L|lia|].
    split; [done|]. split; [lia|]. split; [done|]. split; [|split; [|done]].
    + intros p Hp. rewrite not_elem_of_union, not_elem_of_singleton. split; [|apply Hfresh; by right].
      intros Ep. apply Hnin. rewrite <-Ep. apply list_elem_of_fmap. by exists p.
    + intros p q Hp Hq. destruct (decide (q = ascii_lowercase path)) as [->|Hne].
      * rewrite lookup_insert_eq. intros [= Hfile].
        assert (∃ e', (e', p) ∈ zip entries paths) as [e' Hin].
        { apply list_elem_of_lookup in Hp as [i Hi]. pose proof (Forall2_lookup_r _ _ _ _ _ Hf Hi) as (e'&He'&_).
          exists e'. apply list_elem_of_lookup. exists i. rewrite lookup_zip_with, He', Hi. done. }
        rewrite Forall_forall in Hhd. by apply (Hhd _ Hin Hfile).
      * rewrite lookup_insert_ne by done. apply (Hpar p q); [by right|done].
Qed.

(** C36: An archive is accepted exactly when every entry is a plain file or directory within
    the size of one file, all of them together within the limits, every path is relative
    and safe on Windows, component by component, no two paths are equal up to the case of
    ASCII letters (other letters are told apart), and no entry lies inside an earlier entry
    that is a file. *)
Theorem archive_entries_exact policy entries paths :
  Forall (λ e, 0 ≤ en_uncompressed_size e) entries → 0 ≤ ay_max_uncompressed_bytes policy →
  validate_archive_entries policy entries = Ok paths ↔
  Z.of_nat (length entries) ≤ ay_max_entries policy ∧
  Forall2 (valid_entry policy) entries paths ∧
  total_size entries ≤ Z.min u64_max (ay_max_uncompressed_bytes policy) ∧
  NoDup (ascii_lowercase <$> paths) ∧ StronglySorted not_inside (zip entries paths).
Proof.
  intros Hs Hmax. unfold validate_archive_entries. rewrite if_err_Ok, Z.ltb_ge, entries_loop_Ok.
  - rewrite Z.add_0_l. split; [naive_solver|]. intros (?&?&?&?&?). do 4 (split; [done|]).
    split; [intros ? _; apply not_elem_of_empty|]. split; [|done]. intros p q _ _. by rewrite lookup_empty.
  - done.
  - done.
  - by rewrite dom_empty_L.
  - unfold u64_max. lia.
Qed.

(** ** Concrete archives *)

Definition file (path : string) (size : Z) : ArchiveEntry :=
  {| en_path := lit path; en_kind := EntryFile; en_uncompressed_size := size |}.
Definition directory (path : string) : ArchiveEntry :=
  {| en_path := lit path; en_kind := EntryDirectory; en_uncompressed_size := 0 |}.

Definition demo_entries : list ArchiveEntry :=
  [directory "voice/"; file "voice\model.bin" 700; file "voice/config.json" 20].

Lemma archive_entries_witness :
  0 ≤ ay_max_uncompressed_bytes archive_policy_default ∧
  Forall (λ e, 0 ≤ en_uncompressed_size e) demo_entries ∧
  Forall2 (valid_entry archive_policy_default) demo_entries
    [lit "voice"; lit "voice/model.bin"; lit "voice/config.json"] ∧
  StronglySorted not_inside (zip demo_entries [lit "voice"; lit "voice/model.bin"; lit "voice/config.json"]).
Proof.
  assert (0 ≤ ay_max_uncompressed_bytes archive_policy_default) as Hp by (vm_compute; congruence).
  assert (Forall (λ e, 0 ≤ en_uncompressed_size e) demo_entries) as Hs
    by (repeat constructor; vm_compute; congruence).
  split; [done|]. split; [done|].
  destruct (proj1 (archive_entries_exact archive_policy_default demo_entries
    [lit "voice"; lit "voice/model.bin"; lit "voice/config.json"] Hs Hp)) as (_&?&_&_&?); [|done].
  vm_compute. reflexivity.
Defined.

(** Traversal, streams, devices and drive letters are refused, on every component. *)
Example refused_paths :
  map (λ s, validate_relative_archive_path (lit s))
    ["../up"; "a/..\b"; "C:/x"; "a:stream"; "a/NUL.txt"; "\\host\share"; "a//b"; "x."; "a/b?"]%string =
  [Err ApTraversal; Err ApTraversal; Err ApDrivePrefix; Err ApDrivePrefix;
   Err (ApReservedDeviceName (lit "NUL.txt")); Err ApAbsoluteOrUnc; Err ApEmptyComponent;
   Err ApTrailingDotOrSpace; Err ApInvalidWindowsCharacter].
Proof. vm_compute. reflexivity. Qed.

(** Names that differ in the case of another letter (U+00C9 and U+00E9) collide on Windows
    and are both accepted; names that differ in the case of an ASCII letter are refused. *)
Definition named_file (path : str) : ArchiveEntry :=
  {| en_path := path; en_kind := EntryFile; en_uncompressed_size := 1 |}.
Example unicode_case_variants_accepted :
  validate_archive_entries archive_policy_default [named_file [201; 46; 98]; named_file [233; 46; 98]]
    = Ok [[201; 46; 98]; [233; 46; 98]] ∧
  validate_archive_entries archive_policy_default [file "A.b" 1; file "a.b" 1]
    = Err (AvCaseFoldCollision (lit "a.b")).
Proof. split; vm_compute; reflexivity. Qed.

(** A file after an entry inside it is not noticed, before it it is. *)
Example file_as_parent_depends_on_order :
  validate_archive_entries archive_policy_default [file "a" 1; file "a/b" 1] = Err (AvFileAsParent (lit "a")) ∧
  validate_archive_entries archive_policy_default [file "a/b" 1; file "a" 1] = Ok [lit "a/b"; lit "a"].
Proof. split; vm_compute; reflexivity. Qed.

(** Two names that differ in case only collide. *)
Example collision_is_case_insensitive :
  validate_archive_entries archive_policy_default [file "Model.bin" 1; file "model.BIN" 1] =
  Err (AvCaseFoldCollision (lit "model.BIN")).
Proof. vm_compute. reflexivity. Qed.
