(* ===== verification/PackManifest.v ===== *)
(** * Model packs: manifests, catalogs, selections and challenges
    ([crates/model-manager/src/{manifest,catalog,selection,attestation}.rs])

    A pack is described by an immutable manifest; a signed catalog says which manifests
    exist; a selection is what a user chose, bound to the manifest; a challenge is what a
    self-test must answer. The bytes [serde_json] makes of them are parameters: [PackApi].
    The second half says what each validation accepts. *)

From S2P Require Import Prelude Text Measurement Governor Archive.

#[local] Open Scope Z_scope.

(** ** The data of a manifest *)

Definition MODEL_PACK_MANIFEST_SCHEMA_V1 : str := Eval vm_compute in lit "npc.model-pack/v1".
Definition MAX_PACK_BYTES : Z := 549755813888.
Definition MAX_ARTIFACTS : Z := 256.

Inductive ArtifactKind := KindArchive | KindFile.
#[export] Instance ArtifactKind_eq_dec : EqDecision ArtifactKind.
Proof. solve_decision. Defined.
Inductive ArchiveFormatV1 := FormatZip | FormatTar | FormatTarGz | FormatTarBz2.

Record ArtifactV1 := {
  ar_id : str;
  ar_kind : ArtifactKind;
  ar_archive_format : option ArchiveFormatV1;
  ar_source_urls : list str;
  ar_size_bytes : Z;
  ar_sha256 : Sha256Digest;
  ar_destination : str;
  ar_strip_prefix : option str;
  ar_required_paths : list str
}.

Inductive Platform := Windows10 | Windows11.
Definition platform_rank (p : Platform) : Z := match p with Windows10 => 0 | Windows11 => 1 end.
#[export] Instance platform_rank_inj : Inj (=) (=) platform_rank.
Proof. by intros [] []. Qed.
#[export] Instance Platform_eq_dec : EqDecision Platform.
Proof. solve_decision. Defined.
#[export] Instance Platform_countable : Countable Platform.
Proof.
  refine (inj_countable' platform_rank (λ n, if n =? 0 then Windows10 else Windows11) _). by intros [].
Defined.

Inductive Architecture := X86_64.
#[export] Instance Architecture_eq_dec : EqDecision Architecture.
Proof. solve_decision. Defined.
#[export] Instance Architecture_countable : Countable Architecture.
Proof. refine (inj_countable' (λ _, tt) (λ _, X86_64) _). by intros []. Defined.

Record RuntimeCompatibilityV1 := {
  rc_runtime : str;
  rc_abi : str;
  rc_minimum_runtime_revision : option str;
  rc_supported_platforms : gset Platform;
  rc_supported_architectures : gset Architecture
}.

Inductive Accelerator := AccCpu | AccCuda | AccDirectMl | AccVulkan.
Definition accelerator_rank (a : Accelerator) : Z :=
  match a with AccCpu => 0 | AccCuda => 1 | AccDirectMl => 2 | AccVulkan => 3 end.
#[export] Instance Accelerator_eq_dec : EqDecision Accelerator.
Proof. solve_decision. Defined.
#[export] Instance Accelerator_countable : Countable Accelerator.
Proof.
  refine (inj_countable' accelerator_rank
    (λ n, match n with 0 => AccCpu | 1 => AccCuda | 2 => AccDirectMl | _ => AccVulkan end) _).
  by intros [].
Defined.

Record HardwareRequirementsV1 := {
  hw_minimum_ram_bytes : Z;
  hw_recommended_ram_bytes : Z;
  hw_minimum_vram_bytes : option Z;
  hw_recommended_vram_bytes : option Z;
  hw_minimum_cpu_threads : Z;
  hw_accelerators : gset Accelerator;
  hw_required_cpu_features : gset str
}.

Inductive QualityTier := TierFast | TierBalanced | TierQuality | TierExperimental.

Record ResourceEnvelopeV1 := {
  rv_storage_bytes : Z;
  rv_peak_install_bytes : Z;
  rv_measured_ram_bytes : option Z;
  rv_measured_vram_bytes : option Z;
  rv_measured_load_millis : option Z;
  rv_benchmark_hardware : option str;
  rv_quality_tier : QualityTier;
  rv_languages : gset str
}.

Inductive ModelPackScopeV1 := ScopeGeneric | ScopeGameSpecific.
#[export] Instance ModelPackScopeV1_eq_dec : EqDecision ModelPackScopeV1.
Proof. solve_decision. Defined.

Record ModelPackCapabilityV1 := { mc_kind : ModelPackKindV1; mc_scope : ModelPackScopeV1 }.

Inductive LicensePermission :=
| LicenseAllowed | LicenseProhibited | LicenseRestricted | LicenseUnknown.
#[export] Instance LicensePermission_eq_dec : EqDecision LicensePermission.
Proof. solve_decision. Defined.

Record LicenseMetadataV1 := {
  li_spdx_expression : option str;
  li_license_name : str;
  li_license_url : str;
  li_attribution : str;
  li_redistributable : bool;
  li_commercial_use : LicensePermission;
  li_derivative_use : LicensePermission;
  li_acceptance_required : bool;
  li_notices : list str
}.

Record SelfTestV1 := {
  stt_kind : str;
  stt_suite_revision : str;
  stt_allowed_runtime_backends : gset str;
  stt_input_fixture : str;
  stt_expected_output_sha256 : option Sha256Digest;
  stt_timeout_millis : Z
}.

Record ModelPackManifestV1 := {
  mf_schema : str;
  mf_pack_id : str;
  mf_revision : str;
  mf_display_name : str;
  mf_description : str;
  mf_source_project : str;
  mf_source_revision : str;
  mf_capability : ModelPackCapabilityV1;
  mf_artifacts : list ArtifactV1;
  mf_runtime : RuntimeCompatibilityV1;
  mf_hardware : HardwareRequirementsV1;
  mf_resources : ResourceEnvelopeV1;
  mf_license : LicenseMetadataV1;
  mf_self_test : SelfTestV1
}.

Inductive ManifestError :=
| MfInvalidPackId (value : str)
| MfInvalidRevision (value : str)
| MfInvalidSha256 (value : str)
| MfUnsupportedSchema (schema : str)
| MfMutableSourceRevision (revision : str)
| MfInvalidText (field : str)
| MfArtifactCount (count : Z)
| MfDuplicateArtifactId (id : str)
| MfSourceUrlCount (id : str)
| MfEmptyArtifact (id : str)
| MfMissingArchiveFormat (id : str)
| MfUnexpectedArchiveFormat (id : str)
| MfInsecureUrl (url : str)
| MfInvalidUrl (url : str)
| MfUnsafeDestination (artifact : str) (source : ArchivePathError)
| MfUnsafeSelfTestFixture (source : ArchivePathError)
| MfDuplicateDestination (destination : str)
| MfPackTooLarge
| MfStorageUnderreported (declared artifacts : Z)
| MfPeakInstallUnderreported
| MfInvertedHardwareRange (what : str)
| MfIncompleteHardware
| MfIncompleteCompatibility
| MfAmbiguousRedistributionLicense
| MfInvalidSelfTestTimeout (millis : Z)
| MfInvalidSelfTestBackends
| MfSerialization (error : str).

(** ** Identifiers and texts *)

(** [PackId::parse]: the checks read bytes; a character that takes several is refused. *)
Definition is_pack_id_char (c : char) : bool :=
  is_ascii_lowercase c || is_ascii_digit c || (c =? 45) || (c =? 46).
Definition valid_pack_id (value : str) : bool :=
  (3 <=? str_len value) && (str_len value <=? 96) && forallb is_pack_id_char value
  && is_some_and (head value) is_ascii_alphanumeric && is_some_and (last value) is_ascii_alphanumeric
  && negb (str_contains (lit "..") value) && negb (str_contains (lit ".-") value)
  && negb (str_contains (lit "-.") value).
Definition pack_id_parse (value : str) : result ManifestError str :=
  if valid_pack_id value then Ok value else Err (MfInvalidPackId value).

Definition is_revision_char (c : char) : bool :=
  is_ascii_alphanumeric c || (c =? 46) || (c =? 45) || (c =? 95) || (c =? 43).
Definition valid_revision (value : str) : bool :=
  (1 <=? str_len value) && (str_len value <=? 128) && forallb is_revision_char value
  && negb (str_eqb value (lit ".")) && negb (str_eqb value (lit "..")).
Definition revision_parse (value : str) : result ManifestError str :=
  if valid_revision value then Ok value else Err (MfInvalidRevision value).

Definition is_hexdigit (c : char) : bool :=
  is_ascii_digit c || ((65 <=? c) && (c <=? 70)) || ((97 <=? c) && (c <=? 102)).
Definition sha256_parse (value : str) : result ManifestError Sha256Digest :=
  let value := ascii_lowercase value in
  if (str_len value =? 64) && forallb is_hexdigit value then Ok value else Err (MfInvalidSha256 value).

Definition require_text (field : string) (value : str) (min max : Z) : result ManifestError unit :=
  ensure ((min <=? str_len (trim value)) && (str_len (trim value) <=? max)
          && negb (existsb (Z.eqb 0) value)) (MfInvalidText (lit field)).

Definition require_token (field : string) (value : str) (min max : Z) : result ManifestError unit :=
  ensure ((min <=? str_len value) && (str_len value <=? max) && forallb is_token_char value)
    (MfInvalidText (lit field)).

Definition validate_pack_url (url : str) : result ManifestError unit :=
  match strip_prefix (lit "https://") url with
  | None => Err (MfInsecureUrl url)
  | Some rest =>
      ensure (negb (str_is_empty rest || text_starts_with (lit "/") rest || existsb (Z.eqb 64) rest
                    || existsb is_whitespace rest)) (MfInvalidUrl url)
  end.

(** ** Validation *)

Definition unsafe_destination (id : str) (path : str) : result ManifestError str :=
  map_err (MfUnsafeDestination id) (validate_relative_archive_path path).

(** [required.insert] in the loop over the required paths. *)
Fixpoint required_loop (id : str) (paths : list str) (required : gset str) : result ManifestError unit :=
  match paths with
  | [] => Ok tt
  | path :: paths =>
      path ← unsafe_destination id path;
      if bool_decide (ascii_lowercase path ∈ required) then Err (MfDuplicateDestination path) else
      required_loop id paths ({[ascii_lowercase path]} ∪ required)
  end.

(** The checks of one artifact that look at nothing else. *)
Definition check_artifact_source (a : ArtifactV1) : result ManifestError unit :=
  if (Z.of_nat (length (ar_source_urls a)) =? 0) || (8 <? Z.of_nat (length (ar_source_urls a))) then
    Err (MfSourceUrlCount (ar_id a)) else
  _ ← check_all validate_pack_url (ar_source_urls a);
  if ar_size_bytes a =? 0 then Err (MfEmptyArtifact (ar_id a)) else
  match ar_kind a, ar_archive_format a with
  | KindArchive, None => Err (MfMissingArchiveFormat (ar_id a))
  | KindFile, Some _ => Err (MfUnexpectedArchiveFormat (ar_id a))
  | _, _ => Ok tt
  end.

Definition check_artifact_paths (a : ArtifactV1) : result ManifestError unit :=
  _ ← unsafe_destination (ar_id a) (ar_destination a);
  _ ← match ar_strip_prefix a with
      | None => Ok tt
      | Some prefix =>
          if negb (bool_decide (ar_kind a = KindArchive)) then Err (MfUnexpectedArchiveFormat (ar_id a)) else
          _ ← unsafe_destination (ar_id a) prefix; Ok tt
      end;
  if Z.of_nat (length (ar_required_paths a)) =? 0 then Ok tt else
  if negb (bool_decide (ar_kind a = KindArchive)) || (1024 <? Z.of_nat (length (ar_required_paths a))) then
    Err (MfUnexpectedArchiveFormat (ar_id a)) else
  required_loop (ar_id a) (ar_required_paths a) ∅.

Definition destination_key (a : ArtifactV1) : str := replace_char 92 47 (ascii_lowercase (ar_destination a)).

(** The loop over the artifacts returns their total size. *)
Fixpoint artifacts_loop (artifacts : list ArtifactV1) (ids destinations : gset str) (total : Z)
    : result ManifestError Z :=
  match artifacts with
  | [] => Ok total
  | a :: artifacts =>
      _ ← require_token "artifact.id" (ar_id a) 1 128;
      if bool_decide (ascii_lowercase (ar_id a) ∈ ids) then Err (MfDuplicateArtifactId (ar_id a)) else
      _ ← check_artifact_source a;
      if u64_max <? total + ar_size_bytes a then Err MfPackTooLarge else
      _ ← check_artifact_paths a;
      if bool_decide (destination_key a ∈ destinations) then Err (MfDuplicateDestination (ar_destination a)) else
      artifacts_loop artifacts ({[ascii_lowercase (ar_id a)]} ∪ ids) ({[destination_key a]} ∪ destinations)
        (total + ar_size_bytes a)
  end.

Definition check_resources (m : ModelPackManifestV1) (total : Z) : result ManifestError unit :=
  let r := mf_resources m in
  let h := mf_hardware m in
  if (MAX_PACK_BYTES <? total) || (MAX_PACK_BYTES <? rv_storage_bytes r) then Err MfPackTooLarge else
  if rv_storage_bytes r <? total then Err (MfStorageUnderreported (rv_storage_bytes r) total) else
  if rv_peak_install_bytes r <? rv_storage_bytes r then Err MfPeakInstallUnderreported else
  if hw_recommended_ram_bytes h <? hw_minimum_ram_bytes h then Err (MfInvertedHardwareRange (lit "ram")) else
  if match hw_minimum_vram_bytes h, hw_recommended_vram_bytes h with
     | Some minimum, Some recommended => recommended <? minimum
     | _, _ => false
     end then Err (MfInvertedHardwareRange (lit "vram")) else
  if (hw_minimum_cpu_threads h =? 0) || bool_decide (hw_accelerators h = ∅) then Err MfIncompleteHardware else
  if bool_decide (rc_supported_platforms (mf_runtime m) = ∅)
     || bool_decide (rc_supported_architectures (mf_runtime m) = ∅)
     || bool_decide (rv_languages r = ∅) then Err MfIncompleteCompatibility else
  Ok tt.

Definition check_license (l : LicenseMetadataV1) : result ManifestError unit :=
  _ ← require_text "license.name" (li_license_name l) 1 256;
  _ ← validate_pack_url (li_license_url l);
  _ ← require_text "license.attribution" (li_attribution l) 1 8192;
  ensure (negb (li_redistributable l && bool_decide (li_commercial_use l = LicenseUnknown)))
    MfAmbiguousRedistributionLicense.

(** Every element of a set satisfies the check; all failures are the same error. *)
Definition check_self_test (t : SelfTestV1) : result ManifestError unit :=
  _ ← require_token "self_test.kind" (stt_kind t) 1 64;
  _ ← require_token "self_test.suite_revision" (stt_suite_revision t) 1 128;
  if bool_decide (stt_allowed_runtime_backends t = ∅)
     || (16 <? Z.of_nat (size (stt_allowed_runtime_backends t))) then Err MfInvalidSelfTestBackends else
  _ ← check_all (λ backend, require_token "self_test.runtime_backend" backend 1 128)
        (sort_by ocmp (elements (stt_allowed_runtime_backends t)));
  _ ← map_err MfUnsafeSelfTestFixture (validate_relative_archive_path (stt_input_fixture t));
  ensure ((100 <=? stt_timeout_millis t) && (stt_timeout_millis t <=? 300000))
    (MfInvalidSelfTestTimeout (stt_timeout_millis t)).

Definition MUTABLE_REVISIONS : list str := Eval vm_compute in
  lit <$> ["main"; "master"; "head"; "latest"]%string.

Definition manifest_validate (m : ModelPackManifestV1) : result ManifestError unit :=
  if negb (str_eqb (mf_schema m) MODEL_PACK_MANIFEST_SCHEMA_V1) then Err (MfUnsupportedSchema (mf_schema m)) else
  _ ← pack_id_parse (mf_pack_id m);
  _ ← revision_parse (mf_revision m);
  _ ← require_text "display_name" (mf_display_name m) 1 160;
  _ ← require_text "description" (mf_description m) 1 4096;
  _ ← require_text "source_project" (mf_source_project m) 1 512;
  _ ← require_text "source_revision" (mf_source_revision m) 1 256;
  if bool_decide (ascii_lowercase (mf_source_revision m) ∈ MUTABLE_REVISIONS) then
    Err (MfMutableSourceRevision (mf_source_revision m)) else
  if (Z.of_nat (length (mf_artifacts m)) =? 0) || (MAX_ARTIFACTS <? Z.of_nat (length (mf_artifacts m))) then
    Err (MfArtifactCount (Z.of_nat (length (mf_artifacts m)))) else
  total ← artifacts_loop (mf_artifacts m) ∅ ∅ 0;
  _ ← check_resources m total;
  _ ← require_text "runtime.runtime" (rc_runtime (mf_runtime m)) 1 128;
  _ ← require_text "runtime.abi" (rc_abi (mf_runtime m)) 1 128;
  _ ← check_license (mf_license m);
  check_self_test (mf_self_test m).

Definition manifest_identity (m : ModelPackManifestV1) : PackRevision :=
  {| pr_pack_id := mf_pack_id m; pr_revision := mf_revision m |}.

(** ** The messages of the errors *)

Definition archive_path_error_text (e : ArchivePathError) : str :=
  match e with
  | ApEmpty => lit "path is empty"
  | ApTooLong => lit "path is too long"
  | ApControlCharacter => lit "path contains a control character"
  | ApAbsoluteOrUnc => lit "absolute and UNC paths are forbidden"
  | ApDrivePrefix => lit "drive-prefixed paths are forbidden"
  | ApEmptyComponent => lit "path contains an empty component"
  | ApTraversal => lit "path traversal is forbidden"
  | ApAlternateDataStream => lit "alternate data streams are forbidden"
  | ApTrailingDotOrSpace => lit "component has a trailing dot or space"
  | ApComponentTooLong => lit "component is too long"
  | ApReservedDeviceName c => lit "reserved Windows device name: " ++ c
  | ApInvalidWindowsCharacter => lit "invalid Windows path character"
  end.

Definition manifest_error_text (e : ManifestError) : str :=
  match e with
  | MfInvalidPackId v => lit "invalid pack id: " ++ v
  | MfInvalidRevision v => lit "invalid immutable revision: " ++ v
  | MfInvalidSha256 v => lit "invalid SHA-256 digest: " ++ v
  | MfUnsupportedSchema v => lit "unsupported manifest schema: " ++ v
  | MfMutableSourceRevision v => lit "source revision must be immutable, not " ++ v
  | MfInvalidText v => lit "invalid text field: " ++ v
  | MfArtifactCount n => lit "manifest has invalid artifact count " ++ dec n
  | MfDuplicateArtifactId v => lit "duplicate artifact id: " ++ v
  | MfSourceUrlCount v => lit "artifact " ++ v ++ lit " has an invalid source URL count"
  | MfEmptyArtifact v => lit "artifact " ++ v ++ lit " has zero bytes"
  | MfMissingArchiveFormat v => lit "archive artifact " ++ v ++ lit " is missing its archive format"
  | MfUnexpectedArchiveFormat v => lit "file artifact " ++ v ++ lit " unexpectedly declares an archive format"
  | MfInsecureUrl v => lit "insecure source URL (HTTPS required): " ++ v
  | MfInvalidUrl v => lit "invalid source URL: " ++ v
  | MfUnsafeDestination a s =>
      lit "unsafe destination for artifact " ++ a ++ lit ": " ++ archive_path_error_text s
  | MfUnsafeSelfTestFixture s => lit "unsafe self-test fixture: " ++ archive_path_error_text s
  | MfDuplicateDestination v => lit "duplicate destination: " ++ v
  | MfPackTooLarge => lit "model pack is too large"
  | MfStorageUnderreported d a =>
      lit "storage is underreported: declared " ++ dec d ++ lit ", artifact bytes " ++ dec a
  | MfPeakInstallUnderreported => lit "peak install bytes must be at least storage bytes"
  | MfInvertedHardwareRange w => lit "minimum " ++ w ++ lit " exceeds recommended value"
  | MfIncompleteHardware => lit "hardware requirements are incomplete"
  | MfIncompleteCompatibility => lit "runtime compatibility or language metadata is incomplete"
  | MfAmbiguousRedistributionLicense =>
      lit "redistributable packs cannot have unknown commercial-use permission"
  | MfInvalidSelfTestTimeout n => lit "self-test timeout outside 100ms..300s: " ++ dec n
  | MfInvalidSelfTestBackends => lit "self-test must declare 1 to 16 allowed runtime backends"
  | MfSerialization e => lit "manifest serialization failed: " ++ e
  end.

(** ** Catalogs *)

Definition SIGNED_CATALOG_SCHEMA_V1 : str := Eval vm_compute in lit "npc.model-catalog/v1".

Record CatalogEntryV1 := {
  ce_manifest : ModelPackManifestV1;
  ce_manifest_sha256 : Sha256Digest;
  ce_channels : gset str;
  ce_published_unix_seconds : Z;
  ce_revoked : bool;
  ce_revocation_reason : option str
}.

Record CatalogPayloadV1 := {
  cp_schema : str;
  cp_version : Z;
  cp_generated_unix_seconds : Z;
  cp_expires_unix_seconds : Z;
  cp_entries : list CatalogEntryV1
}.

Record SignedCatalogV1 := { sc_signed : CatalogPayloadV1; sc_signatures : list CatalogSignatureV1 }.

Record CatalogTrustPolicy := {
  ctp_signature_threshold : Z;
  ctp_maximum_lifetime_seconds : Z;
  ctp_maximum_clock_skew_seconds : Z
}.
Definition catalog_trust_policy_default : CatalogTrustPolicy := {|
  ctp_signature_threshold := 2; ctp_maximum_lifetime_seconds := 31 * 24 * 60 * 60;
  ctp_maximum_clock_skew_seconds := 10 * 60 |}.

Record CatalogTrustState := {
  cts_highest_version : Z;
  cts_accepted_payload_sha256 : option Sha256Digest;
  cts_immutable_revisions : gmap PackRevision Sha256Digest
}.
Definition catalog_trust_state_default : CatalogTrustState := {|
  cts_highest_version := 0; cts_accepted_payload_sha256 := None; cts_immutable_revisions := ∅ |}.

Record TrustedCatalog := {
  tc_payload : CatalogPayloadV1;
  tc_entries : gmap PackRevision CatalogEntryV1;
  tc_payload_digest : Sha256Digest
}.

Inductive CatalogError :=
| CatUnsupportedSchema (schema : str)
| CatZeroThreshold
| CatRollback (trusted received : Z)
| CatGeneratedInFuture
| CatExpired
| CatInvalidLifetime
| CatVersionEquivocation (version : Z)
| CatSignatureThreshold (required valid : Z)
| CatEntriesNotStrictlySorted
| CatManifest (error : ManifestError)
| CatManifestDigestMismatch (identity : PackRevision)
| CatImmutableRevisionChanged (identity : PackRevision)
| CatRevocationWithoutReason (identity : PackRevision)
| CatUnknownRevision
| CatRevoked (reason : str)
| CatSerialization (error : str).

Definition installable_entry (identity : PackRevision) (c : TrustedCatalog)
    : result CatalogError CatalogEntryV1 :=
  entry ← ok_or (tc_entries c !! identity) CatUnknownRevision;
  if ce_revoked entry then
    Err (CatRevoked (default (lit "no reason supplied") (ce_revocation_reason entry)))
  else Ok entry.

(** ** Selections *)

Definition API_FIRST_SELECTION_POLICY_V1 : str := Eval vm_compute in lit "npc.model-selection/api-first-v1".
Definition MEASURED_LOCAL_SELECTION_POLICY_V1 : str :=
  Eval vm_compute in lit "npc.model-selection/measured-local-v1".

Inductive PackSelectionOriginV1 :=
| ExplicitUser | AutomaticRecommendation | DefaultSelection | DependencyResolution | SelectionMigration.
#[export] Instance PackSelectionOriginV1_eq_dec : EqDecision PackSelectionOriginV1.
Proof. solve_decision. Defined.

Inductive PackSelectionActionV1 := InstallOnly | InstallAndActivate.
#[export] Instance PackSelectionActionV1_eq_dec : EqDecision PackSelectionActionV1.
Proof. solve_decision. Defined.

Record PackSelectionRequestV1 := {
  sr_selection_id : str;
  sr_origin : PackSelectionOriginV1;
  sr_action : PackSelectionActionV1;
  sr_selected_unix_seconds : Z
}.

(** Its fields are private: the code makes one in [authorize] only. *)
Record PackSelectionAuthorizationV1 := {
  sa_policy : str;
  sa_identity : PackRevision;
  sa_manifest_sha256 : Sha256Digest;
  sa_kind : ModelPackKindV1;
  sa_scope : ModelPackScopeV1;
  sa_selection_id : str;
  sa_selected_unix_seconds : Z;
  sa_activation_allowed : bool;
  sa_fit_evidence_sha256 : option Sha256Digest;
  sa_artifacts : gmap str (Z * Sha256Digest)
}.

Inductive PackSelectionError :=
| SelManifest (error : str)
| SelExplicitUserSelectionRequired (origin : PackSelectionOriginV1)
| SelLocalInferenceKindBlocked (kind : ModelPackKindV1)
| SelGenericLipSyncRequired
| SelGenericPackRequired
| SelIncompleteLoadoutFitEvidence
| SelLoadoutAdmissionDoesNotCoverManifest
| SelInvalidSelectionId
| SelAuthorizationMismatch
| SelArtifactAuthorizationMismatch
| SelAuthorizationOutsideApiFirstPolicy
| SelActivationNotAuthorized.

Definition LOCAL_KINDS : list ModelPackKindV1 :=
  [KindLanguageModel; KindSpeechRecognition; KindSpeechSynthesis; KindEmbedding; KindVision; KindLipSync].

Definition validate_policy_scope_and_kind (policy : str) (kind : ModelPackKindV1) (scope : ModelPackScopeV1)
    : result PackSelectionError unit :=
  if str_eqb policy API_FIRST_SELECTION_POLICY_V1 then
    if negb (bool_decide (scope = ScopeGeneric)) then Err SelGenericLipSyncRequired else
    if bool_decide (kind = KindLipSync) then Ok tt else Err SelAuthorizationOutsideApiFirstPolicy
  else if str_eqb policy MEASURED_LOCAL_SELECTION_POLICY_V1 then
    if negb (bool_decide (scope = ScopeGeneric)) then Err SelGenericPackRequired else
    if bool_decide (kind ∈ LOCAL_KINDS) then Ok tt else Err (SelLocalInferenceKindBlocked kind)
  else Err SelAuthorizationMismatch.

Definition validate_selection_id (value : str) : result PackSelectionError unit :=
  ensure ((8 <=? str_len value) && (str_len value <=? 128) && forallb is_token_char value)
    SelInvalidSelectionId.

(** [collect] into a [BTreeMap]: of two entries with one key the last stays. *)
Definition btree_collect {A} (l : list (str * A)) : gmap str A := foldl (λ m p, <[p.1 := p.2]> m) ∅ l.

Definition selected_artifacts (m : ModelPackManifestV1) : gmap str (Z * Sha256Digest) :=
  btree_collect ((λ a, (ar_id a, (ar_size_bytes a, ar_sha256 a))) <$> mf_artifacts m).

Definition validate_download_artifact (identity : PackRevision) (artifact : ArtifactV1)
    (s : PackSelectionAuthorizationV1) : result PackSelectionError unit :=
  if negb (bool_decide (sa_identity s = identity)) then Err SelAuthorizationMismatch else
  _ ← validate_policy_scope_and_kind (sa_policy s) (sa_kind s) (sa_scope s);
  ensure (bool_decide (sa_artifacts s !! ar_id artifact = Some (ar_size_bytes artifact, ar_sha256 artifact)))
    SelArtifactAuthorizationMismatch.

(** ** Self-test challenges and attestations *)

Definition SELF_TEST_ATTESTATION_SCHEMA_V1 : str := Eval vm_compute in lit "npc.self-test-attestation/v1".
Definition SELF_TEST_CHALLENGE_SCHEMA_V1 : str := Eval vm_compute in lit "npc.self-test-challenge/v1".
Definition MAX_SELF_TEST_ATTESTATION_LIFETIME_SECONDS : Z := 15 * 60.

Inductive CatalogTrustDomainV1 := ReleaseThreshold | LocalReviewDevOnly.
#[export] Instance CatalogTrustDomainV1_eq_dec : EqDecision CatalogTrustDomainV1.
Proof. solve_decision. Defined.

Record CatalogInstallBindingV1 := {
  cb_catalog_payload_sha256 : Sha256Digest;
  cb_catalog_version : Z;
  cb_trust_domain : CatalogTrustDomainV1
}.
#[export] Instance CatalogInstallBindingV1_eq_dec : EqDecision CatalogInstallBindingV1.
Proof. solve_decision. Defined.

(** [StagedContentBindingV1] ([lifecycle.rs]). *)
Record StagedContentBindingV1 := {
  sb_identity : PackRevision;
  sb_transaction_id : str;
  sb_manifest_sha256 : Sha256Digest;
  sb_content_tree_sha256 : Sha256Digest;
  sb_file_count : Z;
  sb_total_file_bytes : Z
}.
#[export] Instance StagedContentBindingV1_eq_dec : EqDecision StagedContentBindingV1.
Proof. solve_decision. Defined.

Record SelfTestChallengeV1 := {
  ch_schema : str;
  ch_identity : PackRevision;
  ch_manifest_sha256 : Sha256Digest;
  ch_catalog : CatalogInstallBindingV1;
  ch_staged : StagedContentBindingV1;
  ch_runtime_abi : str;
  ch_runtime_backend : str;
  ch_test_suite_id : str;
  ch_test_suite_revision : str;
  ch_nonce : str;
  ch_issued_unix_seconds : Z;
  ch_expires_unix_seconds : Z
}.
#[export] Instance SelfTestChallengeV1_eq_dec : EqDecision SelfTestChallengeV1.
Proof. solve_decision. Defined.

Record AttestedSelfTestOutcomeV1 := {
  ao_passed : bool;
  ao_duration_millis : Z;
  ao_output_sha256 : option Sha256Digest;
  ao_diagnostic_code : option str
}.

Record SelfTestAttestationPayloadV1 := {
  ap_schema : str;
  ap_challenge : SelfTestChallengeV1;
  ap_runner_id : str;
  ap_outcome : AttestedSelfTestOutcomeV1
}.

Record AttestationProofV1 := { apr_algorithm : str; apr_value : str }.
Record SelfTestAttestationV1 := { at_signed : SelfTestAttestationPayloadV1; at_proof : AttestationProofV1 }.
Record VerifiedRunnerIdentity := { vr_runner_id : str; vr_trust_revision : str }.

Inductive AttestationVerificationError :=
| UnknownRunner | InvalidProof | UnsupportedAlgorithm | VerifierFailure (error : str).

(** [SelfTestAttestationVerifier]: a function of the claimed runner, the proof and the bytes. *)
Definition SelfTestAttestationVerifier : Type :=
  str → AttestationProofV1 → list Z → result AttestationVerificationError VerifiedRunnerIdentity.

Inductive AttestationError :=
| AtUnsupportedChallengeSchema (schema : str)
| AtInvalidNonce
| AtInvalidLifetime
| AtInvalidToken (label : str)
| AtRandom (error : str).

Definition is_challenge_token_char (c : char) : bool := is_token_char c || (c =? 58).
Definition validate_challenge_token (label : string) (value : str) (maximum : Z)
    : result AttestationError unit :=
  ensure (negb (str_is_empty value || (maximum <? str_len value)
                || negb (forallb is_challenge_token_char value))) (AtInvalidToken (lit label)).

Definition is_lowercase_hex (c : char) : bool :=
  is_hexdigit c && negb ((65 <=? c) && (c <=? 90)).
Definition validate_challenge (c : SelfTestChallengeV1) : result AttestationError unit :=
  if negb (str_eqb (ch_schema c) SELF_TEST_CHALLENGE_SCHEMA_V1) then
    Err (AtUnsupportedChallengeSchema (ch_schema c)) else
  if negb (str_len (ch_nonce c) =? 64) || negb (forallb is_lowercase_hex (ch_nonce c)) then
    Err AtInvalidNonce else
  if (ch_expires_unix_seconds c <=? ch_issued_unix_seconds c)
     || (MAX_SELF_TEST_ATTESTATION_LIFETIME_SECONDS
         <? ch_expires_unix_seconds c - ch_issued_unix_seconds c) then Err AtInvalidLifetime else
  _ ← validate_challenge_token "runtime backend" (ch_runtime_backend c) 128;
  _ ← validate_challenge_token "test suite id" (ch_test_suite_id c) 128;
  validate_challenge_token "test suite revision" (ch_test_suite_revision c) 128.

(** ** What is digested

    The bytes [serde_json::to_vec] makes of each structure. *)

Class PackApi := {
  manifest_to_vec : ModelPackManifestV1 → result str (list Z);
  canonical_catalog_payload_bytes : CatalogPayloadV1 → result str (list Z);
  admission_to_vec : LoadoutAdmissionV1 → result str (list Z);
  canonical_attestation_payload_bytes : SelfTestAttestationPayloadV1 → result str (list Z);
  attestation_to_vec : SelfTestAttestationV1 → result str (list Z);
  replay_to_vec : PackRevision * str * str → result str (list Z)
}.

Section packs.
Context `{CatalogApi, PackApi}.

Definition manifest_digest (m : ModelPackManifestV1) : result ManifestError Sha256Digest :=
  _ ← manifest_validate m;
  encoded ← map_err MfSerialization (manifest_to_vec m);
  Ok (sha256_of_bytes encoded).

(** The loop over the entries of a catalog. *)
Fixpoint catalog_entries_loop (entries : list CatalogEntryV1) (previous : option PackRevision)
    (map : gmap PackRevision CatalogEntryV1) (immutable : gmap PackRevision Sha256Digest)
    : result CatalogError (gmap PackRevision CatalogEntryV1 * gmap PackRevision Sha256Digest) :=
  match entries with
  | [] => Ok (map, immutable)
  | entry :: entries =>
      _ ← map_err CatManifest (manifest_validate (ce_manifest entry));
      let identity := manifest_identity (ce_manifest entry) in
      if is_some_and previous (λ p, negb (bool_decide (ocmp p identity = Lt))) then
        Err CatEntriesNotStrictlySorted else
      actual ← map_err CatManifest (manifest_digest (ce_manifest entry));
      if negb (str_eqb actual (ce_manifest_sha256 entry)) then Err (CatManifestDigestMismatch identity) else
      if is_some_and (immutable !! identity) (λ trusted, negb (str_eqb trusted actual)) then
        Err (CatImmutableRevisionChanged identity) else
      let immutable := match immutable !! identity with Some _ => immutable | None => <[identity := actual]> immutable end in
      if ce_revoked entry && is_blank (default [] (ce_revocation_reason entry)) then
        Err (CatRevocationWithoutReason identity) else
      catalog_entries_loop entries (Some identity) (<[identity := entry]> map) immutable
  end.

Definition verify_catalog (catalog : SignedCatalogV1) (policy : CatalogTrustPolicy)
    (prior : CatalogTrustState) (now_unix_seconds : Z)
    : result CatalogError (TrustedCatalog * CatalogTrustState) :=
  let p := sc_signed catalog in
  if negb (str_eqb (cp_schema p) SIGNED_CATALOG_SCHEMA_V1) then Err (CatUnsupportedSchema (cp_schema p)) else
  if ctp_signature_threshold policy =? 0 then Err CatZeroThreshold else
  if cp_version p <? cts_highest_version prior then
    Err (CatRollback (cts_highest_version prior) (cp_version p)) else
  if sat_add64 now_unix_seconds (ctp_maximum_clock_skew_seconds policy) <? cp_generated_unix_seconds p then
    Err CatGeneratedInFuture else
  if cp_expires_unix_seconds p <=? now_unix_seconds then Err CatExpired else
  if cp_expires_unix_seconds p <? cp_generated_unix_seconds p then Err CatInvalidLifetime else
  if ctp_maximum_lifetime_seconds policy <? cp_expires_unix_seconds p - cp_generated_unix_seconds p then
    Err CatInvalidLifetime else
  message ← map_err CatSerialization (canonical_catalog_payload_bytes p);
  let payload_digest := sha256_of_bytes message in
  if (cp_version p =? cts_highest_version prior) && negb (cts_highest_version prior =? 0)
     && negb (bool_decide (cts_accepted_payload_sha256 prior = Some payload_digest)) then
    Err (CatVersionEquivocation (cp_version p)) else
  let valid := Z.of_nat (size (accepted_keys message (sc_signatures catalog))) in
  if valid <? ctp_signature_threshold policy then
    Err (CatSignatureThreshold (ctp_signature_threshold policy) valid) else
  found ← catalog_entries_loop (cp_entries p) None ∅ (cts_immutable_revisions prior);
  Ok ({| tc_payload := p; tc_entries := found.1; tc_payload_digest := payload_digest |},
      {| cts_highest_version := cp_version p; cts_accepted_payload_sha256 := Some payload_digest;
         cts_immutable_revisions := found.2 |}).

Definition selection_manifest_error {A} (r : result ManifestError A) : result PackSelectionError A :=
  map_err (λ e, SelManifest (manifest_error_text e)) r.

Definition validate_for_manifest (m : ModelPackManifestV1) (s : PackSelectionAuthorizationV1)
    : result PackSelectionError unit :=
  if negb (bool_decide (sa_identity s = manifest_identity m)) then Err SelAuthorizationMismatch else
  digest ← selection_manifest_error (manifest_digest m);
  if negb (str_eqb (sa_manifest_sha256 s) digest)
     || negb (bool_decide (sa_kind s = mc_kind (mf_capability m)))
     || negb (bool_decide (sa_scope s = mc_scope (mf_capability m))) then Err SelAuthorizationMismatch else
  _ ← validate_policy_scope_and_kind (sa_policy s) (sa_kind s) (sa_scope s);
  _ ← validate_selection_id (sa_selection_id s);
  if str_eqb (sa_policy s) MEASURED_LOCAL_SELECTION_POLICY_V1 && sa_activation_allowed s then
    _ ← ok_or (sa_fit_evidence_sha256 s) SelIncompleteLoadoutFitEvidence; Ok tt
  else Ok tt.

Definition selection_of (policy : str) (m : ModelPackManifestV1) (digest : Sha256Digest)
    (request : PackSelectionRequestV1) (fit : option Sha256Digest) : PackSelectionAuthorizationV1 := {|
  sa_policy := policy; sa_identity := manifest_identity m; sa_manifest_sha256 := digest;
  sa_kind := mc_kind (mf_capability m); sa_scope := mc_scope (mf_capability m);
  sa_selection_id := sr_selection_id request;
  sa_selected_unix_seconds := sr_selected_unix_seconds request;
  sa_activation_allowed := bool_decide (sr_action request = InstallAndActivate);
  sa_fit_evidence_sha256 := fit; sa_artifacts := selected_artifacts m |}.

(** [ApiFirstPackSelectionPolicyV1::authorize]. *)
Definition api_first_authorize (m : ModelPackManifestV1) (request : PackSelectionRequestV1)
    : result PackSelectionError PackSelectionAuthorizationV1 :=
  _ ← selection_manifest_error (manifest_validate m);
  _ ← validate_selection_id (sr_selection_id request);
  if negb (bool_decide (sr_origin request = ExplicitUser)) then
    Err (SelExplicitUserSelectionRequired (sr_origin request)) else
  if negb (bool_decide (mc_kind (mf_capability m) = KindLipSync)) then
    Err (SelLocalInferenceKindBlocked (mc_kind (mf_capability m))) else
  if negb (bool_decide (mc_scope (mf_capability m) = ScopeGeneric)) then Err SelGenericLipSyncRequired else
  digest ← selection_manifest_error (manifest_digest m);
  Ok (selection_of API_FIRST_SELECTION_POLICY_V1 m digest request None).

(** [LoadoutAdmissionV1::digest]. *)
Definition admission_digest (a : LoadoutAdmissionV1) : result str Sha256Digest :=
  bytes ← admission_to_vec a; Ok (sha256_of_bytes bytes).

(** The evidence that the loadout fits, which activation needs. *)
Definition fit_evidence (m : ModelPackManifestV1) (action : PackSelectionActionV1)
    (fit : option LoadoutAdmissionV1) : result PackSelectionError (option Sha256Digest) :=
  if bool_decide (action = InstallAndActivate) then
    admission ← ok_or fit SelIncompleteLoadoutFitEvidence;
    digest ← selection_manifest_error (manifest_digest m);
    if negb (validates_manifest (manifest_identity m) digest admission) then
      Err SelLoadoutAdmissionDoesNotCoverManifest else
    evidence ← map_err (λ _, SelIncompleteLoadoutFitEvidence) (admission_digest admission);
    Ok (Some evidence)
  else Ok None.

(** [MeasuredLocalPackSelectionPolicyV1::authorize]. *)
Definition measured_local_authorize (m : ModelPackManifestV1) (request : PackSelectionRequestV1)
    (fit : option LoadoutAdmissionV1) : result PackSelectionError PackSelectionAuthorizationV1 :=
  _ ← selection_manifest_error (manifest_validate m);
  _ ← validate_selection_id (sr_selection_id request);
  if negb (bool_decide (sr_origin request = ExplicitUser)) then
    Err (SelExplicitUserSelectionRequired (sr_origin request)) else
  _ ← validate_policy_scope_and_kind MEASURED_LOCAL_SELECTION_POLICY_V1
        (mc_kind (mf_capability m)) (mc_scope (mf_capability m));
  evidence ← fit_evidence m (sr_action request) fit;
  digest ← selection_manifest_error (manifest_digest m);
  Ok (selection_of MEASURED_LOCAL_SELECTION_POLICY_V1 m digest request evidence).

(** [attestation_digest] and [attestation_replay_key]. *)
Definition attestation_digest (a : SelfTestAttestationV1) : result str Sha256Digest :=
  bytes ← attestation_to_vec a; Ok (sha256_of_bytes bytes).

Definition unwrap_or_default (r : result str (list Z)) : list Z := match r with Ok bytes => bytes | Err _ => [] end.
Definition attestation_replay_key (identity : PackRevision) (runner_id nonce : str) : Sha256Digest :=
  sha256_of_bytes (lit "npc-self-test-replay-key-v1" ++ [0] ++ unwrap_or_default (replay_to_vec (identity, runner_id, nonce))).
End packs.

(** * What a manifest is *)

Definition text_ok (min max : Z) (value : str) : Prop := min ≤ str_len (trim value) ≤ max ∧ 0 ∉ value.

(** Characters by their code points. *)
Definition digit_char (c : char) : Prop := 48 ≤ c ≤ 57.
Definition lower_char (c : char) : Prop := 97 ≤ c ≤ 122.
Definition upper_char (c : char) : Prop := 65 ≤ c ≤ 90.

(** Letters, digits, [.], [-] and [_]. *)
Definition token_value_ok (min max : Z) (value : str) : Prop :=
  min ≤ str_len value ≤ max ∧
  Forall (λ c, lower_char c ∨ upper_char c ∨ digit_char c ∨ c = 46 ∨ c = 45 ∨ c = 95) value.

(** A pack is named by lower-case words and digits between single [-] and [.]. *)
Record pack_id_ok (id : str) : Prop := {
  pi_length : 3 ≤ str_len id ≤ 96;
  pi_chars : Forall (λ c, lower_char c ∨ digit_char c ∨ c = 45 ∨ c = 46) id;
  pi_first : ∃ c, head id = Some c ∧ (lower_char c ∨ digit_char c);
  pi_last : ∃ c, last id = Some c ∧ (lower_char c ∨ digit_char c);
  pi_separators : ∀ a b, id ≠ a ++ lit ".." ++ b ∧ id ≠ a ++ lit ".-" ++ b ∧ id ≠ a ++ lit "-." ++ b
}.

(** A revision: letters, digits, [.], [-], [_] and [+]; it is not the name of a directory.
    Any such word is accepted, [latest] included. *)
Record revision_ok (revision : str) : Prop := {
  re_length : 1 ≤ str_len revision ≤ 128;
  re_chars : Forall (λ c, lower_char c ∨ upper_char c ∨ digit_char c ∨ c = 46 ∨ c = 45 ∨ c = 95 ∨ c = 43) revision;
  re_names : revision ≠ lit "." ∧ revision ≠ lit ".."
}.

(** An address over TLS: a host follows the scheme, without user information or white space. *)
Definition secure_url (url : str) : Prop :=
  ∃ rest, url = lit "https://" ++ rest ∧ rest ≠ [] ∧ head rest ≠ Some 47 ∧ 64 ∉ rest ∧
    Forall (λ c, is_whitespace c = false) rest.

Record artifact_ok (a : ArtifactV1) : Prop := {
  ao_id : token_value_ok 1 128 (ar_id a);
  ao_urls : 1 ≤ Z.of_nat (length (ar_source_urls a)) ≤ 8 ∧ Forall secure_url (ar_source_urls a);
  ao_size : ar_size_bytes a ≠ 0;
  ao_format : ar_kind a = KindArchive ↔ ar_archive_format a ≠ None;
  ao_destination : ∃ path, archive_path (ar_destination a) path;
  ao_prefix : ∀ prefix, ar_strip_prefix a = Some prefix → ar_kind a = KindArchive ∧ ∃ path, archive_path prefix path;
  ao_required : ar_required_paths a ≠ [] → ar_kind a = KindArchive ∧ Z.of_nat (length (ar_required_paths a)) ≤ 1024 ∧
    ∃ paths, Forall2 archive_path (ar_required_paths a) paths ∧ NoDup (ascii_lowercase <$> paths)
}.

Definition artifact_bytes (m : ModelPackManifestV1) : Z := foldr (λ a n, ar_size_bytes a + n) 0 (mf_artifacts m).

Record well_formed_manifest (m : ModelPackManifestV1) : Prop := {
  wm_schema : mf_schema m = MODEL_PACK_MANIFEST_SCHEMA_V1;
  wm_pack_id : pack_id_ok (mf_pack_id m);
  wm_revision : revision_ok (mf_revision m);
  wm_texts : text_ok 1 160 (mf_display_name m) ∧ text_ok 1 4096 (mf_description m) ∧
    text_ok 1 512 (mf_source_project m) ∧ text_ok 1 256 (mf_source_revision m);
  wm_immutable_source : ascii_lowercase (mf_source_revision m) ∉ MUTABLE_REVISIONS;
  wm_count : 1 ≤ Z.of_nat (length (mf_artifacts m)) ≤ MAX_ARTIFACTS;
  wm_artifacts : Forall artifact_ok (mf_artifacts m);
  wm_ids : NoDup ((λ a, ascii_lowercase (ar_id a)) <$> mf_artifacts m);
  wm_destinations : NoDup (destination_key <$> mf_artifacts m);
  wm_sizes : artifact_bytes m ≤ rv_storage_bytes (mf_resources m) ≤ MAX_PACK_BYTES ∧
    rv_storage_bytes (mf_resources m) ≤ rv_peak_install_bytes (mf_resources m);
  wm_ram : hw_minimum_ram_bytes (mf_hardware m) ≤ hw_recommended_ram_bytes (mf_hardware m);
  wm_vram : ∀ minimum recommended, hw_minimum_vram_bytes (mf_hardware m) = Some minimum →
    hw_recommended_vram_bytes (mf_hardware m) = Some recommended → minimum ≤ recommended;
  wm_hardware : hw_minimum_cpu_threads (mf_hardware m) ≠ 0 ∧ hw_accelerators (mf_hardware m) ≠ ∅;
  wm_platforms : rc_supported_platforms (mf_runtime m) ≠ ∅ ∧ rc_supported_architectures (mf_runtime m) ≠ ∅ ∧
    rv_languages (mf_resources m) ≠ ∅;
  wm_runtime : text_ok 1 128 (rc_runtime (mf_runtime m)) ∧ text_ok 1 128 (rc_abi (mf_runtime m));
  wm_license : text_ok 1 256 (li_license_name (mf_license m)) ∧ secure_url (li_license_url (mf_license m)) ∧
    text_ok 1 8192 (li_attribution (mf_license m)) ∧
    (li_redistributable (mf_license m) = true → li_commercial_use (mf_license m) ≠ LicenseUnknown);
  wm_test : token_value_ok 1 64 (stt_kind (mf_self_test m)) ∧ token_value_ok 1 128 (stt_suite_revision (mf_self_test m));
  wm_backends : 1 ≤ Z.of_nat (size (stt_allowed_runtime_backends (mf_self_test m))) ≤ 16 ∧
    set_Forall (token_value_ok 1 128) (stt_allowed_runtime_backends (mf_self_test m));
  wm_fixture : ∃ path, archive_path (stt_input_fixture (mf_self_test m)) path;
  wm_timeout : 100 ≤ stt_timeout_millis (mf_self_test m) ≤ 300000
}.

Lemma require_text_Ok field value min max : require_text field value min max = Ok tt ↔ text_ok min max value.
Proof.
  unfold require_text, text_ok.
  rewrite ensure_Ok, !andb_true_iff, negb_true_iff, existsb_eqb_false, !Z.leb_le. naive_solver.
Qed.

Lemma is_lower_char c : is_ascii_lowercase c = true ↔ lower_char c.
Proof. unfold is_ascii_lowercase, lower_char. lia. Qed.
Lemma is_digit_char c : is_ascii_digit c = true ↔ digit_char c.
Proof. unfold is_ascii_digit, digit_char. lia. Qed.
Lemma is_alphabetic_char c : is_ascii_alphabetic c = true ↔ lower_char c ∨ upper_char c.
Proof. unfold is_ascii_alphabetic, lower_char, upper_char. lia. Qed.
Lemma is_token_char_spec c : is_token_char c = true ↔
  lower_char c ∨ upper_char c ∨ digit_char c ∨ c = 46 ∨ c = 45 ∨ c = 95.
Proof.
  unfold is_token_char. rewrite !orb_true_iff, is_alphabetic_char, is_digit_char, !Z.eqb_eq. tauto.
Qed.

Lemma str_contains_false p s : str_contains p s = false ↔ ∀ a b, s ≠ a ++ p ++ b.
Proof.
  rewrite <-not_true_iff_false, str_contains_spec. split.
  - intros Hn a b Hs. apply Hn. by exists a, b.
  - intros Hn (a&b&Hs). by apply (Hn a b).
Qed.

Lemma is_some_and_iff {A} (o : option A) (f : A → bool) : is_some_and o f = true ↔ ∃ x, o = Some x ∧ f x = true.
Proof. destruct o; cbn; naive_solver. Qed.

Lemma valid_pack_id_iff id : valid_pack_id id = true ↔ pack_id_ok id.
Proof.
  unfold valid_pack_id. rewrite !andb_true_iff, !negb_true_iff, !str_contains_false, forallb_Forall,
    !is_some_and_iff, !Z.leb_le.
  assert (∀ c, is_pack_id_char c = true ↔ lower_char c ∨ digit_char c ∨ c = 45 ∨ c = 46) as Hc.
  { intros c. unfold is_pack_id_char. rewrite !orb_true_iff, is_lower_char, is_digit_char, !Z.eqb_eq. tauto. }
  assert (∀ c, c ∈ id → Forall (λ c, lower_char c ∨ digit_char c ∨ c = 45 ∨ c = 46) id →
    is_ascii_alphanumeric c = true ↔ lower_char c ∨ digit_char c) as Han.
  { intros c Hin Hall. rewrite Forall_forall in Hall. specialize (Hall c Hin). unfold is_ascii_alphanumeric.
    rewrite orb_true_iff, is_alphabetic_char, is_digit_char. unfold lower_char, upper_char, digit_char in *. lia. }
  assert (Forall (λ c, is_pack_id_char c = true) id ↔
    Forall (λ c, lower_char c ∨ digit_char c ∨ c = 45 ∨ c = 46) id) as -> by by apply Forall_iff.
  assert (∀ c, head id = Some c → c ∈ id) as Hhead by (intros c; destruct id; [done|intros [= ->]; by left]).
  assert (∀ c, last id = Some c → c ∈ id) as Hlast by (intros c ?; by apply last_Some_elem_of).
  split.
  - intros (((((((?&?)&Hall)&(a&Ha&?))&(b&Hb&?))&?)&?)&?). split; [done|done| | |done].
    + exists a. split; [done|]. by apply Han; [apply Hhead|..].
    + exists b. split; [done|]. by apply Han; [apply Hlast|..].
  - intros [[??] Hall (a&Ha&?) (b&Hb&?) Hsep]. repeat split; try done.
    + exists a. split; [done|]. by apply Han; [apply Hhead|..].
    + exists b. split; [done|]. by apply Han; [apply Hlast|..].
    + intros x y. apply Hsep.
    + intros x y. apply Hsep.
    + intros x y. apply Hsep.
Qed.

Lemma valid_revision_iff revision : valid_revision revision = true ↔ revision_ok revision.
Proof.
  unfold valid_revision, str_eqb. rewrite !andb_true_iff, !negb_true_iff, !bool_decide_eq_false, forallb_Forall, !Z.leb_le.
  assert (Forall (λ c, is_revision_char c = true) revision ↔
    Forall (λ c, lower_char c ∨ upper_char c ∨ digit_char c ∨ c = 46 ∨ c = 45 ∨ c = 95 ∨ c = 43) revision) as ->.
  { apply Forall_iff. intros c. unfold is_revision_char, is_ascii_alphanumeric.
    rewrite !orb_true_iff, is_alphabetic_char, is_digit_char, !Z.eqb_eq. tauto. }
  split; [intros ((((?&?)&?)&?)&?); by split|intros [[??] ? [??]]; done].
Qed.

Lemma require_token_Ok field value min max : require_token field value min max = Ok tt ↔ token_value_ok min max value.
Proof.
  unfold require_token, token_value_ok. rewrite ensure_Ok, !andb_true_iff, forallb_Forall, !Z.leb_le.
  by setoid_rewrite is_token_char_spec.
Qed.

Lemma validate_pack_url_Ok url : validate_pack_url url = Ok tt ↔ secure_url url.
Proof.
  unfold validate_pack_url, secure_url. destruct (strip_prefix _ url) as [rest|] eqn:E.
  - apply strip_prefix_Some in E as ->. rewrite ensure_Ok, negb_true_iff, !orb_false_iff, existsb_eqb_false, existsb_false_iff.
    assert (str_is_empty rest = false ↔ rest ≠ []) as -> by by destruct rest.
    assert (text_starts_with (lit "/") rest = false ↔ head rest ≠ Some 47) as ->.
    { destruct rest as [|c rest]; [done|]. change (lit "/") with [47]. unfold text_starts_with. cbn [strip_prefix head].
      destruct (Z.eqb_spec 47 c); naive_solver. }
    split; [intros [[[??]?]?]; by exists rest|]. intros (rest'&Heq%app_inv_head&?&?&?&?). by subst.
  - split; [done|]. intros (rest&->&_). by rewrite (proj2 (strip_prefix_Some _ _ rest)) in E.
Qed.

Lemma unsafe_destination_Ok id input path : unsafe_destination id input = Ok path ↔ archive_path input path.
Proof. unfold unsafe_destination. by rewrite map_err_Ok, validate_path_Ok. Qed.

Lemma required_loop_Ok id paths required :
  required_loop id paths required = Ok tt ↔
  ∃ found, Forall2 archive_path paths found ∧ NoDup (ascii_lowercase <$> found) ∧
    Forall (λ p, ascii_lowercase p ∉ required) found.
Proof.
  revert required. induction paths as [|input paths IH]; intros required; cbn [required_loop].
  { split; [intros _; exists []; by repeat constructor|done]. }
  rewrite bind_Ok. setoid_rewrite unsafe_destination_Ok. setoid_rewrite if_err_Ok. setoid_rewrite IH.
  setoid_rewrite bool_decide_eq_false. split.
  - intros (path&Hpath&Hnew&found&Hf&Hnd&Hreq). exists (path :: found). split; [by constructor|].
    rewrite Forall_forall in Hreq. cbn. split; [constructor; [|done]|constructor; [done|]].
    + intros (p&Ep&Hp)%list_elem_of_fmap. apply (Hreq p Hp). rewrite <-Ep. set_solver.
    + apply Forall_forall. intros p Hp. specialize (Hreq p Hp). set_solver.
  - intros (found&Hf&Hnd&Hreq). destruct found as [|path found]; [by inversion Hf|].
    apply Forall2_cons in Hf as [Hpath Hf]. cbn in Hnd. apply NoDup_cons in Hnd as [Hnin Hnd].
    apply Forall_cons in Hreq as [Hnew Hreq]. exists path. split; [done|]. split; [done|]. exists found.
    split; [done|]. split; [done|]. rewrite Forall_forall in Hreq |- *. intros p Hp.
    rewrite not_elem_of_union, not_elem_of_singleton. split; [|by apply Hreq].
    intros Ep. apply Hnin. rewrite <-Ep. apply list_elem_of_fmap. by exists p.
Qed.

Lemma kind_archive_or_file (k : ArtifactKind) : negb (bool_decide (k = KindArchive)) = false ↔ k = KindArchive.
Proof. by destruct k. Qed.

Lemma check_artifact_Ok a :
  require_token "artifact.id" (ar_id a) 1 128 = Ok tt ∧ check_artifact_source a = Ok tt ∧ check_artifact_paths a = Ok tt
  ↔ artifact_ok a.
Proof.
  unfold check_artifact_source, check_artifact_paths.
  rewrite require_token_Ok, if_err_Ok, orb_false_iff, Z.eqb_neq, Z.ltb_ge, bind_unit_Ok, check_all_Ok, if_err_Ok, Z.eqb_neq.
  rewrite bind_Ok. setoid_rewrite unsafe_destination_Ok. setoid_rewrite bind_unit_Ok.
  setoid_rewrite validate_pack_url_Ok.
  assert ((if Z.of_nat (length (ar_required_paths a)) =? 0 then Ok tt else
    if negb (bool_decide (ar_kind a = KindArchive)) || (1024 <? Z.of_nat (length (ar_required_paths a))) then
      Err (MfUnexpectedArchiveFormat (ar_id a)) else required_loop (ar_id a) (ar_required_paths a) ∅) = Ok tt ↔
    (ar_required_paths a ≠ [] → ar_kind a = KindArchive ∧ Z.of_nat (length (ar_required_paths a)) ≤ 1024 ∧
      ∃ paths, Forall2 archive_path (ar_required_paths a) paths ∧ NoDup (ascii_lowercase <$> paths))) as Hreq.
  { destruct (ar_required_paths a) as [|p ps] eqn:E; [done|]. cbn [length]. rewrite (proj2 (Z.eqb_neq _ 0)) by lia.
    rewrite if_err_Ok, orb_false_iff, kind_archive_or_file, Z.ltb_ge, required_loop_Ok. split.
    - intros ([??]&found&?&?&_) _. split; [done|]. split; [done|]. by exists found.
    - intros (?&?&found&?&?); [done|]. split; [done|]. exists found. split; [done|]. split; [done|].
      apply Forall_forall. intros. apply not_elem_of_empty. }
  assert (match ar_strip_prefix a with
          | None => Ok tt
          | Some prefix => if negb (bool_decide (ar_kind a = KindArchive)) then Err (MfUnexpectedArchiveFormat (ar_id a))
                           else _ ← unsafe_destination (ar_id a) prefix; Ok tt end = Ok tt ↔
    (∀ prefix, ar_strip_prefix a = Some prefix → ar_kind a = KindArchive ∧ ∃ path, archive_path prefix path)) as Hpre.
  { destruct (ar_strip_prefix a) as [prefix|]; [|done]. rewrite if_err_Ok, kind_archive_or_file, bind_Ok.
    setoid_rewrite unsafe_destination_Ok. naive_solver. }
  assert (match ar_kind a, ar_archive_format a with
          | KindArchive, None => Err (MfMissingArchiveFormat (ar_id a))
          | KindFile, Some _ => Err (MfUnexpectedArchiveFormat (ar_id a))
          | _, _ => Ok tt end = Ok tt ↔ (ar_kind a = KindArchive ↔ ar_archive_format a ≠ None)) as Hfmt.
  { destruct (ar_kind a), (ar_archive_format a); naive_solver. }
  setoid_rewrite Hreq. setoid_rewrite Hpre. rewrite Hfmt. clear Hreq Hpre Hfmt. split.
  - intros (?&([??]&?&?&?)&path&?&?&?). split; try done; [split; [lia|done]|by exists path].
  - intros [? [??] ?? [path ?] ??]. split; [done|]. split; [by split; [lia|]|]. by exists path.
Qed.

Definition lower_id (a : ArtifactV1) : str := ascii_lowercase (ar_id a).
Definition bytes_of (artifacts : list ArtifactV1) : Z := foldr (λ a n, ar_size_bytes a + n) 0 artifacts.

Lemma bytes_nonneg artifacts : Forall (λ a, 0 ≤ ar_size_bytes a) artifacts → 0 ≤ bytes_of artifacts.
Proof. induction 1 as [|a l Ha _ IH]; cbn; [done|]. fold (bytes_of l). lia. Qed.

(** The keys of a list are new and different, as a set that grows sees it. *)
Lemma fresh_cons {A} (f : A → str) (x : A) (l : list A) (seen : gset str) :
  (f x ∉ seen ∧ NoDup (f <$> l) ∧ Forall (λ y, f y ∉ {[f x]} ∪ seen) l) ↔
  NoDup (f <$> x :: l) ∧ Forall (λ y, f y ∉ seen) (x :: l).
Proof.
  rewrite fmap_cons, NoDup_cons, Forall_cons, !Forall_forall, list_elem_of_fmap. split.
  - intros (Hx&Hnd&Hl). split; [split; [|done]|split; [done|]].
    + intros (y&Ey&Hy). specialize (Hl y Hy). set_solver.
    + intros y Hy. specialize (Hl y Hy). set_solver.
  - intros ([Hn Hnd]&Hx&Hl). split; [done|]. split; [done|]. intros y Hy.
    rewrite not_elem_of_union, not_elem_of_singleton. split; [|by apply Hl]. intros Ey. apply Hn. by exists y.
Qed.

Lemma artifacts_loop_Ok artifacts ids destinations total n :
  Forall (λ a, 0 ≤ ar_size_bytes a) artifacts → 0 ≤ total ≤ u64_max →
  artifacts_loop artifacts ids destinations total = Ok n ↔
  Forall artifact_ok artifacts ∧ (NoDup (lower_id <$> artifacts) ∧ Forall (λ a, lower_id a ∉ ids) artifacts) ∧
  (NoDup (destination_key <$> artifacts) ∧ Forall (λ a, destination_key a ∉ destinations) artifacts) ∧
  n = total + bytes_of artifacts ∧ total + bytes_of artifacts ≤ u64_max.
Proof.
  intros Hs. revert ids destinations total.
  induction Hs as [|a l Ha Hl IH]; intros ids destinations total Ht; cbn [artifacts_loop].
  { change (bytes_of []) with 0. rewrite Z.add_0_r. split; [|naive_solver].
    intros [= <-]. repeat split; try constructor; lia. }
  pose proof (bytes_nonneg l Hl) as Hn. change (bytes_of (a :: l)) with (ar_size_bytes a + bytes_of l).
  rewrite Forall_cons, <-check_artifact_Ok, <-!fresh_cons.
  rewrite bind_unit_Ok, if_err_Ok, bind_unit_Ok, if_err_Ok, bind_unit_Ok, if_err_Ok, !bool_decide_eq_false, Z.ltb_ge.
  fold (lower_id a). split.
  - intros (?&?&?&Hle&?&?&Hrest). apply IH in Hrest as (?&(?&?)&(?&?)&->&?); [|lia].
    do 3 (split; [by repeat split|]). split; lia.
  - intros (((?&?&?)&?)&(?&?&?)&(?&?&?)&->&Hsum). do 3 (split; [done|]). split; [lia|]. do 2 (split; [done|]).
    apply IH; [lia|]. do 3 (split; [done|]). split; lia.
Qed.

Lemma check_resources_Ok m total :
  check_resources m total = Ok tt ↔
  (total ≤ rv_storage_bytes (mf_resources m) ≤ MAX_PACK_BYTES ∧
    rv_storage_bytes (mf_resources m) ≤ rv_peak_install_bytes (mf_resources m)) ∧
  hw_minimum_ram_bytes (mf_hardware m) ≤ hw_recommended_ram_bytes (mf_hardware m) ∧
  (∀ minimum recommended, hw_minimum_vram_bytes (mf_hardware m) = Some minimum →
    hw_recommended_vram_bytes (mf_hardware m) = Some recommended → minimum ≤ recommended) ∧
  (hw_minimum_cpu_threads (mf_hardware m) ≠ 0 ∧ hw_accelerators (mf_hardware m) ≠ ∅) ∧
  rc_supported_platforms (mf_runtime m) ≠ ∅ ∧ rc_supported_architectures (mf_runtime m) ≠ ∅ ∧
  rv_languages (mf_resources m) ≠ ∅.
Proof.
  unfold check_resources. cbv zeta. rewrite !if_err_Ok, !orb_false_iff, !Z.ltb_ge, !bool_decide_eq_false, Z.eqb_neq.
  destruct (hw_minimum_vram_bytes (mf_hardware m)) as [a|], (hw_recommended_vram_bytes (mf_hardware m)) as [b|];
    rewrite ?Z.ltb_ge; intuition (try lia; naive_solver).
Qed.

Lemma check_license_Ok l :
  check_license l = Ok tt ↔
  text_ok 1 256 (li_license_name l) ∧ secure_url (li_license_url l) ∧ text_ok 1 8192 (li_attribution l) ∧
  (li_redistributable l = true → li_commercial_use l ≠ LicenseUnknown).
Proof.
  unfold check_license. rewrite !bind_unit_Ok, !require_text_Ok, validate_pack_url_Ok, ensure_Ok, negb_true_iff, andb_false_iff,
    bool_decide_eq_false. destruct (li_redistributable l); naive_solver.
Qed.

Lemma map_err_is_Ok {E F A} (f : E → F) (r : result E A) : (∃ a, map_err f r = Ok a) ↔ ∃ a, r = Ok a.
Proof. by setoid_rewrite map_err_Ok. Qed.

Lemma check_self_test_Ok t :
  check_self_test t = Ok tt ↔
  (token_value_ok 1 64 (stt_kind t) ∧ token_value_ok 1 128 (stt_suite_revision t)) ∧
  (1 ≤ Z.of_nat (size (stt_allowed_runtime_backends t)) ≤ 16 ∧
    set_Forall (token_value_ok 1 128) (stt_allowed_runtime_backends t)) ∧
  (∃ path, archive_path (stt_input_fixture t) path) ∧ 100 ≤ stt_timeout_millis t ≤ 300000.
Proof.
  unfold check_self_test. rewrite !bind_unit_Ok, !require_token_Ok, if_err_Ok, orb_false_iff, bool_decide_eq_false, Z.ltb_ge,
    bind_unit_Ok, check_all_Ok, bind_Ok. cbv beta.
  assert (stt_allowed_runtime_backends t ≠ ∅ ↔ 1 ≤ Z.of_nat (size (stt_allowed_runtime_backends t))) as ->.
  { pose proof (size_empty_iff (stt_allowed_runtime_backends t)) as He. rewrite leibniz_equiv_iff in He. split.
    - intros Hne. destruct (decide (size (stt_allowed_runtime_backends t) = 0%nat)) as [E|]; [by apply He in E|lia].
    - intros Hle E%He. lia. }
  assert (Forall (λ x, require_token "self_test.runtime_backend" x 1 128 = Ok tt)
    (sort_by ocmp (elements (stt_allowed_runtime_backends t))) ↔
    set_Forall (token_value_ok 1 128) (stt_allowed_runtime_backends t)) as ->.
  { rewrite sort_by_perm, Forall_forall. unfold set_Forall. setoid_rewrite elem_of_elements.
    by setoid_rewrite require_token_Ok. }
  setoid_rewrite map_err_Ok. setoid_rewrite validate_path_Ok. setoid_rewrite ensure_Ok.
  setoid_rewrite andb_true_iff. setoid_rewrite Z.leb_le.
  naive_solver.
Qed.

(** C37: A manifest is accepted exactly when it is well formed, every clause stated: a pack
    identifier of single lower-case words, a revision and tokens of the characters allowed
    (any such word serves as the pack's own revision), bounded texts, a source revision that
    is none of the moving names, artifacts with unique names and
    destinations, secure addresses and paths that are safe to extract, truthful sizes,
    consistent requirements, a license and a bounded self-test. *)
Theorem manifest_validate_exact m :
  Forall (λ a, 0 ≤ ar_size_bytes a) (mf_artifacts m) →
  manifest_validate m = Ok tt ↔ well_formed_manifest m.
Proof.
  intros Hs. unfold manifest_validate, pack_id_parse, revision_parse, str_eqb.
  rewrite if_err_Ok, negb_false_iff, bool_decide_eq_true.
  destruct (valid_pack_id _) eqn:Hid;
    [|split; [by intros []|intros [_ Hp%valid_pack_id_iff]; congruence]].
  destruct (valid_revision _) eqn:Hrev;
    [|split; [by intros []|intros [_ _ Hp%valid_revision_iff]; congruence]].
  apply valid_pack_id_iff in Hid. apply valid_revision_iff in Hrev.
  change (Ok (mf_pack_id m) ≫= ?f) with (f (mf_pack_id m)). cbv beta.
  change (Ok (mf_revision m) ≫= ?f) with (f (mf_revision m)). cbv beta.
  rewrite !bind_unit_Ok, !require_text_Ok, !if_err_Ok, orb_false_iff, bool_decide_eq_false, Z.eqb_neq, Z.ltb_ge, bind_Ok.
  pose proof (bytes_nonneg _ Hs) as Hn. assert (0 ≤ 0 ≤ u64_max) as Hu by (unfold u64_max; lia). split.
  - intros (?&?&?&?&?&?&[??]&total&Hloop&Htail).
    apply artifacts_loop_Ok in Hloop as (?&[??]&[??]&->&?); [|done..].
    rewrite !bind_unit_Ok, check_resources_Ok, !require_text_Ok, check_license_Ok, check_self_test_Ok in Htail.
    destruct Htail as (?&?&?&?&?&?&?&?). destruct_and!. rewrite Z.add_0_l in *. split; try done; try lia.
  - intros []. destruct_and!. change (artifact_bytes m) with (bytes_of (mf_artifacts m)) in *.
    do 6 (split; [done|]). split; [split; lia|]. exists (bytes_of (mf_artifacts m)). split.
    + apply artifacts_loop_Ok; [done|done|]. split; [done|].
      assert (∀ f : ArtifactV1 → str, Forall (λ a, f a ∉ (∅ : gset str)) (mf_artifacts m)) as Hf.
      { intros f. apply Forall_forall. intros. apply not_elem_of_empty. }
      split; [by split; [|apply Hf]|]. split; [by split; [|apply Hf]|]. unfold MAX_PACK_BYTES, u64_max in *. lia.
    + rewrite !bind_unit_Ok, check_resources_Ok, !require_text_Ok, check_license_Ok, check_self_test_Ok. naive_solver.
Qed.

(** * What a history of catalogs promises *)

Section catalogs.
Context `{CatalogApi, PackApi}.

Lemma catalog_entries_Ok entries previous found immutable found' immutable' :
  catalog_entries_loop entries previous found immutable = Ok (found', immutable') →
  immutable ⊆ immutable' ∧
  ∀ identity e, found' !! identity = Some e → found !! identity = Some e ∨
    (identity = manifest_identity (ce_manifest e) ∧ manifest_digest (ce_manifest e) = Ok (ce_manifest_sha256 e) ∧
     immutable' !! identity = Some (ce_manifest_sha256 e)).
Proof.
  revert previous found immutable. induction entries as [|e entries IH]; intros previous found immutable; cbn [catalog_entries_loop].
  { intros [= -> ->]. split; [done|]. by left. }
  cbv zeta. rewrite bind_unit_Ok, if_err_Ok. intros (_&_&Hrest). apply bind_Ok in Hrest as (actual&Ha%map_err_Ok&Hrest).
  rewrite !if_err_Ok in Hrest. destruct Hrest as (Hd&Himm&_&Hrest). apply negb_false_iff, bool_decide_eq_true in Hd.
  apply IH in Hrest as [Hsub Hf].
  assert (immutable' !! manifest_identity (ce_manifest e) = Some actual ∧ immutable ⊆ immutable') as [Hnew Hsub'].
  { destruct (immutable !! manifest_identity (ce_manifest e)) as [trusted|] eqn:E.
    - apply negb_false_iff, bool_decide_eq_true in Himm as ->. split; [by apply (lookup_weaken _ _ _ _ E)|done].
    - split; [apply (lookup_weaken _ _ _ _ (lookup_insert_eq _ _ _) Hsub)|].
      transitivity (<[manifest_identity (ce_manifest e) := actual]> immutable); [by apply insert_subseteq|done]. }
  split; [done|]. intros i e' Hl. apply Hf in Hl as [Hl|?]; [|by right].
  apply lookup_insert_Some in Hl as [[<- <-]|[_ Hl]]; [right|by left]. by subst.
Qed.

(** What one accepted catalog does to the trust state. *)
Lemma verify_catalog_Ok signed policy prior now tc next :
  verify_catalog signed policy prior now = Ok (tc, next) →
  cts_highest_version prior ≤ cp_version (tc_payload tc) ∧
  cts_highest_version next = cp_version (tc_payload tc) ∧
  cts_accepted_payload_sha256 next = Some (tc_payload_digest tc) ∧
  (cp_version (tc_payload tc) = cts_highest_version prior → cp_version (tc_payload tc) ≠ 0 →
    cts_accepted_payload_sha256 prior = Some (tc_payload_digest tc)) ∧
  cts_immutable_revisions prior ⊆ cts_immutable_revisions next ∧
  ∀ identity e, tc_entries tc !! identity = Some e →
    manifest_digest (ce_manifest e) = Ok (ce_manifest_sha256 e) ∧
    cts_immutable_revisions next !! identity = Some (ce_manifest_sha256 e).
Proof.
  unfold verify_catalog. cbv zeta. rewrite !if_err_Ok. intros (_&_&Hv&_&_&_&_&Hrest). apply Z.ltb_ge in Hv.
  apply bind_Ok in Hrest as (message&_&Hrest). rewrite !if_err_Ok in Hrest. destruct Hrest as (Hequi&_&Hrest).
  apply bind_Ok in Hrest as ([found immutable]&Hf&[= <- <-]). cbn. apply catalog_entries_Ok in Hf as [Hsub Hf].
  split; [done|]. split; [done|]. split; [done|]. split; [|split; [done|]].
  - intros E Hne. rewrite E, Z.eqb_refl in Hequi. rewrite E in Hne. apply Z.eqb_neq in Hne. rewrite Hne in Hequi. cbn in Hequi.
    by apply negb_false_iff, bool_decide_eq_true in Hequi.
  - intros i e Hl. apply Hf in Hl as [Hl|(_&?&?)]; [by rewrite lookup_empty in Hl|done].
Qed.

(** The catalogs accepted one after the other, the newest first. *)
Inductive catalog_run : list TrustedCatalog → CatalogTrustState → Prop :=
| catalog_run_start : catalog_run [] catalog_trust_state_default
| catalog_run_accept older state signed policy now tc next :
    catalog_run older state → verify_catalog signed policy state now = Ok (tc, next) →
    catalog_run (tc :: older) next.

Definition supersedes (newer older : TrustedCatalog) : Prop :=
  cp_version (tc_payload older) ≤ cp_version (tc_payload newer) ∧
  (cp_version (tc_payload older) = cp_version (tc_payload newer) → cp_version (tc_payload newer) ≠ 0 →
    tc_payload_digest older = tc_payload_digest newer).

Lemma catalog_run_state accepted state :
  catalog_run accepted state →
  Forall (λ tc, cp_version (tc_payload tc) ≤ cts_highest_version state ∧
    (cp_version (tc_payload tc) = cts_highest_version state → cts_highest_version state ≠ 0 →
      cts_accepted_payload_sha256 state = Some (tc_payload_digest tc)) ∧
    map_Forall (λ identity e, manifest_digest (ce_manifest e) = Ok (ce_manifest_sha256 e) ∧
      cts_immutable_revisions state !! identity = Some (ce_manifest_sha256 e)) (tc_entries tc)) accepted.
Proof.
  induction 1 as [|older state signed policy now tc next _ IH Hv]; [constructor|].
  apply verify_catalog_Ok in Hv as (Hle&Hhigh&Hacc&Hsame&Hsub&Hent). constructor; [by rewrite Hhigh|].
  eapply Forall_impl; [done|]. intros old (Hold&Hdig&Hmap). split; [lia|]. split.
  - intros E Hne. rewrite Hacc. rewrite <-Hsame by lia. apply Hdig; lia.
  - intros i e Hl. destruct (Hmap i e Hl) as [? Hi]. split; [done|]. by apply (lookup_weaken _ _ _ _ Hi).
Qed.

(** C38: Of the catalogs a client accepts, none has a lower version than one accepted before,
    two of one version other than 0 are the same catalog (version 0 may be replaced by
    another version 0), and no two of them, however far apart, describe one revision by
    different manifests. *)
Theorem catalogs_never_roll_back accepted state :
  catalog_run accepted state →
  StronglySorted supersedes accepted ∧
  ∀ first second identity e1 e2, first ∈ accepted → second ∈ accepted →
    tc_entries first !! identity = Some e1 → tc_entries second !! identity = Some e2 →
    ce_manifest_sha256 e1 = ce_manifest_sha256 e2 ∧
    manifest_digest (ce_manifest e1) = manifest_digest (ce_manifest e2).
Proof.
  intros Hrun. split.
  - induction Hrun as [|older state signed policy now tc next Hrun IH Hv]; [constructor|]. constructor; [done|].
    apply verify_catalog_Ok in Hv as (Hle&_&_&Hsame&_). eapply Forall_impl; [by apply catalog_run_state|].
    intros old (Hold&Hdig&_). split; [lia|]. intros E Hne.
    assert (Some (tc_payload_digest old) = Some (tc_payload_digest tc)) as [= ?]; [|done].
    rewrite <-Hsame by lia. rewrite Hdig by lia. done.
  - intros a b i e1 e2 Ha Hb H1 H2. pose proof (catalog_run_state _ _ Hrun) as Hall. rewrite Forall_forall in Hall.
    destruct (Hall a Ha) as (_&_&Ma). destruct (Hall b Hb) as (_&_&Mb).
    destruct (Ma i e1 H1) as [D1 I1]. destruct (Mb i e2 H2) as [D2 I2]. split; congruence.
Qed.
End catalogs.
