(* ===== verification/PackManager.v ===== *)
(** * Model packs: download, verification, activation and removal
    ([crates/model-manager/src/lifecycle.rs], [optional_lifecycle.rs])

    The manager of installed packs over a storage that it only sees through [PackStorage].
    A method is a program of [mgr], which keeps the state it reached when it fails. The
    [&mut DownloadJournal] that [download_journal_mut] lends is [journal_call]: one method
    of the journal. What [getrandom] draws is an argument. *)

From S2P Require Import Prelude Text Measurement Governor Archive PackManifest.

#[local] Open Scope Z_scope.

(** ** Artifacts *)

Record ArtifactEvidence := { ae_artifact_id : str; ae_size_bytes : Z; ae_sha256 : Sha256Digest }.

Inductive VerificationError :=
| VeIo (error : str)
| VeSizeOverflow
| VeSizeMismatch (expected actual : Z)
| VeDigestMismatch (expected actual : Sha256Digest)
| VeInternalDigestEncoding.

(** What each call of [read] returned; an empty read is the end. *)
Fixpoint read_artifact (expected_size : Z) (reads : list (result str (list Z))) (size : Z) (hashed : list Z)
    : result VerificationError (Z * list Z) :=
  match reads with
  | [] | Ok [] :: _ => Ok (size, hashed)
  | Err error :: _ => Err (VeIo error)
  | Ok block :: reads =>
      let read := Z.of_nat (length block) in
      if u64_max <? size + read then Err VeSizeOverflow else
      if expected_size <? size + read then Err (VeSizeMismatch expected_size (size + read)) else
      read_artifact expected_size reads (size + read) (hashed ++ block)
  end.

Definition verify_artifact `{CatalogApi} (artifact_id : str) (expected_size : Z) (expected_sha256 : Sha256Digest)
    (reads : list (result str (list Z))) : result VerificationError ArtifactEvidence :=
  found ← read_artifact expected_size reads 0 [];
  if negb (found.1 =? expected_size) then Err (VeSizeMismatch expected_size found.1) else
  actual ← map_err (λ _, VeInternalDigestEncoding) (sha256_parse (sha256_of_bytes found.2));
  if negb (str_eqb actual expected_sha256) then Err (VeDigestMismatch expected_sha256 actual) else
  Ok {| ae_artifact_id := artifact_id; ae_size_bytes := found.1; ae_sha256 := actual |}.

(** ** Download journals *)

Record DownloadJournal := {
  dj_artifact_id : str;
  dj_expected_size : Z;
  dj_expected_sha256 : Sha256Digest;
  dj_received_bytes : Z;
  dj_validator : option str;
  dj_complete : bool
}.

Record ResumeRequest := { rq_offset : Z; rq_if_range : option str }.
Record ResumeResponse := {
  rr_status : Z;
  rr_range_start : option Z;
  rr_total_size : Z;
  rr_validator : option str
}.

Inductive ResumeError :=
| RsAlreadyComplete
| RsRemoteSizeChanged (expected actual : Z)
| RsRangeNotHonored
| RsValidatorChanged
| RsUnexpectedStatus (status : Z)
| RsInvalidValidator
| RsSizeOverflow
| RsExceedsExpectedSize
| RsEvidenceMismatch.

Definition journal_new (artifact_id : str) (expected_size : Z) (expected_sha256 : Sha256Digest)
    : DownloadJournal := {|
  dj_artifact_id := artifact_id; dj_expected_size := expected_size; dj_expected_sha256 := expected_sha256;
  dj_received_bytes := 0; dj_validator := None; dj_complete := false |}.

Definition resume_request (j : DownloadJournal) : ResumeRequest :=
  {| rq_offset := dj_received_bytes j; rq_if_range := dj_validator j |}.

Definition set_progress (received : Z) (validator : option str) (complete : bool) (j : DownloadJournal)
    : DownloadJournal := {|
  dj_artifact_id := dj_artifact_id j; dj_expected_size := dj_expected_size j;
  dj_expected_sha256 := dj_expected_sha256 j; dj_received_bytes := received; dj_validator := validator;
  dj_complete := complete |}.

(** The checks of a response, resumed or from the start. *)
Definition check_resumed (response : ResumeResponse) (j : DownloadJournal) : result ResumeError unit :=
  if dj_complete j then Err RsAlreadyComplete else
  if negb (rr_total_size response =? dj_expected_size j) then
    Err (RsRemoteSizeChanged (dj_expected_size j) (rr_total_size response)) else
  _ ← (if 0 <? dj_received_bytes j then
         if negb (rr_status response =? 206)
            || negb (bool_decide (rr_range_start response = Some (dj_received_bytes j))) then
           Err RsRangeNotHonored else
         if is_none (dj_validator j) || negb (bool_decide (rr_validator response = dj_validator j)) then
           Err RsValidatorChanged else Ok tt
       else if negb (rr_status response =? 200) && negb (rr_status response =? 206) then
         Err (RsUnexpectedStatus (rr_status response))
       else if (rr_status response =? 206) && negb (bool_decide (rr_range_start response = Some 0)) then
         Err RsRangeNotHonored
       else Ok tt);
  if is_some_and (rr_validator response) str_is_empty then Err RsInvalidValidator else Ok tt.

Definition accept_response (response : ResumeResponse) (j : DownloadJournal)
    : DownloadJournal * result ResumeError unit :=
  match check_resumed response j with
  | Ok _ => (set_progress (dj_received_bytes j) (rr_validator response) (dj_complete j) j, Ok tt)
  | Err error => (j, Err error)
  end.

Definition record_bytes (count : Z) (j : DownloadJournal) : DownloadJournal * result ResumeError unit :=
  let next := dj_received_bytes j + count in
  if u64_max <? next then (j, Err RsSizeOverflow) else
  if dj_expected_size j <? next then (j, Err RsExceedsExpectedSize) else
  (set_progress next (dj_validator j) (dj_complete j) j, Ok tt).

Definition mark_verified (e : ArtifactEvidence) (j : DownloadJournal) : DownloadJournal * result ResumeError unit :=
  if negb (str_eqb (ae_artifact_id e) (dj_artifact_id j)) || negb (ae_size_bytes e =? dj_expected_size j)
     || negb (str_eqb (ae_sha256 e) (dj_expected_sha256 j))
     || negb (dj_received_bytes j =? dj_expected_size j) then (j, Err RsEvidenceMismatch) else
  (set_progress (dj_received_bytes j) (dj_validator j) true j, Ok tt).

Definition journal_restart (j : DownloadJournal) : DownloadJournal := set_progress 0 None false j.

(** ** The state *)

Inductive InstallPhase :=
| PhaseDownload | PhaseVerification | PhaseExtraction | PhaseSelfTest | PhaseActivation | PhaseRepair
| PhaseRemoval | PhaseRollback.
#[export] Instance InstallPhase_eq_dec : EqDecision InstallPhase.
Proof. solve_decision. Defined.

Inductive InstallState :=
| Downloading | Verifying | Staging | AwaitingSelfTest | Activating | Active | Repairing | Removing
| RolledBack | Quarantined (phase : InstallPhase) (reason : str) (retryable : bool).
#[export] Instance InstallState_eq_dec : EqDecision InstallState.
Proof. solve_decision. Defined.

Record SelfTestAuthorizationReceiptV1 := {
  rt_attestation_sha256 : Sha256Digest;
  rt_runner_id : str;
  rt_runner_trust_revision : str;
  rt_nonce : str;
  rt_replay_key : Sha256Digest;
  rt_staged : StagedContentBindingV1;
  rt_verified_unix_seconds : Z
}.

Record PackRecord := {
  pk_manifest : ModelPackManifestV1;
  pk_manifest_sha256 : Sha256Digest;
  pk_state : InstallState;
  pk_downloads : gmap str DownloadJournal;
  pk_evidence : gmap str ArtifactEvidence;
  pk_catalog : CatalogInstallBindingV1;
  pk_selection : PackSelectionAuthorizationV1;
  pk_self_test_authorization : option SelfTestAuthorizationReceiptV1
}.

Record StorageInspection := {
  in_present : bool;
  in_content_healthy : bool;
  in_manifest_sha256 : option Sha256Digest;
  in_content_tree_sha256 : option Sha256Digest;
  in_artifact_evidence : gmap str ArtifactEvidence
}.

Record StagedPack := { sg_identity : PackRevision; sg_transaction_id : str }.

Record ActivationAuthorization := {
  aa_staged : StagedContentBindingV1;
  aa_attestation_sha256 : Sha256Digest;
  aa_replay_key : Sha256Digest
}.

Record StorageError := { sx_message : str }.
Definition storage_error_text (e : StorageError) : str := lit "storage operation failed: " ++ sx_message e.

(** What the manager needs of a storage. A method with [&mut self] returns the storage, on
    failure too. *)
Class PackStorage (S : Type) := {
  storage_stage : ModelPackManifestV1 → list ArtifactEvidence → S → S * result StorageError StagedPack;
  staged_content_binding : StagedPack → S → result StorageError StagedContentBindingV1;
  commit_inactive : StagedPack → S → S * result StorageError unit;
  consume_attestation_replay_key : Sha256Digest → S → S * result StorageError bool;
  storage_activate : StagedPack → ActivationAuthorization → S → S * result StorageError unit;
  activate_existing : PackRevision → S → S * result StorageError unit;
  inspect : PackRevision → S → result StorageError StorageInspection;
  remove_revision : PackRevision → S → S * result StorageError unit;
  storage_add_reference : str → str → S → S * result StorageError unit;
  storage_remove_reference : str → str → S → S * result StorageError bool;
  storage_reference_count : str → S → result StorageError Z
}.

Record ModelPackManager (S : Type) := Manager {
  mm_storage : S;
  mm_records : gmap PackRevision PackRecord;
  mm_staged : gmap PackRevision StagedPack;
  mm_pending_self_tests : gmap PackRevision SelfTestChallengeV1;
  mm_immutable_revisions : gmap PackRevision Sha256Digest;
  mm_active : gmap str str;
  mm_rollback : gmap str (list str);
  mm_references : gmap str (gset str)
}.
Arguments Manager {S}.
Arguments mm_storage {S}.
Arguments mm_records {S}.
Arguments mm_staged {S}.
Arguments mm_pending_self_tests {S}.
Arguments mm_immutable_revisions {S}.
Arguments mm_active {S}.
Arguments mm_rollback {S}.
Arguments mm_references {S}.

Definition manager_new {S} (storage : S) : ModelPackManager S := Manager storage ∅ ∅ ∅ ∅ ∅ ∅ ∅.

Inductive ManagerError :=
| MgManifest (error : ManifestError)
| MgLicenseAcceptanceRequired
| MgInvalidCatalogBinding
| MgSelection (error : PackSelectionError)
| MgImmutableRevisionChanged (identity : PackRevision)
| MgAlreadyManaged (identity : PackRevision)
| MgUnknownRevision
| MgUnknownArtifact
| MgInvalidState (state : InstallState)
| MgResume (error : ResumeError)
| MgIncompleteEvidence
| MgStorageIdentityMismatch
| MgMissingStagedTransaction
| MgSelfTestFailed
| MgAttestation (error : AttestationError)
| MgAttestationSerialization (error : str)
| MgAttestationVerification (error : AttestationVerificationError)
| MgUnsupportedAttestationSchema (schema : str)
| MgMissingSelfTestChallenge
| MgAttestationChallengeMismatch
| MgAttestationNotYetValid
| MgAttestationExpired
| MgRunnerIdentityMismatch
| MgAttestationReplay
| MgUnapprovedSelfTestBackend (backend : str)
| MgInvalidSelfTestLifetime
| MgStagedContentBindingMismatch
| MgStagedContentChangedAfterTest
| MgMissingSelfTestAuthorization
| MgStorage (error : StorageError)
| MgNotActive
| MgAlreadyActive
| MgInvalidConsumer
| MgPackInUse (consumers : Z)
| MgNoRollback.

Inductive RemovalPolicy := RequireUnreferenced | Force.
#[export] Instance RemovalPolicy_eq_dec : EqDecision RemovalPolicy.
Proof. solve_decision. Defined.

Inductive RepairIssue :=
| MissingInstallation | InstalledContentMismatch | ManifestMismatch
| MissingArtifact (id : str) | ArtifactSizeMismatch (id : str) | ArtifactDigestMismatch (id : str).
Record RepairAssessment := { ra_healthy : bool; ra_issues : list RepairIssue }.

(** ** Programs of the manager *)

Definition program (S E A : Type) : Type := ModelPackManager S → ModelPackManager S * result E A.
#[export] Instance program_ret {S E} : MRet (program S E) := λ A a m, (m, Ok a).
#[export] Instance program_bind {S E} : MBind (program S E) := λ A B f p m,
  match p m with (m, Ok a) => f a m | (m, Err error) => (m, Err error) end.
Abbreviation mgr S := (program S ManagerError).

Section programs.
Context {S : Type}.
Implicit Types m : ModelPackManager S.

Definition throw {E A} (error : E) : program S E A := λ m, (m, Err error).
Definition look {E A} (f : ModelPackManager S → A) : program S E A := λ m, (m, Ok (f m)).
Definition write (f : ModelPackManager S → ModelPackManager S) : mgr S unit := λ m, (f m, Ok tt).
Definition from {E A} (r : result E A) : program S E A := λ m, (m, r).
Definition refuse {E} (b : bool) (error : E) : program S E unit := if b then throw error else mret tt.
(** [?] with a conversion of the error. *)
Definition convert {E F A} (f : E → F) (p : program S E A) : program S F A := λ m,
  let '(m, r) := p m in (m, map_err f r).

Definition map_records (f : gmap PackRevision PackRecord → gmap PackRevision PackRecord) m : ModelPackManager S :=
  Manager (mm_storage m) (f (mm_records m)) (mm_staged m) (mm_pending_self_tests m)
    (mm_immutable_revisions m) (mm_active m) (mm_rollback m) (mm_references m).
Definition map_staged (f : gmap PackRevision StagedPack → gmap PackRevision StagedPack) m : ModelPackManager S :=
  Manager (mm_storage m) (mm_records m) (f (mm_staged m)) (mm_pending_self_tests m)
    (mm_immutable_revisions m) (mm_active m) (mm_rollback m) (mm_references m).
Definition map_pending (f : gmap PackRevision SelfTestChallengeV1 → gmap PackRevision SelfTestChallengeV1) m
    : ModelPackManager S :=
  Manager (mm_storage m) (mm_records m) (mm_staged m) (f (mm_pending_self_tests m))
    (mm_immutable_revisions m) (mm_active m) (mm_rollback m) (mm_references m).
Definition map_immutable (f : gmap PackRevision Sha256Digest → gmap PackRevision Sha256Digest) m
    : ModelPackManager S :=
  Manager (mm_storage m) (mm_records m) (mm_staged m) (mm_pending_self_tests m)
    (f (mm_immutable_revisions m)) (mm_active m) (mm_rollback m) (mm_references m).
Definition set_packs (active : gmap str str) (rollback : gmap str (list str)) (references : gmap str (gset str)) m
    : ModelPackManager S :=
  Manager (mm_storage m) (mm_records m) (mm_staged m) (mm_pending_self_tests m)
    (mm_immutable_revisions m) active rollback references.
Definition set_storage (storage : S) m : ModelPackManager S :=
  Manager storage (mm_records m) (mm_staged m) (mm_pending_self_tests m)
    (mm_immutable_revisions m) (mm_active m) (mm_rollback m) (mm_references m).

(** A call of the storage, [map_err(ManagerError::Storage)?]. *)
Definition storage_call {A} (f : S → S * result StorageError A) : mgr S A := λ m,
  let '(storage, answer) := f (mm_storage m) in
  (set_storage storage m, map_err MgStorage answer).
(** The same, the answer matched on by the caller. *)
Definition storage_try {A} (f : S → S * result StorageError A) : mgr S (result StorageError A) := λ m,
  let '(storage, answer) := f (mm_storage m) in
  (set_storage storage m, Ok answer).
Definition storage_read {A} (f : S → result StorageError A) : mgr S A := λ m,
  (m, map_err MgStorage (f (mm_storage m))).

Definition get_record (identity : PackRevision) : mgr S PackRecord := λ m,
  (m, ok_or (mm_records m !! identity) MgUnknownRevision).
Definition get_staged (identity : PackRevision) : mgr S StagedPack := λ m,
  (m, ok_or (mm_staged m !! identity) MgMissingStagedTransaction).
Definition put_record (identity : PackRevision) (r : PackRecord) : mgr S unit :=
  write (map_records (<[identity := r]>)).

Definition with_state (state : InstallState) (r : PackRecord) : PackRecord := {|
  pk_manifest := pk_manifest r; pk_manifest_sha256 := pk_manifest_sha256 r; pk_state := state;
  pk_downloads := pk_downloads r; pk_evidence := pk_evidence r; pk_catalog := pk_catalog r;
  pk_selection := pk_selection r; pk_self_test_authorization := pk_self_test_authorization r |}.
Definition with_progress (downloads : gmap str DownloadJournal) (evidence : gmap str ArtifactEvidence)
    (r : PackRecord) : PackRecord := {|
  pk_manifest := pk_manifest r; pk_manifest_sha256 := pk_manifest_sha256 r; pk_state := pk_state r;
  pk_downloads := downloads; pk_evidence := evidence; pk_catalog := pk_catalog r;
  pk_selection := pk_selection r; pk_self_test_authorization := pk_self_test_authorization r |}.
Definition with_selection (selection : PackSelectionAuthorizationV1) (r : PackRecord) : PackRecord := {|
  pk_manifest := pk_manifest r; pk_manifest_sha256 := pk_manifest_sha256 r; pk_state := pk_state r;
  pk_downloads := pk_downloads r; pk_evidence := pk_evidence r; pk_catalog := pk_catalog r;
  pk_selection := selection; pk_self_test_authorization := pk_self_test_authorization r |}.
Definition with_receipt (receipt : option SelfTestAuthorizationReceiptV1) (r : PackRecord) : PackRecord := {|
  pk_manifest := pk_manifest r; pk_manifest_sha256 := pk_manifest_sha256 r; pk_state := pk_state r;
  pk_downloads := pk_downloads r; pk_evidence := pk_evidence r; pk_catalog := pk_catalog r;
  pk_selection := pk_selection r; pk_self_test_authorization := receipt |}.

(** [record.state = state] when the record exists. *)
Definition move (identity : PackRevision) (state : InstallState) : mgr S unit :=
  write (map_records (alter (with_state state) identity)).

(** The state becomes [Quarantined] and the operation fails. *)
Definition quarantine {A} (identity : PackRevision) (phase : InstallPhase) (reason : str) (retryable : bool)
    (error : ManagerError) : mgr S A :=
  _ ← get_record identity;
  _ ← move identity (Quarantined phase reason retryable);
  throw error.
End programs.

(** ** The operations *)

Section manager.
Context {S : Type} `{CatalogApi, PackApi, !PackStorage S}.

Definition require_state (allowed : InstallState → bool) (r : PackRecord) : mgr S unit :=
  refuse (negb (allowed (pk_state r))) (MgInvalidState (pk_state r)).
Definition is_state (s t : InstallState) : bool := bool_decide (t = s).
Definition is_loading (t : InstallState) : bool := is_state Downloading t || is_state Verifying t.

Definition new_downloads (manifest : ModelPackManifestV1) : gmap str DownloadJournal :=
  btree_collect ((λ a, (ar_id a, journal_new (ar_id a) (ar_size_bytes a) (ar_sha256 a))) <$> mf_artifacts manifest).

Definition begin_install (manifest : ModelPackManifestV1) (catalog : CatalogInstallBindingV1)
    (selection : PackSelectionAuthorizationV1) (license_accepted : bool) : mgr S PackRevision :=
  _ ← from (map_err MgManifest (manifest_validate manifest));
  _ ← refuse (cb_catalog_version catalog =? 0) MgInvalidCatalogBinding;
  _ ← from (map_err MgSelection (validate_for_manifest manifest selection));
  _ ← refuse (li_acceptance_required (mf_license manifest) && negb license_accepted) MgLicenseAcceptanceRequired;
  let identity := manifest_identity manifest in
  digest ← from (map_err MgManifest (manifest_digest manifest));
  trusted ← look (λ m, mm_immutable_revisions m !! identity);
  _ ← refuse (is_some_and trusted (λ t, negb (str_eqb t digest))) (MgImmutableRevisionChanged identity);
  managed ← look (λ m, mm_records m !! identity);
  _ ← match managed with
      | None => mret tt
      | Some r => if negb (str_eqb (pk_manifest_sha256 r) digest) then throw (MgImmutableRevisionChanged identity)
                  else throw (MgAlreadyManaged identity)
      end;
  _ ← put_record identity {|
        pk_manifest := manifest; pk_manifest_sha256 := digest; pk_state := Downloading;
        pk_downloads := new_downloads manifest; pk_evidence := ∅; pk_catalog := catalog;
        pk_selection := selection; pk_self_test_authorization := None |};
  _ ← write (map_immutable (<[identity := digest]>));
  mret identity.

Definition begin_update (manifest : ModelPackManifestV1) (catalog : CatalogInstallBindingV1)
    (selection : PackSelectionAuthorizationV1) (license_accepted : bool) : mgr S PackRevision :=
  found ← look (λ m, mm_active m !! mf_pack_id manifest);
  active ← from (ok_or found MgNotActive);
  _ ← refuse (str_eqb active (mf_revision manifest)) MgAlreadyActive;
  begin_install manifest catalog selection license_accepted.

(** [download_journal_mut], and one call on the journal it returns. *)
Definition journal_call (identity : PackRevision) (artifact_id : str)
    (call : DownloadJournal → DownloadJournal * result ResumeError unit) : mgr S unit :=
  r ← get_record identity;
  _ ← require_state is_loading r;
  j ← from (ok_or (pk_downloads r !! artifact_id) MgUnknownArtifact);
  let '(j, answer) := call j in
  _ ← put_record identity (with_progress (<[artifact_id := j]> (pk_downloads r)) (pk_evidence r) r);
  from (map_err MgResume answer).

Definition accept_verified_artifact (identity : PackRevision) (evidence : ArtifactEvidence) : mgr S unit :=
  r ← get_record identity;
  _ ← require_state is_loading r;
  j ← from (ok_or (pk_downloads r !! ae_artifact_id evidence) MgUnknownArtifact);
  let '(j, answer) := mark_verified evidence j in
  _ ← from (map_err MgResume answer);
  let downloads := <[ae_artifact_id evidence := j]> (pk_downloads r) in
  let found := <[ae_artifact_id evidence := evidence]> (pk_evidence r) in
  put_record identity
    (with_state (if Nat.eqb (size found) (size downloads) then Staging else Verifying)
       (with_progress downloads found r)).

Definition stage (identity : PackRevision) : mgr S unit :=
  r ← get_record identity;
  _ ← require_state (is_state Staging) r;
  _ ← refuse (negb (Nat.eqb (size (pk_evidence r)) (length (mf_artifacts (pk_manifest r))))) MgIncompleteEvidence;
  staged ← storage_call (storage_stage (pk_manifest r) (btree_iter (pk_evidence r)).*2);
  if negb (bool_decide (sg_identity staged = identity)) then
    quarantine identity PhaseExtraction (lit "storage returned the wrong staged identity") false
      MgStorageIdentityMismatch
  else
  _ ← write (map_staged (<[identity := staged]>));
  committed ← storage_try (commit_inactive staged);
  match committed with
  | Err error => quarantine identity PhaseExtraction
      (lit "verified staging could not be atomically committed inactive") true (MgStorage error)
  | Ok _ => move identity AwaitingSelfTest
  end.

Definition authorize_activation (identity : PackRevision) (selection : PackSelectionAuthorizationV1) : mgr S unit :=
  r ← get_record identity;
  _ ← require_state (is_state AwaitingSelfTest) r;
  pending ← look (λ m, is_some (mm_pending_self_tests m !! identity));
  _ ← refuse pending (MgInvalidState (pk_state r));
  _ ← from (map_err MgSelection (validate_for_manifest (pk_manifest r) selection));
  _ ← refuse (negb (sa_activation_allowed selection)) (MgSelection SelActivationNotAuthorized);
  put_record identity (with_selection selection r).

Definition challenge_for (identity : PackRevision) (r : PackRecord) (binding : StagedContentBindingV1)
    (runtime_backend nonce : str) (issued expires : Z) : SelfTestChallengeV1 := {|
  ch_schema := SELF_TEST_CHALLENGE_SCHEMA_V1; ch_identity := identity;
  ch_manifest_sha256 := pk_manifest_sha256 r; ch_catalog := pk_catalog r; ch_staged := binding;
  ch_runtime_abi := rc_abi (mf_runtime (pk_manifest r)); ch_runtime_backend := runtime_backend;
  ch_test_suite_id := stt_kind (mf_self_test (pk_manifest r));
  ch_test_suite_revision := stt_suite_revision (mf_self_test (pk_manifest r)); ch_nonce := nonce;
  ch_issued_unix_seconds := issued; ch_expires_unix_seconds := expires |}.

Definition issue_self_test_challenge (identity : PackRevision) (runtime_backend : str) (now lifetime : Z)
    (nonce : result str str) : mgr S SelfTestChallengeV1 :=
  r ← get_record identity;
  _ ← require_state (is_state AwaitingSelfTest) r;
  _ ← refuse (negb (bool_decide (runtime_backend ∈ stt_allowed_runtime_backends (mf_self_test (pk_manifest r)))))
        (MgUnapprovedSelfTestBackend runtime_backend);
  _ ← refuse ((lifetime =? 0) || (MAX_SELF_TEST_ATTESTATION_LIFETIME_SECONDS <? lifetime)) MgInvalidSelfTestLifetime;
  staged ← get_staged identity;
  binding ← storage_read (staged_content_binding staged);
  _ ← refuse (negb (bool_decide (sb_identity binding = identity))
              || negb (str_eqb (sb_transaction_id binding) (sg_transaction_id staged))
              || negb (str_eqb (sb_manifest_sha256 binding) (pk_manifest_sha256 r))) MgStagedContentBindingMismatch;
  nonce ← from (map_err (λ e, MgAttestation (AtRandom e)) nonce);
  _ ← refuse (u64_max <? now + lifetime) MgInvalidSelfTestLifetime;
  let challenge := challenge_for identity r binding runtime_backend nonce now (now + lifetime) in
  _ ← from (map_err MgAttestation (validate_challenge challenge));
  _ ← write (map_pending (<[identity := challenge]>));
  mret challenge.

Definition abandon_self_test_challenge (identity : PackRevision) (expected_nonce : str) : mgr S unit :=
  r ← get_record identity;
  _ ← require_state (is_state AwaitingSelfTest) r;
  pending ← look (λ m, mm_pending_self_tests m !! identity);
  challenge ← from (ok_or pending MgMissingSelfTestChallenge);
  _ ← refuse (negb (str_eqb (ch_nonce challenge) expected_nonce)) MgAttestationChallengeMismatch;
  write (map_pending (delete identity)).

Definition quarantine_attested_failure (identity : PackRevision) (reason : str) (retryable : bool) : mgr S unit :=
  quarantine identity PhaseSelfTest reason retryable MgSelfTestFailed.

(** The checks of the attestation against the outstanding challenge and its proof. *)
Definition verify_attestation (identity : PackRevision) (a : SelfTestAttestationV1)
    (verifier : SelfTestAttestationVerifier) (now : Z) (pending : option SelfTestChallengeV1)
    : result ManagerError (SelfTestChallengeV1 * VerifiedRunnerIdentity) :=
  let signed := at_signed a in
  if negb (str_eqb (ap_schema signed) SELF_TEST_ATTESTATION_SCHEMA_V1) then
    Err (MgUnsupportedAttestationSchema (ap_schema signed)) else
  _ ← map_err MgAttestation (validate_challenge (ap_challenge signed));
  expected ← ok_or pending MgMissingSelfTestChallenge;
  if negb (bool_decide (ap_challenge signed = expected))
     || negb (bool_decide (ch_identity (ap_challenge signed) = identity)) then Err MgAttestationChallengeMismatch else
  if now <? ch_issued_unix_seconds expected then Err MgAttestationNotYetValid else
  if ch_expires_unix_seconds expected <? now then Err MgAttestationExpired else
  payload ← map_err MgAttestationSerialization (canonical_attestation_payload_bytes signed);
  runner ← map_err MgAttestationVerification (verifier (ap_runner_id signed) (at_proof a) payload);
  if negb (str_eqb (vr_runner_id runner) (ap_runner_id signed)) then Err MgRunnerIdentityMismatch else
  Ok (expected, runner).

(** Why an attested outcome is a failure, with the reason and whether a retry makes sense. *)
Definition attested_failure (r : PackRecord) (outcome : AttestedSelfTestOutcomeV1) : option (str * bool) :=
  if stt_timeout_millis (mf_self_test (pk_manifest r)) <? ao_duration_millis outcome then
    Some (lit "attested self-test exceeded its declared timeout", true) else
  if negb (ao_passed outcome) then
    Some (default (lit "attested self-test failed") (ao_diagnostic_code outcome), true) else
  match stt_expected_output_sha256 (mf_self_test (pk_manifest r)) with
  | Some expected =>
      if negb (bool_decide (ao_output_sha256 outcome = Some expected)) then
        Some (lit "attested self-test output digest mismatch", false) else None
  | None => None
  end.

Definition record_self_test_attestation (identity : PackRevision) (a : SelfTestAttestationV1)
    (verifier : SelfTestAttestationVerifier) (now : Z) : mgr S unit :=
  r ← get_record identity;
  if negb (is_state AwaitingSelfTest (pk_state r)) then
    if is_some_and (pk_self_test_authorization r)
         (λ receipt, str_eqb (rt_nonce receipt) (ch_nonce (ap_challenge (at_signed a)))) then
      throw MgAttestationReplay
    else throw (MgInvalidState (pk_state r))
  else
  pending ← look (λ m, mm_pending_self_tests m !! identity);
  verified ← from (verify_attestation identity a verifier now pending);
  let '(expected, runner) := verified in
  staged ← get_staged identity;
  current ← look (λ m, staged_content_binding staged (mm_storage m));
  match current with
  | Err error => quarantine identity PhaseSelfTest
      (lit "staged content could not be revalidated after self-test") false (MgStorage error)
  | Ok binding =>
      if negb (bool_decide (binding = ch_staged expected)) then
        quarantine identity PhaseSelfTest (lit "staged content changed after self-test challenge") false
          MgStagedContentChangedAfterTest
      else
      match attested_failure r (ap_outcome (at_signed a)) with
      | Some (reason, retryable) => quarantine_attested_failure identity reason retryable
      | None =>
          digest ← from (map_err MgAttestationSerialization (attestation_digest a));
          let replay_key := attestation_replay_key identity (ap_runner_id (at_signed a))
                              (ch_nonce (ap_challenge (at_signed a))) in
          fresh ← storage_call (consume_attestation_replay_key replay_key);
          _ ← refuse (negb fresh) MgAttestationReplay;
          _ ← put_record identity (with_state Activating (with_receipt (Some {|
                rt_attestation_sha256 := digest; rt_runner_id := vr_runner_id runner;
                rt_runner_trust_revision := vr_trust_revision runner;
                rt_nonce := ch_nonce (ap_challenge (at_signed a)); rt_replay_key := replay_key;
                rt_staged := binding; rt_verified_unix_seconds := now |}) r));
          write (map_pending (delete identity))
      end
  end.

(** The end of [activate]: the new revision is active, the old one a rollback target. *)
Definition make_active (identity : PackRevision) (m : ModelPackManager S) : ModelPackManager S :=
  let pack := pr_pack_id identity in
  let rollback := match mm_active m !! pack with
                  | Some old => if negb (str_eqb old (pr_revision identity))
                                then <[pack := default [] (mm_rollback m !! pack) ++ [old]]> (mm_rollback m)
                                else mm_rollback m
                  | None => mm_rollback m
                  end in
  set_packs (<[pack := pr_revision identity]> (mm_active m)) rollback (mm_references m) m.

Definition activate (identity : PackRevision) : mgr S unit :=
  r ← get_record identity;
  _ ← require_state (is_state Activating) r;
  receipt ← from (ok_or (pk_self_test_authorization r) MgMissingSelfTestAuthorization);
  _ ← refuse (negb (sa_activation_allowed (pk_selection r))) (MgSelection SelActivationNotAuthorized);
  staged ← get_staged identity;
  current ← look (λ m, staged_content_binding staged (mm_storage m));
  match current with
  | Err error => quarantine identity PhaseActivation
      (lit "attested staged content could not be revalidated") false (MgStorage error)
  | Ok binding =>
      if negb (bool_decide (binding = rt_staged receipt)) then
        quarantine identity PhaseActivation (lit "staged content changed after its attested self-test") false
          MgStagedContentChangedAfterTest
      else
      activated ← storage_try (storage_activate staged {|
        aa_staged := rt_staged receipt; aa_attestation_sha256 := rt_attestation_sha256 receipt;
        aa_replay_key := rt_replay_key receipt |});
      match activated with
      | Err error => quarantine identity PhaseActivation (storage_error_text error) false (MgStorage error)
      | Ok _ =>
          _ ← write (map_staged (delete identity));
          _ ← write (make_active identity);
          _ ← get_record identity;
          move identity Active
      end
  end.

(** ** References, removal and rollback *)

Definition add_reference (pack_id consumer : str) : mgr S unit :=
  active ← look (λ m, mm_active m !! pack_id);
  _ ← refuse (is_none active) MgNotActive;
  _ ← refuse (is_blank consumer || (256 <? str_len consumer)) MgInvalidConsumer;
  _ ← storage_call (storage_add_reference pack_id consumer);
  write (λ m, set_packs (mm_active m) (mm_rollback m)
    (<[pack_id := {[consumer]} ∪ default ∅ (mm_references m !! pack_id)]> (mm_references m)) m).

(** The references without one consumer, an empty set with its key. *)
Definition drop_reference (pack_id consumer : str) (references : gmap str (gset str)) : gmap str (gset str) :=
  let left := alter (λ refs, refs ∖ {[consumer]}) pack_id references in
  if is_some_and (left !! pack_id) (λ refs, bool_decide (refs = ∅)) then delete pack_id left else left.

Definition release_reference (pack_id consumer : str) : mgr S bool :=
  persisted ← storage_call (storage_remove_reference pack_id consumer);
  removed ← look (λ m, is_some_and (mm_references m !! pack_id) (λ refs, bool_decide (consumer ∈ refs)));
  _ ← write (λ m, set_packs (mm_active m) (mm_rollback m) (drop_reference pack_id consumer (mm_references m)) m);
  mret (removed || persisted).

Definition reference_count (pack_id : str) : mgr S Z :=
  in_memory ← look (λ m, Z.of_nat (size (default ∅ (mm_references m !! pack_id))));
  persisted ← storage_read (storage_reference_count pack_id);
  mret (Z.max in_memory persisted).

Definition remove_one (identity : PackRevision) : mgr S unit :=
  _ ← move identity Removing;
  _ ← storage_call (remove_revision identity);
  _ ← write (map_staged (delete identity));
  _ ← write (map_pending (delete identity));
  write (map_records (delete identity)).

Fixpoint remove_all (identities : list PackRevision) : mgr S unit :=
  match identities with
  | [] => mret tt
  | identity :: identities => _ ← remove_one identity; remove_all identities
  end.

Definition remove (pack_id : str) (policy : RemovalPolicy) : mgr S Z :=
  refs ← reference_count pack_id;
  _ ← refuse ((0 <? refs) && bool_decide (policy = RequireUnreferenced)) (MgPackInUse refs);
  identities ← look (λ m, List.filter (λ i, str_eqb (pr_pack_id i) pack_id) (btree_keys (mm_records m)));
  _ ← remove_all identities;
  _ ← write (λ m, set_packs (delete pack_id (mm_active m)) (delete pack_id (mm_rollback m))
                    (delete pack_id (mm_references m)) m);
  mret (Z.of_nat (length identities)).

(** [Vec::pop] in the map of rollback targets. *)
Definition pop_rollback (pack_id : str) : mgr S (option str) := λ m,
  match mm_rollback m !! pack_id with
  | Some targets =>
      (set_packs (mm_active m) (<[pack_id := removelast targets]> (mm_rollback m)) (mm_references m) m, Ok (last targets))
  | None => (m, Ok None)
  end.

Definition rollback (pack_id : str) : mgr S PackRevision :=
  references ← reference_count pack_id;
  _ ← refuse (0 <? references) (MgPackInUse references);
  popped ← pop_rollback pack_id;
  target_revision ← from (ok_or popped MgNoRollback);
  let target := {| pr_pack_id := pack_id; pr_revision := target_revision |} in
  _ ← storage_call (activate_existing target);
  before ← look (λ m, mm_active m !! pack_id);
  _ ← write (λ m, set_packs (<[pack_id := target_revision]> (mm_active m)) (mm_rollback m) (mm_references m) m);
  current ← from (ok_or before MgNotActive);
  _ ← move {| pr_pack_id := pack_id; pr_revision := current |} RolledBack;
  _ ← move target Active;
  mret target.

(** ** Audit and repair *)

Definition artifact_issue (inspection : StorageInspection) (a : ArtifactV1) : option RepairIssue :=
  match in_artifact_evidence inspection !! ar_id a with
  | None => Some (MissingArtifact (ar_id a))
  | Some actual =>
      if negb (ae_size_bytes actual =? ar_size_bytes a) then Some (ArtifactSizeMismatch (ar_id a)) else
      if negb (str_eqb (ae_sha256 actual) (ar_sha256 a)) then Some (ArtifactDigestMismatch (ar_id a)) else None
  end.

Definition audit_issues (r : PackRecord) (inspection : StorageInspection) : list RepairIssue :=
  (if in_present inspection then [] else [MissingInstallation])
  ++ (if in_content_healthy inspection then [] else [InstalledContentMismatch])
  ++ (if bool_decide (in_manifest_sha256 inspection = Some (pk_manifest_sha256 r)) then [] else [ManifestMismatch])
  ++ omap (artifact_issue inspection) (mf_artifacts (pk_manifest r)).

Definition audit (identity : PackRevision) : mgr S RepairAssessment :=
  r ← get_record identity;
  inspection ← storage_read (inspect identity);
  let issues := audit_issues r inspection in
  mret {| ra_healthy := Nat.eqb (length issues) 0; ra_issues := issues |}.

Definition begin_repair (identity : PackRevision) : mgr S RepairAssessment :=
  assessment ← audit identity;
  if ra_healthy assessment then mret assessment else
  _ ← get_record identity;
  _ ← write (map_staged (delete identity));
  _ ← write (map_pending (delete identity));
  _ ← move identity Repairing;
  mret assessment.

Definition restart_repair_downloads (identity : PackRevision) : mgr S unit :=
  r ← get_record identity;
  _ ← require_state (is_state Repairing) r;
  put_record identity
    (with_state Downloading (with_receipt None (with_progress (journal_restart <$> pk_downloads r) ∅ r))).
End manager.

(** ** The storage in memory

    [evidence_to_vec] is the bytes [serde_json] makes of a list of evidence. *)

Class EvidenceApi := { evidence_to_vec : list ArtifactEvidence → result str (list Z) }.

Record InMemoryPackStorage := {
  im_staged : gmap PackRevision StorageInspection;
  im_installed : gmap PackRevision StorageInspection;
  im_active : gmap str str;
  im_staged_bindings : gmap PackRevision StagedContentBindingV1;
  im_consumed_attestations : gset Sha256Digest;
  im_transaction_counter : Z
}.
Definition in_memory_default : InMemoryPackStorage := {|
  im_staged := ∅; im_installed := ∅; im_active := ∅; im_staged_bindings := ∅;
  im_consumed_attestations := ∅; im_transaction_counter := 0 |}.

Definition no_installation : StorageInspection := {|
  in_present := false; in_content_healthy := false; in_manifest_sha256 := None;
  in_content_tree_sha256 := None; in_artifact_evidence := ∅ |}.

Section in_memory.
Context `{CatalogApi, PackApi, EvidenceApi}.
Implicit Types s : InMemoryPackStorage.

Definition in_memory_tree_digest (evidence : list ArtifactEvidence) : Sha256Digest :=
  sha256_of_bytes (lit "npc-in-memory-staged-tree-v1" ++ [0] ++
    unwrap_or_default (evidence_to_vec (sort_by (λ l r, ocmp (ae_artifact_id l) (ae_artifact_id r)) evidence))).

Definition in_memory_counted s : InMemoryPackStorage := {|
  im_staged := im_staged s; im_installed := im_installed s; im_active := im_active s;
  im_staged_bindings := im_staged_bindings s; im_consumed_attestations := im_consumed_attestations s;
  im_transaction_counter := wrap_add64 (im_transaction_counter s) 1 |}.

Definition in_memory_stage (manifest : ModelPackManifestV1) (evidence : list ArtifactEvidence) s
    : InMemoryPackStorage * result StorageError StagedPack :=
  let s := in_memory_counted s in
  let identity := manifest_identity manifest in
  match manifest_digest manifest with
  | Err error => (s, Err {| sx_message := manifest_error_text error |})
  | Ok digest =>
      let transaction := lit "memory-" ++ dec (im_transaction_counter s) in
      ({| im_staged := <[identity := {| in_present := true; in_content_healthy := true;
            in_manifest_sha256 := Some digest; in_content_tree_sha256 := Some (in_memory_tree_digest evidence);
            in_artifact_evidence := btree_collect ((λ e, (ae_artifact_id e, e)) <$> evidence) |}]> (im_staged s);
          im_installed := im_installed s; im_active := im_active s;
          im_staged_bindings := <[identity := {| sb_identity := identity; sb_transaction_id := transaction;
            sb_manifest_sha256 := digest; sb_content_tree_sha256 := in_memory_tree_digest evidence;
            sb_file_count := Z.of_nat (length evidence);
            sb_total_file_bytes := foldl (λ n e, wrap_add64 n (ae_size_bytes e)) 0 evidence |}]> (im_staged_bindings s);
          im_consumed_attestations := im_consumed_attestations s;
          im_transaction_counter := im_transaction_counter s |},
       Ok {| sg_identity := identity; sg_transaction_id := transaction |})
  end.

Definition in_memory_binding (staged : StagedPack) s : result StorageError StagedContentBindingV1 :=
  match im_staged_bindings s !! sg_identity staged with
  | Some binding =>
      if str_eqb (sb_transaction_id binding) (sg_transaction_id staged) then Ok binding
      else Err {| sx_message := lit "staged content binding is missing" |}
  | None => Err {| sx_message := lit "staged content binding is missing" |}
  end.

Definition in_memory_commit (staged : StagedPack) s : InMemoryPackStorage * result StorageError unit :=
  match im_staged s !! sg_identity staged with
  | None => (s, Err {| sx_message := lit "staged transaction is missing" |})
  | Some inspection =>
      ({| im_staged := im_staged s; im_installed := <[sg_identity staged := inspection]> (im_installed s);
          im_active := im_active s; im_staged_bindings := im_staged_bindings s;
          im_consumed_attestations := im_consumed_attestations s;
          im_transaction_counter := im_transaction_counter s |}, Ok tt)
  end.

Definition in_memory_consume (key : Sha256Digest) s : InMemoryPackStorage * result StorageError bool :=
  ({| im_staged := im_staged s; im_installed := im_installed s; im_active := im_active s;
      im_staged_bindings := im_staged_bindings s;
      im_consumed_attestations := {[key]} ∪ im_consumed_attestations s;
      im_transaction_counter := im_transaction_counter s |},
   Ok (negb (bool_decide (key ∈ im_consumed_attestations s)))).

Definition in_memory_activate (staged : StagedPack) (authorization : ActivationAuthorization) s
    : InMemoryPackStorage * result StorageError unit :=
  match in_memory_binding staged s with
  | Err error => (s, Err error)
  | Ok actual =>
      if negb (bool_decide (actual = aa_staged authorization)) then
        (s, Err {| sx_message := lit "activation authorization does not bind staged content" |}) else
      match im_staged s !! sg_identity staged with
      | None => (s, Err {| sx_message := lit "staged transaction is missing" |})
      | Some inspection =>
          ({| im_staged := delete (sg_identity staged) (im_staged s);
              im_installed := <[sg_identity staged := inspection]> (im_installed s);
              im_active := <[pr_pack_id (sg_identity staged) := pr_revision (sg_identity staged)]> (im_active s);
              im_staged_bindings := delete (sb_identity actual) (im_staged_bindings s);
              im_consumed_attestations := im_consumed_attestations s;
              im_transaction_counter := im_transaction_counter s |}, Ok tt)
      end
  end.

Definition in_memory_activate_existing (target : PackRevision) s : InMemoryPackStorage * result StorageError unit :=
  match im_installed s !! target with
  | None => (s, Err {| sx_message := lit "rollback target is not installed" |})
  | Some _ =>
      ({| im_staged := im_staged s; im_installed := im_installed s;
          im_active := <[pr_pack_id target := pr_revision target]> (im_active s);
          im_staged_bindings := im_staged_bindings s; im_consumed_attestations := im_consumed_attestations s;
          im_transaction_counter := im_transaction_counter s |}, Ok tt)
  end.

Definition in_memory_remove (target : PackRevision) s : InMemoryPackStorage * result StorageError unit :=
  ({| im_staged := delete target (im_staged s); im_installed := delete target (im_installed s);
      im_active := if bool_decide (im_active s !! pr_pack_id target = Some (pr_revision target))
                   then delete (pr_pack_id target) (im_active s) else im_active s;
      im_staged_bindings := delete target (im_staged_bindings s);
      im_consumed_attestations := im_consumed_attestations s;
      im_transaction_counter := im_transaction_counter s |}, Ok tt).

#[export] Instance in_memory_storage : PackStorage InMemoryPackStorage := {|
  storage_stage := in_memory_stage;
  staged_content_binding := in_memory_binding;
  commit_inactive := in_memory_commit;
  consume_attestation_replay_key := in_memory_consume;
  storage_activate := in_memory_activate;
  activate_existing := in_memory_activate_existing;
  inspect target s := Ok (default no_installation (im_installed s !! target));
  remove_revision := in_memory_remove;
  storage_add_reference _ _ s := (s, Ok tt);
  storage_remove_reference _ _ s := (s, Ok true);
  storage_reference_count _ _ := Ok 0
|}.
End in_memory.

(** ** The optional packs of a trusted catalog ([optional_lifecycle.rs])

    What the downloader and the storage's [download_path] answer for an artifact is the
    argument [fetch]. *)

Inductive OptionalPackLifecycleError :=
| OlExplicitConfirmationRequired
| OlState
| OlCatalog (error : CatalogError)
| OlSelection (error : PackSelectionError)
| OlManager (error : ManagerError)
| OlStorage (error : StorageError)
| OlDownload (error : str)
| OlResume (error : ResumeError).

Record TrustedOptionalPackLifecycleV1 := {
  tl_catalog : TrustedCatalog;
  tl_catalog_binding : CatalogInstallBindingV1
}.

(** [TrustedOptionalPackLifecycleV1::new], the manager and the downloader apart. *)
Definition lifecycle_new (catalog : TrustedCatalog) (trust_domain : CatalogTrustDomainV1)
    : TrustedOptionalPackLifecycleV1 := {|
  tl_catalog := catalog;
  tl_catalog_binding := {| cb_catalog_payload_sha256 := tc_payload_digest catalog;
    cb_catalog_version := cp_version (tc_payload catalog); cb_trust_domain := trust_domain |} |}.

Section lifecycle.
Context {S : Type} `{CatalogApi, PackApi, !PackStorage S}.
Abbreviation life := (program S OptionalPackLifecycleError).

Definition user_request (selection_id : str) (action : PackSelectionActionV1) (selected : Z) : PackSelectionRequestV1 := {|
  sr_selection_id := selection_id; sr_origin := ExplicitUser; sr_action := action;
  sr_selected_unix_seconds := selected |}.

Definition journal_of (identity : PackRevision) (artifact_id : str) : mgr S DownloadJournal :=
  r ← get_record identity;
  _ ← require_state is_loading r;
  from (ok_or (pk_downloads r !! artifact_id) MgUnknownArtifact).

(** One turn of the loop over the artifacts. *)
Definition install_artifact (fetch : ArtifactV1 → result OptionalPackLifecycleError ArtifactEvidence)
    (identity : PackRevision) (artifact : ArtifactV1) : life unit :=
  have ← look (λ m, is_some_and (mm_records m !! identity) (λ r, is_some (pk_evidence r !! ar_id artifact)));
  if have : bool then mret tt else
  evidence ← from (fetch artifact);
  journal ← convert OlManager (journal_of identity (ar_id artifact));
  _ ← (if dj_received_bytes journal =? 0 then
         convert (λ e, match e with MgResume r => OlResume r | e => OlManager e end)
           (journal_call identity (ar_id artifact) (record_bytes (ae_size_bytes evidence)))
       else mret tt);
  convert OlManager (accept_verified_artifact identity evidence).

Fixpoint install_artifacts (fetch : ArtifactV1 → result OptionalPackLifecycleError ArtifactEvidence)
    (identity : PackRevision) (artifacts : list ArtifactV1) : life unit :=
  match artifacts with
  | [] => mret tt
  | a :: artifacts => _ ← install_artifact fetch identity a; install_artifacts fetch identity artifacts
  end.

Definition state_of (identity : PackRevision) : life InstallState :=
  r ← look (λ m, mm_records m !! identity);
  from (ok_or (pk_state <$> r) OlState).

Definition install_or_resume (l : TrustedOptionalPackLifecycleV1)
    (fetch : PackSelectionAuthorizationV1 → ArtifactV1 → result OptionalPackLifecycleError ArtifactEvidence)
    (identity : PackRevision) (selection_id : str) (selected : Z) (explicit_user_confirmation license_accepted : bool)
    : life InstallState :=
  _ ← refuse (negb explicit_user_confirmation) OlExplicitConfirmationRequired;
  entry ← from (map_err OlCatalog (installable_entry identity (tl_catalog l)));
  selection ← from (map_err OlSelection
    (measured_local_authorize (ce_manifest entry) (user_request selection_id InstallOnly selected) None));
  managed ← look (λ m, mm_records m !! identity);
  _ ← match managed with
      | None => _ ← convert OlManager (begin_install (ce_manifest entry) (tl_catalog_binding l) selection license_accepted);
                mret tt
      | Some r => refuse (negb (str_eqb (pk_manifest_sha256 r) (ce_manifest_sha256 entry))
                          || negb (bool_decide (sa_identity (pk_selection r) = identity))
                          || negb (is_loading (pk_state r))) OlState
      end;
  _ ← install_artifacts (fetch selection) identity (mf_artifacts (ce_manifest entry));
  _ ← convert OlManager (stage identity);
  state_of identity.

Definition lifecycle_begin_repair (identity : PackRevision) : life RepairAssessment :=
  assessment ← convert OlManager (begin_repair identity);
  _ ← (if ra_healthy assessment then mret tt else convert OlManager (restart_repair_downloads identity));
  mret assessment.

Definition lifecycle_authorize_activation (l : TrustedOptionalPackLifecycleV1) (identity : PackRevision)
    (selection_id : str) (selected : Z) (admission : LoadoutAdmissionV1) : life unit :=
  entry ← from (map_err OlCatalog (installable_entry identity (tl_catalog l)));
  selection ← from (map_err OlSelection
    (measured_local_authorize (ce_manifest entry) (user_request selection_id InstallAndActivate selected) (Some admission)));
  convert OlManager (authorize_activation identity selection).

Definition lifecycle_abandon (identity : PackRevision) (expected_nonce : str) : life unit :=
  convert OlManager (abandon_self_test_challenge identity expected_nonce).

Definition lifecycle_remove (identity : PackRevision) (explicit_user_confirmation : bool) : life Z :=
  _ ← refuse (negb explicit_user_confirmation) OlExplicitConfirmationRequired;
  convert OlManager (remove (pr_pack_id identity) RequireUnreferenced).

Fixpoint import_artifacts (identity : PackRevision) (evidence : list ArtifactEvidence) : life unit :=
  match evidence with
  | [] => mret tt
  | e :: evidence =>
      _ ← convert (λ x, match x with MgResume r => OlResume r | x => OlManager x end)
            (journal_call identity (ae_artifact_id e) (record_bytes (ae_size_bytes e)));
      _ ← convert OlManager (accept_verified_artifact identity e);
      import_artifacts identity evidence
  end.

Definition import_verified_downloads (l : TrustedOptionalPackLifecycleV1) (identity : PackRevision)
    (selection_id : str) (selected : Z) (explicit_user_confirmation license_accepted : bool)
    (evidence : list ArtifactEvidence) : life InstallState :=
  _ ← refuse (negb explicit_user_confirmation) OlExplicitConfirmationRequired;
  entry ← from (map_err OlCatalog (installable_entry identity (tl_catalog l)));
  selection ← from (map_err OlSelection
    (measured_local_authorize (ce_manifest entry) (user_request selection_id InstallOnly selected) None));
  _ ← convert OlManager (begin_install (ce_manifest entry) (tl_catalog_binding l) selection license_accepted);
  _ ← import_artifacts identity evidence;
  _ ← convert OlManager (stage identity);
  state_of identity.
End lifecycle.
