(* ===== verification/PackSpec.v ===== *)
(** * Model packs: what is activated has been earned

    The operations of the manager as steps, with the history of those that succeeded. The
    storage may change in any way between two steps and answer anything. *)

From S2P Require Import Prelude Text Measurement Governor Archive PackManifest PackManager.

#[local] Open Scope Z_scope.

(** ** Verified artifacts *)

(** The bytes a reader delivers until its end, when no read fails before it. *)
Fixpoint delivered (reads : list (result str (list Z))) : option (list Z) :=
  match reads with
  | [] | Ok [] :: _ => Some []
  | Err _ :: _ => None
  | Ok block :: reads => app block <$> delivered reads
  end.

Lemma read_artifact_Ok expected reads size hashed n data :
  expected ≤ u64_max → size ≤ expected →
  read_artifact expected reads size hashed = Ok (n, data) ↔
  ∃ rest, delivered reads = Some rest ∧ data = hashed ++ rest ∧ n = size + Z.of_nat (length rest) ∧ n ≤ expected.
Proof.
  intros Hu. revert size hashed n data. induction reads as [|[[|b block]|e] reads IH]; intros size hashed n data Hs; cbn [read_artifact delivered].
  1,2: split; [intros [= <- <-]; exists []; rewrite app_nil_r; cbn; repeat split; lia|].
  1,2: intros (rest&[= <-]&->&->&_); by rewrite app_nil_r, Z.add_0_r.
  - cbv zeta. set (read := Z.of_nat (length (b :: block))). assert (0 ≤ read) by (unfold read; lia).
    destruct (delivered reads) as [rest|] eqn:E; cbn [fmap option_fmap option_map].
    + rewrite !if_err_Ok, !Z.ltb_ge. split.
      * intros (_&Hle&Hr). apply IH in Hr as (rest'&[= ->]&->&->&Hmax); [|done].
        exists ((b :: block) ++ rest'). rewrite <-app_assoc, length_app, Nat2Z.inj_add. fold read.
        split; [done|]. split; [done|]. lia.
      * intros (rest'&[= <-]&->&->&Hmax).
        assert (Z.of_nat (length (b :: block ++ rest)) = read + Z.of_nat (length rest)) as Hlen
          by (unfold read; cbn [length]; rewrite length_app; lia).
        cbn [app] in *. rewrite Hlen in Hmax |- *.
        split; [lia|]. split; [lia|]. apply IH; [lia|]. exists rest. rewrite <-app_assoc. split; [done|]. split; [done|]. lia.
    + split; [|by intros (?&?&_)]. rewrite !if_err_Ok, !Z.ltb_ge. intros (_&Hle&Hr). apply IH in Hr as (?&?&_); [done|done].
  - split; [done|]. by intros (?&?&_).
Qed.

(** C39: An artifact is accepted exactly when its reader reaches its end without an error and
    what it delivered, however it was cut into blocks, has the expected size and digest. *)
Theorem verify_artifact_exact `{CatalogApi} id expected_size expected_sha256 reads evidence :
  0 ≤ expected_size ≤ u64_max →
  verify_artifact id expected_size expected_sha256 reads = Ok evidence ↔
  ∃ data, delivered reads = Some data ∧ Z.of_nat (length data) = expected_size ∧
    sha256_parse (sha256_of_bytes data) = Ok expected_sha256 ∧
    evidence = {| ae_artifact_id := id; ae_size_bytes := expected_size; ae_sha256 := expected_sha256 |}.
Proof.
  intros Hs. unfold verify_artifact. rewrite bind_Ok. split.
  - intros ([n data]&Hr&Hrest). apply read_artifact_Ok in Hr as (rest&Hd&->&->&_); [|lia..]. cbn in Hrest.
    apply if_err_Ok in Hrest as [Hsize Hrest]. apply negb_false_iff, Z.eqb_eq in Hsize.
    apply bind_Ok in Hrest as (actual&Ha%map_err_Ok&Hrest). apply if_err_Ok in Hrest as [Hsha [= <-]].
    apply negb_false_iff, bool_decide_eq_true in Hsha as ->. exists rest. by rewrite Hsize.
  - intros (data&Hd&Hsize&Hsha&->). exists (expected_size, data). split.
    + apply read_artifact_Ok; [lia|lia|]. exists data. split; [done|]. split; [done|]. lia.
    + cbn. rewrite Z.eqb_refl. cbn. rewrite Hsha. cbn. unfold str_eqb. by rewrite bool_decide_eq_true_2.
Qed.

(** ** A program logic: an invariant on failure, a postcondition on success *)

Section triples.
Context {S : Type}.
Implicit Types m : ModelPackManager S.

Definition wpi {E A} (inv : ModelPackManager S → Prop) (p : program S E A) (post : A → ModelPackManager S → Prop) m : Prop :=
  match p m with (m', Ok a) => post a m' | (m', Err _) => inv m' end.

Context (inv : ModelPackManager S → Prop).

Lemma wpi_bind {E A B} (p : program S E A) (f : A → program S E B) post m :
  wpi inv p (λ a, wpi inv (f a) post) m → wpi inv (p ≫= f) post m.
Proof. unfold wpi, mbind, program_bind. by destruct (p m) as [m' [a|e]]. Qed.

Lemma wpi_ret {E A} (a : A) post m : post a m → wpi (E := E) inv (mret a) post m.
Proof. done. Qed.

Lemma wpi_throw {E A} (e : E) (post : A → _) m : inv m → wpi inv (throw e) post m.
Proof. done. Qed.

Lemma wpi_read {E A} (f : _ → A) post m : post (f m) m → wpi (E := E) inv (look f) post m.
Proof. done. Qed.

Lemma wpi_write f (post : unit → _) m : post tt (f m) → wpi inv (write f) post m.
Proof. done. Qed.

Lemma wpi_from {E A} (r : result E A) post m : inv m → (∀ a, r = Ok a → post a m) → wpi inv (from r) post m.
Proof. unfold wpi, from. destruct r; naive_solver. Qed.

Lemma wpi_refuse {E} b (e : E) (post : unit → _) m : inv m → (b = false → post tt m) → wpi inv (refuse b e) post m.
Proof. unfold refuse. destruct b; [done|]. intros _ Hp. by apply Hp. Qed.

Lemma wpi_get_record identity post m :
  inv m → (∀ r, mm_records m !! identity = Some r → post r m) → wpi inv (get_record identity) post m.
Proof. unfold wpi, get_record. intros Hi Hp. destruct (mm_records m !! identity); cbn; [by apply Hp|done]. Qed.

Lemma wpi_get_record_some identity r post m :
  mm_records m !! identity = Some r → post r m → wpi inv (get_record identity) post m.
Proof. unfold wpi, get_record. by intros ->. Qed.

Lemma wpi_get_staged identity post m :
  inv m → (∀ s, mm_staged m !! identity = Some s → post s m) → wpi inv (get_staged identity) post m.
Proof. unfold wpi, get_staged. intros Hi Hp. destruct (mm_staged m !! identity); cbn; [by apply Hp|done]. Qed.

Lemma wpi_storage_call {A} f (post : A → _) m :
  (∀ s, inv (set_storage s m)) → (∀ s a, post a (set_storage s m)) → wpi inv (storage_call f) post m.
Proof. unfold wpi, storage_call. intros Hi Hp. destruct (f (mm_storage m)) as [s [a|e]]; cbn; [apply Hp|apply Hi]. Qed.

Lemma wpi_storage_try {A} f (post : result StorageError A → _) m :
  (∀ s a, post a (set_storage s m)) → wpi inv (storage_try f) post m.
Proof. unfold wpi, storage_try. intros Hp. destruct (f (mm_storage m)) as [s a]. apply Hp. Qed.

Lemma wpi_storage_read {A} f (post : A → _) m :
  inv m → (∀ a, f (mm_storage m) = Ok a → post a m) → wpi inv (storage_read f) post m.
Proof. unfold wpi, storage_read. intros Hi Hp. destruct (f (mm_storage m)); cbn; [by apply Hp|done]. Qed.

Lemma wpi_require_state allowed r post m :
  inv m → (allowed (pk_state r) = true → post tt m) → wpi inv (require_state allowed r) post m.
Proof. intros Hi Hp. apply wpi_refuse; [done|]. intros Hb%negb_false_iff. by apply Hp. Qed.

Lemma wpi_move identity state post m :
  post tt (map_records (alter (with_state state) identity) m) → wpi inv (move identity state) post m.
Proof. done. Qed.

Lemma wpi_put identity r post m :
  post tt (map_records (<[identity := r]>) m) → wpi inv (put_record identity r) post m.
Proof. done. Qed.

Lemma wpi_quarantine {A} identity phase reason retryable e (post : A → _) m :
  inv m → inv (map_records (alter (with_state (Quarantined phase reason retryable)) identity) m) →
  wpi inv (quarantine identity phase reason retryable e) post m.
Proof. intros Hi Hq. apply wpi_bind, wpi_get_record; [done|]. intros r _. by apply wpi_bind, wpi_move. Qed.

Lemma wpi_mono {E A} (p : program S E A) (post post' : A → _) m :
  wpi inv p post m → (∀ a m', post a m' → post' a m') → wpi inv p post' m.
Proof. unfold wpi. destruct (p m) as [m' [a|e]]; auto. Qed.

Lemma wpi_convert {E F A} (f : E → F) (p : program S E A) post m : wpi inv p post m → wpi inv (convert f p) post m.
Proof. unfold wpi, convert. by destruct (p m) as [m' [a|e]]. Qed.
End triples.

(** One step through a program; the invariant is left to the hints. *)
Create HintDb packs.
Ltac pack_inv := try solve [intros; auto 6 with packs].
Ltac pack_prim :=
  lazymatch goal with
  | |- wpi _ (mret _) _ _ => apply wpi_ret
  | |- wpi _ (throw _) _ _ => apply wpi_throw; pack_inv
  | |- wpi _ (look _) _ _ => apply wpi_read
  | |- wpi _ (write _) _ _ => apply wpi_write
  | |- wpi _ (from _) _ _ => apply wpi_from; [pack_inv|]
  | |- wpi _ (refuse _ _) _ _ => apply wpi_refuse; [pack_inv|]
  | |- wpi _ (get_record _) _ _ => apply wpi_get_record; [pack_inv|]
  | |- wpi _ (get_staged _) _ _ => apply wpi_get_staged; [pack_inv|]
  | |- wpi _ (storage_call _) _ _ => apply wpi_storage_call; [pack_inv|]
  | |- wpi _ (storage_try _) _ _ => apply wpi_storage_try
  | |- wpi _ (storage_read _) _ _ => apply wpi_storage_read; [pack_inv|]
  | |- wpi _ (require_state _ _) _ _ => apply wpi_require_state; [pack_inv|]
  | |- wpi _ (move _ _) _ _ => apply wpi_move
  | |- wpi _ (put_record _ _) _ _ => apply wpi_put
  | |- wpi _ (quarantine _ _ _ _ _) _ _ => apply wpi_quarantine; pack_inv
  | |- wpi _ (quarantine_attested_failure _ _ _) _ _ => apply wpi_quarantine; pack_inv
  end.
Ltac pack_step := cbv beta zeta; lazymatch goal with |- wpi _ (_ ≫= _) _ _ => apply wpi_bind; pack_step | _ => pack_prim end; cbv beta zeta.

(** ** Histories *)

Section history.
Context {S : Type} `{CatalogApi, PackApi, !PackStorage S}.
Context (verifier : SelfTestAttestationVerifier).
Implicit Types m : ModelPackManager S.

Inductive JournalCall :=
| CallAcceptResponse (response : ResumeResponse)
| CallRecordBytes (count : Z)
| CallMarkVerified (evidence : ArtifactEvidence)
| CallRestart.

Definition journal_run (c : JournalCall) (j : DownloadJournal) : DownloadJournal * result ResumeError unit :=
  match c with
  | CallAcceptResponse response => accept_response response j
  | CallRecordBytes count => record_bytes count j
  | CallMarkVerified evidence => mark_verified evidence j
  | CallRestart => (journal_restart j, Ok tt)
  end.

Inductive PackOp :=
| OpInstall (manifest : ModelPackManifestV1) (catalog : CatalogInstallBindingV1)
    (selection : PackSelectionAuthorizationV1) (license_accepted : bool)
| OpUpdate (manifest : ModelPackManifestV1) (catalog : CatalogInstallBindingV1)
    (selection : PackSelectionAuthorizationV1) (license_accepted : bool)
| OpJournal (identity : PackRevision) (artifact_id : str) (call : JournalCall)
| OpAccept (identity : PackRevision) (evidence : ArtifactEvidence)
| OpStage (identity : PackRevision)
| OpAuthorize (identity : PackRevision) (selection : PackSelectionAuthorizationV1)
| OpChallenge (identity : PackRevision) (backend : str) (now lifetime : Z) (nonce : result str str)
| OpAbandon (identity : PackRevision) (nonce : str)
| OpAttest (identity : PackRevision) (a : SelfTestAttestationV1) (now : Z)
| OpActivate (identity : PackRevision)
| OpAddReference (pack_id consumer : str)
| OpReleaseReference (pack_id consumer : str)
| OpRemove (pack_id : str) (policy : RemovalPolicy)
| OpRollback (pack_id : str)
| OpRepair (identity : PackRevision)
| OpRestart (identity : PackRevision)
| OpStorage (storage : S).

Definition forget {E A} (p : program S E A) : program S E unit := _ ← p; mret tt.

Definition pack_do (op : PackOp) : mgr S unit :=
  match op with
  | OpInstall manifest catalog selection accepted => forget (begin_install manifest catalog selection accepted)
  | OpUpdate manifest catalog selection accepted => forget (begin_update manifest catalog selection accepted)
  | OpJournal identity artifact_id call => journal_call identity artifact_id (journal_run call)
  | OpAccept identity evidence => accept_verified_artifact identity evidence
  | OpStage identity => stage identity
  | OpAuthorize identity selection => authorize_activation identity selection
  | OpChallenge identity backend now lifetime nonce =>
      forget (issue_self_test_challenge identity backend now lifetime nonce)
  | OpAbandon identity nonce => abandon_self_test_challenge identity nonce
  | OpAttest identity a now => record_self_test_attestation identity a verifier now
  | OpActivate identity => activate identity
  | OpAddReference pack_id consumer => add_reference pack_id consumer
  | OpReleaseReference pack_id consumer => forget (release_reference pack_id consumer)
  | OpRemove pack_id policy => forget (remove pack_id policy)
  | OpRollback pack_id => forget (rollback pack_id)
  | OpRepair identity => forget (begin_repair identity)
  | OpRestart identity => restart_repair_downloads identity
  | OpStorage storage => write (set_storage storage)
  end.

(** The operations that succeeded, the newest first, each with the state before it. *)
Abbreviation Past := (list (PackOp * ModelPackManager S)) (only parsing).

Inductive packs_reach : ModelPackManager S → Past → Prop :=
| packs_start storage : packs_reach (manager_new storage) []
| packs_step m h op m' answer :
    packs_reach m h → pack_do op m = (m', answer) →
    packs_reach m' (if is_ok answer then (op, m) :: h else h).

(** ** What holds of a record *)

Definition artifact_ids (manifest : ModelPackManifestV1) : gset str := list_to_set (ar_id <$> mf_artifacts manifest).

(** Every artifact of the manifest has verified evidence. *)
Definition complete (r : PackRecord) : Prop := dom (pk_evidence r) = artifact_ids (pk_manifest r).

Definition evidence_ok (manifest : ModelPackManifestV1) (evidence : gmap str ArtifactEvidence) : Prop :=
  map_Forall (λ id e, ∃ a, a ∈ mf_artifacts manifest ∧ ar_id a = id ∧
    e = {| ae_artifact_id := id; ae_size_bytes := ar_size_bytes a; ae_sha256 := ar_sha256 a |}) evidence.

(** What an attestation has to say to pass: it answers the challenge that was issued for this
    revision, while the challenge is valid; the verifier was asked for the runner it claims,
    with its proof and its very content, and vouched for that runner; and the test it
    reports ran, in its time, passed, and gave the output the manifest expects. *)
Record answers (identity : PackRevision) (manifest : ModelPackManifestV1) (challenge : SelfTestChallengeV1)
    (a : SelfTestAttestationV1) (now : Z) (runner : VerifiedRunnerIdentity) : Prop := {
  an_schema : ap_schema (at_signed a) = SELF_TEST_ATTESTATION_SCHEMA_V1;
  an_challenge : ap_challenge (at_signed a) = challenge;
  an_identity : ch_identity challenge = identity;
  an_nonce : str_len (ch_nonce challenge) = 64;
  an_lifetime : 0 < ch_expires_unix_seconds challenge - ch_issued_unix_seconds challenge
    ≤ MAX_SELF_TEST_ATTESTATION_LIFETIME_SECONDS;
  an_in_time : ch_issued_unix_seconds challenge ≤ now ≤ ch_expires_unix_seconds challenge;
  an_verified : ∃ payload, canonical_attestation_payload_bytes (at_signed a) = Ok payload ∧
    verifier (ap_runner_id (at_signed a)) (at_proof a) payload = Ok runner;
  an_runner : vr_runner_id runner = ap_runner_id (at_signed a);
  an_passed : ao_passed (ap_outcome (at_signed a)) = true;
  an_duration : ao_duration_millis (ap_outcome (at_signed a)) ≤ stt_timeout_millis (mf_self_test manifest);
  an_output : ∀ expected, stt_expected_output_sha256 (mf_self_test manifest) = Some expected →
    ao_output_sha256 (ap_outcome (at_signed a)) = Some expected
}.

(** The selection a pack is activated with is the one of its manifest, allows activation,
    and a measured one has the evidence that the loadout fits. *)
Record selected_for_activation (manifest : ModelPackManifestV1) (s : PackSelectionAuthorizationV1) : Prop := {
  sf_identity : sa_identity s = manifest_identity manifest;
  sf_manifest : manifest_digest manifest = Ok (sa_manifest_sha256 s);
  sf_kind : sa_kind s = mc_kind (mf_capability manifest);
  sf_scope : sa_scope s = mc_scope (mf_capability manifest);
  sf_allowed : sa_activation_allowed s = true;
  sf_fit : sa_policy s = MEASURED_LOCAL_SELECTION_POLICY_V1 → is_Some (sa_fit_evidence_sha256 s)
}.

(** The attestation that earned a receipt, and nothing activated with it since. *)
Definition attested (h : Past) (identity : PackRevision) (receipt : SelfTestAuthorizationReceiptV1) : Prop :=
  ∃ h1 a now m0 h2 r challenge runner staged,
    h = h1 ++ (OpAttest identity a now, m0) :: h2 ∧
    Forall (λ e, e.1 ≠ OpActivate identity) h1 ∧
    mm_records m0 !! identity = Some r ∧ complete r ∧ evidence_ok (pk_manifest r) (pk_evidence r) ∧
    manifest_digest (pk_manifest r) = Ok (pk_manifest_sha256 r) ∧
    mm_pending_self_tests m0 !! identity = Some challenge ∧
    answers identity (pk_manifest r) challenge a now runner ∧
    ch_manifest_sha256 challenge = pk_manifest_sha256 r ∧
    sb_manifest_sha256 (ch_staged challenge) = pk_manifest_sha256 r ∧
    mm_staged m0 !! identity = Some staged ∧
    staged_content_binding staged (mm_storage m0) = Ok (ch_staged challenge) ∧
    rt_staged receipt = ch_staged challenge ∧
    attestation_digest a = Ok (rt_attestation_sha256 receipt) ∧
    rt_runner_id receipt = vr_runner_id runner ∧ rt_nonce receipt = ch_nonce challenge ∧
    rt_replay_key receipt = attestation_replay_key identity (vr_runner_id runner) (ch_nonce challenge) ∧
    rt_verified_unix_seconds receipt = now.

Definition journal_for (a : ArtifactV1) (j : DownloadJournal) : Prop :=
  dj_artifact_id j = ar_id a ∧ dj_expected_size j = ar_size_bytes a ∧ dj_expected_sha256 j = ar_sha256 a.

Definition needs_evidence (s : InstallState) : bool :=
  match s with Staging | AwaitingSelfTest | Activating => true | _ => false end.

Record record_ok (h : Past) (immutable : gmap PackRevision Sha256Digest) (identity : PackRevision) (r : PackRecord) : Prop := {
  ro_identity : manifest_identity (pk_manifest r) = identity;
  ro_digest : manifest_digest (pk_manifest r) = Ok (pk_manifest_sha256 r);
  ro_immutable : immutable !! identity = Some (pk_manifest_sha256 r);
  ro_selection : validate_for_manifest (pk_manifest r) (pk_selection r) = Ok tt;
  ro_journals : map_Forall (λ id j, ∃ a, a ∈ mf_artifacts (pk_manifest r) ∧ ar_id a = id ∧ journal_for a j) (pk_downloads r);
  ro_downloads : dom (pk_downloads r) = artifact_ids (pk_manifest r);
  ro_evidence : evidence_ok (pk_manifest r) (pk_evidence r);
  ro_complete : needs_evidence (pk_state r) = true → complete r;
  ro_receipt : pk_state r = Activating →
    ∃ receipt, pk_self_test_authorization r = Some receipt ∧ attested h identity receipt
}.

Record challenge_ok (immutable : gmap PackRevision Sha256Digest) (identity : PackRevision) (c : SelfTestChallengeV1) : Prop := {
  co_manifest : immutable !! identity = Some (ch_manifest_sha256 c);
  co_staged : sb_manifest_sha256 (ch_staged c) = ch_manifest_sha256 c
}.

(** The activation of a revision, with everything it rests on. *)
Definition earned (m0 : ModelPackManager S) (h : Past) (identity : PackRevision) : Prop :=
  ∃ r receipt staged,
    mm_records m0 !! identity = Some r ∧ selected_for_activation (pk_manifest r) (pk_selection r) ∧
    validate_for_manifest (pk_manifest r) (pk_selection r) = Ok tt ∧
    mm_staged m0 !! identity = Some staged ∧
    staged_content_binding staged (mm_storage m0) = Ok (rt_staged receipt) ∧
    attested h identity receipt.

Definition activated (h : Past) (identity : PackRevision) : Prop := ∃ m0, (OpActivate identity, m0) ∈ h.

Definition installs (op : PackOp) : option ModelPackManifestV1 :=
  match op with OpInstall manifest _ _ _ | OpUpdate manifest _ _ _ => Some manifest | _ => None end.

Definition history_ok (h : Past) : Prop :=
  ∀ h1 identity m0 h2, h = h1 ++ (OpActivate identity, m0) :: h2 → earned m0 h2 identity.

Record packs_ok (h : Past) (m : ModelPackManager S) : Prop := {
  po_records : map_Forall (record_ok h (mm_immutable_revisions m)) (mm_records m);
  po_pending : map_Forall (challenge_ok (mm_immutable_revisions m)) (mm_pending_self_tests m);
  po_active : map_Forall (λ pack revision, activated h {| pr_pack_id := pack; pr_revision := revision |}) (mm_active m);
  po_rollback : map_Forall (λ pack, Forall (λ revision, activated h {| pr_pack_id := pack; pr_revision := revision |})) (mm_rollback m);
  po_installed : ∀ op m0 manifest, (op, m0) ∈ h → installs op = Some manifest →
    ∃ digest, manifest_digest manifest = Ok digest ∧ mm_immutable_revisions m !! manifest_identity manifest = Some digest;
  po_history : history_ok h
}.

(** *** The parts of the state the invariant does not read *)

Lemma packs_ok_same h m m' :
  packs_ok h m → mm_records m' = mm_records m → mm_pending_self_tests m' = mm_pending_self_tests m →
  mm_immutable_revisions m' = mm_immutable_revisions m → mm_active m' = mm_active m → mm_rollback m' = mm_rollback m →
  packs_ok h m'.
Proof. intros [Hr Hp Ha Hb Hi Hh] E1 E2 E3 E4 E5. by split; rewrite ?E1, ?E2, ?E3, ?E4, ?E5. Qed.

Lemma packs_ok_storage h s m : packs_ok h m → packs_ok h (set_storage s m).
Proof. intros Hm. by apply (packs_ok_same _ m). Qed.

Lemma packs_ok_staged h f m : packs_ok h m → packs_ok h (map_staged f m).
Proof. intros Hm. by apply (packs_ok_same _ m). Qed.

Lemma packs_ok_references h f m :
  packs_ok h m → packs_ok h (set_packs (mm_active m) (mm_rollback m) f m).
Proof. intros Hm. by apply (packs_ok_same _ m). Qed.

Lemma packs_ok_no_challenge h identity m : packs_ok h m → packs_ok h (map_pending (delete identity) m).
Proof. intros [Hr Hp Ha Hb Hi Hh]. split; try done. cbn. by apply map_Forall_delete. Qed.

Lemma packs_ok_challenge h identity c m :
  packs_ok h m → challenge_ok (mm_immutable_revisions m) identity c →
  packs_ok h (map_pending (<[identity := c]>) m).
Proof. intros [Hr Hp Ha Hb Hi Hh] Hc. split; try done. cbn. by apply map_Forall_insert_2. Qed.

Lemma packs_ok_record h identity r m :
  packs_ok h m → record_ok h (mm_immutable_revisions m) identity r →
  packs_ok h (map_records (<[identity := r]>) m).
Proof. intros [Hr Hp Ha Hb Hi Hh] Hok. split; try done. cbn. by apply map_Forall_insert_2. Qed.

Lemma packs_ok_forget h identity m : packs_ok h m → packs_ok h (map_records (delete identity) m).
Proof. intros [Hr Hp Ha Hb Hi Hh]. split; try done. cbn. by apply map_Forall_delete. Qed.

(** A record may move to any state that claims nothing. *)
Lemma record_ok_state h i identity state r :
  record_ok h i identity r → (needs_evidence state = true → complete r) → state ≠ Activating →
  record_ok h i identity (with_state state r).
Proof. intros [] Hc Hs. by split. Qed.

Lemma packs_ok_move h identity state m :
  packs_ok h m → state ≠ Activating →
  (∀ r, mm_records m !! identity = Some r → needs_evidence state = true → complete r) →
  packs_ok h (map_records (alter (with_state state) identity) m).
Proof.
  intros [Hr Hp Ha Hb Hi Hh] Hs Hc. split; try done. cbn. intros i r Hl.
  apply lookup_alter_Some in Hl as [(->&r'&Hl&->)|[? Hl]]; [|by apply Hr].
  apply record_ok_state; [by apply Hr|by apply Hc|done].
Qed.

Lemma packs_ok_quarantine h identity phase reason retryable m :
  packs_ok h m → packs_ok h (map_records (alter (with_state (Quarantined phase reason retryable)) identity) m).
Proof. intros Hm. by apply packs_ok_move. Qed.

Hint Resolve packs_ok_storage packs_ok_staged packs_ok_references packs_ok_no_challenge packs_ok_quarantine
  packs_ok_forget : packs.

(** *** Events *)

Lemma attested_event h identity receipt op m0 :
  attested h identity receipt → op ≠ OpActivate identity → attested ((op, m0) :: h) identity receipt.
Proof.
  intros (h1&a&now&m1&h2&r&c&v&s&->&Hn&Hrest) Ho. exists ((op, m0) :: h1), a, now, m1, h2, r, c, v, s.
  split; [done|]. split; [by constructor|done].
Qed.

Lemma activated_event h identity e : activated h identity → activated (e :: h) identity.
Proof. intros [m0 Hm]. exists m0. by right. Qed.

Lemma history_event h op m0 :
  history_ok h → (∀ identity, op = OpActivate identity → earned m0 h identity) → history_ok ((op, m0) :: h).
Proof.
  intros Hh Ho [|e h1] identity m1 h2 E; cbn in E; simplify_eq.
  - by apply Ho.
  - by apply (Hh h1).
Qed.

Lemma record_event h i identity r op m0 :
  record_ok h i identity r → (op = OpActivate identity → pk_state r ≠ Activating) →
  record_ok ((op, m0) :: h) i identity r.
Proof.
  intros [] Ho. split; try done. intros Hs. destruct (ro_receipt0 Hs) as (receipt&?&?). exists receipt.
  split; [done|]. apply attested_event; [done|]. intros ->. by apply Ho.
Qed.

Lemma packs_ok_event h op m0 m :
  packs_ok h m →
  (∀ identity, op = OpActivate identity → earned m0 h identity ∧
    ∀ r, mm_records m !! identity = Some r → pk_state r ≠ Activating) →
  (∀ manifest, installs op = Some manifest → ∃ digest, manifest_digest manifest = Ok digest ∧
    mm_immutable_revisions m !! manifest_identity manifest = Some digest) →
  packs_ok ((op, m0) :: h) m.
Proof.
  intros [Hr Hp Ha Hb Hi Hh] Ho Hn. split.
  - intros i r Hl. apply record_event; [by apply Hr|]. intros E. by apply (Ho i E).
  - done.
  - intros p v Hl. apply activated_event, (Ha p v Hl).
  - intros p vs Hl. eapply Forall_impl; [apply (Hb p vs Hl)|]. intros v. apply activated_event.
  - intros o m1 manifest [[= -> ->]|Hin]%elem_of_cons; [by apply Hn|by apply (Hi o m1)].
  - apply history_event; [done|]. intros i E. apply (Ho i E).
Qed.

Lemma packs_ok_quiet h op m0 m :
  packs_ok h m → (∀ identity, op ≠ OpActivate identity) → installs op = None → packs_ok ((op, m0) :: h) m.
Proof. intros Hm Ho Hn. apply packs_ok_event; [done|naive_solver|]. intros manifest. by rewrite Hn. Qed.

Lemma packs_ok_make_active h identity m : packs_ok h m → activated h identity → packs_ok h (make_active identity m).
Proof.
  destruct identity as [pack revision]. intros [Hr Hp Ha Hb Hi Hh] Hact. split; try done; cbn.
  - by apply map_Forall_insert_2.
  - destruct (mm_active m !! pack) as [old|] eqn:E; [|done]. destruct (negb _); [|done].
    apply map_Forall_insert_2; [|done]. apply Forall_app. split; [|by repeat constructor; apply (Ha pack old E)].
    destruct (mm_rollback m !! pack) as [vs|] eqn:Ev; [|done]. cbn. by apply (Hb pack vs Ev).
Qed.

Lemma packs_ok_install h identity r digest m :
  packs_ok h m → record_ok h (<[identity := digest]> (mm_immutable_revisions m)) identity r →
  default digest (mm_immutable_revisions m !! identity) = digest →
  packs_ok h (map_immutable (<[identity := digest]>) (map_records (<[identity := r]>) m)).
Proof.
  intros [Hr Hp Ha Hb Hi Hh] Hok Hsame.
  assert (∀ k d, mm_immutable_revisions m !! k = Some d →
    <[identity := digest]> (mm_immutable_revisions m) !! k = Some d) as Hgrow.
  { intros k d Hd. destruct (decide (k = identity)) as [->|Hne]; [|by rewrite lookup_insert_ne].
    rewrite lookup_insert_eq. rewrite Hd in Hsame. cbn in Hsame. by rewrite Hsame. }
  split; try done; cbn.
  - apply map_Forall_insert_2; [done|]. intros k r' Hl. destruct (Hr k r' Hl). split; auto.
  - intros k c Hl. destruct (Hp k c Hl). split; auto.
  - intros op m0 manifest Hin Hop. destruct (Hi op m0 manifest Hin Hop) as (d&?&?). exists d. auto.
Qed.

(** *** Maps collected from the artifacts *)

Lemma foldl_insert_lookup {A} (l : list (str * A)) (acc : gmap str A) k v :
  foldl (λ (acc : gmap str A) p, <[p.1 := p.2]> acc) acc l !! k = Some v → (k, v) ∈ l ∨ acc !! k = Some v.
Proof.
  revert acc. induction l as [|[k' v'] l IH]; intros acc; cbn; [by right|].
  intros [Hin|Hl]%IH; [left; by right|]. apply lookup_insert_Some in Hl as [[<- <-]|[? ?]]; [|by right].
  left. by left.
Qed.

Lemma foldl_insert_dom {A} (l : list (str * A)) (acc : gmap str A) :
  dom (foldl (λ (acc : gmap str A) p, <[p.1 := p.2]> acc) acc l) = list_to_set l.*1 ∪ dom acc.
Proof.
  revert acc. induction l as [|[k v] l IH]; intros acc; cbn; [set_solver|].
  rewrite IH, dom_insert_L. set_solver.
Qed.

Lemma new_downloads_ok manifest :
  map_Forall (λ id j, ∃ a, a ∈ mf_artifacts manifest ∧ ar_id a = id ∧ journal_for a j) (new_downloads manifest) ∧
  dom (new_downloads manifest) = artifact_ids manifest.
Proof.
  unfold new_downloads, btree_collect. split.
  - intros k j Hl. apply foldl_insert_lookup in Hl as [Hin|Hl]; [|by rewrite lookup_empty in Hl].
    apply list_elem_of_fmap in Hin as (a&[= -> ->]&Ha). by exists a.
  - rewrite foldl_insert_dom. unfold artifact_ids. rewrite <-list_fmap_compose.
    change (fst ∘ _) with ar_id. set_solver.
Qed.

Lemma journal_run_for a c j : journal_for a j → journal_for a (journal_run c j).1.
Proof.
  intros Hj. destruct c; cbn; [|unfold record_bytes|unfold mark_verified|done].
  - unfold accept_response. by destruct (check_resumed _ _).
  - repeat case_match; done.
  - repeat case_match; done.
Qed.

Lemma mark_verified_Ok a e j j' :
  journal_for a j → mark_verified e j = (j', Ok tt) →
  journal_for a j' ∧ e = {| ae_artifact_id := ar_id a; ae_size_bytes := ar_size_bytes a; ae_sha256 := ar_sha256 a |}.
Proof.
  intros Hj E. split; [by pose proof (journal_run_for a (CallMarkVerified e) j Hj) as Hr; cbn in Hr; rewrite E in Hr|].
  unfold mark_verified in E. destruct (_ || _) eqn:Hb in E; [done|].
  apply orb_false_iff in Hb as [[[H1 H2]%orb_false_iff H3]%orb_false_iff _].
  unfold str_eqb in *. rewrite negb_false_iff, ?bool_decide_eq_true, ?Z.eqb_eq in *.
  destruct Hj as (E1&E2&E3), e; cbn in *. congruence.
Qed.

(** *** The operations keep the invariant *)

Section operations.
Context (h : Past).
Abbreviation keeps p := (∀ m, packs_ok h m → wpi (packs_ok h) p (λ _ m', packs_ok h m') m).

Lemma journal_keeps identity artifact_id c : keeps (journal_call identity artifact_id (journal_run c)).
Proof.
  intros m Hm. unfold journal_call. pack_step. intros r Hr. pack_step. intros _. pack_step.
  intros j Hj%ok_or_Ok. destruct (journal_run c j) as [j' answer] eqn:Ej. pack_step.
  destruct (po_records _ _ Hm _ _ Hr). destruct (ro_journals0 _ _ Hj) as (ar&Har&Hid&Hfor).
  assert (packs_ok h (map_records (<[identity := with_progress (<[artifact_id := j']> (pk_downloads r)) (pk_evidence r) r]>) m)).
  { apply packs_ok_record; [done|]. split; try done; cbn.
    - apply map_Forall_insert_2; [|done]. exists ar. split; [done|]. split; [done|].
      pose proof (journal_run_for ar c j Hfor) as Hrun. by rewrite Ej in Hrun.
    - rewrite dom_insert_lookup_L; [done|by eexists]. }
  by pack_step.
Qed.

Lemma evidence_ids manifest evidence : evidence_ok manifest evidence → dom evidence ⊆ artifact_ids manifest.
Proof.
  intros He id Hin. apply elem_of_dom in Hin as [e Hl]. destruct (He id e Hl) as (a&Ha&<-&_).
  apply elem_of_list_to_set, list_elem_of_fmap. by exists a.
Qed.

Lemma accept_keeps identity evidence : keeps (accept_verified_artifact identity evidence).
Proof.
  intros m Hm. unfold accept_verified_artifact. pack_step. intros r Hr. pack_step. intros _. pack_step.
  intros j Hj%ok_or_Ok. destruct (mark_verified evidence j) as [j' answer] eqn:Ej. pack_step.
  intros [] ->%map_err_Ok. pack_step.
  destruct (po_records _ _ Hm _ _ Hr). destruct (ro_journals0 _ _ Hj) as (ar&Har&Hid&Hfor).
  destruct (mark_verified_Ok _ _ _ _ Hfor Ej) as [Hfor' ->]. cbn in *. clear Hid.
  assert (evidence_ok (pk_manifest r) (<[ar_id ar := {| ae_artifact_id := ar_id ar; ae_size_bytes := ar_size_bytes ar;
    ae_sha256 := ar_sha256 ar |}]> (pk_evidence r))) as Hev.
  { apply map_Forall_insert_2; [|done]. by exists ar. }
  apply packs_ok_record; [done|]. split; try done; cbn.
  - apply map_Forall_insert_2; [|done]. by exists ar.
  - rewrite dom_insert_lookup_L; [done|by eexists].
  - destruct (Nat.eqb_spec (size (<[ar_id ar := {| ae_artifact_id := ar_id ar; ae_size_bytes := ar_size_bytes ar;
      ae_sha256 := ar_sha256 ar |}]> (pk_evidence r))) (size (<[ar_id ar := j']> (pk_downloads r)))) as [Hsize|]; [|done].
    intros _. unfold complete. cbn. apply (set_subseteq_size_eq _ _).
    + by apply evidence_ids.
    + rewrite <-ro_downloads0. rewrite !size_dom, Hsize, <-!size_dom.
      by rewrite dom_insert_lookup_L by by eexists.
  - by destruct (Nat.eqb _ _).
Qed.

Lemma stage_keeps identity : keeps (stage identity).
Proof.
  intros m Hm. unfold stage. pack_step. intros r Hr. pack_step. intros Hs%bool_decide_eq_true. pack_step. intros _.
  pack_step. intros s staged. destruct (negb _); [by pack_prim|]. pack_step. pack_step. intros s' [[]|e]; pack_prim.
  apply packs_ok_move; [auto with packs|done|]. intros r' Hr' _. cbn in Hr'. simplify_eq.
  apply (ro_complete _ _ _ _ (po_records _ _ Hm _ _ Hr)). by rewrite Hs.
Qed.

Lemma authorize_keeps identity selection : keeps (authorize_activation identity selection).
Proof.
  intros m Hm. unfold authorize_activation. pack_step. intros r Hr. pack_step. intros Hs%bool_decide_eq_true.
  pack_step. pack_step. intros _. pack_step. intros [] Hv%map_err_Ok. pack_step. intros _. pack_step.
  destruct (po_records _ _ Hm _ _ Hr). apply packs_ok_record; [done|]. by split.
Qed.

Lemma challenge_keeps identity backend now lifetime nonce :
  keeps (issue_self_test_challenge identity backend now lifetime nonce).
Proof.
  intros m Hm. unfold issue_self_test_challenge. pack_step. intros r Hr. pack_step. intros _. pack_step. intros _.
  pack_step. intros _. pack_step. intros staged _. pack_step. intros binding _. pack_step.
  intros [_ Hb]%orb_false_iff. apply negb_false_iff, bool_decide_eq_true in Hb.
  pack_step. intros n _. pack_step. intros _. pack_step. intros [] _. pack_step. pack_step.
  apply packs_ok_challenge; [done|]. split; [|done]. cbn. apply (ro_immutable _ _ _ _ (po_records _ _ Hm _ _ Hr)).
Qed.

Lemma abandon_keeps identity nonce : keeps (abandon_self_test_challenge identity nonce).
Proof.
  intros m Hm. unfold abandon_self_test_challenge. pack_step. intros r _. pack_step. intros _. pack_step. pack_step.
  intros c _. pack_step. intros _. pack_step. by apply packs_ok_no_challenge.
Qed.

Lemma challenge_structure c : validate_challenge c = Ok tt →
  str_len (ch_nonce c) = 64 ∧
  0 < ch_expires_unix_seconds c - ch_issued_unix_seconds c ≤ MAX_SELF_TEST_ATTESTATION_LIFETIME_SECONDS.
Proof.
  unfold validate_challenge. rewrite !if_err_Ok, !orb_false_iff, !negb_false_iff, Z.eqb_eq, Z.leb_gt, Z.ltb_ge.
  intros (_&[Hn _]&[H1 H2]&_). split; [done|lia].
Qed.

Lemma attestation_answers identity r a now pending c runner :
  verify_attestation identity a verifier now pending = Ok (c, runner) →
  attested_failure r (ap_outcome (at_signed a)) = None →
  pending = Some c ∧ answers identity (pk_manifest r) c a now runner.
Proof.
  unfold verify_attestation. cbv zeta. rewrite if_err_Ok, bind_unit_Ok, bind_ok_or.
  unfold str_eqb. rewrite negb_false_iff, bool_decide_eq_true.
  intros (Hschema&Hstruct%map_err_Ok&c'&->&Hv) Hf.
  rewrite !if_err_Ok, orb_false_iff, !negb_false_iff, !bool_decide_eq_true, !Z.ltb_ge in Hv.
  destruct Hv as ([Hc Hid]&Hfrom&Huntil&Hv). apply bind_Ok in Hv as (payload&Hp%map_err_Ok&Hv).
  apply bind_Ok in Hv as (runner'&Hr%map_err_Ok&Hv). rewrite if_err_Ok, negb_false_iff, bool_decide_eq_true in Hv.
  destruct Hv as [Hname [= -> ->]]. split; [done|]. rewrite Hc in Hstruct, Hid.
  destruct (challenge_structure _ Hstruct) as [Hn Hl]. unfold attested_failure in Hf.
  destruct (_ <? _) eqn:Ht; [done|]. apply Z.ltb_ge in Ht.
  destruct (ao_passed (ap_outcome (at_signed a))) eqn:Hpass; [|done]. cbn [negb] in Hf. split; try done.
  - by exists payload.
  - intros expected He. rewrite He in Hf. destruct (negb _) eqn:Ho; [done|].
    by apply negb_false_iff, bool_decide_eq_true in Ho.
Qed.

Lemma selection_for_activation manifest s :
  validate_for_manifest manifest s = Ok tt → sa_activation_allowed s = true → selected_for_activation manifest s.
Proof.
  unfold validate_for_manifest, selection_manifest_error. rewrite if_err_Ok, negb_false_iff, bool_decide_eq_true.
  intros [Hid Hv] Ha. apply bind_Ok in Hv as (digest&Hd%map_err_Ok&Hv). unfold str_eqb in Hv.
  rewrite if_err_Ok, !orb_false_iff, !negb_false_iff, !bool_decide_eq_true in Hv.
  destruct Hv as [[[Hm Hk] Hs] Hv]. rewrite !bind_unit_Ok, Ha, andb_true_r in Hv. destruct Hv as (_&_&Hv).
  split; [done|by rewrite Hm|done..|]. intros Hp. rewrite bool_decide_eq_true_2 in Hv by done.
  by destruct (sa_fit_evidence_sha256 s).
Qed.

(** The attestation is an event, and the receipt it leaves says so. *)
Lemma attest_keeps identity a now m :
  packs_ok h m →
  wpi (packs_ok h) (record_self_test_attestation identity a verifier now)
    (λ _ m', packs_ok ((OpAttest identity a now, m) :: h) m') m.
Proof.
  intros Hm. unfold record_self_test_attestation. pack_step. intros r Hr.
  destruct (negb (is_state AwaitingSelfTest (pk_state r))) eqn:Hs; [destruct (is_some_and _ _); by pack_prim|].
  apply negb_false_iff, bool_decide_eq_true in Hs. pack_step. pack_step. intros [c runner] Hv. pack_step.
  intros staged Hst. pack_step. destruct (staged_content_binding staged (mm_storage m)) as [binding|e] eqn:Hb; [|by pack_prim].
  destruct (negb _) eqn:Hsame; [by pack_prim|]. apply negb_false_iff, bool_decide_eq_true in Hsame as ->.
  destruct (attested_failure r (ap_outcome (at_signed a))) as [[reason retryable]|] eqn:Hf; [by pack_prim|].
  pack_step. intros digest Hd%map_err_Ok. pack_step. intros s fresh. pack_step. intros _. pack_step. pack_step.
  destruct (attestation_answers _ _ _ _ _ _ _ Hv Hf) as [Hp Hans].
  pose proof (po_records _ _ Hm _ _ Hr) as Hok. destruct (po_pending _ _ Hm _ _ Hp) as [Hc1 Hc2].
  pose proof (ro_complete _ _ _ _ Hok) as Hcomplete. rewrite Hs in Hcomplete. specialize (Hcomplete eq_refl).
  assert (ch_manifest_sha256 c = pk_manifest_sha256 r) as Hc3.
  { pose proof (ro_immutable _ _ _ _ Hok). congruence. }
  assert (packs_ok ((OpAttest identity a now, m) :: h) (set_storage s m)) as Hm'.
  { apply packs_ok_quiet; [auto with packs|done|done]. }
  apply packs_ok_no_challenge, packs_ok_record; [done|]. destruct Hok. split; try done. cbn. intros _. eexists.
  split; [done|]. exists [], a, now, m, h, r, c, runner, staged. cbn.
  split; [done|]. split; [done|]. pose proof (an_challenge _ _ _ _ _ _ Hans) as Hch.
  pose proof (an_runner _ _ _ _ _ _ Hans) as Hrn.
  rewrite Hch, <-Hrn. repeat (split; [done || congruence|]). done.
Qed.

Lemma make_active_move identity j state m :
  map_records (alter (with_state state) j) (make_active identity m) =
  make_active identity (map_records (alter (with_state state) j) m).
Proof. done. Qed.

Lemma activate_keeps identity m :
  packs_ok h m →
  wpi (packs_ok h) (activate identity) (λ _ m', packs_ok ((OpActivate identity, m) :: h) m') m.
Proof.
  intros Hm. unfold activate. pack_step. intros r Hr. pack_step. intros Hs%bool_decide_eq_true. pack_step.
  intros receipt Ha%ok_or_Ok. pack_step. intros Hsel%negb_false_iff. pack_step. intros staged Hst. pack_step.
  destruct (staged_content_binding staged (mm_storage m)) as [binding|e] eqn:Hb; [|by pack_prim].
  destruct (negb _) eqn:Hsame; [by pack_prim|]. apply negb_false_iff, bool_decide_eq_true in Hsame as ->.
  pack_step. intros s [[]|e]; [|by pack_prim]. pack_step. pack_step.
  pose proof (po_records _ _ Hm _ _ Hr) as Hok. destruct (ro_receipt _ _ _ _ Hok Hs) as (receipt'&Ha'&Hatt).
  assert (receipt' = receipt) as -> by congruence.
  set (m1 := map_staged (delete identity) (set_storage s m)).
  apply wpi_bind, (wpi_get_record_some _ _ r); [done|]. pack_prim. rewrite make_active_move. apply packs_ok_make_active; [|by exists m; left].
  apply packs_ok_event.
  - apply packs_ok_move; [unfold m1; auto with packs|done|done].
  - intros i [= <-]. split.
    + exists r, receipt, staged. split; [done|]. pose proof (ro_selection _ _ _ _ Hok) as Hval.
      split; [by apply selection_for_activation|]. repeat (split; [done|]). done.
    + cbn. intros r'' Hl. apply lookup_alter_Some in Hl as [(_&r0&_&->)|[? _]]; done.
  - done.
Qed.

(** Packs that are active and those kept for a rollback were activated. *)
Lemma packs_ok_packs active rollback references m :
  packs_ok h m →
  map_Forall (λ pack revision, activated h {| pr_pack_id := pack; pr_revision := revision |}) active →
  map_Forall (λ pack, Forall (λ revision, activated h {| pr_pack_id := pack; pr_revision := revision |})) rollback →
  packs_ok h (set_packs active rollback references m).
Proof. intros [Hr Hp Ha Hb Hi Hh] ??. by split. Qed.

Lemma add_reference_keeps pack_id consumer : keeps (add_reference pack_id consumer).
Proof.
  intros m Hm. unfold add_reference. pack_step. pack_step. intros _. pack_step. intros _. pack_step. intros s [].
  pack_step. by apply (packs_ok_references _ _ (set_storage s m)), packs_ok_storage.
Qed.

Lemma release_reference_keeps pack_id consumer : keeps (release_reference pack_id consumer).
Proof.
  intros m Hm. unfold release_reference. pack_step. intros s persisted. pack_step. pack_step. pack_step.
  by apply (packs_ok_references _ _ (set_storage s m)), packs_ok_storage.
Qed.

Lemma remove_all_keeps identities : keeps (remove_all identities).
Proof.
  induction identities as [|identity identities IH]; intros m Hm; cbn [remove_all]; [by pack_prim|].
  apply wpi_bind. apply (wpi_mono _ _ (λ _ m', packs_ok h m')); [|intros [] m' Hm'; by apply IH].
  assert (packs_ok h (map_records (alter (with_state Removing) identity) m)) as Hm' by (by apply packs_ok_move).
  unfold remove_one. pack_step. pack_step. intros s []. pack_step. pack_step. pack_step.
  auto 6 with packs.
Qed.

Lemma reference_count_keeps {A} pack_id (f : Z → mgr S A) post m :
  packs_ok h m → (∀ n, wpi (packs_ok h) (f n) post m) → wpi (packs_ok h) (n ← reference_count pack_id; f n) post m.
Proof. intros Hm Hf. apply wpi_bind. unfold reference_count. pack_step. pack_step. intros n _. pack_prim. apply Hf. Qed.

Lemma remove_keeps pack_id policy : keeps (remove pack_id policy).
Proof.
  intros m Hm. unfold remove. apply reference_count_keeps; [done|]. intros refs. pack_step. intros _. pack_step.
  apply wpi_bind. eapply wpi_mono; [by apply remove_all_keeps|]. intros [] m' Hm'. pack_step. pack_prim.
  destruct Hm'. apply packs_ok_packs; [done|by apply map_Forall_delete..].
Qed.

Lemma removelast_elem {A} (l : list A) x : x ∈ removelast l → x ∈ l.
Proof.
  induction l as [|y l IH]; [done|]. destruct l as [|z l]; [by intros ?%not_elem_of_nil|].
  change (removelast (y :: z :: l)) with (y :: removelast (z :: l)).
  intros [->|Hx%IH]%elem_of_cons; [by left|by right].
Qed.

Lemma pop_rollback_keeps {A} pack_id (f : option str → mgr S A) post m :
  packs_ok h m →
  (∀ popped m', packs_ok h m' →
    (∀ v, popped = Some v → activated h {| pr_pack_id := pack_id; pr_revision := v |}) →
    wpi (packs_ok h) (f popped) post m') →
  wpi (packs_ok h) (popped ← pop_rollback pack_id; f popped) post m.
Proof.
  intros Hm Hf. apply wpi_bind. unfold wpi at 1, pop_rollback.
  destruct (mm_rollback m !! pack_id) as [vs|] eqn:Hvs; [|by apply Hf].
  pose proof (po_rollback _ _ Hm _ _ Hvs) as Hall. rewrite Forall_forall in Hall. apply Hf.
  - destruct Hm. apply packs_ok_packs; [done|done|]. apply map_Forall_insert_2; [|done].
    apply Forall_forall. intros v Hv%removelast_elem. by apply Hall.
  - intros v Hv%last_Some_elem_of. by apply Hall.
Qed.

Lemma rollback_keeps pack_id : keeps (rollback pack_id).
Proof.
  intros m Hm. unfold rollback. apply reference_count_keeps; [done|]. intros refs. pack_step. intros _.
  apply pop_rollback_keeps; [done|]. intros popped m1 Hm1 Hpop. pack_step. intros v ->%ok_or_Ok. pack_step.
  intros s []. pack_step. pack_step.
  assert (packs_ok h (set_packs (<[pack_id := v]> (mm_active m1)) (mm_rollback m1) (mm_references m1) (set_storage s m1))) as Hm2.
  { apply packs_ok_packs; [auto with packs| |apply (po_rollback _ _ Hm1)].
    apply map_Forall_insert_2; [by apply Hpop|apply (po_active _ _ Hm1)]. }
  pack_step. intros current _. pack_step. pack_step. pack_prim. by repeat apply packs_ok_move.
Qed.

Lemma repair_keeps identity : keeps (begin_repair identity).
Proof.
  intros m Hm. unfold begin_repair. apply wpi_bind. unfold audit. pack_step. intros r Hr. pack_step. intros inspection _.
  pack_prim. destruct (ra_healthy _); [by pack_prim|]. pack_step. intros _ _. pack_step. pack_step. pack_step. pack_prim.
  by apply packs_ok_move; auto with packs.
Qed.

Lemma restart_keeps identity : keeps (restart_repair_downloads identity).
Proof.
  intros m Hm. unfold restart_repair_downloads. pack_step. intros r Hr. pack_step. intros _. pack_prim.
  destruct (po_records _ _ Hm _ _ Hr). apply packs_ok_record; [done|]. split; try done; cbn.
  - intros id j Hl. apply lookup_fmap_Some in Hl as (j'&<-&Hl). by apply (ro_journals0 id j' Hl).
  - by rewrite dom_fmap_L.
Qed.

Lemma install_keeps manifest catalog selection accepted m :
  packs_ok h m →
  wpi (packs_ok h) (begin_install manifest catalog selection accepted)
    (λ _ m', packs_ok h m' ∧ ∃ digest, manifest_digest manifest = Ok digest ∧
      mm_immutable_revisions m' !! manifest_identity manifest = Some digest) m.
Proof.
  intros Hm. unfold begin_install. pack_step. intros [] _. pack_step. intros _. pack_step. intros [] Hv%map_err_Ok.
  pack_step. intros _. pack_step. intros digest Hd%map_err_Ok. pack_step. pack_step. intros Htrust. pack_step.
  destruct (mm_records m !! manifest_identity manifest) as [r|]; [destruct (negb _); by pack_step|].
  pack_step. pack_step. pack_step. pack_prim. split.
  - apply packs_ok_install; [done| |].
    + destruct (new_downloads_ok manifest) as [Hj Hdom]. split; try done. cbn. by rewrite lookup_insert_eq.
    + destruct (mm_immutable_revisions m !! _); [|done]. cbn in *. by apply negb_false_iff, bool_decide_eq_true in Htrust.
  - exists digest. split; [done|]. cbn. by rewrite lookup_insert_eq.
Qed.

Lemma quiet_keeps op (p : mgr S unit) m :
  (∀ identity, op ≠ OpActivate identity) → installs op = None → packs_ok h m →
  wpi (packs_ok h) p (λ _ m', packs_ok h m') m → wpi (packs_ok h) p (λ _ m', packs_ok ((op, m) :: h) m') m.
Proof. intros Ho Hi Hm Hp. eapply wpi_mono; [done|]. intros a m' Hm'. by apply packs_ok_quiet. Qed.

Lemma forget_keeps {A} (p : mgr S A) m :
  wpi (packs_ok h) p (λ _ m', packs_ok h m') m → wpi (packs_ok h) (forget p) (λ _ m', packs_ok h m') m.
Proof. intros Hp. apply wpi_bind. eapply wpi_mono; [done|]. by intros a m' Hm'. Qed.

Lemma forget_install manifest (p : mgr S PackRevision) op m :
  (∀ identity, op ≠ OpActivate identity) → installs op = Some manifest →
  wpi (packs_ok h) p (λ _ m', packs_ok h m' ∧ ∃ digest, manifest_digest manifest = Ok digest ∧
      mm_immutable_revisions m' !! manifest_identity manifest = Some digest) m →
  wpi (packs_ok h) (forget p) (λ _ m', packs_ok ((op, m) :: h) m') m.
Proof.
  intros Ho Hi Hp. apply wpi_bind. eapply wpi_mono; [done|]. intros a m' (Hm'&d&?&?).
  apply wpi_ret, packs_ok_event; [done|naive_solver|]. rewrite Hi. intros ? [= <-]. by exists d.
Qed.

Lemma pack_do_keeps op m :
  packs_ok h m → wpi (packs_ok h) (pack_do op) (λ _ m', packs_ok ((op, m) :: h) m') m.
Proof.
  intros Hm. destruct op; cbn [pack_do].
  - by apply (forget_install manifest), install_keeps.
  - apply (forget_install manifest); [done|done|]. unfold begin_update. pack_step. pack_step. intros active _.
    pack_step. intros _. by apply install_keeps.
  - by apply quiet_keeps, journal_keeps.
  - by apply quiet_keeps, accept_keeps.
  - by apply quiet_keeps, stage_keeps.
  - by apply quiet_keeps, authorize_keeps.
  - by apply quiet_keeps, forget_keeps, challenge_keeps.
  - by apply quiet_keeps, abandon_keeps.
  - by apply attest_keeps.
  - by apply activate_keeps.
  - by apply quiet_keeps, add_reference_keeps.
  - by apply quiet_keeps, forget_keeps, release_reference_keeps.
  - by apply quiet_keeps, forget_keeps, remove_keeps.
  - by apply quiet_keeps, forget_keeps, rollback_keeps.
  - by apply quiet_keeps, forget_keeps, repair_keeps.
  - by apply quiet_keeps, restart_keeps.
  - apply quiet_keeps; [done|done|done|]. pack_prim. by apply packs_ok_storage.
Qed.
End operations.

Lemma reachable_packs_ok m h : packs_reach m h → packs_ok h m.
Proof.
  induction 1 as [storage|m h op m' answer _ IH E].
  - split; try apply map_Forall_empty; [by intros op m0 manifest ?%not_elem_of_nil|]. by intros [|??].
  - pose proof (pack_do_keeps h op m IH) as Hk. unfold wpi in Hk. rewrite E in Hk.
    by destruct answer as [[]|].
Qed.

(** A revision was activated at some point of the history, and what was true then. *)
Definition was_earned (h : Past) (identity : PackRevision) : Prop :=
  ∃ h1 m0 h2, h = h1 ++ (OpActivate identity, m0) :: h2 ∧ earned m0 h2 identity.

Lemma activated_earned h identity : history_ok h → activated h identity → was_earned h identity.
Proof.
  intros Hh [m0 Hin]. apply list_elem_of_split in Hin as (h1&h2&->). exists h1, m0, h2. split; [done|]. by apply (Hh h1).
Qed.

(** C40: Whatever sequence of calls the manager sees and whatever the storage answers, every
    activation was earned: its selection is the manifest's own, allows activation and, when
    it was measured, has its evidence; the staged content is the one an attested self-test
    was run on. That attestation answered the outstanding challenge for this revision while
    it was valid, the verifier vouched for the runner that claims it over its very content,
    the test passed within its time with the expected output, all artifacts had verified
    evidence then, and it activated nothing before. Active revisions and rollback targets
    are revisions activated so, and the manifest of an installed revision never changes. *)
Theorem activation_is_earned m h :
  packs_reach m h →
  (∀ h1 identity m0 h2, h = h1 ++ (OpActivate identity, m0) :: h2 → earned m0 h2 identity) ∧
  (∀ pack revision, mm_active m !! pack = Some revision →
    was_earned h {| pr_pack_id := pack; pr_revision := revision |}) ∧
  (∀ pack targets revision, mm_rollback m !! pack = Some targets → revision ∈ targets →
    was_earned h {| pr_pack_id := pack; pr_revision := revision |}) ∧
  (∀ op1 m1 first op2 m2 second, (op1, m1) ∈ h → (op2, m2) ∈ h →
    installs op1 = Some first → installs op2 = Some second → manifest_identity first = manifest_identity second →
    manifest_digest first = manifest_digest second).
Proof.
  intros [Hr Hp Ha Hb Hi Hh]%reachable_packs_ok. split; [done|]. split; [|split].
  - intros p v Hl. apply activated_earned; [done|]. by apply (Ha p v).
  - intros p vs v Hl Hin. apply activated_earned; [done|]. specialize (Hb p vs Hl). rewrite Forall_forall in Hb. by apply Hb.
  - intros o1 m1 f1 o2 m2 f2 Hin1 Hin2 H1 H2 Hid. destruct (Hi _ _ _ Hin1 H1) as (d1&Hd1&Hl1).
    destruct (Hi _ _ _ Hin2 H2) as (d2&Hd2&Hl2). rewrite Hid in Hl1. congruence.
Qed.

(** In every reachable state the records are those of the installed manifests: their
    downloads are its artifacts, the evidence is of its artifacts, and a pack that is
    staged or waits for its test has all of it. *)
Theorem pack_records_ok m h identity r :
  packs_reach m h → mm_records m !! identity = Some r →
  manifest_identity (pk_manifest r) = identity ∧ manifest_digest (pk_manifest r) = Ok (pk_manifest_sha256 r) ∧
  validate_for_manifest (pk_manifest r) (pk_selection r) = Ok tt ∧
  dom (pk_downloads r) = artifact_ids (pk_manifest r) ∧ evidence_ok (pk_manifest r) (pk_evidence r) ∧
  (needs_evidence (pk_state r) = true → complete r).
Proof. intros Hm%reachable_packs_ok Hl. by destruct (po_records _ _ Hm _ _ Hl). Qed.
End history.

(** * A pack in memory

    A digest is 64 digits of its bytes; a structure is serialized to what tells the examples
    apart; a runner is believed. The first version of a small pack is installed, tested and
    activated, and then the second one. *)

Module Demo.

#[local] Instance demo_digests : CatalogApi := {|
  canonical_measured_resource_envelope_bytes p := Ok [];
  sha256_of_bytes bytes := take 64 (((λ b, 48 + b `mod` 10) <$> bytes) ++ replicate 64 48);
  is_trusted_key k := bool_decide (k = lit "release-key");
  verify_signature k algorithm bytes signature := bool_decide (signature = k)
|}.
#[local] Instance demo_packs : PackApi := {|
  manifest_to_vec m := Ok (mf_pack_id m ++ mf_revision m ++ mf_description m);
  canonical_catalog_payload_bytes p := Ok [cp_version p; cp_expires_unix_seconds p];
  admission_to_vec a := Ok [la_snapshot_monotonic_millis a];
  canonical_attestation_payload_bytes p := Ok (ch_nonce (ap_challenge p));
  attestation_to_vec a := Ok (ch_nonce (ap_challenge (at_signed a)));
  replay_to_vec k := Ok (pr_revision k.1.1 ++ k.1.2 ++ k.2)
|}.
#[local] Instance demo_evidence : EvidenceApi := {| evidence_to_vec l := Ok (mjoin (ae_artifact_id <$> l)) |}.

Definition weights : list Z := [1; 2; 3; 4].

Definition demo_artifact : ArtifactV1 := {|
  ar_id := lit "weights"; ar_kind := KindFile; ar_archive_format := None;
  ar_source_urls := [lit "https://models.example/weights.bin"]; ar_size_bytes := 4;
  ar_sha256 := sha256_of_bytes weights; ar_destination := lit "model/weights.bin"; ar_strip_prefix := None;
  ar_required_paths := [] |}.

Definition demo_manifest (revision : string) : ModelPackManifestV1 := {|
  mf_schema := MODEL_PACK_MANIFEST_SCHEMA_V1; mf_pack_id := lit "local.llm"; mf_revision := lit revision;
  mf_display_name := lit "Small"; mf_description := lit "A small model"; mf_source_project := lit "models/small";
  mf_source_revision := lit "4f2a"; mf_capability := {| mc_kind := KindLanguageModel; mc_scope := ScopeGeneric |};
  mf_artifacts := [demo_artifact];
  mf_runtime := {| rc_runtime := lit "llama"; rc_abi := lit "1"; rc_minimum_runtime_revision := None;
    rc_supported_platforms := {[ Windows11 ]}; rc_supported_architectures := {[ X86_64 ]} |};
  mf_hardware := {| hw_minimum_ram_bytes := 1; hw_recommended_ram_bytes := 2; hw_minimum_vram_bytes := None;
    hw_recommended_vram_bytes := None; hw_minimum_cpu_threads := 2; hw_accelerators := {[ AccCpu ]};
    hw_required_cpu_features := ∅ |};
  mf_resources := {| rv_storage_bytes := 4; rv_peak_install_bytes := 8; rv_measured_ram_bytes := None;
    rv_measured_vram_bytes := None; rv_measured_load_millis := None; rv_benchmark_hardware := None;
    rv_quality_tier := TierFast; rv_languages := {[ lit "en" ]} |};
  mf_license := {| li_spdx_expression := None; li_license_name := lit "MIT";
    li_license_url := lit "https://models.example/license"; li_attribution := lit "The authors";
    li_redistributable := true; li_commercial_use := LicenseAllowed; li_derivative_use := LicenseAllowed;
    li_acceptance_required := true; li_notices := [] |};
  mf_self_test := {| stt_kind := lit "generate"; stt_suite_revision := lit "1";
    stt_allowed_runtime_backends := {[ lit "cpu" ]}; stt_input_fixture := lit "fixtures/hello.txt";
    stt_expected_output_sha256 := None; stt_timeout_millis := 1000 |} |}.

Definition demo_id (revision : string) : PackRevision :=
  {| pr_pack_id := lit "local.llm"; pr_revision := lit revision |}.

Definition demo_admission (revision : string) : LoadoutAdmissionV1 := {|
  la_snapshot_monotonic_millis := 7; la_device_fingerprint_sha256 := lit "device";
  la_models := [{| am_role := KindLanguageModel; am_identity := demo_id revision;
    am_manifest_sha256 := match manifest_digest (demo_manifest revision) with Ok d => d | Err _ => [] end;
    am_measured_envelope_sha256 := []; am_mode := CpuResident;
    am_measurement := {| pm_resident_ram_bytes := 1; pm_p99_total_ram_bytes := 1; pm_resident_vram_bytes := 0;
      pm_p99_workspace_vram_bytes := 0; pm_p99_load_millis := 1; pm_p99_reload_millis := 1;
      pm_p99_operation_millis := 1 |} |}];
  la_vram_soft_ceiling_bytes := 0; la_protected_desktop_and_game_vram_bytes := 0;
  la_selected_peak_vram_bytes := 0; la_vram_safety_bytes := 0; la_projected_total_vram_bytes := 0;
  la_ram_soft_ceiling_bytes := 0; la_selected_peak_ram_bytes := 0; la_ram_safety_bytes := 0 |}.

Definition demo_selection (revision : string) (action : PackSelectionActionV1) : PackSelectionAuthorizationV1 :=
  match measured_local_authorize (demo_manifest revision) (user_request (lit "choice-1") action 5)
          (Some (demo_admission revision)) with
  | Ok s => s
  | Err _ => selection_of [] (demo_manifest revision) [] (user_request [] InstallOnly 0) None
  end.

Definition demo_verifier : SelfTestAttestationVerifier :=
  λ runner proof payload, Ok {| vr_runner_id := runner; vr_trust_revision := lit "1" |}.

Definition demo_binding : CatalogInstallBindingV1 := {|
  cb_catalog_payload_sha256 := []; cb_catalog_version := 3; cb_trust_domain := ReleaseThreshold |}.

Abbreviation Memory := InMemoryPackStorage.
Abbreviation demo_do := (pack_do (S := Memory) demo_verifier).

Definition run_op (state : ModelPackManager Memory * list (PackOp (S := Memory) * ModelPackManager Memory))
    (op : PackOp (S := Memory)) : ModelPackManager Memory * list (PackOp (S := Memory) * ModelPackManager Memory) :=
  let '(m', answer) := demo_do op state.1 in (m', if is_ok answer then (op, state.1) :: state.2 else state.2).

Lemma run_reach ops state :
  packs_reach demo_verifier state.1 state.2 →
  packs_reach demo_verifier (foldl run_op state ops).1 (foldl run_op state ops).2.
Proof.
  revert state. induction ops as [|op ops IH]; intros state Hs; [done|]. apply IH. unfold run_op.
  destruct (demo_do op state.1) as [m' answer] eqn:E. by apply (packs_step _ state.1 state.2 op).
Qed.

Definition nonce_of (c : Z) : str := replicate 64 c.

(** From the first byte to the active pack. The attestation answers the challenge. *)
Definition get_ready (revision : string) : list (PackOp (S := Memory)) :=
  [OpInstall (demo_manifest revision) demo_binding (demo_selection revision InstallOnly) true;
   OpJournal (demo_id revision) (lit "weights") (CallRecordBytes 4);
   OpAccept (demo_id revision)
     {| ae_artifact_id := lit "weights"; ae_size_bytes := 4; ae_sha256 := sha256_of_bytes weights |}].

Definition try_out (revision : string) : list (PackOp (S := Memory)) :=
  [OpStage (demo_id revision);
   OpAuthorize (demo_id revision) (demo_selection revision InstallAndActivate);
   OpChallenge (demo_id revision) (lit "cpu") 100 60 (Ok (nonce_of 97))].

Definition answer_for (revision : string) (m : ModelPackManager Memory) : SelfTestAttestationV1 :=
  let challenge := default {| ch_schema := []; ch_identity := demo_id revision; ch_manifest_sha256 := [];
      ch_catalog := demo_binding;
      ch_staged := {| sb_identity := demo_id revision; sb_transaction_id := []; sb_manifest_sha256 := [];
        sb_content_tree_sha256 := []; sb_file_count := 0; sb_total_file_bytes := 0 |};
      ch_runtime_abi := []; ch_runtime_backend := []; ch_test_suite_id := []; ch_test_suite_revision := [];
      ch_nonce := []; ch_issued_unix_seconds := 0; ch_expires_unix_seconds := 0 |}
    (mm_pending_self_tests m !! demo_id revision) in
  {| at_signed := {| ap_schema := SELF_TEST_ATTESTATION_SCHEMA_V1; ap_challenge := challenge;
       ap_runner_id := lit "runner";
       ap_outcome := {| ao_passed := true; ao_duration_millis := 20; ao_output_sha256 := None; ao_diagnostic_code := None |} |};
     at_proof := {| apr_algorithm := []; apr_value := [] |} |}.

Abbreviation State := (ModelPackManager Memory * list (PackOp (S := Memory) * ModelPackManager Memory))%type.
Definition install_and_activate (revision : string) (state : State) : State :=
  let state := foldl run_op state (get_ready revision ++ try_out revision) in
  foldl run_op state [OpAttest (demo_id revision) (answer_for revision state.1) 110; OpActivate (demo_id revision)].

Definition fresh : State := (manager_new in_memory_default, []).
Definition both : State := install_and_activate "2" (install_and_activate "1" fresh).

Lemma install_and_activate_reach revision state :
  packs_reach demo_verifier state.1 state.2 →
  packs_reach demo_verifier (install_and_activate revision state).1 (install_and_activate revision state).2.
Proof. intros Hs. unfold install_and_activate. by apply run_reach, run_reach. Qed.

Lemma both_reachable : packs_reach demo_verifier both.1 both.2.
Proof. apply install_and_activate_reach, install_and_activate_reach, packs_start. Qed.

Example both_active :
  (mm_active both.1 !! lit "local.llm", mm_rollback both.1 !! lit "local.llm", length both.2) =
  (Some (lit "2"), Some [lit "1"], 16%nat).
Proof. vm_compute. reflexivity. Qed.

(** The second version is active, the first one is where a rollback leads; both were earned. *)
Lemma activation_witness :
  was_earned demo_verifier both.2 (demo_id "2") ∧ was_earned demo_verifier both.2 (demo_id "1").
Proof.
  destruct (activation_is_earned demo_verifier both.1 both.2 both_reachable) as (_&Hactive&Hrollback&_).
  split; [apply (Hactive (lit "local.llm")); vm_compute; reflexivity|].
  apply (Hrollback (lit "local.llm") [lit "1"]); [vm_compute; reflexivity|by apply list_elem_of_singleton].
Defined.

Lemma verify_artifact_witness :
  verify_artifact (lit "weights") 4 (sha256_of_bytes weights) [Ok [1; 2]; Ok [3; 4]; Ok []] =
  Ok {| ae_artifact_id := lit "weights"; ae_size_bytes := 4; ae_sha256 := sha256_of_bytes weights |}.
Proof.
  apply verify_artifact_exact; [by vm_compute|]. exists weights. split; [reflexivity|]. split; [reflexivity|].
  split; [vm_compute; reflexivity|reflexivity].
Defined.

Lemma manifest_validate_witness : well_formed_manifest (demo_manifest "1").
Proof.
  apply manifest_validate_exact; [by repeat constructor|]. vm_compute. reflexivity.
Defined.

(** ** What the lifecycle does not do *)

Definition with_installed (f : gmap PackRevision StorageInspection → gmap PackRevision StorageInspection)
    (s : Memory) : Memory := {|
  im_staged := im_staged s; im_installed := f (im_installed s); im_active := im_active s;
  im_staged_bindings := im_staged_bindings s; im_consumed_attestations := im_consumed_attestations s;
  im_transaction_counter := im_transaction_counter s |}.
Definition damaged (i : StorageInspection) : StorageInspection := {|
  in_present := true; in_content_healthy := false; in_manifest_sha256 := in_manifest_sha256 i;
  in_content_tree_sha256 := in_content_tree_sha256 i; in_artifact_evidence := in_artifact_evidence i |}.

(** The first version is damaged and its repair begun; the rollback makes it active, with no
    evidence and no receipt, and its artifacts are not accepted any more. *)
Definition repair_then_rollback : State :=
  foldl run_op both
    [OpStorage (with_installed (alter damaged (demo_id "1")) (mm_storage both.1));
     OpRepair (demo_id "1"); OpRestart (demo_id "1"); OpRollback (lit "local.llm")].

Example rollback_onto_a_repair :
  (mm_active repair_then_rollback.1 !! lit "local.llm",
   (λ r, (pk_state r, size (pk_evidence r), is_some (pk_self_test_authorization r)))
     <$> mm_records repair_then_rollback.1 !! demo_id "1",
   (demo_do (OpJournal (demo_id "1") (lit "weights") (CallRecordBytes 4)) repair_then_rollback.1).2) =
  (Some (lit "1"), Some (Active, 0%nat, false), Err (MgInvalidState Active)).
Proof. vm_compute. reflexivity. Qed.

(** A rollback the storage refuses has already taken the target off the list. *)
Example refused_rollback_loses_target :
  let m := set_storage (with_installed (λ _, ∅) (mm_storage both.1)) both.1 in
  let '(m', answer) := demo_do (OpRollback (lit "local.llm")) m in
  (answer, mm_rollback m' !! lit "local.llm", (demo_do (OpRollback (lit "local.llm")) m').2) =
  (Err (MgStorage {| sx_message := lit "rollback target is not installed" |}), Some [], Err MgNoRollback).
Proof. vm_compute. reflexivity. Qed.

(** A storage that fails to stage leaves the pack in [Staging], where [install_or_resume]
    refuses to resume it. *)
Definition demo_lifecycle : TrustedOptionalPackLifecycleV1 := {|
  tl_catalog := {|
    tc_payload := {| cp_schema := []; cp_version := 3; cp_generated_unix_seconds := 0; cp_expires_unix_seconds := 1;
      cp_entries := [] |};
    tc_entries := {[ demo_id "1" := {| ce_manifest := demo_manifest "1";
      ce_manifest_sha256 := match manifest_digest (demo_manifest "1") with Ok d => d | Err _ => [] end;
      ce_channels := ∅; ce_published_unix_seconds := 0; ce_revoked := false; ce_revocation_reason := None |} ]};
    tc_payload_digest := [] |};
  tl_catalog_binding := demo_binding |}.

Example failed_staging_is_not_resumed :
  let m := (foldl run_op fresh (get_ready "1")).1 in
  (pk_state <$> mm_records m !! demo_id "1",
   (install_or_resume demo_lifecycle (λ _ _, Err OlState) (demo_id "1") (lit "choice-1") 5 true true m).2) =
  (Some Staging, Err OlState).
Proof. vm_compute. reflexivity. Qed.

(** From nothing, the whole installation goes as far as the self-test. *)
Example installs_to_the_self_test :
  (install_or_resume demo_lifecycle
     (λ _ a, Ok {| ae_artifact_id := ar_id a; ae_size_bytes := ar_size_bytes a; ae_sha256 := ar_sha256 a |})
     (demo_id "1") (lit "choice-1") 5 true true fresh.1).2 = Ok AwaitingSelfTest.
Proof. vm_compute. reflexivity. Qed.

(** ** A history of two catalogs *)

Definition demo_catalog_of (version : Z) : SignedCatalogV1 := {|
  sc_signed := {| cp_schema := SIGNED_CATALOG_SCHEMA_V1; cp_version := version; cp_generated_unix_seconds := 10;
    cp_expires_unix_seconds := 1000; cp_entries := (map_to_list (tc_entries (tl_catalog demo_lifecycle))).*2 |};
  sc_signatures := [{| cs_key_id := lit "release-key"; cs_algorithm := lit "ed25519"; cs_signature := lit "release-key" |}] |}.
Definition demo_policy : CatalogTrustPolicy := {|
  ctp_signature_threshold := 1; ctp_maximum_lifetime_seconds := 1000; ctp_maximum_clock_skew_seconds := 0 |}.
Definition accept (version : Z) (state : CatalogTrustState) : result CatalogError (TrustedCatalog * CatalogTrustState) :=
  verify_catalog (demo_catalog_of version) demo_policy state 20.

Definition accepted (version : Z) (state : CatalogTrustState) : TrustedCatalog * CatalogTrustState :=
  match accept version state with Ok r => r | Err _ => (tl_catalog demo_lifecycle, state) end.
Definition after_one := accepted 1 catalog_trust_state_default.
Definition after_two := accepted 2 after_one.2.

Lemma accept_run version older state :
  is_ok (accept version state) = true → catalog_run older state →
  catalog_run ((accepted version state).1 :: older) (accepted version state).2.
Proof.
  intros Hok Hrun. unfold accepted. destruct (accept version state) as [[tc next]|] eqn:E; [|done].
  by apply (catalog_run_accept _ state (demo_catalog_of version) demo_policy 20).
Qed.

(** A moving name is a revision like any other. *)
Example latest_is_a_revision :
  revision_parse (lit "latest") = Ok (lit "latest") ∧ is_ok (manifest_validate (demo_manifest "latest")) = true.
Proof. split; vm_compute; reflexivity. Qed.

(** Version 0 is not held against another version 0; of version 1 there is one. *)
Definition other_catalog_of (version : Z) : SignedCatalogV1 := {|
  sc_signed := {| cp_schema := SIGNED_CATALOG_SCHEMA_V1; cp_version := version; cp_generated_unix_seconds := 10;
    cp_expires_unix_seconds := 501; cp_entries := [] |};
  sc_signatures := sc_signatures (demo_catalog_of version) |}.
Definition then_other (version : Z) : result CatalogError (bool * Z) :=
  first ← accept version catalog_trust_state_default;
  second ← verify_catalog (other_catalog_of version) demo_policy first.2 20;
  Ok (str_eqb (tc_payload_digest first.1) (tc_payload_digest second.1), cts_highest_version second.2).
Example version_zero_is_replaced :
  then_other 0 = Ok (false, 0) ∧ then_other 1 = Err (CatVersionEquivocation 1).
Proof. split; vm_compute; reflexivity. Qed.

Lemma catalogs_witness :
  supersedes after_two.1 after_one.1 ∧
  (accept 1 after_two.2 = Err (CatRollback 2 1) ∧
   ∀ e1 e2, tc_entries after_one.1 !! demo_id "1" = Some e1 → tc_entries after_two.1 !! demo_id "1" = Some e2 →
     ce_manifest_sha256 e1 = ce_manifest_sha256 e2).
Proof.
  assert (catalog_run [after_two.1; after_one.1] after_two.2) as Hrun.
  { apply accept_run; [vm_compute; reflexivity|]. apply accept_run; [vm_compute; reflexivity|]. apply catalog_run_start. }
  destruct (catalogs_never_roll_back _ _ Hrun) as [Hsorted Hsame]. split; [|split].
  - apply StronglySorted_inv in Hsorted as [_ Hall]. by apply Forall_cons in Hall as [? _].
  - vm_compute. reflexivity.
  - intros e1 e2 H1 H2. apply (Hsame after_one.1 after_two.1 (demo_id "1")); [right; left|left|done|done].
Defined.
End Demo.
